(* ===== verification/_CoqProject ===== *)
-Q . S2P
Prelude.v
Utf8.v
UnicodeTables.v
Unicode.v
Format.v
Tokens.v
Source.v
Stream.v
Scanner.v
ScannerFacts.v
FormatFacts.v
Search.v
SearchFacts.v
Strings.v
StringsFacts.v
Constraint.v
ConstraintFacts.v
PlusBuild.v
Lexis.v
Pos.v
Nodes.v
Walk.v
WellFormed.v
Positions.v
PositionFacts.v
Exprs.v
Printer.v
PrinterFacts.v
Branches.v
BranchFacts.v
Parser.v
ParserFacts.v
Grammar.v
GrammarFacts.v
TypeFacts.v
ExprFacts.v
OperatorFacts.v
StmtFacts.v
FileFacts.v
Precedence.v
ParserProps.v
ParserRelation.v
ParserRefines.v
ParserErrors.v
Bits.v
Magic.v
MagicFacts.v
Ssa.v
Words.v
Quotients.v
SsaFacts.v
Divisions.v
DivisionFacts.v
DivisionLiveness.v
BitOps.v
BitOpsFacts.v
Wide.v
WideFacts.v
Abt.v
SortedMaps.v
AbtTrees.v
AbtNodes.v
AbtInsert.v
AbtDelete.v
AbtFacts.v
AbtIter.v
AbtMerge.v
Upper.v
Objects.v
Terms.v
Termlists.v
TypeSets.v
TermFacts.v
TermlistFacts.v
TypeSetFacts.v
Types.v
Identity.v
