(* ===== verification/Prelude.v ===== *)
(** * The Goo compiler: a verification library

    Goo is a dialect of Go.  This development models parts of its compiler: the
    front end, src/src/cmd/compile/internal/syntax, from the bytes of a file to
    the syntax tree; the type sets and the identity of types of the type checker
    (types2); the rules of the back end that replace integer divisions (ssa); the
    applicative maps that the back end uses (abt); and what they call of the
    standard library.  It proves what they promise.  This file is the shared
    prelude; its contents start after this overview.

    ** The program

    [syntax.Parse] reads a file through a buffered reader (source.go), which
    decodes UTF-8 and reports invalid bytes; the tokenizer (scanner.go) makes
    tokens of the characters, inserts semicolons, and reports comments and
    directives; the parser (parser.go) builds the tree (nodes.go), checks the
    branches of every function body (branches.go) and follows line directives
    (pos.go) and build lines (go/build/constraint).  Trees are printed
    (printer.go), walked (walk.go) and measured (positions.go).  Goo adds word
    operators, the characters for != and !, comments with #, enumerations, check
    statements, statements at the top level of a file, and more.

    The type checker turns the trees into types.  It compares types
    (predicates.go), and computes for every interface the set of types that it
    stands for (typeset.go), with lists of terms (termlist.go, typeterm.go).  In
    Goo slices of comparable elements are comparable ([comparableType]), although
    the language specification and the tests that come with it still say that no
    slice is.

    After the translation to values (ssa/value.go) the rules of rewritegeneric.go
    replace divisions by constants with multiplications and shifts, with the
    constants of magic.go.  Other passes keep versions of a map in balanced trees
    that share their nodes (abt/avlint32.go).

    ** The files

    The front end and the library that it calls:

    - Prelude.v: Go values, the monad [GM] of effects (state, trace of events,
      panic, lack of fuel), its Hoare logic [wp], loops, lists and slices.
    - Utf8.v: unicode/utf8.  UnicodeTables.v, Unicode.v, Upper.v: the tables and
      lookups of package unicode, strconv/isprint.go.  Format.v, FormatFacts.v:
      what the messages use of strconv and fmt, and reading numbers back.
    - Tokens.v: tokens.go, token_string.go.
    - Source.v: source.go.  Stream.v: the stream of characters that it
      implements, and the class [SourceLaws] that its clients use.
    - Scanner.v: scanner.go, over any reader of the class [RuneSource].
      ScannerFacts.v, Lexis.v: its properties.
    - Search.v, SearchFacts.v: internal/stringslite and internal/bytealg.
      Strings.v, StringsFacts.v: package strings.  Constraint.v,
      ConstraintFacts.v, PlusBuild.v: go/build/constraint.
    - Pos.v: pos.go.  Nodes.v: nodes.go.  WellFormed.v: the invariant of the
      trees.  Walk.v: walk.go.  Positions.v, PositionFacts.v: positions.go.
      Printer.v, PrinterFacts.v: printer.go.  Branches.v, BranchFacts.v:
      branches.go.
    - Exprs.v: the functions of parser.go on expressions.  Parser.v: the state,
      tokens, errors and directives of parser.go.  Grammar.v: its productions.
      ParserFacts.v, GrammarFacts.v, TypeFacts.v, ExprFacts.v,
      OperatorFacts.v, StmtFacts.v, FileFacts.v: the program logic of the
      parser and what every production promises. Precedence.v: the trees of
      binary expressions. ParserProps.v: line directives, recovery, struct
      tags, goo's additions. ParserRelation.v: the interface [ProdRelLaws] of
      a relation between two parsers that holds for all productions once it
      holds for the primitives; ParserRefines.v and ParserErrors.v are its
      instances, for two readers, and for the parser with and without an error
      handler.

    Types:

    - Objects.v: names, ids and the order of objects (object.go, objset.go).
      Types.v: types as trees, [identical], [comparableType] (predicates.go);
      the declarations of a program are the class [Decls].  Identity.v: identity
      is an equivalence that underlying types and comparability respect.
    - Terms.v: typeterm.go, over any types of the class [TypeOps] with the laws
      [TypeLaws]; Identity.v makes the types of Types.v an instance.  Termlists.v:
      termlist.go.  TypeSets.v: typeset.go and union.go.  TermFacts.v,
      TermlistFacts.v, TypeSetFacts.v: they compute with the sets of types that
      they stand for.

    Divisions:

    - Bits.v, BitOps.v, BitOpsFacts.v, Wide.v, WideFacts.v: math/bits, the whole
      package: lengths, zeros, counts, rotations and reversals, and the
      arithmetic of double words.
    - Magic.v: magic.go, with integers for big integers; MagicFacts.v: its
      constants divide, and test for divisibility, as documented.
    - Ssa.v: values, the integer operations that the rules use ([Op]) and what
      they compute ([eval]), the typing [wt] of values, and the helpers of the
      rules (rewrite.go).  Operations of other kinds are [OpOther]s with any
      meaning.  A division by 0 computes 0, and the averages are used with a
      first operand that is not below the second, as the rules have them.
      Words.v, Quotients.v: words of a width, and quotients by shifts.
    - Divisions.v: the rules for divisions and remainders, function by function.
      SsaFacts.v, DivisionFacts.v, DivisionLiveness.v: a rule keeps the value and
      the types, and every division by a constant meets a rule.

    Maps:

    - Abt.v: avlint32.go on a store of nodes.  SortedMaps.v: sorted lists of
      pairs, the specification.  AbtTrees.v: the tree that a store holds at a
      node, and programs that only add nodes.  AbtNodes.v, AbtInsert.v,
      AbtDelete.v: rotations, insertion and deletion.  AbtFacts.v: the operations
      on maps.  AbtIter.v: iterators and comparison.  AbtMerge.v: the merges.

    A struct of the code is a record with the same fields, a node type is a
    constructor, a method is a definition with the method's name (with an
    underscore where Rocq does not allow it).  A Go string is a Rocq string or
    a list of bytes; a pointer to a node is the node, with an identity where the
    code compares pointers ([newId]), and a location of the store in Abt.v; nil
    is [None].  Fixed-width integers wrap around by [u64], [u32], [s64] and the
    like.  The callbacks of the code (error handler, pragma handler, visitor,
    output writer) are the trace of events of the monad or its arguments.

    ** What is proved

    - Totality: [Parse] returns on every input, without a run-time panic and
      without an endless loop, with a well-formed file or an error, for every
      order of map iterations, and for every mode with an error handler, and
      without one as far as branches are not checked (the predicate [handled]:
      the checker of branches calls the handler); so do the tokenizer, the
      checker of branches on well-formed bodies, the printer's [String],
      [EndPos], the parser of build expressions, [comparableType] on recursive
      types, the computation of type sets, and the rules for divisions.
    - Refinement: the buffered reader implements the stream of characters;
      hence tokens, and the whole result of [Parse], do not depend on how the
      input arrives, as far as it has no NUL bytes (the exception is proved).
      The maps of abt implement sorted lists of pairs, every map by itself
      although they share nodes.  [computeInterfaceTypeSet] implements the type
      sets that the language defines, for unions of up to 100 terms; beyond that
      a union is left out ([union_limit]).
    - Functional correctness: precedence of binary operators, and that the
      tree of [binaryExpr] is the only one; words, keywords and digit
      separators; UTF-8 and its validity; letters; numbers read and written;
      binary search; the first occurrence of a text with all the searches;
      splitting; the calls of [Inspect] on trees whose parts the walk knows
      ([whole]); the meaning of build constraints under their conversions; the
      operations on terms, term lists and type sets as operations on sets; the
      constants for divisions, and that a rewritten division computes the
      same; the arithmetic of double words.
    - Error behaviour, with the checker of branches off: the first error that
      is reported is the one returned; without a handler the parser stops at
      exactly this error, and otherwise does the same.  Recovery stops at the
      tokens of the follow set.
    - Round trips: runes, integers, line directives, build lines, release tags,
      rotations and reversals.

    ** Bounds and fuel

    Loops that are not structural take fuel that a proof shows to be enough.
    [loopM] and [ploop] take it from a measure of the state: the bytes that are
    left in the reader, or the tokens that are left to the parser, for each
    round consumes one.  The productions of the grammar recurse openly: [Level]
    takes the productions of the next nesting level, and a level more than the
    tokens left is never reached.  Decimal texts of 64-bit integers have at most
    20 digits (10 pairs); [fill_rune] needs four rounds for a character of four
    bytes; [fill] gives up after ten empty reads, as the code does; [oder_at]
    nests at most [maxSize] deep, where the code reports an error.
    [isNonNegative] takes the height of the value; the corrections of [Div64]
    are at most two, of three rounds; [comparableType] needs one round more than
    there are types to look into ([parts]).  The trees of abt are at most 64 high
    ([height_bound]), and [max_depth] is 128; their loops over a map take its
    size.  [NoFuel] is a result of its own, which the totality theorems exclude.

    ** What is not modelled

    - The trace of events before a panic is dropped: [Parse] recovers a panic
      only where no handler exists.
    - dumper.go prints a tree for debugging by reflection, testing.go serves the
      tests, type.go is filled in by the type checker; tracing is compiled out.
    - The access to files ([ParseFile]) is the operating system's; the pragma
      handler is an argument.  enumDecl, createEnumNameMap and needsFmtImport are
      not called by anything.
    - The assembly routines of bytealg are the class [Bytealg] with the laws
      that its documentation gives; the instance is the generic Go code.
    - [printer] does not keep the number of bytes written when a write fails.
    - Of types, type parameters, constraint interfaces as the types of values,
      and instantiation; the caches of type sets, and the parsing of unions.  The
      rest of the type checker.
    - Of ssa, blocks, memory, the sharing of values, and the rules of other
      operations; the rules and opcode tables of the machines are generated.
    - Maps of abt with values that Go cannot compare, where the merges panic;
      printing of a value is an argument of [String].
    - The other phases of the compiler (noder, ir, walk, escape), the runtime, the
      go command and the rest of the standard library: they are several hundred
      thousand lines, and not part of these components. *)

From Stdlib Require Export ZArith Lia ZifyBool Bool.
From Stdlib Require Import Ascii.
From stdpp Require Export base list strings option numbers.

#[global] Open Scope Z_scope.
#[global] Open Scope list_scope.

(** ** Go values

    A Go [byte], [rune], [int] or [uint] is a [Z]; the places where the
    width matters write the wrap-around.  A Go [string] is a sequence of
    bytes, which is what a Rocq [string] is. *)

Abbreviation rune := Z.
Abbreviation byte := Z.

Definition byte_of_ascii (c : ascii) : byte := Z.of_N (N_of_ascii c).
Definition ascii_of_byte (b : byte) : ascii := ascii_of_N (Z.to_N b).

Fixpoint bytes_of_string (s : string) : list byte :=
  match s with
  | EmptyString => []
  | String c s' => byte_of_ascii c :: bytes_of_string s'
  end.

Fixpoint string_of_bytes (bs : list byte) : string :=
  match bs with
  | [] => EmptyString
  | b :: bs' => String (ascii_of_byte b) (string_of_bytes bs')
  end.

(** Character constants: ["("%rune] is [40]. *)
Definition rune_parse (bs : list Byte.byte) : option Z :=
  match bs with [c] => Some (Z.of_N (Byte.to_N c)) | _ => None end.
Definition rune_print (_ : Z) : option (list Byte.byte) := None.
Declare Scope rune_scope.
Delimit Scope rune_scope with rune.
String Notation Z rune_parse rune_print : rune_scope.

(** Wrap-around of the 64-bit, 32-bit, 16-bit and 8-bit unsigned types. *)
Definition u64 (x : Z) : Z := x mod 2 ^ 64.
Definition u32 (x : Z) : Z := x mod 2 ^ 32.
Definition u16 (x : Z) : Z := x mod 2 ^ 16.
Definition u8 (x : Z) : Z := x mod 2 ^ 8.

(** Wrap-around of the signed types. *)
Definition s8 (x : Z) : Z := (x + 2 ^ 7) mod 2 ^ 8 - 2 ^ 7.
Definition s16 (x : Z) : Z := (x + 2 ^ 15) mod 2 ^ 16 - 2 ^ 15.
Definition s32 (x : Z) : Z := (x + 2 ^ 31) mod 2 ^ 32 - 2 ^ 31.
Definition s64 (x : Z) : Z := (x + 2 ^ 63) mod 2 ^ 64 - 2 ^ 63.

(** A byte value. *)
Definition is_byte (b : byte) : Prop := 0 <= b < 256.

(** [s[i]] of a slice, with the default read past the end of the slice
    (the model only reads there where the code's bounds check fails first). *)
Definition nthZ {A} (d : A) (l : list A) (i : Z) : A :=
  if i <? 0 then d else nth (Z.to_nat i) l d.

(** Length of a slice or string as a Go [int]. *)
Definition lenZ {A} (l : list A) : Z := Z.of_nat (length l).
Definition slen (s : string) : Z := Z.of_nat (String.length s).

(** Slices [l[i:j]]. *)
Definition slice {A} (l : list A) (i j : Z) : list A :=
  take (Z.to_nat (j - i)) (drop (Z.to_nat i) l).

(** [x != nil] of an optional value. *)
Definition is_some {A} (x : option A) : bool := match x with Some _ => true | None => false end.

(** ** The state, trace and panic monad

    The front end mutates a state [S], calls handlers (recorded as a trace of
    events [E], in call order) and may panic with a value of type [V].
    [NoFuel] is the outcome of a loop whose fuel ran out: the termination
    theorems show that it does not happen. *)

Inductive res (V A : Type) : Type :=
| Ok (a : A)
| Panic (v : V)
| NoFuel.
Arguments Ok {V A} a.
Arguments Panic {V A} v.
Arguments NoFuel {V A}.

Definition GM (V E S A : Type) : Type := S -> res V (A * S * list E).

Section Monad.
Context {V E S : Type}.

Definition ret {A} (a : A) : GM V E S A := fun s => Ok (a, s, []).

Definition bind {A B} (m : GM V E S A) (k : A -> GM V E S B) : GM V E S B :=
  fun s =>
    match m s with
    | Ok (a, s1, t1) =>
        match k a s1 with
        | Ok (b, s2, t2) => Ok (b, s2, t1 ++ t2)
        | Panic v => Panic v
        | NoFuel => NoFuel
        end
    | Panic v => Panic v
    | NoFuel => NoFuel
    end.

Definition gets {A} (f : S -> A) : GM V E S A := fun s => Ok (f s, s, []).
Definition modify (f : S -> S) : GM V E S unit := fun s => Ok (tt, f s, []).
Definition emit (e : E) : GM V E S unit := fun s => Ok (tt, s, [e]).
Definition panic {A} (v : V) : GM V E S A := fun _ => Panic v.
Definition out_of_fuel {A} : GM V E S A := fun _ => NoFuel.

(** A loop: [body x] either goes round again with a new loop variable
    ([inl]) or leaves the loop with a result ([inr]). *)
Fixpoint iterM {X Y} (fuel : nat) (body : X -> GM V E S (X + Y)) (x : X)
  : GM V E S Y :=
  match fuel with
  | O => out_of_fuel
  | Datatypes.S n =>
      bind (body x) (fun r =>
        match r with
        | inl x' => iterM n body x'
        | inr y => ret y
        end)
  end.

(** [for cond { body }]: the condition is read from the state. *)
Definition whileM (fuel : S -> nat) (cond : S -> bool) (body : GM V E S unit)
  : GM V E S unit :=
  bind (gets fuel) (fun n =>
    iterM n (fun _ => bind (gets cond) (fun b =>
               if b then bind body (fun _ => ret (inl tt)) else ret (inr tt))) tt).
End Monad.

Declare Scope go_scope.
Delimit Scope go_scope with go.
Notation "'let*' x ':=' c 'in' k" := (bind c (fun x => k))
  (at level 10, x pattern, c at level 100, k at level 200) : go_scope.
Notation "c ';;;' k" := (bind c (fun _ => k))
  (at level 100, k at level 200, right associativity) : go_scope.
Notation "'when' b 'do' c" := (if b then c else ret tt)
  (at level 95, b at level 99, c at level 95) : go_scope.

(** ** Equations of the monad *)
Section MonadLaws.
Context {V E S : Type}.
Implicit Types s : S.

Lemma bind_ret {A B} (a : A) (k : A -> GM V E S B) s : bind (ret a) k s = k a s.
Proof. unfold bind, ret. by destruct (k a s) as [[[? ?] ?]| |]. Qed.

Lemma bind_gets {A B} (f : S -> A) (k : A -> GM V E S B) s : bind (gets f) k s = k (f s) s.
Proof. unfold bind, gets. by destruct (k (f s) s) as [[[? ?] ?]| |]. Qed.

Lemma bind_modify {B} (f : S -> S) (k : unit -> GM V E S B) s :
  bind (modify f) k s = k tt (f s).
Proof. unfold bind, modify. by destruct (k tt (f s)) as [[[? ?] ?]| |]. Qed.

Lemma bind_emit {B} (e : E) (k : unit -> GM V E S B) s :
  bind (emit e) k s =
  match k tt s with
  | Ok (b, s', t) => Ok (b, s', e :: t)
  | Panic v => Panic v
  | NoFuel => NoFuel
  end.
Proof. unfold bind, emit. by destruct (k tt s) as [[[? ?] ?]| |]. Qed.

Lemma bind_assoc {A B C} (m : GM V E S A) (k : A -> GM V E S B) (h : B -> GM V E S C) s :
  bind (bind m k) h s = bind m (fun a => bind (k a) h) s.
Proof.
  unfold bind. destruct (m s) as [[[a s1] t1]| |]; [|done..].
  destruct (k a s1) as [[[b s2] t2]| |]; [|done..].
  destruct (h b s2) as [[[c s3] t3]| |]; [|done..]. by rewrite app_assoc.
Qed.

Lemma bind_Ok {A B} (m : GM V E S A) (k : A -> GM V E S B) a s s' t :
  m s = Ok (a, s', t) ->
  bind m k s =
  match k a s' with
  | Ok (b, s2, t2) => Ok (b, s2, t ++ t2)
  | Panic v => Panic v
  | NoFuel => NoFuel
  end.
Proof. intros H. unfold bind. by rewrite H. Qed.
End MonadLaws.

(** Computations that do the same from every state. *)
Definition meq {V E S A} (m1 m2 : GM V E S A) : Prop := forall s, m1 s = m2 s.
Infix "=m" := meq (at level 70) : go_scope.

#[export] Instance meq_equiv {V E S A} : Equivalence (@meq V E S A).
Proof.
  split; [by intros m s|by intros m1 m2 Hm s|].
  intros m1 m2 m3 H12 H23 s. by rewrite (H12 s), (H23 s).
Qed.

#[export] Instance bind_meq {V E S A B} :
  Proper (meq ==> pointwise_relation A meq ==> meq) (@bind V E S A B).
Proof.
  intros m1 m2 Hm k1 k2 Hk s. unfold bind. rewrite (Hm s).
  destruct (m2 s) as [[[a s1] t1]| |]; [|done..]. by rewrite (Hk a s1).
Qed.

Section MonadEq.
Context {V E S : Type}.
#[local] Open Scope go_scope.

Lemma bind_assoc_m {A B C} (m : GM V E S A) (k : A -> GM V E S B) (h : B -> GM V E S C) :
  bind (bind m k) h =m bind m (fun a => bind (k a) h).
Proof. intros s. apply bind_assoc. Qed.

Lemma bind_ret_l {A B} (a : A) (k : A -> GM V E S B) : bind (ret a) k =m k a.
Proof. intros s. apply bind_ret. Qed.

Lemma bind_ret_r (m : GM V E S unit) : bind m (fun _ => ret tt) =m m.
Proof.
  intros s. unfold bind, ret. destruct (m s) as [[[[] s1] t1]| |]; [|done..]. by rewrite app_nil_r.
Qed.

Lemma bind_panic {A B} v (k : A -> GM V E S B) : bind (panic v) k =m panic v.
Proof. by intros s. Qed.
End MonadEq.

Create Rewrite HintDb monad.
#[export] Hint Rewrite @bind_ret @bind_gets @bind_modify @bind_emit @bind_assoc : monad.

(** ** Postconditions

    [wp EP EF m Q s]: running [m] from [s] either returns a value, a state and
    a trace that satisfy [Q], or panics with a value that [EP] allows, or runs
    out of fuel when [EF] allows it. *)
Definition wp {V E S A} (EP : V -> Prop) (EF : Prop) (m : GM V E S A)
  (Q : A -> S -> list E -> Prop) (s : S) : Prop :=
  match m s with
  | Ok (a, s', t) => Q a s' t
  | Panic v => EP v
  | NoFuel => EF
  end.

(** Total correctness: no panic, enough fuel. *)
Abbreviation twp := (wp (fun _ => False) False).

Section WP.
Context {V E S : Type} (EP : V -> Prop) (EF : Prop).
Implicit Types s : S.

Lemma wp_ret {A} (a : A) Q s : Q a s [] -> wp EP EF (ret (V:=V) (E:=E) a) Q s.
Proof. done. Qed.

Lemma wp_bind {A B} (m : GM V E S A) (k : A -> GM V E S B) Q s :
  wp EP EF m (fun a s1 t1 => wp EP EF (k a) (fun b s2 t2 => Q b s2 (t1 ++ t2)) s1) s ->
  wp EP EF (bind m k) Q s.
Proof.
  unfold wp, bind. destruct (m s) as [[[a s1] t1]|v|]; [|done..].
  by destruct (k a s1) as [[[b s2] t2]|v|].
Qed.

Lemma wp_gets {A} (f : S -> A) Q s : Q (f s) s [] -> wp EP EF (gets (V:=V) (E:=E) f) Q s.
Proof. done. Qed.

Lemma wp_modify (f : S -> S) Q s : Q tt (f s) [] -> wp EP EF (modify (V:=V) (E:=E) f) Q s.
Proof. done. Qed.

Lemma wp_emit (e : E) Q s : Q tt s [e] -> wp EP EF (emit (V:=V) e) Q s.
Proof. done. Qed.

Lemma wp_panic {A} (v : V) (Q : A -> S -> list E -> Prop) s :
  EP v -> wp EP EF (panic v) Q s.
Proof. done. Qed.

Lemma wp_mono {A} (m : GM V E S A) (Q Q' : A -> S -> list E -> Prop) s :
  wp EP EF m Q s -> (forall a s' t, Q a s' t -> Q' a s' t) -> wp EP EF m Q' s.
Proof. unfold wp. destruct (m s) as [[[a s1] t1]|v|]; auto. Qed.

Lemma wp_conj {A} (m : GM V E S A) (Q Q' : A -> S -> list E -> Prop) s :
  wp EP EF m Q s -> wp EP EF m Q' s ->
  wp EP EF m (fun a s' t => Q a s' t /\ Q' a s' t) s.
Proof. unfold wp. destruct (m s) as [[[a s1] t1]|v|]; auto. Qed.

(** Loops: an invariant [I] over the loop variable, the state and the trace
    so far, and a measure bounded by the fuel. *)
Lemma wp_iterM {X Y} (I : X -> S -> list E -> Prop) (mu : X -> S -> nat)
    (body : X -> GM V E S (X + Y)) (Q : Y -> S -> list E -> Prop) :
  (forall x s t, I x s t ->
     wp EP EF (body x) (fun r s' t' =>
       match r with
       | inl x' => I x' s' (t ++ t') /\ (EF \/ (mu x' s' < mu x s)%nat)
       | inr y => Q y s' (t ++ t')
       end) s) ->
  forall fuel x s t, I x s t -> (EF \/ (mu x s < fuel)%nat) ->
    wp EP EF (iterM fuel body x) (fun y s' t' => Q y s' (t ++ t')) s.
Proof.
  intros Hbody fuel. induction fuel as [|fuel IH]; intros x s t HI Hmu.
  { destruct Hmu as [HF|Hmu]; [exact HF|lia]. }
  cbn [iterM]. apply wp_bind. eapply wp_mono; [by apply Hbody|].
  intros [x'|y] s' t'.
  - intros [HI' Hlt]. eapply wp_mono; [apply (IH x' s' _ HI')|].
    + destruct Hlt, Hmu; auto; right; lia.
    + intros y s'' t''. by rewrite app_assoc.
  - intros HQ. apply wp_ret. by rewrite app_nil_r.
Qed.
End WP.

(** Every event of a loop is an event of one of its rounds. *)
Lemma wp_iterM_trace {V E S X Y} (EP : V -> Prop) (P : E -> Prop) (body : X -> GM V E S (X + Y)) :
  (forall x s, wp EP True (body x) (fun _ _ t => Forall P t) s) ->
  forall n x s, wp EP True (iterM n body x) (fun _ _ t => Forall P t) s.
Proof.
  intros Hb n. induction n as [|n IH]; intros x s; [done|]. cbn [iterM].
  apply wp_bind. eapply wp_mono; [apply Hb|]. intros [x'|y] s1 t1 H1; cbn beta.
  - eapply wp_mono; [apply IH|]. intros y s2 t2 H2. by apply Forall_app.
  - apply wp_ret. by rewrite app_nil_r.
Qed.

(** ** Relating computations on two state types

    [mrel R m1 m2]: from states related by [R] the two computations give the
    same value and trace and related states, or fail alike. *)
Definition res_rel {V E S1 S2 A} (R : S1 -> S2 -> Prop)
    (r1 : res V (A * S1 * list E)) (r2 : res V (A * S2 * list E)) : Prop :=
  match r1, r2 with
  | Ok (a1, s1, t1), Ok (a2, s2, t2) => a1 = a2 /\ t1 = t2 /\ R s1 s2
  | Panic v1, Panic v2 => v1 = v2
  | NoFuel, NoFuel => True
  | _, _ => False
  end.

Definition mrel {V E S1 S2 A} (R : S1 -> S2 -> Prop) (m1 : GM V E S1 A) (m2 : GM V E S2 A) : Prop :=
  forall s1 s2, R s1 s2 -> res_rel R (m1 s1) (m2 s2).

Section MRel.
Context {V E S1 S2 : Type} (R : S1 -> S2 -> Prop).

Lemma mrel_ret {A} (a : A) : mrel (V:=V) (E:=E) R (ret a) (ret a).
Proof. done. Qed.

Lemma mrel_bind {A B} (m1 : GM V E S1 A) m2 (k1 : A -> GM V E S1 B) k2 :
  mrel R m1 m2 -> (forall a, mrel R (k1 a) (k2 a)) -> mrel R (bind m1 k1) (bind m2 k2).
Proof.
  intros Hm Hk s1 s2 Hs. specialize (Hm s1 s2 Hs). unfold bind, res_rel in *.
  destruct (m1 s1) as [[[a1 s1'] t1]| |], (m2 s2) as [[[a2 s2'] t2]| |]; try done.
  destruct Hm as (<- & <- & Hs'). specialize (Hk a1 s1' s2' Hs'). unfold res_rel in Hk.
  destruct (k1 a1 s1') as [[[b1 u1] v1]| |], (k2 a1 s2') as [[[b2 u2] v2]| |]; try done.
  destruct Hk as (<- & <- & ?). done.
Qed.

Lemma mrel_gets {A} (f1 : S1 -> A) (f2 : S2 -> A) :
  (forall s1 s2, R s1 s2 -> f1 s1 = f2 s2) -> mrel (V:=V) (E:=E) R (gets f1) (gets f2).
Proof. intros H s1 s2 Hs. cbn. auto. Qed.

Lemma mrel_modify (f1 : S1 -> S1) (f2 : S2 -> S2) :
  (forall s1 s2, R s1 s2 -> R (f1 s1) (f2 s2)) -> mrel (V:=V) (E:=E) R (modify f1) (modify f2).
Proof. intros H s1 s2 Hs. cbn. auto. Qed.

Lemma mrel_emit (e : E) : mrel (V:=V) R (emit e) (emit e).
Proof. done. Qed.

Lemma mrel_panic {A} (v : V) : mrel (E:=E) R (panic (A:=A) v) (panic v).
Proof. done. Qed.

Lemma mrel_iterM {X Y} (b1 : X -> GM V E S1 (X + Y)) b2 n x :
  (forall x, mrel R (b1 x) (b2 x)) -> mrel R (iterM n b1 x) (iterM n b2 x).
Proof.
  intros Hb. revert x. induction n as [|n IH]; intros x; cbn [iterM]; [done|].
  apply mrel_bind; [done|]. intros [x'|y]; [apply IH|apply mrel_ret].
Qed.

Lemma mrel_whileM f1 f2 c1 c2 (b1 : GM V E S1 unit) b2 :
  (forall s1 s2, R s1 s2 -> f1 s1 = f2 s2) -> (forall s1 s2, R s1 s2 -> c1 s1 = c2 s2) ->
  mrel R b1 b2 -> mrel R (whileM f1 c1 b1) (whileM f2 c2 b2).
Proof.
  intros Hf Hc Hb. unfold whileM. apply mrel_bind; [by apply mrel_gets|]. intros n.
  apply mrel_iterM. intros _. apply mrel_bind; [by apply mrel_gets|]. intros [].
  - apply mrel_bind; [done|]. intros _. apply mrel_ret.
  - apply mrel_ret.
Qed.
End MRel.

Create HintDb mrel.
#[export] Hint Resolve mrel_ret mrel_emit mrel_panic : mrel.

(** ** Shared lemmas *)

(** A test over the first natural numbers. *)
Lemma forallb_below (P : Z -> bool) n i :
  forallb P (map Z.of_nat (seq 0 n)) = true -> 0 <= i < Z.of_nat n -> P i = true.
Proof. rewrite forallb_forall. intros Hall Hi. apply Hall, in_map_iff. exists (Z.to_nat i). rewrite in_seq. lia. Qed.

(** A decidable property of bytes is checked by running through all of them. *)
Definition all_bytes : list Z := map Z.of_nat (seq 0 256).

Lemma byte_forall (P : byte -> bool) :
  forallb P all_bytes = true -> forall b, is_byte b -> P b = true.
Proof. intros H b Hb. apply (forallb_below _ _ _ H). unfold is_byte in Hb. lia. Qed.

Lemma is_byte_dec (s : list byte) : forallb (fun b => (0 <=? b) && (b <? 256)) s = true -> Forall is_byte s.
Proof.
  intros Hs. rewrite forallb_forall in Hs. apply List.Forall_forall. intros b Hb. specialize (Hs b Hb).
  unfold is_byte. lia.
Qed.

Lemma byte_eq (f g : byte -> Z) :
  forallb (fun b => f b =? g b) all_bytes = true -> forall b, is_byte b -> f b = g b.
Proof. intros H b Hb. apply Z.eqb_eq. by apply (byte_forall _ H). Qed.

(** [lor] of two values without common bits is their sum. *)
Lemma lor_disjoint a b n :
  0 <= n -> 0 <= b < 2 ^ n -> Z.lor (Z.shiftl a n) b = a * 2 ^ n + b.
Proof.
  intros Hn Hb. rewrite <- Z.shiftl_mul_pow2 by done.
  assert (Hz : Z.land (Z.shiftl a n) b = 0).
  { apply Z.bits_inj'. intros i Hi. rewrite Z.land_spec, Z.bits_0.
    destruct (Z.ltb_spec i n).
    - by rewrite Z.shiftl_spec_low.
    - replace b with (b mod 2 ^ n) by (by apply Z.mod_small).
      rewrite Z.mod_pow2_bits_high by lia. by rewrite andb_false_r. }
  by rewrite Z.add_nocarry_lxor, Z.lxor_lor.
Qed.

Lemma nthZ_app_l {A} (d : A) (l l' : list A) i :
  0 <= i < lenZ l -> nthZ d (l ++ l') i = nthZ d l i.
Proof.
  unfold nthZ, lenZ. intros Hi. case (Z.ltb_spec i 0); [lia|]. intros _.
  apply app_nth1. lia.
Qed.

Lemma nthZ_Forall {A} (P : A -> Prop) (d : A) (l : list A) i :
  Forall P l -> 0 <= i < lenZ l -> P (nthZ d l i).
Proof.
  unfold nthZ, lenZ. intros Hl Hi. case (Z.ltb_spec i 0); [lia|]. intros _.
  apply List.Forall_forall with (x := nth (Z.to_nat i) l d) in Hl; [done|].
  apply nth_In. lia.
Qed.

Lemma lenZ_app {A} (l l' : list A) : lenZ (l ++ l') = lenZ l + lenZ l'.
Proof. unfold lenZ. rewrite length_app. lia. Qed.

Lemma lenZ_cons {A} (x : A) l : lenZ (x :: l) = 1 + lenZ l.
Proof. unfold lenZ. cbn [length]. lia. Qed.

Lemma lenZ_nonneg {A} (l : list A) : 0 <= lenZ l.
Proof. unfold lenZ. lia. Qed.

(** Case analysis on the boolean tests of the goal or of a hypothesis. *)
Ltac case_test :=
  match goal with
  | |- context [if ?b then _ else _] =>
      lazymatch b with context [if _ then _ else _] => fail | _ => destruct b eqn:? end
  end.
Ltac case_test_in H :=
  match type of H with
  | context [if ?b then _ else _] =>
      lazymatch b with context [if _ then _ else _] => fail | _ => destruct b eqn:? end
  end.

(** Turn boolean comparisons in the context into arithmetic. *)
Ltac b2p :=
  repeat match goal with
  | H : (_ && _) = true |- _ => apply andb_true_iff in H as [? ?]
  | H : (_ || _) = false |- _ => apply orb_false_iff in H as [? ?]
  | H : (_ && _) = false |- _ => apply andb_false_iff in H
  | H : (_ || _) = true |- _ => apply orb_true_iff in H
  | H : negb _ = true |- _ => apply negb_true_iff in H
  | H : negb _ = false |- _ => apply negb_false_iff in H
  | H : (_ <? _) = true |- _ => apply Z.ltb_lt in H
  | H : (_ <? _) = false |- _ => apply Z.ltb_ge in H
  | H : (_ <=? _) = true |- _ => apply Z.leb_le in H
  | H : (_ <=? _) = false |- _ => apply Z.leb_gt in H
  | H : (_ =? _) = true |- _ => apply Z.eqb_eq in H
  | H : (_ =? _) = false |- _ => apply Z.eqb_neq in H
  end.

(** Decide by arithmetic every comparison of the goal that arithmetic decides. *)
Ltac decide_tests :=
  repeat match goal with
  | |- context [?a <? ?b] =>
      first [ rewrite (proj2 (Z.ltb_lt a b)) by lia | rewrite (proj2 (Z.ltb_ge a b)) by lia ]
  | |- context [?a <=? ?b] =>
      first [ rewrite (proj2 (Z.leb_le a b)) by lia | rewrite (proj2 (Z.leb_gt a b)) by lia ]
  | |- context [?a =? ?b] =>
      first [ rewrite (proj2 (Z.eqb_eq a b)) by lia | rewrite (proj2 (Z.eqb_neq a b)) by lia ]
  end; cbn [andb orb negb]; cbv iota.

(** ** Slices *)

Lemma lenZ_slice {A} (l : list A) i j :
  0 <= i <= j -> j <= lenZ l -> lenZ (slice l i j) = j - i.
Proof. unfold lenZ, slice. intros. rewrite length_take, length_drop. lia. Qed.

Lemma slice_empty {A} (l : list A) i : slice l i i = [].
Proof. unfold slice. by rewrite Z.sub_diag. Qed.

Lemma slice_split {A} (l : list A) i j k :
  0 <= i <= j -> j <= k -> slice l i k = slice l i j ++ slice l j k.
Proof.
  intros Hi Hj. unfold slice.
  replace (Z.to_nat (k - i)) with (Z.to_nat (j - i) + Z.to_nat (k - j))%nat by lia.
  rewrite <- take_take_drop, drop_drop. do 2 f_equal. f_equal. lia.
Qed.

Lemma slice_head {A} (d : A) (l : list A) i j :
  0 <= i < j -> j <= lenZ l -> slice l i j = nthZ d l i :: slice l (i + 1) j.
Proof.
  intros Hi Hj. rewrite (slice_split l i (i + 1) j) by lia.
  unfold slice at 1. replace (Z.to_nat (i + 1 - i)) with 1%nat by lia. unfold nthZ, lenZ in *.
  destruct (Z.ltb_spec i 0); [lia|].
  destruct (drop (Z.to_nat i) l) as [|x rest] eqn:E.
  { apply (f_equal length) in E. rewrite length_drop in E. cbn in E. lia. }
  cbn [take app]. f_equal. rewrite <- (take_drop (Z.to_nat i) l), E.
  rewrite app_nth2; rewrite length_take; [|lia].
  replace (Z.to_nat i - Z.to_nat i `min` length l)%nat with O by lia. done.
Qed.

Lemma slice_app_l {A} (l l' : list A) i j :
  0 <= i <= j -> j <= lenZ l -> slice (l ++ l') i j = slice l i j.
Proof.
  unfold slice, lenZ. intros Hi Hj. rewrite drop_app_le, take_app_le by (rewrite ?length_drop; lia).
  done.
Qed.

Lemma slice_drop {A} (l : list A) k i j :
  0 <= k -> 0 <= i -> slice (drop (Z.to_nat k) l) i j = slice l (k + i) (k + j).
Proof. unfold slice. intros. rewrite drop_drop. f_equal; [lia|]. f_equal. lia. Qed.

Lemma slice_full {A} (l : list A) j : j = lenZ l -> slice l 0 j = l.
Proof. unfold slice, lenZ. intros ->. rewrite drop_0. apply take_ge. lia. Qed.

Lemma slice_slice {A} (l : list A) a b i j :
  0 <= a -> 0 <= i <= j -> j <= b - a -> slice (slice l a b) i j = slice l (a + i) (a + j).
Proof.
  intros Ha Hi Hj. unfold slice. rewrite List.skipn_firstn_comm, drop_drop, take_take.
  f_equal; [lia|]. f_equal. lia.
Qed.

Lemma slice_front {A} (l1 l2 : list A) : slice (l1 ++ l2) 0 (lenZ l1) = l1.
Proof. unfold slice, lenZ. rewrite Z.sub_0_r, Nat2Z.id. cbn. apply take_app_length. Qed.

Lemma slice_back {A} (l1 l2 : list A) : slice (l1 ++ l2) (lenZ l1) (lenZ (l1 ++ l2)) = l2.
Proof.
  unfold slice. rewrite lenZ_app. unfold lenZ. rewrite Nat2Z.id, drop_app_length. apply take_ge. lia.
Qed.

Lemma slice_mid {A} (a b c : list A) : slice (a ++ b ++ c) (lenZ a) (lenZ a + lenZ b) = b.
Proof.
  unfold slice, lenZ. rewrite Nat2Z.id, drop_app_length.
  replace (Z.to_nat _) with (length b) by lia. by rewrite take_app_length.
Qed.

Lemma drop_lenZ {A} (l1 l2 : list A) : drop (Z.to_nat (lenZ l1)) (l1 ++ l2) = l2.
Proof. unfold lenZ. by rewrite Nat2Z.id, drop_app_length. Qed.

Lemma nthZ_app_r {A} (d : A) l l' i : 0 <= i -> nthZ d (l ++ l') (lenZ l + i) = nthZ d l' i.
Proof.
  intros Hi. unfold nthZ, lenZ. destruct (Z.ltb_spec (Z.of_nat (length l) + i) 0); [lia|].
  destruct (Z.ltb_spec i 0); [lia|]. rewrite app_nth2 by lia. f_equal. lia.
Qed.

Lemma nthZ_succ {A} (d x : A) l i : 0 <= i -> nthZ d (x :: l) (1 + i) = nthZ d l i.
Proof. apply (nthZ_app_r d [x] l). Qed.

Lemma slice_Forall {A} (P : A -> Prop) (l : list A) i j : Forall P l -> Forall P (slice l i j).
Proof. intros. unfold slice. by apply Forall_take, Forall_drop. Qed.

Lemma Forall_repeat {A} (P : A -> Prop) x n : P x -> Forall P (repeat x n).
Proof. intros Hx. induction n; cbn [repeat]; by constructor. Qed.

Lemma lenZ_repeat {A} (x : A) n : 0 <= n -> lenZ (repeat x (Z.to_nat n)) = n.
Proof. intros. unfold lenZ. rewrite List.repeat_length. lia. Qed.

Lemma lenZ_drop {A} (l : list A) n : Z.of_nat n <= lenZ l -> lenZ (drop n l) = lenZ l - Z.of_nat n.
Proof. unfold lenZ. intros. rewrite length_drop. lia. Qed.
