(* ===== verification/Utf8.v ===== *)
(** * src/src/unicode/utf8/utf8.go: UTF-8 encoding and decoding

    The decoder [DecodeRune] and the predicate [FullRune] are what the source
    reader of the front end is built on; [AppendRune] is what message
    formatting uses.  The table [first] and the accept ranges are the tables
    of the code.  The main results: decoding inverts encoding, a full rune is
    decoded the same way whatever follows it, and [Valid] accepts exactly the
    concatenations of encoded valid runes. *)

From S2P Require Import Prelude.

Definition RuneError : rune := 0xFFFD.
Definition RuneSelf : Z := 0x80.
Definition MaxRune : rune := 0x10FFFF.
Definition UTFMax : Z := 4.

Definition surrogateMin : Z := 0xD800.
Definition surrogateMax : Z := 0xDFFF.

Definition tx : Z := 0x80.
Definition t2 : Z := 0xC0.
Definition t3 : Z := 0xE0.
Definition t4 : Z := 0xF0.

Definition maskx : Z := 0x3F.
Definition mask2 : Z := 0x1F.
Definition mask3 : Z := 0x0F.
Definition mask4 : Z := 0x07.

Definition rune1Max : Z := 2 ^ 7 - 1.
Definition rune2Max : Z := 2 ^ 11 - 1.
Definition rune3Max : Z := 2 ^ 16 - 1.

Definition locb : Z := 0x80.
Definition hicb : Z := 0xBF.

Definition xx : Z := 0xF1.
Definition as_ : Z := 0xF0.
Definition s1 : Z := 0x02.
Definition s2 : Z := 0x13.
Definition s3 : Z := 0x03.
Definition s4 : Z := 0x23.
Definition s5 : Z := 0x34.
Definition s6 : Z := 0x04.
Definition s7 : Z := 0x44.

Definition runeErrorByte0 : Z := Z.lor t3 (Z.shiftr RuneError 12).
Definition runeErrorByte1 : Z := Z.lor tx (Z.land (Z.shiftr RuneError 6) maskx).
Definition runeErrorByte2 : Z := Z.lor tx (Z.land RuneError maskx).

(** The table [first], one row of the source per line. *)
Definition first_table : list Z :=
  replicate 128 as_ ++
  replicate 64 xx ++
  [xx; xx; s1; s1; s1; s1; s1; s1; s1; s1; s1; s1; s1; s1; s1; s1] ++
  replicate 16 s1 ++
  [s2; s3; s3; s3; s3; s3; s3; s3; s3; s3; s3; s3; s3; s4; s3; s3] ++
  [s5; s6; s6; s6; s7; xx; xx; xx; xx; xx; xx; xx; xx; xx; xx; xx].

Definition first (b : byte) : Z := nthZ 0 first_table b.

Record acceptRange := AcceptRange { lo : Z; hi : Z }.

Definition acceptRanges : list acceptRange :=
  [AcceptRange locb hicb; AcceptRange 0xA0 hicb; AcceptRange locb 0x9F;
   AcceptRange 0x90 hicb; AcceptRange locb 0x8F] ++ replicate 11 (AcceptRange 0 0).

Definition accept (x : Z) : acceptRange :=
  nthZ (AcceptRange 0 0) acceptRanges (Z.shiftr x 4).

(** [b < lo || hi < b] *)
Definition outside (b lo hi : Z) : bool := (b <? lo) || (hi <? b).

Definition FullRune (p : list byte) : bool :=
  let n := lenZ p in
  if n =? 0 then false else
  let x := first (nthZ 0 p 0) in
  if Z.land x 7 <=? n then true else
  let a := accept x in
  if (1 <? n) && outside (nthZ 0 p 1) (lo a) (hi a) then true
  else if (2 <? n) && outside (nthZ 0 p 2) locb hicb then true
  else false.

Definition DecodeRune (p : list byte) : rune * Z :=
  let n := lenZ p in
  if n <? 1 then (RuneError, 0) else
  let p0 := nthZ 0 p 0 in
  let x := first p0 in
  if as_ <=? x then
    let mask := Z.shiftr (s32 (Z.shiftl x 31)) 31 in
    (Z.lor (Z.land p0 (Z.lnot mask)) (Z.land RuneError mask), 1)
  else
  let sz := Z.land x 7 in
  let a := accept x in
  if n <? sz then (RuneError, 1) else
  let b1 := nthZ 0 p 1 in
  if outside b1 (lo a) (hi a) then (RuneError, 1) else
  if sz <=? 2 then
    (Z.lor (Z.shiftl (Z.land p0 mask2) 6) (Z.land b1 maskx), 2) else
  let b2 := nthZ 0 p 2 in
  if outside b2 locb hicb then (RuneError, 1) else
  if sz <=? 3 then
    (Z.lor (Z.lor (Z.shiftl (Z.land p0 mask3) 12) (Z.shiftl (Z.land b1 maskx) 6))
           (Z.land b2 maskx), 3) else
  let b3 := nthZ 0 p 3 in
  if outside b3 locb hicb then (RuneError, 1) else
  (Z.lor (Z.lor (Z.lor (Z.shiftl (Z.land p0 mask4) 18) (Z.shiftl (Z.land b1 maskx) 12))
                (Z.shiftl (Z.land b2 maskx) 6)) (Z.land b3 maskx), 4).

Definition RuneLen (r : rune) : Z :=
  if r <? 0 then -1
  else if r <=? rune1Max then 1
  else if r <=? rune2Max then 2
  else if (surrogateMin <=? r) && (r <=? surrogateMax) then -1
  else if r <=? rune3Max then 3
  else if r <=? MaxRune then 4
  else -1.

Definition appendRuneNonASCII (p : list byte) (r : rune) : list byte :=
  let i := u32 r in
  let cont n := Z.lor tx (Z.land (u8 (Z.shiftr r n)) maskx) in
  if i <=? rune2Max then
    p ++ [Z.lor t2 (u8 (Z.shiftr r 6)); cont 0]
  else if (i <? surrogateMin) || ((surrogateMax <? i) && (i <=? rune3Max)) then
    p ++ [Z.lor t3 (u8 (Z.shiftr r 12)); cont 6; cont 0]
  else if (rune3Max <? i) && (i <=? MaxRune) then
    p ++ [Z.lor t4 (u8 (Z.shiftr r 18)); cont 12; cont 6; cont 0]
  else p ++ [runeErrorByte0; runeErrorByte1; runeErrorByte2].

Definition AppendRune (p : list byte) (r : rune) : list byte :=
  if u32 r <=? rune1Max then p ++ [u8 r] else appendRuneNonASCII p r.

Definition RuneStart (b : byte) : bool := negb (Z.land b 0xC0 =? 0x80).

Definition ValidRune (r : rune) : bool :=
  if (0 <=? r) && (r <? surrogateMin) then true
  else if (surrogateMax <? r) && (r <=? MaxRune) then true
  else false.

(** The loop of [DecodeLastRune]: back from [start] to the start of a rune, or
    below [lim]. *)
Fixpoint last_start (fuel : nat) (p : list byte) (start lim : Z) : Z :=
  match fuel with
  | O => start
  | S n =>
      if lim <=? start then
        if RuneStart (nthZ 0 p start) then start else last_start n p (start - 1) lim
      else start
  end.

Definition DecodeLastRune (p : list byte) : rune * Z :=
  let end_ := lenZ p in
  if end_ =? 0 then (RuneError, 0) else
  let start := end_ - 1 in
  let r := nthZ 0 p start in
  if r <? RuneSelf then (r, 1) else
  let lim := Z.max (end_ - UTFMax) 0 in
  let start := last_start (Z.to_nat UTFMax) p (start - 1) lim in
  let start := if start <? 0 then 0 else start in
  let '(r, size) := DecodeRune (slice p start end_) in
  if negb (start + size =? end_) then (RuneError, 1) else (r, size).

(** [string(r)]: the conversion of a rune to a string. *)
Definition encode (r : rune) : list byte := AppendRune [] r.

Example decode_oslash : DecodeRune (bytes_of_string "ø=1") = (0xF8, 2).
Proof. reflexivity. Qed.
Example decode_neq : DecodeRune (bytes_of_string "≠") = (0x2260, 3).
Proof. reflexivity. Qed.
Example encode_neq : encode 0x2260 = bytes_of_string "≠".
Proof. reflexivity. Qed.
Example decode_last_neq : DecodeLastRune (bytes_of_string "x≠") = (0x2260, 3).
Proof. reflexivity. Qed.
Example decode_last_bad : DecodeLastRune [0x61; 0xBF; 0xBF] = (RuneError, 1).
Proof. reflexivity. Qed.
Example decode_overlong : DecodeRune [0xC0; 0x80] = (RuneError, 1).
Proof. reflexivity. Qed.

(** [Valid]: the fast path skips blocks of eight ASCII bytes. *)
Definition ascii8 (p : list byte) : bool :=
  let g i := nthZ 0 p i in
  let first32 := Z.lor (Z.lor (Z.lor (g 0) (Z.shiftl (g 1) 8)) (Z.shiftl (g 2) 16)) (Z.shiftl (g 3) 24) in
  let second32 := Z.lor (Z.lor (Z.lor (g 4) (Z.shiftl (g 5) 8)) (Z.shiftl (g 6) 16)) (Z.shiftl (g 7) 24) in
  Z.land (Z.lor first32 second32) 0x80808080 =? 0.

Fixpoint skip_ascii (fuel : nat) (p : list byte) : list byte :=
  match fuel with
  | O => p
  | Datatypes.S n => if 8 <=? lenZ p then if ascii8 p then skip_ascii n (drop 8 p) else p else p
  end.

(** The loop [for i := 0; i < n; { ... }]; [drop] plays the role of [i]. *)
Fixpoint valid_loop (fuel : nat) (p : list byte) : bool :=
  match fuel with
  | O => true
  | Datatypes.S n =>
      match p with
      | [] => true
      | pi :: _ =>
          if pi <? RuneSelf then valid_loop n (drop 1 p) else
          let x := first pi in
          if x =? xx then false else
          let size := Z.land x 7 in
          if lenZ p <? size then false else
          let a := accept x in
          if outside (nthZ 0 p 1) (lo a) (hi a) then false else
          if size =? 2 then valid_loop n (drop (Z.to_nat size) p) else
          if outside (nthZ 0 p 2) locb hicb then false else
          if size =? 3 then valid_loop n (drop (Z.to_nat size) p) else
          if outside (nthZ 0 p 3) locb hicb then false else
          valid_loop n (drop (Z.to_nat size) p)
      end
  end.

Definition Valid (p : list byte) : bool :=
  let p' := skip_ascii (length p) p in
  valid_loop (length p') p'.

(** ** The tables, as comparisons *)

Definition first_class (b : byte) : Z :=
  if b <? 0x80 then as_ else if b <? 0xC2 then xx else if b <? 0xE0 then s1
  else if b =? 0xE0 then s2 else if b <? 0xED then s3 else if b =? 0xED then s4
  else if b <? 0xF0 then s3 else if b =? 0xF0 then s5 else if b <? 0xF4 then s6
  else if b =? 0xF4 then s7 else xx.

Lemma first_class_eq b : is_byte b -> first b = first_class b.
Proof. by apply byte_eq; vm_compute. Qed.

Lemma land_maskx b : is_byte b -> Z.land b maskx = b mod 64.
Proof. by apply (byte_eq (fun b => Z.land b maskx) (fun b => b mod 64)); vm_compute. Qed.

Lemma land_mask2 b : is_byte b -> Z.land b mask2 = b mod 32.
Proof. by apply (byte_eq (fun b => Z.land b mask2) (fun b => b mod 32)); vm_compute. Qed.

Lemma land_mask3 b : is_byte b -> Z.land b mask3 = b mod 16.
Proof. by apply (byte_eq (fun b => Z.land b mask3) (fun b => b mod 16)); vm_compute. Qed.

Lemma land_mask4 b : is_byte b -> Z.land b mask4 = b mod 8.
Proof. by apply (byte_eq (fun b => Z.land b mask4) (fun b => b mod 8)); vm_compute. Qed.

(** ** Reference decoder: the well-formed byte sequences of the standard *)

Definition cont (b : byte) : bool := (0x80 <=? b) && (b <=? 0xBF).

(** The second byte of a well-formed sequence that starts with [b0]. *)
Definition second_ok (b0 b1 : byte) : bool :=
  ((if b0 =? 0xE0 then 0xA0 else if b0 =? 0xF0 then 0x90 else 0x80) <=? b1) &&
  (b1 <=? (if b0 =? 0xED then 0x9F else if b0 =? 0xF4 then 0x8F else 0xBF)).

Definition decode_ref (p : list byte) : rune * Z :=
  match p with
  | [] => (RuneError, 0)
  | b0 :: q =>
      if b0 <? 0x80 then (b0, 1)
      else if (0xC2 <=? b0) && (b0 <=? 0xDF) then
        match q with
        | b1 :: _ =>
            if second_ok b0 b1 then ((b0 - 0xC0) * 64 + (b1 - 0x80), 2) else (RuneError, 1)
        | _ => (RuneError, 1)
        end
      else if (0xE0 <=? b0) && (b0 <=? 0xEF) then
        match q with
        | b1 :: b2 :: _ =>
            if second_ok b0 b1 && cont b2 then
              ((b0 - 0xE0) * 4096 + (b1 - 0x80) * 64 + (b2 - 0x80), 3) else (RuneError, 1)
        | _ => (RuneError, 1)
        end
      else if (0xF0 <=? b0) && (b0 <=? 0xF4) then
        match q with
        | b1 :: b2 :: b3 :: _ =>
            if second_ok b0 b1 && cont b2 && cont b3 then
              ((b0 - 0xF0) * 262144 + (b1 - 0x80) * 4096 + (b2 - 0x80) * 64 + (b3 - 0x80), 4)
            else (RuneError, 1)
        | _ => (RuneError, 1)
        end
      else (RuneError, 1)
  end.

(** Combining the payload bits of a sequence. *)
Lemma combine2 a b : 0 <= b < 64 -> Z.lor (Z.shiftl a 6) b = a * 64 + b.
Proof. intros. by rewrite lor_disjoint. Qed.

Lemma combine3 a b c :
  0 <= b < 64 -> 0 <= c < 64 ->
  Z.lor (Z.lor (Z.shiftl a 12) (Z.shiftl b 6)) c = a * 4096 + b * 64 + c.
Proof.
  intros Hb Hc. change 12 with (6 + 6).
  rewrite <- Z.shiftl_shiftl, <- Z.shiftl_lor, !combine2 by lia. lia.
Qed.

Lemma combine4 a b c d :
  0 <= b < 64 -> 0 <= c < 64 -> 0 <= d < 64 ->
  Z.lor (Z.lor (Z.lor (Z.shiftl a 18) (Z.shiftl b 12)) (Z.shiftl c 6)) d
  = a * 262144 + b * 4096 + c * 64 + d.
Proof.
  intros Hb Hc Hd. change 18 with (12 + 6). change 12 with (6 + 6) at 2.
  rewrite <- !Z.shiftl_shiftl, <- !Z.shiftl_lor by lia.
  rewrite combine3, combine2 by lia. lia.
Qed.

Ltac norm_masks :=
  rewrite ?land_maskx, ?land_mask2, ?land_mask3, ?land_mask4 by (unfold is_byte in *; lia).

(** Evaluate the table entries of a known class. *)
Ltac eval_class :=
  repeat match goal with
  | |- context [as_ <=? ?c] =>
      let v := eval vm_compute in (as_ <=? c) in change (as_ <=? c) with v; cbv iota
  | |- context [Z.land ?c 7] =>
      let v := eval vm_compute in (Z.land c 7) in change (Z.land c 7) with v
  | |- context [lo (accept ?c)] =>
      let v := eval vm_compute in (lo (accept c)) in change (lo (accept c)) with v
  | |- context [hi (accept ?c)] =>
      let v := eval vm_compute in (hi (accept c)) in change (hi (accept c)) with v
  | |- context [Z.shiftr (s32 (Z.shiftl ?c 31)) 31] =>
      let v := eval vm_compute in (Z.shiftr (s32 (Z.shiftl c 31)) 31) in
      change (Z.shiftr (s32 (Z.shiftl c 31)) 31) with v
  end.

Lemma nthZ_0 {A} (d x : A) l : nthZ d (x :: l) 0 = x.
Proof. reflexivity. Qed.
Lemma nthZ_1 {A} (d x y : A) l : nthZ d (x :: y :: l) 1 = y.
Proof. reflexivity. Qed.
Lemma nthZ_2 {A} (d x y z : A) l : nthZ d (x :: y :: z :: l) 2 = z.
Proof. reflexivity. Qed.
Create Rewrite HintDb nthZ.
#[local] Hint Rewrite @nthZ_0 @nthZ_1 @nthZ_2 : nthZ.

Lemma decode_head b0 q : is_byte b0 ->
  DecodeRune (b0 :: q) =
  let x := first_class b0 in
  if as_ <=? x then
    let mask := Z.shiftr (s32 (Z.shiftl x 31)) 31 in
    (Z.lor (Z.land b0 (Z.lnot mask)) (Z.land RuneError mask), 1)
  else
  if 1 + lenZ q <? Z.land x 7 then (RuneError, 1) else
  if outside (nthZ 0 q 0) (lo (accept x)) (hi (accept x)) then (RuneError, 1) else
  if Z.land x 7 <=? 2 then
    (Z.lor (Z.shiftl (Z.land b0 mask2) 6) (Z.land (nthZ 0 q 0) maskx), 2) else
  if outside (nthZ 0 q 1) locb hicb then (RuneError, 1) else
  if Z.land x 7 <=? 3 then
    (Z.lor (Z.lor (Z.shiftl (Z.land b0 mask3) 12) (Z.shiftl (Z.land (nthZ 0 q 0) maskx) 6))
           (Z.land (nthZ 0 q 1) maskx), 3) else
  if outside (nthZ 0 q 2) locb hicb then (RuneError, 1) else
  (Z.lor (Z.lor (Z.lor (Z.shiftl (Z.land b0 mask4) 18) (Z.shiftl (Z.land (nthZ 0 q 0) maskx) 12))
                (Z.shiftl (Z.land (nthZ 0 q 1) maskx) 6)) (Z.land (nthZ 0 q 2) maskx), 4).
Proof.
  intros H0. unfold DecodeRune. rewrite lenZ_cons. pose proof (lenZ_nonneg q).
  destruct (1 + lenZ q <? 1) eqn:E; [b2p; lia|].
  change (nthZ 0 (b0 :: q) 0) with b0. by rewrite (first_class_eq b0 H0).
Qed.

Lemma first_class_cases b : is_byte b ->
  (b < 0x80 /\ first_class b = as_) \/
  ((0x80 <= b < 0xC2 \/ 0xF5 <= b) /\ first_class b = xx) \/
  (0xC2 <= b < 0xE0 /\ first_class b = s1) \/
  (b = 0xE0 /\ first_class b = s2) \/
  ((0xE1 <= b <= 0xEF /\ b <> 0xED) /\ first_class b = s3) \/
  (b = 0xED /\ first_class b = s4) \/
  (b = 0xF0 /\ first_class b = s5) \/
  (0xF1 <= b < 0xF4 /\ first_class b = s6) \/
  (b = 0xF4 /\ first_class b = s7).
Proof. unfold is_byte, first_class. intros Hb. repeat case_test; b2p; lia. Qed.

(** Close one row of the table: decide the tests and compare the payloads. *)
Ltac decode_row :=
  change (Z.lnot 0) with (-1); change (Z.lnot (-1)) with 0;
  rewrite ?Z.land_0_r, ?Z.lor_0_r, ?Z.land_m1_r, ?Z.lor_0_l;
  repeat (case_test; cbn [andb orb] in *; try reflexivity);
  b2p; try (exfalso; lia); norm_masks;
  rewrite ?combine2, ?combine3, ?combine4 by (apply Z.mod_pos_bound; lia);
  f_equal; Z.to_euclidean_division_equations; lia.

(** [DecodeRune] is the reference decoder. *)
Lemma DecodeRune_ref p : Forall is_byte p -> DecodeRune p = decode_ref p.
Proof.
  intros Hp. destruct p as [|b0 q]; [reflexivity|].
  inversion_clear Hp as [|? ? H0 Hq]. rewrite decode_head by done.
  unfold decode_ref. cbv zeta.
  destruct q as [|b1 [|b2 [|b3 q]]];
    repeat match goal with H : Forall _ (_ :: _) |- _ => inversion_clear H end;
    autorewrite with nthZ; rewrite ?lenZ_cons; try (change (lenZ (@nil Z)) with 0);
    try (pose proof (lenZ_nonneg q));
    unfold is_byte in *;
  destruct (first_class_cases b0 H0) as
    [[? ->]|[[? ->]|[[? ->]|[[-> ->]|[[[? ?] ->]|[[-> ->]|[[-> ->]|[[? ->]|[-> ->]]]]]]]]].
  all: eval_class; unfold outside, second_ok, cont, locb, hicb in *; decide_tests.
  all: try reflexivity; decode_row.
Qed.

(** ** Encoding *)

Lemma u32_small r : 0 <= r < 2 ^ 32 -> u32 r = r.
Proof. intros. by apply Z.mod_small. Qed.

Lemma cont_byte r n : 0 <= n ->
  Z.lor tx (Z.land (u8 (Z.shiftr r n)) maskx) = 0x80 + (r / 2 ^ n) mod 64.
Proof.
  intros Hn. rewrite Z.shiftr_div_pow2 by done. unfold u8.
  rewrite land_maskx by (apply Z.mod_pos_bound; lia).
  change tx with (Z.shiftl 2 6). rewrite combine2 by (apply Z.mod_pos_bound; lia).
  f_equal. Z.to_euclidean_division_equations; lia.
Qed.

Lemma lead_byte t k r n :
  0 <= n -> 0 <= k <= 8 -> 0 <= r / 2 ^ n < 2 ^ k -> Z.lor (Z.shiftl t k) (u8 (Z.shiftr r n)) = t * 2 ^ k + r / 2 ^ n.
Proof.
  intros Hn Hk Hr. rewrite Z.shiftr_div_pow2 by done. unfold u8.
  assert (2 ^ k <= 2 ^ 8) by (apply Z.pow_le_mono_r; lia).
  rewrite (Z.mod_small (r / 2 ^ n)) by (change (2 ^ 8) with 256 in *; lia).
  rewrite lor_disjoint; lia.
Qed.

Lemma encode1 r : 0 <= r < 0x80 -> encode r = [r].
Proof.
  intros Hr. unfold encode, AppendRune, u8. rewrite u32_small by lia.
  change rune1Max with 127. decide_tests. cbn [app]. by rewrite Z.mod_small by lia.
Qed.

Lemma encode_nonascii r : 0x80 <= r <= MaxRune -> encode r = appendRuneNonASCII [] r.
Proof.
  unfold MaxRune. intros Hr. unfold encode, AppendRune. rewrite u32_small by lia.
  change rune1Max with 127. by decide_tests.
Qed.

Ltac encode_row :=
  rewrite encode_nonascii by (unfold MaxRune; lia); unfold appendRuneNonASCII;
  rewrite u32_small by lia; cbv zeta;
  change rune2Max with 2047; change rune3Max with 65535;
  unfold surrogateMin, surrogateMax, MaxRune; decide_tests;
  rewrite !cont_byte by lia; rewrite ?Z.pow_0_r, ?Z.div_1_r.

Lemma encode2 r : 0x80 <= r < 0x800 -> encode r = [0xC0 + r / 64; 0x80 + r mod 64].
Proof.
  intros Hr. encode_row. change t2 with (Z.shiftl 6 5).
  rewrite lead_byte; [done|lia|lia|]. Z.to_euclidean_division_equations; lia.
Qed.

Lemma encode3 r : 0x800 <= r < 0x10000 -> ~ (0xD800 <= r <= 0xDFFF) ->
  encode r = [0xE0 + r / 4096; 0x80 + (r / 64) mod 64; 0x80 + r mod 64].
Proof.
  intros Hr Hs. assert (r < 0xD800 \/ 0xDFFF < r) as [Hs'|Hs'] by lia;
  encode_row; change t3 with (Z.shiftl 14 4);
  (rewrite lead_byte; [done|lia|lia|]); Z.to_euclidean_division_equations; lia.
Qed.

Lemma encode4 r : 0x10000 <= r <= MaxRune ->
  encode r = [0xF0 + r / 262144; 0x80 + (r / 4096) mod 64; 0x80 + (r / 64) mod 64; 0x80 + r mod 64].
Proof.
  unfold MaxRune. intros Hr. encode_row. change t4 with (Z.shiftl 30 3).
  rewrite lead_byte; [done|lia|lia|]. Z.to_euclidean_division_equations; lia.
Qed.

(** The four shapes of a valid rune. *)
Lemma ValidRune_cases r : ValidRune r = true ->
  0 <= r < 0x80 \/ 0x80 <= r < 0x800 \/
  (0x800 <= r < 0x10000 /\ ~ (0xD800 <= r <= 0xDFFF)) \/ 0x10000 <= r <= MaxRune.
Proof.
  unfold ValidRune, surrogateMin, surrogateMax, MaxRune.
  repeat case_test; b2p; try discriminate; lia.
Qed.

Lemma encode_length r : ValidRune r = true -> lenZ (encode r) = RuneLen r.
Proof.
  intros H. destruct (ValidRune_cases r H) as [?|[?|[[? ?]|?]]].
  all: unfold RuneLen, rune1Max, rune2Max, rune3Max, surrogateMin, surrogateMax, MaxRune in *.
  all: rewrite ?encode1, ?encode2, ?encode3, ?encode4 by (unfold MaxRune; lia).
  all: repeat (case_test; b2p; try lia); reflexivity.
Qed.

Lemma encode_bytes r : ValidRune r = true -> Forall is_byte (encode r).
Proof.
  intros H. destruct (ValidRune_cases r H) as [?|[?|[[? ?]|?]]]; unfold MaxRune in *.
  all: rewrite ?encode1, ?encode2, ?encode3, ?encode4 by (unfold MaxRune; lia).
  all: repeat constructor; unfold is_byte; Z.to_euclidean_division_equations; lia.
Qed.

Lemma decode_ref_encode r q : ValidRune r = true -> decode_ref (encode r ++ q) = (r, RuneLen r).
Proof.
  intros H. rewrite <- encode_length by done.
  destruct (ValidRune_cases r H) as [?|[?|[[? ?]|?]]]; unfold MaxRune in *.
  all: rewrite ?encode1, ?encode2, ?encode3, ?encode4 by (unfold MaxRune; lia).
  all: cbn [app decode_ref]; unfold second_ok, cont.
  all: Z.to_euclidean_division_equations.
  all: repeat (case_test; cbn [andb orb] in *; b2p; try lia).
  all: f_equal; lia.
Qed.

(** The decoder undoes the encoder, whatever follows the encoded rune. *)
Theorem DecodeRune_encode r q :
  ValidRune r = true -> Forall is_byte q -> DecodeRune (encode r ++ q) = (r, RuneLen r).
Proof.
  intros Hr Hq. rewrite DecodeRune_ref; [by apply decode_ref_encode|].
  apply Forall_app; split; [by apply encode_bytes|done].
Qed.

(** The valid runes of each length. *)
Lemma rune_range r n :
  (n = 1 /\ 0 <= r < 0x80) \/ (n = 2 /\ 0x80 <= r < 0x800) \/
  (n = 3 /\ 0x800 <= r < 0x10000 /\ ~ (0xD800 <= r <= 0xDFFF)) \/
  (n = 4 /\ 0x10000 <= r <= 0x10FFFF) ->
  ValidRune r = true /\ n = RuneLen r.
Proof.
  unfold ValidRune, RuneLen, rune1Max, rune2Max, rune3Max, surrogateMin, surrogateMax, MaxRune.
  intros [[-> H]|[[-> H]|[(-> & H & H')|[-> H]]]]; split; repeat (case_test; b2p; try lia).
Qed.

Lemma wf2 b0 b1 : 0xC2 <= b0 <= 0xDF -> 0x80 <= b1 <= 0xBF ->
  let r := (b0 - 0xC0) * 64 + (b1 - 0x80) in 0x80 <= r < 0x800 /\ encode r = [b0; b1].
Proof.
  intros H0 H1 r. assert (Hr : 0x80 <= r < 0x800) by (unfold r; lia). split; [done|].
  rewrite encode2 by done. clear Hr. unfold r.
  repeat f_equal; Z.to_euclidean_division_equations; lia.
Qed.

Lemma second_ok_range b0 b1 : second_ok b0 b1 = true ->
  0x80 <= b1 <= 0xBF /\ (b0 = 0xE0 -> 0xA0 <= b1) /\ (b0 = 0xF0 -> 0x90 <= b1) /\
  (b0 = 0xED -> b1 <= 0x9F) /\ (b0 = 0xF4 -> b1 <= 0x8F).
Proof. unfold second_ok. intros H. repeat case_match; b2p; lia. Qed.

Lemma wf3 b0 b1 b2 : 0xE0 <= b0 <= 0xEF -> second_ok b0 b1 = true -> 0x80 <= b2 <= 0xBF ->
  let r := (b0 - 0xE0) * 4096 + (b1 - 0x80) * 64 + (b2 - 0x80) in
  (0x800 <= r < 0x10000 /\ ~ (0xD800 <= r <= 0xDFFF)) /\ encode r = [b0; b1; b2].
Proof.
  intros H0 H1%second_ok_range H2 r.
  assert (Hr : 0x800 <= r < 0x10000 /\ ~ (0xD800 <= r <= 0xDFFF)) by (unfold r; lia).
  split; [done|]. rewrite encode3 by tauto. clear Hr. unfold r. destruct H1 as [H1 _].
  repeat f_equal; Z.to_euclidean_division_equations; lia.
Qed.

Lemma wf4 b0 b1 b2 b3 : 0xF0 <= b0 <= 0xF4 -> second_ok b0 b1 = true ->
  0x80 <= b2 <= 0xBF -> 0x80 <= b3 <= 0xBF ->
  let r := (b0 - 0xF0) * 262144 + (b1 - 0x80) * 4096 + (b2 - 0x80) * 64 + (b3 - 0x80) in
  0x10000 <= r <= 0x10FFFF /\ encode r = [b0; b1; b2; b3].
Proof.
  intros H0 H1%second_ok_range H2 H3 r.
  assert (Hr : 0x10000 <= r <= 0x10FFFF) by (unfold r; lia).
  split; [done|]. rewrite encode4 by done. clear Hr. unfold r. destruct H1 as [H1 _].
  repeat f_equal; Z.to_euclidean_division_equations; lia.
Qed.

Lemma cont_range b : cont b = true <-> 0x80 <= b <= 0xBF.
Proof. unfold cont. rewrite andb_true_iff, !Z.leb_le. done. Qed.

(** ... and what it accepts is the encoding of a valid rune: the width-one
    [RuneError] stands exactly for the malformed inputs. *)
Lemma decode_ref_sound p r n :
  Forall is_byte p -> p <> [] -> decode_ref p = (r, n) -> ~ (r = RuneError /\ n = 1) ->
  ValidRune r = true /\ n = RuneLen r /\ p = encode r ++ drop (Z.to_nat n) p.
Proof.
  intros Hp Hne Hd Herr. destruct p as [|b0 q]; [done|]. clear Hne.
  inversion_clear Hp as [|? ? H0 Hq]. unfold is_byte in H0. unfold decode_ref in Hd.
  repeat case_match; simplify_eq; try (exfalso; apply Herr; by split).
  all: rewrite ?andb_true_iff, ?andb_false_iff, ?cont_range, ?Z.leb_le, ?Z.ltb_lt, ?Z.ltb_ge in *.
  all: destruct_and?; rewrite (assoc and).
  - split; [apply rune_range; lia|]. by rewrite encode1 by lia.
  - edestruct wf2 as [Hr ->]; [eauto|by eapply second_ok_range|]. split; [apply rune_range; lia|done].
  - edestruct wf3 as [Hr ->]; [eauto..|]. split; [apply rune_range; tauto|done].
  - edestruct wf4 as [Hr ->]; [eauto..|]. split; [apply rune_range; tauto|done].
Qed.

Theorem DecodeRune_sound p r n :
  Forall is_byte p -> p <> [] -> DecodeRune p = (r, n) -> ~ (r = RuneError /\ n = 1) ->
  ValidRune r = true /\ n = RuneLen r /\ p = encode r ++ drop (Z.to_nat n) p.
Proof. intros Hp. rewrite DecodeRune_ref by done. by apply decode_ref_sound. Qed.

(** A character below [RuneSelf] has one byte. *)
Lemma DecodeRune_low p r n :
  Forall is_byte p -> p <> [] -> DecodeRune p = (r, n) -> r < RuneSelf ->
  n = 1 /\ p = r :: drop 1 p.
Proof.
  intros Hp Hne Hd Hr. rewrite DecodeRune_ref in Hd by done.
  destruct (decode_ref_sound p r n) as (Hv & -> & He);
    [done|done|done|intros [-> _]; unfold RuneError, RuneSelf in Hr; lia|].
  unfold RuneSelf in Hr. assert (0 <= r).
  { destruct (Z.leb_spec 0 r); [done|]. unfold ValidRune, surrogateMin, surrogateMax in Hv.
    case_test_in Hv; [b2p; lia|]. case_test_in Hv; [b2p; lia|done]. }
  assert (Hl : RuneLen r = 1) by (unfold RuneLen, rune1Max; by decide_tests).
  split; [done|]. rewrite Hl in He. rewrite He at 1. unfold encode, AppendRune, rune1Max.
  unfold u32, u8. rewrite !Z.mod_small by lia. by decide_tests.
Qed.

(** The width is between 1 and [UTFMax] and stays inside a non-empty input. *)
Lemma DecodeRune_width p r n :
  Forall is_byte p -> p <> [] -> DecodeRune p = (r, n) -> 1 <= n <= UTFMax /\ n <= lenZ p.
Proof.
  intros Hp Hne. rewrite DecodeRune_ref by done. destruct p as [|b0 q]; [done|].
  unfold decode_ref, UTFMax. intros Hd.
  repeat case_match; simplify_eq; rewrite ?lenZ_cons;
    repeat match goal with |- context [lenZ ?l] => pose proof (lenZ_nonneg l);
      generalize dependent (lenZ l); intros end; lia.
Qed.

Lemma DecodeRune_nonneg p : Forall is_byte p -> 0 <= (DecodeRune p).1.
Proof.
  intros Hp. rewrite DecodeRune_ref by done. destruct p as [|b0 q]; [done|].
  inversion_clear Hp as [|? ? H0 Hq]. unfold is_byte in H0. unfold decode_ref.
  repeat case_match; cbn [fst]; try (unfold RuneError; lia);
    repeat match goal with H : _ && _ = true |- _ => apply andb_true_iff in H as [? ?] end;
    repeat match goal with H : second_ok _ _ = true |- _ => apply second_ok_range in H
                         | H : cont _ = true |- _ => apply cont_range in H end; b2p; lia.
Qed.

(** ** Full runes *)

(** Reference form of [FullRune]: the bytes seen decide the decoding. *)
Lemma FullRune_stable_ref p q :
  Forall is_byte p -> FullRune p = true -> decode_ref (p ++ q) = decode_ref p.
Proof.
  intros Hp Hf. destruct p as [|b0 [|b1 [|b2 [|b3 p]]]]; [done| | | |reflexivity].
  all: repeat match goal with H : Forall _ (_ :: _) |- _ => inversion_clear H end.
  all: unfold FullRune in Hf; rewrite ?lenZ_cons in Hf; autorewrite with nthZ in Hf.
  all: change (lenZ (@nil Z)) with 0 in Hf; revert Hf; cbn [app];
       rewrite (first_class_eq b0) by done; unfold is_byte in *.
  all: destruct (first_class_cases b0) as
    [[? ->]|[[? ->]|[[? ->]|[[-> ->]|[[[? ?] ->]|[[-> ->]|[[-> ->]|[[? ->]|[-> ->]]]]]]]]]; [done|..].
  all: eval_class; unfold decode_ref, outside, second_ok, cont, locb, hicb in *; decide_tests.
  all: try reflexivity; intros Hf; try discriminate Hf.
  all: destruct q as [|c0 [|c1 q]]; try reflexivity;
    repeat (case_test; cbn [andb orb] in *; try reflexivity; try discriminate Hf);
    repeat (case_test_in Hf; try discriminate Hf); exfalso; lia.
Qed.

(** A full rune is decoded the same way whatever bytes follow it: this is what
    lets the reader decode from a partially filled buffer. *)
Theorem FullRune_stable p q :
  Forall is_byte p -> Forall is_byte q -> FullRune p = true ->
  DecodeRune (p ++ q) = DecodeRune p.
Proof.
  intros Hp Hq Hf. rewrite !DecodeRune_ref by (rewrite ?Forall_app; auto).
  by apply FullRune_stable_ref.
Qed.

(** [UTFMax] bytes are always enough. *)
Lemma FullRune_long p : Forall is_byte p -> UTFMax <= lenZ p -> FullRune p = true.
Proof.
  unfold UTFMax. intros Hp Hl. destruct p as [|b0 p]; [done|].
  inversion_clear Hp as [|? ? H0 _]. unfold FullRune.
  destruct (lenZ (b0 :: p) =? 0) eqn:E; [b2p; lia|]. rewrite nthZ_0, first_class_eq by done.
  assert (Hx : Z.land (first_class b0) 7 <= 4).
  { destruct (first_class_cases b0 H0) as
      [[? ->]|[[? ->]|[[? ->]|[[? ->]|[[? ->]|[[? ->]|[[? ->]|[[? ->]|[? ->]]]]]]]]];
    vm_compute; discriminate. }
  cbv zeta. by rewrite (proj2 (Z.leb_le _ _)) by lia.
Qed.

(** ** [Valid] *)


Lemma testbit7_byte b : is_byte b -> Z.testbit b 7 = false -> b < RuneSelf.
Proof.
  intros Hb Ht. assert (H : (Z.testbit b 7 || (b <? RuneSelf)) = true).
  { apply (byte_forall (fun b => Z.testbit b 7 || (b <? RuneSelf))); [vm_compute; done|done]. }
  rewrite Ht in H. by apply Z.ltb_lt.
Qed.

Lemma testbit_load32 a0 a1 a2 a3 i : 0 <= i ->
  Z.testbit (Z.lor (Z.lor (Z.lor a0 (Z.shiftl a1 8)) (Z.shiftl a2 16)) (Z.shiftl a3 24)) i =
  Z.testbit a0 i || Z.testbit a1 (i - 8) || Z.testbit a2 (i - 16) || Z.testbit a3 (i - 24).
Proof. intros Hi. by rewrite !Z.lor_spec, !Z.shiftl_spec. Qed.

(** The two 32-bit loads are tested for all eight high bits at once. *)
Lemma ascii8_spec b0 b1 b2 b3 b4 b5 b6 b7 p :
  ascii8 (b0 :: b1 :: b2 :: b3 :: b4 :: b5 :: b6 :: b7 :: p) = true ->
  Forall is_byte [b0; b1; b2; b3; b4; b5; b6; b7] ->
  Forall (fun b => b < RuneSelf) [b0; b1; b2; b3; b4; b5; b6; b7].
Proof.
  intros Ha%Z.eqb_eq Hb.
  assert (Hbit : forall i, 0 <= i -> Z.testbit 0x80808080 i = true ->
    Z.testbit b0 i || Z.testbit b1 (i - 8) || Z.testbit b2 (i - 16) || Z.testbit b3 (i - 24)
    || (Z.testbit b4 i || Z.testbit b5 (i - 8) || Z.testbit b6 (i - 16) || Z.testbit b7 (i - 24)) = false).
  { intros i Hi Ht. apply (f_equal (fun z => Z.testbit z i)) in Ha.
    rewrite Z.land_spec, Z.lor_spec, Z.bits_0, Ht, andb_true_r, !testbit_load32 in Ha by done.
    exact Ha. }
  pose proof (Hbit 7 (Pos2Z.is_nonneg _) eq_refl) as H7. pose proof (Hbit 15 (Pos2Z.is_nonneg _) eq_refl) as H15.
  pose proof (Hbit 23 (Pos2Z.is_nonneg _) eq_refl) as H23. pose proof (Hbit 31 (Pos2Z.is_nonneg _) eq_refl) as H31.
  clear Hbit Ha. repeat match goal with H : Forall _ (_ :: _) |- _ => inversion_clear H end.
  repeat match goal with H : _ || _ = false |- _ => apply orb_false_iff in H as [? ?] end.
  by repeat (apply Forall_cons_2; [by apply testbit7_byte|]).
Qed.

(** A prefix of ASCII bytes does not change [Valid]'s verdict on the rest. *)
Lemma skip_ascii_spec fuel p : Forall is_byte p ->
  exists a, p = a ++ skip_ascii fuel p /\ Forall (fun b => 0 <= b < RuneSelf) a.
Proof.
  revert p. induction fuel as [|fuel IH]; intros p Hp; cbn [skip_ascii].
  { by exists []. }
  destruct (8 <=? lenZ p) eqn:Hl; [|by exists []].
  destruct (ascii8 p) eqn:Ha; [|by exists []].
  do 8 (destruct p as [|? p]; [done|]).
  apply (Forall_app _ [_; _; _; _; _; _; _; _] p) in Hp as [Hb Hp].
  destruct (IH p Hp) as (a & Heq & Hasc). pose proof (ascii8_spec _ _ _ _ _ _ _ _ _ Ha Hb) as H8.
  exists ([z; z0; z1; z2; z3; z4; z5; z6] ++ a). split; [cbn [app drop]; by rewrite Heq at 1|].
  apply Forall_app. split; [|done].
  refine (List.Forall_impl _ _ (List.Forall_and Hb H8)).
  unfold is_byte. intros b [? ?]. lia.
Qed.

Lemma nthZ_3 {A} (d x y z t : A) l : nthZ d (x :: y :: z :: t :: l) 3 = t.
Proof. reflexivity. Qed.

Definition malformed (d : rune * Z) : bool := (d.1 =? RuneError) && (d.2 =? 1).

Lemma valid_loop_step n b0 q : Forall is_byte (b0 :: q) ->
  valid_loop (S n) (b0 :: q) =
  let d := decode_ref (b0 :: q) in
  if malformed d then false else valid_loop n (drop (Z.to_nat d.2) (b0 :: q)).
Proof.
  intros Hp. cbn [valid_loop].
  destruct q as [|b1 [|b2 [|b3 q]]];
    repeat match goal with H : Forall _ (_ :: _) |- _ => inversion_clear H end;
    rewrite (first_class_eq b0), ?lenZ_cons by done; rewrite ?nthZ_1, ?nthZ_2;
    try (pose proof (lenZ_nonneg q)); change (lenZ (@nil Z)) with 0;
    unfold is_byte in *;
  destruct (first_class_cases b0) as
    [[? ->]|[[? ->]|[[? ->]|[[-> ->]|[[[? ?] ->]|[[-> ->]|[[-> ->]|[[? ->]|[-> ->]]]]]]]]]; try lia.
  all: try done; cbv zeta; cbn [decode_ref]; eval_class;
    unfold outside, second_ok, cont, locb, hicb, RuneSelf in *;
    rewrite ?nthZ_1, ?nthZ_2, ?nthZ_3; unfold xx, as_, s1, s2, s3, s4, s5, s6, s7 in *;
    decide_tests; try reflexivity.
  all: repeat (case_test; cbn [andb orb] in *; try reflexivity); try (exfalso; lia).
  all: unfold malformed, RuneError in *; cbn [fst snd] in *; exfalso; lia.
Qed.

Lemma decode_ref_width p : Forall is_byte p -> p <> [] ->
  1 <= (decode_ref p).2 <= UTFMax /\ (decode_ref p).2 <= lenZ p.
Proof.
  intros Hp Hne. rewrite <- DecodeRune_ref by done.
  destruct (DecodeRune p) as [r n] eqn:E. by apply (DecodeRune_width p r n).
Qed.

(** The text of a list of runes. *)
Definition encode_all (rs : list rune) : list byte := concat (map encode rs).

Lemma encode_nonnil r : ValidRune r = true -> encode r <> [].
Proof.
  intros H Hn. pose proof (encode_length r H) as Hl. rewrite Hn in Hl.
  destruct (ValidRune_cases r H) as [?|[?|[[? ?]|?]]]; unfold RuneLen, rune1Max, rune2Max,
    rune3Max, surrogateMin, surrogateMax, MaxRune in *;
  change (lenZ (@nil Z)) with 0 in Hl; repeat case_match; lia.
Qed.

Lemma decode_ref_malformed r : ValidRune r = true -> malformed (r, RuneLen r) = false.
Proof.
  intros H. unfold malformed. cbn [fst snd]. apply andb_false_iff.
  destruct (r =? RuneError) eqn:E; [|by left]. b2p; subst. right. reflexivity.
Qed.

Lemma valid_loop_spec n p : Forall is_byte p -> (length p <= n)%nat ->
  valid_loop n p = true <-> exists rs, Forall (fun r => ValidRune r = true) rs /\ p = encode_all rs.
Proof.
  revert p. induction n as [|n IH]; intros p Hp Hn.
  { destruct p; [|cbn in Hn; lia]. split; [intros _; by exists []|done]. }
  destruct p as [|b0 q]; [split; [intros _; by exists []|done]|].
  rewrite valid_loop_step by done. cbv zeta.
  pose proof (decode_ref_width (b0 :: q) Hp ltac:(done)) as Hw.
  destruct (decode_ref (b0 :: q)) as [r w] eqn:E. cbn [snd] in *.
  assert (Hdrop : Forall is_byte (drop (Z.to_nat w) (b0 :: q))) by by apply Forall_drop.
  assert (Hlen : (length (drop (Z.to_nat w) (b0 :: q)) <= n)%nat) by (rewrite length_drop; lia).
  split.
  - destruct (malformed (r, w)) eqn:Em; [done|]. rewrite (IH _ Hdrop Hlen).
    intros (rs & Hrs & Heq).
    destruct (decode_ref_sound (b0 :: q) r w Hp) as (Hr & -> & Hbq); [done|done|..].
    { intros [-> ->]. done. }
    exists (r :: rs). split; [by constructor|]. rewrite Hbq, Heq. done.
  - intros (rs & Hrs & Heq). destruct rs as [|r' rs]; [done|].
    inversion_clear Hrs as [|? ? Hr Hrs']. unfold encode_all in Heq. cbn [map concat] in Heq.
    assert (Hd := decode_ref_encode r' (concat (map encode rs)) Hr).
    rewrite <- Heq, E in Hd. injection Hd as -> ->. rewrite decode_ref_malformed by done.
    apply IH; [done..|]. exists rs. split; [done|].
    rewrite Heq, <- encode_length by done. unfold lenZ. rewrite Nat2Z.id, drop_app_length. done.
Qed.

Lemma encode_all_ascii a : Forall (fun b => 0 <= b < RuneSelf) a ->
  Forall (fun r => ValidRune r = true) a /\ encode_all a = a.
Proof.
  unfold RuneSelf. induction 1 as [|b a Hb _ [IH1 IH2]]; [by split|]. split.
  - constructor; [|done]. unfold ValidRune, surrogateMin. by decide_tests.
  - unfold encode_all in *. cbn [map concat]. rewrite IH2, encode1 by done. done.
Qed.

Lemma encode_all_app r1 r2 : encode_all (r1 ++ r2) = encode_all r1 ++ encode_all r2.
Proof. unfold encode_all. by rewrite map_app, concat_app. Qed.

Lemma encode_all_cancel a rs :
  Forall (fun b => 0 <= b < RuneSelf) a -> Forall (fun r => ValidRune r = true) rs ->
  forall p, a ++ p = encode_all rs ->
  exists rs', Forall (fun r => ValidRune r = true) rs' /\ p = encode_all rs'.
Proof.
  intros Ha. revert rs. induction Ha as [|b a Hb _ IH]; intros rs Hrs p Heq; [by exists rs|].
  destruct Hrs as [|r rs Hr Hrs]; [done|]. unfold encode_all in Heq. cbn [map concat app] in Heq.
  unfold RuneSelf in Hb.
  assert (Hd := decode_ref_encode r (concat (map encode rs)) Hr). rewrite <- Heq in Hd.
  cbn [decode_ref] in Hd. rewrite (proj2 (Z.ltb_lt b 128)) in Hd by lia.
  injection Hd as <- Hlen. rewrite encode1 in Heq by lia. injection Heq as Heq.
  by apply (IH rs).
Qed.

(** [Valid], with its fast path over eight bytes at a time, accepts exactly
    the byte strings that are encodings of valid runes. *)
Theorem Valid_spec p : Forall is_byte p ->
  Valid p = true <-> exists rs, Forall (fun r => ValidRune r = true) rs /\ p = encode_all rs.
Proof.
  intros Hp. destruct (skip_ascii_spec (length p) p Hp) as (a & Heq & Ha).
  unfold Valid. set (p' := skip_ascii (length p) p) in *.
  assert (Hp' : Forall is_byte p') by (rewrite Heq in Hp; by apply Forall_app in Hp as [_ Hp]).
  rewrite valid_loop_spec by done. split.
  - intros (rs & Hrs & Hp''). destruct (encode_all_ascii a Ha) as [Hva Hea].
    exists (a ++ rs). split; [by apply Forall_app|]. by rewrite encode_all_app, Hea, <- Hp''.
  - intros (rs & Hrs & Hpe). rewrite Heq in Hpe. by apply (encode_all_cancel a rs).
Qed.

(** C39: encoding and decoding are inverse: the decoder reads back every valid
    rune from its encoding, whatever bytes follow, and, conversely, whatever
    it decodes from a non-empty byte string without reporting an error is a
    valid rune whose encoding the string starts with. *)
Theorem utf8_roundtrip :
  (forall r q, ValidRune r = true -> Forall is_byte q ->
     DecodeRune (encode r ++ q) = (r, RuneLen r)) /\
  (forall p r n, Forall is_byte p -> p <> [] -> DecodeRune p = (r, n) -> ~ (r = RuneError /\ n = 1) ->
     ValidRune r = true /\ n = RuneLen r /\ p = encode r ++ drop (Z.to_nat n) p).
Proof. split; [exact DecodeRune_encode|exact DecodeRune_sound]. Qed.

Lemma Valid_spec_witness :
  Valid [0x48; 0xC3; 0xB8] = true <->
  exists rs, Forall (fun r => ValidRune r = true) rs /\ [0x48; 0xC3; 0xB8] = encode_all rs.
Proof. apply Valid_spec. repeat constructor; unfold is_byte; try discriminate. Defined.
