(* ===== verification/UnicodeTables.v ===== *)
(** * Unicode data tables

    The range tables of the categories L and Nd and of the property
    White_Space, the Latin-1 property table of src/src/unicode/tables.go, and
    the printability tables of src/src/strconv/isprint.go, entry by entry.
    Other categories are not used by the front end. *)

From S2P Require Import Prelude.

(** [unicode.Range16], [unicode.Range32]: the bounds and the stride. *)
Record Range := R { Lo : Z; Hi : Z; Stride : Z }.

(** [unicode.RangeTable]. *)
Record RangeTable := MkRangeTable { R16 : list Range; R32 : list Range; LatinOffset : Z }.

(** Property bits of src/src/unicode/graphic.go. *)
Definition pC : Z := 1.
Definition pP : Z := 2.
Definition pN : Z := 4.
Definition pS : Z := 8.
Definition pZ : Z := 16.
Definition pLu : Z := 32.
Definition pLl : Z := 64.
Definition pp : Z := 128.
Definition pg : Z := Z.lor pp pZ.
Definition pLo : Z := Z.lor pLl pLu.
Definition pLmask : Z := pLo.

Definition _L_R16 : list Range :=
  [R 0x0041 0x005a 1; R 0x0061 0x007a 1; R 0x00aa 0x00b5 11; R 0x00ba 0x00c0 6;
   R 0x00c1 0x00d6 1; R 0x00d8 0x00f6 1; R 0x00f8 0x02c1 1; R 0x02c6 0x02d1 1;
   R 0x02e0 0x02e4 1; R 0x02ec 0x02ee 2; R 0x0370 0x0374 1; R 0x0376 0x0377 1;
   R 0x037a 0x037d 1; R 0x037f 0x0386 7; R 0x0388 0x038a 1; R 0x038c 0x038e 2;
   R 0x038f 0x03a1 1; R 0x03a3 0x03f5 1; R 0x03f7 0x0481 1; R 0x048a 0x052f 1;
   R 0x0531 0x0556 1; R 0x0559 0x0560 7; R 0x0561 0x0588 1; R 0x05d0 0x05ea 1;
   R 0x05ef 0x05f2 1; R 0x0620 0x064a 1; R 0x066e 0x066f 1; R 0x0671 0x06d3 1;
   R 0x06d5 0x06e5 16; R 0x06e6 0x06ee 8; R 0x06ef 0x06fa 11; R 0x06fb 0x06fc 1;
   R 0x06ff 0x0710 17; R 0x0712 0x072f 1; R 0x074d 0x07a5 1; R 0x07b1 0x07ca 25;
   R 0x07cb 0x07ea 1; R 0x07f4 0x07f5 1; R 0x07fa 0x0800 6; R 0x0801 0x0815 1;
   R 0x081a 0x0824 10; R 0x0828 0x0840 24; R 0x0841 0x0858 1; R 0x0860 0x086a 1;
   R 0x0870 0x0887 1; R 0x0889 0x088e 1; R 0x08a0 0x08c9 1; R 0x0904 0x0939 1;
   R 0x093d 0x0950 19; R 0x0958 0x0961 1; R 0x0971 0x0980 1; R 0x0985 0x098c 1;
   R 0x098f 0x0990 1; R 0x0993 0x09a8 1; R 0x09aa 0x09b0 1; R 0x09b2 0x09b6 4;
   R 0x09b7 0x09b9 1; R 0x09bd 0x09ce 17; R 0x09dc 0x09dd 1; R 0x09df 0x09e1 1;
   R 0x09f0 0x09f1 1; R 0x09fc 0x0a05 9; R 0x0a06 0x0a0a 1; R 0x0a0f 0x0a10 1;
   R 0x0a13 0x0a28 1; R 0x0a2a 0x0a30 1; R 0x0a32 0x0a33 1; R 0x0a35 0x0a36 1;
   R 0x0a38 0x0a39 1; R 0x0a59 0x0a5c 1; R 0x0a5e 0x0a72 20; R 0x0a73 0x0a74 1;
   R 0x0a85 0x0a8d 1; R 0x0a8f 0x0a91 1; R 0x0a93 0x0aa8 1; R 0x0aaa 0x0ab0 1;
   R 0x0ab2 0x0ab3 1; R 0x0ab5 0x0ab9 1; R 0x0abd 0x0ad0 19; R 0x0ae0 0x0ae1 1;
   R 0x0af9 0x0b05 12; R 0x0b06 0x0b0c 1; R 0x0b0f 0x0b10 1; R 0x0b13 0x0b28 1;
   R 0x0b2a 0x0b30 1; R 0x0b32 0x0b33 1; R 0x0b35 0x0b39 1; R 0x0b3d 0x0b5c 31;
   R 0x0b5d 0x0b5f 2; R 0x0b60 0x0b61 1; R 0x0b71 0x0b83 18; R 0x0b85 0x0b8a 1;
   R 0x0b8e 0x0b90 1; R 0x0b92 0x0b95 1; R 0x0b99 0x0b9a 1; R 0x0b9c 0x0b9e 2;
   R 0x0b9f 0x0ba3 4; R 0x0ba4 0x0ba8 4; R 0x0ba9 0x0baa 1; R 0x0bae 0x0bb9 1;
   R 0x0bd0 0x0c05 53; R 0x0c06 0x0c0c 1; R 0x0c0e 0x0c10 1; R 0x0c12 0x0c28 1;
   R 0x0c2a 0x0c39 1; R 0x0c3d 0x0c58 27; R 0x0c59 0x0c5a 1; R 0x0c5d 0x0c60 3;
   R 0x0c61 0x0c80 31; R 0x0c85 0x0c8c 1; R 0x0c8e 0x0c90 1; R 0x0c92 0x0ca8 1;
   R 0x0caa 0x0cb3 1; R 0x0cb5 0x0cb9 1; R 0x0cbd 0x0cdd 32; R 0x0cde 0x0ce0 2;
   R 0x0ce1 0x0cf1 16; R 0x0cf2 0x0d04 18; R 0x0d05 0x0d0c 1; R 0x0d0e 0x0d10 1;
   R 0x0d12 0x0d3a 1; R 0x0d3d 0x0d4e 17; R 0x0d54 0x0d56 1; R 0x0d5f 0x0d61 1;
   R 0x0d7a 0x0d7f 1; R 0x0d85 0x0d96 1; R 0x0d9a 0x0db1 1; R 0x0db3 0x0dbb 1;
   R 0x0dbd 0x0dc0 3; R 0x0dc1 0x0dc6 1; R 0x0e01 0x0e30 1; R 0x0e32 0x0e33 1;
   R 0x0e40 0x0e46 1; R 0x0e81 0x0e82 1; R 0x0e84 0x0e86 2; R 0x0e87 0x0e8a 1;
   R 0x0e8c 0x0ea3 1; R 0x0ea5 0x0ea7 2; R 0x0ea8 0x0eb0 1; R 0x0eb2 0x0eb3 1;
   R 0x0ebd 0x0ec0 3; R 0x0ec1 0x0ec4 1; R 0x0ec6 0x0edc 22; R 0x0edd 0x0edf 1;
   R 0x0f00 0x0f40 64; R 0x0f41 0x0f47 1; R 0x0f49 0x0f6c 1; R 0x0f88 0x0f8c 1;
   R 0x1000 0x102a 1; R 0x103f 0x1050 17; R 0x1051 0x1055 1; R 0x105a 0x105d 1;
   R 0x1061 0x1065 4; R 0x1066 0x106e 8; R 0x106f 0x1070 1; R 0x1075 0x1081 1;
   R 0x108e 0x10a0 18; R 0x10a1 0x10c5 1; R 0x10c7 0x10cd 6; R 0x10d0 0x10fa 1;
   R 0x10fc 0x1248 1; R 0x124a 0x124d 1; R 0x1250 0x1256 1; R 0x1258 0x125a 2;
   R 0x125b 0x125d 1; R 0x1260 0x1288 1; R 0x128a 0x128d 1; R 0x1290 0x12b0 1;
   R 0x12b2 0x12b5 1; R 0x12b8 0x12be 1; R 0x12c0 0x12c2 2; R 0x12c3 0x12c5 1;
   R 0x12c8 0x12d6 1; R 0x12d8 0x1310 1; R 0x1312 0x1315 1; R 0x1318 0x135a 1;
   R 0x1380 0x138f 1; R 0x13a0 0x13f5 1; R 0x13f8 0x13fd 1; R 0x1401 0x166c 1;
   R 0x166f 0x167f 1; R 0x1681 0x169a 1; R 0x16a0 0x16ea 1; R 0x16f1 0x16f8 1;
   R 0x1700 0x1711 1; R 0x171f 0x1731 1; R 0x1740 0x1751 1; R 0x1760 0x176c 1;
   R 0x176e 0x1770 1; R 0x1780 0x17b3 1; R 0x17d7 0x17dc 5; R 0x1820 0x1878 1;
   R 0x1880 0x1884 1; R 0x1887 0x18a8 1; R 0x18aa 0x18b0 6; R 0x18b1 0x18f5 1;
   R 0x1900 0x191e 1; R 0x1950 0x196d 1; R 0x1970 0x1974 1; R 0x1980 0x19ab 1;
   R 0x19b0 0x19c9 1; R 0x1a00 0x1a16 1; R 0x1a20 0x1a54 1; R 0x1aa7 0x1b05 94;
   R 0x1b06 0x1b33 1; R 0x1b45 0x1b4c 1; R 0x1b83 0x1ba0 1; R 0x1bae 0x1baf 1;
   R 0x1bba 0x1be5 1; R 0x1c00 0x1c23 1; R 0x1c4d 0x1c4f 1; R 0x1c5a 0x1c7d 1;
   R 0x1c80 0x1c88 1; R 0x1c90 0x1cba 1; R 0x1cbd 0x1cbf 1; R 0x1ce9 0x1cec 1;
   R 0x1cee 0x1cf3 1; R 0x1cf5 0x1cf6 1; R 0x1cfa 0x1d00 6; R 0x1d01 0x1dbf 1;
   R 0x1e00 0x1f15 1; R 0x1f18 0x1f1d 1; R 0x1f20 0x1f45 1; R 0x1f48 0x1f4d 1;
   R 0x1f50 0x1f57 1; R 0x1f59 0x1f5f 2; R 0x1f60 0x1f7d 1; R 0x1f80 0x1fb4 1;
   R 0x1fb6 0x1fbc 1; R 0x1fbe 0x1fc2 4; R 0x1fc3 0x1fc4 1; R 0x1fc6 0x1fcc 1;
   R 0x1fd0 0x1fd3 1; R 0x1fd6 0x1fdb 1; R 0x1fe0 0x1fec 1; R 0x1ff2 0x1ff4 1;
   R 0x1ff6 0x1ffc 1; R 0x2071 0x207f 14; R 0x2090 0x209c 1; R 0x2102 0x2107 5;
   R 0x210a 0x2113 1; R 0x2115 0x2119 4; R 0x211a 0x211d 1; R 0x2124 0x212a 2;
   R 0x212b 0x212d 1; R 0x212f 0x2139 1; R 0x213c 0x213f 1; R 0x2145 0x2149 1;
   R 0x214e 0x2183 53; R 0x2184 0x2c00 2684; R 0x2c01 0x2ce4 1; R 0x2ceb 0x2cee 1;
   R 0x2cf2 0x2cf3 1; R 0x2d00 0x2d25 1; R 0x2d27 0x2d2d 6; R 0x2d30 0x2d67 1;
   R 0x2d6f 0x2d80 17; R 0x2d81 0x2d96 1; R 0x2da0 0x2da6 1; R 0x2da8 0x2dae 1;
   R 0x2db0 0x2db6 1; R 0x2db8 0x2dbe 1; R 0x2dc0 0x2dc6 1; R 0x2dc8 0x2dce 1;
   R 0x2dd0 0x2dd6 1; R 0x2dd8 0x2dde 1; R 0x2e2f 0x3005 470; R 0x3006 0x3031 43;
   R 0x3032 0x3035 1; R 0x303b 0x303c 1; R 0x3041 0x3096 1; R 0x309d 0x309f 1;
   R 0x30a1 0x30fa 1; R 0x30fc 0x30ff 1; R 0x3105 0x312f 1; R 0x3131 0x318e 1;
   R 0x31a0 0x31bf 1; R 0x31f0 0x31ff 1; R 0x3400 0x4dbf 1; R 0x4e00 0xa48c 1;
   R 0xa4d0 0xa4fd 1; R 0xa500 0xa60c 1; R 0xa610 0xa61f 1; R 0xa62a 0xa62b 1;
   R 0xa640 0xa66e 1; R 0xa67f 0xa69d 1; R 0xa6a0 0xa6e5 1; R 0xa717 0xa71f 1;
   R 0xa722 0xa788 1; R 0xa78b 0xa7ca 1; R 0xa7d0 0xa7d1 1; R 0xa7d3 0xa7d5 2;
   R 0xa7d6 0xa7d9 1; R 0xa7f2 0xa801 1; R 0xa803 0xa805 1; R 0xa807 0xa80a 1;
   R 0xa80c 0xa822 1; R 0xa840 0xa873 1; R 0xa882 0xa8b3 1; R 0xa8f2 0xa8f7 1;
   R 0xa8fb 0xa8fd 2; R 0xa8fe 0xa90a 12; R 0xa90b 0xa925 1; R 0xa930 0xa946 1;
   R 0xa960 0xa97c 1; R 0xa984 0xa9b2 1; R 0xa9cf 0xa9e0 17; R 0xa9e1 0xa9e4 1;
   R 0xa9e6 0xa9ef 1; R 0xa9fa 0xa9fe 1; R 0xaa00 0xaa28 1; R 0xaa40 0xaa42 1;
   R 0xaa44 0xaa4b 1; R 0xaa60 0xaa76 1; R 0xaa7a 0xaa7e 4; R 0xaa7f 0xaaaf 1;
   R 0xaab1 0xaab5 4; R 0xaab6 0xaab9 3; R 0xaaba 0xaabd 1; R 0xaac0 0xaac2 2;
   R 0xaadb 0xaadd 1; R 0xaae0 0xaaea 1; R 0xaaf2 0xaaf4 1; R 0xab01 0xab06 1;
   R 0xab09 0xab0e 1; R 0xab11 0xab16 1; R 0xab20 0xab26 1; R 0xab28 0xab2e 1;
   R 0xab30 0xab5a 1; R 0xab5c 0xab69 1; R 0xab70 0xabe2 1; R 0xac00 0xd7a3 1;
   R 0xd7b0 0xd7c6 1; R 0xd7cb 0xd7fb 1; R 0xf900 0xfa6d 1; R 0xfa70 0xfad9 1;
   R 0xfb00 0xfb06 1; R 0xfb13 0xfb17 1; R 0xfb1d 0xfb1f 2; R 0xfb20 0xfb28 1;
   R 0xfb2a 0xfb36 1; R 0xfb38 0xfb3c 1; R 0xfb3e 0xfb40 2; R 0xfb41 0xfb43 2;
   R 0xfb44 0xfb46 2; R 0xfb47 0xfbb1 1; R 0xfbd3 0xfd3d 1; R 0xfd50 0xfd8f 1;
   R 0xfd92 0xfdc7 1; R 0xfdf0 0xfdfb 1; R 0xfe70 0xfe74 1; R 0xfe76 0xfefc 1;
   R 0xff21 0xff3a 1; R 0xff41 0xff5a 1; R 0xff66 0xffbe 1; R 0xffc2 0xffc7 1;
   R 0xffca 0xffcf 1; R 0xffd2 0xffd7 1; R 0xffda 0xffdc 1].

Definition _L_R32 : list Range :=
  [R 0x10000 0x1000b 1; R 0x1000d 0x10026 1; R 0x10028 0x1003a 1; R 0x1003c 0x1003d 1;
   R 0x1003f 0x1004d 1; R 0x10050 0x1005d 1; R 0x10080 0x100fa 1; R 0x10280 0x1029c 1;
   R 0x102a0 0x102d0 1; R 0x10300 0x1031f 1; R 0x1032d 0x10340 1; R 0x10342 0x10349 1;
   R 0x10350 0x10375 1; R 0x10380 0x1039d 1; R 0x103a0 0x103c3 1; R 0x103c8 0x103cf 1;
   R 0x10400 0x1049d 1; R 0x104b0 0x104d3 1; R 0x104d8 0x104fb 1; R 0x10500 0x10527 1;
   R 0x10530 0x10563 1; R 0x10570 0x1057a 1; R 0x1057c 0x1058a 1; R 0x1058c 0x10592 1;
   R 0x10594 0x10595 1; R 0x10597 0x105a1 1; R 0x105a3 0x105b1 1; R 0x105b3 0x105b9 1;
   R 0x105bb 0x105bc 1; R 0x10600 0x10736 1; R 0x10740 0x10755 1; R 0x10760 0x10767 1;
   R 0x10780 0x10785 1; R 0x10787 0x107b0 1; R 0x107b2 0x107ba 1; R 0x10800 0x10805 1;
   R 0x10808 0x1080a 2; R 0x1080b 0x10835 1; R 0x10837 0x10838 1; R 0x1083c 0x1083f 3;
   R 0x10840 0x10855 1; R 0x10860 0x10876 1; R 0x10880 0x1089e 1; R 0x108e0 0x108f2 1;
   R 0x108f4 0x108f5 1; R 0x10900 0x10915 1; R 0x10920 0x10939 1; R 0x10980 0x109b7 1;
   R 0x109be 0x109bf 1; R 0x10a00 0x10a10 16; R 0x10a11 0x10a13 1; R 0x10a15 0x10a17 1;
   R 0x10a19 0x10a35 1; R 0x10a60 0x10a7c 1; R 0x10a80 0x10a9c 1; R 0x10ac0 0x10ac7 1;
   R 0x10ac9 0x10ae4 1; R 0x10b00 0x10b35 1; R 0x10b40 0x10b55 1; R 0x10b60 0x10b72 1;
   R 0x10b80 0x10b91 1; R 0x10c00 0x10c48 1; R 0x10c80 0x10cb2 1; R 0x10cc0 0x10cf2 1;
   R 0x10d00 0x10d23 1; R 0x10e80 0x10ea9 1; R 0x10eb0 0x10eb1 1; R 0x10f00 0x10f1c 1;
   R 0x10f27 0x10f30 9; R 0x10f31 0x10f45 1; R 0x10f70 0x10f81 1; R 0x10fb0 0x10fc4 1;
   R 0x10fe0 0x10ff6 1; R 0x11003 0x11037 1; R 0x11071 0x11072 1; R 0x11075 0x11083 14;
   R 0x11084 0x110af 1; R 0x110d0 0x110e8 1; R 0x11103 0x11126 1; R 0x11144 0x11147 3;
   R 0x11150 0x11172 1; R 0x11176 0x11183 13; R 0x11184 0x111b2 1; R 0x111c1 0x111c4 1;
   R 0x111da 0x111dc 2; R 0x11200 0x11211 1; R 0x11213 0x1122b 1; R 0x1123f 0x11240 1;
   R 0x11280 0x11286 1; R 0x11288 0x1128a 2; R 0x1128b 0x1128d 1; R 0x1128f 0x1129d 1;
   R 0x1129f 0x112a8 1; R 0x112b0 0x112de 1; R 0x11305 0x1130c 1; R 0x1130f 0x11310 1;
   R 0x11313 0x11328 1; R 0x1132a 0x11330 1; R 0x11332 0x11333 1; R 0x11335 0x11339 1;
   R 0x1133d 0x11350 19; R 0x1135d 0x11361 1; R 0x11400 0x11434 1; R 0x11447 0x1144a 1;
   R 0x1145f 0x11461 1; R 0x11480 0x114af 1; R 0x114c4 0x114c5 1; R 0x114c7 0x11580 185;
   R 0x11581 0x115ae 1; R 0x115d8 0x115db 1; R 0x11600 0x1162f 1; R 0x11644 0x11680 60;
   R 0x11681 0x116aa 1; R 0x116b8 0x11700 72; R 0x11701 0x1171a 1; R 0x11740 0x11746 1;
   R 0x11800 0x1182b 1; R 0x118a0 0x118df 1; R 0x118ff 0x11906 1; R 0x11909 0x1190c 3;
   R 0x1190d 0x11913 1; R 0x11915 0x11916 1; R 0x11918 0x1192f 1; R 0x1193f 0x11941 2;
   R 0x119a0 0x119a7 1; R 0x119aa 0x119d0 1; R 0x119e1 0x119e3 2; R 0x11a00 0x11a0b 11;
   R 0x11a0c 0x11a32 1; R 0x11a3a 0x11a50 22; R 0x11a5c 0x11a89 1; R 0x11a9d 0x11ab0 19;
   R 0x11ab1 0x11af8 1; R 0x11c00 0x11c08 1; R 0x11c0a 0x11c2e 1; R 0x11c40 0x11c72 50;
   R 0x11c73 0x11c8f 1; R 0x11d00 0x11d06 1; R 0x11d08 0x11d09 1; R 0x11d0b 0x11d30 1;
   R 0x11d46 0x11d60 26; R 0x11d61 0x11d65 1; R 0x11d67 0x11d68 1; R 0x11d6a 0x11d89 1;
   R 0x11d98 0x11ee0 328; R 0x11ee1 0x11ef2 1; R 0x11f02 0x11f04 2; R 0x11f05 0x11f10 1;
   R 0x11f12 0x11f33 1; R 0x11fb0 0x12000 80; R 0x12001 0x12399 1; R 0x12480 0x12543 1;
   R 0x12f90 0x12ff0 1; R 0x13000 0x1342f 1; R 0x13441 0x13446 1; R 0x14400 0x14646 1;
   R 0x16800 0x16a38 1; R 0x16a40 0x16a5e 1; R 0x16a70 0x16abe 1; R 0x16ad0 0x16aed 1;
   R 0x16b00 0x16b2f 1; R 0x16b40 0x16b43 1; R 0x16b63 0x16b77 1; R 0x16b7d 0x16b8f 1;
   R 0x16e40 0x16e7f 1; R 0x16f00 0x16f4a 1; R 0x16f50 0x16f93 67; R 0x16f94 0x16f9f 1;
   R 0x16fe0 0x16fe1 1; R 0x16fe3 0x17000 29; R 0x17001 0x187f7 1; R 0x18800 0x18cd5 1;
   R 0x18d00 0x18d08 1; R 0x1aff0 0x1aff3 1; R 0x1aff5 0x1affb 1; R 0x1affd 0x1affe 1;
   R 0x1b000 0x1b122 1; R 0x1b132 0x1b150 30; R 0x1b151 0x1b152 1; R 0x1b155 0x1b164 15;
   R 0x1b165 0x1b167 1; R 0x1b170 0x1b2fb 1; R 0x1bc00 0x1bc6a 1; R 0x1bc70 0x1bc7c 1;
   R 0x1bc80 0x1bc88 1; R 0x1bc90 0x1bc99 1; R 0x1d400 0x1d454 1; R 0x1d456 0x1d49c 1;
   R 0x1d49e 0x1d49f 1; R 0x1d4a2 0x1d4a5 3; R 0x1d4a6 0x1d4a9 3; R 0x1d4aa 0x1d4ac 1;
   R 0x1d4ae 0x1d4b9 1; R 0x1d4bb 0x1d4bd 2; R 0x1d4be 0x1d4c3 1; R 0x1d4c5 0x1d505 1;
   R 0x1d507 0x1d50a 1; R 0x1d50d 0x1d514 1; R 0x1d516 0x1d51c 1; R 0x1d51e 0x1d539 1;
   R 0x1d53b 0x1d53e 1; R 0x1d540 0x1d544 1; R 0x1d546 0x1d54a 4; R 0x1d54b 0x1d550 1;
   R 0x1d552 0x1d6a5 1; R 0x1d6a8 0x1d6c0 1; R 0x1d6c2 0x1d6da 1; R 0x1d6dc 0x1d6fa 1;
   R 0x1d6fc 0x1d714 1; R 0x1d716 0x1d734 1; R 0x1d736 0x1d74e 1; R 0x1d750 0x1d76e 1;
   R 0x1d770 0x1d788 1; R 0x1d78a 0x1d7a8 1; R 0x1d7aa 0x1d7c2 1; R 0x1d7c4 0x1d7cb 1;
   R 0x1df00 0x1df1e 1; R 0x1df25 0x1df2a 1; R 0x1e030 0x1e06d 1; R 0x1e100 0x1e12c 1;
   R 0x1e137 0x1e13d 1; R 0x1e14e 0x1e290 322; R 0x1e291 0x1e2ad 1; R 0x1e2c0 0x1e2eb 1;
   R 0x1e4d0 0x1e4eb 1; R 0x1e7e0 0x1e7e6 1; R 0x1e7e8 0x1e7eb 1; R 0x1e7ed 0x1e7ee 1;
   R 0x1e7f0 0x1e7fe 1; R 0x1e800 0x1e8c4 1; R 0x1e900 0x1e943 1; R 0x1e94b 0x1ee00 1205;
   R 0x1ee01 0x1ee03 1; R 0x1ee05 0x1ee1f 1; R 0x1ee21 0x1ee22 1; R 0x1ee24 0x1ee27 3;
   R 0x1ee29 0x1ee32 1; R 0x1ee34 0x1ee37 1; R 0x1ee39 0x1ee3b 2; R 0x1ee42 0x1ee47 5;
   R 0x1ee49 0x1ee4d 2; R 0x1ee4e 0x1ee4f 1; R 0x1ee51 0x1ee52 1; R 0x1ee54 0x1ee57 3;
   R 0x1ee59 0x1ee61 2; R 0x1ee62 0x1ee64 2; R 0x1ee67 0x1ee6a 1; R 0x1ee6c 0x1ee72 1;
   R 0x1ee74 0x1ee77 1; R 0x1ee79 0x1ee7c 1; R 0x1ee7e 0x1ee80 2; R 0x1ee81 0x1ee89 1;
   R 0x1ee8b 0x1ee9b 1; R 0x1eea1 0x1eea3 1; R 0x1eea5 0x1eea9 1; R 0x1eeab 0x1eebb 1;
   R 0x20000 0x2a6df 1; R 0x2a700 0x2b739 1; R 0x2b740 0x2b81d 1; R 0x2b820 0x2cea1 1;
   R 0x2ceb0 0x2ebe0 1; R 0x2f800 0x2fa1d 1; R 0x30000 0x3134a 1; R 0x31350 0x323af 1].

Definition _L : RangeTable := MkRangeTable _L_R16 _L_R32 6.

Definition _Nd_R16 : list Range :=
  [R 0x0030 0x0039 1; R 0x0660 0x0669 1; R 0x06f0 0x06f9 1; R 0x07c0 0x07c9 1;
   R 0x0966 0x096f 1; R 0x09e6 0x09ef 1; R 0x0a66 0x0a6f 1; R 0x0ae6 0x0aef 1;
   R 0x0b66 0x0b6f 1; R 0x0be6 0x0bef 1; R 0x0c66 0x0c6f 1; R 0x0ce6 0x0cef 1;
   R 0x0d66 0x0d6f 1; R 0x0de6 0x0def 1; R 0x0e50 0x0e59 1; R 0x0ed0 0x0ed9 1;
   R 0x0f20 0x0f29 1; R 0x1040 0x1049 1; R 0x1090 0x1099 1; R 0x17e0 0x17e9 1;
   R 0x1810 0x1819 1; R 0x1946 0x194f 1; R 0x19d0 0x19d9 1; R 0x1a80 0x1a89 1;
   R 0x1a90 0x1a99 1; R 0x1b50 0x1b59 1; R 0x1bb0 0x1bb9 1; R 0x1c40 0x1c49 1;
   R 0x1c50 0x1c59 1; R 0xa620 0xa629 1; R 0xa8d0 0xa8d9 1; R 0xa900 0xa909 1;
   R 0xa9d0 0xa9d9 1; R 0xa9f0 0xa9f9 1; R 0xaa50 0xaa59 1; R 0xabf0 0xabf9 1;
   R 0xff10 0xff19 1].

Definition _Nd_R32 : list Range :=
  [R 0x104a0 0x104a9 1; R 0x10d30 0x10d39 1; R 0x11066 0x1106f 1; R 0x110f0 0x110f9 1;
   R 0x11136 0x1113f 1; R 0x111d0 0x111d9 1; R 0x112f0 0x112f9 1; R 0x11450 0x11459 1;
   R 0x114d0 0x114d9 1; R 0x11650 0x11659 1; R 0x116c0 0x116c9 1; R 0x11730 0x11739 1;
   R 0x118e0 0x118e9 1; R 0x11950 0x11959 1; R 0x11c50 0x11c59 1; R 0x11d50 0x11d59 1;
   R 0x11da0 0x11da9 1; R 0x11f50 0x11f59 1; R 0x16a60 0x16a69 1; R 0x16ac0 0x16ac9 1;
   R 0x16b50 0x16b59 1; R 0x1d7ce 0x1d7ff 1; R 0x1e140 0x1e149 1; R 0x1e2f0 0x1e2f9 1;
   R 0x1e4f0 0x1e4f9 1; R 0x1e950 0x1e959 1; R 0x1fbf0 0x1fbf9 1].

Definition _Nd : RangeTable := MkRangeTable _Nd_R16 _Nd_R32 1.

Definition Letter : RangeTable := _L.
Definition Digit : RangeTable := _Nd.

Definition _White_Space : RangeTable := MkRangeTable
  [R 0x0009 0x000d 1; R 0x0020 0x0085 101; R 0x00a0 0x1680 5600; R 0x2000 0x200a 1; R 0x2028 0x2029 1;
   R 0x202f 0x205f 48; R 0x3000 0x3000 1] [] 2.

(** The exported table of the property White_Space. *)
Definition White_Space : RangeTable := _White_Space.

Definition properties : list Z :=
  [pC; pC; pC; pC; pC; pC; pC; pC;
   pC; pC; pC; pC; pC; pC; pC; pC;
   pC; pC; pC; pC; pC; pC; pC; pC;
   pC; pC; pC; pC; pC; pC; pC; pC;
   Z.lor pZ pp; Z.lor pP pp; Z.lor pP pp; Z.lor pP pp; Z.lor pS pp; Z.lor pP pp; Z.lor pP pp; Z.lor pP pp;
   Z.lor pP pp; Z.lor pP pp; Z.lor pP pp; Z.lor pS pp; Z.lor pP pp; Z.lor pP pp; Z.lor pP pp; Z.lor pP pp;
   Z.lor pN pp; Z.lor pN pp; Z.lor pN pp; Z.lor pN pp; Z.lor pN pp; Z.lor pN pp; Z.lor pN pp; Z.lor pN pp;
   Z.lor pN pp; Z.lor pN pp; Z.lor pP pp; Z.lor pP pp; Z.lor pS pp; Z.lor pS pp; Z.lor pS pp; Z.lor pP pp;
   Z.lor pP pp; Z.lor pLu pp; Z.lor pLu pp; Z.lor pLu pp; Z.lor pLu pp; Z.lor pLu pp; Z.lor pLu pp; Z.lor pLu pp;
   Z.lor pLu pp; Z.lor pLu pp; Z.lor pLu pp; Z.lor pLu pp; Z.lor pLu pp; Z.lor pLu pp; Z.lor pLu pp; Z.lor pLu pp;
   Z.lor pLu pp; Z.lor pLu pp; Z.lor pLu pp; Z.lor pLu pp; Z.lor pLu pp; Z.lor pLu pp; Z.lor pLu pp; Z.lor pLu pp;
   Z.lor pLu pp; Z.lor pLu pp; Z.lor pLu pp; Z.lor pP pp; Z.lor pP pp; Z.lor pP pp; Z.lor pS pp; Z.lor pP pp;
   Z.lor pS pp; Z.lor pLl pp; Z.lor pLl pp; Z.lor pLl pp; Z.lor pLl pp; Z.lor pLl pp; Z.lor pLl pp; Z.lor pLl pp;
   Z.lor pLl pp; Z.lor pLl pp; Z.lor pLl pp; Z.lor pLl pp; Z.lor pLl pp; Z.lor pLl pp; Z.lor pLl pp; Z.lor pLl pp;
   Z.lor pLl pp; Z.lor pLl pp; Z.lor pLl pp; Z.lor pLl pp; Z.lor pLl pp; Z.lor pLl pp; Z.lor pLl pp; Z.lor pLl pp;
   Z.lor pLl pp; Z.lor pLl pp; Z.lor pLl pp; Z.lor pP pp; Z.lor pS pp; Z.lor pP pp; Z.lor pS pp; pC;
   pC; pC; pC; pC; pC; pC; pC; pC;
   pC; pC; pC; pC; pC; pC; pC; pC;
   pC; pC; pC; pC; pC; pC; pC; pC;
   pC; pC; pC; pC; pC; pC; pC; pC;
   pZ; Z.lor pP pp; Z.lor pS pp; Z.lor pS pp; Z.lor pS pp; Z.lor pS pp; Z.lor pS pp; Z.lor pP pp;
   Z.lor pS pp; Z.lor pS pp; Z.lor pLo pp; Z.lor pP pp; Z.lor pS pp; 0; Z.lor pS pp; Z.lor pS pp;
   Z.lor pS pp; Z.lor pS pp; Z.lor pN pp; Z.lor pN pp; Z.lor pS pp; Z.lor pLl pp; Z.lor pP pp; Z.lor pP pp;
   Z.lor pS pp; Z.lor pN pp; Z.lor pLo pp; Z.lor pP pp; Z.lor pN pp; Z.lor pN pp; Z.lor pN pp; Z.lor pP pp;
   Z.lor pLu pp; Z.lor pLu pp; Z.lor pLu pp; Z.lor pLu pp; Z.lor pLu pp; Z.lor pLu pp; Z.lor pLu pp; Z.lor pLu pp;
   Z.lor pLu pp; Z.lor pLu pp; Z.lor pLu pp; Z.lor pLu pp; Z.lor pLu pp; Z.lor pLu pp; Z.lor pLu pp; Z.lor pLu pp;
   Z.lor pLu pp; Z.lor pLu pp; Z.lor pLu pp; Z.lor pLu pp; Z.lor pLu pp; Z.lor pLu pp; Z.lor pLu pp; Z.lor pS pp;
   Z.lor pLu pp; Z.lor pLu pp; Z.lor pLu pp; Z.lor pLu pp; Z.lor pLu pp; Z.lor pLu pp; Z.lor pLu pp; Z.lor pLl pp;
   Z.lor pLl pp; Z.lor pLl pp; Z.lor pLl pp; Z.lor pLl pp; Z.lor pLl pp; Z.lor pLl pp; Z.lor pLl pp; Z.lor pLl pp;
   Z.lor pLl pp; Z.lor pLl pp; Z.lor pLl pp; Z.lor pLl pp; Z.lor pLl pp; Z.lor pLl pp; Z.lor pLl pp; Z.lor pLl pp;
   Z.lor pLl pp; Z.lor pLl pp; Z.lor pLl pp; Z.lor pLl pp; Z.lor pLl pp; Z.lor pLl pp; Z.lor pLl pp; Z.lor pS pp;
   Z.lor pLl pp; Z.lor pLl pp; Z.lor pLl pp; Z.lor pLl pp; Z.lor pLl pp; Z.lor pLl pp; Z.lor pLl pp; Z.lor pLl pp].

Definition isPrint16 : list Z :=
  [0x0020; 0x007e; 0x00a1; 0x0377; 0x037a; 0x037f; 0x0384; 0x0556; 0x0559; 0x058a;
   0x058d; 0x05c7; 0x05d0; 0x05ea; 0x05ef; 0x05f4; 0x0606; 0x070d; 0x0710; 0x074a;
   0x074d; 0x07b1; 0x07c0; 0x07fa; 0x07fd; 0x082d; 0x0830; 0x085b; 0x085e; 0x086a;
   0x0870; 0x088e; 0x0898; 0x098c; 0x098f; 0x0990; 0x0993; 0x09b2; 0x09b6; 0x09b9;
   0x09bc; 0x09c4; 0x09c7; 0x09c8; 0x09cb; 0x09ce; 0x09d7; 0x09d7; 0x09dc; 0x09e3;
   0x09e6; 0x09fe; 0x0a01; 0x0a0a; 0x0a0f; 0x0a10; 0x0a13; 0x0a39; 0x0a3c; 0x0a42;
   0x0a47; 0x0a48; 0x0a4b; 0x0a4d; 0x0a51; 0x0a51; 0x0a59; 0x0a5e; 0x0a66; 0x0a76;
   0x0a81; 0x0ab9; 0x0abc; 0x0acd; 0x0ad0; 0x0ad0; 0x0ae0; 0x0ae3; 0x0ae6; 0x0af1;
   0x0af9; 0x0b0c; 0x0b0f; 0x0b10; 0x0b13; 0x0b39; 0x0b3c; 0x0b44; 0x0b47; 0x0b48;
   0x0b4b; 0x0b4d; 0x0b55; 0x0b57; 0x0b5c; 0x0b63; 0x0b66; 0x0b77; 0x0b82; 0x0b8a;
   0x0b8e; 0x0b95; 0x0b99; 0x0b9f; 0x0ba3; 0x0ba4; 0x0ba8; 0x0baa; 0x0bae; 0x0bb9;
   0x0bbe; 0x0bc2; 0x0bc6; 0x0bcd; 0x0bd0; 0x0bd0; 0x0bd7; 0x0bd7; 0x0be6; 0x0bfa;
   0x0c00; 0x0c39; 0x0c3c; 0x0c4d; 0x0c55; 0x0c5a; 0x0c5d; 0x0c5d; 0x0c60; 0x0c63;
   0x0c66; 0x0c6f; 0x0c77; 0x0cb9; 0x0cbc; 0x0ccd; 0x0cd5; 0x0cd6; 0x0cdd; 0x0ce3;
   0x0ce6; 0x0cf3; 0x0d00; 0x0d4f; 0x0d54; 0x0d63; 0x0d66; 0x0d96; 0x0d9a; 0x0dbd;
   0x0dc0; 0x0dc6; 0x0dca; 0x0dca; 0x0dcf; 0x0ddf; 0x0de6; 0x0def; 0x0df2; 0x0df4;
   0x0e01; 0x0e3a; 0x0e3f; 0x0e5b; 0x0e81; 0x0ebd; 0x0ec0; 0x0ed9; 0x0edc; 0x0edf;
   0x0f00; 0x0f6c; 0x0f71; 0x0fda; 0x1000; 0x10c7; 0x10cd; 0x10cd; 0x10d0; 0x124d;
   0x1250; 0x125d; 0x1260; 0x128d; 0x1290; 0x12b5; 0x12b8; 0x12c5; 0x12c8; 0x1315;
   0x1318; 0x135a; 0x135d; 0x137c; 0x1380; 0x1399; 0x13a0; 0x13f5; 0x13f8; 0x13fd;
   0x1400; 0x169c; 0x16a0; 0x16f8; 0x1700; 0x1715; 0x171f; 0x1736; 0x1740; 0x1753;
   0x1760; 0x1773; 0x1780; 0x17dd; 0x17e0; 0x17e9; 0x17f0; 0x17f9; 0x1800; 0x1819;
   0x1820; 0x1878; 0x1880; 0x18aa; 0x18b0; 0x18f5; 0x1900; 0x192b; 0x1930; 0x193b;
   0x1940; 0x1940; 0x1944; 0x196d; 0x1970; 0x1974; 0x1980; 0x19ab; 0x19b0; 0x19c9;
   0x19d0; 0x19da; 0x19de; 0x1a1b; 0x1a1e; 0x1a7c; 0x1a7f; 0x1a89; 0x1a90; 0x1a99;
   0x1aa0; 0x1aad; 0x1ab0; 0x1ace; 0x1b00; 0x1b4c; 0x1b50; 0x1bf3; 0x1bfc; 0x1c37;
   0x1c3b; 0x1c49; 0x1c4d; 0x1c88; 0x1c90; 0x1cba; 0x1cbd; 0x1cc7; 0x1cd0; 0x1cfa;
   0x1d00; 0x1f15; 0x1f18; 0x1f1d; 0x1f20; 0x1f45; 0x1f48; 0x1f4d; 0x1f50; 0x1f7d;
   0x1f80; 0x1fd3; 0x1fd6; 0x1fef; 0x1ff2; 0x1ffe; 0x2010; 0x2027; 0x2030; 0x205e;
   0x2070; 0x2071; 0x2074; 0x209c; 0x20a0; 0x20c0; 0x20d0; 0x20f0; 0x2100; 0x218b;
   0x2190; 0x2426; 0x2440; 0x244a; 0x2460; 0x2b73; 0x2b76; 0x2cf3; 0x2cf9; 0x2d27;
   0x2d2d; 0x2d2d; 0x2d30; 0x2d67; 0x2d6f; 0x2d70; 0x2d7f; 0x2d96; 0x2da0; 0x2e5d;
   0x2e80; 0x2ef3; 0x2f00; 0x2fd5; 0x2ff0; 0x2ffb; 0x3001; 0x3096; 0x3099; 0x30ff;
   0x3105; 0x31e3; 0x31f0; 0xa48c; 0xa490; 0xa4c6; 0xa4d0; 0xa62b; 0xa640; 0xa6f7;
   0xa700; 0xa7ca; 0xa7d0; 0xa7d9; 0xa7f2; 0xa82c; 0xa830; 0xa839; 0xa840; 0xa877;
   0xa880; 0xa8c5; 0xa8ce; 0xa8d9; 0xa8e0; 0xa953; 0xa95f; 0xa97c; 0xa980; 0xa9d9;
   0xa9de; 0xaa36; 0xaa40; 0xaa4d; 0xaa50; 0xaa59; 0xaa5c; 0xaac2; 0xaadb; 0xaaf6;
   0xab01; 0xab06; 0xab09; 0xab0e; 0xab11; 0xab16; 0xab20; 0xab6b; 0xab70; 0xabed;
   0xabf0; 0xabf9; 0xac00; 0xd7a3; 0xd7b0; 0xd7c6; 0xd7cb; 0xd7fb; 0xf900; 0xfa6d;
   0xfa70; 0xfad9; 0xfb00; 0xfb06; 0xfb13; 0xfb17; 0xfb1d; 0xfbc2; 0xfbd3; 0xfd8f;
   0xfd92; 0xfdc7; 0xfdcf; 0xfdcf; 0xfdf0; 0xfe19; 0xfe20; 0xfe6b; 0xfe70; 0xfefc;
   0xff01; 0xffbe; 0xffc2; 0xffc7; 0xffca; 0xffcf; 0xffd2; 0xffd7; 0xffda; 0xffdc;
   0xffe0; 0xffee; 0xfffc; 0xfffd].

Definition isNotPrint16 : list Z :=
  [0x00ad; 0x038b; 0x038d; 0x03a2; 0x0530; 0x0590; 0x061c; 0x06dd; 0x083f; 0x085f;
   0x08e2; 0x0984; 0x09a9; 0x09b1; 0x09de; 0x0a04; 0x0a29; 0x0a31; 0x0a34; 0x0a37;
   0x0a3d; 0x0a5d; 0x0a84; 0x0a8e; 0x0a92; 0x0aa9; 0x0ab1; 0x0ab4; 0x0ac6; 0x0aca;
   0x0b00; 0x0b04; 0x0b29; 0x0b31; 0x0b34; 0x0b5e; 0x0b84; 0x0b91; 0x0b9b; 0x0b9d;
   0x0bc9; 0x0c0d; 0x0c11; 0x0c29; 0x0c45; 0x0c49; 0x0c57; 0x0c8d; 0x0c91; 0x0ca9;
   0x0cb4; 0x0cc5; 0x0cc9; 0x0cdf; 0x0cf0; 0x0d0d; 0x0d11; 0x0d45; 0x0d49; 0x0d80;
   0x0d84; 0x0db2; 0x0dbc; 0x0dd5; 0x0dd7; 0x0e83; 0x0e85; 0x0e8b; 0x0ea4; 0x0ea6;
   0x0ec5; 0x0ec7; 0x0ecf; 0x0f48; 0x0f98; 0x0fbd; 0x0fcd; 0x10c6; 0x1249; 0x1257;
   0x1259; 0x1289; 0x12b1; 0x12bf; 0x12c1; 0x12d7; 0x1311; 0x1680; 0x176d; 0x1771;
   0x180e; 0x191f; 0x1a5f; 0x1b7f; 0x1f58; 0x1f5a; 0x1f5c; 0x1f5e; 0x1fb5; 0x1fc5;
   0x1fdc; 0x1ff5; 0x208f; 0x2b96; 0x2d26; 0x2da7; 0x2daf; 0x2db7; 0x2dbf; 0x2dc7;
   0x2dcf; 0x2dd7; 0x2ddf; 0x2e9a; 0x3040; 0x3130; 0x318f; 0x321f; 0xa7d2; 0xa7d4;
   0xa9ce; 0xa9ff; 0xab27; 0xab2f; 0xfb37; 0xfb3d; 0xfb3f; 0xfb42; 0xfb45; 0xfe53;
   0xfe67; 0xfe75; 0xffe7].

Definition isPrint32 : list Z :=
  [0x010000; 0x01004d; 0x010050; 0x01005d; 0x010080; 0x0100fa; 0x010100; 0x010102; 0x010107; 0x010133;
   0x010137; 0x01019c; 0x0101a0; 0x0101a0; 0x0101d0; 0x0101fd; 0x010280; 0x01029c; 0x0102a0; 0x0102d0;
   0x0102e0; 0x0102fb; 0x010300; 0x010323; 0x01032d; 0x01034a; 0x010350; 0x01037a; 0x010380; 0x0103c3;
   0x0103c8; 0x0103d5; 0x010400; 0x01049d; 0x0104a0; 0x0104a9; 0x0104b0; 0x0104d3; 0x0104d8; 0x0104fb;
   0x010500; 0x010527; 0x010530; 0x010563; 0x01056f; 0x0105bc; 0x010600; 0x010736; 0x010740; 0x010755;
   0x010760; 0x010767; 0x010780; 0x0107ba; 0x010800; 0x010805; 0x010808; 0x010838; 0x01083c; 0x01083c;
   0x01083f; 0x01089e; 0x0108a7; 0x0108af; 0x0108e0; 0x0108f5; 0x0108fb; 0x01091b; 0x01091f; 0x010939;
   0x01093f; 0x01093f; 0x010980; 0x0109b7; 0x0109bc; 0x0109cf; 0x0109d2; 0x010a06; 0x010a0c; 0x010a35;
   0x010a38; 0x010a3a; 0x010a3f; 0x010a48; 0x010a50; 0x010a58; 0x010a60; 0x010a9f; 0x010ac0; 0x010ae6;
   0x010aeb; 0x010af6; 0x010b00; 0x010b35; 0x010b39; 0x010b55; 0x010b58; 0x010b72; 0x010b78; 0x010b91;
   0x010b99; 0x010b9c; 0x010ba9; 0x010baf; 0x010c00; 0x010c48; 0x010c80; 0x010cb2; 0x010cc0; 0x010cf2;
   0x010cfa; 0x010d27; 0x010d30; 0x010d39; 0x010e60; 0x010ead; 0x010eb0; 0x010eb1; 0x010efd; 0x010f27;
   0x010f30; 0x010f59; 0x010f70; 0x010f89; 0x010fb0; 0x010fcb; 0x010fe0; 0x010ff6; 0x011000; 0x01104d;
   0x011052; 0x011075; 0x01107f; 0x0110c2; 0x0110d0; 0x0110e8; 0x0110f0; 0x0110f9; 0x011100; 0x011147;
   0x011150; 0x011176; 0x011180; 0x0111f4; 0x011200; 0x011241; 0x011280; 0x0112a9; 0x0112b0; 0x0112ea;
   0x0112f0; 0x0112f9; 0x011300; 0x01130c; 0x01130f; 0x011310; 0x011313; 0x011344; 0x011347; 0x011348;
   0x01134b; 0x01134d; 0x011350; 0x011350; 0x011357; 0x011357; 0x01135d; 0x011363; 0x011366; 0x01136c;
   0x011370; 0x011374; 0x011400; 0x011461; 0x011480; 0x0114c7; 0x0114d0; 0x0114d9; 0x011580; 0x0115b5;
   0x0115b8; 0x0115dd; 0x011600; 0x011644; 0x011650; 0x011659; 0x011660; 0x01166c; 0x011680; 0x0116b9;
   0x0116c0; 0x0116c9; 0x011700; 0x01171a; 0x01171d; 0x01172b; 0x011730; 0x011746; 0x011800; 0x01183b;
   0x0118a0; 0x0118f2; 0x0118ff; 0x011906; 0x011909; 0x011909; 0x01190c; 0x011938; 0x01193b; 0x011946;
   0x011950; 0x011959; 0x0119a0; 0x0119a7; 0x0119aa; 0x0119d7; 0x0119da; 0x0119e4; 0x011a00; 0x011a47;
   0x011a50; 0x011aa2; 0x011ab0; 0x011af8; 0x011b00; 0x011b09; 0x011c00; 0x011c45; 0x011c50; 0x011c6c;
   0x011c70; 0x011c8f; 0x011c92; 0x011cb6; 0x011d00; 0x011d36; 0x011d3a; 0x011d47; 0x011d50; 0x011d59;
   0x011d60; 0x011d98; 0x011da0; 0x011da9; 0x011ee0; 0x011ef8; 0x011f00; 0x011f3a; 0x011f3e; 0x011f59;
   0x011fb0; 0x011fb0; 0x011fc0; 0x011ff1; 0x011fff; 0x012399; 0x012400; 0x012474; 0x012480; 0x012543;
   0x012f90; 0x012ff2; 0x013000; 0x01342f; 0x013440; 0x013455; 0x014400; 0x014646; 0x016800; 0x016a38;
   0x016a40; 0x016a69; 0x016a6e; 0x016ac9; 0x016ad0; 0x016aed; 0x016af0; 0x016af5; 0x016b00; 0x016b45;
   0x016b50; 0x016b77; 0x016b7d; 0x016b8f; 0x016e40; 0x016e9a; 0x016f00; 0x016f4a; 0x016f4f; 0x016f87;
   0x016f8f; 0x016f9f; 0x016fe0; 0x016fe4; 0x016ff0; 0x016ff1; 0x017000; 0x0187f7; 0x018800; 0x018cd5;
   0x018d00; 0x018d08; 0x01aff0; 0x01b122; 0x01b132; 0x01b132; 0x01b150; 0x01b152; 0x01b155; 0x01b155;
   0x01b164; 0x01b167; 0x01b170; 0x01b2fb; 0x01bc00; 0x01bc6a; 0x01bc70; 0x01bc7c; 0x01bc80; 0x01bc88;
   0x01bc90; 0x01bc99; 0x01bc9c; 0x01bc9f; 0x01cf00; 0x01cf2d; 0x01cf30; 0x01cf46; 0x01cf50; 0x01cfc3;
   0x01d000; 0x01d0f5; 0x01d100; 0x01d126; 0x01d129; 0x01d172; 0x01d17b; 0x01d1ea; 0x01d200; 0x01d245;
   0x01d2c0; 0x01d2d3; 0x01d2e0; 0x01d2f3; 0x01d300; 0x01d356; 0x01d360; 0x01d378; 0x01d400; 0x01d49f;
   0x01d4a2; 0x01d4a2; 0x01d4a5; 0x01d4a6; 0x01d4a9; 0x01d50a; 0x01d50d; 0x01d546; 0x01d54a; 0x01d6a5;
   0x01d6a8; 0x01d7cb; 0x01d7ce; 0x01da8b; 0x01da9b; 0x01daaf; 0x01df00; 0x01df1e; 0x01df25; 0x01df2a;
   0x01e000; 0x01e018; 0x01e01b; 0x01e02a; 0x01e030; 0x01e06d; 0x01e08f; 0x01e08f; 0x01e100; 0x01e12c;
   0x01e130; 0x01e13d; 0x01e140; 0x01e149; 0x01e14e; 0x01e14f; 0x01e290; 0x01e2ae; 0x01e2c0; 0x01e2f9;
   0x01e2ff; 0x01e2ff; 0x01e4d0; 0x01e4f9; 0x01e7e0; 0x01e8c4; 0x01e8c7; 0x01e8d6; 0x01e900; 0x01e94b;
   0x01e950; 0x01e959; 0x01e95e; 0x01e95f; 0x01ec71; 0x01ecb4; 0x01ed01; 0x01ed3d; 0x01ee00; 0x01ee24;
   0x01ee27; 0x01ee3b; 0x01ee42; 0x01ee42; 0x01ee47; 0x01ee54; 0x01ee57; 0x01ee64; 0x01ee67; 0x01ee9b;
   0x01eea1; 0x01eebb; 0x01eef0; 0x01eef1; 0x01f000; 0x01f02b; 0x01f030; 0x01f093; 0x01f0a0; 0x01f0ae;
   0x01f0b1; 0x01f0f5; 0x01f100; 0x01f1ad; 0x01f1e6; 0x01f202; 0x01f210; 0x01f23b; 0x01f240; 0x01f248;
   0x01f250; 0x01f251; 0x01f260; 0x01f265; 0x01f300; 0x01f6d7; 0x01f6dc; 0x01f6ec; 0x01f6f0; 0x01f6fc;
   0x01f700; 0x01f776; 0x01f77b; 0x01f7d9; 0x01f7e0; 0x01f7eb; 0x01f7f0; 0x01f7f0; 0x01f800; 0x01f80b;
   0x01f810; 0x01f847; 0x01f850; 0x01f859; 0x01f860; 0x01f887; 0x01f890; 0x01f8ad; 0x01f8b0; 0x01f8b1;
   0x01f900; 0x01fa53; 0x01fa60; 0x01fa6d; 0x01fa70; 0x01fa7c; 0x01fa80; 0x01fa88; 0x01fa90; 0x01fac5;
   0x01face; 0x01fadb; 0x01fae0; 0x01fae8; 0x01faf0; 0x01faf8; 0x01fb00; 0x01fbca; 0x01fbf0; 0x01fbf9;
   0x020000; 0x02a6df; 0x02a700; 0x02b739; 0x02b740; 0x02b81d; 0x02b820; 0x02cea1; 0x02ceb0; 0x02ebe0;
   0x02f800; 0x02fa1d; 0x030000; 0x03134a; 0x031350; 0x0323af; 0x0e0100; 0x0e01ef].

Definition isNotPrint32 : list Z :=
  [0x000c; 0x0027; 0x003b; 0x003e; 0x018f; 0x039e; 0x057b; 0x058b; 0x0593; 0x0596;
   0x05a2; 0x05b2; 0x05ba; 0x0786; 0x07b1; 0x0809; 0x0836; 0x0856; 0x08f3; 0x0a04;
   0x0a14; 0x0a18; 0x0e7f; 0x0eaa; 0x10bd; 0x1135; 0x11e0; 0x1212; 0x1287; 0x1289;
   0x128e; 0x129e; 0x1304; 0x1329; 0x1331; 0x1334; 0x133a; 0x145c; 0x1914; 0x1917;
   0x1936; 0x1c09; 0x1c37; 0x1ca8; 0x1d07; 0x1d0a; 0x1d3b; 0x1d3e; 0x1d66; 0x1d69;
   0x1d8f; 0x1d92; 0x1f11; 0x246f; 0x6a5f; 0x6abf; 0x6b5a; 0x6b62; 0xaff4; 0xaffc;
   0xafff; 0xd455; 0xd49d; 0xd4ad; 0xd4ba; 0xd4bc; 0xd4c4; 0xd506; 0xd515; 0xd51d;
   0xd53a; 0xd53f; 0xd545; 0xd551; 0xdaa0; 0xe007; 0xe022; 0xe025; 0xe7e7; 0xe7ec;
   0xe7ef; 0xe7ff; 0xee04; 0xee20; 0xee23; 0xee28; 0xee33; 0xee38; 0xee3a; 0xee48;
   0xee4a; 0xee4c; 0xee50; 0xee53; 0xee58; 0xee5a; 0xee5c; 0xee5e; 0xee60; 0xee63;
   0xee6b; 0xee73; 0xee78; 0xee7d; 0xee7f; 0xee8a; 0xeea4; 0xeeaa; 0xf0c0; 0xf0d0;
   0xfabe; 0xfb93].
