(* ===== verification/Unicode.v ===== *)
(** * src/src/unicode: letters and digits

    [letter.go], [graphic.go] and [digit.go]: table lookup by linear and binary
    search, and the predicates [IsLetter] and [IsDigit] the scanner uses to
    recognise identifiers.  The main results: on a sorted table both searches
    are membership in one of its ranges, and the predicates with their Latin-1
    shortcuts are membership in the whole category table. *)

From S2P Require Import Prelude UnicodeTables.

Definition MaxLatin1 : rune := 0xFF.
Definition linearMax : Z := 18.

Definition stride_ok (range_ : Range) (r : Z) : bool :=
  (Stride range_ =? 1) || ((r - Lo range_) mod Stride range_ =? 0).

(** The linear loop of [is16] and [is32]. *)
Fixpoint is_linear (ranges : list Range) (r : Z) : bool :=
  match ranges with
  | [] => false
  | range_ :: rest =>
      if r <? Lo range_ then false
      else if r <=? Hi range_ then stride_ok range_ r
      else is_linear rest r
  end.

Definition no_range : Range := R 0 0 0.

(** The binary search loop; the fuel bounds [hi - lo]. *)
Fixpoint is_binary (fuel : nat) (ranges : list Range) (r lo hi : Z) : bool :=
  match fuel with
  | O => false
  | S n =>
      if lo <? hi then
        let m := Z.shiftr (u64 (lo + hi)) 1 in
        let range_ := nthZ no_range ranges m in
        if (Lo range_ <=? r) && (r <=? Hi range_) then stride_ok range_ r
        else if r <? Lo range_ then is_binary n ranges r lo m
        else is_binary n ranges r (m + 1) hi
      else false
  end.

Definition is16 (ranges : list Range) (r : Z) : bool :=
  if (lenZ ranges <=? linearMax) || (r <=? MaxLatin1) then is_linear ranges r
  else is_binary (S (length ranges)) ranges r 0 (lenZ ranges).

Definition is32 (ranges : list Range) (r : Z) : bool :=
  if lenZ ranges <=? linearMax then is_linear ranges r
  else is_binary (S (length ranges)) ranges r 0 (lenZ ranges).

Definition last_hi (ranges : list Range) : Z :=
  Hi (nthZ no_range ranges (lenZ ranges - 1)).
Definition first_lo (ranges : list Range) : Z := Lo (nthZ no_range ranges 0).

Definition Is (rangeTab : RangeTable) (r : rune) : bool :=
  let r16 := R16 rangeTab in
  if (0 <? lenZ r16) && (u32 r <=? last_hi r16) then is16 r16 (u16 r) else
  let r32 := R32 rangeTab in
  if (0 <? lenZ r32) && (first_lo r32 <=? r) then is32 r32 (u32 r) else false.

Definition isExcludingLatin (rangeTab : RangeTable) (r : rune) : bool :=
  let r16 := R16 rangeTab in
  let off := LatinOffset rangeTab in
  if (off <? lenZ r16) && (u32 r <=? last_hi r16) then is16 (drop (Z.to_nat off) r16) (u16 r) else
  let r32 := R32 rangeTab in
  if (0 <? lenZ r32) && (first_lo r32 <=? r) then is32 r32 (u32 r) else false.

Definition IsLetter (r : rune) : bool :=
  if u32 r <=? MaxLatin1 then negb (Z.land (nthZ 0 properties (u8 r)) pLmask =? 0)
  else isExcludingLatin Letter r.

Definition IsDigit (r : rune) : bool :=
  if r <=? MaxLatin1 then (48 <=? r) && (r <=? 57)
  else isExcludingLatin Digit r.

Definition IsSpace (r : rune) : bool :=
  if u32 r <=? MaxLatin1 then existsb (Z.eqb r) [9; 10; 11; 12; 13; 32; 0x85; 0xA0]
  else isExcludingLatin White_Space r.

Example letter_oslash : IsLetter 0xF8 = true. Proof. reflexivity. Qed.
Example letter_neq : IsLetter 0x2260 = false. Proof. reflexivity. Qed.
Example letter_han : IsLetter 0x4E16 = true. Proof. vm_compute. reflexivity. Qed.
Example digit_arabic : IsDigit 0x0663 = true. Proof. vm_compute. reflexivity. Qed.

(** ** Specification: membership in a range *)

Definition in_range (r : Z) (x : Range) : bool :=
  (Lo x <=? r) && (r <=? Hi x) && stride_ok x r.

Definition in_ranges (ranges : list Range) (r : Z) : bool := existsb (in_range r) ranges.

Definition in_table (t : RangeTable) (r : Z) : bool :=
  in_ranges (R16 t) r || in_ranges (R32 t) r.

(** Ranges in increasing order, each starting after the previous one. *)
Fixpoint sorted_from (bound : Z) (ranges : list Range) : bool :=
  match ranges with
  | [] => true
  | x :: rest => (bound <? Lo x) && (Lo x <=? Hi x) && sorted_from (Hi x) rest
  end.

Lemma in_ranges_cons x rest r : in_ranges (x :: rest) r = in_range r x || in_ranges rest r.
Proof. reflexivity. Qed.

Lemma in_range_low r x : r < Lo x -> in_range r x = false.
Proof. intros. unfold in_range. by decide_tests. Qed.

Lemma in_range_high r x : Hi x < r -> in_range r x = false.
Proof. intros. unfold in_range. decide_tests. by rewrite andb_false_r. Qed.

Lemma in_ranges_low bound ranges r :
  sorted_from bound ranges = true -> r <= bound -> in_ranges ranges r = false.
Proof.
  revert bound. induction ranges as [|x rest IH]; intros bound Hs Hr; [done|].
  cbn [sorted_from] in Hs. b2p. rewrite in_ranges_cons, in_range_low by lia.
  by apply (IH (Hi x)); [|lia].
Qed.

Lemma is_linear_spec bound ranges r :
  sorted_from bound ranges = true -> is_linear ranges r = in_ranges ranges r.
Proof.
  revert bound. induction ranges as [|x rest IH]; intros bound Hs; [done|].
  cbn [sorted_from] in Hs. b2p. cbn [is_linear]. rewrite in_ranges_cons.
  destruct (r <? Lo x) eqn:E1; b2p.
  { rewrite in_range_low, (in_ranges_low (Hi x)) by (done || lia). done. }
  destruct (r <=? Hi x) eqn:E2; b2p.
  - rewrite (in_ranges_low (Hi x) rest) by (done || lia). unfold in_range. decide_tests.
    by rewrite orb_false_r.
  - rewrite in_range_high by lia. by apply (IH (Hi x)).
Qed.

Lemma in_ranges_nth ranges r :
  in_ranges ranges r = true <->
  exists i, 0 <= i < lenZ ranges /\ in_range r (nthZ no_range ranges i) = true.
Proof.
  unfold in_ranges. rewrite existsb_exists. split.
  - intros (x & Hin & Hx). apply (In_nth _ _ no_range) in Hin as (n & Hn & <-).
    exists (Z.of_nat n). split; [unfold lenZ; lia|]. unfold nthZ.
    destruct (Z.ltb_spec (Z.of_nat n) 0); [lia|]. by rewrite Nat2Z.id.
  - intros (i & Hi & Hx). exists (nthZ no_range ranges i). split; [|done].
    unfold nthZ, lenZ in *. destruct (Z.ltb_spec i 0); [lia|]. apply nth_In. lia.
Qed.

Lemma nthZ_cons {A} (d x : A) l i : 0 < i -> nthZ d (x :: l) i = nthZ d l (i - 1).
Proof.
  intros Hi. unfold nthZ. destruct (Z.ltb_spec i 0); [lia|].
  destruct (Z.ltb_spec (i - 1) 0); [lia|].
  replace (Z.to_nat i) with (S (Z.to_nat (i - 1))) by lia. done.
Qed.

Lemma nthZ_hd {A} (d x : A) l : nthZ d (x :: l) 0 = x.
Proof. reflexivity. Qed.

Lemma sorted_nth bound ranges i :
  sorted_from bound ranges = true -> 0 <= i < lenZ ranges ->
  bound < Lo (nthZ no_range ranges i) <= Hi (nthZ no_range ranges i) /\
  forall j, i < j < lenZ ranges -> Hi (nthZ no_range ranges i) < Lo (nthZ no_range ranges j).
Proof.
  revert bound i. induction ranges as [|x rest IH]; intros bound i Hs Hi.
  { change (lenZ (@nil Range)) with 0 in Hi. lia. }
  cbn [sorted_from] in Hs. b2p. rewrite lenZ_cons in *.
  destruct (Z.eq_dec i 0) as [->|Hne].
  - rewrite nthZ_hd. split; [lia|]. intros j Hj. rewrite nthZ_cons by lia.
    destruct (IH (UnicodeTables.Hi x) (j - 1)) as [? _]; [done|lia|lia].
  - rewrite nthZ_cons by lia. destruct (IH (UnicodeTables.Hi x) (i - 1)) as [H1' H2']; [done|lia|].
    split; [lia|]. intros j Hj. rewrite nthZ_cons by lia. apply H2'. lia.
Qed.

Lemma midpoint lo hi : 0 <= lo -> lo < hi -> hi < 2 ^ 63 ->
  lo <= Z.shiftr (u64 (lo + hi)) 1 < hi.
Proof.
  intros Hlo Hlt Hhi. unfold u64. rewrite Z.mod_small by lia.
  rewrite Z.shiftr_div_pow2 by lia. change (2 ^ 1) with 2.
  Z.to_euclidean_division_equations; lia.
Qed.

(** The loop invariant of the binary search: every range left of [lo] ends
    before [r], every range from [hi] on starts after it. *)
Lemma is_binary_spec bound ranges r fuel lo hi :
  sorted_from bound ranges = true -> lenZ ranges < 2 ^ 63 ->
  0 <= lo -> lo <= hi <= lenZ ranges -> hi - lo < Z.of_nat fuel ->
  (forall i, 0 <= i < lo -> i < lenZ ranges -> Hi (nthZ no_range ranges i) < r) ->
  (forall i, hi <= i < lenZ ranges -> r < Lo (nthZ no_range ranges i)) ->
  is_binary fuel ranges r lo hi = in_ranges ranges r.
Proof.
  intros Hs Hlen. revert lo hi. induction fuel as [|fuel IH]; intros lo hi Hlo Hhi Hf Hleft Hright; [lia|].
  cbn [is_binary]. destruct (lo <? hi) eqn:E; b2p.
  - pose proof (midpoint lo hi Hlo E ltac:(lia)) as Hm.
    set (m := Z.shiftr (u64 (lo + hi)) 1) in *. cbv zeta.
    destruct (sorted_nth bound ranges m Hs ltac:(lia)) as [Hb Hafter].
    set (x := nthZ no_range ranges m) in *.
    destruct ((Lo x <=? r) && (r <=? Hi x)) eqn:Ein; [|destruct (r <? Lo x) eqn:Elt].
    + b2p. apply eq_true_iff_eq. rewrite in_ranges_nth. split.
      * intros Hst. exists m. split; [lia|]. fold x. unfold in_range. decide_tests. done.
      * intros (i & Hi' & Hin). unfold in_range in Hin. b2p.
        destruct (Z.lt_trichotomy i m) as [Hlt|[->|Hgt]]; [|done|].
        -- destruct (sorted_nth bound ranges i Hs ltac:(lia)) as [_ Ha].
           specialize (Ha m ltac:(lia)). fold x in Ha. lia.
        -- specialize (Hafter i ltac:(lia)). lia.
    + apply IH; try lia; b2p; [done|]. intros i Hi'.
      destruct (Z.eq_dec i m) as [->|]; [done|]. specialize (Hafter i ltac:(lia)).
      fold x in Hafter. lia.
    + apply IH; try lia; [|done]. intros i Hi' _.
      destruct (Z.eq_dec i m) as [->|Hne]; [fold x; lia|].
      destruct (sorted_nth bound ranges i Hs ltac:(lia)) as [_ Ha].
      specialize (Ha m ltac:(lia)). fold x in Ha. lia.
  - symmetry. apply not_true_is_false. rewrite in_ranges_nth. intros (i & Hi' & Hin).
    unfold in_range in Hin. b2p. destruct (Z.lt_ge_cases i lo) as [Hlt|Hge].
    + specialize (Hleft i ltac:(lia) ltac:(lia)). lia.
    + specialize (Hright i ltac:(lia)). lia.
Qed.

Lemma binary_is_member bound ranges r :
  sorted_from bound ranges = true -> lenZ ranges < 2 ^ 63 ->
  is_binary (S (length ranges)) ranges r 0 (lenZ ranges) = in_ranges ranges r.
Proof. intros. apply (is_binary_spec bound); unfold lenZ in *; try done; lia. Qed.

(** On a sorted table, [is16] and [is32] are membership, whichever search they use. *)
Theorem is16_spec bound ranges r :
  sorted_from bound ranges = true -> lenZ ranges < 2 ^ 63 -> is16 ranges r = in_ranges ranges r.
Proof.
  intros Hs Hl. unfold is16.
  case_test; [by apply (is_linear_spec bound)|by apply (binary_is_member bound)].
Qed.

Theorem is32_spec bound ranges r :
  sorted_from bound ranges = true -> lenZ ranges < 2 ^ 63 -> is32 ranges r = in_ranges ranges r.
Proof.
  intros Hs Hl. unfold is32.
  case_test; [by apply (is_linear_spec bound)|by apply (binary_is_member bound)].
Qed.

(** ** The category predicates *)

(** What the code relies on in a table: sorted 16-bit ranges, then sorted 32-bit
    ranges, with [LatinOffset] entries that lie in Latin-1. *)
Definition wf_table (t : RangeTable) : bool :=
  sorted_from (-1) (R16 t) && sorted_from (last_hi (R16 t)) (R32 t) &&
  forallb (fun x => Hi x <=? MaxLatin1) (take (Z.to_nat (LatinOffset t)) (R16 t)) &&
  (0 <=? LatinOffset t) && (LatinOffset t <? lenZ (R16 t)) &&
  (last_hi (R16 t) <? 2 ^ 16) && (MaxLatin1 <? last_hi (R16 t)) &&
  (lenZ (R16 t) <? 2 ^ 63) && (lenZ (R32 t) <? 2 ^ 63).

Lemma wf_Letter : wf_table Letter = true. Proof. vm_compute. reflexivity. Qed.
Lemma wf_Digit : wf_table Digit = true. Proof. vm_compute. reflexivity. Qed.

Lemma in_ranges_app l l' r : in_ranges (l ++ l') r = in_ranges l r || in_ranges l' r.
Proof. unfold in_ranges. apply existsb_app. Qed.

Lemma in_ranges_bounded l r :
  forallb (fun x => Hi x <=? MaxLatin1) l = true -> MaxLatin1 < r -> in_ranges l r = false.
Proof.
  intros Hl Hr. induction l as [|x l IH]; [done|]. cbn [forallb] in Hl. b2p.
  rewrite in_ranges_cons, in_range_high by lia. by apply IH.
Qed.

Lemma sorted_drop bound l n : sorted_from bound l = true ->
  exists bound', sorted_from bound' (drop n l) = true.
Proof.
  revert bound n. induction l as [|x l IH]; intros bound [|n] Hs; eauto.
  cbn [sorted_from] in Hs. b2p. cbn [drop]. eauto.
Qed.

Lemma in_ranges_above bound l r :
  sorted_from bound l = true -> l <> [] -> last_hi l < r -> in_ranges l r = false.
Proof.
  intros Hs Hne Hr. apply not_true_is_false. rewrite in_ranges_nth. intros (i & Hi' & Hin).
  unfold in_range in Hin. b2p. unfold last_hi in Hr.
  destruct (Z.eq_dec i (lenZ l - 1)) as [->|Hlt]; [lia|].
  destruct (sorted_nth bound l i Hs Hi') as [_ Ha].
  specialize (Ha (lenZ l - 1) ltac:(lia)).
  destruct (sorted_nth bound l (lenZ l - 1) Hs ltac:(lia)) as [? _]. lia.
Qed.

Lemma sorted_first_lo bound l : sorted_from bound l = true -> l <> [] ->
  sorted_from (first_lo l - 1) l = true.
Proof.
  destruct l as [|x l]; [done|]. cbn [sorted_from]. intros Hs _. b2p.
  change (first_lo (x :: l)) with (Lo x). decide_tests. done.
Qed.

Lemma lenZ_pos_nonnil {A} (l : list A) : 0 < lenZ l -> l <> [].
Proof. destruct l; [unfold lenZ; cbn; lia|done]. Qed.

(** Above Latin-1, the lookup that skips the Latin-1 ranges is membership in
    the table. *)
Lemma isExcludingLatin_spec t r :
  wf_table t = true -> MaxLatin1 < r < 2 ^ 32 -> isExcludingLatin t r = in_table t r.
Proof.
  unfold wf_table, MaxLatin1. intros Hwf Hr. b2p.
  assert (Hne : R16 t <> []) by (apply lenZ_pos_nonnil; lia).
  assert (Hr16 : in_ranges (R16 t) r = in_ranges (drop (Z.to_nat (LatinOffset t)) (R16 t)) r).
  { rewrite <- (take_drop (Z.to_nat (LatinOffset t)) (R16 t)) at 1.
    rewrite in_ranges_app, in_ranges_bounded by (done || (unfold MaxLatin1; lia)). done. }
  unfold isExcludingLatin, in_table. unfold u32. rewrite (Z.mod_small r) by lia.
  destruct (sorted_drop (-1) (R16 t) (Z.to_nat (LatinOffset t))) as [b Hb]; [done|].
  rewrite (proj2 (Z.ltb_lt _ _)) by done. rewrite andb_true_l.
  destruct (r <=? last_hi (R16 t)) eqn:E; b2p.
  - rewrite (in_ranges_low (last_hi (R16 t)) (R32 t)), orb_false_r, Hr16 by done.
    unfold u16. rewrite Z.mod_small by lia. apply (is16_spec b); [done|].
    unfold lenZ in *. rewrite length_drop. lia.
  - rewrite (in_ranges_above (-1) (R16 t)) by done. rewrite orb_false_l.
    destruct (0 <? lenZ (R32 t)) eqn:E0; b2p.
    2: { destruct (R32 t); [done|rewrite lenZ_cons in E0; pose proof (lenZ_nonneg l); lia]. }
    assert (Hne' : R32 t <> []) by (by apply lenZ_pos_nonnil). rewrite andb_true_l.
    destruct (first_lo (R32 t) <=? r) eqn:E'; b2p.
    + by apply (is32_spec (last_hi (R16 t))).
    + symmetry. apply (in_ranges_low (first_lo (R32 t) - 1)); [|lia].
      by apply (sorted_first_lo (last_hi (R16 t))).
Qed.

(** Negative runes are in no table. *)
Lemma isExcludingLatin_neg t r :
  wf_table t = true -> - 2 ^ 31 <= r < 0 -> isExcludingLatin t r = false.
Proof.
  unfold wf_table, isExcludingLatin. intros Hwf Hr. b2p.
  assert (Hu : u32 r = r + 2 ^ 32).
  { unfold u32. symmetry. apply (Z.mod_unique _ _ (-1)); lia. }
  rewrite (proj2 (Z.leb_gt (u32 r) _)) by lia. rewrite andb_false_r.
  destruct (R32 t) as [|x l] eqn:E; [done|]. change (first_lo (x :: l)) with (Lo x).
  assert (Hs : sorted_from (last_hi (R16 t)) (x :: l) = true) by done.
  cbn [sorted_from] in Hs. b2p. unfold MaxLatin1 in *. by decide_tests.
Qed.

Lemma in_table_neg t r : wf_table t = true -> r < 0 -> in_table t r = false.
Proof.
  unfold wf_table, in_table, MaxLatin1. intros Hwf Hr. b2p.
  rewrite (in_ranges_low (-1)), (in_ranges_low (last_hi (R16 t))) by (done || lia). done.
Qed.

(** A table with a shortcut [f] for Latin-1. *)
Lemma latin_split t (f : Z -> bool) r :
  wf_table t = true -> forallb (fun b => eqb (f b) (in_table t b)) all_bytes = true ->
  - 2 ^ 31 <= r < 2 ^ 31 ->
  (if u32 r <=? MaxLatin1 then f r else isExcludingLatin t r) = in_table t r.
Proof.
  intros Hwf Hf Hr. destruct (Z.lt_ge_cases r 0) as [Hn|Hn].
  - assert (Hu : u32 r = r + 2 ^ 32).
    { unfold u32. symmetry. apply (Z.mod_unique _ _ (-1)); lia. }
    rewrite Hu. unfold MaxLatin1. decide_tests.
    by rewrite isExcludingLatin_neg, in_table_neg by (done || lia).
  - unfold u32. rewrite Z.mod_small by lia. unfold MaxLatin1. destruct (r <=? 0xFF) eqn:E; b2p.
    + apply eqb_prop. apply (byte_forall _ Hf). unfold is_byte. lia.
    + apply isExcludingLatin_spec; [done|unfold MaxLatin1; lia].
Qed.

(** [IsLetter] is membership in the table of category L, for every value of
    the type: the Latin-1 bit table and the linear and binary searches agree
    with the ranges, and the end-of-file rune -1 is no letter. *)
Theorem IsLetter_spec r : - 2 ^ 31 <= r < 2 ^ 31 -> IsLetter r = in_table Letter r.
Proof.
  apply (latin_split Letter (fun r => negb (Z.land (nthZ 0 properties (u8 r)) pLmask =? 0)));
    [apply wf_Letter|vm_compute; reflexivity].
Qed.

Lemma wf_White_Space : wf_table White_Space = true. Proof. vm_compute. reflexivity. Qed.

(** [IsSpace] is membership in the table of the property White_Space. *)
Lemma IsSpace_table r : - 2 ^ 31 <= r < 2 ^ 31 -> IsSpace r = in_table White_Space r.
Proof.
  apply (latin_split White_Space (fun r => existsb (Z.eqb r) [9; 10; 11; 12; 13; 32; 0x85; 0xA0]));
    [apply wf_White_Space|vm_compute; reflexivity].
Qed.

(** [IsDigit] is membership in the table of category Nd. *)
Theorem IsDigit_spec r : - 2 ^ 31 <= r < 2 ^ 31 -> IsDigit r = in_table Digit r.
Proof.
  intros Hr. unfold IsDigit, MaxLatin1. destruct (r <=? 0xFF) eqn:E; b2p.
  - destruct (Z.lt_ge_cases r 0) as [Hn|Hn].
    + rewrite in_table_neg by (done || lia). by decide_tests.
    + apply eqb_prop. apply (byte_forall (fun r => eqb ((48 <=? r) && (r <=? 57))
        (in_table Digit r))); [vm_compute; done|unfold is_byte; lia].
  - apply isExcludingLatin_spec; [apply wf_Digit|unfold MaxLatin1; lia].
Qed.

Lemma IsLetter_spec_witness : IsLetter 0x4E16 = in_table Letter 0x4E16.
Proof. apply IsLetter_spec. vm_compute. split; [discriminate|reflexivity]. Defined.
