(* ===== verification/Format.v ===== *)
(** * src/src/strconv and src/src/fmt: formatting of messages and numbers

    The front end builds its messages with [fmt.Sprintf] verbs %d, %s, %q and
    %#U.  This file models the strconv and fmt routines behind the last three
    integer verbs, with the flags the front end uses (no width, no precision),
    and [strconv.ParseUint] in base 10, which reads the numbers of line
    directives. *)

From S2P Require Import Prelude Utf8 UnicodeTables.

Infix "+s+" := String.append (at level 60, right associativity) : go_scope.

(** ** strconv: binary search in a table of code points *)

(** The loop of [bsearch]; the fuel bounds [j - i]. *)
Fixpoint bsearch_loop (fuel : nat) (s : list Z) (v i j : Z) : Z :=
  match fuel with
  | O => i
  | S n =>
      if i <? j then
        let h := i + Z.shiftr (j - i) 1 in
        if nthZ 0 s h <? v then bsearch_loop n s v (h + 1) j else bsearch_loop n s v i h
      else i
  end.

Definition bsearch (s : list Z) (v : Z) : Z * bool :=
  let n := lenZ s in
  let i := bsearch_loop (S (length s)) s v 0 n in
  (i, (i <? n) && (nthZ 0 s i =? v)).

(** [rr] is outside of the pair of bounds found at index [i]. *)
Definition outside_pair (t : list Z) (i rr : Z) : bool :=
  (lenZ t <=? i) || (rr <? nthZ 0 t (Z.ldiff i 1)) || (nthZ 0 t (Z.lor i 1) <? rr).

Definition IsPrint (r : rune) : bool :=
  if r <=? 0xFF then
    if (0x20 <=? r) && (r <=? 0x7E) then true
    else if (0xA1 <=? r) && (r <=? 0xFF) then negb (r =? 0xAD)
    else false
  else if (0 <=? r) && (r <? 2 ^ 16) then
    let rr := u16 r in
    let '(i, _) := bsearch isPrint16 rr in
    if outside_pair isPrint16 i rr then false
    else let '(_, found) := bsearch isNotPrint16 rr in negb found
  else
    let rr := u32 r in
    let '(i, _) := bsearch isPrint32 rr in
    if outside_pair isPrint32 i rr then false
    else if 0x20000 <=? r then true
    else let '(_, found) := bsearch isNotPrint32 (u16 (r - 0x10000)) in negb found.

Example print_neq : IsPrint 0x2260 = true. Proof. vm_compute. reflexivity. Qed.
Example print_bom : IsPrint 0xFEFF = false. Proof. vm_compute. reflexivity. Qed.

(** ** strconv: quoting of runes *)

Definition lowerhex (d : Z) : byte := if d <? 10 then 48 + d else 87 + d.

(** [\u] and [\U] escapes: four or eight hexadecimal digits. *)
Definition hex_digits (shifts : list Z) (r : rune) : list byte :=
  map (fun s => lowerhex (Z.land (Z.shiftr r s) 0xF)) shifts.

Definition backslash : byte := 92.

(** The instance of [appendEscapedRune] with [ASCIIonly] and [graphicOnly] false. *)
Definition appendEscapedRune (buf : list byte) (r : rune) (quote : byte) : list byte :=
  if (r =? quote) || (r =? backslash) then buf ++ [backslash; u8 r]
  else if IsPrint r then AppendRune buf r
  else if r =? 7 then buf ++ [backslash; 97]
  else if r =? 8 then buf ++ [backslash; 98]
  else if r =? 12 then buf ++ [backslash; 102]
  else if r =? 10 then buf ++ [backslash; 110]
  else if r =? 13 then buf ++ [backslash; 114]
  else if r =? 9 then buf ++ [backslash; 116]
  else if r =? 11 then buf ++ [backslash; 118]
  else if (r <? 32) || (r =? 0x7F) then
    buf ++ [backslash; 120; lowerhex (Z.shiftr (u8 r) 4); lowerhex (Z.land (u8 r) 0xF)]
  else
    let r := if negb (ValidRune r) then 0xFFFD else r in
    if r <? 0x10000 then buf ++ [backslash; 117] ++ hex_digits [12; 8; 4; 0] r
    else buf ++ [backslash; 85] ++ hex_digits [28; 24; 20; 16; 12; 8; 4; 0] r.

Definition appendQuotedRuneWith (buf : list byte) (r : rune) (quote : byte) : list byte :=
  let buf := buf ++ [quote] in
  let r := if negb (ValidRune r) then RuneError else r in
  appendEscapedRune buf r quote ++ [quote].

Definition AppendQuoteRune (dst : list byte) (r : rune) : list byte :=
  appendQuotedRuneWith dst r 39.

(** ** fmt: the integer verbs *)

(** %q of an integer [c] given as a [uint64]. *)
Definition fmtQc (c : Z) : string :=
  let r := if MaxRune <? c then RuneError else s32 c in
  string_of_bytes (AppendQuoteRune [] r).

Definition udigits (d : Z) : byte := if d <? 10 then 48 + d else 55 + d.

(** The digit loop of [fmtUnicode]: [u] in base 16, written right to left in
    front of [buf], with [prec] digits still required. *)
Fixpoint fmtUnicode_loop (fuel : nat) (u prec : Z) (buf : list byte) : list byte * Z :=
  match fuel with
  | O => (buf, prec)
  | S n =>
      if 16 <=? u then
        fmtUnicode_loop n (Z.shiftr u 4) (prec - 1) (udigits (Z.land u 0xF) :: buf)
      else (udigits u :: buf, prec - 1)
  end.

(** %#U of an integer [u] given as a [uint64]; 16 digits hold any [uint64]. *)
Definition fmtUnicode (u : Z) : string :=
  let suffix :=
    if (u <=? MaxRune) && IsPrint u then [32; 39] ++ encode u ++ [39] else [] in
  let '(buf, prec) := fmtUnicode_loop 16 u 4 suffix in
  string_of_bytes ([85; 43] ++ repeat 48 (Z.to_nat prec) ++ buf).

(** A signed argument of %#U or %q is passed as [uint64]. *)
Definition fmt_U (r : rune) : string := fmtUnicode (u64 r).
Definition fmt_q (r : rune) : string := fmtQc (u64 r).

(** The base 10 loop of [fmtInteger]; 20 digits hold any [uint64]. *)
Fixpoint fmtInteger_loop (fuel : nat) (u : Z) (buf : list byte) : list byte :=
  match fuel with
  | O => buf
  | S n =>
      if 10 <=? u then
        let next := u / 10 in
        fmtInteger_loop n next (u8 (48 + u - next * 10) :: buf)
      else (48 + u) :: buf
  end.

(** %d of an [int]. *)
Definition fmtInteger (v : Z) : string :=
  let negative := v <? 0 in
  let u := if negative then - v else v in
  string_of_bytes ((if negative then [45] else []) ++ fmtInteger_loop 20 u []).

(** ** strconv: base 10 on a 64-bit host *)

Definition nSmalls : Z := 100.

Definition smallsString : list byte := bytes_of_string
  ("00010203040506070809" ++ "10111213141516171819" ++ "20212223242526272829" ++
   "30313233343536373839" ++ "40414243444546474849" ++ "50515253545556575859" ++
   "60616263646566676869" ++ "70717273747576777879" ++ "80818283848586878889" ++
   "90919293949596979899").

Definition int_digits : list byte := bytes_of_string "0123456789abcdefghijklmnopqrstuvwxyz".

Definition small (i : Z) : list byte :=
  if i <? 10 then slice int_digits i (i + 1) else slice smallsString (i * 2) (i * 2 + 2).

(** The loop over pairs of digits, written right to left in front of [a]; 10
    pairs hold any [uint64]. *)
Fixpoint formatBits_loop (fuel : nat) (us : Z) (a : list byte) : Z * list byte :=
  match fuel with
  | O => (us, a)
  | S n =>
      if 100 <=? us then
        let k := us mod 100 * 2 in
        formatBits_loop n (us / 100) (nthZ 0 smallsString k :: nthZ 0 smallsString (k + 1) :: a)
      else (us, a)
  end.

(** [formatBits] with base 10. *)
Definition formatBits (u : Z) (neg : bool) : list byte :=
  let u := if neg then u64 (- u) else u in
  let '(us, a) := formatBits_loop 10 u [] in
  let k := us * 2 in
  let a := nthZ 0 smallsString (k + 1) :: a in
  let a := if 10 <=? us then nthZ 0 smallsString k :: a else a in
  if neg then 45 :: a else a.

Definition FormatInt (i : Z) : list byte :=
  if (0 <=? i) && (i <? nSmalls) then small i else formatBits (u64 i) (i <? 0).

Definition Itoa (i : Z) : string := string_of_bytes (FormatInt i).

Example Itoa_neg : Itoa (-9223372036854775808) = "-9223372036854775808"%string.
Proof. vm_compute. reflexivity. Qed.
Example Itoa_small : Itoa 7 = "7"%string /\ Itoa 42 = "42"%string.
Proof. split; vm_compute; reflexivity. Qed.
Example fmtU_neq : fmt_U 0x2260 = "U+2260 '≠'"%string. Proof. vm_compute. reflexivity. Qed.
Example fmtU_at : fmt_U 64 = "U+0040 '@'"%string. Proof. vm_compute. reflexivity. Qed.
Example fmtU_bel : fmt_U 7 = "U+0007"%string. Proof. vm_compute. reflexivity. Qed.
Example fmtq_nl : fmt_q 10 = "'\n'"%string. Proof. vm_compute. reflexivity. Qed.
Example fmtd : fmtInteger 18446744073709551615 = "18446744073709551615"%string.
Proof. vm_compute. reflexivity. Qed.

(** ** strconv.ParseUint in base 10 with bitSize 0 *)

Definition maxUint64 : Z := 2 ^ 64 - 1.

Definition lower_byte (c : byte) : byte := Z.lor c 32.

(** The loop over the bytes: the value so far, or the value and [false] of an
    early return with an error. *)
Fixpoint ParseUint_loop (s : list byte) (n : Z) : Z * bool :=
  match s with
  | [] => (n, true)
  | c :: s' =>
      let d :=
        if (48 <=? c) && (c <=? 57) then Some (c - 48)
        else if (97 <=? lower_byte c) && (lower_byte c <=? 122) then Some (lower_byte c - 97 + 10)
        else None in
      match d with
      | None => (0, false)
      | Some d =>
          if 10 <=? d then (0, false)
          else if maxUint64 / 10 + 1 <=? n then (maxUint64, false)
          else
            let n := u64 (n * 10) in
            let n1 := u64 (n + d) in
            if (n1 <? n) || (maxUint64 <? n1) then (maxUint64, false)
            else ParseUint_loop s' n1
      end
  end.

Definition ParseUint (s : string) : Z * bool :=
  match bytes_of_string s with
  | [] => (0, false)
  | bs => ParseUint_loop bs 0
  end.

(** ** strconv.ParseInt in base 10 with bitSize 0, and Atoi on a 64-bit host

    [None] is an error, whose value the callers do not use. *)

Definition ParseInt (s : list byte) : option Z :=
  match s with
  | [] => None
  | c :: s' =>
      let neg := c =? "-"%rune in
      let '(un, ok) := ParseUint (string_of_bytes (if (c =? "+"%rune) || neg then s' else s)) in
      let cutoff := 2 ^ 63 in
      if negb ok then None
      else if negb neg && (cutoff <=? un) then None
      else if neg && (cutoff <? un) then None
      else let n := s64 un in Some (if neg then s64 (- n) else n)
  end.

(** The loop of the fast path. *)
Fixpoint Atoi_loop (s : list byte) (n : Z) : option Z :=
  match s with
  | [] => Some n
  | ch :: s =>
      let ch := u8 (ch - 48) in
      if 9 <? ch then None else Atoi_loop s (s64 (n * 10 + ch))
  end.

Definition Atoi (s : list byte) : option Z :=
  let sLen := lenZ s in
  if (0 <? sLen) && (sLen <? 19) then
    let c := nthZ 0 s 0 in
    let signed := (c =? "-"%rune) || (c =? "+"%rune) in
    let s := if signed then drop 1 s else s in
    if signed && (lenZ s <? 1) then None
    else
      match Atoi_loop s 0 with
      | None => None
      | Some n => Some (if c =? "-"%rune then s64 (- n) else n)
      end
  else ParseInt s.

Example Atoi_small : Atoi (bytes_of_string "-042") = Some (-42) /\ Atoi (bytes_of_string "4_2") = None.
Proof. split; vm_compute; reflexivity. Qed.
Example Atoi_big : Atoi (bytes_of_string "-9223372036854775808") = Some (- 2 ^ 63) /\
  Atoi (bytes_of_string "9223372036854775808") = None.
Proof. split; vm_compute; reflexivity. Qed.

(** ** Lemmas *)

Lemma fmtInteger_loop_cons n u b buf : exists b' buf', fmtInteger_loop n u (b :: buf) = b' :: buf'.
Proof.
  induction n as [|n IH] in u, b, buf |- *; cbn [fmtInteger_loop]; [by exists b, buf|]. cbv zeta.
  case_match; [apply IH|]. by eexists _, _.
Qed.

(** A number has a text. *)
Lemma fmtInteger_nonempty v : fmtInteger v <> ""%string.
Proof.
  assert (Hl : forall n u, exists b buf, fmtInteger_loop (S n) u [] = b :: buf).
  { intros n u. cbn [fmtInteger_loop]. cbv zeta. case_match; [apply fmtInteger_loop_cons|by eexists _, _]. }
  unfold fmtInteger. cbv zeta. intros E. destruct (v <? 0); [done|].
  destruct (Hl 19%nat v) as (b & buf & Eb). cbn [app] in E. by rewrite Eb in E.
Qed.
