(* ===== verification/Tokens.v ===== *)
(** * src/src/cmd/compile/internal/syntax/tokens.go and token_string.go

    Tokens, literal kinds, operators and precedences, with the name tables and
    the bit sets of tokens.  The numbering is the code's [iota] numbering. *)

From S2P Require Import Prelude Format.

#[local] Open Scope go_scope.

(** [_None] is the zero value of the type (the blank constant of the code). *)
Inductive token : Type :=
| _None | _EOF
| _Name | _Literal
| _Operator | _AssignOp | _IncOp | _Assign | _Define | _Arrow | _Star
| _Lparen | _Lbrack | _Lbrace | _Rparen | _Rbrack | _Rbrace
| _Comma | _Semi | _Colon | _Dot | _DotDotDot | _Hash
| _Break | _Case | _Chan | _Check | _Const | _Enum | _Continue | _Default | _Defer
| _Else | _Fallthrough | _For | _Func | _Go | _Goto | _If | _Import | _Interface
| _Map | _Package | _Range | _Return | _Select | _Struct | _Switch | _Type | _Var.

#[export] Instance token_eq_dec : EqDecision token.
Proof. solve_decision. Defined.

(** All tokens, in [iota] order. *)
Definition tokens : list token :=
  [_None; _EOF; _Name; _Literal; _Operator; _AssignOp; _IncOp; _Assign; _Define; _Arrow; _Star;
   _Lparen; _Lbrack; _Lbrace; _Rparen; _Rbrack; _Rbrace; _Comma; _Semi; _Colon; _Dot;
   _DotDotDot; _Hash; _Break; _Case; _Chan; _Check; _Const; _Enum; _Continue; _Default; _Defer;
   _Else; _Fallthrough; _For; _Func; _Go; _Goto; _If; _Import; _Interface; _Map; _Package;
   _Range; _Return; _Select; _Struct; _Switch; _Type; _Var].

Definition tokenCount : Z := lenZ tokens.

(** The numeric value of a token. *)
Definition token_num (tok : token) : Z :=
  match tok with
  | _None => 0 | _EOF => 1 | _Name => 2 | _Literal => 3 | _Operator => 4 | _AssignOp => 5
  | _IncOp => 6 | _Assign => 7 | _Define => 8 | _Arrow => 9 | _Star => 10 | _Lparen => 11
  | _Lbrack => 12 | _Lbrace => 13 | _Rparen => 14 | _Rbrack => 15 | _Rbrace => 16
  | _Comma => 17 | _Semi => 18 | _Colon => 19 | _Dot => 20 | _DotDotDot => 21 | _Hash => 22
  | _Break => 23 | _Case => 24 | _Chan => 25 | _Check => 26 | _Const => 27 | _Enum => 28
  | _Continue => 29 | _Default => 30 | _Defer => 31 | _Else => 32 | _Fallthrough => 33
  | _For => 34 | _Func => 35 | _Go => 36 | _Goto => 37 | _If => 38 | _Import => 39
  | _Interface => 40 | _Map => 41 | _Package => 42 | _Range => 43 | _Return => 44
  | _Select => 45 | _Struct => 46 | _Switch => 47 | _Type => 48 | _Var => 49
  end.

Definition tok_eqb (a b : token) : bool := token_num a =? token_num b.

(** [tokset&(1<<tok) != 0] on [uint64]. *)
Definition contains (tokset : Z) (tok : token) : bool :=
  negb (Z.land tokset (u64 (Z.shiftl 1 (token_num tok))) =? 0).

(** A token set written [1<<t1 | 1<<t2 | ...]. *)
Definition tokset (ts : list token) : Z :=
  foldr (fun t acc => Z.lor (Z.shiftl 1 (token_num t)) acc) 0 ts.

(** The table is indexed by token number; tokens without an entry (here
    [_Hash]) have the empty name. *)
Definition TokenNames (tok : token) : string :=
  match tok with
  | _None => "" | _EOF => "EOF" | _Name => "name" | _Literal => "literal" | _Operator => "op"
  | _AssignOp => "op=" | _IncOp => "opop" | _Assign => "=" | _Define => ":=" | _Arrow => "<-"
  | _Star => "*" | _Lparen => "(" | _Lbrack => "[" | _Lbrace => "{" | _Rparen => ")"
  | _Rbrack => "]" | _Rbrace => "}" | _Comma => "," | _Semi => ";" | _Colon => ":" | _Dot => "."
  | _DotDotDot => "..." | _Hash => "" | _Break => "break" | _Case => "case" | _Chan => "chan"
  | _Check => "check" | _Const => "const" | _Enum => "enum" | _Continue => "continue"
  | _Default => "default" | _Defer => "defer" | _Else => "else" | _Fallthrough => "fallthrough"
  | _For => "for" | _Func => "func" | _Go => "go" | _Goto => "goto" | _If => "if"
  | _Import => "import" | _Interface => "interface" | _Map => "map" | _Package => "package"
  | _Range => "range" | _Return => "return" | _Select => "select" | _Struct => "struct"
  | _Switch => "switch" | _Type => "type" | _Var => "var"
  end%string.

Definition token_String (tok : token) : string :=
  if negb (String.eqb (TokenNames tok) "") then TokenNames tok
  else "token(" +s+ Itoa (token_num tok) +s+ ")".

Inductive LitKind : Type := IntLit | FloatLit | ImagLit | RuneLit | StringLit.

#[export] Instance LitKind_eq_dec : EqDecision LitKind.
Proof. solve_decision. Defined.

(** [OpNone] is the zero value (the blank constant of the code). *)
Inductive Operator : Type :=
| OpNone
| Def | Not | Recv | Tilde
| OrOr
| AndAnd
| Eql | Neq | Lss | Leq | Gtr | Geq
| Add | Sub | Or | Xor
| Mul | Div | Rem | And | AndNot | Shl | Shr.

#[export] Instance Operator_eq_dec : EqDecision Operator.
Proof. solve_decision. Defined.

Definition operators : list Operator :=
  [OpNone; Def; Not; Recv; Tilde; OrOr; AndAnd; Eql; Neq; Lss; Leq; Gtr; Geq; Add; Sub; Or; Xor;
   Mul; Div; Rem; And; AndNot; Shl; Shr].

Definition op_num (op : Operator) : Z :=
  match op with
  | OpNone => 0 | Def => 1 | Not => 2 | Recv => 3 | Tilde => 4 | OrOr => 5 | AndAnd => 6
  | Eql => 7 | Neq => 8 | Lss => 9 | Leq => 10 | Gtr => 11 | Geq => 12 | Add => 13 | Sub => 14
  | Or => 15 | Xor => 16 | Mul => 17 | Div => 18 | Rem => 19 | And => 20 | AndNot => 21
  | Shl => 22 | Shr => 23
  end.

Definition op_eqb (a b : Operator) : bool := op_num a =? op_num b.

Definition OperatorNames (op : Operator) : string :=
  match op with
  | OpNone => "" | Def => ":" | Not => "!" | Recv => "<-" | Tilde => "~" | OrOr => "||"
  | AndAnd => "&&" | Eql => "==" | Neq => "!=" | Lss => "<" | Leq => "<=" | Gtr => ">"
  | Geq => ">=" | Add => "+" | Sub => "-" | Or => "|" | Xor => "^" | Mul => "*" | Div => "/"
  | Rem => "%" | And => "&" | AndNot => "&^" | Shl => "<<" | Shr => ">>"
  end%string.

Definition Operator_String (op : Operator) : string :=
  if negb (String.eqb (OperatorNames op) "") then OperatorNames op
  else "Operator(" +s+ Itoa (op_num op) +s+ ")".

Definition precOrOr : Z := 1.
Definition precAndAnd : Z := 2.
Definition precCmp : Z := 3.
Definition precAdd : Z := 4.
Definition precMul : Z := 5.

(** ** Lemmas *)

Lemma token_num_inj a b : token_num a = token_num b -> a = b.
Proof. destruct a; destruct b; (reflexivity || discriminate). Qed.

Lemma token_num_range tok : 0 <= token_num tok < 50.
Proof. destruct tok; cbn; lia. Qed.

Lemma tok_eqb_eq a b : tok_eqb a b = true <-> a = b.
Proof.
  unfold tok_eqb. rewrite Z.eqb_eq. split; [apply token_num_inj|by intros ->].
Qed.

Lemma tok_eqb_refl a : tok_eqb a a = true.
Proof. by apply tok_eqb_eq. Qed.

Lemma tok_eqb_neq a b : tok_eqb a b = false <-> a <> b.
Proof. rewrite <- not_true_iff_false, tok_eqb_eq. done. Qed.

Lemma op_eqb_eq a b : op_eqb a b = true <-> a = b.
Proof.
  unfold op_eqb. rewrite Z.eqb_eq. split; [|by intros ->].
  destruct a; destruct b; (reflexivity || discriminate).
Qed.

(** The token numbers are the positions in [tokens]: all tokens are there, and
    they fit in a [uint64] set. *)
Lemma tokens_nth tok : nthZ _None tokens (token_num tok) = tok.
Proof. by destruct tok. Qed.

Lemma tokenCount_fits : tokenCount <= 64.
Proof. vm_compute. discriminate. Qed.

(** A bit set contains exactly the tokens it was built from. *)
Lemma tokset_testbit ts tok :
  Z.testbit (tokset ts) (token_num tok) = existsb (tok_eqb tok) ts.
Proof.
  induction ts as [|t ts IH]; [apply Z.bits_0|].
  cbn [tokset foldr existsb]. rewrite Z.lor_spec. fold (tokset ts). rewrite IH. f_equal.
  pose proof (token_num_range tok). pose proof (token_num_range t).
  rewrite Z.shiftl_spec by lia. unfold tok_eqb.
  destruct (Z.eqb_spec (token_num tok) (token_num t)) as [->|Hne].
  - rewrite Z.sub_diag. reflexivity.
  - destruct (Z.lt_ge_cases (token_num tok - token_num t) 0).
    + by apply Z.testbit_neg_r.
    + change 1 with (2 ^ 0). rewrite Z.pow2_bits_eqb by lia. apply Z.eqb_neq. lia.
Qed.

Lemma contains_testbit set tok : contains set tok = Z.testbit set (token_num tok).
Proof.
  unfold contains. pose proof (token_num_range tok) as Hr.
  rewrite Z.shiftl_1_l. unfold u64. rewrite Z.mod_small.
  2: { split; [lia|]. apply Z.pow_lt_mono_r; lia. }
  destruct (Z.testbit set (token_num tok)) eqn:E.
  - apply negb_true_iff, Z.eqb_neq. intros Hz.
    apply (f_equal (fun z => Z.testbit z (token_num tok))) in Hz.
    rewrite Z.land_spec, E, Z.pow2_bits_true, Z.bits_0 in Hz by lia. done.
  - apply negb_false_iff, Z.eqb_eq. apply Z.bits_inj'. intros i Hi.
    rewrite Z.land_spec, Z.bits_0, Z.pow2_bits_eqb by lia.
    destruct (Z.eqb_spec (token_num tok) i) as [<-|]; [by rewrite E|apply andb_false_r].
Qed.

Lemma contains_tokset ts tok : contains (tokset ts) tok = true <-> In tok ts.
Proof.
  rewrite contains_testbit, tokset_testbit, existsb_exists. split.
  - intros (t & Hin & Heq). apply tok_eqb_eq in Heq. by subst.
  - intros Hin. exists tok. split; [done|apply tok_eqb_refl].
Qed.
