(* ===== verification/Source.v ===== *)
(** * src/src/cmd/compile/internal/syntax/source.go: the buffered rune reader

    [source] is the reader's state, one field per field of the struct; the
    error handler is the trace of the monad.  The underlying [io.Reader] is any
    finite script of read results, followed by [io.EOF] for ever.

    The interface [RuneSource] is what the scanner uses of a rune reader; the
    buffered reader is one instance, the abstract stream of Stream.v another. *)

From S2P Require Import Prelude Utf8.

#[local] Open Scope go_scope.

(** A call of the error handler: line, column, message. *)
Definition srcerr : Type := Z * Z * string.

(** ** The interface *)

Class RuneSource (src : Type) := {
  src_ch : src -> rune;                         (** [s.ch] *)
  src_pos : src -> Z * Z;                       (** [s.pos()] *)
  src_nextch : GM string srcerr src unit;       (** [s.nextch()] *)
  src_start : src -> src;                       (** [s.start()] *)
  src_stop : src -> src;                        (** [s.stop()] *)
  src_segment : GM string srcerr src (list byte);  (** [s.segment()] *)
  src_rewind : GM string srcerr src unit;       (** [s.rewind()] *)
  src_left : src -> nat                         (** what is left to read: bounds the loops *)
}.

(** A message that is neither empty nor a comment. *)
Definition plain_msg (msg : string) : bool :=
  match bytes_of_string msg with
  | [] => false
  | c :: _ => negb (c =? "/"%rune) && negb (c =? "#"%rune)
  end.

(** The bytes that [nextch] passes over without delivering them: NUL, or part
    of an invalid encoding or of a byte order mark. *)
Definition high_bytes (l : list byte) : Prop := Forall (fun c => c = 0 \/ RuneSelf <= c) l.

(** What every reader promises to the scanner: the operations return, an
    active segment can be read and collects the bytes that [nextch] passes,
    the column counts them, and [nextch] uses up input until the end.
    [src_cur] holds the bytes of the current character, [src_seg] those of the
    active segment before it, and [src_mark] bounds what a [rewind] of the
    active segment makes readable. *)
Class SourceLaws (src : Type) `{RuneSource src} := {
  src_ok : src -> Prop;
  src_active : src -> bool;
  src_mark : src -> nat;
  src_seg : src -> list byte;
  src_cur : src -> list byte;
  law_nextch s : src_ok s -> exists s' t,
    src_nextch s = Ok (tt, s', t) /\ src_ok s' /\ src_active s' = src_active s /\
    (src_mark s' <= src_mark s)%nat /\ (src_left s' <= src_left s)%nat /\
    (src_ch s <> -1 -> (src_left s' < src_left s)%nat) /\
    (src_active s = true -> exists skipped,
      src_seg s' = src_seg s ++ src_cur s ++ skipped /\ high_bytes skipped /\
      (src_ch s <> 10 -> (src_pos s').1 = (src_pos s).1 /\
        (src_pos s').2 = u64 ((src_pos s).2 + lenZ (src_cur s ++ skipped)))) /\
    Forall (fun e => plain_msg e.2 = true) t;
  law_start s : src_ok s ->
    src_ok (src_start s) /\ src_active (src_start s) = true /\ src_ch (src_start s) = src_ch s /\
    src_pos (src_start s) = src_pos s /\ src_left (src_start s) = src_left s /\
    src_cur (src_start s) = src_cur s /\ src_seg (src_start s) = [] /\
    (0 <= src_ch s < RuneSelf -> (src_mark (src_start s) <= src_left s)%nat);
  law_stop s : src_ok s ->
    src_ok (src_stop s) /\ src_ch (src_stop s) = src_ch s /\ src_pos (src_stop s) = src_pos s /\
    src_left (src_stop s) = src_left s;
  law_segment s : src_ok s -> src_active s = true -> src_segment s = Ok (src_seg s, s, []);
  law_rewind s : src_ok s -> src_active s = true -> exists s' t,
    src_rewind s = Ok (tt, s', t) /\ src_ok s' /\ src_active s' = true /\
    (src_left s' <= src_mark s)%nat /\ Forall (fun e => plain_msg e.2 = true) t /\
    (forall c l, src_seg s = c :: l -> 0 < c < RuneSelf -> src_ch s' = c);
  law_mark s : src_ok s -> src_active s = true -> (length (src_seg s ++ src_cur s) <= src_mark s)%nat;
  law_bytes s : src_ok s -> Forall is_byte (src_cur s) /\ Forall is_byte (src_seg s);
  law_cur s : src_ok s -> 0 <= src_ch s < RuneSelf -> src_ch s <> 32 -> src_cur s = [src_ch s];
  law_eof s : src_ok s -> -1 <= src_ch s;
  law_high s : src_ok s -> RuneSelf <= src_ch s -> src_cur s <> []
}.

(** One reader behaves like another: [R] is a simulation. *)
Class SourceRefines (src1 src2 : Type) `{RuneSource src1} `{RuneSource src2}
    (R : src1 -> src2 -> Prop) := {
  ref_ch s1 s2 : R s1 s2 -> src_ch s1 = src_ch s2;
  ref_pos s1 s2 : R s1 s2 -> src_pos s1 = src_pos s2;
  ref_left s1 s2 : R s1 s2 -> src_left s1 = src_left s2;
  ref_nextch : mrel R src_nextch src_nextch;
  ref_start s1 s2 : R s1 s2 -> R (src_start s1) (src_start s2);
  ref_stop s1 s2 : R s1 s2 -> R (src_stop s1) (src_stop s2);
  ref_segment : mrel R src_segment src_segment;
  ref_rewind : mrel R src_rewind src_rewind
}.

(** ** The reader *)

Inductive ioerror : Type := EOF | IOError (msg : string).

(** One call of [Read]: the bytes delivered and the error returned. *)
Record read := Read { r_data : list byte; r_err : option ioerror }.

(** [s.in.Read(p)] with [len(p) = cap]: a result that does not fit is
    delivered in parts; after the script the reader is at end of file. *)
Definition do_read (cap : Z) (in_ : list read) : list byte * option ioerror * list read :=
  match in_ with
  | [] => ([], Some EOF, [])
  | x :: rest =>
      if lenZ (r_data x) <=? cap then (r_data x, r_err x, rest)
      else (take (Z.to_nat cap) (r_data x), None,
            Read (drop (Z.to_nat cap) (r_data x)) (r_err x) :: rest)
  end.

Record source := Source {
  in_ : list read;
  buf : list byte;
  ioerr : option ioerror;
  b : Z;
  r : Z;
  e : Z;
  line : Z;
  col : Z;
  ch : rune;
  chw : Z
}.

Definition set_in_ (v : list read) (s : source) : source := Source v (buf s) (ioerr s) (b s) (r s) (e s) (line s) (col s) (ch s) (chw s).
Definition set_buf (v : list byte) (s : source) : source := Source (in_ s) v (ioerr s) (b s) (r s) (e s) (line s) (col s) (ch s) (chw s).
Definition set_ioerr (v : option ioerror) (s : source) : source := Source (in_ s) (buf s) v (b s) (r s) (e s) (line s) (col s) (ch s) (chw s).
Definition set_b (v : Z) (s : source) : source := Source (in_ s) (buf s) (ioerr s) v (r s) (e s) (line s) (col s) (ch s) (chw s).
Definition set_r (v : Z) (s : source) : source := Source (in_ s) (buf s) (ioerr s) (b s) v (e s) (line s) (col s) (ch s) (chw s).
Definition set_e (v : Z) (s : source) : source := Source (in_ s) (buf s) (ioerr s) (b s) (r s) v (line s) (col s) (ch s) (chw s).
Definition set_line (v : Z) (s : source) : source := Source (in_ s) (buf s) (ioerr s) (b s) (r s) (e s) v (col s) (ch s) (chw s).
Definition set_col (v : Z) (s : source) : source := Source (in_ s) (buf s) (ioerr s) (b s) (r s) (e s) (line s) v (ch s) (chw s).
Definition set_ch (v : rune) (s : source) : source := Source (in_ s) (buf s) (ioerr s) (b s) (r s) (e s) (line s) (col s) v (chw s).
Definition set_chw (v : Z) (s : source) : source := Source (in_ s) (buf s) (ioerr s) (b s) (r s) (e s) (line s) (col s) (ch s) v.

Definition sentinel : Z := RuneSelf.
Definition linebase : Z := 1.
Definition colbase : Z := 1.

(** [nextSize]: the next bigger size for a buffer of a given size. *)
Definition nextSize (size : Z) : Z :=
  let min := Z.shiftl 4 10 in
  let max := Z.shiftl 1 20 in
  if size <? min then min
  else if size <=? max then Z.shiftl size 1
  else size + max.

(** [s.init(in, errh)] on a fresh struct. *)
Definition init (in_ : list read) : source :=
  Source in_ (sentinel :: repeat 0 (Z.to_nat (nextSize 0) - 1)) None (-1) 0 0 0 0 32 0.

Definition pos (s : source) : Z * Z := (u64 (linebase + line s), u64 (colbase + col s)).

Definition start (s : source) : source := set_b (r s - chw s) s.
Definition stop (s : source) : source := set_b (-1) s.

(** Slicing with a negative bound panics. *)
Definition segment : GM string srcerr source (list byte) :=
  let* s := gets id in
  if (b s <? 0) || (r s - chw s <? b s) then panic "slice bounds out of range"%string
  else ret (slice (buf s) (b s) (r s - chw s)).

Definition error (msg : string) : GM string srcerr source unit :=
  let* p := gets pos in emit (p.1, p.2, msg).

(** Overwrite [l] from index [i] on with [data] (which fits). *)
Definition write_at (l : list byte) (i : Z) (data : list byte) : list byte :=
  take (Z.to_nat i) l ++ data ++ drop (Z.to_nat i + length data) l.

Definition ErrNoProgress : ioerror :=
  IOError "multiple Read calls return no data or error".

(** The read loop of [fill]: at most ten attempts. *)
Fixpoint fill_loop (attempts : nat) (s : source) : source :=
  match attempts with
  | O => set_ioerr (Some ErrNoProgress) (set_buf (write_at (buf s) (e s) [sentinel]) s)
  | S i =>
      let '(data, err, in') := do_read (lenZ (buf s) - 1 - e s) (in_ s) in
      let n := lenZ data in
      let s := set_ioerr err (set_in_ in' (set_buf (write_at (buf s) (e s) data) s)) in
      if (0 <? n) || is_some err then
        let s := set_e (e s + n) s in
        set_buf (write_at (buf s) (e s) [sentinel]) s
      else fill_loop i s
  end.

(** The first half of [fill]: determine the content to preserve, grow the
    buffer or move the content down. *)
Definition fill_prepare (s : source) : source :=
  let bb := if 0 <=? b s then b s else r s in
  let s := if 0 <=? b s then set_b 0 s else s in
  let content := slice (buf s) bb (e s) in
  let s :=
    if lenZ (buf s) <? lenZ content * 2 then
      set_buf (content ++ repeat 0 (Z.to_nat (nextSize (lenZ (buf s)) - lenZ content))) s
    else if 0 <? bb then set_buf (content ++ drop (length content) (buf s)) s
    else s in
  set_e (e s - bb) (set_r (r s - bb) s).

Definition fill (s : source) : source := fill_loop 10 (fill_prepare s).

(** The loop that adds bytes until the buffer holds a full rune; every [fill]
    adds a byte or an error, so four rounds are enough. *)
Fixpoint fill_rune (fuel : nat) (s : source) : source :=
  match fuel with
  | O => s
  | S n =>
      if (e s - r s <? UTFMax) && negb (FullRune (slice (buf s) (r s) (e s))) &&
         negb (is_some (ioerr s))
      then fill_rune n (fill s) else s
  end.

Definition BOM : rune := 0xFEFF.

(** One round of [nextch], from the label [redo]; [inl] is [goto redo]. *)
Definition nextch_round : GM string srcerr source (unit + unit) :=
  modify (fun s => set_col (u64 (col s + chw s)) s);;;
  modify (fun s => if ch s =? 10 then set_col 0 (set_line (u64 (line s + 1)) s) else s);;;
  modify (fun s => set_ch (nthZ 0 (buf s) (r s)) s);;;
  let* s := gets id in
  if ch s <? sentinel then
    modify (fun s => set_chw 1 (set_r (r s + 1) s));;;
    if ch s =? 0 then error "invalid NUL character";;; ret (inl tt)
    else ret (inr tt)
  else
    modify (fill_rune 5);;;
    let* s := gets id in
    if r s =? e s then
      match ioerr s with
      | Some (IOError msg) =>
          error ("I/O error: " ++ msg)%string;;;
          modify (set_ioerr None)
      | _ => ret tt
      end;;;
      modify (fun s => set_chw 0 (set_ch (-1) s));;;
      ret (inr tt)
    else
      let '(c, w) := DecodeRune (slice (buf s) (r s) (e s)) in
      modify (fun s => set_r (r s + w) (set_chw w (set_ch c s)));;;
      if (c =? RuneError) && (w =? 1) then
        error "invalid UTF-8 encoding";;; ret (inl tt)
      else if c =? BOM then
        let* s := gets id in
        when (0 <? line s) || (0 <? col s) do error "invalid BOM in the middle of the file";;;
        ret (inl tt)
      else ret (inr tt).

(** ** What is left to read

    The input still to come, as bytes and reported I/O errors.  [quiet] counts
    the reads without data or error since the last one that had either. *)
Inductive item : Type := Byte (c : byte) | Fault (msg : string).

Fixpoint script_items (quiet : nat) (in_ : list read) : list item :=
  match in_ with
  | [] => []
  | Read [] None :: rest =>
      if (quiet <? 9)%nat then script_items (S quiet) rest
      else Fault "multiple Read calls return no data or error" :: script_items 0 rest
  | Read data None :: rest => map Byte data ++ script_items 0 rest
  | Read data (Some EOF) :: _ => map Byte data
  | Read data (Some (IOError msg)) :: rest => map Byte data ++ Fault msg :: script_items 0 rest
  end.

(** What follows the bytes of the buffer, given the pending error. *)
Definition after (err : option ioerror) (in_ : list read) : list item :=
  match err with
  | None => script_items 0 in_
  | Some EOF => []
  | Some (IOError msg) => Fault msg :: script_items 0 in_
  end.

Definition pending (s : source) : list item :=
  map Byte (slice (buf s) (r s) (e s)) ++ after (ioerr s) (in_ s).

(** One more for the current character; this bounds every loop of the scanner. *)
Definition left (s : source) : nat :=
  (length (pending s) + (if (ch s =? -1)%Z then 0 else 1))%nat.

Definition nextch : GM string srcerr source unit :=
  let* n := gets (fun s => S (left s)) in
  iterM n (fun _ => nextch_round) tt.

Definition rewind : GM string srcerr source unit :=
  let* s := gets id in
  if b s <? 0 then panic "no active segment"%string else
  modify (fun s => set_col (u64 (col s - u64 (r s - b s))) s);;;
  modify (fun s => set_r (b s) s);;;
  nextch.

#[export] Instance buffered_source : RuneSource source := {|
  src_ch := ch; src_pos := pos; src_nextch := nextch; src_start := start;
  src_stop := stop; src_segment := segment; src_rewind := rewind; src_left := left
|}.
