(* ===== verification/Stream.v ===== *)
(** * The rune reader without its buffer

    [stream] is what source.go promises: the characters of the input one after
    the other with their positions, whatever the sizes of the reads and of the
    buffer.  [nextch_refines] shows that the buffered reader implements it on
    input without NUL bytes; [nul_depends_on_reads] shows why NUL is excluded. *)

From S2P Require Import Prelude Utf8 Source.

#[local] Open Scope go_scope.

(** [rest] is the input after the current character, [cur] the bytes of the
    current character and [pre] those of the active segment, the current
    character included. *)
Record stream := Stream {
  rest : list item;
  st_line : Z;
  st_col : Z;
  st_ch : rune;
  st_chw : Z;
  cur : list byte;
  pre : option (list byte)
}.

Definition set_rest (v : list item) (s : stream) : stream := Stream v (st_line s) (st_col s) (st_ch s) (st_chw s) (cur s) (pre s).
Definition set_st_line (v : Z) (s : stream) : stream := Stream (rest s) v (st_col s) (st_ch s) (st_chw s) (cur s) (pre s).
Definition set_st_col (v : Z) (s : stream) : stream := Stream (rest s) (st_line s) v (st_ch s) (st_chw s) (cur s) (pre s).
Definition set_st_ch (v : rune) (s : stream) : stream := Stream (rest s) (st_line s) (st_col s) v (st_chw s) (cur s) (pre s).
Definition set_st_chw (v : Z) (s : stream) : stream := Stream (rest s) (st_line s) (st_col s) (st_ch s) v (cur s) (pre s).
Definition set_cur (v : list byte) (s : stream) : stream := Stream (rest s) (st_line s) (st_col s) (st_ch s) (st_chw s) v (pre s).
Definition set_pre (v : option (list byte)) (s : stream) : stream := Stream (rest s) (st_line s) (st_col s) (st_ch s) (st_chw s) (cur s) v.

Definition st_pos (s : stream) : Z * Z := (u64 (linebase + st_line s), u64 (colbase + st_col s)).

Definition st_start (s : stream) : stream := set_pre (Some (cur s)) s.
Definition st_stop (s : stream) : stream := set_pre None s.

Definition st_segment : GM string srcerr stream (list byte) :=
  let* s := gets id in
  match pre s with
  | None => panic "slice bounds out of range"%string
  | Some bs => ret (slice bs 0 (lenZ bs - st_chw s))
  end.

Definition st_error (msg : string) : GM string srcerr stream unit :=
  let* p := gets st_pos in emit (p.1, p.2, msg).

(** The bytes available before the next I/O error or the end of the input. *)
Fixpoint bytes_prefix (l : list item) : list byte :=
  match l with
  | Byte c :: l' => c :: bytes_prefix l'
  | _ => []
  end.

(** Consume [w] bytes as the current character [c]. *)
Definition st_take (c : rune) (w : Z) (s : stream) : stream :=
  let bs := take (Z.to_nat w) (bytes_prefix (rest s)) in
  Stream (drop (Z.to_nat w) (rest s)) (st_line s) (st_col s) c w bs
    (match pre s with Some l => Some (l ++ bs) | None => None end).

Definition st_eof (s : stream) : stream := set_st_ch (-1) (set_st_chw 0 (set_cur [] s)).

Definition st_round : GM string srcerr stream (unit + unit) :=
  modify (fun s => set_st_col (u64 (st_col s + st_chw s)) s);;;
  modify (fun s => if st_ch s =? 10 then set_st_col 0 (set_st_line (u64 (st_line s + 1)) s) else s);;;
  let* s := gets id in
  match rest s with
  | [] => modify st_eof;;; ret (inr tt)
  | Fault msg :: l =>
      st_error ("I/O error: " ++ msg)%string;;;
      modify (fun s => st_eof (set_rest l s));;; ret (inr tt)
  | Byte _ :: _ =>
      let '(c, w) := DecodeRune (bytes_prefix (rest s)) in
      modify (st_take c w);;;
      if (c =? RuneError) && (w =? 1) then
        st_error "invalid UTF-8 encoding";;; ret (inl tt)
      else if c =? BOM then
        let* s := gets id in
        when (0 <? st_line s) || (0 <? st_col s) do st_error "invalid BOM in the middle of the file";;;
        ret (inl tt)
      else ret (inr tt)
  end.

Definition st_left (s : stream) : nat :=
  (length (rest s) + (if (st_ch s =? -1)%Z then 0 else 1))%nat.

Definition st_nextch : GM string srcerr stream unit :=
  let* n := gets (fun s => S (st_left s)) in
  iterM n (fun _ => st_round) tt.

Definition st_rewind : GM string srcerr stream unit :=
  let* s := gets id in
  match pre s with
  | None => panic "no active segment"%string
  | Some bs =>
      modify (fun s => set_st_col (u64 (st_col s - u64 (lenZ bs))) s);;;
      modify (fun s => set_pre (Some []) (set_rest (map Byte bs ++ rest s) s));;;
      st_nextch
  end.

#[export] Instance stream_source : RuneSource stream := {|
  src_ch := st_ch; src_pos := st_pos; src_nextch := st_nextch; src_start := st_start;
  src_stop := st_stop; src_segment := st_segment; src_rewind := st_rewind; src_left := st_left
|}.

Definition st_init (input : list item) : stream := Stream input 0 0 32 0 [] None.

(** ** The abstraction function *)

Definition abs (s : source) : stream :=
  Stream (pending s) (line s) (col s) (ch s) (chw s)
    (slice (buf s) (r s - chw s) (r s))
    (if b s <? 0 then None else Some (slice (buf s) (b s) (r s))).

(** ** The representation invariant

    [wf_buf] is what every operation needs and keeps; the width conditions of
    [inv] hold between operations (they are broken inside [nextch] and [rewind]). *)

Record wf_buf (s : source) : Prop := {
  wf_b : -1 <= b s <= r s;
  wf_r : 0 <= r s <= e s;
  wf_e : e s < lenZ (buf s);
  wf_sentinel : nthZ 0 (buf s) (e s) = sentinel;
  wf_bytes : Forall is_byte (buf s);
  wf_script : Forall (fun x => Forall is_byte (r_data x)) (in_ s);
  wf_size : 4096 <= lenZ (buf s)
}.

Record inv (s : source) : Prop := {
  inv_buf : wf_buf s;
  inv_chw : 0 <= chw s <= r s;
  inv_seg : 0 <= b s -> b s <= r s - chw s;
  inv_ch : -1 <= ch s;
  inv_eof : ch s = -1 -> chw s = 0;
  inv_ascii : ch s < RuneSelf -> chw s <= 1;
  inv_cur : 0 <= ch s < RuneSelf -> ch s <> 32 -> slice (buf s) (r s - chw s) (r s) = [ch s];
  inv_high : RuneSelf <= ch s -> 1 <= chw s
}.

(** The bytes of the active segment and of the input to come: what a
    [rewind] makes readable. *)
Definition mark (s : source) : nat :=
  ((if (b s <? 0)%Z then 0 else Z.to_nat (r s - b s)) + length (pending s))%nat.

(** No NUL byte, in the input to come or in the active segment. *)
Definition no_nul (l : list item) : Prop := Forall (fun i => i <> Byte 0) l.

Definition nul_free (s : source) : Prop :=
  no_nul (pending s) /\
  (0 <= b s -> Forall (fun c => c <> 0) (slice (buf s) (b s) (r s))).

Lemma init_inv in_ : Forall (fun x => Forall is_byte (r_data x)) in_ -> inv (init in_).
Proof.
  intros Hin. split; [|unfold RuneSelf; cbn; lia..].
  assert (Hl : lenZ (buf (init in_)) = 4096) by reflexivity.
  split; try (rewrite Hl); try (cbn [init b r e]; lia).
  - done.
  - cbn [init buf]. constructor; [unfold is_byte, sentinel, RuneSelf; lia|].
    apply Forall_repeat. unfold is_byte. lia.
  - done.
Qed.

(** ** Filling the buffer *)

Lemma do_read_spec cap in_ data err in' quiet :
  0 < cap -> (quiet <= 9)%nat -> do_read cap in_ = (data, err, in') ->
  Forall (fun x => Forall is_byte (r_data x)) in_ ->
  lenZ data <= cap /\ Forall is_byte data /\
  Forall (fun x => Forall is_byte (r_data x)) in' /\
  script_items quiet in_ =
    map Byte data ++
    match err with
    | Some _ => after err in'
    | None =>
        match data with
        | [] => if (quiet <? 9)%nat then script_items (S quiet) in'
                else Fault "multiple Read calls return no data or error" :: script_items 0 in'
        | _ => script_items 0 in'
        end
    end.
Proof.
  intros Hcap Hq Hr Hin. destruct in_ as [|[d er] rest]; cbn [do_read r_data r_err] in Hr.
  { simplify_eq. split_and!; try constructor. change (lenZ (@nil Z)) with 0. lia. }
  inversion_clear Hin as [|? ? Hd Hrest]. cbn [r_data] in Hd.
  destruct (lenZ d <=? cap) eqn:E; simplify_eq; b2p.
  - split_and!; try done. destruct data as [|c d]; destruct err as [[|msg]|]; cbn [script_items map app after]; by rewrite ?app_nil_r.
  - assert (Ht : take (Z.to_nat cap) d <> []).
    { destruct d; [unfold lenZ in E; cbn in E; lia|]. destruct (Z.to_nat cap) eqn:E'; [lia|done]. }
    split_and!.
    + unfold lenZ. rewrite length_take. lia.
    + by apply Forall_take.
    + constructor; [by apply Forall_drop|done].
    + rewrite <- (take_drop (Z.to_nat cap) d) at 1.
      destruct (take (Z.to_nat cap) d) as [|c1 t1] eqn:Et; [done|].
      destruct (drop (Z.to_nat cap) d) as [|c2 t2] eqn:Ed.
      { apply (f_equal length) in Ed. rewrite length_drop in Ed. cbn in Ed. unfold lenZ in E. lia. }
      destruct er as [[|msg]|]; cbn [script_items map app after]; f_equal; rewrite map_app;
        cbn [map app]; by rewrite <- ?app_assoc.
Qed.

Section WriteAt.
Context (l : list byte) (i : Z) (data : list byte).
Hypothesis Hi : 0 <= i.
Hypothesis Hfit : i + lenZ data <= lenZ l.

Lemma write_at_length : lenZ (write_at l i data) = lenZ l.
Proof using Hi Hfit.
  unfold write_at, lenZ in *. rewrite !length_app, length_take, length_drop. lia.
Qed.

Lemma write_at_prefix k : 0 <= k <= i -> slice (write_at l i data) 0 k = slice l 0 k.
Proof using Hi Hfit.
  intros Hk. unfold write_at, slice, lenZ in *. rewrite !drop_0, take_app_le, take_take;
    [f_equal; lia|]. rewrite length_take. lia.
Qed.

Lemma write_at_data : slice (write_at l i data) 0 (i + lenZ data) = slice l 0 i ++ data.
Proof using Hi Hfit.
  unfold write_at, slice, lenZ in *. rewrite !drop_0, !Z.sub_0_r, app_assoc.
  rewrite take_app_le; [|rewrite length_app, length_take; lia].
  apply take_ge. rewrite length_app, length_take. lia.
Qed.

Lemma write_at_Forall (P : byte -> Prop) : Forall P l -> Forall P data -> Forall P (write_at l i data).
Proof using.
  intros. unfold write_at. rewrite !Forall_app. auto using Forall_take, Forall_drop.
Qed.
End WriteAt.

Lemma slice_last {A} (d : A) (l : list A) i : 0 <= i < lenZ l -> slice l i (i + 1) = [nthZ d l i].
Proof.
  intros Hi. by rewrite (slice_head d) by lia; rewrite slice_empty.
Qed.

Lemma write_at_nth l i x : 0 <= i < lenZ l -> nthZ 0 (write_at l i [x]) i = x.
Proof.
  intros Hi. assert (Hl : lenZ [x] = 1) by reflexivity.
  assert (Hlen : lenZ (write_at l i [x]) = lenZ l) by (apply write_at_length; lia).
  pose proof (write_at_data l i [x] ltac:(lia) ltac:(lia)) as Hd.
  rewrite Hl, (slice_split _ 0 i (i + 1)), write_at_prefix, (slice_last 0) in Hd by lia.
  by apply app_inv_head in Hd; injection Hd.
Qed.

Lemma write_at_nil l i : write_at l i [] = l.
Proof. unfold write_at. cbn [app length]. by rewrite Nat.add_0_r, take_drop. Qed.

(** What one [fill_loop] does to the part of the state it changes. *)
Record filled (s s' : source) (quiet : nat) (data : list byte) : Prop := {
  fl_b : b s' = b s;
  fl_r : r s' = r s;
  fl_pos : (line s', col s', ch s', chw s') = (line s, col s, ch s, chw s);
  fl_e : e s' = e s + lenZ data;
  fl_len : lenZ (buf s') = lenZ (buf s);
  fl_room : e s' < lenZ (buf s');
  fl_sentinel : nthZ 0 (buf s') (e s') = sentinel;
  fl_bytes : Forall is_byte (buf s');
  fl_script : Forall (fun x => Forall is_byte (r_data x)) (in_ s');
  fl_content : slice (buf s') 0 (e s') = slice (buf s) 0 (e s) ++ data;
  fl_progress : data <> [] \/ ioerr s' <> None;
  fl_items : map Byte data ++ after (ioerr s') (in_ s') = script_items quiet (in_ s)
}.

(** Writing delivered data and then the sentinel. *)
Lemma write_sentinel l i data :
  0 <= i -> i + lenZ data < lenZ l -> Forall is_byte l -> Forall is_byte data ->
  let l' := write_at (write_at l i data) (i + lenZ data) [sentinel] in
  lenZ l' = lenZ l /\ nthZ 0 l' (i + lenZ data) = sentinel /\ Forall is_byte l' /\
  slice l' 0 (i + lenZ data) = slice l 0 i ++ data.
Proof.
  intros Hi Hfit Hl Hd l'. pose proof (lenZ_nonneg data).
  assert (Hs : lenZ [sentinel] = 1) by reflexivity.
  assert (Hlen : lenZ (write_at l i data) = lenZ l) by (apply write_at_length; lia).
  unfold l'. split_and!.
  - rewrite write_at_length; lia.
  - apply write_at_nth. lia.
  - apply write_at_Forall; [by apply write_at_Forall|].
    repeat constructor; unfold sentinel, RuneSelf; lia.
  - rewrite write_at_prefix by lia. apply write_at_data; lia.
Qed.

(** The state after a read that delivers data or an error. *)
Lemma fill_deliver s quiet data err in' :
  (quiet <= 9)%nat -> 0 <= e s -> e s + 1 < lenZ (buf s) -> Forall is_byte (buf s) ->
  Forall (fun x => Forall is_byte (r_data x)) (in_ s) ->
  do_read (lenZ (buf s) - 1 - e s) (in_ s) = (data, err, in') ->
  (0 <? lenZ data) || is_some err = true ->
  filled s (set_buf (write_at (write_at (buf s) (e s) data) (e s + lenZ data) [sentinel])
             (set_e (e s + lenZ data)
               (set_ioerr err (set_in_ in' (set_buf (write_at (buf s) (e s) data) s))))) quiet data.
Proof.
  intros Hq He Hcap Hbuf Hin Hr Hok.
  apply (do_read_spec _ _ _ _ _ quiet) in Hr as (Hle & Hdata & Hin' & Hitems); [|lia|done|done].
  destruct (write_sentinel (buf s) (e s) data) as (Hlen & Hs & Hb & Hc); [lia..|done|done|].
  split; cbn [buf ioerr in_ b r e line col ch chw set_buf set_e set_ioerr set_in_]; try done.
  - lia.
  - destruct data as [|c data]; [|by left]. right. destruct err; done.
  - rewrite Hitems. f_equal. destruct err as [er|]; [done|]. destruct data; [done|]. done.
Qed.

Lemma fill_loop_S i s :
  fill_loop (S i) s =
  let '(data, err, in') := do_read (lenZ (buf s) - 1 - e s) (in_ s) in
  let s1 := set_ioerr err (set_in_ in' (set_buf (write_at (buf s) (e s) data) s)) in
  if (0 <? lenZ data) || is_some err then
    set_buf (write_at (buf s1) (e s + lenZ data) [sentinel]) (set_e (e s + lenZ data) s1)
  else fill_loop i s1.
Proof. reflexivity. Qed.

Lemma fill_loop_spec i s :
  (i <= 9)%nat -> 0 <= e s -> e s + 1 < lenZ (buf s) -> Forall is_byte (buf s) ->
  Forall (fun x => Forall is_byte (r_data x)) (in_ s) ->
  exists data, filled s (fill_loop (S i) s) (9 - i) data.
Proof.
  revert s. induction i as [|i IH]; intros s Hi He Hcap Hbuf Hin; rewrite fill_loop_S;
    destruct (do_read _ _) as [[data err] in'] eqn:Hr; cbv zeta;
    (destruct ((0 <? lenZ data) || is_some err) eqn:Hok;
      [exists data; eapply fill_deliver; eauto; lia|]);
    apply orb_false_iff in Hok as [Hd Herr]; (destruct err; [done|]);
    (destruct data as [|c data]; [|pose proof (lenZ_nonneg data); rewrite lenZ_cons in Hd; lia]).
  - apply (do_read_spec _ _ _ _ _ 9) in Hr as (_ & _ & Hin' & Hitems); [|lia|done|done].
    exists []. destruct (write_sentinel (buf s) (e s) []) as (Hlen & Hs & Hb & Hc);
      [lia|change (lenZ []) with 0; lia|done|constructor|].
    rewrite write_at_nil in *. change (lenZ []) with 0 in *. rewrite Z.add_0_r in *.
    split; cbn [buf ioerr in_ b r e line col ch chw set_buf set_e set_ioerr set_in_ fill_loop];
      rewrite ?write_at_nil; try done.
    + change (lenZ []) with 0. lia.
    + lia.
    + by right.
  - apply (do_read_spec _ _ _ _ _ (9 - S i)) in Hr as (_ & _ & Hin' & Hitems); [|lia..|done].
    rewrite write_at_nil.
    replace (9 - S i <? 9)%nat with true in Hitems by (symmetry; apply Nat.ltb_lt; lia).
    replace (S (9 - S i)) with (9 - i)%nat in Hitems by lia.
    set (s1 := set_ioerr None (set_in_ in' (set_buf (buf s) s))).
    destruct (IH s1) as (data & F); [lia|done..|]. exists data. destruct F.
    split; try done. by rewrite Hitems.
Qed.

(** The start of the content that [fill] keeps. *)
Definition base (s : source) : Z := if 0 <=? b s then b s else r s.

Lemma nextSize_grows n : 1 <= n -> n < nextSize n.
Proof.
  intros Hn. unfold nextSize. change (Z.shiftl 4 10) with 4096. change (Z.shiftl 1 20) with 1048576.
  rewrite Z.shiftl_mul_pow2 by lia. change (2 ^ 1) with 2.
  repeat case_test; b2p; lia.
Qed.

Record prepared (s s' : source) : Prop := {
  pr_b : b s' = if 0 <=? b s then 0 else -1;
  pr_r : r s' = r s - base s;
  pr_e : e s' = e s - base s;
  pr_pos : (line s', col s', ch s', chw s') = (line s, col s, ch s, chw s);
  pr_in : in_ s' = in_ s;
  pr_err : ioerr s' = ioerr s;
  pr_room : e s' + 1 < lenZ (buf s');
  pr_bytes : Forall is_byte (buf s');
  pr_size : 4096 <= lenZ (buf s');
  pr_content : slice (buf s') 0 (e s') = slice (buf s) (base s) (e s)
}.

Lemma fill_prepare_spec s : wf_buf s -> prepared s (fill_prepare s).
Proof.
  intros W. destruct W as [Wb Wr We Ws Wbytes Wscript Wsize]. unfold fill_prepare, base.
  set (bb := if 0 <=? b s then b s else r s).
  assert (Hbb : 0 <= bb <= r s) by (unfold bb; case_test; b2p; lia).
  set (sb := if 0 <=? b s then set_b 0 s else s).
  assert (Hsb : (in_ sb, buf sb, ioerr sb, r sb, e sb) = (in_ s, buf s, ioerr s, r s, e s) /\
    (line sb, col sb, ch sb, chw sb) = (line s, col s, ch s, chw s) /\
    b sb = if 0 <=? b s then 0 else -1).
  { unfold sb. destruct (0 <=? b s) eqn:E; b2p; [done|]. split_and!; [done|done|lia]. }
  destruct Hsb as (Hsb & Hpos & Hb0). injection Hsb as Hin Hbuf Hioe Hr He. cbv zeta.
  rewrite Hbuf, He.
  set (content := slice (buf s) bb (e s)).
  assert (Hc : lenZ content = e s - bb) by (unfold content; rewrite lenZ_slice; lia).
  assert (Hcb : Forall is_byte content) by by apply slice_Forall.
  assert (Hcs : forall l, slice (content ++ l) 0 (e s - bb) = content).
  { intros l. rewrite slice_app_l by lia. by apply slice_full. }
  assert (Hpos' : (line sb, col sb, ch sb, chw sb) = (line s, col s, ch s, chw s)) by done.
  injection Hpos' as ? ? ? ?.
  assert (Hgrow : lenZ (buf s) < nextSize (lenZ (buf s))) by (apply nextSize_grows; lia).
  destruct (lenZ (buf s) <? lenZ content * 2) eqn:E1; [|destruct (0 <? bb) eqn:E2]; b2p;
    split; cbn [buf ioerr in_ b r e line col ch chw set_buf set_e set_ioerr set_in_ set_r];
    rewrite ?Hbuf, ?He, ?Hr, ?Hin, ?Hioe; try done; try lia;
    rewrite ?lenZ_app, ?Hcs; try done;
    try (rewrite Forall_app; split; [done|by (apply Forall_repeat; unfold is_byte; lia) || by apply Forall_drop]).
  - rewrite lenZ_repeat; lia.
  - rewrite lenZ_repeat; lia.
  - rewrite lenZ_drop; fold (lenZ content); lia.
  - rewrite lenZ_drop; fold (lenZ content); lia.
  - unfold base. fold bb. replace bb with 0 by lia. by rewrite Z.sub_0_r.
Qed.

(** What [fill] does: the buffer keeps the content from [base] on, gets some
    more of the input, and nothing of the input is lost. *)
Record fill_post (s s' : source) (data : list byte) : Prop := {
  fp_wf : wf_buf s';
  fp_b : b s' = if 0 <=? b s then 0 else -1;
  fp_r : r s' = r s - base s;
  fp_e : e s' = e s - base s + lenZ data;
  fp_pos : (line s', col s', ch s', chw s') = (line s, col s, ch s, chw s);
  fp_content : slice (buf s') 0 (e s') = slice (buf s) (base s) (e s) ++ data;
  fp_progress : data <> [] \/ ioerr s' <> None;
  fp_items : map Byte data ++ after (ioerr s') (in_ s') = script_items 0 (in_ s)
}.

Lemma base_range s : wf_buf s -> 0 <= base s <= r s.
Proof. intros [? ? _ _ _ _ _]. unfold base. case_test; b2p; lia. Qed.

Lemma fill_spec s : wf_buf s -> exists data, fill_post s (fill s) data.
Proof.
  intros W. pose proof (fill_prepare_spec s W) as P. pose proof (base_range s W) as Hb.
  destruct P as [P1 P2 P3 P4 P5 P6 P7 P8 P9 P10]. destruct W as [Wb Wr We Ws Wbytes Wscript Wsize].
  assert (exists data, filled (fill_prepare s) (fill s) 0 data) as [data F].
  { unfold fill. apply (fill_loop_spec 9); [lia|lia|lia|done|by rewrite P5]. }
  generalize dependent (fill s). intros s' F. generalize dependent (fill_prepare s). intros s0 ? ?.
  intros. destruct F. exists data. pose proof (lenZ_nonneg data).
  split; try congruence; try lia.
  split; try congruence; try lia.
  rewrite fl_b0, fl_r0, P1, P2. unfold base in *. case_test; b2p; lia.
Qed.

(** [keeps s s']: the two states have the same view of the input. *)
Record keeps (s s' : source) : Prop := {
  kp_wf : wf_buf s';
  kp_b : (b s' <? 0) = (b s <? 0);
  kp_seg : slice (buf s') (base s') (r s') = slice (buf s) (base s) (r s);
  kp_pos : (line s', col s', ch s', chw s') = (line s, col s, ch s, chw s);
  kp_pending : pending s' = pending s;
  kp_avail : e s - r s <= e s' - r s'
}.

Lemma keeps_refl s : wf_buf s -> keeps s s.
Proof. intros. by split; try done; lia. Qed.

Lemma keeps_trans s1 s2 s3 : keeps s1 s2 -> keeps s2 s3 -> keeps s1 s3.
Proof. intros [] []. split; try congruence; lia. Qed.

Lemma fill_keeps s : wf_buf s -> ioerr s = None ->
  keeps s (fill s) /\ (e s - r s < e (fill s) - r (fill s) \/ ioerr (fill s) <> None).
Proof.
  intros W Herr. pose proof (base_range s W) as Hbr. destruct (fill_spec s W) as [data P].
  generalize dependent (fill s). intros s' [W' Pb Pr Pe Ppos Pc Pp Pi].
  destruct W as [Wb Wr We _ _ _ _]. pose proof (lenZ_nonneg data) as Hd.
  assert (Hbase : base s' = 0 \/ (base s' = r s' /\ base s = r s)).
  { unfold base in *. rewrite Pb. destruct (0 <=? b s) eqn:E; [by left|]. right. done. }
  assert (Hlen : lenZ (slice (buf s) (base s) (e s)) = e s - base s) by (rewrite lenZ_slice; lia).
  assert (Hseg : slice (buf s') 0 (r s') = slice (buf s) (base s) (r s)).
  { transitivity (slice (slice (buf s') 0 (e s')) 0 (r s')).
    - rewrite slice_slice by (destruct W'; lia). done.
    - rewrite Pc, slice_app_l, slice_slice by lia. f_equal; lia. }
  assert (Hrest : slice (buf s') (r s') (e s') = slice (buf s) (r s) (e s) ++ data).
  { apply (app_inv_head (slice (buf s') 0 (r s'))).
    rewrite <- slice_split by (destruct W'; lia). rewrite Pc, app_assoc, Hseg.
    by rewrite <- slice_split by lia. }
  split.
  - split; [done| | |done| |].
    + rewrite Pb. case_test; b2p; lia.
    + destruct Hbase as [->|[-> ->]]; [done|]. by rewrite !slice_empty.
    + unfold pending. rewrite Hrest, map_app, <- app_assoc, Pi, Herr. done.
    + lia.
  - destruct Pp as [Hne|?]; [left|by right].
    destruct data; [done|]. rewrite lenZ_cons in *. pose proof (lenZ_nonneg data). lia.
Qed.

Definition ready (s : source) : Prop :=
  UTFMax <= e s - r s \/ FullRune (slice (buf s) (r s) (e s)) = true \/ ioerr s <> None.

Lemma fill_rune_spec fuel s : wf_buf s -> UTFMax < Z.of_nat fuel + (e s - r s) ->
  keeps s (fill_rune fuel s) /\ ready (fill_rune fuel s).
Proof.
  revert s. induction fuel as [|fuel IH]; intros s W Hf; cbn [fill_rune].
  { split; [by apply keeps_refl|left; lia]. }
  destruct (e s - r s <? UTFMax) eqn:E1; [|split; [by apply keeps_refl|left; by apply Z.ltb_ge]].
  destruct (FullRune _) eqn:E2; [split; [by apply keeps_refl|right; by left]|].
  destruct (ioerr s) as [er|] eqn:E3; cbn [is_some negb andb];
    [split; [by apply keeps_refl|right; right; congruence]|].
  destruct (fill_keeps s W E3) as [K Hp]. pose proof (kp_wf _ _ K) as W'. b2p.
  destruct Hp as [Hp|Hp].
  - destruct (IH (fill s)) as [K' R']; [done|lia|]. split; [by eapply keeps_trans|done].
  - assert (Hstop : fill_rune fuel (fill s) = fill s).
    { destruct fuel; [done|]. cbn [fill_rune]. destruct (ioerr (fill s)); [|done].
      by rewrite andb_false_r. }
    rewrite Hstop. split; [done|]. by right; right.
Qed.

(** ** One character *)

Lemma bytes_prefix_app l tl : bytes_prefix (map Byte l ++ tl) = l ++ bytes_prefix tl.
Proof. induction l as [|c l IH]; [done|]. cbn [map app bytes_prefix]. by rewrite IH. Qed.

Lemma script_items_bytes in_ quiet :
  Forall (fun x => Forall is_byte (r_data x)) in_ ->
  Forall is_byte (bytes_prefix (script_items quiet in_)).
Proof.
  intros Hin. revert quiet. induction Hin as [|[d er] in_ Hd _ IH]; intros quiet; [constructor|].
  cbn [r_data] in Hd. cbn [script_items].
  assert (Happ : forall tl, Forall is_byte (bytes_prefix tl) ->
    Forall is_byte (bytes_prefix (map Byte d ++ tl))).
  { intros tl Htl. rewrite bytes_prefix_app. by apply Forall_app. }
  assert (Hnil : Forall is_byte (bytes_prefix (map Byte d))).
  { rewrite <- (app_nil_r (map Byte d)). apply Happ. constructor. }
  destruct d as [|c d]; destruct er as [[|msg]|]; try done.
  - case_match; [apply IH|constructor].
  - apply Happ. constructor.
  - apply Happ, IH.
Qed.

Lemma after_bytes err in_ :
  Forall (fun x => Forall is_byte (r_data x)) in_ -> Forall is_byte (bytes_prefix (after err in_)).
Proof. intros. destruct err as [[|msg]|]; cbn; [constructor..|by apply script_items_bytes]. Qed.

(** Moving the read index over [w] bytes is [st_take]. *)
Lemma consume_abs s c w :
  wf_buf s -> 0 <= w <= e s - r s ->
  abs (set_r (r s + w) (set_chw w (set_ch c s))) = st_take c w (abs s).
Proof.
  intros [Wb Wr We _ _ _ _] Hw. unfold abs, st_take, pending.
  cbn [buf ioerr in_ b r e line col ch chw set_r set_chw set_ch rest st_line st_col pre].
  assert (Hlen : length (slice (buf s) (r s) (r s + w)) = Z.to_nat w).
  { pose proof (lenZ_slice (buf s) (r s) (r s + w)) as H. unfold lenZ in *. lia. }
  assert (Hsp : slice (buf s) (r s) (e s) = slice (buf s) (r s) (r s + w) ++ slice (buf s) (r s + w) (e s))
    by (apply slice_split; lia).
  assert (Htake : take (Z.to_nat w) (bytes_prefix (map Byte (slice (buf s) (r s) (e s)) ++ after (ioerr s) (in_ s)))
    = slice (buf s) (r s) (r s + w)).
  { rewrite bytes_prefix_app, Hsp, <- app_assoc, <- Hlen. apply take_app_length. }
  rewrite Htake. f_equal.
  - rewrite Hsp, map_app, <- app_assoc, <- Hlen, <- (length_map Byte). by rewrite drop_app_length.
  - f_equal; lia.
  - destruct (b s <? 0) eqn:E; [done|]. b2p. f_equal. by apply slice_split; lia.
Qed.

Lemma consume_inv s c w :
  wf_buf s -> 1 <= w <= e s - r s -> 0 <= c ->
  (c < RuneSelf -> w = 1 /\ nthZ 0 (buf s) (r s) = c) ->
  inv (set_r (r s + w) (set_chw w (set_ch c s))).
Proof.
  intros [Wb Wr We Ws Wby Wsc Wsz] Hw Hc Hca.
  split; [split|..]; cbn [buf ioerr in_ b r e line col ch chw set_r set_chw set_ch];
    try done; try lia.
  intros [_ Hlow] _. destruct (Hca Hlow) as [-> Hn]. replace (r s + 1 - 1) with (r s) by lia.
  rewrite (slice_last 0) by lia. by rewrite Hn.
Qed.

Lemma eof_inv s : wf_buf s -> inv (set_chw 0 (set_ch (-1) s)).
Proof. intros [Wb Wr We Ws Wby Wsc Wsz]. split; [split|..]; unfold RuneSelf; cbn; (done || lia). Qed.

Lemma consume_nul_free s c w :
  wf_buf s -> nul_free s -> 0 <= w <= e s - r s ->
  nul_free (set_r (r s + w) (set_chw w (set_ch c s))).
Proof.
  intros W [Hp Hseg] Hw. pose proof (consume_abs s c w W Hw) as Habs.
  split.
  - change (no_nul (rest (abs (set_r (r s + w) (set_chw w (set_ch c s)))))). rewrite Habs.
    unfold st_take. cbn [rest]. by apply Forall_drop.
  - cbn [buf b r set_r set_chw set_ch]. intros Hb. destruct W.
    rewrite (slice_split _ _ (r s)) by lia. apply Forall_app. split; [by apply Hseg|].
    unfold pending, no_nul in Hp. apply Forall_app in Hp as [Hp _].
    rewrite (slice_split _ _ (r s + w)), map_app in Hp by lia. apply Forall_app in Hp as [Hp _].
    apply (proj1 (List.Forall_map Byte (fun i => i <> Byte 0) _)) in Hp. refine (List.Forall_impl _ _ Hp). cbn. congruence.
Qed.

(** The step before a character is read: the position moves over the current one. *)
Definition advance (s : source) : source :=
  let s := set_col (u64 (col s + chw s)) s in
  if ch s =? 10 then set_col 0 (set_line (u64 (line s + 1)) s) else s.

Definition st_advance (s : stream) : stream :=
  let s := set_st_col (u64 (st_col s + st_chw s)) s in
  if st_ch s =? 10 then set_st_col 0 (set_st_line (u64 (st_line s + 1)) s) else s.

Lemma advance_abs s : abs (advance s) = st_advance (abs s).
Proof. unfold advance, st_advance. cbn [ch set_col abs st_ch set_st_col]. by case_test. Qed.

Lemma advance_same s :
  (in_ (advance s), buf (advance s), ioerr (advance s), b (advance s), r (advance s), e (advance s),
   ch (advance s), chw (advance s)) =
  (in_ s, buf s, ioerr s, b s, r s, e s, ch s, chw s).
Proof. unfold advance. cbn [ch set_col]. by case_test. Qed.

Lemma wf_buf_same s s' :
  (in_ s', buf s', b s', r s', e s') = (in_ s, buf s, b s, r s, e s) -> wf_buf s -> wf_buf s'.
Proof. intros Heq []. injection Heq as ? ? ? ? ?. split; congruence || lia. Qed.

Lemma nul_free_same s s' :
  (in_ s', buf s', ioerr s', b s', r s', e s') = (in_ s, buf s, ioerr s, b s, r s, e s) ->
  nul_free s -> nul_free s'.
Proof.
  unfold nul_free, pending. intros Heq. by injection Heq as -> -> -> -> -> ->.
Qed.

(** The rounds after the position has moved. *)
Definition round_tail : GM string srcerr source (unit + unit) :=
  modify (fun s => set_ch (nthZ 0 (buf s) (r s)) s);;;
  let* s := gets id in
  if ch s <? sentinel then
    modify (fun s => set_chw 1 (set_r (r s + 1) s));;;
    if ch s =? 0 then error "invalid NUL character";;; ret (inl tt)
    else ret (inr tt)
  else
    modify (fill_rune 5);;;
    let* s := gets id in
    if r s =? e s then
      match ioerr s with
      | Some (IOError msg) =>
          error ("I/O error: " ++ msg)%string;;;
          modify (set_ioerr None)
      | _ => ret tt
      end;;;
      modify (fun s => set_chw 0 (set_ch (-1) s));;;
      ret (inr tt)
    else
      let '(c, w) := DecodeRune (slice (buf s) (r s) (e s)) in
      modify (fun s => set_r (r s + w) (set_chw w (set_ch c s)));;;
      if (c =? RuneError) && (w =? 1) then
        error "invalid UTF-8 encoding";;; ret (inl tt)
      else if c =? BOM then
        let* s := gets id in
        when (0 <? line s) || (0 <? col s) do error "invalid BOM in the middle of the file";;;
        ret (inl tt)
      else ret (inr tt).

Definition st_tail : GM string srcerr stream (unit + unit) :=
  let* s := gets id in
  match rest s with
  | [] => modify st_eof;;; ret (inr tt)
  | Fault msg :: l =>
      st_error ("I/O error: " ++ msg)%string;;;
      modify (fun s => st_eof (set_rest l s));;; ret (inr tt)
  | Byte _ :: _ =>
      let '(c, w) := DecodeRune (bytes_prefix (rest s)) in
      modify (st_take c w);;;
      if (c =? RuneError) && (w =? 1) then
        st_error "invalid UTF-8 encoding";;; ret (inl tt)
      else if c =? BOM then
        let* s := gets id in
        when (0 <? st_line s) || (0 <? st_col s) do st_error "invalid BOM in the middle of the file";;;
        ret (inl tt)
      else ret (inr tt)
  end.

Lemma nextch_round_eq s : nextch_round s = round_tail (advance s).
Proof. unfold nextch_round. rewrite bind_modify, bind_modify. reflexivity. Qed.

Lemma st_round_eq s : st_round s = st_tail (st_advance s).
Proof. unfold st_round. rewrite bind_modify, bind_modify. reflexivity. Qed.

(** The active segment with the current character. *)
Definition full_segment (s : source) : list byte := slice (buf s) (b s) (r s).

Definition current_bytes (s : source) : list byte := slice (buf s) (r s - chw s) (r s).

(** What reading one character from [s] does to the segment and the position:
    the segment stays active or not and grows by the bytes of the character,
    and what a [rewind] makes readable does not grow. *)
Record consumed (s s' : source) : Prop := {
  cs_b : (b s' <? 0) = (b s <? 0);
  cs_mark : (mark s' <= mark s)%nat;
  cs_seg : 0 <= b s -> exists c, full_segment s' = full_segment s ++ c /\ lenZ c = chw s';
  cs_pos : (line s', col s') = (line s, col s)
}.

Lemma consume_consumed s c w :
  wf_buf s -> 0 <= w <= e s - r s -> consumed s (set_r (r s + w) (set_chw w (set_ch c s))).
Proof.
  intros W Hw. pose proof (consume_abs s c w W Hw) as H. split; [done| | |done].
  - unfold mark. change (pending (set_r (r s + w) (set_chw w (set_ch c s)))) with
      (rest (abs (set_r (r s + w) (set_chw w (set_ch c s))))).
    rewrite H. unfold st_take. cbn [rest abs b r set_r set_chw set_ch]. rewrite length_drop.
    assert (Hl : (Z.to_nat w <= length (pending s))%nat).
    { unfold pending. rewrite length_app, length_map. pose proof (lenZ_slice (buf s) (r s) (e s)) as L.
      unfold lenZ in L. destruct W. unfold lenZ in *. lia. }
    destruct W. case_test; b2p; lia.
  - intros Hb. exists (slice (buf s) (r s) (r s + w)). destruct W. unfold full_segment.
    cbn [buf b r chw set_r set_chw set_ch]. split; [apply slice_split; lia|].
    rewrite lenZ_slice by lia. lia.
Qed.

Lemma keeps_consumed c s s2 s' :
  wf_buf s -> keeps (set_ch c s) s2 -> consumed s2 s' -> consumed s s'.
Proof.
  intros W [W' Hb Hseg Hpos Hp _] [Cb Cm Cs Cp]. cbn [b r buf set_ch] in *.
  unfold base in Hseg. cbn [b r set_ch] in Hseg.
  assert (Hf : 0 <= b s -> full_segment s2 = full_segment s).
  { intros. rewrite !(proj2 (Z.leb_le _ _)) in Hseg by lia. exact Hseg. }
  split.
  - by rewrite Cb.
  - transitivity (mark s2); [done|]. unfold mark. rewrite Hb, Hp.
    change (pending (set_ch c s)) with (pending s). destruct (b s <? 0) eqn:E; [lia|]. b2p.
    specialize (Hf E). apply (f_equal lenZ) in Hf. unfold full_segment in Hf.
    destruct W, W'. rewrite !lenZ_slice in Hf by lia. lia.
  - intros H0. rewrite <- (Hf H0). apply Cs. lia.
  - rewrite Cp. cbn [line col ch chw set_ch] in Hpos. congruence.
Qed.

(** The result of a round of the buffered reader, what is left to read after
    it, and, under the condition [N], the same result on the stream. *)
Definition round_ok (N : Prop) (s : source) (res1 : res string ((unit + unit) * source * list srcerr))
    (res2 : res string ((unit + unit) * stream * list srcerr)) : Prop :=
  exists x s' t, res1 = Ok (x, s', t) /\ inv s' /\
    consumed s s' /\ (if x is inl _ then ch s' <> 10 /\ high_bytes (current_bytes s') else True) /\
    ((if x is inl _ then S (length (pending s')) else left s') <= length (pending s))%nat /\
    (N -> res2 = Ok (x, abs s', t) /\ nul_free s').

(** Decoding from the buffer is decoding from the input. *)
Lemma decode_ready s :
  wf_buf s -> ready s ->
  DecodeRune (bytes_prefix (pending s)) = DecodeRune (slice (buf s) (r s) (e s)).
Proof.
  intros [Wb Wr We _ Wby Wsc _] R. unfold pending. rewrite bytes_prefix_app.
  assert (Hb : Forall is_byte (slice (buf s) (r s) (e s))) by by apply slice_Forall.
  assert (Ha : Forall is_byte (bytes_prefix (after (ioerr s) (in_ s)))) by by apply after_bytes.
  destruct R as [R|[R|R]].
  - apply FullRune_stable; [done..|]. apply FullRune_long; [done|]. rewrite lenZ_slice by lia. done.
  - by apply FullRune_stable.
  - destruct (ioerr s) as [[|msg]|]; [| |done]; cbn [after bytes_prefix]; by rewrite app_nil_r.
Qed.

Lemma decode_ascii c q : Forall is_byte (c :: q) -> c < RuneSelf -> DecodeRune (c :: q) = (c, 1).
Proof. intros Hb Hc. rewrite DecodeRune_ref by done. cbn [decode_ref]. unfold RuneSelf in Hc. by decide_tests. Qed.

(** The bytes of the characters that [nextch] skips. *)
Lemma skipped_high p c w :
  Forall is_byte p -> p <> [] -> DecodeRune p = (c, w) -> (c = RuneError /\ w = 1) \/ c = BOM ->
  high_bytes (take (Z.to_nat w) p).
Proof.
  intros Hp Hne Hd [[-> ->]|Hc].
  - destruct p as [|c0 q]; [done|]. constructor; [|constructor]. right.
    destruct (Z.ltb_spec c0 RuneSelf) as [Hlt|]; [|done]. rewrite decode_ascii in Hd by done.
    injection Hd as ->. done.
  - destruct (DecodeRune_sound p c w) as (_ & -> & ->); [done..| |].
    { intros [-> _]. done. }
    rewrite Hc. replace (encode BOM) with [0xEF; 0xBB; 0xBF] by reflexivity.
    change (Z.to_nat (RuneLen BOM)) with 3%nat. cbn [take app]. unfold high_bytes, RuneSelf.
    repeat (constructor; [lia|]). constructor.
Qed.

(** Both sides decode a rune [c] of width [w] and report it the same way. *)
Lemma decoded_round s :
  wf_buf s -> ready s -> r s < e s ->
  round_ok (nul_free s) s
    ((let '(c, w) := DecodeRune (slice (buf s) (r s) (e s)) in
      modify (fun s => set_r (r s + w) (set_chw w (set_ch c s)));;;
      if (c =? RuneError) && (w =? 1) then
        error "invalid UTF-8 encoding";;; ret (inl tt)
      else if c =? BOM then
        let* s := gets id in
        when (0 <? line s) || (0 <? col s) do error "invalid BOM in the middle of the file";;;
        ret (inl tt)
      else ret (inr tt)) s) (st_tail (abs s)).
Proof.
  intros W R Hlt. pose proof (decode_ready s W R) as Hdec.
  assert (Hby : Forall is_byte (slice (buf s) (r s) (e s))) by (destruct W; by apply slice_Forall).
  assert (Hne : slice (buf s) (r s) (e s) <> []).
  { intros Hnil. apply (f_equal lenZ) in Hnil. rewrite lenZ_slice in Hnil by (destruct W; lia).
    change (lenZ []) with 0 in Hnil. lia. }
  unfold st_tail. rewrite bind_gets. cbn [id]. change (rest (abs s)) with (pending s).
  rewrite Hdec. destruct (DecodeRune (slice (buf s) (r s) (e s))) as [c w] eqn:Ed.
  pose proof (DecodeRune_width _ c w Hby Hne Ed) as [Hw Hwl].
  pose proof (DecodeRune_nonneg _ Hby) as Hc. rewrite Ed in Hc. cbn [fst] in Hc.
  rewrite lenZ_slice in Hwl by (destruct W; lia).
  destruct (pending s) as [|[c0|msg] l] eqn:Ep.
  1,3: unfold pending in Ep; destruct (slice (buf s) (r s) (e s)); done.
  rewrite !bind_modify, <- consume_abs by (done || lia).
  set (s' := set_r (r s + w) (set_chw w (set_ch c s))).
  assert (I' : inv s').
  { apply consume_inv; [done|lia|lia|]. intros Hlow.
    destruct (DecodeRune_low _ c w Hby Hne Ed Hlow) as [-> Hsl]. split; [done|].
    destruct W. rewrite (slice_head 0) in Hsl by lia. by injection Hsl. }
  assert (Hs : consumed s s') by (apply consume_consumed; (done || lia)).
  assert (Hhigh : (c = RuneError /\ w = 1) \/ c = BOM -> high_bytes (current_bytes s')).
  { intros Hcw. pose proof (skipped_high _ _ _ Hby Hne Ed Hcw) as Hh.
    unfold current_bytes. cbn [s' buf r chw set_r set_chw set_ch].
    unfold slice in Hh. rewrite take_take in Hh. unfold slice.
    replace (r s + w - w) with (r s) by lia.
    replace (Z.to_nat (r s + w - r s)) with (Z.to_nat w `min` Z.to_nat (e s - r s))%nat by lia.
    exact Hh. }
  assert (N' : nul_free s -> nul_free s') by (intros N; apply consume_nul_free; (done || lia)).
  assert (Hl : (length (pending s') + 1 <= length (pending s))%nat).
  { change (pending s') with (rest (abs s')). unfold s'. rewrite consume_abs by (done || lia).
    unfold st_take. cbn [rest abs]. rewrite length_drop, Ep. cbn [length]. lia. }
  unfold round_ok, error, st_error.
  destruct ((c =? RuneError) && (w =? 1)) eqn:Eerr.
  { apply andb_true_iff in Eerr as [Eerr Eone]. apply Z.eqb_eq in Eerr, Eone.
    eexists (inl tt), s', _.
    split_and!; [reflexivity|done|done|cbn; rewrite Eerr; done|by auto|rewrite Nat.add_comm in Hl; exact Hl|by auto]. }
  destruct (c =? BOM) eqn:Ebom.
  - apply Z.eqb_eq in Ebom. rewrite !bind_gets. cbn [id]. change (st_line (abs s')) with (line s').
    change (st_col (abs s')) with (col s').
    destruct ((0 <? line s') || (0 <? col s')); eexists (inl tt), s', _;
      (split_and!; [reflexivity|done|done|cbn; rewrite Ebom; done|by auto|rewrite Nat.add_comm in Hl; exact Hl|by auto]).
  - exists (inr tt), s', []. split_and!; [done|done|done|done| |by auto].
    unfold left. destruct (ch s' =? -1); lia.
Qed.

(** [st_tail] overwrites the current character. *)
Lemma st_tail_indep c bs st : st_tail (set_st_ch c (set_cur bs st)) = st_tail st.
Proof.
  unfold st_tail. rewrite !bind_gets. destruct st as [l ? ? ? ? ? ?]. cbn [id rest set_st_ch set_cur].
  destruct l as [|[x|msg] l]; [reflexivity| |reflexivity].
  destruct (DecodeRune _) as [c' w]. by rewrite !bind_modify.
Qed.

Lemma keeps_tail c s s' : keeps (set_ch c s) s' -> st_tail (abs s') = st_tail (abs s).
Proof.
  intros [_ Hb Hseg Hpos Hp _]. cbn [line col ch chw set_ch] in Hpos. injection Hpos as Hl Hc Hch Hw.
  assert (Heq : abs s' = set_st_ch (ch s') (set_cur (cur (abs s')) (abs s))).
  { unfold abs. cbn [set_st_ch set_cur rest st_line st_col st_ch st_chw cur pre].
    cbn [b r buf set_ch] in *. rewrite Hl, Hc, Hw, Hp, Hb. f_equal.
    unfold base in Hseg. cbn [b r set_ch] in Hseg.
    destruct (b s <? 0) eqn:E; [done|]. b2p. rewrite !(proj2 (Z.leb_le _ _)) in Hseg by lia.
    by rewrite Hseg. }
  rewrite Heq. apply st_tail_indep.
Qed.

Lemma keeps_nul_free c s s' : keeps (set_ch c s) s' -> nul_free s -> nul_free s'.
Proof.
  intros [_ Hb Hseg _ Hp _] [N1 N2]. split; [by rewrite Hp|]. intros Hb'.
  cbn [b r buf set_ch] in *. unfold base in Hseg. cbn [b r set_ch] in Hseg.
  rewrite !(proj2 (Z.leb_le _ _)) in Hseg by lia. rewrite Hseg. apply N2. lia.
Qed.

Lemma round_ok_keeps c s s2 r1 r2 :
  wf_buf s -> keeps (set_ch c s) s2 -> round_ok (nul_free s2) s2 r1 r2 -> round_ok (nul_free s) s r1 r2.
Proof.
  intros W K (x & s' & t & ? & ? & ? & ? & ? & Hr). exists x, s', t.
  pose proof (kp_pending _ _ K) as Hp. change (pending (set_ch c s)) with (pending s) in Hp.
  rewrite <- Hp. split_and!; try done; [by eapply keeps_consumed|].
  intros N. by apply Hr, (keeps_nul_free c s).
Qed.

(** A byte below the sentinel is the next character, NUL apart. *)
Lemma ascii_round s :
  wf_buf s -> (nthZ 0 (buf s) (r s) <? sentinel) = true ->
  round_ok (nul_free s) s
    ((modify (fun s => set_chw 1 (set_r (r s + 1) s));;;
      if nthZ 0 (buf s) (r s) =? 0 then error "invalid NUL character";;; ret (inl tt)
      else ret (inr tt)) (set_ch (nthZ 0 (buf s) (r s)) s)) (st_tail (abs s)).
Proof.
  intros W. set (c := nthZ 0 (buf s) (r s)). intros Ec.
  assert (Hlt : r s < e s).
  { destruct W. destruct (Z.eq_dec (r s) (e s)) as [He|]; [|lia].
    unfold c in Ec. rewrite He, wf_sentinel0 in Ec. done. }
  assert (Hs : slice (buf s) (r s) (e s) = c :: slice (buf s) (r s + 1) (e s))
    by (destruct W; apply slice_head; lia).
  assert (Hby : Forall is_byte (slice (buf s) (r s) (e s))) by (destruct W; by apply slice_Forall).
  assert (Hd : DecodeRune (slice (buf s) (r s) (e s)) = (c, 1)).
  { rewrite Hs in *. apply decode_ascii; [done|]. by apply Z.ltb_lt. }
  assert (Hready : ready s).
  { right; left. rewrite Hs in *. inversion_clear Hby as [|? ? Hc _].
    unfold FullRune. rewrite lenZ_cons, nthZ_0, first_class_eq by done.
    pose proof (lenZ_nonneg (slice (buf s) (r s + 1) (e s))).
    unfold first_class. unfold sentinel, RuneSelf in Ec. b2p. decide_tests.
    change (Z.land as_ 7) with 0. by decide_tests. }
  pose proof (decoded_round s W Hready Hlt) as H. rewrite Hd, bind_modify in H.
  unfold sentinel, RuneSelf in Ec. unfold RuneError, BOM in H. b2p.
  replace (c =? 0xFFFD) with false in H by (symmetry; apply Z.eqb_neq; lia).
  replace (c =? 0xFEFF) with false in H by (symmetry; apply Z.eqb_neq; lia).
  cbn [andb] in H. rewrite bind_modify. destruct (c =? 0) eqn:Ez; [|exact H].
  b2p. destruct H as (x & s' & t & H & I & Hs' & _ & Hm & _). injection H as <- <- <-.
  eexists (inl tt), _, _. unfold error. rewrite bind_assoc, bind_gets, bind_emit.
  split_and!; [reflexivity|exact I|exact Hs'|cbn; by rewrite Ez| | |].
  - unfold current_bytes. cbn [buf r chw set_r set_chw set_ch].
    replace (r s + 1 - 1) with (r s) by lia. rewrite (slice_last 0) by (destruct W; lia).
    constructor; [by left|constructor].
  - cbn in Hm. unfold left in Hm. cbn [ch set_r set_chw set_ch] in Hm. rewrite Ez in Hm.
    cbn in Hm. rewrite Nat.add_1_r in Hm. exact Hm.
  - intros [Np _]. unfold pending, no_nul in Np. rewrite Hs in Np. cbn [map app] in Np.
    inversion_clear Np. congruence.
Qed.

Lemma eof_consumed s s' :
  (buf s', b s', r s', line s', col s', chw s') = (buf s, b s, r s, line s, col s, 0) ->
  (mark s' <= mark s)%nat -> consumed s s'.
Proof.
  intros Heq Hm. injection Heq as Hbuf Hb Hr Hl Hc Hw. split; try congruence.
  intros _. exists []. unfold full_segment. rewrite Hbuf, Hb, Hr, Hw. by rewrite app_nil_r.
Qed.

(** The buffer is used up: end of the input, or an I/O error. *)
Lemma eof_round s :
  wf_buf s -> r s = e s -> ready s ->
  round_ok (nul_free s) s
    ((match ioerr s with
      | Some (IOError msg) => error ("I/O error: " ++ msg)%string;;; modify (set_ioerr None)
      | _ => ret tt
      end;;;
      modify (fun s => set_chw 0 (set_ch (-1) s));;; ret (inr tt)) s) (st_tail (abs s)).
Proof.
  intros W Ere R. assert (Hsl : slice (buf s) (r s) (e s) = []) by (rewrite Ere; apply slice_empty).
  assert (Hcur : slice (buf s) (r s - 0) (r s) = []) by (rewrite Z.sub_0_r; apply slice_empty).
  unfold st_tail. rewrite bind_gets. cbn [id]. change (rest (abs s)) with (pending s).
  destruct (ioerr s) as [[|msg]|] eqn:Eio.
  - rewrite bind_ret, bind_modify. exists (inr tt), (set_chw 0 (set_ch (-1) s)), [].
    assert (Hp : pending s = []) by (unfold pending; by rewrite Hsl, Eio). rewrite Hp.
    rewrite bind_modify. split_and!; [done|by apply eof_inv|by apply eof_consumed|done| |].
    + unfold left. change (pending (set_chw 0 (set_ch (-1) s))) with (pending s). by rewrite Hp.
    + intros N. split; [|done]. unfold abs. cbn. rewrite Hcur. done.
  - set (s3 := set_chw 0 (set_ch (-1) (set_ioerr None s))).
    assert (Hp : pending s = Fault msg :: pending s3).
    { unfold pending at 1. rewrite Hsl, Eio. cbn [map app after]. f_equal.
      unfold pending. cbn [s3 buf r e set_chw set_ch set_ioerr]. by rewrite Hsl. }
    rewrite Hp. unfold error, st_error.
    eexists (inr tt), s3, _. rewrite bind_assoc, bind_assoc, !bind_gets, !bind_emit, !bind_modify.
    split_and!; [reflexivity|apply eof_inv; by apply (wf_buf_same s)| |done| |].
    + apply eof_consumed; try done. unfold mark. rewrite Hp. change (b s3) with (b s). change (r s3) with (r s).
      cbn [length]. lia.
    + rewrite Hp. unfold left. change (ch s3) with (-1). cbn [length Z.eqb Pos.eqb]. lia.
    + intros [N N']. split.
      * unfold abs at 2. cbn [s3 buf b r e line col ch chw set_chw set_ch set_ioerr].
        fold s3. rewrite Hcur. reflexivity.
      * rewrite Hp in N. inversion_clear N. by split.
  - exfalso. destruct R as [R|[R|R]]; [unfold UTFMax in R; lia|by rewrite Hsl in R|done].
Qed.

Lemma round_tail_ok s :
  wf_buf s -> round_ok (nul_free s) s (round_tail s) (st_tail (abs s)).
Proof.
  intros W. unfold round_tail. rewrite bind_modify, bind_gets. cbn [id ch set_ch].
  set (c := nthZ 0 (buf s) (r s)). destruct (c <? sentinel) eqn:Ec; [by apply ascii_round|].
  rewrite bind_modify, bind_gets. cbn [id].
  assert (W1 : wf_buf (set_ch c s)) by (by apply (wf_buf_same s)).
  destruct (fill_rune_spec 5 (set_ch c s) W1) as [K R]; [destruct W; unfold UTFMax; cbn; lia|].
  generalize dependent (fill_rune 5 (set_ch c s)). intros s2 K R.
  rewrite <- (keeps_tail _ _ _ K). pose proof (kp_wf _ _ K) as W2.
  apply (round_ok_keeps c s s2); [done|done|].
  destruct (r s2 =? e s2) eqn:Ere; [by apply eof_round; [|apply Z.eqb_eq|]|].
  apply decoded_round; try done. destruct W2. b2p. lia.
Qed.
(** ** The operations of the reader against those of the stream *)

Lemma advance_ok s :
  wf_buf s -> wf_buf (advance s) /\ pending (advance s) = pending s /\ mark (advance s) = mark s /\
  (nul_free s -> nul_free (advance s)).
Proof.
  intros W. pose proof (advance_same s) as H. injection H as Hin Hbuf Hio Hb Hr He Hch Hchw.
  split_and!.
  - apply (wf_buf_same s); [congruence|done].
  - unfold pending. congruence.
  - unfold mark, pending. by rewrite Hin, Hbuf, Hio, Hb, Hr, He.
  - apply nul_free_same. congruence.
Qed.

Lemma nextch_round_ok s :
  wf_buf s ->
  round_ok (nul_free (advance s)) (advance s) (nextch_round s) (st_round (abs s)).
Proof.
  intros W. rewrite nextch_round_eq, st_round_eq, <- advance_abs.
  by apply round_tail_ok, advance_ok.
Qed.

(** What [nextch] does to the segment and the position: it may skip bytes
    before the new current character. *)
Record stepped (s s' : source) : Prop := {
  sp_b : (b s' <? 0) = (b s <? 0);
  sp_mark : (mark s' <= mark s)%nat;
  sp_seg : 0 <= b s -> exists skipped c,
    full_segment s' = full_segment s ++ skipped ++ c /\ lenZ c = chw s' /\ high_bytes skipped /\
    (ch s <> 10 -> line s' = line s /\ col s' = u64 (col s + chw s + lenZ skipped))
}.

Lemma u64_add_l a b : u64 (u64 a + b) = u64 (a + b).
Proof. unfold u64. by rewrite Z.add_mod_idemp_l. Qed.

Lemma advance_pos s : ch s <> 10 -> line (advance s) = line s /\ col (advance s) = u64 (col s + chw s).
Proof. intros H. unfold advance. cbn [ch set_col]. by rewrite (proj2 (Z.eqb_neq _ _) H). Qed.

Lemma full_segment_advance s : full_segment (advance s) = full_segment s.
Proof.
  pose proof (advance_same s) as H. injection H as _ Hbuf _ Hb Hr _ _ _.
  unfold full_segment. by rewrite Hbuf, Hb, Hr.
Qed.

Lemma consumed_stepped s s' : wf_buf s -> consumed (advance s) s' -> stepped s s'.
Proof.
  intros W [Cb Cm Cs Cp]. destruct (advance_ok s W) as (_ & _ & Hm & _).
  pose proof (advance_same s) as H. injection H as _ _ _ Hb _ _ _ _.
  split; [by rewrite Cb, Hb|by rewrite <- Hm|]. intros H0.
  destruct Cs as (c & Hf & Hc); [by rewrite Hb|]. rewrite full_segment_advance in Hf.
  exists [], c. split_and!; [done|done|constructor|]. intros Hn. destruct (advance_pos s Hn) as [Hl Hcol].
  injection Cp as -> ->. rewrite Hcol. split; [done|]. f_equal. change (lenZ (@nil byte)) with 0. lia.
Qed.

Lemma current_chars s c :
  inv s -> 0 <= b s -> forall f, full_segment s = f ++ c -> lenZ c = chw s -> current_bytes s = c.
Proof.
  intros [[] ? Hs ? ? ? ?] Hb f Hf Hc. specialize (Hs Hb).
  unfold full_segment in Hf. rewrite (slice_split _ (b s) (r s - chw s)) in Hf by lia.
  apply app_inj_2 in Hf as [_ Hf]; [done|].
  pose proof (lenZ_slice (buf s) (r s - chw s) (r s)) as H. unfold lenZ in *. lia.
Qed.

Lemma stepped_trans s s1 s2 : wf_buf s -> inv s1 -> consumed (advance s) s1 ->
  ch s1 <> 10 /\ high_bytes (current_bytes s1) -> stepped s1 s2 -> stepped s s2.
Proof.
  intros W I1 C [Hn Hh] [Sb Sm Ss]. pose proof (cs_seg _ _ C) as Cs. pose proof (cs_pos _ _ C) as Cp.
  pose proof (advance_same s) as H. injection H as _ _ _ Hb _ _ _ _. rewrite Hb in Cs.
  destruct (consumed_stepped s s1 W C) as [C1b C1m _].
  split; [by rewrite Sb|lia|]. intros H0.
  destruct (Cs H0) as (c & Hf & Hc). rewrite full_segment_advance in Hf.
  assert (H1 : 0 <= b s1) by lia. destruct (Ss H1) as (sk & c' & Hf' & Hc' & Hsk & Hp).
  rewrite (current_chars s1 c I1 H1 _ Hf Hc) in Hh.
  exists (c ++ sk), c'. rewrite Hf', Hf.
  split_and!; [by rewrite <- !app_assoc|done|by apply Forall_app|].
  intros Hn0. destruct (Hp Hn) as [Hl Hcol]. destruct (advance_pos s Hn0) as [Hal Hac].
  injection Cp as Hl1 Hc1. rewrite Hcol, Hl, Hl1, Hc1, Hac. split; [done|].
  rewrite <- Z.add_assoc, u64_add_l, lenZ_app. f_equal. lia.
Qed.

(** The rounds of [nextch], with enough fuel on both sides. *)
Lemma rounds_ok n m : forall s,
  wf_buf s -> (length (pending s) < n)%nat -> (length (pending s) < m)%nat ->
  exists s' t,
    iterM n (fun _ : unit => nextch_round) tt s = Ok (tt, s', t) /\ inv s' /\
    stepped s s' /\ (left s' <= length (pending s))%nat /\
    (nul_free s ->
     iterM m (fun _ : unit => st_round) tt (abs s) = Ok (tt, abs s', t) /\ nul_free s').
Proof.
  revert m. induction n as [|n IH]; intros m s W Hn Hm; [lia|]. destruct m as [|m]; [lia|].
  destruct (nextch_round_ok s W) as (x & s1 & t1 & H1 & I1 & C & Hx & Hl & HN).
  destruct (advance_ok s W) as (_ & Hp & _ & HNa). rewrite Hp in Hl. cbn [iterM].
  rewrite (bind_Ok _ _ _ _ _ _ H1). destruct x as [[]|[]].
  - destruct (IH m s1) as (s2 & t2 & H2 & I2 & Hs2 & Hl2 & HN2); [by destruct I1|lia|lia|].
    rewrite H2. exists s2, (t1 ++ t2). split_and!; [done|done|by apply (stepped_trans s s1)|lia|].
    intros N. destruct (HN (HNa N)) as [H1' N1]. rewrite (bind_Ok _ _ _ _ _ _ H1').
    destruct (HN2 N1) as [-> N2]. done.
  - exists s1, (t1 ++ []). split_and!; [done|done|by apply consumed_stepped|done|].
    intros N. destruct (HN (HNa N)) as [H1' N1]. by rewrite (bind_Ok _ _ _ _ _ _ H1').
Qed.

(** [nextch] returns, keeps the invariant and uses up a byte or reaches the
    end; on input without NUL it does what [st_nextch] does. *)
Lemma nextch_ok s :
  wf_buf s -> exists s' t,
    nextch s = Ok (tt, s', t) /\ inv s' /\ stepped s s' /\ (left s' <= length (pending s))%nat /\
    (nul_free s -> st_nextch (abs s) = Ok (tt, abs s', t) /\ nul_free s').
Proof.
  intros W. unfold nextch, st_nextch. rewrite bind_gets.
  destruct (rounds_ok (S (left s)) (S (st_left (abs s))) s W) as (s' & t & H & I & Hs & Hl & HN);
    [unfold left; lia|unfold st_left; change (rest (abs s)) with (pending s); lia|].
  exists s', t. split_and!; [done|done|done|done|]. intros N. rewrite bind_gets. by apply HN.
Qed.

Lemma start_inv s : inv s -> inv (start s).
Proof.
  intros [[Wb Wr We Ws Wby Wsc Wsz] Iw Is Ic Ie Ia Icur Ih].
  split; [split|..]; cbn [start set_b buf ioerr in_ b r e line col ch chw]; (done || lia).
Qed.

Lemma stop_inv s : inv s -> inv (stop s).
Proof.
  intros [[Wb Wr We Ws Wby Wsc Wsz] Iw Is Ic Ie Ia Icur Ih].
  split; [split|..]; cbn [stop set_b buf ioerr in_ b r e line col ch chw]; (done || lia).
Qed.

Lemma start_abs s : inv s -> abs (start s) = st_start (abs s).
Proof.
  intros []. unfold start, st_start, abs, set_b, set_pre, pending.
  cbn [buf ioerr in_ b r e line col ch chw rest st_line st_col st_ch st_chw cur pre].
  by rewrite (proj2 (Z.ltb_ge _ _)) by lia.
Qed.

Lemma stop_abs s : abs (stop s) = st_stop (abs s).
Proof. reflexivity. Qed.

Lemma pos_abs s : pos s = st_pos (abs s).
Proof. reflexivity. Qed.

Lemma segment_ok s :
  inv s -> 0 <= b s -> segment s = Ok (slice (buf s) (b s) (r s - chw s), s, []).
Proof. intros [] Hb. unfold segment. rewrite bind_gets. cbn [id]. by decide_tests; destruct inv_buf0. Qed.

Lemma segment_abs s x s' t :
  inv s -> segment s = Ok (x, s', t) -> s' = s /\ st_segment (abs s) = Ok (x, abs s, t).
Proof.
  intros I. unfold segment, st_segment. rewrite !bind_gets. cbn [id abs pre].
  destruct (b s <? 0) eqn:E; [done|]. b2p. destruct I as [W Iw Is]. specialize (Is E).
  decide_tests. intros H. injection H as <- <- <-. split; [done|]. cbn [st_chw abs].
  destruct W. rewrite lenZ_slice, slice_slice by lia.
  unfold ret. do 3 f_equal. f_equal; lia.
Qed.

(** [st_nextch] overwrites the bytes of the current character. *)
Lemma st_nextch_cur bs st : st_nextch (set_cur bs st) = st_nextch st.
Proof.
  unfold st_nextch. rewrite !bind_gets. change (st_left (set_cur bs st)) with (st_left st).
  assert (H : st_advance (set_cur bs st) = set_cur bs (st_advance st))
    by (unfold st_advance; cbn [st_ch set_st_col set_cur]; by case_test).
  assert (Hr : st_round (set_cur bs st) = st_round st).
  { rewrite !st_round_eq, H.
    replace (set_cur bs (st_advance st)) with
      (set_st_ch (st_ch (st_advance st)) (set_cur bs (st_advance st))) by reflexivity.
    by rewrite st_tail_indep. }
  cbn [iterM]. unfold bind. by rewrite Hr.
Qed.

Definition before_rewind (s : source) : source :=
  set_r (b s) (set_col (u64 (col s - u64 (r s - b s))) s).

Lemma rewind_eq s : 0 <= b s -> rewind s = nextch (before_rewind s).
Proof.
  intros Hb. unfold rewind. rewrite bind_gets. cbn [id]. decide_tests.
  by rewrite !bind_modify.
Qed.

Lemma before_rewind_ok s :
  wf_buf s -> 0 <= b s -> wf_buf (before_rewind s) /\ length (pending (before_rewind s)) = mark s /\
  mark (before_rewind s) = mark s /\ (nul_free s -> nul_free (before_rewind s)).
Proof.
  intros W Hb. unfold before_rewind.
  assert (Hp : pending (set_r (b s) (set_col (u64 (col s - u64 (r s - b s))) s)) =
    map Byte (slice (buf s) (b s) (r s)) ++ pending s).
  { unfold pending. cbn [buf ioerr in_ b r e set_r set_col]. destruct W.
    rewrite (slice_split _ (b s) (r s)) by lia. by rewrite map_app, app_assoc. }
  assert (Hm : length (map Byte (slice (buf s) (b s) (r s)) ++ pending s) = mark s).
  { unfold mark. decide_tests. rewrite length_app, length_map. destruct W.
    pose proof (lenZ_slice (buf s) (b s) (r s)) as H. unfold lenZ in *. lia. }
  split_and!.
  - destruct W. split; cbn [buf ioerr in_ b r e set_r set_col]; (done || lia).
  - by rewrite Hp.
  - unfold mark at 1. rewrite Hp, Hm. cbn [b r set_r set_col]. case_test; lia.
  - intros [N1 N2]. split.
    + rewrite Hp. apply Forall_app. split; [|done]. apply List.Forall_map.
      refine (List.Forall_impl _ _ (N2 Hb)). cbn. congruence.
    + intros _. cbn [buf b r set_r set_col]. rewrite slice_empty. constructor.
Qed.

(** [rewind] returns to the start of the segment and reads its first character. *)
Lemma rewind_ok s :
  wf_buf s -> 0 <= b s -> exists s' t,
    rewind s = Ok (tt, s', t) /\ inv s' /\ 0 <= b s' /\ (left s' <= mark s)%nat /\ (mark s' <= mark s)%nat /\
    (nul_free s -> st_rewind (abs s) = Ok (tt, abs s', t) /\ nul_free s').
Proof.
  intros W Hb. rewrite rewind_eq by done. destruct (before_rewind_ok s W Hb) as (W' & Hp & Hm & HN).
  destruct (nextch_ok _ W') as (s' & t & H & I & [Hs Hs' _] & Hl & HN'). exists s', t.
  change (b (before_rewind s)) with (b s) in Hs. rewrite (proj2 (Z.ltb_ge _ _) Hb) in Hs.
  split_and!; [done|done|by apply Z.ltb_ge|lia|lia|]. intros N. destruct (HN' (HN N)) as [Hst N'].
  split; [|done]. rewrite <- Hst. unfold st_rewind. rewrite bind_gets. cbn [id abs pre].
  decide_tests. rewrite !bind_modify. rewrite <- (st_nextch_cur []).
  rewrite <- (st_nextch_cur [] (abs (before_rewind s))). f_equal.
  unfold abs, before_rewind, set_cur, set_pre, set_rest, set_st_col, set_r, set_col, pending.
  cbn [buf ioerr in_ b r e line col ch chw rest st_line st_col st_ch st_chw cur pre]. f_equal.
  - destruct W. rewrite (slice_split (buf s) (b s) (r s) (e s)) by lia. by rewrite map_app, <- app_assoc.
  - destruct W. rewrite lenZ_slice by lia. done.
  - decide_tests. by rewrite slice_empty.
Qed.

(** *** What a round of the stream leaves as the current character *)

Lemma bytes_prefix_no_nul l : no_nul l -> Forall (fun c => c <> 0) (bytes_prefix l).
Proof.
  induction 1 as [|[c|msg] l Hx Hl IH]; cbn [bytes_prefix]; constructor; [congruence|done].
Qed.

Definition st_no_nul (s : stream) : Prop := no_nul (rest s) /\ Forall (fun c => c <> 0) (cur s).

Lemma st_tail_no_nul EP EF s : no_nul (rest s) -> wp EP EF st_tail (fun _ s' _ => st_no_nul s') s.
Proof.
  intros N. unfold st_tail. apply wp_bind, wp_gets. cbn [id].
  destruct (rest s) as [|[c|msg] l] eqn:E.
  - apply wp_bind, wp_modify, wp_ret. split; cbn; [by rewrite E|constructor].
  - rewrite <- E in *. destruct (DecodeRune _) as [r w]. apply wp_bind, wp_modify.
    assert (H : st_no_nul (st_take r w s)).
    { unfold st_take. split; cbn; [by apply Forall_drop|].
      by apply Forall_take, bytes_prefix_no_nul. }
    unfold st_error. case_test; [by repeat (apply wp_bind || apply wp_gets || apply wp_emit || apply wp_ret)|].
    case_test; [|by apply wp_ret]. apply wp_bind, wp_gets.
    case_test; by repeat (apply wp_bind || apply wp_gets || apply wp_emit || apply wp_ret).
  - unfold st_error. inversion_clear N.
    repeat (apply wp_bind || apply wp_gets || apply wp_emit || apply wp_modify || apply wp_ret).
    split; cbn; [done|constructor].
Qed.

Lemma st_rounds_no_nul EP n s :
  no_nul (rest s) ->
  wp EP True (iterM n (fun _ : unit => st_round) tt) (fun _ s' _ => st_no_nul s') s.
Proof.
  revert s. induction n as [|n IH]; intros s N; [done|]. cbn [iterM]. apply wp_bind.
  assert (N' : no_nul (rest (st_advance s)))
    by (unfold st_advance; cbn [st_ch set_st_col]; by case_test).
  pose proof (st_tail_no_nul EP True _ N') as H. unfold wp in H at 1. unfold wp at 1. rewrite st_round_eq.
  destruct (st_tail (st_advance s)) as [[[[[]|[]] s1] t1]|v|]; [|done..].
  apply IH. by destruct H.
Qed.

Lemma st_nextch_no_nul s s' t :
  no_nul (rest s) -> st_nextch s = Ok (tt, s', t) -> st_no_nul s'.
Proof.
  intros N. unfold st_nextch. rewrite bind_gets. intros H.
  pose proof (st_rounds_no_nul (fun _ => True) (S (st_left s)) s N) as Hwp.
  unfold wp in Hwp. by rewrite H in Hwp.
Qed.

(** ** The interfaces *)

(** The messages of the reader. *)
Lemma nextch_round_msgs s :
  wp (fun _ => True) True nextch_round (fun _ _ t => Forall (fun e : srcerr => plain_msg e.2 = true) t) s.
Proof.
  unfold nextch_round, error.
  repeat (case_match || apply wp_bind || apply wp_gets || apply wp_modify || apply wp_emit || apply wp_ret);
    repeat constructor.
Qed.

Lemma nextch_msgs s s' t :
  nextch s = Ok (tt, s', t) -> Forall (fun e : srcerr => plain_msg e.2 = true) t.
Proof.
  unfold nextch. rewrite bind_gets. intros H.
  pose proof (wp_iterM_trace _ _ _ (fun _ : unit => nextch_round_msgs) (S (left s)) tt s) as Hwp.
  unfold wp in Hwp. by rewrite H in Hwp.
Qed.

(** An ASCII byte in the buffer is the next character. *)
Lemma nextch_ascii s c s' t :
  nthZ 0 (buf s) (r s) = c -> 0 < c < RuneSelf -> nextch s = Ok (tt, s', t) -> ch s' = c.
Proof.
  intros Hn Hc. unfold nextch. rewrite bind_gets. cbn [iterM]. unfold bind at 1.
  rewrite nextch_round_eq. unfold round_tail. rewrite bind_modify, bind_gets. cbn [id ch set_ch].
  pose proof (advance_same s) as Hs. injection Hs as _ Hbuf _ _ Hr _ _ _. rewrite Hbuf, Hr, Hn.
  unfold sentinel, RuneSelf in *. rewrite (proj2 (Z.ltb_lt c 128)) by lia.
  rewrite bind_modify, (proj2 (Z.eqb_neq c 0)) by lia. unfold ret. by injection 1 as <- _.
Qed.

Definition segment_bytes (s : source) : list byte := slice (buf s) (b s) (r s - chw s).

Lemma full_segment_split s :
  inv s -> 0 <= b s -> full_segment s = segment_bytes s ++ current_bytes s.
Proof. intros [] ?. unfold full_segment, segment_bytes, current_bytes. apply slice_split; lia. Qed.

(** What [nextch] adds to the segment and to the column. *)
Lemma stepped_segment s s' :
  inv s -> inv s' -> stepped s s' -> 0 <= b s ->
  exists skipped,
    segment_bytes s' = segment_bytes s ++ current_bytes s ++ skipped /\ high_bytes skipped /\
    (ch s <> 10 -> (pos s').1 = (pos s).1 /\
      (pos s').2 = u64 ((pos s).2 + lenZ (current_bytes s ++ skipped))).
Proof.
  intros I I' [Sb Sm Ss] Hb. destruct (Ss Hb) as (sk & c & Hf & Hc & Hsk & Hp). exists sk.
  assert (Hb' : 0 <= b s') by (destruct (b s' <? 0) eqn:E; b2p; lia).
  rewrite !full_segment_split in Hf by done. split; [|split; [done|]].
  - rewrite app_assoc, <- app_assoc in Hf.
    assert (Hl : length (current_bytes s') = length c).
    { pose proof (lenZ_slice (buf s') (r s' - chw s') (r s')) as H. unfold current_bytes, lenZ in *.
      destruct I' as [[] ? ? ? ? ? ?]. unfold lenZ in *. lia. }
    rewrite !app_assoc in Hf. apply app_inj_2 in Hf as [Hf _]; [|done].
    by rewrite Hf, !app_assoc.
  - intros Hn. destruct (Hp Hn) as [Hl1 Hc1]. unfold pos. cbn [fst snd]. rewrite Hl1, Hc1.
    split; [done|].
    assert (Hl : lenZ (current_bytes s) = chw s).
    { unfold current_bytes. destruct I as [[] ? ? ? ? ? ?]. rewrite lenZ_slice by lia. lia. }
    rewrite lenZ_app, Hl. unfold u64. rewrite Z.add_mod_idemp_r, Z.add_mod_idemp_l by lia.
    f_equal. lia.
Qed.

#[export, refine] Instance buffered_laws : SourceLaws source := {|
  src_ok := inv; src_active s := 0 <=? b s; src_mark := mark;
  src_seg := segment_bytes; src_cur := current_bytes |}.
Proof.
  - intros s I. destruct (nextch_ok s) as (s' & t & H & I' & S & Hl & _); [by destruct I|].
    destruct (S) as [Hb Hm _]. exists s', t. split_and!; [done|done| |done| | | |by eapply nextch_msgs].
    + rewrite !Z.leb_antisym. by rewrite Hb.
    + change (left s' <= left s)%nat. unfold left at 2. lia.
    + change (ch s <> -1 -> (left s' < left s)%nat). intros Hc. unfold left at 2.
      rewrite (proj2 (Z.eqb_neq _ _) Hc). lia.
    + intros Hbs. apply Z.leb_le in Hbs. by apply stepped_segment.
  - intros s I. split_and!; try done; [by apply start_inv| | |].
    + apply Z.leb_le. cbn. destruct I. lia.
    + unfold src_start, buffered_source, segment_bytes, start. cbn [buf b r chw set_b]. apply slice_empty.
    + change (0 <= ch s < RuneSelf -> (mark (start s) <= left s)%nat).
      unfold mark, left, start. destruct I as [W Iw _ _ _ Ia _ _].
      change (pending (set_b (r s - chw s) s)) with (pending s). cbn [b r set_b ch]. intros Hc.
      specialize (Ia (proj2 Hc)). decide_tests. lia.
  - intros s I. split_and!; try done. by apply stop_inv.
  - intros s I Hb. apply segment_ok; [done|by apply Z.leb_le].
  - intros s I Hb. apply Z.leb_le in Hb.
    destruct (rewind_ok s) as (s' & t & H & I' & Hb' & Hl & _); [by destruct I|done|].
    exists s', t. rewrite rewind_eq in H by done.
    split_and!; [by rewrite rewind_eq|done|by apply Z.leb_le|done|by eapply nextch_msgs|].
    intros c l Hseg Hc. refine (nextch_ascii (before_rewind s) c s' t _ Hc H).
    unfold segment_bytes in Hseg. cbn [before_rewind buf r set_r set_col].
    assert (Hlt : b s < r s - chw s).
    { destruct I as [[] ? Hs ? ? ? ? ?]. specialize (Hs Hb). apply (f_equal lenZ) in Hseg.
      rewrite lenZ_slice, lenZ_cons in Hseg by lia. pose proof (lenZ_nonneg l). lia. }
    rewrite (slice_head 0) in Hseg by (destruct I as [[] ? ? ? ? ? ?]; lia). by injection Hseg.
  - intros s I Hb. apply Z.leb_le in Hb. rewrite <- full_segment_split by done.
    unfold mark, full_segment. destruct I as [[] ? ? ? ? ? ?].
    pose proof (lenZ_slice (buf s) (b s) (r s)) as H. unfold lenZ in *. decide_tests. lia.
  - intros s [[] ? ? ? ? ? ?]. split; by apply slice_Forall.
  - by intros s [].
  - by intros s [].
  - intros s [[] Iw _ _ _ _ _ Ih] Hc Hn. specialize (Ih Hc). apply (f_equal lenZ) in Hn.
    unfold current_bytes in Hn. rewrite lenZ_slice in Hn by lia. change (lenZ []) with 0 in Hn. lia.
Defined.

(** The buffered reader and the stream, on input without NUL. *)
Definition reads_as (s : source) (st : stream) : Prop :=
  inv s /\ nul_free s /\ Forall (fun c => c <> 0) (cur st) /\ abs s = st.

Lemma nextch_reads_as s st : reads_as s st -> res_rel reads_as (nextch s) (st_nextch st).
Proof.
  intros (I & N & C & <-). destruct (nextch_ok s) as (s' & t & -> & I' & _ & _ & HN); [by destruct I|].
  destruct (HN N) as [Hst N']. rewrite Hst.
  refine (conj eq_refl (conj eq_refl (conj I' (conj N' (conj _ eq_refl))))).
  refine (proj2 (st_nextch_no_nul (abs s) _ t _ Hst)). by destruct N.
Qed.

Lemma segment_reads_as : mrel reads_as segment st_segment.
Proof.
  intros s st (I & N & C & <-). destruct (segment s) as [[[x s'] t]|v|] eqn:E.
  - destruct (segment_abs s x s' t I E) as [-> ->]. done.
  - revert E. unfold segment, st_segment. rewrite !bind_gets. cbn [id abs pre].
    destruct (b s <? 0) eqn:Eb; cbn [orb]; [by injection 1|].
    case_test; [|done]. destruct I as [_ _ Is _]. b2p. specialize (Is Eb). lia.
  - revert E. unfold segment. rewrite !bind_gets. case_test; done.
Qed.

Lemma rewind_reads_as : mrel reads_as rewind st_rewind.
Proof.
  intros s st (I & N & C & <-). destruct (Z.leb_spec 0 (b s)) as [Hb|Hb].
  - destruct (rewind_ok s) as (s' & t & -> & I' & _ & _ & _ & HN); [by destruct I|done|].
    destruct (HN N) as [Hst N']. rewrite Hst.
  refine (conj eq_refl (conj eq_refl (conj I' (conj N' (conj _ eq_refl))))).
    revert Hst. unfold st_rewind. rewrite bind_gets. cbn [id abs pre]. decide_tests.
    rewrite !bind_modify. intros Hst. refine (proj2 (st_nextch_no_nul _ _ t _ Hst)).
    cbn [rest set_pre set_rest]. destruct N as [N1 N2]. apply Forall_app. split; [|done].
    apply List.Forall_map. refine (List.Forall_impl _ _ (N2 Hb)). cbn. congruence.
  - unfold rewind, st_rewind. rewrite !bind_gets. cbn [id abs pre]. by decide_tests.
Qed.

Lemma start_reads_as s st : reads_as s st -> reads_as (start s) (st_start st).
Proof.
  intros (I & N & C & <-). split_and!; [by apply start_inv| |done|by apply start_abs].
  destruct N as [N _]. split; [exact N|]. intros _. exact C.
Qed.

#[export] Instance buffered_refines : SourceRefines source stream reads_as.
Proof.
  split.
  - by intros s st (_ & _ & _ & <-).
  - by intros s st (_ & _ & _ & <-).
  - by intros s st (_ & _ & _ & <-).
  - exact nextch_reads_as.
  - exact start_reads_as.
  - intros s st (I & N & C & <-). split_and!; [by apply stop_inv| |done|done].
    destruct N as [N _]. split; [exact N|]. cbn. lia.
  - exact segment_reads_as.
  - exact rewind_reads_as.
Defined.

Lemma init_reads_as script :
  Forall (fun x => Forall is_byte (r_data x)) script -> no_nul (script_items 0 script) ->
  reads_as (init script) (st_init (script_items 0 script)).
Proof.
  intros Hin N. split_and!; [by apply init_inv| |constructor|].
  - split; [|cbn; lia]. unfold pending. cbn [init buf r e ioerr in_ after]. by rewrite slice_empty.
  - unfold abs, st_init, pending. cbn [init buf r e b ioerr Source.in_ after line col ch chw].
    by rewrite !slice_empty.
Qed.

(** ** The contract of source.go *)

(** C2: on inputs without NUL the buffered reader is the stream of the input's
    characters: from related states, [nextch], [segment] and [rewind] give the
    same value, the same reported errors in the same order and related states,
    and [start] and [stop] keep the states related, whatever the sizes of the
    reads and of the buffer; a fresh reader is related to the stream of its whole input. *)
Theorem reader_refines_stream :
  (forall script,
     Forall (fun x => Forall is_byte (r_data x)) script -> no_nul (script_items 0 script) ->
     reads_as (init script) (st_init (script_items 0 script))) /\
  (forall s st, reads_as s st ->
     res_rel reads_as (nextch s) (st_nextch st) /\
     res_rel reads_as (segment s) (st_segment st) /\
     res_rel reads_as (rewind s) (st_rewind st) /\
     reads_as (start s) (st_start st) /\ reads_as (stop s) (st_stop st) /\
     pos s = st_pos st).
Proof.
  split; [exact init_reads_as|]. intros s st R. split_and!.
  - by apply nextch_reads_as.
  - by apply segment_reads_as.
  - by apply rewind_reads_as.
  - by apply start_reads_as.
  - exact (ref_stop s st R).
  - exact (ref_pos s st R).
Qed.

(** Two readers of the bytes 'a', NUL, 'b'. *)
Definition one_read : list read := [Read [97; 0; 98] None].
Definition two_reads : list read := [Read [97] None; Read [0; 98] None].

(** the report of NUL characters depends on how the input arrives: a NUL
    that is already in the buffer is reported as "invalid NUL character", one
    that is the first byte after a refill is delivered as a character without a
    report, although both readers have the same input. *)
Theorem nul_depends_on_reads :
  script_items 0 one_read = script_items 0 two_reads /\
  (match (nextch;;; nextch) (init one_read) with
   | Ok (_, s, t) => ch s = 98 /\ t = [(1, 2, "invalid NUL character"%string)]
   | _ => False
   end) /\
  (match (nextch;;; nextch) (init two_reads) with
   | Ok (_, s, t) => ch s = 0 /\ t = []
   | _ => False
   end).
Proof. split; [reflexivity|]. split; vm_compute; split; reflexivity. Qed.
