(* ===== verification/Scanner.v ===== *)
(** * src/src/cmd/compile/internal/syntax/scanner.go: the tokenizer

    [scanner] is the state of the struct, over any rune reader that implements
    [RuneSource]; the handler calls are the trace of the monad, each with the
    position, the message and the value of [s.blank] at the call (the parser's
    handler reads it).  One call of [next] reads one token.

    The loops are bounded by what is left to read ([src_left]);
    [next_total] shows that no bound is ever reached and nothing panics. *)

From S2P Require Import Prelude Utf8 Unicode Format Tokens Source.

#[local] Open Scope go_scope.

(** A call of the error handler: line, column, message, [s.blank]. *)
Definition scanev : Type := Z * Z * string * bool.

Record scanner (src : Type) := Scanner {
  source_ : src;
  mode : Z;
  nlsemi : bool;
  line : Z;
  col : Z;
  blank : bool;
  tok : token;
  lit : string;
  bad : bool;
  kind : LitKind;
  op : Operator;
  prec : Z
}.

Arguments Scanner {src}.
Arguments source_ {src}.
Arguments mode {src}.
Arguments nlsemi {src}.
Arguments line {src}.
Arguments col {src}.
Arguments blank {src}.
Arguments tok {src}.
Arguments lit {src}.
Arguments bad {src}.
Arguments kind {src}.
Arguments op {src}.
Arguments prec {src}.

Definition set_source_ {src} (v : src) (s : scanner src) : scanner src := Scanner v (mode s) (nlsemi s) (line s) (col s) (blank s) (tok s) (lit s) (bad s) (kind s) (op s) (prec s).
Definition set_mode {src} (v : Z) (s : scanner src) : scanner src := Scanner (source_ s) v (nlsemi s) (line s) (col s) (blank s) (tok s) (lit s) (bad s) (kind s) (op s) (prec s).
Definition set_nlsemi {src} (v : bool) (s : scanner src) : scanner src := Scanner (source_ s) (mode s) v (line s) (col s) (blank s) (tok s) (lit s) (bad s) (kind s) (op s) (prec s).
Definition set_line {src} (v : Z) (s : scanner src) : scanner src := Scanner (source_ s) (mode s) (nlsemi s) v (col s) (blank s) (tok s) (lit s) (bad s) (kind s) (op s) (prec s).
Definition set_col {src} (v : Z) (s : scanner src) : scanner src := Scanner (source_ s) (mode s) (nlsemi s) (line s) v (blank s) (tok s) (lit s) (bad s) (kind s) (op s) (prec s).
Definition set_blank {src} (v : bool) (s : scanner src) : scanner src := Scanner (source_ s) (mode s) (nlsemi s) (line s) (col s) v (tok s) (lit s) (bad s) (kind s) (op s) (prec s).
Definition set_tok {src} (v : token) (s : scanner src) : scanner src := Scanner (source_ s) (mode s) (nlsemi s) (line s) (col s) (blank s) v (lit s) (bad s) (kind s) (op s) (prec s).
Definition set_lit {src} (v : string) (s : scanner src) : scanner src := Scanner (source_ s) (mode s) (nlsemi s) (line s) (col s) (blank s) (tok s) v (bad s) (kind s) (op s) (prec s).
Definition set_bad {src} (v : bool) (s : scanner src) : scanner src := Scanner (source_ s) (mode s) (nlsemi s) (line s) (col s) (blank s) (tok s) (lit s) v (kind s) (op s) (prec s).
Definition set_kind {src} (v : LitKind) (s : scanner src) : scanner src := Scanner (source_ s) (mode s) (nlsemi s) (line s) (col s) (blank s) (tok s) (lit s) (bad s) v (op s) (prec s).
Definition set_op {src} (v : Operator) (s : scanner src) : scanner src := Scanner (source_ s) (mode s) (nlsemi s) (line s) (col s) (blank s) (tok s) (lit s) (bad s) (kind s) v (prec s).
Definition set_prec {src} (v : Z) (s : scanner src) : scanner src := Scanner (source_ s) (mode s) (nlsemi s) (line s) (col s) (blank s) (tok s) (lit s) (bad s) (kind s) (op s) v.

(** ** Character classes and keywords *)

Definition lower (ch : rune) : rune := Z.lor ("a"%rune - "A"%rune) ch.
Definition isLetter (ch : rune) : bool :=
  ("a"%rune <=? lower ch) && (lower ch <=? "z"%rune) || (ch =? "_"%rune).
Definition isDecimal (ch : rune) : bool := ("0"%rune <=? ch) && (ch <=? "9"%rune).
Definition isHex (ch : rune) : bool :=
  ("0"%rune <=? ch) && (ch <=? "9"%rune) || ("a"%rune <=? lower ch) && (lower ch <=? "f"%rune).

(** [hash] assumes that [s] has at least length 2. *)
Definition hash (s : list byte) : Z :=
  Z.land (u64 (Z.lxor (u64 (Z.shiftl (nthZ 0 s 0) 4)) (nthZ 0 s 1) + lenZ s)) (2 ^ 7 - 1).

(** The tokens from [_Break] to [_Var]. *)
Definition keywords : list token := drop (Z.to_nat (token_num _Break)) tokens.

(** [init()]: the keyword map, or [None] for the panic "imperfect hash". *)
Definition populate (m : option (list token)) (tok : token) : option (list token) :=
  match m with
  | None => None
  | Some m =>
      let h := hash (bytes_of_string (token_String tok)) in
      if negb (tok_eqb (nthZ _None m h) _None) then None
      else Some (<[Z.to_nat h := tok]> m)
  end.

Definition init_keywordMap : option (list token) :=
  fold_left populate keywords (Some (repeat _None (Z.to_nat (2 ^ 7)))).

Definition keywordMap : list token := default [] init_keywordMap.

Definition tokStrFast (tok : token) : string := TokenNames tok.

(** The keyword that [lit] spells, as [ident] looks it up. *)
Definition keyword_lookup (lit : list byte) : option token :=
  if 2 <=? lenZ lit then
    let tok := nthZ _None keywordMap (hash lit) in
    if negb (tok_eqb tok _None) && bool_decide (tokStrFast tok = string_of_bytes lit)
    then Some tok else None
  else None.

(** [invalidSep]: the index of the first invalid separator in [x], or -1.
    The loop walks over the bytes with the previous class [d] and the index. *)
Fixpoint invalidSep_loop (x1 d : rune) (i : Z) (x : list byte) : Z :=
  match x with
  | [] => if d =? "_"%rune then i - 1 else -1
  | c :: x' =>
      let p := d in
      let d := c in
      if d =? "_"%rune then
        if negb (p =? "0"%rune) then i else invalidSep_loop x1 d (i + 1) x'
      else if isDecimal d || (x1 =? "x"%rune) && isHex d then
        invalidSep_loop x1 "0"%rune (i + 1) x'
      else if p =? "_"%rune then i - 1
      else invalidSep_loop x1 "."%rune (i + 1) x'
  end.

Definition invalidSep (x : list byte) : Z :=
  let x1 :=
    if (2 <=? lenZ x) && (nthZ 0 x 0 =? "0"%rune) then lower (nthZ 0 x 1) else " "%rune in
  if (2 <=? lenZ x) && (nthZ 0 x 0 =? "0"%rune) &&
     ((x1 =? "x"%rune) || (x1 =? "o"%rune) || (x1 =? "b"%rune))
  then invalidSep_loop x1 "0"%rune 2 (drop 2 x)
  else invalidSep_loop x1 "."%rune 0 x.

(** The name of a number base; any other base panics. *)
Definition baseName {V E S} (panicv : string -> V) (base : Z) : GM V E S string :=
  if base =? 2 then ret "binary"%string
  else if base =? 8 then ret "octal"%string
  else if base =? 10 then ret "decimal"%string
  else if base =? 16 then ret "hexadecimal"%string
  else panic (panicv "invalid base"%string).

(** The mode flags. *)
Definition comments : Z := Z.shiftl 1 0.
Definition directives : Z := Z.shiftl 1 1.

Section Scanner.
Context {src : Type} `{RuneSource src}.

Definition SM : Type -> Type := GM string scanev (scanner src).

(** [s.init(src, errh, mode)] with an initialised reader. *)
Definition init (r : src) (m : Z) : scanner src :=
  Scanner r m false 0 0 false _None "" false IntLit OpNone 0.

(** An operation of the embedded reader. *)
Definition lift {A} (m : GM string srcerr src A) : SM A :=
  fun s =>
    match m (source_ s) with
    | Ok (a, r, t) =>
        Ok (a, set_source_ r s, map (fun e : srcerr => let '(l, c, msg) := e in (l, c, msg, blank s)) t)
    | Panic v => Panic v
    | NoFuel => NoFuel
    end.

Definition ch (s : scanner src) : rune := src_ch (source_ s).
Definition pos (s : scanner src) : Z * Z := src_pos (source_ s).
Definition nextch : SM unit := lift src_nextch.
Definition start : SM unit := modify (fun s => set_source_ (src_start (source_ s)) s).
Definition stop : SM unit := modify (fun s => set_source_ (src_stop (source_ s)) s).
Definition segment : SM (list byte) := lift src_segment.
Definition rewind : SM unit := lift src_rewind.

(** Enough rounds for a loop in which every round reads a character. *)
Definition rounds (s : scanner src) : nat := Datatypes.S (Datatypes.S (src_left (source_ s))).

Definition loopM {X Y} (body : X -> SM (X + Y)) (x : X) : SM Y :=
  let* n := gets rounds in iterM n body x.

(** [for cond { s.nextch() }] *)
Definition skip_while (cond : rune -> bool) : SM unit :=
  whileM rounds (fun s => cond (ch s)) nextch.

(** [s.error(msg)]: an error at the current reading position. *)
Definition errorf (msg : string) : SM unit :=
  let* p := gets pos in
  let* b := gets blank in
  emit (p.1, p.2, msg, b).

(** An error at an offset from the start of the token. *)
Definition errorAtf (offset : Z) (msg : string) : SM unit :=
  let* l := gets line in
  let* c := gets col in
  let* b := gets blank in
  emit (l, u64 (c + u64 offset), msg, b).

Definition setLit (k : LitKind) (ok : bool) : SM unit :=
  modify (fun s => set_tok _Literal (set_nlsemi true s));;;
  let* l := segment in
  modify (fun s => set_kind k (set_bad (negb ok) (set_lit (string_of_bytes l) s))).

Definition set_operator (o : Operator) (p : Z) : SM unit :=
  modify (fun s => set_prec p (set_op o s)).

Definition set_token (t : token) : SM unit := modify (set_tok t).

(** ** Identifiers *)

Definition atIdentChar (first : bool) : SM bool :=
  let* c := gets ch in
  if IsLetter c || (c =? "_"%rune) then ret true
  else if IsDigit c then
    when first do errorf ("identifier cannot begin with digit " +s+ fmt_U c);;;
    ret true
  else if (c =? 0x2260) || (c =? 0xAC) then ret true
  else if RuneSelf <=? c then
    errorf ("invalid character " +s+ fmt_U c +s+ " in identifier");;;
    ret true
  else ret false.

(** What [ident] does with the bytes of the identifier. *)
Definition ident_token (l : list byte) : SM unit :=
  match keyword_lookup l with
  | Some t =>
      modify (set_nlsemi (contains (tokset [_Break; _Continue; _Fallthrough; _Return]) t));;;
      set_token t
  | None =>
      let l := string_of_bytes l in
      if bool_decide (l = "not"%string) then
        set_operator Not 0;;; set_token _Operator
      else if bool_decide (l = "ø"%string) then
        modify (fun s => set_lit "nil" (set_nlsemi true s));;; set_token _Name
      else if bool_decide (l = "≠"%string) then
        set_operator Neq precCmp;;; set_token _Operator
      else if bool_decide (l = "¬"%string) then
        set_operator Not 0;;; set_token _Operator
      else if bool_decide (l = "and"%string) then
        set_operator AndAnd precAndAnd;;; set_token _Operator
      else if bool_decide (l = "or"%string) then
        set_operator OrOr precOrOr;;; set_token _Operator
      else
        modify (fun s => set_lit l (set_nlsemi true s));;; set_token _Name
  end.

Definition ident : SM unit :=
  skip_while (fun c => isLetter c || isDecimal c);;;
  let* c := gets ch in
  when RuneSelf <=? c do
    loopM (fun _ : unit =>
      let* b := atIdentChar false in
      if b then nextch;;; ret (inl tt) else ret (inr tt)) tt;;;
  let* l := segment in
  ident_token l.

(** ** Numbers *)

(** One character of the digit loop: the bits of [digsep] it sets and the
    new index of an invalid digit ([None] is the nil pointer). *)
Definition digit (base : Z) (invalid : option Z) : SM (Z * option Z) :=
  let* c := gets ch in
  if c =? "_"%rune then ret (2, invalid)
  else if (base <=? 10) && ("0"%rune + base <=? c) then
    match invalid with
    | None => panic "nil pointer dereference"%string
    | Some i =>
        if i <? 0 then
          let* p := gets pos in
          let* c0 := gets col in
          ret (1, Some (s64 (u64 (p.2 - c0))))
        else ret (1, invalid)
    end
  else ret (1, invalid).

Definition digits (base : Z) (invalid : option Z) : SM (Z * option Z) :=
  loopM (fun '((digsep, invalid) : Z * option Z) =>
    let* c := gets ch in
    if (if base <=? 10 then isDecimal c else isHex c) || (c =? "_"%rune) then
      let* (ds, invalid) := digit base invalid in
      nextch;;; ret (inl (Z.lor digsep ds, invalid))
    else ret (inr (digsep, invalid))) (0, invalid).

Definition basename : Z -> SM string := baseName (fun v => v).

(** The variables of [number]. *)
Record numvars := Numvars {
  ok : bool; nkind : LitKind; nbase : Z; prefix : rune; digsep : Z; invalid : Z
}.

Definition number_digits (v : numvars) : SM numvars :=
  let* (ds, inv) := digits (nbase v) (Some (invalid v)) in
  ret (Numvars (ok v) (nkind v) (nbase v) (prefix v) (Z.lor (digsep v) ds) (default (-1) inv)).

Definition set_ok (b : bool) (v : numvars) : numvars :=
  Numvars b (nkind v) (nbase v) (prefix v) (digsep v) (invalid v).
Definition set_nkind (k : LitKind) (v : numvars) : numvars :=
  Numvars (ok v) k (nbase v) (prefix v) (digsep v) (invalid v).
Definition set_digsep (d : Z) (v : numvars) : numvars :=
  Numvars (ok v) (nkind v) (nbase v) (prefix v) d (invalid v).

(** The prefix of the integer part. *)
Definition number_prefix : SM numvars :=
  let dec := Numvars true IntLit 10 0 0 (-1) in
  let* c := gets ch in
  if c =? "0"%rune then
    nextch;;;
    let* c := gets ch in
    if lower c =? "x"%rune then nextch;;; ret (Numvars true IntLit 16 "x"%rune 0 (-1))
    else if lower c =? "o"%rune then nextch;;; ret (Numvars true IntLit 8 "o"%rune 0 (-1))
    else if lower c =? "b"%rune then nextch;;; ret (Numvars true IntLit 2 "b"%rune 0 (-1))
    else ret (Numvars true IntLit 8 "0"%rune 1 (-1))
  else ret dec.

(** The integer part; the result says whether a point was read. *)
Definition number_int : SM (numvars * bool) :=
  let* v := number_prefix in
  let* v := number_digits v in
  let* c := gets ch in
  if c =? "."%rune then
    let bad_radix := (prefix v =? "o"%rune) || (prefix v =? "b"%rune) in
    when bad_radix do
      (let* n := basename (nbase v) in
       errorf ("invalid radix point in " +s+ n +s+ " literal"));;;
    nextch;;;
    ret (if bad_radix then set_ok false v else v, true)
  else ret (v, false).

Definition number_exponent (v : numvars) : SM numvars :=
  let* c := gets ch in
  let e := lower c in
  if (e =? "e"%rune) || (e =? "p"%rune) then
    let* v :=
      if ok v then
        if (e =? "e"%rune) && negb (prefix v =? 0) && negb (prefix v =? "0"%rune) then
          errorf (fmt_q c +s+ " exponent requires decimal mantissa");;; ret (set_ok false v)
        else if (e =? "p"%rune) && negb (prefix v =? "x"%rune) then
          errorf (fmt_q c +s+ " exponent requires hexadecimal mantissa");;; ret (set_ok false v)
        else ret v
      else ret v in
    nextch;;;
    let v := set_nkind FloatLit v in
    let* c := gets ch in
    when (c =? "+"%rune) || (c =? "-"%rune) do nextch;;;
    let* (ds, _) := digits 10 None in
    let v := set_digsep (Z.lor ds (Z.land (digsep v) 2)) v in
    if (Z.land (digsep v) 1 =? 0) && ok v then
      errorf "exponent has no digits";;; ret (set_ok false v)
    else ret v
  else if (prefix v =? "x"%rune) && bool_decide (nkind v = FloatLit) && ok v then
    errorf "hexadecimal mantissa requires a 'p' exponent";;; ret (set_ok false v)
  else ret v.

(** The checks after the literal has been set. *)
Definition number_checks (v : numvars) : SM numvars :=
  let* v :=
    if bool_decide (nkind v = IntLit) && (0 <=? invalid v) && ok v then
      let* l := gets (fun s => bytes_of_string (lit s)) in
      if lenZ l <=? invalid v then panic "index out of range"%string else
      let* n := basename (nbase v) in
      errorAtf (invalid v)
        ("invalid digit " +s+ fmt_q (nthZ 0 l (invalid v)) +s+ " in " +s+ n +s+ " literal");;;
      ret (set_ok false v)
    else ret v in
  if negb (Z.land (digsep v) 2 =? 0) && ok v then
    let* l := gets (fun s => bytes_of_string (lit s)) in
    let i := invalidSep l in
    if 0 <=? i then
      errorAtf i "'_' must separate successive digits";;; ret (set_ok false v)
    else ret v
  else ret v.

Definition number (seenPoint : bool) : SM unit :=
  let* (v, seenPoint) :=
    if seenPoint then ret (Numvars true IntLit 10 0 0 (-1), true) else number_int in
  let* v := if seenPoint then number_digits (set_nkind FloatLit v) else ret v in
  let* v :=
    if (Z.land (digsep v) 1 =? 0) && ok v then
      let* n := basename (nbase v) in
      errorf (n +s+ " literal has no digits");;; ret (set_ok false v)
    else ret v in
  let* v := number_exponent v in
  let* c := gets ch in
  let* v := if c =? "i"%rune then nextch;;; ret (set_nkind ImagLit v) else ret v in
  setLit (nkind v) (ok v);;;
  let* v := number_checks v in
  modify (set_bad (negb (ok v))).

(** ** Rune and string literals *)

(** The digits of an escape: [n] more in the given base.  [None] is an early
    return with the value carried along. *)
Fixpoint escape_digits (n : nat) (base x : Z) : SM (Z + bool) :=
  match n with
  | O => ret (inl x)
  | Datatypes.S n =>
      let* c := gets ch in
      if c <? 0 then ret (inr true)
      else
        let d :=
          if isDecimal c then u32 (u32 c - "0"%rune)
          else if ("a"%rune <=? lower c) && (lower c <=? "f"%rune)
          then u32 (u32 (lower c) - "a"%rune + 10)
          else base in
        if base <=? d then
          let* b := basename base in
          errorf ("invalid character " +s+ fmt_q c +s+ " in " +s+ b +s+ " escape");;;
          ret (inr false)
        else nextch;;; escape_digits n base (u32 (u32 (x * base) + d))
  end.

Definition escape_value (n : nat) (base maxi : Z) : SM bool :=
  let* r := escape_digits n base 0 in
  match r with
  | inr b => ret b
  | inl x =>
      if (maxi <? x) && (base =? 8) then
        errorf ("octal escape value " +s+ fmtInteger x +s+ " > 255");;; ret false
      else if (maxi <? x) || (0xD800 <=? x) && (x <? 0xE000) then
        errorf ("escape is invalid Unicode code point " +s+ fmt_U x);;; ret false
      else ret true
  end.

Definition escape (quote : rune) : SM bool :=
  let* c := gets ch in
  if (c =? quote) || (c =? "a"%rune) || (c =? "b"%rune) || (c =? "f"%rune) || (c =? "n"%rune) ||
     (c =? "r"%rune) || (c =? "t"%rune) || (c =? "v"%rune) || (c =? "\"%rune) then
    nextch;;; ret true
  else if ("0"%rune <=? c) && (c <=? "7"%rune) then escape_value 3 8 255
  else if c =? "x"%rune then nextch;;; escape_value 2 16 255
  else if c =? "u"%rune then nextch;;; escape_value 4 16 MaxRune
  else if c =? "U"%rune then nextch;;; escape_value 8 16 MaxRune
  else if c <? 0 then ret true
  else errorf "unknown escape";;; ret false.

Definition rune_ : SM unit :=
  nextch;;;
  let* ok := loopM (fun '((ok, n) : bool * Z) =>
    let* c := gets ch in
    if c =? "'"%rune then
      let* ok :=
        if ok then
          if n =? 0 then errorf "empty rune literal or unescaped '";;; ret false
          else if negb (n =? 1) then
            errorAtf 0 "more than one character in rune literal";;; ret false
          else ret true
        else ret false in
      nextch;;; ret (inr ok)
    else if c =? "\"%rune then
      nextch;;;
      let* e := escape "'"%rune in
      ret (inl (ok && e, n + 1))
    else if c =? 10 then
      when ok do errorf "newline in rune literal";;;
      ret (inr false)
    else if c <? 0 then
      when ok do errorAtf 0 "rune literal not terminated";;;
      ret (inr false)
    else nextch;;; ret (inl (ok, n + 1))) (true, 0) in
  setLit RuneLit ok.

Definition stdString : SM unit :=
  nextch;;;
  let* ok := loopM (fun ok : bool =>
    let* c := gets ch in
    if c =? 34 then nextch;;; ret (inr ok)
    else if c =? "\"%rune then
      nextch;;;
      let* e := escape 34 in
      ret (inl (ok && e))
    else if c =? 10 then
      errorf "newline in string";;; ret (inr false)
    else if c <? 0 then
      errorAtf 0 "string not terminated";;; ret (inr false)
    else nextch;;; ret (inl ok)) true in
  setLit StringLit ok.

Definition rawString : SM unit :=
  nextch;;;
  let* ok := loopM (fun ok : bool =>
    let* c := gets ch in
    if c =? "`"%rune then nextch;;; ret (inr ok)
    else if c <? 0 then
      errorAtf 0 "string not terminated";;; ret (inr false)
    else nextch;;; ret (inl ok)) true in
  setLit StringLit ok.

(** ** Comments *)

Definition comment (text : list byte) : SM unit := errorAtf 0 (string_of_bytes text).

(** Report the active segment as a comment. *)
Definition comment_segment : SM unit :=
  let* t := segment in comment t.

Definition skipLine : SM unit := skip_while (fun c => (0 <=? c) && negb (c =? 10)).

(** Match the characters of a directive prefix. *)
Fixpoint match_prefix (ms : list rune) : SM bool :=
  match ms with
  | [] => ret true
  | m :: ms =>
      let* c := gets ch in
      if negb (c =? m) then ret false else nextch;;; match_prefix ms
  end.

Definition lineComment : SM unit :=
  let* m := gets mode in
  if negb (Z.land m comments =? 0) then
    skipLine;;; comment_segment
  else
    let* c := gets ch in
    if (Z.land m directives =? 0) || negb (c =? "g"%rune) && negb (c =? "l"%rune) then
      stop;;; skipLine
    else
      let prefix := if c =? "l"%rune then "line "%string else "go:"%string in
      let* b := match_prefix (bytes_of_string prefix) in
      if b then skipLine;;; comment_segment
      else stop;;; skipLine.

(** The loop over stars: [true] when a slash ends the comment. *)
Definition skip_stars : SM bool :=
  loopM (fun _ : unit =>
    let* c := gets ch in
    if c =? "*"%rune then
      nextch;;;
      let* c := gets ch in
      if c =? "/"%rune then nextch;;; ret (inr true) else ret (inl tt)
    else ret (inr false)) tt.

Definition skipComment : SM bool :=
  let* b := loopM (fun _ : unit =>
    let* c := gets ch in
    if 0 <=? c then
      let* b := skip_stars in
      if b then ret (inr true) else nextch;;; ret (inl tt)
    else ret (inr false)) tt in
  if b then ret true
  else errorAtf 0 "comment not terminated";;; ret false.

Definition fullComment : SM unit :=
  let* m := gets mode in
  let* c := gets ch in
  if negb (Z.land m comments =? 0) then
    let* b := skipComment in when b do comment_segment
  else if (Z.land m directives =? 0) || negb (c =? "l"%rune) then
    stop;;; skipComment;;; ret tt
  else
    let* b := match_prefix (bytes_of_string "line ") in
    if b then let* b := skipComment in when b do comment_segment
    else stop;;; skipComment;;; ret tt.

Definition canBeIndexOperator (s : scanner src) : bool := negb (col s =? 1).

(** ** Tokens *)

(** [nextch] and a token without further effects. *)
Definition single (t : token) : SM unit := nextch;;; set_token t.

(** A closing token: a newline after it becomes a semicolon. *)
Definition closing (t : token) : SM unit :=
  nextch;;; modify (set_nlsemi true);;; set_token t.

(** The label [assignop]. *)
Definition assignop : SM unit :=
  let* c := gets ch in
  if c =? "="%rune then nextch;;; set_token _AssignOp else set_token _Operator.

(** [++] and [--], or the operator, or its assignment. *)
Definition incop (c0 : rune) (o : Operator) : SM unit :=
  nextch;;;
  set_operator o precAdd;;;
  let* c := gets ch in
  if negb (c =? c0) then assignop
  else nextch;;; modify (set_nlsemi true);;; set_token _IncOp.

(** An operator token of two characters. *)
Definition operator (o : Operator) (p : Z) : SM unit :=
  nextch;;; set_operator o p;;; set_token _Operator.

Definition dot : SM unit :=
  nextch;;;
  let* c := gets ch in
  if isDecimal c then number true
  else if c =? "."%rune then
    nextch;;;
    let* c := gets ch in
    if c =? "."%rune then nextch;;; set_token _DotDotDot
    else rewind;;; nextch;;; set_token _Dot
  else set_token _Dot.

Definition less : SM unit :=
  nextch;;;
  let* c := gets ch in
  if c =? "="%rune then operator Leq precCmp
  else if c =? "<"%rune then nextch;;; set_operator Shl precMul;;; assignop
  else if c =? "-"%rune then single _Arrow
  else set_operator Lss precCmp;;; set_token _Operator.

Definition greater : SM unit :=
  nextch;;;
  let* c := gets ch in
  if c =? "="%rune then operator Geq precCmp
  else if c =? ">"%rune then nextch;;; set_operator Shr precMul;;; assignop
  else set_operator Gtr precCmp;;; set_token _Operator.

Definition ampersand : SM unit :=
  nextch;;;
  let* c := gets ch in
  if c =? "&"%rune then operator AndAnd precAndAnd
  else
    set_operator And precMul;;;
    when c =? "^"%rune do (nextch;;; modify (set_op AndNot));;;
    assignop.

Definition pipe : SM unit :=
  nextch;;;
  let* c := gets ch in
  if c =? "|"%rune then operator OrOr precOrOr
  else set_operator Or precAdd;;; assignop.

(** [/]: a comment ([inl] is [goto redo]) or an operator. *)
Definition slash (nlsemi : bool) : SM (unit + unit) :=
  nextch;;;
  let* c := gets ch in
  if c =? "/"%rune then nextch;;; lineComment;;; ret (inl tt)
  else if c =? "*"%rune then
    nextch;;; fullComment;;;
    let* p := gets pos in
    let* l := gets line in
    if (l <? p.1) && nlsemi then
      modify (set_lit "newline");;; set_token _Semi;;; ret (inr tt)
    else ret (inl tt)
  else set_operator Div precMul;;; assignop;;; ret (inr tt).

(** A token that returns. *)
Definition return_ (m : SM unit) : SM (unit + unit) := m;;; ret (inr tt).

(** The switch over the first character of the token. *)
Definition next_switch (nlsemi : bool) : SM (unit + unit) :=
  let* c := gets ch in
  if c =? -1 then
    if nlsemi then return_ (modify (set_lit "EOF");;; set_token _Semi)
    else return_ (set_token _EOF)
  else if c =? 10 then return_ (nextch;;; modify (set_lit "newline");;; set_token _Semi)
  else if isDecimal c then return_ (number false)
  else if c =? 34 then return_ stdString
  else if c =? "`"%rune then return_ rawString
  else if c =? "'"%rune then return_ rune_
  else if c =? "("%rune then return_ (single _Lparen)
  else if c =? "["%rune then return_ (single _Lbrack)
  else if c =? "{"%rune then return_ (single _Lbrace)
  else if c =? ","%rune then return_ (single _Comma)
  else if c =? ";"%rune then return_ (nextch;;; modify (set_lit "semicolon");;; set_token _Semi)
  else if c =? ")"%rune then return_ (closing _Rparen)
  else if c =? "]"%rune then return_ (closing _Rbrack)
  else if c =? "}"%rune then return_ (closing _Rbrace)
  else if c =? ":"%rune then
    return_ (nextch;;;
             let* c := gets ch in
             if c =? "="%rune then single _Define else set_token _Colon)
  else if c =? "."%rune then return_ dot
  else if c =? "+"%rune then return_ (incop "+"%rune Add)
  else if c =? "-"%rune then return_ (incop "-"%rune Sub)
  else if c =? "*"%rune then
    return_ (nextch;;; set_operator Mul precMul;;;
             let* c := gets ch in
             if c =? "="%rune then single _AssignOp else set_token _Star)
  else if c =? "/"%rune then slash nlsemi
  else if c =? "%"%rune then return_ (nextch;;; set_operator Rem precMul;;; assignop)
  else if c =? "&"%rune then return_ ampersand
  else if c =? "|"%rune then return_ pipe
  else if c =? "^"%rune then return_ (nextch;;; set_operator Xor precAdd;;; assignop)
  else if c =? "<"%rune then return_ less
  else if c =? ">"%rune then return_ greater
  else if c =? "="%rune then
    return_ (nextch;;;
             let* c := gets ch in
             if c =? "="%rune then operator Eql precCmp else set_token _Assign)
  else if c =? "!"%rune then
    return_ (nextch;;;
             let* c := gets ch in
             if c =? "="%rune then operator Neq precCmp
             else set_operator Not 0;;; set_token _Operator)
  else if c =? "~"%rune then return_ (operator Tilde 0)
  else if c =? "#"%rune then
    let* b := gets canBeIndexOperator in
    if b then return_ (set_token _Hash;;; nextch)
    else nextch;;; lineComment;;; ret (inl tt)
  else
    errorf ("invalid character " +s+ fmt_U c);;;
    nextch;;; ret (inl tt).

(** From the label [redo]: [inl] is [goto redo]. *)
Definition next_round (nlsemi : bool) : SM (unit + unit) :=
  stop;;;
  let* (startLine, startCol) := gets pos in
  skip_while (fun c => (c =? " "%rune) || (c =? 9) || (c =? 10) && negb nlsemi || (c =? 13));;;
  let* (l, c) := gets pos in
  modify (fun s => set_col c (set_line l s));;;
  modify (set_blank ((startLine <? l) || (startCol =? colbase)));;;
  start;;;
  let* c := gets ch in
  let* b :=
    if isLetter c then ret true
    else if RuneSelf <=? c then atIdentChar true
    else ret false in
  if b then nextch;;; ident;;; ret (inr tt)
  else next_switch nlsemi.

Definition next : SM unit :=
  let* n := gets nlsemi in
  modify (set_nlsemi false);;;
  loopM (fun _ : unit => next_round n) tt.
End Scanner.

(** A bound on the number of calls of [next] until the end of the input. *)
Definition scan_measure {src} `{RuneSource src} (s : scanner src) : Z :=
  2 * Z.of_nat (src_left (source_ s)) + (if nlsemi s then 1 else 0).
