(* ===== verification/ScannerFacts.v ===== *)
(** * What the tokenizer promises

    Proofs about Scanner.v over any reader that satisfies [SourceLaws]. *)

From S2P Require Import Prelude Utf8 Unicode Format Tokens Source Stream Scanner.

#[local] Open Scope go_scope.

(** ** Characters *)

(** Only ASCII letters have a lower case in the range of the letters. *)
Lemma lower_letter c : 97 <= lower c <= 122 -> 65 <= c <= 90 \/ 97 <= c <= 122.
Proof.
  unfold lower. intros Hc.
  assert (H0 : 0 <= c) by (apply (Z.lor_nonneg 32 c); change (32) with ("a"%rune - "A"%rune); lia).
  assert (H128 : c < 2 ^ 7).
  { destruct (Z.eq_dec c 0) as [->|]; [lia|]. apply Z.log2_lt_pow2; [lia|].
    pose proof (Z.log2_lor ("a"%rune - "A"%rune) c) as Hl.
    pose proof (Z.log2_le_mono (Z.lor ("a"%rune - "A"%rune) c) 122) as Hm.
    change (Z.log2 122) with 6 in Hm. lia. }
  assert (Hb : implb ((97 <=? Z.lor 32 c) && (Z.lor 32 c <=? 122))
    ((65 <=? c) && (c <=? 90) || (97 <=? c) && (c <=? 122)) = true).
  { apply (byte_forall (fun c => implb ((97 <=? Z.lor 32 c) && (Z.lor 32 c <=? 122))
      ((65 <=? c) && (c <=? 90) || (97 <=? c) && (c <=? 122)))); [by vm_compute|].
    unfold is_byte. lia. }
  change ("a"%rune - "A"%rune) with 32 in Hc.
  rewrite (proj2 (Z.leb_le 97 _)), (proj2 (Z.leb_le _ 122)) in Hb by lia. cbn [andb implb] in Hb.
  apply orb_true_iff in Hb as [Hb|Hb]; apply andb_true_iff in Hb as [H1 H2];
    apply Z.leb_le in H1, H2; lia.
Qed.

(** ** Messages *)

(** The text of a comment as the parser's handler takes it apart: it starts
    with a slash and is as long as its delimiters, between whose characters
    there may be bytes that the reader passes over. *)
Definition comment_msg (msg : string) : bool :=
  let l := bytes_of_string msg in
  (2 <=? lenZ l) && (nthZ 0 l 0 =? "/"%rune) &&
  (if nthZ 0 l 1 =? "*"%rune then 4 <=? lenZ l
   else (3 <=? lenZ l) || (nthZ 0 l 1 =? "/"%rune)).

(** The text of a comment that starts with a number sign.  The documentation of
    the handler knows comments that start with // or /* only, and the parser's
    handler takes these for errors. *)
Definition hash_msg (msg : string) : bool := nthZ 0 (bytes_of_string msg) 0 =? "#"%rune.

(** What the handler is called with: the message of an error, or a comment of
    one of the two kinds. *)
Definition good_event (e : scanev) : Prop :=
  let '(_, _, msg, _) := e in plain_msg msg = true \/ comment_msg msg = true \/ hash_msg msg = true.

Abbreviation good := (Forall good_event).

Lemma byte_of_ascii_of_byte c : is_byte c -> byte_of_ascii (ascii_of_byte c) = c.
Proof.
  unfold is_byte, byte_of_ascii, ascii_of_byte. intros Hc.
  rewrite Ascii.N_ascii_embedding by lia. lia.
Qed.

Lemma bytes_of_string_of_bytes l : Forall is_byte l -> bytes_of_string (string_of_bytes l) = l.
Proof.
  induction 1 as [|c l Hc Hl IH]; [done|]. cbn [string_of_bytes bytes_of_string].
  by rewrite byte_of_ascii_of_byte, IH.
Qed.

Lemma length_string_of_bytes l : length (bytes_of_string (string_of_bytes l)) = length l.
Proof. induction l as [|c l IH]; [done|]. cbn. by rewrite IH. Qed.

Lemma bytes_of_string_append a b : bytes_of_string (a +s+ b) = bytes_of_string a ++ bytes_of_string b.
Proof. induction a as [|c a IH]; [done|].
  change (String c a +s+ b) with (String c (a +s+ b)). cbn [bytes_of_string app]. by rewrite IH. Qed.

Lemma plain_msg_append a b : plain_msg a = true -> plain_msg (a +s+ b) = true.
Proof. unfold plain_msg. rewrite bytes_of_string_append. by destruct (bytes_of_string a). Qed.

Lemma plain_fmt_q c : plain_msg (fmt_q c) = true.
Proof.
  assert (H : forall buf r, exists l, appendEscapedRune ("'"%rune :: buf) r "'"%rune = "'"%rune :: l).
  { intros buf r. unfold appendEscapedRune, AppendRune, appendRuneNonASCII.
    repeat case_match; eexists; cbn [app]; reflexivity. }
  unfold fmt_q, fmtQc, AppendQuoteRune, appendQuotedRuneWith. cbn [app].
  match goal with |- context [appendEscapedRune [39] ?r 39] => destruct (H [] r) as [l Hl] end.
  rewrite Hl. reflexivity.
Qed.

(** ** Tokens and keywords *)

(** The tokens after which a newline becomes a semicolon. *)
Definition semi_tokens : list token :=
  [_Name; _Literal; _IncOp; _Rparen; _Rbrack; _Rbrace; _Break; _Continue; _Fallthrough; _Return].

Definition op_tokens : list token := [_Operator; _AssignOp; _IncOp; _Star].

Definition semi_token (t : token) : bool := existsb (tok_eqb t) semi_tokens.
Definition op_token (t : token) : bool := existsb (tok_eqb t) op_tokens.

(** The keyword map holds keywords only. *)
Lemma keywordMap_check :
  forallb (fun t => tok_eqb t _None ||
    Bool.eqb (contains (tokset [_Break; _Continue; _Fallthrough; _Return]) t) (semi_token t) &&
    negb (op_token t)) keywordMap = true.
Proof. vm_compute. reflexivity. Qed.

Lemma keyword_lookup_token l t :
  keyword_lookup l = Some t ->
  t <> _None /\ contains (tokset [_Break; _Continue; _Fallthrough; _Return]) t = semi_token t /\
  op_token t = false.
Proof.
  unfold keyword_lookup. pose proof keywordMap_check as Hc.
  generalize dependent keywordMap. intros m Hc Hk. rewrite forallb_forall in Hc.
  case_test_in Hk; [|done]. cbv zeta in Hk. case_test_in Hk; [|done].
  injection Hk as Hk. apply andb_true_iff in Heqb0 as [Hn _]. rewrite Hk in Hn.
  apply negb_true_iff, tok_eqb_neq in Hn. split; [done|].
  assert (Hin : In t m).
  { unfold nthZ in Hk. case_test_in Hk; [by subst|].
    destruct (nth_in_or_default (Z.to_nat (hash l)) m _None) as [Hin|Hd]; [by rewrite <- Hk|].
    congruence. }
  specialize (Hc t Hin). apply orb_true_iff in Hc as [Hc|Hc]; [by apply tok_eqb_eq in Hc|].
  apply andb_true_iff in Hc as [Hc Ho]. apply eqb_prop in Hc. by apply negb_true_iff in Ho.
Qed.

Create HintDb plain.
#[export] Hint Resolve plain_fmt_q plain_msg_append : plain.
#[export] Hint Extern 1 (plain_msg _ = true) => reflexivity : plain.

Section Laws.
Context {src : Type} `{SourceLaws src}.
Implicit Types (r : src) (s : scanner src).

(** ** Reading *)

(** What reading does to a reader. *)
Record adv (r r' : src) : Prop := {
  adv_ok : src_ok r';
  adv_left : (src_left r' <= src_left r)%nat;
  adv_active : src_active r' = src_active r;
  adv_mark : (src_mark r' <= src_mark r)%nat;
  adv_seg : src_active r = true -> exists w, src_seg r' = src_seg r ++ w;
  adv_grow : src_active r = true -> src_ch r <> -1 -> src_ch r <> 32 ->
    r' = r \/ lenZ (src_seg r) < lenZ (src_seg r')
}.

Lemma adv_refl r : src_ok r -> adv r r.
Proof. split; try done; [|by left]. exists []. by rewrite app_nil_r. Qed.

Lemma adv_trans r1 r2 r3 : adv r1 r2 -> adv r2 r3 -> adv r1 r3.
Proof.
  intros A B. destruct A, B. split; try done; try lia; try congruence; intros Ha.
  - destruct adv_seg0 as [w1 E1]; [done|]. destruct adv_seg1 as [w2 E2]; [congruence|].
    exists (w1 ++ w2). by rewrite E2, E1, app_assoc.
  - intros Hc Hs. destruct (adv_grow0 Ha Hc Hs) as [->|]; [by apply adv_grow1|]. right.
    destruct adv_seg1 as [w2 ->]; [congruence|]. rewrite lenZ_app. pose proof (lenZ_nonneg w2). lia.
Qed.

(** Reading that used up input made the active segment longer. *)
Lemma adv_longer r r' :
  adv r r' -> src_active r = true -> src_ch r <> -1 -> src_ch r <> 32 ->
  (src_left r' < src_left r)%nat -> lenZ (src_seg r) < lenZ (src_seg r').
Proof. intros A Ha Hc Hs Hl. destruct (adv_grow _ _ A Ha Hc Hs) as [->|]; [lia|done]. Qed.

(** The result of a computation that only reads: the rest of the scanner's
    state is unchanged; [P] says more about the value and the reader. *)
Definition reads {A} (P : A -> src -> Prop) s : A -> scanner src -> list scanev -> Prop :=
  fun a s' t => exists r, s' = set_source_ r s /\ adv (source_ s) r /\ good t /\ P a r.

Definition reader {A} (m : SM A) : Prop :=
  forall s, src_ok (source_ s) -> twp m (reads (fun _ _ => True) s) s.

Lemma twp_lift {A} (m : GM string srcerr src A) Q s a r t :
  m (source_ s) = Ok (a, r, t) ->
  Q a (set_source_ r s) (map (fun e : srcerr => let '(l, c, msg) := e in (l, c, msg, blank s)) t) ->
  twp (lift m) Q s.
Proof. intros Hm HQ. unfold wp, lift. by rewrite Hm. Qed.

Lemma good_lift (t : list srcerr) b :
  Forall (fun e : srcerr => plain_msg e.2 = true) t ->
  good (map (fun e : srcerr => let '(l, c, msg) := e in (l, c, msg, b)) t).
Proof. induction 1 as [|[[l c] m] t Hm Ht IH]; constructor; [by left|done]. Qed.

Lemma twp_nextch Q s :
  src_ok (source_ s) ->
  (forall r t, adv (source_ s) r -> good t ->
     (src_ch (source_ s) <> -1 -> (src_left r < src_left (source_ s))%nat) ->
     (src_active (source_ s) = true -> exists skipped,
        src_seg r = src_seg (source_ s) ++ src_cur (source_ s) ++ skipped /\ high_bytes skipped /\
        (src_ch (source_ s) <> 10 -> (src_pos r).2 = u64 ((src_pos (source_ s)).2 + lenZ (src_cur (source_ s) ++ skipped)))) ->
     Q tt (set_source_ r s) t) ->
  twp nextch Q s.
Proof.
  intros Hok HQ. destruct (law_nextch (source_ s) Hok) as (r & t & Hn & Hok' & Ha & Hm & Hl & Hl' & Hs & Ht).
  eapply twp_lift; [exact Hn|]. apply HQ.
  - split; try done; intros Hact; destruct (Hs Hact) as (sk & -> & _); [by eauto|].
    intros Hc H32. right. rewrite !lenZ_app. pose proof (lenZ_nonneg sk).
    assert (src_cur (source_ s) <> []).
    { pose proof (law_eof _ Hok). destruct (Z.ltb_spec (src_ch (source_ s)) RuneSelf);
        [|by apply law_high]. rewrite law_cur; [done|done|lia|done]. }
    destruct (src_cur (source_ s)) as [|x l]; [done|]. rewrite lenZ_cons.
    pose proof (lenZ_nonneg l). lia.
  - by apply good_lift.
  - exact Hl'.
  - intros Hact. destruct (Hs Hact) as (sk & Hseg & Hh & Hp). exists sk. split_and!; [done|done|].
    intros Hc. by apply Hp.
Qed.

Lemma twp_reader {A} (m : SM A) Q s :
  reader m -> src_ok (source_ s) ->
  (forall a r t, adv (source_ s) r -> good t -> Q a (set_source_ r s) t) -> twp m Q s.
Proof.
  intros Hm Hok HQ. eapply wp_mono; [by apply Hm|].
  intros a s' t (r & -> & Ha & Ht & _). by apply HQ.
Qed.

Lemma twp_errorf msg Q s :
  plain_msg msg = true -> (forall e, good_event e -> Q tt s [e]) -> twp (errorf msg) Q s.
Proof. intros Hp HQ. unfold errorf. apply wp_bind, wp_gets, wp_bind, wp_gets, wp_emit, HQ. by left. Qed.

Lemma twp_errorAtf off msg Q s :
  plain_msg msg = true -> (forall e, good_event e -> Q tt s [e]) -> twp (errorAtf off msg) Q s.
Proof.
  intros Hp HQ. unfold errorAtf.
  apply wp_bind, wp_gets, wp_bind, wp_gets, wp_bind, wp_gets, wp_emit, HQ. by left.
Qed.

Lemma twp_basename base (Q : string -> scanner src -> list scanev -> Prop) s :
  In base [2; 8; 10; 16] -> (forall n, plain_msg n = true -> Q n s []) -> twp (basename base) Q s.
Proof.
  intros Hb HQ. unfold basename, baseName.
  destruct Hb as [<-|[<-|[<-|[<-|[]]]]]; apply wp_ret, HQ; reflexivity.
Qed.

(** Loops: every round reads something, or leaves the loop. *)
Lemma twp_loopM_at {X Y} (body : X -> SM (X + Y)) (I : X -> src -> Prop) P x s :
  src_ok (source_ s) -> I x (source_ s) ->
  (forall x r, adv (source_ s) r -> I x r ->
     twp (body x) (reads (fun y r' => match y with
                              | inl x' => I x' r' /\ (src_left r' < src_left r)%nat
                              | inr y => P y r'
                              end) (set_source_ r s)) (set_source_ r s)) ->
  twp (loopM body x) (reads P s) s.
Proof.
  intros Hok HI Hb. unfold loopM. apply wp_bind, wp_gets. unfold rounds.
  eapply wp_mono.
  - apply (wp_iterM _ _
      (fun x s' t => exists r, s' = set_source_ r s /\ adv (source_ s) r /\ good t /\ I x r)
      (fun _ s => src_left (source_ s)) body (reads P s)) with (t := []).
    + intros x1 s1 t1 (r1 & -> & Ha1 & Ht1 & HI1).
      eapply wp_mono; [by apply Hb|].
      intros [x2|y] s2 t2 (r2 & -> & Ha2 & Ht2 & HP).
      * destruct HP as [HI2 Hl]. split; [|by right].
        exists r2. split_and!; [done|by eapply adv_trans|by apply Forall_app|done].
      * exists r2. split_and!; [done|by eapply adv_trans|by apply Forall_app|done].
    + exists (source_ s). split_and!; [by destruct s|by apply adv_refl|constructor|done].
    + right. lia.
  - intros y s' t'. done.
Qed.

Lemma twp_loopM {X Y} (body : X -> SM (X + Y)) (I : X -> src -> Prop) P x s :
  src_ok (source_ s) -> I x (source_ s) ->
  (forall x s, src_ok (source_ s) -> I x (source_ s) ->
     twp (body x) (reads (fun y r => match y with
                              | inl x' => I x' r /\ (src_left r < src_left (source_ s))%nat
                              | inr y => P y r
                              end) s) s) ->
  twp (loopM body x) (reads P s) s.
Proof.
  intros Hok HI Hb. apply (twp_loopM_at body I); [done|done|]. intros x' r Ha Hx.
  apply (Hb x' (set_source_ r s)); [by destruct Ha|done].
Qed.

Lemma reads_intro {A} (P : A -> src -> Prop) s a s' t :
  s' = set_source_ (source_ s') s -> adv (source_ s) (source_ s') -> good t -> P a (source_ s') ->
  reads P s a s' t.
Proof. intros. by exists (source_ s'). Qed.

Lemma good_nil : good []. Proof. constructor. Qed.
Lemma good_one e : good_event e -> good [e]. Proof. by repeat constructor. Qed.
Lemma good_app t1 t2 : good t1 -> good t2 -> good (t1 ++ t2).
Proof. intros. by apply Forall_app. Qed.

Lemma adv_src_ok r r' : adv r r' -> src_ok r'.
Proof. by intros []. Qed.
End Laws.

Create HintDb scan.
#[export] Hint Resolve adv_refl adv_src_ok good_nil good_one good_app : scan.
#[export] Hint Extern 1 (In _ [2; 8; 10; 16]) => solve [cbn; auto 6] : scan.
#[export] Hint Extern 5 (adv _ _) => eapply adv_trans; [eassumption|] : scan.

(** Expose the reader under updates of the scanner. *)
Ltac src_simpl :=
  cbn [source_ set_source_ mode nlsemi line col blank tok lit bad kind op prec] in *; unfold ch, pos in *;
  cbn [source_ set_source_] in *.

(** One step of symbolic execution of a reading computation. *)
Ltac scan_step :=
  match goal with
  | |- wp _ _ (bind _ _) _ _ => apply wp_bind
  | |- wp _ _ (ret _) _ _ => apply wp_ret
  | |- wp _ _ (gets _) _ _ => apply wp_gets; src_simpl
  | |- wp _ _ (errorf _) _ _ => apply twp_errorf; [by auto with plain|intros ? ?]
  | |- wp _ _ (errorAtf _ _) _ _ => apply twp_errorAtf; [by auto with plain|intros ? ?]
  | |- wp _ _ (basename _) _ _ => apply twp_basename; [by auto with scan|intros ? ?]
  | |- wp _ _ nextch _ _ => apply twp_nextch; [by eauto with scan|intros ? ? ? ? ? ?; src_simpl]
  | |- wp _ _ (match ?x with _ => _ end) _ _ => destruct x eqn:?
  | |- wp _ _ _ _ _ => eapply twp_reader; [by eauto with scan|by eauto with scan|intros ? ? ? ? ?; src_simpl]
  end; cbv beta in *.

(** A character that a test recognised is not the end of the input. *)
Ltac not_eof :=
  let E := fresh in
  intros E; rewrite E in *;
  first [ discriminate | congruence | b2p; lia
        | repeat match goal with Hb : (_ || _) = true |- _ => apply orb_true_iff in Hb as [?|?] end;
          discriminate ].

(** The input that was used up, from the reads that are known. *)
Ltac left_facts :=
  repeat match goal with
  | H : src_ch ?r <> -1 -> _ |- _ =>
      first [ let Hx := fresh in assert (Hx : src_ch r <> -1) by not_eof; specialize (H Hx); clear Hx
            | clear H ]
  end;
  repeat match goal with H : adv _ _ |- _ => apply adv_left in H end; lia.

(** Close a reading computation. *)
Ltac scan_done :=
  match goal with
  | |- reads _ ?s _ _ _ =>
      apply reads_intro;
      [ by destruct s | src_simpl; by eauto 10 with scan | by eauto 10 with scan
      | src_simpl; first [ exact I | split; [by auto|left_facts] | by auto | idtac ] ]
  end.
Ltac scan := repeat scan_step; try scan_done.

Section Readers.
Context {src : Type} `{SourceLaws src}.
Implicit Types (r : src) (s : scanner src).

Lemma reader_escape_digits n base x : In base [2; 8; 10; 16] -> reader (escape_digits n base x).
Proof.
  intros Hb. revert x. induction n as [|n IH]; intros x s Hok; cbn [escape_digits]; scan.
Qed.
#[local] Hint Resolve reader_escape_digits : scan.

Lemma reader_escape_value n base maxi : In base [2; 8; 10; 16] -> reader (escape_value n base maxi).
Proof. intros Hb s Hok. unfold escape_value. scan. Qed.
#[local] Hint Resolve reader_escape_value : scan.

Lemma reader_escape quote : reader (escape quote).
Proof. intros s Hok. unfold escape. scan. Qed.
#[local] Hint Resolve reader_escape : scan.

Lemma reader_comment_prefix ms : reader (match_prefix ms).
Proof.
  induction ms as [|m ms IH]; intros s Hok; cbn [match_prefix]; scan.
Qed.

Lemma reader_skip_while cond : cond (-1) = false -> reader (skip_while cond).
Proof.
  intros Hc s Hok. unfold skip_while, whileM.
  change (bind (gets rounds) ?k) with (bind (gets (rounds (src:=src))) k).
  pose proof (twp_loopM (fun _ : unit =>
    bind (gets (fun s => cond (ch s))) (fun b => if b then nextch;;; ret (inl tt) else ret (inr tt)))
    (fun _ _ => True) (fun _ _ => True) tt s Hok I) as Hl.
  apply Hl. intros [] s1 Hok1 _. scan.
Qed.
#[local] Hint Resolve reader_skip_while reader_comment_prefix : scan.

Lemma reader_loopM {X Y} (body : X -> SM (X + Y)) x :
  (forall x s, src_ok (source_ s) ->
     twp (body x) (reads (fun y r => match y with
                              | inl x' => True /\ (src_left r < src_left (source_ s))%nat
                              | inr y => True
                              end) s) s) ->
  reader (loopM body x).
Proof. intros Hb s Hok. apply (twp_loopM body (fun _ _ => True)); auto. Qed.

Lemma reader_skipLine : reader skipLine.
Proof. by apply reader_skip_while. Qed.

Lemma twp_atIdentChar first Q s :
  (forall b t, good t -> (b = true -> src_ch (source_ s) <> -1) -> Q b s t) ->
  twp (atIdentChar first) Q s.
Proof.
  intros HQ. unfold atIdentChar. apply wp_bind, wp_gets. src_simpl.
  repeat scan_step; apply HQ; auto with scan; intros ?; not_eof.
Qed.

Lemma reader_skip_stars : reader skip_stars.
Proof. apply reader_loopM. intros [] s Hok. scan. Qed.
#[local] Hint Resolve reader_skipLine reader_skip_stars : scan.

Lemma adv_seg_length r r' :
  adv r r' -> src_active r = true -> lenZ (src_seg r) <= lenZ (src_seg r').
Proof.
  intros Ha Hr. destruct (adv_seg _ _ Ha Hr) as [w ->]. rewrite lenZ_app.
  pose proof (lenZ_nonneg w). lia.
Qed.

(** Reading an ASCII character makes the active segment longer. *)
Lemma next_seg_length r r' c :
  src_ok r -> src_ch r = c -> 0 <= c < RuneSelf -> c <> 32 ->
  (exists skipped, src_seg r' = src_seg r ++ src_cur r ++ skipped /\ high_bytes skipped /\
    (src_ch r <> 10 -> (src_pos r').2 = u64 ((src_pos r).2 + lenZ (src_cur r ++ skipped)))) ->
  lenZ (src_seg r) + 1 <= lenZ (src_seg r').
Proof.
  intros Hok <- Hc Hn (sk & -> & _). rewrite (law_cur r Hok Hc Hn), !lenZ_app.
  pose proof (lenZ_nonneg sk). change (lenZ [src_ch r]) with 1. lia.
Qed.

(** The loop over stars stands still or reads, and reads the two closing
    characters when it finds the end. *)
Lemma twp_skip_stars s :
  src_ok (source_ s) ->
  twp skip_stars (reads (fun b r =>
    (b = false -> r = source_ s \/ (src_left r < src_left (source_ s))%nat) /\
    (b = true -> src_active (source_ s) = true ->
       lenZ (src_seg (source_ s)) + 2 <= lenZ (src_seg r))) s) s.
Proof.
  intros Hok. unfold skip_stars.
  apply (twp_loopM _ (fun _ r => (r = source_ s \/ (src_left r < src_left (source_ s))%nat) /\
    adv (source_ s) r)); [done|split; [by left|by apply adv_refl]|].
  intros [] s1 Hok1 [Hr Ha]. repeat scan_step; b2p.
  - apply reads_intro; [by destruct s1|src_simpl; by eauto 10 with scan|by eauto 10 with scan|].
    split; [done|]. intros _ Hact. src_simpl.
    assert (Hact1 : src_active (source_ s1) = true) by (by rewrite (adv_active _ _ Ha)).
    pose proof (adv_seg_length _ _ Ha Hact).
    assert (lenZ (src_seg (source_ s1)) + 1 <= lenZ (src_seg r)).
    { eapply next_seg_length; [done|done|unfold RuneSelf; lia|lia|auto]. }
    assert (lenZ (src_seg r) + 1 <= lenZ (src_seg r0)); [|lia].
    eapply next_seg_length; [by eauto with scan|done|unfold RuneSelf; lia|lia|].
    match goal with Hs : src_active r = true -> _ |- _ => apply Hs end.
    by match goal with Hs : adv (source_ s1) r |- _ => rewrite (adv_active _ _ Hs) end.
  - apply reads_intro; [by destruct s1|src_simpl; by eauto 10 with scan|by eauto 10 with scan|].
    src_simpl. assert (src_left r < src_left (source_ s1))%nat by left_facts.
    apply adv_left in Ha as Hl. split; [split|]; [right; lia| |lia]. by eapply adv_trans.
  - apply reads_intro; [by destruct s1|src_simpl; by eauto 10 with scan|by eauto 10 with scan|].
    src_simpl. done.
Qed.

Lemma twp_skipComment s :
  src_ok (source_ s) ->
  twp skipComment (reads (fun b r => b = true -> src_active (source_ s) = true ->
    lenZ (src_seg (source_ s)) + 2 <= lenZ (src_seg r)) s) s.
Proof.
  intros Hok. unfold skipComment. apply wp_bind.
  eapply wp_mono.
  - apply (twp_loopM _ (fun _ r => adv (source_ s) r) (fun b r => b = true ->
      src_active (source_ s) = true -> lenZ (src_seg (source_ s)) + 2 <= lenZ (src_seg r)));
      [done|by apply adv_refl|].
    intros [] s1 Hok1 Ha. apply wp_bind, wp_gets. src_simpl.
    destruct (0 <=? src_ch (source_ s1)) eqn:Ec; [|by scan].
    apply wp_bind. eapply wp_mono; [by apply twp_skip_stars|].
    intros b s2 t2 (r2 & -> & Ha2 & Ht2 & Hf & Ht). destruct b.
    + apply wp_ret. apply reads_intro; [by destruct s1|done|by auto with scan|]. intros _ Hact. src_simpl.
      pose proof (adv_seg_length _ _ Ha Hact). specialize (Ht eq_refl).
      rewrite (adv_active _ _ Ha) in Ht. specialize (Ht Hact). lia.
    + repeat scan_step. apply reads_intro; [by destruct s1|by eauto with scan|by auto with scan|].
      src_simpl. split; [by eauto with scan|]. apply adv_left in Ha2, H1.
      destruct (Hf eq_refl) as [->|]; [|lia]. assert (src_ch (source_ s1) <> -1) by (b2p; lia). auto.
  - intros b s1 t1 (r & -> & Ha & Ht & Hb). scan; by eauto with scan.
Qed.
End Readers.

(** ** Tokens: totality and progress *)

#[export] Hint Resolve reader_escape_digits reader_escape_value reader_escape reader_comment_prefix
  reader_skip_while reader_skipLine reader_skip_stars : scan.

(** Expose the fields under updates of the scanner. *)
Ltac sc_simpl :=
  cbn [source_ set_source_ mode nlsemi line col blank tok lit bad kind op prec set_mode set_nlsemi set_line
       set_col set_blank set_tok set_lit set_bad set_kind set_op set_prec] in *; unfold ch, pos in *;
  cbn [source_ set_source_ set_mode set_nlsemi set_line set_col set_blank set_tok set_lit set_bad
       set_kind set_op set_prec] in *.

Section TokenFunctions.
Context {src : Type} `{SourceLaws src}.
Implicit Types (r : src) (s : scanner src).

(** What reading a token leaves: the reader is fine and did not go back, the
    token's start position is unchanged and the reported events are good. *)
Record lexes {A} (P : A -> scanner src -> Prop) s (a : A) s' (t : list scanev) : Prop := {
  lx_ok : src_ok (source_ s');
  lx_left : (src_left (source_ s') <= src_left (source_ s))%nat;
  lx_meta : (mode s', line s', col s', blank s') = (mode s, line s, col s, blank s);
  lx_good : good t;
  lx_post : P a s'
}.

Lemma reads_lexes {A} (m : SM A) P Q s :
  twp m (reads P s) s -> (forall a r, adv (source_ s) r -> P a r -> Q a (set_source_ r s)) ->
  twp m (lexes Q s) s.
Proof.
  intros Hm HQ. eapply wp_mono; [exact Hm|]. intros a s' t (r & -> & Ha & Ht & HP).
  split; [by destruct Ha|by destruct Ha|done|done|by apply HQ].
Qed.

Lemma twp_setLit k ok Q s :
  src_ok (source_ s) -> src_active (source_ s) = true ->
  Q tt (set_kind k (set_bad (negb ok) (set_lit (string_of_bytes (src_seg (source_ s)))
          (set_tok _Literal (set_nlsemi true s))))) [] ->
  twp (setLit k ok) Q s.
Proof.
  intros Hok Ha HQ. unfold setLit. apply wp_bind, wp_modify, wp_bind.
  eapply twp_lift; [apply law_segment; sc_simpl; done|]. apply wp_modify. exact HQ.
Qed.

Lemma twp_comment_segment Q s :
  src_ok (source_ s) -> src_active (source_ s) = true ->
  comment_msg (string_of_bytes (src_seg (source_ s))) = true \/
    hash_msg (string_of_bytes (src_seg (source_ s))) = true ->
  (forall t, good t -> Q tt s t) -> twp comment_segment Q s.
Proof.
  intros Hok Ha Hm HQ. unfold comment_segment, comment. apply wp_bind.
  eapply twp_lift; [by apply law_segment|].
  unfold errorAtf. apply wp_bind, wp_gets, wp_bind, wp_gets, wp_bind, wp_gets, wp_emit.
  replace (set_source_ (source_ s) s) with s by (by destruct s). apply HQ.
  constructor; [by right|constructor].
Qed.

(** The text of a comment: [comment_start l] says that the segment read so
    far can only continue to a good comment. *)
Definition comment_start (l : list byte) : Prop :=
  (exists l', l = "#"%rune :: l') \/
  (exists sk c l', l = "/"%rune :: sk ++ c :: l' /\ high_bytes sk /\ c = "/"%rune) \/
  (4 <= lenZ l /\ exists l', l = "/"%rune :: l').

Lemma comment_start_app l w : comment_start l -> comment_start (l ++ w).
Proof.
  intros [(l' & ->)|[(sk & c & l' & -> & ?)|(Hl & l' & ->)]].
  - left. by exists (l' ++ w).
  - right; left. exists sk, c, (l' ++ w). by rewrite app_comm_cons, <- app_assoc.
  - right; right. rewrite lenZ_app. pose proof (lenZ_nonneg w). split; [lia|]. by exists (l' ++ w).
Qed.

Lemma comment_start_msg l :
  Forall is_byte l -> comment_start l ->
  comment_msg (string_of_bytes l) = true \/ hash_msg (string_of_bytes l) = true.
Proof.
  intros Hb Hl. unfold comment_msg, hash_msg. rewrite bytes_of_string_of_bytes by done.
  destruct Hl as [(l' & ->)|[(sk & c & l' & -> & Hsk & ->)|(Hl & l' & ->)]].
  - by right.
  - left. destruct sk as [|x sk]; cbn [app]; rewrite nthZ_0, nthZ_1, !lenZ_cons.
    + pose proof (lenZ_nonneg l'). decide_tests. by rewrite orb_true_r.
    + inversion_clear Hsk as [|? ? Hx _]. unfold RuneSelf in Hx.
      rewrite lenZ_app, lenZ_cons. pose proof (lenZ_nonneg l'). pose proof (lenZ_nonneg sk).
      by decide_tests.
  - left. rewrite nthZ_0, !lenZ_cons in *. pose proof (lenZ_nonneg l').
    case_test; by decide_tests.
Qed.

Lemma twp_stop Q s :
  src_ok (source_ s) ->
  (forall r, src_ok r -> src_ch r = src_ch (source_ s) -> src_pos r = src_pos (source_ s) ->
     src_left r = src_left (source_ s) -> Q tt (set_source_ r s) []) -> twp stop Q s.
Proof.
  intros Hok HQ. unfold stop. apply wp_modify.
  destruct (law_stop (source_ s) Hok) as (? & ? & ? & ?). by apply HQ.
Qed.

Lemma lexes_intro {A} (P : A -> scanner src -> Prop) s a s' t :
  (mode s', line s', col s', blank s') = (mode s, line s, col s, blank s) ->
  src_ok (source_ s') -> (src_left (source_ s') <= src_left (source_ s))%nat ->
  good t -> P a s' -> lexes P s a s' t.
Proof. by split. Qed.

Lemma twp_stop_skip (m : SM bool) s :
  reader m -> src_ok (source_ s) -> twp (stop;;; m;;; ret tt) (lexes (fun _ _ => True) s) s.
Proof.
  intros Hm Hok. apply wp_bind, twp_stop; [done|]. intros r Hr _ _ Hl. apply wp_bind.
  apply twp_reader; [done|done|]. intros b r' t Ha Ht. sc_simpl. apply wp_ret.
  apply lexes_intro; sc_simpl; [done|by eauto with scan|apply adv_left in Ha; lia|by auto with scan|done].
Qed.

Lemma twp_stop_skipLine s :
  src_ok (source_ s) -> twp (stop;;; skipLine) (lexes (fun _ _ => True) s) s.
Proof.
  intros Hok. apply wp_bind, twp_stop; [done|]. intros r Hr _ _ Hl.
  apply twp_reader; [by auto with scan|done|]. intros b r' t Ha Ht. sc_simpl.
  apply lexes_intro; sc_simpl; [done|by eauto with scan|apply adv_left in Ha; lia|by auto with scan|done].
Qed.

Lemma reader_skipComment : reader skipComment.
Proof.
  intros s Hok. eapply wp_mono; [by apply twp_skipComment|].
  intros b s' t (r & ? & ? & ? & _). exists r. split_and!; done.
Qed.

(** Report the segment once it has grown from a comment's start. *)
Lemma twp_comment_from s r t :
  src_ok (source_ s) -> src_active (source_ s) = true -> comment_start (src_seg r) ->
  adv (source_ s) r -> good t ->
  twp comment_segment (fun u s2 t2 => lexes (fun _ _ => True) s u s2 (t ++ t2)) (set_source_ r s).
Proof.
  intros Hok Hact Hc Ha Ht. assert (Hr : src_ok r) by by destruct Ha.
  apply twp_comment_segment; sc_simpl; [done|by rewrite (adv_active _ _ Ha)| |].
  - apply comment_start_msg; [by apply law_bytes|done].
  - intros t' Ht'. apply lexes_intro; sc_simpl; [done|done|by destruct Ha|by auto with scan|done].
Qed.

Lemma adv_comment_start r r' :
  src_active r = true -> adv r r' -> comment_start (src_seg r) -> comment_start (src_seg r').
Proof. intros Hact Ha Hc. destruct (adv_seg _ _ Ha Hact) as [w ->]. by apply comment_start_app. Qed.

Lemma twp_lineComment s :
  src_ok (source_ s) -> src_active (source_ s) = true -> comment_start (src_seg (source_ s)) ->
  twp lineComment (lexes (fun _ _ => True) s) s.
Proof.
  intros Hok Hact Hc. unfold lineComment. apply wp_bind, wp_gets. case_test.
  - apply wp_bind, twp_reader; [by auto with scan|done|]. intros [] r t Ha Ht.
    apply twp_comment_from; try done. by apply (adv_comment_start (source_ s)).
  - apply wp_bind, wp_gets. case_test; [by apply twp_stop_skipLine|].
    apply wp_bind. eapply wp_mono; [by apply reader_comment_prefix|].
    intros b s1 t1 (r1 & -> & Ha1 & Ht1 & _). destruct b.
    + apply wp_bind, twp_reader; [by auto with scan|by destruct Ha1|]. intros [] r2 t2 Ha2 Ht2. sc_simpl.
      change (set_source_ r2 (set_source_ r1 s)) with (set_source_ r2 s).
      assert (Ha : adv (source_ s) r2) by by eapply adv_trans.
      eapply wp_mono; [apply (twp_comment_from s r2 (t1 ++ t2)); try done|].
      * by apply (adv_comment_start (source_ s)).
      * by apply good_app.
      * intros u s3 t3. cbv beta. by rewrite <- app_assoc.
    + eapply wp_mono; [apply twp_stop_skipLine; by destruct Ha1|].
      intros u s2 t2 [L1 L2 L3 L4 _]. apply adv_left in Ha1 as Hl. sc_simpl.
      apply lexes_intro; [done|done|lia|by auto with scan|done].
Qed.

Lemma twp_full_report s0 s t :
  src_ok (source_ s0) -> src_active (source_ s0) = true ->
  2 <= lenZ (src_seg (source_ s0)) -> (exists l, src_seg (source_ s0) = "/"%rune :: l) ->
  (exists r, s = set_source_ r s0 /\ adv (source_ s0) r) -> good t ->
  twp (let* b := skipComment in when b do comment_segment)
    (fun u s2 t2 => lexes (fun _ _ => True) s0 u s2 (t ++ t2)) s.
Proof.
  intros Hok Hact Hlen [l Hl] (r & -> & Ha) Ht. apply wp_bind.
  assert (Hr : src_ok r) by by destruct Ha.
  eapply wp_mono; [by apply twp_skipComment|].
  intros b s1 t1 (r1 & -> & Ha1 & Ht1 & Hb). sc_simpl.
  change (set_source_ r1 (set_source_ r s0)) with (set_source_ r1 s0).
  assert (Ha2 : adv (source_ s0) r1) by by eapply adv_trans.
  destruct b.
  - eapply wp_mono; [apply (twp_comment_from s0 r1 (t ++ t1)); try done; [|by apply good_app]|].
    + right; right. pose proof (adv_seg_length _ _ Ha Hact).
      specialize (Hb eq_refl). rewrite (adv_active _ _ Ha) in Hb. specialize (Hb Hact).
      split; [lia|]. destruct (adv_seg _ _ Ha2 Hact) as [w ->]. rewrite Hl. by exists (l ++ w).
    + intros u s2 t2. cbv beta. by rewrite <- app_assoc.
  - apply wp_ret. apply lexes_intro; sc_simpl; [done|by destruct Ha2|by destruct Ha2|by auto with scan|done].
Qed.

Lemma twp_fullComment s :
  src_ok (source_ s) -> src_active (source_ s) = true ->
  2 <= lenZ (src_seg (source_ s)) -> (exists l, src_seg (source_ s) = "/"%rune :: l) ->
  twp fullComment (lexes (fun _ _ => True) s) s.
Proof.
  intros Hok Hact Hlen Hl. unfold fullComment. apply wp_bind, wp_gets, wp_bind, wp_gets.
  assert (Hid : exists r, s = set_source_ r s /\ adv (source_ s) r)
    by (exists (source_ s); split; [by destruct s|by apply adv_refl]).
  case_test; [by apply (twp_full_report s s [])|].
  case_test; [apply twp_stop_skip; [apply reader_skipComment|done]|].
  apply wp_bind. eapply wp_mono; [by apply reader_comment_prefix|].
  intros b s1 t1 (r1 & -> & Ha1 & Ht1 & _). destruct b.
  - apply (twp_full_report s _ t1); try done. by exists r1.
  - eapply wp_mono; [apply twp_stop_skip; [apply reader_skipComment|by destruct Ha1]|].
    intros u s2 t2 [L1 L2 L3 L4 _]. apply adv_left in Ha1 as Hle. sc_simpl.
    apply lexes_intro; [done|done|lia|by auto with scan|done].
Qed.
End TokenFunctions.

(** ** Numbers *)
Section Numbers.
Context {src : Type} `{SourceLaws src}.
Implicit Types (r : src) (s : scanner src).

(** Inside a token that starts in column [c0], the column counts the bytes
    of the active segment. *)
Definition aligned (c0 : Z) r : Prop :=
  src_active r = true /\ u64 (src_pos r).2 = u64 (c0 + lenZ (src_seg r)) /\
  Z.of_nat (src_mark r) < 2 ^ 62.

Lemma aligned_length c0 r : src_ok r -> aligned c0 r -> lenZ (src_seg r) < 2 ^ 62.
Proof.
  intros Hok (Ha & _ & Hm). pose proof (law_mark r Hok Ha) as Hl. rewrite length_app in Hl.
  unfold lenZ. lia.
Qed.

Lemma u64_small x : 0 <= x < 2 ^ 64 -> u64 x = x.
Proof. apply Z.mod_small. Qed.

(** The offset that [digits] and the checks compute. *)
Lemma aligned_offset c0 r :
  src_ok r -> aligned c0 r -> s64 (u64 ((src_pos r).2 - c0)) = lenZ (src_seg r).
Proof.
  intros Hok Ha. pose proof (aligned_length _ _ Hok Ha) as Hl. destruct Ha as (_ & Hp & _).
  pose proof (lenZ_nonneg (src_seg r)) as H0'. unfold u64 in *.
  rewrite Zminus_mod, Hp, <- Zminus_mod.
  replace (c0 + lenZ (src_seg r) - c0) with (lenZ (src_seg r)) by lia.
  rewrite (Z.mod_small (lenZ _)) by lia. unfold s64. rewrite Z.mod_small by lia. lia.
Qed.


Definition nreads {A} (c0 : Z) (P : A -> src -> Prop) s :=
  reads (fun a r => aligned c0 r /\ P a r) s.

Lemma twp_nextch_num c0 Q s :
  src_ok (source_ s) -> aligned c0 (source_ s) -> src_ch (source_ s) <> 10 ->
  (forall r t, adv (source_ s) r -> good t -> aligned c0 r ->
     (src_ch (source_ s) <> -1 -> (src_left r < src_left (source_ s))%nat) ->
     (0 <= src_ch (source_ s) < RuneSelf -> src_ch (source_ s) <> 32 ->
        lenZ (src_seg (source_ s)) + 1 <= lenZ (src_seg r)) ->
     Q tt (set_source_ r s) t) -> twp nextch Q s.
Proof.
  intros Hok (Hact & Hp & Hm) Hn HQ. apply twp_nextch; [done|]. intros r t Ha Ht Hl Hs. apply HQ; try done.
  - destruct (Hs Hact) as (sk & Hseg & _ & Hpos). split_and!.
    + by rewrite (adv_active _ _ Ha).
    + rewrite (Hpos Hn), Hseg, (lenZ_app (src_seg (source_ s))), Z.add_assoc. unfold u64 in *.
      rewrite Z.mod_mod by lia.
      rewrite <- (Z.add_mod_idemp_l (src_pos (source_ s)).2), Hp, Z.add_mod_idemp_l by lia. done.
    + apply adv_mark in Ha. lia.
  - intros Hc H32. eapply next_seg_length; [done|done|done|done|auto].
Qed.

Lemma twp_digit c0 base inv s :
  src_ok (source_ s) -> aligned c0 (source_ s) -> col s = c0 ->
  (inv = None -> base = 10 /\ (isDecimal (src_ch (source_ s)) || (src_ch (source_ s) =? 95)) = true) ->
  twp (digit base inv) (fun a s' t => s' = s /\ t = [] /\
    match inv with
    | Some i => exists i', a.2 = Some i' /\ (i' = i \/ i' = lenZ (src_seg (source_ s)))
    | None => a.2 = None
    end) s.
Proof.
  intros Hok Ha Hc Hnone. unfold digit. apply wp_bind, wp_gets. sc_simpl.
  case_test; [apply wp_ret; split_and!; try done; destruct inv; eauto|].
  case_test; [|apply wp_ret; split_and!; try done; destruct inv; eauto].
  destruct inv as [i|].
  - case_test; [|apply wp_ret; split_and!; try done; eauto].
    apply wp_bind, wp_gets, wp_bind, wp_gets, wp_ret. split_and!; try done. cbn [snd].
    eexists. split; [done|]. right. rewrite Hc. by apply aligned_offset.
  - exfalso. destruct Hnone as [-> Hd]; [done|]. unfold isDecimal in Hd. b2p. destruct Hd; b2p; lia.
Qed.

Lemma digit_range base c :
  (if base <=? 10 then isDecimal c else isHex c) || (c =? 95) = true -> 48 <= c <= 122.
Proof.
  unfold isDecimal, isHex. intros Ec. apply orb_true_iff in Ec as [Ec|Ec]; [|b2p; lia].
  case_test_in Ec; b2p; [lia|]. destruct Ec as [Ec|Ec]; b2p; [lia|].
  pose proof (lower_letter c). lia.
Qed.

Lemma twp_digits c0 base inv s :
  src_ok (source_ s) -> aligned c0 (source_ s) -> col s = c0 ->
  In base [2; 8; 10; 16] -> (inv = None -> base = 10) ->
  (forall i, inv = Some i -> i < lenZ (src_seg (source_ s))) ->
  twp (digits base inv) (nreads c0 (fun a r =>
    match inv with
    | Some _ => exists i, a.2 = Some i /\ i < lenZ (src_seg r)
    | None => True
    end /\ (isDecimal (src_ch (source_ s)) = true -> (src_left r < src_left (source_ s))%nat)) s) s.
Proof.
  intros Hok Ha Hc Hb Hn Hi. unfold digits, nreads.
  set (inv_ok := fun (i : option Z) r => match inv with
    | Some _ => exists j, i = Some j /\ j < lenZ (src_seg r) | None => i = None end).
  eapply wp_mono; [apply (twp_loopM_at _ (fun x r => aligned c0 r /\
    (r = source_ s \/ (src_left r < src_left (source_ s))%nat) /\ inv_ok x.2 r)
    (fun x r => (aligned c0 r /\ (r = source_ s \/ (src_left r < src_left (source_ s))%nat) /\
    inv_ok x.2 r) /\ isDecimal (src_ch r) = false)); [done| |]|].
  - split_and!; [done|by left|]. unfold inv_ok. destruct inv; eauto.
  - intros [ds i1] r1 Ha1 (Hal1 & Hr1 & Hi1). apply wp_bind, wp_gets. sc_simpl.
    match goal with |- wp _ _ (if ?b then _ else _) _ _ => destruct b eqn:Ec end.
    + apply wp_bind. assert (Hok1 : src_ok r1) by by destruct Ha1.
      eapply wp_mono; [apply (twp_digit c0 base i1); sc_simpl; try done|].
      { intros ->. unfold inv_ok in Hi1. destruct inv; [by destruct Hi1 as (? & ? & _)|].
        split; [by apply Hn|]. rewrite (Hn eq_refl) in Ec. exact Ec. }
      intros [ds' i2] s2 t2 (-> & -> & Hi2).
      assert (Hch : 48 <= src_ch r1 <= 122).
      { by eapply digit_range. }
      assert (Hch32 : src_ch r1 <> 32) by lia.
      apply wp_bind, (twp_nextch_num c0); sc_simpl; try done; [lia|].
      intros r3 t3 Ha3 Ht3 Hal3 Hl3 Hs3. apply wp_ret.
      apply reads_intro; sc_simpl; [done|done|by auto with scan|].
      assert (src_left r3 < src_left r1)%nat by (apply Hl3; lia).
      split; [split; [done|split]|done].
      * right. destruct Hr1 as [<-|]; [done|lia].
      * assert (Hs4 : lenZ (src_seg r1) + 1 <= lenZ (src_seg r3)) by (apply Hs3; unfold RuneSelf; lia).
        unfold inv_ok in *. cbn [snd] in *. destruct inv as [i|].
        -- destruct Hi1 as (j & -> & Hj). destruct Hi2 as (i' & -> & Hi'). exists i'. split; [done|lia].
        -- by subst i1.
    + apply wp_ret. apply reads_intro; sc_simpl;
        [done|apply adv_refl; by destruct Ha1|by auto with scan|].
      split; [done|]. apply orb_false_iff in Ec as [Ec _]. unfold isDecimal, isHex in *.
      case_test_in Ec; [done|]. by apply orb_false_iff in Ec as [? _].
  - intros [ds i'] s' t (r & -> & Ha' & Ht & (Hal & Hr & Hinv) & Hd).
    apply reads_intro; sc_simpl; [done|done|done|]. split; [done|]. split.
    + unfold inv_ok in Hinv. cbn [snd] in *. by destruct inv.
    + intros Hd'. destruct Hr as [->|]; [congruence|done].
Qed.

(** The variables of [number] against the segment read so far. *)
Definition vars_ok (v : numvars) r : Prop :=
  In (nbase v) [2; 8; 10; 16] /\ invalid v < lenZ (src_seg r).

Lemma vars_ok_mono v v' r r' :
  vars_ok v r -> nbase v' = nbase v -> invalid v' = invalid v ->
  lenZ (src_seg r) <= lenZ (src_seg r') -> vars_ok v' r'.
Proof. unfold vars_ok. intros [] -> -> ?. split; [done|lia]. Qed.

Lemma twp_number_digits c0 v s :
  src_ok (source_ s) -> aligned c0 (source_ s) -> col s = c0 -> vars_ok v (source_ s) ->
  twp (number_digits v) (nreads c0 (fun v' r => vars_ok v' r /\
    (isDecimal (src_ch (source_ s)) = true -> (src_left r < src_left (source_ s))%nat)) s) s.
Proof.
  intros Hok Ha Hc [Hb Hi]. unfold number_digits. apply wp_bind.
  eapply wp_mono; [apply (twp_digits c0); try done; by intros ? [= <-]|].
  intros [ds inv] s1 t1 (r & -> & Ha1 & Ht1 & Hal & (i & Hi' & Hlt) & Hl). cbn [snd] in Hi'. subst inv.
  apply wp_ret. apply reads_intro; sc_simpl; [done|done|by auto with scan|].
  split; [done|]. by split.
Qed.

Lemma twp_number_prefix c0 s :
  src_ok (source_ s) -> aligned c0 (source_ s) -> col s = c0 ->
  twp number_prefix (nreads c0 (fun v r => vars_ok v r /\
    (r = source_ s \/ (src_left r < src_left (source_ s))%nat)) s) s.
Proof.
  intros Hok Ha Hc. unfold number_prefix. apply wp_bind, wp_gets. sc_simpl.
  assert (Hv : forall k b p d r, In b [2; 8; 10; 16] -> vars_ok (Numvars true k b p d (-1)) r).
  { intros. split; [done|]. cbn. pose proof (lenZ_nonneg (src_seg r)). lia. }
  destruct (src_ch (source_ s) =? "0"%rune) eqn:E0.
  2: { apply wp_ret, reads_intro; [by destruct s|by apply adv_refl|by auto with scan|].
       split; [done|]. split; [apply Hv; cbn; auto|by left]. }
  b2p. apply wp_bind, (twp_nextch_num c0); sc_simpl; try done; [lia|].
  intros r1 t1 Ha1 Ht1 Hal1 Hl1 _. assert (Hlt : (src_left r1 < src_left (source_ s))%nat) by (apply Hl1; lia).
  apply wp_bind, wp_gets. sc_simpl. assert (Hok1 : src_ok r1) by by destruct Ha1.
  assert (Hlet : forall c, In c ["x"%rune; "o"%rune; "b"%rune] -> lower (src_ch r1) = c -> src_ch r1 <> 10).
  { intros c Hin Hlow. pose proof (lower_letter (src_ch r1)) as Hr. rewrite Hlow in Hr.
    destruct Hin as [<-|[<-|[<-|[]]]]; lia. }
  repeat case_test; b2p.
  1-3: apply wp_bind, (twp_nextch_num c0); sc_simpl; [done|done|eapply Hlet; [|done]; cbn; auto|];
    intros r2 t2 Ha2 Ht2 Hal2 _ _; apply wp_ret, reads_intro; sc_simpl;
    [done|by eapply adv_trans|by auto with scan|split; [done|]; split; [apply Hv; cbn; auto|]];
    right; apply adv_left in Ha2; lia.
  apply wp_ret, reads_intro; sc_simpl; [done|done|by auto with scan|].
  split; [done|]. split; [apply Hv; cbn; auto|by right].
Qed.

(** Compose two reading steps of a number. *)
Lemma nreads_trans {A} c0 (P : A -> src -> Prop) s r1 t1 a s2 t2 :
  adv (source_ s) r1 -> good t1 -> nreads c0 P (set_source_ r1 s) a s2 t2 ->
  nreads c0 P s a s2 (t1 ++ t2).
Proof.
  intros Ha Ht (r & -> & Ha' & Ht' & HP). exists r. sc_simpl.
  split; [done|]. split; [by eapply adv_trans|]. split; [by apply good_app|exact HP].
Qed.

Lemma twp_number_int c0 s :
  src_ok (source_ s) -> aligned c0 (source_ s) -> col s = c0 -> isDecimal (src_ch (source_ s)) = true ->
  twp number_int (nreads c0 (fun v r => vars_ok v.1 r /\
    (src_left r < src_left (source_ s))%nat) s) s.
Proof.
  intros Hok Ha Hc Hd. unfold number_int. apply wp_bind.
  eapply wp_mono; [by apply (twp_number_prefix c0)|].
  intros v1 s1 t1 (r1 & -> & Ha1 & Ht1 & Hal1 & Hv1 & Hr1). apply wp_bind.
  assert (Hok1 : src_ok r1) by by destruct Ha1.
  eapply wp_mono; [by apply (twp_number_digits c0)|].
  intros v2 s2 t2 (r2 & -> & Ha2 & Ht2 & Hal2 & Hv2 & Hd2). sc_simpl.
  assert (Ha12 : adv (source_ s) r2) by by eapply adv_trans.
  assert (Hl2 : (src_left r2 < src_left (source_ s))%nat).
  { apply adv_left in Ha2. destruct Hr1 as [->|]; [by apply Hd2|lia]. }
  assert (Hok2 : src_ok r2) by by destruct Ha2.
  apply wp_bind, wp_gets. sc_simpl. destruct (src_ch r2 =? "."%rune) eqn:Edot.
  2: { apply wp_ret, reads_intro; sc_simpl; [done|done|by auto with scan|]. by split_and!. }
  b2p. apply wp_bind.
  assert (Hfin : forall t v', good t -> nbase v' = nbase v2 -> invalid v' = invalid v2 ->
    twp (nextch;;; ret (v', true)) (fun a s' t' => nreads c0 (fun v r => vars_ok v.1 r /\
      (src_left r < src_left (source_ s))%nat) s a s' (t1 ++ t2 ++ t ++ t')) (set_source_ r2 s)).
  { intros t v' Ht Hb Hi. apply wp_bind, (twp_nextch_num c0); sc_simpl; try done; [lia|].
    intros r3 t3 Ha3 Ht3 Hal3 _ _. apply wp_ret, reads_intro; sc_simpl;
      [done|by eapply adv_trans|by auto 10 with scan|].
    split; [done|]. split; [|apply adv_left in Ha3; lia].
    apply (vars_ok_mono v2 _ r2); [done|done|done|]. apply adv_seg_length; [done|by destruct Hal2]. }
  case_test.
  - apply wp_bind, twp_basename; [by destruct Hv2|]. intros n Hn.
    apply twp_errorf; [by auto with plain|]. intros e He. cbn [app].
    by apply (Hfin [e]); [auto with scan|..].
  - apply wp_ret. by apply (Hfin []); [auto with scan|..].
Qed.

Lemma twp_exponent_digits c0 v t0 s0 s :
  src_ok (source_ s) -> aligned c0 (source_ s) -> col s = c0 -> vars_ok v (source_ s) ->
  (exists r, s = set_source_ r s0 /\ adv (source_ s0) r) -> good t0 ->
  twp (let* (ds, _) := digits 10 None in
       let v := set_digsep (Z.lor ds (Z.land (digsep v) 2)) v in
       if (Z.land (digsep v) 1 =? 0) && ok v then
         errorf "exponent has no digits";;; ret (set_ok false v)
       else ret v)
    (fun a s' t => nreads c0 vars_ok s0 a s' (t0 ++ t)) s.
Proof.
  intros Hok Ha Hc Hv (r & -> & Hr) Ht0. sc_simpl. apply wp_bind.
  eapply wp_mono; [apply (twp_digits c0); sc_simpl; try done; cbn; auto|].
  intros [ds inv] s1 t1 (r1 & -> & Ha1 & Ht1 & Hal1 & _). sc_simpl. cbv zeta.
  assert (Hlen : lenZ (src_seg r) <= lenZ (src_seg r1)) by (apply adv_seg_length; [done|by destruct Ha]).
  assert (Hadv : adv (source_ s0) r1) by by eapply adv_trans.
  match goal with |- wp _ _ (if ?b then _ else _) _ _ => destruct b end.
  - apply wp_bind, twp_errorf; [done|]. intros e He. apply wp_ret, reads_intro; sc_simpl;
      [done|done|by auto 10 with scan|]. split; [done|].
    by apply (vars_ok_mono v _ r).
  - apply wp_ret, reads_intro; sc_simpl; [done|done|by auto with scan|]. split; [done|].
    by apply (vars_ok_mono v _ r).
Qed.

Lemma twp_number_exponent c0 v s :
  src_ok (source_ s) -> aligned c0 (source_ s) -> col s = c0 -> vars_ok v (source_ s) ->
  twp (number_exponent v) (nreads c0 vars_ok s) s.
Proof.
  intros Hok Ha Hc Hv. unfold number_exponent. apply wp_bind, wp_gets. sc_simpl. cbv zeta.
  destruct ((lower (src_ch (source_ s)) =? "e"%rune) || (lower (src_ch (source_ s)) =? "p"%rune)) eqn:Ee.
  2: { case_test; [apply wp_bind, twp_errorf; [done|]; intros e He|];
       apply wp_ret, reads_intro; sc_simpl; [by destruct s|by apply adv_refl|by auto with scan|by split
         |by destruct s|by apply adv_refl|by auto with scan|by split]. }
  assert (Hch : src_ch (source_ s) <> 10).
  { pose proof (lower_letter (src_ch (source_ s))). apply orb_true_iff in Ee as [E|E]; b2p; lia. }
  assert (Hrest : forall v' t, vars_ok v' (source_ s) -> good t ->
    twp (nextch;;;
      let v := set_nkind FloatLit v' in
      let* c := gets ch in
      when (c =? "+"%rune) || (c =? "-"%rune) do nextch;;;
      let* (ds, _) := digits 10 None in
      let v := set_digsep (Z.lor ds (Z.land (digsep v) 2)) v in
      if (Z.land (digsep v) 1 =? 0) && ok v then
        errorf "exponent has no digits";;; ret (set_ok false v)
      else ret v) (fun a s' t' => nreads c0 vars_ok s a s' (t ++ t')) s).
  { intros v' t Hv' Ht. apply wp_bind, (twp_nextch_num c0); [done..|].
    intros r1 t1 Ha1 Ht1 Hal1 _ _. assert (Hok1 : src_ok r1) by by destruct Ha1.
    assert (Hv1 : vars_ok (set_nkind FloatLit v') r1).
    { apply (vars_ok_mono v' _ (source_ s)); try done. apply adv_seg_length; [done|by destruct Ha]. }
    cbv zeta. apply wp_bind, wp_gets. sc_simpl. apply wp_bind. case_test.
    - apply (twp_nextch_num c0); sc_simpl; [done|done| |].
      { apply orb_true_iff in Heqb as [E|E]; b2p; lia. }
      intros r2 t2 Ha2 Ht2 Hal2 _ _. cbn [app]. 
      eapply wp_mono; [apply (twp_exponent_digits c0 (set_nkind FloatLit v') (t ++ t1 ++ t2) s); sc_simpl; try done|].
      + by destruct Ha2.
      + apply (vars_ok_mono (set_nkind FloatLit v') _ r1); try done. apply adv_seg_length; [done|by destruct Hal1].
      + exists r2. split; [done|by eapply adv_trans].
      + by auto with scan.
      + intros a s' t'. cbv beta. by rewrite <- !app_assoc.
    - apply wp_ret. cbn [app].
      eapply wp_mono; [apply (twp_exponent_digits c0 (set_nkind FloatLit v') (t ++ t1) s); sc_simpl; try done|].
      + by exists r1.
      + by auto with scan.
      + intros a s' t'. cbv beta. by rewrite <- !app_assoc. }
  apply wp_bind. destruct (ok v); [|apply wp_ret; by apply (Hrest v []); auto with scan].
  case_test; [|case_test]; [..|apply wp_ret; by apply (Hrest v []); auto with scan].
  all: apply wp_bind, twp_errorf; [by auto with plain|]; intros e He; apply wp_ret;
    apply (Hrest (set_ok false v) [e]); by auto with scan.
Qed.

Lemma twp_number_checks v s :
  In (nbase v) [2; 8; 10; 16] -> invalid v < lenZ (bytes_of_string (lit s)) ->
  twp (number_checks v) (fun _ s' t => s' = s /\ good t) s.
Proof.
  intros Hb Hi. unfold number_checks. apply wp_bind.
  assert (Hsep : forall v' t0, good t0 -> twp
    (if negb (Z.land (digsep v') 2 =? 0) && ok v' then
      let* l := gets (fun s => bytes_of_string (lit s)) in
      let i := invalidSep l in
      if 0 <=? i then
        errorAtf i "'_' must separate successive digits";;; ret (set_ok false v')
      else ret v'
    else ret v') (fun _ s' t => s' = s /\ good (t0 ++ t)) s).
  { intros v' t0 Ht0. case_test; [|apply wp_ret; by split; [|rewrite app_nil_r]].
    apply wp_bind, wp_gets. cbv zeta. case_test; [|apply wp_ret; by split; [|rewrite app_nil_r]].
    apply wp_bind, twp_errorAtf; [done|]. intros e He. apply wp_ret. by split; [|auto with scan]. }
  case_test; [|apply wp_ret; by apply (Hsep v [])].
  apply wp_bind, wp_gets. rewrite (proj2 (Z.leb_gt _ _)) by done.
  apply wp_bind, twp_basename; [done|]. intros n Hn.
  apply wp_bind, twp_errorAtf; [by auto with plain|]. intros e He. apply wp_ret.
  apply (Hsep _ [e]). by auto with scan.
Qed.

Lemma lexes_set_bad {A} (P : A -> scanner src -> Prop) s a s' t b :
  lexes (fun a s => P a (set_bad b s)) s a s' t -> lexes P s a (set_bad b s') t.
Proof. by intros []. Qed.

(** The text of a name or of a literal is not empty. *)
Definition lit_ok s : Prop := tok s = _Name \/ tok s = _Literal -> lit s <> ""%string.

Lemma lit_ok_other s : tok s <> _Name -> tok s <> _Literal -> lit_ok s.
Proof. intros Hn Hl [?|?]; contradiction. Qed.

Lemma string_of_bytes_ne l : 0 < lenZ l -> string_of_bytes l <> ""%string.
Proof. destruct l; [done|discriminate]. Qed.

(** The end of [number]: the literal is set and checked. *)
Lemma twp_number_end c0 v s0 s t0 :
  (exists r, s = set_source_ r s0 /\ adv (source_ s0) r) -> aligned c0 (source_ s) ->
  vars_ok v (source_ s) -> good t0 ->
  twp (setLit (nkind v) (ok v);;; let* v := number_checks v in modify (set_bad (negb (ok v))))
    (fun a s' t => lexes (fun _ s' => source_ s' = source_ s /\ tok s' = _Literal /\
       lit s' = string_of_bytes (src_seg (source_ s))) s0 a s' (t0 ++ t)) s.
Proof.
  intros (r & -> & Ha) Hal [Hb Hi] Ht0. sc_simpl. assert (Hok : src_ok r) by by destruct Ha.
  apply wp_bind, twp_setLit; [done|by destruct Hal|]. cbn [app]. apply wp_bind.
  eapply wp_mono; [apply twp_number_checks; [done|]|].
  { sc_simpl. unfold lenZ. rewrite length_string_of_bytes. done. }
  intros v' s1 t1 [-> Ht1]. apply wp_modify. apply lexes_intro; sc_simpl;
    [done|done|by destruct Ha|by auto 10 with scan|done].
Qed.

(** [number] after the integer part. *)
Lemma twp_number_rest c0 v (point : bool) s0 s t0 :
  (exists r, s = set_source_ r s0 /\ adv (source_ s0) r) -> aligned c0 (source_ s) -> col s = c0 ->
  vars_ok v (source_ s) -> good t0 ->
  twp (let* v := if point then number_digits (set_nkind FloatLit v) else ret v in
       let* v :=
         if (Z.land (digsep v) 1 =? 0) && ok v then
           let* n := basename (nbase v) in
           errorf (n +s+ " literal has no digits");;; ret (set_ok false v)
         else ret v in
       let* v := number_exponent v in
       let* c := gets ch in
       let* v := if c =? "i"%rune then nextch;;; ret (set_nkind ImagLit v) else ret v in
       setLit (nkind v) (ok v);;;
       let* v := number_checks v in
       modify (set_bad (negb (ok v))))
    (fun a s' t => lexes (fun _ s' => (src_left (source_ s') <= src_left (source_ s))%nat /\
       tok s' = _Literal /\ (0 < lenZ (src_seg (source_ s)) -> lit s' <> ""%string)) s0 a s' (t0 ++ t)) s.
Proof.
  intros (r & -> & Ha) Hal Hc Hv Ht0. sc_simpl. assert (Hok : src_ok r) by by destruct Ha.
  apply wp_bind. eapply (wp_mono _ _ _ (nreads c0 (fun v r => vars_ok v r) (set_source_ r s0))).
  { case_test; [|apply wp_ret, reads_intro; sc_simpl; [done|by apply adv_refl|by auto with scan|by split]].
    eapply wp_mono; [apply (twp_number_digits c0); try done|].
    intros a s' t (r' & -> & Hr' & Ht & Hx & Hy & _). exists r'. done. }
  intros v1 s1 t1 (r1 & -> & Ha1 & Ht1 & Hal1 & Hv1). sc_simpl. assert (Hok1 : src_ok r1) by by destruct Ha1.
  apply wp_bind. eapply (wp_mono _ _ _ (fun v s' t => s' = set_source_ r1 s0 /\ good t /\ vars_ok v r1)).
  { case_test; [|by apply wp_ret; split_and!; [|auto with scan|..]; destruct Hv1].
    apply wp_bind, twp_basename; [by destruct Hv1|]. intros n Hn.
    apply wp_bind, twp_errorf; [by auto with plain|]. intros e He. apply wp_ret.
    split; [done|]. split; [by auto with scan|]. exact Hv1. }
  intros v2 s2 t2 (-> & Ht2 & Hv2). apply wp_bind.
  eapply wp_mono; [by apply (twp_number_exponent c0)|].
  intros v3 s3 t3 (r3 & -> & Ha3 & Ht3 & Hal3 & Hv3). sc_simpl. assert (Hok3 : src_ok r3) by by destruct Ha3.
  apply wp_bind, wp_gets. sc_simpl.
  apply wp_bind. eapply (wp_mono _ _ _ (nreads c0 (fun v r => vars_ok v r) (set_source_ r3 s0))).
  { case_test; [|apply wp_ret, reads_intro; sc_simpl; [done|by apply adv_refl|by auto with scan|by split]].
    b2p. apply wp_bind, (twp_nextch_num c0); sc_simpl; try done; [lia|].
    intros r4 t4 Ha4 Ht4 Hal4 _ _. apply wp_ret, reads_intro; sc_simpl; [done|done|by auto with scan|].
    split; [done|]. apply (vars_ok_mono v3 _ r3); try done. apply adv_seg_length; [done|by destruct Hal3]. }
  intros v4 s4 t4 (r4 & -> & Ha4 & Ht4 & Hal4 & Hv4). sc_simpl.
  assert (Ha04 : adv (source_ s0) r4) by by eauto 10 with scan.
  eapply wp_mono; [apply (twp_number_end c0 v4 s0 (set_source_ r4 s0) (t0 ++ t1 ++ t2 ++ t3 ++ t4)); try done|].
  - by exists r4.
  - by auto 10 with scan.
  - intros [] s5 t5 [L1 L2 L3 L4 (L5 & L6 & L7)]. sc_simpl. rewrite <- !app_assoc in L4.
    assert (Har : adv r r4) by by eauto 10 with scan.
    split; try done. split; [|split; [done|]].
    { rewrite L5. apply adv_left in Har. lia. }
    intros Hpos. rewrite L7. apply string_of_bytes_ne.
    apply adv_seg_length in Har; [lia|]. by destruct Hal.
Qed.

Lemma twp_number seenPoint s :
  src_ok (source_ s) -> aligned (col s) (source_ s) ->
  (seenPoint = false -> isDecimal (src_ch (source_ s)) = true) ->
  twp (number seenPoint) (lexes (fun _ s' => tok s' = _Literal /\
    (seenPoint = false -> (src_left (source_ s') < src_left (source_ s))%nat) /\
    (seenPoint = false \/ 0 < lenZ (src_seg (source_ s)) -> lit_ok s')) s) s.
Proof.
  intros Hok Ha Hd. unfold number. apply wp_bind.
  destruct seenPoint.
  - apply wp_ret. eapply wp_mono; [apply (twp_number_rest (col s) _ true s s []); try done|].
    + exists (source_ s). split; [by destruct s|by apply adv_refl].
    + split; [cbn; auto|]. cbn. pose proof (lenZ_nonneg (src_seg (source_ s))). lia.
    + intros [] s1 t1 [L1 L2 L3 L4 (L5 & L6 & L7)]. split; try done. split_and!; [done|done|].
      intros [?|?] _; [done|auto].
  - eapply wp_mono; [by apply (twp_number_int (col s)); auto|].
    intros [v p] s1 t1 (r1 & -> & Ha1 & Ht1 & Hal1 & Hv1 & Hl1).
    eapply wp_mono; [apply (twp_number_rest (col s) v p s (set_source_ r1 s) t1); try done; by exists r1|].
    intros [] s2 t2 [L1 L2 L3 L4 (L5 & L6 & L7)]. sc_simpl. split; try done. split; [done|]. split; [lia|].
    intros _ _. apply L7. apply adv_longer in Ha1; [|by destruct Ha| | |done].
    + pose proof (lenZ_nonneg (src_seg (source_ s))). lia.
    + specialize (Hd eq_refl). unfold isDecimal in Hd. b2p. lia.
    + specialize (Hd eq_refl). unfold isDecimal in Hd. b2p. lia.
Qed.
End Numbers.

(** ** [next] *)
Section Next.
Context {src : Type} `{SourceLaws src}.
Implicit Types (r : src) (s : scanner src).

(** A token that reads at least one character. *)
Definition lexed s : unit -> scanner src -> list scanev -> Prop :=
  lexes (fun _ s' => (src_left (source_ s') < src_left (source_ s))%nat /\ lit_ok s') s.

Lemma twp_rewind Q s :
  src_ok (source_ s) -> src_active (source_ s) = true ->
  (forall r t, src_ok r -> good t -> (src_left r <= src_mark (source_ s))%nat ->
     (forall c l, src_seg (source_ s) = c :: l -> 0 < c < RuneSelf -> src_ch r = c) ->
     Q tt (set_source_ r s) t) -> twp rewind Q s.
Proof.
  intros Hok Ha HQ. destruct (law_rewind (source_ s) Hok Ha) as (r & t & Hr & Hok' & _ & Hl & Ht & Hc).
  eapply twp_lift; [exact Hr|]. apply HQ; try done. by apply good_lift.
Qed.
End Next.

(** Symbolic execution of token functions. *)
Ltac lex_step :=
  match goal with
  | |- wp _ _ (modify _) _ _ => apply wp_modify; sc_simpl
  | |- wp _ _ (set_operator _ _) _ _ => unfold set_operator
  | |- wp _ _ (set_token _) _ _ => unfold set_token
  | |- wp _ _ (single _) _ _ => unfold single
  | |- wp _ _ (closing _) _ _ => unfold closing
  | |- wp _ _ (operator _ _) _ _ => unfold operator
  | |- wp _ _ assignop _ _ => unfold assignop
  | |- wp _ _ (return_ _) _ _ => unfold return_
  | |- _ => scan_step; sc_simpl
  end.
Ltac lit_done := apply lit_ok_other; sc_simpl; first [discriminate|assumption].
Ltac lex_done :=
  unfold lexed; apply lexes_intro; sc_simpl;
  [ first [done | assumption] | by eauto 10 with scan | first [lia | try left_facts] | by eauto 10 with scan
  | first [done | split; [try left_facts|try lit_done] | try left_facts] ].
Ltac lex := repeat lex_step; try lex_done.

Section NextTokens.
Context {src : Type} `{SourceLaws src}.
Implicit Types (r : src) (s : scanner src).

Lemma lexed_single t s :
  t <> _Name -> t <> _Literal -> src_ok (source_ s) -> src_ch (source_ s) <> -1 -> twp (single t) (lexed s) s.
Proof. intros Hn Hl Hok Hc. lex. Qed.

Lemma lexed_incop c o s : src_ok (source_ s) -> src_ch (source_ s) <> -1 -> twp (incop c o) (lexed s) s.
Proof. intros Hok Hc. unfold incop. lex. Qed.

Lemma lexed_less s : src_ok (source_ s) -> src_ch (source_ s) <> -1 -> twp less (lexed s) s.
Proof. intros Hok Hc. unfold less. lex. Qed.

Lemma lexed_greater s : src_ok (source_ s) -> src_ch (source_ s) <> -1 -> twp greater (lexed s) s.
Proof. intros Hok Hc. unfold greater. lex. Qed.

Lemma lexed_ampersand s : src_ok (source_ s) -> src_ch (source_ s) <> -1 -> twp ampersand (lexed s) s.
Proof. intros Hok Hc. unfold ampersand. lex. Qed.

Lemma lexed_pipe s : src_ok (source_ s) -> src_ch (source_ s) <> -1 -> twp pipe (lexed s) s.
Proof. intros Hok Hc. unfold pipe. lex. Qed.

(** A literal: the opening delimiter, a loop that only reads, [setLit]. *)
Lemma lexed_literal (m : SM bool) k s :
  reader m -> src_ok (source_ s) -> src_active (source_ s) = true -> src_ch (source_ s) <> -1 ->
  src_ch (source_ s) <> 32 -> twp (nextch;;; let* ok := m in setLit k ok) (lexed s) s.
Proof.
  intros Hm Hok Hact Hc H32. apply wp_bind, twp_nextch; [done|]. intros r1 t1 Ha1 Ht1 Hl1 _.
  apply wp_bind, twp_reader; [done|by destruct Ha1|]. intros b r2 t2 Ha2 Ht2. sc_simpl.
  apply twp_setLit; sc_simpl; [by destruct Ha2| |].
  { by rewrite (adv_active _ _ Ha2), (adv_active _ _ Ha1). }
  assert (Hlt : (src_left r2 < src_left (source_ s))%nat) by (apply adv_left in Ha2; specialize (Hl1 Hc); lia).
  apply lexes_intro; sc_simpl; [done|by eauto 10 with scan|lia|by eauto 10 with scan|]. split; [done|].
  intros _. apply string_of_bytes_ne. cbn [lit set_kind set_bad set_lit source_ set_source_].
  assert (Ha : adv (source_ s) r2) by by eapply adv_trans.
  apply adv_longer in Ha; [|done..]. pose proof (lenZ_nonneg (src_seg (source_ s))). lia.
Qed.

Lemma lexed_stdString s :
  src_ok (source_ s) -> src_active (source_ s) = true -> src_ch (source_ s) <> -1 ->
  src_ch (source_ s) <> 32 -> twp stdString (lexed s) s.
Proof. intros. apply lexed_literal; try done. apply reader_loopM. intros ok s' Hok'. scan. Qed.

Lemma lexed_rawString s :
  src_ok (source_ s) -> src_active (source_ s) = true -> src_ch (source_ s) <> -1 ->
  src_ch (source_ s) <> 32 -> twp rawString (lexed s) s.
Proof. intros. apply lexed_literal; try done. apply reader_loopM. intros ok s' Hok'. scan. Qed.

Lemma lexed_rune s :
  src_ok (source_ s) -> src_active (source_ s) = true -> src_ch (source_ s) <> -1 ->
  src_ch (source_ s) <> 32 -> twp rune_ (lexed s) s.
Proof. intros. apply lexed_literal; try done. apply reader_loopM. intros [ok n] s' Hok'. scan. Qed.

Lemma reader_ident_loop :
  reader (loopM (fun _ : unit =>
    let* b := atIdentChar false in if b then nextch;;; ret (inl tt) else ret (inr tt)) tt).
Proof.
  apply reader_loopM. intros [] s Hok. apply wp_bind, twp_atIdentChar. intros b t Ht Hb. destruct b.
  - apply wp_bind, twp_nextch; [done|]. intros r t' Ha Ht' Hl _. apply wp_ret.
    apply reads_intro; sc_simpl; [done|done|by auto with scan|]. split; [done|]. by apply Hl, Hb.
  - apply wp_ret. scan_done.
Qed.

Lemma twp_ident_token l s t0 s0 :
  src_ok (source_ s) -> (src_left (source_ s) <= src_left (source_ s0))%nat ->
  (mode s, line s, col s, blank s) = (mode s0, line s0, col s0, blank s0) -> good t0 ->
  0 < lenZ l ->
  twp (ident_token l) (fun a s' t => lexes (fun _ s' => source_ s' = source_ s /\ lit_ok s') s0 a s' (t0 ++ t)) s.
Proof.
  intros Hok Hl Hm Ht Hne. unfold ident_token. destruct (keyword_lookup l) as [t|] eqn:Ek.
  - apply keyword_lookup_token in Ek as (_ & Hs & _).
    assert (t <> _Name) by by intros ->. assert (t <> _Literal) by by intros ->.
    by lex.
  - repeat (case_match; [lex; first [done|lit_done]|]).
    lex; [done|]. intros _. by apply string_of_bytes_ne.
Qed.

Lemma lexes_ident s :
  src_ok (source_ s) -> src_active (source_ s) = true -> 0 < lenZ (src_seg (source_ s)) ->
  twp ident (lexes (fun _ s' => lit_ok s') s) s.
Proof.
  intros Hok Hact Hne. unfold ident.
  apply wp_bind, twp_reader; [by apply reader_skip_while|done|]. intros [] r1 t1 Ha1 Ht1. sc_simpl.
  apply wp_bind, wp_gets. sc_simpl.
  apply wp_bind. eapply (wp_mono _ _ _ (reads (fun _ _ => True) (set_source_ r1 s))).
  { case_test; [apply reader_ident_loop; by destruct Ha1|apply wp_ret; scan_done]. }
  intros [] s2 t2 (r2 & -> & Ha2 & Ht2 & _). sc_simpl. assert (Hok2 : src_ok r2) by by destruct Ha2.
  apply wp_bind. eapply twp_lift; [apply law_segment; sc_simpl; [done|]|].
  { by rewrite (adv_active _ _ Ha2), (adv_active _ _ Ha1). }
  eapply wp_mono; [apply (twp_ident_token _ _ (t1 ++ t2) s); sc_simpl; try done|].
  - apply adv_left in Ha1, Ha2. lia.
  - by auto with scan.
  - apply adv_seg_length in Ha1 as H1; [|done]. apply adv_seg_length in Ha2; [lia|].
    by rewrite (adv_active _ _ Ha1).
  - intros [] s3 t3 [L1 L2 L3 L4 [_ L5]]. cbn [map]. rewrite <- app_assoc in L4. by split.
Qed.

Lemma aligned_start r : src_ok r -> src_seg r = [] -> src_active r = true ->
  Z.of_nat (src_mark r) < 2 ^ 62 -> aligned (src_pos r).2 r.
Proof. intros Hok Hs Ha Hm. split_and!; [done| |done]. rewrite Hs. by rewrite Z.add_0_r. Qed.

Lemma lexed_dot s :
  src_ok (source_ s) -> src_active (source_ s) = true -> aligned (col s) (source_ s) ->
  src_ch (source_ s) = "."%rune -> (src_mark (source_ s) <= src_left (source_ s))%nat ->
  src_seg (source_ s) = [] ->
  twp dot (lexed s) s.
Proof.
  intros Hok Hact Hal Hc Hm Hseg. unfold dot.
  apply wp_bind, twp_nextch; [done|]. intros r1 t1 Ha1 Ht1 Hl1 Hs1. assert (Hok1 : src_ok r1) by by destruct Ha1.
  assert (Hlt : (src_left r1 < src_left (source_ s))%nat) by (apply Hl1; rewrite Hc; done).
  apply wp_bind, wp_gets. sc_simpl. case_test.
  - eapply wp_mono; [apply twp_number; sc_simpl; try done|].
    + destruct (Hs1 Hact) as (sk & Hsk & _ & Hp). destruct Hal as (Ha & Hpos & Hmk). split_and!.
      * by rewrite (adv_active _ _ Ha1).
      * rewrite Hp, Hsk, Hseg by (rewrite Hc; done). cbn [app]. unfold u64 in *. rewrite Hseg in Hpos.
        rewrite Z.mod_mod by lia. rewrite <- Z.add_mod_idemp_l, Hpos by lia.
        change (lenZ []) with 0. by rewrite Z.add_0_r, Z.add_mod_idemp_l by lia.
      * apply adv_mark in Ha1. lia.
    + intros [] s2 t2 [L1 L2 L3 L4 (L5 & _ & L6)]. sc_simpl.
      split; try done; [lia|by auto with scan|]. split; [lia|]. apply L6. right.
      apply adv_longer in Ha1; [|done|by rewrite Hc|by rewrite Hc|done].
      pose proof (lenZ_nonneg (src_seg (source_ s))). lia.
  - case_test; [|by lex]. b2p. apply wp_bind, twp_nextch; [done|]. intros r2 t2 Ha2 Ht2 Hl2 _. sc_simpl.
    assert (Hok2 : src_ok r2) by by destruct Ha2.
    apply wp_bind, wp_gets. sc_simpl. case_test.
    + by lex.
    + assert (Hseg2 : exists l, src_seg r2 = "."%rune :: l).
      { destruct (Hs1 Hact) as (sk & Hsk & _). rewrite Hseg, (law_cur _ Hok) in Hsk;
          [|rewrite Hc; done|rewrite Hc; done]. rewrite Hc in Hsk.
        destruct (adv_seg _ _ Ha2) as [w Hw]; [by rewrite (adv_active _ _ Ha1)|].
        rewrite Hw, Hsk. by eexists. }
      destruct Hseg2 as [l Hl]. apply wp_bind, twp_rewind; sc_simpl; [done| |].
      { by rewrite (adv_active _ _ Ha2), (adv_active _ _ Ha1). }
      intros r3 t3 Hok3 Ht3 Hl3 Hch3. specialize (Hch3 _ _ Hl (conj eq_refl eq_refl)).
      apply wp_bind, twp_nextch; [done|]. intros r4 t4 Ha4 Ht4 Hl4 _. sc_simpl. unfold set_token.
      assert (src_left r4 < src_left r3)%nat by (apply Hl4; rewrite Hch3; done).
      apply adv_mark in Ha1, Ha2.
      apply wp_modify. unfold lexed. apply lexes_intro; sc_simpl; [done|by eauto with scan|lia|by auto 10 with scan|].
      split; [lia|lit_done].
Qed.

(** What one round of [next] leaves: it used up input, or it found the end. *)
Definition round_post (n : bool) s (y : unit + unit) s' : Prop :=
  ((src_left (source_ s') < src_left (source_ s))%nat /\ (y = inr tt -> lit_ok s')) \/
  (y = inr tt /\ src_left (source_ s') = src_left (source_ s) /\
   (tok s' = _EOF \/ (tok s' = _Semi /\ n = true))).

Lemma lexed_return n (m : SM unit) s : twp m (lexed s) s -> twp (return_ m) (lexes (round_post n s) s) s.
Proof.
  intros Hm. unfold return_. apply wp_bind. eapply wp_mono; [exact Hm|].
  intros [] s' t [L1 L2 L3 L4 [L5 L6]]. apply wp_ret. rewrite app_nil_r. split; try done. by left.
Qed.

(** After a comment the scanner goes round again. *)
Lemma lexed_redo n (m : SM unit) s r t :
  twp m (lexes (fun _ _ => True) (set_source_ r s)) (set_source_ r s) -> good t ->
  (src_left r < src_left (source_ s))%nat ->
  twp (m;;; ret (inl tt)) (fun y s' t' => lexes (round_post n s) s y s' (t ++ t')) (set_source_ r s).
Proof.
  intros Hm Ht Hl. apply wp_bind. eapply wp_mono; [exact Hm|].
  intros [] s' t' [L1 L2 L3 L4 _]. sc_simpl. apply wp_ret. rewrite app_nil_r.
  split; try done; [lia|by auto with scan|left; split; [lia|done]].
Qed.

Lemma slash_comment_start s r1 r2 c :
  src_ok (source_ s) -> src_active (source_ s) = true -> src_ch (source_ s) = "/"%rune ->
  src_seg (source_ s) = [] -> adv (source_ s) r1 -> src_ch r1 = c -> 0 <= c < RuneSelf -> c <> 32 ->
  (exists sk, src_seg r1 = src_seg (source_ s) ++ src_cur (source_ s) ++ sk /\ high_bytes sk) ->
  (exists sk, src_seg r2 = src_seg r1 ++ src_cur r1 ++ sk) ->
  exists sk l, src_seg r2 = "/"%rune :: sk ++ c :: l /\ high_bytes sk.
Proof.
  intros Hok Hact Hc Hseg Ha Hc1 Hr Hn (sk & Hs1 & Hh) (sk2 & Hs2).
  rewrite Hseg, (law_cur (source_ s) Hok) in Hs1 by (rewrite Hc; done).
  rewrite (law_cur r1) in Hs2 by (rewrite ?Hc1; by destruct Ha).
  exists sk, sk2. by rewrite Hs2, Hs1, Hc, Hc1.
Qed.

Lemma lexes_slash n s :
  src_ok (source_ s) -> src_active (source_ s) = true -> src_ch (source_ s) = "/"%rune ->
  src_seg (source_ s) = [] -> twp (slash n) (lexes (round_post n s) s) s.
Proof.
  intros Hok Hact Hc Hseg. unfold slash.
  apply wp_bind, twp_nextch; [done|]. intros r1 t1 Ha1 Ht1 Hl1 Hs1.
  assert (Hok1 : src_ok r1) by by destruct Ha1.
  assert (Hlt1 : (src_left r1 < src_left (source_ s))%nat) by (apply Hl1; rewrite Hc; done).
  assert (Hact1 : src_active r1 = true) by by rewrite (adv_active _ _ Ha1).
  apply wp_bind, wp_gets. sc_simpl.
  destruct (src_ch r1 =? "/"%rune) eqn:E1; [|destruct (src_ch r1 =? "*"%rune) eqn:E2].
  - b2p. apply wp_bind, twp_nextch; [done|]. intros r2 t2 Ha2 Ht2 Hl2 Hs2. sc_simpl. cbn [app].
    destruct (slash_comment_start s r1 r2 "/"%rune Hok Hact Hc Hseg Ha1 E1) as (sk & l & Hsk & Hh);
      [done|done| | |].
    { destruct (Hs1 Hact) as (sk & ? & ? & _). by exists sk. }
    { destruct (Hs2 Hact1) as (sk & ? & _). by exists sk. }
    eapply wp_mono; [apply (lexed_redo n lineComment s r2 (t1 ++ t2))|].
    + apply twp_lineComment; sc_simpl; [by destruct Ha2|by rewrite (adv_active _ _ Ha2)|].
      right; left. rewrite Hsk. by exists sk, "/"%rune, l.
    + by auto with scan.
    + apply adv_left in Ha2. lia.
    + intros y s' t. cbv beta. by rewrite <- !app_assoc.
  - b2p. apply wp_bind, twp_nextch; [done|]. intros r2 t2 Ha2 Ht2 Hl2 Hs2. sc_simpl.
    destruct (slash_comment_start s r1 r2 "*"%rune Hok Hact Hc Hseg Ha1 E2) as (sk & l & Hsk & Hh);
      [done|done| | |].
    { destruct (Hs1 Hact) as (sk & ? & ? & _). by exists sk. }
    { destruct (Hs2 Hact1) as (sk & ? & _). by exists sk. }
    apply wp_bind. eapply wp_mono; [apply twp_fullComment; sc_simpl|].
    + by destruct Ha2.
    + by rewrite (adv_active _ _ Ha2).
    + rewrite Hsk, lenZ_cons, lenZ_app, lenZ_cons. pose proof (lenZ_nonneg sk). pose proof (lenZ_nonneg l). lia.
    + rewrite Hsk. by eexists.
    + intros [] s3 t3 [L1 L2 L3 L4 _]. sc_simpl. apply adv_left in Ha2.
      apply wp_bind, wp_gets, wp_bind, wp_gets. sc_simpl. unfold set_token.
      case_test; repeat (apply wp_bind || apply wp_modify || apply wp_ret); sc_simpl;
        (apply lexes_intro; sc_simpl; [done|done|lia|by auto 10 with scan|left; sc_simpl; split; [lia|try done; try (intros _; lit_done)]]).
  - apply adv_left in Ha1 as Hle. lex; left; sc_simpl; (split; [left_facts|intros _; lit_done]).
Qed.

Lemma twp_hash n s :
  src_ok (source_ s) -> src_active (source_ s) = true -> src_ch (source_ s) = "#"%rune ->
  src_seg (source_ s) = [] ->
  twp (let* b := gets canBeIndexOperator in
       if b then return_ (set_token _Hash;;; nextch) else nextch;;; lineComment;;; ret (inl tt))
    (lexes (round_post n s) s) s.
Proof.
  intros Hok Hact Hc Hseg. apply wp_bind, wp_gets. case_test.
  - apply lexed_return. unfold set_token. apply wp_bind, wp_modify, twp_nextch; [done|].
    intros r t Ha Ht Hl _. sc_simpl.
    assert (src_left r < src_left (source_ s))%nat by (apply Hl; rewrite Hc; done). lex_done.
  - apply wp_bind, twp_nextch; [done|]. intros r1 t1 Ha1 Ht1 Hl1 Hs1.
    eapply wp_mono; [apply (lexed_redo n lineComment s r1 t1); [|done|apply Hl1; rewrite Hc; done]|].
    + apply twp_lineComment; sc_simpl; [by destruct Ha1|by rewrite (adv_active _ _ Ha1)|].
      left. destruct (Hs1 Hact) as (sk & Hsk & _).
      rewrite Hseg, (law_cur _ Hok), Hc in Hsk by (rewrite Hc; done). rewrite Hsk.
      by exists sk.
    + intros y s' t. done.
Qed.

Lemma twp_next_switch n s :
  src_ok (source_ s) -> src_active (source_ s) = true -> src_seg (source_ s) = [] ->
  (0 <= src_ch (source_ s) < RuneSelf ->
     aligned (col s) (source_ s) /\ (src_mark (source_ s) <= src_left (source_ s))%nat) ->
  twp (next_switch n) (lexes (round_post n s) s) s.
Proof.
  intros Hok Hact Hseg Hm. unfold next_switch. apply wp_bind, wp_gets. sc_simpl.
  destruct (src_ch (source_ s) =? -1) eqn:Eeof.
  { unfold return_, set_token.
    case_test; repeat (apply wp_bind || apply wp_modify || apply wp_ret);
      (apply lexes_intro; sc_simpl; [done|done|done|by auto with scan|]);
      right; (split_and!; [done|done|by auto]). }
  apply Z.eqb_neq in Eeof.
  destruct (src_ch (source_ s) =? 10); [apply lexed_return; by lex|].
  destruct (isDecimal (src_ch (source_ s))) eqn:Ed.
  { apply lexed_return. eapply wp_mono; [apply twp_number; [done| |done]|].
    { apply Hm. unfold isDecimal in Ed. unfold RuneSelf. b2p. lia. }
    intros [] s' t [L1 L2 L3 L4 (_ & L5 & L6)]. split; try done. split; [by apply L5|]. apply L6. by left. }
  destruct (src_ch (source_ s) =? 34) eqn:Eq; [apply Z.eqb_eq in Eq; apply lexed_return, lexed_stdString; try done; by rewrite Eq|clear Eq].
  destruct (src_ch (source_ s) =? "`"%rune) eqn:Eq; [apply Z.eqb_eq in Eq; apply lexed_return, lexed_rawString; try done; by rewrite Eq|clear Eq].
  destruct (src_ch (source_ s) =? "'"%rune) eqn:Eq; [apply Z.eqb_eq in Eq; apply lexed_return, lexed_rune; try done; by rewrite Eq|clear Eq].
  destruct (src_ch (source_ s) =? "("%rune); [by apply lexed_return, lexed_single|].
  destruct (src_ch (source_ s) =? "["%rune); [by apply lexed_return, lexed_single|].
  destruct (src_ch (source_ s) =? "{"%rune); [by apply lexed_return, lexed_single|].
  destruct (src_ch (source_ s) =? ","%rune); [by apply lexed_return, lexed_single|].
  destruct (src_ch (source_ s) =? ";"%rune); [apply lexed_return; by lex|].
  destruct (src_ch (source_ s) =? ")"%rune); [apply lexed_return; by lex|].
  destruct (src_ch (source_ s) =? "]"%rune); [apply lexed_return; by lex|].
  destruct (src_ch (source_ s) =? "}"%rune); [apply lexed_return; by lex|].
  destruct (src_ch (source_ s) =? ":"%rune); [apply lexed_return; by lex|].
  destruct (src_ch (source_ s) =? "."%rune) eqn:Edot.
  { apply Z.eqb_eq in Edot. apply lexed_return, lexed_dot; try done; apply Hm; by rewrite Edot. }
  destruct (src_ch (source_ s) =? "+"%rune); [by apply lexed_return, lexed_incop|].
  destruct (src_ch (source_ s) =? "-"%rune); [by apply lexed_return, lexed_incop|].
  destruct (src_ch (source_ s) =? "*"%rune); [apply lexed_return; by lex|].
  destruct (src_ch (source_ s) =? "/"%rune) eqn:Esl; [by apply lexes_slash; [..|apply Z.eqb_eq|]|].
  destruct (src_ch (source_ s) =? "%"%rune); [apply lexed_return; by lex|].
  destruct (src_ch (source_ s) =? "&"%rune); [by apply lexed_return, lexed_ampersand|].
  destruct (src_ch (source_ s) =? "|"%rune); [by apply lexed_return, lexed_pipe|].
  destruct (src_ch (source_ s) =? "^"%rune); [apply lexed_return; by lex|].
  destruct (src_ch (source_ s) =? "<"%rune); [by apply lexed_return, lexed_less|].
  destruct (src_ch (source_ s) =? ">"%rune); [by apply lexed_return, lexed_greater|].
  destruct (src_ch (source_ s) =? "="%rune); [apply lexed_return; by lex|].
  destruct (src_ch (source_ s) =? "!"%rune); [apply lexed_return; by lex|].
  destruct (src_ch (source_ s) =? "~"%rune); [apply lexed_return; by lex|].
  destruct (src_ch (source_ s) =? "#"%rune) eqn:Eh; [by apply twp_hash; [..|apply Z.eqb_eq|]|].
  apply wp_bind, twp_errorf; [by auto with plain|]. intros e He.
  apply wp_bind, twp_nextch; [done|]. intros r t Ha Ht Hl _. apply wp_ret.
  specialize (Hl Eeof). apply lexes_intro; sc_simpl; [done|by eauto with scan|lia|by auto 10 with scan|by left].
Qed.

Lemma twp_start Q s :
  src_ok (source_ s) ->
  (forall r, src_ok r -> src_active r = true -> src_ch r = src_ch (source_ s) ->
     src_pos r = src_pos (source_ s) -> src_left r = src_left (source_ s) -> src_seg r = [] ->
     (0 <= src_ch r < RuneSelf -> (src_mark r <= src_left r)%nat) -> Q tt (set_source_ r s) []) ->
  twp start Q s.
Proof.
  intros Hok HQ. unfold start. apply wp_modify.
  destruct (law_start (source_ s) Hok) as (H1 & H2 & H3 & H4 & H5 & H6 & H7 & H8).
  apply HQ; try done. rewrite H3, H5. exact H8.
Qed.

Lemma twp_next_round n s :
  src_ok (source_ s) -> Z.of_nat (src_left (source_ s)) < 2 ^ 62 ->
  twp (next_round n) (fun y s' t => src_ok (source_ s') /\ mode s' = mode s /\ good t /\
    (((src_left (source_ s') < src_left (source_ s))%nat /\ (y = inr tt -> lit_ok s')) \/
     (y = inr tt /\ (src_left (source_ s') <= src_left (source_ s))%nat /\
      (tok s' = _EOF \/ (tok s' = _Semi /\ n = true))))) s.
Proof.
  intros Hok Hbound. unfold next_round.
  apply wp_bind, twp_stop; [done|]. intros r0 Hok0 _ _ Hl0.
  apply wp_bind, wp_gets. sc_simpl. destruct (src_pos r0) as [startLine startCol].
  apply wp_bind, twp_reader; [by apply reader_skip_while|done|]. intros [] r1 t1 Ha1 Ht1. sc_simpl.
  assert (Hok1 : src_ok r1) by by destruct Ha1. apply adv_left in Ha1 as Hle1.
  apply wp_bind, wp_gets. sc_simpl. destruct (src_pos r1) as [l c] eqn:Epos.
  apply wp_bind, wp_modify, wp_bind, wp_modify. sc_simpl.
  apply wp_bind, twp_start; [done|]. intros r2 Hok2 Hact2 Hch2 Hpos2 Hl2 Hseg2 Hm2. sc_simpl.
  set (s2 := set_source_ r2 _). assert (Hs2 : source_ s2 = r2) by done.
  assert (Hmode : mode s2 = mode s) by done. assert (Hcol : col s2 = c) by done.
  clearbody s2. apply wp_bind, wp_gets. unfold ch. rewrite Hs2.
  apply wp_bind. eapply (wp_mono _ _ _ (fun b s' t => s' = s2 /\ good t /\ (b = true -> src_ch r2 <> -1 /\ src_ch r2 <> 32))).
  { destruct (isLetter (src_ch r2)) eqn:El; [apply wp_ret; split; [done|split; [auto with scan|]]; intros _; split; not_eof|].
    case_test; [|by apply wp_ret; split_and!; [|auto with scan|]].
    apply twp_atIdentChar. rewrite Hs2. intros b t Ht Hb. split; [done|split; [done|]].
    intros Hbt. split; [by apply Hb|]. b2p. unfold RuneSelf in *. lia. }
  intros b s3 t3 (-> & Ht3 & Hb). destruct b.
  - apply wp_bind, twp_nextch; [by rewrite Hs2|]. rewrite Hs2. intros r4 t4 Ha4 Ht4 Hl4 _.
    specialize (Hl4 (proj1 (Hb eq_refl))).
    apply wp_bind. eapply wp_mono; [apply lexes_ident; sc_simpl; [by destruct Ha4| |]|].
    { by rewrite (adv_active _ _ Ha4). }
    { apply adv_longer in Ha4; [|done|by apply Hb| |done].
      - pose proof (lenZ_nonneg (src_seg r2)). lia.
      - by apply Hb. }
    intros [] s5 t5 [L1 L2 L3 L4 L5]. sc_simpl. injection L3 as L3 _ _ _. apply wp_ret.
    split; [done|]. split; [congruence|]. split; [by repeat apply good_app; auto with scan|]. left. split; [lia|done].
  - eapply wp_mono; [apply twp_next_switch; rewrite ?Hs2; try done|].
    { intros Hc. specialize (Hm2 Hc). split; [|done]. rewrite Hcol.
      replace c with (src_pos r2).2 by (by rewrite Hpos2, Epos).
      apply aligned_start; try done. lia. }
    intros y s5 t5 [L1 L2 L3 L4 L5]. rewrite Hs2 in *. injection L3 as L3 _ _ _.
    split; [done|]. split; [congruence|]. split; [by repeat apply good_app; auto with scan|].
    destruct L5 as [[L5 L6]|(-> & L5 & L6)]; rewrite Hs2 in *; [left; split; [lia|done]|]. right. split; [done|].
    split; [lia|done].
Qed.

(** One call of [next]: it returns, the reported events are errors or
    comments, and it uses up input or finds its end. *)
Lemma twp_next s :
  src_ok (source_ s) -> Z.of_nat (src_left (source_ s)) < 2 ^ 62 ->
  twp next (fun _ s' t => src_ok (source_ s') /\ mode s' = mode s /\ good t /\
    ((src_left (source_ s') < src_left (source_ s))%nat \/
     ((src_left (source_ s') <= src_left (source_ s))%nat /\
      (tok s' = _EOF \/ (tok s' = _Semi /\ nlsemi s = true)))) /\ lit_ok s') s.
Proof.
  intros Hok Hbound. unfold next. apply wp_bind, wp_gets, wp_bind, wp_modify. sc_simpl.
  unfold loopM. apply wp_bind, wp_gets. unfold rounds. sc_simpl. set (n := nlsemi s).
  set (s0 := set_nlsemi false s). assert (Hs0 : source_ s0 = source_ s) by done.
  assert (Hm0 : mode s0 = mode s) by done. clearbody s0.
  eapply wp_mono.
  - apply (wp_iterM _ _
      (fun _ s' t => src_ok (source_ s') /\ mode s' = mode s /\ good t /\
         (src_left (source_ s') <= src_left (source_ s))%nat)
      (fun _ s => src_left (source_ s)) (fun _ : unit => next_round n)
      (fun _ s' t => src_ok (source_ s') /\ mode s' = mode s /\ good t /\
        ((src_left (source_ s') < src_left (source_ s))%nat \/
         ((src_left (source_ s') <= src_left (source_ s))%nat /\
          (tok s' = _EOF \/ (tok s' = _Semi /\ n = true)))) /\ lit_ok s')) with (t := []).
    + intros [] s1 t1 (Hok1 & Hm1 & Ht1 & Hl1).
      eapply wp_mono; [apply twp_next_round; [done|lia]|].
      intros y s2 t2 (Hok2 & Hm2 & Ht2 & Hp). destruct y as [[]|[]].
      * destruct Hp as [[Hp _]|(? & _)]; [|done]. split; [|by right].
        split_and!; [done|congruence|by auto with scan|lia].
      * split_and!; [done|congruence|by auto with scan| |].
        -- destruct Hp as [[Hp _]|(_ & Hp & Hq)]; [left; lia|right; split; [lia|done]].
        -- destruct Hp as [[_ Hp]|(_ & _ & Hq)]; [by auto|].
           apply lit_ok_other; destruct Hq as [->|[-> _]]; done.
    + rewrite Hs0, Hm0. split_and!; [done|done|auto with scan|done].
    + right. rewrite Hs0. lia.
  - intros [] s' t'. done.
Qed.
End NextTokens.

(** ** What a token says about the rest of the scanner's state

    These facts do not depend on the reader: they hold of every call of [next]
    that returns. *)

(** The precedence of an operator. *)
Definition op_prec (o : Operator) : Z :=
  match o with
  | OrOr => precOrOr
  | AndAnd => precAndAnd
  | Eql | Neq | Lss | Leq | Gtr | Geq => precCmp
  | Add | Sub | Or | Xor => precAdd
  | Mul | Div | Rem | And | AndNot | Shl | Shr => precMul
  | _ => 0
  end.

Abbreviation pwp := (wp (fun _ => True) True).

Section Frames.
Context {src : Type} `{RuneSource src}.
Implicit Types (r : src) (s : scanner src).

(** A computation that changes only the reader. *)
Definition frame {A} (m : SM A) : Prop :=
  forall s, pwp m (fun _ s' _ => exists r, s' = set_source_ r s) s.

Lemma frame_ret {A} (a : A) : frame (ret a).
Proof. intros s. exists (source_ s). by destruct s. Qed.

Lemma frame_gets {A} (f : scanner src -> A) : frame (gets f).
Proof. intros s. exists (source_ s). by destruct s. Qed.

Lemma frame_emit e : frame (emit e).
Proof. intros s. exists (source_ s). by destruct s. Qed.

Lemma frame_panic {A} v : frame (panic (A:=A) v).
Proof. by intros s. Qed.

Lemma frame_bind {A B} (m : SM A) (k : A -> SM B) :
  frame m -> (forall a, frame (k a)) -> frame (bind m k).
Proof.
  intros Hm Hk s. apply wp_bind. eapply wp_mono; [apply Hm|]. intros a s1 t1 [r ->].
  eapply wp_mono; [apply Hk|]. intros b s2 t2 [r2 ->]. by exists r2.
Qed.

Lemma frame_lift {A} (m : GM string srcerr src A) : frame (lift m).
Proof. intros s. unfold wp, lift. destruct (m (source_ s)) as [[[a r] t]|v|]; [by exists r|done..]. Qed.

Lemma frame_iterM {X Y} (body : X -> SM (X + Y)) n x :
  (forall x, frame (body x)) -> frame (iterM n body x).
Proof.
  intros Hb. revert x. induction n as [|n IH]; intros x; cbn [iterM]; [by intros s|].
  apply frame_bind; [apply Hb|]. intros [x'|y]; [apply IH|apply frame_ret].
Qed.

Lemma frame_loopM {X Y} (body : X -> SM (X + Y)) x :
  (forall x, frame (body x)) -> frame (loopM body x).
Proof. intros Hb. apply frame_bind; [apply frame_gets|]. intros n. by apply frame_iterM. Qed.

Lemma frame_stop : frame stop.
Proof. intros s. apply wp_modify. by eexists. Qed.

Lemma frame_start : frame start.
Proof. intros s. apply wp_modify. by eexists. Qed.
End Frames.

Create HintDb frame.
Ltac head_of t := lazymatch t with ?f _ => head_of f | _ => t end.
Ltac frame :=
  repeat match goal with
  | |- frame (bind _ _) => apply frame_bind; [|intros ?]
  | |- frame (ret _) => apply frame_ret
  | |- frame (gets _) => apply frame_gets
  | |- frame (emit _) => apply frame_emit
  | |- frame (panic _) => apply frame_panic
  | |- frame (lift _) => apply frame_lift
  | |- frame (loopM _ _) => apply frame_loopM; intros ?
  | |- frame (match ?x with _ => _ end) => destruct x
  | |- frame ?m => first [ assumption | solve [auto with frame] | let h := head_of m in unfold h; cbv zeta beta ]
  | |- forall _, _ => intros ?
  end.

Section TokenFacts.
Context {src : Type} `{RuneSource src}.
Implicit Types (r : src) (s : scanner src).

Lemma frame_nextch : frame nextch.
Proof. apply frame_lift. Qed.
#[local] Hint Resolve frame_nextch : frame.

Lemma frame_skip_while cond : frame (skip_while cond).
Proof.
  unfold skip_while, whileM. apply frame_bind; [apply frame_gets|]. intros n.
  apply frame_iterM. intros _. frame.
Qed.

Lemma frame_escape_digits n base x : frame (escape_digits n base x).
Proof. revert x. induction n as [|n IH]; intros x; cbn [escape_digits]; frame. Qed.

Lemma frame_match_prefix ms : frame (match_prefix ms).
Proof. induction ms as [|m ms IH]; cbn [match_prefix]; frame. Qed.
#[local] Hint Resolve frame_skip_while frame_escape_digits frame_match_prefix frame_stop frame_start : frame.


Lemma pwp_frame {A} (m : SM A) Q s :
  frame m -> (forall a r t, Q a (set_source_ r s) t) -> pwp m Q s.
Proof. intros Hm HQ. eapply wp_mono; [apply Hm|]. intros a s' t [r ->]. apply HQ. Qed.
End TokenFacts.

#[export] Hint Resolve frame_nextch frame_skip_while frame_escape_digits frame_match_prefix
  frame_stop frame_start : frame.

(** The scanner's state after a token. *)
Definition token_ok {src} (s : scanner src) : Prop :=
  nlsemi s = semi_token (tok s) /\
  (op_token (tok s) = true -> prec s = op_prec (op s) /\ op s <> OpNone).

(** Symbolic execution that keeps track of everything but the reader. *)
Ltac pw_step :=
  match goal with
  | |- wp _ _ (bind _ _) _ _ => apply wp_bind
  | |- wp _ _ (ret _) _ _ => apply wp_ret
  | |- wp _ _ (modify _) _ _ => apply wp_modify; sc_simpl
  | |- wp _ _ (set_operator _ _) _ _ => unfold set_operator
  | |- wp _ _ (set_token _) _ _ => unfold set_token
  | |- wp _ _ (single _) _ _ => unfold single
  | |- wp _ _ (closing _) _ _ => unfold closing
  | |- wp _ _ (operator _ _) _ _ => unfold operator
  | |- wp _ _ assignop _ _ => unfold assignop
  | |- wp _ _ (return_ _) _ _ => unfold return_
  | |- wp _ _ (setLit _ _) _ _ => unfold setLit
  | |- wp _ _ ?m _ _ => apply pwp_frame; [solve [frame]|intros ? ? ?; sc_simpl]
  | |- wp _ _ (match ?x with _ => _ end) _ _ => destruct x eqn:?
  end; cbv beta.

Section TokenState.
Context {src : Type} `{RuneSource src}.
Implicit Types (r : src) (s : scanner src).

Ltac pw := repeat pw_step; try (by split; [|split]).

(** From a state whose [nlsemi] is cleared, [m] leaves a correct token state. *)
Definition tokens_ok (m : SM unit) : Prop :=
  forall s, nlsemi s = false -> pwp m (fun _ s' _ => token_ok s') s.

Lemma tokens_ok_number p : tokens_ok (number p).
Proof. intros s Hn. unfold number. destruct p; pw. Qed.

Lemma tokens_ok_stdString : tokens_ok stdString.
Proof. intros s Hn. unfold stdString. pw. Qed.

Lemma tokens_ok_rawString : tokens_ok rawString.
Proof. intros s Hn. unfold rawString. pw. Qed.

Lemma tokens_ok_rune : tokens_ok rune_.
Proof. intros s Hn. unfold rune_. pw. Qed.

Lemma tokens_ok_dot : tokens_ok dot.
Proof.
  intros s Hn. unfold dot. do 3 pw_step. 
  pw_step. 
  case_match; [by apply tokens_ok_number|]. pw.
Qed.

Lemma tokens_ok_ident_token l : tokens_ok (ident_token l).
Proof.
  intros s Hn. unfold ident_token. destruct (keyword_lookup l) as [t|] eqn:E.
  - destruct (keyword_lookup_token l t E) as (_ & Hc & Ho). pw.
    split; sc_simpl; [done|]. by rewrite Ho.
  - cbv zeta. repeat (case_match; [pw|]). pw.
Qed.

Lemma tokens_ok_ident : tokens_ok ident.
Proof.
  intros s Hn. unfold ident. repeat (apply wp_bind, pwp_frame; [solve [frame]|intros ? ? ?]).
  by apply tokens_ok_ident_token.
Qed.

(** A round of [next] that returns has set the token. *)
Definition round_token (m : SM (unit + unit)) : Prop :=
  forall s, nlsemi s = false -> pwp m (fun y s' _ =>
    match y with inl _ => nlsemi s' = false | inr _ => token_ok s' end) s.

Lemma round_return m : tokens_ok m -> round_token (return_ m).
Proof. intros Hm s Hn. unfold return_. apply wp_bind. eapply wp_mono; [by apply Hm|]. intros [] s' t Hs. by apply wp_ret. Qed.

Ltac simple_token := apply round_return; [|done]; intros ? ?; by pw.

Lemma round_slash n : round_token (slash n).
Proof.
  intros s Hn. unfold slash.
  apply wp_bind, pwp_frame; [solve [frame]|intros ? ? ?]. apply wp_bind, pwp_frame; [solve [frame]|intros ? ? ?].
  case_match; [repeat pw_step; done|]. case_match; [|by pw].
  repeat (apply wp_bind, pwp_frame; [solve [frame]|intros ? ? ?]).
  case_match; by pw.
Qed.

Lemma round_next_switch n : round_token (next_switch n).
Proof.
  intros s Hn. unfold next_switch. apply wp_bind, wp_gets. generalize (ch s). intros c.
  case_match; [destruct n; simple_token|].
  case_match; [simple_token|].
  case_match; [apply round_return; [apply tokens_ok_number|done]|].
  case_match; [apply round_return; [apply tokens_ok_stdString|done]|].
  case_match; [apply round_return; [apply tokens_ok_rawString|done]|].
  case_match; [apply round_return; [apply tokens_ok_rune|done]|].
  do 9 (case_match; [simple_token|]).
  case_match; [apply round_return; [apply tokens_ok_dot|done]|].
  do 2 (case_match; [apply round_return; [intros ? ?; unfold incop; by pw|done]|]).
  case_match; [simple_token|].
  case_match; [by apply round_slash|].
  case_match; [simple_token|].
  case_match; [apply round_return; [intros ? ?; unfold ampersand; by pw|done]|].
  case_match; [apply round_return; [intros ? ?; unfold pipe; by pw|done]|].
  case_match; [simple_token|].
  case_match; [apply round_return; [intros ? ?; unfold less; by pw|done]|].
  case_match; [apply round_return; [intros ? ?; unfold greater; by pw|done]|].
  do 3 (case_match; [simple_token|]).
  case_match.
  - apply wp_bind, wp_gets. case_match; [simple_token|]. repeat pw_step; done.
  - repeat pw_step; done.
Qed.

Lemma round_next_round n : round_token (next_round n).
Proof.
  intros s Hn. unfold next_round. do 2 (apply wp_bind, pwp_frame; [solve [frame]|intros ? ? ?]).
  destruct a0 as [startLine startCol].
  do 2 (apply wp_bind, pwp_frame; [solve [frame]|intros ? ? ?]). destruct a1 as [l c].
  apply wp_bind, wp_modify, wp_bind, wp_modify.
  do 3 (apply wp_bind, pwp_frame; [solve [frame]|intros ? ? ?]).
  destruct a3; [|by apply round_next_switch].
  apply wp_bind, pwp_frame; [solve [frame]|intros ? ? ?].
  apply wp_bind. eapply wp_mono; [by apply tokens_ok_ident|]. intros [] s' t' Hs. by apply wp_ret.
Qed.

Lemma pwp_next s : pwp next (fun _ s' _ => token_ok s') s.
Proof.
  unfold next. apply wp_bind, wp_gets, wp_bind, wp_modify. unfold loopM. apply wp_bind, wp_gets.
  eapply wp_mono.
  - apply (wp_iterM _ _ (fun _ s' _ => nlsemi s' = false) (fun _ _ => O)
      (fun _ : unit => next_round (nlsemi s)) (fun _ s' _ => token_ok s')) with (t := []);
      [|done|by left].
    intros [] s1 t1 Hn. eapply wp_mono; [by apply round_next_round|].
    intros [[]|[]] s2 t2 H2; [by split; [|left]|done].
  - intros [] s' t' Hs. exact Hs.
Qed.
End TokenState.

(** ** The scanner does not depend on how its reader buffers *)
Section Refinement.
Context {src1 src2 : Type} `{RuneSource src1} `{RuneSource src2} (R : src1 -> src2 -> Prop).
Context `{!SourceRefines src1 src2 R}.

Record scan_rel (s1 : scanner src1) (s2 : scanner src2) : Prop := {
  sr_source : R (source_ s1) (source_ s2);
  sr_fields : (mode s1, nlsemi s1, line s1, col s1, blank s1) = (mode s2, nlsemi s2, line s2, col s2, blank s2);
  sr_token : (tok s1, lit s1, bad s1, kind s1, op s1, prec s1) = (tok s2, lit s2, bad s2, kind s2, op s2, prec s2)
}.

Lemma srel_lift {A} (m1 : GM string srcerr src1 A) m2 :
  mrel R m1 m2 -> mrel scan_rel (lift m1) (lift m2).
Proof.
  intros Hm s1 s2 [Hs Hf Ht]. specialize (Hm _ _ Hs). unfold lift, res_rel in *.
  destruct (m1 (source_ s1)) as [[[a1 r1] t1]| |], (m2 (source_ s2)) as [[[a2 r2] t2]| |]; try done.
  destruct Hm as (<- & <- & Hr). split; [done|]. split; [|by split].
  injection Hf as _ _ _ _ ->. done.
Qed.

Lemma srel_gets {A} (f1 : scanner src1 -> A) f2 :
  (forall s1 s2, scan_rel s1 s2 -> f1 s1 = f2 s2) ->
  mrel (V:=string) (E:=scanev) scan_rel (gets f1) (gets f2).
Proof. apply mrel_gets. Qed.

Lemma srel_loopM {X Y} (b1 : X -> SM (src:=src1) (X + Y)) (b2 : X -> SM (src:=src2) (X + Y)) x :
  (forall x, mrel scan_rel (b1 x) (b2 x)) -> mrel scan_rel (loopM b1 x) (loopM b2 x).
Proof.
  intros Hb. unfold loopM. apply mrel_bind.
  - apply srel_gets. intros s1 s2 [Hs _ _]. unfold rounds. by rewrite (ref_left _ _ Hs).
  - intros n. by apply mrel_iterM.
Qed.

Lemma srel_skip_while cond : mrel scan_rel (skip_while (src:=src1) cond) (skip_while (src:=src2) cond).
Proof.
  apply mrel_whileM.
  - intros s1 s2 [Hs _ _]. unfold rounds. by rewrite (ref_left _ _ Hs).
  - intros s1 s2 [Hs _ _]. unfold ch. by rewrite (ref_ch _ _ Hs).
  - apply srel_lift, ref_nextch.
Qed.
End Refinement.

(** Walk through the same computation over two readers. *)
Ltac srel_fields :=
  intros ? ? [? Hf Ht]; injection Hf; injection Ht; intros; unfold canBeIndexOperator, ch, pos;
  first [ congruence | by erewrite ref_ch | by erewrite ref_pos | done ].
Ltac srel_step :=
  match goal with
  | |- mrel _ (bind _ _) (bind _ _) => apply mrel_bind; [|intros ?]
  | |- mrel _ (ret _) (ret _) => apply mrel_ret
  | |- mrel _ (emit _) (emit _) => apply mrel_emit
  | |- mrel _ (panic _) (panic _) => apply mrel_panic
  | |- mrel _ (gets _) (gets _) => apply srel_gets; solve [srel_fields]
  | |- mrel _ (modify _) (modify _) =>
      apply mrel_modify; intros ? ? [? Hf Ht]; injection Hf; injection Ht; intros;
      (split; cbn; first [ congruence | by apply ref_start | by apply ref_stop | done ])
  | |- mrel _ (lift _) (lift _) => apply srel_lift; first [ apply ref_nextch | apply ref_segment | apply ref_rewind ]
  | |- mrel _ (loopM _ _) (loopM _ _) => apply srel_loopM; [exact _|intros ?]
  | |- mrel _ (skip_while _) (skip_while _) => apply srel_skip_while
  | |- SourceRefines _ _ _ => exact _
  | |- mrel _ (match ?x with _ => _ end) _ => destruct x
  | |- mrel _ ?m _ => first [ eassumption | solve [eauto with srel] | let h := head_of m in unfold h; cbv zeta beta ]
  end.
Ltac srel := repeat srel_step.

Create HintDb srel.

Section RefinementNext.
Context {src1 src2 : Type} `{RuneSource src1} `{RuneSource src2} (R : src1 -> src2 -> Prop).
Context `{!SourceRefines src1 src2 R}.

Lemma srel_escape_digits n base x :
  mrel (scan_rel R) (escape_digits (src:=src1) n base x) (escape_digits (src:=src2) n base x).
Proof. revert x. induction n as [|n IH]; intros x; cbn [escape_digits]; srel; apply IH. Qed.

Lemma srel_match_prefix ms :
  mrel (scan_rel R) (match_prefix (src:=src1) ms) (match_prefix (src:=src2) ms).
Proof. induction ms as [|m ms IH]; cbn [match_prefix]; srel. Qed.
#[local] Hint Resolve srel_escape_digits srel_match_prefix : srel.

Lemma srel_number p : mrel (scan_rel R) (number (src:=src1) p) (number (src:=src2) p).
Proof. srel. Qed.
#[local] Hint Resolve srel_number : srel.

Lemma srel_ident : mrel (scan_rel R) (ident (src:=src1)) (ident (src:=src2)).
Proof. srel. Qed.
#[local] Hint Resolve srel_ident : srel.

Lemma srel_next : mrel (scan_rel R) (next (src:=src1)) (next (src:=src2)).
Proof. srel. Qed.
End RefinementNext.

(** ** The contract of scanner.go *)

Lemma next_total_aux {src} `{SourceLaws src} (s : scanner src) :
  src_ok (source_ s) -> Z.of_nat (src_left (source_ s)) < 2 ^ 62 ->
  exists s' t, next s = Ok (tt, s', t) /\ src_ok (source_ s') /\ mode s' = mode s /\ good t /\
    (token_ok s' /\ lit_ok s') /\
    (src_left (source_ s') <= src_left (source_ s))%nat /\
    (tok s' = _EOF \/ scan_measure s' < scan_measure s).
Proof.
  intros Hok Hb. pose proof (twp_next s Hok Hb) as Ht. pose proof (pwp_next s) as Hp.
  unfold wp in *. destruct (next s) as [[[[] s'] t]|v|]; [|done..]. exists s', t.
  destruct Ht as (Hok' & Hm & Hg & Hl & Hlit). split; [done|]. split; [done|]. split; [done|]. split; [done|].
  split; [done|]. destruct Hp as [Hn _]. unfold scan_measure.
  destruct Hl as [Hl|(Hl & [He|[Hs Hn0]])].
  - split; [lia|]. right. destruct (nlsemi s'), (nlsemi s); lia.
  - split; [lia|]. by left.
  - split; [lia|]. right. rewrite Hs in Hn. change (semi_token _Semi) with false in Hn.
    rewrite Hn, Hn0. lia.
Qed.

(** C4: [next] is total: on every input (NUL bytes, invalid encodings and I/O
    errors included) it returns without a panic and without exhausting the
    bounds of its loops, and either the end of the input is reached or the
    measure gets smaller, so that the end is reached after finitely many calls.
    Every call of the handler passes a text that is not empty: the message of an
    error, a comment that starts with a slash and is long enough for the parser
    to take off its delimiters, or a comment that starts with a number sign,
    which the documentation of the handler does not know. *)
Theorem next_total {src} `{SourceLaws src} (s : scanner src) :
  src_ok (source_ s) -> Z.of_nat (src_left (source_ s)) < 2 ^ 62 ->
  exists s' t, next s = Ok (tt, s', t) /\ src_ok (source_ s') /\
    Forall good_event t /\ (tok s' = _EOF \/ 0 <= scan_measure s' < scan_measure s).
Proof.
  intros Hok Hb. destruct (next_total_aux s Hok Hb) as (s' & t & ? & ? & _ & ? & _ & _ & Hp).
  exists s', t. split; [done|]. split; [done|]. split; [done|].
  destruct Hp as [?|Hp]; [by left|right]. split; [|done]. unfold scan_measure. case_test; lia.
Qed.

(** A reader over the given reads. *)
Definition scan_reads (script : list read) : scanner source := init (Source.init script) directives.

Lemma next_total_witness :
  exists s' t, next (scan_reads [Read [0; 255; 35] None; Read [] (Some (IOError "disk"))]) = Ok (tt, s', t) /\
    src_ok (source_ s') /\ Forall good_event t /\
    (tok s' = _EOF \/ 0 <= scan_measure s' <
       scan_measure (scan_reads [Read [0; 255; 35] None; Read [] (Some (IOError "disk"))])).
Proof.
  apply (next_total (scan_reads [Read [0; 255; 35] None; Read [] (Some (IOError "disk"))])).
  - apply init_inv. repeat (constructor; [cbn; repeat (constructor; [unfold is_byte; lia|]); constructor|]).
    constructor.
  - vm_compute. reflexivity.
Defined.

(** C38: after every call of [next] the flag that turns a newline into a
    semicolon is set exactly for the tokens that may end a statement, and an
    operator token carries an operator with its precedence (goo's word
    operators [not], [and], [or] and the characters for != and ! included). *)
Theorem next_token_state {src} `{RuneSource src} (s s' : scanner src) t :
  next s = Ok (tt, s', t) ->
  nlsemi s' = existsb (tok_eqb (tok s')) semi_tokens /\
  (existsb (tok_eqb (tok s')) op_tokens = true -> prec s' = op_prec (op s') /\ op s' <> OpNone).
Proof. intros Hn. pose proof (pwp_next s) as Hp. unfold wp in Hp. by rewrite Hn in Hp. Qed.

Lemma next_token_state_witness :
  exists s' t, next (scan_reads [Read [10; 61; 61] None]) = Ok (tt, s', t) /\
    nlsemi s' = existsb (tok_eqb (tok s')) semi_tokens /\
    (existsb (tok_eqb (tok s')) op_tokens = true -> prec s' = op_prec (op s') /\ op s' <> OpNone).
Proof.
  eexists _, _. split; [vm_compute; reflexivity|].
  eapply (next_token_state (scan_reads [Read [10; 61; 61] None])). vm_compute. reflexivity.
Defined.

(** [n] tokens. *)
Fixpoint nexts {src} `{RuneSource src} (n : nat) : SM (src:=src) unit :=
  match n with
  | O => ret tt
  | S n => next;;; nexts n
  end.

(** What the parser reads of a token. *)
Definition token_state {src} (s : scanner src) :=
  (tok s, lit s, bad s, kind s, op s, prec s, (line s, col s, blank s)).

Lemma nexts_total {src} `{SourceLaws src} n : forall s : scanner src,
  src_ok (source_ s) -> Z.of_nat (src_left (source_ s)) < 2 ^ 62 ->
  exists s' t, nexts n s = Ok (tt, s', t).
Proof.
  induction n as [|n IH]; intros s Hok Hb; cbn [nexts]; [by eexists _, _|].
  destruct (next_total_aux s Hok Hb) as (s1 & t1 & H1 & Hok1 & _ & _ & _ & Hl & _).
  rewrite (bind_Ok _ _ _ _ _ _ H1).
  destruct (IH s1) as (s2 & t2 & ->); [done|lia|]. by eexists _, _.
Qed.

Lemma srel_nexts {src1 src2} `{RuneSource src1} `{RuneSource src2} R
    `{!SourceRefines src1 src2 R} n :
  mrel (scan_rel R) (nexts (src:=src1) n) (nexts (src:=src2) n).
Proof.
  induction n as [|n IH]; cbn [nexts]; [apply mrel_ret|].
  apply mrel_bind; [apply srel_next; exact _|]. intros []. exact IH.
Qed.

Definition bytes_script (script : list read) : Prop :=
  Forall (fun x => Forall is_byte (r_data x)) script.

(** The tokens of the buffered reader are those of the stream. *)
Lemma tokens_of_stream script m n :
  bytes_script script -> no_nul (script_items 0 script) ->
  Z.of_nat (length (script_items 0 script)) < 2 ^ 61 ->
  exists s st t, nexts n (init (Source.init script) m) = Ok (tt, s, t) /\
    nexts n (init (st_init (script_items 0 script)) m) = Ok (tt, st, t) /\ token_state s = token_state st.
Proof.
  intros Hb Hn Hl. pose proof (init_reads_as script Hb Hn) as Hr.
  destruct (nexts_total n (init (Source.init script) m)) as (s & t & Hs).
  { by apply init_inv. }
  { cbn [source_ init src_left buffered_source]. unfold left, pending.
    cbn [Source.init buf r e ioerr in_ Source.ch after]. rewrite slice_empty. cbn [map app]. case_test; lia. }
  pose proof (srel_nexts reads_as n (init (Source.init script) m) (init (st_init (script_items 0 script)) m)) as Hrel.
  unfold res_rel in Hrel. rewrite Hs in Hrel.
  destruct (nexts n (init (st_init (script_items 0 script)) m)) as [[[[] st] t']|v|];
    [|by destruct Hrel; split..].
  destruct Hrel as (_ & <- & Hrel); [by split|]. exists s, st, t. split; [done|]. split; [done|].
  destruct Hrel as [_ Hf Ht]. unfold token_state. congruence.
Qed.

(** C5: the tokens, their positions and the reported errors depend on the
    bytes (and read errors) of the input only, not on how reads deliver them
    or on the buffer: two readers with the same input (free of NUL) give the
    same first [n] tokens and events, for every [n] and every mode. *)
Theorem tokens_independent_of_reads script1 script2 m n :
  bytes_script script1 -> bytes_script script2 ->
  script_items 0 script1 = script_items 0 script2 -> no_nul (script_items 0 script1) ->
  Z.of_nat (length (script_items 0 script1)) < 2 ^ 61 ->
  exists s1 s2 t, nexts n (init (Source.init script1) m) = Ok (tt, s1, t) /\
    nexts n (init (Source.init script2) m) = Ok (tt, s2, t) /\ token_state s1 = token_state s2.
Proof.
  intros Hb1 Hb2 Heq Hn Hl.
  destruct (tokens_of_stream script1 m n Hb1 Hn Hl) as (s1 & st1 & t1 & H1 & Hst1 & E1).
  destruct (tokens_of_stream script2 m n Hb2) as (s2 & st2 & t2 & H2 & Hst2 & E2); [by rewrite <- Heq..|].
  rewrite Heq in Hst1. assert (t1 = t2 /\ st1 = st2) as [<- <-] by (split; congruence).
  exists s1, s2, t1. split; [done|]. split; [done|]. congruence.
Qed.

Lemma tokens_independent_of_reads_witness :
  exists s1 s2 t,
    nexts 2 (init (Source.init [Read [97; 226; 137; 160; 98] None]) directives) = Ok (tt, s1, t) /\
    nexts 2 (init (Source.init [Read [97; 226] None; Read [137] None; Read [160; 98] (Some EOF)]) directives)
      = Ok (tt, s2, t) /\ token_state s1 = token_state s2.
Proof.
  apply (tokens_independent_of_reads [Read [97; 226; 137; 160; 98] None]
    [Read [97; 226] None; Read [137] None; Read [160; 98] (Some EOF)] directives 2).
  - repeat (constructor; [cbn; repeat (constructor; [unfold is_byte; lia|]); constructor|]). constructor.
  - repeat (constructor; [cbn; repeat (constructor; [unfold is_byte; lia|]); constructor|]). constructor.
  - reflexivity.
  - unfold no_nul. cbn. repeat (constructor; [done|]). constructor.
  - vm_compute. reflexivity.
Defined.
