(* ===== verification/FormatFacts.v ===== *)
(** * Numbers and their decimal texts

    The optimised routine of strconv agrees with the loop of fmt, and
    [ParseUint] reads what they write. *)

From S2P Require Import Prelude Utf8 Format ScannerFacts.

#[local] Open Scope Z_scope.

Definition is_digit (c : byte) : bool := (48 <=? c) && (c <=? 57).

(** The value of a text of digits, after the digits with value [n]. *)
Fixpoint value (s : list byte) (n : Z) : Z :=
  match s with
  | [] => n
  | c :: s => value s (n * 10 + (c - 48))
  end.

Lemma value_app s1 s2 n : value (s1 ++ s2) n = value s2 (value s1 n).
Proof. induction s1 as [|c s1 IH] in n |- *; [done|]. apply IH. Qed.

Lemma value_grow s n : forallb is_digit s = true -> 0 <= n -> n <= value s n.
Proof.
  induction s as [|c s IH] in n |- *; cbn [value forallb]; [lia|]. unfold is_digit at 1.
  intros Hs Hn. apply andb_true_iff in Hs as [Hc Hs]. specialize (IH (n * 10 + (c - 48)) Hs). lia.
Qed.

(** ** ParseUint *)

(** Arithmetic with the bounds of 64 bits. *)
Ltac max_lia :=
  unfold u64, maxUint64 in *;
  change (2 ^ 64 - 1) with 18446744073709551615 in *; change (2 ^ 64) with 18446744073709551616 in *;
  change (18446744073709551615 / 10) with 1844674407370955161 in *; lia.

Lemma letter_not_digit c : is_digit c = false ->
  (if (48 <=? c) && (c <=? 57) then Some (c - 48)
   else if (97 <=? lower_byte c) && (lower_byte c <=? 122) then Some (lower_byte c - 97 + 10)
   else None) = None \/
  exists d, 10 <= d /\
  (if (48 <=? c) && (c <=? 57) then Some (c - 48)
   else if (97 <=? lower_byte c) && (lower_byte c <=? 122) then Some (lower_byte c - 97 + 10)
   else None) = Some d.
Proof.
  unfold is_digit. intros ->. destruct ((97 <=? lower_byte c) && (lower_byte c <=? 122)) eqn:E; [right|by left].
  exists (lower_byte c - 97 + 10). split; [lia|done].
Qed.

Lemma ParseUint_loop_spec s : forall n, 0 <= n <= maxUint64 ->
  forall v, ParseUint_loop s n = (v, true) <->
    forallb is_digit s = true /\ value s n = v /\ v <= maxUint64.
Proof.
  induction s as [|c s IH]; intros n Hn v; cbn [ParseUint_loop value forallb].
  { split; [intros [= <-]; split_and!; lia || done|]. by intros (_ & <- & _). }
  destruct (is_digit c) eqn:Ec; cbn [andb].
  2: { destruct (letter_not_digit c Ec) as [E|(d & Hd & E)]; rewrite E; [by split; [|intros [? _]]|].
       apply Z.leb_le in Hd. rewrite Hd. by split; [|intros [? _]]. }
  unfold is_digit in Ec. rewrite Ec. apply andb_true_iff in Ec as [E1 E2]. apply Z.leb_le in E1, E2.
  destruct (10 <=? c - 48) eqn:E10; [lia|].
  assert (Hbig : maxUint64 < n * 10 + (c - 48) -> forallb is_digit s = true -> maxUint64 < value s (n * 10 + (c - 48))).
  { intros Hb Hs. pose proof (value_grow s (n * 10 + (c - 48)) Hs). lia. }
  destruct (maxUint64 / 10 + 1 <=? n) eqn:Ecut.
  { split; [done|]. intros (Hs & Hv & Hm). apply Z.leb_le in Ecut.
    assert (Hb : maxUint64 < n * 10 + (c - 48)) by max_lia. specialize (Hbig Hb Hs). lia. }
  apply Z.leb_gt in Ecut. cbv zeta.
  assert (Eu : u64 (n * 10) = n * 10) by (apply Z.mod_small; max_lia). rewrite Eu.
  destruct (Z.le_gt_cases (n * 10 + (c - 48)) maxUint64) as [Hle|Hgt].
  - assert (Eu1 : u64 (n * 10 + (c - 48)) = n * 10 + (c - 48)) by (apply Z.mod_small; max_lia).
    rewrite Eu1. destruct ((n * 10 + (c - 48) <? n * 10) || (maxUint64 <? n * 10 + (c - 48))) eqn:Eo; [lia|].
    apply IH. lia.
  - assert (Eu1 : u64 (n * 10 + (c - 48)) < n * 10).
    { unfold u64. rewrite <- (Z_mod_plus_full _ (-1)), Z.mod_small; max_lia. }
    apply Z.ltb_lt in Eu1. rewrite Eu1. cbn [orb].
    split; [done|]. intros (Hs & Hv & Hm). specialize (Hbig Hgt Hs). lia.
Qed.

(** [ParseUint] accepts exactly the texts of decimal digits whose value
    fits into 64 bits, and returns this value. *)
Theorem ParseUint_spec s v :
  ParseUint s = (v, true) <->
  bytes_of_string s <> [] /\ forallb is_digit (bytes_of_string s) = true /\
  value (bytes_of_string s) 0 = v /\ v <= maxUint64.
Proof.
  unfold ParseUint. destruct (bytes_of_string s) as [|c l] eqn:E; [split; [done|by intros [? _]]|].
  rewrite ParseUint_loop_spec by max_lia. split; [by intros (? & ? & ?)|by intros (_ & ? & ? & ?)].
Qed.

(** ** The decimal text *)

Lemma fmtInteger_loop_digits fuel : forall u buf,
  0 <= u < 10 ^ Z.of_nat fuel -> forallb is_digit buf = true ->
  forallb is_digit (fmtInteger_loop fuel u buf) = true /\
  forall n, n = 0 -> value (fmtInteger_loop fuel u buf) n = value buf u.
Proof.
  induction fuel as [|fuel IH]; intros u buf Hu Hb.
  { cbn in Hu. cbn [fmtInteger_loop]. split; [done|]. intros n ->. by replace u with 0 by lia. }
  cbn [fmtInteger_loop]. cbv zeta. destruct (10 <=? u) eqn:E.
  - apply Z.leb_le in E. assert (Hd : 0 <= u - u / 10 * 10 < 10) by (pose proof (Z.mod_eq u 10); pose proof (Z.mod_pos_bound u 10); lia).
    assert (Eu : u8 (48 + u - u / 10 * 10) = 48 + (u - u / 10 * 10)) by (unfold u8; rewrite Z.mod_small; lia).
    rewrite Eu. destruct (IH (u / 10) (48 + (u - u / 10 * 10) :: buf)) as [IH1 IH2].
    + rewrite Nat2Z.inj_succ, Z.pow_succ_r in Hu by lia. split; [apply Z.div_pos; lia|].
      apply Z.div_lt_upper_bound; lia.
    + cbn [forallb]. rewrite Hb. unfold is_digit. lia.
    + split; [done|]. intros n Hn. rewrite (IH2 n Hn). cbn [value]. f_equal. lia.
  - apply Z.leb_gt in E. cbn [forallb value]. rewrite Hb. split; [unfold is_digit; lia|].
    intros n ->. f_equal. lia.
Qed.


Lemma fmtInteger_loop_length fuel : forall u buf, lenZ (fmtInteger_loop fuel u buf) <= Z.of_nat fuel + lenZ buf.
Proof.
  induction fuel as [|fuel IH]; intros u buf; cbn [fmtInteger_loop]; [lia|]. cbv zeta.
  case_match; [|rewrite lenZ_cons; lia]. etransitivity; [apply IH|]. rewrite lenZ_cons. lia.
Qed.

Lemma digit_bytes l : forallb is_digit l = true -> Forall is_byte l.
Proof.
  intros Hl. rewrite forallb_forall in Hl. apply List.Forall_forall. intros c Hc. specialize (Hl c Hc).
  unfold is_digit in Hl. unfold is_byte. lia.
Qed.

Lemma fmtInteger_bytes v : 0 <= v < 10 ^ 20 ->
  bytes_of_string (fmtInteger v) = fmtInteger_loop 20 v [] /\ forallb is_digit (fmtInteger_loop 20 v []) = true /\
  value (fmtInteger_loop 20 v []) 0 = v.
Proof.
  intros Hv. destruct (fmtInteger_loop_digits 20 v [] Hv eq_refl) as [Hd He].
  unfold fmtInteger. cbv zeta. destruct (v <? 0) eqn:E; [lia|]. cbn [app].
  rewrite bytes_of_string_of_bytes by by apply digit_bytes. split_and!; [done|done|]. by rewrite He.
Qed.

(** ** Two digits at a time *)

Lemma smallsString_digits k : 0 <= k < 100 ->
  nthZ 0 smallsString (k * 2) = 48 + k / 10 /\ nthZ 0 smallsString (k * 2 + 1) = 48 + k mod 10.
Proof.
  intros Hk. assert (Hall : forallb (fun k => (nthZ 0 smallsString (k * 2) =? 48 + k / 10) &&
    (nthZ 0 smallsString (k * 2 + 1) =? 48 + k mod 10)) (map Z.of_nat (seq 0 100)) = true) by (vm_compute; reflexivity).
  pose proof (forallb_below _ _ k Hall ltac:(lia)). lia.
Qed.

Lemma digit_u8 d : 0 <= d < 10 -> u8 (48 + d) = 48 + d.
Proof. intros Hd. unfold u8. rewrite Z.mod_small; lia. Qed.

Lemma div_digit u : 48 + u - u / 10 * 10 = 48 + u mod 10.
Proof. pose proof (Z.mod_eq u 10). lia. Qed.

Lemma fmtInteger_loop_step n u buf : 10 <= u ->
  fmtInteger_loop (S n) u buf = fmtInteger_loop n (u / 10) (48 + u mod 10 :: buf).
Proof.
  intros Hu. cbn [fmtInteger_loop]. cbv zeta. apply Z.leb_le in Hu. rewrite Hu, div_digit, digit_u8; [done|].
  by apply Z.mod_pos_bound.
Qed.

Lemma fmtInteger_loop_last n u buf : u < 10 -> fmtInteger_loop (S n) u buf = 48 + u :: buf.
Proof. intros Hu. cbn [fmtInteger_loop]. cbv zeta. destruct (10 <=? u) eqn:E; [lia|done]. Qed.

Lemma mod_100_low u : (u mod 100) mod 10 = u mod 10.
Proof.
  rewrite (Z.mod_eq u 100) by lia. replace (u - 100 * (u / 100)) with (u + (- 10 * (u / 100)) * 10) by lia.
  by rewrite Z.mod_add.
Qed.

Lemma mod_100_high u : u mod 100 / 10 = (u / 10) mod 10.
Proof.
  rewrite (Z.mod_eq u 100), (Z.mod_eq (u / 10) 10), Z.div_div by lia. change (10 * 10) with 100.
  replace (u - 100 * (u / 100)) with (u + (- 10 * (u / 100)) * 10) by lia. rewrite Z.div_add by lia. lia.
Qed.

Lemma formatBits_loop_pairs n : forall u a us a',
  0 <= u < 100 * 100 ^ Z.of_nat n -> formatBits_loop n u a = (us, a') ->
  0 <= us < 100 /\
  fmtInteger_loop (2 + 2 * n) u a =
    (if 10 <=? us then [nthZ 0 smallsString (us * 2); nthZ 0 smallsString (us * 2 + 1)]
     else [nthZ 0 smallsString (us * 2 + 1)]) ++ a'.
Proof.
  assert (Hbase : forall n u a, 0 <= u < 100 -> fmtInteger_loop (2 + n) u a =
    (if 10 <=? u then [nthZ 0 smallsString (u * 2); nthZ 0 smallsString (u * 2 + 1)]
     else [nthZ 0 smallsString (u * 2 + 1)]) ++ a).
  { intros n' u a Hu. destruct (smallsString_digits u Hu) as [-> ->]. cbn [Nat.add]. destruct (10 <=? u) eqn:E.
    - apply Z.leb_le in E. assert (u / 10 < 10) by (apply Z.div_lt_upper_bound; lia).
      rewrite fmtInteger_loop_step, fmtInteger_loop_last by lia. reflexivity.
    - apply Z.leb_gt in E. rewrite fmtInteger_loop_last by lia. rewrite Z.mod_small by lia. reflexivity. }
  induction n as [|n IH]; intros u a us a' Hu E; cbn [formatBits_loop] in E.
  { injection E as <- <-. rewrite Z.pow_0_r in Hu. split; [lia|]. apply (Hbase 0%nat). lia. }
  destruct (100 <=? u) eqn:E100.
  - apply Z.leb_le in E100. cbv zeta in E.
    assert (Hu' : 0 <= u / 100 < 100 * 100 ^ Z.of_nat n).
    { rewrite Nat2Z.inj_succ, Z.pow_succ_r in Hu by lia. split; [apply Z.div_pos; lia|].
      apply Z.div_lt_upper_bound; lia. }
    destruct (IH _ _ _ _ Hu' E) as [Hus IH'].
    split; [done|]. rewrite <- IH'. clear IH IH' E.
    destruct (smallsString_digits (u mod 100) (Z.mod_pos_bound u 100 ltac:(lia))) as [-> ->].
    replace (2 + 2 * S n)%nat with (S (S (2 + 2 * n)))%nat by lia.
    assert (10 <= u / 10) by (apply Z.div_le_lower_bound; lia).
    rewrite !fmtInteger_loop_step by lia. rewrite Z.div_div by lia. change (10 * 10) with 100.
    rewrite mod_100_low, mod_100_high. done.
  - apply Z.leb_gt in E100. injection E as <- <-. split; [lia|]. apply (Hbase (2 * S n)%nat). lia.
Qed.

Lemma fmtInteger_loop_fuel u n m : forall buf,
  0 <= u < 10 ^ Z.of_nat n -> (0 < n <= m)%nat -> fmtInteger_loop m u buf = fmtInteger_loop n u buf.
Proof.
  induction n as [|n IH] in u, m |- *; intros buf Hu Hm; [lia|]. destruct m as [|m]; [lia|].
  destruct (Z.le_gt_cases 10 u) as [H10|H10]; [|by rewrite !fmtInteger_loop_last].
  rewrite !fmtInteger_loop_step by done. rewrite Nat2Z.inj_succ, Z.pow_succ_r in Hu by lia.
  destruct n as [|n]; [cbn in Hu; lia|].
  apply IH; [|lia]. split; [apply Z.div_pos; lia|]. apply Z.div_lt_upper_bound; lia.
Qed.

Lemma bytes_empty s : bytes_of_string s = [] -> s = ""%string.
Proof. by destruct s. Qed.

Lemma formatBits_digits u : 0 <= u < 10 ^ 20 -> formatBits u false = fmtInteger_loop 20 u [].
Proof.
  intros Hu. unfold formatBits. cbv zeta. destruct (formatBits_loop 10 u []) as [us a] eqn:E.
  assert (Hb : 0 <= u < 100 * 100 ^ Z.of_nat 10) by (change (100 * 100 ^ Z.of_nat 10) with (10 ^ 22); lia).
  destruct (formatBits_loop_pairs 10 u [] us a Hb E) as [Hus Hp].
  assert (Hf : fmtInteger_loop (2 + 2 * 10) u [] = fmtInteger_loop 20 u []) by (apply fmtInteger_loop_fuel; [exact Hu|lia]).
  rewrite <- Hf, Hp. by destruct (10 <=? us).
Qed.

Lemma small_digits i : 0 <= i < 100 -> small i = fmtInteger_loop 20 i [].
Proof.
  intros Hi. assert (Hall : forallb (fun k => bool_decide (small k = fmtInteger_loop 20 k []))
    (map Z.of_nat (seq 0 100)) = true) by (vm_compute; reflexivity).
  pose proof (forallb_below _ _ i Hall ltac:(lia)) as E. by apply bool_decide_eq_true in E.
Qed.

Lemma formatBits_neg u : 0 < u <= 2 ^ 63 -> formatBits (u64 (- u)) true = 45 :: formatBits u false.
Proof.
  intros Hu. unfold formatBits. cbv zeta.
  assert (Eu : u64 (- u64 (- u)) = u).
  { unfold u64. rewrite <- (Z_mod_plus_full (- u) 1), (Z.mod_small (- u + 1 * 2 ^ 64)) by max_lia.
    rewrite <- (Z_mod_plus_full _ 1), Z.mod_small; max_lia. }
  rewrite Eu. by destruct (formatBits_loop 10 u []) as [us a].
Qed.

Definition sign_text (i : Z) : list byte := if i <? 0 then [45] else [].

(** The text of an integer: its sign and its digits. *)
Lemma FormatInt_digits i : - 2 ^ 63 <= i < 2 ^ 63 ->
  FormatInt i = sign_text i ++ fmtInteger_loop 20 (Z.abs i) [].
Proof.
  intros Hi. unfold FormatInt, nSmalls, sign_text. destruct ((0 <=? i) && (i <? 100)) eqn:E.
  { rewrite small_digits by lia. destruct (i <? 0) eqn:En; [lia|]. by rewrite Z.abs_eq by lia. }
  destruct (i <? 0) eqn:En.
  - replace i with (- (- i)) at 1 by lia. rewrite formatBits_neg by lia.
    rewrite formatBits_digits by lia. by rewrite Z.abs_neq by lia.
  - rewrite formatBits_digits by (unfold u64; rewrite Z.mod_small; lia).
    unfold u64. rewrite Z.mod_small by lia. by rewrite Z.abs_eq by lia.
Qed.

(** on the 64-bit integers [Itoa], which writes two digits at a time from
    a table, agrees with the digit loop of the %d verb. *)
Theorem Itoa_fmtInteger i : - 2 ^ 63 <= i < 2 ^ 63 -> Itoa i = fmtInteger i.
Proof.
  intros Hi. unfold Itoa, fmtInteger. rewrite FormatInt_digits by done. cbv zeta. unfold sign_text.
  destruct (i <? 0) eqn:En; [rewrite Z.abs_neq by lia|rewrite Z.abs_eq by lia]; done.
Qed.

Lemma Itoa_fmtInteger_witness : (- 2 ^ 63 <= -9007 < 2 ^ 63) /\ Itoa (-9007) = fmtInteger (-9007).
Proof. split; [lia|]. apply (Itoa_fmtInteger (-9007)). lia. Defined.

Lemma ParseUint_decimal v : 0 <= v <= maxUint64 -> ParseUint (fmtInteger v) = (v, true).
Proof.
  intros Hv. destruct (fmtInteger_bytes v) as (Eb & Hd & He); [unfold maxUint64 in *; lia|].
  unfold ParseUint. rewrite Eb. destruct (fmtInteger_loop 20 v []) as [|c l] eqn:El.
  - exfalso. by apply (fmtInteger_nonempty v), bytes_empty.
  - apply ParseUint_loop_spec; [max_lia|]. by split_and!; [..|lia].
Qed.

(** [ParseUint] reads back every 64-bit integer that the %d verb writes. *)
Theorem ParseUint_fmtInteger v : 0 <= v <= maxUint64 -> ParseUint (fmtInteger v) = (v, true).
Proof. apply ParseUint_decimal. Qed.

Lemma ParseUint_fmtInteger_witness :
  (0 <= 18446744073709551615 <= maxUint64) /\
  ParseUint (fmtInteger 18446744073709551615) = (18446744073709551615, true).
Proof. split; [unfold maxUint64; lia|]. apply (ParseUint_fmtInteger 18446744073709551615). unfold maxUint64. lia. Defined.

(** ** Atoi *)

Lemma value_bound s : forall n, forallb is_digit s = true -> value s n < (n + 1) * 10 ^ lenZ s.
Proof.
  induction s as [|c s IH]; intros n Hs; cbn [forallb value] in *; [change (lenZ []) with 0; lia|].
  apply andb_true_iff in Hs as [Hc Hs]. unfold is_digit in Hc. specialize (IH (n * 10 + (c - 48)) Hs).
  rewrite lenZ_cons, Z.pow_add_r by (try apply lenZ_nonneg; lia). pose proof (lenZ_nonneg s).
  assert (0 < 10 ^ lenZ s) by (apply Z.pow_pos_nonneg; lia). nia.
Qed.

Lemma Atoi_loop_digits s : forall n, forallb is_digit s = true -> 0 <= n -> value s n < 2 ^ 63 ->
  Atoi_loop s n = Some (value s n).
Proof.
  induction s as [|c s IH]; intros n Hs Hn Hv; [done|]. cbn [forallb value Atoi_loop] in *.
  apply andb_true_iff in Hs as [Hc Hs]. unfold is_digit in Hc. pose proof (value_grow s (n * 10 + (c - 48)) Hs ltac:(lia)) as Hg.
  assert (Eu : u8 (c - 48) = c - 48) by (unfold u8; rewrite Z.mod_small; lia). rewrite Eu.
  assert (Es : s64 (n * 10 + (c - 48)) = n * 10 + (c - 48)) by (unfold s64; rewrite Z.mod_small; lia). rewrite Es.
  destruct (9 <? c - 48) eqn:E9; [lia|]. apply IH; [done|lia|done].
Qed.

Lemma digits_unsigned s : forallb is_digit s = true -> s <> [] ->
  (nthZ 0 s 0 =? 45) = false /\ (nthZ 0 s 0 =? 43) = false.
Proof.
  destruct s as [|c s]; [done|]. cbn [forallb]. unfold is_digit. intros [Hc _]%andb_true_iff _.
  change (nthZ 0 (c :: s) 0) with c. split; lia.
Qed.

Lemma ParseUint_bytes v : 0 <= v <= maxUint64 -> ParseUint (string_of_bytes (fmtInteger_loop 20 v [])) = (v, true).
Proof.
  intros Hv. pose proof (ParseUint_decimal v Hv) as Hp. unfold fmtInteger in Hp. cbv zeta in Hp.
  destruct (v <? 0) eqn:E; [lia|done].
Qed.

Lemma Atoi_decimal i : - 2 ^ 63 <= i < 2 ^ 63 -> Atoi (FormatInt i) = Some i.
Proof.
  intros Hi. rewrite FormatInt_digits by done.
  assert (Hu : 0 <= Z.abs i < 10 ^ 20) by lia. destruct (fmtInteger_bytes (Z.abs i) Hu) as (Eb & Hd & Hval).
  pose proof (ParseUint_bytes (Z.abs i)) as Hp. set (ds := fmtInteger_loop 20 (Z.abs i) []) in *.
  assert (Hne : ds <> []) by (intros E; rewrite E in Eb; by apply (fmtInteger_nonempty (Z.abs i)), bytes_empty).
  destruct (digits_unsigned ds Hd Hne) as [E45 E43]. unfold Atoi, sign_text. cbv zeta.
  assert (Hfast : lenZ ds < 19 -> Atoi_loop ds 0 = Some (Z.abs i)).
  { intros Hl. rewrite <- Hval. apply Atoi_loop_digits; [done|lia|]. pose proof (value_bound ds 0 Hd).
    assert (10 ^ lenZ ds <= 10 ^ 18) by (apply Z.pow_le_mono_r; lia). lia. }
  assert (Hlen : 0 < lenZ ds) by (destruct ds; [done|rewrite lenZ_cons; pose proof (lenZ_nonneg ds); lia]).
  destruct (i <? 0) eqn:En; cbn [app].
  - change (nthZ 0 (45 :: ds) 0) with 45. change (drop 1 (45 :: ds)) with ds. rewrite lenZ_cons. cbn [orb Z.eqb Pos.eqb andb].
    destruct ((0 <? 1 + lenZ ds) && (1 + lenZ ds <? 19)) eqn:Ef.
    + rewrite Hfast by lia. destruct (lenZ ds <? 1) eqn:E1; [lia|]. f_equal. unfold s64. rewrite Z.mod_small; lia.
    + unfold ParseInt. cbn [orb Z.eqb Pos.eqb]. rewrite Hp by (unfold maxUint64; lia). cbn [negb andb].
      destruct (2 ^ 63 <? Z.abs i) eqn:E1; [lia|]. f_equal. unfold s64.
      destruct (Z.eq_dec i (- 2 ^ 63)) as [->|]; [reflexivity|].
      rewrite (Z.mod_small (Z.abs i + 2 ^ 63)), Z.mod_small; lia.
  - rewrite E45, E43. cbn [orb andb]. destruct ((0 <? lenZ ds) && (lenZ ds <? 19)) eqn:Ef.
    + rewrite Hfast by lia. f_equal. lia.
    + unfold ParseInt. destruct ds as [|c l]; [done|]. change (nthZ 0 (c :: l) 0) with c in *. rewrite E45, E43.
      cbn [orb]. rewrite Hp by (unfold maxUint64; lia). cbn [negb andb].
      destruct (2 ^ 63 <=? Z.abs i) eqn:E1; [lia|]. f_equal. unfold s64. rewrite Z.mod_small; lia.
Qed.

(** [Atoi] reads back every 64-bit integer that [FormatInt] writes, on the
    fast path for short texts and through [ParseInt] for the others. *)
Theorem Atoi_FormatInt i : - 2 ^ 63 <= i < 2 ^ 63 -> Atoi (FormatInt i) = Some i.
Proof. apply Atoi_decimal. Qed.

Lemma Atoi_FormatInt_witness : - 2 ^ 63 <= - 2 ^ 63 < 2 ^ 63 /\ Atoi (FormatInt (- 2 ^ 63)) = Some (- 2 ^ 63).
Proof. split; [lia|]. apply (Atoi_FormatInt (- 2 ^ 63)). lia. Defined.

(** ** Binary search *)

(** The elements grow from left to right. *)
Definition increasing (s : list Z) : Prop :=
  forall i j, 0 <= i -> i < j -> j < lenZ s -> nthZ 0 s i < nthZ 0 s j.

Lemma halfway i j : i < j -> i <= i + Z.shiftr (j - i) 1 < j.
Proof. intros Hij. rewrite Z.shiftr_div_pow2 by lia. change (2 ^ 1) with 2. pose proof (Z.div_pos (j - i) 2).
  pose proof (Z.div_lt (j - i) 2). lia. Qed.

Lemma bsearch_loop_spec s v : increasing s -> forall fuel i j,
  0 <= i <= j -> j <= lenZ s -> j - i < Z.of_nat fuel ->
  (forall k, 0 <= k < i -> nthZ 0 s k < v) -> (forall k, j <= k < lenZ s -> v <= nthZ 0 s k) ->
  let r := bsearch_loop fuel s v i j in
  i <= r <= j /\ (forall k, 0 <= k < r -> nthZ 0 s k < v) /\ (forall k, r <= k < lenZ s -> v <= nthZ 0 s k).
Proof.
  intros Hs. induction fuel as [|fuel IH]; intros i j Hij Hj Hf Hlo Hhi; [lia|]. cbn [bsearch_loop].
  destruct (i <? j) eqn:E; cbv zeta.
  - apply Z.ltb_lt in E. pose proof (halfway i j E) as Hh. set (h := i + Z.shiftr (j - i) 1) in *.
    destruct (nthZ 0 s h <? v) eqn:Ev.
    + apply Z.ltb_lt in Ev. destruct (IH (h + 1) j) as (Hr & Hl & Hg); try lia; [|done|].
      * intros k Hk. destruct (Z.eq_dec k h) as [->|]; [done|]. specialize (Hs k h). lia.
      * split; [lia|done].
    + apply Z.ltb_ge in Ev. destruct (IH i h) as (Hr & Hl & Hg); try lia; [done| |].
      * intros k Hk. destruct (Z.eq_dec k h) as [->|]; [done|]. specialize (Hs h k). lia.
      * split; [lia|done].
  - apply Z.ltb_ge in E. assert (i = j) as <- by lia. split; [lia|done].
Qed.

(** on an increasing table [bsearch] returns the number of elements below
    [v], which is where [v] stands if the table has it, and whether it has. *)
Theorem bsearch_spec s v i found :
  increasing s -> bsearch s v = (i, found) ->
  0 <= i <= lenZ s /\ (forall k, 0 <= k < i -> nthZ 0 s k < v) /\
  (forall k, i <= k < lenZ s -> v <= nthZ 0 s k) /\ (found = true <-> In v s).
Proof.
  intros Hs. unfold bsearch. cbv zeta. pose proof (lenZ_nonneg s).
  destruct (bsearch_loop_spec s v Hs (S (length s)) 0 (lenZ s)) as (Hr & Hl & Hg); try lia; [unfold lenZ; lia|].
  set (r := bsearch_loop _ _ _ _ _) in *. intros [= <- <-]. split_and!; [lia..|done|done|].
  assert (Hnth : forall k, 0 <= k < lenZ s -> In (nthZ 0 s k) s).
  { intros k Hk. unfold nthZ. destruct (k <? 0) eqn:E; [lia|]. apply nth_In. unfold lenZ in Hk. lia. }
  split.
  - intros Hf. apply andb_true_iff in Hf as [H1 H2]. apply Z.eqb_eq in H2. rewrite <- H2. apply Hnth. lia.
  - intros Hin. apply In_nth with (d := 0) in Hin as (n & Hn & En).
    assert (En' : nthZ 0 s (Z.of_nat n) = v)
      by (unfold nthZ; destruct (Z.of_nat n <? 0) eqn:E; [lia|by rewrite Nat2Z.id]).
    assert (Hn' : 0 <= Z.of_nat n < lenZ s) by (unfold lenZ; lia).
    destruct (Z.lt_trichotomy (Z.of_nat n) r) as [Hlt|[Heq|Hgt]].
    + specialize (Hl (Z.of_nat n)). lia.
    + rewrite <- Heq, En'. lia.
    + exfalso. specialize (Hg r). specialize (Hs r (Z.of_nat n)). lia.
Qed.

Lemma bsearch_spec_witness :
  increasing [3; 8; 20] /\ bsearch [3; 8; 20] 8 = (1, true) /\
  (0 <= 1 <= lenZ [3; 8; 20] /\ (forall k, 0 <= k < 1 -> nthZ 0 [3; 8; 20] k < 8) /\
   (forall k, 1 <= k < lenZ [3; 8; 20] -> 8 <= nthZ 0 [3; 8; 20] k) /\ (true = true <-> In 8 [3; 8; 20])).
Proof.
  assert (Hs : increasing [3; 8; 20]).
  { intros i j Hi Hij Hj. change (lenZ [3; 8; 20]) with 3 in Hj.
    assert (i = 0 /\ j = 1 \/ i = 0 /\ j = 2 \/ i = 1 /\ j = 2) as [[-> ->]|[[-> ->]|[-> ->]]] by lia;
      vm_compute; reflexivity. }
  split; [exact Hs|]. split; [reflexivity|]. apply (bsearch_spec [3; 8; 20] 8 1 true Hs). reflexivity.
Defined.
