(* ===== verification/SearchFacts.v ===== *)
(** * Properties of the searches

    The hash of the Rabin-Karp search is the hash of the current window, so
    that no occurrence is missed; [Index] finds the first occurrence with the
    assembly routines of any architecture. *)

From S2P Require Import Prelude Search.
From Stdlib Require Import Zpow_facts.

#[local] Open Scope Z_scope.

(** ** Occurrences *)

Definition occurs (s sub : text) (i : Z) : Prop :=
  0 <= i /\ i + lenZ sub <= lenZ s /\ slice s i (i + lenZ sub) = sub.

Definition first_occurrence (s sub : text) (i : Z) : Prop :=
  (i = -1 /\ forall j, ~ occurs s sub j) \/ (occurs s sub i /\ forall j, j < i -> ~ occurs s sub j).

Lemma first_unique s sub i j : first_occurrence s sub i -> first_occurrence s sub j -> i = j.
Proof.
  intros [[-> Hi]|[Hi Hi']] [[-> Hj]|[Hj Hj']]; [done|by destruct (Hi j)|by destruct (Hj i)|].
  destruct (Z.lt_trichotomy i j) as [Hlt|[?|Hlt]]; [by destruct (Hj' i)|done|by destruct (Hi' j)].
Qed.

Lemma occurs_nth s sub i k : occurs s sub i -> 0 <= k < lenZ sub -> nthZ 0 s (i + k) = nthZ 0 sub k.
Proof.
  intros (Hi & Hle & E) Hk.
  assert (Hs : slice (slice s i (i + lenZ sub)) k (k + 1) = slice s (i + k) (i + (k + 1))) by (apply slice_slice; lia).
  rewrite E, (slice_head 0 sub), (slice_head 0 s) in Hs by lia. by injection Hs.
Qed.

Lemma occurs_one s c i : occurs s [c] i <-> 0 <= i < lenZ s /\ nthZ 0 s i = c.
Proof.
  change (lenZ [c]) with 1. split.
  - intros H. pose proof H as (Hi & Hle & _). change (lenZ [c]) with 1 in Hle. split; [lia|].
    rewrite <- (Z.add_0_r i). by apply (occurs_nth s [c] i 0 H).
  - intros [Hi Hc]. split_and!; [lia|change (lenZ [c]) with 1; lia|]. change (lenZ [c]) with 1.
    rewrite (slice_head 0) by lia. by rewrite slice_empty, Hc.
Qed.

(** The rest of a text. *)
Lemma occurs_rest s sub i j : 0 <= i <= lenZ s -> 0 <= j -> occurs (slice s i (lenZ s)) sub j <-> occurs s sub (i + j).
Proof.
  intros Hi Hj. unfold occurs. rewrite lenZ_slice by lia. pose proof (lenZ_nonneg sub).
  split; intros (? & ? & E); split_and!; try lia.
  - rewrite slice_slice in E by lia. by rewrite <- Z.add_assoc.
  - rewrite slice_slice by lia. by rewrite Z.add_assoc.
Qed.

Lemma first_rest s sub i (search : text -> text -> Z) :
  0 <= i <= lenZ s -> (forall j, j < i -> ~ occurs s sub j) ->
  first_occurrence (slice s i (lenZ s)) sub (search (slice s i (lenZ s)) sub) ->
  first_occurrence s sub (rest_from s sub search i).
Proof.
  intros Hi Hno Hf. unfold rest_from. set (r := search _ _) in *. cbv zeta. destruct Hf as [[-> Hr]|[Hr Hr']].
  - left. split; [done|]. intros j Hj. destruct (Z.lt_ge_cases j i) as [Hlt|Hge]; [by apply (Hno j)|].
    apply (Hr (j - i)), occurs_rest; [lia|lia|]. by replace (i + (j - i)) with j by lia.
  - pose proof Hr as (H0 & _). destruct (0 <=? r) eqn:E; [|lia]. right.
    apply occurs_rest in Hr; [|lia|lia]. rewrite Z.add_comm. split; [done|].
    intros j Hj Hoc. destruct (Z.lt_ge_cases j i) as [Hlt|Hge]; [by apply (Hno j)|].
    apply (Hr' (j - i)); [lia|]. apply occurs_rest; [lia|lia|]. by replace (i + (j - i)) with j by lia.
Qed.

(** ** One byte *)

Lemma IndexByte_loop_spec s c : forall i,
  (IndexByte_loop s c i = -1 /\ Forall (fun x => x <> c) s) \/
  (exists pre q, s = pre ++ c :: q /\ Forall (fun x => x <> c) pre /\ IndexByte_loop s c i = i + lenZ pre).
Proof.
  induction s as [|x s IH]; intros i; [by left|]. cbn [IndexByte_loop]. destruct (Z.eqb_spec x c) as [->|Hn].
  - right. exists [], s. split_and!; [done..|]. change (lenZ []) with 0. lia.
  - destruct (IH (i + 1)) as [[-> Hs]|(pre & q & -> & Hp & ->)]; [left; split; [done|by constructor]|].
    right. exists (x :: pre), q. split_and!; [done|by constructor|]. rewrite lenZ_cons. lia.
Qed.

Lemma generic_IndexByte s c : first_occurrence s [c] (IndexByte_loop s c 0).
Proof.
  assert (Hno : forall pre q j, Forall (fun x => x <> c) pre -> j < lenZ pre -> ~ occurs (pre ++ q) [c] j).
  { intros pre q j Hp Hj [Hj' E]%occurs_one. rewrite nthZ_app_l in E by lia.
    pose proof (nthZ_Forall _ 0 pre j Hp ltac:(lia)). done. }
  destruct (IndexByte_loop_spec s c 0) as [[-> Hs]|(pre & q & -> & Hp & ->)].
  - left. split; [done|]. intros j Hj. pose proof Hj as [Hj' _]%occurs_one. rewrite <- (app_nil_r s) in Hj.
    by apply (Hno s [] j Hs); [lia|].
  - right. rewrite Z.add_0_l. split; [|intros j; by apply Hno]. apply occurs_one. pose proof (lenZ_nonneg pre).
    pose proof (lenZ_nonneg q). rewrite lenZ_app, lenZ_cons. split; [lia|]. rewrite <- (Z.add_0_r (lenZ pre)). by rewrite nthZ_app_r.
Qed.

(** ** Rabin-Karp *)

(** The hash without the wrap-around. *)
Definition weight (l : text) (h : Z) : Z := fold_left (fun h c => h * PrimeRK + c) l h.

Lemma u32_add_l a b : u32 (u32 a + b) = u32 (a + b).
Proof. apply Zplus_mod_idemp_l. Qed.
Lemma u32_mul_l a b : u32 (u32 a * b) = u32 (a * b).
Proof. apply Zmult_mod_idemp_l. Qed.
Lemma u32_mul_r a b : u32 (a * u32 b) = u32 (a * b).
Proof. apply Zmult_mod_idemp_r. Qed.
Lemma u32_sub a b : u32 (u32 a - u32 b) = u32 (a - b).
Proof. unfold u32. by rewrite <- Zminus_mod. Qed.

Lemma hash_weight l : forall h, fold_left hash_step l (u32 h) = u32 (weight l h).
Proof.
  induction l as [|c l IH]; intros h; [done|]. cbn [fold_left weight]. unfold hash_step at 2.
  rewrite u32_add_l, <- u32_add_l, u32_mul_l, u32_add_l. apply IH.
Qed.

Lemma weight_app l l' h : weight (l ++ l') h = weight l' (weight l h).
Proof. apply fold_left_app. Qed.

Lemma weight_start l : forall h, weight l h = h * PrimeRK ^ lenZ l + weight l 0.
Proof.
  induction l as [|c l IH]; intros h; [unfold weight; cbn [fold_left]; change (lenZ []) with 0; rewrite Z.pow_0_r; lia|]. change (weight l (h * PrimeRK + c) = h * PrimeRK ^ lenZ (c :: l) + weight l (0 * PrimeRK + c)).
  rewrite IH, (IH (0 * PrimeRK + c)), lenZ_cons, Z.pow_add_r by (unfold PrimeRK; try apply lenZ_nonneg; lia).
  rewrite Z.pow_1_r. ring.
Qed.

Lemma HashStr_pow_spec fuel : forall i pow sq, 0 <= i < 2 ^ Z.of_nat fuel ->
  u32 pow = pow -> HashStr_pow fuel i pow sq = u32 (pow * sq ^ i).
Proof.
  induction fuel as [|fuel IH]; intros i pow sq Hi Hp; cbn [HashStr_pow].
  { replace i with 0 by (cbn in Hi; lia). by rewrite Z.pow_0_r, Z.mul_1_r. }
  destruct (0 <? i) eqn:E.
  2: { replace i with 0 by lia. by rewrite Z.pow_0_r, Z.mul_1_r. }
  rewrite Nat2Z.inj_succ, Z.pow_succ_r in Hi by lia. rewrite Z.shiftr_div_pow2 by lia. change (2 ^ 1) with 2.
  assert (Hh : 0 <= i / 2 < 2 ^ Z.of_nat fuel) by (split; [apply Z.div_pos; lia|apply Z.div_lt_upper_bound; lia]).
  rewrite IH; [|done|].
  2: { case_match; [|done]. unfold u32. by rewrite Z.mod_mod. }
  pose proof (Z.div_mod i 2 ltac:(lia)) as Hdm. change 1 with (Z.ones 1) at 1. rewrite Z.land_ones by lia. change (2 ^ 1) with 2.
  assert (Hpow : forall k, u32 (k * u32 (sq * sq) ^ (i / 2)) = u32 (k * sq ^ (2 * (i / 2)))).
  { intros k. rewrite Z.pow_mul_r by lia. rewrite Z.pow_2_r. rewrite <- u32_mul_r.
    assert (Hq : u32 (u32 (sq * sq) ^ (i / 2)) = u32 ((sq * sq) ^ (i / 2))) by (unfold u32; by rewrite <- Zpower_mod).
    by rewrite Hq, u32_mul_r. }
  rewrite Hpow. pose proof (Z.mod_pos_bound i 2). destruct (Z.eqb_spec (i mod 2) 0) as [E0|E0]; cbn [negb].
  - f_equal. do 2 f_equal. lia.
  - rewrite u32_mul_l. f_equal. rewrite <- Z.mul_assoc. f_equal. rewrite <- Z.pow_succ_r by lia. f_equal. lia.
Qed.

Lemma HashStr_spec sep : HashStr sep = (u32 (weight sep 0), u32 (PrimeRK ^ lenZ sep)).
Proof.
  unfold HashStr. change 0 with (u32 0) at 1. rewrite hash_weight, HashStr_pow_spec; [by rewrite Z.mul_1_l| |done].
  split; [apply lenZ_nonneg|]. unfold lenZ. apply Z.pow_gt_lin_r; lia.
Qed.

(** The hash of the next window. *)
Lemma roll s n i h : 0 < n <= i -> i < lenZ s -> h = u32 (weight (slice s (i - n) i) 0) ->
  u32 (u32 (u32 (h * PrimeRK) + nthZ 0 s i) - u32 (u32 (PrimeRK ^ n) * nthZ 0 s (i - n))) =
  u32 (weight (slice s (i + 1 - n) (i + 1)) 0).
Proof.
  intros Hn Hi ->. rewrite u32_add_l, <- (u32_add_l (_ * PrimeRK)), u32_mul_l, u32_add_l, u32_mul_l, u32_sub. f_equal.
  rewrite (slice_head 0 s (i - n) i) by lia.
  rewrite (slice_split s (i + 1 - n) i (i + 1)), (slice_head 0 s i (i + 1)), slice_empty by lia.
  replace (i - n + 1) with (i + 1 - n) by lia. set (w := slice s (i + 1 - n) i).
  assert (Hw : lenZ w = n - 1) by (unfold w; rewrite lenZ_slice; lia).
  rewrite weight_app. cbn [weight fold_left]. fold (weight w). rewrite weight_start, Hw.
  assert (Hp : PrimeRK ^ n = PrimeRK * PrimeRK ^ (n - 1)) by (rewrite <- Z.pow_succ_r by lia; f_equal; lia).
  rewrite Hp. ring.
Qed.

Lemma same_hash s sep i h : h = u32 (weight (slice s i (i + lenZ sep)) 0) -> 0 <= i -> i + lenZ sep <= lenZ s ->
  (h =? u32 (weight sep 0)) && bool_decide (slice s i (i + lenZ sep) = sep) = bool_decide (slice s i (i + lenZ sep) = sep).
Proof. intros -> Hi Hle. case_bool_decide as E; [|by rewrite andb_false_r]. by rewrite E, Z.eqb_refl. Qed.

Lemma RabinKarp_loop_spec s sep fuel : 0 < lenZ sep -> forall h i,
  h = u32 (weight (slice s (i - lenZ sep) i) 0) -> lenZ sep <= i <= lenZ s -> lenZ s - i < Z.of_nat fuel ->
  (forall j, j <= i - lenZ sep -> ~ occurs s sep j) ->
  first_occurrence s sep (RabinKarp_loop fuel s sep (u32 (weight sep 0)) (u32 (PrimeRK ^ lenZ sep)) h i).
Proof.
  intros Hn. induction fuel as [|fuel IH]; intros h i Hh Hi Hf Hno; [lia|]. cbn [RabinKarp_loop]. cbv zeta.
  destruct (i <? lenZ s) eqn:E.
  2: { left. split; [done|]. intros j Hj. apply (Hno j); [|done]. destruct Hj as (_ & ? & _). lia. }
  rewrite (roll s (lenZ sep) i h) by (try done; lia). set (h' := u32 (weight _ 0)).
  pose proof (same_hash s sep (i + 1 - lenZ sep) h') as Hsame. replace (i + 1 - lenZ sep + lenZ sep) with (i + 1) in Hsame by lia.
  rewrite Hsame by (try done; lia). case_bool_decide as Eq.
  - right. split; [|intros j Hj; apply Hno; lia]. split_and!; [lia..|]. by replace (i + 1 - lenZ sep + lenZ sep) with (i + 1) by lia.
  - apply IH; [done|lia|lia|]. intros j Hj. destruct (Z.eq_dec j (i + 1 - lenZ sep)) as [->|]; [|apply Hno; lia].
    intros (_ & _ & Ho). by replace (i + 1 - lenZ sep + lenZ sep) with (i + 1) in Ho by lia.
Qed.

Lemma IndexRabinKarp_first s sep : 0 < lenZ sep <= lenZ s -> first_occurrence s sep (IndexRabinKarp s sep).
Proof.
  intros Hl. unfold IndexRabinKarp. rewrite HashStr_spec. cbv zeta.
  pose proof (hash_weight (slice s 0 (lenZ sep)) 0) as Hh. change (u32 0) with 0 in Hh. rewrite Hh. pose proof (same_hash s sep 0 _ eq_refl ltac:(lia) ltac:(lia)) as Hsame.
  rewrite Z.add_0_l in Hsame. rewrite Hsame. case_bool_decide as E.
  - right. split; [|intros j Hj (? & _); lia]. split_and!; [lia..|]. by rewrite Z.add_0_l.
  - apply RabinKarp_loop_spec; [lia|by rewrite Z.sub_diag|lia|unfold lenZ; lia|].
    intros j Hj Ho. pose proof Ho as (H0 & _ & Ho'). replace j with 0 in Ho' by lia. by rewrite Z.add_0_l in Ho'.
Qed.

(** ** The routines of an architecture and the choice between the searches *)

(** What bytealg.go documents of the routines. *)
Definition occurrences (s : text) (c : byte) : Z := lenZ (List.filter (fun x => x =? c) s).

Class BytealgLaws (B : Bytealg) : Prop := {
  IndexByteString_first s c : first_occurrence s [c] (IndexByteString s c);
  IndexString_first s sub : 2 <= lenZ sub <= MaxLen -> first_occurrence s sub (IndexString s sub);
  CountString_all s c : CountString s c = occurrences s c
}.

Lemma Count_loop_spec s c : forall n, Count_loop s c n = n + occurrences s c.
Proof.
  unfold occurrences. induction s as [|x s IH]; intros n; cbn [Count_loop List.filter]; [change (lenZ []) with 0; lia|].
  rewrite IH. case_match; [rewrite lenZ_cons|]; lia.
Qed.

#[global] Instance generic_laws : BytealgLaws generic.
Proof.
  split; [apply generic_IndexByte| |].
  - intros s sub. cbn. lia.
  - intros s c. cbn. by rewrite Count_loop_spec.
Qed.

Section Index.
Context {B : Bytealg} {L : BytealgLaws B} (s substr : text) (Hn : 2 <= lenZ substr <= lenZ s).

Abbreviation t := (lenZ s - lenZ substr + 1).
Abbreviation free i := (forall j, j < i -> ~ occurs s substr j).

Lemma skip_to_spec i : 0 <= i < t -> free i ->
  match skip_to s substr i t with
  | Some i' => i <= i' < t /\ free i'
  | None => free t
  end.
Proof.
  intros Hi Hf. unfold skip_to. set (c0 := nthZ 0 substr 0). cbv zeta.
  assert (Hc : forall j, occurs s substr j -> nthZ 0 s j = c0).
  { intros j Hj. rewrite <- (Z.add_0_r j). apply (occurs_nth s substr j 0 Hj). lia. }
  destruct (Z.eqb_spec (nthZ 0 s i) c0) as [E|E]; cbn [negb]; [split; [lia|done]|].
  pose proof (IndexByteString_first (slice s (i + 1) t) c0) as Ho. set (o := IndexByteString _ c0) in *.
  assert (Hnth : forall k, 0 <= k < t - (i + 1) -> nthZ 0 (slice s (i + 1) t) k = nthZ 0 s (i + 1 + k)).
  { intros k Hk. assert (Hl : lenZ (slice s (i + 1) t) = t - (i + 1)) by (rewrite lenZ_slice; lia).
    symmetry. apply occurs_nth; [|lia]. split_and!; [lia..|]. rewrite Hl. f_equal. lia. }
  assert (Hskip : forall m, m <= t - (i + 1) -> (forall k, 0 <= k < m -> ~ occurs (slice s (i + 1) t) [c0] k) -> free (i + 1 + m)).
  { intros m Hm Hk j Hj Hoc. destruct (Z.lt_trichotomy j i) as [Hlt|[->|Hgt]]; [by apply (Hf j)|by apply E, Hc|].
    apply (Hk (j - (i + 1))); [lia|]. apply occurs_one. rewrite lenZ_slice by lia. split; [lia|].
    rewrite Hnth by lia. replace (i + 1 + (j - (i + 1))) with j by lia. by apply Hc. }
  destruct Ho as [[-> Ho]|[Ho Ho']].
  - cbn [Z.ltb Z.compare]. replace t with (i + 1 + (t - (i + 1))) by lia. apply Hskip; [lia|]. intros k _. apply Ho.
  - apply occurs_one in Ho as [Ho _]. rewrite lenZ_slice in Ho by lia. destruct (o <? 0) eqn:E0; [lia|].
    split; [lia|]. replace (i + (o + 1)) with (i + 1 + o) by lia. apply Hskip; [lia|]. intros k Hk. apply Ho'. lia.
Qed.

Lemma none_left : free t -> first_occurrence s substr (-1).
Proof.
  intros Hf. left. split; [done|]. intros j Hj. apply (Hf j); [|done]. destruct Hj as (_ & ? & _). lia.
Qed.

Lemma matches_at_spec i : 0 <= i < t -> matches_at s substr i = true <-> occurs s substr i.
Proof.
  intros Hi. unfold matches_at. rewrite andb_true_iff, bool_decide_eq_true. split.
  - intros [_ E]. split_and!; [lia..|done].
  - intros Ho. split; [|apply Ho]. apply Z.eqb_eq, (occurs_nth s substr i 1 Ho). lia.
Qed.

(** One round of the loops. *)
Lemma round_spec i (next : Z -> Z) : 0 <= i < t -> free i ->
  (forall i', i < i' <= t -> free i' -> first_occurrence s substr (next i')) ->
  first_occurrence s substr
    match skip_to s substr i t with
    | None => -1
    | Some i => if matches_at s substr i then i else next (i + 1)
    end.
Proof.
  intros Hi Hf Hnext. pose proof (skip_to_spec i Hi Hf) as Hs. destruct (skip_to s substr i t) as [i'|]; [|by apply none_left].
  destruct Hs as [Hi' Hf']. pose proof (matches_at_spec i' ltac:(lia)) as Hm. destruct (matches_at s substr i').
  - right. split; [by apply Hm|done].
  - apply Hnext; [lia|]. intros j Hj Ho. destruct (Z.eq_dec j i') as [->|]; [by apply Hm in Ho|apply (Hf' j); [lia|done]].
Qed.

Lemma Index_short_spec fuel : lenZ substr <= MaxLen -> forall i fails, 0 <= i <= t -> t - i < Z.of_nat fuel -> free i ->
  first_occurrence s substr (Index_short s substr fuel t i fails).
Proof.
  intros Hm. induction fuel as [|fuel IH]; intros i fails Hi Hfuel Hf; [lia|]. cbn [Index_short].
  destruct (i <? t) eqn:E; [|apply none_left; by replace t with i by lia].
  apply (round_spec i (fun i => if Cutover i <? fails + 1 then rest_from s substr IndexString i
    else Index_short s substr fuel t i (fails + 1))); [lia|done|].
  intros i' Hi' Hf'. case_match; [|apply IH; [lia|lia|done]].
  apply first_rest; [lia|done|]. apply IndexString_first. lia.
Qed.

Lemma Index_long_spec fuel : forall i fails, 0 <= i <= t -> t - i < Z.of_nat fuel -> free i ->
  first_occurrence s substr (Index_long s substr fuel t i fails).
Proof.
  induction fuel as [|fuel IH]; intros i fails Hi Hfuel Hf; [lia|]. cbn [Index_long].
  destruct (i <? t) eqn:E; [|apply none_left; by replace t with i by lia].
  apply (round_spec i (fun i => if (4 + Z.shiftr i 4 <=? fails + 1) && (i <? t) then rest_from s substr IndexRabinKarp i
    else Index_long s substr fuel t i (fails + 1))); [lia|done|].
  intros i' Hi' Hf'. destruct ((4 + Z.shiftr i' 4 <=? fails + 1) && (i' <? t)) eqn:E'; [|apply IH; [lia|lia|done]].
  apply first_rest; [lia|done|]. apply IndexRabinKarp_first; rewrite lenZ_slice; lia.
Qed.
End Index.

Lemma Index_finds {B : Bytealg} {L : BytealgLaws B} s substr : first_occurrence s substr (Index s substr).
Proof.
  unfold Index. cbv zeta. pose proof (lenZ_nonneg substr).
  assert (Hneg : forall j, j < 0 -> ~ occurs s substr j) by (intros j Hj (? & _); lia).
  destruct (Z.eqb_spec (lenZ substr) 0) as [E0|E0].
  { right. split; [|done]. split_and!; [lia|pose proof (lenZ_nonneg s); lia|]. destruct substr; [by apply slice_empty|].
    rewrite lenZ_cons in E0. pose proof (lenZ_nonneg substr). lia. }
  destruct (Z.eqb_spec (lenZ substr) 1) as [E1|E1].
  { destruct substr as [|c [|c' q]]; [done|apply IndexByteString_first|]. rewrite !lenZ_cons in E1. pose proof (lenZ_nonneg q). lia. }
  destruct (Z.eqb_spec (lenZ substr) (lenZ s)) as [Es|Es].
  { case_bool_decide as E.
    - right. split; [|done]. subst substr. split_and!; [lia..|]. by apply slice_full.
    - left. split; [done|]. intros j (Hj & Hle & Ho). apply E. rewrite <- Ho.
      replace j with 0 by lia. apply slice_full. lia. }
  destruct (lenZ s <? lenZ substr) eqn:El.
  { left. split; [done|]. intros j (? & ? & _). lia. }
  destruct (lenZ substr <=? MaxLen) eqn:Em; [case_match|].
  - apply IndexString_first. lia.
  - apply Index_short_spec; [lia|lia|lia|unfold lenZ in *; lia|done].
  - apply Index_long_spec; [lia|lia|unfold lenZ in *; lia|done].
Qed.

(** C37: [Index] returns the first place where the text occurs, or -1 if it
    occurs nowhere, whichever search it uses, and whatever routines the
    architecture has as long as they do what bytealg.go documents. *)
Theorem Index_first {B : Bytealg} {L : BytealgLaws B} s substr :
  first_occurrence s substr (Index s substr).
Proof. apply Index_finds. Qed.

(** A search that goes over to Rabin-Karp. *)
Definition haystack : text := txt "aaaaaaaaaaaaaaaaaaaaaaab".

Lemma Index_first_witness :
  BytealgLaws generic /\ first_occurrence haystack (txt "aab") (Index haystack (txt "aab")).
Proof.
  split; [apply generic_laws|]. apply (Index_first (B := generic) haystack (txt "aab")).
Defined.

(** ** Searches for one byte *)

Lemma Index_is {B : Bytealg} {L : BytealgLaws B} s substr i : first_occurrence s substr i -> Index s substr = i.
Proof. intros Hi. eapply first_unique; [by apply Index_finds|done]. Qed.

Lemma Index_no_byte c s : Forall (fun b => b <> c) s -> Index s [c] = -1.
Proof.
  intros Hs. apply Index_is. left. split; [done|]. intros j [Hj E]%occurs_one.
  by pose proof (nthZ_Forall _ 0 s j Hs Hj).
Qed.

Lemma Index_byte c s q : Forall (fun b => b <> c) s -> Index (s ++ c :: q) [c] = lenZ s.
Proof.
  intros Hs. apply Index_is. right. pose proof (lenZ_nonneg s). pose proof (lenZ_nonneg q). split.
  - apply occurs_one. rewrite lenZ_app, lenZ_cons. split; [lia|]. rewrite <- (Z.add_0_r (lenZ s)). by rewrite nthZ_app_r.
  - intros j Hj [Hj' E]%occurs_one. rewrite nthZ_app_l in E by lia. by pose proof (nthZ_Forall _ 0 s j Hs ltac:(lia)).
Qed.

Lemma Index_front s q : Index (s ++ q) s = 0.
Proof.
  apply Index_is. right. split; [|intros j Hj (? & _); lia]. split_and!; [lia|rewrite lenZ_app; pose proof (lenZ_nonneg q); lia|].
  rewrite Z.add_0_l. apply slice_front.
Qed.

(** ** HasPrefix *)

Lemma HasPrefix_cons x c s p : HasPrefix (x :: s) (c :: p) = true -> x = c.
Proof.
  unfold HasPrefix. intros [_ H]%andb_true_iff. apply bool_decide_eq_true in H.
  rewrite lenZ_cons in H. unfold slice in H. rewrite Z.sub_0_r in H. cbn [drop Z.to_nat] in H.
  change (drop (Z.to_nat 0) (x :: s)) with (x :: s) in H. pose proof (lenZ_nonneg p).
  destruct (Z.to_nat (1 + lenZ p)); [done|]. by injection H.
Qed.

Lemma HasPrefix_one x c s : HasPrefix (x :: s) [c] = (x =? c).
Proof.
  destruct (Z.eqb_spec x c) as [->|Hn]; [|apply not_true_is_false; by intros ?%HasPrefix_cons].
  unfold HasPrefix. rewrite !lenZ_cons. pose proof (lenZ_nonneg s). apply andb_true_iff. split; [apply Z.leb_le; unfold lenZ in *; cbn [length]; lia|].
  by apply bool_decide_eq_true.
Qed.
