(* ===== verification/Strings.v ===== *)
(** * src/src/strings: the functions that build constraints use

    Texts are lists of bytes.  [range_] is the sequence of indices and
    characters that a [for i, r := range s] loop sees.  The searches are in
    Search.v. *)

From S2P Require Import Prelude Utf8 UnicodeTables Unicode Search.

#[local] Open Scope Z_scope.

(** [for i, r := range s] *)
Fixpoint runes_from (fuel : nat) (i : Z) (s : text) : list (Z * rune) :=
  match fuel, s with
  | S n, _ :: _ => let '(r, w) := DecodeRune s in (i, r) :: runes_from n (i + w) (drop (Z.to_nat w) s)
  | _, _ => []
  end.
Definition range_ (s : text) : list (Z * rune) := runes_from (length s) 0 s.

Definition RuneCountInString (s : text) : Z := lenZ (range_ s).

(** The characters of a text: [n - 1] of them, and the rest. *)
Fixpoint explode_loop (rounds : nat) (s : text) : list text :=
  match rounds with
  | O => [s]
  | S r => let size := (DecodeRune s).2 in slice s 0 size :: explode_loop r (slice s size (lenZ s))
  end.
Definition explode (s : text) (n : Z) : list text :=
  let l := RuneCountInString s in
  let n := if (n <? 0) || (l <? n) then l else n in
  if 0 <? n then explode_loop (Z.to_nat (n - 1)) s else [].

(** The loop over the instances: each takes a byte off the text. *)
Fixpoint Count_loop (fuel : nat) (s substr : text) (n : Z) : Z :=
  match fuel with
  | O => n
  | S f =>
      let i := Index s substr in
      if i =? -1 then n else Count_loop f (slice s (i + lenZ substr) (lenZ s)) substr (n + 1)
  end.
Definition Count (s substr : text) : Z :=
  if lenZ substr =? 0 then RuneCountInString s + 1
  else if lenZ substr =? 1 then CountString s (nthZ 0 substr 0)
  else Count_loop (S (length s)) s substr 0.

(** At most [rounds] parts, and the rest. *)
Fixpoint Split_loop (rounds : nat) (s sep : text) (sepSave : Z) : list text :=
  match rounds with
  | O => [s]
  | S r =>
      let m := Index s sep in
      if m <? 0 then [s]
      else slice s 0 (m + sepSave) :: Split_loop r (slice s (m + lenZ sep) (lenZ s)) sep sepSave
  end.
Definition genSplit (s sep : text) (sepSave n : Z) : list text :=
  if n =? 0 then []
  else match sep with
  | [] => explode s n
  | _ =>
      let n := if n <? 0 then Count s sep + 1 else n in
      let n := if lenZ s + 1 <? n then lenZ s + 1 else n in
      Split_loop (Z.to_nat (n - 1)) s sep sepSave
  end.
Definition Split (s sep : text) : list text := genSplit s sep 0 (-1).

(** A text fits into memory, so that the overflow checks pass. *)
Definition Join (elems : list text) (sep : text) : text :=
  match elems with
  | [] => []
  | e :: es => e ++ concat (map (fun s => sep ++ s) es)
  end.

Definition asciiSpace (c : byte) : bool := existsb (Z.eqb c) [9; 10; 11; 12; 13; 32].

Definition indexFunc (s : text) (f : rune -> bool) (truth : bool) : Z :=
  match find (fun ir => eqb (f ir.2) truth) (range_ s) with
  | Some (i, _) => i
  | None => -1
  end.

Fixpoint lastIndex_loop (fuel : nat) (s : text) (f : rune -> bool) (truth : bool) (i : Z) : Z :=
  match fuel with
  | O => -1
  | S n =>
      if 0 <? i then
        let '(r, size) := DecodeLastRune (slice s 0 i) in
        let i := i - size in
        if eqb (f r) truth then i else lastIndex_loop n s f truth i
      else -1
  end.
Definition lastIndexFunc (s : text) (f : rune -> bool) (truth : bool) : Z :=
  lastIndex_loop (S (length s)) s f truth (lenZ s).

Definition TrimLeftFunc (s : text) (f : rune -> bool) : text :=
  let i := indexFunc s f false in
  if i =? -1 then [] else slice s i (lenZ s).

Definition TrimRightFunc (s : text) (f : rune -> bool) : text :=
  let i := lastIndexFunc s f false in
  let i :=
    if (0 <=? i) && (RuneSelf <=? nthZ 0 s i) then i + (DecodeRune (slice s i (lenZ s))).2
    else i + 1 in
  slice s 0 i.

Definition TrimFunc (s : text) (f : rune -> bool) : text := TrimRightFunc (TrimLeftFunc s f) f.

(** The rest of a text after its ASCII white space. *)
Fixpoint skip_spaces (s : text) : text :=
  match s with
  | c :: s' => if asciiSpace c then skip_spaces s' else s
  | [] => []
  end.

(** The loops stop at the first byte that is not ASCII white space; a byte
    that is not ASCII at all leaves the fast path. *)
Definition TrimSpace (s : text) : text :=
  match skip_spaces s with
  | [] => []
  | (c :: _) as s =>
      if RuneSelf <=? c then TrimFunc s IsSpace
      else
        match skip_spaces (rev s) with
        | [] => []
        | (c :: _) as r => if RuneSelf <=? c then TrimRightFunc (rev r) IsSpace else rev r
        end
  end.

(** The spans of the fields: [start] is negative between fields. *)
Fixpoint spans (l : list (Z * rune)) (f : rune -> bool) (start len : Z) : list (Z * Z) :=
  match l with
  | [] => if 0 <=? start then [(start, len)] else []
  | (end_, r) :: l =>
      if f r then
        if 0 <=? start then (start, end_) :: spans l f (Z.lnot start) len else spans l f start len
      else spans l f (if start <? 0 then end_ else start) len
  end.

Definition FieldsFunc (s : text) (f : rune -> bool) : list text :=
  map (fun se => slice s se.1 se.2) (spans (range_ s) f (-1) (lenZ s)).

(** The fields of an ASCII text; [field] is the part of the current one. *)
Fixpoint ascii_fields (s field : text) : list text :=
  match s with
  | [] => match field with [] => [] | _ => [field] end
  | c :: s =>
      if asciiSpace c then
        match field with [] => ascii_fields s [] | _ => field :: ascii_fields s [] end
      else ascii_fields s (field ++ [c])
  end.

Definition Fields (s : text) : list text :=
  if existsb (fun c => RuneSelf <=? c) s then FieldsFunc s IsSpace else ascii_fields s [].

Module StringsExamples.

Example trim : TrimSpace (txt "  a b ") = txt "a b". Proof. vm_compute. reflexivity. Qed.
(** A no-break space and an ideographic space. *)
Example trim_unicode : TrimSpace (encode 0xA0 ++ txt "é" ++ encode 0x3000) = txt "é".
Proof. vm_compute. reflexivity. Qed.
Example fields : Fields (txt " ab  c ") = [txt "ab"; txt "c"]. Proof. vm_compute. reflexivity. Qed.
Example fields_unicode : Fields (txt " é" ++ encode 0x3000 ++ txt "c ") = [txt "é"; txt "c"].
Proof. vm_compute. reflexivity. Qed.
Example split_empty : Split (txt "a≠") [] = [txt "a"; txt "≠"]. Proof. vm_compute. reflexivity. Qed.
Example split_two : Split (txt "a::b:") (txt "::") = [txt "a"; txt "b:"]. Proof. vm_compute. reflexivity. Qed.
Example split : Split (txt "a,,b,") (txt ",") = [txt "a"; []; txt "b"; []]. Proof. vm_compute. reflexivity. Qed.
Example cut : Cut (txt "go1.22") (txt "go1.") = ([], txt "22", true). Proof. vm_compute. reflexivity. Qed.
Example contains : Contains (txt "abc") (txt "bc") = true. Proof. vm_compute. reflexivity. Qed.

End StringsExamples.
