(* ===== verification/StringsFacts.v ===== *)
(** * Texts as sequences of characters

    What the loops of src/src/strings see of an encoded text: the characters
    of a [range] loop, the last character, and the texts that [TrimSpace]
    leaves alone. *)

From S2P Require Import Prelude Utf8 UnicodeTables Unicode Search SearchFacts Strings.

#[local] Open Scope Z_scope.

(** ** The first and the last character *)

Lemma drop_encode r q : ValidRune r = true -> drop (Z.to_nat (RuneLen r)) (encode r ++ q) = q.
Proof. intros Hr. rewrite <- encode_length by done. unfold lenZ. by rewrite Nat2Z.id, drop_app_length. Qed.

Lemma DecodeRune_one r : ValidRune r = true -> DecodeRune (encode r) = (r, RuneLen r).
Proof. intros Hr. rewrite <- (app_nil_r (encode r)). by apply DecodeRune_encode. Qed.

Lemma encode_cons r : ValidRune r = true -> exists b l, encode r = b :: l.
Proof. intros Hr. pose proof (encode_nonnil r Hr). destruct (encode r) as [|b l]; [done|]. by exists b, l. Qed.

Lemma runes_from_encode n i r q : ValidRune r = true -> Forall is_byte q ->
  runes_from (S n) i (encode r ++ q) = (i, r) :: runes_from n (i + RuneLen r) q.
Proof.
  intros Hr Hq. destruct (encode_cons r Hr) as (b & l & E). cbn [runes_from].
  rewrite <- (drop_encode r q Hr) at 2. pose proof (DecodeRune_encode r q Hr Hq) as Hd.
  rewrite E in *. cbn [app] in *. by rewrite Hd.
Qed.

(** A character is its only byte, or all of its bytes are above ASCII. *)
Lemma encode_cases r : ValidRune r = true ->
  (0 <= r < RuneSelf /\ encode r = [r]) \/
  (RuneSelf <= r /\ Forall (fun b => RuneSelf <= b) (encode r)).
Proof.
  intros H. destruct (ValidRune_cases r H) as [?|[?|[[? ?]|?]]]; unfold RuneSelf, MaxRune in *;
    [left|right..].
  all: rewrite ?encode1, ?encode2, ?encode3, ?encode4 by (unfold MaxRune; lia).
  all: split; [lia|try done].
  all: repeat constructor; Z.to_euclidean_division_equations; lia.
Qed.

Lemma RuneStart_cont b : 0x80 <= b < 0xC0 -> RuneStart b = false.
Proof.
  intros Hb. assert (Ha : forall b, is_byte b -> negb ((0x80 <=? b) && (b <? 0xC0)) || negb (RuneStart b) = true).
  { apply byte_forall. vm_compute. reflexivity. }
  specialize (Ha b ltac:(unfold is_byte; lia)). destruct (RuneStart b); [|done]. lia.
Qed.

Lemma RuneStart_lead b : 0xC0 <= b < 256 -> RuneStart b = true.
Proof.
  intros Hb. assert (Ha : forall b, is_byte b -> negb (0xC0 <=? b) || RuneStart b = true).
  { apply byte_forall. vm_compute. reflexivity. }
  specialize (Ha b ltac:(unfold is_byte; lia)). destruct (RuneStart b); [done|]. lia.
Qed.

(** The bytes of a character of more than one byte: a lead byte and at most
    three continuation bytes. *)
Lemma encode_multi r : ValidRune r = true -> RuneSelf <= r ->
  exists b0 l, encode r = b0 :: l /\ 0xC0 <= b0 < 256 /\ Forall (fun b => 0x80 <= b < 0xC0) l /\
    (1 <= length l <= 3)%nat.
Proof.
  intros H Hr. destruct (ValidRune_cases r H) as [?|[?|[[? ?]|?]]]; unfold RuneSelf, MaxRune in *; [lia|..].
  all: rewrite ?encode2, ?encode3, ?encode4 by (unfold MaxRune; lia).
  all: eexists _, _; (split; [reflexivity|]); split; [Z.to_euclidean_division_equations; lia|].
  all: split; [repeat constructor; Z.to_euclidean_division_equations; lia|cbn; lia].
Qed.

Lemma last_start_multi p b0 l : forall fuel k,
  0xC0 <= b0 < 256 -> Forall (fun b => 0x80 <= b < 0xC0) l ->
  (k < length (b0 :: l))%nat -> (k < fuel)%nat ->
  forall lim, lim <= lenZ p ->
  last_start fuel (p ++ b0 :: l) (lenZ p + Z.of_nat k) lim = lenZ p.
Proof.
  intros fuel k Hb Hl. revert fuel. induction k as [|k IH]; intros [|fuel] Hk Hf lim Hlim; try lia; cbn [last_start].
  - rewrite nthZ_app_r by lia. cbn. rewrite RuneStart_lead by done.
    destruct (lim <=? lenZ p + Z.of_nat 0) eqn:E; lia.
  - destruct (lim <=? lenZ p + Z.of_nat (S k)) eqn:E; [|lia]. rewrite nthZ_app_r by lia.
    rewrite RuneStart_cont.
    2: { cbn [length] in Hk. replace (Z.of_nat (S k)) with (1 + Z.of_nat k) by lia.
         rewrite nthZ_succ by lia.
         apply (nthZ_Forall (fun b => 0x80 <= b < 0xC0)); [done|]. unfold lenZ. lia. }
    replace (lenZ p + Z.of_nat (S k) - 1) with (lenZ p + Z.of_nat k) by lia. apply IH; lia.
Qed.

Lemma DecodeLastRune_encode p r : ValidRune r = true ->
  DecodeLastRune (p ++ encode r) = (r, RuneLen r).
Proof.
  intros Hr. pose proof (encode_length r Hr) as Hlen. pose proof (lenZ_nonneg p) as Hp.
  unfold DecodeLastRune. cbv zeta. rewrite lenZ_app, Hlen.
  destruct (encode_cases r Hr) as [[Hlow E]|[Hhigh _]].
  { rewrite E in *. change (lenZ [r]) with 1 in Hlen. rewrite <- Hlen.
    destruct (lenZ p + 1 =? 0) eqn:E0; [lia|].
    replace (lenZ p + 1 - 1) with (lenZ p + 0) by lia. rewrite nthZ_app_r by lia. cbn [nthZ].
    change (nthZ 0 [r] 0) with r. destruct (r <? RuneSelf) eqn:E1; [done|lia]. }
  destruct (encode_multi r Hr Hhigh) as (b0 & l & E & Hb & Hl & Hlen').
  assert (Hle : RuneLen r = 1 + Z.of_nat (length l)) by (rewrite <- Hlen, E; unfold lenZ; cbn; lia).
  destruct (lenZ p + RuneLen r =? 0) eqn:E0; [lia|].
  assert (Hlast : RuneSelf <= nthZ 0 (p ++ encode r) (lenZ p + RuneLen r - 1)).
  { replace (lenZ p + RuneLen r - 1) with (lenZ p + (1 + Z.of_nat (length l - 1))) by lia.
    rewrite nthZ_app_r by lia. rewrite E.
    rewrite nthZ_succ by lia. unfold RuneSelf.
    assert (Hin : 0x80 <= nthZ 0 l (Z.of_nat (length l - 1)) < 0xC0); [|lia].
    apply (nthZ_Forall (fun b => 0x80 <= b < 0xC0)); [done|]. unfold lenZ. lia. }
  destruct (nthZ 0 (p ++ encode r) (lenZ p + RuneLen r - 1) <? RuneSelf) eqn:E1; [lia|].
  assert (Hs : last_start (Z.to_nat UTFMax) (p ++ encode r) (lenZ p + RuneLen r - 1 - 1)
                 (Z.max (lenZ p + RuneLen r - UTFMax) 0) = lenZ p).
  { replace (lenZ p + RuneLen r - 1 - 1) with (lenZ p + Z.of_nat (length l - 1)) by lia. rewrite E.
    apply last_start_multi; [done|done|cbn; lia|unfold UTFMax; lia|unfold UTFMax; lia]. }
  rewrite Hs. destruct (lenZ p <? 0) eqn:E2; [lia|].
  replace (lenZ p + RuneLen r) with (lenZ (p ++ encode r)) by (rewrite lenZ_app; lia).
  rewrite slice_back. rewrite DecodeRune_one by done.
  rewrite lenZ_app, Hlen, Z.eqb_refl. done.
Qed.

(** ** TrimSpace *)

(** A text that starts and ends with a character that is no space. *)
Definition starts_well (s : text) : Prop := exists r q, s = encode r ++ q /\ ValidRune r = true /\ IsSpace r = false.
Definition ends_well (s : text) : Prop := exists p r, s = p ++ encode r /\ ValidRune r = true /\ IsSpace r = false.

Lemma starts_app s q : starts_well s -> starts_well (s ++ q).
Proof. intros (r & q' & -> & Hr). exists r, (q' ++ q). by rewrite <- app_assoc. Qed.
Lemma ends_app p s : ends_well s -> ends_well (p ++ s).
Proof. intros (p' & r & -> & Hr). exists (p ++ p'), r. by rewrite <- app_assoc. Qed.

Record trimmed (s : text) : Prop := {
  tr_bytes : Forall is_byte s;
  tr_first : starts_well s;
  tr_last : ends_well s
}.

Lemma asciiSpace_IsSpace b : asciiSpace b = true -> IsSpace b = true.
Proof.
  unfold asciiSpace. intros H. apply existsb_exists in H as (x & Hx & E). apply Z.eqb_eq in E as ->.
  cbn [In] in Hx. destruct_or! Hx; subst; try done.
Qed.

Lemma skip_spaces_app l s : forallb asciiSpace l = true -> skip_spaces (l ++ s) = skip_spaces s.
Proof. induction l as [|c l IH]; [done|]. cbn. intros [-> Hl]%andb_true_iff. by apply IH. Qed.

Lemma asciiSpace_low b : asciiSpace b = true -> b < RuneSelf.
Proof.
  unfold asciiSpace, RuneSelf. intros H. apply existsb_exists in H as (x & Hx & E). apply Z.eqb_eq in E as ->.
  cbn [In] in Hx. lia.
Qed.

(** The byte at the edge of a character that is no space. *)
Lemma edge_byte r b : ValidRune r = true -> IsSpace r = false -> In b (encode r) -> asciiSpace b = false.
Proof.
  intros Hr Hs Hb. apply not_true_is_false. intros Ha.
  destruct (encode_cases r Hr) as [[Hlow E]|[Hhigh Hall]].
  - rewrite E in Hb. destruct Hb as [->|[]]. apply asciiSpace_IsSpace in Ha. congruence.
  - rewrite List.Forall_forall in Hall. specialize (Hall b Hb). apply asciiSpace_low in Ha. lia.
Qed.

Lemma TrimRightFunc_trimmed s : trimmed s -> TrimRightFunc s IsSpace = s.
Proof.
  intros [Hb _ (p & r & -> & Hr & Hs)]. unfold TrimRightFunc. cbv zeta.
  pose proof (encode_length r Hr) as Hlen. pose proof (lenZ_nonneg p).
  assert (Hpos : 0 < RuneLen r).
  { rewrite <- Hlen. destruct (encode_cons r Hr) as (b & l & ->). rewrite lenZ_cons. pose proof (lenZ_nonneg l). lia. }
  assert (Hi : lastIndexFunc (p ++ encode r) IsSpace false = lenZ p).
  { unfold lastIndexFunc. cbn [lastIndex_loop]. destruct (0 <? lenZ (p ++ encode r)) eqn:E; [|rewrite lenZ_app in E; lia].
    rewrite slice_full by done. rewrite DecodeLastRune_encode by done. cbv zeta. rewrite Hs. cbn [eqb].
    rewrite lenZ_app. lia. }
  rewrite Hi. rewrite slice_back.
  replace (lenZ p) with (lenZ p + 0) at 2 by lia. rewrite nthZ_app_r by lia.
  rewrite DecodeRune_one by done. cbn [snd].
  apply slice_full. rewrite lenZ_app, Hlen.
  destruct (encode_cases r Hr) as [[Hlow E]|[Hhigh Hall]].
  - rewrite E in *. change (nthZ 0 [r] 0) with r. change (lenZ [r]) with 1 in Hlen.
    destruct ((0 <=? lenZ p) && (RuneSelf <=? r)) eqn:E1; lia.
  - assert (Hn : RuneSelf <= nthZ 0 (encode r) 0) by (apply (nthZ_Forall (fun b => RuneSelf <= b)); [done|lia]).
    destruct ((0 <=? lenZ p) && (RuneSelf <=? nthZ 0 (encode r) 0)) eqn:E1; lia.
Qed.

Lemma TrimSpace_trimmed l s : forallb asciiSpace l = true -> trimmed s -> TrimSpace (l ++ s) = s.
Proof.
  intros Hl Ht. unfold TrimSpace. rewrite skip_spaces_app by done.
  pose proof Ht as [Hb (r & q & E & Hr & Hs) (p & r' & E' & Hr' & Hs')].
  destruct (encode_cons r Hr) as (b & eb & Eb).
  assert (Hb0 : asciiSpace b = false) by (apply (edge_byte r); [done..|]; rewrite Eb; by left).
  assert (Es : s = b :: eb ++ q) by (rewrite E, Eb; done).
  assert (Hsk : skip_spaces s = s) by (rewrite Es; cbn [skip_spaces]; by rewrite Hb0).
  rewrite Hsk, Es, <- Es. destruct (RuneSelf <=? b) eqn:Eself.
  - unfold TrimFunc. assert (Hleft : TrimLeftFunc s IsSpace = s); [|by rewrite Hleft, TrimRightFunc_trimmed].
    assert (Hi : indexFunc s IsSpace false = 0).
    { unfold indexFunc, range_. assert (Hn : exists n, length s = S n) by (rewrite Es; by eexists).
      destruct Hn as [n ->]. rewrite E, runes_from_encode by (try done; rewrite E in Hb; by apply Forall_app in Hb as [_ ?]).
      cbn [find snd]. by rewrite Hs. }
    unfold TrimLeftFunc. rewrite Hi. by apply slice_full.
  - destruct (exists_last (encode_nonnil r' Hr')) as (lb & c & Ec).
    assert (Hc : asciiSpace c = false) by (apply (edge_byte r'); [done..|]; rewrite Ec; apply in_app_iff; by right; left).
    assert (Erev : rev s = c :: rev (p ++ lb)) by (rewrite E', Ec, app_assoc, rev_app_distr; done).
    assert (Hsk' : skip_spaces (rev s) = rev s) by (rewrite Erev; cbn [skip_spaces]; by rewrite Hc).
    rewrite Hsk', Erev, <- Erev, rev_involutive. destruct (RuneSelf <=? c); [by apply TrimRightFunc_trimmed|done].
Qed.

(** ** Fields *)

(** A field: characters that are no spaces. *)
Definition word (s : text) : Prop :=
  exists rs, rs <> [] /\ Forall (fun r => ValidRune r = true /\ IsSpace r = false) rs /\ s = encode_all rs.

Lemma word_app a b : word a -> word b -> word (a ++ b).
Proof.
  intros (rs & Hne & Hrs & ->) (rs' & _ & Hrs' & ->). exists (rs ++ rs'). split_and!.
  - by intros [? _]%app_eq_nil.
  - by apply Forall_app.
  - by rewrite encode_all_app.
Qed.

Lemma word_one c : 0 <= c < RuneSelf -> IsSpace c = false -> word [c].
Proof.
  unfold RuneSelf. intros Hc Hs. exists [c]. split_and!; [done| |].
  - constructor; [|constructor]. split; [|done]. unfold ValidRune, surrogateMin. by decide_tests.
  - unfold encode_all. cbn. by rewrite encode1.
Qed.

Lemma encode_all_Forall (P : rune -> Prop) (Q : byte -> Prop) rs :
  (forall r, P r -> Forall Q (encode r)) -> Forall P rs -> Forall Q (encode_all rs).
Proof.
  intros HP. induction 1 as [|r rs Hr _ IH]; [constructor|]. unfold encode_all. cbn [map concat].
  apply Forall_app. auto.
Qed.

Lemma word_bytes s : word s -> Forall is_byte s.
Proof. intros (rs & _ & Hrs & ->). eapply encode_all_Forall; [|exact Hrs]. intros r [Hr _]. by apply encode_bytes. Qed.

Lemma word_no_space s : word s -> Forall (fun c => asciiSpace c = false) s.
Proof.
  intros (rs & _ & Hrs & ->). eapply encode_all_Forall; [|exact Hrs]. intros r [Hr Hs].
  apply List.Forall_forall. intros b. by apply edge_byte.
Qed.

Lemma word_nonnil s : word s -> s <> [].
Proof.
  intros (rs & Hne & Hrs & ->). destruct Hrs as [|r rs [Hr _] _]; [done|]. unfold encode_all. cbn.
  intros [E _]%app_eq_nil. by apply encode_nonnil in E.
Qed.

(** Fields with one blank between them. *)
Definition spaced (cs : list text) : text :=
  match cs with [] => [] | c :: cs => c ++ concat (map (cons 32) cs) end.

Lemma spaced_cons c cs : cs <> [] -> spaced (c :: cs) = c ++ 32 :: spaced cs.
Proof. by destruct cs. Qed.

Lemma spaced_bytes cs : Forall word cs -> Forall is_byte (spaced cs).
Proof.
  induction 1 as [|c cs Hc Hcs IH]; [constructor|]. apply word_bytes in Hc. destruct cs as [|c' cs].
  - cbn. by rewrite app_nil_r.
  - rewrite spaced_cons by done. apply Forall_app. split; [done|]. constructor; [unfold is_byte; lia|done].
Qed.

(** No byte of fields and blanks is [c], which is white space but no blank. *)
Lemma spaced_without c cs : asciiSpace c = true -> c <> 32 -> Forall word cs -> Forall (fun b => b <> c) (spaced cs).
Proof.
  intros Hc Hb. assert (Hw : forall s, word s -> Forall (fun b => b <> c) s).
  { intros s Hs%word_no_space. eapply List.Forall_impl; [|exact Hs]. intros b Hf ->. congruence. }
  induction 1 as [|s cs Hs Hcs IH]; [constructor|]. destruct cs as [|s' cs].
  - cbn. rewrite app_nil_r. by apply Hw.
  - rewrite spaced_cons by done. apply Forall_app. split; [by apply Hw|]. by constructor.
Qed.

Lemma word_edges s : word s -> starts_well s /\ ends_well s.
Proof.
  intros (rs & Hne & Hrs & ->). split.
  - destruct Hrs as [|r rs [Hr Hs] _]; [done|]. exists r, (encode_all rs). by split_and!.
  - destruct (exists_last Hne) as (rs' & r & ->). apply Forall_app in Hrs as [_ Hr]. inversion_clear Hr as [|? ? [Hv Hs] _].
    exists (encode_all rs'), r. split_and!; try done. rewrite encode_all_app. unfold encode_all at 2. cbn. by rewrite app_nil_r.
Qed.

Lemma spaced_trimmed cs : cs <> [] -> Forall word cs -> trimmed (spaced cs).
Proof.
  intros Hne Hcs. split; [by apply spaced_bytes| |].
  - destruct Hcs as [|c cs Hc _]; [done|]. by apply starts_app, word_edges.
  - induction Hcs as [|c cs Hc Hcs IH]; [done|]. destruct cs as [|c' cs].
    + cbn. rewrite app_nil_r. by apply word_edges.
    + rewrite spaced_cons by done. apply ends_app. apply (ends_app [32]). by apply IH.
Qed.

Lemma ascii_fields_word c q : Forall (fun b => asciiSpace b = false) c -> forall f,
  ascii_fields (c ++ q) f = ascii_fields q (f ++ c).
Proof.
  induction 1 as [|b c Hb _ IH]; intros f; cbn [app ascii_fields]; [by rewrite app_nil_r|].
  rewrite Hb, IH, <- app_assoc. done.
Qed.

Lemma ascii_fields_spaced cs : Forall word cs -> ascii_fields (spaced cs) [] = cs.
Proof.
  induction 1 as [|c cs Hc Hcs IH]; [done|]. pose proof (word_no_space c Hc) as Hs. pose proof (word_nonnil c Hc) as Hne.
  destruct cs as [|c' cs].
  - cbn [spaced map concat]. rewrite ascii_fields_word by done. cbn. by destruct c.
  - rewrite spaced_cons by done. rewrite ascii_fields_word by done. cbn [app ascii_fields].
    change (asciiSpace 32) with true. cbv iota. rewrite IH. by destruct c.
Qed.

(** The spans of the fields from the index [i] on. *)
Fixpoint field_spans (i : Z) (cs : list text) : list (Z * Z) :=
  match cs with
  | [] => []
  | c :: cs => (i, i + lenZ c) :: field_spans (i + lenZ c + 1) cs
  end.

Lemma spans_word rs q len : Forall (fun r => ValidRune r = true /\ IsSpace r = false) rs -> Forall is_byte q ->
  forall n i start, (length (encode_all rs ++ q) <= n)%nat -> 0 <= i ->
  exists m, (length q <= m)%nat /\
    spans (runes_from n i (encode_all rs ++ q)) IsSpace start len =
    spans (runes_from m (i + lenZ (encode_all rs)) q) IsSpace
      (match rs with [] => start | _ => if start <? 0 then i else start end) len.
Proof.
  intros Hrs Hq. induction Hrs as [|r rs [Hr Hs] Hrs IH]; intros n i start Hn Hi.
  { exists n. cbn. rewrite Z.add_0_r. by split. }
  unfold encode_all in *. cbn [map concat] in *. rewrite <- app_assoc in *.
  pose proof (encode_length r Hr) as Hl. assert (Hpos : 0 < RuneLen r).
  { rewrite <- Hl. destruct (encode_cons r Hr) as (b & l & ->). rewrite lenZ_cons. pose proof (lenZ_nonneg l). lia. }
  rewrite length_app in Hn. unfold lenZ in Hl. destruct n as [|n]; [lia|]. rewrite runes_from_encode; [|done|].
  2: { apply Forall_app. split; [|done]. eapply (encode_all_Forall (fun r => ValidRune r = true /\ IsSpace r = false)); [|exact Hrs]. intros r' [Hr' _]. by apply encode_bytes. }
  cbn [spans]. rewrite Hs.
  destruct (IH n (i + RuneLen r) (if start <? 0 then i else start)) as (m & Hm & E); [lia|lia|].
  exists m. split; [done|]. rewrite E. rewrite lenZ_app, encode_length by done. rewrite Z.add_assoc.
  destruct rs; [done|]. f_equal. destruct (start <? 0) eqn:E1; [|by rewrite E1].
  destruct (i <? 0) eqn:E2; [lia|done].
Qed.

Lemma spans_spaced cs : Forall word cs -> forall n i start, (length (spaced cs) <= n)%nat -> 0 <= i -> start < 0 ->
  spans (runes_from n i (spaced cs)) IsSpace start (i + lenZ (spaced cs)) = field_spans i cs.
Proof.
  induction 1 as [|c cs Hc Hcs IH]; intros n i start Hn Hi Hst.
  { cbn. destruct n; cbn; (destruct (0 <=? start) eqn:E; [lia|done]). }
  pose proof Hc as (rs & Hne & Hrs & Ec). destruct cs as [|c' cs].
  - cbn [spaced map concat field_spans] in *. rewrite Ec in *.
    destruct (spans_word rs [] (i + lenZ (encode_all rs ++ [])) Hrs (List.Forall_nil _) n i start) as (m & _ & ->); [done..|].
    destruct rs; [done|]. destruct (start <? 0) eqn:E; [|lia]. rewrite app_nil_r.
    destruct m; cbn [spans runes_from]; (destruct (0 <=? i) eqn:E1; [done|lia]).
  - rewrite spaced_cons in * by done. cbn [field_spans]. pose proof (lenZ_nonneg c).
    assert (Hby : Forall is_byte (32 :: spaced (c' :: cs))) by (constructor; [unfold is_byte; lia|by apply spaced_bytes]).
    rewrite Ec in Hn |- * at 1.
    destruct (spans_word rs (32 :: spaced (c' :: cs)) (i + lenZ (c ++ 32 :: spaced (c' :: cs))) Hrs Hby n i start) as (m & Hm & ->); [done..|].
    destruct rs; [done|]. destruct (start <? 0) eqn:E; [|lia]. rewrite <- Ec.
    destruct m as [|m]; [cbn in Hm; lia|].
    change (32 :: spaced (c' :: cs)) with (encode 32 ++ spaced (c' :: cs)) at 1.
    rewrite runes_from_encode by (try done; by apply spaced_bytes). cbn [spans]. change (IsSpace 32) with true. cbv iota.
    destruct (0 <=? i) eqn:E1; [|lia]. f_equal. change (RuneLen 32) with 1.
    assert (El : i + lenZ (c ++ 32 :: spaced (c' :: cs)) = i + lenZ c + 1 + lenZ (spaced (c' :: cs))) by (rewrite lenZ_app, lenZ_cons; lia).
    rewrite El. apply IH; [by apply le_S_n|lia|]. unfold Z.lnot. lia.
Qed.

Lemma field_spans_slices cs : forall pre,
  map (fun se => slice (pre ++ spaced cs) se.1 se.2) (field_spans (lenZ pre) cs) = cs.
Proof.
  induction cs as [|c cs IH]; intros pre; [done|]. cbn [field_spans map fst snd]. f_equal.
  - destruct cs as [|c' cs].
    + cbn [spaced map concat]. apply slice_mid.
    + rewrite spaced_cons by done. apply slice_mid.
  - destruct cs as [|c' cs]; [done|]. rewrite spaced_cons by done.
    specialize (IH (pre ++ c ++ [32])). rewrite <- !app_assoc in IH. cbn [app] in IH.
    rewrite !lenZ_app in IH. change (lenZ [32]) with 1 in IH. rewrite Z.add_assoc in IH. exact IH.
Qed.

Lemma Fields_spaced cs : Forall word cs -> Fields (spaced cs) = cs.
Proof.
  intros Hcs. unfold Fields. case_match; [|by apply ascii_fields_spaced]. unfold FieldsFunc, range_.
  pose proof (spans_spaced cs Hcs (length (spaced cs)) 0 (-1)) as Hsp. rewrite Z.add_0_l in Hsp. rewrite Hsp by lia.
  apply (field_spans_slices cs []).
Qed.

(** ** Split *)

(** Texts with one byte between them, as [Join] gives them. *)
Fixpoint joined (c : byte) (l : list text) : text :=
  match l with
  | [] => []
  | [s] => s
  | s :: l => s ++ c :: joined c l
  end.

Lemma joined_cons c s l : l <> [] -> joined c (s :: l) = s ++ c :: joined c l.
Proof. by destruct l. Qed.

Lemma occurrences_app a b c : occurrences (a ++ b) c = occurrences a c + occurrences b c.
Proof. unfold occurrences. by rewrite List.filter_app, lenZ_app. Qed.

Lemma occurrences_none s c : Forall (fun b => b <> c) s -> occurrences s c = 0.
Proof.
  unfold occurrences. induction 1 as [|b s Hb Hs IH]; [done|]. cbn [List.filter]. by apply Z.eqb_neq in Hb as ->.
Qed.

Lemma occurrences_bound s c : 0 <= occurrences s c <= lenZ s.
Proof.
  unfold occurrences. split; [apply lenZ_nonneg|]. induction s as [|b s IH]; cbn [List.filter]; [done|].
  case_match; rewrite !lenZ_cons; lia.
Qed.

Lemma occurrences_joined c l : l <> [] -> Forall (Forall (fun b => b <> c)) l -> occurrences (joined c l) c = lenZ l - 1.
Proof.
  intros Hne Hl. induction Hl as [|s l Hs Hl IH]; [done|]. clear Hne. destruct l as [|s' l]; [by apply occurrences_none|].
  rewrite joined_cons by done. change (c :: joined c (s' :: l)) with ([c] ++ joined c (s' :: l)).
  rewrite !occurrences_app, IH, (occurrences_none s), !lenZ_cons by done. unfold occurrences. cbn [List.filter].
  rewrite Z.eqb_refl. change (lenZ [c]) with 1. lia.
Qed.

Lemma slice_skip (s : text) c q : slice (s ++ c :: q) (lenZ s + 1) (lenZ (s ++ c :: q)) = q.
Proof.
  change (c :: q) with ([c] ++ q). rewrite app_assoc. change 1 with (lenZ [c]). rewrite <- lenZ_app. apply slice_back.
Qed.

Lemma Split_loop_joined c l : l <> [] -> Forall (Forall (fun b => b <> c)) l -> forall r,
  lenZ l - 1 <= Z.of_nat r -> Split_loop r (joined c l) [c] 0 = l.
Proof.
  intros Hne Hl. induction Hl as [|s l Hs Hl IH]; [done|]. clear Hne. intros r Hr. destruct l as [|s' l].
  - cbn [joined]. destruct r; [done|]. cbn [Split_loop]. by rewrite Index_no_byte.
  - rewrite joined_cons by done. rewrite lenZ_cons in Hr. assert (0 < lenZ (s' :: l)) by (rewrite lenZ_cons; pose proof (lenZ_nonneg l); lia).
    destruct r as [|r]; [lia|]. cbn [Split_loop]. rewrite Index_byte by done. pose proof (lenZ_nonneg s).
    destruct (lenZ s <? 0) eqn:E; [lia|]. rewrite Z.add_0_r, slice_front. f_equal. change (lenZ [c]) with 1.
    rewrite slice_skip. apply IH; [done|lia].
Qed.

Lemma Split_joined c l : l <> [] -> Forall (Forall (fun b => b <> c)) l -> Split (joined c l) [c] = l.
Proof.
  intros Hne Hl. unfold Split, genSplit, Count. cbv zeta. change (lenZ [c]) with 1.
  change (nthZ 0 [c] 0) with c. rewrite CountString_all, occurrences_joined by done.
  pose proof (occurrences_bound (joined c l) c) as Hb. rewrite occurrences_joined in Hb by done.
  change (-1 =? 0) with false. change (-1 <? 0) with true. change (1 =? 0) with false. change (1 =? 1) with true. cbv iota.
  destruct (lenZ (joined c l) + 1 <? lenZ l - 1 + 1) eqn:E; [lia|]. apply Split_loop_joined; [done..|lia].
Qed.

(** ** Split and Join *)

Lemma cut_at (s : text) k : 0 <= k -> slice s 0 k ++ slice s k (lenZ s) = s.
Proof.
  intros Hk. unfold slice, lenZ. rewrite Z.sub_0_r, drop_0. rewrite (take_ge (drop _ s)) by (rewrite length_drop; lia).
  apply take_drop.
Qed.

Lemma DecodeRune_size s : Forall is_byte s -> 0 <= (DecodeRune s).2.
Proof.
  intros Hs. destruct s as [|b s]; [done|]. destruct (DecodeRune (b :: s)) as [r n] eqn:E.
  apply DecodeRune_width in E; [cbn; lia|done..].
Qed.

Lemma explode_loop_concat r : forall s, Forall is_byte s -> concat (explode_loop r s) = s.
Proof.
  induction r as [|r IH]; intros s Hs; cbn [explode_loop concat]; [by rewrite app_nil_r|]. cbv zeta. cbn [concat].
  rewrite IH by by apply slice_Forall. by apply cut_at, DecodeRune_size.
Qed.

Lemma Join_cons e es sep : es <> [] -> Join (e :: es) sep = e ++ sep ++ Join es sep.
Proof. destruct es; [done|]. cbn. by rewrite <- app_assoc. Qed.

Lemma Join_Split_loop sep r : forall s, Join (Split_loop r s sep 0) sep = s.
Proof.
  induction r as [|r IH]; intros s; cbn [Split_loop]; [by cbn; rewrite app_nil_r|]. cbv zeta.
  destruct (Index_finds s sep) as [[-> _]|[(H0 & Hle & E) _]]; [by cbn; rewrite app_nil_r|]. set (m := Index s sep) in *.
  destruct (m <? 0) eqn:Em; [lia|]. rewrite Z.add_0_r. pose proof (lenZ_nonneg sep).
  rewrite Join_cons by (destruct r; cbn; [done|]; by case_match). rewrite IH. rewrite <- E at 1.
  rewrite app_assoc, <- slice_split by lia. apply cut_at. lia.
Qed.

(** joining the parts of a split text with its separator gives the text
    back, for every separator, the empty one too. *)
Theorem Join_Split s sep : Forall is_byte s -> Join (Split s sep) sep = s.
Proof.
  intros Hs.
  unfold Split, genSplit. change (-1 =? 0) with false. cbv iota zeta. destruct sep as [|c sep]; [|apply Join_Split_loop].
  assert (Hj : forall l, Join l [] = concat l).
  { intros [|e l]; [done|]. cbn. f_equal. by rewrite map_id. }
  rewrite Hj. unfold explode, RuneCountInString. cbv zeta. change (-1 <? 0) with true. cbn [orb].
  destruct (0 <? lenZ (range_ s)) eqn:E; [by apply explode_loop_concat|].
  destruct s as [|b s]; [done|]. exfalso. unfold range_ in E. cbn [length runes_from] in E.
  destruct (DecodeRune (b :: s)) as [r w]. rewrite lenZ_cons in E. pose proof (lenZ_nonneg (runes_from (length s) (0 + w) (drop (Z.to_nat w) (b :: s)))). lia.
Qed.

Lemma Join_Split_witness : Forall is_byte (txt "a≠,,b") /\ Join (Split (txt "a≠,,b") (txt ",")) (txt ",") = txt "a≠,,b".
Proof.
  assert (Hb : Forall is_byte (txt "a≠,,b")) by by apply is_byte_dec. split; [exact Hb|]. exact (Join_Split (txt "a≠,,b") (txt ",") Hb).
Defined.
