(* ===== verification/Constraint.v ===== *)
(** * src/src/go/build/constraint: build constraints

    expr.go: the expressions of //go:build and // +build lines, their parser,
    their text and the conversion to the old form; vers.go: the Go version
    that an expression implies.

    The parser is a state monad over the fields of [exprParser]; a panic with
    a [SyntaxError], which [parseExpr] recovers, is a panic of the monad.  The
    recursion is open, as in Grammar.v: a production takes [oder] of the next
    nesting level.  Every call of [negationExpr] counts, and more than
    [maxSize] calls are an error, which bounds the nesting and the loops. *)

From S2P Require Import Prelude Utf8 Unicode Format Search Strings.

#[local] Open Scope Z_scope.
#[local] Open Scope go_scope.

Module constraint.

Definition maxSize : Z := 1000.

(** ** Expressions *)

Inductive Expr : Type :=
| TagExpr (Tag : text)
| NotExpr (X : Expr)
| AndExpr (X Y : Expr)
| OrExpr (X Y : Expr).

Definition is_AndExpr (x : Expr) : bool := match x with AndExpr _ _ => true | _ => false end.
Definition is_OrExpr (x : Expr) : bool := match x with OrExpr _ _ => true | _ => false end.
Definition is_TagExpr (x : Expr) : bool := match x with TagExpr _ => true | _ => false end.

(** [Eval] with a function [ok] that may have effects: it sees all tags. *)
Fixpoint Eval {V E S} (ok : text -> GM V E S bool) (x : Expr) : GM V E S bool :=
  match x with
  | TagExpr t => ok t
  | NotExpr x => let* b := Eval ok x in ret (negb b)
  | AndExpr x y => let* xok := Eval ok x in let* yok := Eval ok y in ret (xok && yok)
  | OrExpr x y => let* xok := Eval ok x in let* yok := Eval ok y in ret (xok || yok)
  end.

Definition parens (s : text) : text := txt "(" ++ s ++ txt ")".

(** [String] with the argument functions [andArg] and [orArg]. *)
Fixpoint String_ (x : Expr) : text :=
  match x with
  | TagExpr t => t
  | NotExpr x => txt "!" ++ (if is_AndExpr x || is_OrExpr x then parens (String_ x) else String_ x)
  | AndExpr x y =>
      (if is_OrExpr x then parens (String_ x) else String_ x) ++ txt " && " ++
      (if is_OrExpr y then parens (String_ y) else String_ y)
  | OrExpr x y =>
      (if is_AndExpr x then parens (String_ x) else String_ x) ++ txt " || " ++
      (if is_AndExpr y then parens (String_ y) else String_ y)
  end.

(** ** The parser of //go:build expressions *)

Record SyntaxError := MkSyntaxError { Offset : Z; Err : string }.

Record exprParser := ExprParser {
  ep_s : text;
  ep_i : Z;
  ep_tok : text;
  ep_isTag : bool;
  ep_pos : Z;
  ep_size : Z
}.

Definition set_i (v : Z) (p : exprParser) : exprParser := ExprParser (ep_s p) v (ep_tok p) (ep_isTag p) (ep_pos p) (ep_size p).
Definition set_tok (v : text) (p : exprParser) : exprParser := ExprParser (ep_s p) (ep_i p) v (ep_isTag p) (ep_pos p) (ep_size p).
Definition set_isTag (v : bool) (p : exprParser) : exprParser := ExprParser (ep_s p) (ep_i p) (ep_tok p) v (ep_pos p) (ep_size p).
Definition set_pos (v : Z) (p : exprParser) : exprParser := ExprParser (ep_s p) (ep_i p) (ep_tok p) (ep_isTag p) v (ep_size p).
Definition set_size (v : Z) (p : exprParser) : exprParser := ExprParser (ep_s p) (ep_i p) (ep_tok p) (ep_isTag p) (ep_pos p) v.

Definition EM : Type -> Type := GM SyntaxError unit exprParser.

Definition syntax_error {A} (offset : Z) (err : string) : EM A := panic (MkSyntaxError offset err).

(** A character of a tag. *)
Definition tagRune (c : rune) : bool :=
  negb (negb (IsLetter c) && negb (IsDigit c) && negb (c =? "_"%rune) && negb (c =? "."%rune)).

Fixpoint skip_blanks (s : text) (i : Z) : Z :=
  match s with
  | c :: s => if (c =? 32) || (c =? 9) then skip_blanks s (i + 1) else i
  | [] => i
  end.

(** The tag at the start of a text. *)
Definition tag_prefix (tag : text) : text :=
  match find (fun ir => negb (tagRune ir.2)) (range_ tag) with
  | Some (i, _) => slice tag 0 i
  | None => tag
  end.

(** The token from [pos] to [i]. *)
Definition token_to (pos i : Z) : EM unit :=
  modify (fun p => set_tok (slice (ep_s p) pos i) (set_i i (set_pos pos p))).

(** [lex] after the blanks. *)
Definition lex_token : EM unit :=
  let* s := gets ep_s in
  let* i := gets ep_i in
  if lenZ s <=? i then modify (fun p => set_pos i (set_tok [] p))
  else
    let c := nthZ 0 s i in
    if (c =? "("%rune) || (c =? ")"%rune) || (c =? "!"%rune) then token_to i (i + 1)
    else if (c =? "&"%rune) || (c =? "|"%rune) then
      if (lenZ s <=? i + 1) || negb (nthZ 0 s (i + 1) =? c) then
        syntax_error i ("invalid syntax at " +s+ string_of_bytes (encode c))
      else token_to i (i + 2)
    else
      let rest := slice s i (lenZ s) in
      match tag_prefix rest with
      | [] => syntax_error i ("invalid syntax at " +s+ string_of_bytes (encode (DecodeRune rest).1))
      | tag => token_to i (i + lenZ tag);;; modify (set_isTag true)
      end.

Definition lex : EM unit :=
  modify (set_isTag false);;;
  modify (fun p => set_i (skip_blanks (drop (Z.to_nat (ep_i p)) (ep_s p)) (ep_i p)) p);;;
  lex_token.

Definition tok_is (t : text) : EM bool := gets (fun p => bool_decide (ep_tok p = t)).

(** The deferred function of [atom]. *)
Definition recover_end {A} (m : EM A) : EM A :=
  fun p =>
    match m p with
    | Panic e =>
        Panic (if bool_decide (Err e = "unexpected end of expression"%string)
               then MkSyntaxError (Offset e) "missing close paren" else e)
    | r => r
    end.

(** The next token, and where it starts, in a message. *)
Definition unexpected {A} : EM A :=
  let* pos := gets ep_pos in
  let* tok := gets ep_tok in
  match tok with
  | [] => syntax_error pos "unexpected end of expression"
  | _ => syntax_error pos ("unexpected token " +s+ string_of_bytes tok)
  end.

(** Enough rounds for the loops of [oder] and [und]: each calls [negationExpr]. *)
Definition eloop {X Y} (body : X -> EM (X + Y)) (x : X) : EM Y :=
  let* n := gets (fun p => Z.to_nat (maxSize + 2 - ep_size p)) in iterM n body x.

Section Level.
Context (k_oder : EM Expr).

Definition atom : EM Expr :=
  let* open := tok_is (txt "(") in
  if open then
    let* pos := gets ep_pos in
    recover_end
      (let* x := k_oder in
       let* close := tok_is (txt ")") in
       if negb close then syntax_error pos "missing close paren"
       else lex;;; ret x)
  else
    let* isTag := gets ep_isTag in
    if negb isTag then unexpected
    else
      let* tok := gets ep_tok in
      lex;;; ret (TagExpr tok).

Definition negationExpr : EM Expr :=
  modify (fun p => set_size (ep_size p + 1) p);;;
  let* size := gets ep_size in
  let* pos := gets ep_pos in
  if maxSize <? size then syntax_error pos "build expression too large"
  else
    lex;;;
    let* b := tok_is (txt "!") in
    if b then
      lex;;;
      let* b := tok_is (txt "!") in
      if b then let* pos := gets ep_pos in syntax_error pos "double negation not allowed"
      else let* x := atom in ret (NotExpr x)
    else atom.

Definition und : EM Expr :=
  let* x := negationExpr in
  eloop (fun x =>
    let* b := tok_is (txt "&&") in
    if b then let* y := negationExpr in ret (inl (AndExpr x y)) else ret (inr x)) x.

Definition oder : EM Expr :=
  let* x := und in
  eloop (fun x =>
    let* b := tok_is (txt "||") in
    if b then let* y := und in ret (inl (OrExpr x y)) else ret (inr x)) x.
End Level.

Fixpoint oder_at (n : nat) : EM Expr :=
  match n with
  | O => out_of_fuel
  | Datatypes.S n => oder (oder_at n)
  end.

(** A nesting deeper than [maxSize] is an error before it is parsed. *)
Definition max_depth : nat := Z.to_nat (maxSize + 2).

Definition parse_all : EM Expr :=
  let* x := oder_at max_depth in
  let* tok := gets ep_tok in
  match tok with
  | [] => ret x
  | _ => let* pos := gets ep_pos in syntax_error pos ("unexpected token " +s+ string_of_bytes tok)
  end.

(** [NoFuel] is kept apart from the two results. *)
Definition parseExpr (s : text) : res SyntaxError Expr :=
  match parse_all (ExprParser s 0 [] false 0 0) with
  | Ok (x, _, _) => Ok x
  | Panic e => Panic e
  | NoFuel => NoFuel
  end.

(** ** Lines *)

Definition drop_newline (line : text) : text :=
  if (0 <? lenZ line) && (nthZ 0 line (lenZ line - 1) =? 10) then slice line 0 (lenZ line - 1) else line.

(** What follows the prefix, if it is set apart from it. *)
Definition after_prefix (line prefix : text) : option text :=
  let line := slice line (lenZ prefix) (lenZ line) in
  let trim := TrimSpace line in
  if (lenZ line =? lenZ trim) && negb (bool_decide (line = [])) then None else Some trim.

Definition splitGoBuild (line : text) : option text :=
  let line := drop_newline line in
  if Contains line [10] then None
  else if negb (HasPrefix line (txt "//go:build")) then None
  else after_prefix (TrimSpace line) (txt "//go:build").

Definition splitPlusBuild (line : text) : option text :=
  let line := drop_newline line in
  if Contains line [10] then None
  else if negb (HasPrefix line (txt "//")) then None
  else
    let line := TrimSpace (slice line 2 (lenZ line)) in
    if negb (HasPrefix line (txt "+build")) then None
    else after_prefix line (txt "+build").

Definition IsGoBuild (line : text) : bool := is_some (splitGoBuild line).
Definition IsPlusBuild (line : text) : bool := is_some (splitPlusBuild line).

(** ** Old build lines *)

Definition isValidTag (word : text) : bool :=
  match word with
  | [] => false
  | _ => forallb (fun ir => tagRune ir.2) (range_ word)
  end.

Definition maxOldSize : Z := 100.

Definition plusLit (lit : text) : Expr :=
  if HasPrefix lit (txt "!!") || bool_decide (lit = txt "!") then TagExpr (txt "ignore")
  else
    let neg := HasPrefix lit (txt "!") in
    let lit := if neg then slice lit 1 (lenZ lit) else lit in
    let z := TagExpr (if isValidTag lit then lit else txt "ignore") in
    if neg then NotExpr z else z.

(** The loops over the literals and clauses: the expression so far, and the
    number of operators; [None] is the error [errComplex]. *)
Fixpoint plus_join (op : Expr -> Expr -> Expr) (y : option Expr) (size : Z) (l : list Expr)
  : option (option Expr * Z) :=
  match l with
  | [] => Some (y, size)
  | z :: l =>
      match y with
      | None => plus_join op (Some z) size l
      | Some y => if maxOldSize <? size + 1 then None else plus_join op (Some (op y z)) (size + 1) l
      end
  end.

Fixpoint plus_clauses (x : option Expr) (size : Z) (l : list text) : option (option Expr) :=
  match l with
  | [] => Some x
  | clause :: l =>
      match plus_join AndExpr None size (map plusLit (Split clause (txt ","))) with
      | None => None
      | Some (y, size) =>
          match x with
          | None => plus_clauses y size l
          | Some x0 =>
              match y with
              | Some y => if maxOldSize <? size + 1 then None else plus_clauses (Some (OrExpr x0 y)) (size + 1) l
              | None => None
              end
          end
      end
  end.

Definition parsePlusBuildExpr (s : text) : option Expr :=
  match plus_clauses None 0 (Fields s) with
  | None => None
  | Some (Some x) => Some x
  | Some None => Some (TagExpr (txt "ignore"))
  end.

Inductive error : Type := ESyntax (e : SyntaxError) | ENotConstraint | EComplex.

Definition Parse (line : text) : res error Expr :=
  match splitGoBuild line with
  | Some s =>
      match parseExpr s with Ok x => Ok x | Panic e => Panic (ESyntax e) | NoFuel => NoFuel end
  | None =>
      match splitPlusBuild line with
      | Some s => match parsePlusBuildExpr s with Some x => Ok x | None => Panic EComplex end
      | None => Panic ENotConstraint
      end
  end.

(** ** PlusBuildLines *)

Fixpoint pushNot (x : Expr) (negate : bool) : Expr :=
  match x with
  | NotExpr y => if is_TagExpr y && negb negate then x else pushNot y (negb negate)
  | TagExpr _ => if negate then NotExpr x else x
  | AndExpr a b => (if negate then OrExpr else AndExpr) (pushNot a negate) (pushNot b negate)
  | OrExpr a b => (if negate then AndExpr else OrExpr) (pushNot a negate) (pushNot b negate)
  end.

Fixpoint appendSplitAnd (list : list Expr) (x : Expr) : Datatypes.list Expr :=
  match x with
  | AndExpr a b => appendSplitAnd (appendSplitAnd list a) b
  | _ => list ++ [x]
  end.

Fixpoint appendSplitOr (list : list Expr) (x : Expr) : Datatypes.list Expr :=
  match x with
  | OrExpr a b => appendSplitOr (appendSplitOr list a) b
  | _ => list ++ [x]
  end.

Definition isLit (x : Expr) : bool := match x with TagExpr _ | NotExpr _ => true | _ => false end.

(** The literals of a conjunction; [None] is [errComplex]. *)
Definition literals (x : Expr) : option (list Expr) :=
  let lits := appendSplitAnd [] x in if forallb isLit lits then Some lits else None.

Fixpoint all_some {A} (l : list (option A)) : option (list A) :=
  match l with
  | [] => Some []
  | None :: _ => None
  | Some x :: l => match all_some l with Some l => Some (x :: l) | None => None end
  end.

(** The AND of ORs of ANDs of literals. *)
Definition splitLits (x : Expr) : option (list (list (list Expr))) :=
  all_some (map (fun oder => all_some (map literals (appendSplitOr [] oder))) (appendSplitAnd [] x)).

(** If no OR has more than one part, the parts make one line. *)
Definition one_line (split : list (list (list Expr))) : list (list (list Expr)) :=
  if fold_left Z.max (map lenZ split) 0 =? 1 then [[concat (map (hd []) split)]] else split.

Fixpoint commas (l : list text) : text :=
  match l with
  | [] => []
  | [s] => s
  | s :: l => s ++ txt "," ++ commas l
  end.

Definition plusLine (oder : list (list Expr)) : text :=
  txt "// +build" ++ concat (map (fun und => txt " " ++ commas (map String_ und)) oder).

Definition PlusBuildLines (x : Expr) : option (list text) :=
  match splitLits (pushNot x false) with
  | None => None
  | Some split => Some (map plusLine (one_line split))
  end.

(** ** vers.go *)

Definition andVersion (x y : Z) : Z := if y <? x then x else y.
Definition orVersion (x y : Z) : Z := if x <? y then x else y.

Fixpoint minVersion (z : Expr) (sign : Z) : Z :=
  match z with
  | AndExpr x y => (if sign <? 0 then orVersion else andVersion) (minVersion x sign) (minVersion y sign)
  | OrExpr x y => (if sign <? 0 then andVersion else orVersion) (minVersion x sign) (minVersion y sign)
  | NotExpr x => minVersion x (- sign)
  | TagExpr t =>
      if sign <? 0 then -1
      else if bool_decide (t = txt "go1") then 0
      else
        let '(_, v, _) := Cut t (txt "go1.") in
        match Atoi v with Some n => n | None => -1 end
  end.

Definition GoVersion (x : Expr) : text :=
  let v := minVersion x 1 in
  if v <? 0 then []
  else if v =? 0 then txt "go1"
  else txt "go1." ++ FormatInt v.

End constraint.
