(* ===== verification/ConstraintFacts.v ===== *)
(** * Properties of build constraints

    The text of an expression is parsed back to the same expression up to the
    association of && and ||; the parser returns on every text; negations are
    pushed inwards without a change of meaning; the old build lines of an
    expression mean the same; a satisfied expression bounds the Go version. *)

From S2P Require Import Prelude Utf8 UnicodeTables Unicode Format Search SearchFacts Strings StringsFacts Constraint.
Import constraint.

#[local] Open Scope Z_scope.
#[local] Open Scope go_scope.

(** ** Tags *)

Definition tag_char (r : rune) : Prop := ValidRune r = true /\ tagRune r = true.

(** A text that the parser reads as a tag. *)
Definition is_tag (t : text) : Prop := exists rs, rs <> [] /\ Forall tag_char rs /\ t = encode_all rs.

Abbreviation bad_rune := (fun ir : Z * rune => negb (tagRune ir.2)).

Lemma encode_all_bytes rs : Forall tag_char rs -> Forall is_byte (encode_all rs).
Proof.
  induction 1 as [|r rs [Hr _] _ IH]; [constructor|]. unfold encode_all. cbn [map concat].
  apply Forall_app. split; [by apply encode_bytes|done].
Qed.

(** A character other than a tag's, or the end. *)
Definition stops (q : text) : Prop :=
  q = [] \/ exists c q', q = c :: q' /\ 0 <= c < RuneSelf /\ tagRune c = false.

Lemma ascii_valid c : 0 <= c < RuneSelf -> ValidRune c = true /\ encode c = [c].
Proof.
  unfold RuneSelf. intros Hc. split; [|by apply encode1]. unfold ValidRune, surrogateMin. by decide_tests.
Qed.

Lemma RuneLen_pos r : ValidRune r = true -> 0 < RuneLen r.
Proof.
  intros Hr. rewrite <- encode_length by done. destruct (encode_cons r Hr) as (b & l & ->).
  rewrite lenZ_cons. pose proof (lenZ_nonneg l). lia.
Qed.

(** The first character that does not belong to the tag. *)
Lemma find_tags rs q : Forall tag_char rs -> Forall is_byte q -> forall n i,
  (length (encode_all rs ++ q) <= n)%nat ->
  exists m, (length q <= m)%nat /\
    find bad_rune (runes_from n i (encode_all rs ++ q)) =
    find bad_rune (runes_from m (i + lenZ (encode_all rs)) q).
Proof.
  intros Hrs Hq. induction Hrs as [|r rs [Hr Ht] Hrs IH]; intros n i Hn.
  { exists n. cbn. rewrite Z.add_0_r. by split. }
  unfold encode_all in *. cbn [map concat] in *. rewrite <- app_assoc in *.
  pose proof (RuneLen_pos r Hr). pose proof (encode_length r Hr) as Hl. rewrite length_app in Hn. unfold lenZ in Hl.
  destruct n as [|n]; [lia|]. rewrite runes_from_encode; [|done|].
  2: { apply Forall_app. split; [by apply encode_all_bytes|done]. }
  cbn [find snd]. rewrite Ht. cbn [negb].
  destruct (IH n (i + RuneLen r)) as (m & Hm & E); [lia|]. exists m. split; [done|]. rewrite E. do 2 f_equal.
  rewrite lenZ_app, encode_length by done. lia.
Qed.

Lemma find_stop m i q : stops q -> Forall is_byte q -> (length q <= m)%nat ->
  find bad_rune (runes_from m i q) = match q with [] => None | c :: _ => Some (i, c) end.
Proof.
  intros [->|(c & q' & -> & Hc & Ht)] Hq Hm; [by destruct m|]. destruct (ascii_valid c Hc) as [Hv He].
  destruct m as [|m]; [cbn in Hm; lia|]. change (c :: q') with ([c] ++ q'). rewrite <- He.
  rewrite runes_from_encode by (try done; by inversion Hq). cbn [find snd]. by rewrite Ht.
Qed.

Lemma tag_prefix_tags rs q : Forall tag_char rs -> Forall is_byte q -> stops q ->
  tag_prefix (encode_all rs ++ q) = encode_all rs.
Proof.
  intros Hrs Hq Hs. unfold tag_prefix, range_.
  destruct (find_tags rs q Hrs Hq (length (encode_all rs ++ q)) 0) as (m & Hm & ->); [lia|].
  rewrite find_stop by done. destruct q as [|c q]; [by rewrite app_nil_r|].
  rewrite Z.add_0_l. apply slice_front.
Qed.

(** Every text starts with the characters of a tag, none or more. *)
Lemma tags_split n : forall s i, Forall is_byte s -> (length s <= n)%nat ->
  exists rs q, s = encode_all rs ++ q /\ Forall tag_char rs /\
    match find bad_rune (runes_from n i s) with
    | Some (j, _) => j = i + lenZ (encode_all rs)
    | None => q = []
    end.
Proof.
  induction n as [|n IH]; intros s i Hs Hn.
  { destruct s; [|cbn in Hn; lia]. by exists [], []. }
  destruct s as [|b s']; [by exists [], []|]. cbn [runes_from].
  destruct (DecodeRune (b :: s')) as [r w] eqn:E. destruct (tagRune r) eqn:Et.
  - assert (Hne : ~ (r = RuneError /\ w = 1)) by (intros [-> _]; vm_compute in Et; discriminate).
    destruct (DecodeRune_sound _ r w Hs ltac:(done) E Hne) as (Hv & -> & Es).
    set (d := drop (Z.to_nat (RuneLen r)) (b :: s')) in *. pose proof (RuneLen_pos r Hv). pose proof (encode_length r Hv) as Hl.
    assert (Hd : Forall is_byte d) by (by apply Forall_drop).
    assert (Hdn : (length d <= n)%nat) by (unfold d; rewrite length_drop; lia).
    destruct (IH d (i + RuneLen r) Hd Hdn) as (rs & q & Eq & Hrs & Hf). exists (r :: rs), q.
    split_and!; [by rewrite Es, Eq; unfold encode_all; cbn [map concat]; rewrite app_assoc|by constructor|].
    cbn [find snd]. rewrite Et. cbn [negb]. destruct (find _ _) as [[j r']|]; [|done].
    unfold encode_all. cbn [map concat]. rewrite lenZ_app, Hl. unfold encode_all in Hf. lia.
  - exists [], (b :: s'). split_and!; [done|constructor|]. cbn [find snd]. rewrite Et. cbn [negb]. change (lenZ (encode_all [])) with 0. lia.
Qed.

Lemma find_forallb {A} (f : A -> bool) l : forallb f l = true -> find (fun x => negb (f x)) l = None.
Proof. induction l as [|x l IH]; cbn; [done|]. intros [-> Hl]%andb_true_iff. by apply IH. Qed.

Lemma isValidTag_is_tag t : Forall is_byte t -> isValidTag t = true -> is_tag t.
Proof.
  intros Hb Ht. destruct t as [|c t']; [done|]. set (t := c :: t') in *.
  assert (Hf : forallb (fun ir : Z * rune => tagRune ir.2) (range_ t) = true) by exact Ht.
  apply find_forallb in Hf. destruct (tags_split (length t) t 0 Hb ltac:(lia)) as (rs & q & E & Hrs & Hq).
  unfold range_ in Hf. rewrite Hf in Hq. subst q. rewrite app_nil_r in E. exists rs. split_and!; [|done|done].
  intros ->. by rewrite E in *.
Qed.

Lemma is_tag_isValidTag t : is_tag t -> isValidTag t = true.
Proof.
  intros (rs & Hne & Hrs & ->).
  assert (Hf : forall n i rs, Forall tag_char rs -> forallb (fun ir : Z * rune => tagRune ir.2) (runes_from n i (encode_all rs)) = true).
  { clear. induction n as [|n IH]; intros i rs Hrs; [done|]. destruct Hrs as [|r rs [Hv Ht] Hrs]; [done|].
    unfold encode_all. cbn [map concat]. rewrite runes_from_encode by (try done; by apply encode_all_bytes).
    cbn. rewrite Ht. by apply IH. }
  unfold isValidTag. specialize (Hf (length (encode_all rs)) 0 rs Hrs). fold (range_ (encode_all rs)) in Hf.
  destruct (encode_all rs) eqn:E; [|done]. destruct Hrs as [|r rs [Hv _] _]; [done|].
  unfold encode_all in E. cbn [map concat] in E. apply app_eq_nil in E as [E _]. by apply encode_nonnil in E.
Qed.

(** The prefix of a text that [lex] takes for a tag is one. *)
Lemma tag_prefix_is_tag s : Forall is_byte s -> tag_prefix s <> [] ->
  is_tag (tag_prefix s) /\ exists q, s = tag_prefix s ++ q.
Proof.
  intros Hs Hne. unfold tag_prefix, range_ in *.
  destruct (tags_split (length s) s 0 Hs ltac:(lia)) as (rs & q & E & Hrs & Hf).
  destruct (find bad_rune (runes_from (length s) 0 s)) as [[j r]|].
  - subst j. rewrite Z.add_0_l in *. assert (Et : slice s 0 (lenZ (encode_all rs)) = encode_all rs).
    { rewrite E. apply slice_front. }
    rewrite Et in *. split; [|by exists q]. exists rs. split_and!; [by intros ->|done|done].
  - subst q. rewrite app_nil_r in E. split; [|exists []; by rewrite app_nil_r].
    exists rs. split_and!; [intros ->; by rewrite E in Hne|done|done].
Qed.

(** ** Tokens *)

(** The parser [p] is about to read [r]. *)
Definition reads (p : exprParser) (r : text) : Prop :=
  Forall is_byte r /\ exists pre, ep_s p = pre ++ r /\ ep_i p = lenZ pre.

Definition is_blank (c : byte) : bool := (c =? 32) || (c =? 9).
Definition unblank (r : text) : Prop := match r with [] => True | c :: _ => is_blank c = false end.

Lemma skip_blanks_app b r i : forallb is_blank b = true -> unblank r -> skip_blanks (b ++ r) i = i + lenZ b.
Proof.
  intros Hb Hr. induction b as [|c b IH] in i, Hb |- *.
  - change (lenZ []) with 0. rewrite Z.add_0_r. destruct r as [|c r]; [done|]. cbn in *. unfold is_blank in Hr. by rewrite Hr.
  - cbn [forallb] in Hb. apply andb_true_iff in Hb as [Hc Hb]. cbn. unfold is_blank in Hc. rewrite Hc, IH by done.
    rewrite lenZ_cons. lia.
Qed.

(** The state after the blanks. *)
Lemma lex_blanks p b r : reads p (b ++ r) -> forallb is_blank b = true -> unblank r ->
  exists p1, lex p = lex_token p1 /\ reads p1 r /\ ep_isTag p1 = false /\ ep_size p1 = ep_size p.
Proof.
  intros (Hb & pre & Hs & Hi) Hbl Hu. exists (set_i (lenZ (pre ++ b)) (set_isTag false p)). split_and!; try done.
  - unfold lex. rewrite !bind_modify. cbn [ep_i set_isTag ep_s]. rewrite Hs, Hi, drop_lenZ, skip_blanks_app by done.
    by rewrite lenZ_app.
  - split; [by apply Forall_app in Hb as [_ ?]|]. exists (pre ++ b). cbn. by rewrite Hs, app_assoc.
Qed.

(** The parser [p] has read the token [tok] and is about to read [r]. *)
Record looks (p : exprParser) (tok : text) (isTag : bool) (r : text) (size : Z) : Prop := {
  lk_tok : ep_tok p = tok;
  lk_isTag : ep_isTag p = isTag;
  lk_reads : reads p r;
  lk_size : ep_size p = size
}.

Definition lexes (p : exprParser) (tok : text) (isTag : bool) (r : text) : Prop :=
  exists p', lex p = Ok (tt, p', []) /\ looks p' tok isTag r (ep_size p).

Lemma lexes_blanks p b r tok isTag r' :
  reads p (b ++ r) -> forallb is_blank b = true -> unblank r ->
  (forall p1, reads p1 r -> ep_isTag p1 = false -> exists p', lex_token p1 = Ok (tt, p', []) /\ looks p' tok isTag r' (ep_size p1)) ->
  lexes p tok isTag r'.
Proof.
  intros Hp Hb Hr Ht. destruct (lex_blanks p b r Hp Hb Hr) as (p1 & E & Hp1 & Hi & Hs).
  destruct (Ht p1 Hp1 Hi) as (p' & E' & Hl). exists p'. rewrite E, E', <- Hs. done.
Qed.

Lemma reads_nth p c r : reads p (c :: r) -> (lenZ (ep_s p) <=? ep_i p) = false /\ nthZ 0 (ep_s p) (ep_i p) = c.
Proof.
  intros (_ & pre & Hs & Hi). rewrite Hs, Hi. rewrite lenZ_app, lenZ_cons. pose proof (lenZ_nonneg r).
  split; [lia|]. rewrite <- (Z.add_0_r (lenZ pre)). by rewrite nthZ_app_r.
Qed.

(** [token_to] over the token [t]. *)
Lemma token_to_reads p t r : reads p (t ++ r) ->
  exists p', token_to (ep_i p) (ep_i p + lenZ t) p = Ok (tt, p', []) /\
    looks p' t (ep_isTag p) r (ep_size p).
Proof.
  intros (Hb & pre & Hs & Hi). eexists. split; [reflexivity|]. split; cbn; try done.
  - by rewrite Hs, Hi, slice_mid.
  - split; [by apply Forall_app in Hb as [_ ?]|]. exists (pre ++ t). cbn. rewrite Hs, Hi, lenZ_app.
    by rewrite app_assoc.
Qed.

Lemma lexes_end p b : reads p b -> forallb is_blank b = true -> lexes p [] false [].
Proof.
  intros Hp Hb. rewrite <- (app_nil_r b) in Hp. apply (lexes_blanks p b []); [done..|].
  intros p1 H1 Hi. pose proof H1 as (_ & pre & Hs & Hi1). eexists. split.
  - unfold lex_token. rewrite !bind_gets, Hs, app_nil_r, Hi1, Z.leb_refl. reflexivity.
  - by split.
Qed.

Lemma lexes_one p b c r : reads p (b ++ c :: r) -> forallb is_blank b = true -> In c (txt "()!") ->
  lexes p [c] false r.
Proof.
  intros Hp Hb Hc. apply (lexes_blanks p b (c :: r)); [done..| |].
  - cbn in Hc. destruct_or! Hc; try done; by subst c.
  - intros p1 H1 Hi. destruct (reads_nth p1 c r H1) as [E1 E2]. unfold lex_token. rewrite !bind_gets, E1, E2. cbv zeta.
    destruct (token_to_reads p1 [c] r H1) as (p' & E & Hl). change (lenZ [c]) with 1 in E. rewrite Hi in Hl.
    exists p'. split; [|done]. rewrite <- E. cbn in Hc. destruct_or! Hc; try done; by subst c.
Qed.

Lemma lexes_two p b c r : reads p (b ++ c :: c :: r) -> forallb is_blank b = true -> In c (txt "&|") ->
  lexes p [c; c] false r.
Proof.
  intros Hp Hb Hc. apply (lexes_blanks p b (c :: c :: r)); [done..| |].
  - cbn in Hc. destruct_or! Hc; try done; by subst c.
  - intros p1 H1 Hi. destruct (reads_nth p1 c _ H1) as [E1 E2]. unfold lex_token. rewrite !bind_gets, E1, E2. cbv zeta.
    destruct (token_to_reads p1 [c; c] r H1) as (p' & E & Hl). change (lenZ [c; c]) with 2 in E. rewrite Hi in Hl.
    exists p'. split; [|done]. rewrite <- E. pose proof H1 as (_ & pre & Hs & Hpre).
    assert (Hn : nthZ 0 (ep_s p1) (ep_i p1 + 1) = c) by (rewrite Hs, Hpre, nthZ_app_r by lia; done).
    assert (Hle : (lenZ (ep_s p1) <=? ep_i p1 + 1) = false).
    { rewrite Hs, Hpre, lenZ_app, !lenZ_cons. pose proof (lenZ_nonneg r). lia. }
    rewrite Hn, Hle. cbn in Hc. destruct_or! Hc; try done; by subst c.
Qed.

(** The first byte of a tag is no blank and no operator. *)
Lemma tag_first t : is_tag t -> exists c t', t = c :: t' /\ is_blank c = false /\
  ~ In c (txt "()!&|") /\ asciiSpace c = false.
Proof.
  intros (rs & Hne & Hrs & ->). destruct Hrs as [|r rs [Hv Ht] Hrs]; [done|]. clear Hne.
  destruct (encode_cons r Hv) as (c & l & E). exists c, (l ++ encode_all rs). split.
  { unfold encode_all. cbn [map concat]. by rewrite E. }
  assert (Hc : RuneSelf <= c \/ c = r).
  { destruct (encode_cases r Hv) as [[_ E']|[_ Hall]]; rewrite E in *; [right; by injection E'|left; by inversion Hall]. }
  assert (Hbad : forall x, In x (txt "()!&|" ++ [9; 10; 11; 12; 13; 32]) -> c <> x).
  { intros x Hx ->. destruct Hc as [Hc|Hc]; [unfold RuneSelf in Hc; cbv in Hx; lia|]. subst x.
    assert (Hall : forallb (fun x => negb (tagRune x)) (txt "()!&|" ++ [9; 10; 11; 12; 13; 32]) = true) by (vm_compute; reflexivity).
    rewrite forallb_forall in Hall. specialize (Hall r Hx). by rewrite Ht in Hall. }
  split_and!.
  - unfold is_blank. apply orb_false_iff. split; apply Z.eqb_neq; apply Hbad; cbn; tauto.
  - intros Hi. apply (Hbad c); [|done]. apply in_app_iff. by left.
  - unfold asciiSpace. apply not_true_is_false. intros He. apply existsb_exists in He as (x & Hx & E').
    apply Z.eqb_eq in E' as <-. apply (Hbad c); [|done]. apply in_app_iff. by right.
Qed.

Lemma lexes_tag p b t r : reads p (b ++ t ++ r) -> forallb is_blank b = true -> is_tag t -> stops r ->
  lexes p t true r.
Proof.
  intros Hp Hb Ht Hr. destruct (tag_first t Ht) as (c & t' & E & Hbl & Hc & _).
  apply (lexes_blanks p b (t ++ r)); [done|done|by rewrite E|].
  intros p1 H1 Hi. destruct (token_to_reads p1 t r H1) as (p' & Et & Hl).
  assert (H1' := H1). rewrite E in H1'. cbn [app] in H1'. destruct (reads_nth p1 c _ H1') as [E1 E2].
  pose proof H1 as (Hby & pre & Hs & Hpre).
  assert (Hpx : tag_prefix (slice (ep_s p1) (ep_i p1) (lenZ (ep_s p1))) = t).
  { rewrite Hs, Hpre, slice_back. destruct Ht as (rs & _ & Hrs & ->). apply tag_prefix_tags; [done| |done].
    by apply Forall_app in Hby as [_ ?]. }
  exists (set_isTag true p'). split.
  - unfold lex_token. rewrite !bind_gets, E1, E2. cbv zeta. rewrite Hpx.
    assert (Hop : forall x, In x (txt "()!&|") -> (c =? x) = false).
    { intros x Hx. apply Z.eqb_neq. by intros ->. }
    rewrite !Hop by (cbn; tauto). cbn [orb]. destruct t; [done|].
    by rewrite (bind_Ok _ _ _ _ _ _ Et).
  - destruct Hl as [Hl1 Hl2 Hl3 Hl4]. by split.
Qed.

(** ** Printing and parsing *)

Definition grouped (x : Expr) : bool := is_AndExpr x || is_OrExpr x.

(** An operand: an expression with an operator is in parentheses. *)
Definition unit_text (x : Expr) : text := if grouped x then parens (String_ x) else String_ x.

(** The calls of [negationExpr] that the parser makes for the text. *)
Fixpoint cost (x : Expr) : Z :=
  match x with
  | TagExpr _ => 1
  | NotExpr x => if grouped x then 1 + cost x else cost x
  | AndExpr x y => (if is_OrExpr x then 1 + cost x else cost x) + (if is_OrExpr y then 1 + cost y else cost y)
  | OrExpr x y => (if is_AndExpr x then 1 + cost x else cost x) + (if is_AndExpr y then 1 + cost y else cost y)
  end.
Definition unit_cost (x : Expr) : Z := if grouped x then 1 + cost x else cost x.

Definition is_NotExpr (x : Expr) : bool := match x with NotExpr _ => true | _ => false end.

(** The expressions whose text the parser accepts: the tags can be read, and
    no negation is the operand of a negation. *)
Fixpoint printable (x : Expr) : Prop :=
  match x with
  | TagExpr t => is_tag t
  | NotExpr x => printable x /\ is_NotExpr x = false
  | AndExpr x y | OrExpr x y => printable x /\ printable y
  end.

(** The text does not tell how && and || are associated: the parser
    associates to the left. *)
Fixpoint and_app (x y : Expr) : Expr :=
  match y with AndExpr y1 y2 => AndExpr (and_app x y1) y2 | _ => AndExpr x y end.
Fixpoint or_app (x y : Expr) : Expr :=
  match y with OrExpr y1 y2 => OrExpr (or_app x y1) y2 | _ => OrExpr x y end.
Fixpoint norm (x : Expr) : Expr :=
  match x with
  | TagExpr _ => x
  | NotExpr x => NotExpr (norm x)
  | AndExpr x y => and_app (norm x) (norm y)
  | OrExpr x y => or_app (norm x) (norm y)
  end.

Fixpoint flat_and (x : Expr) : list Expr :=
  match x with AndExpr x y => flat_and x ++ flat_and y | _ => [x] end.
Fixpoint flat_or (x : Expr) : list Expr :=
  match x with OrExpr x y => flat_or x ++ flat_or y | _ => [x] end.

Definition join_with (sep : text) (es : list Expr) : text := concat (map (fun e => sep ++ unit_text e) es).
Definition units_text (sep : text) (es : list Expr) : text :=
  match es with [] => [] | e :: es => unit_text e ++ join_with sep es end.
Definition units_cost (es : list Expr) : Z := fold_right Z.add 0 (map unit_cost es).
Definition fold_units (con : Expr -> Expr -> Expr) (es : list Expr) : option Expr :=
  match es with [] => None | e :: es => Some (fold_left con (map norm es) (norm e)) end.

Lemma units_text_app sep es es' : es <> [] -> es' <> [] ->
  units_text sep (es ++ es') = units_text sep es ++ sep ++ units_text sep es'.
Proof.
  destruct es as [|e es], es' as [|e' es']; try done. intros _ _. cbn [app units_text].
  unfold join_with. rewrite map_app, concat_app. cbn [map concat]. by rewrite <- !app_assoc.
Qed.

Lemma units_cost_app es es' : units_cost (es ++ es') = units_cost es + units_cost es'.
Proof. unfold units_cost. rewrite map_app. induction (map unit_cost es) as [|c l IH]; [done|]. cbn in *. lia. Qed.

Lemma flat_and_nonnil x : flat_and x <> [].
Proof. induction x; try done. cbn. by intros [? _]%app_eq_nil. Qed.
Lemma flat_or_nonnil x : flat_or x <> [].
Proof. induction x; try done. cbn. by intros [? _]%app_eq_nil. Qed.

Lemma and_text x : (if is_OrExpr x then parens (String_ x) else String_ x) = units_text (txt " && ") (flat_and x).
Proof.
  induction x as [t|x IH|x IHx y IHy|x IHx y IHy]; cbn [is_OrExpr flat_and]; try by (cbn [units_text]; unfold unit_text, join_with; cbn; rewrite app_nil_r).
  rewrite units_text_app by apply flat_and_nonnil. rewrite <- IHx, <- IHy. done.
Qed.

Lemma or_text x : (if is_AndExpr x then parens (String_ x) else String_ x) = units_text (txt " || ") (flat_or x).
Proof.
  induction x as [t|x IH|x IHx y IHy|x IHx y IHy]; cbn [is_AndExpr flat_or]; try by (cbn [units_text]; unfold unit_text, join_with; cbn; rewrite app_nil_r).
  rewrite units_text_app by apply flat_or_nonnil. rewrite <- IHx, <- IHy. done.
Qed.

Lemma and_cost x : (if is_OrExpr x then 1 + cost x else cost x) = units_cost (flat_and x).
Proof.
  induction x as [t|x IH|x IHx y IHy|x IHx y IHy]; cbn [is_OrExpr flat_and];
    try by (unfold units_cost, unit_cost; cbn [map fold_right grouped is_AndExpr is_OrExpr orb]; lia).
  rewrite units_cost_app, <- IHx, <- IHy. done.
Qed.

Lemma or_cost x : (if is_AndExpr x then 1 + cost x else cost x) = units_cost (flat_or x).
Proof.
  induction x as [t|x IH|x IHx y IHy|x IHx y IHy]; cbn [is_AndExpr flat_or];
    try by (unfold units_cost, unit_cost; cbn [map fold_right grouped is_AndExpr is_OrExpr orb]; lia).
  rewrite units_cost_app, <- IHx, <- IHy. done.
Qed.

Lemma and_app_fold x y ys : is_AndExpr y = false ->
  and_app x (fold_left AndExpr ys y) = fold_left AndExpr (y :: ys) x.
Proof.
  intros Hy. induction ys as [|z ys IH] using rev_ind; [by destruct y|].
  cbn [fold_left]. rewrite !fold_left_app. cbn [fold_left and_app]. by rewrite IH.
Qed.
Lemma or_app_fold x y ys : is_OrExpr y = false ->
  or_app x (fold_left OrExpr ys y) = fold_left OrExpr (y :: ys) x.
Proof.
  intros Hy. induction ys as [|z ys IH] using rev_ind; [by destruct y|].
  cbn [fold_left]. rewrite !fold_left_app. cbn [fold_left or_app]. by rewrite IH.
Qed.

Lemma norm_kind x : is_AndExpr (norm x) = is_AndExpr x /\ is_OrExpr (norm x) = is_OrExpr x.
Proof.
  destruct x as [t|x|x y|x y]; cbn; try done; destruct (norm y); done.
Qed.

Lemma flat_and_units x : Forall (fun e => is_AndExpr e = false) (flat_and x).
Proof. induction x; cbn; try by repeat constructor. by apply Forall_app. Qed.
Lemma flat_or_units x : Forall (fun e => is_OrExpr e = false) (flat_or x).
Proof. induction x; cbn; try by repeat constructor. by apply Forall_app. Qed.

Lemma and_norm x : fold_units AndExpr (flat_and x) = Some (norm x).
Proof.
  induction x as [t|x IH|x IHx y IHy|x IHx y IHy]; try done. cbn [flat_and norm].
  pose proof (flat_and_units y) as Hy. destruct (flat_and x) as [|a l]; [done|]. destruct (flat_and y) as [|b l']; [done|].
  cbn [fold_units app] in *. injection IHx as <-. injection IHy as <-. inversion_clear Hy.
  rewrite and_app_fold by (by rewrite (proj1 (norm_kind b))). rewrite map_app, fold_left_app. done.
Qed.
Lemma or_norm x : fold_units OrExpr (flat_or x) = Some (norm x).
Proof.
  induction x as [t|x IH|x IHx y IHy|x IHx y IHy]; try done. cbn [flat_or norm].
  pose proof (flat_or_units y) as Hy. destruct (flat_or x) as [|a l]; [done|]. destruct (flat_or y) as [|b l']; [done|].
  cbn [fold_units app] in *. injection IHx as <-. injection IHy as <-. inversion_clear Hy.
  rewrite or_app_fold by (by rewrite (proj2 (norm_kind b))). rewrite map_app, fold_left_app. done.
Qed.

Lemma cost_pos x : 1 <= cost x.
Proof. induction x; cbn; repeat case_match; lia. Qed.
Lemma unit_cost_pos x : 1 <= unit_cost x.
Proof. unfold unit_cost. pose proof (cost_pos x). case_match; lia. Qed.

Lemma units_cost_length es : Z.of_nat (length es) <= units_cost es.
Proof. induction es as [|e es IH]; [done|]. unfold units_cost in *. cbn [map fold_right length]. pose proof (unit_cost_pos e). lia. Qed.

Lemma units_cost_in e es : In e es -> unit_cost e <= units_cost es.
Proof.
  induction es as [|e' es IH]; [done|]. unfold units_cost in *. cbn [map fold_right].
  pose proof (unit_cost_pos e'). pose proof (units_cost_length es). unfold units_cost in *.
  intros [->|Hi]; [lia|]. specialize (IH Hi). lia.
Qed.

(** What can follow an operand in a printed text, its token, and the rest. *)
Inductive follow : text -> text -> text -> Prop :=
| follow_end : follow [] [] []
| follow_close r : follow (41 :: r) [41] r
| follow_and r : follow (32 :: 38 :: 38 :: 32 :: r) [38; 38] (32 :: r)
| follow_or r : follow (32 :: 124 :: 124 :: 32 :: r) [124; 124] (32 :: r).

Lemma follow_stops r tok r' : follow r tok r' -> stops r.
Proof. intros []; [by left|right..]; eexists _, _; (split; [reflexivity|]); split; try done; unfold RuneSelf; cbv; by split. Qed.

Lemma follow_det r tok r' : follow r tok r' -> forall tok1 r1, follow r tok1 r1 -> tok1 = tok /\ r1 = r'.
Proof. intros [] tok1 r1 H1; by inversion H1. Qed.

Lemma join_cons sep e es : join_with sep (e :: es) = sep ++ unit_text e ++ join_with sep es.
Proof. unfold join_with. cbn [map concat]. by rewrite <- app_assoc. Qed.

Lemma lexes_follow p r tok r' : reads p r -> follow r tok r' -> lexes p tok false r'.
Proof.
  intros Hp Hf. destruct Hf as [|r|r|r].
  - by apply (lexes_end p []).
  - apply (lexes_one p [] 41); [done..|]. cbn. tauto.
  - apply (lexes_two p [32] 38); [done..|]. cbn. tauto.
  - apply (lexes_two p [32] 124); [done..|]. cbn. tauto.
Qed.

(** [m] parses the text [s] to [x]: it stops after the token that follows. *)
Definition parses (m : EM Expr) (s : text) (c : Z) (x : Expr) (ok : text -> Prop) : Prop :=
  forall p b r tok r', reads p (b ++ s ++ r) -> forallb is_blank b = true -> follow r tok r' -> ok tok ->
    ep_size p + c <= maxSize ->
    exists p', m p = Ok (x, p', []) /\ looks p' tok false r' (ep_size p + c).

Section Loops.
Context (c : byte) (con : Expr -> Expr -> Expr) (m : EM Expr) (ok : text -> Prop).

Definition op_body (x : Expr) : EM (Expr + Expr) :=
  let* b := tok_is [c; c] in if b then let* y := m in ret (inl (con x y)) else ret (inr x).

Definition sep_text : text := [32; c; c; 32].

Lemma op_loop es : (forall r, follow (sep_text ++ r) [c; c] (32 :: r)) -> ok [c; c] ->
  Forall (fun e => parses m (unit_text e) (unit_cost e) (norm e) ok) es ->
  forall n acc p r tok r' tok0 r0, (length es < n)%nat ->
  follow r tok r' -> tok <> [c; c] -> ok tok ->
  follow (join_with sep_text es ++ r) tok0 r0 -> looks p tok0 false r0 (ep_size p) ->
  ep_size p + units_cost es <= maxSize ->
  exists p', iterM n op_body acc p = Ok (fold_left con (map norm es) acc, p', []) /\
    looks p' tok false r' (ep_size p + units_cost es).
Proof.
  intros Hsep Hokc Hes. induction Hes as [|e es He Hes IH]; intros n acc p r tok r' tok0 r0 Hn Hf Htok Hok Hf0 Hl Hs.
  - destruct n as [|n]; [lia|]. cbn [join_with map concat app] in Hf0.
    assert (tok0 = tok /\ r0 = r') as [-> ->].
    { by apply (follow_det r). }
    exists p. cbn [iterM]. unfold op_body, tok_is. rewrite !bind_assoc, bind_gets. rewrite (lk_tok _ _ _ _ _ Hl).
    rewrite bool_decide_false by done. split; [reflexivity|]. unfold units_cost. cbn. by rewrite Z.add_0_r.
  - destruct n as [|n]; [lia|].
    assert (Hf1 : follow (sep_text ++ unit_text e ++ join_with sep_text es ++ r) [c; c] (32 :: unit_text e ++ join_with sep_text es ++ r))
      by apply Hsep.
    assert (tok0 = [c; c] /\ r0 = 32 :: unit_text e ++ join_with sep_text es ++ r) as [-> ->].
    { rewrite join_cons, <- !app_assoc in Hf0. by apply (follow_det _ _ _ Hf1). }
    cbn [iterM]. unfold op_body at 1, tok_is. rewrite !bind_assoc, bind_gets, (lk_tok _ _ _ _ _ Hl).
    rewrite bool_decide_true by done. rewrite bind_assoc.
    assert (Hnext : exists tok1 r1, follow (join_with sep_text es ++ r) tok1 r1 /\ ok tok1).
    { destruct es as [|e' es']; [by exists tok, r'|]. exists [c; c]. eexists. split; [|done].
      rewrite join_cons, <- !app_assoc. apply Hsep. }
    destruct Hnext as (tok1 & r1 & Hf2 & Hok1). unfold units_cost in Hs. cbn [map fold_right] in Hs.
    fold (units_cost es) in Hs. pose proof (unit_cost_pos e). pose proof (units_cost_length es).
    destruct (He p [32] (join_with sep_text es ++ r) tok1 r1 (lk_reads _ _ _ _ _ Hl) eq_refl Hf2 Hok1) as (p1 & E1 & Hl1); [lia|].
    rewrite (bind_Ok _ _ _ _ _ _ E1), bind_ret.
    destruct (IH n (con acc (norm e)) p1 r tok r' tok1 r1) as (p' & E & Hl'); try done; [cbn in Hn; lia| | |].
    + rewrite (lk_size _ _ _ _ _ Hl1) in *. done.
    + rewrite (lk_size _ _ _ _ _ Hl1). lia.
    + rewrite E. exists p'. split; [done|]. unfold units_cost. cbn [map fold_right]. fold (units_cost es).
      rewrite (lk_size _ _ _ _ _ Hl1) in Hl'. by rewrite Z.add_assoc.
Qed.
Lemma op_chain e es : (forall r, follow (sep_text ++ r) [c; c] (32 :: r)) -> ok [c; c] ->
  Forall (fun e => parses m (unit_text e) (unit_cost e) (norm e) ok) (e :: es) ->
  parses (let* x := m in eloop op_body x) (units_text sep_text (e :: es)) (units_cost (e :: es))
    (fold_left con (map norm es) (norm e)) (fun tok => tok <> [c; c] /\ ok tok).
Proof.
  intros Hsep Hokc Hall p b r tok r' Hp Hb Hf [Htok Hok] Hs. inversion_clear Hall as [|? ? He Hes].
  unfold units_cost in *. cbn [map fold_right units_text] in *. fold (units_cost es) in *. rewrite <- app_assoc in Hp.
  pose proof (unit_cost_pos e). pose proof (units_cost_length es).
  assert (Hnext : exists tok1 r1, follow (join_with sep_text es ++ r) tok1 r1 /\ ok tok1).
  { destruct es as [|e' es']; [by exists tok, r'|]. exists [c; c]. eexists. split; [|done].
    rewrite join_cons, <- !app_assoc. apply Hsep. }
  destruct Hnext as (tok1 & r1 & Hf1 & Hok1).
  destruct (He p b (join_with sep_text es ++ r) tok1 r1 Hp Hb Hf1 Hok1) as (p1 & E1 & Hl1); [lia|].
  rewrite (bind_Ok _ _ _ _ _ _ E1). unfold eloop. rewrite bind_gets.
  pose proof (lk_size _ _ _ _ _ Hl1) as Hs1.
  destruct (op_loop es Hsep Hokc Hes (Z.to_nat (maxSize + 2 - ep_size p1)) (norm e) p1 r tok r' tok1 r1)
    as (p' & E & Hl'); try done; [lia|by rewrite Hs1|lia|].
  exists p'. rewrite E. split; [done|]. by rewrite Hs1, <- Z.add_assoc in Hl'.
Qed.
End Loops.

(** An atom: after its first token, which is no "!", [atom] returns it. *)
Definition atoms (k : EM Expr) (u : text) (c : Z) (x : Expr) : Prop :=
  forall p b r tok r', reads p (b ++ u ++ r) -> forallb is_blank b = true -> follow r tok r' ->
    ep_size p + c <= maxSize ->
    exists p1, lex p = Ok (tt, p1, []) /\ ep_size p1 = ep_size p /\ ep_tok p1 <> txt "!" /\
      exists p', atom k p1 = Ok (x, p', []) /\ looks p' tok false r' (ep_size p + c).

Lemma atoms_tag k t : is_tag t -> atoms k t 0 (TagExpr t).
Proof.
  intros Ht p b r tok r' Hp Hb Hf Hs. pose proof (follow_stops _ _ _ Hf) as Hr.
  destruct (lexes_tag p b t r Hp Hb Ht Hr) as (p1 & E1 & [Ht1 Hi1 Hr1 Hs1]).
  destruct (tag_first t Ht) as (c & t' & Et & _ & Hc & _).
  exists p1. split_and!; [done|done|rewrite Ht1, Et; intros [= -> _]; apply Hc; cbn; tauto|].
  destruct (lexes_follow p1 r tok r' Hr1 Hf) as (p2 & E2 & Hl2). exists p2.
  rewrite Hs1 in Hl2. rewrite Z.add_0_r. split; [|done].
  unfold atom, tok_is. rewrite bind_gets, bool_decide_false, bind_gets, Hi1.
  2: { rewrite Ht1, Et. intros [= -> _]. apply Hc. cbn. tauto. }
  cbn [negb]. by rewrite bind_gets, (bind_Ok _ _ _ _ _ _ E2), Ht1.
Qed.

Definition closes (tok : text) : Prop := tok <> txt "&&" /\ tok <> txt "||".

Lemma atoms_group k s c x : parses k s c x closes -> atoms k (parens s) c x.
Proof.
  intros Hk p b r tok r' Hp Hb Hf Hs. unfold parens in Hp. rewrite <- !app_assoc in Hp.
  destruct (lexes_one p b 40 (s ++ txt ")" ++ r) Hp Hb) as (p1 & E1 & [Ht1 _ Hr1 Hs1]); [cbn; tauto|].
  exists p1. split_and!; [done|done|by rewrite Ht1|].
  destruct (Hk p1 [] (txt ")" ++ r) [41] r Hr1 eq_refl (follow_close r)) as (p2 & E2 & [Ht2 _ Hr2 Hs2]); [by split|lia|].
  destruct (lexes_follow p2 r tok r' Hr2 Hf) as (p3 & E3 & Hl3). exists p3.
  rewrite Hs2, Hs1 in Hl3. split; [|done].
  unfold atom, tok_is. rewrite bind_gets, bool_decide_true, bind_gets by by rewrite Ht1.
  unfold recover_end. rewrite (bind_Ok _ _ _ _ _ _ E2), bind_gets, bool_decide_true by by rewrite Ht2.
  cbn [negb]. by rewrite (bind_Ok _ _ _ _ _ _ E3).
Qed.

Lemma neg_atom k u c x : 0 <= c -> atoms k u c x -> parses (negationExpr k) u (1 + c) x (fun _ => True).
Proof.
  intros Hc Ha p b r tok r' Hp Hb Hf _ Hs. unfold negationExpr. rewrite bind_modify, !bind_gets.
  set (p0 := set_size (ep_size p + 1) p). cbn [ep_size set_size] in *.
  destruct (maxSize <? ep_size p0) eqn:E; [cbn in E; lia|].
  destruct (Ha p0 b r tok r' Hp Hb Hf) as (p1 & E1 & Hs1 & Hne & p' & E' & Hl'); [cbn; lia|].
  rewrite (bind_Ok _ _ _ _ _ _ E1). unfold tok_is. rewrite bind_gets, bool_decide_false by done.
  rewrite E'. exists p'. split; [done|]. cbn [ep_size set_size p0] in Hl'. by rewrite Z.add_assoc.
Qed.

Lemma neg_bang k u c x : 0 <= c -> atoms k u c x -> parses (negationExpr k) (txt "!" ++ u) (1 + c) (NotExpr x) (fun _ => True).
Proof.
  intros Hc Ha p b r tok r' Hp Hb Hf _ Hs. unfold negationExpr. rewrite bind_modify, !bind_gets.
  set (p0 := set_size (ep_size p + 1) p). cbn [ep_size set_size] in *.
  destruct (maxSize <? ep_size p0) eqn:E; [cbn in E; lia|].
  rewrite <- app_assoc in Hp.
  destruct (lexes_one p0 b 33 (u ++ r) Hp Hb) as (p1 & E1 & [Ht1 _ Hr1 Hs1]); [cbn; tauto|].
  rewrite (bind_Ok _ _ _ _ _ _ E1). unfold tok_is. rewrite bind_gets, bool_decide_true by by rewrite Ht1.
  destruct (Ha p1 [] r tok r' Hr1 eq_refl Hf) as (p2 & E2 & Hs2 & Hne & p' & E' & Hl'); [rewrite Hs1; cbn; lia|].
  rewrite (bind_Ok _ _ _ _ _ _ E2), bind_gets, bool_decide_false by done.
  rewrite (bind_Ok _ _ _ _ _ _ E'). exists p'. split; [done|]. rewrite Hs1 in Hl'. cbn [ep_size set_size p0] in Hl'.
  by rewrite Z.add_assoc.
Qed.

Fixpoint esize (x : Expr) : nat :=
  match x with
  | TagExpr _ => 1
  | NotExpr x => S (esize x)
  | AndExpr x y | OrExpr x y => S (esize x + esize y)
  end.

Lemma flat_and_in x e : In e (flat_and x) ->
  (printable x -> printable e) /\ (esize e <= esize x)%nat /\ (is_AndExpr x = true -> (esize e < esize x)%nat).
Proof.
  induction x as [t|x IH|x IHx y IHy|x IHx y IHy]; cbn [flat_and]; try (intros [<-|[]]; by split_and!).
  intros [Hi|Hi]%in_app_iff; [destruct (IHx Hi) as (? & ? & _)|destruct (IHy Hi) as (? & ? & _)];
    cbn; split_and!; intros; try tauto; lia.
Qed.

Lemma flat_or_in x e : In e (flat_or x) ->
  (printable x -> printable e) /\ (esize e <= esize x)%nat /\ (is_OrExpr x = true -> (esize e < esize x)%nat).
Proof.
  induction x as [t|x IH|x IHx y IHy|x IHx y IHy]; cbn [flat_or]; try (intros [<-|[]]; by split_and!).
  intros [Hi|Hi]%in_app_iff; [destruct (IHx Hi) as (? & ? & _)|destruct (IHy Hi) as (? & ? & _)];
    cbn; split_and!; intros; try tauto; lia.
Qed.

(** An operand at a depth that its cost bounds. *)
Definition unit_ok (x : Expr) : Prop := forall d, unit_cost x <= Z.of_nat d ->
  parses (negationExpr (oder_at d)) (unit_text x) (unit_cost x) (norm x) (fun _ => True).

(** An expression at the start of a text or of a group. *)
Definition expr_ok (x : Expr) : Prop := forall d, cost x <= Z.of_nat d ->
  parses (oder (oder_at d)) (String_ x) (cost x) (norm x) closes.

Lemma parses_weaken m s c x (ok ok' : text -> Prop) :
  (forall t, ok' t -> ok t) -> parses m s c x ok -> parses m s c x ok'.
Proof. intros Ho Hm p b r tok r' Hp Hb Hf Hok. apply (Hm p b r); auto. Qed.

Lemma und_ok d es e : fold_units AndExpr es = Some e -> Forall unit_ok es -> units_cost es <= Z.of_nat d ->
  parses (und (oder_at d)) (units_text (txt " && ") es) (units_cost es) e (fun tok => tok <> txt "&&").
Proof.
  destruct es as [|x es]; [done|]. intros [= <-] Hes Hd.
  eapply parses_weaken; [|apply (op_chain 38 AndExpr (negationExpr (oder_at d)) (fun _ => True))].
  - intros t Ht. by split.
  - intros r. apply follow_and.
  - done.
  - apply List.Forall_forall. intros y Hy. rewrite List.Forall_forall in Hes. apply (Hes y Hy).
    pose proof (units_cost_in y (x :: es) Hy). lia.
Qed.

Lemma expr_ok_flat x : (is_OrExpr x = false -> Forall unit_ok (flat_and x)) -> (is_OrExpr x = true -> Forall unit_ok (flat_or x)) -> expr_ok x.
Proof.
  intros Ha Ho d Hd. destruct (is_OrExpr x) eqn:E.
  - assert (Ex : is_AndExpr x = false) by by destruct x.
    pose proof (or_text x) as Ht. pose proof (or_cost x) as Hc. rewrite Ex in Ht, Hc. rewrite Ht, Hc in *.
    pose proof (or_norm x) as Hn. specialize (Ho eq_refl).
    assert (Hin : forall y, In y (flat_or x) -> unit_cost y <= units_cost (flat_or x)) by (intros; by apply units_cost_in).
    pose proof (flat_or_units x) as Hu.
    destruct (flat_or x) as [|y ys]; [done|]. injection Hn as <-.
    eapply parses_weaken; [|apply (op_chain 124 OrExpr (und (oder_at d)) (fun tok => tok <> txt "&&"))].
    + intros t [H1 H2]. by split.
    + intros r. apply follow_or.
    + done.
    + apply List.Forall_forall. intros z Hz. specialize (Hin z Hz).
      rewrite List.Forall_forall in Ho, Hu. pose proof (und_ok d [z] (norm z) eq_refl) as Hz'.
      assert (Eu : units_text (txt " && ") [z] = unit_text z) by (cbn; unfold join_with; cbn; apply app_nil_r).
      assert (Ec : units_cost [z] = unit_cost z) by (unfold units_cost; cbn; lia). rewrite Eu, Ec in Hz'.
      apply Hz'; [constructor; [by apply Ho|constructor]|lia].
  - pose proof (and_text x) as Ht. pose proof (and_cost x) as Hc. rewrite E in Ht, Hc. rewrite Ht, Hc in *.
    pose proof (und_ok d _ _ (and_norm x) (Ha eq_refl) Hd) as Hund.
    intros p b r tok r' Hp Hb Hf [Hc1 Hc2] Hs. unfold oder.
    destruct (Hund p b r tok r' Hp Hb Hf Hc1 Hs) as (p1 & E1 & Hl). rewrite (bind_Ok _ _ _ _ _ _ E1).
    unfold eloop, tok_is. rewrite bind_gets.
    pose proof (units_cost_length (flat_and x)). pose proof (lk_size _ _ _ _ _ Hl) as Hsz.
    destruct (Z.to_nat (maxSize + 2 - ep_size p1)) as [|n] eqn:En; [lia|]. cbn [iterM].
    rewrite !bind_assoc, bind_gets, (lk_tok _ _ _ _ _ Hl), bool_decide_false by done. by exists p1.
Qed.

Lemma group_atoms x d : grouped x = true -> expr_ok x -> 1 + cost x <= Z.of_nat d ->
  atoms (oder_at d) (parens (String_ x)) (cost x) (norm x).
Proof.
  intros Hg Hx Hd. pose proof (cost_pos x). destruct d as [|d]; [lia|]. cbn [oder_at]. apply atoms_group, Hx. lia.
Qed.

Lemma unit_group x : grouped x = true -> expr_ok x -> unit_ok x.
Proof.
  intros Hg Hx d Hd. unfold unit_text, unit_cost in *. rewrite Hg in *. pose proof (cost_pos x).
  apply neg_atom; [lia|]. by apply group_atoms.
Qed.

Lemma unit_tag t : is_tag t -> unit_ok (TagExpr t).
Proof. intros Ht d _. by apply (neg_atom _ _ 0), atoms_tag. Qed.

Lemma unit_not y : printable (NotExpr y) -> (grouped y = true -> expr_ok y) -> unit_ok (NotExpr y).
Proof.
  intros [Hy Hn] Hx d Hd. unfold unit_text, unit_cost in *. cbn [grouped is_AndExpr is_OrExpr orb String_ cost norm] in *.
  fold (grouped y) in *. destruct (grouped y) eqn:Eg.
  - pose proof (cost_pos y). apply neg_bang; [lia|]. apply group_atoms; auto.
  - destruct y as [t|y| |]; try done. by apply (neg_bang _ _ 0), atoms_tag.
Qed.

Lemma printable_ok x : printable x -> unit_ok x /\ expr_ok x.
Proof.
  remember (esize x) as n eqn:Hn. revert x Hn. induction n as [n IH] using lt_wf_ind. intros x -> Hp.
  assert (IHx : forall y, printable y -> (esize y < esize x)%nat -> unit_ok y /\ expr_ok y).
  { intros y Hy Hlt. by apply (IH (esize y) Hlt y). }
  assert (Hexpr : (grouped x = false -> unit_ok x) -> expr_ok x).
  { intros Hx. apply expr_ok_flat; intros Eo; apply List.Forall_forall; intros y Hy.
    - destruct (flat_and_in x y Hy) as (Hpy & _ & Hlt). destruct (is_AndExpr x) eqn:E; [apply IHx; auto|].
      assert (y = x) as -> by (destruct x; try done; destruct Hy as [<-|[]]; done).
      apply Hx. unfold grouped. by rewrite E, Eo.
    - destruct (flat_or_in x y Hy) as (Hpy & _ & Hlt). apply IHx; auto. }
  destruct x as [t|y|x y|x y].
  - split; [|apply Hexpr; intros _]; by apply unit_tag.
  - assert (Hu : unit_ok (NotExpr y)); [|by split; [|apply Hexpr]].
    apply unit_not; [done|]. intros _. apply IHx; [by destruct Hp|cbn; lia].
  - assert (He : expr_ok (AndExpr x y)) by (apply Hexpr; done). split; [by apply unit_group|done].
  - assert (He : expr_ok (OrExpr x y)) by (apply Hexpr; done). split; [by apply unit_group|done].
Qed.

Lemma is_tag_bytes t : is_tag t -> Forall is_byte t.
Proof. intros (rs & _ & Hrs & ->). by apply encode_all_bytes. Qed.

Lemma String_bytes x : printable x -> Forall is_byte (String_ x).
Proof.
  assert (Ht : forall s, Forall is_byte s -> Forall is_byte (parens s)).
  { intros s Hs. unfold parens. rewrite !Forall_app. split_and!; [|done|]; by repeat constructor. }
  induction x as [t|x IH|x IHx y IHy|x IHx y IHy]; cbn [printable String_].
  - apply is_tag_bytes.
  - intros [Hx _]. rewrite !Forall_app. split; [by repeat constructor|]. case_match; auto.
  - intros [Hx Hy]. rewrite !Forall_app. split_and!; [case_match; auto|by repeat constructor|case_match; auto].
  - intros [Hx Hy]. rewrite !Forall_app. split_and!; [case_match; auto|by repeat constructor|case_match; auto].
Qed.

Lemma parseExpr_text x : printable x -> cost x <= maxSize -> parseExpr (String_ x) = Ok (norm x).
Proof.
  intros Hp Hc. destruct (printable_ok x Hp) as [_ Hx]. unfold parseExpr, parse_all.
  assert (Hr : reads (ExprParser (String_ x) 0 [] false 0 0) ([] ++ String_ x ++ [])).
  { cbn [app]. rewrite app_nil_r. split; [by apply String_bytes|]. by exists []. }
  destruct (Hx (Z.to_nat (maxSize + 1)) ltac:(unfold maxSize in *; lia) _ [] [] [] [] Hr eq_refl follow_end) as (p' & E & Hl);
    [by split|cbn; lia|].
  change max_depth with (S (Z.to_nat (maxSize + 1))). cbn [oder_at]. rewrite (bind_Ok _ _ _ _ _ _ E), bind_gets.
  by rewrite (lk_tok _ _ _ _ _ Hl).
Qed.

(** ** Lines *)

Lemma space_no_tag r : 0 <= r <= MaxRune -> tagRune r = true -> IsSpace r = false.
Proof.
  unfold MaxRune. intros Hr Ht. apply not_true_is_false. intros Hs. destruct (Z.le_gt_cases r 0x3000) as [Hle|Hgt].
  - assert (Hall : forallb (fun k => negb (IsSpace k && tagRune k)) (map Z.of_nat (seq 0 (Z.to_nat 0x3001))) = true) by (vm_compute; reflexivity).
    pose proof (forallb_below _ _ r Hall ltac:(lia)) as Hr'. cbn beta in Hr'. by rewrite Hs, Ht in Hr'.
  - rewrite IsSpace_table in Hs by lia. unfold in_table in Hs. apply orb_true_iff in Hs as [Hs|Hs]; [|done].
    apply existsb_exists in Hs as (x & Hx & Hi). rewrite in_range_high in Hi; [done|].
    cbn in Hx. destruct_or! Hx; subst; cbn; try done; lia.
Qed.

Lemma ValidRune_bounds r : ValidRune r = true -> 0 <= r <= MaxRune.
Proof. intros Hr. destruct (ValidRune_cases r Hr) as [?|[?|[[? ?]|?]]]; unfold MaxRune in *; lia. Qed.

Lemma tag_char_no_space r : tag_char r -> IsSpace r = false.
Proof. intros [Hv Ht]. apply space_no_tag; [by apply ValidRune_bounds|done]. Qed.

Lemma tag_edges t : is_tag t -> starts_well t /\ ends_well t.
Proof.
  intros (rs & Hne & Hrs & ->). split.
  - destruct Hrs as [|r rs Hr Hrs]; [done|]. exists r, (encode_all rs). split; [done|].
    split; [apply Hr|by apply tag_char_no_space].
  - destruct (exists_last Hne) as (rs' & r & ->). apply Forall_app in Hrs as [_ Hr]. inversion_clear Hr as [|? ? Hr' _].
    exists (encode_all rs'), r. split; [|split; [apply Hr'|by apply tag_char_no_space]].
    rewrite encode_all_app. unfold encode_all at 2. cbn. by rewrite app_nil_r.
Qed.

Lemma String_edges x : printable x -> starts_well (String_ x) /\ ends_well (String_ x).
Proof.
  assert (Hg : forall s, starts_well (parens s) /\ ends_well (parens s)).
  { intros s. split; [exists 40, (s ++ txt ")")|exists (txt "(" ++ s), 41]; by split_and!. }
  induction x as [t|x IH|x IHx y IHy|x IHx y IHy]; cbn [printable String_].
  - apply tag_edges.
  - intros [Hx _]. split; [by exists 33; eexists|]. apply ends_app. case_match; [apply Hg|by apply IH].
  - intros [Hx Hy]. split; [apply starts_app; case_match; [apply Hg|by apply IHx]|].
    apply ends_app, ends_app. case_match; [apply Hg|by apply IHy].
  - intros [Hx Hy]. split; [apply starts_app; case_match; [apply Hg|by apply IHx]|].
    apply ends_app, ends_app. case_match; [apply Hg|by apply IHy].
Qed.

(** No byte of a printed expression is white space, but for the blanks. *)
Lemma tag_no_space t : is_tag t -> Forall (fun c => asciiSpace c = false) t.
Proof.
  intros (rs & _ & Hrs & ->). induction Hrs as [|r rs Hr Hrs IH]; [constructor|]. unfold encode_all. cbn [map concat].
  apply Forall_app. split; [|done]. apply List.Forall_forall. intros b Hb.
  apply (edge_byte r); [apply Hr|by apply tag_char_no_space|done].
Qed.

Definition no_newline (s : text) : Prop := Forall (fun c => c <> 10) s.

Lemma String_no_newline x : printable x -> no_newline (String_ x).
Proof.
  assert (Ht : forall t, is_tag t -> no_newline t).
  { intros t Hn%tag_no_space. eapply List.Forall_impl; [|exact Hn]. by intros c Hc ->. }
  assert (Hg : forall s, no_newline s -> no_newline (parens s)).
  { intros s Hs. unfold no_newline, parens. rewrite !Forall_app. split_and!; [|done|]; by repeat constructor. }
  unfold no_newline in *. induction x as [t|x IH|x IHx y IHy|x IHx y IHy]; cbn [printable String_].
  - apply Ht.
  - intros [Hx _]. rewrite !Forall_app. split; [by repeat constructor|]. case_match; auto.
  - intros [Hx Hy]. rewrite !Forall_app. split_and!; [case_match; auto|by repeat constructor|case_match; auto].
  - intros [Hx Hy]. rewrite !Forall_app. split_and!; [case_match; auto|by repeat constructor|case_match; auto].
Qed.

Lemma no_newline_line s : no_newline s -> drop_newline s = s /\ Contains s [10] = false.
Proof.
  intros Hs. split.
  - unfold drop_newline. destruct (0 <? lenZ s) eqn:E; [|done]. cbn [andb].
    assert (Hn : nthZ 0 s (lenZ s - 1) <> 10) by (apply (nthZ_Forall (fun c => c <> 10)); [done|lia]).
    by apply Z.eqb_neq in Hn as ->.
  - unfold Contains. by rewrite Index_no_byte.
Qed.

Lemma HasPrefix_app s q : HasPrefix (s ++ q) s = true.
Proof.
  unfold HasPrefix. rewrite slice_front, bool_decide_true by done. rewrite lenZ_app. pose proof (lenZ_nonneg q).
  destruct (lenZ s <=? lenZ s + lenZ q) eqn:E; [done|lia].
Qed.

Lemma splitGoBuild_text x : printable x -> splitGoBuild (txt "//go:build " ++ String_ x) = Some (String_ x).
Proof.
  intros Hp. pose proof (String_bytes x Hp) as Hb. destruct (String_edges x Hp) as [Hs He].
  assert (Htr : trimmed (String_ x)) by by split.
  assert (Htr' : trimmed (txt "//go:build " ++ String_ x)).
  { split; [apply Forall_app; split; [by apply is_byte_dec|done]| |by apply ends_app].
    exists 47, (txt "/go:build " ++ String_ x). by split_and!. }
  assert (Hn : no_newline (txt "//go:build " ++ String_ x)).
  { apply Forall_app. split; [|by apply String_no_newline]. by repeat constructor. }
  unfold splitGoBuild. cbv zeta. destruct (no_newline_line _ Hn) as [-> ->].
  change (txt "//go:build " ++ String_ x) with (txt "//go:build" ++ 32 :: String_ x) at 1.
  rewrite HasPrefix_app. cbn [negb]. pose proof (TrimSpace_trimmed [] _ eq_refl Htr') as Ht. cbn [app] in Ht. rewrite Ht.
  unfold after_prefix. cbv zeta. change (txt "//go:build " ++ String_ x) with (txt "//go:build" ++ 32 :: String_ x).
  rewrite slice_back. pose proof (TrimSpace_trimmed [32] _ eq_refl Htr) as Ht2. cbn [app] in Ht2. rewrite Ht2.
  rewrite lenZ_cons. destruct (1 + lenZ (String_ x) =? lenZ (String_ x)) eqn:E; [lia|done].
Qed.

(** ** Evaluation *)

(** The value of an expression, and the tags that its evaluation looks at. *)
Fixpoint eval (ok : text -> bool) (x : Expr) : bool :=
  match x with
  | TagExpr t => ok t
  | NotExpr x => negb (eval ok x)
  | AndExpr x y => eval ok x && eval ok y
  | OrExpr x y => eval ok x || eval ok y
  end.
Fixpoint tags (x : Expr) : list text :=
  match x with
  | TagExpr t => [t]
  | NotExpr x => tags x
  | AndExpr x y | OrExpr x y => tags x ++ tags y
  end.

Lemma eval_and_app ok x y : eval ok (and_app x y) = eval ok x && eval ok y.
Proof. induction y; cbn; try done. rewrite IHy1. by rewrite andb_assoc. Qed.
Lemma eval_or_app ok x y : eval ok (or_app x y) = eval ok x || eval ok y.
Proof. induction y; cbn; try done. rewrite IHy1. by rewrite orb_assoc. Qed.

Lemma eval_norm ok x : eval ok (norm x) = eval ok x.
Proof. induction x; cbn; rewrite ?eval_and_app, ?eval_or_app; congruence. Qed.

(** C36: printing an expression as a build line and parsing the line gives the
    expression back, with && and || associated to the left, which does not
    change its value: for every expression whose tags can be read, without
    double negations, and with at most 1000 operands and groups. *)
Theorem build_line_roundtrip x : printable x -> cost x <= maxSize ->
  Parse (txt "//go:build " ++ String_ x) = Ok (norm x) /\ forall ok, eval ok (norm x) = eval ok x.
Proof.
  intros Hp Hc. split; [|intros ok; apply eval_norm]. unfold Parse.
  by rewrite splitGoBuild_text, parseExpr_text.
Qed.

Lemma is_tag_ascii t : t <> [] -> forallb (fun c => (0 <=? c) && (c <? RuneSelf) && tagRune c) t = true -> is_tag t.
Proof.
  intros Hne Ht. rewrite forallb_forall in Ht. exists t. split_and!; [done| |].
  - apply List.Forall_forall. intros c Hc. specialize (Ht c Hc). b2p. split; [|done]. by apply ascii_valid.
  - symmetry. apply encode_all_ascii. apply List.Forall_forall. intros c Hc. specialize (Ht c Hc). b2p. lia.
Qed.

(** linux && (go1.21 && !(cgo || arm)) *)
Definition sample : Expr :=
  AndExpr (TagExpr (txt "linux"))
    (AndExpr (TagExpr (txt "go1.21")) (NotExpr (OrExpr (TagExpr (txt "cgo")) (TagExpr (txt "arm"))))).

Lemma sample_printable : printable sample.
Proof. cbn. split_and!; try done; apply is_tag_ascii; done || (vm_compute; reflexivity). Qed.

Lemma build_line_roundtrip_witness :
  printable sample /\ cost sample <= maxSize /\
  Parse (txt "//go:build " ++ String_ sample) = Ok (norm sample) /\
  forall ok, eval ok (norm sample) = eval ok sample.
Proof.
  split; [apply sample_printable|]. split; [vm_compute; discriminate|].
  apply (build_line_roundtrip sample); [apply sample_printable|vm_compute; discriminate].
Defined.

(** [Eval] computes the boolean value and calls [ok] on every tag from
    left to right, also on those that do not matter for the value. *)
Theorem Eval_sees_every_tag (f : text -> bool) x :
  Eval (V := SyntaxError) (fun t => emit t;;; ret (f t)) x tt = Ok (eval f x, tt, tags x).
Proof.
  induction x as [t|x IH|x IHx y IHy|x IHx y IHy]; cbn [Eval eval tags]; [done|..].
  - rewrite (bind_Ok _ _ _ _ _ _ IH). cbn. by rewrite app_nil_r.
  - rewrite (bind_Ok _ _ _ _ _ _ IHx), (bind_Ok _ _ _ _ _ _ IHy). cbn. by rewrite app_nil_r.
  - rewrite (bind_Ok _ _ _ _ _ _ IHx), (bind_Ok _ _ _ _ _ _ IHy). cbn. by rewrite app_nil_r.
Qed.

(** ** Every text is parsed *)

(** The state between tokens: what is left is part of the text, and a token
    that is marked as a tag is one. *)
Definition between (p : exprParser) : Prop :=
  (exists r, reads p r) /\ (ep_isTag p = true -> is_tag (ep_tok p)).

Abbreviation ewp := (wp (E := unit) (fun _ : SyntaxError => True) False).

Lemma blanks_split r : exists b q, r = b ++ q /\ forallb is_blank b = true /\ unblank q.
Proof.
  induction r as [|c r (b & q & -> & Hb & Hq)]; [by exists [], []|]. destruct (is_blank c) eqn:E.
  - exists (c :: b), q. cbn. by rewrite E, Hb.
  - by exists [], (c :: b ++ q).
Qed.

Lemma token_to_between p n : (exists r, reads p r) -> 0 <= n -> ep_i p + n <= lenZ (ep_s p) -> ep_isTag p = false ->
  forall Q, (forall p', between p' -> ep_size p' = ep_size p -> Q tt p' []) -> ewp (token_to (ep_i p) (ep_i p + n)) Q p.
Proof.
  intros (r & Hb & pre & Hs & Hi) Hn Hle Ht Q HQ. apply HQ; [|done]. split; cbn; [|congruence].
  rewrite Hs, Hi, lenZ_app in Hle. exists (drop (Z.to_nat n) r). split; [by apply Forall_drop|].
  exists (pre ++ take (Z.to_nat n) r). rewrite <- app_assoc, take_drop. split; [done|]. cbn. rewrite Hi, lenZ_app.
  unfold lenZ in *. rewrite length_take. lia.
Qed.

Lemma wp_lex p : (exists r, reads p r) -> ewp lex (fun _ p' _ => between p' /\ ep_size p' = ep_size p) p.
Proof.
  intros (r & Hr). destruct (blanks_split r) as (b & q & -> & Hb & Hq).
  destruct (lex_blanks p b q Hr Hb Hq) as (p1 & E & H1 & Hi & Hs). unfold wp. rewrite E.
  assert (Ht : ewp lex_token (fun _ p' _ => between p' /\ ep_size p' = ep_size p1) p1).
  2: { unfold wp in Ht. rewrite Hs in Ht. exact Ht. }
  unfold lex_token. apply wp_bind, wp_gets. apply wp_bind, wp_gets. destruct q as [|c q].
  { pose proof H1 as (_ & pre & Hs1 & Hi1). rewrite Hs1, app_nil_r, Hi1, Z.leb_refl. apply wp_modify.
    split; [|done]. split; [|cbn; congruence]. exists []. by split; [|exists pre]. }
  destruct (reads_nth p1 c q H1) as [-> ->]. cbv zeta.
  pose proof H1 as (Hby & pre & Hs1 & Hi1).
  assert (Hlen : lenZ (ep_s p1) = ep_i p1 + 1 + lenZ q) by (rewrite Hs1, Hi1, lenZ_app, lenZ_cons; lia).
  pose proof (lenZ_nonneg q).
  case_test; [apply token_to_between; [by eexists|lia..|done|done]|].
  case_test; [case_test; [done|]; apply token_to_between; [by eexists|lia|b2p; lia|done|done]|].
  rewrite Hs1, Hi1, slice_back. destruct (tag_prefix (c :: q)) as [|c' t] eqn:Et; [done|].
  destruct (tag_prefix_is_tag (c :: q) Hby) as [Htag [q' Hq']]; [by rewrite Et|]. rewrite Et in *.
  apply wp_bind. rewrite <- Hi1. rewrite Hq' in H1. destruct (token_to_reads p1 (c' :: t) q' H1) as (p' & E' & [Hk1 Hk2 Hk3 Hk4]).
  unfold wp. rewrite E'. cbn. split; [|done]. split; [by exists q'|]. intros _. cbn. by rewrite Hk1.
Qed.

(** The result of a production: more operands were counted, and the tags are
    readable. *)
Definition step_ok (p : exprParser) (n : Z) (x : Expr) (p' : exprParser) : Prop :=
  between p' /\ ep_size p + n <= ep_size p' <= maxSize /\ Forall is_tag (tags x).

Definition deep_enough (d : nat) (p : exprParser) : Prop :=
  between p /\ ep_size p <= maxSize /\ maxSize + 1 - ep_size p <= Z.of_nat d.

Lemma wp_recover {A} (m : EM A) Q p : ewp m Q p -> ewp (recover_end m) Q p.
Proof. unfold wp, recover_end. by destruct (m p) as [[[a p'] t]|e|]. Qed.

Section Total.
Context (d : nat) (Hk : forall p, deep_enough d p -> ewp (oder_at d) (fun x p' _ => step_ok p 1 x p') p).

Lemma wp_atom p : between p -> ep_size p <= maxSize -> maxSize + 1 - ep_size p <= Z.of_nat d ->
  ewp (atom (oder_at d)) (fun x p' _ => step_ok p 0 x p') p.
Proof.
  intros Hp Hm Hd. unfold atom, tok_is. apply wp_bind, wp_gets. case_bool_decide.
  - apply wp_bind, wp_gets. apply wp_recover. apply wp_bind. eapply wp_mono; [by apply Hk|].
    intros x p1 t1 (Hp1 & Hs1 & Hx). cbn beta. apply wp_bind, wp_gets. case_bool_decide; [|done]. cbn [negb].
    apply wp_bind. eapply wp_mono; [apply wp_lex, Hp1|]. intros _ p2 t2 [Hp2 Hs2]. apply wp_ret.
    split; [done|]. split; [lia|done].
  - apply wp_bind, wp_gets. destruct (ep_isTag p) eqn:Et; cbn [negb].
    + apply wp_bind, wp_gets. apply wp_bind. eapply wp_mono; [apply wp_lex, Hp|]. intros _ p2 t2 [Hp2 Hs2]. apply wp_ret.
      split; [done|]. split; [lia|]. constructor; [by apply Hp|constructor].
    + unfold unexpected. apply wp_bind, wp_gets. apply wp_bind, wp_gets. by case_match.
Qed.

Lemma wp_negationExpr p : deep_enough (S d) p ->
  ewp (negationExpr (oder_at d)) (fun x p' _ => step_ok p 1 x p') p.
Proof.
  intros (Hp & Hm & Hd). unfold negationExpr. apply wp_bind, wp_modify. apply wp_bind, wp_gets. apply wp_bind, wp_gets.
  cbn [ep_size set_size]. case_test; [done|]. b2p.
  apply wp_bind. eapply wp_mono; [apply wp_lex; apply Hp|]. intros _ p1 t1 [Hp1 Hs1]. cbn [ep_size set_size] in Hs1.
  apply wp_bind, wp_gets. case_bool_decide.
  - apply wp_bind. eapply wp_mono; [apply wp_lex, Hp1|]. intros _ p2 t2 [Hp2 Hs2]. apply wp_bind, wp_gets.
    case_bool_decide; [by apply wp_bind, wp_gets|]. apply wp_bind. eapply wp_mono; [apply wp_atom; [done|lia..]|].
    intros x p3 t3 (Hp3 & Hs3 & Hx). apply wp_ret. split; [done|]. split; [lia|done].
  - eapply wp_mono; [apply wp_atom; [done|lia..]|]. intros x p3 t3 (Hp3 & Hs3 & Hx). split; [done|]. split; [lia|done].
Qed.

(** The loops of [und] and [oder]. *)
Lemma wp_chain (m : EM Expr) c con p : (forall x y, tags (con x y) = tags x ++ tags y) ->
  (forall p, deep_enough (S d) p -> ewp m (fun x p' _ => step_ok p 1 x p') p) -> deep_enough (S d) p ->
  ewp (let* x := m in eloop (op_body c con m) x) (fun x p' _ => step_ok p 1 x p') p.
Proof.
  intros Hcon Hm Hp. apply wp_bind. eapply wp_mono; [by apply Hm|]. intros x p1 t1 (Hp1 & Hs1 & Hx). cbn beta.
  unfold eloop. apply wp_bind, wp_gets.
  pose (I := fun (x : Expr) (q : exprParser) (_ : list unit) => step_ok p 1 x q).
  apply (wp_mono _ _ _ (fun x q t => step_ok p 1 x q)); [|done].
  apply (wp_iterM _ _ I (fun _ q => Z.to_nat (maxSize + 1 - ep_size q)) _ (fun x q _ => step_ok p 1 x q) ) with (t := []).
  - intros y q t Hy. unfold op_body, tok_is. apply wp_bind, wp_gets. case_bool_decide; [|by apply wp_ret].
    destruct Hy as (Hq & Hsq & Hty). apply wp_bind. destruct Hp as (_ & _ & Hd).
    eapply wp_mono; [apply Hm; split; [done|lia]|]. intros z q' t' (Hq' & Hsq' & Htz). apply wp_ret. split; [|right; lia].
    split; [done|]. split; [lia|]. rewrite Hcon. by apply Forall_app.
  - by split.
  - right. lia.
Qed.

Lemma wp_oder p : deep_enough (S d) p -> ewp (oder (oder_at d)) (fun x p' _ => step_ok p 1 x p') p.
Proof.
  intros Hp. apply (wp_chain (und (oder_at d)) 124 OrExpr); [done| |done].
  clear p Hp. intros p Hp. apply (wp_chain (negationExpr (oder_at d)) 38 AndExpr); [done| |done].
  intros q Hq. by apply wp_negationExpr.
Qed.
End Total.

Lemma wp_oder_at d p : deep_enough d p -> ewp (oder_at d) (fun x p' _ => step_ok p 1 x p') p.
Proof.
  revert p. induction d as [|d IH]; intros p Hp; [destruct Hp as (_ & ? & ?); lia|]. cbn [oder_at].
  by apply wp_oder.
Qed.

Lemma parseExpr_returns s : Forall is_byte s ->
  match parseExpr s with
  | Ok x => Forall is_tag (tags x)
  | Panic e => True
  | NoFuel => False
  end.
Proof.
  intros Hs. set (p0 := ExprParser s 0 [] false 0 0).
  assert (Hp : deep_enough max_depth p0).
  { split; [|unfold max_depth, maxSize; cbn; lia]. split; [|done]. exists s. by split; [|exists []]. }
  pose proof (wp_oder_at max_depth p0 Hp) as Hw. unfold parseExpr, parse_all, wp in *. fold p0.
  unfold bind. destruct (oder_at max_depth p0) as [[[x p'] t]|e|]; [|done..]. unfold gets.
  destruct (ep_tok p'); [|done]. apply Hw.
Qed.

(** the parser of build expressions returns on every text: it gives an
    expression whose tags can be read, or a syntax error; the limit on the size
    of an expression bounds its loops and its recursion. *)
Theorem parseExpr_total s : Forall is_byte s ->
  match parseExpr s with
  | Ok x => Forall is_tag (tags x)
  | Panic e => True
  | NoFuel => False
  end.
Proof. apply parseExpr_returns. Qed.

Lemma parseExpr_total_witness :
  match parseExpr (txt "a && (b || !c) extra") with
  | Ok x => Forall is_tag (tags x)
  | Panic e => True
  | NoFuel => False
  end.
Proof. apply parseExpr_total. by apply is_byte_dec. Defined.

(** ** Every line is parsed *)

Lemma skip_spaces_Forall (P : byte -> Prop) s : Forall P s -> Forall P (skip_spaces s).
Proof. induction 1; cbn; [constructor|]. case_match; [done|by constructor]. Qed.

Lemma TrimFunc_Forall (P : byte -> Prop) s f : Forall P s -> Forall P (TrimFunc s f).
Proof.
  intros Hs. unfold TrimFunc, TrimRightFunc. apply slice_Forall. unfold TrimLeftFunc. cbv zeta. case_match; [constructor|].
  by apply slice_Forall.
Qed.

Lemma TrimSpace_Forall (P : byte -> Prop) s : Forall P s -> Forall P (TrimSpace s).
Proof.
  intros Hs. unfold TrimSpace. apply skip_spaces_Forall in Hs. destruct (skip_spaces s) as [|c s']; [constructor|].
  case_match; [by apply TrimFunc_Forall|]. assert (Hr := List.Forall_rev Hs). apply skip_spaces_Forall in Hr.
  destruct (skip_spaces (rev (c :: s'))) as [|c' r]; [constructor|]. apply List.Forall_rev in Hr.
  case_match; [|done]. by apply slice_Forall.
Qed.

Lemma splitGoBuild_bytes line s : Forall is_byte line -> splitGoBuild line = Some s -> Forall is_byte s.
Proof.
  intros Hl. unfold splitGoBuild, after_prefix. cbv zeta. do 3 (case_match; [done|]). intros [= <-].
  apply TrimSpace_Forall, slice_Forall, TrimSpace_Forall. unfold drop_newline. case_match; [by apply slice_Forall|done].
Qed.

Lemma Parse_total_lines line : Forall is_byte line -> Parse line <> NoFuel.
Proof.
  intros Hl. unfold Parse. destruct (splitGoBuild line) as [s|] eqn:E.
  - pose proof (parseExpr_returns s (splitGoBuild_bytes line s Hl E)) as Hp. by destruct (parseExpr s).
  - destruct (splitPlusBuild line); [|done]. by case_match.
Qed.

Lemma bytes_of_string_bytes s : Forall is_byte (bytes_of_string s).
Proof.
  induction s as [|c s IH]; cbn; [constructor|]. constructor; [|done]. unfold is_byte, byte_of_ascii.
  pose proof (Ascii.N_ascii_bounded c). lia.
Qed.

Lemma build_line_total msg : Parse (bytes_of_string msg) <> NoFuel.
Proof. apply Parse_total_lines, bytes_of_string_bytes. Qed.
