(* ===== verification/PlusBuild.v ===== *)
(** * Old build lines and Go versions

    [PlusBuildLines] of go/build/constraint/expr.go keeps the meaning of an
    expression, and [GoVersion] of vers.go bounds the versions that satisfy it. *)

From S2P Require Import Prelude Utf8 UnicodeTables Unicode Format FormatFacts Search SearchFacts Strings StringsFacts Constraint ConstraintFacts.
Import constraint.

#[local] Open Scope Z_scope.

(** ** Pushing negations to the tags *)

Fixpoint negations_at_tags (x : Expr) : bool :=
  match x with
  | TagExpr _ => true
  | NotExpr x => is_TagExpr x
  | AndExpr x y | OrExpr x y => negations_at_tags x && negations_at_tags y
  end.

Lemma pushNot_facts x : forall neg,
  (forall ok, eval ok (pushNot x neg) = xorb neg (eval ok x)) /\
  negations_at_tags (pushNot x neg) = true /\ tags (pushNot x neg) = tags x.
Proof.
  induction x as [t|x IH|x IHx y IHy|x IHx y IHy]; intros neg; cbn [pushNot].
  - destruct neg; split_and!; try done; intros ok; cbn; by destruct (ok t).
  - destruct (is_TagExpr x && negb neg) eqn:E.
    + apply andb_true_iff in E as [E1 E2]. apply negb_true_iff in E2 as ->. by split_and!.
    + destruct (IH (negb neg)) as (H1 & H2 & H3). split_and!; try done. intros ok. rewrite H1. cbn.
      by destruct neg, (eval ok x).
  - destruct (IHx neg) as (Hx1 & Hx2 & Hx3), (IHy neg) as (Hy1 & Hy2 & Hy3).
    destruct neg; cbn; rewrite Hx2, Hx3, Hy2, Hy3; split_and!; try done; intros ok; rewrite Hx1, Hy1;
      by destruct (eval ok x), (eval ok y).
  - destruct (IHx neg) as (Hx1 & Hx2 & Hx3), (IHy neg) as (Hy1 & Hy2 & Hy3).
    destruct neg; cbn; rewrite Hx2, Hx3, Hy2, Hy3; split_and!; try done; intros ok; rewrite Hx1, Hy1;
      by destruct (eval ok x), (eval ok y).
Qed.

(** [pushNot] gives an expression, or its negation, in which only tags are
    negated: the value is kept for every assignment, and so are the tags. *)
Theorem pushNot_spec x neg :
  (forall ok, eval ok (pushNot x neg) = xorb neg (eval ok x)) /\
  negations_at_tags (pushNot x neg) = true /\ tags (pushNot x neg) = tags x.
Proof. apply pushNot_facts. Qed.

(** ** AND of ORs of ANDs *)

Lemma appendSplitAnd_flat x : forall l, appendSplitAnd l x = l ++ flat_and x.
Proof.
  induction x as [t|x IH|x IHx y IHy|x IHx y IHy]; intros l; try done. cbn.
  by rewrite IHx, IHy, app_assoc.
Qed.
Lemma appendSplitOr_flat x : forall l, appendSplitOr l x = l ++ flat_or x.
Proof.
  induction x as [t|x IH|x IHx y IHy|x IHx y IHy]; intros l; try done. cbn.
  by rewrite IHx, IHy, app_assoc.
Qed.

Lemma eval_flat_and ok x : forallb (eval ok) (flat_and x) = eval ok x.
Proof.
  induction x; cbn; rewrite ?andb_true_r; try done. by rewrite forallb_app, IHx1, IHx2.
Qed.
Lemma eval_flat_or ok x : existsb (eval ok) (flat_or x) = eval ok x.
Proof.
  induction x; cbn; rewrite ?orb_false_r; try done. by rewrite existsb_app, IHx1, IHx2.
Qed.

(** A literal whose tag can be read. *)
Definition lit_ok (x : Expr) : Prop :=
  match x with TagExpr t | NotExpr (TagExpr t) => is_tag t | _ => False end.

Definition good (x : Expr) : Prop := negations_at_tags x = true /\ Forall is_tag (tags x).

Lemma good_flat_and x : good x -> Forall good (flat_and x).
Proof.
  induction x as [t|x IH|x IHx y IHy|x IHx y IHy]; cbn [flat_and]; intros Hx; try by constructor; [exact Hx|constructor].
  destruct Hx as [Hn Ht]. cbn in *. apply andb_true_iff in Hn as [Hn1 Hn2]. apply Forall_app in Ht as [Ht1 Ht2].
  apply Forall_app. split; [by apply IHx|by apply IHy].
Qed.
Lemma good_flat_or x : good x -> Forall good (flat_or x).
Proof.
  induction x as [t|x IH|x IHx y IHy|x IHx y IHy]; cbn [flat_or]; intros Hx; try by constructor; [exact Hx|constructor].
  destruct Hx as [Hn Ht]. cbn in *. apply andb_true_iff in Hn as [Hn1 Hn2]. apply Forall_app in Ht as [Ht1 Ht2].
  apply Forall_app. split; [by apply IHx|by apply IHy].
Qed.

Lemma all_some_map {A B} (G : A -> Prop) (P : A -> B -> Prop) (f : A -> option B) l l' :
  (forall x y, G x -> f x = Some y -> P x y) -> Forall G l -> all_some (map f l) = Some l' -> Forall2 P l l'.
Proof.
  intros Hf Hl. revert l'. induction Hl as [|x l Hx Hl IH]; intros l'; cbn; [intros [= <-]; constructor|].
  destruct (f x) as [y|] eqn:E; [|done]. destruct (all_some (map f l)) as [l0|]; [|done]. intros [= <-].
  constructor; [by apply Hf|by apply IH].
Qed.

(** The clauses of a line: not empty, of literals, nor is their list. *)
Definition clause_lits (und : list Expr) : Prop := und <> [] /\ Forall lit_ok und.
Definition line_lits (oder : list (list Expr)) : Prop := oder <> [] /\ Forall clause_lits oder.

Definition eval_line (ok : text -> bool) (oder : list (list Expr)) : bool := existsb (forallb (eval ok)) oder.

Lemma literals_spec x lits : good x -> literals x = Some lits ->
  clause_lits lits /\ forall ok, forallb (eval ok) lits = eval ok x.
Proof.
  unfold literals. rewrite appendSplitAnd_flat. cbn [app]. intros Hg. destruct (forallb isLit (flat_and x)) eqn:E; [|done].
  intros [= <-]. split; [|intros ok; apply eval_flat_and]. split; [apply flat_and_nonnil|].
  rewrite forallb_forall in E. pose proof (good_flat_and x Hg) as Hf. rewrite List.Forall_forall in *.
  intros y Hy. specialize (E y Hy). destruct (Hf y Hy) as [Hn Ht].
  destruct y as [t|[t|y|y1 y2|y1 y2]|y1 y2|y1 y2]; try done; by inversion Ht.
Qed.

Lemma Forall2_nonnil {A B} (P : A -> B -> Prop) l l' : Forall2 P l l' -> l <> [] -> l' <> [].
Proof. by destruct 1. Qed.

Lemma splitLits_spec x split : good x -> splitLits x = Some split ->
  split <> [] /\ Forall line_lits split /\ forall ok, forallb (eval_line ok) split = eval ok x.
Proof.
  intros Hg Hs. unfold splitLits in Hs. rewrite appendSplitAnd_flat in Hs. cbn [app] in Hs.
  apply (all_some_map good (fun y oder => line_lits oder /\ forall ok, eval_line ok oder = eval ok y)) in Hs;
    [|clear - x|by apply good_flat_and].
  - split; [by eapply Forall2_nonnil, flat_and_nonnil|]. split.
    + clear - Hs. by induction Hs as [|y o l l' [Ho _] _ IH]; constructor.
    + intros ok. rewrite <- eval_flat_and. clear - Hs. induction Hs as [|y o l l' [_ Ho] _ IH]; [done|]. cbn. by rewrite Ho, IH.
  - intros y oder Hy Ho. rewrite appendSplitOr_flat in Ho. cbn [app] in Ho.
    apply (all_some_map good (fun z lits => clause_lits lits /\ forall ok, forallb (eval ok) lits = eval ok z)) in Ho;
      [|apply literals_spec|by apply good_flat_or].
    split; [split; [by eapply Forall2_nonnil, flat_or_nonnil|]|].
    + clear - Ho. by induction Ho as [|z o l l' [Hz _] _ IH]; constructor.
    + intros ok. rewrite <- eval_flat_or. unfold eval_line. clear - Ho.
      induction Ho as [|z o l l' [_ Hz] _ IH]; [done|]. cbn. by rewrite Hz, IH.
Qed.

Lemma max_lengths {A} (split : list (list A)) : forall m, m <= 1 ->
  fold_left Z.max (map lenZ split) m = 1 -> Forall (fun o => lenZ o <= 1) split.
Proof.
  induction split as [|o split IH]; intros m Hm; cbn; [constructor|]. intros Hf.
  assert (Hge : forall l m, m <= fold_left Z.max l m).
  { clear. induction l as [|x l IH]; intros m; cbn; [done|]. specialize (IH (Z.max m x)). lia. }
  pose proof (Hge (map lenZ split) (Z.max m (lenZ o))). constructor; [lia|]. apply (IH (Z.max m (lenZ o))); [lia|done].
Qed.

Lemma one_line_spec split : split <> [] -> Forall line_lits split ->
  one_line split <> [] /\ Forall line_lits (one_line split) /\
  forall ok, forallb (eval_line ok) (one_line split) = forallb (eval_line ok) split.
Proof.
  intros Hne Hs. unfold one_line. destruct (fold_left Z.max (map lenZ split) 0 =? 1) eqn:E; [|done].
  apply Z.eqb_eq, max_lengths in E; [|lia]. split; [done|].
  assert (Hall : Forall (fun o => exists lits, o = [lits] /\ clause_lits lits) split).
  { rewrite List.Forall_forall in *. intros o Ho. specialize (E o Ho). destruct (Hs o Ho) as [Ho1 Ho2].
    destruct o as [|lits [|lits2 o]]; [done| |rewrite !lenZ_cons in E; pose proof (lenZ_nonneg o); lia].
    exists lits. split; [done|]. by inversion Ho2. }
  clear E Hs. split.
  - constructor; [|constructor]. split; [done|]. constructor; [|constructor]. split.
    + destruct Hall as [|o split (lits & -> & Hl & _) _]; [done|]. cbn. by intros [? _]%app_eq_nil.
    + clear Hne. induction Hall as [|o split (lits & -> & _ & Hl) _ IH]; [constructor|]. cbn. by apply Forall_app.
  - intros ok. clear Hne. unfold eval_line. cbn. rewrite orb_false_r, andb_true_r.
    induction Hall as [|o split (lits & -> & _) _ IH]; [done|]. cbn. by rewrite forallb_app, orb_false_r, IH.
Qed.

(** ** The text of an old build line *)

Lemma tag_bytes t : is_tag t -> Forall (fun c => RuneSelf <= c \/ tagRune c = true) t.
Proof.
  intros (rs & _ & Hrs & ->). eapply encode_all_Forall; [|exact Hrs]. intros r [Hv Ht].
  destruct (encode_cases r Hv) as [[_ ->]|[_ Hall]]; [by constructor; [right|]|].
  eapply List.Forall_impl; [|exact Hall]. intros c Hc. by left.
Qed.

(** A byte that is no part of a tag. *)
Lemma tag_without c t : is_tag t -> c < RuneSelf -> tagRune c = false -> Forall (fun b => b <> c) t.
Proof.
  intros Ht Hc Hf. eapply List.Forall_impl; [|by apply tag_bytes]. intros b [Hb|Hb] ->; [lia|congruence].
Qed.

Lemma tag_word t : is_tag t -> word t.
Proof.
  intros (rs & Hne & Hrs & ->). exists rs. split_and!; [done| |done]. eapply List.Forall_impl; [|exact Hrs].
  intros r Hr. split; [apply Hr|by apply tag_char_no_space].
Qed.

Lemma lit_text x : lit_ok x -> exists t, is_tag t /\ (x = TagExpr t \/ x = NotExpr (TagExpr t)).
Proof. destruct x as [t|[t|x|x y|x y]|x y|x y]; cbn; try done; intros Ht; exists t; auto. Qed.

Lemma lit_word x : lit_ok x -> word (String_ x).
Proof.
  intros (t & Ht & [-> | ->])%lit_text; cbn; [by apply tag_word|]. apply (word_app [33]); [by apply word_one|by apply tag_word].
Qed.

Lemma lit_no_comma x : lit_ok x -> Forall (fun b => b <> 44) (String_ x).
Proof.
  intros (t & Ht & [-> | ->])%lit_text; cbn; [by apply tag_without|]. constructor; [done|by apply tag_without].
Qed.

(** The bytes of a tag do not start with an exclamation mark. *)
Lemma tag_no_mark t p : is_tag t -> HasPrefix t (33 :: p) = false.
Proof.
  intros Ht. destruct (tag_without 33 t Ht ltac:(done) ltac:(vm_compute; reflexivity)) as [|c t' Hc _]; [done|].
  apply not_true_is_false. by intros ?%HasPrefix_cons.
Qed.

Lemma plusLit_text x : lit_ok x -> plusLit (String_ x) = x.
Proof.
  intros (t & Ht & [-> | ->])%lit_text; cbn [String_ is_AndExpr is_OrExpr orb]; unfold plusLit; cbv zeta.
  - change (txt "!!") with [33; 33]. change (txt "!") with [33]. rewrite !tag_no_mark by done.
    rewrite bool_decide_false; [by rewrite (is_tag_isValidTag t Ht)|].
    intros ->. pose proof (tag_no_mark [33] [] Ht). done.
  - change (txt "!" ++ t) with (33 :: t). change (txt "!!") with [33; 33]. change (txt "!") with [33].
    rewrite HasPrefix_one, Z.eqb_refl, bool_decide_false; [|intros [= ->]; by destruct (word_nonnil [] (tag_word [] Ht))].
    assert (H2 : HasPrefix (33 :: t) [33; 33] = false).
    { pose proof (tag_no_mark t [] Ht) as Hm. destruct t as [|c t]; [done|]. rewrite HasPrefix_one in Hm.
      unfold HasPrefix. apply andb_false_iff. right. apply bool_decide_false. unfold slice. cbn. intros [= ->].
      by rewrite Z.eqb_refl in Hm. }
    rewrite H2. cbn [orb].
    assert (Hs : slice (33 :: t) 1 (lenZ (33 :: t)) = t) by apply (slice_back [33]).
    by rewrite Hs, (is_tag_isValidTag t Ht).
Qed.

Definition clause_text (lits : list Expr) : text := commas (map String_ lits).

Lemma commas_joined l : commas l = joined 44 l.
Proof. induction l as [|s [|s' l] IH]; [done..|]. cbn [commas joined] in *. by rewrite IH. Qed.

Lemma clause_word lits : clause_lits lits -> word (clause_text lits).
Proof.
  intros [Hne Hl]. unfold clause_text. induction Hl as [|x l Hx Hl IH]; [done|]. destruct l as [|y l].
  - by apply lit_word.
  - change (commas (map String_ (x :: y :: l))) with (String_ x ++ [44] ++ commas (map String_ (y :: l))).
    apply word_app; [by apply lit_word|]. apply word_app; [by apply word_one|by apply IH].
Qed.

Lemma clause_split lits : clause_lits lits -> map plusLit (Split (clause_text lits) (txt ",")) = lits.
Proof.
  intros [Hne Hl]. unfold clause_text. change (txt ",") with [44]. rewrite commas_joined, Split_joined.
  - rewrite map_map. rewrite <- (map_id lits) at 2. apply map_ext_in. intros x Hx. apply plusLit_text.
    rewrite List.Forall_forall in Hl. by apply Hl.
  - by destruct lits.
  - apply Forall_map. eapply List.Forall_impl; [|exact Hl]. apply lit_no_comma.
Qed.

(** ** Reading an old build line *)

Definition and_all (lits : list Expr) : Expr :=
  match lits with [] => TagExpr (txt "ignore") | x :: l => fold_left AndExpr l x end.
Definition line_expr (oder : list (list Expr)) : Expr :=
  match map and_all oder with [] => TagExpr (txt "ignore") | x :: l => fold_left OrExpr l x end.

Lemma plus_join_fold op l : forall y size, size <= maxOldSize ->
  plus_join op (Some y) size l =
  if size + lenZ l <=? maxOldSize then Some (Some (fold_left op l y), size + lenZ l) else None.
Proof.
  induction l as [|z l IH]; intros y size Hs; cbn [plus_join fold_left].
  - change (lenZ []) with 0. rewrite Z.add_0_r. destruct (size <=? maxOldSize) eqn:E; [done|lia].
  - rewrite lenZ_cons. pose proof (lenZ_nonneg l). destruct (maxOldSize <? size + 1) eqn:E.
    + destruct (size + (1 + lenZ l) <=? maxOldSize) eqn:E'; [lia|done].
    + rewrite IH by lia. by replace (size + 1 + lenZ l) with (size + (1 + lenZ l)) by lia.
Qed.

Lemma clause_join lits size : clause_lits lits -> size <= maxOldSize ->
  plus_join AndExpr None size (map plusLit (Split (clause_text lits) (txt ","))) =
  if size + lenZ lits - 1 <=? maxOldSize then Some (Some (and_all lits), size + lenZ lits - 1) else None.
Proof.
  intros Hc Hs. rewrite clause_split by done. destruct Hc as [Hne _]. destruct lits as [|x l]; [done|].
  cbn [plus_join and_all]. rewrite plus_join_fold, lenZ_cons by done.
  by replace (size + (1 + lenZ l) - 1) with (size + lenZ l) by lia.
Qed.

Lemma clauses_fold oder : Forall clause_lits oder -> forall x size, size <= maxOldSize ->
  plus_clauses (Some x) size (map clause_text oder) =
  if size + lenZ (concat oder) <=? maxOldSize then Some (Some (fold_left OrExpr (map and_all oder) x)) else None.
Proof.
  induction 1 as [|lits oder Hl Ho IH]; intros x size Hs; cbn [map plus_clauses fold_left concat].
  - change (lenZ []) with 0. rewrite Z.add_0_r. destruct (size <=? maxOldSize) eqn:E; [done|lia].
  - rewrite clause_join, lenZ_app by done. pose proof (lenZ_nonneg (concat oder)).
    destruct (size + lenZ lits - 1 <=? maxOldSize) eqn:E.
    + destruct (maxOldSize <? size + lenZ lits - 1 + 1) eqn:E'.
      * destruct (size + (lenZ lits + lenZ (concat oder)) <=? maxOldSize) eqn:E2; [lia|done].
      * rewrite IH by lia. by replace (size + lenZ lits - 1 + 1 + lenZ (concat oder)) with (size + (lenZ lits + lenZ (concat oder))) by lia.
    + destruct (size + (lenZ lits + lenZ (concat oder)) <=? maxOldSize) eqn:E2; [lia|done].
Qed.

Lemma parsePlusBuildExpr_spaced oder : line_lits oder ->
  parsePlusBuildExpr (spaced (map clause_text oder)) =
  if lenZ (concat oder) <=? maxOldSize + 1 then Some (line_expr oder) else None.
Proof.
  intros [Hne Ho]. unfold parsePlusBuildExpr. rewrite Fields_spaced.
  2: { apply Forall_map. eapply List.Forall_impl; [|exact Ho]. apply clause_word. }
  destruct Ho as [|lits oder Hl Ho]; [done|]. cbn [map plus_clauses concat]. rewrite clause_join by done.
  rewrite lenZ_app, Z.add_0_l. pose proof (lenZ_nonneg (concat oder)).
  destruct (lenZ lits - 1 <=? maxOldSize) eqn:E.
  - rewrite clauses_fold by (try done; lia). unfold line_expr. cbn [map].
    destruct (lenZ lits - 1 + lenZ (concat oder) <=? maxOldSize) eqn:E1,
      (lenZ lits + lenZ (concat oder) <=? maxOldSize + 1) eqn:E2; try lia; done.
  - destruct (lenZ lits + lenZ (concat oder) <=? maxOldSize + 1) eqn:E2; [lia|done].
Qed.

Lemma eval_and_fold ok l : forall x, eval ok (fold_left AndExpr l x) = eval ok x && forallb (eval ok) l.
Proof. induction l as [|y l IH]; intros x; cbn; [by rewrite andb_true_r|]. by rewrite IH, andb_assoc. Qed.
Lemma eval_or_fold ok l : forall x, eval ok (fold_left OrExpr l x) = eval ok x || existsb (eval ok) l.
Proof. induction l as [|y l IH]; intros x; cbn; [by rewrite orb_false_r|]. by rewrite IH, orb_assoc. Qed.

Lemma eval_line_expr ok oder : line_lits oder -> eval ok (line_expr oder) = eval_line ok oder.
Proof.
  intros [Hne Ho]. assert (Ha : forall lits, clause_lits lits -> eval ok (and_all lits) = forallb (eval ok) lits).
  { intros [|x l] [Hl _]; [done|]. apply eval_and_fold. }
  assert (Hm : existsb (eval ok) (map and_all oder) = eval_line ok oder).
  { clear Hne. unfold eval_line. induction Ho as [|lits oder Hl Ho IH]; [done|]. cbn. by rewrite Ha, IH. }
  rewrite <- Hm. unfold line_expr. destruct oder as [|lits oder]; [done|]. cbn [map existsb]. apply eval_or_fold.
Qed.

(** ** The line itself *)

Lemma plusLine_spaced oder : oder <> [] -> plusLine oder = txt "// +build" ++ 32 :: spaced (map clause_text oder).
Proof.
  destruct oder as [|lits oder]; [done|]. intros _. unfold plusLine. f_equal. cbn [map concat spaced].
  change (txt " ") with [32]. cbn [app]. do 2 f_equal. by rewrite map_map.
Qed.

Lemma line_words oder : line_lits oder -> Forall word (map clause_text oder).
Proof. intros [_ Ho]. apply Forall_map. eapply List.Forall_impl; [|exact Ho]. apply clause_word. Qed.

Lemma plusLine_no_newline oder : line_lits oder -> no_newline (plusLine oder).
Proof.
  intros Ho. rewrite plusLine_spaced by apply Ho. apply Forall_app. split; [by repeat constructor|].
  constructor; [done|]. by apply (spaced_without 10), line_words.
Qed.

Lemma splitPlusBuild_line oder : line_lits oder -> splitPlusBuild (plusLine oder) = Some (spaced (map clause_text oder)).
Proof.
  intros Hl. pose proof (plusLine_no_newline oder Hl) as Hn. pose proof (line_words oder Hl) as Hw.
  destruct Hl as [Hne _]. rewrite plusLine_spaced in * by done.
  assert (Ht : trimmed (spaced (map clause_text oder))) by (apply spaced_trimmed; [by destruct oder|done]).
  set (s := spaced (map clause_text oder)) in *. assert (Hb : trimmed (txt "+build" ++ 32 :: s)).
  { destruct Ht as [Hb _ He]. split; [|by exists 43, (txt "build" ++ 32 :: s)|by apply ends_app, (ends_app [32])].
    apply Forall_app. split; [by apply is_byte_dec|]. by constructor. }
  unfold splitPlusBuild. cbv zeta. destruct (no_newline_line _ Hn) as [-> ->].
  change (txt "// +build" ++ 32 :: s) with (txt "//" ++ 32 :: txt "+build" ++ 32 :: s). rewrite HasPrefix_app. cbn [negb].
  change 2 with (lenZ (txt "//")). rewrite slice_back.
  pose proof (TrimSpace_trimmed [32] _ eq_refl Hb) as E. cbn [app] in E. rewrite E. clear E.
  rewrite HasPrefix_app. cbn [negb]. unfold after_prefix. cbv zeta. rewrite slice_back.
  pose proof (TrimSpace_trimmed [32] _ eq_refl Ht) as E. cbn [app] in E. rewrite E.
  rewrite lenZ_cons. destruct (1 + lenZ s =? lenZ s) eqn:E1; [lia|done].
Qed.

Lemma splitGoBuild_plus oder : line_lits oder -> splitGoBuild (plusLine oder) = None.
Proof.
  intros Ho. unfold splitGoBuild. cbv zeta. destruct (no_newline_line _ (plusLine_no_newline oder Ho)) as [-> ->].
  rewrite plusLine_spaced by apply Ho. set (q := 32 :: _).
  assert (Hp : HasPrefix (txt "// +build" ++ q) (txt "//go:build") = false); [|by rewrite Hp].
  unfold HasPrefix. apply andb_false_iff. right. apply bool_decide_false. unfold slice. cbn. done.
Qed.

(** C35: the old build lines of an expression mean what it means.  Each line
    that [PlusBuildLines] gives is read back by [Parse] as the OR of ANDs it was
    made from if it has at most 101 literals, and is too complex for [Parse] if
    it has more; the lines together have the value of the expression for every
    assignment to the tags. *)
Theorem PlusBuildLines_sound x lines :
  Forall is_tag (tags x) -> PlusBuildLines x = Some lines ->
  exists ls, lines = map plusLine ls /\
    Forall (fun l => Parse (plusLine l) =
      if lenZ (concat l) <=? maxOldSize + 1 then Ok (line_expr l) else Panic EComplex) ls /\
    forall ok, forallb (fun l => eval ok (line_expr l)) ls = eval ok x.
Proof.
  intros Ht. unfold PlusBuildLines. destruct (pushNot_facts x false) as (Hev & Hn & Htags).
  destruct (splitLits (pushNot x false)) as [split|] eqn:Es; [|done]. intros [= <-].
  destruct (splitLits_spec (pushNot x false) split) as (Hne & Hl & Hs); [split; [done|by rewrite Htags]|done|].
  destruct (one_line_spec split Hne Hl) as (_ & Hl1 & Hs1). exists (one_line split). split_and!; [done| |].
  - eapply List.Forall_impl; [|exact Hl1]. intros l Hline. unfold Parse.
    rewrite splitGoBuild_plus, splitPlusBuild_line, parsePlusBuildExpr_spaced by done. by destruct (lenZ (concat l) <=? maxOldSize + 1).
  - intros ok. rewrite <- (xorb_false_l (eval ok x)), <- Hev, <- Hs, <- Hs1. clear Hs Hs1.
    induction Hl1 as [|l ls Hline _ IH]; [done|]. cbn [forallb]. by rewrite IH, eval_line_expr.
Qed.

Lemma PlusBuildLines_sound_witness :
  Forall is_tag (tags sample) /\
  PlusBuildLines sample = Some [txt "// +build linux,go1.21,!cgo,!arm"] /\
  exists ls, [txt "// +build linux,go1.21,!cgo,!arm"] = map plusLine ls /\
    Forall (fun l => Parse (plusLine l) =
      if lenZ (concat l) <=? maxOldSize + 1 then Ok (line_expr l) else Panic EComplex) ls /\
    forall ok, forallb (fun l => eval ok (line_expr l)) ls = eval ok sample.
Proof.
  assert (Ht : Forall is_tag (tags sample)) by (repeat constructor; apply is_tag_ascii; done || (vm_compute; reflexivity)).
  assert (Hp : PlusBuildLines sample = Some [txt "// +build linux,go1.21,!cgo,!arm"]) by (vm_compute; reflexivity).
  split; [exact Ht|]. split; [exact Hp|]. exact (PlusBuildLines_sound sample _ Ht Hp).
Defined.

(** ** Versions *)

Lemma minVersion_bound ok v x : -1 <= v -> (forall t, ok t = true -> minVersion (TagExpr t) 1 <= v) ->
  (eval ok x = true -> minVersion x 1 <= v) /\ (eval ok x = false -> minVersion x (-1) <= v).
Proof.
  intros Hv Hok. induction x as [t|x IH|x IHx y IHy|x IHx y IHy]; cbn [eval minVersion].
  - split; [by apply Hok|done].
  - destruct IH as [H1 H2]. split; intros Hx; [apply H2; by apply negb_true_iff|apply H1; by apply negb_false_iff].
  - cbn. unfold andVersion, orVersion. destruct (eval ok x), (eval ok y); split; intros; try done; case_match; intuition lia.
  - cbn. unfold andVersion, orVersion. destruct (eval ok x), (eval ok y); split; intros; try done; case_match; intuition lia.
Qed.

(** the version that [GoVersion] computes is implied by the expression: if
    no satisfied tag names a version above [v], a satisfied expression has no
    minimal version above [v], whatever its negations. *)
Theorem GoVersion_implied ok v x :
  -1 <= v -> (forall t, ok t = true -> minVersion (TagExpr t) 1 <= v) ->
  eval ok x = true -> minVersion x 1 <= v.
Proof. intros Hv Hok. by apply minVersion_bound. Qed.

(** go1.21, with cgo or without go1.22 *)
Definition versioned : Expr :=
  AndExpr (TagExpr (txt "go1.21")) (OrExpr (TagExpr (txt "cgo")) (NotExpr (TagExpr (txt "go1.22")))).

Definition release_tags (t : text) : bool := existsb (fun u => bool_decide (t = u)) [txt "go1.20"; txt "go1.21"; txt "linux"].

Lemma GoVersion_implied_witness :
  -1 <= 21 /\ (forall t, release_tags t = true -> minVersion (TagExpr t) 1 <= 21) /\
  eval release_tags versioned = true /\ minVersion versioned 1 <= 21.
Proof.
  assert (Ht : forall t, release_tags t = true -> minVersion (TagExpr t) 1 <= 21).
  { intros t. unfold release_tags. cbn [existsb]. rewrite !orb_true_iff, !bool_decide_eq_true.
    intros [-> | [-> | [-> | H]]]; [vm_compute; discriminate..|done]. }
  split; [lia|]. split; [exact Ht|]. split; [vm_compute; reflexivity|].
  apply (GoVersion_implied release_tags 21 versioned); [lia|exact Ht|vm_compute; reflexivity].
Defined.

(** [GoVersion] of a release tag is this tag: the version that it reads
    from the tag is the version that it writes. *)
Theorem GoVersion_release n : 1 <= n < 2 ^ 63 ->
  GoVersion (TagExpr (txt "go1." ++ FormatInt n)) = txt "go1." ++ FormatInt n.
Proof.
  intros Hn. assert (Hv : minVersion (TagExpr (txt "go1." ++ FormatInt n)) 1 = n).
  { cbn [minVersion]. change (1 <? 0) with false. cbv iota. rewrite bool_decide_false by (by destruct (FormatInt n)).
    unfold Cut. rewrite Index_front.
    cbn [Z.leb Z.compare]. rewrite Z.add_0_l, slice_back. by rewrite Atoi_decimal by lia. }
  unfold GoVersion. rewrite Hv. cbv zeta. destruct (n <? 0) eqn:E1; [lia|]. by destruct (n =? 0) eqn:E2; [lia|].
Qed.

Lemma GoVersion_release_witness :
  1 <= 21 < 2 ^ 63 /\ GoVersion (TagExpr (txt "go1." ++ FormatInt 21)) = txt "go1." ++ FormatInt 21.
Proof. split; [lia|]. apply (GoVersion_release 21). lia. Defined.

(** A tag that only contains the text of a release tag counts as one, and an
    expression may give a line that is too complex to be read. *)
Example foreign_version : GoVersion (TagExpr (txt "cargo1.5")) = txt "go1.5".
Proof. vm_compute. reflexivity. Qed.
Example long_line :
  match PlusBuildLines (fold_left AndExpr (repeat (TagExpr (txt "a")) 101) (TagExpr (txt "b"))) with
  | Some [line] => Parse line = Panic EComplex
  | _ => False
  end.
Proof. vm_compute. reflexivity. Qed.
