(* ===== verification/Lexis.v ===== *)
(** * What the tokenizer recognises

    Keywords and the perfect hash, the separators of number literals, and
    the scanning of a word from the abstract stream. *)

From S2P Require Import Prelude Utf8 Unicode Format Tokens Source Stream Scanner ScannerFacts.

#[local] Open Scope go_scope.

(** ** Keywords *)

Lemma string_of_bytes_of_string s : string_of_bytes (bytes_of_string s) = s.
Proof.
  induction s as [|c s IH]; [done|]. cbn [bytes_of_string string_of_bytes]. rewrite IH. f_equal.
  unfold ascii_of_byte, byte_of_ascii. rewrite N2Z.id. apply Ascii.ascii_N_embedding.
Qed.

Lemma init_keywordMap_ok : init_keywordMap = Some keywordMap.
Proof. vm_compute. reflexivity. Qed.

(** Every keyword sits in its slot and has a name of two bytes or more. *)
Lemma keywords_check :
  forallb (fun t => tok_eqb (nthZ _None keywordMap (hash (bytes_of_string (token_String t)))) t &&
    (2 <=? lenZ (bytes_of_string (token_String t))) && String.eqb (tokStrFast t) (token_String t)) keywords = true.
Proof. vm_compute. reflexivity. Qed.

Lemma keywordMap_keywords :
  forallb (fun t => tok_eqb t _None || existsb (tok_eqb t) keywords) keywordMap = true.
Proof. vm_compute. reflexivity. Qed.

Lemma keywords_not_none t : In t keywords -> t <> _None.
Proof.
  intros Hin ->. assert (Hc : existsb (tok_eqb _None) keywords = false) by (vm_compute; reflexivity).
  rewrite <- not_true_iff_false in Hc. apply Hc, existsb_exists. exists _None. by split; [|apply tok_eqb_refl].
Qed.

Lemma keyword_lookup_complete t :
  In t keywords -> keyword_lookup (bytes_of_string (token_String t)) = Some t.
Proof.
  intros Hin. pose proof keywords_check as Hc. pose proof (keywords_not_none t Hin) as Hn.
  unfold keyword_lookup. generalize dependent keywordMap. intros m Hc.
  rewrite forallb_forall in Hc. specialize (Hc t Hin).
  apply andb_true_iff in Hc as [Hc Hs]. apply andb_true_iff in Hc as [Hh Hl].
  apply String.eqb_eq in Hs. apply tok_eqb_eq in Hh. rewrite Hl, Hh, Hs.
  rewrite (proj2 (tok_eqb_neq _ _) Hn), string_of_bytes_of_string. cbn [negb andb].
  by rewrite bool_decide_true.
Qed.

Lemma keyword_lookup_sound l t :
  Forall is_byte l -> keyword_lookup l = Some t ->
  In t keywords /\ l = bytes_of_string (token_String t).
Proof.
  intros Hl Hk. destruct (keyword_lookup_token l t Hk) as [Hn _].
  assert (Hin : In t keywords /\ tokStrFast t = string_of_bytes l).
  { revert Hk. pose proof keywordMap_keywords as Hc. unfold keyword_lookup.
    generalize dependent keywordMap. intros m Hc Hk. rewrite forallb_forall in Hc.
    case_test_in Hk; [|done]. cbv zeta in Hk. case_test_in Hk; [|done]. injection Hk as Hk.
    apply andb_true_iff in Heqb0 as [_ Hs]. apply bool_decide_eq_true in Hs. rewrite Hk in Hs.
    split; [|done]. destruct (nth_in_or_default (Z.to_nat (hash l)) m _None) as [Hi|Hd];
      unfold nthZ in Hk; case_test_in Hk; try congruence. rewrite Hk in Hi. specialize (Hc t Hi).
    apply orb_true_iff in Hc as [Hc|Hc]; [by apply tok_eqb_eq in Hc|].
    apply existsb_exists in Hc as (t' & Ht' & He). apply tok_eqb_eq in He. congruence. }
  destruct Hin as [Hin Hs]. split; [done|].
  pose proof keywords_check as Hc. generalize dependent keywordMap. intros m Hc.
  rewrite forallb_forall in Hc. specialize (Hc t Hin). apply andb_true_iff in Hc as [_ Hc].
  apply String.eqb_eq in Hc. rewrite <- Hc, Hs. by rewrite bytes_of_string_of_bytes.
Qed.

(** the keyword hash is perfect and the keyword lookup is exact: filling
    the map never finds a slot taken, and a byte string is looked up as the
    keyword [t] exactly when it is the name of [t]. *)
Theorem keyword_lookup_exact l t :
  Forall is_byte l ->
  init_keywordMap = Some keywordMap /\
  (keyword_lookup l = Some t <-> In t keywords /\ l = bytes_of_string (token_String t)).
Proof.
  intros Hl. split; [exact init_keywordMap_ok|]. split.
  - by apply keyword_lookup_sound.
  - intros [Hin ->]. by apply keyword_lookup_complete.
Qed.

Lemma keyword_lookup_exact_witness :
  init_keywordMap = Some keywordMap /\
  (keyword_lookup [101; 110; 117; 109] = Some _Enum <->
   In _Enum keywords /\ [101; 110; 117; 109] = bytes_of_string (token_String _Enum)).
Proof. apply keyword_lookup_exact. repeat constructor; unfold is_byte; try discriminate. Defined.

(** ** Separators *)

(** The prefix character of a number literal, and whether it counts. *)
Definition radix_char (x : list byte) : rune :=
  match x with
  | c0 :: c1 :: _ => if c0 =? "0"%rune then lower c1 else " "%rune
  | _ => " "%rune
  end.
Definition has_prefix (x : list byte) : bool :=
  existsb (Z.eqb (radix_char x)) ["x"%rune; "o"%rune; "b"%rune].

Definition sep_digit (x1 : rune) (c : byte) : bool := isDecimal c || (x1 =? "x"%rune) && isHex c.

(** The byte at [i] is a separator that no digit precedes (a radix prefix
    counts as a digit; [p] says it for the first byte), or that neither a
    digit nor another separator follows. *)
Definition bad_at (x1 : rune) (p : bool) (x : list byte) (i : nat) : Prop :=
  x !! i = Some "_"%rune /\
  (match i with O => p | S j => default false (sep_digit x1 <$> x !! j) end = false \/
   default false ((fun c => sep_digit x1 c || (c =? "_"%rune)) <$> x !! S i) = false).

Definition bad_separator (x : list byte) (i : nat) : Prop :=
  if has_prefix x then exists j, i = S (S j) /\ bad_at (radix_char x) true (drop 2 x) j
  else bad_at (radix_char x) false x i.

(** [r] is the index of the first [i] with [P], or -1. *)
Definition first_index (P : nat -> Prop) (r : Z) : Prop :=
  (r = -1 /\ forall i, ~ P i) \/
  (exists i, r = Z.of_nat i /\ P i /\ forall j, (j < i)%nat -> ~ P j).

Lemma sep_not_digit x1 : sep_digit x1 "_"%rune = false.
Proof. unfold sep_digit. by destruct (x1 =? "x"%rune). Qed.

Lemma bad_at_cons x1 p c x i :
  bad_at x1 p (c :: x) (S i) <-> bad_at x1 (sep_digit x1 c) x i.
Proof. unfold bad_at. by destruct i. Qed.

(** The loop reports the separator before the current byte when that byte does
    not continue the literal ([pending]), else the first bad one that follows. *)
Lemma invalidSep_loop_spec x1 x : forall d i, 0 <= i ->
  d = "0"%rune \/ d = "_"%rune \/ d = "."%rune ->
  let pending := d = "_"%rune /\
    default false ((fun c => sep_digit x1 c || (c =? "_"%rune)) <$> x !! O) = false in
  let r := invalidSep_loop x1 d i x in
  (pending -> r = i - 1) /\
  (~ pending ->
     (r = -1 /\ forall j, ~ bad_at x1 (d =? "0"%rune) x j) \/
     (exists j, r = i + Z.of_nat j /\ bad_at x1 (d =? "0"%rune) x j /\
        forall k, (k < j)%nat -> ~ bad_at x1 (d =? "0"%rune) x k)).
Proof.
  induction x as [|c x IH]; intros d i Hi Hd; cbn [invalidSep_loop lookup list_lookup].
  { destruct Hd as [->|[->| ->]]; cbn; (split; [intros []; done || lia|]); intros Hp.
    - left. split; [done|]. by intros j [? _].
    - destruct Hp. by split.
    - left. split; [done|]. by intros j [? _]. }
  assert (Hstep : forall d', d' = "0"%rune \/ d' = "_"%rune \/ d' = "."%rune ->
    (d' =? "0"%rune) = sep_digit x1 c ->
    (d' = "_"%rune -> c = "_"%rune) -> (c = "_"%rune -> d' = "_"%rune /\ d = "0"%rune) ->
    (invalidSep_loop x1 d' (i + 1) x = -1 /\ forall j, ~ bad_at x1 (d =? "0"%rune) (c :: x) j) \/
    (exists j, invalidSep_loop x1 d' (i + 1) x = i + Z.of_nat j /\ bad_at x1 (d =? "0"%rune) (c :: x) j /\
        forall k, (k < j)%nat -> ~ bad_at x1 (d =? "0"%rune) (c :: x) k)).
  { intros d' Hd' Hs Hu Hc. specialize (IH d' (i + 1) ltac:(lia) Hd').
    set (nxt := default false ((fun c => sep_digit x1 c || (c =? "_"%rune)) <$> x !! O)) in *.
    assert (H0 : bad_at x1 (d =? "0"%rune) (c :: x) O <-> d' = "_"%rune /\ nxt = false).
    { unfold bad_at. cbn [lookup list_lookup]. split.
      - intros [[= ->] Hor]. destruct (Hc eq_refl) as [-> ->]. split; [done|].
        destruct Hor as [?|Hor]; [done|exact Hor].
      - intros [Hd1 Hn]. split; [by rewrite Hu|]. by right. }
    cbv zeta in IH. destruct IH as [IH1 IH2].
    destruct (decide (d' = "_"%rune /\ nxt = false)) as [Hp|Hp].
    - right. exists O. rewrite (IH1 Hp). split; [lia|]. split; [by apply H0|]. lia.
    - destruct (IH2 Hp) as [[Hr Hn]|(j & Hr & Hb & Hm)].
      + left. split; [done|]. intros [|j]; [by rewrite H0|]. rewrite bad_at_cons, <- Hs. apply Hn.
      + right. exists (S j). rewrite Hr. split; [lia|]. split; [by rewrite bad_at_cons, <- Hs|].
        intros [|k] Hk; [by rewrite H0|]. rewrite bad_at_cons, <- Hs. apply Hm. lia. }
  cbv zeta. cbn [default fmap option_fmap option_map].
  destruct (c =? "_"%rune) eqn:Ec.
  - apply Z.eqb_eq in Ec. subst c. rewrite orb_true_r. split; [by intros [_ ?]|]. intros _.
    destruct (d =? "0"%rune) eqn:E0; cbn [negb].
    + apply Z.eqb_eq in E0. subst d. apply Hstep; [auto|by rewrite sep_not_digit|done|done].
    + right. exists O. split; [lia|]. split; [|lia]. split; [done|]. by left.
  - apply Z.eqb_neq in Ec. rewrite orb_false_r. fold (sep_digit x1 c).
    destruct (sep_digit x1 c) eqn:Es.
    + split; [by intros [_ ?]|]. intros _. apply Hstep; [auto|done|done|done].
    + destruct (d =? "_"%rune) eqn:Ed.
      * split; [done|]. intros Hp. destruct Hp. by split; [apply Z.eqb_eq|].
      * split; [intros [-> _]; done|]. intros _. apply Hstep; [auto|done|done|done].
Qed.

Lemma invalidSep_unfold x :
  invalidSep x =
  if has_prefix x then invalidSep_loop (radix_char x) "0"%rune 2 (drop 2 x)
  else invalidSep_loop (radix_char x) "."%rune 0 x.
Proof.
  unfold invalidSep, has_prefix, radix_char. destruct x as [|c0 [|c1 x]]; [done..|].
  rewrite !lenZ_cons, nthZ_0, nthZ_1. pose proof (lenZ_nonneg x).
  rewrite (proj2 (Z.leb_le 2 _)) by lia. cbn [andb existsb]. 
  destruct (c0 =? "0"%rune); cbn [andb]; [|done].
  rewrite orb_false_r, orb_assoc. done.
Qed.

(** [invalidSep] returns the index of the first misplaced separator of the
    literal, and -1 exactly when there is none. *)
Theorem invalidSep_first x : first_index (bad_separator x) (invalidSep x).
Proof.
  rewrite invalidSep_unfold. unfold first_index, bad_separator. destruct (has_prefix x).
  - destruct (invalidSep_loop_spec (radix_char x) (drop 2 x) "0"%rune 2) as [_ H]; [lia|auto|].
    destruct H as [[-> H]|(j & -> & Hb & Hm)]; [by intros [? _]| |].
    + left. split; [done|]. intros i (j & -> & Hj). by apply (H j).
    + right. exists (S (S j)). split; [lia|]. split; [by exists j|].
      intros k Hk (k' & -> & Hb'). apply (Hm k'); [lia|done].
  - destruct (invalidSep_loop_spec (radix_char x) x "."%rune 0) as [_ H]; [lia|auto|].
    destruct H as [[-> H]|(j & -> & Hb & Hm)]; [by intros [? _]| |].
    + left. by split.
    + right. exists j. split; [lia|]. by split.
Qed.

(** ** Words *)

Definition ident_char (c : rune) : bool := isLetter c || isDecimal c.

(** The spellings of operators that are words. *)
Definition word_ops : list (string * Operator) :=
  [("not", Not); ("and", AndAnd); ("or", OrOr)]%string.

(** The token of an ASCII word. *)
Record word_token (w : string) (s : scanner stream) : Prop := {
  wt_keyword k : In k keywords -> w = token_String k -> tok s = k;
  wt_op o : In (w, o) word_ops -> tok s = _Operator /\ op s = o /\ prec s = op_prec o;
  wt_name : (forall k, In k keywords -> w <> token_String k) -> (forall o, ~ In (w, o) word_ops) ->
    tok s = _Name /\ lit s = w /\ nlsemi s = true
}.

Lemma st_nextch_ascii st c l :
  rest st = Byte c :: l -> 0 < c < RuneSelf -> Forall is_byte (bytes_prefix l) ->
  st_nextch st = Ok (tt, st_take c 1 (st_advance st), []).
Proof.
  intros Hr Hc Hl. unfold st_nextch. rewrite bind_gets. cbn [iterM]. unfold bind at 1.
  rewrite st_round_eq. unfold st_tail. rewrite bind_gets. cbn [id].
  assert (Hra : rest (st_advance st) = Byte c :: l)
    by (unfold st_advance; cbn [st_ch set_st_col]; by case_test).
  rewrite Hra. cbn [bytes_prefix]. unfold RuneSelf in Hc.
  rewrite decode_ascii; [|constructor; [unfold is_byte; lia|done]|unfold RuneSelf; lia].
  rewrite bind_modify. unfold RuneError, BOM.
  rewrite (proj2 (Z.eqb_neq c 0xFFFD)), (proj2 (Z.eqb_neq c 0xFEFF)) by lia. done.
Qed.

(** The stream stands at the one-byte character [c] of a segment [p], with
    [l] still to read. *)
Record reading (p : list byte) (c : rune) (l : list item) (st : stream) : Prop := {
  rd_ch : st_ch st = c;
  rd_chw : st_chw st = 1;
  rd_rest : rest st = l;
  rd_pre : pre st = Some p
}.

Lemma reading_next p c c' l st :
  reading p c (Byte c' :: l) st -> 0 < c' < RuneSelf -> Forall is_byte (bytes_prefix l) ->
  exists st', st_nextch st = Ok (tt, st', []) /\ reading (p ++ [c']) c' l st'.
Proof.
  intros [Hc Hw Hr Hp] Hc' Hl. eexists. split; [by eapply st_nextch_ascii|].
  assert (Ha : rest (st_advance st) = rest st /\ pre (st_advance st) = pre st)
    by (unfold st_advance; cbn [st_ch set_st_col]; by case_test).
  destruct Ha as [Ha1 Ha2]. unfold st_take. by split; cbn; rewrite ?Ha1, ?Ha2, ?Hr, ?Hp.
Qed.

Lemma lift_nextch (s : scanner stream) st' :
  st_nextch (source_ s) = Ok (tt, st', []) -> nextch s = Ok (tt, set_source_ st' s, []).
Proof. intros Hn. unfold nextch, lift. cbn [src_nextch stream_source]. by rewrite Hn. Qed.

Lemma bytes_prefix_word w d l :
  Forall (fun c => 0 < c < RuneSelf) w -> 0 < d < RuneSelf -> Forall is_byte (bytes_prefix l) ->
  Forall is_byte (bytes_prefix (map Byte (w ++ [d]) ++ l)).
Proof.
  intros Hw Hd Hl. rewrite bytes_prefix_app. apply Forall_app. split; [|done].
  apply Forall_app. unfold RuneSelf, is_byte in *. split.
  - refine (List.Forall_impl _ _ Hw). cbn. lia.
  - repeat constructor; lia.
Qed.

(** The loop of [ident] over the rest [w] of a word, up to the delimiter [d]. *)
Lemma skip_word w d l : forall n p c (s : scanner stream),
  Forall (fun x => ident_char x = true /\ 0 < x < RuneSelf) w -> ident_char c = true ->
  ident_char d = false -> 0 < d < RuneSelf -> Forall is_byte (bytes_prefix l) ->
  reading p c (map Byte (w ++ [d]) ++ l) (source_ s) -> (S (length w) < n)%nat ->
  exists st', iterM n (fun _ : unit => bind (gets (fun s => ident_char (ch s))) (fun b =>
      if b then nextch;;; ret (inl tt) else ret (inr tt))) tt s = Ok (tt, set_source_ st' s, []) /\
    reading (p ++ w ++ [d]) d l st'.
Proof.
  induction w as [|x w IH]; intros n p c s Hw Hc Hd Hdr Hl Hr Hn.
  - destruct (reading_next p c d l _ Hr Hdr Hl) as (st' & Hst & Hr'). exists st'.
    destruct n as [|[|n]]; [cbn in Hn; lia..|]. cbn [iterM].
    rewrite bind_assoc, bind_gets. unfold ch at 1. cbn [src_ch stream_source].
    rewrite (rd_ch _ _ _ _ Hr), Hc, bind_assoc, (bind_Ok _ _ _ _ _ _ (lift_nextch s st' Hst)), bind_ret.
    rewrite bind_assoc, bind_gets. unfold ch. cbn [src_ch stream_source source_ set_source_].
    rewrite (rd_ch _ _ _ _ Hr'), Hd, bind_ret. split; [done|exact Hr'].
  - inversion_clear Hw as [|? ? [Hx Hxr] Hw'].
    assert (Hl' : Forall is_byte (bytes_prefix (map Byte (w ++ [d]) ++ l))).
    { apply bytes_prefix_word; try done. refine (List.Forall_impl _ _ Hw'). by intros ? []. }
    destruct (reading_next p c x _ _ Hr Hxr Hl') as (st1 & Hst & Hr1).
    destruct n as [|n]; [lia|]. cbn [length] in Hn.
    destruct (IH n (p ++ [x]) x (set_source_ st1 s)) as (st' & Hit & Hr'); try done; [lia|].
    exists st'. cbn [iterM]. rewrite bind_assoc, bind_gets. unfold ch at 1. cbn [src_ch stream_source].
    rewrite (rd_ch _ _ _ _ Hr), Hc, bind_assoc, (bind_Ok _ _ _ _ _ _ (lift_nextch s st1 Hst)), bind_ret.
    rewrite Hit. split; [done|]. by rewrite <- app_assoc in Hr'.
Qed.

(** What [ident_token] makes of an ASCII word. *)
Lemma ident_token_word w (s : scanner stream) :
  Forall is_byte w -> nlsemi s = false ->
  (forall x, x ∈ w -> x < RuneSelf) ->
  exists s', ident_token w s = Ok (tt, s', []) /\ source_ s' = source_ s /\
    (line s', col s') = (line s, col s) /\ word_token (string_of_bytes w) s'.
Proof.
  intros Hw Hn Hlow. unfold ident_token.
  assert (Hne : forall u x, x ∈ bytes_of_string u -> RuneSelf <= x -> string_of_bytes w <> u).
  { intros u x Hx Hge <-. rewrite bytes_of_string_of_bytes in Hx by done. specialize (Hlow x Hx). lia. }
  assert (Hops : forall k o, In k keywords -> ~ In (token_String k, o) word_ops).
  { intros k o Hk Ho. assert (Hc : forallb (fun k => negb (existsb (fun p => String.eqb (token_String k) p.1) word_ops))
      keywords = true) by (vm_compute; reflexivity).
    rewrite forallb_forall in Hc. specialize (Hc k Hk). apply negb_true_iff in Hc.
    rewrite <- not_true_iff_false in Hc. apply Hc, existsb_exists. eexists. split; [exact Ho|].
    cbn [fst]. apply String.eqb_refl. }
  destruct (keyword_lookup w) as [k|] eqn:Ek.
  - apply keyword_lookup_sound in Ek as [Hk ->]; [|done].
    eexists. split; [reflexivity|]. split; [done|]. split; [done|].
    rewrite string_of_bytes_of_string. split.
    + intros k' Hk' Heq. pose proof (keyword_lookup_complete k' Hk') as H1.
      rewrite <- Heq, keyword_lookup_complete in H1 by done. by injection H1.
    + intros o Ho. by apply Hops in Ho.
    + intros Hno. by destruct (Hno k Hk).
  - assert (Hnk : forall k, In k keywords -> string_of_bytes w <> token_String k).
    { intros k Hk Heq. pose proof (keyword_lookup_complete k Hk) as H1.
      rewrite <- Heq, bytes_of_string_of_bytes, Ek in H1; done. }
    cbv zeta.
    rewrite (bool_decide_false (string_of_bytes w = "ø"%string))
      by (apply (Hne _ 0xC3); [by left|unfold RuneSelf; lia]).
    rewrite (bool_decide_false (string_of_bytes w = "≠"%string))
      by (apply (Hne _ 0xE2); [by left|unfold RuneSelf; lia]).
    rewrite (bool_decide_false (string_of_bytes w = "¬"%string))
      by (apply (Hne _ 0xC2); [by left|unfold RuneSelf; lia]).
    cbn [keyword_lookup]. generalize dependent (string_of_bytes w). intros u Hne Hnk.
    destruct (bool_decide (u = "not"%string)) eqn:E1; [|destruct (bool_decide (u = "and"%string)) eqn:E2;
      [|destruct (bool_decide (u = "or"%string)) eqn:E3]];
      repeat match goal with
      | H : bool_decide _ = true |- _ => apply bool_decide_eq_true in H
      | H : bool_decide _ = false |- _ => apply bool_decide_eq_false in H
      end; (eexists; split; [reflexivity|]; split; [done|]; split; [done|]; split);
      try (intros k Hk Heq; by apply Hnk in Heq); cbn [set_tok set_lit set_nlsemi set_op set_prec tok lit nlsemi op prec].
    all: try (subst u; intros o [[= <-]|[[= <-]|[[= <-]|[]]]]; done).
    all: try (intros _ Hno; exfalso; subst u; eapply Hno; cbn; eauto; fail).
    + intros o [[= <- _]|[[= <- _]|[[= <- _]|[]]]]; done.
    + done.
Qed.

Lemma lift_segment p c l (s : scanner stream) :
  reading (p ++ [c]) c l (source_ s) -> segment s = Ok (p, s, []).
Proof.
  intros [Hc Hw Hr Hp]. unfold segment, lift. cbn [src_segment stream_source].
  unfold st_segment. rewrite bind_gets. cbn [id]. rewrite Hp, Hw. unfold ret.
  rewrite lenZ_app. change (lenZ [c]) with 1.
  replace (lenZ p + 1 - 1) with (lenZ p) by lia.
  rewrite slice_app_l by (pose proof (lenZ_nonneg p); lia). rewrite slice_full by done.
  by destruct s.
Qed.

Lemma ident_char_blank c : isLetter c = true ->
  forall b, (c =? " "%rune) || (c =? 9) || (c =? 10) && b || (c =? 13) = false.
Proof.
  intros Hc b. revert Hc. unfold isLetter. intros Hc. apply orb_true_iff in Hc as [Hc|Hc].
  - apply andb_true_iff in Hc as [H1 H2]. apply Z.leb_le in H1, H2.
    pose proof (lower_letter c) as Hl. lia.
  - lia.
Qed.

(** A loop whose condition fails at once. *)
Lemma skip_while_none cond (s : scanner stream) : cond (ch s) = false -> skip_while cond s = Ok (tt, s, []).
Proof.
  intros Hc. unfold skip_while, whileM. rewrite bind_gets. unfold rounds. cbn [iterM].
  rewrite bind_assoc, bind_gets, Hc, bind_ret. done.
Qed.

Lemma ident_word w d l p c (s : scanner stream) :
  Forall (fun x => ident_char x = true /\ 0 < x < RuneSelf) w -> ident_char c = true ->
  ident_char d = false -> 0 < d < RuneSelf -> Forall is_byte (bytes_prefix l) -> 
  reading p c (map Byte (w ++ [d]) ++ l) (source_ s) ->
  exists st', reading (p ++ w ++ [d]) d l st' /\
    ident s = ident_token (p ++ w) (set_source_ st' s).
Proof.
  intros Hw Hc Hd Hdr Hl Hr. pose proof (rd_rest _ _ _ _ Hr) as Hrest.
  destruct (skip_word w d l (rounds s) p c s) as (st' & Hit & Hr'); try done.
  { unfold rounds. cbn [src_left stream_source]. unfold st_left.
    rewrite Hrest, length_app, length_map, length_app. cbn [length]. lia. }
  exists st'. split; [exact Hr'|].
  assert (Hskip : skip_while (fun c => isLetter c || isDecimal c) s = Ok (tt, set_source_ st' s, [])).
  { unfold skip_while, whileM. rewrite bind_gets. exact Hit. }
  unfold ident. rewrite (bind_Ok _ _ _ _ _ _ Hskip), bind_gets. unfold ch at 1. sc_simpl.
  cbn [src_ch stream_source]. rewrite (rd_ch _ _ _ _ Hr'). unfold RuneSelf in *.
  rewrite (proj2 (Z.leb_gt 128 d)), bind_ret by lia.
  rewrite (bind_Ok _ _ _ _ _ _ (lift_segment (p ++ w) d l (set_source_ st' s) ltac:(by rewrite <- app_assoc))).
  destruct (ident_token (p ++ w) (set_source_ st' s)) as [[[a s'] t]| |]; done.
Qed.

(** A round of [next] that starts at a word. *)
Lemma next_round_word n (s : scanner stream) c w d l :
  isLetter c = true -> Forall (fun x => ident_char x = true /\ 0 < x < RuneSelf) (c :: w) ->
  ident_char d = false -> 0 < d < RuneSelf -> Forall is_byte (bytes_prefix l) ->
  st_ch (source_ s) = c -> st_chw (source_ s) = 1 -> cur (source_ s) = [c] ->
  rest (source_ s) = map Byte (w ++ [d]) ++ l -> nlsemi s = false ->
  exists s', next_round n s = Ok (inr tt, s', []) /\ word_token (string_of_bytes (c :: w)) s' /\
    (line s', col s') = st_pos (source_ s) /\ st_ch (source_ s') = d /\ rest (source_ s') = l.
Proof.
  intros Hc Hw Hd Hdr Hl Hch Hchw Hcur Hrest Hn.
  apply List.Forall_cons_iff in Hw as [[Hic Hcr] Hw'].
  unfold next_round. unfold stop at 1. rewrite bind_modify.
  set (s1 := set_source_ (src_stop (source_ s)) s). rewrite bind_gets.
  assert (Hp1 : pos s1 = st_pos (source_ s)) by done.
  destruct (st_pos (source_ s)) as [l0 c0] eqn:Epos. rewrite Hp1.
  assert (Hsk : skip_while (fun c => (c =? " "%rune) || (c =? 9) || (c =? 10) && negb n || (c =? 13)) s1
    = Ok (tt, s1, [])).
  { apply skip_while_none. change (ch s1) with (st_ch (source_ s)). rewrite Hch. by apply ident_char_blank. }
  rewrite (bind_Ok _ _ _ _ _ _ Hsk), bind_gets, Hp1, !bind_modify. unfold start. rewrite bind_modify.
  set (s2 := set_source_ _ _).
  assert (Hs2 : source_ s2 = st_start (st_stop (source_ s)) /\ nlsemi s2 = false /\ (line s2, col s2) = (l0, c0))
    by done.
  destruct Hs2 as (Hsrc & Hn2 & Hpos2). clearbody s2. rewrite bind_gets. unfold ch. rewrite Hsrc.
  change (src_ch (st_start (st_stop (source_ s)))) with (st_ch (source_ s)). rewrite Hch, Hc, bind_ret.
  assert (Hr : reading [c] c (map Byte (w ++ [d]) ++ l) (source_ s2)).
  { rewrite Hsrc. split; [done|done|done|]. cbn. by rewrite Hcur. }
  destruct w as [|x w].
  - destruct (reading_next _ _ d l _ Hr Hdr Hl) as (st' & Hst & Hr').
    rewrite (bind_Ok _ _ _ _ _ _ (lift_nextch s2 st' Hst)).
    assert (Hid : ident (set_source_ st' s2) = ident_token [c] (set_source_ st' s2)).
    { unfold ident. assert (Hskip : skip_while (fun c => isLetter c || isDecimal c) (set_source_ st' s2)
        = Ok (tt, set_source_ st' s2, [])).
      { apply skip_while_none. unfold ch. cbn. by rewrite (rd_ch _ _ _ _ Hr'). }
      rewrite (bind_Ok _ _ _ _ _ _ Hskip), bind_gets. unfold ch at 1. sc_simpl. cbn [src_ch stream_source].
      rewrite (rd_ch _ _ _ _ Hr'). unfold RuneSelf in *. rewrite (proj2 (Z.leb_gt 128 d)), bind_ret by lia.
      rewrite (bind_Ok _ _ _ _ _ _ (lift_segment [c] d l (set_source_ st' s2) Hr')).
      destruct (ident_token [c] (set_source_ st' s2)) as [[[a s'] t]| |]; done. }
    destruct (ident_token_word [c] (set_source_ st' s2)) as (s' & Hit & Hs' & Hp' & Hwt).
    { repeat constructor; unfold RuneSelf in *; lia. }
    { done. }
    { intros y Hy. apply list_elem_of_singleton in Hy as ->. lia. }
    exists s'. rewrite (bind_Ok _ _ _ _ _ _ (eq_trans Hid Hit)). split; [done|].
    split; [done|]. rewrite Hp', Hs'. sc_simpl. by destruct Hr' as [-> _ -> _].
  - apply List.Forall_cons_iff in Hw' as [[Hx Hxr] Hw2].
    assert (Hl' : Forall is_byte (bytes_prefix (map Byte (w ++ [d]) ++ l))).
    { apply bytes_prefix_word; try done. refine (List.Forall_impl _ _ Hw2). by intros ? []. }
    destruct (reading_next _ _ x _ _ Hr Hxr Hl') as (st' & Hst & Hr').
    rewrite (bind_Ok _ _ _ _ _ _ (lift_nextch s2 st' Hst)).
    destruct (ident_word w d l ([c] ++ [x]) x (set_source_ st' s2)) as (st2 & Hr2 & Hid); try done.
    destruct (ident_token_word (([c] ++ [x]) ++ w) (set_source_ st2 (set_source_ st' s2)))
      as (s' & Hit & Hs' & Hp' & Hwt).
    { unfold RuneSelf in *. repeat (constructor; [unfold is_byte; lia|]). refine (List.Forall_impl _ _ Hw2).
      cbn. unfold is_byte. lia. }
    { done. }
    { intros y Hy. cbn [app] in Hy. rewrite !elem_of_cons in Hy.
      destruct Hy as [->|[->|Hy]]; [lia|lia|]. apply list_elem_of_In in Hy.
      rewrite List.Forall_forall in Hw2. by apply Hw2 in Hy as [_ [_ ?]]. }
    exists s'. rewrite (bind_Ok _ _ _ _ _ _ (eq_trans Hid Hit)). split; [done|].
    split; [done|]. rewrite Hp', Hs'. sc_simpl. by destruct Hr2 as [-> _ -> _].
Qed.

(** scanning a word: from its first character, [next] reads exactly the
    word, reports nothing, records the position of the first character and
    leaves the keyword, the word operator ([not], [and], [or]) or the name that
    the word spells. *)
Theorem scan_word (s : scanner stream) c w d l :
  isLetter c = true -> Forall (fun x => ident_char x = true /\ 0 < x < RuneSelf) (c :: w) ->
  ident_char d = false -> 0 < d < RuneSelf -> Forall is_byte (bytes_prefix l) ->
  st_ch (source_ s) = c -> st_chw (source_ s) = 1 -> cur (source_ s) = [c] ->
  rest (source_ s) = map Byte (w ++ [d]) ++ l ->
  exists s', next s = Ok (tt, s', []) /\ word_token (string_of_bytes (c :: w)) s' /\
    (line s', col s') = st_pos (source_ s) /\ st_ch (source_ s') = d /\ rest (source_ s') = l.
Proof.
  intros Hc Hw Hd Hdr Hl Hch Hchw Hcur Hrest.
  destruct (next_round_word (nlsemi s) (set_nlsemi false s) c w d l) as (s' & Hs' & H); try done.
  exists s'. split; [|exact H]. unfold next. rewrite bind_gets, bind_modify. unfold loopM.
  rewrite bind_gets. unfold rounds. cbn [iterM]. by rewrite (bind_Ok _ _ _ _ _ _ Hs').
Qed.

(** The reader at the start of [text], standing at its first character. *)
Definition at_text (text : string) : scanner stream :=
  match nextch (init (st_init (map Byte (bytes_of_string text))) directives) with
  | Ok (_, s, _) => s
  | _ => init (st_init []) 0
  end.

Lemma scan_word_witness :
  exists s', next (at_text "return+1") = Ok (tt, s', []) /\ word_token "return" s' /\
    (line s', col s') = (1, 1) /\ st_ch (source_ s') = "+"%rune /\
    rest (source_ s') = map Byte (bytes_of_string "1").
Proof.
  destruct (scan_word (at_text "return+1") "r"%rune (bytes_of_string "eturn") "+"%rune
    (map Byte (bytes_of_string "1"))) as (s' & H).
  - reflexivity.
  - change (bytes_of_string "eturn") with [101; 116; 117; 114; 110].
    unfold RuneSelf. repeat (constructor; [split; [reflexivity|lia]|]). constructor.
  - reflexivity.
  - unfold RuneSelf. lia.
  - change (Forall is_byte [49]). constructor; [unfold is_byte; lia|constructor].
  - vm_compute. reflexivity.
  - vm_compute. reflexivity.
  - vm_compute. reflexivity.
  - vm_compute. reflexivity.
  - exists s'. exact H.
Defined.

(** the messages of comments do not always start with a slash, as the
    handler of the parser expects: a number sign in the first column starts a
    comment, and when its text looks like a directive the handler is called
    with a message that starts with '#', which it takes for an error. *)
Theorem hash_comment_is_no_comment_msg :
  match next (at_text "#line 10") with
  | Ok (_, s', t) => tok s' = _EOF /\ t = [(1, 1, "#line 10"%string, true)] /\ comment_msg "#line 10" = false
  | _ => False
  end.
Proof. vm_compute. split; [reflexivity|]. split; reflexivity. Qed.

(** the characters for != and ! are accepted inside identifiers: without
    spaces, the comparison a≠b scans as the single name "a≠b". *)
Theorem neq_inside_identifier :
  match next (at_text "a≠b ") with
  | Ok (_, s', t) => tok s' = _Name /\ lit s' = "a≠b"%string /\ t = []
  | _ => False
  end.
Proof. vm_compute. split; [reflexivity|]. split; reflexivity. Qed.
