(* ===== verification/Pos.v ===== *)
(** * src/src/cmd/compile/internal/syntax/pos.go: positions

    Positions with their position bases: a file base is relative to itself, a
    line base (from a line directive) to the position after the directive.
    Line and column values are 32 bits wide and saturate at [PosMax]. *)

From S2P Require Import Prelude Format Source.

#[local] Open Scope go_scope.

Definition PosMax : Z := Z.shiftl 1 30.

(** A [*PosBase] is an [option PosBase].  The cycle of a file base, whose
    position has the base itself, is implicit in [FileBase]. *)
Inductive PosBase : Type :=
| FileBase (filename : string) (trimmed : bool)
| LineBase (pos : Pos) (filename : string) (trimmed : bool) (line col : Z)
with Pos : Type :=
| mkPos (base : option PosBase) (line col : Z).

(** The zero value. *)
Definition noPos : Pos := mkPos None 0 0.

Definition sat32 (x : Z) : Z := if PosMax <? x then PosMax else u32 x.

Definition MakePos (base : option PosBase) (line col : Z) : Pos := mkPos base (sat32 line) (sat32 col).

Definition Base (pos : Pos) : option PosBase := match pos with mkPos b _ _ => b end.
Definition Line (pos : Pos) : Z := match pos with mkPos _ l _ => l end.
Definition Col (pos : Pos) : Z := match pos with mkPos _ _ c => c end.
Definition IsKnown (pos : Pos) : bool := 0 <? Line pos.

Definition NewTrimmedFileBase (filename : string) (trimmed : bool) : PosBase := FileBase filename trimmed.
Definition NewFileBase (filename : string) : PosBase := NewTrimmedFileBase filename false.
Definition NewLineBase (pos : Pos) (filename : string) (trimmed : bool) (line col : Z) : PosBase :=
  LineBase pos filename trimmed (sat32 line) (sat32 col).

Definition IsFileBase (base : option PosBase) : bool :=
  match base with Some (FileBase _ _) => true | _ => false end.

(** The accessors of [*PosBase], which accept nil. *)
Definition base_Pos (base : option PosBase) : Pos :=
  match base with
  | None => noPos
  | Some (FileBase f t) => mkPos base linebase colbase
  | Some (LineBase pos _ _ _ _) => pos
  end.
Definition base_Filename (base : option PosBase) : string :=
  match base with
  | None => ""
  | Some (FileBase f _) => f
  | Some (LineBase _ f _ _ _) => f
  end.
Definition base_Line (base : option PosBase) : Z :=
  match base with
  | None => 0
  | Some (FileBase _ _) => linebase
  | Some (LineBase _ _ _ l _) => l
  end.
Definition base_Col (base : option PosBase) : Z :=
  match base with
  | None => 0
  | Some (FileBase _ _) => colbase
  | Some (LineBase _ _ _ _ c) => c
  end.
Definition base_Trimmed (base : option PosBase) : bool :=
  match base with
  | None => false
  | Some (FileBase _ t) => t
  | Some (LineBase _ _ t _ _) => t
  end.

(** [pos.FileBase()]: follow the bases of line directives down to a file. *)
Fixpoint file_base (b : PosBase) : option PosBase :=
  match b with
  | FileBase _ _ => Some b
  | LineBase (mkPos b' _ _) _ _ _ _ =>
      match b' with
      | None => None
      | Some b' => file_base b'
      end
  end.
Definition pos_FileBase (pos : Pos) : option PosBase :=
  match Base pos with None => None | Some b => file_base b end.

Definition RelFilename (pos : Pos) : string := base_Filename (Base pos).

Definition RelLine (pos : Pos) : Z :=
  let b := Base pos in
  if base_Line b =? 0 then 0
  else u64 (base_Line b + u64 (Line pos - Line (base_Pos b))).

Definition RelCol (pos : Pos) : Z :=
  let b := Base pos in
  if base_Col b =? 0 then 0
  else if Line pos =? Line (base_Pos b) then u64 (base_Col b + u64 (Col pos - Col (base_Pos b)))
  else Col pos.

(** The order of Go strings. *)
Fixpoint bytes_ltb (a b : list byte) : bool :=
  match a, b with
  | _, [] => false
  | [], _ :: _ => true
  | x :: a', y :: b' => (x <? y) || (x =? y) && bytes_ltb a' b'
  end.
Definition string_ltb (a b : string) : bool := bytes_ltb (bytes_of_string a) (bytes_of_string b).

Definition Cmp (p q : Pos) : Z :=
  let pname := RelFilename p in
  let qname := RelFilename q in
  if string_ltb pname qname then -1
  else if string_ltb qname pname then 1
  else if Line p <? Line q then -1
  else if Line q <? Line p then 1
  else if Col p <? Col q then -1
  else if Col q <? Col p then 1
  else 0.

Definition position_String (filename : string) (line col : Z) : string :=
  if line =? 0 then
    if bool_decide (filename = ""%string) then "<unknown position>" else filename
  else if col =? 0 then filename +s+ ":" +s+ fmtInteger line
  else filename +s+ ":" +s+ fmtInteger line +s+ ":" +s+ fmtInteger col.

Definition Pos_String (pos : Pos) : string :=
  let rel := (RelFilename pos, RelLine pos, RelCol pos) in
  let abs := (RelFilename (base_Pos (Base pos)), Line pos, Col pos) in
  let s := position_String (RelFilename pos) (RelLine pos) (RelCol pos) in
  if negb (bool_decide (rel = abs)) then
    s +s+ "[" +s+ position_String (RelFilename (base_Pos (Base pos))) (Line pos) (Col pos) +s+ "]"
  else s.

Example pos_string :
  Pos_String (MakePos (Some (NewLineBase (MakePos (Some (NewFileBase "a.goo")) 7 1) "b.y" false 100 0)) 9 4)
  = "b.y:102[a.goo:9:4]"%string.
Proof. vm_compute. reflexivity. Qed.

(** ** Properties *)

Lemma sat32_range x : 0 <= x -> 0 <= sat32 x <= PosMax.
Proof.
  unfold sat32. change PosMax with (2 ^ 30). intros Hx. case_test; b2p; [lia|].
  unfold u32. rewrite Z.mod_small; lia.
Qed.

Lemma sat32_id x : 0 <= x <= PosMax -> sat32 x = x.
Proof.
  unfold sat32. change PosMax with (2 ^ 30). intros Hx. decide_tests.
  unfold u32. by rewrite Z.mod_small by lia.
Qed.

Lemma bytes_ltb_irrefl a : bytes_ltb a a = false.
Proof.
  induction a as [|x a IH]; [done|]. cbn. rewrite IH, andb_false_r, orb_false_r. lia.
Qed.

Lemma bytes_ltb_asym a : forall b, bytes_ltb a b = true -> bytes_ltb b a = false.
Proof.
  induction a as [|x a IH]; intros [|y b] H; try done. cbn in *.
  apply orb_true_iff in H as [H|H].
  - apply orb_false_iff. split; [lia|]. apply andb_false_iff. left. lia.
  - apply andb_true_iff in H as [Hxy H]. rewrite (IH b H), andb_false_r, orb_false_r. lia.
Qed.

Lemma bytes_ltb_trans a : forall b c, bytes_ltb a b = true -> bytes_ltb b c = true -> bytes_ltb a c = true.
Proof.
  induction a as [|x a IH]; intros [|y b] [|z c] H1 H2; try done. cbn in *.
  apply orb_true_iff in H1, H2. apply orb_true_iff.
  destruct H1 as [H1|H1]; destruct H2 as [H2|H2];
    repeat match goal with H : (_ && _) = true |- _ => apply andb_true_iff in H as [? ?] end;
    try (left; lia).
  right. apply andb_true_iff. split; [lia|]. by apply (IH b).
Qed.

Lemma bytes_ltb_total a : forall b, bytes_ltb a b = false -> bytes_ltb b a = false -> a = b.
Proof.
  induction a as [|x a IH]; intros [|y b] H1 H2; try done. cbn in *.
  apply orb_false_iff in H1 as [H1 H1'], H2 as [H2 H2'].
  assert (x = y) as -> by lia. rewrite Z.eqb_refl in H1', H2'. f_equal. by apply IH.
Qed.

(** The key by which [Cmp] orders positions. *)
Definition pos_key (p : Pos) : list byte * Z * Z := (bytes_of_string (RelFilename p), Line p, Col p).

Definition key_lt (a b : list byte * Z * Z) : Prop :=
  let '(f, l, c) := a in let '(f', l', c') := b in
  bytes_ltb f f' = true \/ (f = f' /\ (l < l' \/ (l = l' /\ c < c'))).

Lemma Cmp_cases p q :
  (Cmp p q = -1 /\ key_lt (pos_key p) (pos_key q)) \/
  (Cmp p q = 0 /\ pos_key p = pos_key q) \/
  (Cmp p q = 1 /\ key_lt (pos_key q) (pos_key p)).
Proof.
  unfold Cmp, pos_key, key_lt, string_ltb.
  destruct (bytes_ltb (bytes_of_string (RelFilename p)) (bytes_of_string (RelFilename q))) eqn:E1; [by auto|].
  destruct (bytes_ltb (bytes_of_string (RelFilename q)) (bytes_of_string (RelFilename p))) eqn:E2; [by auto 10|].
  pose proof (bytes_ltb_total _ _ E1 E2) as Heq. rewrite Heq in *.
  repeat case_test; b2p; [left|right; right|left|right; right|right; left];
    (split; [done|]); try (right; split; [done|]; lia).
  assert (Line p = Line q) as -> by lia. assert (Col p = Col q) as -> by lia. done.
Qed.

Lemma key_lt_trans a b c : key_lt a b -> key_lt b c -> key_lt a c.
Proof.
  destruct a as [[f1 l1] c1], b as [[f2 l2] c2], c as [[f3 l3] c3]. cbn.
  intros [H1|[-> H1]] [H2|[-> H2]]; [left; by eapply bytes_ltb_trans|by left|by left|].
  right. split; [done|]. lia.
Qed.

Lemma key_lt_irrefl a : ~ key_lt a a.
Proof. destruct a as [[f l] c]. cbn. rewrite bytes_ltb_irrefl. intros [?|[_ ?]]; [done|lia]. Qed.

(** [Cmp] is a total order on (relative file name, line, column): it is
    antisymmetric, zero exactly for equal keys, and transitive. *)
Theorem Cmp_total_order p q r :
  Cmp q p = - Cmp p q /\ (Cmp p q = 0 <-> pos_key p = pos_key q) /\
  (Cmp p q <= 0 -> Cmp q r <= 0 -> Cmp p r <= 0).
Proof.
  assert (Hkey : forall x y, key_lt x y -> x <> y) by (intros x y H ->; by apply key_lt_irrefl in H).
  assert (Hasym : forall x y, key_lt x y -> ~ key_lt y x).
  { intros x y H1 H2. by apply (key_lt_irrefl x), (key_lt_trans x y x). }
  split_and!.
  - destruct (Cmp_cases p q) as [[-> H]|[[-> H]|[-> H]]]; destruct (Cmp_cases q p) as [[-> H']|[[-> H']|[-> H']]];
      try lia; exfalso; first [by apply (Hasym _ _ H) | by apply (Hkey _ _ H) | by apply (Hkey _ _ H')].
  - destruct (Cmp_cases p q) as [[-> H]|[[-> H]|[-> H]]]; split; try done; try lia; intros Heq;
      exfalso; first [by apply (Hkey _ _ H) | apply (Hkey _ _ H); congruence].
  - intros H1 H2. destruct (Cmp_cases p q) as [[E1 H]|[[E1 H]|[E1 H]]]; try lia;
    destruct (Cmp_cases q r) as [[E2 H']|[[E2 H']|[E2 H']]]; try lia;
    destruct (Cmp_cases p r) as [[E3 H'']|[[E3 H'']|[E3 H'']]]; try lia; exfalso.
    + by apply (Hasym _ _ H''), (key_lt_trans _ (pos_key q)).
    + rewrite <- H' in H''. by apply (Hasym _ _ H'').
    + rewrite H in H''. by apply (Hasym _ _ H'').
    + rewrite H, H' in H''. by apply key_lt_irrefl in H''.
Qed.

(** relative positions: in a file a position is where it is, and after a
    line directive "file:line:col" the lines count on from the directive, on
    its line also the columns, and a column 0 stays unknown; nothing wraps
    around for positions in range that follow the directive. *)
Theorem relative_position :
  (forall file trimmed line col, 1 <= line <= PosMax -> 1 <= col <= PosMax ->
     let p := MakePos (Some (NewTrimmedFileBase file trimmed)) line col in
     RelFilename p = file /\ RelLine p = line /\ RelCol p = col) /\
  (forall dir file trimmed dline dcol line col,
     1 <= dline <= PosMax -> 0 <= dcol <= PosMax -> 0 <= Line dir -> 0 <= Col dir ->
     Line dir <= line <= PosMax -> 1 <= col <= PosMax -> (line = Line dir -> Col dir <= col) ->
     let p := MakePos (Some (NewLineBase dir file trimmed dline dcol)) line col in
     RelFilename p = file /\ RelLine p = dline + (line - Line dir) /\
     RelCol p = if dcol =? 0 then 0 else if line =? Line dir then dcol + (col - Col dir) else col).
Proof.
  split.
  - intros file trimmed line col Hl Hc. unfold RelFilename, RelLine, RelCol, MakePos.
    cbn [Base Line Col NewTrimmedFileBase base_Filename base_Line base_Col base_Pos].
    rewrite !sat32_id by lia. unfold linebase, colbase, u64. change PosMax with (2 ^ 30) in *.
    rewrite (Z.mod_small (line - 1)), (Z.mod_small (col - 1)) by lia.
    rewrite !Z.mod_small by lia. split; [done|]. change (1 =? 0) with false. cbv iota.
    split; [lia|]. case_test; lia.
  - intros dir file trimmed dline dcol line col Hdl Hdc H1 H2 Hl Hc Hlc.
    unfold RelFilename, RelLine, RelCol, MakePos, NewLineBase.
    cbn [Base Line Col base_Filename base_Line base_Col base_Pos].
    rewrite !sat32_id by lia. change PosMax with (2 ^ 30) in *. unfold u64.
    split; [done|]. split.
    + decide_tests. rewrite (Z.mod_small (line - _)) by lia. rewrite Z.mod_small by lia. done.
    + case_test; [done|]. case_test; [|done]. b2p. specialize (Hlc Heqb0).
      rewrite (Z.mod_small (col - _)) by lia. by rewrite Z.mod_small by lia.
Qed.
