(* ===== verification/Nodes.v ===== *)
(** * src/src/cmd/compile/internal/syntax/nodes.go: syntax trees

    One constructor per node type, with the node's position first and the
    fields in the code's order; [option] is a pointer or interface that may be
    nil, and a nil slice is the empty list (the parser makes its slices by
    appending to nil, so that the empty ones are nil).  The positions and fields that only later phases fill in
    ([typeAndValue], [DeferAt], the [Target] of a branch, which
    [checkBranches] computes as a table) are left out.

    Two identities of the code are explicit: a [*Group] is the number the
    parser gave it, and a [Field] carries the number of its [Type] node, since
    fields declared in one list share the node and the printer compares the
    pointers. *)

From S2P Require Import Prelude Tokens Pos.

#[local] Set Warnings "-register-all".

(** A value of the pragma handler, opaque to the parser. *)
Abbreviation Pragma := nat.
Abbreviation Group := nat.

Record name := mkName { name_pos : Pos; Value : string }.
Record basiclit := mkBasicLit { lit_pos : Pos; lit_Value : string; Kind : LitKind; Bad : bool }.

Definition NewName (pos : Pos) (value : string) : name := mkName pos value.

Inductive ChanDir : Type := NoDir | SendOnly | RecvOnly.

#[export] Instance ChanDir_eq_dec : EqDecision ChanDir.
Proof. solve_decision. Defined.

Inductive expr : Type :=
| BadExpr (pos : Pos)
| Name (n : name)
| BasicLit (b : basiclit)
| CompositeLit (pos : Pos) (type : option expr) (ElemList : list expr) (NKeys : Z) (Rbrace : Pos)
| KeyValueExpr (pos : Pos) (Key val : expr)
| FuncLit (pos : Pos) (type : functype) (Body : blockstmt)
| ParenExpr (pos : Pos) (X : expr)
| SelectorExpr (pos : Pos) (X : expr) (Sel : name)
| IndexExpr (pos : Pos) (X Index : expr)
| SliceExpr (pos : Pos) (X : expr) (Index0 Index1 Index2 : option expr) (Full : bool)
| AssertExpr (pos : Pos) (X type : expr)
| TypeSwitchGuard (pos : Pos) (Lhs : option name) (X : expr)
| Operation (pos : Pos) (Op : Operator) (X : expr) (Y : option expr)
| CallExpr (pos : Pos) (Fun : expr) (ArgList : list expr) (HasDots : bool)
| ListExpr (pos : Pos) (ElemList : list expr)
| ArrayType (pos : Pos) (Len : option expr) (Elem : expr)
| SliceType (pos : Pos) (Elem : expr)
| DotsType (pos : Pos) (Elem : expr)
| StructType (pos : Pos) (FieldList : list field) (TagList : list (option basiclit))
| InterfaceType (pos : Pos) (MethodList : list field)
| FuncType (t : functype)
| MapType (pos : Pos) (Key val : expr)
| ChanType (pos : Pos) (Dir : ChanDir) (Elem : expr)
with field : Type :=
| Field (pos : Pos) (nam : option name) (type : option expr) (id : nat)
with functype : Type :=
| mkFuncType (pos : Pos) (ParamList : list field) (ResultList : list field)
with blockstmt : Type :=
| mkBlockStmt (pos : Pos) (List : list stmt) (Rbrace : Pos)
with stmt : Type :=
| EmptyStmt (pos : Pos)
| LabeledStmt (pos : Pos) (Label : name) (body : stmt)
| BlockStmt (b : blockstmt)
| ExprStmt (pos : Pos) (X : expr)
| SendStmt (pos : Pos) (Chan val : expr)
| DeclStmt (pos : Pos) (DeclList : list decl)
| AssignStmt (pos : Pos) (Op : Operator) (Lhs : expr) (Rhs : option expr)
| BranchStmt (pos : Pos) (Tok : token) (Label : option name)
| CallStmt (pos : Pos) (Tok : token) (Call : expr)
| ReturnStmt (pos : Pos) (Results : option expr)
| CheckStmt (pos : Pos) (Cond : expr)
| IfStmt (pos : Pos) (Init : option stmt) (Cond : option expr) (Then : blockstmt) (Else : option stmt)
| ForStmt (pos : Pos) (Init : option stmt) (Cond : option expr) (Post : option stmt) (Body : blockstmt)
| SwitchStmt (pos : Pos) (Init : option stmt) (Tag : option expr) (Body : list caseclause) (Rbrace : Pos)
| SelectStmt (pos : Pos) (Body : list commclause) (Rbrace : Pos)
| RangeClause (pos : Pos) (Lhs : option expr) (Def : bool) (X : expr)
with caseclause : Type :=
| CaseClause (pos : Pos) (Cases : option expr) (Body : list stmt) (Colon : Pos)
with commclause : Type :=
| CommClause (pos : Pos) (Comm : option stmt) (Body : list stmt) (Colon : Pos)
with decl : Type :=
| ImportDecl (pos : Pos) (group : option Group) (pragma : option Pragma)
    (LocalPkgName : option name) (Path : option basiclit)
| ConstDecl (pos : Pos) (group : option Group) (pragma : option Pragma)
    (NameList : list name) (type Values : option expr)
| TypeDecl (pos : Pos) (group : option Group) (pragma : option Pragma)
    (nam : name) (TParamList : list field) (Alias : bool) (type : expr)
| VarDecl (pos : Pos) (group : option Group) (pragma : option Pragma)
    (NameList : list name) (type Values : option expr)
| FuncDecl (pos : Pos) (pragma : option Pragma) (Recv : option field) (nam : name)
    (TParamList : list field) (type : functype) (Body : option blockstmt).

Record File := mkFile {
  file_pos : Pos;
  file_Pragma : option Pragma;
  PkgName : name;
  DeclList : list decl;
  TopLevelStmts : list stmt;
  file_EOF : Pos;
  GoVersion : string
}.

(** [n.Pos()] *)
Definition functype_pos (t : functype) : Pos := match t with mkFuncType p _ _ => p end.
Definition block_pos (b : blockstmt) : Pos := match b with mkBlockStmt p _ _ => p end.
Definition field_pos (f : field) : Pos := match f with Field p _ _ _ => p end.

Definition expr_pos (x : expr) : Pos :=
  match x with
  | Name n => name_pos n
  | BasicLit b => lit_pos b
  | FuncType t => functype_pos t
  | BadExpr p | CompositeLit p _ _ _ _ | KeyValueExpr p _ _ | FuncLit p _ _ | ParenExpr p _
  | SelectorExpr p _ _ | IndexExpr p _ _ | SliceExpr p _ _ _ _ _ | AssertExpr p _ _
  | TypeSwitchGuard p _ _ | Operation p _ _ _ | CallExpr p _ _ _ | ListExpr p _ | ArrayType p _ _
  | SliceType p _ | DotsType p _ | StructType p _ _ | InterfaceType p _ | MapType p _ _
  | ChanType p _ _ => p
  end.

Definition stmt_pos (s : stmt) : Pos :=
  match s with
  | BlockStmt b => block_pos b
  | EmptyStmt p | LabeledStmt p _ _ | ExprStmt p _ | SendStmt p _ _ | DeclStmt p _
  | AssignStmt p _ _ _ | BranchStmt p _ _ | CallStmt p _ _ | ReturnStmt p _ | CheckStmt p _
  | IfStmt p _ _ _ _ | ForStmt p _ _ _ _ | SwitchStmt p _ _ _ _ | SelectStmt p _ _
  | RangeClause p _ _ _ => p
  end.

Definition case_pos (c : caseclause) : Pos := match c with CaseClause p _ _ _ => p end.
Definition comm_pos (c : commclause) : Pos := match c with CommClause p _ _ _ => p end.

Definition decl_pos (d : decl) : Pos :=
  match d with
  | ImportDecl p _ _ _ _ | ConstDecl p _ _ _ _ _ | TypeDecl p _ _ _ _ _ _
  | VarDecl p _ _ _ _ _ | FuncDecl p _ _ _ _ _ _ => p
  end.

Definition field_Name (f : field) : option name := match f with Field _ n _ _ => n end.
Definition field_Type (f : field) : option expr := match f with Field _ _ t _ => t end.
Definition block_List (b : blockstmt) : list stmt := match b with mkBlockStmt _ l _ => l end.
Definition block_Rbrace (b : blockstmt) : Pos := match b with mkBlockStmt _ _ p => p end.
