(* ===== verification/Walk.v ===== *)
(** * src/src/cmd/compile/internal/syntax/walk.go: walking syntax trees

    A visitor is any value with a [Visit] method, which may have effects and
    returns the visitor for the children or nil.  The walk of a node follows
    the switch of the code: one function per family of nodes.  [walked] is the
    list of the nodes that a node's case goes to, in order, where [None] is a nil
    interface, on which the walk panics; it carries the induction over nodes.
    [children] is what the documentation speaks of, the non-nil nodes in the
    fields of a node: the two agree on the trees that [whole] describes. *)

From S2P Require Import Prelude Tokens Pos Nodes.

#[local] Open Scope go_scope.
#[local] Set Warnings "-register-all".

(** The [Node] interface.  An import without a path has a nil pointer of type
    [*BasicLit], which is a node. *)
Inductive node : Type :=
| NFile (f : File)
| NDecl (d : decl)
| NExpr (x : expr)
| NStmt (s : stmt)
| NField (f : field)
| NCase (c : caseclause)
| NComm (c : commclause)
| NNilLit.

Section Walk.
Context {V E S : Type} (Visit : V -> option node -> GM string E S (option V)).

Abbreviation M := (GM string E S).

(** The frame of [walker.node]: the children are visited with the new
    visitor [w], which sees nil at the end. *)
Definition enter (n : node) (v : V) (body : V -> M unit) : M unit :=
  let* w := Visit v (Some n) in
  match w with
  | None => ret tt
  | Some w => body w;;; let* _ := Visit w None in ret tt
  end.

(** [w.node(nil)] *)
Definition walk_nil (w : V) : M unit := panic "nil node"%string.

Definition walk_opt {A} (f : A -> V -> M unit) (o : option A) (w : V) : M unit :=
  match o with Some x => f x w | None => ret tt end.
(** A child that the code does not check. *)
Definition walk_some {A} (f : A -> V -> M unit) (o : option A) (w : V) : M unit :=
  match o with Some x => f x w | None => walk_nil w end.

Fixpoint walk_each (l : list (V -> M unit)) (w : V) : M unit :=
  match l with
  | [] => ret tt
  | f :: l => f w;;; walk_each l w
  end.

Definition walk_name (n : name) (v : V) : M unit := enter (NExpr (Name n)) v (fun _ => ret tt).
Definition walk_lit (b : basiclit) (v : V) : M unit := enter (NExpr (BasicLit b)) v (fun _ => ret tt).

Definition nameList (l : list name) : V -> M unit := walk_each (map walk_name l).

Fixpoint walk_expr (x : expr) (v : V) : M unit :=
  enter (NExpr x) v (fun w =>
    match x with
    | BadExpr _ | Name _ | BasicLit _ => ret tt
    | CompositeLit _ t l _ _ => walk_opt walk_expr t w;;; walk_each (map walk_expr l) w
    | KeyValueExpr _ k x => walk_expr k w;;; walk_expr x w
    | FuncLit _ t b => walk_functype t w;;; walk_block b w
    | ParenExpr _ x => walk_expr x w
    | SelectorExpr _ x sel => walk_expr x w;;; walk_name sel w
    | IndexExpr _ x i => walk_expr x w;;; walk_expr i w
    | SliceExpr _ x i j k _ =>
        walk_expr x w;;; walk_opt walk_expr i w;;; walk_opt walk_expr j w;;; walk_opt walk_expr k w
    | AssertExpr _ x t => walk_expr x w;;; walk_expr t w
    | TypeSwitchGuard _ lhs x => walk_opt walk_name lhs w;;; walk_expr x w
    | Operation _ _ x y => walk_expr x w;;; walk_opt walk_expr y w
    | CallExpr _ f args _ => walk_expr f w;;; walk_each (map walk_expr args) w
    | ListExpr _ l => walk_each (map walk_expr l) w
    | ArrayType _ len e => walk_opt walk_expr len w;;; walk_expr e w
    | SliceType _ e => walk_expr e w
    | DotsType _ e => walk_expr e w
    | StructType _ fl tl =>
        walk_each (map walk_field fl) w;;; walk_each (map (walk_opt walk_lit) tl) w
    | InterfaceType _ ml => walk_each (map walk_field ml) w
    | FuncType (mkFuncType _ ps rs) =>
        walk_each (map walk_field ps) w;;; walk_each (map walk_field rs) w
    | MapType _ k x => walk_expr k w;;; walk_expr x w
    | ChanType _ _ e => walk_expr e w
    end)
with walk_field (f : field) (v : V) : M unit :=
  enter (NField f) v (fun w =>
    match f with Field _ n t _ => walk_opt walk_name n w;;; walk_some walk_expr t w end)
with walk_functype (t : functype) (v : V) : M unit :=
  enter (NExpr (FuncType t)) v (fun w =>
    match t with
    | mkFuncType _ ps rs => walk_each (map walk_field ps) w;;; walk_each (map walk_field rs) w
    end)
with walk_block (b : blockstmt) (v : V) : M unit :=
  enter (NStmt (BlockStmt b)) v (fun w =>
    match b with mkBlockStmt _ l _ => walk_each (map walk_stmt l) w end)
with walk_stmt (s : stmt) (v : V) : M unit :=
  enter (NStmt s) v (fun w =>
    match s with
    | EmptyStmt _ => ret tt
    | LabeledStmt _ l s => walk_name l w;;; walk_stmt s w
    | BlockStmt (mkBlockStmt _ l _) => walk_each (map walk_stmt l) w
    | ExprStmt _ x => walk_expr x w
    | SendStmt _ c x => walk_expr c w;;; walk_expr x w
    | DeclStmt _ l => walk_each (map walk_decl l) w
    | AssignStmt _ _ l r => walk_expr l w;;; walk_opt walk_expr r w
    | BranchStmt _ _ l => walk_opt walk_name l w
    | CallStmt _ _ c => walk_expr c w
    | ReturnStmt _ r => walk_opt walk_expr r w
    | CheckStmt _ c => walk_expr c w
    | IfStmt _ i c t e =>
        walk_opt walk_stmt i w;;; walk_some walk_expr c w;;; walk_block t w;;; walk_opt walk_stmt e w
    | ForStmt _ i c p b =>
        walk_opt walk_stmt i w;;; walk_opt walk_expr c w;;; walk_opt walk_stmt p w;;; walk_block b w
    | SwitchStmt _ i t l _ =>
        walk_opt walk_stmt i w;;; walk_opt walk_expr t w;;; walk_each (map walk_case l) w
    | SelectStmt _ l _ => walk_each (map walk_comm l) w
    | RangeClause _ l _ x => walk_opt walk_expr l w;;; walk_expr x w
    end)
with walk_case (c : caseclause) (v : V) : M unit :=
  enter (NCase c) v (fun w =>
    match c with CaseClause _ x l _ => walk_opt walk_expr x w;;; walk_each (map walk_stmt l) w end)
with walk_comm (c : commclause) (v : V) : M unit :=
  enter (NComm c) v (fun w =>
    match c with CommClause _ s l _ => walk_opt walk_stmt s w;;; walk_each (map walk_stmt l) w end)
with walk_decl (d : decl) (v : V) : M unit :=
  enter (NDecl d) v (fun w =>
    match d with
    | ImportDecl _ _ _ n p =>
        walk_opt walk_name n w;;;
        match p with Some b => walk_lit b w | None => enter NNilLit w (fun _ => ret tt) end
    | ConstDecl _ _ _ l t x | VarDecl _ _ _ l t x =>
        nameList l w;;; walk_opt walk_expr t w;;; walk_opt walk_expr x w
    | TypeDecl _ _ _ n ps _ t =>
        walk_name n w;;; walk_each (map walk_field ps) w;;; walk_expr t w
    | FuncDecl _ _ r n ps t b =>
        walk_opt walk_field r w;;; walk_name n w;;; walk_each (map walk_field ps) w;;;
        walk_functype t w;;; walk_opt walk_block b w
    end).

(** The statements at the top level of a file are not walked. *)
Definition walk_file (f : File) (v : V) : M unit :=
  enter (NFile f) v (fun w => walk_name (PkgName f) w;;; walk_each (map walk_decl (DeclList f)) w).

Definition Walk (root : node) (v : V) : M unit :=
  match root with
  | NFile f => walk_file f v
  | NDecl d => walk_decl d v
  | NExpr x => walk_expr x v
  | NStmt s => walk_stmt s v
  | NField f => walk_field f v
  | NCase c => walk_case c v
  | NComm c => walk_comm c v
  | NNilLit => enter NNilLit v (fun _ => ret tt)
  end.
End Walk.

(** [Inspect(root, f)]: the calls of [f] are the events; its answers are
    given by a function of the node. *)
Definition inspector (f : node -> bool) (_ : unit) (n : option node) : GM string (option node) unit (option unit) :=
  emit n;;;
  ret match n with Some n => if f n then Some tt else None | None => None end.

Definition Inspect (root : node) (f : node -> bool) : res string (list (option node)) :=
  match Walk (inspector f) root tt tt with
  | Ok (_, _, t) => Ok t
  | Panic v => Panic v
  | NoFuel => NoFuel
  end.

(** ** The order of a walk

    The nodes that the case of a node goes to, in order; [None] is a nil
    interface. *)

Abbreviation cname := (fun n => Some (NExpr (Name n))).
Abbreviation cexpr := (fun x => Some (NExpr x)).
Abbreviation copt f o := (match o with Some x => [f x] | None => [] end).

Definition functype_walked (t : functype) : list (option node) :=
  match t with
  | mkFuncType _ ps rs => map (fun f => Some (NField f)) ps ++ map (fun f => Some (NField f)) rs
  end.

Definition expr_walked (x : expr) : list (option node) :=
  match x with
  | BadExpr _ | Name _ | BasicLit _ => []
  | CompositeLit _ t l _ _ => copt cexpr t ++ map cexpr l
  | KeyValueExpr _ k v => [cexpr k; cexpr v]
  | FuncLit _ t b => [cexpr (FuncType t); Some (NStmt (BlockStmt b))]
  | ParenExpr _ x => [cexpr x]
  | SelectorExpr _ x sel => [cexpr x; cname sel]
  | IndexExpr _ x i => [cexpr x; cexpr i]
  | SliceExpr _ x i j k _ => cexpr x :: copt cexpr i ++ copt cexpr j ++ copt cexpr k
  | AssertExpr _ x t => [cexpr x; cexpr t]
  | TypeSwitchGuard _ lhs x => copt cname lhs ++ [cexpr x]
  | Operation _ _ x y => cexpr x :: copt cexpr y
  | CallExpr _ f args _ => cexpr f :: map cexpr args
  | ListExpr _ l => map cexpr l
  | ArrayType _ len e => copt cexpr len ++ [cexpr e]
  | SliceType _ e | DotsType _ e | ChanType _ _ e => [cexpr e]
  | StructType _ fl tl =>
      map (fun f => Some (NField f)) fl ++ List.concat (map (fun t => copt (fun b => cexpr (BasicLit b)) t) tl)
  | InterfaceType _ ml => map (fun f => Some (NField f)) ml
  | FuncType t => functype_walked t
  | MapType _ k v => [cexpr k; cexpr v]
  end.

Definition stmt_walked (s : stmt) : list (option node) :=
  match s with
  | EmptyStmt _ => []
  | LabeledStmt _ l s => [cname l; Some (NStmt s)]
  | BlockStmt (mkBlockStmt _ l _) => map (fun s => Some (NStmt s)) l
  | ExprStmt _ x => [cexpr x]
  | SendStmt _ c v => [cexpr c; cexpr v]
  | DeclStmt _ l => map (fun d => Some (NDecl d)) l
  | AssignStmt _ _ l r => cexpr l :: copt cexpr r
  | BranchStmt _ _ l => copt cname l
  | CallStmt _ _ c => [cexpr c]
  | ReturnStmt _ r => copt cexpr r
  | CheckStmt _ c => [cexpr c]
  | IfStmt _ i c t e =>
      copt (fun s => Some (NStmt s)) i ++ option_map NExpr c :: Some (NStmt (BlockStmt t)) ::
      copt (fun s => Some (NStmt s)) e
  | ForStmt _ i c p b =>
      copt (fun s => Some (NStmt s)) i ++ copt cexpr c ++ copt (fun s => Some (NStmt s)) p ++
      [Some (NStmt (BlockStmt b))]
  | SwitchStmt _ i t l _ =>
      copt (fun s => Some (NStmt s)) i ++ copt cexpr t ++ map (fun c => Some (NCase c)) l
  | SelectStmt _ l _ => map (fun c => Some (NComm c)) l
  | RangeClause _ l _ x => copt cexpr l ++ [cexpr x]
  end.

Definition decl_walked (d : decl) : list (option node) :=
  match d with
  | ImportDecl _ _ _ n p =>
      copt cname n ++ [match p with Some b => cexpr (BasicLit b) | None => Some NNilLit end]
  | ConstDecl _ _ _ l t v | VarDecl _ _ _ l t v => map cname l ++ copt cexpr t ++ copt cexpr v
  | TypeDecl _ _ _ n ps _ t => cname n :: map (fun f => Some (NField f)) ps ++ [cexpr t]
  | FuncDecl _ _ r n ps t b =>
      copt (fun f => Some (NField f)) r ++ cname n :: map (fun f => Some (NField f)) ps ++
      cexpr (FuncType t) :: copt (fun b => Some (NStmt (BlockStmt b))) b
  end.

Definition walked (n : node) : list (option node) :=
  match n with
  | NFile f => cname (PkgName f) :: map (fun d => Some (NDecl d)) (DeclList f)
  | NDecl d => decl_walked d
  | NExpr x => expr_walked x
  | NStmt s => stmt_walked s
  | NField (Field _ n t _) => copt cname n ++ [option_map NExpr t]
  | NCase (CaseClause _ x l _) => copt cexpr x ++ map (fun s => Some (NStmt s)) l
  | NComm (CommClause _ s l _) => copt (fun s => Some (NStmt s)) s ++ map (fun s => Some (NStmt s)) l
  | NNilLit => []
  end.

(** ** Induction over the children *)

(** A property of all elements of a list, by recursion that the guard
    checker sees through. *)
Definition Forall_fix {A} (P : A -> Prop) (f : forall x, P x) : forall l, Forall P l :=
  fix go l := match l with [] => Forall_nil_2 P | x :: l => Forall_cons_2 P x l (f x) (go l) end.

Definition opt_Forall {A} (P : A -> Prop) (o : option A) : Prop :=
  match o with Some x => P x | None => True end.
Definition opt_fix {A} (P : A -> Prop) (f : forall x, P x) (o : option A) : opt_Forall P o :=
  match o with Some x => f x | None => I end.

(** A child of a node is one of its parts. *)
Ltac child_cases :=
  repeat match goal with
  | H : False |- _ => destruct H
  | H : _ \/ _ |- _ => destruct H as [H|H]
  | H : In _ [] |- _ => destruct H
  | H : In _ (_ :: _) |- _ => destruct H as [H|H]
  | H : In _ (_ ++ _) |- _ => apply in_app_or in H as [H|H]
  | H : In _ (map _ _) |- _ => apply in_map_iff in H as (? & H & ?)
  | H : In _ (List.concat _) |- _ => apply in_concat in H as (? & H & ?)
  | H : In _ (match ?o with Some _ => _ | None => _ end) |- _ => destruct o eqn:?
  | H : (match ?o with Some _ => _ | None => _ end) = _ |- _ => destruct o; subst
  | H : _ = Some _ |- _ => first [discriminate H | injection H as H; subst]
  | H : option_map _ ?o = Some _ |- _ => destruct o; cbn in H
  end.

(** The members of a list of children. *)
Ltac in_children :=
  cbn; repeat rewrite in_app_iff; cbn; repeat rewrite in_app_iff; cbn; auto 10.

Section Induction.
Variable P : node -> Prop.
Hypothesis H : forall n, (forall m, In (Some m) (walked n) -> P m) -> P n.

Lemma leaf_ind n : walked n = [] -> P n.
Proof. intros Hc. apply H. rewrite Hc. by intros m []. Qed.

Lemma name_leaf n : P (NExpr (Name n)). Proof. by apply leaf_ind. Qed.
Lemma lit_leaf b : P (NExpr (BasicLit b)). Proof. by apply leaf_ind. Qed.

Ltac part :=
  first [ assumption | apply name_leaf | apply lit_leaf | by apply leaf_ind
        | match goal with
          | Hf : Forall ?Q ?l, Hi : In ?x ?l |- _ => exact (proj1 (List.Forall_forall Q l) Hf x Hi)
          end ].
Ltac learn T p := lazymatch goal with _ : T |- _ => fail | _ => pose proof (p : T) end.
Ltac parts :=
  repeat match goal with
  | F : forall x : expr, P (NExpr x), y : expr |- _ => learn (P (NExpr y)) (F y)
  | F : forall x : field, P (NField x), y : field |- _ => learn (P (NField y)) (F y)
  | F : forall x : functype, P (NExpr (FuncType x)), y : functype |- _ => learn (P (NExpr (FuncType y))) (F y)
  | F : forall x : blockstmt, P (NStmt (BlockStmt x)), y : blockstmt |- _ => learn (P (NStmt (BlockStmt y))) (F y)
  | F : forall x : stmt, P (NStmt x), y : stmt |- _ => learn (P (NStmt y)) (F y)
  | F : forall x : expr, P (NExpr x), l : list expr |- _ =>
      learn (Forall (fun x => P (NExpr x)) l) (Forall_fix (fun x => P (NExpr x)) F l)
  | F : forall x : field, P (NField x), l : list field |- _ =>
      learn (Forall (fun x => P (NField x)) l) (Forall_fix (fun x => P (NField x)) F l)
  | F : forall x : stmt, P (NStmt x), l : list stmt |- _ =>
      learn (Forall (fun x => P (NStmt x)) l) (Forall_fix (fun x => P (NStmt x)) F l)
  | F : forall x : caseclause, P (NCase x), l : list caseclause |- _ =>
      learn (Forall (fun x => P (NCase x)) l) (Forall_fix (fun x => P (NCase x)) F l)
  | F : forall x : commclause, P (NComm x), l : list commclause |- _ =>
      learn (Forall (fun x => P (NComm x)) l) (Forall_fix (fun x => P (NComm x)) F l)
  | F : forall x : decl, P (NDecl x), l : list decl |- _ =>
      learn (Forall (fun x => P (NDecl x)) l) (Forall_fix (fun x => P (NDecl x)) F l)
  end.
Ltac node := apply H; cbn; intros m Hm; child_cases; part.
Ltac sub_nodes := parts; repeat match goal with F : forall x : _, P _ |- _ => clear F end; node.
Ltac optcases := repeat match goal with o : option _ |- _ => destruct o end.

Fixpoint ind_expr (x : expr) : P (NExpr x)
with ind_field (f : field) : P (NField f)
with ind_functype (t : functype) : P (NExpr (FuncType t))
with ind_block (b : blockstmt) : P (NStmt (BlockStmt b))
with ind_stmt (s : stmt) : P (NStmt s)
with ind_case (c : caseclause) : P (NCase c)
with ind_comm (c : commclause) : P (NComm c)
with ind_decl (d : decl) : P (NDecl d).
Proof.
  - destruct x; optcases; try exact (ind_functype _); sub_nodes.
  - destruct f; optcases; sub_nodes.
  - destruct t; sub_nodes.
  - destruct b; sub_nodes.
  - destruct s; optcases; try exact (ind_block _); sub_nodes.
  - destruct c; optcases; sub_nodes.
  - destruct c; optcases; sub_nodes.
  - destruct d; optcases; sub_nodes.
Qed.

Lemma node_ind' : forall n, P n.
Proof.
  intros [f|d|x|s|f|c|c|].
  - apply H. cbn. intros m Hm. child_cases; [apply name_leaf|apply ind_decl].
  - apply ind_decl.
  - apply ind_expr.
  - apply ind_stmt.
  - apply ind_field.
  - apply ind_case.
  - apply ind_comm.
  - by apply leaf_ind.
Qed.
End Induction.

(** ** Properties *)
Section Facts.
Context {V E S : Type} (Visit : V -> option node -> GM string E S (option V)).
Abbreviation walk_on := (Walk Visit).
Abbreviation enter := (enter Visit).

(** Walk a list of nodes that may be nil. *)
Fixpoint walk_nodes (l : list (option node)) (w : V) : GM string E S unit :=
  match l with
  | [] => ret tt
  | None :: _ => walk_nil w
  | Some n :: l => walk_on n w;;; walk_nodes l w
  end.

#[local] Instance enter_meq n v :
  Proper (pointwise_relation V meq ==> meq) (enter n v).
Proof.
  intros b1 b2 Hb. unfold Walk.enter. f_equiv. intros [w|]; [|done]. f_equiv. apply Hb.
Qed.

Lemma walk_nodes_app l1 l2 w :
  walk_nodes (l1 ++ l2) w =m (walk_nodes l1 w;;; walk_nodes l2 w).
Proof.
  induction l1 as [|[n|] l1 IH]; cbn [walk_nodes app]; unfold walk_nil.
  - by rewrite bind_ret_l.
  - rewrite bind_assoc_m. f_equiv. intros []. exact IH.
  - by rewrite bind_panic.
Qed.

Lemma walk_nodes_one n w : walk_nodes [Some n] w =m walk_on n w.
Proof. cbn [walk_nodes]. apply bind_ret_r. Qed.

(** The calls of a case walk a list of nodes. *)
Definition walks (m : V -> GM string E S unit) (l : list (option node)) : Prop :=
  forall w, m w =m walk_nodes l w.

Lemma walks_eq m l l' : walks m l -> l = l' -> walks m l'.
Proof. by intros Hm <-. Qed.

Lemma walks_none : walks (fun _ => ret tt) [].
Proof. by intros w. Qed.

Lemma walks_one n : walks (walk_on n) [Some n].
Proof. intros w. by rewrite walk_nodes_one. Qed.

Lemma walks_nil : walks walk_nil [None].
Proof. by intros w. Qed.

Lemma walks_seq m1 m2 l1 l2 : walks m1 l1 -> walks m2 l2 -> walks (fun w => m1 w;;; m2 w) (l1 ++ l2).
Proof. intros H1 H2 w. rewrite walk_nodes_app. f_equiv; [apply H1|intros []; apply H2]. Qed.

Lemma walk_nodes_map {A} (f : A -> V -> GM string E S unit) (g : A -> node) l w :
  (forall x v, f x v = walk_on (g x) v) ->
  walk_each (map f l) w =m walk_nodes (map (fun x => Some (g x)) l) w.
Proof.
  intros Hf. induction l as [|x l IH]; cbn [walk_each map walk_nodes]; [done|].
  rewrite Hf. f_equiv. intros []. exact IH.
Qed.

Lemma walk_nodes_opt {A} (f : A -> V -> GM string E S unit) (g : A -> node) o w :
  (forall x v, f x v = walk_on (g x) v) ->
  walk_opt f o w =m walk_nodes (match o with Some x => [Some (g x)] | None => [] end) w.
Proof. intros Hf. destruct o as [x|]; cbn [walk_opt]; [|done]. by rewrite Hf, walk_nodes_one. Qed.

Lemma walk_tags l w :
  walk_each (map (walk_opt (walk_lit Visit)) l) w =m
  walk_nodes (List.concat (map (fun t => match t with Some b => [Some (NExpr (BasicLit b))] | None => [] end) l)) w.
Proof.
  induction l as [|t l IH]; cbn [map walk_each List.concat]; [done|].
  rewrite walk_nodes_app. f_equiv; [|intros []; exact IH].
  by apply (walk_nodes_opt (walk_lit Visit) (fun b => NExpr (BasicLit b))).
Qed.

Lemma walks_each {A} (f : A -> V -> GM string E S unit) (g : A -> node) l :
  (forall x v, f x v = walk_on (g x) v) -> walks (walk_each (map f l)) (map (fun x => Some (g x)) l).
Proof. intros Hf w. by apply walk_nodes_map. Qed.

Lemma walks_opt {A} (f : A -> V -> GM string E S unit) (g : A -> node) o :
  (forall x v, f x v = walk_on (g x) v) ->
  walks (walk_opt f o) (match o with Some x => [Some (g x)] | None => [] end).
Proof. intros Hf w. by apply walk_nodes_opt. Qed.

Lemma walks_some {A} (f : A -> V -> GM string E S unit) (g : A -> node) o :
  (forall x v, f x v = walk_on (g x) v) -> walks (walk_some f o) [option_map g o].
Proof. intros Hf. destruct o; [|apply walks_nil]. intros w. cbn [walk_some]. rewrite Hf. apply walks_one. Qed.


Lemma walks_expr x : walks (walk_expr Visit x) [Some (NExpr x)].
Proof. exact (walks_one (NExpr x)). Qed.
Lemma walks_name n : walks (walk_name Visit n) [Some (NExpr (Name n))].
Proof. exact (walks_one (NExpr (Name n))). Qed.
Lemma walks_lit b : walks (walk_lit Visit b) [Some (NExpr (BasicLit b))].
Proof. exact (walks_one (NExpr (BasicLit b))). Qed.
Lemma walk_functype_eq t v : walk_functype Visit t v = walk_on (NExpr (FuncType t)) v.
Proof. by destruct t. Qed.
Lemma walk_block_eq b v : walk_block Visit b v = walk_on (NStmt (BlockStmt b)) v.
Proof. by destruct b. Qed.
Lemma walks_functype t : walks (walk_functype Visit t) [Some (NExpr (FuncType t))].
Proof. intros w. rewrite walk_functype_eq. apply walks_one. Qed.
Lemma walks_block b : walks (walk_block Visit b) [Some (NStmt (BlockStmt b))].
Proof. intros w. rewrite walk_block_eq. apply walks_one. Qed.
Lemma walks_stmt s : walks (walk_stmt Visit s) [Some (NStmt s)].
Proof. exact (walks_one (NStmt s)). Qed.
Lemma walks_path p :
  walks (fun w => match p with Some b => walk_lit Visit b w | None => enter NNilLit w (fun _ => ret tt) end)
    [match p with Some b => Some (NExpr (BasicLit b)) | None => Some NNilLit end].
Proof. destruct p as [b|]; [apply walks_lit|exact (walks_one NNilLit)]. Qed.

Lemma walks_tags l :
  walks (walk_each (map (walk_opt (walk_lit Visit)) l))
    (List.concat (map (fun t => match t with Some b => [Some (NExpr (BasicLit b))] | None => [] end) l)).
Proof. intros w. apply walk_tags. Qed.

Lemma enter_walks n v m l : walks m l -> enter n v m =m enter n v (walk_nodes l).
Proof. intros Hm. apply enter_meq. exact Hm. Qed.

Ltac walks_step :=
  first
  [ apply walks_none | apply walks_expr | apply walks_name | apply walks_lit | apply walks_functype
  | apply walks_block | apply walks_stmt | apply walks_tags | apply walks_path
  | apply (walks_each _ (fun x => NExpr x)); done | apply (walks_each _ (fun x => NField x)); done
  | apply (walks_each _ (fun x => NStmt x)); done | apply (walks_each _ (fun x => NCase x)); done
  | apply (walks_each _ (fun x => NComm x)); done | apply (walks_each _ (fun x => NDecl x)); done
  | apply (walks_each _ (fun n => NExpr (Name n))); done
  | apply (walks_opt _ (fun x => NExpr x)); done | apply (walks_opt _ (fun n => NExpr (Name n))); done
  | apply (walks_opt _ (fun x => NStmt x)); done | apply (walks_opt _ (fun x => NField x)); done
  | apply (walks_opt _ (fun b => NStmt (BlockStmt b))); exact walk_block_eq
  | apply (walks_some _ (fun x => NExpr x)); done
  | eapply walks_seq ].

Lemma Walk_eq n v : Walk Visit n v =m Walk.enter Visit n v (walk_nodes (walked n)).
Proof.
  destruct n as [f|d|x|s|f|c|c|];
    [|destruct d|destruct x as [| | | | | | | | | | | | | | | | | | | |[]| |]
     |destruct s as [| |[]| | | | | | | | | | | | |]|destruct f|destruct c|destruct c|].
  all: apply enter_walks; eapply walks_eq; [repeat walks_step|].
  all: cbn [app walked expr_walked stmt_walked decl_walked functype_walked].
  all: repeat match goal with o : option _ |- _ => destruct o end; cbn [app]; rewrite ?app_nil_r; try reflexivity.
Qed.

(** The walk goes to the nodes of [walked] in order, and to nothing else: it calls [Visit] on the node, and if the answer is a
    visitor, walks every child with that visitor and calls its [Visit] with
    nil; a child that is nil is a panic. *)
Theorem Walk_children n v :
  Walk Visit n v =m
  let* w := Visit v (Some n) in
  match w with
  | None => ret tt
  | Some w => walk_nodes (walked n) w;;; let* _ := Visit w None in ret tt
  end.
Proof. apply Walk_eq. Qed.
End Facts.

(** ** The children of a node

    The non-nil nodes in a field: of a list those of its elements, of a pointer
    or an interface the node itself, if it is not nil. *)
Class Parts (A : Type) := parts : A -> list node.

#[local] Instance expr_parts : Parts expr := fun x => [NExpr x].
#[local] Instance stmt_parts : Parts stmt := fun s => [NStmt s].
#[local] Instance decl_parts : Parts decl := fun d => [NDecl d].
#[local] Instance field_parts : Parts field := fun f => [NField f].
#[local] Instance caseclause_parts : Parts caseclause := fun c => [NCase c].
#[local] Instance commclause_parts : Parts commclause := fun c => [NComm c].
#[local] Instance name_parts : Parts name := fun n => [NExpr (Name n)].
#[local] Instance basiclit_parts : Parts basiclit := fun b => [NExpr (BasicLit b)].
#[local] Instance functype_parts : Parts functype := fun t => [NExpr (FuncType t)].
#[local] Instance blockstmt_parts : Parts blockstmt := fun b => [NStmt (BlockStmt b)].
#[local] Instance option_parts {A} `{Parts A} : Parts (option A) := fun o => match o with Some x => parts x | None => [] end.
#[local] Instance list_parts {A} `{Parts A} : Parts (list A) := fun l => List.concat (map parts l).

(** All fields that hold nodes, in the order of nodes.go. *)
Definition children (n : node) : list node :=
  match n with
  | NFile f => parts (PkgName f) ++ parts (DeclList f) ++ parts (TopLevelStmts f)
  | NDecl d =>
      match d with
      | ImportDecl _ _ _ localName path => parts localName ++ parts path
      | ConstDecl _ _ _ names typ values | VarDecl _ _ _ names typ values => parts names ++ parts typ ++ parts values
      | TypeDecl _ _ _ name tparams _ typ => parts name ++ parts tparams ++ parts typ
      | FuncDecl _ _ recv name tparams typ body => parts recv ++ parts name ++ parts tparams ++ parts typ ++ parts body
      end
  | NExpr x =>
      match x with
      | BadExpr _ | Name _ | BasicLit _ => []
      | CompositeLit _ typ elems _ _ => parts typ ++ parts elems
      | KeyValueExpr _ key value => parts key ++ parts value
      | FuncLit _ typ body => parts typ ++ parts body
      | ParenExpr _ x => parts x
      | SelectorExpr _ x sel => parts x ++ parts sel
      | IndexExpr _ x index => parts x ++ parts index
      | SliceExpr _ x i j k _ => parts x ++ parts [i; j; k]
      | AssertExpr _ x typ => parts x ++ parts typ
      | TypeSwitchGuard _ lhs x => parts lhs ++ parts x
      | Operation _ _ x y => parts x ++ parts y
      | CallExpr _ fun_ args _ => parts fun_ ++ parts args
      | ListExpr _ elems => parts elems
      | ArrayType _ len elem => parts len ++ parts elem
      | SliceType _ elem | DotsType _ elem | ChanType _ _ elem => parts elem
      | StructType _ fields tags => parts fields ++ parts tags
      | InterfaceType _ methods => parts methods
      | FuncType (mkFuncType _ params results) => parts params ++ parts results
      | MapType _ key value => parts key ++ parts value
      end
  | NStmt s =>
      match s with
      | EmptyStmt _ => []
      | LabeledStmt _ label s => parts label ++ parts s
      | BlockStmt (mkBlockStmt _ l _) => parts l
      | ExprStmt _ x => parts x
      | SendStmt _ chan value => parts chan ++ parts value
      | DeclStmt _ l => parts l
      | AssignStmt _ _ lhs rhs => parts lhs ++ parts rhs
      | BranchStmt _ _ label => parts label
      | CallStmt _ _ call => parts call
      | ReturnStmt _ results => parts results
      | CheckStmt _ cond => parts cond
      | IfStmt _ init cond then_ else_ => parts init ++ parts cond ++ parts then_ ++ parts else_
      | ForStmt _ init cond post body => parts init ++ parts cond ++ parts post ++ parts body
      | SwitchStmt _ init tag body _ => parts init ++ parts tag ++ parts body
      | SelectStmt _ body _ => parts body
      | RangeClause _ lhs _ x => parts lhs ++ parts x
      end
  | NField (Field _ name typ _) => parts name ++ parts typ
  | NCase (CaseClause _ cases body _) => parts cases ++ parts body
  | NComm (CommClause _ comm body _) => parts comm ++ parts body
  | NNilLit => []
  end.

(** Where the code goes to the children: a file without statements at its top
    level, an import with a path, an if statement with a condition and a field
    with a type. *)
Definition whole_here (n : node) : bool :=
  match n with
  | NFile f => match TopLevelStmts f with [] => true | _ => false end
  | NDecl (ImportDecl _ _ _ _ path) => is_some path
  | NStmt (IfStmt _ _ cond _ _) => is_some cond
  | NField (Field _ _ typ _) => is_some typ
  | _ => true
  end.

(** Trees all of whose nodes are so. *)
Inductive whole : node -> Prop :=
| whole_node n : whole_here n = true -> (forall m, In m (children n) -> whole m) -> whole n.

Lemma parts_each {A} `{Parts A} (g : A -> node) l : (forall x, parts x = [g x]) -> parts l = map g l.
Proof. intros Hg. induction l as [|x l IH]; [done|]. unfold parts, list_parts in *. cbn [map List.concat]. by rewrite Hg, IH. Qed.

Lemma parts_each_opt {A} `{Parts A} (g : A -> node) (l : list (option A)) : (forall x, parts x = [g x]) ->
  map Some (parts l) = List.concat (map (fun o => match o with Some x => [Some (g x)] | None => [] end) l).
Proof.
  intros Hg. induction l as [|o l IH]; [done|]. unfold parts, list_parts in *. cbn [map List.concat]. rewrite map_app, IH.
  f_equal. destruct o as [x|]; [|done]. cbn. unfold parts in Hg. by rewrite Hg.
Qed.

Lemma whole_walked n : whole_here n = true -> walked n = map Some (children n).
Proof.
  assert (Ex : forall l : list expr, parts l = map NExpr l) by (intros l; by apply parts_each).
  assert (St : forall l : list stmt, parts l = map NStmt l) by (intros l; by apply parts_each).
  assert (De : forall l : list decl, parts l = map NDecl l) by (intros l; by apply parts_each).
  assert (Fi : forall l : list field, parts l = map NField l) by (intros l; by apply parts_each).
  assert (Ca : forall l : list caseclause, parts l = map NCase l) by (intros l; by apply parts_each).
  assert (Co : forall l : list commclause, parts l = map NComm l) by (intros l; by apply parts_each).
  assert (Na : forall l : list name, parts l = map (fun n => NExpr (Name n)) l) by (intros l; by apply parts_each).
  assert (Ta : forall l : list (option basiclit), map Some (parts l) = _) by (intros l; by apply (parts_each_opt (fun b => NExpr (BasicLit b)))).
  destruct n as [f|d|x|s|f|c|c|];
    [destruct f as [? ? pkg decls tops ? ?]; destruct tops|destruct d|destruct x as [| | | | | | | | | | | | | | | | | | | |[]| |]
     |destruct s as [| |[]| | | | | | | | | | | | |]|destruct f|destruct c|destruct c|];
    cbn -[parts list_parts option_parts]; intros Hw;
    try discriminate Hw; rewrite ?Ex, ?St, ?De, ?Fi, ?Ca, ?Co, ?Na, ?map_app, ?Ta, ?map_map;
    repeat match goal with o : option _ |- _ => destruct o end; try discriminate Hw; cbn; rewrite ?app_nil_r, ?map_app; reflexivity.
Qed.

(** The calls of [f] that an inspection makes, from the documentation of
    [Inspect]: pre-order, and nil after the children. *)
Inductive visits (f : node -> bool) : node -> list (option node) -> Prop :=
| visits_stop n : f n = false -> visits f n [Some n]
| visits_children n ts :
    f n = true -> Forall2 (visits f) (children n) ts -> visits f n (Some n :: List.concat ts ++ [None]).

Section Inspect.
Context (f : node -> bool).
Abbreviation run n := (Walk (inspector f) n tt tt).

Lemma run_eq n :
  run n =
  if f n then
    match walk_nodes (inspector f) (walked n) tt tt with
    | Ok (_, _, t) => Ok (tt, tt, Some n :: t ++ [None])
    | Panic v => Panic v
    | NoFuel => NoFuel
    end
  else Ok (tt, tt, [Some n]).
Proof.
  rewrite Walk_eq. unfold enter, inspector. rewrite bind_assoc, bind_emit, bind_ret.
  destruct (f n); [|done]. cbn. unfold bind.
  by destruct (walk_nodes _ (walked n) tt tt) as [[[[] []] t]| |].
Qed.

Lemma run_nodes_cons n l :
  walk_nodes (inspector f) (Some n :: l) tt tt =
  match run n with
  | Ok (_, _, t) =>
      match walk_nodes (inspector f) l tt tt with
      | Ok (_, _, t') => Ok (tt, tt, t ++ t')
      | Panic v => Panic v
      | NoFuel => NoFuel
      end
  | Panic v => Panic v
  | NoFuel => NoFuel
  end.
Proof.
  cbn [walk_nodes]. unfold bind. destruct (run n) as [[[[] []] t]| |]; [|done..].
  by destruct (walk_nodes _ l tt tt) as [[[[] []] t']| |].
Qed.

Lemma run_nodes_visits ns :
  Forall (fun m => exists t, run m = Ok (tt, tt, t) /\ forall t', visits f m t' <-> t' = t) ns ->
  exists ts, walk_nodes (inspector f) (map Some ns) tt tt = Ok (tt, tt, List.concat ts) /\
    forall ts', Forall2 (visits f) ns ts' <-> ts' = ts.
Proof.
  induction 1 as [|m ns (t & Er & Ht) Hns (ts & Ers & Hts)]; cbn [map].
  - exists []. split; [done|]. intros ts'. split; [by inversion 1|intros ->; constructor].
  - exists (t :: ts). rewrite run_nodes_cons, Er, Ers. split; [done|]. intros ts'. split.
    + inversion 1 as [|? t' ? ts'' H1 H2]; subst. apply Ht in H1 as ->. by apply Hts in H2 as ->.
    + intros ->. constructor; [by apply Ht|by apply Hts].
Qed.

Lemma run_visits n : whole n -> exists t, run n = Ok (tt, tt, t) /\ forall t', visits f n t' <-> t' = t.
Proof.
  revert n. apply (node_ind' (fun n => whole n -> exists t, run n = Ok (tt, tt, t) /\ forall t', visits f n t' <-> t' = t)).
  intros n IH Hw. destruct Hw as [n Hh Hc]. pose proof (whole_walked n Hh) as Ew. rewrite run_eq, Ew.
  destruct (f n) eqn:Ef.
  - destruct (run_nodes_visits (children n)) as (ts & -> & Hts).
    { apply List.Forall_forall. intros m Hm. apply IH; [|by apply Hc]. rewrite Ew. by apply in_map. }
    eexists. split; [done|]. intros t'. split.
    + inversion 1 as [? Ef'|? ts' _ Hf]; subst; [congruence|]. by apply Hts in Hf as ->.
    + intros ->. constructor; [done|]. by apply Hts.
  - eexists. split; [done|]. intros t'. split; [|intros ->; by constructor].
    inversion 1 as [|? ? Ef' _]; subst; [done|congruence].
Qed.
End Inspect.

(** C34: [Inspect] returns, and the calls that it makes are those of its
    documentation: the node, and if the answer is true, the calls for each
    non-nil child in order and nil at the end.  The tree is without what the
    code treats otherwise ([whole]): statements at the top level of a file,
    which are not visited, and if statements without a condition, fields without
    a type and imports without a path, which are visited as nil or panic. *)
Theorem Inspect_spec root f : whole root ->
  exists t, Inspect root f = Ok t /\ forall t', visits f root t' <-> t' = t.
Proof. intros Hw. destruct (run_visits f root Hw) as (t & E & Ht). exists t. unfold Inspect. by rewrite E. Qed.

(** A file with a function, whose body has an if statement. *)
Definition small_file : node :=
  let x := Name (mkName noPos "x") in
  let body := mkBlockStmt noPos [IfStmt noPos None (Some x) (mkBlockStmt noPos [ReturnStmt noPos (Some x)] noPos) None] noPos in
  NFile (mkFile noPos None (mkName noPos "p") [FuncDecl noPos None None (mkName noPos "f") [] (mkFuncType noPos [] []) (Some body)] [] noPos "").

Lemma Inspect_spec_witness : whole small_file /\
  exists t, Inspect small_file (fun _ => true) = Ok t /\ forall t', visits (fun _ => true) small_file t' <-> t' = t.
Proof.
  assert (Hw : whole small_file).
  { repeat (constructor; [reflexivity|]; cbn; intros ? Hm; repeat destruct Hm as [<-|Hm]; try destruct Hm). }
  split; [exact Hw|]. exact (Inspect_spec small_file (fun _ => true) Hw).
Defined.

Module WalkExamples.
(** An if statement without a condition, which the parser makes for a header
    with an assignment as its value, cannot be walked. *)
Example walk_no_cond :
  Inspect (NStmt (IfStmt noPos None None (mkBlockStmt noPos [] noPos) None)) (fun _ => true) =
  Panic "nil node"%string.
Proof. reflexivity. Qed.

Example walk_sum :
  Inspect (NExpr (Operation noPos Add (Name (mkName noPos "a")) None)) (fun _ => true) =
  Ok [Some (NExpr (Operation noPos Add (Name (mkName noPos "a")) None));
      Some (NExpr (Name (mkName noPos "a"))); None; None].
Proof. reflexivity. Qed.
End WalkExamples.
