(* ===== verification/WellFormed.v ===== *)
(** * Well-formed syntax trees

    What nodes.go says in its comments about the trees of a parsed file, and
    what printer.go, branches.go and positions.go rely on: names and literals
    have a text, an operator has operands that fit, a list expression has two
    elements at least, the fields of a list are all named or all types, and so
    on.  The parser's functions return such trees on every input
    (GrammarFacts.v); the printer and the branch checker do not panic on them
    (PrinterFacts.v, BranchFacts.v). *)

From S2P Require Import Prelude Tokens Pos Nodes Scanner ScannerFacts.

Definition optb {A} (f : A -> bool) (o : option A) : bool :=
  match o with Some x => f x | None => true end.

Definition nonempty (s : string) : bool := match s with EmptyString => false | _ => true end.

Definition wf_name (n : name) : bool := nonempty (Value n).
Definition wf_lit (b : basiclit) : bool := nonempty (lit_Value b).

(** The operators of an operation with one operand. *)
Definition prefixOps : list Operator := [Mul; Add; Sub; Not; Xor; Tilde; And; Recv].

Definition is_FuncType (t : option expr) : bool :=
  match t with Some (FuncType _) => true | _ => false end.

(** All fields have a name, or none has. *)
Definition all_named (l : list field) : bool := forallb (fun f => is_some (field_Name f)) l.
Definition all_unnamed (l : list field) : bool := forallb (fun f => negb (is_some (field_Name f))) l.
Definition param_names (l : list field) : bool := all_named l || all_unnamed l.

(** A named and an unnamed field that are neighbours do not share the node
    of their type. *)
Definition may_follow (f g : field) : bool :=
  match f, g with
  | Field _ n _ id, Field _ n' _ id' => Bool.eqb (is_some n) (is_some n') || negb (Nat.eqb id id')
  end.
Fixpoint neighbours_ok (l : list field) : bool :=
  match l with
  | [] => true
  | f :: l => match l with [] => true | g :: _ => may_follow f g end && neighbours_ok l
  end.

(** A named element of an interface is a method. *)
Definition method_ok (f : field) : bool :=
  match field_Name f with Some _ => is_FuncType (field_Type f) | None => true end.

Definition branch_ok (tok : token) (label : option name) : bool :=
  match tok with
  | _Break | _Continue => true
  | _Fallthrough => negb (is_some label)
  | _Goto => is_some label
  | _ => false
  end.

(** The statements of which the printer prints no block. *)
Definition simple_stmt (s : stmt) : bool :=
  match s with
  | EmptyStmt _ | ExprStmt _ _ | SendStmt _ _ _ | AssignStmt _ _ _ _ | RangeClause _ _ _ _ => true
  | _ => false
  end.

Definition else_ok (s : stmt) : bool :=
  match s with IfStmt _ _ _ _ _ | BlockStmt _ => true | _ => false end.

Fixpoint wf_expr (x : expr) : bool :=
  match x with
  | BadExpr _ => true
  | Name n => wf_name n
  | BasicLit b => wf_lit b
  | CompositeLit _ t l n _ =>
      optb wf_expr t && forallb wf_expr l && (0 <=? n) && (n <=? lenZ l)
  | KeyValueExpr _ k v => wf_expr k && wf_expr v
  | FuncLit _ t b => wf_functype t && wf_block b
  | ParenExpr _ x => wf_expr x
  | SelectorExpr _ x sel => wf_expr x && wf_name sel
  | IndexExpr _ x i => wf_expr x && wf_expr i
  | SliceExpr _ x i j k full =>
      wf_expr x && optb wf_expr i && optb wf_expr j && optb wf_expr k &&
      Bool.eqb full (is_some k) && (negb full || is_some j)
  | AssertExpr _ x t => wf_expr x && wf_expr t
  | TypeSwitchGuard _ lhs x => optb wf_name lhs && wf_expr x
  | Operation _ op x y =>
      wf_expr x && optb wf_expr y &&
      match y with Some _ => 0 <? op_prec op | None => existsb (op_eqb op) prefixOps end
  | CallExpr _ f args dots => wf_expr f && forallb wf_expr args && (negb dots || (0 <? lenZ args))
  | ListExpr _ l => (2 <=? lenZ l) && forallb wf_expr l
  | ArrayType _ len e => optb wf_expr len && wf_expr e
  | SliceType _ e => wf_expr e
  | DotsType _ e => wf_expr e
  | StructType _ fl tl =>
      forallb wf_field fl && neighbours_ok fl && (lenZ tl <=? lenZ fl) && forallb (optb wf_lit) tl
  | InterfaceType _ ml => forallb wf_field ml && forallb method_ok ml
  | FuncType t => wf_functype t
  | MapType _ k v => wf_expr k && wf_expr v
  | ChanType _ _ e => wf_expr e
  end
with wf_field (f : field) : bool :=
  match f with Field _ n t _ => optb wf_name n && is_some t && optb wf_expr t end
with wf_functype (t : functype) : bool :=
  match t with
  | mkFuncType _ ps rs =>
      forallb wf_field ps && param_names ps && forallb wf_field rs && param_names rs
  end
with wf_block (b : blockstmt) : bool :=
  match b with mkBlockStmt _ l _ => forallb wf_stmt l end
with wf_stmt (s : stmt) : bool :=
  match s with
  | EmptyStmt _ => true
  | LabeledStmt _ l s => wf_name l && wf_stmt s
  | BlockStmt b => wf_block b
  | ExprStmt _ x => wf_expr x
  | SendStmt _ c v => wf_expr c && wf_expr v
  | DeclStmt _ l => forallb wf_decl l
  | AssignStmt _ _ l r => wf_expr l && optb wf_expr r
  | BranchStmt _ tok l => branch_ok tok l && optb wf_name l
  | CallStmt _ tok c => (tok_eqb tok _Go || tok_eqb tok _Defer) && wf_expr c
  | ReturnStmt _ r => optb wf_expr r
  | CheckStmt _ c => wf_expr c
  | IfStmt _ i c t e =>
      optb wf_stmt i && optb simple_stmt i && optb wf_expr c && wf_block t && optb wf_stmt e && optb else_ok e
  | ForStmt _ i c p b =>
      optb wf_stmt i && optb simple_stmt i && optb wf_expr c && optb wf_stmt p && optb simple_stmt p && wf_block b
  | SwitchStmt _ i t l _ => optb wf_stmt i && optb simple_stmt i && optb wf_expr t && forallb wf_case l
  | SelectStmt _ l _ => forallb wf_comm l
  | RangeClause _ l _ x => optb wf_expr l && wf_expr x
  end
with wf_case (c : caseclause) : bool :=
  match c with CaseClause _ x l _ => optb wf_expr x && forallb wf_stmt l end
with wf_comm (c : commclause) : bool :=
  match c with CommClause _ s l _ => optb wf_stmt s && optb simple_stmt s && forallb wf_stmt l end
with wf_decl (d : decl) : bool :=
  match d with
  | ImportDecl _ _ _ n p => optb wf_name n && optb wf_lit p
  | ConstDecl _ _ _ l t v => (0 <? lenZ l) && forallb wf_name l && optb wf_expr t && optb wf_expr v
  | TypeDecl _ _ _ n ps _ t => wf_name n && forallb wf_field ps && all_named ps && wf_expr t
  | VarDecl _ _ _ l t v =>
      (0 <? lenZ l) && forallb wf_name l && optb wf_expr t && optb wf_expr v && (is_some t || is_some v)
  | FuncDecl _ _ r n ps t b =>
      optb wf_field r && wf_name n && forallb wf_field ps && all_named ps && wf_functype t && optb wf_block b
  end.

Definition wf_file (f : File) : bool :=
  wf_name (PkgName f) && forallb wf_decl (DeclList f) && forallb wf_stmt (TopLevelStmts f).

(** ** Lemmas *)

Lemma nonempty_ne s : nonempty s = true <-> s <> ""%string.
Proof. destruct s; cbn; split; congruence. Qed.

Lemma forallb_snoc {A} (f : A -> bool) l x : forallb f (l ++ [x]) = forallb f l && f x.
Proof. rewrite forallb_app. cbn. by rewrite andb_true_r. Qed.

Create HintDb wf.
