(* ===== verification/Positions.v ===== *)
(** * src/src/cmd/compile/internal/syntax/positions.go: extents of nodes

    [StartPos] and [EndPos], one function per kind of node.  The end of a node
    may be a panic (a nil node, or the position of a nil literal): [None]. *)

From S2P Require Import Prelude Tokens Pos Nodes.

Fixpoint StartPos (x : expr) : Pos :=
  match x with
  | CompositeLit p type _ _ _ => match type with Some t => StartPos t | None => p end
  | KeyValueExpr _ k _ => StartPos k
  | SelectorExpr _ x _ => StartPos x
  | IndexExpr _ x _ => StartPos x
  | AssertExpr _ x _ => StartPos x
  | TypeSwitchGuard _ lhs x => match lhs with Some n => name_pos n | None => StartPos x end
  | Operation p _ x y => match y with Some _ => StartPos x | None => p end
  | CallExpr _ f _ _ => StartPos f
  | ListExpr p l => match l with x :: _ => StartPos x | [] => p end
  | _ => expr_pos x
  end.

Definition stmt_StartPos (s : stmt) : Pos :=
  match s with
  | SendStmt _ c _ => StartPos c
  | AssignStmt _ _ l _ => StartPos l
  | RangeClause _ lhs _ x => match lhs with Some l => StartPos l | None => StartPos x end
  | _ => stmt_pos s
  end.

Definition file_StartPos (f : File) : Pos := MakePos (Base (file_pos f)) 1 1.

(** ** End positions *)

(** The position [n] columns further. *)
Definition pos_add (p : Pos) (n : Z) : Pos := MakePos (Base p) (Line p) (u64 (Col p + n)).

Definition name_EndPos (n : name) : Pos := pos_add (name_pos n) (slen (Value n)).
Definition lit_EndPos (b : basiclit) : Pos := pos_add (lit_pos b) (slen (lit_Value b)).

(** [lastExpr], [lastField], [lastStmt], [lastDecl]: go on with the last
    element if there is one. *)
Definition last_or {A} (l : list A) (d : A) : A := List.last l d.

Definition nameList_EndPos (p : Pos) (l : list name) : Pos := last_or (map name_EndPos l) p.

(** A [SliceExpr] ends where its operand ends: the [continue] of the loop over
    the indices belongs to that loop, after which [m = n.X]. *)
Fixpoint EndPos (x : expr) : option Pos :=
  match x with
  | BadExpr p => Some p
  | Name n => Some (name_EndPos n)
  | BasicLit b => Some (lit_EndPos b)
  | CompositeLit _ _ _ _ rbrace => Some rbrace
  | KeyValueExpr _ _ v => EndPos v
  | FuncLit _ _ body => Some (block_Rbrace body)
  | ParenExpr _ x => EndPos x
  | SelectorExpr _ _ sel => Some (name_EndPos sel)
  | IndexExpr _ _ i => EndPos i
  | SliceExpr _ x _ _ _ _ => EndPos x
  | AssertExpr _ _ t => EndPos t
  | TypeSwitchGuard _ _ x => EndPos x
  | Operation _ _ x y => match y with Some y => EndPos y | None => EndPos x end
  | CallExpr _ f args _ => last_or (map EndPos args) (EndPos f)
  | ListExpr p l => last_or (map EndPos l) (Some p)
  | ArrayType _ _ e => EndPos e
  | SliceType _ e => EndPos e
  | DotsType _ e => EndPos e
  | StructType p fl _ => last_or (map field_EndPos fl) (Some p)
  | InterfaceType p ml => last_or (map field_EndPos ml) (Some p)
  | FuncType t => functype_EndPos t
  | MapType _ _ v => EndPos v
  | ChanType _ _ e => EndPos e
  end
with field_EndPos (f : field) : option Pos :=
  match f with
  | Field _ n t _ =>
      match t with
      | Some t => EndPos t
      | None => match n with Some n => Some (name_EndPos n) | None => None end
      end
  end
with functype_EndPos (t : functype) : option Pos :=
  match t with
  | mkFuncType p params results => last_or (map field_EndPos results) (last_or (map field_EndPos params) (Some p))
  end.

Definition block_EndPos (b : blockstmt) : Pos := block_Rbrace b.

Definition decl_EndPos (d : decl) : option Pos :=
  match d with
  | ImportDecl _ _ _ _ path => match path with Some b => Some (lit_EndPos b) | None => None end
  | ConstDecl p _ _ names type values | VarDecl p _ _ names type values =>
      match values with
      | Some v => EndPos v
      | None => match type with Some t => EndPos t | None => Some (nameList_EndPos p names) end
      end
  | TypeDecl _ _ _ _ _ _ type => EndPos type
  | FuncDecl _ _ _ _ _ type body =>
      match body with Some b => Some (block_EndPos b) | None => functype_EndPos type end
  end.

(** A [CheckStmt] has no case of its own: the default. *)
Fixpoint stmt_EndPos (s : stmt) : option Pos :=
  match s with
  | EmptyStmt p => Some p
  | LabeledStmt _ _ s => stmt_EndPos s
  | BlockStmt b => Some (block_EndPos b)
  | ExprStmt _ x => EndPos x
  | SendStmt _ _ v => EndPos v
  | DeclStmt p l => last_or (map decl_EndPos l) (Some p)
  | AssignStmt _ _ lhs rhs =>
      match rhs with
      | Some r => EndPos r
      | None => match EndPos lhs with Some p => Some (pos_add p 2) | None => None end
      end
  | BranchStmt p _ label => match label with Some n => Some (name_EndPos n) | None => Some p end
  | CallStmt _ _ c => EndPos c
  | ReturnStmt p r => match r with Some r => EndPos r | None => Some p end
  | CheckStmt p _ => Some p
  | IfStmt _ _ _ thn els => match els with Some s => stmt_EndPos s | None => Some (block_EndPos thn) end
  | ForStmt _ _ _ _ body => Some (block_EndPos body)
  | SwitchStmt _ _ _ _ rbrace => Some rbrace
  | SelectStmt _ _ rbrace => Some rbrace
  | RangeClause _ _ _ x => EndPos x
  end.

Definition case_EndPos (c : caseclause) : option Pos :=
  match c with CaseClause _ _ body colon => last_or (map stmt_EndPos body) (Some colon) end.
Definition comm_EndPos (c : commclause) : option Pos :=
  match c with CommClause _ _ body colon => last_or (map stmt_EndPos body) (Some colon) end.
Definition file_EndPos (f : File) : Pos := file_EOF f.

(** ** Properties *)

(** The nodes whose start is looked for further left. *)
Definition left_operand (x : expr) : option expr :=
  match x with
  | CompositeLit _ (Some t) _ _ _ => Some t
  | KeyValueExpr _ k _ => Some k
  | SelectorExpr _ x _ | IndexExpr _ x _ | AssertExpr _ x _ | TypeSwitchGuard _ None x
  | Operation _ _ x (Some _) | CallExpr _ x _ _ => Some x
  | ListExpr _ (x :: _) => Some x
  | _ => None
  end.
