(* ===== verification/PositionFacts.v ===== *)
(** * Extents of well-formed nodes

    [EndPos] runs down the last parts of a node; on well-formed expressions it
    finds an end. *)

From S2P Require Import Prelude Tokens Pos Nodes Walk WellFormed Positions.

#[local] Open Scope Z_scope.

Definition ended {A} (o : option A) : Prop := is_some o = true.

Lemma last_or_some {A} (l : list (option A)) d : Forall ended l -> ended d -> ended (last_or l d).
Proof.
  intros Hl Hd. unfold last_or. induction Hl as [|x l Hx Hl IH]; [done|]. cbn. by destruct l.
Qed.

(** What a node of the tree has. *)
Definition has_end (n : node) : Prop :=
  match n with
  | NExpr x => wf_expr x = true -> ended (EndPos x)
  | NField f => wf_field f = true -> ended (field_EndPos f)
  | _ => True
  end.

Lemma has_end_list {A} (g : A -> option Pos) (wf : A -> bool) l :
  (forall x, In x l -> wf x = true -> ended (g x)) -> forallb wf l = true -> Forall ended (map g l).
Proof.
  intros Hx Hl. apply Forall_map, List.Forall_forall. intros x Hi. apply Hx; [done|].
  rewrite forallb_forall in Hl. by apply Hl.
Qed.

Ltac end_split :=
  repeat match goal with H : _ && _ = true |- _ => apply andb_true_iff in H as [? ?] end.

Lemma node_has_end n : has_end n.
Proof.
  apply node_ind'. clear n. intros n IH. destruct n as [f|d|x|s|f|c|c|]; try exact I.
  - assert (Hx : forall y, In (Some (NExpr y)) (walked (NExpr x)) -> wf_expr y = true -> ended (EndPos y))
      by (intros y Hi; apply (IH (NExpr y) Hi)).
    assert (Hf : forall g, In (Some (NField g)) (walked (NExpr x)) -> wf_field g = true -> ended (field_EndPos g))
      by (intros g Hi; apply (IH (NField g) Hi)).
    intros Hw. destruct x; cbn [wf_expr EndPos] in *; end_split; try done.
    all: try (apply Hx; [in_children|done]).
    + destruct Y as [y|]; apply Hx; try done; in_children.
    + apply last_or_some; [|apply Hx; [in_children|done]]. apply (has_end_list _ wf_expr); [|assumption].
      intros y Hi. apply Hx. cbn. right. by apply (in_map (fun x => Some (NExpr x))).
    + apply last_or_some; [|done]. apply (has_end_list _ wf_expr); [|assumption].
      intros y Hi. apply Hx. by apply (in_map (fun x => Some (NExpr x))).
    + apply last_or_some; [|done]. apply (has_end_list _ wf_field); [|assumption].
      intros y Hi. apply Hf. cbn. rewrite in_app_iff. left. by apply (in_map (fun x => Some (NField x))).
    + apply last_or_some; [|done]. apply (has_end_list _ wf_field); [|assumption].
      intros y Hi. apply Hf. by apply (in_map (fun x => Some (NField x))).
    + destruct t as [p ps rs]. cbn [wf_functype functype_EndPos] in *. end_split.
      assert (Hall : forall y, In y ps \/ In y rs -> wf_field y = true -> ended (field_EndPos y)).
      { intros y Hi. apply Hf. cbn. rewrite in_app_iff.
        destruct Hi as [Hi|Hi]; [left|right]; by apply (in_map (fun x => Some (NField x))). }
      apply last_or_some; [|apply last_or_some; [|done]]; (apply (has_end_list _ wf_field); [|assumption]);
        intros y Hi; apply Hall; auto.
  - intros Hw. destruct f as [p nam t id]. cbn [wf_field field_EndPos] in *. end_split.
    destruct t as [t|]; [|done]. apply (IH (NExpr t)); [in_children|done].
Qed.

(** [EndPos] finds the end of every well-formed expression and field: it
    meets neither a nil node nor a node without a position. *)
Theorem EndPos_total :
  (forall x, wf_expr x = true -> is_some (EndPos x) = true) /\
  (forall f, wf_field f = true -> is_some (field_EndPos f) = true).
Proof. split; [intros x; apply (node_has_end (NExpr x))|intros f; apply (node_has_end (NField f))]. Qed.
