(* ===== verification/Exprs.v ===== *)
(** * src/src/cmd/compile/internal/syntax/parser.go: functions on expressions

    The parser's classifications of expressions, and the split of an
    expression into a type parameter name and its constraint. *)

From S2P Require Import Prelude Tokens Pos Nodes.

Fixpoint isTypeElem (x : expr) : bool :=
  match x with
  | ArrayType _ _ _ | StructType _ _ _ | FuncType _ | InterfaceType _ _ | SliceType _ _
  | MapType _ _ _ | ChanType _ _ _ => true
  | Operation _ op x y =>
      isTypeElem x || match y with Some y => isTypeElem y | None => false end || op_eqb op Tilde
  | ParenExpr _ x => isTypeElem x
  | _ => false
  end.

Fixpoint isValue (x : expr) : bool :=
  match x with
  | BasicLit _ | CompositeLit _ _ _ _ _ | FuncLit _ _ _ | SliceExpr _ _ _ _ _ _ | AssertExpr _ _ _
  | TypeSwitchGuard _ _ _ | CallExpr _ _ _ _ => true
  | Operation _ op _ y => negb (op_eqb op Mul) || is_some y
  | ParenExpr _ x => isValue x
  | IndexExpr _ x i => isValue x || isValue i
  | _ => false
  end.

Fixpoint Unparen (x : expr) : expr :=
  match x with
  | ParenExpr _ x => Unparen x
  | _ => x
  end.

Definition UnpackListExpr (x : option expr) : list expr :=
  match x with
  | None => []
  | Some (ListExpr _ l) => l
  | Some x => [x]
  end.

Fixpoint extractName (x : expr) (force : bool) : option name * option expr :=
  match x with
  | Name n => (Some n, None)
  | Operation p op x0 (Some y) =>
      if op_eqb op Mul then
        match x0 with
        | Name n =>
            if force || isTypeElem y then (Some n, Some (Operation p op y None)) else (None, Some x)
        | _ => (None, Some x)
        end
      else if op_eqb op Or then
        match extractName x0 (force || isTypeElem y) with
        | (Some n, Some lhs) => (Some n, Some (Operation p op lhs (Some y)))
        | _ => (None, Some x)
        end
      else (None, Some x)
  | CallExpr p (Name n) [arg] false =>
      if force || isTypeElem arg then (Some n, Some (Unparen arg)) else (None, Some x)
  | _ => (None, Some x)
  end.

(** ** Properties *)

Lemma Unparen_idem x : Unparen (Unparen x) = Unparen x.
Proof. induction x; cbn; congruence. Qed.

(** What stands before the constraint when a type parameter [name constraint]
    has been read as an expression: [extractName] inverts this reading. *)
Inductive reads_as_param (n : name) : expr -> expr -> Prop :=
| param_pointer p t : reads_as_param n (Operation p Mul (Name n) (Some t)) (Operation p Mul t None)
| param_paren p t : reads_as_param n (CallExpr p (Name n) [t] false) (Unparen t)
| param_union p x t u :
    reads_as_param n x t ->
    reads_as_param n (Operation p Or x (Some u)) (Operation p Or t (Some u)).

(** The constraint has a type element where the reading requires one. *)
Fixpoint has_type_elem (x : expr) : bool :=
  match x with
  | Operation _ Mul (Name _) (Some t) => isTypeElem t
  | CallExpr _ (Name _) [t] false => isTypeElem t
  | Operation _ Or x (Some u) => isTypeElem u || has_type_elem x
  | _ => false
  end.

Lemma extractName_sound x : forall force n t,
  extractName x force = (Some n, Some t) -> reads_as_param n x t /\ (force || has_type_elem x) = true.
Proof.
  induction x; intros force nm ty H; try discriminate.
  - destruct Y as [y|]; [|done]. cbn [extractName] in H.
    destruct (op_eqb Op Mul) eqn:EM.
    { apply op_eqb_eq in EM as ->. destruct x; try discriminate.
      destruct (force || isTypeElem y) eqn:E; [|discriminate]. injection H as <- <-.
      split; [constructor|]. by cbn. }
    destruct (op_eqb Op Or) eqn:EO; [|discriminate]. apply op_eqb_eq in EO as ->.
    destruct (extractName x (force || isTypeElem y)) as [[n'|] [lhs|]] eqn:E; try discriminate.
    injection H as <- <-. apply IHx in E as [E1 E2]. split; [by constructor|].
    cbn [has_type_elem]. by rewrite orb_assoc.
  - cbn [extractName] in H. destruct x; try discriminate. destruct ArgList as [|a [|? ?]]; try discriminate.
    destruct HasDots; [discriminate|]. destruct (force || isTypeElem a) eqn:E; [|discriminate].
    injection H as <- <-. split; [constructor|]. by cbn.
Qed.

Lemma extractName_complete n x t : reads_as_param n x t ->
  forall force, (force || has_type_elem x) = true -> extractName x force = (Some n, Some t).
Proof.
  induction 1 as [p t|p t|p x t u Hx IH]; intros force Hf; cbn in *; [by rewrite Hf..|].
  rewrite IH; [done|]. by rewrite <- orb_assoc.
Qed.

(** the split of an expression into a type parameter name and a
    constraint: [extractName] answers (name, constraint) exactly when the
    expression is what one reads from "name constraint" ([*T] read as a
    product, [(T)] as a call, a union as a sum) and the constraint is a type
    element or the split is forced. *)
Theorem extractName_spec x force n t :
  extractName x force = (Some n, Some t) <->
  reads_as_param n x t /\ (force || has_type_elem x) = true.
Proof. split; [apply extractName_sound|]. intros [H ?]. by apply extractName_complete. Qed.
