(* ===== verification/Printer.v ===== *)
(** * src/src/cmd/compile/internal/syntax/printer.go: printing syntax trees

    [printer] is the state of the struct over any output writer: a function
    that takes the data to write and returns the number of bytes written and
    perhaps an error.  [print] takes its variadic arguments as a list of [arg];
    a node argument is the action that prints it.  A panic is a Go value: an
    error of the writer, or a message.

    The functions on nodes are structural: lists of fields and declarations
    are first mapped to the printing actions of their parts, and the functions
    that group them work on these. *)

From S2P Require Import Prelude Format Tokens Pos Nodes Exprs.

#[local] Open Scope go_scope.

(** [Form]: the default, [LineForm], [ShortForm]. *)
Inductive Form : Type := DefaultForm | LineForm | ShortForm.

Definition is_short (f : Form) : bool := match f with ShortForm => true | _ => false end.

Inductive ctrlSymbol : Type := none | semi | blank | newline | indent | outdent.

#[export] Instance ctrlSymbol_eq_dec : EqDecision ctrlSymbol.
Proof. solve_decision. Defined.

Record whitespace := Whitespace { ws_last : token; ws_kind : ctrlSymbol }.

Record printer (W : Type) := Printer {
  output : W;
  written : Z;
  form : Form;
  linebreaks : bool;
  indentation : Z;
  nlcount : Z;
  pending : list whitespace;
  lastTok : token
}.

Arguments Printer {W}.
Arguments output {W}.
Arguments written {W}.
Arguments form {W}.
Arguments linebreaks {W}.
Arguments indentation {W}.
Arguments nlcount {W}.
Arguments pending {W}.
Arguments lastTok {W}.

Definition set_output {W} (v : W) (s : printer W) : printer W := Printer v (written s) (form s) (linebreaks s) (indentation s) (nlcount s) (pending s) (lastTok s).
Definition set_written {W} (v : Z) (s : printer W) : printer W := Printer (output s) v (form s) (linebreaks s) (indentation s) (nlcount s) (pending s) (lastTok s).
Definition set_indentation {W} (v : Z) (s : printer W) : printer W := Printer (output s) (written s) (form s) (linebreaks s) v (nlcount s) (pending s) (lastTok s).
Definition set_nlcount {W} (v : Z) (s : printer W) : printer W := Printer (output s) (written s) (form s) (linebreaks s) (indentation s) v (pending s) (lastTok s).
Definition set_pending {W} (v : list whitespace) (s : printer W) : printer W := Printer (output s) (written s) (form s) (linebreaks s) (indentation s) (nlcount s) v (lastTok s).
Definition set_lastTok {W} (v : token) (s : printer W) : printer W := Printer (output s) (written s) (form s) (linebreaks s) (indentation s) (nlcount s) (pending s) v.

(** What a panic carries: [writeError{err}] or the message of another panic. *)
Inductive pval : Type := writeError (err : string) | otherPanic (msg : string).

Definition impliesSemi (tok : token) : bool :=
  match tok with
  | _Name | _Break | _Continue | _Fallthrough | _Return | _Rparen | _Rbrack | _Rbrace => true
  | _ => false
  end.

(** A nil pointer dereference, a failed type assertion. *)
Definition nilDeref : pval := otherPanic "nil pointer dereference".
Definition badAssert : pval := otherPanic "interface conversion".

Fixpoint combinesWithName (x : expr) : bool :=
  match x with
  | Operation _ op x0 None => op_eqb op Mul && negb (isTypeElem x0)
  | Operation _ op x0 (Some y) => combinesWithName x0 && negb (isTypeElem y)
  | ParenExpr _ x => negb (isTypeElem x)
  | _ => false
  end.

Section Printer.
Context {W : Type} (w_write : W -> list byte -> W * Z * option string).

Definition PM : Type -> Type := GM pval Empty_set (printer W).

(** ** Output *)

Definition write (data : list byte) : PM unit :=
  let* w := gets output in
  let '(w', n, err) := w_write w data in
  modify (fun p => set_written (written p + n) (set_output w' p));;;
  match err with
  | None => ret tt
  | Some err => panic (writeError err)
  end.

Definition tabBytes : list byte := repeat 9 8.
Definition newlineByte : list byte := [10].
Definition blankByte : list byte := [32].

(** [for n > len(tabBytes) { p.write(tabBytes); n -= len(tabBytes) }], then
    the rest. *)
Definition write_indentation (n : Z) : PM unit :=
  iterM (Datatypes.S (Z.to_nat n)) (fun n : Z =>
    if lenZ tabBytes <? n then write tabBytes;;; ret (inl (n - lenZ tabBytes))
    else write (slice tabBytes 0 n);;; ret (inr tt)) n.

Definition writeBytes (data : list byte) : PM unit :=
  if lenZ data =? 0 then panic (otherPanic "expected non-empty []byte") else
  let* nl := gets nlcount in
  let* n := gets indentation in
  when (0 <? nl) && (0 <? n) do write_indentation n;;;
  write data;;;
  modify (set_nlcount 0).

Definition writeString (s : string) : PM unit := writeBytes (bytes_of_string s).

Definition addWhitespace (kind : ctrlSymbol) : PM unit :=
  modify (fun p => set_pending (pending p ++ [Whitespace (lastTok p) kind]) p);;;
  match kind with
  | semi => modify (set_lastTok _Semi)
  | newline => modify (set_lastTok _None)
  | _ => ret tt
  end.

(** The first loop of [flush], from the last pending symbol to the first:
    which semicolons stay.  [None] is the panic of an impossible symbol. *)
Fixpoint eliminate (sawNewline sawParen : bool) (rev_pending : list whitespace)
  : option (list whitespace) :=
  match rev_pending with
  | [] => Some []
  | w :: ws =>
      match ws_kind w with
      | semi =>
          if sawParen then
            cons (Whitespace (ws_last w) none) <$> eliminate sawNewline false ws
          else if sawNewline && impliesSemi (ws_last w) then
            cons (Whitespace (ws_last w) none) <$> eliminate false sawParen ws
          else cons w <$> eliminate sawNewline sawParen ws
      | newline => cons w <$> eliminate true sawParen ws
      | blank | indent | outdent => cons w <$> eliminate sawNewline sawParen ws
      | none => None
      end
  end.

Definition maxEmptyLines : Z := 1.

(** The second loop: print the pending symbols. *)
Fixpoint print_pending (prev : ctrlSymbol) (ws : list whitespace) : PM unit :=
  match ws with
  | [] => ret tt
  | w :: ws =>
      match ws_kind w with
      | none => print_pending prev ws
      | semi =>
          writeString ";";;; modify (set_nlcount 0);;; print_pending semi ws
      | blank =>
          if negb (bool_decide (prev = blank)) then
            writeBytes blankByte;;; modify (set_nlcount 0);;; print_pending blank ws
          else print_pending prev ws
      | newline =>
          let* nl := gets nlcount in
          if nl <=? maxEmptyLines then
            write newlineByte;;; modify (fun p => set_nlcount (nlcount p + 1) p);;;
            print_pending newline ws
          else print_pending prev ws
      | indent =>
          modify (fun p => set_indentation (indentation p + 1) p);;; print_pending prev ws
      | outdent =>
          modify (fun p => set_indentation (indentation p - 1) p);;;
          let* n := gets indentation in
          if n <? 0 then panic (otherPanic "negative indentation")
          else print_pending prev ws
      end
  end.

Definition flush (next : token) : PM unit :=
  let sawNewline := tok_eqb next _EOF in
  let sawParen := tok_eqb next _Rparen || tok_eqb next _Rbrace in
  let* ws := gets pending in
  match eliminate sawNewline sawParen (rev ws) with
  | None => panic (otherPanic "unreachable")
  | Some ws => print_pending none (rev ws);;; modify (set_pending [])
  end.

(** ** print *)

(** An argument of [print]: a nil, a node, a token, the token [_Name] with
    the string after it, an operator, a control symbol. *)
Inductive arg : Type :=
| ANil
| ANode (m : PM unit)
| ATok (t : token)
| AName (s : string)
| AOp (o : Operator)
| ACtrl (c : ctrlSymbol).

(** A token with the string to print for it. *)
Definition print_token (x : token) (s : string) : PM unit :=
  if tok_eqb x _Semi then addWhitespace semi
  else flush x;;; writeString s;;; modify (set_nlcount 0);;; modify (set_lastTok x).

Definition print_arg (a : arg) : PM unit :=
  match a with
  | ANil => ret tt
  | ANode m => m
  | AName s => print_token _Name s
  | ATok x =>
      if tok_eqb x _Name then panic (otherPanic "missing string argument after _Name")
      else print_token x (token_String x)
  | AOp o =>
      if negb (op_eqb o OpNone) then flush _Operator;;; writeString (Operator_String o) else ret tt
  | ACtrl c =>
      match c with
      | none | semi => panic (otherPanic "unreachable")
      | newline =>
          let* b := gets linebreaks in
          addWhitespace (if negb b then blank else newline)
      | c => addWhitespace c
      end
  end.

Fixpoint print (args : list arg) : PM unit :=
  match args with
  | [] => ret tt
  | a :: args => print_arg a;;; print args
  end.

(** [for i, x := range list { if i > 0 { p.print(sep...) }; f(x) }] *)
Fixpoint print_sep (sep : list arg) (l : list (PM unit)) : PM unit :=
  match l with
  | [] => ret tt
  | m :: l =>
      m;;;
      match l with
      | [] => ret tt
      | _ => print sep;;; print_sep sep l
      end
  end.

Definition print_name (n : name) : PM unit := print [AName (Value n)].
Definition print_lit (b : basiclit) : PM unit := print [AName (lit_Value b)].
Definition printNameList (l : list name) : PM unit :=
  print_sep [ATok _Comma; ACtrl blank] (map print_name l).

Definition printExprList (l : list (PM unit)) : PM unit := print_sep [ATok _Comma; ACtrl blank] l.


Fixpoint print_each (f : PM unit -> PM unit) (l : list (PM unit)) : PM unit :=
  match l with
  | [] => ret tt
  | m :: l => f m;;; print_each f l
  end.

Definition printExprLines (l : list (PM unit)) : PM unit :=
  when 0 <? lenZ l do
    (print [ACtrl newline; ACtrl indent];;;
     print_each (fun m => print [ANode m; ATok _Comma; ACtrl newline]) l;;;
     print [ACtrl outdent]).

(** ** Fields *)

(** A field with the actions that print its type, as a node and (if it is a
    function type) as a signature. *)
Record pfield := PField {
  pf_Name : option name;
  pf_Type : option expr;
  pf_id : nat;
  pf_print : PM unit;
  pf_sig : PM unit
}.

(** [f.Type == g.Type], a comparison of pointers. *)
Definition same_Type (f g : pfield) : bool :=
  match pf_Type f, pf_Type g with
  | None, None => true
  | Some _, Some _ => Nat.eqb (pf_id f) (pf_id g)
  | _, _ => false
  end.

Definition print_field_name (f : pfield) : PM unit :=
  match pf_Name f with Some n => print_name n | None => panic nilDeref end.

Definition noField : pfield := PField None None 0 (ret tt) (ret tt).

Definition printFields (fields : list pfield) (tags : list (option basiclit)) (i j : Z) : PM unit :=
  let f := nthZ noField fields i in
  (if (i + 1 =? j) && negb (is_some (pf_Name f)) then pf_print f
   else
     print_sep [ATok _Comma; ACtrl blank] (map print_field_name (slice fields i j));;;
     print [ACtrl blank];;;
     pf_print f);;;
  match nthZ None tags i with
  | Some t => print [ACtrl blank];;; print_lit t
  | None => ret tt
  end.

(** The loop of [printFieldList] from index [i] on; [prev] is the field that
    [typ] comes from ([None] is the initial nil type). *)
Fixpoint printFieldList_loop (fields : list pfield) (tags : list (option basiclit)) (sep : token)
    (i0 i : Z) (prev : option pfield) (rest : list pfield) : PM unit :=
  match rest with
  | [] => printFields fields tags i0 (lenZ fields)
  | f :: rest =>
      if negb (is_some (pf_Name f)) || negb (same_Type f (default noField prev)) then
        if i0 <? i then
          printFields fields tags i0 i;;;
          print [ATok sep; ACtrl newline];;;
          printFieldList_loop fields tags sep i (i + 1) (Some f) rest
        else printFieldList_loop fields tags sep i0 (i + 1) (Some f) rest
      else printFieldList_loop fields tags sep i0 (i + 1) prev rest
  end.

Definition printFieldList (fields : list pfield) (tags : list (option basiclit)) (sep : token) : PM unit :=
  printFieldList_loop fields tags sep 0 0 None fields.

Definition printMethodList (methods : list pfield) : PM unit :=
  print_sep [ATok _Semi; ACtrl newline]
    (map (fun m =>
            match pf_Name m with
            | Some n => print_name n;;; pf_sig m
            | None => pf_print m
            end) methods).

(** The loop of [printParameterList]. *)
Fixpoint printParameters (first : bool) (l : list pfield) : PM unit :=
  match l with
  | [] => ret tt
  | f :: l =>
      when negb first do print [ATok _Comma; ACtrl blank];;;
      match pf_Name f with
      | Some n =>
          print_name n;;;
          (if match l with
              | f1 :: _ => is_some (pf_Name f1) && same_Type f1 f
              | [] => false
              end
           then ret tt
           else print [ACtrl blank];;; pf_print f)
      | None => pf_print f
      end;;;
      printParameters false l
  end.

(** [tok] is [_None] (the code's 0), [_Type] or [_Func]. *)
Definition printParameterList (l : list pfield) (tok : token) : PM unit :=
  let typeParams := negb (tok_eqb tok _None) in
  print [ATok (if typeParams then _Lbrack else _Lparen)];;;
  printParameters true l;;;
  when tok_eqb tok _Type &&
       match l with
       | [f] => match pf_Type f with Some t => combinesWithName t | None => false end
       | _ => false
       end
  do print [ATok _Comma];;;
  print [ATok (if typeParams then _Rbrack else _Rparen)].

Definition printSignature (params results : list pfield) : PM unit :=
  printParameterList params _None;;;
  match results with
  | [] => ret tt
  | [PField None _ _ m _] => print [ACtrl blank];;; m
  | l => print [ACtrl blank];;; printParameterList l _None
  end.

(** ** Declarations *)

(** A declaration with what [groupFor] says and the action that prints it. *)
Record pdecl := PDecl { pd_tok : token; pd_group : option Group; pd_print : PM unit }.

Definition groupFor (d : decl) : token * option Group :=
  match d with
  | ImportDecl _ g _ _ _ => (_Import, g)
  | ConstDecl _ g _ _ _ _ => (_Const, g)
  | TypeDecl _ g _ _ _ _ _ => (_Type, g)
  | VarDecl _ g _ _ _ _ => (_Var, g)
  | FuncDecl _ _ _ _ _ _ _ => (_Func, None)
  end.

(** The printing of a [*printGroup]. *)
Definition print_group (tok : token) (decls : list pdecl) : PM unit :=
  print [ATok tok; ACtrl blank; ATok _Lparen];;;
  when 0 <? lenZ decls do
    (print [ACtrl newline; ACtrl indent];;;
     print_each (fun m => m;;; print [ATok _Semi; ACtrl newline]) (map pd_print decls);;;
     print [ACtrl outdent]);;;
  print [ATok _Rparen].

Definition printDecl (l : list pdecl) : PM unit :=
  match l with
  | [] => panic (otherPanic "index out of range")
  | d :: rest =>
      match pd_group d with
      | None =>
          match rest with
          | [] => pd_print d
          | _ => panic (otherPanic "unreachable")
          end
      | Some _ => print_group (pd_tok d) l
      end
  end.

Definition same_group (g h : option Group) : bool :=
  match g, h with
  | None, None => true
  | Some g, Some h => Nat.eqb g h
  | _, _ => false
  end.

Fixpoint printDeclList_loop (list : list pdecl) (i0 i : Z) (tok : token) (group : option Group)
    (rest : Datatypes.list pdecl) : PM unit :=
  match rest with
  | [] => printDecl (slice list i0 (lenZ list))
  | x :: rest =>
      let '(s, g) := (pd_tok x, pd_group x) in
      if negb (is_some g) || negb (same_group g group) then
        if i0 <? i then
          printDecl (slice list i0 i);;;
          print [ATok _Semi; ACtrl newline];;;
          when negb (same_group g group) || negb (tok_eqb s tok) || tok_eqb s _Func do
            print [ACtrl newline];;;
          printDeclList_loop list i (i + 1) s g rest
        else printDeclList_loop list i0 (i + 1) s g rest
      else printDeclList_loop list i0 (i + 1) tok group rest
  end.

Definition printDeclList (list : list pdecl) : PM unit :=
  printDeclList_loop list 0 0 _None None list.

(** ** Statement lists *)

(** A statement with the action that prints it and whether it is empty. *)
Fixpoint printStmtList (l : list (PM unit * bool)) (braces : bool) : PM unit :=
  match l with
  | [] => ret tt
  | (x, isEmpty) :: rest =>
      print [ANode x; ATok _Semi];;;
      match rest with
      | [] => when braces && isEmpty do print [ANode x; ATok _Semi]
      | _ => print [ACtrl newline]
      end;;;
      printStmtList rest braces
  end.

(** The body of a case or communication clause after its head. *)
Definition print_clause_body (body : list (PM unit * bool)) (braces : bool) : PM unit :=
  print [ATok _Colon];;;
  when 0 <? lenZ body do
    (print [ACtrl newline; ACtrl indent];;;
     printStmtList body braces;;;
     print [ACtrl outdent]).

(** The clauses of a switch or select statement; each is given whether it is
    the last one. *)
Fixpoint print_clauses (l : list (bool -> PM unit)) : PM unit :=
  match l with
  | [] => ret tt
  | c :: rest =>
      c (lenZ rest =? 0);;; print [ACtrl newline];;; print_clauses rest
  end.

Definition print_clause_list (l : list (bool -> PM unit)) : PM unit :=
  print [ATok _Lbrace];;;
  when 0 <? lenZ l do (print [ACtrl newline];;; print_clauses l);;;
  print [ATok _Rbrace].

Definition is_chan_recv (x : expr) : bool :=
  match x with ChanType _ RecvOnly _ => true | _ => false end.
Definition is_EmptyStmt (s : stmt) : bool := match s with EmptyStmt _ => true | _ => false end.
Definition is_RangeClause (s : stmt) : bool := match s with RangeClause _ _ _ _ => true | _ => false end.

(** An optional node as an argument of [print]. *)
Definition opt_node (m : option (PM unit)) : arg :=
  match m with Some m => ANode m | None => ANil end.
Definition opt_name (n : option name) : list arg :=
  match n with Some n => [ANode (print_name n); ACtrl blank] | None => [] end.

(** ** printRawNode *)

Fixpoint printExpr (x : expr) : PM unit :=
  match x with
  | BadExpr _ => print [AName "<bad expr>"]
  | Name n => print_name n
  | BasicLit b => print_lit b
  | FuncLit _ t body =>
      print [ANode (printFuncType t); ACtrl blank];;;
      let* f := gets form in
      if is_short f then
        print [ATok _Lbrace];;;
        when 0 <? lenZ (block_List body) do print [AName "…"];;;
        print [ATok _Rbrace]
      else printBlock body
  | CompositeLit _ t elems nkeys _ =>
      match t with Some t => printExpr t | None => ret tt end;;;
      print [ATok _Lbrace];;;
      let* f := gets form in
      (if is_short f then when 0 <? lenZ elems do print [AName "…"]
       else if (0 <? nkeys) && (nkeys =? lenZ elems) then printExprLines (map printExpr elems)
       else printExprList (map printExpr elems));;;
      print [ATok _Rbrace]
  | ParenExpr _ x => print [ATok _Lparen; ANode (printExpr x); ATok _Rparen]
  | SelectorExpr _ x sel => print [ANode (printExpr x); ATok _Dot; ANode (print_name sel)]
  | IndexExpr _ x i => print [ANode (printExpr x); ATok _Lbrack; ANode (printExpr i); ATok _Rbrack]
  | SliceExpr _ x i j k _ =>
      print [ANode (printExpr x); ATok _Lbrack];;;
      match i with Some i => printExpr i | None => ret tt end;;;
      print [ATok _Colon];;;
      match j with Some j => printExpr j | None => ret tt end;;;
      match k with Some k => print [ATok _Colon; ANode (printExpr k)] | None => ret tt end;;;
      print [ATok _Rbrack]
  | AssertExpr _ x t =>
      print [ANode (printExpr x); ATok _Dot; ATok _Lparen; ANode (printExpr t); ATok _Rparen]
  | TypeSwitchGuard _ lhs x =>
      match lhs with
      | Some n => print [ANode (print_name n); ACtrl blank; ATok _Define; ACtrl blank]
      | None => ret tt
      end;;;
      print [ANode (printExpr x); ATok _Dot; ATok _Lparen; ATok _Type; ATok _Rparen]
  | CallExpr _ f args dots =>
      print [ANode (printExpr f); ATok _Lparen];;;
      printExprList (map printExpr args);;;
      when dots do print [ATok _DotDotDot];;;
      print [ATok _Rparen]
  | Operation _ op x y =>
      match y with
      | None => print [AOp op];;; print [ANode (printExpr x)]
      | Some y => print [ANode (printExpr x); ACtrl blank; AOp op; ACtrl blank; ANode (printExpr y)]
      end
  | KeyValueExpr _ k v => print [ANode (printExpr k); ATok _Colon; ACtrl blank; ANode (printExpr v)]
  | ListExpr _ l => printExprList (map printExpr l)
  | ArrayType _ len e =>
      print [ATok _Lbrack;
             match len with Some l => ANode (printExpr l) | None => ATok _DotDotDot end;
             ATok _Rbrack; ANode (printExpr e)]
  | SliceType _ e => print [ATok _Lbrack; ATok _Rbrack; ANode (printExpr e)]
  | DotsType _ e => print [ATok _DotDotDot; ANode (printExpr e)]
  | StructType _ fields tags =>
      print [ATok _Struct];;;
      let* lb := gets linebreaks in
      when (0 <? lenZ fields) && lb do print [ACtrl blank];;;
      print [ATok _Lbrace];;;
      when 0 <? lenZ fields do
        (if lb then
           print [ACtrl newline; ACtrl indent];;;
           printFieldList (map printField fields) tags _Semi;;;
           print [ACtrl outdent; ACtrl newline]
         else printFieldList (map printField fields) tags _Semi);;;
      print [ATok _Rbrace]
  | FuncType t => printFuncType t
  | InterfaceType _ methods =>
      print [ATok _Interface];;;
      let* lb := gets linebreaks in
      (if lb && (1 <? lenZ methods) then
         print [ACtrl blank];;;
         print [ATok _Lbrace];;;
         print [ACtrl newline; ACtrl indent];;;
         printMethodList (map printField methods);;;
         print [ACtrl outdent; ACtrl newline]
       else print [ATok _Lbrace];;; printMethodList (map printField methods));;;
      print [ATok _Rbrace]
  | MapType _ k v =>
      print [ATok _Map; ATok _Lbrack; ANode (printExpr k); ATok _Rbrack; ANode (printExpr v)]
  | ChanType _ dir e =>
      when bool_decide (dir = RecvOnly) do print [ATok _Arrow];;;
      print [ATok _Chan];;;
      when bool_decide (dir = SendOnly) do print [ATok _Arrow];;;
      print [ACtrl blank];;;
      (if bool_decide (dir = NoDir) && is_chan_recv e then
         print [ATok _Lparen];;; print [ANode (printExpr e)];;; print [ATok _Rparen]
       else print [ANode (printExpr e)])
  end
with printField (f : field) : pfield :=
  match f with
  | Field _ n t id =>
      PField n t id
        match t with Some t => printExpr t | None => ret tt end
        match t with
        | Some (FuncType ft) => printSig ft
        | _ => panic badAssert
        end
  end
(** A [*FuncType] node, and its signature. *)
with printFuncType (t : functype) : PM unit :=
  match t with
  | mkFuncType _ params results =>
      print [ATok _Func];;; printSignature (map printField params) (map printField results)
  end
with printSig (t : functype) : PM unit :=
  match t with
  | mkFuncType _ params results => printSignature (map printField params) (map printField results)
  end
with printBlock (b : blockstmt) : PM unit :=
  match b with
  | mkBlockStmt _ l _ =>
      print [ATok _Lbrace];;;
      when 0 <? lenZ l do
        (print [ACtrl newline; ACtrl indent];;;
         printStmtList (map (fun s => (printStmt s, is_EmptyStmt s)) l) true;;;
         print [ACtrl outdent; ACtrl newline]);;;
      print [ATok _Rbrace]
  end
with printStmt (s : stmt) : PM unit :=
  match s with
  | DeclStmt _ l => printDecl (map printDeclNode l)
  | EmptyStmt _ => ret tt
  | LabeledStmt _ label s =>
      print [ACtrl outdent; ANode (print_name label); ATok _Colon; ACtrl indent; ACtrl newline;
             ANode (printStmt s)]
  | ExprStmt _ x => print [ANode (printExpr x)]
  | SendStmt _ c v =>
      print [ANode (printExpr c); ACtrl blank; ATok _Arrow; ACtrl blank; ANode (printExpr v)]
  | AssignStmt _ op lhs rhs =>
      print [ANode (printExpr lhs)];;;
      match rhs with
      | None => print [AOp op; AOp op]
      | Some r =>
          print [ACtrl blank; AOp op; ATok _Assign; ACtrl blank];;;
          print [ANode (printExpr r)]
      end
  | CallStmt _ tok c => print [ATok tok; ACtrl blank; ANode (printExpr c)]
  | ReturnStmt _ r =>
      print [ATok _Return];;;
      match r with Some r => print [ACtrl blank; ANode (printExpr r)] | None => ret tt end
  | BranchStmt _ tok label =>
      print [ATok tok];;;
      match label with Some n => print [ACtrl blank; ANode (print_name n)] | None => ret tt end
  | BlockStmt b => printBlock b
  | IfStmt _ init cond thn els =>
      print [ATok _If; ACtrl blank];;;
      match init with
      | Some i => print [ANode (printStmt i); ATok _Semi; ACtrl blank]
      | None => ret tt
      end;;;
      print [opt_node match cond with Some c => Some (printExpr c) | None => None end;
             ACtrl blank; ANode (printBlock thn)];;;
      match els with
      | Some e => print [ACtrl blank; ATok _Else; ACtrl blank; ANode (printStmt e)]
      | None => ret tt
      end
  | SwitchStmt _ init tag body _ =>
      print [ATok _Switch; ACtrl blank];;;
      match init with
      | Some i => print [ANode (printStmt i); ATok _Semi; ACtrl blank]
      | None => ret tt
      end;;;
      match tag with Some t => print [ANode (printExpr t); ACtrl blank] | None => ret tt end;;;
      print_clause_list (map printCaseClause body)
  | SelectStmt _ body _ =>
      print [ATok _Select; ACtrl blank];;;
      print_clause_list (map printCommClause body)
  | RangeClause _ lhs def x =>
      match lhs with
      | Some l =>
          print [ANode (printExpr l); ACtrl blank; ATok (if def then _Define else _Assign); ACtrl blank]
      | None => ret tt
      end;;;
      print [ATok _Range; ACtrl blank; ANode (printExpr x)]
  | ForStmt _ init cond post body =>
      print [ATok _For; ACtrl blank];;;
      match init, post with
      | None, None =>
          match cond with Some c => print [ANode (printExpr c); ACtrl blank] | None => ret tt end;;;
          print [ANode (printBlock body)]
      | _, _ =>
          match init with Some i => print [ANode (printStmt i)] | None => ret tt end;;;
          if match init with Some i => is_RangeClause i | None => false end then
            print [ACtrl blank; ANode (printBlock body)]
          else
            print [ATok _Semi; ACtrl blank];;;
            match cond with Some c => print [ANode (printExpr c)] | None => ret tt end;;;
            print [ATok _Semi; ACtrl blank];;;
            match post with Some q => print [ANode (printStmt q); ACtrl blank] | None => ret tt end;;;
            print [ANode (printBlock body)]
      end
  | CheckStmt _ _ => panic (otherPanic "syntax.Iterate: unexpected node type *syntax.CheckStmt")
  end
with printCaseClause (c : caseclause) : bool -> PM unit :=
  match c with
  | CaseClause _ cases body _ => fun braces =>
      match cases with
      | Some x => print [ATok _Case; ACtrl blank; ANode (printExpr x)]
      | None => print [ATok _Default]
      end;;;
      print_clause_body (map (fun s => (printStmt s, is_EmptyStmt s)) body) braces
  end
with printCommClause (c : commclause) : bool -> PM unit :=
  match c with
  | CommClause _ comm body _ => fun braces =>
      match comm with
      | Some s => print [ATok _Case; ACtrl blank];;; print [ANode (printStmt s)]
      | None => print [ATok _Default]
      end;;;
      print_clause_body (map (fun s => (printStmt s, is_EmptyStmt s)) body) braces
  end
with printDeclNode (d : decl) : pdecl :=
  let head tok (group : option Group) : PM unit :=
    match group with None => print [ATok tok; ACtrl blank] | Some _ => ret tt end in
  PDecl (groupFor d).1 (groupFor d).2
    match d with
    | ImportDecl _ group _ local path =>
        head _Import group;;;
        print (opt_name local);;;
        match path with Some b => print [ANode (print_lit b)] | None => panic nilDeref end
    | ConstDecl _ group _ names type values =>
        head _Const group;;;
        printNameList names;;;
        match type with Some t => print [ACtrl blank; ANode (printExpr t)] | None => ret tt end;;;
        match values with
        | Some v => print [ACtrl blank; ATok _Assign; ACtrl blank; ANode (printExpr v)]
        | None => ret tt
        end
    | VarDecl _ group _ names type values =>
        head _Var group;;;
        printNameList names;;;
        match type with Some t => print [ACtrl blank; ANode (printExpr t)] | None => ret tt end;;;
        match values with
        | Some v => print [ACtrl blank; ATok _Assign; ACtrl blank; ANode (printExpr v)]
        | None => ret tt
        end
    | TypeDecl _ group _ n tparams alias type =>
        head _Type group;;;
        print [ANode (print_name n)];;;
        match tparams with
        | [] => ret tt
        | _ => printParameterList (map printField tparams) _Type
        end;;;
        print [ACtrl blank];;;
        when alias do print [ATok _Assign; ACtrl blank];;;
        print [ANode (printExpr type)]
    | FuncDecl _ _ recv n tparams type body =>
        print [ATok _Func; ACtrl blank];;;
        match recv with
        | Some r =>
            print [ATok _Lparen];;;
            print (opt_name (pf_Name (printField r)));;;
            pf_print (printField r);;;
            print [ATok _Rparen; ACtrl blank]
        | None => ret tt
        end;;;
        print [ANode (print_name n)];;;
        match tparams with
        | [] => ret tt
        | _ => printParameterList (map printField tparams) _Func
        end;;;
        printSig type;;;
        match body with Some b => print [ACtrl blank; ANode (printBlock b)] | None => ret tt end
    end.

Definition printFile (f : File) : PM unit :=
  print [ATok _Package; ACtrl blank; ANode (print_name (PkgName f))];;;
  when 0 <? lenZ (DeclList f) do
    (print [ATok _Semi; ACtrl newline; ACtrl newline];;;
     printDeclList (map printDeclNode (DeclList f))).

(** ** Fprint

    [Fprint] of a node, given by the action that prints it: the writer and
    the number of bytes written; or the error of the writer (the count is
    not kept); or a panic that is not an error of the writer. *)
Inductive FprintResult : Type :=
| Printed (w : W) (n : Z)
| WriteError (err : string)
| PrintPanic (msg : string).

Definition newPrinter (w : W) (f : Form) : printer W :=
  Printer w 0 f (match f with DefaultForm => true | _ => false end) 0 0 [] _None.

Definition Fprint (w : W) (x : PM unit) (f : Form) : FprintResult :=
  match (print [ANode x];;; flush _EOF) (newPrinter w f) with
  | Ok (_, p, _) => Printed (output p) (written p)
  | Panic (writeError err) => WriteError err
  | Panic (otherPanic msg) => PrintPanic msg
  | NoFuel => PrintPanic "out of fuel"
  end.
End Printer.

(** ** String

    [strings.Builder]: writing appends and does not fail, so that the error
    branch of [String] is not taken.  [None] is a panic. *)
Definition Builder_Write (w data : list byte) : list byte * Z * option string :=
  (w ++ data, lenZ data, None).

Definition Fprint_Builder (x : PM (W := list byte) unit) (f : Form) : option string :=
  match Fprint Builder_Write [] x f with
  | Printed w _ => Some (string_of_bytes w)
  | WriteError err => Some ("<<< ERROR: " +s+ err)
  | PrintPanic _ => None
  end.

Definition String_expr (x : expr) : option string :=
  Fprint_Builder (printExpr Builder_Write x) ShortForm.
Definition String_stmt (s : stmt) : option string :=
  Fprint_Builder (printStmt Builder_Write s) ShortForm.

Definition ex_name (s : string) : expr := Name (mkName noPos s).

Example String_binary :
  String_stmt (AssignStmt noPos OpNone (ex_name "a")
    (Some (Operation noPos Add (ex_name "b") (Some (CallExpr noPos (ex_name "f") [ex_name "x"; ex_name "y"] false)))))
  = Some "a = b + f(x, y)"%string.
Proof. vm_compute. reflexivity. Qed.

Example String_types :
  String_expr (StructType noPos
    [Field noPos (Some (mkName noPos "a")) (Some (ex_name "T")) 0;
     Field noPos (Some (mkName noPos "b")) (Some (ex_name "T")) 0;
     Field noPos None (Some (ex_name "E")) 1;
     Field noPos (Some (mkName noPos "c")) (Some (ChanType noPos NoDir (ChanType noPos RecvOnly (ex_name "U")))) 2] [])
  = Some "struct{a, b T; E; c chan (<-chan U)}"%string.
Proof. vm_compute. reflexivity. Qed.

Example Fprint_file :
  Fprint_Builder (printFile Builder_Write
    (mkFile noPos None (mkName noPos "main")
       [ConstDecl noPos (Some 1%nat) None [mkName noPos "a"] None (Some (ex_name "x"));
        ConstDecl noPos (Some 1%nat) None [mkName noPos "b"] None None;
        FuncDecl noPos None None (mkName noPos "f") [] (mkFuncType noPos [] [])
          (Some (mkBlockStmt noPos
             [ForStmt noPos None (Some (ex_name "c")) None (mkBlockStmt noPos [BranchStmt noPos _Break None] noPos);
              ReturnStmt noPos None] noPos))]
       [] noPos "")) DefaultForm
  = Some (string_of_bytes (List.concat (map (fun l => bytes_of_string l ++ [10])
      ["package main"; ""; "const ("; "	a = x"; "	b"; ")"; ""; "func f() {"; "	for c {"; "		break"; "	}";
       "	return"]%string) ++ bytes_of_string "}")).
Proof. vm_compute. reflexivity. Qed.
