(* ===== verification/PrinterFacts.v ===== *)
(** * What the printer promises

    In [ShortForm], the form that [String] uses, the printer does not panic on
    well-formed trees: there are no line breaks and no indentation, every
    string it writes is not empty, and the fields that it prints as one group
    all have a name. *)

From S2P Require Import Prelude Format Tokens Pos Nodes Walk WellFormed Exprs Printer.

#[local] Open Scope go_scope.

(** ** The second loop of [flush] never meets an impossible symbol *)

Definition ws_short (w : whitespace) : Prop := ws_kind w = blank \/ ws_kind w = semi.
Definition ws_printed (w : whitespace) : Prop := ws_short w \/ ws_kind w = none.

Lemma eliminate_short ws : Forall ws_short ws ->
  forall nl paren, exists ws', eliminate nl paren ws = Some ws' /\ Forall ws_printed ws'.
Proof.
  induction 1 as [|w ws Hw _ IH]; intros nl paren; cbn [eliminate]; [by exists []|].
  assert (Hw' : ws_printed w) by by left.
  assert (Hn : ws_printed (Whitespace (ws_last w) none)) by by right.
  destruct Hw as [-> | ->].
  - destruct (IH nl paren) as (ws' & -> & ?). exists (w :: ws'). by split; [|constructor].
  - destruct paren; [|destruct (nl && impliesSemi (ws_last w))].
    + destruct (IH nl false) as (ws' & -> & ?). eexists (_ :: ws'). by split; [|constructor].
    + destruct (IH false false) as (ws' & -> & ?). eexists (_ :: ws'). by split; [|constructor].
    + destruct (IH nl false) as (ws' & -> & ?). exists (w :: ws'). by split; [|constructor].
Qed.

Section Short.
Context {W : Type} (w_write : W -> list byte -> W * Z * option string).
(** The writer does not fail. *)
Hypothesis write_ok : forall w data, (w_write w data).2 = None.

Record short (p : printer W) : Prop := {
  sh_form : form p = ShortForm;
  sh_breaks : linebreaks p = false;
  sh_indent : indentation p = 0;
  sh_pending : Forall ws_short (pending p)
}.

(** A computation that keeps the printer in this form and does not panic. *)
Definition prints (m : PM (W := W) unit) : Prop :=
  forall p, short p -> twp m (fun _ p' _ => short p') p.

Lemma prints_ret : prints (ret tt).
Proof. by intros p Hp. Qed.

Lemma prints_bind {A} (m : PM A) (k : A -> PM unit) :
  (forall p, short p -> twp m (fun _ p' _ => short p') p) -> (forall a, prints (k a)) -> prints (bind m k).
Proof.
  intros Hm Hk p Hp. apply wp_bind. eapply wp_mono; [by apply Hm|].
  intros a p1 t1 H1. eapply wp_mono; [by apply Hk|]. done.
Qed.

Lemma prints_seq (m k : PM (W := W) unit) : prints m -> prints k -> prints (m;;; k).
Proof. intros Hm Hk. apply prints_bind; [exact Hm|by intros _]. Qed.

Lemma prints_gets {A} (f : printer W -> A) (k : A -> PM unit) :
  (forall p, short p -> prints (k (f p))) -> prints (bind (gets f) k).
Proof. intros Hk p Hp. apply wp_bind, wp_gets. eapply wp_mono; [by apply Hk|]. done. Qed.

Lemma prints_modify f : (forall p, short p -> short (f p)) -> prints (modify f).
Proof. intros Hf p Hp. by apply wp_modify, Hf. Qed.

Lemma prints_nlcount n : prints (modify (set_nlcount n)).
Proof. by apply prints_modify; intros p []. Qed.
Lemma prints_lastTok t : prints (modify (set_lastTok t)).
Proof. by apply prints_modify; intros p []. Qed.

Lemma prints_write data : prints (write w_write data).
Proof.
  intros p Hp. unfold write. apply wp_bind, wp_gets.
  pose proof (write_ok (output p) data) as Hw. destruct (w_write (output p) data) as [[w' n] err].
  cbn in Hw. subst err. by apply wp_bind, wp_modify, wp_ret; destruct Hp.
Qed.

Lemma prints_writeBytes data : data <> [] -> prints (writeBytes w_write data).
Proof.
  intros Hne. unfold writeBytes. destruct data as [|c data]; [done|]. rewrite lenZ_cons.
  pose proof (lenZ_nonneg data). decide_tests.
  apply prints_gets. intros p0 _. apply prints_gets. intros p1 []. rewrite sh_indent0, andb_false_r.
  apply prints_seq; [apply prints_ret|]. apply prints_seq; [apply prints_write|apply prints_nlcount].
Qed.

Lemma prints_writeString s : s <> ""%string -> prints (writeString w_write s).
Proof. intros Hs. apply prints_writeBytes. by destruct s. Qed.

Lemma prints_pending ws : Forall ws_printed ws -> forall prev, prints (print_pending w_write prev ws).
Proof.
  induction 1 as [|w ws [[Hw|Hw]|Hw] _ IH]; intros prev; cbn [print_pending]; [apply prints_ret|..];
    rewrite Hw.
  - case_match; [|apply IH].
    apply prints_seq; [by apply prints_writeBytes|]. apply prints_seq; [apply prints_nlcount|apply IH].
  - apply prints_seq; [by apply prints_writeString|]. apply prints_seq; [apply prints_nlcount|apply IH].
  - apply IH.
Qed.

Lemma prints_flush t : prints (flush w_write t).
Proof.
  unfold flush. apply prints_gets. intros p []. 
  destruct (eliminate_short (rev (pending p)) (Forall_rev sh_pending0)
    (tok_eqb t _EOF) (tok_eqb t _Rparen || tok_eqb t _Rbrace)) as (ws & -> & Hws).
  apply prints_seq; [by apply prints_pending, Forall_rev|].
  by apply prints_modify; intros p' [].
Qed.

Lemma prints_addWhitespace c : c = blank \/ c = semi -> prints (addWhitespace c).
Proof.
  intros Hc. unfold addWhitespace. apply prints_seq.
  - apply prints_modify. intros p []. split; try done. cbn [pending set_pending].
    apply Forall_app. split; [done|]. constructor; [exact Hc|constructor].
  - destruct Hc as [-> | ->]; [apply prints_ret|apply prints_lastTok].
Qed.

(** The arguments of [print] that are fine in this form. *)
Definition arg_ok (a : arg (W := W)) : Prop :=
  match a with
  | ANil => True
  | ANode m => prints m
  | ATok t => t <> _Name
  | AName s => s <> ""%string
  | AOp _ => True
  | ACtrl c => c = blank \/ c = newline
  end.

Lemma token_String_ne t : token_String t <> ""%string.
Proof. destruct t; discriminate. Qed.

Lemma Operator_String_ne o : o <> OpNone -> Operator_String o <> ""%string.
Proof. by destruct o. Qed.

Lemma prints_token t s : s <> ""%string -> prints (print_token w_write t s).
Proof.
  intros Hs. unfold print_token. case_match; [by apply prints_addWhitespace; right|].
  apply prints_seq; [apply prints_flush|]. apply prints_seq; [by apply prints_writeString|].
  apply prints_seq; [apply prints_nlcount|apply prints_lastTok].
Qed.

Lemma prints_arg a : arg_ok a -> prints (print_arg w_write a).
Proof.
  destruct a as [|m|t|s|o|c]; cbn [print_arg arg_ok]; intros Ha.
  - apply prints_ret.
  - done.
  - destruct (tok_eqb t _Name) eqn:E; [by apply tok_eqb_eq in E|].
    apply prints_token, token_String_ne.
  - by apply prints_token.
  - destruct (op_eqb o OpNone) eqn:E; [apply prints_ret|].
    apply prints_seq; [apply prints_flush|]. apply prints_writeString, Operator_String_ne.
    intros ->. done.
  - destruct Ha as [-> | ->]; [by apply prints_addWhitespace; left|].
    apply prints_gets. intros p []. rewrite sh_breaks0. by apply prints_addWhitespace; left.
Qed.

Lemma prints_print l : Forall arg_ok l -> prints (print w_write l).
Proof.
  induction 1 as [|a l Ha _ IH]; cbn [print]; [apply prints_ret|].
  apply prints_seq; [by apply prints_arg|done].
Qed.

Ltac arg_list :=
  repeat (apply List.Forall_cons;
    [cbn [arg_ok]; first [done | assumption | discriminate | by left | by right | idtac]|]);
  try apply List.Forall_nil.

Lemma prints_sep sep l : Forall arg_ok sep -> Forall prints l -> prints (print_sep w_write sep l).
Proof.
  intros Hs. induction 1 as [|m l Hm Hl IH]; cbn [print_sep]; [apply prints_ret|].
  apply prints_seq; [done|]. destruct l; [apply prints_ret|].
  apply prints_seq; [by apply prints_print|done].
Qed.

(** *** Fields *)

(** What the field lists need of a field and its neighbour. *)
Definition pf_ok (f : pfield (W := W)) : Prop :=
  prints (pf_print f) /\ is_some (pf_Type f) = true /\
  (forall n, pf_Name f = Some n -> wf_name n = true).

Definition pf_next (f g : pfield (W := W)) : bool :=
  Bool.eqb (is_some (pf_Name f)) (is_some (pf_Name g)) || negb (Nat.eqb (pf_id f) (pf_id g)).
Fixpoint pf_neighbours (l : list (pfield (W := W))) : bool :=
  match l with
  | [] => true
  | f :: l => match l with [] => true | g :: _ => pf_next f g end && pf_neighbours l
  end.

Definition named (f : pfield (W := W)) : Prop := is_some (pf_Name f) = true.

Lemma prints_name n : wf_name n = true -> prints (print_name w_write n).
Proof. intros Hn. apply prints_print. repeat constructor. by apply nonempty_ne. Qed.

Lemma prints_lit b : wf_lit b = true -> prints (print_lit w_write b).
Proof. intros Hb. apply prints_print. repeat constructor. by apply nonempty_ne. Qed.

Lemma prints_tag tags i :
  Forall (fun t => optb wf_lit t = true) tags ->
  prints (match nthZ None tags i with
          | Some t => print w_write [ACtrl blank];;; print_lit w_write t
          | None => ret tt
          end).
Proof.
  intros Ht. destruct (nthZ None tags i) as [t|] eqn:E; [|apply prints_ret].
  apply prints_seq; [apply prints_print; arg_list|]. apply prints_lit.
  assert (0 <= i < lenZ tags).
  { unfold nthZ in E. destruct (Z.ltb_spec i 0); [done|]. split; [done|]. unfold lenZ.
    destruct (Nat.lt_ge_cases (Z.to_nat i) (length tags)); [lia|]. by rewrite nth_overflow in E. }
  pose proof (nthZ_Forall _ None tags i Ht) as H'. rewrite E in H'. by apply H'.
Qed.

Lemma nthZ_mid {A} (d : A) a x c : nthZ d (a ++ x :: c) (lenZ a) = x.
Proof.
  unfold nthZ, lenZ. destruct (Z.ltb_spec (Z.of_nat (length a)) 0); [lia|].
  rewrite Nat2Z.id, app_nth2, Nat.sub_diag; [done|lia].
Qed.

Lemma prints_fields pre g l post tags :
  pf_ok g -> Forall pf_ok l -> (named g \/ l = []) -> Forall named l ->
  Forall (fun t => optb wf_lit t = true) tags ->
  prints (printFields w_write (pre ++ (g :: l) ++ post) tags (lenZ pre) (lenZ pre + lenZ (g :: l))).
Proof.
  intros Hg Hl Hn Hnl Ht. unfold printFields. cbv zeta.
  apply prints_seq; [|by apply prints_tag].
  rewrite slice_mid. cbn [app]. rewrite nthZ_mid. pose proof Hg as (Hp & _ & Hgn).
  case_test; [done|].
  assert (Hg' : named g).
  { destruct Hn as [Hn| ->]; [done|]. change (lenZ [g]) with 1 in *. rewrite Z.eqb_refl in *.
    unfold named. destruct (pf_Name g); [done|discriminate]. }
  apply prints_seq; [|apply prints_seq; [apply prints_print; arg_list|done]].
  apply prints_sep; [arg_list|]. apply Forall_map.
  assert (Hname : forall f, pf_ok f -> named f -> prints (print_field_name w_write f)).
  { intros f (_ & _ & Hf) Hs. unfold print_field_name, named in *.
    destruct (pf_Name f) as [n|]; [|done]. by apply prints_name, Hf. }
  constructor; [by apply Hname|]. apply List.Forall_forall. intros f Hf.
  rewrite List.Forall_forall in Hl. rewrite List.Forall_forall in Hnl. apply Hname; auto.
Qed.

Lemma prints_fieldList_loop tags sep rest : forall pre g l,
  sep <> _Name ->
  Forall pf_ok rest -> pf_ok g -> Forall pf_ok l -> (named g \/ l = []) -> Forall named l ->
  pf_neighbours ((g :: l) ++ rest) = true -> Forall (fun t => optb wf_lit t = true) tags ->
  prints (printFieldList_loop w_write (pre ++ (g :: l) ++ rest) tags sep
            (lenZ pre) (lenZ pre + lenZ (g :: l)) (Some g) rest).
Proof.
  induction rest as [|f rest IH]; intros pre g l Hsep Hr Hg Hl Hn Hnl Hb Ht; cbn [printFieldList_loop].
  { replace (lenZ (pre ++ (g :: l) ++ [])) with (lenZ pre + lenZ (g :: l))
      by (by rewrite app_nil_r, lenZ_app). by apply prints_fields. }
  inversion_clear Hr as [|? ? Hf Hr']. change (default noField (Some g)) with g.
  destruct (negb (is_some (pf_Name f)) || negb (same_Type f g)) eqn:E.
  - pose proof (lenZ_nonneg l). rewrite lenZ_cons. decide_tests. rewrite <- lenZ_cons with (x := g).
    apply prints_seq; [by apply prints_fields|].
    apply prints_seq; [apply prints_print; arg_list|].
    specialize (IH (pre ++ g :: l) f []). rewrite <- !app_assoc in IH. cbn [app] in IH.
    rewrite lenZ_app in IH. change (lenZ [f]) with 1 in IH. cbn [app]. apply IH; try done.
    + by right.
    + clear -Hb. revert g Hb. induction l as [|x l IH]; intros g Hb; cbn in Hb;
        apply andb_true_iff in Hb as [_ Hb]; [done|]. by apply (IH x).
  - apply orb_false_iff in E as [E1 E2]. apply negb_false_iff in E1, E2.
    assert (Hng : named g).
    { destruct Hn as [?| ->]; [done|]. cbn [app pf_neighbours] in Hb. apply andb_true_iff in Hb as [Hb _].
      unfold pf_next, named in *. rewrite E1 in Hb. unfold same_Type in E2.
      destruct Hg as (_ & Hg & _), Hf as (_ & Hf & _).
      destruct (pf_Type f), (pf_Type g); try done. rewrite Nat.eqb_sym, E2, orb_false_r in Hb.
      by apply eqb_prop in Hb. }
    specialize (IH pre g (l ++ [f])). replace (pre ++ (g :: l) ++ f :: rest) with (pre ++ (g :: l ++ [f]) ++ rest)
      by (cbn [app]; by rewrite <- app_assoc).
    replace (lenZ pre + lenZ (g :: l) + 1) with (lenZ pre + lenZ (g :: l ++ [f]))
      by (rewrite !lenZ_cons, lenZ_app; change (lenZ [f]) with 1; lia).
    apply IH; try done.
    + apply Forall_app. split; [done|by constructor].
    + by left.
    + apply Forall_app. split; [done|by constructor].
    + cbn [app] in *. by rewrite <- app_assoc.
Qed.

Lemma prints_fieldList fields tags sep :
  sep <> _Name -> Forall pf_ok fields -> pf_neighbours fields = true ->
  Forall (fun t => optb wf_lit t = true) tags -> 0 < lenZ fields ->
  prints (printFieldList w_write fields tags sep).
Proof.
  intros Hsep Hf Hb Ht Hlen. unfold printFieldList. destruct fields as [|g l]; [done|].
  inversion_clear Hf as [|? ? Hg Hl]. cbn [printFieldList_loop default].
  assert (Hs : same_Type g noField = false).
  { unfold same_Type, noField. cbn [pf_Type]. destruct Hg as (_ & Hg & _). by destruct (pf_Type g). }
  rewrite Hs, orb_true_r. cbn [Z.ltb Z.compare].
  apply (prints_fieldList_loop tags sep l [] g []); try done. by right.
Qed.

Lemma prints_parameters l : Forall pf_ok l -> forall first, prints (printParameters w_write first l).
Proof.
  induction 1 as [|f l Hf Hl IH]; intros first; cbn [printParameters]; [apply prints_ret|].
  destruct Hf as (Hp & _ & Hn).
  apply prints_seq; [destruct first; cbn [negb]; [apply prints_ret|apply prints_print; arg_list]|].
  apply prints_seq; [|apply IH].
  destruct (pf_Name f) as [n|]; [|done]. apply prints_seq; [by apply prints_name, Hn|].
  case_test; [apply prints_ret|]. apply prints_seq; [apply prints_print; arg_list|done].
Qed.

Lemma prints_parameterList l t : Forall pf_ok l -> prints (printParameterList w_write l t).
Proof.
  intros Hl. unfold printParameterList. cbv zeta.
  apply prints_seq; [apply prints_print; arg_list; by destruct (tok_eqb t _None)|].
  apply prints_seq; [by apply prints_parameters|].
  apply prints_seq;
    [match goal with |- prints (if ?b then _ else _) => destruct b end;
     [apply prints_print; arg_list|apply prints_ret]|].
  apply prints_print; arg_list; by destruct (tok_eqb t _None).
Qed.

Lemma prints_signature ps rs :
  Forall pf_ok ps -> Forall pf_ok rs -> prints (printSignature w_write ps rs).
Proof.
  intros Hps Hrs. unfold printSignature. apply prints_seq; [by apply prints_parameterList|].
  destruct rs as [|[n t id m sg] rs]; [apply prints_ret|].
  assert (Hr : prints (print w_write [ACtrl blank];;; printParameterList w_write (PField n t id m sg :: rs) _None)).
  { apply prints_seq; [apply prints_print; arg_list|by apply prints_parameterList]. }
  destruct n as [n|]; [exact Hr|]. destruct rs; [|exact Hr].
  apply prints_seq; [apply prints_print; arg_list|]. inversion_clear Hrs as [|? ? Hm _]. by destruct Hm.
Qed.

Lemma prints_methodList l :
  Forall (fun m => pf_ok m /\ (is_some (pf_Name m) = true -> prints (pf_sig m))) l ->
  prints (printMethodList w_write l).
Proof.
  intros Hl. unfold printMethodList. apply prints_sep; [arg_list|]. apply Forall_map.
  refine (List.Forall_impl _ _ Hl). intros m [(Hp & _ & Hn) Hs]. cbn.
  destruct (pf_Name m) as [n|]; [|done]. apply prints_seq; [by apply prints_name, Hn|by apply Hs].
Qed.

(** *** Nodes *)

(** What the printing of a node does in this form. *)
Definition node_prints (n : node) : Prop :=
  match n with
  | NExpr x =>
      wf_expr x = true ->
      prints (printExpr w_write x) /\
      match x with FuncType t => prints (printSig w_write t) | _ => True end
  | NField f =>
      wf_field f = true ->
      pf_ok (printField w_write f) /\
      (is_FuncType (field_Type f) = true -> prints (pf_sig (printField w_write f)))
  | _ => True
  end.

Lemma fields_print l :
  (forall f, In (Some (NField f)) (map (fun f => Some (NField f)) l) -> node_prints (NField f)) ->
  forallb wf_field l = true ->
  Forall (fun f => pf_ok (printField w_write f) /\
            (is_FuncType (field_Type f) = true -> prints (pf_sig (printField w_write f)))) l.
Proof.
  intros Hl Hw. rewrite forallb_forall in Hw. apply List.Forall_forall. intros f Hf.
  apply Hl; [|by apply Hw]. by apply (in_map (fun f => Some (NField f))).
Qed.

Lemma fields_pf_ok l :
  Forall (fun f => pf_ok (printField w_write f) /\
            (is_FuncType (field_Type f) = true -> prints (pf_sig (printField w_write f)))) l ->
  Forall pf_ok (map (printField w_write) l).
Proof. intros Hl. apply Forall_map. refine (List.Forall_impl _ _ Hl). by intros f []. Qed.

Lemma neighbours_pf l : neighbours_ok l = true -> pf_neighbours (map (printField w_write) l) = true.
Proof.
  induction l as [|f l IH]; [done|]. cbn. intros Hb. apply andb_true_iff in Hb as [H1 H2].
  rewrite (IH H2), andb_true_r. destruct l as [|g l]; [done|]. cbn.
  destruct f, g. exact H1.
Qed.

Lemma exprs_print l :
  (forall x, In (Some (NExpr x)) (map (fun x => Some (NExpr x)) l) -> node_prints (NExpr x)) ->
  forallb wf_expr l = true -> Forall prints (map (printExpr w_write) l).
Proof.
  intros Hl Hw. rewrite forallb_forall in Hw. apply Forall_map, List.Forall_forall. intros x Hx.
  apply Hl; [|by apply Hw]. by apply (in_map (fun x => Some (NExpr x))).
Qed.

Ltac wf_split :=
  cbn [wf_expr wf_field wf_functype optb] in *;
  repeat match goal with H : _ && _ = true |- _ => apply andb_true_iff in H as [? ?] end.

(** One step through the printing of a node whose children print ([Hx]). *)
Ltac print_step Hx :=
  match goal with
  | |- prints (ret tt) => apply prints_ret
  | |- prints (print _ _) => apply prints_print; arg_list
  | |- prints (printExpr _ _) => apply Hx; [in_children|assumption]
  | |- prints (print_name _ _) => apply prints_name; assumption
  | |- prints (print_lit _ _) => apply prints_lit; assumption
  | |- prints (bind (gets _) _) => 
      let p := fresh "p" in let Hf := fresh in let Hb := fresh in
      apply prints_gets; intros p [Hf Hb _ _]; rewrite ?Hf, ?Hb, ?andb_false_r; cbn [is_short andb]; clear Hf Hb p
  | |- prints (bind _ _) => apply prints_seq
  | |- prints (if ?b then _ else _) => destruct b eqn:?
  | |- prints (match ?o with Some _ => _ | None => _ end) => destruct o; wf_split
  | |- arg_ok _ => cbn [arg_ok]
  | |- _ = blank \/ _ => auto
  end.

Lemma prints_elems (l : list expr) :
  (forall x, In (Some (NExpr x)) (map (fun x => Some (NExpr x)) l) -> wf_expr x = true ->
     prints (printExpr w_write x)) ->
  forallb wf_expr l = true -> prints (printExprList w_write (map (printExpr w_write) l)).
Proof.
  intros Hl Hw. rewrite forallb_forall in Hw. apply prints_sep; [arg_list|].
  apply Forall_map, List.Forall_forall. intros x Hx. apply Hl; [|by apply Hw].
  by apply (in_map (fun x => Some (NExpr x))).
Qed.


(** The cases of [printExpr] that print nodes of other families. *)
Lemma printExpr_FuncLit p t b :
  printExpr w_write (FuncLit p t b) =
  (print w_write [ANode (printFuncType w_write t); ACtrl blank];;;
   let* f := gets form in
   if is_short f then
     print w_write [ATok _Lbrace];;;
     when 0 <? lenZ (block_List b) do print w_write [AName "…"];;;
     print w_write [ATok _Rbrace]
   else printBlock w_write b).
Proof. reflexivity. Qed.

Lemma printExpr_StructType p fl tl :
  printExpr w_write (StructType p fl tl) =
  (print w_write [ATok _Struct];;;
   let* lb := gets linebreaks in
   when (0 <? lenZ fl) && lb do print w_write [ACtrl blank];;;
   print w_write [ATok _Lbrace];;;
   when 0 <? lenZ fl do
     (if lb then
        print w_write [ACtrl newline; ACtrl indent];;;
        printFieldList w_write (map (printField w_write) fl) tl _Semi;;;
        print w_write [ACtrl outdent; ACtrl newline]
      else printFieldList w_write (map (printField w_write) fl) tl _Semi);;;
   print w_write [ATok _Rbrace]).
Proof. reflexivity. Qed.

Lemma printExpr_InterfaceType p ml :
  printExpr w_write (InterfaceType p ml) =
  (print w_write [ATok _Interface];;;
   let* lb := gets linebreaks in
   (if lb && (1 <? lenZ ml) then
      print w_write [ACtrl blank];;;
      print w_write [ATok _Lbrace];;;
      print w_write [ACtrl newline; ACtrl indent];;;
      printMethodList w_write (map (printField w_write) ml);;;
      print w_write [ACtrl outdent; ACtrl newline]
    else print w_write [ATok _Lbrace];;; printMethodList w_write (map (printField w_write) ml));;;
   print w_write [ATok _Rbrace]).
Proof. reflexivity. Qed.

Lemma functype_prints p ps rs :
  (forall f, In (Some (NField f)) (functype_walked (mkFuncType p ps rs)) -> node_prints (NField f)) ->
  wf_functype (mkFuncType p ps rs) = true ->
  prints (printFuncType w_write (mkFuncType p ps rs)) /\ prints (printSig w_write (mkFuncType p ps rs)).
Proof.
  intros Hf Hw. wf_split.
  assert (Hs : prints (printSignature w_write (map (printField w_write) ps) (map (printField w_write) rs))).
  { apply prints_signature; apply fields_pf_ok, fields_print; try assumption;
      intros f Hi; apply Hf; cbn; apply in_app_iff; auto. }
  split; [|exact Hs]. apply (prints_seq (print w_write [ATok _Func])); [|exact Hs].
  apply prints_print. arg_list.
Qed.

Lemma node_prints_all n : node_prints n.
Proof.
  revert n. apply node_ind'. intros n IH. destruct n as [f|d|x|s|f|c|c|]; try exact I.
  - assert (Hx : forall x', In (Some (NExpr x')) (walked (NExpr x)) -> wf_expr x' = true ->
      prints (printExpr w_write x')) by (intros x' Hi Hw; by apply (IH (NExpr x'))).
    assert (Hf : forall f, In (Some (NField f)) (walked (NExpr x)) -> node_prints (NField f))
      by (intros f Hi; by apply IH).
    intros Hw. destruct x; try (split; [|exact I]);
      [..|by destruct t; apply functype_prints| |];
      rewrite ?printExpr_FuncLit, ?printExpr_StructType, ?printExpr_InterfaceType; cbn [printExpr].
    all: wf_split; repeat print_step Hx.
    + by apply (Hx (FuncType type)); [left|].
    + apply prints_elems; [|assumption]. intros x' Hi. apply Hx. by right.
    + by apply prints_elems.
    + destruct Len; [cbn [arg_ok]; apply Hx; [by left|done]|done].
    + apply prints_fieldList; [done| |by apply neighbours_pf| |].
      * apply fields_pf_ok, fields_print; [|done]. intros f Hi. apply Hf. cbn. apply in_app_iff. by left.
      * apply List.Forall_forall. by apply forallb_forall.
      * unfold lenZ in *. rewrite length_map. b2p. done.
    + apply prints_methodList, Forall_map. assert (Hp := fields_print MethodList Hf H).
      rewrite List.Forall_forall in Hp. apply List.Forall_forall. intros f Hi.
      destruct (Hp f Hi) as [Hpf Hsig]. split; [exact Hpf|]. intros Hn. apply Hsig.
      rewrite forallb_forall in H0. specialize (H0 f Hi). unfold method_ok in H0. by destruct f as [? [?|] ? ?].
  - intros Hw. destruct f as [p nam t id]. cbn [wf_field] in Hw.
    apply andb_true_iff in Hw as [Hw Ht]. apply andb_true_iff in Hw as [Hn Hs].
    destruct t as [t|]; [|done]. cbn [optb] in Ht.
    destruct (IH (NExpr t)) as [Hp Hsig]; [cbn; apply in_app_iff; right; by left|done|].
    split; [split; [exact Hp|split; [done|]]|].
    + cbn. intros n ->. done.
    + cbn [field_Type is_FuncType]. destruct t; try done.
Qed.

Lemma expr_prints x : wf_expr x = true -> prints (printExpr w_write x).
Proof. intros Hw. by apply (node_prints_all (NExpr x)). Qed.

Lemma printStmt_simple s :
  simple_stmt s = true ->
  printStmt w_write s =
  match s with
  | ExprStmt _ x => print w_write [ANode (printExpr w_write x)]
  | SendStmt _ c v =>
      print w_write [ANode (printExpr w_write c); ACtrl blank; ATok _Arrow; ACtrl blank; ANode (printExpr w_write v)]
  | AssignStmt _ op lhs rhs =>
      print w_write [ANode (printExpr w_write lhs)];;;
      match rhs with
      | None => print w_write [AOp op; AOp op]
      | Some r =>
          print w_write [ACtrl blank; AOp op; ATok _Assign; ACtrl blank];;;
          print w_write [ANode (printExpr w_write r)]
      end
  | RangeClause _ lhs def x =>
      match lhs with
      | Some l =>
          print w_write [ANode (printExpr w_write l); ACtrl blank; ATok (if def then _Define else _Assign); ACtrl blank]
      | None => ret tt
      end;;;
      print w_write [ATok _Range; ACtrl blank; ANode (printExpr w_write x)]
  | _ => ret tt
  end.
Proof. by destruct s. Qed.

Lemma stmt_prints s : simple_stmt s = true -> wf_stmt s = true -> prints (printStmt w_write s).
Proof.
  assert (Hx : forall x, True -> wf_expr x = true -> prints (printExpr w_write x))
    by (intros x _; apply expr_prints).
  intros Hs Hw. rewrite (printStmt_simple s Hs).
  destruct s; try discriminate; cbn [wf_stmt] in *; wf_split; repeat print_step Hx; by destruct Def.
Qed.
End Short.

(** ** String *)

Lemma Fprint_short m :
  prints (W := list byte) m -> exists s, Fprint_Builder m ShortForm = Some s.
Proof.
  intros Hm. unfold Fprint_Builder, Fprint.
  assert (Hp : prints (print Builder_Write [ANode m];;; flush Builder_Write _EOF)).
  { apply prints_seq; [|by apply prints_flush].
    apply (prints_print Builder_Write); [done|]. by repeat constructor. }
  specialize (Hp (newPrinter [] ShortForm)). unfold wp in Hp.
  destruct ((print Builder_Write [ANode m];;; flush Builder_Write _EOF) (newPrinter [] ShortForm))
    as [[[? p'] t]|v|]; [by eexists|destruct Hp; by split..].
Qed.

Lemma String_expr_returns x : wf_expr x = true -> exists s, String_expr x = Some s.
Proof. intros Hw. by apply Fprint_short, expr_prints. Qed.

Lemma String_stmt_returns s : simple_stmt s = true -> wf_stmt s = true -> exists t, String_stmt s = Some t.
Proof. intros Hs Hw. by apply Fprint_short, stmt_prints. Qed.

(** C33: [String] of a well-formed expression or simple statement returns: the
    printer does not panic on it. *)
Theorem String_total :
  (forall x, wf_expr x = true -> exists s, String_expr x = Some s) /\
  (forall s, simple_stmt s = true -> wf_stmt s = true -> exists t, String_stmt s = Some t).
Proof. split; [apply String_expr_returns|apply String_stmt_returns]. Qed.
