(* ===== verification/Branches.v ===== *)
(** * src/src/cmd/compile/internal/syntax/branches.go: labels and branches

    [checkBranches] of a function body: the errors it reports, as the trace of
    the monad, and the targets it gives to the branch statements.

    Identities: statements and blocks are numbered in the order in which
    [blockBranches] visits them, and a pointer to a statement or block is its
    number.  The [Target] field of a branch statement is a pair in
    [branchTargets]: the number of the branch, the number of its target.  The
    iteration over the label map, whose order Go leaves open, goes by a
    parameter. *)

From S2P Require Import Prelude Format Tokens Pos Nodes Printer.
From stdpp Require Import gmap strings.

#[local] Open Scope Z_scope.
#[local] Open Scope go_scope.

Record block := Block {
  block_id : nat;
  block_start : Pos;
  block_lstmt : option nat
}.

Record label := Label {
  l_parent : block;
  l_id : nat;               (** the labeled statement *)
  l_name : name;            (** its [Label] *)
  l_stmt : stmt;            (** its [Stmt] *)
  l_used : bool
}.

Record labelScope := LabelScope {
  labels : gmap string label;
  nextId : nat;
  branchTargets : list (nat * nat)
}.

Definition set_labels (v : gmap string label) (s : labelScope) : labelScope :=
  LabelScope v (nextId s) (branchTargets s).
Definition set_nextId (v : nat) (s : labelScope) : labelScope :=
  LabelScope (labels s) v (branchTargets s).
Definition set_branchTargets (v : list (nat * nat)) (s : labelScope) : labelScope :=
  LabelScope (labels s) (nextId s) v.

Definition set_used (l : label) : label := Label (l_parent l) (l_id l) (l_name l) (l_stmt l) true.

(** The statements within which break and continue are valid: number and
    statement. *)
Record targets := Targets {
  breaks : option (nat * stmt);
  continues : option nat;
  caseIndex : Z
}.

(** An unresolved forward goto: the number of the statement and its label. *)
Record fwdGoto := FwdGoto { fwd_id : nat; fwd_Label : name }.

(** The variables of one call of [blockBranches]. *)
Record locals := Locals {
  varPos : Pos;
  varName : option expr;
  fwdGotos : list fwdGoto;
  badGotos : list fwdGoto
}.

Definition set_fwdGotos (v : list fwdGoto) (b : locals) : locals :=
  Locals (varPos b) (varName b) v (badGotos b).

(** Remove the trailing empty statements. *)
Fixpoint trimTrailing {A} (empty : A -> bool) (l : list A) : list A :=
  match l with
  | [] => []
  | x :: l =>
      match trimTrailing empty l with
      | [] => if empty x then [] else [x]
      | l => x :: l
      end
  end.

Definition trimTrailingEmptyStmts (l : list stmt) : list stmt := trimTrailing is_EmptyStmt l.

Section Branches.
(** Whether there is an error handler: calling a nil one panics. *)
Context (has_errh : bool).
(** The order in which Go ranges over the label map. *)
Context (map_order : gmap string label -> list label).

Definition BM : Type -> Type := GM string (Pos * string) labelScope.

Definition errf (pos : Pos) (msg : string) : BM unit :=
  if has_errh then emit (pos, msg) else panic "nil error handler"%string.

Definition newId : BM nat :=
  let* n := gets nextId in modify (set_nextId (Datatypes.S n));;; ret n.

Definition setTarget (branch target : nat) : BM unit :=
  modify (fun s => set_branchTargets (branchTargets s ++ [(branch, target)]) s).

Definition markUsed (name : string) : BM unit :=
  modify (fun s => set_labels (alter set_used name (labels s)) s).

Definition declare (b : block) (id : nat) (lbl : name) (body : stmt) : BM unit :=
  let name := Value lbl in
  let* m := gets labels in
  match m !! name with
  | Some alt =>
      errf (name_pos lbl) ("label " +s+ name +s+ " already defined at " +s+ Pos_String (name_pos (l_name alt)))
  | None => modify (set_labels (<[name := Label b id lbl body false]> m))
  end.

(** A block and its parents are the list of the blocks outwards. *)
Definition gotoTarget (bs : list block) (name : string) : BM (option nat) :=
  let* m := gets labels in
  match m !! name with
  | Some l =>
      markUsed name;;;
      ret (if existsb (fun b => Nat.eqb (block_id (l_parent l)) (block_id b)) bs
           then Some (l_id l) else None)
  | None => ret None
  end.

(** The enclosing labeled statement: [None] is nil, [Some None] is [invalid]. *)
Definition enclosingTarget (bs : list block) (name : string) : BM (option (option label)) :=
  let* m := gets labels in
  match m !! name with
  | Some l =>
      markUsed name;;;
      ret (if existsb (fun b => bool_decide (block_lstmt b = Some (l_id l))) bs
           then Some (Some l) else Some None)
  | None => ret None
  end.

Definition recordVarDecl (pos : Pos) (name : expr) (v : locals) : locals :=
  Locals pos (Some name) (fwdGotos v) (fwdGotos v).

Definition jumpsOverVarDecl (v : locals) (fwd : fwdGoto) : bool :=
  IsKnown (varPos v) && existsb (fun bad => Nat.eqb (fwd_id fwd) (fwd_id bad)) (badGotos v).

(** Resolve the forward gotos to the label [name] of the statement [id]; the
    others are kept. *)
Fixpoint resolve (v : locals) (name : string) (id : nat) (fwds : list fwdGoto) : BM (list fwdGoto) :=
  match fwds with
  | [] => ret []
  | fwd :: fwds =>
      if bool_decide (Value (fwd_Label fwd) = name) then
        setTarget (fwd_id fwd) id;;;
        markUsed name;;;
        when jumpsOverVarDecl v fwd do
          match (match varName v with Some x => String_expr x | None => None end) with
          | Some n =>
              errf (name_pos (fwd_Label fwd))
                ("goto " +s+ name +s+ " jumps over declaration of " +s+ n +s+ " at " +s+ Pos_String (varPos v))
          | None => panic "String"%string
          end;;;
        resolve v name id fwds
      else
        let* rest := resolve v name id fwds in ret (fwd :: rest)
  end.

Fixpoint firstVarDecl (l : list decl) : option (Pos * list name) :=
  match l with
  | [] => None
  | VarDecl p _ _ names _ _ :: _ => Some (p, names)
  | _ :: l => firstVarDecl l
  end.

Definition isTypeSwitch (tag : option expr) : bool :=
  match tag with Some (TypeSwitchGuard _ _ _) => true | _ => false end.

(** The message for an unlabeled fallthrough, if it is wrong. *)
Definition fallthroughError (ctxt : targets) (isLast : bool) : option string :=
  match breaks ctxt with
  | Some (_, SwitchStmt _ _ tag body _) =>
      if isTypeSwitch tag then Some "cannot fallthrough in type switch"%string
      else if (caseIndex ctxt <? 0) || negb isLast then Some "fallthrough statement out of place"%string
      else if caseIndex ctxt + 1 =? lenZ body then Some "cannot fallthrough final case in switch"%string
      else None
  | _ => Some "fallthrough statement out of place"%string
  end.

Definition unlabeledBranch (ctxt : targets) (isLast : bool) (id : nat) (pos : Pos) (tok : token) : BM unit :=
  match tok with
  | _Break =>
      match breaks ctxt with
      | Some (t, _) => setTarget id t
      | None => errf pos "break is not in a loop, switch, or select"
      end
  | _Continue =>
      match continues ctxt with
      | Some t => setTarget id t
      | None => errf pos "continue is not in a loop"
      end
  | _Fallthrough =>
      match fallthroughError ctxt isLast with
      | Some msg => errf pos msg
      | None => ret tt
      end
  | _ => panic "invalid BranchStmt"%string
  end.

Definition isBreakTarget (s : stmt) : bool :=
  match s with SwitchStmt _ _ _ _ _ | SelectStmt _ _ _ | ForStmt _ _ _ _ _ => true | _ => false end.
Definition isForStmt (s : stmt) : bool := match s with ForStmt _ _ _ _ _ => true | _ => false end.

(** The statement of a labeled statement is visited right after it. *)
Definition stmt_id (l : label) : nat := Datatypes.S (l_id l).

Definition labeledBranch (bs : list block) (id : nat) (tok : token) (lbl : name) (v : locals) : BM locals :=
  let name := Value lbl in
  match tok with
  | _Break =>
      let* t := enclosingTarget bs name in
      match t with
      | Some t =>
          match t with
          | Some l =>
              if isBreakTarget (l_stmt l) then setTarget id (stmt_id l)
              else errf (name_pos lbl) ("invalid break label " +s+ name)
          | None => errf (name_pos lbl) ("invalid break label " +s+ name)
          end
      | None => errf (name_pos lbl) ("break label not defined: " +s+ name)
      end;;; ret v
  | _Continue =>
      let* t := enclosingTarget bs name in
      match t with
      | Some t =>
          match t with
          | Some l =>
              if isForStmt (l_stmt l) then setTarget id (stmt_id l)
              else errf (name_pos lbl) ("invalid continue label " +s+ name)
          | None => errf (name_pos lbl) ("invalid continue label " +s+ name)
          end
      | None => errf (name_pos lbl) ("continue label not defined: " +s+ name)
      end;;; ret v
  | _Goto =>
      let* t := gotoTarget bs name in
      match t with
      | Some t => setTarget id t;;; ret v
      | None => ret (set_fwdGotos (fwdGotos v ++ [FwdGoto id lbl]) v)
      end
  | _ => panic "invalid BranchStmt"%string
  end.

(** What a statement does in its block: from the enclosing blocks, the context,
    whether it is the last of its list, the label it has, the variables. *)
Definition visitor : Type :=
  list block -> targets -> bool -> option nat -> locals -> BM locals.

(** The loop of [blockBranches] over the trimmed list. *)
Fixpoint visitList (l : list (bool * visitor)) (bs : list block) (ctxt : targets) (v : locals) : BM locals :=
  match l with
  | [] => ret v
  | (_, f) :: l =>
      let* v := f bs ctxt (match l with [] => true | _ => false end) None v in
      visitList l bs ctxt v
  end.

(** [blockBranches], with the body given by what its statements do. *)
Definition blockBranches (parents : list block) (ctxt : targets) (lstmt : option nat) (start : Pos)
    (body : list (bool * visitor)) : BM (list fwdGoto) :=
  let* id := newId in
  let* v := visitList (trimTrailing fst body) (Block id start lstmt :: parents) ctxt (Locals noPos None [] []) in
  ret (fwdGotos v).

(** The closure [innerBlock]. *)
Definition innerBlock (bs : list block) (lstmt : option nat) (v : locals) (ctxt : targets) (start : Pos)
    (body : list (bool * visitor)) : BM locals :=
  let* f := blockBranches bs ctxt lstmt start body in
  ret (set_fwdGotos (fwdGotos v ++ f) v).

(** The clauses of a switch statement, numbered, or of a select statement. *)
Fixpoint visitClauses (numbered : bool) (i : Z) (ctxt : targets)
    (l : list (Pos * list (bool * visitor))) (bs : list block) (lstmt : option nat) (v : locals) : BM locals :=
  match l with
  | [] => ret v
  | (p, body) :: l =>
      let inner := if numbered then Targets (breaks ctxt) (continues ctxt) i else ctxt in
      let* v := innerBlock bs lstmt v inner p body in
      visitClauses numbered (i + 1) ctxt l bs lstmt v
  end.

(** The switch on the statement, from the label [L] on. *)
Fixpoint visit (s : stmt) : visitor :=
  fun bs ctxt isLast lstmt v =>
  let* id := newId in
  match s with
  | DeclStmt _ l =>
      match firstVarDecl l with
      | Some (p, n :: _) => ret (recordVarDecl p (Name n) v)
      | Some (_, []) => panic "index out of range"%string
      | None => ret v
      end
  | LabeledStmt _ lbl body =>
      let name := Value lbl in
      if negb (bool_decide (name = "_"%string)) then
        match bs with
        | b :: _ =>
            declare b id lbl body;;;
            let* fwds := resolve v name id (fwdGotos v) in
            visit body bs ctxt isLast (Some id) (set_fwdGotos fwds v)
        | [] => panic "nil pointer dereference"%string
        end
      else visit body bs ctxt isLast lstmt v
  | BranchStmt p tok lbl =>
      match lbl with
      | None => unlabeledBranch ctxt isLast id p tok;;; ret v
      | Some lbl => labeledBranch bs id tok lbl v
      end
  | AssignStmt p op lhs _ => ret (if op_eqb op Def then recordVarDecl p lhs v else v)
  | BlockStmt (mkBlockStmt p l _) =>
      innerBlock bs lstmt v (Targets (breaks ctxt) (continues ctxt) (-1)) p
        (map (fun s => (is_EmptyStmt s, visit s)) l)
  | IfStmt _ _ _ (mkBlockStmt p l _) els =>
      let inner := Targets (breaks ctxt) (continues ctxt) (-1) in
      let* v := innerBlock bs lstmt v inner p (map (fun s => (is_EmptyStmt s, visit s)) l) in
      match els with
      | Some e => innerBlock bs lstmt v inner (stmt_pos e) [(is_EmptyStmt e, visit e)]
      | None => ret v
      end
  | ForStmt _ _ _ _ (mkBlockStmt p l _) =>
      innerBlock bs lstmt v (Targets (Some (id, s)) (Some id) (-1)) p
        (map (fun s => (is_EmptyStmt s, visit s)) l)
  | SwitchStmt _ _ _ body _ =>
      visitClauses true 0 (Targets (Some (id, s)) (continues ctxt) (-1))
        (map (fun c => match c with CaseClause p _ l _ =>
                         (p, map (fun s => (is_EmptyStmt s, visit s)) l) end) body) bs lstmt v
  | SelectStmt _ body _ =>
      visitClauses false 0 (Targets (Some (id, s)) (continues ctxt) (-1))
        (map (fun c => match c with CommClause p _ l _ =>
                         (p, map (fun s => (is_EmptyStmt s, visit s)) l) end) body) bs lstmt v
  | _ => ret v
  end.

(** The forward gotos left at the end of the body. *)
Fixpoint reportGotos (fwds : list fwdGoto) : BM unit :=
  match fwds with
  | [] => ret tt
  | fwd :: fwds =>
      let name := Value (fwd_Label fwd) in
      let* m := gets labels in
      match m !! name with
      | Some l =>
          markUsed name;;;
          errf (name_pos (fwd_Label fwd))
            ("goto " +s+ name +s+ " jumps into block starting at " +s+ Pos_String (block_start (l_parent l)))
      | None => errf (name_pos (fwd_Label fwd)) ("label " +s+ name +s+ " not defined")
      end;;;
      reportGotos fwds
  end.

Fixpoint reportUnused (l : list label) : BM unit :=
  match l with
  | [] => ret tt
  | l :: rest =>
      when negb (l_used l) do
        errf (name_pos (l_name l)) ("label " +s+ Value (l_name l) +s+ " defined and not used");;;
      reportUnused rest
  end.

Definition checkBody (body : blockstmt) : BM unit :=
  let* fwds :=
    blockBranches [] (Targets None None 0) None (block_pos body)
      (map (fun s => (is_EmptyStmt s, visit s)) (block_List body)) in
  reportGotos fwds;;;
  let* m := gets labels in
  reportUnused (map_order m).

Definition newScope : labelScope := LabelScope ∅ 0 [].

(** [checkBranches(body, errh)]. *)
Definition checkBranches (body : option blockstmt) : res string (unit * labelScope * list (Pos * string)) :=
  match body with
  | None => Ok (tt, newScope, [])
  | Some body => checkBody body newScope
  end.
End Branches.

(** The order of the map's own enumeration. *)
Definition any_order (m : gmap string label) : list label := map snd (map_to_list m).

Module Examples.

Definition P (n : Z) : Pos := MakePos (Some (NewFileBase "f")) n 1.
Definition N (n : Z) (s : string) : name := mkName (P n) s.
Definition body (l : list stmt) : option blockstmt := Some (mkBlockStmt (P 1) l (P 99)).

Definition run (l : list stmt) : option (list (Z * string) * list (nat * nat)) :=
  match checkBranches true any_order (body l) with
  | Ok (_, s, t) => Some (map (fun e => (Line e.1, e.2)) t, branchTargets s)
  | _ => None
  end.

(** A break out of a labeled loop; a goto over a variable declaration. *)
Example break_label :
  run [LabeledStmt (P 2) (N 2 "L")
         (ForStmt (P 3) None None None (mkBlockStmt (P 3) [BranchStmt (P 4) _Break (Some (N 4 "L"))] (P 5)))]
  = Some ([], [(4%nat, 2%nat)]).
Proof. vm_compute. reflexivity. Qed.

Example goto_over :
  run [BranchStmt (P 2) _Goto (Some (N 2 "L"));
       AssignStmt (P 3) Def (Name (N 3 "x")) (Some (Name (N 3 "y")));
       LabeledStmt (P 4) (N 4 "L") (EmptyStmt (P 4))]
  = Some ([(2, "goto L jumps over declaration of x at f:3:1")]%string, [(1%nat, 3%nat)]).
Proof. vm_compute. reflexivity. Qed.

Example unused_label :
  run [LabeledStmt (P 4) (N 4 "L") (ReturnStmt (P 4) None); BranchStmt (P 5) _Continue None]
  = Some ([(5, "continue is not in a loop"); (4, "label L defined and not used")]%string, []).
Proof. vm_compute. reflexivity. Qed.

End Examples.
