(* ===== verification/BranchFacts.v ===== *)
(** * What the branch checker promises

    On a well-formed body, with an error handler, the checker returns: the
    branch statements have labels as their tokens want them, a variable
    declaration has a name, and the names it prints are well-formed. *)

From S2P Require Import Prelude Format Tokens Pos Nodes Walk WellFormed Printer PrinterFacts Branches.
From stdpp Require Import gmap strings.

#[local] Open Scope go_scope.

Section Total.
Context (map_order : gmap string label -> list label).
Abbreviation BM := Branches.BM.

(** The variable declaration that a [goto] may jump over has a name that can
    be printed. *)
Definition locals_ok (v : locals) : Prop :=
  IsKnown (varPos v) = true -> exists x, varName v = Some x /\ wf_expr x = true.

(** [m] returns from every state, with a result that satisfies [Q]. *)
Definition returns {A} (m : BM A) (Q : A -> Prop) : Prop :=
  forall s, twp m (fun a _ _ => Q a) s.

Lemma returns_ret {A} (a : A) (Q : A -> Prop) : Q a -> returns (ret a) Q.
Proof. by intros HQ s. Qed.

Lemma returns_bind {A B} (m : BM A) (k : A -> BM B) (P : A -> Prop) (Q : B -> Prop) :
  returns m P -> (forall a, P a -> returns (k a) Q) -> returns (bind m k) Q.
Proof.
  intros Hm Hk s. apply wp_bind. eapply wp_mono; [apply Hm|]. intros a s1 t1 Ha.
  eapply wp_mono; [by apply Hk|]. done.
Qed.

Lemma returns_mono {A} (m : BM A) (P Q : A -> Prop) :
  returns m P -> (forall a, P a -> Q a) -> returns m Q.
Proof. intros Hm HPQ s. eapply wp_mono; [apply Hm|]. cbn. auto. Qed.

Lemma returns_gets {A} (f : labelScope -> A) : returns (gets f) (fun _ => True).
Proof. by intros s. Qed.
Lemma returns_modify f : returns (modify f) (fun _ => True).
Proof. by intros s. Qed.
Lemma returns_errf pos msg : returns (errf true pos msg) (fun _ => True).
Proof. by intros s. Qed.
Lemma returns_newId : returns newId (fun _ => True).
Proof. by intros s. Qed.

Create HintDb returns.
#[local] Hint Resolve returns_gets returns_modify returns_errf returns_newId : returns.

Ltac ret_step :=
  match goal with
  | |- returns (ret _) _ => apply returns_ret
  | |- returns (match ?x with _ => _ end) _ => destruct x eqn:?
  | |- returns (bind _ _) _ => eapply returns_bind; [|intros ? ?]; cbv beta
  | |- returns _ _ => solve [eauto 2 with returns]
  | |- returns _ (fun _ => True) => eapply returns_mono; [solve [eauto 2 with returns]|done]
  end.

Lemma returns_declare b id lbl body : returns (declare true b id lbl body) (fun _ => True).
Proof. unfold declare. by repeat ret_step. Qed.

Lemma returns_markUsed n : returns (markUsed n) (fun _ => True).
Proof. apply returns_modify. Qed.
Lemma returns_setTarget b t : returns (setTarget b t) (fun _ => True).
Proof. apply returns_modify. Qed.
#[local] Hint Resolve returns_declare returns_markUsed returns_setTarget : returns.

Lemma returns_gotoTarget bs n : returns (gotoTarget bs n) (fun _ => True).
Proof. unfold gotoTarget. by repeat ret_step. Qed.
Lemma returns_enclosingTarget bs n : returns (enclosingTarget bs n) (fun _ => True).
Proof. unfold enclosingTarget. by repeat ret_step. Qed.
#[local] Hint Resolve returns_gotoTarget returns_enclosingTarget : returns.

Lemma returns_resolve v name id fwds :
  locals_ok v -> returns (resolve true v name id fwds) (fun _ => True).
Proof.
  intros Hv. induction fwds as [|fwd fwds IH]; cbn [resolve]; [by repeat ret_step|].
  case_test; [|eapply returns_bind; [apply IH|]; intros ? _; by apply returns_ret].
  eapply returns_bind; [by auto with returns|intros [] _].
  eapply returns_bind; [by auto with returns|intros [] _].
  apply (returns_bind _ _ (fun _ => True)); [|intros [] _; apply IH].
  destruct (jumpsOverVarDecl v fwd) eqn:Ej; [|by apply returns_ret].
  unfold jumpsOverVarDecl in Ej. apply andb_true_iff in Ej as [Ej _].
  destruct (Hv Ej) as (x & -> & Hx). destruct (String_expr_returns x Hx) as [str ->].
  eapply returns_mono; [by auto with returns|done].
Qed.

Lemma returns_unlabeled ctxt last id pos tok :
  branch_ok tok None = true -> returns (unlabeledBranch true ctxt last id pos tok) (fun _ => True).
Proof. intros Ht. unfold unlabeledBranch. destruct tok; try discriminate; by repeat ret_step. Qed.

Lemma returns_labeled bs id tok lbl v :
  branch_ok tok (Some lbl) = true -> locals_ok v ->
  returns (labeledBranch true bs id tok lbl v) locals_ok.
Proof.
  intros Ht Hv. unfold labeledBranch. cbv zeta. destruct tok; try discriminate; by repeat ret_step.
Qed.

(** *** Blocks *)

Definition visitor_ok (f : visitor) : Prop :=
  forall bs ctxt last lstmt v, bs <> [] -> locals_ok v -> returns (f bs ctxt last lstmt v) locals_ok.

Lemma locals_fwd f v : locals_ok v -> locals_ok (set_fwdGotos f v).
Proof. done. Qed.

Lemma returns_visitList l bs ctxt :
  Forall (fun e => visitor_ok e.2) l -> bs <> [] ->
  forall v, locals_ok v -> returns (visitList l bs ctxt v) locals_ok.
Proof.
  intros Hl Hbs. induction Hl as [|[e f] l Hf _ IH]; intros v Hv; cbn [visitList].
  - by apply returns_ret.
  - eapply returns_bind; [by apply Hf|]. intros v' Hv'. by apply IH.
Qed.

Lemma trimTrailing_Forall {A} (P : A -> Prop) empty l : Forall P l -> Forall P (trimTrailing empty l).
Proof.
  induction 1 as [|x l Hx Hl IH]; [done|]. cbn. destruct (trimTrailing empty l); [by case_match; constructor|].
  by constructor.
Qed.

Lemma returns_blockBranches parents ctxt lstmt start body :
  Forall (fun e => visitor_ok e.2) body ->
  returns (blockBranches parents ctxt lstmt start body) (fun _ => True).
Proof.
  intros Hb. unfold blockBranches.
  eapply returns_bind; [apply returns_newId|intros id _].
  eapply returns_bind; [apply returns_visitList; [by apply trimTrailing_Forall|done|done]|].
  intros v _. by apply returns_ret.
Qed.

Lemma returns_innerBlock bs lstmt v ctxt start body :
  Forall (fun e => visitor_ok e.2) body -> locals_ok v ->
  returns (innerBlock bs lstmt v ctxt start body) locals_ok.
Proof.
  intros Hb Hv. eapply returns_bind; [by apply returns_blockBranches|]. intros f _. by apply returns_ret.
Qed.

Lemma returns_visitClauses numbered ctxt bs lstmt l :
  Forall (fun c => Forall (fun e => visitor_ok e.2) c.2) l ->
  forall i v, locals_ok v -> returns (visitClauses numbered i ctxt l bs lstmt v) locals_ok.
Proof.
  induction 1 as [|[p body] l Hb _ IH]; intros i v Hv; cbn [visitClauses]; [by apply returns_ret|].
  eapply returns_bind; [by apply returns_innerBlock|]. intros v' Hv'. by apply IH.
Qed.

(** *** Statements *)

Abbreviation visit := (Branches.visit true).
Abbreviation visits l := (map (fun s => (is_EmptyStmt s, visit s)) l).

Definition stmts_ok (l : list stmt) : Prop := Forall (fun s => visitor_ok (visit s)) l.

Lemma stmts_visits l : stmts_ok l -> Forall (fun e : bool * visitor => visitor_ok e.2) (visits l).
Proof. intros Hl. by apply Forall_map. Qed.

(** What a node contributes to the check. *)
Definition node_branches (n : node) : Prop :=
  match n with
  | NStmt s =>
      wf_stmt s = true ->
      visitor_ok (visit s) /\ match s with BlockStmt b => stmts_ok (block_List b) | _ => True end
  | NCase (CaseClause p x l c) => wf_case (CaseClause p x l c) = true -> stmts_ok l
  | NComm (CommClause p s l c) => wf_comm (CommClause p s l c) = true -> stmts_ok l
  | _ => True
  end.

Lemma stmts_branches l :
  (forall s, In (Some (NStmt s)) (map (fun s => Some (NStmt s)) l) -> node_branches (NStmt s)) ->
  forallb wf_stmt l = true -> stmts_ok l.
Proof.
  intros Hl Hw. rewrite forallb_forall in Hw. apply List.Forall_forall. intros s Hs.
  apply Hl; [|by apply Hw]. by apply (in_map (fun s => Some (NStmt s))).
Qed.

Lemma visit_wf_decl l p names :
  forallb wf_decl l = true -> firstVarDecl l = Some (p, names) ->
  exists n names', names = n :: names' /\ wf_name n = true.
Proof.
  induction l as [|d l IH]; [done|]. cbn [forallb firstVarDecl]. intros Hw. apply andb_true_iff in Hw as [Hd Hl].
  destruct d; try (by apply IH). intros H. injection H as <- <-. cbn [wf_decl] in Hd.
  destruct NameList as [|n names]; [discriminate|]. exists n, names. split; [done|].
  repeat (apply andb_true_iff in Hd as [Hd ?]). cbn in *.
  by match goal with H : wf_name n && _ = true |- _ => apply andb_true_iff in H as [? _] end.
Qed.

Ltac split_wf :=
  cbn [wf_stmt wf_case wf_comm wf_block optb] in *;
  repeat match goal with H : _ && _ = true |- _ => apply andb_true_iff in H as [? ?] end.

(** What the cases of [visit] do after the number of the statement is taken. *)
Lemma visitor_step s (body : list Branches.block -> targets -> bool -> option nat -> locals -> nat -> BM locals) :
  (forall bs ctxt last lstmt v id, bs <> [] -> locals_ok v ->
     returns (body bs ctxt last lstmt v id) locals_ok) ->
  (forall bs ctxt last lstmt v, visit s bs ctxt last lstmt v =
     bind newId (fun id => body bs ctxt last lstmt v id)) ->
  visitor_ok (visit s).
Proof.
  intros Hb Hs bs ctxt last lstmt v Hbs Hv. rewrite Hs.
  eapply returns_bind; [apply returns_newId|]. intros id _. by apply Hb.
Qed.

Lemma node_branches_all n : node_branches n.
Proof.
  revert n. apply node_ind'. intros n IH. destruct n as [f|d|x|s|f|c|c|]; try exact I.
  - assert (Hs : forall s', In (Some (NStmt s')) (walked (NStmt s)) -> wf_stmt s' = true ->
      visitor_ok (visit s')) by (intros s' Hi Hw; by apply (IH (NStmt s'))).
    assert (Hb : forall b, In (Some (NStmt (BlockStmt b))) (walked (NStmt s)) -> wf_block b = true ->
      stmts_ok (block_List b)) by (intros b Hi Hw; by apply (IH (NStmt (BlockStmt b)))).
    intros Hw. destruct s as [ | |[bp bl br]| | | | | | | | |? ? ? [tp tl tr]|? ? ? ? [fp fl fr]| | |]; split; try exact I.
    all: try (apply (visitor_step _ (fun _ _ _ _ v _ => ret v)); [intros; by apply returns_ret|done]).
    + split_wf. intros bs ctxt last lstmt v Hbs Hv. cbn [Branches.visit].
      eapply returns_bind; [apply returns_newId|]. intros id _. cbv zeta.
      assert (Hbody : visitor_ok (visit s)) by (apply Hs; [by right; left|done]).
      case_test; [|by apply Hbody]. destruct bs as [|b bs]; [done|].
      eapply returns_bind; [apply returns_declare|]. intros _ _.
      eapply returns_bind; [by apply returns_resolve|]. intros fwds _. by apply Hbody, locals_fwd.
    + intros bs ctxt last lstmt v Hbs Hv. cbn [Branches.visit].
      eapply returns_bind; [apply returns_newId|]. intros id _.
      apply returns_innerBlock; [|done]. apply stmts_visits. split_wf. apply stmts_branches; [|done].
      intros s Hi. by apply IH.
    + split_wf. apply stmts_branches; [|done]. intros s Hi. by apply IH.
    + split_wf. intros bs ctxt last lstmt v Hbs Hv. cbn [Branches.visit].
      eapply returns_bind; [apply returns_newId|]. intros id _.
      destruct (firstVarDecl DeclList) as [[p names]|] eqn:E; [|by apply returns_ret].
      destruct (visit_wf_decl _ _ _ Hw E) as (n & names' & -> & Hn). apply returns_ret.
      intros _. by exists (Name n).
    + split_wf. apply (visitor_step _ (fun _ _ _ _ v _ => ret (if op_eqb Op Def then recordVarDecl pos Lhs v else v)));
        [|done]. intros bs ctxt last lstmt v id _ Hv. apply returns_ret. case_match; [|done].
      intros _. by exists Lhs.
    + split_wf. intros bs ctxt last lstmt v Hbs Hv. cbn [Branches.visit].
      eapply returns_bind; [apply returns_newId|]. intros id _. destruct Label as [lbl|].
      * by apply returns_labeled.
      * eapply returns_bind; [by apply returns_unlabeled|]. intros _ _. by apply returns_ret.
    + split_wf. intros bs ctxt last lstmt v Hbs Hv. cbn [Branches.visit].
      eapply returns_bind; [apply returns_newId|]. intros id _. cbv zeta.
      eapply returns_bind; [apply returns_innerBlock; [|done]; apply stmts_visits; apply (Hb (mkBlockStmt tp tl tr)); [in_children|done]|].
      intros v' Hv'. destruct Else as [e|]; [|by apply returns_ret].
      apply returns_innerBlock; [|done]. constructor; [|constructor]. apply Hs; [in_children|done].
    + split_wf. intros bs ctxt last lstmt v Hbs Hv. cbn [Branches.visit].
      eapply returns_bind; [apply returns_newId|]. intros id _.
      apply returns_innerBlock; [|done]. apply stmts_visits, (Hb (mkBlockStmt fp fl fr)); [in_children|done].
    + split_wf. intros bs ctxt last lstmt v Hbs Hv. cbn [Branches.visit].
      eapply returns_bind; [apply returns_newId|]. intros id _. apply returns_visitClauses; [|done].
      apply Forall_map, List.Forall_forall. intros [p cx l colon] Hc. apply stmts_visits.
      refine (IH (NCase (CaseClause p cx l colon)) _ _).
      * cbn. rewrite !in_app_iff. right; right. by apply (in_map (fun c => Some (NCase c))).
      * match goal with H : forallb wf_case _ = true |- _ => rewrite forallb_forall in H; by apply H end.
    + split_wf. intros bs ctxt last lstmt v Hbs Hv. cbn [Branches.visit].
      eapply returns_bind; [apply returns_newId|]. intros id _. apply returns_visitClauses; [|done].
      apply Forall_map, List.Forall_forall. intros [p cs l colon] Hc. apply stmts_visits.
      refine (IH (NComm (CommClause p cs l colon)) _ _).
      * cbn. by apply (in_map (fun c => Some (NComm c))).
      * rewrite forallb_forall in Hw. by apply Hw.
  - destruct c as [p x l colon]. intros Hw. split_wf. apply stmts_branches; [|done].
    intros s Hi. apply IH. cbn. rewrite in_app_iff. by right.
  - destruct c as [p s l colon]. intros Hw. split_wf. apply stmts_branches; [|done].
    intros s' Hi. apply IH. cbn. rewrite in_app_iff. by right.
Qed.

Lemma returns_reportGotos fwds : returns (reportGotos true fwds) (fun _ => True).
Proof.
  induction fwds as [|fwd fwds IH]; cbn [reportGotos]; [by apply returns_ret|]. cbv zeta.
  eapply returns_bind; [apply (returns_gets labels)|]. intros m _.
  apply (returns_bind _ _ (fun _ => True)); [|by intros [] _].
  destruct (m !! _); [|apply returns_errf].
  eapply returns_bind; [apply returns_markUsed|]. intros [] _. apply returns_errf.
Qed.

Lemma returns_reportUnused l : returns (reportUnused true l) (fun _ => True).
Proof.
  induction l as [|x l IH]; cbn [reportUnused]; [by apply returns_ret|].
  apply (returns_bind _ _ (fun _ => True)); [|by intros [] _].
  case_match; [apply returns_errf|by apply returns_ret].
Qed.

Lemma checkBranches_returns body :
  wf_block body = true -> exists s t, checkBranches true map_order (Some body) = Ok (tt, s, t).
Proof.
  intros Hw. assert (Hr : returns (checkBody true map_order body) (fun _ => True)).
  { unfold checkBody. eapply returns_bind.
    - apply returns_blockBranches, stmts_visits. by apply (node_branches_all (NStmt (BlockStmt body))).
    - intros fwds _. eapply returns_bind; [apply returns_reportGotos|]. intros [] _.
      eapply returns_bind; [apply (returns_gets labels)|]. intros m _. apply returns_reportUnused. }
  specialize (Hr newScope). unfold wp in Hr. cbn [checkBranches].
  destruct (checkBody true map_order body newScope) as [[[[] s] t]|v|]; [by exists s, t|done..].
Qed.
(** C32: with an error handler, [checkBranches] returns on every well-formed
    body, whatever the order of the label map: it neither panics on the nodes
    nor on the names that it prints. *)
Theorem checkBranches_total body :
  wf_block body = true -> exists s t, checkBranches true map_order (Some body) = Ok (tt, s, t).
Proof. apply checkBranches_returns. Qed.
End Total.

Lemma checkBranches_total_witness :
  (wf_block (mkBlockStmt (Examples.P 1) [BranchStmt (Examples.P 2) _Goto (Some (Examples.N 2 "L"))] (Examples.P 9)) = true) /\
  exists s t, checkBranches true any_order
    (Some (mkBlockStmt (Examples.P 1) [BranchStmt (Examples.P 2) _Goto (Some (Examples.N 2 "L"))] (Examples.P 9))) = Ok (tt, s, t).
Proof. split; [reflexivity|]. apply (checkBranches_total any_order). reflexivity. Defined.
