(* ===== verification/Parser.v ===== *)
(** * src/src/cmd/compile/internal/syntax/parser.go: the parser's machinery

    [parser] is the state of the struct: the embedded scanner, the position
    base, errors, pragma, nesting levels.  The fields that a parser keeps
    unchanged are the class [Config]; the calls of the error and pragma
    handlers are the trace of the monad; a panic carries an [Error] (the
    first error, without an error handler) or the message of a run-time panic.

    The scanner's handler runs on the calls that one [next] of the scanner
    makes, in their order; it does not touch the scanner.  The loops are
    bounded by the number of tokens left ([tokens_left]); the productions are
    in Grammar.v. *)

From S2P Require Import Constraint Prelude Format Tokens Source Pos Nodes Exprs Printer Branches Scanner.
From stdpp Require Import gmap.

#[local] Open Scope Z_scope.
#[local] Open Scope go_scope.

(** ** State *)

(** syntax.go: [Error]. *)
Record Error := mkError { err_Pos : Pos; err_Msg : string }.

(** The mode flag [CheckBranches]. *)
Definition CheckBranches : Z := Z.shiftl 1 0.

(** What the parser is given: its file base, whether there is an error
    handler, the mode, the pragma handler; [map_range] is the order of the label
    map. *)
Class Config := {
  file : option PosBase;
  has_errh : bool;
  pmode : Z;
  pragh : option (Pos -> bool -> string -> option Pragma -> option Pragma);
  map_range : gmap string label -> list label
}.

Inductive pval : Type := PError (err : Error) | PRuntime (msg : string).

Inductive event : Type :=
| EError (err : Error)
| EPragma (pos : Pos) (blank : bool) (text : string) (current : option Pragma).

Record parser (src : Type) := Parser {
  scanner_ : scanner src;
  base : option PosBase;
  first : option Error;
  errcnt : Z;
  pragma : option Pragma;
  goVersion : string;
  top : bool;
  fnest : Z;
  xnest : Z;
  ids : nat
}.

Arguments Parser {src}.
Arguments scanner_ {src}.
Arguments base {src}.
Arguments first {src}.
Arguments errcnt {src}.
Arguments pragma {src}.
Arguments goVersion {src}.
Arguments top {src}.
Arguments fnest {src}.
Arguments xnest {src}.
Arguments ids {src}.

Definition set_scanner_ {src} (v : scanner src) (p : parser src) : parser src := Parser v (base p) (first p) (errcnt p) (pragma p) (goVersion p) (top p) (fnest p) (xnest p) (ids p).
Definition set_base {src} (v : option PosBase) (p : parser src) : parser src := Parser (scanner_ p) v (first p) (errcnt p) (pragma p) (goVersion p) (top p) (fnest p) (xnest p) (ids p).
Definition set_first {src} (v : option Error) (p : parser src) : parser src := Parser (scanner_ p) (base p) v (errcnt p) (pragma p) (goVersion p) (top p) (fnest p) (xnest p) (ids p).
Definition set_errcnt {src} (v : Z) (p : parser src) : parser src := Parser (scanner_ p) (base p) (first p) v (pragma p) (goVersion p) (top p) (fnest p) (xnest p) (ids p).
Definition set_pragma {src} (v : option Pragma) (p : parser src) : parser src := Parser (scanner_ p) (base p) (first p) (errcnt p) v (goVersion p) (top p) (fnest p) (xnest p) (ids p).
Definition set_goVersion {src} (v : string) (p : parser src) : parser src := Parser (scanner_ p) (base p) (first p) (errcnt p) (pragma p) v (top p) (fnest p) (xnest p) (ids p).
Definition set_top {src} (v : bool) (p : parser src) : parser src := Parser (scanner_ p) (base p) (first p) (errcnt p) (pragma p) (goVersion p) v (fnest p) (xnest p) (ids p).
Definition set_fnest {src} (v : Z) (p : parser src) : parser src := Parser (scanner_ p) (base p) (first p) (errcnt p) (pragma p) (goVersion p) (top p) v (xnest p) (ids p).
Definition set_xnest {src} (v : Z) (p : parser src) : parser src := Parser (scanner_ p) (base p) (first p) (errcnt p) (pragma p) (goVersion p) (top p) (fnest p) v (ids p).
Definition set_ids {src} (v : nat) (p : parser src) : parser src := Parser (scanner_ p) (base p) (first p) (errcnt p) (pragma p) (goVersion p) (top p) (fnest p) (xnest p) v.

(** The error whose panic [Parse] recovers from. *)
Definition Error_String (err : Error) : string := Pos_String (err_Pos err) +s+ ": " +s+ err_Msg err.

(** [strings.LastIndexByte(text, c)], or -1. *)
Fixpoint LastIndexByte (c : byte) (l : list byte) : Z :=
  match l with
  | [] => -1
  | x :: l =>
      let i := LastIndexByte c l in
      if 0 <=? i then i + 1 else if x =? c then 0 else -1
  end.

Definition trailingDigits (text : list byte) : Z * Z * bool :=
  let i := LastIndexByte ":"%rune text in
  if i <? 0 then (0, 0, false)
  else
    let '(n, ok) := ParseUint (string_of_bytes (drop (Z.to_nat (i + 1)) text)) in
    (u64 (i + 1), n, ok).

(** The text of a comment, or [None] for an index out of range. *)
Definition commentText (s : list byte) : option (list byte) :=
  if lenZ s <? 2 then None
  else if bool_decide (slice s 0 2 = bytes_of_string "/*") then
    if lenZ s - 2 <? 2 then None else Some (slice s 2 (lenZ s - 2))
  else
    let i := if nthZ 0 s (lenZ s - 1) =? 13 then lenZ s - 1 else lenZ s in
    if i <? 2 then None else Some (slice s 2 i).

Definition tokstring (tok : token) : string :=
  match tok with
  | _Comma => "comma"
  | _Semi => "semicolon or newline"
  | _ =>
      let s := token_String tok in
      if (token_num _Break <=? token_num tok) && (token_num tok <=? token_num _Var)
      then "keyword " +s+ s else s
  end.

Definition stopset : Z :=
  tokset [_Break; _Const; _Continue; _Defer; _Fallthrough; _For; _Go; _Goto; _If; _Return; _Select;
          _Switch; _Type; _Var].

Section Parser.
Context {src : Type} `{RuneSource src} `{cfg : Config}.

Definition PM : Type -> Type := GM pval event (parser src).

(** The fields of the scanner. *)
Definition ptok (p : parser src) : token := tok (scanner_ p).
Definition plit (p : parser src) : string := lit (scanner_ p).
Definition pop (p : parser src) : Operator := op (scanner_ p).
Definition pprec (p : parser src) : Z := prec (scanner_ p).

(** A bound on the number of tokens before the end of the input. *)
Definition tokens_left (p : parser src) : nat :=
  if tok_eqb (ptok p) _EOF then O else Datatypes.S (Z.to_nat (scan_measure (scanner_ p))).

(** Enough rounds for a loop in which every round but the last two reads a
    token. *)
Definition ploop {X Y} (body : X -> PM (X + Y)) (x : X) : PM Y :=
  let* n := gets (fun p => Datatypes.S (Datatypes.S (tokens_left p))) in iterM n body x.

Definition runtime {A} (msg : string) : PM A := panic (PRuntime msg).

(** A number that identifies a new node; the number after it identifies the
    element of the node. *)
Definition newId : PM nat :=
  let* n := gets ids in modify (set_ids (Datatypes.S (Datatypes.S n)));;; ret n.

(** ** Errors *)

Definition posAt (line col : Z) : PM Pos := gets (fun p => MakePos (base p) line col).

Definition pos : PM Pos :=
  gets (fun p => MakePos (base p) (line (scanner_ p)) (col (scanner_ p))).

Definition errorAt (pos : Pos) (msg : string) : PM unit :=
  let err := mkError pos msg in
  modify (fun p => match first p with None => set_first (Some err) p | Some _ => p end);;;
  modify (fun p => set_errcnt (errcnt p + 1) p);;;
  if has_errh then emit (EError err)
  else
    let* f := gets first in
    panic match f with Some f => PError f | None => PRuntime "nil error" end.

Definition error (msg : string) : PM unit := let* p := pos in errorAt p msg.

(** The token in an error message. *)
Definition tokenText (p : parser src) : string :=
  match ptok p with
  | _Name => "name " +s+ plit p
  | _Semi => plit p
  | _Literal => "literal " +s+ plit p
  | _Operator => Operator_String (pop p)
  | _AssignOp => Operator_String (pop p) +s+ "="
  | _IncOp => Operator_String (pop p) +s+ Operator_String (pop p)
  | t => tokstring t
  end.

Definition syntaxErrorAt (pos : Pos) (msg : string) : PM unit :=
  let* eof := gets (fun p => tok_eqb (ptok p) _EOF && is_some (first p)) in
  if eof then ret tt
  else
    let unexpected msg :=
      let* tok := gets tokenText in
      errorAt pos ("syntax error: unexpected " +s+ tok +s+ msg) in
    if bool_decide (msg = ""%string) then unexpected msg
    else if String.prefix "in " msg || String.prefix "at " msg || String.prefix "after " msg
    then unexpected (" " +s+ msg)
    else if String.prefix "expected " msg then unexpected (", " +s+ msg)
    else errorAt pos ("syntax error: " +s+ msg).

Definition syntaxError (msg : string) : PM unit := let* p := pos in syntaxErrorAt p msg.

(** ** Directives *)

(** What [updateBase] makes of the text of a line directive: nothing, an error
    at a column offset, or a filename (empty: the previous one, if the flag is
    set), line and column. *)
Inductive lineDirective : Type :=
| NoDirective
| BadDirective (offset : Z) (msg : string)
| LineDirective (filename : list byte) (usePrevious : bool) (line col : Z).

Definition parseLine (text : list byte) : lineDirective :=
  let '(i, n, ok) := trailingDigits text in
  if i =? 0 then NoDirective
  else if negb ok then
    BadDirective i ("invalid line number: " +s+ string_of_bytes (drop (Z.to_nat i) text))
  else
    let '(i2, n2, ok2) := trailingDigits (slice text 0 (i - 1)) in
    if ok2 && ((n =? 0) || (PosMax <? n)) then
      BadDirective i ("invalid column number: " +s+ string_of_bytes (drop (Z.to_nat i) text))
    else
      let text := if ok2 then slice text 0 (i - 1) else text in
      let '(j, line, col) := if ok2 then (i2, n2, n) else (i, n, 0) in
      if (line =? 0) || (PosMax <? line) then
        BadDirective j ("invalid line number: " +s+ string_of_bytes (drop (Z.to_nat j) text))
      else
        let filename := slice text 0 (j - 1) in
        LineDirective filename (bool_decide (filename = []) && ok2) line col.

Definition updateBase (pos : Pos) (tline tcol : Z) (text : list byte) : PM unit :=
  match parseLine text with
  | NoDirective => ret tt
  | BadDirective offset msg =>
      let* p := posAt tline (u64 (tcol + offset)) in errorAt p msg
  | LineDirective filename usePrevious line col =>
      let* b := gets base in
      let '(f, t) :=
        if usePrevious then (base_Filename b, base_Trimmed b) else (string_of_bytes filename, false) in
      modify (set_base (Some (NewLineBase pos f t line col)))
  end.

(** The handler for the scanner's errors and directives. *)
Definition handler (ev : scanev) : PM unit :=
  let '(line, col, msg, blank) := ev in
  let m := bytes_of_string msg in
  match m with
  | [] => runtime "index out of range"
  | c :: _ =>
      if negb (c =? "/"%rune) then let* p := posAt line col in errorAt p msg
      else
        match commentText m with
        | None => runtime "slice bounds out of range"
        | Some text =>
            let full := nthZ 0 m 1 =? "*"%rune in
            let text' := string_of_bytes text in
            if ((col =? colbase) || full) && String.prefix "line " text' then
              let pos := if nthZ 0 m 1 =? "/"%rune then MakePos file (u64 (line + 1)) colbase
                         else MakePos file line (u64 (col + lenZ m)) in
              updateBase pos line (u64 (col + 2 + 5)) (drop 5 text)
            else if String.prefix "go:" text' then
              let* t := gets top in
              when t && String.prefix "//go:build" msg do
                match constraint.Parse m with
                | Ok x => modify (set_goVersion (string_of_bytes (constraint.GoVersion x)))
                | Panic _ => ret tt
                | NoFuel => out_of_fuel
                end;;;
              match pragh with
              | Some h =>
                  let* p := posAt line (u64 (col + 2)) in
                  let* cur := gets pragma in
                  emit (EPragma p blank text' cur);;;
                  modify (set_pragma (h p blank text' cur))
              | None => ret tt
              end
            else ret tt
        end
  end.

Fixpoint handle (evs : list scanev) : PM unit :=
  match evs with
  | [] => ret tt
  | ev :: evs => handler ev;;; handle evs
  end.

(** ** Tokens *)

(** One token of the scanner, with the calls of its handler. *)
Definition scan : PM (list scanev) :=
  fun p =>
    match Scanner.next (scanner_ p) with
    | Ok (_, s, t) => Ok (t, set_scanner_ s p, [])
    | Panic v => Panic (PRuntime v)
    | NoFuel => NoFuel
    end.

Definition next : PM unit := let* t := scan in handle t.

(** [p.init] with an initialised reader. *)
Definition init (r : src) : parser src :=
  Parser (Scanner.init r directives) file None 0 None "" true 0 0 0.

Definition takePragma : PM (option Pragma) :=
  let* prag := gets pragma in modify (set_pragma None);;; ret prag.

Definition clearPragma : PM unit :=
  let* prag := gets pragma in
  match prag with
  | None => ret tt
  | Some _ =>
      let* p := pos in
      let* b := gets (fun p => blank (scanner_ p)) in
      match pragh with
      | None => runtime "nil pragma handler"
      | Some h =>
          emit (EPragma p b "" prag);;;
          modify (set_pragma None)
      end
  end.

Definition isTok (t : token) : PM bool := gets (fun p => tok_eqb (ptok p) t).
Definition tokIn (ts : list token) : PM bool := gets (fun p => existsb (tok_eqb (ptok p)) ts).
(** [p.tok == t && p.op == o] *)
Definition isOp (t : token) (o : Operator) : PM bool :=
  gets (fun p => tok_eqb (ptok p) t && op_eqb (pop p) o).

Definition got (tok : token) : PM bool :=
  let* b := isTok tok in
  if b then next;;; ret true else ret false.

(** The follow set of [advance]. *)
Definition followset (inFunc : bool) (followlist : list token) : Z :=
  let set := tokset [_EOF] in
  match followlist with
  | [] => set
  | _ =>
      fold_left (fun set tok => Z.lor set (u64 (Z.shiftl 1 (token_num tok)))) followlist
        (if inFunc then Z.lor set stopset else set)
  end.

Definition advance (followlist : list token) : PM unit :=
  let* n := gets fnest in
  let set := followset (0 <? n) followlist in
  ploop (fun _ : unit =>
    let* t := gets ptok in
    if negb (contains set t) then
      next;;;
      ret match followlist with [] => inr tt | _ => inl tt end
    else ret (inr tt)) tt.

Definition want (tok : token) : PM unit :=
  let* b := got tok in
  if b then ret tt
  else syntaxError ("expected " +s+ tokstring tok);;; advance [].

Definition gotAssign : PM bool :=
  let* t := gets ptok in
  match t with
  | _Define => syntaxError "expected =";;; next;;; ret true
  | _Assign => next;;; ret true
  | _ => ret false
  end.

(** [list]: the element parser [f] threads the variables that the closure of
    the code captures; its second result ends the list. *)
Definition list_ {X} (context : string) (sep close : token) (f : X -> PM (X * bool)) (x : X) : PM (X * Pos) :=
  let* (x, early) := ploop (fun '((x, done) : X * bool) =>
    let* b := tokIn [_EOF; close] in
    if negb b && negb done then
      let* (x, done) := f x in
      let* g := got sep in
      let* c := isTok close in
      if negb g && negb c then
        syntaxError ("in " +s+ context +s+ "; possibly missing " +s+ tokstring sep +s+ " or " +s+ tokstring close);;;
        advance [_Rparen; _Rbrack; _Rbrace];;;
        let* c := isTok close in
        if negb c then let* p := pos in ret (inr (x, Some p)) else ret (inl (x, done))
      else ret (inl (x, done))
    else ret (inr (x, None))) (x, false) in
  match early with
  | Some p => ret (x, p)
  | None => let* p := pos in want close;;; ret (x, p)
  end.

Definition badExpr : PM expr := let* p := pos in ret (BadExpr p).

(** [String] of a node, for a message. *)
Definition string_of (s : option string) : PM string :=
  match s with Some s => ret s | None => runtime "String" end.

Definition in_xnest {A} (m : PM A) : PM A :=
  modify (fun p => set_xnest (xnest p + 1) p);;;
  let* a := m in
  modify (fun p => set_xnest (xnest p - 1) p);;;
  ret a.
End Parser.
