(* ===== verification/ParserFacts.v ===== *)
(** * What the parser's machinery promises

    A program logic for the parser: [spec m Q p] says that [m] returns from
    the state [p] without a run-time panic and with enough fuel, that it keeps
    the parser's invariant [pinv], that it uses up tokens or leaves the scanner
    alone, restores the nesting levels, and records the errors that it
    reports.  The rules for the operations of Parser.v; the productions are in
    the files that follow. *)

From S2P Require Import Constraint ConstraintFacts.
From S2P Require Import Prelude Utf8 Format Tokens Source Pos Nodes Walk WellFormed Exprs Printer.
From S2P Require Import PrinterFacts Branches BranchFacts Scanner ScannerFacts Parser.
From stdpp Require Import gmap.

#[local] Open Scope Z_scope.
#[local] Open Scope go_scope.

(** [checkBranches] is switched off. *)
Definition branches_off `{cfg : Config} : Prop := Z.land pmode CheckBranches = 0.

(** The handler is there, or no code runs that calls it without a check. *)
Definition handled `{cfg : Config} : Prop := has_errh = true \/ branches_off.

(** The errors among the calls of the handlers. *)
Fixpoint reported (t : list event) : list Error :=
  match t with
  | [] => []
  | EError e :: t => e :: reported t
  | EPragma _ _ _ _ :: t => reported t
  end.

Lemma reported_app t1 t2 : reported (t1 ++ t2) = reported t1 ++ reported t2.
Proof. induction t1 as [|[e|? ? ? ?] t1 IH]; cbn; by rewrite ?IH. Qed.

Definition first_error (o : option Error) (l : list Error) : option Error :=
  match o with Some e => Some e | None => head l end.

Lemma first_error_app o l1 l2 : first_error (first_error o l1) l2 = first_error o (l1 ++ l2).
Proof. destruct o; [done|]. by destruct l1. Qed.

(** ** The follow set *)

Definition stopTokens : list token :=
  [_Break; _Const; _Continue; _Defer; _Fallthrough; _For; _Go; _Goto; _If; _Return; _Select;
   _Switch; _Type; _Var].

Lemma bit_u64 t tok : Z.testbit (u64 (Z.shiftl 1 (token_num t))) (token_num tok) = tok_eqb tok t.
Proof.
  pose proof (token_num_range tok). pose proof (token_num_range t).
  rewrite Z.shiftl_1_l. unfold u64. rewrite Z.mod_small.
  2: { split; [lia|]. apply Z.pow_lt_mono_r; lia. }
  rewrite Z.pow2_bits_eqb by lia. unfold tok_eqb. apply Z.eqb_sym.
Qed.

Lemma fold_bits l tok : forall set,
  Z.testbit (fold_left (fun set tok => Z.lor set (u64 (Z.shiftl 1 (token_num tok)))) l set) (token_num tok) =
  Z.testbit set (token_num tok) || existsb (tok_eqb tok) l.
Proof.
  induction l as [|t l IH]; intros set; cbn [fold_left existsb]; [by rewrite orb_false_r|].
  rewrite IH, Z.lor_spec, bit_u64. by rewrite orb_assoc.
Qed.

(** The tokens at which [advance] stops: the end of the input, the tokens of
    the list, and (in a function body, for a list that is not empty) the
    keywords that start a statement. *)
Definition stops_at (inFunc : bool) (l : list token) (tok : token) : bool :=
  tok_eqb tok _EOF ||
  match l with
  | [] => false
  | _ => inFunc && existsb (tok_eqb tok) stopTokens || existsb (tok_eqb tok) l
  end.

Lemma followset_spec inFunc l tok : contains (followset inFunc l) tok = stops_at inFunc l tok.
Proof.
  rewrite contains_testbit. unfold followset, stops_at. destruct l as [|t l].
  - rewrite tokset_testbit. cbn. by rewrite !orb_false_r.
  - rewrite fold_bits. rewrite orb_assoc. f_equal. destruct inFunc; cbn [andb].
    + rewrite Z.lor_spec. unfold stopset. rewrite !tokset_testbit. cbn [existsb]. by rewrite orb_false_r.
    + rewrite tokset_testbit. cbn. by rewrite !orb_false_r.
Qed.

Section Spec.
Context {src : Type} `{SourceLaws src} `{cfg : Config}.
Abbreviation PM := (Parser.PM (src := src)).
Abbreviation parser := (parser src).
Implicit Types p : parser.

(** ** The invariant *)

Record pinv p : Prop := {
  pi_src : src_ok (source_ (scanner_ p));
  pi_left : Z.of_nat (src_left (source_ (scanner_ p))) < 2 ^ 62;
  pi_tok : token_ok (scanner_ p);
  pi_lit : lit_ok (scanner_ p);
  pi_pragma : pragh = None -> pragma p = None
}.

(** What a step records of the errors that it reports. *)
Record recorded p p' (t : list event) : Prop := {
  rc_first : first p' = first_error (first p) (reported t);
  rc_count : errcnt p' = errcnt p + lenZ (reported t);
  rc_quiet : has_errh = false -> reported t = []
}.

(** Without an error nothing is recorded. *)
Lemma recorded_none p p' t :
  reported t = [] -> first p' = first p -> errcnt p' = errcnt p -> recorded p p' t.
Proof.
  intros Et Ef Ec. split; rewrite Et; [rewrite Ef; by destruct (first p)| |done].
  rewrite Ec. change (lenZ []) with 0. lia.
Qed.

Lemma recorded_refl p : recorded p p [].
Proof. by apply recorded_none. Qed.

Lemma recorded_trans p1 p2 p3 t1 t2 :
  recorded p1 p2 t1 -> recorded p2 p3 t2 -> recorded p1 p3 (t1 ++ t2).
Proof.
  intros [F1 C1 Q1] [F2 C2 Q2]. split; rewrite reported_app.
  - by rewrite F2, F1, first_error_app.
  - rewrite C2, C1, lenZ_app. lia.
  - intros He. by rewrite (Q1 He), (Q2 He).
Qed.

(** The panic for the first error, without an error handler. *)
Definition pallowed (v : pval) : Prop := has_errh = false /\ exists e, v = PError e.

(** [spec_to fn xn m Q p]: the result satisfies [Q], and the nesting levels at
    the end are [fn] and [xn]. *)
Definition spec_to {A} (fn xn : Z) (m : PM A) (Q : A -> parser -> Prop) p : Prop :=
  wp pallowed False m (fun a p' t =>
    (pinv p' /\ ((tokens_left p' < tokens_left p)%nat \/ scanner_ p' = scanner_ p) /\
     fnest p' = fn /\ xnest p' = xn /\ (ids p <= ids p')%nat /\
     (branches_off -> recorded p p' t)) /\ Q a p') p.

Abbreviation spec m Q p := (spec_to (fnest p) (xnest p) m Q p).

Lemma spec_ret {A} fn xn (a : A) (Q : A -> parser -> Prop) p :
  pinv p -> fnest p = fn -> xnest p = xn -> Q a p -> spec_to fn xn (ret a) Q p.
Proof.
  intros. apply wp_ret. split_and!; try done; [by right|]. intros _. apply recorded_refl.
Qed.

Lemma tokens_left_scanner p p' : scanner_ p' = scanner_ p -> tokens_left p' = tokens_left p.
Proof. intros E. unfold tokens_left, ptok. by rewrite E. Qed.

(** The rule for [bind]: the rest may use what every step does. *)
Lemma spec_bind {A B} fn xn (m : PM A) (k : A -> PM B) (P : A -> parser -> Prop) (Q : B -> parser -> Prop) p :
  spec m P p ->
  (forall a p', pinv p' -> (tokens_left p' <= tokens_left p)%nat ->
     ((tokens_left p' < tokens_left p)%nat \/ scanner_ p' = scanner_ p) ->
     fnest p' = fnest p -> xnest p' = xnest p -> (ids p <= ids p')%nat ->
     P a p' -> spec_to fn xn (k a) Q p') ->
  spec_to fn xn (bind m k) Q p.
Proof.
  intros Hm Hk. apply wp_bind. eapply wp_mono; [exact Hm|].
  intros a p1 t1 ((I1 & S1 & F1 & X1 & N1 & R1) & HP).
  assert (L1 : (tokens_left p1 <= tokens_left p)%nat)
    by (destruct S1 as [?|E]; [lia|rewrite (tokens_left_scanner _ _ E); lia]).
  eapply wp_mono; [by apply (Hk a p1)|].
  intros b p2 t2 ((I2 & S2 & F2 & X2 & N2 & R2) & HQ). split; [|done].
  split_and!; try done; [|lia|].
  - destruct S1 as [S1|S1], S2 as [S2|S2]; try (left; lia).
    + left. pose proof (tokens_left_scanner _ _ S2). lia.
    + right. congruence.
  - intros Hoff. eapply recorded_trans; [by apply R1|by apply R2].
Qed.

Lemma spec_mono {A} fn xn (m : PM A) (P Q : A -> parser -> Prop) p :
  spec_to fn xn m P p ->
  (forall a p', pinv p' -> (tokens_left p' <= tokens_left p)%nat ->
     ((tokens_left p' < tokens_left p)%nat \/ scanner_ p' = scanner_ p) ->
     fnest p' = fn -> xnest p' = xn -> (ids p <= ids p')%nat -> P a p' -> Q a p') ->
  spec_to fn xn m Q p.
Proof.
  intros Hm HPQ. eapply wp_mono; [exact Hm|].
  intros a p1 t1 ((I1 & S1 & F1 & X1 & N1 & R1) & HP). split; [done|]. apply HPQ; try done.
  destruct S1 as [?|E]; [lia|rewrite (tokens_left_scanner _ _ E); lia].
Qed.

Lemma spec_gets {A B} fn xn (f : parser -> A) (k : A -> PM B) Q p :
  spec_to fn xn (k (f p)) Q p -> spec_to fn xn (bind (gets f) k) Q p.
Proof. intros Hk. unfold spec_to, wp in *. by rewrite bind_gets. Qed.

Lemma spec_assoc {A B C} fn xn (m : PM A) (k : A -> PM B) (h : B -> PM C) Q p :
  spec_to fn xn (bind m (fun a => bind (k a) h)) Q p -> spec_to fn xn (bind (bind m k) h) Q p.
Proof. intros Hk. unfold spec_to, wp in *. by rewrite bind_assoc. Qed.

Lemma spec_bind_ret {A B} fn xn (a : A) (k : A -> PM B) Q p :
  spec_to fn xn (k a) Q p -> spec_to fn xn (bind (ret a) k) Q p.
Proof. intros Hk. unfold spec_to, wp in *. by rewrite bind_ret. Qed.

(** A change of the state that the scanner and the errors do not see. *)
Lemma spec_modify {B} fn xn (f : parser -> parser) (k : unit -> PM B) Q p :
  scanner_ (f p) = scanner_ p -> (ids p <= ids (f p))%nat ->
  first (f p) = first p -> errcnt (f p) = errcnt p ->
  spec_to fn xn (k tt) Q (f p) -> spec_to fn xn (bind (modify f) k) Q p.
Proof.
  intros Hs Hi He Hc Hk. unfold spec_to, wp in *. rewrite bind_modify.
  destruct (k tt (f p)) as [[[b p'] t]|v|]; [|done..].
  destruct Hk as ((I1 & S1 & F1 & X1 & N1 & R1) & HQ). split; [|done].
  rewrite Hs, (tokens_left_scanner _ _ Hs) in S1. split_and!; try done; [lia|].
  intros Hoff. destruct (R1 Hoff) as [E C Q']. split; [by rewrite E, He|by rewrite C, Hc|done].
Qed.

(** ** Errors *)

Lemma pinv_scanner p p' :
  scanner_ p' = scanner_ p -> pragma p' = pragma p -> pinv p -> pinv p'.
Proof. intros Es Ep []. by split; rewrite ?Es, ?Ep. Qed.

Lemma spec_errorAt pos msg p :
  pinv p -> spec (errorAt pos msg) (fun _ p' => scanner_ p' = scanner_ p) p.
Proof.
  intros I. unfold errorAt. cbv zeta. apply wp_bind, wp_modify, wp_bind, wp_modify.
  set (p1 := match first p with None => set_first (Some _) p | Some _ => p end).
  assert (Hp1 : scanner_ p1 = scanner_ p /\ pragma p1 = pragma p /\ fnest p1 = fnest p /\ xnest p1 = xnest p /\
    ids p1 = ids p /\ errcnt p1 = errcnt p /\ first p1 = first_error (first p) [mkError pos msg]).
  { unfold p1. by destruct (first p) eqn:E; rewrite ?E. }
  destruct Hp1 as (Es & Ep & Ef & Ex & Ei & Ec & E1). clearbody p1.
  destruct (has_errh) eqn:Eh.
  - apply wp_emit. cbn [app]. split; [|exact Es]. split_and!; try done; cbn.
    + by apply (pinv_scanner p).
    + by right.
    + lia.
    + intros _. split; cbn; [done|by rewrite Ec|]. intros E. by rewrite E in Eh.
  - apply wp_bind, wp_gets, wp_panic. cbn [first set_errcnt]. rewrite E1. split; [done|].
    destruct (first p); by eexists.
Qed.

Lemma spec_syntaxErrorAt pos msg p :
  pinv p -> spec (syntaxErrorAt pos msg) (fun _ p' => scanner_ p' = scanner_ p) p.
Proof.
  intros I. unfold syntaxErrorAt. apply spec_gets. case_match; [by apply spec_ret|]. cbv zeta.
  repeat case_match; try apply spec_gets; by apply spec_errorAt.
Qed.

Lemma spec_error msg p : pinv p -> spec (error msg) (fun _ p' => scanner_ p' = scanner_ p) p.
Proof. intros I. apply spec_gets. by apply spec_errorAt. Qed.

Lemma spec_syntaxError msg p :
  pinv p -> spec (syntaxError msg) (fun _ p' => scanner_ p' = scanner_ p) p.
Proof. intros I. apply spec_gets. by apply spec_syntaxErrorAt. Qed.

(** ** Directives and comments *)

Lemma spec_last_modify fn xn (f : parser -> parser) p :
  pinv p -> scanner_ (f p) = scanner_ p -> pragma (f p) = pragma p -> ids (f p) = ids p ->
  first (f p) = first p -> errcnt (f p) = errcnt p -> fnest (f p) = fn -> xnest (f p) = xn ->
  spec_to fn xn (modify f) (fun _ p' => scanner_ p' = scanner_ p) p.
Proof.
  intros I Es Ep Ei E1 Ec Ef Ex. apply wp_modify. split; [|done].
  split_and!; try done; [by eapply pinv_scanner|by right|lia|].
  intros _. by apply recorded_none.
Qed.

Lemma spec_updateBase pos l c text p :
  pinv p -> spec (updateBase pos l c text) (fun _ p' => scanner_ p' = scanner_ p) p.
Proof.
  intros I. unfold updateBase. destruct (parseLine text) as [|off msg|f prev line col].
  - by apply spec_ret.
  - apply spec_gets. by apply spec_errorAt.
  - apply spec_gets. destruct (if prev then _ else _) as [f' t']. by apply spec_last_modify.
Qed.

Lemma commentText_some msg : comment_msg msg = true -> is_some (commentText (bytes_of_string msg)) = true.
Proof.
  unfold comment_msg, commentText. cbv zeta. set (s := bytes_of_string msg). intros Hm.
  apply andb_true_iff in Hm as [Hm Hend]. apply andb_true_iff in Hm as [Hlen Hfst].
  apply Z.leb_le in Hlen. apply Z.eqb_eq in Hfst. decide_tests.
  assert (Hsl : slice s 0 2 = [nthZ 0 s 0; nthZ 0 s 1]).
  { rewrite (slice_head 0 s 0 2), (slice_head 0 s (0 + 1) 2) by lia. by rewrite slice_empty. }
  rewrite Hsl, Hfst. change (bytes_of_string "/*") with ["/"%rune; "*"%rune].
  destruct (Z.eqb_spec (nthZ 0 s 1) "*"%rune) as [->|Hne].
  - rewrite bool_decide_true by done. apply Z.leb_le in Hend. by decide_tests.
  - rewrite bool_decide_false by congruence.
    destruct (Z.eqb_spec (nthZ 0 s (lenZ s - 1)) 13) as [E|_]; [|by decide_tests].
    apply orb_true_iff in Hend as [Hend|Hend]; [apply Z.leb_le in Hend; by decide_tests|].
    apply Z.eqb_eq in Hend. destruct (Z.eq_dec (lenZ s) 2) as [E2|]; [|by decide_tests].
    rewrite E2 in E. change (2 - 1) with 1 in E. rewrite Hend in E. discriminate.
Qed.

(** The handler of the scanner's messages: it takes every message that the
    scanner reports. *)
Lemma spec_handler ev p :
  pinv p -> good_event ev -> spec (handler ev) (fun _ p' => scanner_ p' = scanner_ p) p.
Proof.
  intros I Hg. destruct ev as [[[l c] msg] b]. cbn [good_event handler] in *. cbv zeta.
  assert (Hm : bytes_of_string msg <> [] /\
    (forall m, bytes_of_string msg = "/"%rune :: m -> comment_msg msg = true)).
  { destruct Hg as [Hg|[Hg|Hg]].
    - unfold plain_msg in Hg. destruct (bytes_of_string msg) as [|x m]; [done|]. split; [done|].
      intros m' E. injection E as -> _. discriminate.
    - split; [|done]. intros E. unfold comment_msg in Hg. by rewrite E in Hg.
    - unfold hash_msg in Hg. destruct (bytes_of_string msg) as [|x m]; [done|]. split; [done|].
      intros m' E. injection E as -> _. discriminate. }
  destruct Hm as [Hne Hc]. destruct (bytes_of_string msg) as [|x m] eqn:Em; [done|].
  destruct (Z.eqb_spec x "/"%rune) as [Ex|_]; cbn [negb]; [|apply spec_gets; by apply spec_errorAt].
  rewrite Ex in *. clear x Ex. rewrite <- Em in *.
  assert (Ht := commentText_some msg). destruct (commentText (bytes_of_string msg)) as [text|].
  2: { discriminate Ht. by apply (Hc m). }
  case_match; [by apply spec_updateBase|]. case_match; [|by apply spec_ret]. apply spec_gets.
  apply (spec_bind _ _ _ _ (fun _ p' => scanner_ p' = scanner_ p)).
  { case_match; [|by apply spec_ret]. pose proof (build_line_total msg).
    destruct (constraint.Parse (bytes_of_string msg)); [by apply spec_last_modify|by apply spec_ret|done]. }
  intros [] p1 I1 _ _ Ef Ex1 Ei Es. destruct pragh as [h|] eqn:Eh; [|by apply spec_ret].
  apply spec_gets, spec_gets. apply wp_bind, wp_emit, wp_modify. split; [|done].
  split_and!; try done.
  - destruct I1. split; try done. by rewrite Eh.
  - by right.
  - intros _. by apply recorded_none.
Qed.

Lemma spec_handle evs : forall p,
  pinv p -> Forall good_event evs -> spec (handle evs) (fun _ p' => scanner_ p' = scanner_ p) p.
Proof.
  induction evs as [|ev evs IH]; intros p I Hg; cbn [handle]; [by apply spec_ret|].
  inversion_clear Hg as [|? ? Hev Hevs]. eapply spec_bind; [by apply spec_handler|].
  intros [] p1 I1 _ _ Ef Ex _ Es. rewrite <- Ef, <- Ex. eapply spec_mono; [by apply IH|].
  intros [] p2 _ _ _ _ _ _ Es2. by rewrite Es2.
Qed.

(** ** Tokens *)

Lemma tokens_left_EOF p : ptok p = _EOF <-> tokens_left p = O.
Proof.
  unfold tokens_left. destruct (tok_eqb (ptok p) _EOF) eqn:E.
  - apply tok_eqb_eq in E. by split.
  - split; [|done]. intros Ht. by rewrite Ht in E.
Qed.

Lemma scan_measure_nonneg (s : scanner src) : 0 <= scan_measure s.
Proof. unfold scan_measure. case_match; lia. Qed.

(** A call of the scanner at a token that is not the end uses it up. *)
Lemma spec_next p :
  pinv p -> ptok p <> _EOF -> spec next (fun _ p' => (tokens_left p' < tokens_left p)%nat) p.
Proof.
  intros I Ht. destruct I as [Isrc Ileft Itok Ilit Iprag].
  destruct (next_total_aux (scanner_ p) Isrc Ileft)
    as (s' & t & Hn & Hok & _ & Hg & (Htok & Hlit) & Hl & Hp).
  unfold next, scan. apply wp_bind. unfold wp at 1. rewrite Hn.
  set (p1 := set_scanner_ s' p).
  assert (Hlt : (tokens_left p1 < tokens_left p)%nat).
  { unfold tokens_left, ptok. cbn [p1 scanner_ set_scanner_].
    destruct (tok_eqb (tok (scanner_ p)) _EOF) eqn:E; [by apply tok_eqb_eq in E|].
    destruct Hp as [-> | Hp]; [cbn; lia|]. pose proof (scan_measure_nonneg s').
    case_match; [lia|]. lia. }
  assert (I1 : pinv p1) by (split; cbn [p1 scanner_ set_scanner_ pragma]; try done; lia).
  eapply wp_mono; [by apply (spec_handle t p1)|].
  intros [] p2 t2 ((I2 & _ & F2 & X2 & N2 & R2) & Es). cbn [app].
  pose proof (tokens_left_scanner p1 p2 Es). split; [|lia]. split_and!; try done.
  - left. lia.
  - intros Hoff. by destruct (R2 Hoff).
Qed.

Lemma spec_got t p :
  pinv p -> t <> _EOF ->
  spec (got t) (fun b p' =>
    (b = true /\ ptok p = t /\ (tokens_left p' < tokens_left p)%nat) \/
    (b = false /\ ptok p <> t /\ p' = p)) p.
Proof.
  intros I Ht. unfold got, isTok. apply spec_gets. destruct (tok_eqb (ptok p) t) eqn:E.
  - apply tok_eqb_eq in E. eapply spec_bind; [apply spec_next; [done|congruence]|].
    intros [] p1 I1 _ _ Ef Ex _ Hlt. apply spec_ret; [done..|]. by left.
  - apply tok_eqb_neq in E. apply spec_ret; [done..|]. by right.
Qed.

(** A loop whose rounds get smaller by a measure that the number of tokens
    bounds. *)
Lemma spec_ploop {X Y} (body : X -> PM (X + Y)) (I : X -> parser -> Prop) (mu : X -> parser -> nat)
    (Q : Y -> parser -> Prop) x p :
  pinv p -> I x p ->
  (forall x p1, pinv p1 -> (tokens_left p1 <= tokens_left p)%nat ->
     ((tokens_left p1 < tokens_left p)%nat \/ scanner_ p1 = scanner_ p) ->
     fnest p1 = fnest p -> xnest p1 = xnest p -> (ids p <= ids p1)%nat -> I x p1 ->
     (mu x p1 <= Datatypes.S (tokens_left p1))%nat /\
     spec (body x) (fun r p2 =>
       match r with
       | inl x' => I x' p2 /\ (mu x' p2 < mu x p1)%nat
       | inr y => Q y p2
       end) p1) ->
  spec (ploop body x) Q p.
Proof.
  intros Hp HI Hb. unfold ploop. apply wp_bind, wp_gets. cbn [app].
  set (Inv := fun (x : X) (p1 : parser) (t : list event) =>
    pinv p1 /\ (tokens_left p1 <= tokens_left p)%nat /\
    ((tokens_left p1 < tokens_left p)%nat \/ scanner_ p1 = scanner_ p) /\
    fnest p1 = fnest p /\ xnest p1 = xnest p /\ (ids p <= ids p1)%nat /\
    (branches_off -> recorded p p1 t) /\ I x p1).
  eapply wp_mono.
  - apply (wp_iterM _ _ Inv mu body (fun y p2 t =>
      (pinv p2 /\ ((tokens_left p2 < tokens_left p)%nat \/ scanner_ p2 = scanner_ p) /\
       fnest p2 = fnest p /\ xnest p2 = xnest p /\ (ids p <= ids p2)%nat /\
       (branches_off -> recorded p p2 t)) /\ Q y p2)) with (t := []).
    + intros x1 p1 t1 (I1 & L1 & S1 & F1 & X1 & N1 & R1 & HI1).
      destruct (Hb x1 p1) as [_ Hs]; try done. eapply wp_mono; [exact Hs|].
      intros r p2 t2 ((I2 & S2 & F2 & X2 & N2 & R2) & HQ).
      assert (S12 : (tokens_left p2 < tokens_left p)%nat \/ scanner_ p2 = scanner_ p).
      { destruct S1 as [S1|S1], S2 as [S2|S2]; try (left; lia).
        - left. pose proof (tokens_left_scanner _ _ S2). lia.
        - right. congruence. }
      assert (L2 : (tokens_left p2 <= tokens_left p)%nat)
        by (destruct S12 as [?|E]; [lia|rewrite (tokens_left_scanner _ _ E); lia]).
      assert (R12 : branches_off -> recorded p p2 (t1 ++ t2))
        by (intros Hoff; eapply recorded_trans; [by apply R1|by apply R2]).
      destruct r as [x2|y].
      * destruct HQ as [HI2 Hmu]. split; [|by right]. split_and!; try done; [congruence..|lia].
      * split; [|done]. split_and!; try done; [congruence..|lia].
    + split_and!; try done; [by right|]. intros _. apply recorded_refl.
    + right. destruct (Hb x p) as [Hm _]; try done; [by right|]. lia.
  - intros y p2 t2 HQ. exact HQ.
Qed.

(** Every round uses up a token. *)
Lemma spec_ploop_tokens {X Y} (body : X -> PM (X + Y)) (I : X -> parser -> Prop) (Q : Y -> parser -> Prop) x p :
  pinv p -> I x p ->
  (forall x p1, pinv p1 -> (tokens_left p1 <= tokens_left p)%nat ->
     ((tokens_left p1 < tokens_left p)%nat \/ scanner_ p1 = scanner_ p) ->
     fnest p1 = fnest p -> xnest p1 = xnest p -> (ids p <= ids p1)%nat -> I x p1 ->
     spec (body x) (fun r p2 =>
       match r with
       | inl x' => I x' p2 /\ (tokens_left p2 < tokens_left p1)%nat
       | inr y => Q y p2
       end) p1) ->
  spec (ploop body x) Q p.
Proof.
  intros Hp HI Hb. apply (spec_ploop body I (fun _ => tokens_left)); [done|done|].
  intros x1 p1 I1 L1 S1 F1 X1 N1 HI1. split; [lia|]. by apply Hb.
Qed.

(** [advance] stops at the first token of the follow set; without a list it
    skips one token. *)
Lemma spec_advance l p :
  pinv p ->
  spec (advance l) (fun _ p' =>
    ((tokens_left p' < tokens_left p)%nat \/
     (scanner_ p' = scanner_ p /\ stops_at (0 <? fnest p) l (ptok p) = true)) /\
    (l <> [] -> stops_at (0 <? fnest p) l (ptok p') = true)) p.
Proof.
  intros I. unfold advance. apply spec_gets.
  apply (spec_ploop_tokens _ (fun _ _ => True)); [done|done|].
  intros [] p1 I1 L1 S1 F1 X1 N1 _. apply spec_gets. rewrite followset_spec.
  destruct (stops_at (0 <? fnest p) l (ptok p1)) eqn:E; cbn [negb].
  - apply spec_ret; [done..|]. split; [|done].
    destruct S1 as [?|S1]; [by left|]. right. split; [done|]. unfold ptok in *. by rewrite S1 in E.
  - eapply spec_bind; [apply spec_next; [done|]|].
    { intros Et. rewrite Et in E. discriminate. }
    intros [] p2 I2 L2 S2 F2 X2 N2 Hlt. destruct l as [|t l]; (apply spec_ret; [done..|]); [|done].
    split; [left; lia|done].
Qed.

Lemma spec_want t p :
  pinv p -> t <> _EOF -> spec (want t) (fun _ p' => (tokens_left p' <= pred (tokens_left p))%nat) p.
Proof.
  intros I Ht. unfold want. eapply spec_bind; [by apply spec_got|].
  intros b p1 I1 L1 S1 F1 X1 N1 [(-> & E & Hlt)|(-> & E & ->)].
  - apply spec_ret; [done..|]. lia.
  - eapply spec_bind; [by apply spec_syntaxError|]. intros [] p2 I2 _ _ F2 X2 _ Es.
    rewrite <- F2, <- X2. eapply spec_mono; [by apply spec_advance|].
    intros [] p3 I3 L3 _ _ _ _ [[Hlt|[Es3 Hst]] _].
    + pose proof (tokens_left_scanner _ _ Es). lia.
    + unfold stops_at in Hst. rewrite orb_false_r in Hst. apply tok_eqb_eq, tokens_left_EOF in Hst.
      pose proof (tokens_left_scanner _ _ Es). lia.
Qed.

Lemma spec_gotAssign p :
  pinv p -> spec gotAssign (fun b p' => b = true -> (tokens_left p' < tokens_left p)%nat) p.
Proof.
  intros I. unfold gotAssign. apply spec_gets.
  assert (Hdone : spec (ret false : PM bool) (fun b p' => b = true -> (tokens_left p' < tokens_left p)%nat) p)
    by by apply spec_ret.
  destruct (ptok p) eqn:Et; try exact Hdone.
  - eapply spec_bind; [apply spec_next; [done|by rewrite Et]|].
    intros [] p1 I1 L1 S1 F1 X1 N1 Hlt. by apply spec_ret.
  - eapply spec_bind; [by apply spec_syntaxError|]. intros [] p1 I1 L1 S1 F1 X1 N1 Es.
    eapply spec_bind; [apply spec_next; [done|unfold ptok in *; rewrite Es; congruence]|].
    intros [] p2 I2 L2 S2 F2 X2 N2 Hlt. apply spec_ret; [done|congruence|congruence|]. intros _. lia.
Qed.

Lemma spec_takePragma p : pinv p -> spec takePragma (fun _ p' => scanner_ p' = scanner_ p) p.
Proof.
  intros I. unfold takePragma. apply spec_gets, spec_modify; [done..|].
  apply spec_ret; try done. destruct I. by split.
Qed.

Lemma spec_clearPragma p : pinv p -> spec clearPragma (fun _ p' => scanner_ p' = scanner_ p) p.
Proof.
  intros I. unfold clearPragma. apply spec_gets. destruct (pragma p) as [prag|] eqn:Ep; [|by apply spec_ret].
  apply spec_gets, spec_gets. destruct pragh as [h|] eqn:Eh.
  - apply wp_bind, wp_emit, wp_modify. split; [|done]. split_and!; try done.
    + destruct I. by split.
    + by right.
    + intros _. by apply recorded_none.
  - exfalso. destruct I as [_ _ _ _ Ip]. rewrite (Ip Eh) in Ep. done.
Qed.

Lemma spec_newId p :
  pinv p -> spec newId (fun n p' => n = ids p /\ (ids p < ids p')%nat /\ scanner_ p' = scanner_ p) p.
Proof.
  intros I. unfold newId. apply spec_gets, spec_modify; [done|cbn; lia|done|done|].
  apply spec_ret; try done; [by destruct I|]. cbn. split_and!; [done|lia|done].
Qed.

Lemma spec_string_of s p : pinv p -> is_some s = true -> spec (string_of s) (fun _ p' => p' = p) p.
Proof. intros I Hs. destruct s as [s|]; [|done]. by apply spec_ret. Qed.

(** The separated lists: [f] parses an element. *)
Lemma spec_list {X} context sep close (f : X -> PM (X * bool)) (I : X -> parser -> Prop) x p :
  pinv p -> sep <> _EOF -> close <> _EOF ->
  (forall x p1 p2, I x p1 -> (ids p1 <= ids p2)%nat -> I x p2) -> I x p ->
  (forall x p1, pinv p1 -> (tokens_left p1 <= tokens_left p)%nat -> (ids p <= ids p1)%nat ->
     fnest p1 = fnest p -> xnest p1 = xnest p -> ptok p1 <> _EOF -> I x p1 ->
     spec (f x) (fun r p2 => I r.1 p2) p1) ->
  spec (list_ context sep close f x) (fun r p' => I r.1 p') p.
Proof.
  intros Hp Hsep Hclose Hmono HI Hf. unfold list_.
  set (leave := fun (done : bool) (p1 : parser) =>
    done || existsb (tok_eqb (ptok p1)) [_EOF; close]).
  eapply spec_bind.
  { apply (spec_ploop _ (fun (xd : X * bool) p1 => I xd.1 p1)
      (fun (xd : X * bool) p1 => (tokens_left p1 + if leave xd.2 p1 then 0 else 1)%nat)
      (fun (r : X * option Pos) p1 => I r.1 p1)); [done|done|].
    intros [x1 d] p1 I1 L1 S1 F1 X1 N1 HI1. split; [cbn [snd]; case_match; lia|].
    unfold leave. cbn [fst snd]. unfold tokIn. apply spec_gets.
    destruct (existsb (tok_eqb (ptok p1)) [_EOF; close]) eqn:Ex; cbn [negb andb];
      [by apply spec_ret|]. destruct d; cbn [negb orb]; [by apply spec_ret|].
    cbn [existsb] in Ex. apply orb_false_iff in Ex as [Eeof Ex]. apply tok_eqb_neq in Eeof.
    eapply spec_bind; [by apply Hf|]. intros [x2 d2] p2 I2 L2 S2 F2 X2 N2 HI2. cbn [fst] in HI2.
    eapply spec_bind; [by apply spec_got|]. intros g p3 I3 L3 S3 F3 X3 N3 Hg.
    unfold isTok. apply spec_gets.
    assert (HI3 : I x2 p3) by (eapply Hmono; [exact HI2|lia]).
    destruct g.
    { cbn [negb andb]. apply spec_ret; [done|congruence|congruence|]. cbn [fst snd]. split; [done|].
      destruct Hg as [(_ & _ & Hlt)|(? & _)]; [|done]. case_match; lia. }
    cbn [negb]. destruct (tok_eqb (ptok p3) close) eqn:Ec; cbn [negb andb].
    { apply spec_ret; [done|congruence|congruence|]. cbn [fst snd]. split; [done|].
      cbn [existsb]. rewrite Ec, !orb_true_r. lia. }
    eapply spec_bind; [by apply spec_syntaxError|]. intros [] p4 I4 L4 S4 F4 X4 N4 Es4.
    eapply spec_bind; [by apply spec_advance|]. intros [] p5 I5 L5 S5 F5 X5 N5 _.
    apply spec_gets. assert (HI5 : I x2 p5) by (eapply Hmono; [exact HI2|lia]).
    destruct (tok_eqb (ptok p5) close) eqn:Ec5; cbn [negb].
    - apply spec_ret; [done|congruence|congruence|]. cbn [fst snd]. split; [done|].
      cbn [existsb]. rewrite Ec5, !orb_true_r. lia.
    - apply spec_gets, spec_ret; [done|congruence|congruence|]. exact HI5. }
  intros [x1 early] p1 I1 L1 S1 F1 X1 N1 HI1. cbn [fst] in HI1. destruct early as [q|].
  - apply spec_ret; [done|congruence|congruence|]. exact HI1.
  - apply spec_gets. eapply spec_bind; [by apply spec_want|]. intros [] p2 I2 L2 S2 F2 X2 N2 _.
    apply spec_ret; [done|congruence|congruence|]. cbn [fst]. by eapply Hmono.
Qed.
End Spec.
