(* ===== verification/Grammar.v ===== *)
(** * src/src/cmd/compile/internal/syntax/parser.go: the productions

    One definition per parse function, in the state monad of Parser.v.  The
    recursion of the grammar is open: a [knot] holds the parse functions
    through which a production refers to itself, every definition takes the
    knot of the next nesting level, and [tie] closes it with a bound on the
    nesting depth, the number of tokens left.  Between the call of a production
    and its recursive call through the knot at least one token is read, so that
    the bound is enough (GrammarFacts.v).

    A function that ends with "X is filled in by the caller" returns the node
    without it: [arrayOrTArgs] and [complitexpr]. *)

From S2P Require Import Prelude Format Tokens Source Pos Nodes Exprs Positions Printer Branches Scanner Parser.

#[local] Open Scope Z_scope.
#[local] Open Scope go_scope.

Section Grammar.
Context {src : Type} `{RuneSource src} `{cfg : Config}.
Abbreviation PM := (PM (src := src)).

(** ** The recursion *)

Record knot := Knot {
  k_unaryExpr : PM expr;
  k_binaryExpr : option expr -> Z -> PM expr;
  k_typeOrNil : PM (option expr);
  k_complitexpr : PM (Pos * list expr * Z * Pos);
  k_ifStmt : PM stmt;
  k_stmtOrNil : PM (option stmt)
}.

Definition opt_some {A} (m : PM A) : PM (option A) := let* a := m in ret (Some a).

(** A new field. *)
Definition newField (pos : Pos) (nam : option name) (type : option expr) : PM field :=
  let* id := newId in ret (Field pos nam type id).

(** ** Common productions *)

Definition name_ : PM name :=
  let* b := isTok _Name in
  let* p := pos in
  if b then
    let* l := gets plit in
    next;;; ret (NewName p l)
  else
    syntaxError "expected name";;; advance [];;; ret (NewName p "_").

Definition nameList (first : name) : PM (list name) :=
  ploop (fun l : list name =>
    let* b := got _Comma in
    if b then let* n := name_ in ret (inl (l ++ [n])) else ret (inr l)) [first].

Definition oliteral : PM (option basiclit) :=
  let* b := isTok _Literal in
  if b then
    let* p := pos in
    let* lit := gets (fun s => mkBasicLit p (plit s) (kind (scanner_ s)) (bad (scanner_ s))) in
    next;;; ret (Some lit)
  else ret None.

(** [typ := p.typeOrNil(); if typ == nil { ... }] with the recovery of [type_]. *)
Definition type_with (typeOrNil : PM (option expr)) : PM expr :=
  let* t := typeOrNil in
  match t with
  | Some t => ret t
  | None =>
      let* t := badExpr in
      syntaxError "expected type";;;
      advance [_Comma; _Colon; _Semi; _Rparen; _Rbrack; _Rbrace];;;
      ret t
  end.

(** One nesting level: [k] are the functions of the level below. *)
Section Level.
Context (k : knot).

(** [p.expr()] and [p.type_()] of the level below. *)
Definition k_expr : PM expr := k_binaryExpr k None 0.
Definition k_type_ : PM expr := type_with (k_typeOrNil k).

Definition typeList (strict : bool) : PM (expr * bool) :=
  in_xnest
    (let* x := if strict then k_type_ else k_expr in
     let* comma := got _Comma in
     if comma then
       let* t := k_typeOrNil k in
       match t with
       | Some t =>
           let* list := ploop (fun l : list expr =>
             let* b := got _Comma in
             if b then
               let* t := k_typeOrNil k in
               match t with
               | Some t => ret (inl (l ++ [t]))
               | None => ret (inr l)
               end
             else ret (inr l)) [x; t] in
           ret (ListExpr (expr_pos x) list, true)
       | None => ret (x, true)
       end
     else ret (x, false)).

Definition typeInstance (typ : expr) : PM expr :=
  let* p := pos in
  want _Lbrack;;;
  let* b := isTok _Rbrack in
  let* index :=
    if b then
      syntaxError "expected type argument list";;; badExpr
    else let* (x, _) := typeList true in ret x in
  want _Rbrack;;;
  ret (IndexExpr p typ index).

Definition qualifiedName (nam : option name) : PM expr :=
  let* x :=
    match nam with
    | Some n => ret (Name n)
    | None =>
        let* b := isTok _Name in
        if b then let* n := name_ in ret (Name n)
        else
          let* p := pos in
          syntaxError "expected name";;;
          advance [_Dot; _Semi; _Rbrace];;;
          ret (Name (NewName p "_"))
    end in
  let* b := isTok _Dot in
  let* x :=
    if b then
      let* p := pos in
      next;;;
      let* sel := name_ in
      ret (SelectorExpr p x sel)
    else ret x in
  let* b := isTok _Lbrack in
  if b then typeInstance x else ret x.

(** ** Types *)

Definition newIndirect (pos : Pos) (typ : expr) : expr := Operation pos Mul typ None.

Definition arrayType (pos : Pos) (len : option expr) : PM expr :=
  let* len :=
    match len with
    | Some x => ret (Some x)
    | None =>
        let* dots := got _DotDotDot in
        if negb dots then opt_some (in_xnest k_expr) else ret None
    end in
  let* b := isTok _Comma in
  when b do (syntaxError "unexpected comma; expected ]";;; next);;;
  want _Rbrack;;;
  let* elem := k_type_ in
  ret (ArrayType pos len elem).

Definition sliceType (pos : Pos) : PM expr :=
  let* elem := k_type_ in ret (SliceType pos elem).

Definition chanElem : PM expr :=
  let* t := k_typeOrNil k in
  match t with
  | Some t => ret t
  | None =>
      let* t := badExpr in
      syntaxError "missing channel element type";;; ret t
  end.

(** [inr] is an [IndexExpr] whose [X] the caller fills in. *)
Definition arrayOrTArgs : PM (expr + (Pos * expr)) :=
  let* p := pos in
  want _Lbrack;;;
  let* b := got _Rbrack in
  if b then let* t := sliceType p in ret (inl t)
  else
    let* (n, comma) := typeList false in
    want _Rbrack;;;
    let* elem := if comma then ret None else k_typeOrNil k in
    match elem with
    | Some elem => ret (inl (ArrayType p (Some n) elem))
    | None => ret (inr (p, n))
    end.

(** The [IndexExpr] with its [X] filled in. *)
Definition fillX (x : expr) (t : expr + (Pos * expr)) : expr :=
  match t with
  | inl t => t
  | inr (p, i) => IndexExpr p x i
  end.

Definition embeddedTerm : PM expr :=
  let* b := isOp _Operator Tilde in
  if b then
    let* p := pos in
    next;;;
    let* x := k_type_ in
    ret (Operation p Tilde x None)
  else
    let* t := k_typeOrNil k in
    match t with
    | Some t => ret t
    | None =>
        let* t := badExpr in
        syntaxError "expected ~ term or type";;;
        advance [_Operator; _Semi; _Rparen; _Rbrack; _Rbrace];;;
        ret t
    end.

(** [embeddedElem] of a field given by its position, name and type. *)
Definition embeddedElem (f : option (Pos * option name * expr)) : PM field :=
  let* (p, nam, t) :=
    match f with
    | Some f => ret f
    | None =>
        let* p := pos in
        let* t := embeddedTerm in
        ret (p, None, t)
    end in
  let* t := ploop (fun t : expr =>
    let* b := isOp _Operator Or in
    if b then
      let* p := pos in
      next;;;
      let* y := embeddedTerm in
      ret (inl (Operation p Or t (Some y)))
    else ret (inr t)) t in
  newField p nam (Some t).

(** The end of [paramDeclOrNil] after a name and a type. *)
Definition typeSet (typeSetsOk : bool) (p : Pos) (nam : option name) (t : expr) : PM (option field) :=
  let* b := isOp _Operator Or in
  if typeSetsOk && b then opt_some (embeddedElem (Some (p, nam, t)))
  else opt_some (newField p nam (Some t)).

Definition paramDeclOrNil (nam : option name) (follow : token) : PM (option field) :=
  let typeSetsOk := tok_eqb follow _Rbrack in
  let* p := pos in
  let* tilde := isOp _Operator Tilde in
  let* b := isTok _Name in
  match nam, typeSetsOk && tilde with
  | None, true => opt_some (embeddedElem None)
  | _, _ =>
      let p := match nam with Some n => name_pos n | None => p end in
      (* after the name, if it is followed by neither "[" nor "." nor "|" *)
      let rest (nam : option name) : PM (option field) :=
        let* dots := isTok _DotDotDot in
        if dots then
          let* tp := pos in
          next;;;
          let* elem := k_typeOrNil k in
          match elem with
          | None =>
              let* t := badExpr in
              syntaxError "... is missing type";;;
              opt_some (newField p nam (Some t))
          | Some elem => opt_some (newField p nam (Some (DotsType tp elem)))
          end
        else
          let* tilde := isOp _Operator Tilde in
          if typeSetsOk && tilde then
            let* f := embeddedElem None in
            opt_some (newField p nam (field_Type f))
          else
            let* t := k_typeOrNil k in
            match t with
            | Some t => typeSet typeSetsOk p nam t
            | None =>
                match nam with
                | Some _ => opt_some (newField p nam None)
                | None =>
                    syntaxError ("expected " +s+ tokstring follow);;;
                    advance [_Comma; follow];;;
                    ret None
                end
            end in
      if b || is_some nam then
        let* n := match nam with Some n => ret n | None => name_ end in
        let* lbrack := isTok _Lbrack in
        if lbrack then
          let* t := arrayOrTArgs in
          typeSet typeSetsOk p (match t with inl _ => Some n | inr _ => None end) (fillX (Name n) t)
        else
          let* dot := isTok _Dot in
          if dot then
            let* t := qualifiedName (Some n) in
            typeSet typeSetsOk p None t
          else
            let* or := isOp _Operator Or in
            if typeSetsOk && or then opt_some (embeddedElem (Some (p, None, Name n)))
            else rest (Some n)
      else rest None
  end.

(** ** Parameter lists *)

Definition set_field_Name (n : option name) (f : field) : field :=
  match f with Field p _ t id => Field p n t id end.
Definition set_field_Type (t : option expr) (id : nat) (f : field) : field :=
  match f with Field p n _ _ => Field p n t id end.
Definition field_id (f : field) : nat := match f with Field _ _ _ id => id end.

(** All parameters are unnamed: the names that were found are types. *)
Definition namesToTypes (l : list field) : PM (list field) :=
  foldr (fun f (rest : PM (list field)) =>
    let* f' :=
      match f with
      | Field p (Some n) _ _ => newField p None (Some (Name n))
      | f => ret f
      end in
    let* l := rest in
    ret (f' :: l)) (ret []) l.

(** The sweep from right to left; the list is reversed.  [typ] is the current
    type with its number. *)
Fixpoint distribute (rev_list : list field) (errPos : Pos) (typ : option (expr * nat))
    (done : list field) : PM (list field * Pos) :=
  match rev_list with
  | [] => ret (done, errPos)
  | par :: rest =>
      match par with
      | Field p nam (Some t) id =>
          match nam with
          | Some _ => distribute rest errPos (Some (t, id)) (par :: done)
          | None =>
              let errPos := StartPos t in
              distribute rest errPos (Some (t, id))
                (set_field_Name (Some (NewName errPos "_")) par :: done)
          end
      | Field p nam None _ =>
          match typ, nam with
          | Some (t, id), _ => distribute rest errPos typ (set_field_Type (Some t) id par :: done)
          | None, Some n =>
              let errPos := name_pos n in
              let* id := newId in
              distribute rest errPos typ (set_field_Type (Some (BadExpr errPos)) id par :: done)
          | None, None => runtime "nil pointer dereference"
          end
      end
  end.

(** The message for a list in which some names or types are missing. *)
Definition missingMsg (sameCount requireNames single : bool) : string :=
  if sameCount then
    if requireNames then "missing type constraint" else "missing parameter type"
  else if requireNames then
    if single then "missing type parameter name or invalid array length" else "missing type parameter name"
  else "missing parameter name".

(** The check of "...": the number of the element of a node is the successor
    of the node's. *)
Fixpoint checkDots (first dddok : bool) (l : list field) : PM (list field) :=
  match l with
  | [] => ret []
  | f :: rest =>
      match field_Type f with
      | Some (DotsType p elem) =>
          if negb dddok || (0 <? lenZ rest) then
            when first do
              errorAt p (if dddok then "can only use ... with final parameter" else "invalid use of ...");;;
            let* rest := checkDots false dddok rest in
            ret (set_field_Type (Some elem) (Datatypes.S (field_id f)) f :: rest)
          else let* rest := checkDots first dddok rest in ret (f :: rest)
      | _ => let* rest := checkDots first dddok rest in ret (f :: rest)
      end
  end.

(** The variables of [paramList] that its closure changes. *)
Record paramState := ParamState {
  ps_name : option name;
  ps_typ : option expr;
  ps_list : list field;
  ps_named : Z;
  ps_typed : Z
}.

Definition param (close : token) (s : paramState) : PM (paramState * bool) :=
  let* par :=
    match ps_typ s, ps_name s with
    | Some t, Some n => opt_some (newField (name_pos n) (Some n) (Some t))
    | Some _, None => runtime "nil pointer dereference"
    | None, n => paramDeclOrNil n close
    end in
  let s := ParamState None None (ps_list s) (ps_named s) (ps_typed s) in
  match par with
  | None => ret (s, false)
  | Some f =>
      let typed := is_some (field_Type f) in
      let named := is_some (field_Name f) && typed in
      ret (ParamState None None (ps_list s ++ [f]) (ps_named s + (if named then 1 else 0))
             (ps_typed s + (if typed then 1 else 0)), false)
  end.

Definition paramList (nam : option name) (typ : option expr) (close : token) (requireNames dddok : bool)
  : PM (list field) :=
  let* atClose := isTok close in
  match nam, typ, atClose with
  | Some n, Some t, true =>
      next;;;
      let* f := newField (name_pos n) (Some n) (Some t) in
      ret [f]
  | _, _, _ =>
      let* (s, end_) := list_ "parameter list" _Comma close (param close) (ParamState nam typ [] 0 0) in
      let list := ps_list s in
      if lenZ list =? 0 then ret []
      else
        let* list :=
          if (ps_named s =? 0) && negb requireNames then namesToTypes list
          else if negb (ps_named s =? lenZ list) then
            let* (l, errPos) := distribute (rev list) noPos None [] in
            when IsKnown errPos do
              (let sameCount := ps_named s =? ps_typed s in
               syntaxErrorAt (if sameCount then end_ else errPos)
                 (missingMsg sameCount requireNames (lenZ list =? 1)));;;
            ret l
          else ret list in
        checkDots true dddok list
  end.

Definition funcResult : PM (list field) :=
  let* b := got _Lparen in
  if b then paramList None None _Rparen false false
  else
    let* p := pos in
    let* t := k_typeOrNil k in
    match t with
    | Some t => let* f := newField p None (Some t) in ret [f]
    | None => ret []
    end.

Definition funcType (context : string) : PM (list field * functype) :=
  let* p := pos in
  let* b := got _Lbrack in
  let* tparamList :=
    if b then
      when negb (bool_decide (context = ""%string)) do
        syntaxErrorAt p (context +s+ " must have no type parameters");;;
      let* b := isTok _Rbrack in
      if b then syntaxError "empty type parameter list";;; next;;; ret []
      else paramList None None _Rbrack true false
    else ret [] in
  want _Lparen;;;
  let* params := paramList None None _Rparen false true in
  let* results := funcResult in
  ret (tparamList, mkFuncType p params results).

(** ** Structs and interfaces *)

(** The lists of a [StructType] under construction. *)
Record fieldLists := FieldLists { fl_fields : list field; fl_tags : list (option basiclit) }.

Definition addField (s : fieldLists) (f : field) (tag : option basiclit) : fieldLists :=
  let tags :=
    match tag with
    | None => fl_tags s
    | Some t =>
        fl_tags s ++ repeat None (Z.to_nat (lenZ (fl_fields s) - lenZ (fl_tags s))) ++ [Some t]
    end in
  FieldLists (fl_fields s ++ [f]) tags.

Definition embed (s : fieldLists) (p : Pos) (typ : expr) : PM fieldLists :=
  let* tag := oliteral in
  let* f := newField p None (Some typ) in
  ret (addField s f tag).

Definition fieldDecl (s : fieldLists) : PM fieldLists :=
  let* p := pos in
  let* t := gets ptok in
  match t with
  | _Name =>
      let* n := name_ in
      let* b := tokIn [_Dot; _Literal; _Semi; _Rbrace] in
      if b then
        let* typ := qualifiedName (Some n) in
        embed s p typ
      else
        let* names := nameList n in
        let* lbrack := isTok _Lbrack in
        let* typ :=
          if (lenZ names =? 1) && lbrack then arrayOrTArgs
          else let* t := k_type_ in ret (inl t) in
        match typ with
        | inr _ => embed s p (fillX (Name n) typ)
        | inl typ =>
            let* tag := oliteral in
            let* id := newId in
            ret (fold_left (fun s n => addField s (Field (name_pos n) (Some n) (Some typ) id) tag) names s)
        end
  | _Star =>
      next;;;
      let* b := isTok _Lparen in
      let* typ :=
        if b then
          syntaxError "cannot parenthesize embedded type";;;
          next;;;
          let* typ := qualifiedName None in
          got _Rparen;;; ret typ
        else qualifiedName None in
      embed s p (newIndirect p typ)
  | _Lparen =>
      syntaxError "cannot parenthesize embedded type";;;
      next;;;
      let* b := isTok _Star in
      let* typ :=
        if b then
          let* p := pos in
          next;;;
          let* typ := qualifiedName None in
          ret (newIndirect p typ)
        else qualifiedName None in
      got _Rparen;;;
      embed s p typ
  | _ =>
      syntaxError "expected field name or embedded type";;;
      advance [_Semi; _Rbrace];;;
      ret s
  end.

Definition structType : PM expr :=
  let* p := pos in
  want _Struct;;;
  want _Lbrace;;;
  let* (s, _) := list_ "struct type" _Semi _Rbrace
    (fun s => let* s := fieldDecl s in ret (s, false)) (FieldLists [] []) in
  ret (StructType p (fl_fields s) (fl_tags s)).

(** The types of the fields of a list in which every field has one. *)
Fixpoint fieldTypes (l : list field) : PM (list expr) :=
  match l with
  | [] => ret []
  | f :: l =>
      match field_Type f with
      | Some t => let* r := fieldTypes l in ret (t :: r)
      | None => runtime "nil type"
      end
  end.

Definition methodContext : string := "interface method".

(** A method or an embedded element, as position, name and type. *)
Definition methodDecl : PM (Pos * option name * expr) :=
  let* p := pos in
  let* n := name_ in
  let method : PM (Pos * option name * expr) :=
    let* (_, t) := funcType methodContext in ret (p, Some n, FuncType t) in
  let* t := gets ptok in
  match t with
  | _Lparen => method
  | _Lbrack =>
      let* bpos := pos in
      next;;;
      let* b := isTok _Rbrack in
      if b then
        let* epos := pos in
        next;;;
        let* b := isTok _Lparen in
        if b then errorAt epos "empty type parameter list";;; method
        else errorAt epos "empty type argument list";;; ret (p, None, Name n)
      else
        let* list := paramList None None _Rbrack false false in
        match list with
        | [] =>
            let* b := isTok _Lparen in
            if b then method else ret (p, None, Name n)
        | f :: _ =>
            if is_some (field_Name f) then
              let* m := method in
              errorAt bpos "interface method must have no type parameters";;;
              ret m
            else
              let* types := fieldTypes list in
              match types with
              | [t] => ret (p, None, IndexExpr bpos (Name n) t)
              | ts => ret (p, None, IndexExpr bpos (Name n) (ListExpr (field_pos f) ts))
              end
        end
  | _ =>
      let* t := qualifiedName (Some n) in
      ret (p, None, t)
  end.

Definition interfaceType : PM expr :=
  let* p := pos in
  want _Interface;;;
  want _Lbrace;;;
  let* (l, _) := list_ "interface type" _Semi _Rbrace (fun l : list field =>
    let* b := isTok _Name in
    let* f :=
      if b then
        let* m := methodDecl in
        match m with
        | (p, Some n, t) => newField p (Some n) (Some t)
        | m => embeddedElem (Some m)
        end
      else embeddedElem None in
    ret (l ++ [f], false)) [] in
  ret (InterfaceType p l).

Definition typeOrNil : PM (option expr) :=
  let* p := pos in
  let* t := gets ptok in
  match t with
  | _Star => next;;; let* t := k_type_ in ret (Some (newIndirect p t))
  | _Arrow =>
      next;;;
      want _Chan;;;
      let* e := chanElem in
      ret (Some (ChanType p RecvOnly e))
  | _Func => next;;; let* (_, t) := funcType "function type" in ret (Some (FuncType t))
  | _Lbrack =>
      next;;;
      let* b := got _Rbrack in
      opt_some (if b then sliceType p else arrayType p None)
  | _Chan =>
      next;;;
      let* b := got _Arrow in
      let* e := chanElem in
      ret (Some (ChanType p (if b then SendOnly else NoDir) e))
  | _Map =>
      next;;;
      want _Lbrack;;;
      let* key := k_type_ in
      want _Rbrack;;;
      let* val := k_type_ in
      ret (Some (MapType p key val))
  | _Struct => opt_some structType
  | _Interface => opt_some interfaceType
  | _Name => opt_some (qualifiedName None)
  | _Lparen =>
      next;;;
      let* t := k_type_ in
      want _Rparen;;;
      ret (Some t)
  | _ => ret None
  end.

Definition type_ : PM expr := type_with typeOrNil.

(** ** Blocks *)

Definition stmtList : PM (list stmt) :=
  ploop (fun l : list stmt =>
    let* b := tokIn [_EOF; _Rbrace; _Case; _Default] in
    if negb b then
      let* s := k_stmtOrNil k in
      clearPragma;;;
      match s with
      | None => ret (inr l)
      | Some s =>
          let l := l ++ [s] in
          let* g := got _Semi in
          let* b := isTok _Rbrace in
          when negb g && negb b do
            (syntaxError "at end of statement";;;
             advance [_Semi; _Rbrace; _Case; _Default];;;
             got _Semi;;; ret tt);;;
          ret (inl l)
      end
    else ret (inr l)) [].

Definition blockStmt (context : string) : PM blockstmt :=
  let* p := pos in
  let* b := got _Lbrace in
  let* early :=
    if negb b then
      syntaxError ("expected { after " +s+ context);;;
      advance [_Name; _Rbrace];;;
      let* rbrace := pos in
      let* b := got _Rbrace in
      ret (if b then Some rbrace else None)
    else ret None in
  match early with
  | Some rbrace => ret (mkBlockStmt p [] rbrace)
  | None =>
      let* l := stmtList in
      let* rbrace := pos in
      want _Rbrace;;;
      ret (mkBlockStmt p l rbrace)
  end.

(** [checkBranches] with the parser's error handler: its errors do not count
    as errors of the parser. *)
Definition check_branches (body : blockstmt) : PM unit :=
  match checkBranches has_errh map_range (Some body) with
  | Ok (_, _, t) => fun p => Ok (tt, p, map (fun e : Pos * string => EError (mkError e.1 e.2)) t)
  | Panic msg => runtime msg
  | NoFuel => out_of_fuel
  end.

Definition funcBody : PM blockstmt :=
  modify (fun p => set_fnest (fnest p + 1) p);;;
  let* n := gets errcnt in
  let* body := blockStmt "" in
  modify (fun p => set_fnest (fnest p - 1) p);;;
  let* n' := gets errcnt in
  when negb (Z.land pmode CheckBranches =? 0) && (n =? n') do check_branches body;;;
  ret body.

(** ** Operands *)

Definition argList : PM (list expr * bool) :=
  in_xnest
    (let* (r, _) := list_ "argument list" _Comma _Rparen (fun '((l, _) : list expr * bool) =>
       let* x := k_expr in
       let* dots := got _DotDotDot in
       ret ((l ++ [x], dots), dots)) ([], false) in
     ret r).

(** The literal without its [Type]: position, elements, number of keys,
    closing brace. *)
Definition complit : Type := Pos * list expr * Z * Pos.
Definition mkComplit (type : option expr) (c : complit) : expr :=
  let '(p, l, n, rbrace) := c in CompositeLit p type l n rbrace.

Definition bare_complitexpr : PM expr :=
  let* b := isTok _Lbrace in
  if b then let* c := k_complitexpr k in ret (mkComplit None c)
  else k_expr.

Definition complitexpr : PM complit :=
  let* p := pos in
  in_xnest
    (want _Lbrace;;;
     let* (r, rbrace) := list_ "composite literal" _Comma _Rbrace (fun '((l, n) : list expr * Z) =>
       let* e := bare_complitexpr in
       let* b := isTok _Colon in
       if b then
         let* kp := pos in
         next;;;
         let* v := bare_complitexpr in
         ret ((l ++ [KeyValueExpr kp e v], n + 1), false)
       else ret ((l ++ [e], n), false)) ([], 0) in
     ret (p, r.1, r.2, rbrace)).

Definition anyName (pos : Pos) : expr := Name (mkName pos "any").

Definition convertSymbolKeyToString (key : expr) : expr :=
  match key with
  | Name n =>
      BasicLit (mkBasicLit (name_pos n) (string_of_bytes [34] +s+ Value n +s+ string_of_bytes [34])
                  StringLit false)
  | x => x
  end.

(** A key, already read, with its value. *)
Definition keyValue (key : expr) : PM expr :=
  let key := convertSymbolKeyToString key in
  want _Colon;;;
  let* v := k_expr in
  ret (KeyValueExpr (expr_pos key) key v).

(** The literal of a map[any]any. *)
Definition mapLit (pos : Pos) (l : list expr) (rbrace : Pos) : expr :=
  CompositeLit pos (Some (MapType pos (anyName pos) (anyName pos))) l (lenZ l) rbrace.

Definition mapLiteralFromBracket (p : Pos) (firstKey : option expr) : PM expr :=
  let* l :=
    match firstKey with
    | Some key => let* kv := keyValue key in ret [kv]
    | None => ret []
    end in
  let* l := ploop (fun l : list expr =>
    let* b := tokIn [_Rbrack; _EOF] in
    if negb b then
      when is_some firstKey || (0 <? lenZ l) do (got _Comma;;; ret tt);;;
      let* b := isTok _Rbrack in
      if b then ret (inr l)
      else
        let* key := k_expr in
        let* kv := keyValue key in
        ret (inl (l ++ [kv]))
    else ret (inr l)) l in
  let* rbrace := pos in
  want _Rbrack;;;
  ret (mapLit p l rbrace).

Definition mapLiteralFromBrace : PM expr :=
  let* p := pos in
  want _Lbrace;;;
  let* l := ploop (fun l : list expr =>
    let* b := tokIn [_Rbrace; _EOF] in
    if negb b then
      let* key := k_expr in
      let* kv := keyValue key in
      let l := l ++ [kv] in
      let* c := got _Comma in
      ret (if negb c then inr l else inl l)
    else ret (inr l)) [] in
  let* rbrace := pos in
  want _Rbrace;;;
  ret (mapLit p l rbrace).

Definition sliceLiteral (p : Pos) (first : expr) : PM expr :=
  let* l := ploop (fun l : list expr =>
    let* b := isTok _Comma in
    if b then
      next;;;
      let* b := isTok _Rbrack in
      if b then ret (inr l)
      else let* x := k_expr in ret (inl (l ++ [x]))
    else ret (inr l)) [first] in
  let* rbrace := pos in
  want _Rbrack;;;
  ret (CompositeLit p (Some (SliceType p (anyName p))) l 0 rbrace).

Definition mapTypeOrLiteral : PM expr :=
  let* p := pos in
  next;;;
  let* t := gets ptok in
  match t with
  | _Lbrack =>
      want _Lbrack;;;
      let* b := isTok _Rbrack in
      if b then mapLiteralFromBracket p None
      else
        let* first := k_expr in
        let* b := isTok _Colon in
        if b then mapLiteralFromBracket p (Some first)
        else
          want _Rbrack;;;
          let* val := k_type_ in
          ret (MapType p first val)
  | _Lbrace => ret (MapType p (anyName p) (anyName p))
  | _ => syntaxError "expected '[' or '{'";;; badExpr
  end.

Definition operand (keep_parens : bool) : PM expr :=
  let* t := gets ptok in
  match t with
  | _Name => let* n := name_ in ret (Name n)
  | _Literal =>
      let* b := oliteral in
      match b with
      | Some b => ret (BasicLit b)
      | None => runtime "nil literal"
      end
  | _Lparen =>
      let* p := pos in
      next;;;
      let* x := in_xnest k_expr in
      want _Rparen;;;
      let* b := isTok _Lbrace in
      ret (if b || keep_parens then ParenExpr p x else x)
  | _Func =>
      let* p := pos in
      next;;;
      let* (_, ftyp) := funcType "function type" in
      let* b := isTok _Lbrace in
      if b then in_xnest (let* body := funcBody in ret (FuncLit p ftyp body))
      else ret (FuncType ftyp)
  | _Map => mapTypeOrLiteral
  | _Lbrack =>
      let* p := pos in
      want _Lbrack;;;
      let* b := isTok _Rbrack in
      if b then
        next;;;
        let* elem := k_type_ in
        ret (SliceType p elem)
      else
        let* dots := got _DotDotDot in
        if dots then
          want _Rbrack;;;
          let* elem := k_type_ in
          ret (ArrayType p None elem)
        else
          let* first := k_expr in
          let* b := isTok _Comma in
          if b then sliceLiteral p first
          else
            want _Rbrack;;;
            let* elem := k_type_ in
            ret (ArrayType p (Some first) elem)
  | _Lbrace => mapLiteralFromBrace
  | _Chan | _Struct | _Interface => type_
  | _ =>
      let* x := badExpr in
      syntaxError "expected expression";;;
      advance [_Rparen; _Rbrack; _Rbrace];;;
      ret x
  end.

(** ** Primary expressions *)

(** After "X.". *)
Definition selector (p : Pos) (x : expr) : PM expr :=
  next;;;
  let* t := gets ptok in
  match t with
  | _Name => let* sel := name_ in ret (SelectorExpr p x sel)
  | _Lparen =>
      next;;;
      let* b := got _Type in
      let* x :=
        if b then ret (TypeSwitchGuard p None x)
        else let* t := k_type_ in ret (AssertExpr p x t) in
      want _Rparen;;;
      ret x
  | _ =>
      syntaxError "expected name or (";;;
      advance [_Semi; _Rparen];;;
      ret x
  end.

(** After "X[i" (where [i] may be missing), not followed by a closing bracket. *)
Definition slice_ (p : Pos) (x : expr) (i : option expr) : PM expr :=
  let* b := got _Colon in
  when negb b do
    (syntaxError "expected comma, : or ]";;;
     advance [_Comma; _Colon; _Rbrack]);;;
  let* (j, kk, full) := in_xnest
    (let* b := tokIn [_Colon; _Rbrack] in
     let* j := if negb b then opt_some k_expr else ret None in
     let* b := isTok _Colon in
     if b then
       let* j :=
         match j with
         | None => error "middle index required in 3-index slice";;; opt_some badExpr
         | Some j => ret (Some j)
         end in
       next;;;
       let* b := isTok _Rbrack in
       let* kk :=
         if negb b then k_expr
         else error "final index required in 3-index slice";;; badExpr in
       ret (j, Some kk, true)
     else ret (j, None, false)) in
  want _Rbrack;;;
  ret (SliceExpr p x i j kk full).

Definition index_ (p : Pos) (x : expr) : PM expr :=
  next;;;
  let* b := isTok _Colon in
  if b then slice_ p x None
  else
    let* b := isTok _Rbrack in
    let* (i, comma) :=
      if b then
        syntaxError "expected operand";;;
        let* x := badExpr in ret (x, false)
      else typeList false in
    let* b := isTok _Rbrack in
    if comma || b then
      want _Rbrack;;;
      ret (IndexExpr p x i)
    else slice_ p x (Some i).

(** x#i is x[i-1]. *)
Definition hashIndex (p : Pos) (x : expr) : PM expr :=
  next;;;
  let* i := k_unaryExpr k in
  ret (IndexExpr p x (Operation p Sub i (Some (BasicLit (mkBasicLit p "1" IntLit false))))).

(** May a "{" after [x] start a composite literal of that type? *)
Definition complit_ok (xnest : Z) (t : expr) : bool :=
  match t with
  | Name _ | SelectorExpr _ _ _ => 0 <=? xnest
  | IndexExpr _ _ _ => (0 <=? xnest) && negb (isValue t)
  | ArrayType _ _ _ | SliceType _ _ | StructType _ _ _ | MapType _ _ _ => true
  | _ => false
  end.

Definition is_paren (x : expr) : bool := match x with ParenExpr _ _ => true | _ => false end.

Definition pexpr (x : option expr) (keep_parens : bool) : PM expr :=
  let* x := match x with Some x => ret x | None => operand keep_parens end in
  ploop (fun x : expr =>
    let* p := pos in
    let* t := gets ptok in
    match t with
    | _Dot => let* x := selector p x in ret (inl x)
    | _Lbrack => let* x := index_ p x in ret (inl x)
    | _Hash => let* x := hashIndex p x in ret (inl x)
    | _Lparen =>
        next;;;
        let* (args, dots) := argList in
        ret (inl (CallExpr p x args dots))
    | _Lbrace =>
        let* n := gets xnest in
        if negb (complit_ok n (Unparen x)) then ret (inr x)
        else
          when is_paren x do syntaxError "cannot parenthesize type in composite literal";;;
          let* c := complitexpr in
          ret (inl (mkComplit (Some x) c))
    | _ => ret (inr x)
    end) x.

(** ** Unary and binary expressions *)

(** Re-associate "<-" with the channel type [t]: the type, and its element
    if it ends with "chan<- elem" where elem is no channel type. *)
Fixpoint reassociate (t : expr) : PM (expr * option expr) :=
  match t with
  | ChanType p dir elem =>
      when bool_decide (dir = RecvOnly) do syntaxError "unexpected <-, expected chan";;;
      if bool_decide (dir = SendOnly) then
        let* (elem, last) := reassociate elem in
        ret (ChanType p RecvOnly elem, last)
      else ret (ChanType p RecvOnly elem, None)
  | t => ret (t, Some t)
  end.

Definition is_ChanType (x : expr) : bool := match x with ChanType _ _ _ => true | _ => false end.

Definition unaryOps : list Operator := [Mul; Add; Sub; Not; Xor; Tilde].

Definition unaryExpr : PM expr :=
  let* t := gets ptok in
  let* o := gets pop in
  match t with
  | _Operator | _Star =>
      if existsb (op_eqb o) unaryOps then
        let* p := pos in
        next;;;
        let* x := k_unaryExpr k in
        ret (Operation p o x None)
      else if op_eqb o And then
        let* p := pos in
        next;;;
        let* x := k_unaryExpr k in
        ret (Operation p And (Unparen x) None)
      else pexpr None true
  | _Arrow =>
      let* p := pos in
      next;;;
      let* x := k_unaryExpr k in
      if is_ChanType x then
        let* (x, last) := reassociate x in
        match last with
        | Some t =>
            let* s := string_of (String_expr t) in
            syntaxError ("unexpected " +s+ s +s+ ", expected chan")
        | None => ret tt
        end;;;
        ret x
      else ret (Operation p Recv x None)
  | _ => pexpr None true
  end.

Definition binaryExpr (x : option expr) (prec : Z) : PM expr :=
  let* x := match x with Some x => ret x | None => unaryExpr end in
  ploop (fun x : expr =>
    let* b := tokIn [_Operator; _Star] in
    let* tprec := gets pprec in
    if b && (prec <? tprec) then
      let* p := pos in
      let* op := gets pop in
      next;;;
      let* y := k_binaryExpr k None tprec in
      ret (inl (Operation p op x (Some y)))
    else ret (inr x)) x.

Definition expr_ : PM expr := binaryExpr None 0.

Definition exprList : PM expr :=
  let* x := expr_ in
  let* b := got _Comma in
  if b then
    let* y := expr_ in
    let* l := ploop (fun l : list expr =>
      let* b := got _Comma in
      if b then let* x := expr_ in ret (inl (l ++ [x])) else ret (inr l)) [x; y] in
    ret (ListExpr (expr_pos x) l)
  else ret x.

(** ** Declarations *)

Definition importDecl (group : option Group) : PM decl :=
  let* p := pos in
  let* prag := takePragma in
  let* t := gets ptok in
  let* local :=
    match t with
    | _Name => opt_some name_
    | _Dot => let* dp := pos in next;;; ret (Some (NewName dp "."))
    | _ => ret None
    end in
  let* path := oliteral in
  match path with
  | None =>
      syntaxError "missing import path";;;
      advance [_Semi; _Rparen];;;
      ret (ImportDecl p group prag local None)
  | Some b =>
      if negb (Bad b) && negb (bool_decide (Kind b = StringLit)) then
        syntaxErrorAt (lit_pos b) "import path must be a string";;;
        ret (ImportDecl p group prag local (Some (mkBasicLit (lit_pos b) (lit_Value b) (Kind b) true)))
      else ret (ImportDecl p group prag local (Some b))
  end.

Definition constDecl (group : option Group) : PM decl :=
  let* p := pos in
  let* prag := takePragma in
  let* n := name_ in
  let* names := nameList n in
  let* b := tokIn [_EOF; _Semi; _Rparen] in
  if negb b then
    let* type := typeOrNil in
    let* a := gotAssign in
    let* values := if a then opt_some exprList else ret None in
    ret (ConstDecl p group prag names type values)
  else ret (ConstDecl p group prag names None None).

Definition varDecl (group : option Group) : PM decl :=
  let* p := pos in
  let* prag := takePragma in
  let* n := name_ in
  let* names := nameList n in
  let* a := gotAssign in
  if a then
    let* values := exprList in ret (VarDecl p group prag names None (Some values))
  else
    let* type := type_ in
    let* a := gotAssign in
    let* values := if a then opt_some exprList else ret None in
    ret (VarDecl p group prag names (Some type) values).

(** What stands after the name of a type declaration: type parameters, whether
    it is an alias, the type. *)
Definition typeSpec : PM (list field * bool * option expr) :=
  let plain (tparams : list field) :=
    let* alias := gotAssign in
    let* t := typeOrNil in
    ret (tparams, alias, t) in
  let* b := isTok _Lbrack in
  if b then
    let* bpos := pos in
    next;;;
    let* t := gets ptok in
    match t with
    | _Name =>
        let* n := name_ in
        let* b := isTok _Lbrack in
        let* x :=
          if negb b then
            in_xnest (let* x := pexpr (Some (Name n)) false in binaryExpr (Some x) 0)
          else ret (Name n) in
        let* comma := isTok _Comma in
        let* rbrack := isTok _Rbrack in
        match extractName x comma with
        | (Some pname, ptype) =>
            if is_some ptype || negb rbrack then
              let* tparams := paramList (Some pname) ptype _Rbrack true false in
              plain tparams
            else let* t := arrayType bpos (Some x) in ret ([], false, Some t)
        | (None, _) => let* t := arrayType bpos (Some x) in ret ([], false, Some t)
        end
    | _Rbrack =>
        next;;;
        let* t := sliceType bpos in ret ([], false, Some t)
    | _ => let* t := arrayType bpos None in ret ([], false, Some t)
    end
  else plain [].

Definition typeDecl (group : option Group) : PM decl :=
  let* p := pos in
  let* prag := takePragma in
  let* n := name_ in
  let* (tparams, alias, t) := typeSpec in
  match t with
  | Some t => ret (TypeDecl p group prag n tparams alias t)
  | None =>
      let* t := badExpr in
      syntaxError "in type declaration";;;
      advance [_Semi; _Rparen];;;
      ret (TypeDecl p group prag n tparams alias t)
  end.

Definition appendGroup (l : list decl) (f : option Group -> PM decl) : PM (list decl) :=
  let* b := isTok _Lparen in
  if b then
    let* g := newId in
    clearPragma;;;
    next;;;
    let* (l, _) := list_ "grouped declaration" _Semi _Rparen (fun l : list decl =>
      let* x := f (Some g) in ret (l ++ [x], false)) l in
    ret l
  else let* x := f None in ret (l ++ [x]).

(** ** Enumerations *)

(** [fmt.Sprintf(`"%s"`, s)] *)
Definition quoted (s : string) : string := string_of_bytes [34] +s+ s +s+ string_of_bytes [34].

Definition createEnumStringMethod (pos : Pos) (enumName : name) (enumValues : list name) : PM decl :=
  let stringType := Name (mkName pos "string") in
  let* receiver := newField pos (Some (mkName pos "s")) (Some (Name enumName)) in
  let* result := newField pos None (Some stringType) in
  let elems := map (fun v => BasicLit (mkBasicLit (name_pos v) (quoted (Value v)) StringLit false)) enumValues in
  let array := CompositeLit pos (Some (ArrayType pos None stringType)) elems 0 noPos in
  let index := IndexExpr pos array (Name (mkName pos "s")) in
  ret (FuncDecl pos None (Some receiver) (mkName pos "String") [] (mkFuncType pos [] [result])
         (Some (mkBlockStmt pos [ReturnStmt pos (Some index)] noPos))).

(** The constant declarations [OK Status = 0], [BAD Status = 1], ... *)
Definition enumConsts (enumName : name) (enumValues : list name) : list decl :=
  imap (fun i v =>
    ConstDecl (name_pos v) None None [v] (Some (Name enumName))
      (Some (BasicLit (mkBasicLit noPos (fmtInteger (Z.of_nat i)) IntLit false)))) enumValues.

Definition enumDeclGroup (l : list decl) : PM (list decl) :=
  let* p := pos in
  let* enumName := name_ in
  want _Lbrace;;;
  let* b := isTok _Name in
  if negb b then syntaxError "expected enum value name";;; ret l
  else
    let* n := name_ in
    let* enumValues := nameList n in
    want _Rbrace;;;
    if lenZ enumValues =? 0 then
      syntaxErrorAt p "enum must have at least one value";;; ret l
    else
      let typ := TypeDecl p None None enumName [] false (Name (mkName noPos "int")) in
      let* method := createEnumStringMethod p enumName enumValues in
      ret (l ++ [typ] ++ enumConsts enumName enumValues ++ [method]).

Definition enumStmt : PM stmt :=
  let* p := pos in
  next;;;
  let* l := enumDeclGroup [] in
  ret (DeclStmt p l).

Definition declStmt (f : option Group -> PM decl) : PM stmt :=
  let* p := pos in
  next;;;
  let* l := appendGroup [] f in
  ret (DeclStmt p l).

(** ** Functions *)

Definition funcDeclOrNil : PM decl :=
  let* p := pos in
  let* prag := takePragma in
  let* b := got _Lparen in
  let* recv :=
    if b then
      let* rcvr := paramList None None _Rparen false false in
      match rcvr with
      | [] => error "method has no receiver";;; ret None
      | [r] => ret (Some r)
      | r :: _ => error "method has multiple receivers";;; ret (Some r)
      end
    else ret None in
  let context : string := if b then "method" else "" in
  let* isName := isTok _Name in
  let* (n, tparams, typ) :=
    if isName then
      let* n := name_ in
      let* (tparams, typ) := funcType context in
      ret (n, tparams, typ)
    else
      let* q := pos in
      syntaxError (if b then "expected name" else "expected name or (");;;
      advance [_Lbrace; _Semi];;;
      ret (NewName q "_", [], mkFuncType q [] []) in
  let* b := isTok _Lbrace in
  let* body := if b then opt_some funcBody else ret None in
  ret (FuncDecl p prag recv n tparams typ body).

(** ** Simple statements *)

Definition newRangeClause (lhs : option expr) (def : bool) : PM stmt :=
  let* p := pos in
  next;;;
  let* x := expr_ in
  ret (RangeClause p lhs def x).

Definition newAssignStmt (pos : Pos) (op : Operator) (lhs : expr) (rhs : option expr) : stmt :=
  AssignStmt pos op lhs rhs.

Definition is_ListExpr (x : expr) : bool := match x with ListExpr _ _ => true | _ => false end.

(** [keyword] is [_For], [_If], [_Switch] or [_None] (the code's 0). *)
Definition simpleStmt (lhs : option expr) (keyword : token) : PM stmt :=
  let* range := isTok _Range in
  if tok_eqb keyword _For && range then newRangeClause None false
  else
    let* lhs := match lhs with Some x => ret x | None => exprList end in
    let* assign := tokIn [_Assign; _Define] in
    let* p := pos in
    let* t := gets ptok in
    if negb (is_ListExpr lhs) && negb assign then
      match t with
      | _AssignOp =>
          let* op := gets pop in
          next;;;
          let* rhs := expr_ in
          ret (newAssignStmt p op lhs (Some rhs))
      | _IncOp =>
          let* op := gets pop in
          next;;;
          ret (newAssignStmt p op lhs None)
      | _Arrow =>
          next;;;
          let* v := expr_ in
          ret (SendStmt p lhs v)
      | _ => ret (ExprStmt (expr_pos lhs) lhs)
      end
    else if assign then
      let op := if tok_eqb t _Define then Def else OpNone in
      next;;;
      let* range := isTok _Range in
      if tok_eqb keyword _For && range then newRangeClause (Some lhs) (op_eqb op Def)
      else
        let* rhs := exprList in
        match rhs, lhs, tok_eqb keyword _Switch && op_eqb op Def with
        | TypeSwitchGuard xp _ x, Name n, true => ret (ExprStmt xp (TypeSwitchGuard xp (Some n) x))
        | _, _, _ => ret (newAssignStmt p op lhs (Some rhs))
        end
    else
      syntaxError "expected := or = or comma";;;
      advance [_Semi; _Rbrace];;;
      match lhs with
      | ListExpr _ (x :: _) => ret (ExprStmt (expr_pos x) x)
      | ListExpr _ [] => runtime "index out of range"
      | x => ret (ExprStmt (expr_pos x) x)
      end.

Definition labeledStmtOrNil (label : name) : PM (option stmt) :=
  let* p := pos in
  want _Colon;;;
  let* b := isTok _Rbrace in
  if b then
    let* ep := pos in
    ret (Some (LabeledStmt p label (EmptyStmt ep)))
  else
    let* s := k_stmtOrNil k in
    match s with
    | Some s => ret (Some (LabeledStmt p label s))
    | None => syntaxErrorAt p "missing statement after label";;; ret None
    end.

Definition callStmt : PM stmt :=
  let* p := pos in
  let* t := gets ptok in
  next;;;
  let* b := isTok _Lparen in
  let* x := pexpr None b in
  when is_paren x do
    errorAt (expr_pos x) ("expression in " +s+ token_String t +s+ " must not be parenthesized");;;
  ret (CallStmt p t (Unparen x)).

(** ** Statement headers *)

Definition emphasize (x : expr) : PM string :=
  let* s := string_of (String_expr x) in
  ret match x with
      | Operation _ _ _ (Some _) => "(" +s+ s +s+ ")"
      | _ => s
      end.

(** The condition of a header from its statement; [sm] is the position and
    the literal of the semicolon before it. *)
Definition header_cond (keyword : token) (sm : Pos * string) (condStmt : option stmt) : PM (option expr) :=
  match condStmt with
  | None =>
      if tok_eqb keyword _If && IsKnown sm.1 then
        (if negb (bool_decide (sm.2 = "semicolon"%string)) then
           syntaxErrorAt sm.1 ("unexpected " +s+ sm.2 +s+ ", expected { after if clause")
         else syntaxErrorAt sm.1 "missing condition in if statement");;;
        ret (Some (BadExpr sm.1))
      else ret None
  | Some (ExprStmt _ x) => ret (Some x)
  | Some s =>
      let* str :=
        match s with
        | AssignStmt _ OpNone lhs rhs =>
            let* l := emphasize lhs in
            let* r := match rhs with Some r => emphasize r | None => ret ""%string end in
            ret ("assignment " +s+ l +s+ " = " +s+ r)
        | s => string_of (String_stmt s)
        end in
      syntaxErrorAt (stmt_pos s) ("cannot use " +s+ str +s+ " as value");;;
      ret None
  end.

(** The part of a header after its first statement [init]: the initial
    statement, the semicolon, the condition statement, the post statement. *)
Definition header_rest (keyword : token) (init : option stmt)
  : PM (option stmt * (Pos * string) * option stmt * option stmt) :=
  let* lbrace := isTok _Lbrace in
  if lbrace then ret (None, (noPos, ""%string), init, None)
  else
    let* b := isTok _Semi in
    let* sm :=
      if b then
        let* p := pos in
        let* l := gets plit in
        next;;; ret (p, l)
      else
        want _Lbrace;;;
        let* b := isTok _Lbrace in
        when negb b do advance [_Lbrace; _Rbrace];;;
        ret (noPos, ""%string) in
    if tok_eqb keyword _For then
      let* semiTok := isTok _Semi in
      let* lbrace := isTok _Lbrace in
      if negb semiTok && lbrace then
        syntaxError "expected for loop condition";;;
        ret (init, sm, None, None)
      else
        let* condStmt := if negb semiTok then opt_some (simpleStmt None _None) else ret None in
        want _Semi;;;
        let* lbrace := isTok _Lbrace in
        let* post :=
          if negb lbrace then
            let* post := simpleStmt None _None in
            match post with
            | AssignStmt p Def _ _ => syntaxErrorAt p "cannot declare in post statement of for loop"
            | _ => ret tt
            end;;;
            ret (Some post)
          else ret None in
        ret (init, sm, condStmt, post)
    else
      let* lbrace := isTok _Lbrace in
      let* condStmt := if negb lbrace then opt_some (simpleStmt None keyword) else ret None in
      ret (init, sm, condStmt, None).

Definition header (keyword : token) : PM (option stmt * option expr * option stmt) :=
  want keyword;;;
  let* lbrace := isTok _Lbrace in
  if lbrace then
    if tok_eqb keyword _If then
      syntaxError "missing condition in if statement";;;
      let* c := badExpr in
      ret (None, Some c, None)
    else ret (None, None, None)
  else
    let* outer := gets xnest in
    modify (set_xnest (-1));;;
    let* semiTok := isTok _Semi in
    let* init :=
      if negb semiTok then
        let* b := got _Var in
        when b do
          syntaxError ("var declaration not allowed in " +s+ token_String keyword +s+ " initializer");;;
        opt_some (simpleStmt None keyword)
      else ret None in
    if match init with Some s => is_RangeClause s | None => false end then
      modify (set_xnest outer);;;
      ret (init, None, None)
    else
      let* (init, sm, condStmt, post) := header_rest keyword init in
      let* cond := header_cond keyword sm condStmt in
      modify (set_xnest outer);;;
      ret (init, cond, post).

(** ** Compound statements *)

Definition forStmt : PM stmt :=
  let* p := pos in
  let* (init, cond, post) := header _For in
  let* body := blockStmt "for clause" in
  ret (ForStmt p init cond post body).

Definition ifStmt : PM stmt :=
  let* p := pos in
  let* (init, cond, _) := header _If in
  let* thn := blockStmt "if clause" in
  let* b := got _Else in
  let* els :=
    if b then
      let* t := gets ptok in
      match t with
      | _If => opt_some (k_ifStmt k)
      | _Lbrace => let* b := blockStmt "" in ret (Some (BlockStmt b))
      | _ =>
          syntaxError "else must be followed by if or statement block";;;
          advance [_Name; _Rbrace];;;
          ret None
      end
    else ret None in
  ret (IfStmt p init cond thn els).

(** The end of a clause: the colon and the statements. *)
Definition clauseBody : PM (Pos * list stmt) :=
  let* colon := pos in
  want _Colon;;;
  let* body := stmtList in
  ret (colon, body).

Definition caseClause : PM caseclause :=
  let* p := pos in
  let* t := gets ptok in
  let* cases :=
    match t with
    | _Case => next;;; opt_some exprList
    | _Default => next;;; ret None
    | _ =>
        syntaxError "expected case or default or }";;;
        advance [_Colon; _Case; _Default; _Rbrace];;;
        ret None
    end in
  let* (colon, body) := clauseBody in
  ret (CaseClause p cases body colon).

Definition commClause : PM commclause :=
  let* p := pos in
  let* t := gets ptok in
  let* comm :=
    match t with
    | _Case => next;;; opt_some (simpleStmt None _None)
    | _Default => next;;; ret None
    | _ =>
        syntaxError "expected case or default or }";;;
        advance [_Colon; _Case; _Default; _Rbrace];;;
        ret None
    end in
  let* (colon, body) := clauseBody in
  ret (CommClause p comm body colon).

(** The clauses of a switch or select statement and the closing brace. *)
Definition clauses {A} (missing : string) (clause : PM A) : PM (list A * Pos) :=
  let* b := got _Lbrace in
  when negb b do
    (syntaxError missing;;;
     advance [_Case; _Default; _Rbrace]);;;
  let* l := ploop (fun l : list A =>
    let* b := tokIn [_EOF; _Rbrace] in
    if negb b then let* c := clause in ret (inl (l ++ [c])) else ret (inr l)) [] in
  let* rbrace := pos in
  want _Rbrace;;;
  ret (l, rbrace).

Definition switchStmt : PM stmt :=
  let* p := pos in
  let* (init, tag, _) := header _Switch in
  let* (body, rbrace) := clauses "missing { after switch clause" caseClause in
  ret (SwitchStmt p init tag body rbrace).

Definition selectStmt : PM stmt :=
  let* p := pos in
  want _Select;;;
  let* (body, rbrace) := clauses "missing { after select clause" commClause in
  ret (SelectStmt p body rbrace).

(** ** Statements *)

Definition stmtOps : list Operator := [Add; Sub; Mul; And; Xor; Not].

Definition branchStmt : PM stmt :=
  let* p := pos in
  let* t := gets ptok in
  next;;;
  let* b := isTok _Name in
  let* label := if b then opt_some name_ else ret None in
  ret (BranchStmt p t label).

(** The statements that do not start with a name or a declaration keyword. *)
Definition otherStmt : PM (option stmt) :=
  let* p := pos in
  let* t := gets ptok in
  match t with
  | _Lbrace => let* b := blockStmt "" in ret (Some (BlockStmt b))
  | _Operator | _Star =>
      let* o := gets pop in
      if existsb (op_eqb o) stmtOps then opt_some (simpleStmt None _None) else ret None
  | _Literal | _Func | _Lparen | _Lbrack | _Struct | _Map | _Chan | _Interface | _Arrow =>
      opt_some (simpleStmt None _None)
  | _For => opt_some forStmt
  | _Switch => opt_some switchStmt
  | _Select => opt_some selectStmt
  | _If => opt_some ifStmt
  | _Fallthrough => next;;; ret (Some (BranchStmt p _Fallthrough None))
  | _Break | _Continue => opt_some branchStmt
  | _Check =>
      next;;;
      let* x := expr_ in
      ret (Some (CheckStmt p x))
  | _Go | _Defer => opt_some callStmt
  | _Goto =>
      next;;;
      let* n := name_ in
      ret (Some (BranchStmt p _Goto (Some n)))
  | _Return =>
      next;;;
      let* b := tokIn [_Semi; _Rbrace] in
      let* results := if negb b then opt_some exprList else ret None in
      ret (Some (ReturnStmt p results))
  | _Semi => ret (Some (EmptyStmt p))
  | _ => ret None
  end.

Definition stmtOrNil : PM (option stmt) :=
  let* t := gets ptok in
  match t with
  | _Name =>
      clearPragma;;;
      let* lhs := exprList in
      let* colon := isTok _Colon in
      match lhs, colon with
      | Name label, true => labeledStmtOrNil label
      | _, _ => opt_some (simpleStmt (Some lhs) _None)
      end
  | _Var => opt_some (declStmt varDecl)
  | _Const => opt_some (declStmt constDecl)
  | _Type => opt_some (declStmt typeDecl)
  | _Enum => opt_some enumStmt
  | _ => clearPragma;;; otherStmt
  end.

(** ** Files *)

Definition isEmptyFuncDecl (d : decl) : bool :=
  match d with FuncDecl _ _ _ _ _ _ None => true | _ => false end.

Definition topFollow : list token := [_Import; _Const; _Type; _Var; _Func].

(** The variables of the loop of [fileOrNil]. *)
Record fileState := FileState { fs_prev : token; fs_decls : list decl; fs_stmts : list stmt }.

(** The declaration or statement at the top level; [None] is the [continue]
    after an opening brace on the line after a function declaration. *)
Definition topLevel (decls : list decl) (stmts : list stmt) : PM (option (list decl * list stmt)) :=
  let func : PM (option (list decl * list stmt)) :=
    next;;; let* d := funcDeclOrNil in ret (Some (decls ++ [d], stmts)) in
  let group (f : option Group -> PM decl) : PM (option (list decl * list stmt)) :=
    next;;; let* l := appendGroup decls f in ret (Some (l, stmts)) in
  let statement : PM (option (list decl * list stmt)) :=
    let* s := stmtOrNil in
    ret (Some (decls, match s with Some s => stmts ++ [s] | None => stmts end)) in
  let* t := gets ptok in
  match t with
  | _Import => group importDecl
  | _Const => group constDecl
  | _Type => group typeDecl
  | _Enum => next;;; let* l := enumDeclGroup decls in ret (Some (l, stmts))
  | _Var => group varDecl
  | _Func => func
  | _Name =>
      let* l := gets plit in
      if bool_decide (l = "def"%string) then func else statement
  | _Lbrace =>
      if match rev decls with d :: _ => isEmptyFuncDecl d | [] => false end then
        syntaxError "unexpected semicolon or newline before {";;;
        advance topFollow;;;
        ret None
      else statement
  | _ => statement
  end.

Definition fileRound (s : fileState) : PM (fileState + fileState) :=
  let* t := gets ptok in
  if tok_eqb t _EOF then ret (inr s)
  else
    when tok_eqb t _Import && negb (tok_eqb (fs_prev s) _Import) do
      syntaxError "imports must appear before other declarations";;;
    let* r := topLevel (fs_decls s) (fs_stmts s) in
    match r with
    | None => ret (inl (FileState t (fs_decls s) (fs_stmts s)))
    | Some (decls, stmts) =>
        clearPragma;;;
        let* eof := isTok _EOF in
        when negb eof do
          (let* g := got _Semi in
           when negb g do
             (syntaxError "after top level declaration";;;
              advance topFollow));;;
        ret (inl (FileState t decls stmts))
    end.

Definition isMain (d : decl) : bool :=
  match d with
  | FuncDecl _ _ None n _ _ _ => bool_decide (Value n = "main"%string)
  | _ => false
  end.

(** The implicit main function of the statements at the top level. *)
Definition implicitMain (p : Pos) (pkg : name) (decls : list decl) (stmts : list stmt)
  : list decl * list stmt :=
  if bool_decide (Value pkg = "main"%string) && (0 <? lenZ stmts) && negb (existsb isMain decls) then
    (decls ++ [FuncDecl p None None (NewName p "main") [] (mkFuncType noPos [] [])
                 (Some (mkBlockStmt noPos stmts noPos))], [])
  else (decls, stmts).

Definition fileOrNil : PM (option File) :=
  let* p := pos in
  let* version := gets goVersion in
  modify (set_top false);;;
  let* b := isTok _Package in
  let* (prag, pkg) :=
    if negb b then
      let* q := pos in ret (None, NewName q "main")
    else
      next;;;
      let* prag := takePragma in
      let* n := name_ in
      want _Semi;;;
      ret (prag, n) in
  let* f := gets first in
  if is_some f then ret None
  else
    let* s := ploop fileRound (FileState _Import [] []) in
    clearPragma;;;
    let* eof := pos in
    let '(decls, stmts) := implicitMain p pkg (fs_decls s) (fs_stmts s) in
    ret (Some (mkFile p prag pkg decls stmts eof version)).
End Level.

(** ** Tying the knot *)

Fixpoint tie (n : nat) : knot :=
  match n with
  | O => Knot out_of_fuel (fun _ _ => out_of_fuel) out_of_fuel out_of_fuel out_of_fuel out_of_fuel
  | Datatypes.S n =>
      let k := tie n in
      Knot (unaryExpr k) (binaryExpr k) (typeOrNil k) (complitexpr k) (ifStmt k) (stmtOrNil k)
  end.

(** A production at the outermost level. *)
Definition tied {A} (f : knot -> PM A) : PM A :=
  let* n := gets tokens_left in f (tie n).

(** ** syntax.go: Parse *)

(** The result: the file and the first error, or the value of a panic that
    [Parse] does not recover from. *)
Definition Parse (r : src) : res string (option File * option Error * list event) :=
  match (next;;; let* f := tied fileOrNil in let* e := gets first in ret (f, e)) (init r) with
  | Ok (f, e, _, t) => Ok (f, e, t)
  | Panic (PError err) => Ok (None, Some err, [])
  | Panic (PRuntime msg) => Panic msg
  | NoFuel => NoFuel
  end.
End Grammar.
