(* ===== verification/GrammarFacts.v ===== *)
(** * What the productions promise: types and declarations of parameters

    Every production returns well-formed nodes, from every state of the parser
    in which its tokens are fewer than the nesting levels left. *)

From S2P Require Import Prelude Utf8 Format Tokens Source Pos Nodes Walk WellFormed Exprs Positions Printer.
From S2P Require Import PrinterFacts Branches BranchFacts Scanner ScannerFacts Parser ParserFacts Grammar.

#[local] Open Scope Z_scope.
#[local] Open Scope go_scope.

(** ** What the parse functions of a nesting level promise *)

(** A token that starts an operand or a prefix operation. *)
Definition prefixTokens : list Operator := And :: unaryOps.
Definition starts_expr {src} (p : parser src) : bool :=
  match tok (scanner_ p) with
  | _Name | _Literal | _Lparen | _Func | _Map | _Lbrack | _Lbrace | _Chan | _Struct | _Interface
  | _Arrow => true
  | _Operator | _Star => existsb (op_eqb (op (scanner_ p))) prefixTokens
  | _ => false
  end.

Definition is_binary (x : expr) : bool :=
  match x with Operation _ _ _ (Some _) => true | _ => false end.

(** The operators of the expression stand as their precedences (above [prec])
    want: to the left of an operator no operator that binds less, to the right
    none that binds less or as much. *)
Fixpoint shaped (prec : Z) (x : expr) : bool :=
  match x with
  | Operation _ op l (Some r) =>
      (prec <? op_prec op) && shaped (op_prec op - 1) l && shaped (op_prec op) r
  | _ => true
  end.

(** The next token is no binary operator that binds more than [prec]. *)
Definition op_at_most {src} (prec : Z) (p : parser src) : Prop :=
  existsb (tok_eqb (tok (scanner_ p))) [_Operator; _Star] = true -> Scanner.prec (scanner_ p) <= prec.

Definition wf_complit (c : complit) : bool :=
  let '(_, l, n, _) := c in forallb wf_expr l && (0 <=? n) && (n <=? lenZ l).

Definition wf_fill (t : expr + (Pos * expr)) : bool :=
  match t with inl t => wf_expr t | inr (_, i) => wf_expr i end.

(** A parameter that may lack its name or its type. *)
Definition wf_par (f : field) : bool :=
  match f with Field _ n t _ => optb wf_name n && optb wf_expr t && (is_some n || is_some t) end.

Definition wf_member (f : option (Pos * option name * expr)) : bool :=
  match f with Some (_, n, t) => optb wf_name n && wf_expr t | None => true end.

Definition is_IfStmt (s : stmt) : bool := match s with IfStmt _ _ _ _ _ => true | _ => false end.

Section Levels.
Context {src : Type} `{SourceLaws src} `{cfg : Config}.
Abbreviation PM := (Parser.PM (src := src)).
Abbreviation parser := (parser src).
Implicit Types p : parser.

Abbreviation spec m Q p := (spec_to (fnest p) (xnest p) m Q p).

Definition ends_progress {A} p (o : option A) p' : Prop :=
  is_some o = true -> (tokens_left p' < tokens_left p)%nat.

Definition expr_post p (x : expr) p' : Prop :=
  wf_expr x = true /\ (starts_expr p = true -> (tokens_left p' < tokens_left p)%nat).

(** The functions of the level work below a bound on the number of tokens. *)
Record kok (k : knot) (N : nat) : Prop := {
  ko_unary p : pinv p -> (tokens_left p < N)%nat ->
    spec (k_unaryExpr k) (fun x p' => expr_post p x p' /\ is_binary x = false) p;
  ko_binary p prec : pinv p -> (tokens_left p < N)%nat -> 0 <= prec ->
    spec (k_binaryExpr k None prec) (fun x p' =>
      expr_post p x p' /\ shaped prec x = true /\ op_at_most prec p') p;
  ko_type p : pinv p -> (tokens_left p < N)%nat ->
    spec (k_typeOrNil k) (fun t p' => optb wf_expr t = true /\ ends_progress p t p') p;
  ko_complit p : pinv p -> (tokens_left p < N)%nat ->
    spec (k_complitexpr k) (fun c _ => wf_complit c = true) p;
  ko_if p : pinv p -> (tokens_left p < N)%nat -> ptok p = _If ->
    spec (k_ifStmt k) (fun s _ => wf_stmt s = true /\ is_IfStmt s = true) p;
  ko_stmt p : pinv p -> (tokens_left p < N)%nat ->
    spec (k_stmtOrNil k) (fun s p' => optb wf_stmt s = true /\
      (is_some s = true -> (tokens_left p' < tokens_left p)%nat \/ ptok p' = _Semi)) p
}.

(** The same computation from a state with the nesting levels of the start. *)
Lemma spec_tail {A} fn xn (m : PM A) (P Q : A -> parser -> Prop) p :
  fnest p = fn -> xnest p = xn -> spec m P p ->
  (forall a p', pinv p' -> (tokens_left p' <= tokens_left p)%nat ->
     ((tokens_left p' < tokens_left p)%nat \/ scanner_ p' = scanner_ p) ->
     fnest p' = fnest p -> xnest p' = xnest p -> (ids p <= ids p')%nat -> P a p' -> Q a p') ->
  spec_to fn xn m Q p.
Proof. intros <- <- Hm HQ. by eapply spec_mono. Qed.

(** A change of the nesting levels. *)
Lemma spec_nest {B} fn xn (f : parser -> parser) (k : unit -> PM B) Q p :
  pinv p -> scanner_ (f p) = scanner_ p -> pragma (f p) = pragma p -> ids (f p) = ids p ->
  first (f p) = first p -> errcnt (f p) = errcnt p ->
  (forall q, pinv q -> tokens_left q = tokens_left p -> scanner_ q = scanner_ p ->
     fnest q = fnest (f p) -> xnest q = xnest (f p) -> ids q = ids p -> spec_to fn xn (k tt) Q q) ->
  spec_to fn xn (bind (modify f) k) Q p.
Proof.
  intros I Es Ep Ei E1 Ec Hk. apply spec_modify; try done; [lia|]. apply Hk; try done.
  - by eapply pinv_scanner.
  - by apply tokens_left_scanner.
Qed.

Lemma spec_nest_last fn xn (f : parser -> parser) (Q : unit -> parser -> Prop) p :
  pinv p -> scanner_ (f p) = scanner_ p -> pragma (f p) = pragma p -> ids (f p) = ids p ->
  first (f p) = first p -> errcnt (f p) = errcnt p -> fnest (f p) = fn -> xnest (f p) = xn ->
  (forall q, scanner_ q = scanner_ p -> ids q = ids p -> Q tt q) ->
  spec_to fn xn (modify f) Q p.
Proof.
  intros I Es Ep Ei E1 Ec Ef Ex HQ. apply wp_modify. split; [|by apply HQ].
  split_and!; try done; [by eapply pinv_scanner|by right|lia|].
  intros _. by apply recorded_none.
Qed.
End Levels.

(** ** Automation *)

Create HintDb spec discriminated.
#[export] Hint Resolve spec_next spec_got spec_want spec_gotAssign spec_advance spec_errorAt
  spec_syntaxErrorAt spec_error spec_syntaxError spec_takePragma spec_clearPragma spec_newId : spec.

(** Split what a step is known to do. *)
Ltac split_post :=
  repeat match goal with
  | H : _ /\ _ |- _ => destruct H
  | H : exists _, _ |- _ => destruct H
  | H : _ && _ = true |- _ => apply andb_true_iff in H as [? ?]
  | H : expr_post _ _ _ |- _ => destruct H
  | H : (_ = true /\ _) \/ (_ = false /\ _) |- _ => destruct H as [H|H]
  | H : ?x = ?x -> _ |- _ => specialize (H eq_refl)
  | H : ptok ?p = ?t -> _, H0 : ptok ?p = ?t |- _ => specialize (H H0)
  | H : ptok ?p <> ?t, H0 : ptok ?p = ?t |- _ => destruct (H H0)
  | H : ?b = true -> _, H0 : ?b = true |- _ => specialize (H H0)
  end; subst; cbn [fst snd] in *;
  repeat match goal with
  | H : (?n <= ?n)%nat |- _ => clear H
  | H : _ \/ scanner_ ?q = scanner_ ?q |- _ => clear H
  | H1 : pinv ?q, H2 : pinv ?q |- _ => clear H2
  end.

Ltac chain H :=
  match type of H with
  | fnest _ = fnest ?p => try match goal with H0 : fnest p = _ |- _ => rewrite H0 in H end
  | xnest _ = xnest ?p => try match goal with H0 : xnest p = _ |- _ => rewrite H0 in H end
  end.

Ltac split_var a :=
  repeat match type of a with
         | prod _ _ => let a2 := fresh "a" in destruct a as [a a2]
         | unit => destruct a
         end.

Ltac spec_intro :=
  let a := fresh "a" in let q := fresh "q" in let I := fresh "I" in let L := fresh "L" in
  let C := fresh "C" in let F := fresh "F" in let X := fresh "X" in let N := fresh "N" in
  let P := fresh "P" in
  intros a q I L C F X N P; cbv beta in P; chain F; chain X;
  split_var a; cbn [fst snd] in P; split_post.

Lemma tokens_left_pos {src} `{RuneSource src} (p : parser src) t :
  ptok p = t -> t <> _EOF -> (0 < tokens_left p)%nat.
Proof.
  intros <- Ht. unfold tokens_left. destruct (tok_eqb (ptok p) _EOF) eqn:E; [|lia].
  by apply tok_eqb_eq in E.
Qed.

(** Arithmetic from the hypotheses that are comparisons of numbers only. *)
Ltac only_arith :=
  repeat match goal with
  | H : ?P |- _ =>
      lazymatch type of P with
      | Prop =>
          lazymatch P with
          | (_ < _)%nat => fail | (_ <= _)%nat => fail | _ < _ => fail | _ <= _ => fail
          | @eq nat _ _ => fail | @eq Z _ _ => fail
          | (_ <? _) = _ => fail | (_ <=? _) = _ => fail | (_ =? _) = _ => fail
          | is_some _ = _ => fail
          | _ => clear H
          end
      end
  end.
Ltac flia :=
  lazymatch goal with
  | |- (_ < _)%nat => idtac | |- (_ <= _)%nat => idtac | |- _ < _ => idtac | |- _ <= _ => idtac
  | |- @eq nat _ _ => idtac | |- @eq Z _ _ => idtac
  | |- @eq bool _ _ => idtac
  end; solve [only_arith; lia].

(** Arithmetic on the numbers of tokens: a token other than the end counts. *)
Ltac tok_lia :=
  lazymatch goal with |- (_ < _)%nat => idtac | |- (_ <= _)%nat => idtac end;
  repeat match goal with
  | H : ptok ?p = ?t |- _ =>
      let Hp := fresh in
      assert (Hp : (0 < tokens_left p)%nat) by (apply (tokens_left_pos p t H); discriminate); clear H
  | H : ptok ?p <> _EOF |- _ =>
      let Hp := fresh in
      assert (Hp : (0 < tokens_left p)%nat) by (by apply (tokens_left_pos p (ptok p) eq_refl)); clear H
  end; flia.

(** Tests on tokens as equations. *)
Ltac tok_tests :=
  repeat match goal with
  | H : _ && _ = true |- _ => apply andb_true_iff in H as [? ?]
  | H : _ || _ = false |- _ => apply orb_false_iff in H as [? ?]
  | H : existsb (tok_eqb _) (_ :: _) = false |- _ => cbn [existsb] in H
  | H : negb _ = true |- _ => apply negb_true_iff in H
  | H : negb _ = false |- _ => apply negb_false_iff in H
  | H : op_eqb _ _ = true |- _ => apply op_eqb_eq in H
  | H : tok_eqb _ _ = true |- _ => apply tok_eqb_eq in H
  | H : tok_eqb _ _ = false |- _ => apply tok_eqb_neq in H
  end.

(** The side conditions of the specifications. *)
Ltac spec_side :=
  first [ assumption | discriminate | flia | congruence | reflexivity
        | solve [unfold ptok in *; congruence] | solve [auto 3 with wf] ].

Ltac spec_ends := first [ assumption | congruence | flia ].

Lemma lenZ_snoc {A} (l : list A) x : lenZ (l ++ [x]) = lenZ l + 1.
Proof. rewrite lenZ_app. reflexivity. Qed.
Lemma lenZ_nil {A} : lenZ (@nil A) = 0.
Proof. reflexivity. Qed.

(** Posts: well-formedness and progress. *)
Ltac post_cbn :=
  cbn [wf_expr wf_field wf_functype wf_block wf_decl wf_stmt wf_case wf_comm simple_stmt else_ok branch_ok wf_fill wf_par wf_member wf_complit mkComplit forallb optb is_some field_Name
    field_Type fst snd is_binary] in *.
Ltac len_lia :=
  lazymatch goal with |- context [lenZ _] => idtac end;
  repeat match goal with
  | |- context [lenZ ?l] =>
      lazymatch goal with H : 0 <= lenZ l |- _ => fail | _ => pose proof (lenZ_nonneg l) end
  end; flia.
Ltac post :=
  repeat match goal with
  | |- _ /\ _ => split
  | |- expr_post _ _ _ => split
  | |- ends_progress _ _ _ => intros ?
  | |- _ -> _ => intros ?
  end; split_post; post_cbn; split_post;
  rewrite ?forallb_snoc, ?andb_true_iff, ?lenZ_snoc, ?lenZ_cons, ?lenZ_nil; post_cbn;
  rewrite ?andb_true_iff;
  repeat match goal with |- _ /\ _ => split end;
  try first [ assumption | discriminate | flia | done | solve [tok_lia] | solve [len_lia] | auto 4 with wf ].

Ltac spec_step :=
  cbv beta zeta;
  lazymatch goal with
  | |- spec_to _ _ (ret _) _ _ => apply spec_ret; [assumption|spec_ends|spec_ends|post]
  | |- spec_to _ _ (bind (bind _ _) _) _ _ => apply spec_assoc
  | |- spec_to _ _ (bind (ret _) _) _ _ => apply spec_bind_ret
  | |- spec_to _ _ (bind (gets _) _) _ _ => apply spec_gets
  | |- spec_to _ _ (bind (isTok _) _) _ _ => apply spec_gets
  | |- spec_to _ _ (bind (tokIn _) _) _ _ => apply spec_gets
  | |- spec_to _ _ (bind (isOp _ _) _) _ _ => apply spec_gets
  | |- spec_to _ _ (bind pos _) _ _ => apply spec_gets
  | |- spec_to _ _ (bind badExpr _) _ _ => unfold badExpr
  | |- spec_to _ _ badExpr _ _ => unfold badExpr
  | |- spec_to _ _ (bind (opt_some _) _) _ _ => unfold opt_some at 1
  | |- spec_to _ _ (opt_some _) _ _ => unfold opt_some at 1
  | |- spec_to _ _ (bind (in_xnest _) _) _ _ => unfold in_xnest at 1
  | |- spec_to _ _ (in_xnest _) _ _ => unfold in_xnest at 1
  | |- spec_to _ _ (bind (modify _) _) _ _ =>
      apply spec_nest; [assumption|reflexivity..|];
      let q := fresh "q" in let I := fresh "I" in let L := fresh "L" in let C := fresh "C" in
      let F := fresh "F" in let X := fresh "X" in let N := fresh "N" in
      intros q I L C F X N; cbn [fnest xnest set_xnest set_fnest] in F, X; try chain F; try chain X
  | |- spec_to _ _ (bind (if ?b then _ else _) _) _ _ => destruct b eqn:?; tok_tests
  | |- spec_to _ _ (if ?b then _ else _) _ _ => destruct b eqn:?; tok_tests
  | |- spec_to _ _ (bind (let '(_, _) := ?x in _) _) _ _ => destruct x eqn:?
  | |- spec_to _ _ (let '(_, _) := ?x in _) _ _ => destruct x eqn:?
  | |- spec_to _ _ (bind (match ?o with Some _ => _ | None => _ end) _) _ _ => destruct o eqn:?
  | |- spec_to _ _ (match ?o with Some _ => _ | None => _ end) _ _ => destruct o eqn:?
  | |- spec_to _ _ (match ?o with inl _ => _ | inr _ => _ end) _ _ => destruct o
  | |- spec_to _ _ (bind _ _) _ _ => eapply spec_bind; [solve [eauto 2 with spec]|spec_intro]
  | |- spec_to _ _ _ _ _ => eapply spec_tail; [spec_ends|spec_ends|solve [eauto 2 with spec]|spec_intro; post]
  end.
Ltac go := repeat spec_step.

(** A loop in which every round uses up a token, with its invariant and what
    it leaves. *)
Ltac spec_loop_intro :=
  let a := fresh "a" in let q := fresh "q" in let I := fresh "I" in let L := fresh "L" in
  let C := fresh "C" in let F := fresh "F" in let X := fresh "X" in let N := fresh "N" in
  let P := fresh "P" in
  intros a q I L C F X N P; cbv beta in P; chain F; chain X; split_var a; cbn [fst snd] in P; split_post.
Ltac loop Inv Post :=
  eapply (spec_bind _ _ _ _ Post);
  [apply (spec_ploop_tokens _ Inv); [assumption|post|spec_loop_intro]|spec_intro].

(** A separated list with its invariant. *)
Ltac spec_list_intro :=
  let x := fresh "x" in let q := fresh "q" in let I := fresh "I" in let L := fresh "L" in
  let N := fresh "N" in let F := fresh "F" in let X := fresh "X" in let Ht := fresh "Ht" in
  let P := fresh "P" in
  intros x q I L N F X Ht P; cbv beta in P; chain F; chain X; split_var x; cbn [fst snd] in P; split_post.
Ltac listing Inv :=
  eapply spec_bind;
  [apply (spec_list _ _ _ _ Inv);
   [assumption|try discriminate|try discriminate|try (by intros)|post|spec_list_intro]
  |spec_intro].

#[export] Hint Extern 1 (_ <> _) => discriminate : spec.
#[export] Hint Extern 2 (_ <> _) => solve [unfold ptok in *; congruence] : spec.
#[export] Hint Extern 1 (_ < _)%nat => first [flia | solve [tok_lia]] : spec.
#[export] Hint Extern 1 (_ <= _)%nat => first [flia | solve [tok_lia]] : spec.
#[export] Hint Extern 1 (0 <= _) => flia : spec.
#[export] Hint Extern 1 (_ = true) => solve [post] : spec.

Section Common.
Context {src : Type} `{SourceLaws src} `{cfg : Config}.
Implicit Types p : parser src.
Abbreviation spec m Q p := (spec_to (fnest p) (xnest p) m Q p).

Lemma plit_wf p : pinv p -> ptok p = _Name \/ ptok p = _Literal -> nonempty (plit p) = true.
Proof. intros I Ht. apply nonempty_ne. by apply (pi_lit p I). Qed.

Lemma spec_name_ p :
  pinv p -> spec name_ (fun n p' => wf_name n = true /\
    (ptok p = _Name -> (tokens_left p' < tokens_left p)%nat)) p.
Proof.
  intros I. unfold name_. spec_step. spec_step. destruct (tok_eqb (ptok p) _Name) eqn:E.
  - apply tok_eqb_eq in E. assert (Hl := plit_wf p I (or_introl E)). go.
  - apply tok_eqb_neq in E. go.
Qed.
#[local] Hint Resolve spec_name_ : spec.

Lemma spec_nameList n p :
  pinv p -> wf_name n = true ->
  spec (nameList n) (fun l _ => forallb wf_name l = true /\ 0 < lenZ l) p.
Proof.
  intros I Hn. apply (spec_ploop_tokens _ (fun l _ => forallb wf_name l = true /\ 0 < lenZ l)); [done| |].
  { cbn. by rewrite Hn. }
  intros l p1 I1 L1 S1 F1 X1 N1 [Hl Hlen]. go.
Qed.

Lemma spec_oliteral p :
  pinv p -> spec oliteral (fun b p' => optb wf_lit b = true /\
    (ptok p = _Literal <-> is_some b = true) /\
    (is_some b = true -> (tokens_left p' < tokens_left p)%nat)) p.
Proof.
  intros I. unfold oliteral. spec_step. destruct (tok_eqb (ptok p) _Literal) eqn:E.
  - apply tok_eqb_eq in E. assert (Hl := plit_wf p I (or_intror E)). go.
  - apply tok_eqb_neq in E. go. 
Qed.

Lemma spec_newField q n t p :
  pinv p -> spec (newField q n t) (fun f p' =>
    f = Field q n t (ids p) /\ (ids p < ids p')%nat /\ scanner_ p' = scanner_ p) p.
Proof.
  intros I. unfold newField. eapply spec_bind; [by apply spec_newId|].
  intros a p1 I1 L1 C1 F1 X1 N1 (-> & Hi & Es). by apply spec_ret.
Qed.

Lemma spec_type_with m p (P : option expr -> parser src -> Prop) :
  pinv p -> spec m (fun t p' => optb wf_expr t = true /\ P t p') p ->
  spec (type_with m) (fun t _ => wf_expr t = true) p.
Proof.
  intros I Hm. unfold type_with. eapply spec_bind; [exact Hm|spec_intro]. go.
Qed.
End Common.
Lemma wf_field_par f : wf_field f = true -> wf_par f = true.
Proof. destruct f as [q n t id]. cbn. intros Hf. split_post. post. Qed.

Lemma wf_field_par_opt f : optb wf_field f = true -> optb wf_par f = true.
Proof. destruct f; [apply wf_field_par|done]. Qed.

Lemma wf_field_Type f : wf_field f = true -> optb wf_expr (field_Type f) = true.
Proof. destruct f. cbn. intros. by split_post. Qed.

Lemma wf_field_some f : wf_field f = true -> is_some (field_Type f) = true.
Proof. destruct f. cbn. intros. by split_post. Qed.

Lemma wf_field_Name f : wf_field f = true -> optb wf_name (field_Name f) = true.
Proof. destruct f. cbn. intros. by split_post. Qed.
#[export] Hint Resolve wf_field_par wf_field_par_opt wf_field_Type wf_field_some wf_field_Name : wf.

#[export] Hint Resolve spec_name_ spec_nameList spec_oliteral spec_newField : spec.

Section Types.
Context {src : Type} `{SourceLaws src} `{cfg : Config}.
Implicit Types p : parser src.
Abbreviation spec m Q p := (spec_to (fnest p) (xnest p) m Q p).
Context (k : knot (src := src)) (N : nat) (Hk : kok k N).

Lemma spec_k_expr p :
  pinv p -> (tokens_left p < N)%nat -> spec (k_expr k) (fun x p' => expr_post p x p') p.
Proof.
  intros I L. eapply spec_mono; [by apply (ko_binary k N Hk)|]. by intros a p' _ _ _ _ _ _ [? _].
Qed.

Lemma spec_k_type_ p :
  pinv p -> (tokens_left p < N)%nat -> spec (k_type_ k) (fun t _ => wf_expr t = true) p.
Proof. intros I L. eapply spec_type_with; [done|]. by apply (ko_type k N Hk). Qed.

#[local] Hint Resolve spec_k_expr spec_k_type_ : spec.
#[local] Hint Extern 1 (spec_to _ _ (k_typeOrNil k) _ _) => apply (ko_type k N Hk) : spec.
#[local] Hint Extern 1 (spec_to _ _ (k_unaryExpr k) _ _) => apply (ko_unary k N Hk) : spec.

Lemma spec_typeList strict p :
  pinv p -> (tokens_left p < N)%nat -> spec (typeList k strict) (fun r _ => wf_expr r.1 = true) p.
Proof.
  intros I L. unfold typeList. spec_step. spec_step.
  eapply (spec_bind _ _ _ _ (fun r _ => wf_expr r.1 = true)); [|spec_intro; go].
  eapply (spec_bind _ _ _ _ (fun x _ => wf_expr x = true)); [go|spec_intro].
  go. loop (fun (l : list expr) (_ : parser src) => forallb wf_expr l = true /\ 2 <= lenZ l)
    (fun (l : list expr) (_ : parser src) => forallb wf_expr l = true /\ 2 <= lenZ l); go.
Qed.
#[local] Hint Resolve spec_typeList : spec.

Lemma spec_typeInstance x p :
  pinv p -> ptok p = _Lbrack -> (tokens_left p <= N)%nat -> wf_expr x = true ->
  spec (typeInstance k x) (fun t _ => wf_expr t = true /\ is_binary t = false) p.
Proof.
  intros I Ht L Hx. unfold typeInstance. go.
Qed.
#[local] Hint Resolve spec_typeInstance : spec.

Lemma spec_qualifiedName n p :
  pinv p -> optb wf_name n = true -> (tokens_left p <= N)%nat ->
  spec (qualifiedName k n) (fun t p' => wf_expr t = true /\ is_binary t = false /\
    (n = None -> ptok p = _Name -> (tokens_left p' < tokens_left p)%nat)) p.
Proof.
  intros I Hn L. unfold qualifiedName. go.
Qed.
#[local] Hint Resolve spec_qualifiedName : spec.

Lemma spec_arrayType q len p :
  pinv p -> (tokens_left p < N)%nat -> optb wf_expr len = true ->
  spec (arrayType k q len) (fun t _ => wf_expr t = true /\ is_binary t = false) p.
Proof. intros I L Hl. unfold arrayType. go. Qed.

Lemma spec_sliceType q p :
  pinv p -> (tokens_left p < N)%nat -> spec (sliceType k q) (fun t _ => wf_expr t = true /\ is_binary t = false) p.
Proof. intros I L. unfold sliceType. go. Qed.

Lemma spec_chanElem p :
  pinv p -> (tokens_left p < N)%nat -> spec (chanElem k) (fun t _ => wf_expr t = true) p.
Proof. intros I L. unfold chanElem. go. Qed.
#[local] Hint Resolve spec_arrayType spec_sliceType spec_chanElem : spec.

Lemma fillX_wf x t : wf_expr x = true -> wf_fill t = true -> wf_expr (fillX x t) = true.
Proof. destruct t as [t|[q i]]; cbn; [done|]. intros -> ->. done. Qed.

Lemma spec_arrayOrTArgs p :
  pinv p -> (tokens_left p <= N)%nat -> ptok p = _Lbrack ->
  spec (arrayOrTArgs k) (fun t _ => wf_fill t = true) p.
Proof. intros I L Ht. unfold arrayOrTArgs. go. Qed.

Lemma spec_embeddedTerm p :
  pinv p -> (tokens_left p < N)%nat -> spec (embeddedTerm k) (fun t _ => wf_expr t = true) p.
Proof. intros I L. unfold embeddedTerm. go. Qed.
#[local] Hint Resolve spec_arrayOrTArgs spec_embeddedTerm : spec.
#[local] Hint Resolve fillX_wf : wf.

Lemma spec_embeddedElem f p :
  pinv p -> (tokens_left p < N)%nat -> wf_member f = true ->
  spec (embeddedElem k f) (fun f' _ => wf_field f' = true /\
    field_Name f' = match f with Some (_, n, _) => n | None => None end) p.
Proof.
  intros I L Hf. unfold embeddedElem.
  eapply (spec_bind _ _ _ _ (fun r _ => optb wf_name r.1.2 = true /\ wf_expr r.2 = true /\
    r.1.2 = match f with Some (_, n, _) => n | None => None end)).
  { destruct f as [[[q n] t]|]; cbn [wf_member] in Hf; go. }
  spec_intro. loop (fun (t : expr) (_ : parser src) => wf_expr t = true)
    (fun (t : expr) (_ : parser src) => wf_expr t = true); go.
Qed.
#[local] Hint Resolve spec_embeddedElem : spec.

Lemma spec_typeSet b q n t p :
  pinv p -> (tokens_left p < N)%nat -> optb wf_name n = true -> wf_expr t = true ->
  spec (typeSet k b q n t) (fun f _ => optb wf_field f = true) p.
Proof. intros I L Hn Ht. unfold typeSet. go. Qed.
#[local] Hint Resolve spec_typeSet : spec.

Lemma spec_paramDeclOrNil n follow p :
  pinv p -> (tokens_left p < N)%nat -> optb wf_name n = true ->
  spec (paramDeclOrNil k n follow) (fun f _ => optb wf_par f = true) p.
Proof.
  intros I L Hn. unfold paramDeclOrNil. do 3 spec_step. cbv zeta.
  destruct n as [n|]; cbn [is_some].
  - rewrite orb_true_r. go. destruct a; go.
  - rewrite orb_false_r. go. destruct a0; go.
Qed.
#[local] Hint Resolve spec_paramDeclOrNil : spec.

(** *** Parameter lists *)

Lemma all_named_cons f l : all_named (f :: l) = is_some (field_Name f) && all_named l.
Proof. done. Qed.

Lemma spec_namesToTypes l : forall p,
  pinv p -> forallb wf_par l = true ->
  spec (namesToTypes l) (fun l' _ => forallb wf_field l' = true /\ all_unnamed l' = true) p.
Proof.
  induction l as [|[q n t id] l IH]; intros p I Hl; cbn [namesToTypes foldr]; [go|].
  cbn [forallb wf_par] in Hl. split_post. destruct n as [n|]; spec_step.
  - eapply spec_bind; [by apply IH|spec_intro]. go. all: cbn in *; unfold all_unnamed in *; cbn; by rewrite ?H3.
  - eapply spec_bind; [by apply IH|spec_intro]. go.
Qed.

Lemma spec_distribute l : forall errPos typ done p,
  pinv p -> forallb wf_par l = true -> optb (fun t : expr * nat => wf_expr t.1) typ = true ->
  forallb wf_field done = true -> all_named done = true ->
  spec (distribute l errPos typ done) (fun r _ =>
    forallb wf_field r.1 = true /\ all_named r.1 = true) p.
Proof.
  induction l as [|[q n t id] l IH]; intros errPos typ done p I Hl Ht Hd Hn; cbn [distribute]; [go|].
  cbn [forallb wf_par] in Hl. split_post.
  assert (Hadd : forall q n t id, wf_name n = true -> wf_expr t = true ->
    forallb wf_field (Field q (Some n) (Some t) id :: done) = true /\
    all_named (Field q (Some n) (Some t) id :: done) = true)
    by (intros q' n' t' id' Hn' Ht'; cbn; by rewrite Hn', Ht', Hd).
  destruct t as [t|].
  - destruct n as [n|]; cbn [set_field_Name].
    + destruct (Hadd q n t id); [done..|]. by apply IH.
    + destruct (Hadd q (NewName (StartPos t) "_") t id); [done..|]. by apply IH.
  - destruct typ as [[t id']|]; destruct n as [n|]; try done; cbn [set_field_Type].
    + destruct (Hadd q n t id'); [done..|]. by apply IH.
    + eapply spec_bind; [by apply spec_newId|spec_intro].
      destruct (Hadd q n (BadExpr (name_pos n)) (ids p)); [done..|].
      eapply spec_tail; [spec_ends..|by apply IH|]. by intros ? ? _ _ _ _ _ _ ?.
Qed.

Lemma spec_checkDots l : forall first dddok p,
  pinv p -> forallb wf_field l = true ->
  spec (checkDots first dddok l) (fun l' _ =>
    forallb wf_field l' = true /\ map field_Name l' = map field_Name l) p.
Proof.
  induction l as [|f l IH]; intros first dddok p I Hl; cbn [checkDots]; [go|].
  cbn [forallb] in Hl. split_post. 
  assert (Hrest : forall first', spec
    (let* rest := checkDots first' dddok l in ret (f :: rest))
    (fun l' _ => forallb wf_field l' = true /\ map field_Name l' = map field_Name (f :: l)) p).
  { intros first'. eapply spec_bind; [by apply IH|spec_intro]. go. cbn. congruence. }
  destruct (field_Type f) as [t|] eqn:Et; [|apply Hrest]. destruct t; try apply Hrest.
  case_match; [|apply Hrest].
  assert (Hf : wf_field (set_field_Type (Some t) (Datatypes.S (field_id f)) f) = true /\
    field_Name (set_field_Type (Some t) (Datatypes.S (field_id f)) f) = field_Name f).
  { destruct f as [q n t' id]. cbn in Et. subst. cbn in *. split_post. post. }
  destruct Hf as [Hf Hn].
  apply (spec_bind _ _ _ _ (fun _ _ => True)); [destruct first; go|spec_intro].
  eapply spec_bind; [by apply IH|spec_intro]. go. cbn. congruence.
Qed.

(** The numbers of the parameters with a type, and with a name and a type. *)
Definition typed_par (f : field) : bool := is_some (field_Type f).
Definition named_par (f : field) : bool := is_some (field_Name f) && is_some (field_Type f).

Definition param_ok (s : paramState) : Prop :=
  forallb wf_par (ps_list s) = true /\ optb wf_name (ps_name s) = true /\ optb wf_expr (ps_typ s) = true /\
  (is_some (ps_typ s) = true -> is_some (ps_name s) = true) /\
  ps_named s = lenZ (List.filter named_par (ps_list s)).

Lemma spec_param close s p :
  pinv p -> (tokens_left p < N)%nat -> param_ok s ->
  spec (param k close s) (fun r _ => param_ok r.1) p.
Proof.
  intros I L (Hl & Hn & Ht & Hnt & Hc). unfold param.
  eapply (spec_bind _ _ _ _ (fun f _ => optb wf_par f = true)).
  { destruct (ps_typ s) as [t|]; [|go]. destruct (ps_name s) as [n|]; [|by specialize (Hnt eq_refl)]. go. }
  spec_intro. destruct a as [f|]; go; unfold param_ok; cbn [ps_list ps_name ps_typ ps_named]; post.
  rewrite filter_app, lenZ_app, Hc. cbn [List.filter]. unfold named_par at 3.
  rewrite andb_comm. destruct (is_some (field_Type f)); cbn; destruct (is_some (field_Name f)); cbn; reflexivity.
Qed.

Lemma all_typed_named l :
  forallb wf_par l = true -> lenZ (List.filter named_par l) = lenZ l ->
  forallb wf_field l = true /\ all_named l = true.
Proof.
  unfold lenZ. intros Hl Hc. apply Nat2Z.inj in Hc. induction l as [|f l IH]; [done|].
  cbn [forallb] in Hl. split_post. cbn [List.filter] in Hc. pose proof (filter_length_le named_par l) as Hle.
  destruct (named_par f) eqn:E; cbn [length] in Hc; [|lia]. unfold named_par in E. split_post.
  destruct IH as [IH1 IH2]; [lia|]. cbn [forallb]. rewrite IH1, all_named_cons, IH2.
  destruct f as [q [n|] [t|] id]; cbn in *; try discriminate. split_post. post.
Qed.

Lemma names_of_map l l' : map field_Name l = map field_Name l' -> all_named l = all_named l' /\ all_unnamed l = all_unnamed l'.
Proof.
  revert l'. induction l as [|f l IH]; intros [|f' l'] E; try done. cbn [map] in E. injection E as E1 E2.
  destruct (IH l' E2) as [IH1 IH2]. unfold all_named, all_unnamed in *. cbn. by rewrite E1, IH1, IH2.
Qed.

Lemma forallb_rev {A} (f : A -> bool) l : forallb f l = true -> forallb f (rev l) = true.
Proof. rewrite !forallb_forall. intros Hl x Hx. apply Hl. by apply in_rev. Qed.

Lemma named_params l : all_named l = true -> param_names l = true.
Proof. unfold param_names. by intros ->. Qed.

Lemma unnamed_params l : all_unnamed l = true -> param_names l = true.
Proof. unfold param_names. intros ->. apply orb_true_r. Qed.
#[local] Hint Resolve named_params unnamed_params : wf.

Definition params_ok (req : bool) (l : list field) : Prop :=
  forallb wf_field l = true /\ param_names l = true /\ (req = true -> all_named l = true).

(** Names or types for the parameters that lack them. *)
Lemma spec_complete s (req : bool) (end_ : Pos) p :
  pinv p -> param_ok s ->
  spec (let list := ps_list s in
    if (ps_named s =? 0) && negb req then namesToTypes list
    else if negb (ps_named s =? lenZ list) then
      let* (l, errPos) := distribute (rev list) noPos None [] in
      when IsKnown errPos do
        (let sameCount := ps_named s =? ps_typed s in
         syntaxErrorAt (if sameCount then end_ else errPos)
           (missingMsg sameCount req (lenZ list =? 1)));;;
      ret l
    else ret list) (fun l _ => params_ok req l) p.
Proof.
  intros I (Hl & _ & _ & _ & Hc). cbv zeta.
  destruct ((ps_named s =? 0) && negb req) eqn:E0.
  - apply andb_true_iff in E0 as [_ Hr]. destruct req; [done|].
    eapply spec_mono; [by apply spec_namesToTypes|]. intros l q _ _ _ _ _ _ [Hw Hu].
    split_and!; [done|by apply unnamed_params|done].
  - destruct (ps_named s =? lenZ (ps_list s)) eqn:E1; cbn [negb].
    + apply Z.eqb_eq in E1. rewrite Hc in E1. destruct (all_typed_named _ Hl E1) as [Hw Hn].
      apply spec_ret; try done. split_and!; [done|by apply named_params|done].
    + eapply spec_bind; [apply spec_distribute; [done|by apply forallb_rev|done..]|spec_intro].
      apply (spec_bind _ _ _ _ (fun _ _ => True)); [go|spec_intro].
      apply spec_ret; [assumption|spec_ends..|]. split_and!; [done|by apply named_params|done].
Qed.

Lemma spec_paramList n t close req ddd p :
  pinv p -> (tokens_left p < N)%nat -> close <> _EOF -> optb wf_name n = true -> optb wf_expr t = true ->
  (is_some t = true -> is_some n = true) ->
  spec (paramList k n t close req ddd) (fun l _ =>
    forallb wf_field l = true /\ param_names l = true /\ (req = true -> all_named l = true)) p.
Proof.
  intros I L Hclose Hn Ht Hnt. unfold paramList. spec_step.
  match goal with |- spec_to _ _ (match _ with Some _ => match _ with Some _ => if _ then _ else ?m | None => _ end
    | None => _ end) _ _ => assert (Hlist : spec m (fun l _ => params_ok req l) p) end.
  { eapply spec_bind.
    { apply (spec_list _ _ _ _ (fun s _ => param_ok s)); try done.
      intros s p1 I1 L1 N1 F1 X1 Ht1 Hs. apply spec_param; [done|lia|done]. }
    spec_intro. cbv zeta. destruct (lenZ (ps_list a) =? 0); [apply spec_ret; [assumption|spec_ends..|]; by split_and!|].
    eapply spec_bind; [by apply spec_complete|spec_intro].
    destruct P0 as (Hw & Hp & Hr).
    eapply spec_tail; [spec_ends..|by apply spec_checkDots|]. intros l q1 _ _ _ _ _ _ [Hw' Hm].
    destruct (names_of_map _ _ Hm) as [En Eu]. unfold params_ok, param_names in *. by rewrite En, Eu. }
  destruct n as [n|]; [|exact Hlist]. destruct t as [t|]; [|exact Hlist].
  destruct (tok_eqb (ptok p) close) eqn:E; [|exact Hlist]. tok_tests. go.
Qed.
End Types.

#[export] Hint Resolve spec_k_expr spec_k_type_ spec_typeList spec_typeInstance spec_qualifiedName spec_arrayType spec_sliceType spec_chanElem spec_arrayOrTArgs spec_embeddedTerm spec_embeddedElem spec_typeSet spec_paramDeclOrNil spec_paramList : spec.
#[export] Hint Resolve named_params unnamed_params fillX_wf : wf.
#[export] Hint Extern 1 (spec_to _ _ (k_typeOrNil _) _ _) => eapply ko_type; [eassumption| |] : spec.
#[export] Hint Extern 1 (spec_to _ _ (k_unaryExpr _) _ _) => eapply ko_unary; [eassumption| |] : spec.
#[export] Hint Extern 1 (spec_to _ _ (k_complitexpr _) _ _) => eapply ko_complit; [eassumption| |] : spec.
#[export] Hint Extern 1 (spec_to _ _ (k_ifStmt _) _ _) => eapply ko_if; [eassumption| | |] : spec.
#[export] Hint Extern 1 (spec_to _ _ (k_stmtOrNil _) _ _) => eapply ko_stmt; [eassumption| |] : spec.
