(* ===== verification/TypeFacts.v ===== *)
(** * What the productions promise: function, struct and interface types *)

From S2P Require Import Prelude Utf8 Format Tokens Source Pos Nodes Walk WellFormed Exprs Positions Printer.
From S2P Require Import PrinterFacts Branches BranchFacts Scanner ScannerFacts Parser ParserFacts Grammar.
From S2P Require Import GrammarFacts.

#[local] Open Scope Z_scope.
#[local] Open Scope go_scope.

Section Types.
Context {src : Type} `{SourceLaws src} `{cfg : Config}.
Implicit Types p : parser src.
Abbreviation spec m Q p := (spec_to (fnest p) (xnest p) m Q p).
Context (k : knot (src := src)) (N : nat) (Hk : kok k N).

Lemma spec_funcResult p :
  pinv p -> (tokens_left p < N)%nat ->
  spec (funcResult k) (fun l _ => forallb wf_field l = true /\ param_names l = true) p.
Proof.
  intros I L. unfold funcResult. go.
Qed.
#[local] Hint Resolve spec_funcResult : spec.

Lemma spec_funcType context p :
  pinv p -> (tokens_left p < N)%nat ->
  spec (funcType k context) (fun r _ =>
    forallb wf_field r.1 = true /\ all_named r.1 = true /\ wf_functype r.2 = true) p.
Proof.
  intros I L. unfold funcType. go.
Qed.
#[local] Hint Resolve spec_funcType : spec.

(** *** Structs *)

Definition fields_ok (n : nat) (s : fieldLists) : Prop :=
  forallb wf_field (fl_fields s) = true /\ neighbours_ok (fl_fields s) = true /\
  lenZ (fl_tags s) <= lenZ (fl_fields s) /\ forallb (optb wf_lit) (fl_tags s) = true /\
  forallb (fun f => Nat.ltb (field_id f) n) (fl_fields s) = true.

Lemma fields_ok_mono n m s : (n <= m)%nat -> fields_ok n s -> fields_ok m s.
Proof.
  intros Hn (? & ? & ? & ? & Hi). split_and!; try done. rewrite forallb_forall in *.
  intros f Hf. specialize (Hi f Hf). apply Nat.ltb_lt in Hi. apply Nat.ltb_lt. lia.
Qed.

Lemma neighbours_snoc l f : neighbours_ok l = true ->
  (forall l' g, l = l' ++ [g] -> may_follow g f = true) -> neighbours_ok (l ++ [f]) = true.
Proof.
  induction l as [|g l IH]; intros Hl Hf; [done|]. cbn [app neighbours_ok] in *.
  apply andb_true_iff in Hl as [Hg Hl]. apply andb_true_iff. split.
  - destruct l as [|h l]; [|done]. cbn. by rewrite (Hf [] g).
  - apply IH; [done|]. intros l' h ->. by apply (Hf (g :: l')).
Qed.

Lemma addField_ok n m s f tag :
  fields_ok n s -> (n <= m)%nat -> wf_field f = true -> optb wf_lit tag = true ->
  (forall l g, fl_fields s = l ++ [g] -> may_follow g f = true) -> (field_id f < m)%nat ->
  fields_ok m (addField s f tag).
Proof.
  intros Hs Hn Hf Ht Hg Hi. apply (fields_ok_mono n m) in Hs; [|done]. destruct Hs as (Hw & Hb & Hl & Htags & Hids).
  unfold addField. split_and!; cbn [fl_fields fl_tags].
  - by rewrite forallb_snoc, Hw, Hf.
  - by apply neighbours_snoc.
  - rewrite lenZ_snoc. destruct tag; [|lia]. unfold lenZ in *. rewrite !length_app, repeat_length. cbn. lia.
  - destruct tag as [t|]; [|done]. rewrite !forallb_app, Htags. cbn [andb forallb]. cbn [optb] in *.
    rewrite Ht, andb_true_r. apply forallb_forall. intros x Hx. apply repeat_spec in Hx. by subst.
  - rewrite forallb_snoc, Hids. apply Nat.ltb_lt in Hi. by rewrite Hi.
Qed.

(** The id of a new field is not the id of a field that is there. *)
Lemma fresh_may_follow n s q nam t id :
  fields_ok n s -> (n <= id)%nat ->
  forall l g, fl_fields s = l ++ [g] -> may_follow g (Field q nam t id) = true.
Proof.
  intros (_ & _ & _ & _ & Hi) Hn l [q' n' t' id'] E. rewrite E, forallb_snoc in Hi. cbn in *.
  apply andb_true_iff in Hi as [_ Hi]. apply Nat.ltb_lt in Hi.
  destruct (Nat.eqb_spec id' id); [lia|]. apply orb_true_r.
Qed.

Lemma spec_embed n s q t p :
  pinv p -> fields_ok n s -> (n <= ids p)%nat -> wf_expr t = true ->
  spec (embed s q t) (fun s' p' => fields_ok (ids p') s') p.
Proof.
  intros I Hs Hn Ht. unfold embed. go.
    eapply addField_ok; [exact Hs|lia|cbn; by rewrite Ht|done|eapply fresh_may_follow; [exact Hs|lia]|cbn; lia].
Qed.
#[local] Hint Resolve spec_embed : spec.

(** The fields that share a type: all have a name. *)
Lemma names_fields_ok n t id tag : wf_expr t = true -> optb wf_lit tag = true ->
  forall names s, forallb wf_name names = true -> (id < n)%nat -> fields_ok n s ->
  (forall l g, fl_fields s = l ++ [g] -> is_some (field_Name g) = true \/ (field_id g < id)%nat) ->
  fields_ok n (fold_left (fun s n => addField s (Field (name_pos n) (Some n) (Some t) id) tag) names s).
Proof.
  intros Ht Htag. induction names as [|x names IH]; intros s Hx Hid Hs Hlast; cbn [fold_left]; [done|].
  cbn [forallb] in Hx. apply andb_true_iff in Hx as [Hx Hnames]. apply IH; [done|done| |].
  - eapply addField_ok; [exact Hs|done| |done| |done].
    + cbn. by rewrite Hx, Ht.
    + intros l [q' n' t' id'] E. cbn. destruct (Hlast l _ E) as [Hn|Hn]; cbn in Hn; [by destruct n'|].
      destruct (Nat.eqb_spec id' id); [lia|]. apply orb_true_r.
  - intros l g E. cbn [addField fl_fields] in E. apply app_inj_tail in E as [_ <-]. by left.
Qed.

Lemma fields_ok_last n s l g : fields_ok n s -> fl_fields s = l ++ [g] -> (field_id g < n)%nat.
Proof.
  intros (_ & _ & _ & _ & Hi) E. rewrite E, forallb_snoc in Hi. apply andb_true_iff in Hi as [_ Hi].
  by apply Nat.ltb_lt.
Qed.

Lemma newIndirect_wf q t : wf_expr t = true -> wf_expr (newIndirect q t) = true.
Proof. intros Ht. cbn. by rewrite Ht. Qed.
#[local] Hint Resolve newIndirect_wf : wf.

Lemma spec_fieldDecl s p :
  pinv p -> (tokens_left p < N)%nat -> fields_ok (ids p) s ->
  spec (fieldDecl k s) (fun s' p' => fields_ok (ids p') s') p.
Proof.
  intros I L Hs. unfold fieldDecl. do 2 spec_step.
  assert (Hdef : spec (syntaxError "expected field name or embedded type";;; advance [_Semi; _Rbrace];;; ret s)
    (fun s' p' => fields_ok (ids p') s') p).
  { go. by eapply fields_ok_mono; [|exact Hs]; lia. }
  destruct (ptok p) eqn:Et; try exact Hdef. 
  all: go; (eapply names_fields_ok; [assumption|assumption|assumption|lia|eapply fields_ok_mono; [|eassumption]; lia|]);
    intros l g E; right; pose proof (fields_ok_last _ _ _ _ Hs E); lia.
Qed.
#[local] Hint Resolve spec_fieldDecl : spec.

Lemma spec_structType p :
  pinv p -> (tokens_left p <= N)%nat -> ptok p = _Struct ->
  spec (structType k) (fun t p' => wf_expr t = true /\ is_binary t = false /\ (tokens_left p' < tokens_left p)%nat) p.
Proof.
  intros I L Ht. unfold structType. go.
  listing (fun s (p' : parser src) => fields_ok (ids p') s).
  - intros s p1 p2 Hs Hn. by eapply fields_ok_mono.
  - go.
  - destruct P1 as (Hw & Hb & Hl & Htags & _). go.
Qed.

(** *** Interfaces *)

Lemma spec_fieldTypes l p :
  pinv p -> forallb wf_field l = true ->
  spec (fieldTypes l) (fun ts _ => forallb wf_expr ts = true /\ lenZ ts = lenZ l) p.
Proof.
  induction l as [|[q n t id] l IH] in p |- *; intros I Hl; cbn [fieldTypes field_Type]; [go|].
  cbn [forallb wf_field] in Hl. split_post. destruct t as [t|]; [|done].
  eapply spec_bind; [by apply IH|spec_intro]. go.
Qed.
#[local] Hint Resolve spec_fieldTypes : spec.

Lemma spec_methodDecl p :
  pinv p -> (tokens_left p < N)%nat -> ptok p = _Name ->
  spec (methodDecl k) (fun m _ => wf_member (Some m) = true /\
    (is_some m.1.2 = true -> is_FuncType (Some m.2) = true)) p.
Proof.
  intros I L Ht. unfold methodDecl. go.
  assert (Hdef : spec (let* t := qualifiedName k (Some a) in
      ret (MakePos (base p) (line (scanner_ p)) (col (scanner_ p)), None, t))
    (fun m _ => wf_member (Some m) = true /\
      (is_some m.1.2 = true -> is_FuncType (Some m.2) = true)) q) by go.
  rewrite <- F, <- X. destruct (ptok q) eqn:Et; try exact Hdef; go.
  destruct a0 as [|f l]; go. destruct a0 as [|t [|t' ts]]; try go.
Qed.
#[local] Hint Resolve spec_methodDecl : spec.

Lemma spec_interfaceType p :
  pinv p -> (tokens_left p <= N)%nat -> ptok p = _Interface ->
  spec (interfaceType k) (fun t p' => wf_expr t = true /\ is_binary t = false /\ (tokens_left p' < tokens_left p)%nat) p.
Proof.
  intros I L Ht. unfold interfaceType. go.
  listing (fun (l : list field) (_ : parser src) => forallb wf_field l = true /\ forallb method_ok l = true).
  - go. all: unfold method_ok. all: match goal with E : field_Name ?f = _ |- context [field_Name ?f] => by rewrite E end.
  - go.
Qed.
#[local] Hint Resolve spec_structType spec_interfaceType : spec.

(** The tokens with which a type starts. *)
Definition typeTokens : list token :=
  [_Star; _Arrow; _Func; _Lbrack; _Chan; _Map; _Struct; _Interface; _Name; _Lparen].

Lemma spec_typeOrNil p :
  pinv p -> (tokens_left p <= N)%nat ->
  spec (typeOrNil k) (fun t p' => optb wf_expr t = true /\ ends_progress p t p' /\
    is_some t = existsb (tok_eqb (ptok p)) typeTokens /\
    (ptok p <> _Lparen -> match t with Some t => is_binary t = false | None => True end)) p.
Proof.
  intros I L. unfold typeOrNil. do 2 spec_step.
  assert (Hdef : spec (ret None : PM (option expr))
    (fun t p' => optb wf_expr t = true /\ ends_progress p t p' /\ is_some t = false /\
      (ptok p <> _Lparen -> match t with Some t => is_binary t = false | None => True end)) p) by go.
  destruct (ptok p) eqn:Et; try exact Hdef. 
  all: go.
Qed.
#[local] Hint Resolve spec_typeOrNil : spec.

Lemma spec_type_ p :
  pinv p -> (tokens_left p <= N)%nat -> spec (type_ k) (fun t p' => wf_expr t = true /\
    (existsb (tok_eqb (ptok p)) typeTokens = true -> (tokens_left p' < tokens_left p)%nat) /\
    (ptok p <> _Lparen -> is_binary t = false)) p.
Proof. intros I L. unfold type_, type_with. go. all: congruence. Qed.
#[local] Hint Resolve spec_type_ : spec.
End Types.

#[export] Hint Resolve spec_funcResult spec_funcType spec_typeOrNil spec_type_ : spec.
#[export] Hint Resolve newIndirect_wf : wf.
