(* ===== verification/ExprFacts.v ===== *)
(** * What the productions promise: blocks, operands and expressions *)

From S2P Require Import Prelude Utf8 Format Tokens Source Pos Nodes Walk WellFormed Exprs Positions Printer.
From S2P Require Import PrinterFacts Branches BranchFacts Scanner ScannerFacts Parser ParserFacts Grammar.
From S2P Require Import GrammarFacts TypeFacts.

#[local] Open Scope Z_scope.
#[local] Open Scope go_scope.

Section Exprs.
Context {src : Type} `{SourceLaws src} `{cfg : Config}.
Implicit Types p : parser src.
Abbreviation spec m Q p := (spec_to (fnest p) (xnest p) m Q p).
Context (Hh : handled) (k : knot (src := src)) (N : nat) (Hk : kok k N).

(** ** Blocks *)

Lemma ptok_scanner p p' : scanner_ p' = scanner_ p -> ptok p' = ptok p.
Proof. unfold ptok. by intros ->. Qed.

Lemma spec_stmtList p :
  pinv p -> (tokens_left p < N)%nat ->
  spec (stmtList k) (fun l _ => forallb wf_stmt l = true) p.
Proof.
  intros I L. unfold stmtList.
  apply (spec_ploop_tokens _ (fun l _ => forallb wf_stmt l = true)); [done|done|spec_loop_intro].
  go; match goal with Hp : _ \/ ptok ?q0 = _Semi, Hs : scanner_ ?q1 = scanner_ ?q0 |- _ =>
    pose proof (ptok_scanner _ _ Hs);
    assert (tokens_left q0 < tokens_left q)%nat by (destruct Hp; [done|congruence]) end; lia.
Qed.
#[local] Hint Resolve spec_stmtList : spec.

(** Below the bound, or at a token that is used up first. *)
Definition below (t : token) p : Prop :=
  (tokens_left p < N)%nat \/ ((tokens_left p <= N)%nat /\ ptok p = t).

Lemma below_le t p : below t p -> (tokens_left p <= N)%nat.
Proof. intros [?|[? _]]; lia. Qed.

Lemma spec_blockStmt context p :
  pinv p -> below _Lbrace p ->
  spec (blockStmt k context) (fun b p' => wf_block b = true /\
    (ptok p = _Lbrace -> (tokens_left p' < tokens_left p)%nat)) p.
Proof.
  intros I [L|[L E]]; unfold blockStmt; go.
Qed.
#[local] Hint Extern 1 (below _ _) => solve [left; lia|left; tok_lia|right; split; [lia|assumption]] : spec.
#[local] Hint Resolve spec_blockStmt : spec.

Lemma spec_check_branches body p :
  pinv p -> wf_block body = true -> ~ branches_off ->
  spec (check_branches body) (fun _ p' => p' = p) p.
Proof.
  intros I Hw Hoff. unfold check_branches. destruct Hh as [He|?]; [|done]. rewrite He.
  destruct (checkBranches_returns map_range body Hw) as (s & t & ->).
  split; [|done]. by split_and!; [|right|..].
Qed.


#[local] Hint Resolve spec_check_branches : spec.

Lemma spec_funcBody p :
  pinv p -> below _Lbrace p ->
  spec (funcBody k) (fun b p' => wf_block b = true /\
    (ptok p = _Lbrace -> (tokens_left p' < tokens_left p)%nat)) p.
Proof.
  intros I L. unfold funcBody. spec_step. pose proof (ptok_scanner _ _ C) as Et.
  assert (L1 : below _Lbrace q) by (destruct L as [?|[? ?]]; [left|right; split]; [lia..|congruence]).
  rewrite <- Et, <- L0. go.
  - assert (~ branches_off) by (unfold branches_off; lia). go.
Qed.
#[local] Hint Resolve spec_funcBody : spec.

(** ** Literals *)

Lemma spec_argList p :
  pinv p -> (tokens_left p < N)%nat ->
  spec (argList k) (fun r _ => forallb wf_expr r.1 && (negb r.2 || (0 <? lenZ r.1)) = true) p.
Proof.
  intros I L. unfold argList. go.
  listing (fun (r : list expr * bool) (_ : parser src) =>
    forallb wf_expr r.1 && (negb r.2 || (0 <? lenZ r.1)) = true); go.
Qed.
#[local] Hint Resolve spec_argList : spec.

Lemma mkComplit_wf t c : optb wf_expr t = true -> wf_complit c = true -> wf_expr (mkComplit t c) = true.
Proof. destruct c as [[[q l] n] r]. cbn. intros ->. done. Qed.
#[local] Hint Resolve mkComplit_wf : wf.

Lemma spec_bare_complitexpr p :
  pinv p -> (tokens_left p < N)%nat -> spec (bare_complitexpr k) (fun x _ => wf_expr x = true) p.
Proof. intros I L. unfold bare_complitexpr. go. Qed.
#[local] Hint Resolve spec_bare_complitexpr : spec.

Lemma spec_complitexpr p :
  pinv p -> (tokens_left p <= N)%nat -> spec (complitexpr k) (fun c p' => wf_complit c = true /\
    (ptok p = _Lbrace -> (tokens_left p' < tokens_left p)%nat)) p.
Proof.
  intros I L. unfold complitexpr. go.
  listing (fun (r : list expr * Z) (_ : parser src) =>
    forallb wf_expr r.1 && (0 <=? r.2) && (r.2 <=? lenZ r.1) = true); go.
Qed.
#[local] Hint Resolve spec_complitexpr : spec.

Lemma convertSymbolKeyToString_wf x : wf_expr x = true -> wf_expr (convertSymbolKeyToString x) = true.
Proof. by destruct x. Qed.
#[local] Hint Resolve convertSymbolKeyToString_wf : wf.

Lemma spec_keyValue key p :
  pinv p -> (tokens_left p < N)%nat -> wf_expr key = true ->
  spec (keyValue k key) (fun x p' => wf_expr x = true /\ (tokens_left p' <= pred (tokens_left p))%nat) p.
Proof. intros I L Hw. unfold keyValue. go. Qed.
#[local] Hint Resolve spec_keyValue : spec.

Lemma mapLit_wf q l r : forallb wf_expr l = true -> wf_expr (mapLit q l r) = true.
Proof. intros Hl. cbn. rewrite Hl. pose proof (lenZ_nonneg l). lia. Qed.
#[local] Hint Resolve mapLit_wf : wf.

Lemma spec_mapLiteralFromBracket q key p :
  pinv p -> (tokens_left p < N)%nat -> optb wf_expr key = true ->
  spec (mapLiteralFromBracket k q key) (fun x _ => wf_expr x = true /\ is_binary x = false) p.
Proof.
  intros I L Hw. unfold mapLiteralFromBracket.
  eapply (spec_bind _ _ _ _ (fun l _ => forallb wf_expr l = true)); [go|spec_intro].
  loop (fun (l : list expr) (_ : parser src) => forallb wf_expr l = true)
    (fun (l : list expr) (_ : parser src) => forallb wf_expr l = true); go.

Qed.
#[local] Hint Resolve spec_mapLiteralFromBracket : spec.

Lemma spec_mapLiteralFromBrace p :
  pinv p -> (tokens_left p <= N)%nat -> ptok p = _Lbrace ->
  spec (mapLiteralFromBrace k) (fun x p' => wf_expr x = true /\ is_binary x = false /\ (tokens_left p' < tokens_left p)%nat) p.
Proof.
  intros I L Ht. unfold mapLiteralFromBrace. go.
  loop (fun (l : list expr) (_ : parser src) => forallb wf_expr l = true)
    (fun (l : list expr) (_ : parser src) => forallb wf_expr l = true); go. all: cbn [negb]; post.
Qed.
#[local] Hint Resolve spec_mapLiteralFromBrace : spec.

Lemma spec_sliceLiteral q x p :
  pinv p -> (tokens_left p <= N)%nat -> wf_expr x = true ->
  spec (sliceLiteral k q x) (fun x _ => wf_expr x = true /\ is_binary x = false) p.
Proof.
  intros I L Hx. unfold sliceLiteral.
  loop (fun (l : list expr) (_ : parser src) => forallb wf_expr l = true)
    (fun (l : list expr) (_ : parser src) => forallb wf_expr l = true); go.
Qed.
#[local] Hint Resolve spec_sliceLiteral : spec.

Lemma spec_mapTypeOrLiteral p :
  pinv p -> (tokens_left p <= N)%nat -> ptok p = _Map ->
  spec (mapTypeOrLiteral k) (fun x p' => wf_expr x = true /\ is_binary x = false /\ (tokens_left p' < tokens_left p)%nat) p.
Proof.
  intros I L Ht. unfold mapTypeOrLiteral. do 3 spec_step.
  match goal with |- context [syntaxError ?m;;; badExpr] =>
    assert (Hdef : spec_to (fnest p) (xnest p) (syntaxError m;;; badExpr)
      (fun x p' => wf_expr x = true /\ is_binary x = false /\ (tokens_left p' < tokens_left p)%nat) q) by go end.
  destruct (ptok q) eqn:Et; try exact Hdef; go.
Qed.
#[local] Hint Resolve spec_mapTypeOrLiteral : spec.

(** The tokens with which an operand starts. *)
Definition operandTokens : list token :=
  [_Name; _Literal; _Lparen; _Func; _Map; _Lbrack; _Lbrace; _Chan; _Struct; _Interface].

Definition operand_post (keep : bool) p (x : expr) p' : Prop :=
  wf_expr x = true /\ (keep = true -> is_binary x = false) /\
  (existsb (tok_eqb (ptok p)) operandTokens = true -> (tokens_left p' < tokens_left p)%nat).

Lemma spec_operand keep p :
  pinv p -> (tokens_left p <= N)%nat ->
  spec (operand k keep) (fun x p' => operand_post keep p x p') p.
Proof.
  intros I L. unfold operand. spec_step.
  match goal with |- context [bind badExpr ?m] =>
    assert (Hdef : existsb (tok_eqb (ptok p)) operandTokens = false ->
      spec (bind badExpr m) (fun x p' => operand_post keep p x p') p) end.
  { intros Hs. go. unfold operand_post. rewrite Hs. by split_and!. }
  destruct (ptok p) eqn:Et; try (apply Hdef; reflexivity); go; unfold operand_post; try (split_and!; [post|post|intros; tok_lia]).
  - exfalso. by destruct H2 as [H2 _]; specialize (H2 Et).
  - by case_match.
  - by rewrite orb_true_r.
  - rewrite Et in *. post.
  - rewrite Et in *. post.
  - rewrite Et in *. post.
Qed.
#[local] Hint Resolve spec_operand : spec.

(** ** Primary expressions *)

Lemma spec_selector q x p :
  pinv p -> (tokens_left p <= N)%nat -> wf_expr x = true -> ptok p <> _EOF ->
  spec (selector k q x) (fun y p' => wf_expr y = true /\ (is_binary x = false -> is_binary y = false) /\
    (tokens_left p' < tokens_left p)%nat) p.
Proof.
  intros I L Hx Ht. unfold selector. do 2 spec_step.
  match goal with |- context [syntaxError ?m;;; ?k] =>
    assert (Hdef : spec_to (fnest p) (xnest p) (syntaxError m;;; k)
      (fun y p' => wf_expr y = true /\ (is_binary x = false -> is_binary y = false) /\ (tokens_left p' < tokens_left p)%nat) q0) by go end.
  destruct (ptok q0) eqn:Et; try exact Hdef; go.
Qed.

Lemma spec_slice_ q x i p :
  pinv p -> (tokens_left p < N)%nat -> wf_expr x = true -> optb wf_expr i = true ->
  spec (slice_ k q x i) (fun x _ => wf_expr x = true /\ is_binary x = false) p.
Proof.
  intros I L Hx Hi. unfold slice_.
  apply (spec_bind _ _ _ _ (fun _ _ => True)); [go|spec_intro].
  apply (spec_bind _ _ _ _ (fun _ _ => True)); [go|spec_intro].
  eapply (spec_bind _ _ _ _ (fun r _ => optb wf_expr r.1.1 && optb wf_expr r.1.2 &&
    Bool.eqb r.2 (is_some r.1.2) && (negb r.2 || is_some r.1.1) = true)); [|spec_intro; go].
  go.
Qed.
#[local] Hint Resolve spec_selector spec_slice_ : spec.

Lemma spec_index_ q x p :
  pinv p -> (tokens_left p <= N)%nat -> wf_expr x = true -> ptok p <> _EOF ->
  spec (index_ k q x) (fun x p' => wf_expr x = true /\ is_binary x = false /\
    (tokens_left p' < tokens_left p)%nat) p.
Proof.
  intros I L Hx Ht. unfold index_. go.
Qed.

Lemma spec_hashIndex q x p :
  pinv p -> (tokens_left p <= N)%nat -> wf_expr x = true -> ptok p <> _EOF ->
  spec (hashIndex k q x) (fun x p' => wf_expr x = true /\ is_binary x = false /\
    (tokens_left p' < tokens_left p)%nat) p.
Proof. intros I L Hx Ht. unfold hashIndex. go. Qed.
#[local] Hint Resolve spec_index_ spec_hashIndex : spec.
End Exprs.

#[export] Hint Extern 1 (below _ _ _) => solve [left; lia|left; tok_lia|right; split; [lia|assumption]] : spec.
#[export] Hint Resolve spec_stmtList spec_blockStmt spec_funcBody spec_argList spec_complitexpr spec_operand
  spec_selector spec_index_ spec_hashIndex : spec.
#[export] Hint Resolve mkComplit_wf : wf.
