(* ===== verification/OperatorFacts.v ===== *)
(** * What the productions promise: primary expressions and operators

    [binaryExpr] builds the operations that the precedences of the operators
    want. *)

From S2P Require Import Prelude Utf8 Format Tokens Source Pos Nodes Walk WellFormed Exprs Positions Printer.
From S2P Require Import PrinterFacts Branches BranchFacts Scanner ScannerFacts Parser ParserFacts Grammar.
From S2P Require Import GrammarFacts TypeFacts ExprFacts.

#[local] Open Scope Z_scope.
#[local] Open Scope go_scope.

Lemma Unparen_wf x : wf_expr x = true -> wf_expr (Unparen x) = true.
Proof. induction x; cbn [Unparen]; auto. Qed.
#[export] Hint Resolve Unparen_wf : wf.

Lemma String_expr_some x : wf_expr x = true -> is_some (String_expr x) = true.
Proof. intros Hx. by destruct (String_expr_returns x Hx) as [s ->]. Qed.

Lemma String_stmt_some s : simple_stmt s = true -> wf_stmt s = true -> is_some (String_stmt s) = true.
Proof. intros Hs Hx. by destruct (String_stmt_returns s Hs Hx) as [t ->]. Qed.

Lemma unary_prefix o : existsb (op_eqb o) unaryOps = true -> existsb (op_eqb o) prefixOps = true.
Proof. by destruct o. Qed.
#[export] Hint Resolve String_expr_some String_stmt_some unary_prefix : wf.

Section Operators.
Context {src : Type} `{SourceLaws src} `{cfg : Config}.
Implicit Types p : parser src.
Abbreviation spec m Q p := (spec_to (fnest p) (xnest p) m Q p).
Context (Hh : handled) (k : knot (src := src)) (N : nat) (Hk : kok k N).

(** An operand without its parentheses may be an operation. *)
Definition bare (x : option expr) (keep : bool) : bool :=
  match x with Some x => negb (is_binary x) | None => keep end.

Definition pexpr_post (x : option expr) (keep : bool) p (y : expr) p' : Prop :=
  wf_expr y = true /\ (bare x keep = true -> is_binary y = false) /\
  (x = None -> existsb (tok_eqb (ptok p)) operandTokens = true -> (tokens_left p' < tokens_left p)%nat).

Lemma spec_pexpr x keep p :
  pinv p -> (tokens_left p <= N)%nat -> optb wf_expr x = true ->
  spec (pexpr k x keep) (fun y p' => pexpr_post x keep p y p') p.
Proof.
  intros I L Hx. unfold pexpr.
  eapply (spec_bind _ _ _ _ (fun y p' => pexpr_post x keep p y p')); [|spec_intro].
  { destruct x as [x|]; cbn [bare optb] in *.
    - spec_step. split_and!; [done| |done]. apply negb_true_iff.
    - eapply spec_mono; [by apply (spec_operand Hh k N Hk)|]. intros y q _ _ _ _ _ _ (? & ? & ?). by split_and!. }
  rewrite <- F, <- X. apply (spec_ploop_tokens _ (fun y p' => wf_expr y = true /\ (bare x keep = true -> is_binary y = false)));
    [assumption|by destruct P as (? & ? & ?)|spec_loop_intro].
  do 2 spec_step.
  assert (Hpost : pexpr_post x keep p a0 q0).
  { destruct P as (_ & _ & Hp). split_and!; [done|done|]. intros E1 E2. specialize (Hp E1 E2). lia. }
  destruct (ptok q0) eqn:Et; try (by apply spec_ret); go; try exact Hpost; try by destruct a1 as [[[? ?] ?] ?].
  match goal with Hp : ptok ?q1 = _Lbrace -> _, Hs : scanner_ ?q1 = scanner_ q0 |- _ =>
    rewrite (ptok_scanner _ _ Hs) in Hp; specialize (Hp Et) end. lia.
Qed.
#[local] Hint Resolve spec_pexpr : spec.

(** ** Unary and binary expressions *)

Lemma spec_reassociate t : forall p,
  pinv p -> wf_expr t = true ->
  spec (reassociate t) (fun r _ => wf_expr r.1 = true /\ optb wf_expr r.2 = true /\
    (is_ChanType t = true -> is_binary r.1 = false)) p.
Proof.
  induction t; intros p I Hw; cbn [reassociate]; try (apply spec_ret; try done; by split_and!).
  apply (spec_bind _ _ _ _ (fun _ _ => True)); [go|spec_intro]. cbn [wf_expr] in Hw.
  go.
Qed.
#[local] Hint Resolve spec_reassociate spec_string_of : spec.

Lemma spec_unaryExpr p :
  pinv p -> (tokens_left p <= N)%nat ->
  spec (unaryExpr k) (fun x p' => expr_post p x p' /\ is_binary x = false) p.
Proof.
  intros I L. unfold unaryExpr. do 2 spec_step.
  assert (Hop : starts_expr p = existsb (tok_eqb (ptok p)) operandTokens -> spec (pexpr k None true)
    (fun x p' => expr_post p x p' /\ is_binary x = false) p).
  { intros Hs. eapply spec_mono; [by apply spec_pexpr|]. intros x q _ _ _ _ _ _ (Hx & Hb & Hp).
    split; [split; [done|by rewrite Hs; apply Hp]|by apply Hb]. }
  destruct (ptok p) eqn:Et; try (apply Hop; unfold starts_expr, ptok in *; by rewrite Et).
  all: try (destruct (existsb (op_eqb (pop p)) unaryOps) eqn:E1;
    [|destruct (op_eqb (pop p) And) eqn:E2;
      [|apply Hop; unfold starts_expr, prefixTokens, ptok, pop in *; rewrite Et; cbn [existsb] in *; by rewrite E1, E2]]).
  all: go.
Qed.

(** The operator of the expression binds at least as much as the next one. *)
Definition top_ok (x : expr) p : Prop :=
  match x with Operation _ op _ (Some _) => op_at_most (op_prec op) p | _ => True end.

Lemma shaped_grow prec x p :
  shaped prec x = true -> top_ok x p -> existsb (tok_eqb (ptok p)) [_Operator; _Star] = true ->
  shaped (pprec p - 1) x = true.
Proof.
  destruct x as [| | | | | | | | | | | |? op l [r|]| | | | | | | | | |]; try done. cbn [shaped top_ok].
  intros Hs Ht Htok. specialize (Ht Htok). fold (pprec p) in Ht. split_post. post.
Qed.

Lemma pprec_op p : pinv p -> existsb (tok_eqb (ptok p)) [_Operator; _Star] = true -> pprec p = op_prec (pop p).
Proof.
  intros I Ht. apply (pi_tok p I). unfold ptok in *. by destruct (tok (scanner_ p)).
Qed.

Lemma spec_binaryExpr x prec p :
  pinv p -> (tokens_left p <= N)%nat -> optb wf_expr x = true -> 0 <= prec ->
  match x with Some x => is_binary x = false | None => True end ->
  spec (binaryExpr k x prec) (fun y p' =>
    wf_expr y = true /\ (x = None -> starts_expr p = true -> (tokens_left p' < tokens_left p)%nat) /\
    shaped prec y = true /\ op_at_most prec p') p.
Proof.
  intros I L Hx Hprec Hb. unfold binaryExpr.
  eapply (spec_bind _ _ _ _ (fun y p' => wf_expr y = true /\
    (x = None -> starts_expr p = true -> (tokens_left p' < tokens_left p)%nat) /\ is_binary y = false)).
  { destruct x as [x|]; [by apply spec_ret|].
    eapply spec_mono; [by apply spec_unaryExpr|]. by intros y q _ _ _ _ _ _ [[? ?] ?]. }
  spec_intro. rewrite <- F, <- X. rename H2 into Hp.
  apply (spec_ploop_tokens _ (fun y p' => wf_expr y = true /\ shaped prec y = true /\ top_ok y p'));
    [assumption| |spec_loop_intro].
  - destruct a as [| | | | | | | | | | | |? op l [r|]| | | | | | | | | |]; done.
  - do 2 spec_step. destruct (existsb _ _) eqn:Eop; cbn [andb].
    2: { apply spec_ret; [assumption|spec_ends..|]. split_and!; try done; [intros E1 E2; specialize (Hp E1 E2); lia|].
         intros E. unfold ptok in *. congruence. }
    destruct (prec <? pprec q0) eqn:Ep.
    2: { apply spec_ret; [assumption|spec_ends..|]. split_and!; try done; [intros E1 E2; specialize (Hp E1 E2); lia|].
         intros _. apply Z.ltb_ge in Ep. done. }
    apply Z.ltb_lt in Ep. pose proof (pprec_op _ I1 Eop) as Eo.
    assert (ptok q0 <> _EOF) by (intros E; rewrite E in Eop; discriminate).
    pose proof (shaped_grow _ _ _ H4 H5 Eop) as Hs.
    do 3 spec_step. eapply spec_bind; [apply (ko_binary k N Hk); [assumption|lia|lia]|spec_intro].
    apply spec_ret; [assumption|spec_ends..|]. cbn [shaped wf_expr optb top_ok]. rewrite <- Eo.
    split; [|flia]. split_and!; try done; post.
Qed.

Lemma spec_expr_ p :
  pinv p -> (tokens_left p <= N)%nat -> spec (expr_ k) (fun x p' => expr_post p x p' /\
    shaped 0 x = true /\ op_at_most 0 p') p.
Proof.
  intros I L. eapply spec_mono; [by apply spec_binaryExpr|]. intros x q _ _ _ _ _ _ (? & Hp & ? & ?).
  by split_and!; [split; [|apply Hp]|..].
Qed.
#[local] Hint Resolve spec_expr_ : spec.

Lemma spec_exprList p :
  pinv p -> (tokens_left p <= N)%nat -> spec (exprList k) (fun x p' => expr_post p x p') p.
Proof.
  intros I L. unfold exprList. go.
  loop (fun (l : list expr) (_ : parser src) => forallb wf_expr l = true /\ 2 <= lenZ l)
    (fun (l : list expr) (_ : parser src) => forallb wf_expr l = true /\ 2 <= lenZ l); go.
Qed.
End Operators.

#[export] Hint Resolve spec_pexpr spec_binaryExpr spec_expr_ spec_exprList spec_string_of : spec.
