(* ===== verification/StmtFacts.v ===== *)
(** * What the productions promise: declarations and statements *)

From S2P Require Import Prelude Utf8 Format Tokens Source Pos Nodes Walk WellFormed Exprs Positions Printer.
From S2P Require Import PrinterFacts Branches BranchFacts Scanner ScannerFacts Parser ParserFacts Grammar.
From S2P Require Import GrammarFacts TypeFacts ExprFacts OperatorFacts.

#[local] Open Scope Z_scope.
#[local] Open Scope go_scope.

Lemma extractName_wf x : forall force n t,
  extractName x force = (Some n, t) -> wf_expr x = true -> wf_name n = true /\ optb wf_expr t = true.
Proof.
  induction x; intros force nm ty; cbn [extractName]; intros E Hw; try discriminate.
  - injection E as <- <-. by split.
  - destruct Y as [y|]; [|discriminate]. cbn in Hw. split_post.
    destruct (op_eqb Op Mul) eqn:EM.
    { destruct x; try discriminate. destruct (force || _); [|discriminate]. injection E as <- <-.
      apply op_eqb_eq in EM as ->. cbn in *. split; [done|]. post. }
    destruct (op_eqb Op Or) eqn:EO; [|discriminate].
    destruct (extractName x _) as [[n'|] [lhs|]] eqn:El; try discriminate. injection E as <- <-.
    destruct (IHx _ _ _ El H) as [Hn Hl]. split; [done|]. post.
  - destruct x; try discriminate. destruct ArgList as [|a [|? ?]]; try discriminate.
    destruct HasDots; [discriminate|]. destruct (force || _); [|discriminate]. injection E as <- <-.
    cbn in *. split_post. split; [done|]. by apply Unparen_wf.
Qed.

Section Decls.
Context {src : Type} `{SourceLaws src} `{cfg : Config}.
Implicit Types p : parser src.
Abbreviation spec m Q p := (spec_to (fnest p) (xnest p) m Q p).
Context (Hh : handled) (k : knot (src := src)) (N : nat) (Hk : kok k N).

(** ** Declarations *)

Abbreviation decl_ok d := (wf_decl d = true).

Lemma spec_importDecl g p :
  pinv p -> (tokens_left p <= N)%nat -> spec (importDecl g) (fun d _ => decl_ok d) p.
Proof.
  intros I L. unfold importDecl. do 3 spec_step.
  eapply (spec_bind _ _ _ _ (fun l _ => optb wf_name l = true)); [destruct (ptok q) eqn:Et; go|spec_intro].
  go.
Qed.

Lemma spec_constDecl g p :
  pinv p -> (tokens_left p <= N)%nat -> spec (constDecl k g) (fun d _ => decl_ok d) p.
Proof.
  intros I L. unfold constDecl. go.
Qed.

Lemma spec_varDecl g p :
  pinv p -> (tokens_left p <= N)%nat -> spec (varDecl k g) (fun d _ => decl_ok d) p.
Proof.
  intros I L. unfold varDecl. go.
Qed.

(** A primary expression that starts with a name. *)
Lemma spec_pexpr_name n p :
  pinv p -> (tokens_left p <= N)%nat -> wf_name n = true ->
  spec (pexpr k (Some (Name n)) false) (fun x _ => wf_expr x = true /\ is_binary x = false) p.
Proof.
  intros I L Hn. eapply spec_mono; [by apply (spec_pexpr Hh k N Hk)|].
  intros x q _ _ _ _ _ _ (? & Hb & _). split; [done|by apply Hb].
Qed.

Lemma spec_typeSpec p :
  pinv p -> (tokens_left p <= N)%nat ->
  spec (typeSpec k) (fun r _ => forallb wf_field r.1.1 = true /\ all_named r.1.1 = true /\
    optb wf_expr r.2 = true) p.
Proof.
  intros I L. unfold typeSpec.
  assert (Hplain : forall tparams q, pinv q -> (tokens_left q <= N)%nat ->
    forallb wf_field tparams = true -> all_named tparams = true ->
    spec (let* alias := gotAssign in let* t := typeOrNil k in ret (tparams, alias, t))
      (fun r _ => forallb wf_field r.1.1 = true /\ all_named r.1.1 = true /\ optb wf_expr r.2 = true) q).
  { intros tparams q Iq Lq H1 H2. go. }
  cbv zeta. spec_step. destruct (tok_eqb (ptok p) _Lbrack) eqn:Eb; tok_tests; [|by apply Hplain].
  do 3 spec_step.
  match goal with |- context [bind (arrayType k ?q0 None) ?m] =>
    assert (Hdef : spec (bind (arrayType k q0 None) m)
      (fun r _ => forallb wf_field r.1.1 = true /\ all_named r.1.1 = true /\ optb wf_expr r.2 = true) q) by go end.
  rewrite <- F, <- X. destruct (ptok q) eqn:Et; try exact Hdef; [|go].
  do 2 spec_step. eapply (spec_bind _ _ _ _ (fun x _ => wf_expr x = true)); [|spec_intro].
  { destruct (negb _); [|go]. do 2 spec_step. spec_step.
    eapply spec_bind; [apply spec_pexpr_name; [assumption|flia|assumption]|spec_intro]. go. }
  do 2 spec_step. destruct (extractName a0 _) as [[pname|] ptype] eqn:Ex; [|go].
  apply extractName_wf in Ex as [Hn Ht]; [|done]. go. 
Qed.

#[local] Hint Resolve spec_typeSpec : spec.

Lemma spec_typeDecl g p :
  pinv p -> (tokens_left p <= N)%nat -> spec (typeDecl k g) (fun d _ => decl_ok d) p.
Proof.
  intros I L. unfold typeDecl. go.
Qed.

Lemma spec_appendGroup l f p :
  pinv p -> (tokens_left p <= N)%nat -> forallb wf_decl l = true ->
  (forall g q, pinv q -> (tokens_left q <= N)%nat -> spec (f g) (fun d _ => decl_ok d) q) ->
  spec (appendGroup l f) (fun l _ => forallb wf_decl l = true) p.
Proof.
  intros I L Hl Hf. unfold appendGroup. spec_step. destruct (tok_eqb (ptok p) _Lparen) eqn:Et; tok_tests.
  - go. listing (fun (l : list decl) (_ : parser src) => forallb wf_decl l = true);
      [eapply spec_bind; [apply Hf; [assumption|flia]|spec_intro]|]; go.
  - eapply spec_bind; [by apply Hf|spec_intro]. go.
Qed.

(** *** Enumerations *)

Lemma enumConsts_wf n l : wf_name n = true -> forallb wf_name l = true -> forallb wf_decl (enumConsts n l) = true.
Proof.
  intros Hn Hl. unfold enumConsts. apply forallb_forall. intros d Hd.
  apply list_elem_of_In, list_elem_of_lookup in Hd as [i Hi]. rewrite list_lookup_imap in Hi.
  destruct (l !! i) as [v|] eqn:Ev; [|done]. injection Hi as <-. cbn. rewrite Hn, andb_true_r.
  apply list_elem_of_lookup_2, list_elem_of_In in Ev. rewrite forallb_forall in Hl. rewrite (Hl v Ev).
  by apply nonempty_ne, fmtInteger_nonempty.
Qed.
#[local] Hint Resolve enumConsts_wf : wf.

Lemma spec_createEnumStringMethod q n l p :
  pinv p -> wf_name n = true -> forallb wf_name l = true ->
  spec (createEnumStringMethod q n l) (fun d _ => decl_ok d) p.
Proof.
  intros I Hn Hl. unfold createEnumStringMethod. go. by clear; induction l.
Qed.
#[local] Hint Resolve spec_createEnumStringMethod : spec.

Lemma spec_enumDeclGroup l p :
  pinv p -> forallb wf_decl l = true -> spec (enumDeclGroup l) (fun l _ => forallb wf_decl l = true) p.
Proof.
  intros I Hl. unfold enumDeclGroup. go. rewrite !forallb_app. post.
Qed.

Lemma spec_declStmt f p :
  pinv p -> (tokens_left p <= N)%nat -> ptok p <> _EOF ->
  (forall g q, pinv q -> (tokens_left q <= N)%nat -> spec (f g) (fun d _ => decl_ok d) q) ->
  spec (declStmt f) (fun s p' => wf_stmt s = true /\ (tokens_left p' < tokens_left p)%nat) p.
Proof.
  intros I L Ht Hf. unfold declStmt. do 2 spec_step.
  eapply spec_bind; [apply spec_appendGroup; [assumption|flia|reflexivity|assumption]|spec_intro]. go.
Qed.

Lemma spec_enumStmt p :
  pinv p -> ptok p <> _EOF ->
  spec enumStmt (fun s p' => wf_stmt s = true /\ (tokens_left p' < tokens_left p)%nat) p.
Proof.
  intros I Ht. unfold enumStmt. do 2 spec_step.
  eapply spec_bind; [by apply spec_enumDeclGroup|spec_intro]. go.
Qed.

(** *** Functions *)

Lemma spec_funcDeclOrNil p :
  pinv p -> (tokens_left p < N)%nat -> spec (funcDeclOrNil k) (fun d _ => decl_ok d) p.
Proof.
  intros I L. unfold funcDeclOrNil. do 3 spec_step.
  all: eapply (spec_bind _ _ _ _ (fun r _ => optb wf_field r = true)); [try go|spec_intro].
  { destruct a0 as [|r [|r' l]]; go. }
  all: cbv zeta; spec_step; eapply (spec_bind _ _ _ _ (fun r _ => wf_name r.1.1 = true /\
    forallb wf_field r.1.2 = true /\ all_named r.1.2 = true /\ wf_functype r.2 = true)); [go|spec_intro; go].
Qed.
End Decls.

#[export] Hint Resolve spec_importDecl spec_constDecl spec_varDecl spec_typeDecl spec_enumDeclGroup
  spec_enumStmt spec_funcDeclOrNil : spec.

Lemma newAssignStmt_wf q op l r :
  wf_expr l = true -> optb wf_expr r = true -> wf_stmt (newAssignStmt q op l r) = true.
Proof. cbn. by intros -> ->. Qed.
#[export] Hint Resolve newAssignStmt_wf : wf.

Section Stmts.
Context {src : Type} `{SourceLaws src} `{cfg : Config}.
Implicit Types p : parser src.
Abbreviation spec m Q p := (spec_to (fnest p) (xnest p) m Q p).
Context (Hh : handled) (k : knot (src := src)) (N : nat) (Hk : kok k N).

(** ** Simple statements *)

Lemma spec_newRangeClause lhs def p :
  pinv p -> (tokens_left p <= N)%nat -> ptok p <> _EOF -> optb wf_expr lhs = true ->
  spec (newRangeClause k lhs def) (fun s p' => wf_stmt s = true /\ simple_stmt s = true /\
    (tokens_left p' < tokens_left p)%nat) p.
Proof. intros I L Ht Hl. unfold newRangeClause. go. Qed.
#[local] Hint Resolve spec_newRangeClause : spec.

Lemma spec_simpleStmt lhs keyword p :
  pinv p -> (tokens_left p <= N)%nat -> optb wf_expr lhs = true ->
  spec (simpleStmt k lhs keyword) (fun s p' => wf_stmt s = true /\ simple_stmt s = true /\
    (lhs = None -> starts_expr p = true -> (tokens_left p' < tokens_left p)%nat)) p.
Proof.
  intros I L Hl. unfold simpleStmt. spec_step.
  destruct (tok_eqb keyword _For && tok_eqb (ptok p) _Range) eqn:Er; tok_tests; [go|].
  eapply (spec_bind _ _ _ _ (fun x p' => wf_expr x = true /\
    (lhs = None -> starts_expr p = true -> (tokens_left p' < tokens_left p)%nat))); [go|spec_intro].
  do 3 spec_step.
  match goal with |- spec_to _ _ _ ?Q _ => set (Q0 := Q) end.
  assert (Hx : spec_to (fnest p) (xnest p) (ret (ExprStmt (expr_pos a) a)) Q0 q) by (unfold Q0; go).
  destruct (negb (is_ListExpr a) && _) eqn:E1.
  { destruct (ptok q) eqn:Et; try exact Hx; unfold Q0; go. }
  destruct (existsb _ _) eqn:E2.
  - assert (ptok q <> _EOF) by (intros E; rewrite E in E2; discriminate).
    do 3 spec_step; [unfold Q0; go|].
    eapply spec_bind; [eapply (spec_exprList Hh k N Hk); [assumption|flia]|spec_intro].
    match goal with |- context [newAssignStmt ?pos ?op a (Some a0)] =>
      assert (Ha : spec_to (fnest p) (xnest p) (ret (newAssignStmt pos op a (Some a0))) Q0 q1) by (unfold Q0; go) end.
    destruct a0; try exact Ha. destruct a; try exact Ha. 
    match goal with |- spec_to _ _ (if ?b then _ else _) _ _ => destruct b end; [|exact Ha]. unfold Q0. go.
  - unfold Q0. do 2 spec_step. destruct a as [| | | | | | | | | | | | | |? [|x l]| | | | | | | |]; go.
  discriminate H1.
Qed.
#[local] Hint Resolve spec_simpleStmt : spec.

Lemma spec_labeledStmtOrNil label p :
  pinv p -> (tokens_left p <= N)%nat -> ptok p = _Colon -> wf_name label = true ->
  spec (labeledStmtOrNil k label) (fun s p' => optb wf_stmt s = true /\
    (tokens_left p' < tokens_left p)%nat) p.
Proof. intros I L Ht Hl. unfold labeledStmtOrNil. go. Qed.

Lemma spec_callStmt p :
  pinv p -> (tokens_left p <= N)%nat -> ptok p = _Go \/ ptok p = _Defer ->
  spec (callStmt k) (fun s p' => wf_stmt s = true /\ (tokens_left p' < tokens_left p)%nat) p.
Proof.
  intros I L Ht. assert (ptok p <> _EOF) by (destruct Ht; congruence). unfold callStmt. go.
  all: first [by destruct Ht as [-> | ->]|apply Unparen_wf; by destruct P0].
Qed.

(** ** Headers *)

Lemma spec_emphasize x p : pinv p -> wf_expr x = true -> spec (emphasize x) (fun _ p' => p' = p) p.
Proof. intros I Hx. unfold emphasize. go. Qed.
#[local] Hint Resolve spec_emphasize : spec.

Lemma spec_header_cond keyword sm s p :
  pinv p -> optb wf_stmt s = true -> optb simple_stmt s = true ->
  spec (header_cond keyword sm s) (fun x _ => optb wf_expr x = true) p.
Proof.
  intros I Hw Hs. unfold header_cond. destruct s as [s|]; [|go]. cbn [optb] in *.
  assert (Hstr : spec (string_of (String_stmt s)) (fun _ p' => p' = p) p)
    by (apply spec_string_of; [done|by apply String_stmt_some]).
  assert (Hdef : spec (let* str := string_of (String_stmt s) in
    syntaxErrorAt (stmt_pos s) ("cannot use " +s+ str +s+ " as value");;; ret (None : option expr))
    (fun x _ => optb wf_expr x = true) p) by go.
  destruct s as [| | | | | |? o l r| | | | | | | | |]; try discriminate; try exact Hdef; [go|].
  destruct o; try exact Hdef. cbn [wf_stmt] in Hw. destruct r as [r|]; go.
Qed.
#[local] Hint Resolve spec_header_cond : spec.

Definition header_ok (init : option stmt) (cond : option expr) (post : option stmt) : bool :=
  optb wf_stmt init && optb simple_stmt init && optb wf_expr cond && optb wf_stmt post && optb simple_stmt post.

Lemma spec_header_rest keyword init p :
  pinv p -> (tokens_left p <= N)%nat -> optb wf_stmt init = true -> optb simple_stmt init = true ->
  spec (header_rest k keyword init) (fun r _ =>
    optb wf_stmt r.1.1.1 = true /\ optb simple_stmt r.1.1.1 = true /\
    optb wf_stmt r.1.2 = true /\ optb simple_stmt r.1.2 = true /\
    optb wf_stmt r.2 = true /\ optb simple_stmt r.2 = true) p.
Proof.
  intros I L Hw Hs. unfold header_rest. spec_step. spec_step; [go|]. 
  spec_step.
  eapply (spec_bind _ _ _ _ (fun _ _ => True)); [go|spec_intro].
  assert (Hopt : forall (b : bool) kw q1, pinv q1 -> (tokens_left q1 <= N)%nat ->
    spec (if b then opt_some (simpleStmt k None kw) else ret None)
      (fun s _ => optb wf_stmt s = true /\ optb simple_stmt s = true) q1) by (intros; destruct b; go).
  destruct (tok_eqb keyword _For).
  - do 2 spec_step. destruct (_ && _); [go|].
    eapply spec_bind; [apply Hopt; [assumption|flia]|spec_intro]. do 2 spec_step.
    eapply (spec_bind _ _ _ _ (fun s _ => optb wf_stmt s = true /\ optb simple_stmt s = true)); [|spec_intro; go].
    destruct (tok_eqb (ptok q1) _Lbrace); cbn [negb]; [go|]. spec_step.
    eapply (spec_bind _ _ _ _ (fun _ _ => True)); [|spec_intro; go].
    destruct a2 as [| | | | | |? o ? ?| | | | | | | | |]; try go. destruct o; go.
  - spec_step. eapply spec_bind; [apply Hopt; [assumption|flia]|spec_intro]. go.
Qed.
#[local] Hint Resolve spec_header_rest : spec.

Lemma spec_header keyword p :
  pinv p -> (tokens_left p <= N)%nat -> ptok p = keyword -> keyword <> _EOF ->
  spec (header k keyword) (fun r p' => header_ok r.1.1 r.1.2 r.2 = true /\
    (tokens_left p' < tokens_left p)%nat) p.
Proof.
  intros I L Ht Hne. unfold header. go. all: unfold header_ok; post.
Qed.
#[local] Hint Resolve spec_header : spec.

(** ** Compound statements *)

Lemma header_ok_and init cond post : header_ok init cond post = true ->
  optb wf_stmt init = true /\ optb simple_stmt init = true /\ optb wf_expr cond = true /\
  optb wf_stmt post = true /\ optb simple_stmt post = true.
Proof. unfold header_ok. intros. by split_post. Qed.

Lemma if_else_ok s : is_IfStmt s = true -> else_ok s = true.
Proof. by destruct s. Qed.
#[local] Hint Resolve if_else_ok : wf.

Ltac header_split :=
  match goal with H : header_ok _ _ _ = true |- _ => apply header_ok_and in H; split_post end.

Lemma spec_forStmt p :
  pinv p -> (tokens_left p <= N)%nat -> ptok p = _For ->
  spec (forStmt k) (fun s p' => wf_stmt s = true /\ (tokens_left p' < tokens_left p)%nat) p.
Proof.
  intros I L Ht. unfold forStmt. do 2 spec_step. header_split. go.
Qed.

Lemma spec_ifStmt p :
  pinv p -> (tokens_left p <= N)%nat -> ptok p = _If ->
  spec (ifStmt k) (fun s p' => (wf_stmt s = true /\ is_IfStmt s = true) /\
    (tokens_left p' < tokens_left p)%nat) p.
Proof.
  intros I L Ht. unfold ifStmt. do 2 spec_step. header_split. go.
  eapply (spec_bind _ _ _ _ (fun e _ => optb wf_stmt e = true /\ optb else_ok e = true)); [|spec_intro; go].
  destruct (ptok q1) eqn:Et; go.
Qed.

Lemma spec_clauseBody p :
  pinv p -> (tokens_left p < N)%nat ->
  spec (clauseBody k) (fun r p' => forallb wf_stmt r.2 = true /\
    (tokens_left p' <= pred (tokens_left p))%nat) p.
Proof. intros I L. unfold clauseBody. go. Qed.
#[local] Hint Resolve spec_forStmt spec_clauseBody : spec.

Lemma spec_caseClause p :
  pinv p -> (tokens_left p < N)%nat -> ptok p <> _EOF ->
  spec (caseClause k) (fun c p' => wf_case c = true /\ (tokens_left p' < tokens_left p)%nat) p.
Proof.
  intros I L Ht. unfold caseClause. do 2 spec_step.
  eapply (spec_bind _ _ _ _ (fun x _ => optb wf_expr x = true)); [destruct (ptok p) eqn:Et; go|spec_intro]. go.
Qed.

Lemma spec_commClause p :
  pinv p -> (tokens_left p < N)%nat -> ptok p <> _EOF ->
  spec (commClause k) (fun c p' => wf_comm c = true /\ (tokens_left p' < tokens_left p)%nat) p.
Proof.
  intros I L Ht. unfold commClause. do 2 spec_step.
  eapply (spec_bind _ _ _ _ (fun x _ => optb wf_stmt x = true /\ optb simple_stmt x = true));
    [destruct (ptok p) eqn:Et; go|spec_intro]. go.
Qed.

Lemma spec_clauses {A} missing (clause : Parser.PM A) (f : A -> bool) p :
  pinv p -> (tokens_left p < N)%nat ->
  (forall q, pinv q -> (tokens_left q < N)%nat -> ptok q <> _EOF ->
    spec clause (fun c p' => f c = true /\ (tokens_left p' < tokens_left q)%nat) q) ->
  spec (clauses missing clause) (fun r _ => forallb f r.1 = true) p.
Proof.
  intros I L Hc. unfold clauses. 
  apply (spec_bind _ _ _ _ (fun _ _ => True)); [go|spec_intro].
  apply (spec_bind _ _ _ _ (fun _ _ => True)); [go|spec_intro].
  loop (fun (l : list A) (_ : parser src) => forallb f l = true)
    (fun (l : list A) (_ : parser src) => forallb f l = true).
  - go.
  - go.
Qed.

Lemma spec_switchStmt p :
  pinv p -> (tokens_left p <= N)%nat -> ptok p = _Switch ->
  spec (switchStmt k) (fun s p' => wf_stmt s = true /\ (tokens_left p' < tokens_left p)%nat) p.
Proof.
  intros I L Ht. unfold switchStmt. do 2 spec_step. header_split.
  eapply spec_bind; [eapply (spec_clauses _ _ wf_case); [assumption|flia|apply spec_caseClause]|spec_intro]. go.
Qed.

Lemma spec_selectStmt p :
  pinv p -> (tokens_left p <= N)%nat -> ptok p = _Select ->
  spec (selectStmt k) (fun s p' => wf_stmt s = true /\ (tokens_left p' < tokens_left p)%nat) p.
Proof.
  intros I L Ht. unfold selectStmt. do 2 spec_step.
  eapply spec_bind; [eapply (spec_clauses _ _ wf_comm); [assumption|tok_lia|apply spec_commClause]|spec_intro]. go.
Qed.

Lemma spec_branchStmt p :
  pinv p -> ptok p = _Break \/ ptok p = _Continue ->
  spec branchStmt (fun s p' => wf_stmt s = true /\ (tokens_left p' < tokens_left p)%nat) p.
Proof.
  intros I Ht. assert (ptok p <> _EOF) by (destruct Ht; congruence). unfold branchStmt. go.
  all: by destruct Ht as [-> | ->].
Qed.
#[local] Hint Resolve spec_ifStmt spec_switchStmt spec_selectStmt spec_branchStmt spec_callStmt
  spec_labeledStmtOrNil : spec.

(** ** Statements *)

(** A statement uses up a token or is an empty one at a semicolon. *)
Definition stmt_post p (s : option stmt) p' : Prop :=
  optb wf_stmt s = true /\
  (is_some s = true -> (tokens_left p' < tokens_left p)%nat \/ ptok p' = _Semi).

Lemma stmt_some p s p' : wf_stmt s = true -> (tokens_left p' < tokens_left p)%nat -> stmt_post p (Some s) p'.
Proof. intros Hw Hl. split; [done|]. by left. Qed.

Lemma spec_simple_some p :
  pinv p -> (tokens_left p <= N)%nat -> starts_expr p = true ->
  spec (opt_some (simpleStmt k None _None)) (fun s p' => stmt_post p s p') p.
Proof.
  intros I L Hs. unfold opt_some. spec_step. apply spec_ret; [assumption|spec_ends..|]. apply stmt_some; post.
Qed.

Lemma stmtOps_prefix o : existsb (op_eqb o) stmtOps = true -> existsb (op_eqb o) prefixTokens = true.
Proof. by destruct o. Qed.

#[local] Hint Extern 1 (_ \/ _) => solve [left; assumption|right; assumption] : spec.

Lemma spec_otherStmt p :
  pinv p -> (tokens_left p <= N)%nat -> spec (otherStmt k) (fun s p' => stmt_post p s p') p.
Proof.
  intros I L. unfold otherStmt. do 2 spec_step.
  assert (Hdef : spec (ret None) (fun s p' => stmt_post p s p') p) by by apply spec_ret.
  destruct (ptok p) eqn:Et; try exact Hdef; try (apply spec_simple_some; [done|done|]; unfold starts_expr, ptok in *; by rewrite Et); try (go; apply stmt_some; post; fail).
  all: try (spec_step; destruct (existsb _ _) eqn:Eo; [|exact Hdef]; apply spec_simple_some; [done|done|];
    unfold starts_expr, ptok, pop in *; rewrite Et; by apply stmtOps_prefix).
  apply spec_ret; try done. split; [done|by right].
Qed.

Lemma spec_nameStmt p :
  pinv p -> (tokens_left p <= N)%nat -> ptok p = _Name ->
  spec (let* lhs := exprList k in
    let* colon := isTok _Colon in
    match lhs, colon with
    | Name label, true => labeledStmtOrNil k label
    | _, _ => opt_some (simpleStmt k (Some lhs) _None)
    end) (fun s p' => stmt_post p s p') p.
Proof.
  intros I L Ht. assert (Hs : starts_expr p = true) by (unfold starts_expr, ptok in *; by rewrite Ht).
  eapply spec_bind; [by eapply (spec_exprList Hh k N Hk)|spec_intro]. spec_step.
  assert (Hdef : spec_to (fnest p) (xnest p) (opt_some (simpleStmt k (Some a) _None)) (fun s p' => stmt_post p s p') q)
    by (go; apply stmt_some; post).
  destruct a; try exact Hdef. destruct (tok_eqb (ptok q) _Colon) eqn:Ec; [|exact Hdef]. tok_tests.
  go. split; [assumption|]. left. flia.
Qed.

Lemma spec_stmtOrNil p :
  pinv p -> (tokens_left p <= N)%nat -> spec (stmtOrNil k) (fun s p' => stmt_post p s p') p.
Proof.
  intros I L. unfold stmtOrNil. spec_step.
  assert (Hdef : spec (clearPragma;;; otherStmt k) (fun s p' => stmt_post p s p') p).
  { spec_step. pose proof (tokens_left_scanner _ _ P) as El.
    eapply spec_tail; [spec_ends..|by apply spec_otherStmt; [|flia]|].
    intros s q1 _ _ _ _ _ _ [Hw Hp]. split; [done|]. by rewrite <- El. }
  assert (Hdecl : forall f, ptok p <> _EOF ->
    (forall g q, pinv q -> (tokens_left q <= N)%nat -> spec (f g) (fun d _ => wf_decl d = true) q) ->
    spec (opt_some (declStmt f)) (fun s p' => stmt_post p s p') p).
  { intros f Ht Hf. spec_step. eapply spec_bind; [by eapply spec_declStmt|spec_intro]. go. by apply stmt_some. }
  destruct (ptok p) eqn:Et; try exact Hdef; try (apply Hdecl; [discriminate|]; intros; eauto 2 with spec; fail).
  - spec_step. pose proof (tokens_left_scanner _ _ P) as El. pose proof (ptok_scanner _ _ P) as Ep.
    eapply spec_tail; [spec_ends..|apply spec_nameStmt; [assumption|flia|congruence]|].
    intros s q1 _ _ _ _ _ _ [Hw Hp]. split; [done|]. by rewrite <- El.
  - go. by apply stmt_some.
Qed.
End Stmts.

#[export] Hint Resolve spec_declStmt spec_stmtOrNil spec_ifStmt : spec.
