(* ===== verification/FileFacts.v ===== *)
(** * What [Parse] promises

    The induction over the nesting levels, and the parse of a file: it returns
    on every input, with a well-formed file. *)

From S2P Require Import Prelude Utf8 Format Tokens Source Stream Pos Nodes Walk WellFormed Exprs Positions.
From S2P Require Import Printer PrinterFacts Branches BranchFacts Scanner ScannerFacts Parser ParserFacts.
From S2P Require Import Grammar GrammarFacts TypeFacts ExprFacts OperatorFacts StmtFacts.
From stdpp Require Import gmap.

#[local] Open Scope Z_scope.
#[local] Open Scope go_scope.

Section File.
Context {src : Type} `{SourceLaws src} `{cfg : Config}.
Implicit Types p : parser src.
Abbreviation spec m Q p := (spec_to (fnest p) (xnest p) m Q p).
Context (Hh : handled).

(** ** The nesting levels *)

Lemma tie_ok n : kok (tie (src := src) n) n.
Proof.
  induction n as [|n IH]; [split; intros; lia|]. split; cbn [tie k_unaryExpr k_binaryExpr k_typeOrNil k_complitexpr k_ifStmt k_stmtOrNil].
  - intros p I L. apply (spec_unaryExpr Hh _ n IH); [done|lia].
  - intros p prec I L Hp. eapply spec_mono; [by apply (spec_binaryExpr Hh _ n IH); [|lia|..]|].
    intros x q _ _ _ _ _ _ (? & Hl & ? & ?). by split_and!; [split; [|apply Hl]|..].
  - intros p I L. eapply spec_mono; [apply (spec_typeOrNil _ n IH); [done|lia]|].
    by intros t q _ _ _ _ _ _ (? & ? & _).
  - intros p I L. eapply spec_mono; [apply (spec_complitexpr _ n IH); [done|lia]|].
    by intros t q _ _ _ _ _ _ (? & _).
  - intros p I L Ht. eapply spec_mono; [apply (spec_ifStmt Hh _ n IH); [done|lia|done]|].
    by intros s q _ _ _ _ _ _ (? & _).
  - intros p I L. apply (spec_stmtOrNil Hh _ n IH); [done|lia].
Qed.

Context (k : knot (src := src)) (N : nat) (Hk : kok k N).

(** ** The top level *)

Definition top_post p (r : option (list decl * list stmt)) p' : Prop :=
  match r with Some (d, s) => forallb wf_decl d = true /\ forallb wf_stmt s = true | None => True end /\
  ((tokens_left p' < tokens_left p)%nat \/
   is_some r = true /\ (ptok p' = _Semi \/ existsb (tok_eqb (ptok p)) topFollow = false)).

(** At the top level [advance] leaves a token behind unless it is in the list. *)
Lemma advance_top t p p' :
  fnest p = 0 -> existsb (tok_eqb (ptok p)) (_EOF :: topFollow) = false -> (tokens_left p <= t)%nat ->
  (tokens_left p' < tokens_left p)%nat \/
  (scanner_ p' = scanner_ p /\ stops_at (0 <? fnest p) topFollow (ptok p) = true) ->
  (tokens_left p' < t)%nat.
Proof.
  intros Hn Ht L [?|[_ Hst]]; [lia|]. exfalso. rewrite Hn in Hst. unfold stops_at in Hst. cbn [topFollow] in Hst.
  cbn [existsb] in Ht. apply orb_false_iff in Ht as [Ht1 Ht2]. rewrite Ht1 in Hst. cbn [orb] in Hst.
  change (0 <? 0) with false in Hst. cbn [andb orb existsb topFollow] in *. congruence.
Qed.

Lemma spec_topLevel decls stmts p :
  pinv p -> (tokens_left p <= N)%nat -> fnest p = 0 -> ptok p <> _EOF ->
  forallb wf_decl decls = true -> forallb wf_stmt stmts = true ->
  spec (topLevel k decls stmts) (fun r p' => top_post p r p') p.
Proof.
  intros I L Hn Ht Hd Hs. unfold topLevel. cbv zeta. spec_step.
  assert (Hfunc : spec (next;;; let* d := funcDeclOrNil k in ret (Some (decls ++ [d], stmts)))
    (fun r p' => top_post p r p') p).
  { go. split; [|left; flia]. post. }
  assert (Hgroup : forall f, (forall g q, pinv q -> (tokens_left q <= N)%nat ->
      spec (f g) (fun d _ => wf_decl d = true) q) ->
    spec (next;;; let* l := appendGroup decls f in ret (Some (l, stmts))) (fun r p' => top_post p r p') p).
  { intros f Hf. spec_step.
    eapply spec_bind; [eapply (spec_appendGroup N); [assumption|flia|assumption|exact Hf]|spec_intro].
    go. split; [done|left; flia]. }
  assert (Hstmt : existsb (tok_eqb (ptok p)) topFollow = false ->
    spec (let* s := stmtOrNil k in
      ret (Some (decls, match s with Some s => stmts ++ [s] | None => stmts end))) (fun r p' => top_post p r p') p).
  { intros Hf. eapply spec_bind; [by eapply spec_stmtOrNil|spec_intro]. destruct P as [Hw _].
    apply spec_ret; [assumption|spec_ends..|]. split; [|right; split; [done|by right]]. split; [done|].
    destruct a as [s|]; [|done]. post. }
  destruct (ptok p) eqn:Et; try (by apply Hstmt);
    try (apply Hgroup; intros; eauto 2 with spec; fail); try exact Hfunc.
  - spec_step. destruct (bool_decide _); [exact Hfunc|by apply Hstmt].
  - destruct (match rev decls with [] => false | d :: _ => isEmptyFuncDecl d end); [|by apply Hstmt].
    do 2 spec_step. apply spec_ret; [assumption|spec_ends..|]. split; [done|]. left.
    eapply advance_top; [..|eassumption]; [congruence|rewrite (ptok_scanner _ _ P); by rewrite Et|].
    pose proof (tokens_left_scanner _ _ P). flia.
  - go. split; [done|left; flia].
Qed.

Lemma spec_fileRound s p :
  pinv p -> (tokens_left p <= N)%nat -> fnest p = 0 ->
  forallb wf_decl (fs_decls s) = true -> forallb wf_stmt (fs_stmts s) = true ->
  spec (fileRound k s) (fun r p' =>
    match r with
    | inl s' => (forallb wf_decl (fs_decls s') = true /\ forallb wf_stmt (fs_stmts s') = true) /\
        (tokens_left p' < tokens_left p)%nat
    | inr s' => forallb wf_decl (fs_decls s') = true /\ forallb wf_stmt (fs_stmts s') = true
    end) p.
Proof.
  intros I L Hn Hd Hs. unfold fileRound. spec_step. destruct (tok_eqb (ptok p) _EOF) eqn:Et; tok_tests; [go|].
  eapply (spec_bind _ _ _ _ (fun _ p' => scanner_ p' = scanner_ p)); [go|spec_intro].
  pose proof (ptok_scanner _ _ P) as Ep. pose proof (tokens_left_scanner _ _ P) as El.
  eapply spec_bind; [apply spec_topLevel; [assumption|flia|congruence..]|spec_intro].
  destruct P0 as [Hw Hp]. destruct a as [[decls stmts]|].
  2: { destruct Hp as [Hp|[? _]]; [|done]. go. }
  do 2 spec_step. rename P0 into P1. pose proof (ptok_scanner _ _ P1) as Ep1. pose proof (tokens_left_scanner _ _ P1) as El1.
  destruct (tok_eqb (ptok q1) _EOF) eqn:Ee; cbn [negb]; tok_tests.
  - go. apply tokens_left_EOF in Ee. pose proof (tokens_left_pos p _ eq_refl Et). flia.
  - assert (Htop : (tokens_left q1 < tokens_left q)%nat \/ ptok q1 = _Semi \/
      existsb (tok_eqb (ptok q1)) (_EOF :: topFollow) = false).
    { destruct Hp as [?|[_ [?|Hf]]]; [left; flia|right; left; congruence|].
      destruct C0 as [?|Es]; [left; flia|]. right; right. cbn [existsb]. apply orb_false_iff.
      split; [by apply tok_eqb_neq|]. by rewrite Ep1, (ptok_scanner _ _ Es). }
    go. destruct Htop as [?|[?|Htop]]; [flia|congruence|].
    eapply advance_top; [..|eassumption]; [congruence|by rewrite (ptok_scanner _ _ P0)|].
    pose proof (tokens_left_scanner _ _ P0). flia.
Qed.

Lemma implicitMain_wf q pkg decls stmts :
  forallb wf_decl decls = true -> forallb wf_stmt stmts = true ->
  forallb wf_decl (implicitMain q pkg decls stmts).1 = true /\
  forallb wf_stmt (implicitMain q pkg decls stmts).2 = true.
Proof.
  intros Hd Hs. unfold implicitMain. case_match; [|done]. cbn [fst snd]. split; [|done].
  rewrite forallb_snoc, Hd. cbn. by rewrite Hs.
Qed.

(** The file; without one, the parser has recorded an error. *)
Lemma spec_fileOrNil p :
  pinv p -> (tokens_left p <= N)%nat -> fnest p = 0 ->
  spec (fileOrNil k) (fun f p' =>
    match f with Some f => wf_file f = true | None => is_some (first p') = true end) p.
Proof.
  intros I L Hn. unfold fileOrNil. do 2 spec_step.
  apply spec_nest; [assumption|reflexivity..|]. cbv beta. intros q I1 L1 C1 F1 X1 N1. cbn in F1, X1.
  chain F1. chain X1. spec_step.
  eapply (spec_bind _ _ _ _ (fun r _ => wf_name r.2 = true)); [go|spec_intro].
  spec_step. destruct (is_some (first q0)) eqn:Ef; [apply spec_ret; [assumption|spec_ends..|done]|].
  eapply spec_bind.
  { apply (spec_ploop_tokens _ (fun s _ => forallb wf_decl (fs_decls s) = true /\ forallb wf_stmt (fs_stmts s) = true)
      (fun s _ => forallb wf_decl (fs_decls s) = true /\ forallb wf_stmt (fs_stmts s) = true)); [assumption|done|].
    intros s p1 I2 L2 C2 F2 X2 N2 [Hd Hs]. apply spec_fileRound; [done|flia|congruence|done|done]. }
  spec_intro. do 2 spec_step.
  pose proof (implicitMain_wf (MakePos (base p) (line (scanner_ p)) (col (scanner_ p))) a0 _ _ H1 H2) as [Hd Hs].
  destruct (implicitMain _ _ _ _) as [decls stmts]. cbn [fst snd] in *.
  apply spec_ret; [assumption|spec_ends..|]. unfold wf_file. cbn [PkgName DeclList TopLevelStmts].
  by rewrite P, Hd, Hs.
Qed.
End File.

(** ** Parse *)

Section Parse.
Context {src : Type} `{SourceLaws src} `{cfg : Config}.
Implicit Types r : src.

Lemma init_pinv r : src_ok r -> Z.of_nat (src_left r) < 2 ^ 62 -> pinv (init r).
Proof. intros Hr Hl. split; cbn; try done. by intros [?|?]. Qed.

(** The parse of a file from its start, in the state monad. *)
Lemma Parse_spec r (Hh : handled) :
  src_ok r -> Z.of_nat (src_left r) < 2 ^ 62 ->
  spec_to 0 0 (next;;; tied fileOrNil) (fun f p' =>
    match f with Some f => wf_file f = true | None => is_some (first p') = true end) (init r).
Proof.
  intros Hr Hl. pose proof (init_pinv r Hr Hl) as I.
  apply (spec_bind 0 0 next _ (fun _ _ => True)).
  - eapply spec_mono; [by apply spec_next|done].
  - intros [] p I1 _ _ F X _ _. unfold tied. apply spec_gets.
    assert (F0 : fnest p = 0) by exact F. assert (X0 : xnest p = 0) by exact X.
    rewrite <- F0 at 1. rewrite <- X0.
    eapply spec_fileOrNil; [exact Hh|apply (tie_ok Hh)|exact I1|lia|exact F0].
Qed.

(** The result of [Parse], or its panic with the first error. *)
Lemma Parse_result r (Hh : handled) :
  src_ok r -> Z.of_nat (src_left r) < 2 ^ 62 ->
  (exists f p' t, Parse r = Ok (f, first p', t) /\
     match f with Some f => wf_file f = true | None => is_some (first p') = true end /\
     (branches_off -> recorded (init r) p' t)) \/
  (exists e, has_errh = false /\ Parse r = Ok (None, Some e, [])).
Proof.
  intros Hr Hl. pose proof (Parse_spec r Hh Hr Hl) as Hs. unfold spec_to, wp in Hs.
  assert (Hp : (next;;; let* f := tied fileOrNil in let* e := gets first in ret (f, e)) (init r) =
    bind (next;;; tied fileOrNil) (fun f => let* e := gets first in ret (f, e)) (init r))
    by (symmetry; apply bind_assoc).
  unfold Parse. rewrite Hp. clear Hp.
  destruct ((next;;; tied fileOrNil) (init r)) as [[[f p'] t]|v|] eqn:E; [|right|done].
  - left. exists f, p', t. destruct Hs as [(_ & _ & _ & _ & _ & Hrec) Hf]. split_and!; [|done|done].
    rewrite (bind_Ok _ _ _ _ _ _ E), bind_gets. cbn. by rewrite app_nil_r.
  - destruct Hs as [He [e ->]]. exists e. split; [done|]. unfold bind at 1. by rewrite E.
Qed.

(** C1: with an error handler, or with [checkBranches] off, [Parse] returns on
    every input (of less than 2^62 bytes), without a run-time panic and without
    exhausting a bound: with a well-formed file or with an error.  Without a
    handler [checkBranches] would call a nil function. *)
Theorem Parse_total r :
  handled -> src_ok r -> Z.of_nat (src_left r) < 2 ^ 62 ->
  exists f e t, Parse r = Ok (f, e, t) /\
    match f with Some f => wf_file f = true | None => is_some e = true end.
Proof.
  intros Hh Hr Hl. destruct (Parse_result r Hh Hr Hl) as [(f & p' & t & E & Hf & _)|(e & _ & E)].
  - by exists f, (first p'), t.
  - by exists None, (Some e), [].
Qed.

(** C29: with an error handler the error that [Parse] returns is the first one
    that the handler was given; [checkBranches], whose errors are the
    exception, is off. *)
Theorem Parse_first_error r f e t :
  branches_off -> src_ok r -> Z.of_nat (src_left r) < 2 ^ 62 -> has_errh = true ->
  Parse r = Ok (f, e, t) -> e = head (reported t).
Proof.
  intros Hoff Hr Hl He E.
  destruct (Parse_result r (or_intror Hoff) Hr Hl) as [(f' & p' & t' & E' & _ & Hrec)|(e' & He' & _)]; [|congruence].
  rewrite E in E'. injection E' as -> -> ->. by destruct (Hrec Hoff).
Qed.

End Parse.

(** ** Instances *)

(** A parser with an error handler, if [errh] is set, and without a pragma
    handler. *)
Definition config (errh : bool) (mode : Z) : Config := {|
  file := None;
  has_errh := errh;
  pmode := mode;
  pragh := None;
  map_range := fun m => (map_to_list m).*2
|}.

(** A reader that delivers a text at once. *)
Definition text (s : list byte) : source := Source.init [Read s None].

Lemma text_ok s : Forall is_byte s -> src_ok (text s).
Proof. intros Hs. apply init_inv. by repeat constructor. Qed.

(** [func f() { goto L; }; var] *)
Definition broken : source := text (bytes_of_string "package p; func f() { goto L; }; var").

Lemma broken_ok : src_ok broken /\ Z.of_nat (src_left broken) < 2 ^ 62.
Proof. split; [by apply text_ok, is_byte_dec|vm_compute; reflexivity]. Qed.

Lemma Parse_total_witness :
  exists f e t, Parse (cfg := config true CheckBranches) broken = Ok (f, e, t) /\
    match f with Some f => wf_file f = true | None => is_some e = true end.
Proof. apply (Parse_total (cfg := config true CheckBranches) broken); [by left|apply broken_ok..]. Defined.

Lemma Parse_first_error_witness :
  match Parse (cfg := config true 0) broken with
  | Ok (f, e, t) => e = head (reported t) /\ is_some e = true
  | _ => False
  end.
Proof.
  destruct (Parse (cfg := config true 0) broken) as [[[f e] t]|v|] eqn:E;
    [|exfalso; vm_compute in E; discriminate..].
  split; [apply (Parse_first_error (cfg := config true 0) broken f e t); [done|apply broken_ok..|done|exact E]|].
  vm_compute in E. by injection E as _ <- _.
Defined.
