(* ===== verification/Precedence.v ===== *)
(** * The precedences of the operators

    [binaryExpr] returns a tree in which the operators stand as their
    precedences want, and it is the only such tree with its operands and
    operators in their order. *)

From S2P Require Import Prelude Tokens Source Stream Pos Nodes WellFormed Scanner ScannerFacts Parser.
From S2P Require Import ParserFacts Grammar GrammarFacts TypeFacts ExprFacts OperatorFacts FileFacts.

#[local] Open Scope Z_scope.
#[local] Open Scope go_scope.

(** ** The tree of a sequence of operands and operators *)

(** The operands and operators of an expression from left to right. *)
Fixpoint flatten (x : expr) : list (expr + (Pos * Operator)) :=
  match x with
  | Operation p op l (Some r) => flatten l ++ inr (p, op) :: flatten r
  | x => [inl x]
  end.

Definition operators (l : list (expr + (Pos * Operator))) : list Operator :=
  flat_map (fun t => match t with inl _ => [] | inr (_, op) => [op] end) l.

Lemma flatten_leaf x : is_binary x = false -> flatten x = [inl x].
Proof. by destruct x as [| | | | | | | | | | | |? ? ? [?|]| | | | | | | | | |]. Qed.

(** Induction over the binary operations. *)
Lemma binary_ind (P : expr -> Prop) :
  (forall x, is_binary x = false -> P x) ->
  (forall p op l r, P l -> P r -> P (Operation p op l (Some r))) -> forall x, P x.
Proof.
  intros Hleaf Hbin. fix IH 1. intros [| | | | | | | | | | | |p op l [r|]| | | | | | | | | |];
    try (by apply Hleaf). apply Hbin; apply IH.
Qed.

Lemma operators_app l1 l2 : operators (l1 ++ l2) = operators l1 ++ operators l2.
Proof. apply flat_map_app. Qed.

Lemma shaped_operators x : forall prec, shaped prec x = true ->
  Forall (fun op => prec < op_prec op) (operators (flatten x)).
Proof.
  induction x as [x Hx|p op l r IHl IHr] using binary_ind; intros prec Hs.
  - rewrite (flatten_leaf x Hx). constructor.
  - cbn [shaped flatten] in *. apply andb_true_iff in Hs as [Hs Hr]. apply andb_true_iff in Hs as [Hp Hl].
    apply Z.ltb_lt in Hp. rewrite operators_app. apply Forall_app. split.
    + eapply List.Forall_impl; [|exact (IHl _ Hl)]. cbn. lia.
    + constructor; [done|]. eapply List.Forall_impl; [|exact (IHr _ Hr)]. cbn. lia.
Qed.

(** The operator of the tree is the last one of those that bind the least. *)
Lemma root_position p op l r p' op' l' r' :
  shaped (op_prec op - 1) l = true -> shaped (op_prec op') r' = true ->
  flatten l ++ inr (p, op) :: flatten r = flatten l' ++ inr (p', op') :: flatten r' ->
  (length (flatten l') <= length (flatten l))%nat ->
  flatten l = flatten l' /\ p = p' /\ op = op' /\ flatten r = flatten r'.
Proof.
  intros Hl Hr E Hle. apply app_eq_inv in E as [(k & El & Er)|(k & El & Er)].
  - destruct k as [|t k].
    + rewrite app_nil_r in El. injection Er as -> -> Er. by rewrite El.
    + exfalso. injection Er as <- Er. pose proof (shaped_operators _ _ Hl) as Fl. pose proof (shaped_operators _ _ Hr) as Fr.
      rewrite El, operators_app in Fl. rewrite Er, operators_app in Fr.
      apply Forall_app in Fl as [_ Fl]. apply Forall_app in Fr as [_ Fr].
      apply List.Forall_inv in Fl, Fr. lia.
  - destruct k as [|t k]; [|rewrite El, length_app in Hle; cbn in Hle; lia].
    rewrite app_nil_r in El. injection Er as -> -> Er. by rewrite El.
Qed.

Lemma shaped_unique x : forall prec prec' y,
  shaped prec x = true -> shaped prec' y = true -> flatten x = flatten y -> x = y.
Proof.
  assert (Hlen : forall p op l r, (3 <= length (flatten (Operation p op l (Some r))))%nat).
  { intros p op l r. cbn [flatten]. rewrite length_app. cbn [length].
    assert (forall x, (1 <= length (flatten x))%nat).
    { intros z. destruct z as [z Hz|? ? ? ?] using binary_ind; [by rewrite (flatten_leaf z Hz)|].
      cbn [flatten]. rewrite length_app. cbn [length]. lia. }
    pose proof (H l). pose proof (H r). lia. }
  induction x as [x Hx|p op l r IHl IHr] using binary_ind; intros prec prec' y Hs Hs' E.
  - rewrite (flatten_leaf x Hx) in E. destruct y as [y Hy|q o a b _ _] using binary_ind.
    + rewrite (flatten_leaf y Hy) in E. congruence.
    + pose proof (Hlen q o a b) as Hl. rewrite <- E in Hl. cbn in Hl. lia.
  - destruct y as [y Hy|q o a b _ _] using binary_ind.
    { rewrite (flatten_leaf y Hy) in E. pose proof (Hlen p op l r) as Hl. rewrite E in Hl. cbn in Hl. lia. }
    cbn [shaped] in Hs, Hs'. apply andb_true_iff in Hs as [Hs Hr], Hs' as [Hs' Hr'].
    apply andb_true_iff in Hs as [_ Hl], Hs' as [_ Hl']. cbn [flatten] in E.
    assert (flatten l = flatten a /\ p = q /\ op = o /\ flatten r = flatten b) as (El & -> & -> & Er).
    { destruct (Nat.le_ge_cases (length (flatten a)) (length (flatten l))) as [Hle|Hle].
      - by apply root_position.
      - symmetry in E. destruct (root_position _ _ _ _ _ _ _ _ Hl' Hr E Hle) as (? & ? & ? & ?). done. }
    by rewrite (IHl _ _ _ Hl Hl' El), (IHr _ _ _ Hr Hr' Er).
Qed.

Definition operand_ (s : string) : expr := Name (mkName noPos s).
(** The tree of a + b * c. *)
Definition sum_of_product : expr :=
  Operation noPos Add (operand_ "a") (Some (Operation noPos Mul (operand_ "b") (Some (operand_ "c")))).

Example sum_of_product_shape : shaped 0 sum_of_product = true.
Proof. reflexivity. Qed.

(** The other tree has not the shape. *)
Example product_of_sum :
  shaped 0 (Operation noPos Mul (Operation noPos Add (operand_ "a") (Some (operand_ "b"))) (Some (operand_ "c"))) = false.
Proof. reflexivity. Qed.

(** ** What binaryExpr returns *)

Section Parser.
Context {src : Type} `{SourceLaws src} `{cfg : Config}.
Implicit Types p : parser src.

(** What [binaryExpr] does: without an error handler it may stop at an error. *)
Lemma binaryExpr_result p prec : handled -> pinv p -> 0 <= prec ->
  match tied (fun k => binaryExpr k None prec) p with
  | Ok (x, p', t) => (wf_expr x = true /\ shaped prec x = true /\ op_at_most prec p') /\ fnest p' = fnest p /\ xnest p' = xnest p
  | Panic v => pallowed v
  | NoFuel => False
  end.
Proof.
  intros Hh I Hp. unfold tied. rewrite bind_gets.
  pose proof (spec_binaryExpr Hh _ _ (tie_ok Hh (tokens_left p)) None prec p I) as Hs.
  unfold spec_to, wp in Hs. specialize (Hs (Nat.le_refl _) eq_refl Hp Logic.I).
  destruct (binaryExpr _ None prec p) as [[[x p'] t]|v|]; [|done..].
  by destruct Hs as [(_ & _ & ? & ? & _) (? & _ & ? & ?)].
Qed.

(** C3: from every state of the parser [binaryExpr] returns a well-formed tree
    in which the operators stand as their precedences want and bind more than
    [prec]; it stops before a token that is no binary operator or one that
    binds no more than [prec]; the nesting levels are restored. *)
Theorem binaryExpr_precedence p prec :
  handled -> has_errh = true -> pinv p -> 0 <= prec ->
  exists x p' t, tied (fun k => binaryExpr k None prec) p = Ok (x, p', t) /\
    wf_expr x = true /\ shaped prec x = true /\ op_at_most prec p' /\
    fnest p' = fnest p /\ xnest p' = xnest p.
Proof.
  intros Hh He I Hp. pose proof (binaryExpr_result p prec Hh I Hp) as Hs.
  destruct (tied _ p) as [[[x p'] t]|v|]; [|destruct Hs as [? _]; congruence|done].
  destruct Hs as ((? & ? & ?) & ? & ?). by exists x, p', t.
Qed.

(** C31: where [binaryExpr] returns a tree, it is the only one with its operands
    and operators, in their order, in which the operators stand as their
    precedences want, left-associative among equals. *)
Theorem binaryExpr_only_tree p prec x p' t y prec' :
  handled -> pinv p -> 0 <= prec ->
  tied (fun k => binaryExpr k None prec) p = Ok (x, p', t) ->
  shaped prec' y = true -> flatten y = flatten x -> y = x.
Proof.
  intros Hh I Hp E Hy Hf. pose proof (binaryExpr_result p prec Hh I Hp) as Hs. rewrite E in Hs.
  destruct Hs as ((_ & Hx & _) & _). by apply (shaped_unique y prec' prec x).
Qed.

(** The state after the first token. *)
Lemma first_token (r : src) : has_errh = true -> src_ok r -> Z.of_nat (src_left r) < 2 ^ 62 ->
  match Parser.next (Parser.init r) with Ok (_, p, _) => pinv p | _ => False end.
Proof.
  intros He Hr Hl. pose proof (spec_next _ (init_pinv r Hr Hl)) as Hn. specialize (Hn ltac:(discriminate)).
  unfold spec_to, wp in Hn. destruct (Parser.next (Parser.init r)) as [[[u p] t]|v|]; [|destruct Hn; congruence|done].
  by destruct Hn as [[I _] _].
Qed.
End Parser.

#[local] Existing Instance buffered_source.
#[local] Existing Instance buffered_laws.

(** The parser at the start of [a + b*c]. *)
Definition at_expr : source := text (bytes_of_string "a + b*c").
Definition started : res pval (unit * parser source * list event) :=
  Parser.next (cfg := config true 0) (Parser.init (cfg := config true 0) at_expr).

Lemma started_ok :
  match started with Ok (_, p, _) => pinv (cfg := config true 0) p | _ => False end.
Proof.
  unfold started. apply (first_token (cfg := config true 0) at_expr).
  - reflexivity.
  - by apply text_ok, is_byte_dec.
  - vm_compute. reflexivity.
Qed.

Lemma binaryExpr_precedence_witness :
  match started with
  | Ok (_, p, _) =>
      pinv (cfg := config true 0) p /\
      exists x p' t, tied (cfg := config true 0) (fun k => binaryExpr (cfg := config true 0) k None 0) p = Ok (x, p', t) /\
        wf_expr x = true /\ shaped 0 x = true /\ op_at_most 0 p' /\
        fnest p' = fnest p /\ xnest p' = xnest p
  | _ => False
  end.
Proof.
  pose proof started_ok as Hs. destruct started as [[[u p] t]|v|]; [|contradiction..].
  split; [exact Hs|].
  refine (binaryExpr_precedence (cfg := config true 0) p 0 (or_introl eq_refl) eq_refl Hs _). discriminate.
Defined.

Lemma binaryExpr_only_tree_witness :
  match started with
  | Ok (_, p, _) =>
      pinv (cfg := config true 0) p /\
      match tied (cfg := config true 0) (fun k => binaryExpr (cfg := config true 0) k None 0) p with
      | Ok (x, _, _) => forall y, shaped 0 y = true -> flatten y = flatten x -> y = x
      | _ => False
      end
  | _ => False
  end.
Proof.
  pose proof started_ok as Hs. destruct started as [[[u p] t]|v|]; [|contradiction..].
  split; [exact Hs|]. pose proof (binaryExpr_result (cfg := config true 0) p 0 (or_introl eq_refl) Hs ltac:(discriminate)) as Hr.
  destruct (tied _ p) as [[[x p'] t']|v|] eqn:E; [|destruct Hr; discriminate|contradiction].
  intros y. refine (binaryExpr_only_tree (cfg := config true 0) p 0 x p' t' y 0 (or_introl eq_refl) Hs _ E). discriminate.
Defined.
