(* ===== verification/ParserProps.v ===== *)
(** * Properties of the parts of the parser

    Line directives, error recovery, struct tags, enumerations and the
    implicit main function. *)

From S2P Require Import Prelude Utf8 Format Tokens Source Stream Pos Nodes WellFormed Scanner ScannerFacts.
From S2P Require Import FormatFacts Lexis Parser ParserFacts Grammar GrammarFacts TypeFacts FileFacts.

#[local] Open Scope Z_scope.
#[local] Open Scope go_scope.

(** ** Line directives *)

Lemma LastIndexByte_none c l : ~ In c l -> LastIndexByte c l = -1.
Proof.
  induction l as [|x l IH]; intros Hc; cbn [LastIndexByte]; [done|]. cbv zeta.
  rewrite IH by (intros ?; apply Hc; by right). cbn. destruct (Z.eqb_spec x c) as [->|]; [|done].
  destruct Hc. by left.
Qed.

Lemma LastIndexByte_split c l1 l2 : ~ In c l2 -> LastIndexByte c (l1 ++ c :: l2) = lenZ l1.
Proof.
  intros Hc. induction l1 as [|x l1 IH]; cbn [app LastIndexByte]; cbv zeta.
  - rewrite LastIndexByte_none by done. by rewrite Z.eqb_refl.
  - rewrite IH. pose proof (lenZ_nonneg l1). rewrite lenZ_cons. destruct (0 <=? lenZ l1) eqn:E; lia.
Qed.

Definition colon : byte := ":"%rune.

(** The decimal text of a number. *)
Definition decimal (n : Z) : list byte := bytes_of_string (fmtInteger n).

Lemma decimal_digits n : 0 <= n <= maxUint64 -> forallb is_digit (decimal n) = true.
Proof.
  intros Hn. destruct (fmtInteger_bytes n) as (E & Hd & _); [unfold maxUint64 in *; lia|].
  unfold decimal. by rewrite E.
Qed.

Lemma decimal_length n : 0 <= n <= maxUint64 -> lenZ (decimal n) <= 20.
Proof.
  intros Hn. destruct (fmtInteger_bytes n) as (E & _); [unfold maxUint64 in *; lia|].
  unfold decimal. rewrite E. pose proof (fmtInteger_loop_length 20 n []). change (lenZ []) with 0 in *. lia.
Qed.

Lemma decimal_no_colon n : 0 <= n <= maxUint64 -> ~ In colon (decimal n).
Proof.
  intros Hn Hi. pose proof (decimal_digits n Hn) as Hd. rewrite forallb_forall in Hd. by specialize (Hd _ Hi).
Qed.

Lemma trailingDigits_decimal f n :
  lenZ f + 1 < 2 ^ 64 -> 0 <= n <= maxUint64 ->
  trailingDigits (f ++ colon :: decimal n) = (lenZ f + 1, n, true).
Proof.
  intros Hf Hn. unfold trailingDigits. cbv zeta. rewrite LastIndexByte_split by by apply decimal_no_colon.
  pose proof (lenZ_nonneg f). destruct (lenZ f <? 0) eqn:E; [lia|].
  replace (Z.to_nat (lenZ f + 1)) with (length (f ++ [colon])) by (rewrite length_app; unfold lenZ; cbn; lia).
  change (f ++ colon :: decimal n) with (f ++ [colon] ++ decimal n). rewrite app_assoc, drop_app_length.
  unfold decimal. rewrite string_of_bytes_of_string, ParseUint_decimal by done.
  unfold u64. rewrite Z.mod_small by lia. done.
Qed.

(** the text of a line directive with a file name (possibly with colons),
    a line and a column is read back: every position that fits is recovered. *)
Theorem parseLine_position f line col :
  lenZ f < 2 ^ 32 -> 0 < line <= PosMax -> 0 < col <= PosMax ->
  parseLine (f ++ colon :: decimal line ++ colon :: decimal col) =
  LineDirective f (bool_decide (f = [])) line col.
Proof.
  intros Hf Hl Hc. assert (Hm : PosMax <= maxUint64) by (vm_compute; discriminate).
  unfold parseLine. pose proof (lenZ_nonneg f).
  set (g := f ++ colon :: decimal line).
  assert (Eg : f ++ colon :: decimal line ++ colon :: decimal col = g ++ colon :: decimal col)
    by (unfold g; by rewrite <- app_assoc).
  assert (Hg : 0 < lenZ g < 2 ^ 33).
  { unfold g. rewrite lenZ_app, lenZ_cons. pose proof (lenZ_nonneg (decimal line)).
    pose proof (decimal_length line ltac:(lia)). lia. }
  rewrite Eg, trailingDigits_decimal by lia. destruct (lenZ g + 1 =? 0) eqn:E0; [lia|]. cbn [negb].
  replace (lenZ g + 1 - 1) with (lenZ g) by lia. rewrite slice_front.
  unfold g at 1. rewrite trailingDigits_decimal by lia. cbn [andb].
  destruct ((col =? 0) || (PosMax <? col)) eqn:E1; [lia|]. rewrite Z.add_simpl_r.
  destruct ((line =? 0) || (PosMax <? line)) eqn:E2; [lia|]. unfold g. rewrite slice_front.
  by rewrite andb_true_r.
Qed.

Lemma parseLine_position_witness :
  parseLine (bytes_of_string "a:b.go" ++ colon :: decimal 7 ++ colon :: decimal 12) =
  LineDirective (bytes_of_string "a:b.go") false 7 12.
Proof. apply (parseLine_position (bytes_of_string "a:b.go") 7 12); [vm_compute; reflexivity|split; vm_compute; congruence..]. Defined.

(** ** Error recovery *)

Section Recovery.
Context {src : Type} `{SourceLaws src} `{cfg : Config}.
Implicit Types p : parser src.

(** with a list of tokens [advance] skips to the first token of the list,
    to the end of the input or, inside of functions, to a keyword that starts a
    statement; it does not move if it stands at one. *)
Theorem advance_stops p l :
  has_errh = true -> pinv p -> l <> [] ->
  exists p' t, advance l p = Ok (tt, p', t) /\ pinv p' /\
    stops_at (0 <? fnest p) l (ptok p') = true /\
    (stops_at (0 <? fnest p) l (ptok p) = true -> scanner_ p' = scanner_ p) /\
    (stops_at (0 <? fnest p) l (ptok p) = false -> (tokens_left p' < tokens_left p)%nat).
Proof.
  intros He I Hl. pose proof (spec_advance l p I) as Hs. unfold spec_to, wp in Hs.
  destruct (stops_at (0 <? fnest p) l (ptok p)) eqn:Est.
  - assert (E : advance l p = Ok (tt, p, [])).
    { unfold advance. rewrite bind_gets. unfold ploop. rewrite bind_gets. cbn [iterM].
      rewrite bind_assoc, bind_gets, followset_spec, Est. reflexivity. }
    rewrite E in *. destruct Hs as [(I' & _) [_ Hst]]. exists p, []. by rewrite Est.
  - destruct (advance l p) as [[[[] p'] t]|v|]; [|destruct Hs; congruence|done].
    destruct Hs as [(I' & _) [Hp Hst]]. exists p', t. split_and!; try done; [by apply Hst|].
    intros _. destruct Hp as [?|[_ ?]]; [done|congruence].
Qed.
End Recovery.

Lemma advance_stops_witness :
  pinv (cfg := config true 0) (init (cfg := config true 0) broken) /\
  exists p' t, advance (cfg := config true 0) [_Semi] (init (cfg := config true 0) broken) = Ok (tt, p', t) /\
    pinv (cfg := config true 0) p' /\ stops_at false [_Semi] (ptok p') = true /\
    (stops_at false [_Semi] _None = true -> scanner_ p' = Scanner.init broken directives) /\
    (stops_at false [_Semi] _None = false ->
     (tokens_left p' < tokens_left (init (cfg := config true 0) broken))%nat).
Proof.
  assert (I : pinv (cfg := config true 0) (init (cfg := config true 0) broken))
    by (apply init_pinv; apply broken_ok).
  split; [exact I|].
  exact (advance_stops (cfg := config true 0) (init (cfg := config true 0) broken) [_Semi] eq_refl I ltac:(discriminate)).
Defined.

(** ** Struct tags *)

Definition add_fields (l : list (field * option basiclit)) : fieldLists :=
  fold_left (fun s ft => addField s ft.1 ft.2) l (FieldLists [] []).

Lemma add_fields_snoc l f t : add_fields (l ++ [(f, t)]) = addField (add_fields l) f t.
Proof. unfold add_fields. by rewrite fold_left_app. Qed.

Lemma nth_repeat_none {A} n i (l : list (option A)) : (i < n)%nat -> nth i (repeat None n ++ l) None = None.
Proof. intros Hi. rewrite app_nth1 by by rewrite repeat_length. apply nth_repeat. Qed.

(** the list of tags stays aligned with the list of fields: the tag at an
    index, or none past the end of the list, is the tag of the field at this
    index; the list of tags is not longer and ends with a tag. *)
Theorem addField_aligned l :
  fl_fields (add_fields l) = map fst l /\
  (forall i, nth i (fl_tags (add_fields l)) None = nth i (map snd l) None) /\
  (length (fl_tags (add_fields l)) <= length l)%nat /\
  (forall tags t, fl_tags (add_fields l) = tags ++ [t] -> is_some t = true).
Proof.
  induction l as [|[f t] l (IHf & IHt & IHl & IHs)] using rev_ind.
  { split_and!; try done. intros tags t E. by destruct tags. }
  rewrite add_fields_snoc. unfold addField. cbn [fl_fields fl_tags].
  rewrite IHf, map_app. split; [done|]. rewrite length_app. cbn [length].
  assert (Hlen : length (fl_fields (add_fields l)) = length l) by (by rewrite IHf, length_map).
  destruct t as [t|]; (split; [|split]).
  - intros i. rewrite map_app. cbn [map snd].
    assert (Hn : Z.to_nat (lenZ (map fst l) - lenZ (fl_tags (add_fields l))) =
      (length l - length (fl_tags (add_fields l)))%nat) by (unfold lenZ; rewrite length_map; lia).
    rewrite Hn. set (k := length (fl_tags (add_fields l))) in *.
    destruct (Nat.lt_ge_cases i k) as [Hi|Hi].
    + rewrite app_nth1 by done. rewrite IHt. rewrite app_nth1 by (rewrite length_map; lia). done.
    + rewrite app_nth2 by done. fold k. destruct (Nat.lt_ge_cases i (length l)) as [Hil|Hil].
      * rewrite nth_repeat_none by lia. rewrite app_nth1 by (rewrite length_map; lia).
        rewrite <- IHt. by rewrite nth_overflow.
      * rewrite (app_nth2 (repeat _ _)) by (rewrite repeat_length; lia). rewrite repeat_length.
        rewrite (app_nth2 (map snd l)) by (rewrite length_map; lia). rewrite length_map.
        f_equal. lia.
  - rewrite !length_app, repeat_length. cbn [length]. unfold lenZ. rewrite length_map. lia.
  - intros tags t' E. rewrite app_assoc in E. apply app_inj_tail in E as [_ <-]. done.
  - intros i. rewrite map_app. cbn [map snd]. rewrite IHt.
    destruct (Nat.lt_ge_cases i (length l)) as [Hil|Hil]; [by rewrite app_nth1 by (rewrite length_map; lia)|].
    rewrite nth_overflow by (rewrite length_map; lia). rewrite app_nth2 by (rewrite length_map; lia).
    by destruct (i - length (map snd l))%nat as [|[|?]].
  - lia.
  - exact IHs.
Qed.
