(* ===== verification/ParserRelation.v ===== *)
(** * Relations between two parsers

    A relation between the computations of two parsers, which may differ in
    their readers and in their configuration, holds for every production and for
    [Parse] once it holds for the few primitives that the productions are
    written with.  [ProdRelLaws] is this interface: the laws of the monad, the
    reading and writing of fields, the scanner, errors and [checkBranches].
    ParserRefines.v and ParserErrors.v give the two instances. *)

From S2P Require Import Prelude Tokens Source Stream Pos Nodes Exprs Printer Branches Scanner.
From S2P Require Import ScannerFacts Parser Grammar.

#[local] Open Scope Z_scope.
#[local] Open Scope go_scope.

(** Parsers that differ in their readers only. *)
Record parser_rel {src1 src2} (R : src1 -> src2 -> Prop) (p1 : parser src1) (p2 : parser src2) : Prop := {
  pr_scanner : scan_rel R (scanner_ p1) (scanner_ p2);
  pr_fields : (base p1, first p1, errcnt p1, pragma p1, goVersion p1, top p1, fnest p1, xnest p1, ids p1) =
    (base p2, first p2, errcnt p2, pragma p2, goVersion p2, top p2, fnest p2, xnest p2, ids p2)
}.

(** A relation between computations of any type. *)
Class ProdRel (src1 src2 : Type) :=
  prod_rel : forall A, GM pval event (parser src1) A -> GM pval event (parser src2) A -> Prop.
Arguments prod_rel {src1 src2 _ A}.

Class ProdRelLaws {src1 src2} `{RuneSource src1} `{RuneSource src2} (R : src1 -> src2 -> Prop) (c1 c2 : Config) (P : ProdRel src1 src2) : Prop := {
  rl_config : (file (Config := c1), pmode (Config := c1), pragh (Config := c1)) = (file (Config := c2), pmode (Config := c2), pragh (Config := c2));
  rl_tokens_left p1 p2 : parser_rel R p1 p2 -> tokens_left p1 = tokens_left p2;
  rl_ret A (a : A) : prod_rel (ret a) (ret a);
  rl_bind A B (m1 : GM pval event (parser src1) A) (m2 : GM pval event (parser src2) A) (k1 : A -> GM pval event (parser src1) B) k2 :
    prod_rel m1 m2 -> (forall a, prod_rel (k1 a) (k2 a)) -> prod_rel (bind m1 k1) (bind m2 k2);
  rl_panic A v : prod_rel (panic (A := A) v) (panic v);
  rl_out_of_fuel A : prod_rel (out_of_fuel (A := A)) out_of_fuel;
  rl_emit e : prod_rel (emit e) (emit e);
  rl_gets A (f1 : parser src1 -> A) (f2 : parser src2 -> A) :
    (forall p1 p2, parser_rel R p1 p2 -> f1 p1 = f2 p2) -> prod_rel (gets f1) (gets f2);
  rl_modify (g1 : parser src1 -> parser src1) (g2 : parser src2 -> parser src2) :
    (forall p1 p2, parser_rel R p1 p2 -> parser_rel R (g1 p1) (g2 p2)) -> (forall p, first (g2 p) = first p) ->
    prod_rel (modify g1) (modify g2);
  rl_scan : prod_rel scan scan;
  rl_errorAt pos msg : prod_rel (errorAt (cfg := c1) pos msg) (errorAt (cfg := c2) pos msg);
  rl_check_branches body : Z.land (pmode (Config := c1)) CheckBranches <> 0 ->
    prod_rel (check_branches (cfg := c1) body) (check_branches (cfg := c2) body)
}.

Section Loops.
Context {src1 src2 : Type} `{RuneSource src1} `{RuneSource src2} (R : src1 -> src2 -> Prop) (c1 c2 : Config).
Context `{P : ProdRel src1 src2} `{!ProdRelLaws R c1 c2 P}.

Lemma prel_iterM {X Y} (b1 : X -> GM pval event (parser src1) (X + Y)) b2 n x :
  (forall x, prod_rel (b1 x) (b2 x)) -> prod_rel (iterM n b1 x) (iterM n b2 x).
Proof.
  intros Hb. revert x. induction n as [|n IH]; intros x; cbn [iterM]; [eapply rl_out_of_fuel|].
  eapply rl_bind; [done|]. intros [x'|y]; [apply IH|eapply rl_ret].
Qed.

Lemma prel_ploop {X Y} (b1 : X -> GM pval event (parser src1) (X + Y)) b2 x :
  (forall x, prod_rel (b1 x) (b2 x)) -> prod_rel (ploop b1 x) (ploop b2 x).
Proof.
  intros Hb. unfold ploop. eapply rl_bind; [|].
  - eapply rl_gets. intros p1 p2 Hp. by rewrite (rl_tokens_left p1 p2 Hp).
  - intros n. by apply prel_iterM.
Qed.
End Loops.

(** Walk through the same production of two parsers. *)
Ltac prel_fields :=
  intros ? ? [[? Hsf Hst] Hpf]; injection Hsf; injection Hst; injection Hpf; intros;
  unfold tokenText, ptok, plit, pop, pprec; cbv beta;
  first [ congruence | repeat match goal with E : _ = _ |- _ => rewrite E; clear E end; done ].
Ltac prel_modified :=
  intros ? ? [? Hpf]; injection Hpf; intros;
  cbv beta; repeat match goal with E : _ = _ |- _ => rewrite E; clear E end;
  first [ split; cbn; congruence | case_match; split; cbn; congruence ].
Ltac same_config :=
  match goal with L : ProdRelLaws _ _ _ _ |- _ =>
    let E := fresh in pose proof (rl_config (ProdRelLaws := L)) as E; injection E; intros Eh Em Ef;
    rewrite <- ?Ef, <- ?Em, <- ?Eh; clear E Eh Em Ef end.
(** The laws at hand; a configuration is never looked for as an instance. *)
Ltac with_laws tac :=
  match goal with L : ProdRelLaws ?R ?c1 ?c2 _ |- _ => tac R c1 c2 end.
Ltac prel_step :=
  match goal with
  | |- prod_rel (bind _ _) (bind _ _) => with_laws ltac:(fun R c1 c2 => eapply (rl_bind (R := R) (c1 := c1) (c2 := c2))); [|intros ?]
  | |- prod_rel (ret _) (ret _) => with_laws ltac:(fun R c1 c2 => eapply (rl_ret (R := R) (c1 := c1) (c2 := c2)))
  | |- prod_rel (emit _) (emit _) => with_laws ltac:(fun R c1 c2 => eapply (rl_emit (R := R) (c1 := c1) (c2 := c2)))
  | |- prod_rel (panic _) (panic _) => with_laws ltac:(fun R c1 c2 => eapply (rl_panic (R := R) (c1 := c1) (c2 := c2)))
  | |- prod_rel out_of_fuel out_of_fuel => with_laws ltac:(fun R c1 c2 => eapply (rl_out_of_fuel (R := R) (c1 := c1) (c2 := c2)))
  | |- prod_rel (gets _) (gets _) => with_laws ltac:(fun R c1 c2 => eapply (rl_gets (R := R) (c1 := c1) (c2 := c2))); [solve [prel_fields]]
  | |- prod_rel (modify _) (modify _) => with_laws ltac:(fun R c1 c2 => eapply (rl_modify (R := R) (c1 := c1) (c2 := c2))); [prel_modified|done]
  | |- prod_rel (ploop _ _) (ploop _ _) => with_laws ltac:(fun R c1 c2 => eapply (prel_ploop R c1 c2)); intros ?
  | |- ProdRelLaws _ _ _ _ => exact _
  | |- prod_rel (match ?x with _ => _ end) _ => destruct x
  | |- prod_rel ?m _ => first [ eassumption | solve [eauto with prel] | let h := head_of m in unfold h; cbv zeta beta ]
  end.
Ltac prel := repeat prel_step.

Create HintDb prel.

Section Machinery.
Context {src1 src2 : Type} `{RuneSource src1} `{RuneSource src2} (R : src1 -> src2 -> Prop) (c1 c2 : Config).
Context `{P : ProdRel src1 src2} `{!ProdRelLaws R c1 c2 P}.

Lemma prel_scan : prod_rel scan scan.
Proof. apply (rl_scan (c1 := c1) (R := R)). Qed.

Lemma prel_errorAt pos msg : prod_rel (errorAt (cfg := c1) pos msg) (errorAt (cfg := c2) pos msg).
Proof. apply (rl_errorAt (R := R)). Qed.
#[local] Hint Resolve prel_scan prel_errorAt : prel.

Lemma prel_syntaxErrorAt pos msg : prod_rel (syntaxErrorAt (cfg := c1) pos msg) (syntaxErrorAt (cfg := c2) pos msg).
Proof. prel. Qed.
#[local] Hint Resolve prel_syntaxErrorAt : prel.

Lemma prel_syntaxError msg : prod_rel (syntaxError (cfg := c1) msg) (syntaxError (cfg := c2) msg).
Proof. prel. Qed.

Lemma prel_handler ev : prod_rel (handler (cfg := c1) ev) (handler (cfg := c2) ev).
Proof. unfold handler. same_config. prel. Qed.
#[local] Hint Resolve prel_handler : prel.

Lemma prel_handle evs : prod_rel (handle (cfg := c1) evs) (handle (cfg := c2) evs).
Proof. induction evs as [|ev evs IH]; cbn [handle]; prel. Qed.
#[local] Hint Resolve prel_syntaxError prel_handle : prel.

Lemma prel_next : prod_rel (Parser.next (cfg := c1)) (Parser.next (cfg := c2)).
Proof. prel. Qed.
#[local] Hint Resolve prel_next : prel.

Lemma prel_clearPragma : prod_rel (clearPragma (cfg := c1)) (clearPragma (cfg := c2)).
Proof. unfold clearPragma. same_config. prel. Qed.

Lemma prel_advance l : prod_rel (advance (cfg := c1) l) (advance (cfg := c2) l).
Proof. prel. Qed.
#[local] Hint Resolve prel_advance : prel.

Lemma prel_got t : prod_rel (got (cfg := c1) t) (got (cfg := c2) t).
Proof. prel. Qed.
#[local] Hint Resolve prel_got : prel.

Lemma prel_want t : prod_rel (want (cfg := c1) t) (want (cfg := c2) t).
Proof. prel. Qed.
#[local] Hint Resolve prel_want : prel.

Lemma prel_list {X} context sep close (f1 : X -> PM (src := src1) (X * bool)) f2 x :
  (forall x, prod_rel (f1 x) (f2 x)) -> prod_rel (list_ (cfg := c1) context sep close f1 x) (list_ (cfg := c2) context sep close f2 x).
Proof. intros Hf. prel. Qed.

Lemma prel_in_xnest {A} (m1 : PM (src := src1) A) m2 : prod_rel m1 m2 -> prod_rel (in_xnest m1) (in_xnest m2).
Proof. intros Hm. prel. Qed.

Lemma prel_pos : prod_rel Parser.pos Parser.pos.
Proof. prel. Qed.
#[local] Hint Resolve prel_pos : prel.

Lemma prel_type_with m1 m2 : prod_rel m1 m2 -> prod_rel (type_with (cfg := c1) m1) (type_with (cfg := c2) m2).
Proof. intros Hm. prel. Qed.

End Machinery.

#[export] Hint Resolve prel_scan prel_errorAt prel_syntaxErrorAt prel_syntaxError prel_handle prel_next
  prel_clearPragma prel_advance prel_got prel_want prel_pos : prel.

Ltac prod_step :=
  lazymatch goal with
  | |- prod_rel (list_ _ _ _ _ _) _ => with_laws ltac:(fun R c1 c2 => eapply (prel_list R c1 c2)); intros ?
  | |- prod_rel (in_xnest _) _ => with_laws ltac:(fun R c1 c2 => eapply (prel_in_xnest R c1 c2))
  | |- prod_rel (type_with _) _ => with_laws ltac:(fun R c1 c2 => eapply (prel_type_with R c1 c2))
  | |- _ => prel_step
  end.
Ltac prods := repeat prod_step.

(** ** Productions *)

Section Productions.
Context {src1 src2 : Type} `{RuneSource src1} `{RuneSource src2} (R : src1 -> src2 -> Prop) (c1 c2 : Config).
Context `{P : ProdRel src1 src2} `{!ProdRelLaws R c1 c2 P}.

(** Knots of related productions. *)
Record knot_rel (k1 : knot (src := src1)) (k2 : knot (src := src2)) : Prop := {
  kr_unaryExpr : prod_rel (k_unaryExpr k1) (k_unaryExpr k2);
  kr_binaryExpr x prec : prod_rel (k_binaryExpr k1 x prec) (k_binaryExpr k2 x prec);
  kr_typeOrNil : prod_rel (k_typeOrNil k1) (k_typeOrNil k2);
  kr_complitexpr : prod_rel (k_complitexpr k1) (k_complitexpr k2);
  kr_ifStmt : prod_rel (k_ifStmt k1) (k_ifStmt k2);
  kr_stmtOrNil : prod_rel (k_stmtOrNil k1) (k_stmtOrNil k2)
}.

Lemma prel_name : prod_rel (name_ (cfg := c1)) (name_ (cfg := c2)).
Proof. prods. Qed.
#[local] Hint Resolve prel_name : prel.

Lemma prel_nameList x : prod_rel (nameList (cfg := c1) x) (nameList (cfg := c2) x).
Proof. prods. Qed.
#[local] Hint Resolve prel_nameList : prel.

Lemma prel_oliteral : prod_rel (oliteral (cfg := c1)) (oliteral (cfg := c2)).
Proof. prods. Qed.
#[local] Hint Resolve prel_oliteral : prel.

Lemma prel_distribute l errPos typ done : prod_rel (distribute l errPos typ done) (distribute l errPos typ done).
Proof. revert errPos typ done. induction l; intros; cbn [distribute]; prel. Qed.

Lemma prel_checkDots first dddok l : prod_rel (checkDots (cfg := c1) first dddok l) (checkDots (cfg := c2) first dddok l).
Proof. revert first. induction l; intros; cbn [checkDots]; prel. Qed.
#[local] Hint Resolve prel_distribute prel_checkDots : prel.

(** The productions of a nesting level. *)
Context (k1 : knot (src := src1)) (k2 : knot (src := src2)) (Hk : knot_rel k1 k2).

Lemma prel_k_unaryExpr : prod_rel (k_unaryExpr k1) (k_unaryExpr k2).
Proof. apply Hk. Qed.
Lemma prel_k_binaryExpr x prec : prod_rel (k_binaryExpr k1 x prec) (k_binaryExpr k2 x prec).
Proof. apply Hk. Qed.
Lemma prel_k_typeOrNil : prod_rel (k_typeOrNil k1) (k_typeOrNil k2).
Proof. apply Hk. Qed.
Lemma prel_k_complitexpr : prod_rel (k_complitexpr k1) (k_complitexpr k2).
Proof. apply Hk. Qed.
Lemma prel_k_ifStmt : prod_rel (k_ifStmt k1) (k_ifStmt k2).
Proof. apply Hk. Qed.
Lemma prel_k_stmtOrNil : prod_rel (k_stmtOrNil k1) (k_stmtOrNil k2).
Proof. apply Hk. Qed.
#[local] Hint Resolve prel_k_unaryExpr prel_k_binaryExpr prel_k_typeOrNil prel_k_complitexpr prel_k_ifStmt prel_k_stmtOrNil : prel.

Lemma prel_k_expr : prod_rel (k_expr k1) (k_expr k2).
Proof. apply Hk. Qed.
#[local] Hint Resolve prel_k_expr : prel.

Lemma prel_typeList strict : prod_rel (typeList (cfg := c1) k1 strict) (typeList (cfg := c2) k2 strict).
Proof. prods. Qed.
#[local] Hint Resolve prel_typeList : prel.

Lemma prel_typeInstance typ : prod_rel (typeInstance (cfg := c1) k1 typ) (typeInstance (cfg := c2) k2 typ).
Proof. prods. Qed.
#[local] Hint Resolve prel_typeInstance : prel.

Lemma prel_qualifiedName nam : prod_rel (qualifiedName (cfg := c1) k1 nam) (qualifiedName (cfg := c2) k2 nam).
Proof. prods. Qed.
#[local] Hint Resolve prel_qualifiedName : prel.

Lemma prel_arrayType p len : prod_rel (arrayType (cfg := c1) k1 p len) (arrayType (cfg := c2) k2 p len).
Proof. prods. Qed.
#[local] Hint Resolve prel_arrayType : prel.

Lemma prel_chanElem : prod_rel (chanElem (cfg := c1) k1) (chanElem (cfg := c2) k2).
Proof. prods. Qed.
#[local] Hint Resolve prel_chanElem : prel.

Lemma prel_arrayOrTArgs : prod_rel (arrayOrTArgs (cfg := c1) k1) (arrayOrTArgs (cfg := c2) k2).
Proof. prods. Qed.
#[local] Hint Resolve prel_arrayOrTArgs : prel.
Lemma prel_embeddedTerm : prod_rel (embeddedTerm (cfg := c1) k1) (embeddedTerm (cfg := c2) k2).
Proof. prods. Qed.
#[local] Hint Resolve prel_embeddedTerm : prel.

Lemma prel_embeddedElem f : prod_rel (embeddedElem (cfg := c1) k1 f) (embeddedElem (cfg := c2) k2 f).
Proof. prods. Qed.
#[local] Hint Resolve prel_embeddedElem : prel.

Lemma prel_paramDeclOrNil nam follow : prod_rel (paramDeclOrNil (cfg := c1) k1 nam follow) (paramDeclOrNil (cfg := c2) k2 nam follow).
Proof. prods. Qed.
#[local] Hint Resolve prel_paramDeclOrNil : prel.

Lemma prel_namesToTypes l : prod_rel (namesToTypes l) (namesToTypes l).
Proof. induction l; unfold namesToTypes in *; cbn [foldr]; prods. Qed.
#[local] Hint Resolve prel_namesToTypes : prel.

Lemma prel_param close s : prod_rel (param (cfg := c1) k1 close s) (param (cfg := c2) k2 close s).
Proof. prods. Qed.
#[local] Hint Resolve prel_param : prel.

Lemma prel_paramList nam typ close req dddok : prod_rel (paramList (cfg := c1) k1 nam typ close req dddok) (paramList (cfg := c2) k2 nam typ close req dddok).
Proof. prods. Qed.
#[local] Hint Resolve prel_paramList : prel.

Lemma prel_funcResult : prod_rel (funcResult (cfg := c1) k1) (funcResult (cfg := c2) k2).
Proof. prods. Qed.
#[local] Hint Resolve prel_funcResult : prel.

Lemma prel_funcType context : prod_rel (funcType (cfg := c1) k1 context) (funcType (cfg := c2) k2 context).
Proof. prods. Qed.
#[local] Hint Resolve prel_funcType : prel.

Lemma prel_embed s p typ : prod_rel (embed (cfg := c1) s p typ) (embed (cfg := c2) s p typ).
Proof. prods. Qed.
#[local] Hint Resolve prel_embed : prel.

Lemma prel_fieldDecl s : prod_rel (fieldDecl (cfg := c1) k1 s) (fieldDecl (cfg := c2) k2 s).
Proof. prods. Qed.
#[local] Hint Resolve prel_fieldDecl : prel.

Lemma prel_structType : prod_rel (structType (cfg := c1) k1) (structType (cfg := c2) k2).
Proof. prods. Qed.
#[local] Hint Resolve prel_structType : prel.

Lemma prel_fieldTypes l : prod_rel (fieldTypes l) (fieldTypes l).
Proof. induction l; cbn [fieldTypes]; prods. Qed.
#[local] Hint Resolve prel_fieldTypes : prel.

Lemma prel_methodDecl : prod_rel (methodDecl (cfg := c1) k1) (methodDecl (cfg := c2) k2).
Proof. prods. Qed.
#[local] Hint Resolve prel_methodDecl : prel.

Lemma prel_interfaceType : prod_rel (interfaceType (cfg := c1) k1) (interfaceType (cfg := c2) k2).
Proof. prods. Qed.
#[local] Hint Resolve prel_interfaceType : prel.

Lemma prel_typeOrNil : prod_rel (typeOrNil (cfg := c1) k1) (typeOrNil (cfg := c2) k2).
Proof. prods. Qed.
#[local] Hint Resolve prel_typeOrNil : prel.

Lemma prel_type : prod_rel (type_ (cfg := c1) k1) (type_ (cfg := c2) k2).
Proof. prods. Qed.
#[local] Hint Resolve prel_type : prel.

Lemma prel_stmtList : prod_rel (stmtList (cfg := c1) k1) (stmtList (cfg := c2) k2).
Proof. prods. Qed.
#[local] Hint Resolve prel_stmtList : prel.

Lemma prel_blockStmt context : prod_rel (blockStmt (cfg := c1) k1 context) (blockStmt (cfg := c2) k2 context).
Proof. prods. Qed.
#[local] Hint Resolve prel_blockStmt : prel.

Lemma prel_funcBody : prod_rel (funcBody (cfg := c1) k1) (funcBody (cfg := c2) k2).
Proof.
  assert (Hc : forall n n' body, prod_rel
    (when negb (Z.land (pmode (Config := c1)) CheckBranches =? 0) && (n =? n') do check_branches (cfg := c1) body)
    (when negb (Z.land (pmode (Config := c1)) CheckBranches =? 0) && (n =? n') do check_branches (cfg := c2) body)).
  { intros n n' body. destruct (Z.eqb_spec (Z.land (pmode (Config := c1)) CheckBranches) 0) as [_|Hb]; cbn [negb andb]; [prods|].
    destruct (n =? n'); [by apply (rl_check_branches (R := R))|prods]. }
  unfold funcBody. same_config. do 5 (prel_step; [prods|]). prel_step; [apply Hc|prods].
Qed.
#[local] Hint Resolve prel_funcBody : prel.

Lemma prel_argList : prod_rel (argList (cfg := c1) k1) (argList (cfg := c2) k2).
Proof. prods. Qed.
#[local] Hint Resolve prel_argList : prel.

Lemma prel_bare_complitexpr : prod_rel (bare_complitexpr k1) (bare_complitexpr k2).
Proof. prods. Qed.
#[local] Hint Resolve prel_bare_complitexpr : prel.

Lemma prel_complitexpr : prod_rel (complitexpr (cfg := c1) k1) (complitexpr (cfg := c2) k2).
Proof. prods. Qed.
#[local] Hint Resolve prel_complitexpr : prel.

Lemma prel_keyValue key : prod_rel (keyValue (cfg := c1) k1 key) (keyValue (cfg := c2) k2 key).
Proof. prods. Qed.
#[local] Hint Resolve prel_keyValue : prel.

Lemma prel_mapLiteralFromBracket p firstKey : prod_rel (mapLiteralFromBracket (cfg := c1) k1 p firstKey) (mapLiteralFromBracket (cfg := c2) k2 p firstKey).
Proof. prods. Qed.
#[local] Hint Resolve prel_mapLiteralFromBracket : prel.

Lemma prel_mapLiteralFromBrace : prod_rel (mapLiteralFromBrace (cfg := c1) k1) (mapLiteralFromBrace (cfg := c2) k2).
Proof. prods. Qed.
#[local] Hint Resolve prel_mapLiteralFromBrace : prel.

Lemma prel_sliceLiteral p first : prod_rel (sliceLiteral (cfg := c1) k1 p first) (sliceLiteral (cfg := c2) k2 p first).
Proof. prods. Qed.
#[local] Hint Resolve prel_sliceLiteral : prel.

Lemma prel_mapTypeOrLiteral : prod_rel (mapTypeOrLiteral (cfg := c1) k1) (mapTypeOrLiteral (cfg := c2) k2).
Proof. prods. Qed.
#[local] Hint Resolve prel_mapTypeOrLiteral : prel.

Lemma prel_operand keep : prod_rel (operand (cfg := c1) k1 keep) (operand (cfg := c2) k2 keep).
Proof. prods. Qed.
#[local] Hint Resolve prel_operand : prel.

Lemma prel_selector p x : prod_rel (selector (cfg := c1) k1 p x) (selector (cfg := c2) k2 p x).
Proof. prods. Qed.
#[local] Hint Resolve prel_selector : prel.

Lemma prel_slice p x i : prod_rel (slice_ (cfg := c1) k1 p x i) (slice_ (cfg := c2) k2 p x i).
Proof. prods. Qed.
#[local] Hint Resolve prel_slice : prel.

Lemma prel_index p x : prod_rel (index_ (cfg := c1) k1 p x) (index_ (cfg := c2) k2 p x).
Proof. prods. Qed.
#[local] Hint Resolve prel_index : prel.

Lemma prel_hashIndex p x : prod_rel (hashIndex (cfg := c1) k1 p x) (hashIndex (cfg := c2) k2 p x).
Proof. prods. Qed.
#[local] Hint Resolve prel_hashIndex : prel.

Lemma prel_pexpr x keep : prod_rel (pexpr (cfg := c1) k1 x keep) (pexpr (cfg := c2) k2 x keep).
Proof. prods. Qed.
#[local] Hint Resolve prel_pexpr : prel.

Lemma prel_reassociate t : prod_rel (reassociate (cfg := c1) t) (reassociate (cfg := c2) t).
Proof. induction t; cbn [reassociate]; prods. Qed.
#[local] Hint Resolve prel_reassociate : prel.

Lemma prel_unaryExpr : prod_rel (unaryExpr (cfg := c1) k1) (unaryExpr (cfg := c2) k2).
Proof. prods. Qed.
#[local] Hint Resolve prel_unaryExpr : prel.

Lemma prel_binaryExpr x prec : prod_rel (binaryExpr (cfg := c1) k1 x prec) (binaryExpr (cfg := c2) k2 x prec).
Proof. prods. Qed.
#[local] Hint Resolve prel_binaryExpr : prel.

Lemma prel_expr : prod_rel (expr_ (cfg := c1) k1) (expr_ (cfg := c2) k2).
Proof. prods. Qed.
#[local] Hint Resolve prel_expr : prel.

Lemma prel_exprList : prod_rel (exprList (cfg := c1) k1) (exprList (cfg := c2) k2).
Proof. prods. Qed.
#[local] Hint Resolve prel_exprList : prel.

Lemma prel_importDecl group : prod_rel (importDecl (cfg := c1) group) (importDecl (cfg := c2) group).
Proof. prods. Qed.
#[local] Hint Resolve prel_importDecl : prel.

Lemma prel_constDecl group : prod_rel (constDecl (cfg := c1) k1 group) (constDecl (cfg := c2) k2 group).
Proof. prods. Qed.
#[local] Hint Resolve prel_constDecl : prel.

Lemma prel_varDecl group : prod_rel (varDecl (cfg := c1) k1 group) (varDecl (cfg := c2) k2 group).
Proof. prods. Qed.
#[local] Hint Resolve prel_varDecl : prel.

Lemma prel_typeSpec : prod_rel (typeSpec (cfg := c1) k1) (typeSpec (cfg := c2) k2).
Proof. prods. Qed.
#[local] Hint Resolve prel_typeSpec : prel.

Lemma prel_typeDecl group : prod_rel (typeDecl (cfg := c1) k1 group) (typeDecl (cfg := c2) k2 group).
Proof. prods. Qed.
#[local] Hint Resolve prel_typeDecl : prel.

Lemma prel_appendGroup l f1 f2 :
  (forall g, prod_rel (f1 g) (f2 g)) -> prod_rel (appendGroup (cfg := c1) l f1) (appendGroup (cfg := c2) l f2).
Proof. intros Hf. prods. Qed.

Lemma prel_declStmt f1 f2 : (forall g, prod_rel (f1 g) (f2 g)) -> prod_rel (declStmt (cfg := c1) f1) (declStmt (cfg := c2) f2).
Proof. intros Hf. prods. Qed.

Lemma prel_createEnumStringMethod p n l : prod_rel (createEnumStringMethod p n l) (createEnumStringMethod p n l).
Proof. prods. Qed.
#[local] Hint Resolve prel_createEnumStringMethod : prel.

Lemma prel_enumDeclGroup l : prod_rel (enumDeclGroup (cfg := c1) l) (enumDeclGroup (cfg := c2) l).
Proof. prods. Qed.
#[local] Hint Resolve prel_enumDeclGroup : prel.

Lemma prel_enumStmt : prod_rel (enumStmt (cfg := c1)) (enumStmt (cfg := c2)).
Proof. prods. Qed.
#[local] Hint Resolve prel_enumStmt : prel.

Lemma prel_funcDeclOrNil : prod_rel (funcDeclOrNil (cfg := c1) k1) (funcDeclOrNil (cfg := c2) k2).
Proof. prods. Qed.
#[local] Hint Resolve prel_funcDeclOrNil : prel.

Lemma prel_newRangeClause lhs def : prod_rel (newRangeClause (cfg := c1) k1 lhs def) (newRangeClause (cfg := c2) k2 lhs def).
Proof. prods. Qed.
#[local] Hint Resolve prel_newRangeClause : prel.

Lemma prel_simpleStmt lhs keyword : prod_rel (simpleStmt (cfg := c1) k1 lhs keyword) (simpleStmt (cfg := c2) k2 lhs keyword).
Proof. prods. Qed.
#[local] Hint Resolve prel_simpleStmt : prel.

Lemma prel_labeledStmtOrNil label : prod_rel (labeledStmtOrNil (cfg := c1) k1 label) (labeledStmtOrNil (cfg := c2) k2 label).
Proof. prods. Qed.
#[local] Hint Resolve prel_labeledStmtOrNil : prel.

Lemma prel_callStmt : prod_rel (callStmt (cfg := c1) k1) (callStmt (cfg := c2) k2).
Proof. prods. Qed.
#[local] Hint Resolve prel_callStmt : prel.

Lemma prel_emphasize x : prod_rel (emphasize x) (emphasize x).
Proof. prods. Qed.
#[local] Hint Resolve prel_emphasize : prel.

Lemma prel_header_cond keyword sm c : prod_rel (header_cond (cfg := c1) keyword sm c) (header_cond (cfg := c2) keyword sm c).
Proof. prods. Qed.
#[local] Hint Resolve prel_header_cond : prel.

Lemma prel_header_rest keyword init : prod_rel (header_rest (cfg := c1) k1 keyword init) (header_rest (cfg := c2) k2 keyword init).
Proof. prods. Qed.
#[local] Hint Resolve prel_header_rest : prel.

Lemma prel_header keyword : prod_rel (header (cfg := c1) k1 keyword) (header (cfg := c2) k2 keyword).
Proof. prods. Qed.
#[local] Hint Resolve prel_header : prel.

Lemma prel_forStmt : prod_rel (forStmt (cfg := c1) k1) (forStmt (cfg := c2) k2).
Proof. prods. Qed.
#[local] Hint Resolve prel_forStmt : prel.

Lemma prel_ifStmt : prod_rel (ifStmt (cfg := c1) k1) (ifStmt (cfg := c2) k2).
Proof. prods. Qed.
#[local] Hint Resolve prel_ifStmt : prel.

Lemma prel_clauseBody : prod_rel (clauseBody (cfg := c1) k1) (clauseBody (cfg := c2) k2).
Proof. prods. Qed.
#[local] Hint Resolve prel_clauseBody : prel.

Lemma prel_caseClause : prod_rel (caseClause (cfg := c1) k1) (caseClause (cfg := c2) k2).
Proof. prods. Qed.
#[local] Hint Resolve prel_caseClause : prel.

Lemma prel_commClause : prod_rel (commClause (cfg := c1) k1) (commClause (cfg := c2) k2).
Proof. prods. Qed.
#[local] Hint Resolve prel_commClause : prel.

Lemma prel_clauses {A} missing (m1 : PM (src := src1) A) m2 :
  prod_rel m1 m2 -> prod_rel (clauses (cfg := c1) missing m1) (clauses (cfg := c2) missing m2).
Proof. intros Hm. prods. Qed.

Lemma prel_switchStmt : prod_rel (switchStmt (cfg := c1) k1) (switchStmt (cfg := c2) k2).
Proof. prods. Qed.
#[local] Hint Resolve prel_switchStmt : prel.

Lemma prel_selectStmt : prod_rel (selectStmt (cfg := c1) k1) (selectStmt (cfg := c2) k2).
Proof. prods. Qed.
#[local] Hint Resolve prel_selectStmt : prel.

Lemma prel_branchStmt : prod_rel (branchStmt (cfg := c1)) (branchStmt (cfg := c2)).
Proof. prods. Qed.
#[local] Hint Resolve prel_branchStmt : prel.

Lemma prel_otherStmt : prod_rel (otherStmt (cfg := c1) k1) (otherStmt (cfg := c2) k2).
Proof. prods. Qed.
#[local] Hint Resolve prel_otherStmt : prel.

Lemma prel_stmtOrNil : prod_rel (stmtOrNil (cfg := c1) k1) (stmtOrNil (cfg := c2) k2).
Proof. prods. Qed.
#[local] Hint Resolve prel_stmtOrNil : prel.

Lemma prel_topLevel decls stmts : prod_rel (topLevel (cfg := c1) k1 decls stmts) (topLevel (cfg := c2) k2 decls stmts).
Proof. prods. Qed.
#[local] Hint Resolve prel_topLevel : prel.

Lemma prel_fileRound s : prod_rel (fileRound (cfg := c1) k1 s) (fileRound (cfg := c2) k2 s).
Proof. prods. Qed.
#[local] Hint Resolve prel_fileRound : prel.

Lemma prel_fileOrNil : prod_rel (fileOrNil (cfg := c1) k1) (fileOrNil (cfg := c2) k2).
Proof. prods. Qed.
#[local] Hint Resolve prel_fileOrNil : prel.

End Productions.

(** ** Parse *)

Section Parse.
Context {src1 src2 : Type} `{RuneSource src1} `{RuneSource src2} (R : src1 -> src2 -> Prop) (c1 c2 : Config).
Context `{P : ProdRel src1 src2} `{!ProdRelLaws R c1 c2 P}.

Lemma tie_rel n : knot_rel (tie (cfg := c1) n) (tie (cfg := c2) n).
Proof.
  induction n as [|n IH]; cbn [tie]; split; cbn; intros; try (eapply rl_out_of_fuel).
  all: first [ by apply (prel_unaryExpr R) | by apply (prel_binaryExpr R) | by apply (prel_typeOrNil R)
             | by apply (prel_complitexpr R) | by apply (prel_ifStmt R) | by apply (prel_stmtOrNil R) ].
Qed.

(** What [Parse] runs. *)
Lemma prel_Parse :
  prod_rel (Parser.next (cfg := c1);;; (let* f := tied (cfg := c1) (fileOrNil (cfg := c1)) in let* e := gets first in ret (f, e)))
    (Parser.next (cfg := c2);;; (let* f := tied (cfg := c2) (fileOrNil (cfg := c2)) in let* e := gets first in ret (f, e))).
Proof.
  eapply rl_bind; [by apply (prel_next R)|]. intros _. eapply rl_bind; [|].
  - unfold tied. eapply rl_bind; [|].
    + eapply rl_gets. intros p1 p2. by apply rl_tokens_left.
    + intros n. apply (prel_fileOrNil R c1 c2), tie_rel.
  - intros f. prel.
Qed.
End Parse.
