(* ===== verification/ParserRefines.v ===== *)
(** * The parser does not depend on how its reader buffers

    Over two readers, of which one behaves like the other, the productions give
    the same value and the same events from related states: the relation [mrel]
    satisfies the laws of ParserRelation.v.  Together with the refinement of the
    buffered reader (Stream.v) this makes the result of [Parse] a function of the
    input. *)

From S2P Require Import Prelude Tokens Source Stream Pos Nodes Exprs Printer Branches Scanner.
From S2P Require Import ScannerFacts Parser Grammar ParserRelation FileFacts.

#[local] Open Scope Z_scope.
#[local] Open Scope go_scope.

Section Relation.
Context {src1 src2 : Type} `{RuneSource src1} `{RuneSource src2} (R : src1 -> src2 -> Prop).
Context `{!SourceRefines src1 src2 R} `{cfg : Config}.

(** A computation of the parser that does not depend on the reader. *)
Abbreviation indep := (mrel (V:=pval) (E:=event) (parser_rel R)).
#[local] Instance indep_rel : ProdRel src1 src2 := fun A => indep.

Lemma indep_tokens_left p1 p2 : parser_rel R p1 p2 -> tokens_left p1 = tokens_left p2.
Proof.
  intros [[Hs Hf Ht] _]. injection Hf as _ Hn _ _ _. injection Ht as Ht _ _ _ _ _.
  unfold tokens_left, ptok, scan_measure. by rewrite Ht, Hn, (ref_left _ _ Hs).
Qed.

Lemma indep_scan : indep scan scan.
Proof.
  intros p1 p2 [Hs Hf]. pose proof (srel_next R (scanner_ p1) (scanner_ p2) Hs) as Hr.
  unfold res_rel, scan in *.
  destruct (Scanner.next (scanner_ p1)) as [[[a1 r1] t1]| |], (Scanner.next (scanner_ p2)) as [[[a2 r2] t2]| |]; try done.
  - destruct Hr as (_ & <- & Hr). split_and!; [done..|by split].
  - by subst.
Qed.

Lemma indep_errorAt pos msg : indep (errorAt pos msg) (errorAt pos msg).
Proof.
  unfold errorAt. cbv zeta. apply mrel_bind; [apply mrel_modify; prel_modified|intros _].
  apply mrel_bind; [apply mrel_modify; prel_modified|intros _].
  destruct has_errh; [apply mrel_emit|]. apply mrel_bind; [apply mrel_gets; prel_fields|intros f]. apply mrel_panic.
Qed.

Lemma indep_check_branches body : indep (check_branches body) (check_branches body).
Proof. unfold check_branches. destruct (checkBranches _ _ _) as [[[u sc] t]| |]; [|apply mrel_panic|]; by intros p1 p2 Hp. Qed.

#[local] Instance indep_laws : ProdRelLaws R cfg cfg indep_rel.
Proof.
  split; intros; unfold prod_rel, indep_rel in *.
  - done.
  - by apply indep_tokens_left.
  - apply mrel_ret.
  - by apply mrel_bind.
  - apply mrel_panic.
  - by intros p1 p2 Hp.
  - apply mrel_emit.
  - by apply mrel_gets.
  - by apply mrel_modify.
  - apply indep_scan.
  - apply indep_errorAt.
  - by apply indep_check_branches.
Qed.

(** [Parse] gives the same result over related readers. *)
Lemma Parse_refines r1 r2 : R r1 r2 -> Parse r1 = Parse r2.
Proof.
  intros Hr. assert (Hp : parser_rel R (init r1) (init r2)) by by repeat split.
  pose proof (prel_Parse R cfg cfg _ _ Hp) as Hm. unfold Parse, res_rel in *.
  destruct (bind _ _ (init r1)) as [[[[f1 e1] p1] t1]|v1|], (bind _ _ (init r2)) as [[[[f2 e2] p2] t2]|v2|]; try done.
  - destruct Hm as (Ha & <- & _). by injection Ha as <- <-.
  - by subst.
Qed.
End Relation.

#[local] Existing Instance buffered_source.

(** C6: the result of [Parse], its tree, its error and the calls of its
    handlers, is a function of the bytes and read errors of the input: two
    readers that deliver the same input (free of NUL) in different pieces give
    the same result. *)
Theorem Parse_independent_of_reads `{cfg : Config} script1 script2 :
  bytes_script script1 -> bytes_script script2 ->
  script_items 0 script1 = script_items 0 script2 -> no_nul (script_items 0 script1) ->
  Parse (Source.init script1) = Parse (Source.init script2).
Proof.
  intros Hb1 Hb2 Heq Hn.
  rewrite (Parse_refines reads_as _ _ (init_reads_as script1 Hb1 Hn)).
  rewrite (Parse_refines reads_as _ _ (init_reads_as script2 Hb2 ltac:(by rewrite <- Heq))).
  by rewrite Heq.
Qed.

(** A file at once, and byte by byte. *)
Definition whole : list read := [Read (bytes_of_string "package p; var x = 1") (Some EOF)].
Definition pieces : list read :=
  map (fun b => Read [b] None) (bytes_of_string "package p; var x = 1") ++ [Read [] (Some EOF)].

Lemma bytes_script_dec script :
  forallb (fun x => forallb (fun b => (0 <=? b) && (b <? 256)) (r_data x)) script = true -> bytes_script script.
Proof.
  intros Hs. rewrite forallb_forall in Hs. apply List.Forall_forall. intros x Hx. by apply is_byte_dec, Hs.
Qed.

Lemma Parse_independent_of_reads_witness :
  script_items 0 whole = script_items 0 pieces /\
  Parse (cfg := config true 0) (Source.init whole) = Parse (cfg := config true 0) (Source.init pieces).
Proof.
  split; [reflexivity|]. apply (Parse_independent_of_reads (cfg := config true 0)).
  - by apply bytes_script_dec.
  - by apply bytes_script_dec.
  - reflexivity.
  - unfold no_nul. cbn. by repeat constructor.
Defined.
