(* ===== verification/ParserErrors.v ===== *)
(** * The parser with and without an error handler

    Without an error handler the parser stops, with a panic that [Parse]
    recovers from, at the first error.  The two modes are related: they run
    alike up to the first error, which the run with a handler has recorded from
    then on. *)

From S2P Require Import Prelude Tokens Source Stream Pos Nodes WellFormed Exprs Branches Scanner.
From S2P Require Import ScannerFacts Parser ParserFacts Grammar ParserRelation FileFacts.

#[local] Open Scope Z_scope.
#[local] Open Scope go_scope.

(** The same parser with an error handler. *)
Definition with_handler (cfg : Config) : Config := {|
  file := file (Config := cfg);
  has_errh := true;
  pmode := pmode (Config := cfg);
  pragh := pragh (Config := cfg);
  map_range := map_range (Config := cfg)
|}.

Section Errors.
Context {src : Type} `{SourceLaws src} (cfg : Config) (Hno : has_errh (Config := cfg) = false) (Hoff : branches_off (cfg := cfg)).
Abbreviation parser := (parser src).
Abbreviation PM := (PM (src := src)).

(** An error that is recorded stays. *)
Definition keeps_error {A} (m : PM A) : Prop := forall p e, first p = Some e ->
  match m p with Ok (_, p', _) => first p' = Some e | _ => True end.

(** From a state without an error [m1] does what [m2] does and records no error,
    or it stops with the error that [m2] records. *)
Definition stops_early {A} (m1 m2 : PM A) : Prop := forall p, first p = None ->
  match m1 p with
  | Ok (a, p', t) => first p' = None /\ m2 p = Ok (a, p', t)
  | Panic (PError e) => match m2 p with Ok (_, p', _) => first p' = Some e | _ => True end
  | _ => True
  end.

#[local] Instance error_rel : ProdRel src src := fun A m1 m2 => stops_early m1 m2 /\ keeps_error m2.

Lemma errors_bind {A B} (m1 m2 : PM A) (k1 k2 : A -> PM B) :
  prod_rel m1 m2 -> (forall a, prod_rel (k1 a) (k2 a)) -> prod_rel (bind m1 k1) (bind m2 k2).
Proof.
  intros [Hm Km] Hk. split.
  - intros p Hp. specialize (Hm p Hp). unfold bind. destruct (m1 p) as [[[a p'] t]|[e|msg]|]; [| |done..].
    + destruct Hm as [Hp' ->]. destruct (Hk a) as [Hs _]. specialize (Hs p' Hp').
      destruct (k1 a p') as [[[b p''] t']|[e|msg]|]; [by destruct Hs as [? ->]| |done..].
      by destruct (k2 a p') as [[[b q] u]| |].
    + destruct (m2 p) as [[[a p'] t]| |]; [|done..]. destruct (Hk a) as [_ Hs]. specialize (Hs p' e Hm).
      by destruct (k2 a p') as [[[b q] u]| |].
  - intros p e Hp. specialize (Km p e Hp). unfold bind. destruct (m2 p) as [[[a p'] t]| |]; [|done..].
    destruct (Hk a) as [_ Hs]. specialize (Hs p' e Km). by destruct (k2 a p') as [[[b q] u]| |].
Qed.

Lemma parser_eq (p1 p2 : parser) : parser_rel eq p1 p2 -> p1 = p2.
Proof.
  destruct p1 as [s1], p2 as [s2]. intros [[Hs Hf Ht] Hp]. cbn in *. destruct s1, s2. cbn in *. congruence.
Qed.

Lemma parser_refl (p : parser) : parser_rel eq p p.
Proof. by repeat split. Qed.
Lemma errors_errorAt pos msg : prod_rel (errorAt (cfg := cfg) pos msg) (errorAt (cfg := with_handler cfg) pos msg).
Proof.
  unfold errorAt. rewrite Hno. split; [intros p Hp|intros p e Hp]; unfold bind, modify, gets, panic, emit, ret; cbn; rewrite Hp; cbn; done.
Qed.

#[local] Instance error_laws : ProdRelLaws eq cfg (with_handler cfg) error_rel.
Proof.
  split; intros.
  - done.
  - by rewrite (parser_eq p1 p2).
  - by split; [intros p Hp|intros p e' Hp].
  - by apply errors_bind.
  - split; [intros p Hp; by destruct v|by intros p e' Hp].
  - by split; [intros p Hp|intros p e' Hp].
  - by split; [intros p Hp|intros p e' Hp].
  - assert (E : forall p, f1 p = f2 p) by (intros p; auto using parser_refl). split; intros p; cbn; [by rewrite E|done].
  - assert (E : forall p, g1 p = g2 p) by (intros p; auto using parser_eq, parser_refl).
    split; [intros p Hp|intros p e Hp]; cbn; [rewrite E|]; by rewrite H2.
  - split; [intros p Hp|intros p e Hp]; unfold scan; by destruct (Scanner.next _) as [[[u s] t]| |].
  - apply errors_errorAt.
  - done.
Qed.

(** What [Parse] runs. *)
Definition run (c : Config) (r : src) : res pval (option File * option Error * parser * list event) :=
  (Parser.next (cfg := c);;; let* f := tied (cfg := c) (fileOrNil (cfg := c)) in let* e := gets first in ret (f, e)) (init (cfg := c) r).

Lemma run_returns (c : Config) r : src_ok r -> Z.of_nat (src_left r) < 2 ^ 62 -> branches_off (cfg := c) ->
  match run c r with
  | Ok (f, e, p, t) => e = first p /\ recorded (cfg := c) (init (cfg := c) r) p t /\
      match f with Some f => wf_file f = true | None => is_some e = true end
  | Panic v => pallowed (cfg := c) v
  | NoFuel => False
  end.
Proof.
  intros Hr Hl Hb. pose proof (Parse_spec (cfg := c) r (or_intror Hb) Hr Hl) as Hs. unfold spec_to, wp in Hs.
  assert (E : run c r = bind (Parser.next (cfg := c);;; tied (cfg := c) (fileOrNil (cfg := c))) (fun f => let* e := gets first in ret (f, e)) (init (cfg := c) r))
    by (symmetry; apply bind_assoc).
  rewrite E. unfold bind at 1. destruct ((Parser.next;;; tied fileOrNil) (init r)) as [[[f p] t]|v|]; [|exact Hs..].
  destruct Hs as [(_ & _ & _ & _ & _ & Hrec) Hf]. cbn. rewrite app_nil_r. split_and!; [done|by apply Hrec|]. by destruct f.
Qed.

(** C30: without an error handler [Parse] stops at the first error.  It gives the
    file and the calls of the other handler that it gives with one, where no
    error is reported; otherwise it gives no file and the error that the handler
    would have been given first.  [checkBranches] is off. *)
Theorem Parse_stops_at_error r : src_ok r -> Z.of_nat (src_left r) < 2 ^ 62 ->
  exists f e t, Parse (cfg := with_handler cfg) r = Ok (f, e, t) /\ e = head (reported t) /\
    (e = None -> exists g, f = Some g /\ wf_file g = true) /\
    Parse (cfg := cfg) r = match e with None => Ok (f, None, t) | Some e => Ok (None, Some e, []) end.
Proof.
  intros Hr Hl. destruct (prel_Parse eq cfg (with_handler cfg)) as [Hs _]. specialize (Hs (init (cfg := cfg) r) eq_refl).
  pose proof (run_returns cfg r Hr Hl Hoff) as H1. pose proof (run_returns (with_handler cfg) r Hr Hl Hoff) as H2.
  unfold Parse. fold (run cfg r). fold (run (with_handler cfg) r).
  change (match run cfg r with
    | Ok (a, p', t) => first p' = None /\ run (with_handler cfg) r = Ok (a, p', t)
    | Panic (PError e) => match run (with_handler cfg) r with Ok (_, p', _) => first p' = Some e | _ => True end
    | _ => True end) in Hs.
  destruct (run (with_handler cfg) r) as [[[[f e] p] t]|v|] eqn:E2; [|by destruct H2 as [H2 _]|done].
  destruct H2 as (-> & Hrec & Hf). exists f, (first p), t. split; [done|]. split; [by destruct Hrec|].
  split; [intros En; rewrite En in Hf; destruct f as [g|]; [by exists g|done]|].
  destruct (run cfg r) as [[[[f1 e1] p1] t1]|[e1|msg]|]; [| |by destruct H1 as [_ [? ?]]|done].
  - destruct Hs as [Hn [= <- <- <- <-]]. by rewrite Hn.
  - by rewrite Hs.
Qed.
End Errors.

(** A file with two errors: the first one stops the parser without a handler. *)
Lemma Parse_stops_at_error_witness :
  exists f e t, Parse (cfg := with_handler (config false 0)) broken = Ok (f, e, t) /\ e = head (reported t) /\
    (e = None -> exists g, f = Some g /\ wf_file g = true) /\
    Parse (cfg := config false 0) broken = match e with None => Ok (f, None, t) | Some e => Ok (None, Some e, []) end.
Proof. apply (Parse_stops_at_error (config false 0)); [reflexivity|reflexivity|apply broken_ok..]. Defined.
