(* ===== verification/Bits.v ===== *)
(** * src/src/math/bits: counting bits

    The lengths and trailing zeros of unsigned words, by table and by
    multiplication with a de Bruijn sequence, as the code writes them for
    machines without such instructions. *)

From S2P Require Import Prelude.

#[local] Open Scope Z_scope.

Definition deBruijn32 : Z := 0x077CB531.
Definition deBruijn32tab : list Z :=
  [0; 1; 28; 2; 29; 14; 24; 3; 30; 22; 20; 15; 25; 17; 4; 8;
   31; 27; 13; 23; 21; 19; 16; 7; 26; 12; 18; 6; 11; 5; 10; 9].

Definition deBruijn64 : Z := 0x03f79d71b4ca8b09.
Definition deBruijn64tab : list Z :=
  [0; 1; 56; 2; 57; 49; 28; 3; 61; 58; 42; 50; 38; 29; 17; 4;
   62; 47; 59; 36; 45; 43; 51; 22; 53; 39; 33; 30; 24; 18; 12; 5;
   63; 55; 48; 27; 60; 41; 37; 16; 46; 35; 44; 21; 52; 32; 23; 11;
   54; 26; 40; 15; 34; 20; 31; 10; 25; 14; 19; 9; 13; 8; 7; 6].

Definition len8tab : list Z :=
  [0; 1; 2; 2; 3; 3; 3; 3; 4; 4; 4; 4; 4; 4; 4; 4; 5; 5; 5; 5; 5; 5; 5; 5; 5; 5; 5; 5; 5; 5; 5; 5;
   6; 6; 6; 6; 6; 6; 6; 6; 6; 6; 6; 6; 6; 6; 6; 6; 6; 6; 6; 6; 6; 6; 6; 6; 6; 6; 6; 6; 6; 6; 6; 6;
   7; 7; 7; 7; 7; 7; 7; 7; 7; 7; 7; 7; 7; 7; 7; 7; 7; 7; 7; 7; 7; 7; 7; 7; 7; 7; 7; 7; 7; 7; 7; 7;
   7; 7; 7; 7; 7; 7; 7; 7; 7; 7; 7; 7; 7; 7; 7; 7; 7; 7; 7; 7; 7; 7; 7; 7; 7; 7; 7; 7; 7; 7; 7; 7;
   8; 8; 8; 8; 8; 8; 8; 8; 8; 8; 8; 8; 8; 8; 8; 8; 8; 8; 8; 8; 8; 8; 8; 8; 8; 8; 8; 8; 8; 8; 8; 8;
   8; 8; 8; 8; 8; 8; 8; 8; 8; 8; 8; 8; 8; 8; 8; 8; 8; 8; 8; 8; 8; 8; 8; 8; 8; 8; 8; 8; 8; 8; 8; 8;
   8; 8; 8; 8; 8; 8; 8; 8; 8; 8; 8; 8; 8; 8; 8; 8; 8; 8; 8; 8; 8; 8; 8; 8; 8; 8; 8; 8; 8; 8; 8; 8;
   8; 8; 8; 8; 8; 8; 8; 8; 8; 8; 8; 8; 8; 8; 8; 8; 8; 8; 8; 8; 8; 8; 8; 8; 8; 8; 8; 8; 8; 8; 8; 8].

(** ** Lengths *)

Definition Len8 (x : Z) : Z := nthZ 0 len8tab x.

Definition Len16 (x : Z) : Z :=
  let '(x, n) := if Z.shiftl 1 8 <=? x then (Z.shiftr x 8, 8) else (x, 0) in
  n + nthZ 0 len8tab x.

Definition Len32 (x : Z) : Z :=
  let '(x, n) := if Z.shiftl 1 16 <=? x then (Z.shiftr x 16, 16) else (x, 0) in
  let '(x, n) := if Z.shiftl 1 8 <=? x then (Z.shiftr x 8, n + 8) else (x, n) in
  n + nthZ 0 len8tab x.

Definition Len64 (x : Z) : Z :=
  let '(x, n) := if Z.shiftl 1 32 <=? x then (Z.shiftr x 32, 32) else (x, 0) in
  let '(x, n) := if Z.shiftl 1 16 <=? x then (Z.shiftr x 16, n + 16) else (x, n) in
  let '(x, n) := if Z.shiftl 1 8 <=? x then (Z.shiftr x 8, n + 8) else (x, n) in
  n + nthZ 0 len8tab x.

Definition LeadingZeros8 (x : Z) : Z := 8 - Len8 x.
Definition LeadingZeros16 (x : Z) : Z := 16 - Len16 x.
Definition LeadingZeros32 (x : Z) : Z := 32 - Len32 x.
Definition LeadingZeros64 (x : Z) : Z := 64 - Len64 x.

(** ** Trailing zeros *)

Definition TrailingZeros32 (x : Z) : Z :=
  if x =? 0 then 32
  else nthZ 0 deBruijn32tab (Z.shiftr (u32 (Z.land x (u32 (- x)) * deBruijn32)) (32 - 5)).

Definition TrailingZeros64 (x : Z) : Z :=
  if x =? 0 then 64
  else nthZ 0 deBruijn64tab (Z.shiftr (u64 (Z.land x (u64 (- x)) * deBruijn64)) (64 - 6)).

(** ** Lengths as logarithms *)

(** The number of binary digits. *)
Definition size (x : Z) : Z := if x =? 0 then 0 else Z.log2 x + 1.

Lemma size_bounds x : 0 < x -> 2 ^ (size x - 1) <= x < 2 ^ size x /\ 0 < size x.
Proof.
  intros Hx. unfold size. destruct (x =? 0) eqn:E; [lia|]. pose proof (Z.log2_spec x Hx). pose proof (Z.log2_nonneg x).
  replace (Z.log2 x + 1 - 1) with (Z.log2 x) by lia. rewrite Z.add_1_r. lia.
Qed.

Lemma size_shiftr x k : 0 <= k -> 2 ^ k <= x -> size x = k + size (Z.shiftr x k).
Proof.
  intros Hk Hx. assert (0 < 2 ^ k) by (apply Z.pow_pos_nonneg; lia). pose proof (Z.log2_le_mono (2 ^ k) x Hx) as Hl.
  rewrite Z.log2_pow2 in Hl by done. unfold size. rewrite Z.log2_shiftr by lia.
  assert (0 < Z.shiftr x k) by (rewrite Z.shiftr_div_pow2 by done; apply Z.div_str_pos; lia).
  destruct (x =? 0) eqn:E; [lia|]. destruct (Z.shiftr x k =? 0) eqn:E1; [lia|]. lia.
Qed.

Lemma len8tab_size x : 0 <= x < 256 -> nthZ 0 len8tab x = size x.
Proof.
  intros Hx. assert (Hall : forallb (fun k => nthZ 0 len8tab k =? size k) (map Z.of_nat (seq 0 256)) = true) by (vm_compute; reflexivity).
  apply Z.eqb_eq, (forallb_below _ _ _ Hall). lia.
Qed.

(** One halving of the code. *)
Lemma halving x n k : 0 <= x < 2 ^ (k + k) -> 0 <= k -> forall Q : Z * Z -> Prop,
  (forall x' n', 0 <= x' < 2 ^ k -> n' + size x' = n + size x -> Q (x', n')) ->
  Q (if Z.shiftl 1 k <=? x then (Z.shiftr x k, n + k) else (x, n)).
Proof.
  intros Hx Hk Q HQ. rewrite Z.shiftl_1_l. rewrite Z.pow_add_r in Hx by lia. destruct (2 ^ k <=? x) eqn:E.
  - apply HQ; [|rewrite (size_shiftr x k); lia]. rewrite Z.shiftr_div_pow2 by lia.
    assert (0 < 2 ^ k) by (apply Z.pow_pos_nonneg; lia). split; [apply Z.div_pos; lia|apply Z.div_lt_upper_bound; lia].
  - apply HQ; [lia|done].
Qed.

Lemma Len8_size x : 0 <= x < 2 ^ 8 -> Len8 x = size x.
Proof. apply len8tab_size. Qed.

Lemma Len16_size x : 0 <= x < 2 ^ 16 -> Len16 x = size x.
Proof.
  intros Hx. unfold Len16. change 8 with (0 + 8) at 3. apply halving; [done|lia|]. intros x' n' Hx' E.
  rewrite len8tab_size by done. lia.
Qed.

Lemma Len32_size x : 0 <= x < 2 ^ 32 -> Len32 x = size x.
Proof.
  intros Hx. unfold Len32. change 16 with (0 + 16) at 3. apply halving; [done|lia|]. intros x' n' Hx' E.
  apply halving; [done|lia|]. intros x2 n2 Hx2 E2. rewrite len8tab_size by done. lia.
Qed.

Lemma Len64_size x : 0 <= x < 2 ^ 64 -> Len64 x = size x.
Proof.
  intros Hx. unfold Len64. change 32 with (0 + 32) at 3. apply halving; [done|lia|]. intros x' n' Hx' E.
  apply halving; [done|lia|]. intros x2 n2 Hx2 E2. apply halving; [done|lia|]. intros x3 n3 Hx3 E3.
  rewrite len8tab_size by done. lia.
Qed.

(** ** The lowest bit *)

Lemma odd_split o : Z.odd o = true -> exists j, o = 2 * j + 1.
Proof. intros H. apply Z.odd_spec in H as [j ->]. by exists j. Qed.

Lemma land_neg_odd o : Z.odd o = true -> Z.land o (- o) = 1.
Proof.
  intros (j & ->)%odd_split. replace (- (2 * j + 1)) with (Z.lnot (2 * j)) by (unfold Z.lnot; lia).
  apply Z.bits_inj'. intros i Hi. rewrite Z.land_spec, Z.lnot_spec by done.
  destruct (Z.eq_dec i 0) as [->|Hn]; [by rewrite Z.testbit_odd_0, Z.testbit_even_0|].
  replace i with (Z.succ (i - 1)) by lia. rewrite Z.testbit_odd_succ, Z.testbit_even_succ by lia.
  rewrite (Z.bits_above_log2 1) by (cbn; lia). by destruct (Z.testbit j (i - 1)).
Qed.

Lemma land_neg k o : 0 <= k -> Z.odd o = true -> Z.land (2 ^ k * o) (- (2 ^ k * o)) = 2 ^ k.
Proof.
  intros Hk Ho. replace (2 ^ k * o) with (Z.shiftl o k) by (rewrite Z.shiftl_mul_pow2; lia).
  replace (- Z.shiftl o k) with (Z.shiftl (- o) k) by (rewrite !Z.shiftl_mul_pow2 by done; ring).
  rewrite <- Z.shiftl_land, land_neg_odd by done. apply Z.shiftl_1_l.
Qed.

Lemma land_wrap x y n : 0 <= n -> 0 <= x < 2 ^ n -> Z.land x (y mod 2 ^ n) = Z.land x y.
Proof.
  intros Hn Hx. rewrite <- Z.land_ones, (Z.land_comm y), Z.land_assoc, Z.land_ones by done. by rewrite Z.mod_small.
Qed.

(** A number but 0 is an odd number times a power of 2. *)
Lemma odd_part n : forall x, 0 < x < 2 ^ Z.of_nat n -> exists k o, 0 <= k < Z.of_nat n /\ Z.odd o = true /\ x = 2 ^ k * o.
Proof.
  induction n as [|n IH]; intros x Hx; [cbn in Hx; lia|]. rewrite Nat2Z.inj_succ, Z.pow_succ_r in Hx by lia.
  destruct (Z.odd x) eqn:E.
  - exists 0, x. split_and!; [lia..|done|]. by rewrite Z.pow_0_r, Z.mul_1_l.
  - assert (Hev : Z.even x = true) by (rewrite <- Z.negb_odd, E; done). apply Z.even_spec in Hev as [y ->].
    destruct (IH y) as (k & o & Hk & Ho & ->); [lia|]. exists (k + 1), o. split_and!; [lia..|done|].
    rewrite Z.pow_add_r by lia. ring.
Qed.

Definition deBruijn_ok (bits shift seq : Z) (tab : list Z) : bool :=
  forallb (fun k => nthZ 0 tab (Z.shiftr ((2 ^ k * seq) mod 2 ^ bits) shift) =? k) (map Z.of_nat (List.seq 0 (Z.to_nat bits))).

Lemma deBruijn_ok_at bits shift seq tab k : deBruijn_ok bits shift seq tab = true -> 0 <= k < bits ->
  nthZ 0 tab (Z.shiftr ((2 ^ k * seq) mod 2 ^ bits) shift) = k.
Proof.
  intros Hall Hk. apply Z.eqb_eq, (forallb_below _ _ _ Hall). lia.
Qed.

(** [TrailingZeros64] of a word that is not 0 is the exponent of 2 in it. *)
Lemma TrailingZeros64_spec x : 0 < x < 2 ^ 64 ->
  0 <= TrailingZeros64 x < 64 /\ exists o, Z.odd o = true /\ x = 2 ^ TrailingZeros64 x * o.
Proof.
  intros Hx. destruct (odd_part 64 x Hx) as (k & o & Hk & Ho & E). assert (Ek : TrailingZeros64 x = k).
  { unfold TrailingZeros64, u64. destruct (x =? 0) eqn:E0; [lia|]. rewrite land_wrap by lia.
    rewrite E, land_neg by (done || lia). by apply deBruijn_ok_at; [vm_compute|]. }
  rewrite Ek. split; [lia|]. by exists o.
Qed.

Lemma TrailingZeros32_spec x : 0 < x < 2 ^ 32 ->
  0 <= TrailingZeros32 x < 32 /\ exists o, Z.odd o = true /\ x = 2 ^ TrailingZeros32 x * o.
Proof.
  intros Hx. destruct (odd_part 32 x Hx) as (k & o & Hk & Ho & E). assert (Ek : TrailingZeros32 x = k).
  { unfold TrailingZeros32, u32. destruct (x =? 0) eqn:E0; [lia|]. rewrite land_wrap by lia.
    rewrite E, land_neg by (done || lia). by apply deBruijn_ok_at; [vm_compute|]. }
  rewrite Ek. split; [lia|]. by exists o.
Qed.
