(* ===== verification/Magic.v ===== *)
(** * src/src/cmd/compile/internal/ssa/magic.go: division by constants

    The constants with which a division by a constant becomes a multiplication
    and shifts, and a test for divisibility a multiplication, a rotation and a
    comparison.  The big integers of the code are integers; a panic is the
    panic of the result. *)

From S2P Require Import Prelude Bits.

#[local] Open Scope Z_scope.

(** math/big: [Bit], [SetBit] to 0 and [BitLen] of an [Int], and the Euclidean
    division of [Div]. *)
Definition big_BitLen (x : Z) : Z := size (Z.abs x).
Definition big_Div (x y : Z) : Z := if y <? 0 then - (x / - y) else x / y.

(** The constant that an [n]-bit [AuxInt] stands for. *)
Definition const_bits (n c : Z) : Z := Z.shiftr (u64 (Z.shiftl (u64 c) (64 - n))) (64 - n).

(** ** Unsigned division *)

Definition umagicOK (n c : Z) : bool :=
  let d := const_bits n c in
  negb (Z.land d (u64 (d - 1)) =? 0).

Definition umagicOK8 (c : Z) : bool := negb (Z.land c (s8 (c - 1)) =? 0).
Definition umagicOK16 (c : Z) : bool := negb (Z.land c (s16 (c - 1)) =? 0).
Definition umagicOK32 (c : Z) : bool := negb (Z.land c (s32 (c - 1)) =? 0).
Definition umagicOK64 (c : Z) : bool := negb (Z.land c (s64 (c - 1)) =? 0).

Record umagicData := UmagicData { um_s : Z; um_m : Z }.

Definition umagic (n c : Z) : res string umagicData :=
  let d := const_bits n c in
  let C := d in
  let s := big_BitLen C in
  let M := Z.shiftl 1 (n + s) in
  let M := M + C in
  let M := M - 1 in
  if C =? 0 then Panic "division by zero"%string
  else
    let M := big_Div M C in
    if negb (Z.testbit M n) then Panic "n+1st bit isn't set"%string
    else
      let M := Z.clearbit M n in
      Ok (UmagicData s (u64 M)).

Definition umagic8 (c : Z) : res string umagicData := umagic 8 c.
Definition umagic16 (c : Z) : res string umagicData := umagic 16 c.
Definition umagic32 (c : Z) : res string umagicData := umagic 32 c.
Definition umagic64 (c : Z) : res string umagicData := umagic 64 c.

(** ** Signed division *)

Definition smagicOK (n c : Z) : bool :=
  if c <? 0 then false else negb (Z.land c (s64 (c - 1)) =? 0).

Definition smagicOK8 (c : Z) : bool := smagicOK 8 c.
Definition smagicOK16 (c : Z) : bool := smagicOK 16 c.
Definition smagicOK32 (c : Z) : bool := smagicOK 32 c.
Definition smagicOK64 (c : Z) : bool := smagicOK 64 c.

Record smagicData := SmagicData { sm_s : Z; sm_m : Z }.

Definition smagic (n c : Z) : res string smagicData :=
  let C := c in
  let s := big_BitLen C - 1 in
  let M := Z.shiftl 1 (n + s) in
  let M := M + C in
  let M := M - 1 in
  if C =? 0 then Panic "division by zero"%string
  else
    let M := big_Div M C in
    if Z.testbit M n then Panic "n+1st bit is set"%string
    else if negb (Z.testbit M (n - 1)) then Panic "nth bit is not set"%string
    else Ok (SmagicData s (u64 M)).

Definition smagic8 (c : Z) : res string smagicData := smagic 8 c.
Definition smagic16 (c : Z) : res string smagicData := smagic 16 c.
Definition smagic32 (c : Z) : res string smagicData := smagic 32 c.
Definition smagic64 (c : Z) : res string smagicData := smagic 64 c.

(** ** Divisibility of unsigned numbers *)

Definition udivisibleOK (n c : Z) : bool :=
  let d := const_bits n c in
  negb (Z.land d (u64 (d - 1)) =? 0).

Definition udivisibleOK8 (c : Z) : bool := udivisibleOK 8 c.
Definition udivisibleOK16 (c : Z) : bool := udivisibleOK 16 c.
Definition udivisibleOK32 (c : Z) : bool := udivisibleOK 32 c.
Definition udivisibleOK64 (c : Z) : bool := udivisibleOK 64 c.

Record udivisibleData := UdivisibleData { ud_k : Z; ud_m : Z; ud_max : Z }.

(** [^uint64(0) >> (64 - n)] *)
Definition low_mask (n : Z) : Z := Z.shiftr (2 ^ 64 - 1) (64 - n).

(** The inverse of an odd number by Newton's method. *)
Definition newton (d0 m : Z) : Z := u64 (m * u64 (2 - u64 (m * d0))).
Definition inverse (d0 mask : Z) : Z :=
  let m := d0 in
  let m := newton d0 m in
  let m := newton d0 m in
  let m := newton d0 m in
  let m := newton d0 m in
  let m := newton d0 m in
  Z.land m mask.

Definition udivisible (n c : Z) : res string udivisibleData :=
  let d := const_bits n c in
  let k := TrailingZeros64 d in
  let d0 := Z.shiftr d k in
  let mask := low_mask n in
  let m := inverse d0 mask in
  if d =? 0 then Panic "integer divide by zero"%string
  else
    let max := mask / d in
    Ok (UdivisibleData k m max).

Definition udivisible8 (c : Z) : res string udivisibleData := udivisible 8 c.
Definition udivisible16 (c : Z) : res string udivisibleData := udivisible 16 c.
Definition udivisible32 (c : Z) : res string udivisibleData := udivisible 32 c.
Definition udivisible64 (c : Z) : res string udivisibleData := udivisible 64 c.

(** ** Divisibility of signed numbers *)

Definition sdivisibleOK (n c : Z) : bool :=
  if c <? 0 then false else negb (Z.land c (s64 (c - 1)) =? 0).

Definition sdivisibleOK8 (c : Z) : bool := sdivisibleOK 8 c.
Definition sdivisibleOK16 (c : Z) : bool := sdivisibleOK 16 c.
Definition sdivisibleOK32 (c : Z) : bool := sdivisibleOK 32 c.
Definition sdivisibleOK64 (c : Z) : bool := sdivisibleOK 64 c.

Record sdivisibleData := SdivisibleData { sd_k : Z; sd_m : Z; sd_a : Z; sd_max : Z }.

Definition sdivisible (n c : Z) : res string sdivisibleData :=
  let d := u64 c in
  let k := TrailingZeros64 d in
  let d0 := Z.shiftr d k in
  let mask := low_mask n in
  let m := inverse d0 mask in
  if d0 =? 0 then Panic "integer divide by zero"%string
  else
    let a := Z.land (Z.shiftr mask 1 / d0) (u64 (- u64 (Z.shiftl 1 k))) in
    let max := Z.shiftr (u64 (2 * a)) k in
    Ok (SdivisibleData k m a max).

Definition sdivisible8 (c : Z) : res string sdivisibleData := sdivisible 8 c.
Definition sdivisible16 (c : Z) : res string sdivisibleData := sdivisible 16 c.
Definition sdivisible32 (c : Z) : res string sdivisibleData := sdivisible 32 c.
Definition sdivisible64 (c : Z) : res string sdivisibleData := sdivisible 64 c.

Module MagicExamples.
Example umagic_7 : umagic8 7 = Ok (UmagicData 3 37). Proof. vm_compute. reflexivity. Qed.
Example umagic_high : umagic8 (-1) = Ok (UmagicData 8 2). Proof. vm_compute. reflexivity. Qed.
Example umagic_3_64 : umagic64 3 = Ok (UmagicData 2 0x5555555555555556). Proof. vm_compute. reflexivity. Qed.
Example smagic_3 : smagic32 3 = Ok (SmagicData 1 0xAAAAAAAB). Proof. vm_compute. reflexivity. Qed.
Example udivisible_6 : udivisible16 6 = Ok (UdivisibleData 1 0xAAAB 10922). Proof. vm_compute. reflexivity. Qed.
Example sdivisible_6 : sdivisible8 6 = Ok (SdivisibleData 1 0xAB 42 42). Proof. vm_compute. reflexivity. Qed.
End MagicExamples.
