(* ===== verification/MagicFacts.v ===== *)
(** * Properties of the constants for divisions

    Multiplying by the constants of magic.go divides, for every constant that
    the code accepts and every dividend of the width, and the tests for
    divisibility are exact. *)

From S2P Require Import Prelude Bits Magic.

#[local] Open Scope Z_scope.

(** ** Words and constants *)

Definition width (n : Z) : Prop := 0 < n <= 64.

Lemma pow_pos n : 0 <= n -> 0 < 2 ^ n.
Proof. intros. apply Z.pow_pos_nonneg; lia. Qed.

Lemma word64_small x : 0 <= x < 2 ^ 64 -> u64 x = x.
Proof. apply Z.mod_small. Qed.

(** The low [n] bits. *)
Lemma const_bits_mod n c : width n -> const_bits n c = c mod 2 ^ n.
Proof.
  intros [Hn0 Hn]. unfold const_bits, u64. rewrite Z.shiftl_mul_pow2, Z.shiftr_div_pow2 by lia.
  replace (2 ^ 64) with (2 ^ n * 2 ^ (64 - n)) by (rewrite <- Z.pow_add_r by lia; f_equal; lia).
  pose proof (pow_pos (64 - n)). pose proof (pow_pos n). rewrite Z.mul_mod_distr_r, Z.div_mul by lia.
  apply Z.mod_mod_divide. exists (2 ^ (64 - n)). ring.
Qed.

Lemma const_bits_bounds n c : width n -> 0 <= const_bits n c < 2 ^ n.
Proof. intros Hn. rewrite const_bits_mod by done. apply Z.mod_pos_bound, pow_pos. unfold width in Hn. lia. Qed.

Lemma word_bound n x : width n -> 0 <= x < 2 ^ n -> 0 <= x < 2 ^ 64.
Proof. intros [? ?] ?. pose proof (Z.pow_le_mono_r 2 n 64). lia. Qed.

(** [d & (d - 1) != 0]: strictly between two powers of 2. *)
Lemma no_power d : 0 <= d < 2 ^ 64 -> Z.land d (u64 (d - 1)) <> 0 ->
  0 < size d <= 64 /\ 2 ^ (size d - 1) < d < 2 ^ size d.
Proof.
  intros Hd Hl. destruct (Z.eq_dec d 0) as [->|Hd0]; [by rewrite Z.land_0_l in Hl|].
  destruct (size_bounds d) as [Hs Hs0]; [lia|].
  assert (Hne : d <> 2 ^ (size d - 1)).
  { intros E. apply Hl. rewrite word64_small by lia. rewrite E.
    replace (2 ^ (size d - 1) - 1) with (Z.ones (size d - 1)) by (rewrite Z.ones_equiv; lia).
    rewrite Z.land_ones by lia. apply Z_mod_same_full. }
  split; [|lia]. split; [done|]. destruct (Z.le_gt_cases (size d) 64) as [|Hgt]; [done|].
  pose proof (Z.pow_le_mono_r 2 64 (size d - 1)). lia.
Qed.

(** ** The quotient by a ceiling *)

Lemma ceiling a d : 0 < d -> exists e, (a + d - 1) / d * d = a + e /\ 0 <= e < d.
Proof.
  intros Hd. exists ((a + d - 1) / d * d - a). pose proof (Z.div_mod (a + d - 1) d). pose proof (Z.mod_pos_bound (a + d - 1) d). lia.
Qed.

(** The identity behind the multiplication: [M] is a little above [2 ^ N / d]. *)
Lemma magic_floor N d M e x : 0 <= N -> 0 < d -> M * d = 2 ^ N + e -> 0 <= e -> 0 <= x -> x * e < 2 ^ N ->
  x * M / 2 ^ N = x / d.
Proof.
  intros HN Hd HM He Hx Hxe. pose proof (pow_pos N HN) as HP. set (P := 2 ^ N) in *.
  pose proof (Z.div_mod x d ltac:(lia)) as Hdm. pose proof (Z.mod_pos_bound x d Hd) as Hr. set (q := x / d) in *.
  symmetry. apply (Z.div_unique_pos (x * M) P q (x * M - P * q)); [|ring].
  assert (Hmul : d * (x * M) = x * P + x * e) by (rewrite <- Z.mul_add_distr_l, <- HM; ring).
  assert (0 <= x * e) by (apply Z.mul_nonneg_nonneg; lia). split.
  - assert (d * (P * q) <= d * (x * M)) by nia. apply Z.mul_le_mono_pos_l in H0; lia.
  - assert (d * (x * M) < d * (P * (q + 1))) by nia. apply Z.mul_lt_mono_pos_l in H0; lia.
Qed.

(** ** Unsigned division *)

(** [x] from [2 ^ n] up to [2 ^ (n + 1)]: bit [n] is set, and the others are
    the rest. *)
Lemma top_bit n x : 0 <= n -> 2 ^ n <= x < 2 ^ (n + 1) -> Z.testbit x n = true /\ Z.clearbit x n = x - 2 ^ n.
Proof.
  intros Hn Hx. rewrite Z.pow_add_r, Z.pow_1_r in Hx by lia. assert (Hb : Z.testbit x n = true).
  { rewrite Z.testbit_true by done. replace (x / 2 ^ n) with 1; [done|]. apply (Z.div_unique_pos x (2 ^ n) 1 (x - 2 ^ n)); lia. }
  split; [done|]. rewrite Z.clearbit_spec'. symmetry. apply Z.sub_nocarry_ldiff. apply Z.bits_inj'. intros i Hi.
  rewrite Z.ldiff_spec, Z.pow2_bits_eqb, Z.bits_0 by done. destruct (Z.eqb_spec n i) as [->|]; [by rewrite Hb|done].
Qed.

Lemma umagicOK_spec n c : width n -> umagicOK n c = true ->
  let d := const_bits n c in 0 < size d <= n /\ 2 ^ (size d - 1) < d < 2 ^ size d.
Proof.
  intros Hn Hok. cbv zeta. unfold umagicOK in Hok. cbv zeta in Hok. apply negb_true_iff, Z.eqb_neq in Hok.
  pose proof (const_bits_bounds n c Hn) as Hd. set (d := const_bits n c) in *.
  destruct (no_power d (word_bound n d Hn Hd) Hok) as [Hs Hp]. split; [|done]. split; [lia|].
  destruct (Z.le_gt_cases (size d) n) as [|Hgt]; [done|]. pose proof (Z.pow_le_mono_r 2 n (size d - 1)). lia.
Qed.

(** The multiplier [2 ^ n + m], a little above [2 ^ (n + s) / d]. *)
Lemma umagic_data n c : width n -> umagicOK n c = true ->
  let d := const_bits n c in
  exists m e, umagic n c = Ok (UmagicData (size d) m) /\ 0 <= m < 2 ^ n /\
    (2 ^ n + m) * d = 2 ^ (n + size d) + e /\ 0 <= e < d.
Proof.
  intros Hn Hok. pose proof (umagicOK_spec n c Hn Hok) as [Hs Hd]. cbv zeta in *. pose proof (const_bits_bounds n c Hn) as Hdn.
  unfold umagic. cbv zeta. set (d := const_bits n c) in *. set (s := size d) in *. destruct Hn as [Hn0 Hn].
  assert (Hbl : big_BitLen d = s) by (unfold big_BitLen; rewrite Z.abs_eq; [done|lia]). rewrite Hbl.
  assert (H2s : 2 ^ (n + 1) * 2 ^ (s - 1) = 2 ^ (n + s)) by (rewrite <- Z.pow_add_r by lia; f_equal; lia).
  assert (H2n : 2 ^ n * 2 ^ s = 2 ^ (n + s)) by (rewrite <- Z.pow_add_r by lia; done).
  assert (H2 : 2 ^ (n + 1) = 2 * 2 ^ n) by (rewrite Z.pow_add_r by lia; lia).
  pose proof (pow_pos (s - 1) ltac:(lia)) as Hp. pose proof (pow_pos n ltac:(lia)) as Hpn.
  rewrite Z.shiftl_1_l. unfold big_Div. destruct (d <? 0) eqn:E0; [lia|]. destruct (d =? 0) eqn:E1; [lia|].
  destruct (ceiling (2 ^ (n + s)) d) as (e & He & Hed); [lia|]. set (M := (2 ^ (n + s) + d - 1) / d) in *.
  assert (HM : 2 ^ n <= M < 2 ^ (n + 1)) by nia.
  destruct (top_bit n M ltac:(lia) HM) as [Hb Hc]. rewrite Hb, Hc. cbn [negb].
  exists (M - 2 ^ n), e. rewrite word64_small by (apply (word_bound n); [split; lia|lia]). split_and!; [done|lia..| |lia|lia].
  replace (2 ^ n + (M - 2 ^ n)) with M by lia. exact He.
Qed.

(** C13: the constants of [umagic] divide by every constant that [umagicOK]
    accepts: [umagic] does not panic, its multiplier fits into a word, and for
    every [n]-bit dividend the multiplication and the shift give the quotient. *)
Theorem umagic_divides n c x : width n -> umagicOK n c = true -> 0 <= x < 2 ^ n ->
  exists s m, umagic n c = Ok (UmagicData s m) /\ 0 <= m < 2 ^ n /\
    x / const_bits n c = Z.shiftr (x * (m + 2 ^ n)) (n + s).
Proof.
  intros Hn Hok Hx. destruct (umagic_data n c Hn Hok) as (m & e & E & Hm & Hd & He).
  destruct (umagicOK_spec n c Hn Hok) as [Hs Hp]. set (d := const_bits n c) in *. destruct Hn as [Hn0 Hn].
  exists (size d), m. split_and!; [done|lia..|]. rewrite Z.shiftr_div_pow2 by lia. symmetry.
  rewrite Z.add_comm. apply (magic_floor (n + size d) d (2 ^ n + m) e); try lia.
  rewrite Z.pow_add_r by lia. nia.
Qed.

Lemma umagic_divides_witness :
  width 64 /\ umagicOK 64 7 = true /\ 0 <= 2 ^ 64 - 1 < 2 ^ 64 /\
  exists s m, umagic 64 7 = Ok (UmagicData s m) /\ 0 <= m < 2 ^ 64 /\
    (2 ^ 64 - 1) / const_bits 64 7 = Z.shiftr ((2 ^ 64 - 1) * (m + 2 ^ 64)) (64 + s).
Proof.
  assert (Hw : width 64) by (unfold width; lia). assert (Ho : umagicOK 64 7 = true) by (vm_compute; reflexivity).
  split; [exact Hw|]. split; [exact Ho|]. split; [lia|]. apply (umagic_divides 64 7 (2 ^ 64 - 1)); [exact Hw|exact Ho|lia].
Defined.

(** ** Signed division *)

Lemma smagicOK_spec n c : smagicOK n c = true -> 0 <= c < 2 ^ 63 ->
  1 < size c <= 63 /\ 2 ^ (size c - 1) < c < 2 ^ size c.
Proof.
  intros Hok Hc. unfold smagicOK in Hok. destruct (c <? 0) eqn:E; [done|]. apply negb_true_iff, Z.eqb_neq in Hok.
  assert (Hl : Z.land c (u64 (c - 1)) <> 0).
  { intros E0. apply Hok. destruct (Z.eq_dec c 0) as [->|]; [done|]. unfold s64. rewrite word64_small in E0 by lia.
    rewrite Z.mod_small by lia. replace (c - 1 + 2 ^ 63 - 2 ^ 63) with (c - 1) by lia. done. }
  destruct (no_power c ltac:(lia) Hl) as [Hs Hp]. split; [|done].
  destruct (Z.eq_dec (size c) 1) as [E1|]; [rewrite E1 in Hp; cbn in Hp; lia|].
  split; [lia|]. destruct (Z.le_gt_cases (size c) 63) as [|Hgt]; [done|]. pose proof (Z.pow_le_mono_r 2 63 (size c - 1)). lia.
Qed.

(** A divisor of a power of 2 is one. *)
Lemma divides_pow2 N : forall d q, 0 < d -> d * q = 2 ^ Z.of_nat N -> exists k, 0 <= k /\ d = 2 ^ k.
Proof.
  induction N as [|N IH]; intros d q Hd E.
  { exists 0. split; [done|]. cbn in E. rewrite Z.pow_0_r. assert (d * q = 1) by lia. apply Z.eq_mul_1_nonneg in H; lia. }
  rewrite Nat2Z.inj_succ, Z.pow_succ_r in E by lia. destruct (Z.even d) eqn:Ed.
  - apply Z.even_spec in Ed as [d' ->]. destruct (IH d' q) as (k & Hk & ->); [lia|nia|].
    exists (k + 1). split; [lia|]. rewrite Z.pow_add_r by lia. lia.
  - assert (Hq : Z.even q = true).
    { assert (He : Z.even (d * q) = true) by (rewrite E, Z.even_mul; done). by rewrite Z.even_mul, Ed in He. }
    apply Z.even_spec in Hq as [q' ->]. apply (IH d q'); [done|nia].
Qed.

Lemma smagic_data n c : width n -> smagicOK n c = true -> 0 <= c < 2 ^ (n - 1) ->
  let s := size c - 1 in
  exists M e, smagic n c = Ok (SmagicData s M) /\ 2 ^ (n - 1) <= M < 2 ^ n /\ 0 < s < n - 1 /\
    M * c = 2 ^ (n + s) + e /\ 0 < e < c /\ 2 ^ s < c < 2 ^ (s + 1).
Proof.
  intros [Hn0 Hn] Hok Hc. assert (Hc63 : 0 <= c < 2 ^ 63) by (pose proof (Z.pow_le_mono_r 2 (n - 1) 63); lia).
  destruct (smagicOK_spec n c Hok Hc63) as [Hs Hp]. cbv zeta. set (s := size c - 1) in *. replace (size c) with (s + 1) in * by lia.
  assert (Hsn : s < n - 1).
  { destruct (Z.lt_ge_cases s (n - 1)) as [|Hge]; [done|]. pose proof (Z.pow_le_mono_r 2 (n - 1) s). lia. }
  unfold smagic. cbv zeta. unfold big_BitLen. rewrite Z.abs_eq by lia. replace (size c - 1) with s by lia.
  rewrite Z.shiftl_1_l. unfold big_Div. destruct (c <? 0) eqn:E0; [lia|]. destruct (c =? 0) eqn:E1; [lia|].
  assert (H1 : 2 ^ n * 2 ^ s = 2 ^ (n + s)) by (rewrite <- Z.pow_add_r by lia; done).
  assert (H2 : 2 ^ (n - 1) * 2 ^ (s + 1) = 2 ^ (n + s)) by (rewrite <- Z.pow_add_r by lia; f_equal; lia).
  assert (H3 : 2 ^ n = 2 * 2 ^ (n - 1)) by (rewrite <- Z.pow_succ_r by lia; f_equal; lia).
  pose proof (pow_pos s ltac:(lia)) as Hps. pose proof (pow_pos (n - 1) ltac:(lia)) as Hpn.
  destruct (ceiling (2 ^ (n + s)) c) as (e & He & Hec); [lia|]. set (M := (2 ^ (n + s) + c - 1) / c) in *.
  assert (HM : 2 ^ (n - 1) <= M < 2 ^ n) by nia.
  assert (He0 : e <> 0).
  { intros ->. rewrite Z.add_0_r in He. replace (n + s) with (Z.of_nat (Z.to_nat (n + s))) in He by lia.
    destruct (divides_pow2 (Z.to_nat (n + s)) c M ltac:(lia) ltac:(lia)) as (k & Hk & Ek). rewrite Ek in Hp.
    destruct Hp as [Hp1 Hp2]. apply Z.pow_lt_mono_r_iff in Hp1, Hp2; lia. }
  exists M, e. assert (Hbn : Z.testbit M n = false).
  { destruct (Z.eq_dec M 0) as [->|]; [apply Z.bits_0|]. apply Z.bits_above_log2; [lia|]. apply Z.log2_lt_pow2; lia. }
  destruct (top_bit (n - 1) M ltac:(lia)) as [Hb _]; [replace (n - 1 + 1) with n by lia; lia|].
  rewrite Hbn, Hb. cbn [negb]. rewrite word64_small by (apply (word_bound n); [split; lia|lia]).
  split_and!; try done; lia.
Qed.

(** The quotient towards zero by the multiplication. *)
Lemma smagic_floor n c s M e x : 0 < n -> 0 < s -> M * c = 2 ^ (n + s) + e -> 0 < e < c -> c < 2 ^ (s + 1) ->
  - 2 ^ (n - 1) <= x < 2 ^ (n - 1) ->
  Z.quot x c = x * M / 2 ^ (n + s) + (if x <? 0 then 1 else 0).
Proof.
  intros Hn Hs HM He Hc Hx. assert (H2 : 2 ^ (n - 1) * 2 ^ (s + 1) = 2 ^ (n + s)) by (rewrite <- Z.pow_add_r by lia; f_equal; lia).
  pose proof (pow_pos (n - 1) ltac:(lia)) as Hpn. pose proof (pow_pos (s + 1) ltac:(lia)) as Hps.
  destruct (x <? 0) eqn:E.
  - replace x with (- (- x)) at 1 by lia. rewrite Z.quot_opp_l, Z.quot_div_nonneg by lia. set (y := - x).
    assert (Hy : 0 < y <= 2 ^ (n - 1)) by lia. replace x with (- y) by lia.
    pose proof (Z.div_mod y c ltac:(lia)) as Hdm. pose proof (Z.mod_pos_bound y c ltac:(lia)) as Hr. set (q := y / c) in *.
    assert (Hmul : c * (y * M) = y * 2 ^ (n + s) + y * e) by (rewrite <- Z.mul_add_distr_l, <- HM; ring).
    assert (Hye : 0 < y * e) by nia. assert (Hye2 : y * e < 2 ^ (n + s)) by nia. set (P := 2 ^ (n + s)) in *.
    enough (Hq : - (q + 1) = - y * M / P) by lia. apply (Z.div_unique_pos (- y * M) P (- (q + 1)) (P * (q + 1) - y * M)); [|ring].
    assert (c * (P * q) < c * (y * M)) by nia. assert (c * (y * M) <= c * (P * (q + 1))) by nia.
    apply Z.mul_lt_mono_pos_l in H; [|lia]. apply Z.mul_le_mono_pos_l in H0; lia.
  - rewrite Z.quot_div_nonneg by lia. rewrite Z.add_0_r. symmetry. apply (magic_floor (n + s) c M e); try lia. nia.
Qed.

(** C14: the constants of [smagic] divide, rounding towards zero, by every
    positive constant of the width that [smagicOK] accepts. *)
Theorem smagic_divides n c x :
  width n -> smagicOK n c = true -> 0 <= c < 2 ^ (n - 1) -> - 2 ^ (n - 1) <= x < 2 ^ (n - 1) ->
  exists s m, smagic n c = Ok (SmagicData s m) /\ 2 ^ (n - 1) <= m < 2 ^ n /\
    Z.quot x c = Z.shiftr (x * m) (n + s) + (if x <? 0 then 1 else 0).
Proof.
  intros Hn Hok Hc Hx. destruct (smagic_data n c Hn Hok Hc) as (M & e & E & HM & Hs & HMc & He & Hp).
  exists (size c - 1), M. split_and!; [done|lia..|]. unfold width in Hn. rewrite Z.shiftr_div_pow2 by lia.
  apply (smagic_floor n c _ M e); lia.
Qed.

Lemma smagic_divides_witness :
  width 32 /\ smagicOK 32 10 = true /\ 0 <= 10 < 2 ^ (32 - 1) /\ - 2 ^ (32 - 1) <= - 99 < 2 ^ (32 - 1) /\
  exists s m, smagic 32 10 = Ok (SmagicData s m) /\ 2 ^ (32 - 1) <= m < 2 ^ 32 /\
    Z.quot (- 99) 10 = Z.shiftr (- 99 * m) (32 + s) + (if - 99 <? 0 then 1 else 0).
Proof.
  assert (Hw : width 32) by (unfold width; lia). assert (Ho : smagicOK 32 10 = true) by (vm_compute; reflexivity).
  split; [exact Hw|]. split; [exact Ho|]. split; [lia|]. split; [lia|].
  apply (smagic_divides 32 10 (- 99)); [exact Hw|exact Ho|lia|lia].
Defined.

(** ** Inverses *)

Lemma odd_square d : Z.odd d = true -> (2 ^ 3 | d * d - 1).
Proof.
  intros (j & ->)%odd_split. assert (Hj : exists i, j * (j + 1) = 2 * i).
  { destruct (Z.Even_or_Odd j) as [[i ->]|[i ->]]; [exists (i * (2 * i + 1))|exists ((2 * i + 1) * (i + 1))]; ring. }
  destruct Hj as [i Hi]. exists i. replace ((2 * j + 1) * (2 * j + 1) - 1) with (4 * (j * (j + 1))) by ring. rewrite Hi. ring.
Qed.

(** A step doubles the number of bits, up to the width of a word. *)
Lemma newton_step d m i j : 0 <= i <= 64 -> i <= 2 * j -> (2 ^ j | d * m - 1) -> (2 ^ i | d * newton d m - 1).
Proof.
  intros Hi Hij [t Ht]. destruct (Z.le_gt_cases 0 j) as [Hj|Hj]; [|replace i with 0 by lia; apply Z.divide_1_l].
  assert (Hn : newton d m = u64 (m * (2 - m * d))).
  { unfold newton, u64. by rewrite Zminus_mod_idemp_r, Zmult_mod_idemp_r. }
  rewrite Hn. unfold u64. rewrite Z.mod_eq by lia. set (q := m * (2 - m * d) / 2 ^ 64).
  replace (d * (m * (2 - m * d) - 2 ^ 64 * q) - 1) with (- (d * m - 1) * (d * m - 1) - d * q * 2 ^ 64) by ring.
  apply Z.divide_sub_r.
  - rewrite Ht. replace (- (t * 2 ^ j) * (t * 2 ^ j)) with (- t * t * (2 ^ j * 2 ^ j)) by ring.
    apply Z.divide_mul_r. rewrite <- Z.pow_add_r by done. exists (2 ^ (j + j - i)). rewrite <- Z.pow_add_r by lia. f_equal. lia.
  - apply Z.divide_mul_r. exists (2 ^ (64 - i)). rewrite <- Z.pow_add_r by lia. f_equal. lia.
Qed.

Lemma low_mask_ones n : width n -> low_mask n = Z.ones n.
Proof.
  intros [Hn0 Hn]. unfold low_mask. rewrite Z.shiftr_div_pow2, Z.ones_equiv by lia.
  assert (E : 2 ^ 64 = 2 ^ n * 2 ^ (64 - n)) by (rewrite <- Z.pow_add_r by lia; f_equal; lia). rewrite E.
  pose proof (pow_pos (64 - n) ltac:(lia)). pose proof (pow_pos n ltac:(lia)).
  symmetry. apply (Z.div_unique_pos _ _ _ (2 ^ (64 - n) - 1)); [lia|]. rewrite <- Z.sub_1_r. ring.
Qed.

Lemma inverse_spec n d : width n -> Z.odd d = true ->
  let m := inverse d (low_mask n) in 0 <= m < 2 ^ n /\ (2 ^ n | d * m - 1).
Proof.
  intros Hn Hd. cbv zeta. unfold inverse. cbv zeta. rewrite low_mask_ones by done. destruct Hn as [Hn0 Hn].
  rewrite Z.land_ones by lia. set (m := newton d _). assert (Hm : (2 ^ 64 | d * m - 1)).
  { apply (newton_step d _ 64 48); [lia..|]. apply (newton_step d _ 48 24); [lia..|].
    apply (newton_step d _ 24 12); [lia..|]. apply (newton_step d _ 12 6); [lia..|].
    apply (newton_step d _ 6 3); [lia..|]. by apply odd_square. }
  split; [apply Z.mod_pos_bound, pow_pos; lia|]. rewrite Z.mod_eq by (pose proof (pow_pos n); lia).
  replace (d * (m - 2 ^ n * (m / 2 ^ n)) - 1) with (d * m - 1 - d * (m / 2 ^ n) * 2 ^ n) by ring.
  apply Z.divide_sub_r; [|apply Z.divide_factor_r]. etransitivity; [|exact Hm].
  exists (2 ^ (64 - n)). rewrite <- Z.pow_add_r by lia. f_equal. lia.
Qed.

(** ** Divisibility *)

(** The rotation of an [n]-bit word to the right. *)
Definition RotRight (n x k : Z) : Z := Z.shiftr x k + x mod 2 ^ k * 2 ^ (n - k).

(** A rotation is small exactly for the multiples of [2 ^ k]. *)
Lemma RotRight_small n q k b : 0 <= k < n -> 0 <= q < 2 ^ n -> 0 <= b < 2 ^ (n - k) ->
  RotRight n q k <= b <-> exists y, q = 2 ^ k * y /\ y <= b.
Proof.
  intros Hk Hq Hb. unfold RotRight. rewrite Z.shiftr_div_pow2 by lia. pose proof (pow_pos k ltac:(lia)) as Hp.
  pose proof (Z.div_mod q (2 ^ k) ltac:(lia)) as Hdm. pose proof (Z.mod_pos_bound q (2 ^ k) Hp) as Hr.
  pose proof (Z.div_pos q (2 ^ k)) as Hdp. split.
  - intros Hle. assert (Hz : q mod 2 ^ k = 0) by nia. exists (q / 2 ^ k). rewrite Hz in Hle. lia.
  - intros (y & -> & Hy). rewrite Z.mul_comm, Z.mod_mul, Z.div_mul by lia. lia.
Qed.

(** What both tests compute of a constant: an odd number times [2 ^ k]. *)
Lemma odd_and_power d : 0 < d < 2 ^ 64 ->
  let k := TrailingZeros64 d in
  0 <= k < 64 /\ exists d0, Z.shiftr d k = d0 /\ Z.odd d0 = true /\ d = 2 ^ k * d0 /\ 0 < d0.
Proof.
  intros Hd. cbv zeta. destruct (TrailingZeros64_spec d Hd) as (Hk & d0 & Ho & E). set (k := TrailingZeros64 d) in *.
  split; [done|]. exists d0. pose proof (pow_pos k ltac:(lia)). split_and!; try done; [|nia].
  rewrite Z.shiftr_div_pow2, E, Z.mul_comm by lia. by rewrite Z.div_mul by lia.
Qed.

(** [x * m] for a multiple of [d0], and the other way round. *)
Lemma times_inverse n d0 m y : 0 < n -> (2 ^ n | d0 * m - 1) -> (d0 * y * m) mod 2 ^ n = y mod 2 ^ n.
Proof.
  intros Hn [t Ht]. replace (d0 * y * m) with (y + y * t * 2 ^ n) by (replace (y * t * 2 ^ n) with (y * (t * 2 ^ n)) by ring; rewrite <- Ht; ring).
  by apply Z_mod_plus_full.
Qed.

(** C16: the test for divisibility by the constants of [udivisible] is exact for
    every constant that [udivisibleOK] accepts. *)
Theorem udivisible_exact n c x : width n -> udivisibleOK n c = true -> 0 <= x < 2 ^ n ->
  exists k m max, udivisible n c = Ok (UdivisibleData k m max) /\
    (RotRight n ((x * m) mod 2 ^ n) k <= max <-> (const_bits n c | x)).
Proof.
  intros Hn Hok Hx. pose proof (umagicOK_spec n c Hn Hok) as [Hs Hd]. cbv zeta in *.
  pose proof (const_bits_bounds n c Hn) as Hdn. unfold udivisible. cbv zeta. set (d := const_bits n c) in *.
  pose proof (pow_pos (size d - 1) ltac:(lia)) as Hps.
  destruct (odd_and_power d) as (Hk & d0 & Ed0 & Ho & Ed & Hd0); [apply (word_bound n d Hn) in Hdn; lia|]. set (k := TrailingZeros64 d) in *.
  rewrite Ed0. destruct (inverse_spec n d0 Hn Ho) as [Hm Hinv]. set (m := inverse d0 (low_mask n)) in *.
  rewrite low_mask_ones by done. destruct Hn as [Hn0 Hn]. destruct (d =? 0) eqn:E0; [lia|].
  exists k, m, (Z.ones n / d). split; [done|]. rewrite Z.ones_equiv, <- Z.sub_1_r.
  pose proof (pow_pos k ltac:(lia)) as Hpk. pose proof (pow_pos n ltac:(lia)) as Hpn.
  assert (Hkn : k < n) by (apply (Z.pow_lt_mono_r_iff 2); nia).
  assert (Hmax : 0 <= (2 ^ n - 1) / d < 2 ^ (n - k)).
  { split; [apply Z.div_pos; lia|]. apply Z.div_lt_upper_bound; [lia|].
    assert (2 ^ n = 2 ^ k * 2 ^ (n - k)) by (rewrite <- Z.pow_add_r by lia; f_equal; lia). pose proof (pow_pos (n - k)). nia. }
  rewrite RotRight_small; [|lia|by apply Z.mod_pos_bound|done]. split.
  - intros (y & Ey & Hy). assert (Hyd : d * y <= 2 ^ n - 1).
    { pose proof (Z.mul_div_le (2 ^ n - 1) d). nia. }
    assert (Hy0 : 0 <= y) by (pose proof (Z.mod_pos_bound (x * m) (2 ^ n)); nia).
    exists y. rewrite Z.mul_comm. rewrite <- (Z.mod_small x (2 ^ n)), <- (Z.mod_small (d * y) (2 ^ n)) by nia.
    replace (d * y) with (d0 * (2 ^ k * y)) by (rewrite Ed; ring). rewrite <- Ey, Zmult_mod_idemp_r.
    rewrite <- (times_inverse n d0 m x) by done. f_equal. ring.
  - intros [y Ey]. assert (Hy : 0 <= y <= (2 ^ n - 1) / d) by (split; [nia|apply Z.div_le_lower_bound; lia]).
    exists y. split; [|lia]. replace (x * m) with (d0 * (2 ^ k * y) * m) by (rewrite Ey, Ed; ring).
    rewrite times_inverse by done. apply Z.mod_small. split; [nia|]. assert (2 ^ k * y * d0 = x) by (rewrite Ey, Ed; ring). nia.
Qed.

Lemma udivisible_exact_witness :
  width 16 /\ udivisibleOK 16 60 = true /\ 0 <= 1200 < 2 ^ 16 /\
  exists k m max, udivisible 16 60 = Ok (UdivisibleData k m max) /\
    (RotRight 16 ((1200 * m) mod 2 ^ 16) k <= max <-> (const_bits 16 60 | 1200)).
Proof.
  assert (Hw : width 16) by (unfold width; lia). assert (Ho : udivisibleOK 16 60 = true) by (vm_compute; reflexivity).
  split; [exact Hw|]. split; [exact Ho|]. split; [lia|]. apply (udivisible_exact 16 60 1200); [exact Hw|exact Ho|lia].
Defined.

(** Clearing the low [k] bits. *)
Lemma clear_low A k : 0 <= k < 64 -> 0 <= A < 2 ^ 64 -> Z.land A (u64 (- u64 (Z.shiftl 1 k))) = 2 ^ k * (A / 2 ^ k).
Proof.
  intros Hk HA. rewrite Z.shiftl_1_l, (word64_small (2 ^ k)).
  2: { pose proof (Z.pow_lt_mono_r 2 k 64). pose proof (pow_pos k). lia. }
  unfold u64. rewrite land_wrap by lia. replace (- 2 ^ k) with (Z.lnot (Z.ones k)) by (rewrite Z.ones_equiv; unfold Z.lnot; lia).
  rewrite <- Z.ldiff_land, Z.ldiff_ones_r by lia. rewrite Z.shiftl_mul_pow2, Z.shiftr_div_pow2 by lia. ring.
Qed.

Lemma congruent_equal n a b : 0 < n -> a mod 2 ^ n = b mod 2 ^ n -> - 2 ^ (n - 1) <= a < 2 ^ (n - 1) ->
  - 2 ^ (n - 1) <= b < 2 ^ (n - 1) -> a = b.
Proof.
  intros Hn E Ha Hb. assert (H2 : 2 ^ n = 2 * 2 ^ (n - 1)) by (rewrite <- Z.pow_succ_r by lia; f_equal; lia).
  pose proof (pow_pos (n - 1) ltac:(lia)). pose proof (Z.div_mod a (2 ^ n) ltac:(lia)) as Ea.
  pose proof (Z.div_mod b (2 ^ n) ltac:(lia)) as Eb. rewrite E, H2 in Ea. rewrite H2 in Eb.
  set (P := 2 ^ (n - 1)) in *. assert (a / (2 * P) = b / (2 * P)) by nia. congruence.
Qed.

Lemma half_ones n : 0 < n -> Z.shiftr (Z.ones n) 1 = 2 ^ (n - 1) - 1.
Proof.
  intros Hn. rewrite Z.shiftr_div_pow2, Z.ones_equiv by lia. change (2 ^ 1) with 2.
  replace (2 ^ n) with (2 ^ (n - 1) * 2) by (rewrite Z.mul_comm, <- Z.pow_succ_r by lia; f_equal; lia).
  symmetry. apply (Z.div_unique_pos _ _ _ 1); lia.
Qed.

(** The test in numbers, for [c = 2 ^ k * d0] and the inverse [m] of [d0]. *)
Section SignedTest.
Context (n c k d0 m x : Z) (Hn : 0 < n) (Hk : 0 <= k) (Ho : Z.odd d0 = true) (Hd3 : 1 < d0) (Hc : c = 2 ^ k * d0).
Context (Hm : (2 ^ n | d0 * m - 1)) (Hcn : c < 2 ^ (n - 1)) (Hx : - 2 ^ (n - 1) <= x < 2 ^ (n - 1)).

Let H := 2 ^ (n - 1).
Let A := (H - 1) / d0.
Let b := A / 2 ^ k.

Lemma test_bounds : 0 < H /\ 0 < 2 ^ k /\ 2 ^ n = 2 * H /\ 0 <= A <= H - 1 /\ d0 * A <= H - 1 /\ 0 <= b /\ 2 ^ k * b <= A.
Proof.
  assert (HH : 0 < H) by (apply pow_pos; lia). pose proof (pow_pos k Hk).
  assert (H2 : 2 ^ n = 2 * H) by (unfold H; rewrite <- Z.pow_succ_r by lia; f_equal; lia).
  assert (HA : 0 <= A <= H - 1) by (split; [apply Z.div_pos; lia|apply Z.div_le_upper_bound; [lia|nia]]).
  split_and!; try lia; try (apply Z.mul_div_le; lia). apply Z.div_pos; lia.
Qed.

Lemma test_divides y : (x * m + 2 ^ k * b) mod 2 ^ n = 2 ^ k * y -> y <= 2 * b -> (c | x).
Proof.
  intros Ey Hy. destruct test_bounds as (HH & Hpk & H2 & HA & HdA & Hb & HbA). clearbody b A.
  assert (Hy0 : 0 <= y) by (pose proof (Z.mod_pos_bound (x * m + 2 ^ k * b) (2 ^ n)); nia).
  exists (y - b). apply (congruent_equal n); fold H; [lia| |lia|rewrite Hc; nia].
  rewrite <- (times_inverse n d0 m x) by done. replace (d0 * x * m) with (d0 * (x * m + 2 ^ k * b) + - (d0 * 2 ^ k * b)) by ring.
  rewrite <- Zplus_mod_idemp_l, <- (Zmult_mod_idemp_r (x * m + _)), Ey, Zplus_mod_idemp_l. f_equal. rewrite Hc. ring.
Qed.

(** The quotient by the odd part lies between [- A] and [A]. *)
Lemma test_range z : x = d0 * z -> - A <= z <= A.
Proof.
  intros Ex. destruct test_bounds as (HH & _). unfold A. assert (Hlow : x <> - H).
  { intros Eh. assert (Hdiv : d0 * - z = 2 ^ Z.of_nat (Z.to_nat (n - 1))) by (rewrite Z2Nat.id by lia; fold H; lia).
    destruct (divides_pow2 _ d0 (- z) ltac:(lia) Hdiv) as (j & Hj & Ej). destruct (Z.eq_dec j 0) as [->|]; [cbn in Ej; lia|].
    rewrite Ej, Z.odd_pow in Ho by lia. done. }
  fold H in Hx. split; [|apply Z.div_le_lower_bound; lia]. enough (- z <= (H - 1) / d0) by lia. apply Z.div_le_lower_bound; lia.
Qed.

Lemma divides_test : (c | x) -> exists y, (x * m + 2 ^ k * b) mod 2 ^ n = 2 ^ k * y /\ y <= 2 * b.
Proof.
  intros [y Ey]. destruct test_bounds as (HH & Hpk & H2 & HA & HdA & Hb & HbA).
  assert (Hky : - A <= 2 ^ k * y <= A) by (apply test_range; rewrite Ey, Hc; ring).
  assert (Hyb : - b <= y <= b).
  { split; [|apply Z.div_le_lower_bound; lia]. enough (- y <= b) by lia. apply Z.div_le_lower_bound; lia. }
  exists (y + b). split; [|lia]. replace (x * m + 2 ^ k * b) with (d0 * (2 ^ k * y) * m + 2 ^ k * b) by (rewrite Ey, Hc; ring).
  rewrite <- Zplus_mod_idemp_l, times_inverse, Zplus_mod_idemp_l by done. clearbody b A. rewrite Z.mod_small; nia.
Qed.

Lemma signed_test : RotRight n ((x * m + 2 ^ k * b) mod 2 ^ n) k <= 2 * b <-> (c | x).
Proof.
  destruct test_bounds as (HH & Hpk & H2 & HA & HdA & Hb & HbA).
  assert (Hkn : k < n - 1) by (apply (Z.pow_lt_mono_r_iff 2); [lia..|]; fold H; fold H in Hcn; nia).
  assert (Hbn : 2 * b < 2 ^ (n - k)).
  { assert (2 ^ n = 2 ^ k * 2 ^ (n - k)) by (rewrite <- Z.pow_add_r by lia; f_equal; lia). clearbody b A. nia. }
  rewrite RotRight_small; [|lia|apply Z.mod_pos_bound; lia|lia]. split; [|apply divides_test].
  intros (y & Ey & Hy). by apply (test_divides y).
Qed.
End SignedTest.

(** C15: the test for divisibility by the constants of [sdivisible] is exact for
    signed numbers and every positive constant of the width that
    [sdivisibleOK] accepts. *)
Theorem sdivisible_exact n c x :
  width n -> sdivisibleOK n c = true -> 0 <= c < 2 ^ (n - 1) -> - 2 ^ (n - 1) <= x < 2 ^ (n - 1) ->
  exists k m a max, sdivisible n c = Ok (SdivisibleData k m a max) /\
    (RotRight n ((x * m + a) mod 2 ^ n) k <= max <-> (c | x)).
Proof.
  intros Hn Hok Hc Hx. pose proof Hn as [Hn0 Hn64].
  assert (Hc63 : 0 <= c < 2 ^ 63) by (pose proof (Z.pow_le_mono_r 2 (n - 1) 63); lia).
  destruct (smagicOK_spec n c Hok Hc63) as [Hs Hp]. pose proof (pow_pos (size c - 1) ltac:(lia)) as Hps.
  unfold sdivisible. cbv zeta. rewrite (word64_small c) by lia.
  destruct (odd_and_power c ltac:(lia)) as (Hk & d0 & Ed0 & Ho & Ed & Hd0). set (k := TrailingZeros64 c) in *. rewrite Ed0.
  destruct (inverse_spec n d0 Hn Ho) as [_ Hinv]. set (m := inverse d0 (low_mask n)) in *.
  rewrite low_mask_ones by done. destruct (d0 =? 0) eqn:E0; [lia|].
  assert (Hd3 : 1 < d0).
  { destruct (Z.eq_dec d0 1) as [->|]; [|lia]. exfalso. rewrite Z.mul_1_r in Ed. set (sc := size c) in *. rewrite Ed in Hp.
    destruct Hp as [Hp1 Hp2]. apply Z.pow_lt_mono_r_iff in Hp1, Hp2; lia. }
  destruct (test_bounds n c k d0 Hn0 ltac:(lia) Ho Hd3 Ed ltac:(lia)) as (HH & Hpk & H2 & HA & _ & Hb & HbA).
  pose proof (signed_test n c k d0 m x Hn0 ltac:(lia) Ho Hd3 Ed Hinv ltac:(lia) Hx) as Htest.
  assert (Hw : 2 * 2 ^ (n - 1) <= 2 ^ 64) by (rewrite <- H2; apply Z.pow_le_mono_r; lia).
  rewrite half_ones, clear_low by lia. set (b := _ / 2 ^ k) in *. rewrite word64_small by lia.
  rewrite Z.shiftr_div_pow2 by lia. replace (2 * (2 ^ k * b)) with (2 * b * 2 ^ k) by ring. rewrite Z.div_mul by lia.
  by exists k, m, (2 ^ k * b), (2 * b).
Qed.

Lemma sdivisible_exact_witness :
  width 8 /\ sdivisibleOK 8 12 = true /\ 0 <= 12 < 2 ^ (8 - 1) /\ - 2 ^ (8 - 1) <= - 96 < 2 ^ (8 - 1) /\
  exists k m a max, sdivisible 8 12 = Ok (SdivisibleData k m a max) /\
    (RotRight 8 ((- 96 * m + a) mod 2 ^ 8) k <= max <-> (12 | - 96)).
Proof.
  assert (Hw : width 8) by (unfold width; lia). assert (Ho : sdivisibleOK 8 12 = true) by (vm_compute; reflexivity).
  split; [exact Hw|]. split; [exact Ho|]. split; [lia|]. split; [lia|].
  apply (sdivisible_exact 8 12 (- 96)); [exact Hw|exact Ho|lia|lia].
Defined.
