(* ===== verification/Ssa.v ===== *)
(** * src/src/cmd/compile/internal/ssa: values

    The values of the compiler's intermediate form as trees, with the generic
    operations that the divisions by constants use, and what they compute.  A
    value that the code shares is repeated; positions, use counts and the cache
    of constants are left out.

    A computed value is its bits, as an unsigned number.  The operations of the
    code work on the low bits of their operands, so that an operand may be
    wider where only its low bits matter. *)

From S2P Require Import Prelude Bits Magic.

#[local] Open Scope Z_scope.

(** ** Values *)

(** The integer types of [Types], and all other types; the width of the types
    that have the machine's is given with them. *)
Inductive type : Type :=
| Int8 | Int16 | Int32 | Int64 | UInt8 | UInt16 | UInt32 | UInt64
| Int (is64 : bool) | UInt (is64 : bool) | Uintptr (is64 : bool)
| OtherType (id : nat).

Definition IsInteger (t : type) : bool := match t with OtherType _ => false | _ => true end.

(** The generic operations of opGen.go that are used here; the others have a
    number. *)
Inductive Op : Type :=
| OpConst8 | OpConst16 | OpConst32 | OpConst64 | OpAdd8 | OpAdd16 | OpAdd32 | OpAdd64 | OpSub8
| OpSub16 | OpSub32 | OpSub64 | OpMul8 | OpMul16 | OpMul32 | OpMul64 | OpNeg8 | OpNeg16 | OpNeg32
| OpNeg64 | OpAnd8 | OpAnd16 | OpAnd32 | OpAnd64 | OpOr8 | OpOr16 | OpOr32 | OpOr64 | OpXor8
| OpXor16 | OpXor32 | OpXor64 | OpDiv8 | OpDiv8u | OpDiv16 | OpDiv16u | OpDiv32 | OpDiv32u
| OpDiv64 | OpDiv64u | OpMod8 | OpMod8u | OpMod16 | OpMod16u | OpMod32 | OpMod32u | OpMod64
| OpMod64u | OpRsh8Ux64 | OpRsh8x64 | OpRsh16Ux64 | OpRsh16x64 | OpRsh32Ux64 | OpRsh32x64
| OpRsh64Ux64 | OpRsh64x64 | OpRsh32x32 | OpRsh64x32 | OpLsh32x64 | OpLsh64x64 | OpHmul32
| OpHmul32u | OpAvg32u | OpHmul64 | OpHmul64u | OpAvg64u | OpSignExt8to32 | OpSignExt16to32
| OpSignExt8to64 | OpSignExt16to64 | OpSignExt32to64 | OpZeroExt8to16 | OpZeroExt8to32
| OpZeroExt16to32 | OpZeroExt8to64 | OpZeroExt16to64 | OpZeroExt32to64 | OpTrunc32to8
| OpTrunc32to16 | OpTrunc64to16 | OpTrunc64to32 | OpStringLen | OpSliceLen | OpSliceCap | OpCtz64
| OpCtz32 | OpCtz16 | OpCtz8 | OpCtz64NonZero | OpCtz32NonZero | OpCtz16NonZero | OpCtz8NonZero
| OpBitLen64 | OpBitLen32 | OpBitLen16 | OpBitLen8 | OpCopy
| OpOther (id : nat).

#[global] Instance Op_eq_dec : EqDecision Op.
Proof. solve_decision. Defined.

Definition op_is (a b : Op) : bool := bool_decide (a = b).

Inductive value : Type := Value (Op_ : Op) (Type_ : type) (AuxInt_ : Z) (Args_ : list value).

Definition op (v : value) : Op := match v with Value o _ _ _ => o end.
Definition typ (v : value) : type := match v with Value _ t _ _ => t end.
Definition AuxInt (v : value) : Z := match v with Value _ _ a _ => a end.
Definition Args (v : value) : list value := match v with Value _ _ _ l => l end.

(** [v.Args[i]] *)
Definition arg (v : value) (i : nat) : value := nth i (Args v) (Value (OpOther 0) (OtherType 0) 0 []).

(** [v.copyOf(a)] *)
Definition copyOf (a : value) : value := Value OpCopy (typ a) 0 [a].

(** ** Helpers of rewrite.go *)

Definition auxIntToInt8 (i : Z) : Z := s8 i.
Definition auxIntToInt16 (i : Z) : Z := s16 i.
Definition auxIntToInt32 (i : Z) : Z := s32 i.
Definition auxIntToInt64 (i : Z) : Z := i.
Definition int8ToAuxInt (i : Z) : Z := i.
Definition int16ToAuxInt (i : Z) : Z := i.
Definition int32ToAuxInt (i : Z) : Z := i.
Definition int64ToAuxInt (i : Z) : Z := i.

Definition log8 (n : Z) : Z := Len8 (u8 n) - 1.
Definition log16 (n : Z) : Z := Len16 (u16 n) - 1.
Definition log32 (n : Z) : Z := Len32 (u32 n) - 1.
Definition log64 (n : Z) : Z := Len64 (u64 n) - 1.

Definition isPowerOfTwo (n : Z) : bool := (0 <? n) && (Z.land n (n - 1) =? 0).

(** What a rule gives: no match, a new value, or a panic of the compiler. *)
Abbreviation rule := (res string (option value)).

Definition or_else (a b : rule) : rule := match a with Ok None => b | _ => a end.
Definition guard (b : bool) (r : rule) : rule := if b then r else Ok None.
Definition guard_res (b : res string bool) (r : rule) : rule :=
  match b with Ok b => guard b r | Panic e => Panic e | NoFuel => NoFuel end.
Definition with_ {A} (m : res string A) (k : A -> rule) : rule :=
  match m with Ok a => k a | Panic e => Panic e | NoFuel => NoFuel end.

Declare Scope rule_scope.
Delimit Scope rule_scope with rule.
Notation "a 'otherwise' b" := (or_else a b) (at level 100, b at level 200, right associativity) : rule_scope.
Notation "'need' b ';;' k" := (guard b k) (at level 10, b at level 99, k at level 200) : rule_scope.
Notation "'needs' b ';;' k" := (guard_res b k) (at level 10, b at level 99, k at level 200) : rule_scope.
Notation "'let+' d ':=' m 'in' k" := (with_ m (fun d => k)) (at level 10, d name, m at level 99, k at level 200) : rule_scope.

Definition res_and (a b : res string bool) : res string bool := match a with Ok true => b | _ => a end.
Definition res_or (a b : res string bool) : res string bool := match a with Ok false => b | _ => a end.

Definition isNonNegative_at (isNonNegative : value -> res string bool) (v : value) : res string bool :=
  match op v with
  | OpConst64 => Ok (0 <=? AuxInt v)
  | OpConst32 => Ok (0 <=? s32 (AuxInt v))
  | OpConst16 => Ok (0 <=? s16 (AuxInt v))
  | OpConst8 => Ok (0 <=? s8 (AuxInt v))
  | OpStringLen | OpSliceLen | OpSliceCap
  | OpZeroExt8to64 | OpZeroExt16to64 | OpZeroExt32to64
  | OpZeroExt8to32 | OpZeroExt16to32 | OpZeroExt8to16
  | OpCtz64 | OpCtz32 | OpCtz16 | OpCtz8
  | OpCtz64NonZero | OpCtz32NonZero | OpCtz16NonZero | OpCtz8NonZero
  | OpBitLen64 | OpBitLen32 | OpBitLen16 | OpBitLen8 => Ok true
  | OpRsh64Ux64 | OpRsh32Ux64 =>
      let by_ := arg v 1 in Ok (op_is (op by_) OpConst64 && (0 <? AuxInt by_))
  | OpRsh64x64 | OpRsh32x64 | OpRsh8x64 | OpRsh16x64 | OpRsh32x32 | OpRsh64x32
  | OpSignExt32to64 | OpSignExt16to64 | OpSignExt8to64 | OpSignExt16to32 | OpSignExt8to32 =>
      isNonNegative (arg v 0)
  | OpAnd64 | OpAnd32 | OpAnd16 | OpAnd8 => res_or (isNonNegative (arg v 0)) (isNonNegative (arg v 1))
  | OpMod64 | OpMod32 | OpMod16 | OpMod8 | OpDiv64 | OpDiv32 | OpDiv16 | OpDiv8
  | OpOr64 | OpOr32 | OpOr16 | OpOr8 | OpXor64 | OpXor32 | OpXor16 | OpXor8 =>
      res_and (isNonNegative (arg v 0)) (isNonNegative (arg v 1))
  | _ => Ok false
  end.

(** The depth of a value. *)
Fixpoint height (v : value) : nat :=
  match v with Value _ _ _ l => S (fold_right (fun a h => Nat.max (height a) h) O l) end.

Fixpoint isNonNegative_fuel (n : nat) (v : value) : res string bool :=
  match n with
  | O => NoFuel
  | S n =>
      if negb (IsInteger (typ v)) then Panic "isNonNegative bad type"%string
      else isNonNegative_at (isNonNegative_fuel n) v
  end.
Definition isNonNegative (v : value) : res string bool := isNonNegative_fuel (S (height v)) v.

(** ** What a value computes *)

(** The low [n] bits, and the number that they are in two's complement. *)
Definition wrap (n x : Z) : Z := x mod 2 ^ n.
Definition sgn (n x : Z) : Z := (x + 2 ^ (n - 1)) mod 2 ^ n - 2 ^ (n - 1).

Definition add (n x y : Z) : Z := wrap n (x + y).
Definition sub (n x y : Z) : Z := wrap n (x - y).
Definition mul (n x y : Z) : Z := wrap n (x * y).
Definition neg (n x : Z) : Z := wrap n (- x).
Definition and_ (n x y : Z) : Z := Z.land (wrap n x) (wrap n y).
Definition or_ (n x y : Z) : Z := Z.lor (wrap n x) (wrap n y).
Definition xor_ (n x y : Z) : Z := Z.lxor (wrap n x) (wrap n y).
(** A division by 0 does not get here: the code checks for it before. *)
Definition divs (n x y : Z) : Z := wrap n (Z.quot (sgn n x) (sgn n y)).
Definition divu (n x y : Z) : Z := wrap n x / wrap n y.
Definition mods (n x y : Z) : Z := wrap n (Z.rem (sgn n x) (sgn n y)).
Definition modu (n x y : Z) : Z := wrap n x mod wrap n y.

(** A shift by the width or more leaves nothing, or the sign. *)
Definition rshu (n m x k : Z) : Z := if wrap m k <? n then Z.shiftr (wrap n x) (wrap m k) else 0.
Definition rshs (n m x k : Z) : Z := wrap n (Z.shiftr (sgn n x) (wrap m k)).
Definition lsh (n m x k : Z) : Z := if wrap m k <? n then wrap n (Z.shiftl x (wrap m k)) else 0.

(** The high half of a product, and the average without overflow, which is
    defined only where the first operand is not less than the second. *)
Definition hmul (n x y : Z) : Z := wrap n (Z.shiftr (sgn n x * sgn n y) n).
Definition hmulu (n x y : Z) : Z := Z.shiftr (wrap n x * wrap n y) n.
Definition avgu (n x y other : Z) : Z :=
  if wrap n y <=? wrap n x then (wrap n x + wrap n y) / 2 else wrap n other.
Definition sext (n m x : Z) : Z := wrap m (sgn n x).

(** The result of an operation on operands [l]; [other] stands for the
    operations that are not modelled. *)
Definition compute (o : Op) (aux : Z) (l : list Z) (other : Z) : Z :=
  let x := nth 0 l 0 in
  let y := nth 1 l 0 in
  match o with
  | OpConst8 => wrap 8 aux
  | OpConst16 => wrap 16 aux
  | OpConst32 => wrap 32 aux
  | OpConst64 => wrap 64 aux
  | OpAdd8 => add 8 x y
  | OpAdd16 => add 16 x y
  | OpAdd32 => add 32 x y
  | OpAdd64 => add 64 x y
  | OpSub8 => sub 8 x y
  | OpSub16 => sub 16 x y
  | OpSub32 => sub 32 x y
  | OpSub64 => sub 64 x y
  | OpMul8 => mul 8 x y
  | OpMul16 => mul 16 x y
  | OpMul32 => mul 32 x y
  | OpMul64 => mul 64 x y
  | OpNeg8 => neg 8 x
  | OpNeg16 => neg 16 x
  | OpNeg32 => neg 32 x
  | OpNeg64 => neg 64 x
  | OpAnd8 => and_ 8 x y
  | OpAnd16 => and_ 16 x y
  | OpAnd32 => and_ 32 x y
  | OpAnd64 => and_ 64 x y
  | OpOr8 => or_ 8 x y
  | OpOr16 => or_ 16 x y
  | OpOr32 => or_ 32 x y
  | OpOr64 => or_ 64 x y
  | OpXor8 => xor_ 8 x y
  | OpXor16 => xor_ 16 x y
  | OpXor32 => xor_ 32 x y
  | OpXor64 => xor_ 64 x y
  | OpDiv8 => divs 8 x y
  | OpDiv8u => divu 8 x y
  | OpDiv16 => divs 16 x y
  | OpDiv16u => divu 16 x y
  | OpDiv32 => divs 32 x y
  | OpDiv32u => divu 32 x y
  | OpDiv64 => divs 64 x y
  | OpDiv64u => divu 64 x y
  | OpMod8 => mods 8 x y
  | OpMod8u => modu 8 x y
  | OpMod16 => mods 16 x y
  | OpMod16u => modu 16 x y
  | OpMod32 => mods 32 x y
  | OpMod32u => modu 32 x y
  | OpMod64 => mods 64 x y
  | OpMod64u => modu 64 x y
  | OpRsh8Ux64 => rshu 8 64 x y
  | OpRsh8x64 => rshs 8 64 x y
  | OpRsh16Ux64 => rshu 16 64 x y
  | OpRsh16x64 => rshs 16 64 x y
  | OpRsh32Ux64 => rshu 32 64 x y
  | OpRsh32x64 => rshs 32 64 x y
  | OpRsh64Ux64 => rshu 64 64 x y
  | OpRsh64x64 => rshs 64 64 x y
  | OpRsh32x32 => rshs 32 32 x y
  | OpRsh64x32 => rshs 64 32 x y
  | OpLsh32x64 => lsh 32 64 x y
  | OpLsh64x64 => lsh 64 64 x y
  | OpHmul32 => hmul 32 x y
  | OpHmul32u => hmulu 32 x y
  | OpAvg32u => avgu 32 x y other
  | OpHmul64 => hmul 64 x y
  | OpHmul64u => hmulu 64 x y
  | OpAvg64u => avgu 64 x y other
  | OpSignExt8to32 => sext 8 32 x
  | OpSignExt16to32 => sext 16 32 x
  | OpSignExt8to64 => sext 8 64 x
  | OpSignExt16to64 => sext 16 64 x
  | OpSignExt32to64 => sext 32 64 x
  | OpZeroExt8to16 => wrap 8 x
  | OpZeroExt8to32 => wrap 8 x
  | OpZeroExt16to32 => wrap 16 x
  | OpZeroExt8to64 => wrap 8 x
  | OpZeroExt16to64 => wrap 16 x
  | OpZeroExt32to64 => wrap 32 x
  | OpTrunc32to8 => wrap 8 x
  | OpTrunc32to16 => wrap 16 x
  | OpTrunc64to16 => wrap 16 x
  | OpTrunc64to32 => wrap 32 x
  | OpCopy => x
  | _ => other
  end.

(** [other] gives the bits of the values whose operations are not modelled. *)
Fixpoint eval (other : value -> Z) (v : value) : Z :=
  match v with Value o _ aux l => compute o aux (map (eval other) l) (other v) end.

(** ** Widths *)

Definition type_width (t : type) : Z :=
  match t with
  | Int8 | UInt8 => 8
  | Int16 | UInt16 => 16
  | Int32 | UInt32 => 32
  | Int64 | UInt64 => 64
  | Int w | UInt w | Uintptr w => if w then 64 else 32
  | OtherType _ => 64
  end.

(** The width of a result, where the operation fixes it. *)
Definition op_width (o : Op) : option Z :=
  match o with
  | OpConst8 | OpAdd8 | OpSub8 | OpMul8 | OpNeg8 | OpAnd8 | OpOr8 | OpXor8 | OpDiv8 | OpDiv8u
  | OpMod8 | OpMod8u | OpRsh8Ux64 | OpRsh8x64 | OpTrunc32to8 => Some 8
  | OpConst16 | OpAdd16 | OpSub16 | OpMul16 | OpNeg16 | OpAnd16 | OpOr16 | OpXor16 | OpDiv16
  | OpDiv16u | OpMod16 | OpMod16u | OpRsh16Ux64 | OpRsh16x64 | OpZeroExt8to16 | OpTrunc32to16
  | OpTrunc64to16 => Some 16
  | OpConst32 | OpAdd32 | OpSub32 | OpMul32 | OpNeg32 | OpAnd32 | OpOr32 | OpXor32 | OpDiv32
  | OpDiv32u | OpMod32 | OpMod32u | OpRsh32Ux64 | OpRsh32x64 | OpRsh32x32 | OpLsh32x64 | OpHmul32
  | OpHmul32u | OpAvg32u | OpSignExt8to32 | OpSignExt16to32 | OpZeroExt8to32 | OpZeroExt16to32
  | OpTrunc64to32 => Some 32
  | OpConst64 | OpAdd64 | OpSub64 | OpMul64 | OpNeg64 | OpAnd64 | OpOr64 | OpXor64 | OpDiv64
  | OpDiv64u | OpMod64 | OpMod64u | OpRsh64Ux64 | OpRsh64x64 | OpRsh64x32 | OpLsh64x64 | OpHmul64
  | OpHmul64u | OpAvg64u | OpSignExt8to64 | OpSignExt16to64 | OpSignExt32to64 | OpZeroExt8to64
  | OpZeroExt16to64 | OpZeroExt32to64 => Some 64
  | _ => None
  end.

(** The width of an operand that must not be wider. *)
Definition operand_widths (o : Op) : list (option Z) :=
  match o with
  | OpConst8 | OpConst16 | OpConst32 | OpConst64 => []
  | OpAdd8 | OpAdd16 | OpAdd32 | OpAdd64 | OpSub8 | OpSub16 | OpSub32 | OpSub64 | OpMul8
  | OpMul16 | OpMul32 | OpMul64 => [None; None]
  | OpNeg8 | OpNeg16 | OpNeg32 | OpNeg64 => [None]
  | OpAnd8 | OpOr8 | OpXor8 | OpDiv8 | OpDiv8u | OpMod8 | OpMod8u => [Some 8; Some 8]
  | OpAnd16 | OpOr16 | OpXor16 | OpDiv16 | OpDiv16u | OpMod16 | OpMod16u => [Some 16; Some 16]
  | OpAnd32 | OpOr32 | OpXor32 | OpDiv32 | OpDiv32u | OpMod32 | OpMod32u | OpRsh32x32 | OpHmul32
  | OpHmul32u | OpAvg32u => [Some 32; Some 32]
  | OpAnd64 | OpOr64 | OpXor64 | OpDiv64 | OpDiv64u | OpMod64 | OpMod64u | OpRsh64Ux64
  | OpRsh64x64 | OpLsh64x64 | OpHmul64 | OpHmul64u | OpAvg64u => [Some 64; Some 64]
  | OpRsh8Ux64 | OpRsh8x64 => [Some 8; Some 64]
  | OpRsh16Ux64 | OpRsh16x64 => [Some 16; Some 64]
  | OpRsh32Ux64 | OpRsh32x64 | OpLsh32x64 => [Some 32; Some 64]
  | OpRsh64x32 => [Some 64; Some 32]
  | OpSignExt8to32 | OpSignExt8to64 | OpZeroExt8to16 | OpZeroExt8to32 | OpZeroExt8to64 => [Some 8]
  | OpSignExt16to32 | OpSignExt16to64 | OpZeroExt16to32 | OpZeroExt16to64 => [Some 16]
  | OpSignExt32to64 | OpZeroExt32to64 | OpTrunc32to8 | OpTrunc32to16 => [Some 32]
  | OpTrunc64to16 | OpTrunc64to32 => [Some 64]
  | _ => []
  end.

Fixpoint width_of (v : value) : Z :=
  match v with
  | Value OpCopy t _ l => match l with [a] => width_of a | _ => type_width t end
  | Value o t _ _ => match op_width o with Some w => w | None => type_width t end
  end.
