(* ===== verification/Words.v ===== *)
(** * Words: what the generic operations compute

    The arithmetic of the operations of Ssa.v on words of [n] bits, seen as
    unsigned and as signed numbers, and the identities between them that the
    rules for divisions use. *)

From S2P Require Import Prelude Bits Magic MagicFacts Ssa.

#[local] Open Scope Z_scope.

(** ** Unsigned and signed *)

Section Word.
Context (n : Z) (Hn : 0 < n).

Lemma wrap_bounds x : 0 <= wrap n x < 2 ^ n.
Proof. apply Z.mod_pos_bound, pow_pos. lia. Qed.

Lemma wrap_small x : 0 <= x < 2 ^ n -> wrap n x = x.
Proof. apply Z.mod_small. Qed.

Lemma wrap_wrap x : wrap n (wrap n x) = wrap n x.
Proof. apply wrap_small, wrap_bounds. Qed.

Lemma pow_half : 2 ^ n = 2 * 2 ^ (n - 1).
Proof. rewrite <- Z.pow_succ_r by lia. f_equal. lia. Qed.

Lemma half_pos : 0 < 2 ^ (n - 1).
Proof. apply pow_pos. lia. Qed.

Lemma sgn_bounds x : - 2 ^ (n - 1) <= sgn n x < 2 ^ (n - 1).
Proof. unfold sgn. pose proof (Z.mod_pos_bound (x + 2 ^ (n - 1)) (2 ^ n)). pose proof pow_half. pose proof half_pos. lia. Qed.

Lemma sgn_small x : - 2 ^ (n - 1) <= x < 2 ^ (n - 1) -> sgn n x = x.
Proof. intros Hx. unfold sgn. pose proof pow_half. rewrite Z.mod_small; lia. Qed.

Lemma wrap_sgn x : wrap n (sgn n x) = wrap n x.
Proof.
  unfold wrap, sgn. rewrite Zminus_mod_idemp_l. f_equal. lia.
Qed.

Lemma sgn_wrap x : sgn n (wrap n x) = sgn n x.
Proof. unfold sgn, wrap. by rewrite Zplus_mod_idemp_l. Qed.

(** A signed number is the word, or less by [2 ^ n]. *)
Lemma sgn_cases x : (0 <= sgn n x /\ sgn n x = wrap n x) \/ (sgn n x < 0 /\ sgn n x = wrap n x - 2 ^ n).
Proof.
  pose proof (sgn_bounds x) as Hb. pose proof pow_half. pose proof half_pos. rewrite <- (wrap_sgn x).
  destruct (Z.le_gt_cases 0 (sgn n x)); [left|right]; (split; [lia|]).
  - rewrite wrap_small; lia.
  - unfold wrap. rewrite <- (Z_mod_plus_full (sgn n x) 1), Z.mod_small; lia.
Qed.

Lemma sgn_nonneg x : 0 <= sgn n x -> sgn n x = wrap n x /\ wrap n x < 2 ^ (n - 1).
Proof. intros Hx. pose proof (sgn_bounds x). destruct (sgn_cases x) as [[_ E]|[? _]]; lia. Qed.

Lemma wrap_add x y : wrap n (wrap n x + wrap n y) = wrap n (x + y).
Proof. unfold wrap. by rewrite <- Zplus_mod. Qed.
Lemma wrap_add_l x y : wrap n (wrap n x + y) = wrap n (x + y).
Proof. apply Zplus_mod_idemp_l. Qed.
Lemma wrap_add_r x y : wrap n (x + wrap n y) = wrap n (x + y).
Proof. apply Zplus_mod_idemp_r. Qed.
Lemma wrap_sub x y : wrap n (wrap n x - wrap n y) = wrap n (x - y).
Proof. unfold wrap. by rewrite <- Zminus_mod. Qed.
Lemma wrap_mul x y : wrap n (wrap n x * wrap n y) = wrap n (x * y).
Proof. unfold wrap. by rewrite <- Zmult_mod. Qed.
Lemma wrap_opp x : wrap n (- wrap n x) = wrap n (- x).
Proof. rewrite <- (Z.sub_0_l (wrap n x)), <- (Z.sub_0_l x). unfold wrap. by rewrite Zminus_mod_idemp_r. Qed.

(** The bits of a wider word. *)
Lemma wrap_narrow m x : n <= m -> wrap n (wrap m x) = wrap n x.
Proof.
  intros Hm. unfold wrap. apply Z.mod_mod_divide. exists (2 ^ (m - n)). rewrite <- Z.pow_add_r by lia. f_equal. lia.
Qed.

Lemma wrap_wide m x : n <= m -> wrap m (wrap n x) = wrap n x.
Proof. intros Hm. apply Z.mod_small. pose proof (wrap_bounds x). pose proof (Z.pow_le_mono_r 2 n m). lia. Qed.

Lemma sgn_narrow m x : n <= m -> sgn n (wrap m x) = sgn n x.
Proof. intros Hm. rewrite <- (sgn_wrap (wrap m x)), wrap_narrow by done. apply sgn_wrap. Qed.
End Word.

(** ** Words with the same low bits *)

Definition same (n x y : Z) : Prop := wrap n x = wrap n y.

#[global] Instance same_equivalence n : Equivalence (same n).
Proof. split; unfold same; [by intros x|by intros x y ->|by intros x y z -> ->]. Qed.

#[global] Instance wrap_Proper n : Proper (same n ==> eq) (wrap n).
Proof. by intros x y E. Qed.
#[global] Instance sgn_Proper n : Proper (same n ==> eq) (sgn n).
Proof. intros x y E. by rewrite <- sgn_wrap, E, sgn_wrap. Qed.
#[global] Instance add_Proper n : Proper (same n ==> same n ==> same n) Z.add.
Proof. intros x x' Ex y y' Ey. unfold same. by rewrite <- wrap_add, Ex, Ey, wrap_add. Qed.
#[global] Instance sub_Proper n : Proper (same n ==> same n ==> same n) Z.sub.
Proof. intros x x' Ex y y' Ey. unfold same. by rewrite <- wrap_sub, Ex, Ey, wrap_sub. Qed.
#[global] Instance mul_Proper n : Proper (same n ==> same n ==> same n) Z.mul.
Proof. intros x x' Ex y y' Ey. unfold same. by rewrite <- wrap_mul, Ex, Ey, wrap_mul. Qed.
#[global] Instance opp_Proper n : Proper (same n ==> same n) Z.opp.
Proof. intros x x' Ex. unfold same. by rewrite <- wrap_opp, Ex, wrap_opp. Qed.

Lemma wrap_same n x : 0 < n -> same n (wrap n x) x.
Proof. intros Hn. by apply wrap_wrap. Qed.
Lemma sgn_same n x : same n (sgn n x) x.
Proof. apply wrap_sgn. Qed.
Lemma wrap_same_wider n m x : 0 < n -> n <= m -> same n (wrap m x) x.
Proof. intros. by apply wrap_narrow. Qed.

Create Rewrite HintDb words.
#[export] Hint Rewrite wrap_wrap wrap_sgn sgn_wrap wrap_add wrap_sub wrap_mul wrap_opp using lia : words.

Lemma shift_count k : 0 <= k < 64 -> wrap 64 k = k.
Proof. intros Hk. apply wrap_small. lia. Qed.

Lemma shiftr_shiftr x a b : 0 <= a -> 0 <= b -> Z.shiftr (Z.shiftr x a) b = Z.shiftr x (a + b).
Proof. intros. by rewrite Z.shiftr_shiftr. Qed.

(** ** Powers of 2 *)

Lemma isPowerOfTwo_spec c : isPowerOfTwo c = true -> exists k, 0 <= k /\ c = 2 ^ k /\ size c = k + 1.
Proof.
  unfold isPowerOfTwo. intros [Hc Hl]%andb_true_iff. apply Z.ltb_lt in Hc. apply Z.eqb_eq in Hl.
  exists (size c - 1). destruct (size_bounds c Hc) as [Hs Hs0]. split; [lia|]. split; [|lia].
  destruct (Z.eq_dec c (2 ^ (size c - 1))) as [|Hne]; [done|]. exfalso. set (k := size c - 1) in *.
  replace (size c) with (k + 1) in Hs by lia. rewrite Z.pow_add_r, Z.pow_1_r in Hs by lia.
  assert (Hb : Z.testbit (Z.land c (c - 1)) k = true); [|by rewrite Hl, Z.bits_0 in Hb].
  assert (H2 : 2 ^ (k + 1) = 2 * 2 ^ k) by (rewrite Z.pow_add_r by lia; lia).
  rewrite Z.land_spec. destruct (top_bit k c) as [-> _]; [lia|lia|]. destruct (top_bit k (c - 1)) as [-> _]; [lia|lia|done].
Qed.

Lemma pow_below n k : 0 <= k -> 0 <= n -> 2 ^ k < 2 ^ n -> k < n.
Proof. intros. apply (Z.pow_lt_mono_r_iff 2); lia. Qed.
