(* ===== verification/Quotients.v ===== *)
(** * Quotients: division by multiplication on words

    What the shapes of the rules for divisions and remainders compute: the
    combinations of shifts, products and sums of Ssa.v that a rule puts in the
    place of an operation, for the constants of Magic.v and words of any
    width. *)

From S2P Require Import Prelude Bits Magic MagicFacts Ssa Words.

#[local] Open Scope Z_scope.

(** ** Shifts by a constant *)

(** The count [k] is a word of 64 bits. *)
Definition count (k j : Z) : Prop := wrap 64 k = j.

Lemma rshu_at n x k j : count k j -> 0 <= j < n -> rshu n 64 x k = Z.shiftr (wrap n x) j.
Proof. unfold count, rshu. intros -> Hj. destruct (j <? n) eqn:E; [done|lia]. Qed.

Lemma rshs_at n x k j : count k j -> rshs n 64 x k = wrap n (Z.shiftr (sgn n x) j).
Proof. unfold count, rshs. by intros ->. Qed.

Lemma lsh_at n x k j : count k j -> 0 <= j < n -> lsh n 64 x k = wrap n (x * 2 ^ j).
Proof. unfold count, lsh. intros -> Hj. destruct (j <? n) eqn:E; [by rewrite Z.shiftl_mul_pow2 by lia|lia]. Qed.

Lemma square_bound p a b : 0 <= a < p -> 0 <= b <= p -> 0 <= a * b < p * p.
Proof. nia. Qed.

Lemma signed_square h p x m : - h <= x < h -> 0 <= m < p -> - (h * p) <= m * x < h * p.
Proof. nia. Qed.

(** ** Unsigned division *)

Section Unsigned.
Context (n : Z) (Hn : 0 < n <= 64).

Lemma divu_pow2 x y k0 k : count k0 k -> 0 <= k < n -> wrap n y = 2 ^ k -> rshu n 64 x k0 = divu n x y.
Proof. intros Hk0 Hk Hy. unfold divu. rewrite (rshu_at _ _ _ _ Hk0), Hy, Z.shiftr_div_pow2 by lia. done. Qed.

(** What [umagic] gives of a constant. *)
Record multiplier (d s m : Z) : Prop := {
  mp_s : 2 <= s <= n;
  mp_d : 2 ^ (s - 1) < d < 2 ^ s;
  mp_m : 0 <= m < 2 ^ n;
  mp_e : exists e, (2 ^ n + m) * d = 2 ^ (n + s) + e /\ 0 <= e < d
}.

Context (d s m : Z) (Hm : multiplier d s m).

Lemma multiplier_facts : 2 <= s <= n /\ 2 ^ (s - 1) < d < 2 ^ s /\ 0 <= m < 2 ^ n /\ 0 < d < 2 ^ n /\
  2 ^ (n + s) = 2 ^ n * 2 ^ s /\ 2 ^ s = 2 * 2 ^ (s - 1).
Proof.
  destruct Hm as [Hs Hd Hmm _]. pose proof (pow_pos (s - 1) ltac:(lia)). pose proof (Z.pow_le_mono_r 2 s n).
  split_and!; try lia; [apply Z.pow_add_r; lia|apply pow_half; lia].
Qed.

(** The whole multiplier. *)
Lemma by_multiplier X : 0 <= X < 2 ^ n -> Z.shiftr (X * (2 ^ n + m)) (n + s) = X / d.
Proof.
  intros HX. destruct multiplier_facts as (Hs & Hd & Hmm & Hdn & Hp & _). destruct Hm as [_ _ _ (e & He & Hed)].
  rewrite Z.shiftr_div_pow2 by lia. apply (magic_floor (n + s) d (2 ^ n + m) e); try lia. nia.
Qed.

(** Half of an even one. *)
Lemma by_half_multiplier X : 0 <= X < 2 ^ n -> Z.land m 1 = 0 -> Z.shiftr (X * (2 ^ (n - 1) + m / 2)) (n + s - 1) = X / d.
Proof.
  intros HX Hev. destruct multiplier_facts as (Hs & _). change 1 with (Z.ones 1) in Hev. rewrite Z.land_ones in Hev by lia.
  change (2 ^ 1) with 2 in Hev. rewrite <- by_multiplier by done. rewrite !Z.shiftr_div_pow2 by lia.
  assert (Hp : 2 ^ (n + s) = 2 * 2 ^ (n + s - 1)) by (apply pow_half; lia). rewrite Hp.
  pose proof (pow_half n ltac:(lia)). pose proof (Z.div_mod m 2 ltac:(lia)).
  replace (X * (2 ^ n + m)) with (2 * (X * (2 ^ (n - 1) + m / 2))) by nia.
  rewrite Z.div_mul_cancel_l; [done|pose proof (pow_pos (n + s - 1)); lia|lia].
Qed.

(** The half, rounded up, for half of the dividend and an even divisor. *)
Lemma by_rounded_half : Z.land d 1 = 0 ->
  2 ^ (n - 1) + (m + 1) / 2 < 2 ^ n /\
  forall X, 0 <= X < 2 ^ n -> Z.shiftr (Z.shiftr X 1 * (2 ^ (n - 1) + (m + 1) / 2)) (n + s - 2) = X / d.
Proof.
  intros Hev. change 1 with (Z.ones 1) in Hev. rewrite Z.land_ones in Hev by lia. change (2 ^ 1) with 2 in Hev.
  destruct multiplier_facts as (Hs & Hd & Hmm & Hdn & Hp & Hps). destruct Hm as [_ _ _ (e & He & Hed)].
  pose proof (Z.div_mod d 2 ltac:(lia)) as Hd2. set (d' := d / 2) in *. set (M' := 2 ^ (n - 1) + (m + 1) / 2).
  pose proof (pow_half n ltac:(lia)) as Hpn. pose proof (pow_pos (n - 1) ltac:(lia)) as Hpn1.
  pose proof (Z.div_mod (m + 1) 2 ltac:(lia)) as Hm2. pose proof (Z.mod_pos_bound (m + 1) 2 ltac:(lia)) as Hm2b.
  assert (H4 : 2 ^ (n + s) = 4 * 2 ^ (n + s - 2)) by (replace (n + s) with (2 + (n + s - 2)) at 1 by lia; rewrite Z.pow_add_r by lia; lia).
  set (e' := M' * d' - 2 ^ (n + s - 2)). assert (He' : 0 <= e' < d') by (unfold e', M'; nia).
  assert (Hs2 : 2 ^ (n + s - 2) = 2 ^ (n - 1) * 2 ^ (s - 1)) by (rewrite <- Z.pow_add_r by lia; f_equal; lia).
  split.
  - assert (HM : M' <= 2 ^ n) by (unfold M'; nia). destruct (Z.eq_dec M' (2 ^ n)) as [E|]; [|lia]. exfalso.
    unfold e' in He'. rewrite E, Hs2, Hpn in He'.
    assert (Hs3 : 2 ^ (s - 1) = 2 * 2 ^ (s - 1 - 1)) by (apply pow_half; lia). nia.
  - intros X HX. rewrite !Z.shiftr_div_pow2 by lia. change (2 ^ 1) with 2.
    rewrite (magic_floor (n + s - 2) d' M' e'); [|lia|lia|unfold e'; lia|lia|apply Z.div_pos; lia|].
    + unfold d'. rewrite Z.div_div by lia. f_equal. lia.
    + assert (X / 2 < 2 ^ (n - 1)) by (apply Z.div_lt_upper_bound; lia). pose proof (Z.div_pos X 2). nia.
Qed.

(** The average with the dividend for the missing bit. *)
Lemma by_average X : 0 <= X < 2 ^ n ->
  Z.shiftr ((X + Z.shiftr (m * X) n) / 2) (s - 1) = X / d /\ Z.shiftr ((X * 2 ^ n + m * X) / 2) (n + s - 1) = X / d.
Proof.
  intros HX. destruct multiplier_facts as (Hs & _). pose proof (pow_pos n ltac:(lia)). rewrite <- by_multiplier by done.
  rewrite !Z.shiftr_div_pow2 by lia. pose proof (pow_pos (s - 1) ltac:(lia)). pose proof (pow_pos (n + s - 1) ltac:(lia)). split.
  - replace (X + m * X / 2 ^ n) with ((X * (2 ^ n + m)) / 2 ^ n).
    2: { replace (X * (2 ^ n + m)) with (m * X + X * 2 ^ n) by ring. rewrite Z.div_add by lia. lia. }
    rewrite !Z.div_div by lia. f_equal. change 2 with (2 ^ 1) at 2. rewrite <- !Z.pow_add_r by lia. f_equal. lia.
  - rewrite Z.div_div by lia. f_equal; [ring|]. rewrite <- Z.pow_succ_r by lia. f_equal. lia.
Qed.

(** The product in a word of [W] bits that holds it, and in the high half of
    one of [n] bits.  [C] is the constant operand of the division. *)
Context (C : Z) (HC : wrap n C = d).

Lemma divu_bound X : 0 <= wrap n X / d < 2 ^ n.
Proof.
  destruct multiplier_facts as (_ & _ & _ & Hdn & _). pose proof (wrap_bounds n ltac:(lia) X) as HX.
  split; [apply Z.div_pos; lia|]. apply Z.div_lt_upper_bound; [lia|]. nia.
Qed.

Lemma wrap_quotient X : wrap n (wrap n X / d) = divu n X C.
Proof. unfold divu. rewrite HC. apply wrap_small, divu_bound. Qed.

Section Wide.
Context (W : Z) (HW : 2 * n <= W <= 64).

Lemma wide_bound X M : 0 <= X < 2 ^ n -> 0 <= M -> M <= 2 ^ (W - n) -> 0 <= M * X < 2 ^ W.
Proof.
  intros HX HM0 HM. replace W with (W - n + n) by lia. rewrite Z.pow_add_r by lia. nia.
Qed.

Lemma rshu_mul X c k M j : count k j -> 0 <= j < W -> wrap W c = M -> 0 <= M <= 2 ^ (W - n) -> 0 <= X < 2 ^ n ->
  rshu W 64 (mul W c X) k = Z.shiftr (X * M) j.
Proof.
  intros Hk Hj HcM HM HX. rewrite (rshu_at _ _ _ _ Hk) by lia. f_equal. unfold mul. rewrite wrap_wrap by lia.
  rewrite <- wrap_mul by lia. rewrite HcM, (wrap_small W X). { rewrite wrap_small; [lia|]. apply wide_bound; lia. }
  pose proof (Z.pow_le_mono_r 2 n W). lia.
Qed.

(** [Div8u], [Div16u]: the whole multiplier. *)
Lemma wide_multiplier X c k : 2 * n < W -> wrap W c = 2 ^ n + m -> count k (n + s) ->
  wrap n (rshu W 64 (mul W c (wrap n X)) k) = divu n X C.
Proof.
  intros HW2 Hc Hk. destruct multiplier_facts as (Hs & Hd & Hmm & Hdn & _).
  assert (2 ^ (n + 1) <= 2 ^ (W - n)) by (apply Z.pow_le_mono_r; lia). rewrite Z.pow_add_r in H by lia.
  rewrite (rshu_mul _ _ _ (2 ^ n + m) (n + s)); [|done|lia|done|lia|apply wrap_bounds; lia].
  rewrite by_multiplier by (apply wrap_bounds; lia). apply wrap_quotient.
Qed.

Lemma wide_half X c k : Z.land m 1 = 0 -> wrap W c = 2 ^ (n - 1) + m / 2 -> count k (n + s - 1) ->
  wrap n (rshu W 64 (mul W c (wrap n X)) k) = divu n X C.
Proof.
  intros Hev Hc Hk. destruct multiplier_facts as (Hs & Hd & Hmm & Hdn & _).
  assert (2 ^ n <= 2 ^ (W - n)) by (apply Z.pow_le_mono_r; lia). pose proof (pow_half n ltac:(lia)).
  pose proof (Z.div_mod m 2 ltac:(lia)). pose proof (Z.mod_pos_bound m 2 ltac:(lia)).
  rewrite (rshu_mul _ _ _ (2 ^ (n - 1) + m / 2) (n + s - 1)); [|done|lia|done|lia|apply wrap_bounds; lia].
  rewrite by_half_multiplier by (done || apply wrap_bounds; lia). apply wrap_quotient.
Qed.

Lemma wide_rounded_half X c k k1 : Z.land d 1 = 0 -> wrap W c = 2 ^ (n - 1) + (m + 1) / 2 ->
  count k (n + s - 2) -> count k1 1 ->
  wrap n (rshu W 64 (mul W c (rshu W 64 (wrap n X) k1)) k) = divu n X C.
Proof.
  intros Hev Hc Hk Hk1. destruct multiplier_facts as (Hs & Hd & Hmm & Hdn & _).
  destruct (by_rounded_half Hev) as [HM HX]. pose proof (wrap_bounds n ltac:(lia) X) as HX0.
  assert (2 ^ n <= 2 ^ (W - n)) by (apply Z.pow_le_mono_r; lia). pose proof (pow_pos (n - 1) ltac:(lia)).
  pose proof (Z.div_pos (m + 1) 2 ltac:(lia) ltac:(lia)). assert (n < W) by lia.
  rewrite (rshu_at W (wrap n X) k1 1) by (done || lia). rewrite wrap_wide by lia.
  rewrite (rshu_mul _ _ _ (2 ^ (n - 1) + (m + 1) / 2) (n + s - 2)); [|done|lia|done|lia|].
  - rewrite HX by done. apply wrap_quotient.
  - rewrite Z.shiftr_div_pow2 by lia. split; [apply Z.div_pos; lia|]. apply Z.div_lt_upper_bound; lia.
Qed.

Lemma wide_average X c k kn other : W = 2 * n -> wrap W c = m -> count k (n + s - 1) -> count kn n ->
  wrap n (rshu W 64 (avgu W (lsh W 64 (wrap n X) kn) (mul W c (wrap n X)) other) k) = divu n X C.
Proof.
  intros HW2 Hc Hk Hkn. destruct multiplier_facts as (Hs & Hd & Hmm & Hdn & _).
  pose proof (wrap_bounds n ltac:(lia) X) as HX. set (x := wrap n X) in *.
  assert (E2 : 2 ^ W = 2 ^ n * 2 ^ n) by (rewrite HW2, <- Z.pow_add_r by lia; f_equal; lia).
  assert (Hx : wrap W x = x) by (apply wrap_wide; lia).
  rewrite (lsh_at _ _ _ _ Hkn) by lia. rewrite (rshu_at _ _ _ _ Hk) by lia.
  unfold avgu, mul. rewrite <- (wrap_mul W c x), Hc, Hx, !wrap_wrap by lia.
  assert (HA : 0 <= x * 2 ^ n < 2 ^ W) by (rewrite E2; apply square_bound; lia).
  assert (HB : 0 <= m * x < 2 ^ W) by (rewrite E2; apply square_bound; lia).
  rewrite (wrap_small W _ HA), (wrap_small W _ HB).
  assert (Hle : (m * x <=? x * 2 ^ n) = true) by (apply Z.leb_le; nia). rewrite Hle.
  rewrite (wrap_small W ((x * 2 ^ n + m * x) / 2)). 2: { split; [apply Z.div_pos; lia|apply Z.div_lt_upper_bound; lia]. }
  destruct (by_average x HX) as [_ ->]. apply wrap_quotient.
Qed.
End Wide.

Lemma hmulu_at X c M : wrap n c = M -> 0 <= X < 2 ^ n -> hmulu n c X = Z.shiftr (X * M) n.
Proof. intros Hc HX. unfold hmulu. rewrite Hc, (wrap_small n X HX). f_equal. lia. Qed.

Lemma hmulu_bounds X c : 0 <= hmulu n c X < 2 ^ n.
Proof.
  unfold hmulu. rewrite Z.shiftr_div_pow2 by lia. pose proof (wrap_bounds n ltac:(lia) c). pose proof (wrap_bounds n ltac:(lia) X).
  split; [apply Z.div_pos; nia|apply Z.div_lt_upper_bound; nia].
Qed.

Lemma hmulu_wrap_r c X : hmulu n c (wrap n X) = hmulu n c X.
Proof. unfold hmulu. by rewrite wrap_wrap by lia. Qed.

Lemma high_half X c k : Z.land m 1 = 0 -> wrap n c = 2 ^ (n - 1) + m / 2 -> count k (s - 1) ->
  rshu n 64 (hmulu n c X) k = divu n X C.
Proof.
  intros Hev Hc Hk. destruct multiplier_facts as (Hs & Hd & Hmm & Hdn & _). pose proof (wrap_bounds n ltac:(lia) X) as HX.
  rewrite (rshu_at _ _ _ _ Hk), wrap_small by (apply hmulu_bounds || lia). rewrite <- hmulu_wrap_r.
  rewrite (hmulu_at _ _ _ Hc HX), Z.shiftr_shiftr by lia. replace (n + (s - 1)) with (n + s - 1) by lia.
  rewrite by_half_multiplier by done. unfold divu. by rewrite HC.
Qed.

Lemma high_rounded_half X c k k1 : Z.land d 1 = 0 -> wrap n c = 2 ^ (n - 1) + (m + 1) / 2 ->
  count k (s - 2) -> count k1 1 -> rshu n 64 (hmulu n c (rshu n 64 X k1)) k = divu n X C.
Proof.
  intros Hev Hc Hk Hk1. destruct multiplier_facts as (Hs & Hd & Hmm & Hdn & _). pose proof (wrap_bounds n ltac:(lia) X) as HX.
  rewrite (rshu_at _ _ _ _ Hk), wrap_small by (apply hmulu_bounds || lia). rewrite (rshu_at _ _ _ _ Hk1) by lia.
  assert (HX1 : 0 <= Z.shiftr (wrap n X) 1 < 2 ^ n).
  { rewrite Z.shiftr_div_pow2 by lia. split; [apply Z.div_pos; lia|]. apply Z.div_lt_upper_bound; lia. }
  rewrite (hmulu_at _ _ _ Hc HX1), Z.shiftr_shiftr by lia. replace (n + (s - 2)) with (n + s - 2) by lia.
  destruct (by_rounded_half Hev) as [_ ->]; [|done]. unfold divu. by rewrite HC.
Qed.

Lemma high_average X c k other : wrap n c = m -> count k (s - 1) ->
  rshu n 64 (avgu n X (hmulu n c X) other) k = divu n X C.
Proof.
  intros Hc Hk. destruct multiplier_facts as (Hs & Hd & Hmm & Hdn & _). pose proof (wrap_bounds n ltac:(lia) X) as HX.
  pose proof (hmulu_bounds X c) as Hh. rewrite (rshu_at _ _ _ _ Hk) by lia. unfold avgu.
  rewrite (wrap_small n (hmulu n c X)) by done. assert (Hle : (hmulu n c X <=? wrap n X) = true).
  { apply Z.leb_le. rewrite <- hmulu_wrap_r, (hmulu_at _ _ _ Hc HX), Z.shiftr_div_pow2 by lia.
    apply Z.div_le_upper_bound; [lia|nia]. }
  rewrite Hle. rewrite (wrap_small n ((wrap n X + hmulu n c X) / 2)).
  2: { split; [apply Z.div_pos; lia|apply Z.div_lt_upper_bound; lia]. }
  rewrite <- hmulu_wrap_r, (hmulu_at _ _ _ Hc HX), (Z.mul_comm _ m).
  destruct (by_average (wrap n X) HX) as [-> _]. unfold divu. by rewrite HC.
Qed.
End Unsigned.

(** [Div64u] of a divisor of 16 bits on a machine of 32: the two halves. *)
Lemma split_identity hi lo p c qh rh ql rl qp rp : hi = c * qh + rh -> lo = c * ql + rl -> p = c * qp + rp ->
  hi * p + lo = rl + rh * rp + (qh * p + ql + rh * qp) * c.
Proof. intros -> -> ->. ring. Qed.

Lemma split_division hi lo c : 0 < c ->
  (hi * 2 ^ 32 + lo) / c = hi / c * 2 ^ 32 + lo / c + hi mod c * (2 ^ 32 / c) + (lo mod c + hi mod c * (2 ^ 32 mod c)) / c.
Proof.
  intros Hc. rewrite (split_identity hi lo (2 ^ 32) c (hi / c) (hi mod c) (lo / c) (lo mod c) (2 ^ 32 / c) (2 ^ 32 mod c))
    by (apply Z.div_mod; lia).
  rewrite Z.div_add by lia. lia.
Qed.

Lemma small_word a b : 0 < b -> 0 <= a < 2 ^ 32 -> 0 <= a / b < 2 ^ 32 /\ 0 <= a mod b < 2 ^ 32.
Proof.
  intros Hb Ha. pose proof (Z.div_pos a b). pose proof (Z.div_le_upper_bound a b a). pose proof (Z.mod_pos_bound a b Hb).
  pose proof (Z.mod_le a b). nia.
Qed.

Lemma split_quotient X C c8 c15 c21 k7 c :
  0 < c <= 0xFFFF -> wrap 64 C = c -> wrap 32 c8 = c -> wrap 64 c15 = 2 ^ 32 / c -> wrap 32 c21 = 2 ^ 32 mod c ->
  count k7 32 ->
  let hi := wrap 32 (rshu 64 64 X k7) in
  let lo := wrap 32 X in
  add 64 (add 64 (add 64 (lsh 64 64 (wrap 32 (divu 32 hi c8)) k7) (wrap 32 (divu 32 lo c8)))
                 (mul 64 (wrap 32 (modu 32 hi c8)) c15))
         (wrap 32 (divu 32 (add 32 (modu 32 lo c8) (mul 32 (modu 32 hi c8) c21)) c8)) = divu 64 X C.
Proof.
  intros Hc HC H8 H15 H21 H7. cbv zeta. pose proof (wrap_bounds 64 ltac:(lia) X) as HX.
  rewrite (rshu_at _ _ _ _ H7), (lsh_at _ _ _ _ H7) by lia. unfold divu, modu. rewrite !wrap_wrap by lia. rewrite HC, H8.
  rewrite <- (wrap_narrow 32 ltac:(lia) 64 X ltac:(lia)). set (x := wrap 64 X) in *.
  rewrite Z.shiftr_div_pow2 by lia. set (hi := x / 2 ^ 32). assert (Hhi : 0 <= hi < 2 ^ 32).
  { split; [apply Z.div_pos; lia|apply Z.div_lt_upper_bound; lia]. }
  rewrite (wrap_small 32 hi Hhi). set (lo := wrap 32 x). pose proof (wrap_bounds 32 ltac:(lia) x) as Hlo. fold lo in Hlo.
  assert (Ex : x = hi * 2 ^ 32 + lo) by (unfold hi, lo, wrap; pose proof (Z.div_mod x (2 ^ 32) ltac:(lia)); lia).
  pose proof (small_word hi c ltac:(lia) Hhi) as [Hqh Hrh]. pose proof (small_word lo c ltac:(lia) Hlo) as [Hql Hrl].
  pose proof (Z.mod_pos_bound hi c ltac:(lia)) as Hmh. pose proof (Z.mod_pos_bound lo c ltac:(lia)) as Hml.
  pose proof (Z.mod_pos_bound (2 ^ 32) c ltac:(lia)) as Hmp.
  rewrite (wrap_small 32 (hi / c)), (wrap_small 32 (lo / c)), (wrap_small 32 (hi mod c)) by lia.
  unfold mul. rewrite <- (wrap_mul 32 (hi mod c)), <- (wrap_mul 64 (hi mod c)), H15, H21.
  rewrite (wrap_small 32 (hi mod c)), (wrap_small 64 (hi mod c)) by lia.
  assert (Hp : 0 <= hi mod c * (2 ^ 32 mod c) <= 0xFFFE * 0xFFFE) by nia.
  rewrite (wrap_small 32 (hi mod c * _)) by lia. unfold add. rewrite (wrap_small 32 (lo mod c + _)) by lia.
  rewrite (wrap_small 32 (lo mod c + _)) by lia.
  pose proof (small_word (lo mod c + hi mod c * (2 ^ 32 mod c)) c ltac:(lia) ltac:(lia)) as [Hq _].
  rewrite (wrap_small 32 (_ / c)) by lia. rewrite <- (wrap_small 64 (x / c)).
  2: { split; [apply Z.div_pos; lia|apply Z.div_lt_upper_bound; nia]. }
  rewrite Ex, split_division by lia. rewrite !wrap_add_l. set (q := _ / c) at 3.
  rewrite <- (wrap_add_l 64 (wrap 64 _ + _)), wrap_add, wrap_add_l. done.
Qed.

(** ** Remainders of unsigned numbers *)

Lemma and_mask n X M k : 0 <= k -> 0 < n -> wrap n M = 2 ^ k - 1 -> and_ n X M = wrap n X mod 2 ^ k.
Proof. intros Hk Hn HM. unfold and_. rewrite HM. replace (2 ^ k - 1) with (Z.ones k) by (rewrite Z.ones_equiv; lia). by rewrite Z.land_ones. Qed.

Lemma modu_pow2 n X C M k : 0 <= k -> 0 < n -> wrap n C = 2 ^ k -> wrap n M = 2 ^ k - 1 -> and_ n X M = modu n X C.
Proof. intros Hk Hn HC HM. unfold modu. by rewrite (and_mask n X M k), HC. Qed.

Lemma modu_sub n X C : 0 < n -> 0 < wrap n C -> sub n X (mul n (divu n X C) C) = modu n X C.
Proof.
  intros Hn HC. unfold sub, mul, divu, modu. pose proof (wrap_bounds n Hn X) as HX.
  rewrite (wrap_same n (_ * C)) by done. rewrite <- (wrap_same n C Hn) at 2. rewrite <- (wrap_same n X Hn) at 1.
  set (x := wrap n X) in *. set (c := wrap n C) in *. pose proof (Z.mod_eq x c ltac:(lia)). pose proof (Z.mod_pos_bound x c HC).
  pose proof (Z.mod_le x c). rewrite wrap_small; lia.
Qed.

(** ** Signed division *)

Lemma wrap_land n x y : 0 < n -> wrap n (Z.land (wrap n x) (wrap n y)) = Z.land (wrap n x) (wrap n y).
Proof. intros Hn. unfold wrap. rewrite <- (Z.land_ones (Z.land _ _)), <- Z.land_assoc, (Z.land_ones (y mod _)) by lia. by rewrite Zmod_mod. Qed.

Lemma wrap_land_distr n x y : 0 < n -> wrap n (Z.land x y) = Z.land (wrap n x) (wrap n y).
Proof.
  intros Hn. unfold wrap. rewrite <- !Z.land_ones by lia. apply Z.bits_inj'. intros i Hi. rewrite !Z.land_spec.
  by destruct (Z.testbit x i), (Z.testbit y i), (Z.testbit _ i).
Qed.

Lemma wrap_opp_half n : 0 < n -> wrap n (- 2 ^ (n - 1)) = 2 ^ (n - 1).
Proof.
  intros Hn. unfold wrap. pose proof (pow_half n Hn). pose proof (half_pos n Hn).
  rewrite <- (Z_mod_plus_full (- 2 ^ (n - 1)) 1), Z.mod_small; lia.
Qed.

(** All bits are the sign. *)
Lemma sign_shift n x : 0 < n -> - 2 ^ (n - 1) <= x < 2 ^ (n - 1) -> Z.shiftr x (n - 1) = if x <? 0 then -1 else 0.
Proof.
  intros Hn Hx. rewrite Z.shiftr_div_pow2 by lia. destruct (x <? 0) eqn:E.
  - symmetry. apply (Z.div_unique_pos x _ _ (x + 2 ^ (n - 1))); lia.
  - apply Z.div_small. lia.
Qed.

Lemma rshu_0 n k : 0 < n -> rshu n 64 (wrap n 0) k = 0.
Proof. intros Hn. unfold rshu. change (wrap n 0) with 0. change (wrap n 0) with 0. rewrite Z.shiftr_0_l. by destruct (_ <? _). Qed.

Lemma rshu_ones n k k2 : 0 < n -> 0 <= k <= n -> count k2 (n - k) -> rshu n 64 (wrap n (-1)) k2 = 2 ^ k - 1.
Proof.
  intros Hn Hk Hk2. destruct (Z.eq_dec k 0) as [->|].
  { unfold rshu. unfold count in Hk2. rewrite Hk2, Z.sub_0_r, Z.ltb_irrefl. done. }
  rewrite (rshu_at _ _ _ _ Hk2), wrap_wrap by lia. replace (wrap n (-1)) with (Z.ones n).
  - rewrite Z.shiftr_div_pow2, Z.ones_div_pow2, Z.ones_equiv by lia. replace (n - (n - k)) with k by lia. lia.
  - rewrite Z.ones_equiv. pose proof (pow_pos n ltac:(lia)). unfold wrap. rewrite <- (Z_mod_plus_full (-1) 1), Z.mod_small; lia.
Qed.

Section Signed.
Context (n : Z) (Hn : 1 < n <= 64).
Context (C c : Z) (HC : sgn n C = c).

Lemma sgn_wrap_range X : - 2 ^ (n - 1) <= sgn n X < 2 ^ (n - 1).
Proof. apply sgn_bounds. lia. Qed.

(** A dividend that is not negative. *)
Lemma divs_nonneg_pow2 X k0 k : 0 <= sgn n X -> c = 2 ^ k -> count k0 k -> 0 <= k < n -> rshu n 64 X k0 = divs n X C.
Proof.
  intros HX Hc Hk0 Hk. destruct (sgn_nonneg n ltac:(lia) X HX) as [E HX2]. pose proof (pow_pos k ltac:(lia)).
  rewrite (rshu_at _ _ _ _ Hk0) by lia. unfold divs. rewrite HC, Hc, Z.quot_div_nonneg by lia.
  rewrite <- Z.shiftr_div_pow2, E by lia. pose proof (wrap_bounds n ltac:(lia) X). symmetry. apply wrap_small.
  rewrite Z.shiftr_div_pow2 by lia. split; [apply Z.div_pos; lia|]. apply Z.div_lt_upper_bound; [lia|]. nia.
Qed.

Lemma divs_nonneg_min X : 0 <= sgn n X -> c = - 2 ^ (n - 1) -> divs n X C = 0.
Proof.
  intros HX Hc. pose proof (sgn_wrap_range X). unfold divs. rewrite HC, Hc, Z.quot_opp_r, Z.quot_small by lia. done.
Qed.

Lemma divs_neg X C' : c <> 0 -> sgn n C' = - c -> neg n (divs n X C') = divs n X C.
Proof.
  intros Hc HC'. unfold neg, divs. rewrite (wrap_same n (Z.quot _ _)), HC', HC by lia. by rewrite Z.quot_opp_r, Z.opp_involutive.
Qed.

(** Only the smallest number is a multiple, other than 0, of the smallest. *)
Lemma divs_min X k0 : c = - 2 ^ (n - 1) -> count k0 (n - 1) -> rshu n 64 (and_ n X (neg n X)) k0 = divs n X C.
Proof.
  intros Hc Hk0. pose proof (sgn_wrap_range X) as HX. pose proof (half_pos n ltac:(lia)). pose proof (pow_half n ltac:(lia)).
  rewrite (rshu_at _ _ _ _ Hk0) by lia. unfold and_, neg, divs. rewrite HC, Hc. rewrite wrap_wrap by lia.
  rewrite <- (sgn_same n X) at 1 2. set (x := sgn n X) in *.
  rewrite wrap_land, Z.shiftr_land by lia. rewrite !Z.shiftr_div_pow2 by lia.
  destruct (Z.eq_dec x (- 2 ^ (n - 1))) as [->|Hne].
  - rewrite Z.quot_same, Z.opp_involutive by lia. rewrite (wrap_opp_half n) by lia.
    rewrite (wrap_small n (2 ^ (n - 1))), Z.div_same by lia. change (Z.land 1 1) with 1. symmetry. apply wrap_small. lia.
  - rewrite Z.quot_opp_r by lia. replace (Z.quot x (2 ^ (n - 1))) with 0 by (symmetry; apply Z.quot_small_iff; lia). change (wrap n (- 0)) with 0. destruct (Z.le_gt_cases 0 x).
    + by rewrite (wrap_small n x), (Z.div_small x), Z.land_0_l by lia.
    + by rewrite (wrap_small n (- x)), (Z.div_small (- x)), Z.land_0_r by lia.
Qed.

(** Negative numbers are rounded up. *)
Lemma quot_pow2 x k : 0 <= k -> Z.shiftr (x + (if x <? 0 then 2 ^ k - 1 else 0)) k = Z.quot x (2 ^ k).
Proof.
  intros Hk. pose proof (pow_pos k Hk). rewrite Z.shiftr_div_pow2 by done. destruct (x <? 0) eqn:E.
  - rewrite <- (Z.opp_involutive x), Z.quot_opp_l, Z.quot_div_nonneg by lia. pose proof (ceiling x (2 ^ k) ltac:(lia)) as (e & Ee & He).
    replace (- - x + (2 ^ k - 1)) with (x + 2 ^ k - 1) by lia.
    pose proof (Z.div_mod (- x) (2 ^ k) ltac:(lia)). pose proof (Z.mod_pos_bound (- x) (2 ^ k) ltac:(lia)). nia.
  - by rewrite Z.add_0_r, Z.quot_div_nonneg by lia.
Qed.

Lemma divs_pow2 X k1 k2 k3 k : c = 2 ^ k -> 0 <= k < n - 1 -> count k1 (n - 1) -> count k2 (n - k) -> count k3 k ->
  rshs n 64 (add n X (rshu n 64 (rshs n 64 X k1) k2)) k3 = divs n X C.
Proof.
  intros Hc Hk Hk1 Hk2 Hk3. pose proof (sgn_wrap_range X) as HX. pose proof (half_pos n ltac:(lia)). pose proof (pow_half n ltac:(lia)).
  pose proof (pow_pos k ltac:(lia)). assert (Hkn : 2 ^ k < 2 ^ (n - 1)) by (apply Z.pow_lt_mono_r; lia).
  rewrite (rshs_at _ _ _ _ Hk3), (rshs_at _ _ _ _ Hk1). unfold add, divs. rewrite sgn_wrap, HC, Hc.
  rewrite <- (sgn_same n X) at 1. set (x := sgn n X) in *. rewrite (sign_shift n) by lia.
  assert (Hr : rshu n 64 (wrap n (if x <? 0 then -1 else 0)) k2 = if x <? 0 then 2 ^ k - 1 else 0).
  { destruct (x <? 0); [|apply rshu_0; lia]. rewrite (rshu_ones n k k2); done || lia. }
  rewrite Hr, sgn_small, quot_pow2 by (destruct (x <? 0) eqn:?; lia). done.
Qed.

(** What [smagic] gives of a constant. *)
Record signed_multiplier (s M : Z) : Prop := {
  sp_s : 0 < s < n - 1;
  sp_m : 2 ^ (n - 1) <= M < 2 ^ n;
  sp_q : forall x, - 2 ^ (n - 1) <= x < 2 ^ (n - 1) -> Z.quot x c = x * M / 2 ^ (n + s) + (if x <? 0 then 1 else 0)
}.

Section Multiplier.
Context (s M : Z) (HM : signed_multiplier s M).

(** The sign is subtracted. *)
Lemma minus_sign W X k a : n <= W -> count k (W - 1) -> same n a (sgn n X * M / 2 ^ (n + s)) ->
  sub n a (rshs W 64 (sext n W X) k) = divs n X C.
Proof.
  intros HW Hk Ha. pose proof (sgn_wrap_range X) as HX. unfold sub, divs. rewrite HC, (sp_q _ _ HM) by done.
  rewrite (rshs_at _ _ _ _ Hk). unfold sext. pose proof (Z.pow_le_mono_r 2 (n - 1) (W - 1)).
  rewrite sgn_wrap, (sgn_small W), sign_shift by lia. rewrite (wrap_same_wider n W), Ha by lia.
  f_equal. by destruct (sgn n X <? 0).
Qed.

Lemma minus_sign_same X k a : count k (n - 1) -> same n a (sgn n X * M / 2 ^ (n + s)) ->
  sub n a (rshs n 64 X k) = divs n X C.
Proof.
  intros Hk Ha. rewrite <- (minus_sign n X k a) by done || lia. f_equal. rewrite !(rshs_at _ _ _ _ Hk).
  unfold sext. by rewrite wrap_sgn, sgn_wrap.
Qed.

Lemma product_bound x m : - 2 ^ (n - 1) <= x < 2 ^ (n - 1) -> 0 <= m <= 2 ^ n ->
  - 2 ^ (n - 1) <= x * m / 2 ^ n < 2 ^ (n - 1).
Proof.
  intros Hx Hm. pose proof (pow_pos n ltac:(lia)). pose proof (half_pos n ltac:(lia)).
  split; [apply Z.div_le_lower_bound|apply Z.div_lt_upper_bound]; nia.
Qed.

Lemma signed_wide W X cm k1 k2 : 2 * n <= W <= 64 -> wrap W cm = M -> count k1 (n + s) -> count k2 (W - 1) ->
  sub n (rshs W 64 (mul W cm (sext n W X)) k1) (rshs W 64 (sext n W X) k2) = divs n X C.
Proof.
  intros HW Hcm Hk1 Hk2. apply minus_sign; [lia|done|]. pose proof (sgn_wrap_range X) as HX.
  rewrite (rshs_at _ _ _ _ Hk1), (wrap_same_wider n W) by lia. unfold mul, sext. rewrite sgn_wrap.
  rewrite (wrap_same W (sgn n X)), <- (wrap_same W cm), Hcm by lia. destruct (sp_m _ _ HM) as [HM0 HM1].
  assert (HW2 : 2 ^ (2 * n - 1) <= 2 ^ (W - 1)) by (apply Z.pow_le_mono_r; lia).
  assert (E2 : 2 ^ (2 * n - 1) = 2 ^ (n - 1) * 2 ^ n) by (rewrite <- Z.pow_add_r by lia; f_equal; lia).
  pose proof (signed_square (2 ^ (n - 1)) (2 ^ n) (sgn n X) M HX ltac:(lia)).
  rewrite (sgn_small W ltac:(lia) (M * _)) by lia. pose proof (sp_s _ _ HM). by rewrite Z.shiftr_div_pow2, (Z.mul_comm M) by lia.
Qed.

(** [Hmul] of half of an even multiplier. *)
Lemma signed_high_half X cm k1 k2 : Z.land M 1 = 0 -> wrap n cm = M / 2 -> count k1 (s - 1) -> count k2 (n - 1) ->
  sub n (rshs n 64 (hmul n cm X) k1) (rshs n 64 X k2) = divs n X C.
Proof.
  intros Hev Hcm Hk1 Hk2. apply minus_sign_same; [done|]. pose proof (sgn_wrap_range X) as HX. destruct (sp_m _ _ HM) as [HM0 HM1].
  pose proof (sp_s _ _ HM) as Hs. pose proof (pow_half n ltac:(lia)) as Hp. pose proof (pow_pos n ltac:(lia)).
  change 1 with (Z.ones 1) in Hev. rewrite Z.land_ones in Hev by lia. change (2 ^ 1) with 2 in Hev.
  pose proof (Z.div_mod M 2 ltac:(lia)) as HM2. rewrite (rshs_at _ _ _ _ Hk1), (wrap_same n) by lia.
  unfold hmul. rewrite sgn_wrap. rewrite <- (sgn_wrap n cm), Hcm, (sgn_small n ltac:(lia) (M / 2)) by lia.
  rewrite (Z.shiftr_div_pow2 _ n), (Z.mul_comm (M / 2)) by lia. rewrite (sgn_small n ltac:(lia) (_ / _)) by (lia || apply product_bound; lia).
  rewrite Z.shiftr_div_pow2, Z.div_div, <- Z.pow_add_r by (lia || apply pow_pos; lia).
  replace (n + s) with (Z.succ (n + (s - 1))) by lia. rewrite Z.pow_succ_r by lia.
  replace (sgn n X * M) with (2 * (sgn n X * (M / 2))) by nia.
  rewrite Z.div_mul_cancel_l; [done|pose proof (pow_pos (n + (s - 1))); lia|lia].
Qed.

(** [Hmul] of a multiplier whose top bit is the sign. *)
Lemma signed_high_add X cm k1 k2 : wrap n cm = M -> count k1 s -> count k2 (n - 1) ->
  sub n (rshs n 64 (add n (hmul n cm X) X) k1) (rshs n 64 X k2) = divs n X C.
Proof.
  intros Hcm Hk1 Hk2. apply minus_sign_same; [done|]. pose proof (sgn_wrap_range X) as HX. destruct (sp_m _ _ HM) as [HM0 HM1].
  pose proof (sp_s _ _ HM) as Hs. pose proof (pow_half n ltac:(lia)) as Hp. pose proof (pow_pos n ltac:(lia)).
  rewrite (rshs_at _ _ _ _ Hk1), (wrap_same n) by lia. unfold add, hmul. rewrite sgn_wrap.
  assert (Hsm : sgn n cm = M - 2 ^ n). { destruct (sgn_cases n ltac:(lia) cm) as [[? E]|[? E]]; pose proof (sgn_wrap_range cm); lia. }
  rewrite Hsm, (Z.shiftr_div_pow2 _ n), (wrap_same n) by lia. rewrite <- (sgn_same n X) at 2. set (x := sgn n X) in *.
  replace ((M - 2 ^ n) * x) with (x * M + - x * 2 ^ n) by ring. rewrite Z.div_add by lia.
  replace (x * M / 2 ^ n + - x + x) with (x * M / 2 ^ n) by lia.
  rewrite (sgn_small n ltac:(lia) (_ / _)) by (lia || apply product_bound; lia).
  by rewrite Z.shiftr_div_pow2, Z.div_div, <- Z.pow_add_r by (lia || apply pow_pos; lia).
Qed.
End Multiplier.

(** ** Remainders of signed numbers *)

Lemma mods_nonneg_pow2 X Mk k : 0 <= sgn n X -> 0 <= k -> c = 2 ^ k -> wrap n Mk = 2 ^ k - 1 -> and_ n X Mk = mods n X C.
Proof.
  intros HX Hk Hc HMk. destruct (sgn_nonneg n ltac:(lia) X HX) as [E _]. pose proof (pow_pos k Hk) as Hp.
  rewrite (and_mask n X Mk k) by lia. unfold mods. rewrite HC, Hc, Z.rem_mod_nonneg, E by lia. symmetry. apply wrap_small.
  pose proof (Z.mod_pos_bound (wrap n X) (2 ^ k) Hp). pose proof (Z.mod_le (wrap n X) (2 ^ k)). pose proof (wrap_bounds n ltac:(lia) X). lia.
Qed.

Lemma mods_nonneg_min X : 0 <= sgn n X -> c = - 2 ^ (n - 1) -> mods n X C = wrap n X.
Proof.
  intros HX Hc. pose proof (sgn_wrap_range X). unfold mods. rewrite HC, Hc, Z.rem_opp_r, Z.rem_small by lia. apply wrap_sgn.
Qed.

Lemma mods_neg X C' : c <> 0 -> sgn n C' = - c -> mods n X C' = mods n X C.
Proof. intros Hc HC'. unfold mods. by rewrite HC', HC, Z.rem_opp_r. Qed.

Lemma mods_sub X : c <> 0 -> sub n X (mul n (divs n X C) C) = mods n X C.
Proof.
  intros Hc. unfold sub, mul, divs, mods. rewrite (wrap_same n (_ * C)), (wrap_same n (Z.quot _ _)) by lia.
  rewrite <- (sgn_same n C) at 2. rewrite <- (sgn_same n X) at 1. rewrite HC. f_equal.
  pose proof (Z.quot_rem' (sgn n X) c). lia.
Qed.
End Signed.


(** ** The constants of magic.go *)

Lemma size_above d s : 2 ^ (s - 1) < d < 2 ^ s -> 0 < s -> 2 <= s.
Proof. intros Hd Hs. destruct (Z.eq_dec s 1) as [->|]; [cbn in Hd; lia|lia]. Qed.

Lemma umagic_multiplier n c : width n -> umagicOK n c = true ->
  exists s m, umagic n c = Ok (UmagicData s m) /\ multiplier n (wrap n c) s m.
Proof.
  intros Hn Hok. pose proof (umagicOK_spec n c Hn Hok) as [Hs Hd]. destruct (umagic_data n c Hn Hok) as (m & e & E & Hm & He & Hed).
  rewrite const_bits_mod in * by done. change (c mod 2 ^ n) with (wrap n c) in *.
  exists (size (wrap n c)), m. split; [done|]. pose proof (size_above _ _ Hd ltac:(lia)). split; [lia|done|done|]. exists e. done.
Qed.

Lemma smagic_multiplier n c : width n -> smagicOK n c = true -> - 2 ^ (n - 1) <= c < 2 ^ (n - 1) ->
  exists s M, smagic n c = Ok (SmagicData s M) /\ signed_multiplier n c s M.
Proof.
  intros Hn Hok Hc. assert (Hc0 : 0 <= c) by (unfold smagicOK in Hok; destruct (c <? 0) eqn:?; [done|lia]).
  destruct (smagic_data n c Hn Hok ltac:(lia)) as (M & e & E & HM & Hs & HMc & He & Hcs).
  exists (size c - 1), M. split; [done|]. split; [done|done|]. intros x Hx. unfold width in Hn.
  apply (smagic_floor n c _ M e); lia || done.
Qed.

(** The test on the signed constant is the test on its bits. *)
Lemma land_signed n x y : 0 < n -> - 2 ^ (n - 1) <= x < 2 ^ (n - 1) -> - 2 ^ (n - 1) <= y < 2 ^ (n - 1) ->
  - 2 ^ (n - 1) <= Z.land x y < 2 ^ (n - 1).
Proof.
  intros Hn Hx Hy. pose proof (half_pos n Hn). assert (Hs : Z.shiftr (Z.land x y) (n - 1) = 0 \/ Z.shiftr (Z.land x y) (n - 1) = -1).
  { rewrite Z.shiftr_land, !sign_shift by done. destruct (x <? 0), (y <? 0); auto. }
  rewrite Z.shiftr_div_pow2 in Hs by lia. pose proof (Z.div_mod (Z.land x y) (2 ^ (n - 1)) ltac:(lia)).
  pose proof (Z.mod_pos_bound (Z.land x y) (2 ^ (n - 1)) ltac:(lia)). destruct Hs as [E|E]; rewrite E in *; lia.
Qed.

Lemma umagicOK_signed n c : width n -> - 2 ^ (n - 1) <= c < 2 ^ (n - 1) ->
  negb (Z.land c (sgn n (c - 1)) =? 0) = true -> umagicOK n c = true.
Proof.
  intros Hn Hc Hok. pose proof (const_bits_bounds n c Hn) as Hd. pose proof (word_bound n _ Hn Hd). unfold umagicOK.
  rewrite const_bits_mod in * by done. change (c mod 2 ^ n) with (wrap n c) in *. unfold width in Hn.
  apply negb_true_iff, Z.eqb_neq in Hok. apply negb_true_iff, Z.eqb_neq. intros E. apply Hok.
  unfold u64 in E. rewrite land_wrap in E by lia. pose proof (sgn_bounds n ltac:(lia) (c - 1)) as Hc1.
  rewrite <- (sgn_small n ltac:(lia) (Z.land _ _)) by (apply land_signed; lia).
  rewrite <- sgn_wrap. replace (wrap n (Z.land c (sgn n (c - 1)))) with 0; [apply sgn_small; [lia|]; pose proof (half_pos n); lia|].
  rewrite <- E, <- (land_wrap (wrap n c) (wrap n c - 1) n) by (done || lia). symmetry.
  change ((wrap n c - 1) mod 2 ^ n) with (wrap n (wrap n c - 1)). rewrite wrap_land_distr, wrap_sgn by lia. f_equal. symmetry. apply Zminus_mod_idemp_l.
Qed.

(** The bits of a multiplier as an operand. *)
Lemma const_word n z : 0 < n <= 64 -> 0 <= z < 2 ^ n -> wrap n (sgn n (u64 z)) = z.
Proof. intros Hn Hz. pose proof (Z.pow_le_mono_r 2 n 64). rewrite wrap_sgn, word64_small by lia. by apply wrap_small. Qed.

(** ** Powers of 2 as constants *)

Lemma pow2_const n c : isPowerOfTwo c = true -> c < 2 ^ n -> 0 <= n -> exists k, 0 <= k < n /\ c = 2 ^ k /\ size c - 1 = k /\ 0 < c.
Proof.
  intros Hp Hc Hn. destruct (isPowerOfTwo_spec c Hp) as (k & Hk & E & Hs). exists k. pose proof (pow_pos k Hk).
  split; [|split; [done|lia]]. subst c. pose proof (pow_below n k Hk Hn). lia.
Qed.

Lemma log8_pow2 c : isPowerOfTwo c = true -> c < 2 ^ 7 -> exists k, 0 <= k < 7 /\ c = 2 ^ k /\ log8 c = k.
Proof.
  intros Hp Hc. destruct (pow2_const 7 c Hp Hc ltac:(lia)) as (k & Hk & E & Hs & H0). exists k. split_and!; try done; try lia.
  unfold log8, u8. rewrite Z.mod_small, Len8_size by lia. done.
Qed.
Lemma log16_pow2 c : isPowerOfTwo c = true -> c < 2 ^ 15 -> exists k, 0 <= k < 15 /\ c = 2 ^ k /\ log16 c = k.
Proof.
  intros Hp Hc. destruct (pow2_const 15 c Hp Hc ltac:(lia)) as (k & Hk & E & Hs & H0). exists k. split_and!; try done; try lia.
  unfold log16, u16. rewrite Z.mod_small, Len16_size by lia. done.
Qed.
Lemma log32_pow2 c : isPowerOfTwo c = true -> c < 2 ^ 31 -> exists k, 0 <= k < 31 /\ c = 2 ^ k /\ log32 c = k.
Proof.
  intros Hp Hc. destruct (pow2_const 31 c Hp Hc ltac:(lia)) as (k & Hk & E & Hs & H0). exists k. split_and!; try done; try lia.
  unfold log32, u32. rewrite Z.mod_small, Len32_size by lia. done.
Qed.
Lemma log64_pow2 c : isPowerOfTwo c = true -> c < 2 ^ 63 -> exists k, 0 <= k < 63 /\ c = 2 ^ k /\ log64 c = k.
Proof.
  intros Hp Hc. destruct (pow2_const 63 c Hp Hc ltac:(lia)) as (k & Hk & E & Hs & H0). exists k. split_and!; try done; try lia.
  unfold log64, u64. rewrite Z.mod_small, Len64_size by lia. done.
Qed.
