(* ===== verification/SsaFacts.v ===== *)
(** * Well-typed values

    When a value is well typed, that what it computes fits in its width, and
    that [isNonNegative] is right about it. *)

From S2P Require Import Prelude Bits Magic MagicFacts Ssa Words.

#[local] Open Scope Z_scope.

(** ** Typing *)

Definition in_int64 (i : Z) : bool := (- 2 ^ 63 <=? i) && (i <? 2 ^ 63).

(** An operand of an operation on [n] bits. *)
Definition operand_ok (n : Z) (w : option Z) (a : value) : bool :=
  IsInteger (typ a) && match w with Some m => width_of a =? m | None => n <=? width_of a end.

Fixpoint operands_ok (n : Z) (ws : list (option Z)) (l : list value) : bool :=
  match ws, l with
  | [], [] => true
  | w :: ws, a :: l => operand_ok n w a && operands_ok n ws l
  | _, _ => false
  end.

Definition shape_ok (o : Op) (t : type) (l : list value) : bool :=
  match op_width o with
  | Some n => IsInteger t && operands_ok n (operand_widths o) l
  | None => match o, l with OpCopy, [_] => true | OpCopy, _ => false | _, _ => true end
  end.

(** Every operation has the operands it needs; the others may have any. *)
Fixpoint wt (v : value) : bool :=
  match v with Value o t aux l => in_int64 aux && forallb wt l && shape_ok o t l end.

(** The operations whose results count something. *)
Definition is_count (o : Op) : bool :=
  match o with
  | OpStringLen | OpSliceLen | OpSliceCap
  | OpCtz64 | OpCtz32 | OpCtz16 | OpCtz8 | OpCtz64NonZero | OpCtz32NonZero | OpCtz16NonZero | OpCtz8NonZero
  | OpBitLen64 | OpBitLen32 | OpBitLen16 | OpBitLen8 => true
  | _ => false
  end.

(** What is asked of the operations that are not modelled: a result fits in
    its type, and is not negative where it counts. *)
Class Others (other : value -> Z) : Prop := {
  other_range : forall v, 0 <= other v < 2 ^ type_width (typ v);
  count_range : forall v, is_count (op v) = true -> other v < 2 ^ (type_width (typ v) - 1)
}.

Lemma type_width_pos t : 0 < type_width t.
Proof. by destruct t as [| | | | | | | |[]|[]|[]|]. Qed.

#[export] Instance zero_Others : Others (fun _ => 0).
Proof. split; intros v; [|intros _]; pose proof (type_width_pos (typ v)); pose proof (pow_pos (type_width (typ v))); [lia|apply pow_pos; lia]. Qed.

(** ** Inversion *)

Lemma wt_value o t aux l : wt (Value o t aux l) = true <->
  in_int64 aux = true /\ forallb wt l = true /\ shape_ok o t l = true.
Proof. cbn [wt]. rewrite !andb_true_iff. tauto. Qed.

Lemma in_int64_range i : in_int64 i = true <-> - 2 ^ 63 <= i < 2 ^ 63.
Proof. unfold in_int64. lia. Qed.

Lemma in_int64_sgn n x : 0 < n <= 64 -> in_int64 (sgn n x) = true.
Proof.
  intros Hn. apply in_int64_range. pose proof (sgn_bounds n ltac:(lia) x). pose proof (Z.pow_le_mono_r 2 (n - 1) 63). lia.
Qed.

Lemma height_arg o t aux l a : In a l -> (height a < height (Value o t aux l))%nat.
Proof.
  intros Hin. cbn [height]. apply Nat.lt_succ_r. induction l as [|b l IH]; [done|]. cbn [fold_right].
  destruct Hin as [->|Hin]; [lia|]. specialize (IH Hin). lia.
Qed.

(** The operand of an operation. *)
Record operand (n : Z) (w : option Z) (a : value) : Prop := {
  operand_wt : wt a = true;
  operand_int : IsInteger (typ a) = true;
  operand_width : match w with Some m => width_of a = m | None => n <= width_of a end
}.

Lemma operand_spec n w a : wt a = true -> operand_ok n w a = true -> operand n w a.
Proof. intros Ha [Hi Hw]%andb_true_iff. split; [done..|]. destruct w; lia. Qed.

Lemma unary_operand o t aux l n w : wt (Value o t aux l) = true -> op_width o = Some n -> operand_widths o = [w] ->
  exists x, l = [x] /\ operand n w x.
Proof.
  intros (_ & Hl & Hs)%wt_value En Ew. unfold shape_ok in Hs. rewrite En, Ew in Hs. apply andb_true_iff in Hs as [_ Hs].
  destruct l as [|x [|]]; [done| |by apply andb_true_iff in Hs as [_ ?]]. cbn in Hl, Hs.
  apply andb_true_iff in Hl as [Hx _]. apply andb_true_iff in Hs as [Hox _]. exists x. split; [done|]. by apply operand_spec.
Qed.

Lemma binary_operands o t aux l n w w' : wt (Value o t aux l) = true -> op_width o = Some n -> operand_widths o = [w; w'] ->
  exists x y, l = [x; y] /\ operand n w x /\ operand n w' y.
Proof.
  intros (_ & Hl & Hs)%wt_value En Ew. unfold shape_ok in Hs. rewrite En, Ew in Hs. apply andb_true_iff in Hs as [_ Hs].
  destruct l as [|x [|y [|]]]; [done|cbn in Hs; by rewrite andb_false_r in Hs| |cbn in Hs; by rewrite !andb_false_r in Hs].
  cbn in Hl, Hs. rewrite !andb_true_r in *. apply andb_true_iff in Hl as [Hx Hy]. apply andb_true_iff in Hs as [Hox Hoy].
  exists x, y. split; [done|]. split; by apply operand_spec.
Qed.

(** ** Ranges *)

Section Ranges.
Context (n : Z) (Hn : 0 < n).

Lemma quotient_range x y : 0 <= x < 2 ^ n -> 0 <= y -> 0 <= x / y < 2 ^ n.
Proof.
  intros Hx Hy. destruct (Z.eq_dec y 0) as [->|]; [rewrite Z.div_0_r; lia|].
  pose proof (Z.div_pos x y). pose proof (Z.div_le_upper_bound x y x). nia.
Qed.

Lemma bitwise_range f x y : (forall a b, Z.land (f a b) (Z.ones n) = f (Z.land a (Z.ones n)) (Z.land b (Z.ones n))) ->
  0 <= f (wrap n x) (wrap n y) < 2 ^ n.
Proof.
  intros Hf. unfold wrap. rewrite <- !Z.land_ones, <- Hf, Z.land_ones by lia. by apply wrap_bounds.
Qed.

Lemma divu_range x y : 0 <= divu n x y < 2 ^ n.
Proof. apply quotient_range; apply wrap_bounds; lia. Qed.

Lemma modu_range x y : 0 <= modu n x y < 2 ^ n.
Proof.
  unfold modu. pose proof (wrap_bounds n Hn x). pose proof (wrap_bounds n Hn y). destruct (Z.eq_dec (wrap n y) 0) as [->|].
  - by rewrite Z.mod_0_r.
  - pose proof (Z.mod_pos_bound (wrap n x) (wrap n y)). lia.
Qed.

Lemma rshu_range m x k : 0 < m -> 0 <= rshu n m x k < 2 ^ n.
Proof.
  intros Hm. unfold rshu. pose proof (pow_pos n ltac:(lia)). destruct (_ <? n); [|lia]. pose proof (wrap_bounds m Hm k).
  rewrite Z.shiftr_div_pow2 by lia. apply quotient_range; [apply wrap_bounds; lia|]. apply Z.pow_nonneg. lia.
Qed.

Lemma lsh_range m x k : 0 <= lsh n m x k < 2 ^ n.
Proof. unfold lsh. pose proof (pow_pos n ltac:(lia)). destruct (_ <? n); [apply wrap_bounds; lia|lia]. Qed.

Lemma hmulu_range x y : 0 <= hmulu n x y < 2 ^ n.
Proof.
  unfold hmulu. pose proof (wrap_bounds n Hn x). pose proof (wrap_bounds n Hn y). rewrite Z.shiftr_div_pow2 by lia.
  split; [apply Z.div_pos; nia|apply Z.div_lt_upper_bound; nia].
Qed.

Lemma avgu_range x y other : 0 <= avgu n x y other < 2 ^ n.
Proof.
  unfold avgu. destruct (_ <=? _); [|by apply wrap_bounds]. pose proof (wrap_bounds n Hn x). pose proof (wrap_bounds n Hn y).
  split; [apply Z.div_pos; lia|apply Z.div_lt_upper_bound; lia].
Qed.
End Ranges.

Lemma wrap_range n m x : 0 < m -> m <= n -> 0 <= wrap m x < 2 ^ n.
Proof. intros Hm Hmn. pose proof (wrap_bounds m Hm x). pose proof (Z.pow_le_mono_r 2 m n). lia. Qed.

Lemma land_range n x y : 0 < n -> 0 <= and_ n x y < 2 ^ n.
Proof. intros Hn. apply (bitwise_range n Hn Z.land). intros a b. apply Z.bits_inj'. intros i Hi. rewrite !Z.land_spec. by destruct (Z.testbit a i), (Z.testbit b i), (Z.testbit _ i). Qed.
Lemma lor_range n x y : 0 < n -> 0 <= or_ n x y < 2 ^ n.
Proof. intros Hn. apply (bitwise_range n Hn Z.lor). intros a b. apply Z.land_lor_distr_l. Qed.
Lemma lxor_range n x y : 0 < n -> 0 <= xor_ n x y < 2 ^ n.
Proof. intros Hn. apply (bitwise_range n Hn Z.lxor). intros a b. apply Z.bits_inj'. intros i Hi. rewrite Z.land_spec, !Z.lxor_spec, !Z.land_spec. by destruct (Z.testbit a i), (Z.testbit b i), (Z.testbit _ i). Qed.

Create HintDb ranges.
#[export] Hint Resolve wrap_range land_range lor_range lxor_range divu_range modu_range rshu_range lsh_range hmulu_range avgu_range : ranges.
#[export] Hint Extern 1 (_ < _)%Z => lia : ranges.
#[export] Hint Extern 1 (_ <= _)%Z => lia : ranges.

Lemma compute_range o n aux l other : op_width o = Some n -> 0 <= compute o aux l other < 2 ^ n.
Proof. destruct o; intros [= <-]; cbn [compute]; unfold add, sub, mul, neg, divs, mods, rshs, hmul, sext; auto with ranges. Qed.

(** ** The computed value fits *)

Section Values.
Context (other : value -> Z) `{!Others other}.

Lemma eval_at o t aux l : eval other (Value o t aux l) = compute o aux (map (eval other) l) (other (Value o t aux l)).
Proof. done. Qed.

Lemma opaque_eval o t aux l : op_width o = None -> o <> OpCopy -> eval other (Value o t aux l) = other (Value o t aux l).
Proof. rewrite eval_at. by destruct o. Qed.

Lemma width_at o t aux l : o <> OpCopy -> width_of (Value o t aux l) = match op_width o with Some w => w | None => type_width t end.
Proof. by destruct o. Qed.

Lemma eval_range_fuel : forall k v, (height v < k)%nat -> wt v = true -> 0 <= eval other v < 2 ^ width_of v.
Proof.
  induction k as [|k IH]; intros [o t aux l] Hk Hv; [lia|]. destruct (decide (o = OpCopy)) as [->|Ho].
  - pose proof Hv as (_ & Hl & Hs)%wt_value. destruct l as [|a [|]]; [done| |done]. cbn in Hl. rewrite andb_true_r in Hl.
    change (0 <= eval other a < 2 ^ width_of a). apply IH; [|done].
    pose proof (height_arg OpCopy t aux [a] a ltac:(by left)). lia.
  - rewrite width_at by done. destruct (op_width o) as [w|] eqn:E; [by apply compute_range|].
    rewrite opaque_eval by done. apply other_range.
Qed.

Theorem eval_range v : wt v = true -> 0 <= eval other v < 2 ^ width_of v.
Proof. apply (eval_range_fuel (S (height v))). lia. Qed.

Lemma wrap_eval v n : wt v = true -> width_of v = n -> wrap n (eval other v) = eval other v.
Proof. intros Hv <-. by apply wrap_small, eval_range. Qed.

(** ** Numbers that are not negative *)

Definition nonneg (n x : Z) : Prop := 0 <= sgn n x.

Lemma nonneg_iff n x : 0 < n -> nonneg n x <-> wrap n x < 2 ^ (n - 1).
Proof.
  intros Hn. unfold nonneg. pose proof (sgn_bounds n Hn x). pose proof (pow_half n Hn).
  destruct (sgn_cases n Hn x); lia.
Qed.

Lemma nonneg_small n x : 0 < n -> 0 <= x < 2 ^ (n - 1) -> nonneg n x.
Proof. intros Hn Hx. apply nonneg_iff; [done|]. pose proof (pow_half n Hn). rewrite wrap_small; lia. Qed.

Lemma nonneg_wrap n x : nonneg n x -> nonneg n (wrap n x).
Proof. unfold nonneg. by rewrite sgn_wrap. Qed.

Lemma nonneg_zext n m x : 0 < n < m -> nonneg m (wrap n x).
Proof. intros Hn. apply nonneg_small; [lia|]. pose proof (wrap_bounds n ltac:(lia) x). pose proof (Z.pow_le_mono_r 2 n (m - 1)). lia. Qed.

Lemma nonneg_rshu n x k : 1 < n <= 64 -> 0 < k < 2 ^ 63 -> nonneg n (rshu n 64 x k).
Proof.
  intros Hn Hk. unfold rshu. rewrite wrap_small by lia. pose proof (half_pos n ltac:(lia)).
  destruct (k <? n) eqn:E; [|by apply nonneg_small; lia]. apply nonneg_small; [lia|]. rewrite Z.shiftr_div_pow2 by lia.
  pose proof (wrap_bounds n ltac:(lia) x). pose proof (pow_half n ltac:(lia)). pose proof (Z.pow_le_mono_r 2 1 k ltac:(lia)).
  pose proof (pow_pos k ltac:(lia)). split; [apply Z.div_pos; lia|]. apply Z.div_lt_upper_bound; nia.
Qed.

Lemma nonneg_rshs n m x k : 0 < n -> 0 < m -> nonneg n x -> nonneg n (rshs n m x k).
Proof.
  intros Hn Hm Hx. apply nonneg_wrap, nonneg_small; [done|]. pose proof (wrap_bounds m Hm k). pose proof (sgn_bounds n Hn x).
  unfold nonneg in Hx. rewrite Z.shiftr_div_pow2 by lia. pose proof (pow_pos (wrap m k) ltac:(lia)).
  split; [apply Z.div_pos; lia|]. apply Z.div_lt_upper_bound; nia.
Qed.

Lemma nonneg_sext n m x : 0 < n < m -> nonneg n x -> nonneg m (sext n m x).
Proof.
  intros Hn Hx. apply nonneg_wrap, nonneg_small; [lia|]. pose proof (sgn_bounds n ltac:(lia) x).
  pose proof (Z.pow_le_mono_r 2 (n - 1) (m - 1)). unfold nonneg in Hx. lia.
Qed.

(** The top bit is clear. *)
Lemma nonneg_clear n x : 1 < n -> nonneg n x -> wrap n x = wrap (n - 1) x.
Proof.
  intros Hn Hx. rewrite nonneg_iff in Hx by lia. rewrite <- (wrap_small (n - 1) (wrap n x)).
  - apply wrap_narrow; lia.
  - pose proof (wrap_bounds n ltac:(lia) x). lia.
Qed.

Lemma nonneg_and n x y : 1 < n -> nonneg n x \/ nonneg n y -> nonneg n (and_ n x y).
Proof.
  intros Hn. assert (Hl : forall a b, nonneg n a -> nonneg n (and_ n a b)).
  - intros a b Ha. unfold and_. apply nonneg_small; [lia|]. rewrite (nonneg_clear n a) by done.
    pose proof (wrap_bounds (n - 1) ltac:(lia) a). rewrite <- (land_wrap _ (wrap n b) (n - 1)) by lia.
    apply (land_range (n - 1) a (wrap n b)). lia.
  - intros [Hx|Hy]; [by apply Hl|]. unfold and_. rewrite Z.land_comm. by apply Hl.
Qed.

Lemma nonneg_or n x y : 1 < n -> nonneg n x -> nonneg n y -> nonneg n (or_ n x y).
Proof.
  intros Hn Hx Hy. apply nonneg_small; [lia|]. unfold or_. rewrite (nonneg_clear n x), (nonneg_clear n y) by done. by apply lor_range; lia.
Qed.
Lemma nonneg_xor n x y : 1 < n -> nonneg n x -> nonneg n y -> nonneg n (xor_ n x y).
Proof.
  intros Hn Hx Hy. apply nonneg_small; [lia|]. unfold xor_. rewrite (nonneg_clear n x), (nonneg_clear n y) by done. by apply lxor_range; lia.
Qed.

Lemma nonneg_divs n x y : 0 < n -> nonneg n x -> nonneg n y -> nonneg n (divs n x y).
Proof.
  unfold nonneg at 1 2. intros Hn Hx Hy. apply nonneg_wrap, nonneg_small; [done|]. pose proof (sgn_bounds n Hn x).
  destruct (Z.eq_dec (sgn n y) 0) as [->|]; [replace (Z.quot (sgn n x) 0) with 0 by (by destruct (sgn n x)); lia|].
  pose proof (Z.quot_pos (sgn n x) (sgn n y)). pose proof (Z.quot_le_upper_bound (sgn n x) (sgn n y) (sgn n x)). nia.
Qed.
Lemma nonneg_mods n x y : 0 < n -> nonneg n x -> nonneg n y -> nonneg n (mods n x y).
Proof.
  unfold nonneg at 1 2. intros Hn Hx Hy. apply nonneg_wrap, nonneg_small; [done|]. pose proof (sgn_bounds n Hn x).
  destruct (Z.eq_dec (sgn n y) 0) as [->|]; [replace (Z.rem (sgn n x) 0) with (sgn n x) by (by destruct (sgn n x)); lia|].
  rewrite Z.rem_mod_nonneg by lia. pose proof (Z.mod_pos_bound (sgn n x) (sgn n y)). pose proof (Z.mod_le (sgn n x) (sgn n y)). lia.
Qed.

(** ** [isNonNegative] *)

Definition sound (v : value) (r : res string bool) : Prop :=
  exists b, r = Ok b /\ (b = true -> nonneg (width_of v) (eval other v)).

Lemma sound_false v : sound v (Ok false).
Proof. by exists false. Qed.

Lemma sound_true v : nonneg (width_of v) (eval other v) -> sound v (Ok true).
Proof. by exists true. Qed.

Lemma sound_same v w r : sound w r ->
  (nonneg (width_of w) (eval other w) -> nonneg (width_of v) (eval other v)) -> sound v r.
Proof. intros (b & -> & Hb) Hw. exists b. split; [done|]. intros ->. by apply Hw, Hb. Qed.

Lemma sound_or v x y a b : sound x a -> sound y b ->
  (nonneg (width_of x) (eval other x) -> nonneg (width_of v) (eval other v)) ->
  (nonneg (width_of y) (eval other y) -> nonneg (width_of v) (eval other v)) -> sound v (res_or a b).
Proof.
  intros (ba & -> & Ha) (bb & -> & Hb) Hx Hy. destruct ba; [exists true; auto|]. exists bb. auto.
Qed.

Lemma sound_and v x y a b : sound x a -> sound y b ->
  (nonneg (width_of x) (eval other x) -> nonneg (width_of y) (eval other y) -> nonneg (width_of v) (eval other v)) ->
  sound v (res_and a b).
Proof.
  intros (ba & -> & Ha) (bb & -> & Hb) Hxy. destruct ba; [|by exists false]. exists bb. auto.
Qed.

Lemma const_sound n o t aux l i : op_width o = Some n -> (forall x, compute o aux (map (eval other) l) x = wrap n aux) ->
  o <> OpCopy -> sgn n aux = i -> sound (Value o t aux l) (Ok (0 <=? i)).
Proof.
  intros En Ec Ho Hi. exists (0 <=? i). split; [done|]. intros Hb. rewrite width_at, En, eval_at, Ec by done.
  apply nonneg_wrap. unfold nonneg. lia.
Qed.

Lemma count_sound o t aux l : is_count o = true -> sound (Value o t aux l) (Ok true).
Proof.
  intros Ho. apply sound_true. rewrite width_at, opaque_eval by (by destruct o).
  pose proof (count_range (Value o t aux l) Ho). pose proof (other_range (Value o t aux l)).
  replace (match op_width o with Some w => w | None => type_width t end) with (type_width t) by (by destruct o).
  apply nonneg_small; [by apply type_width_pos|]. cbn [typ] in *. lia.
Qed.

Lemma zext_sound n m o t aux l : op_width o = Some m -> o <> OpCopy -> 0 < n < m ->
  (forall x, compute o aux (map (eval other) l) x = wrap n (nth 0 (map (eval other) l) 0)) -> sound (Value o t aux l) (Ok true).
Proof. intros Em Ho Hn Ec. apply sound_true. rewrite width_at, Em, eval_at, Ec by done. by apply nonneg_zext. Qed.

Lemma const64_eval y : wt y = true -> op y = OpConst64 -> 0 <= AuxInt y -> eval other y = AuxInt y.
Proof.
  destruct y as [o t aux l]. intros (Ha & _)%wt_value Ho H0. cbn in Ho, H0. subst o. cbn [AuxInt].
  rewrite eval_at. cbn [compute]. apply in_int64_range in Ha. apply wrap_small. lia.
Qed.

Context (k : nat) (IH : forall v, (height v < k)%nat -> wt v = true -> IsInteger (typ v) = true -> sound v (isNonNegative_fuel k v)).

Lemma unary_sound o t aux l n m : (height (Value o t aux l) <= k)%nat -> wt (Value o t aux l) = true -> o <> OpCopy ->
  op_width o = Some n -> operand_widths o = [Some m] ->
  (forall x z, nonneg m x -> nonneg n (compute o aux [x] z)) ->
  sound (Value o t aux l) (isNonNegative_fuel k (arg (Value o t aux l) 0)).
Proof.
  intros Hk Hv Ho En Ew Hc. destruct (unary_operand o t aux l n _ Hv En Ew) as (x & -> & [Hx Hi Hwx]).
  pose proof (height_arg o t aux [x] x ltac:(by left)). apply (sound_same _ x); [apply IH; [cbn [arg Args nth]; lia|done..]|].
  rewrite Hwx, width_at, En, eval_at by done. apply Hc.
Qed.

Section Binary.
Context (o : Op) (t : type) (aux : Z) (l : list value) (n w : Z).
Context (Hk : (height (Value o t aux l) <= k)%nat) (Hv : wt (Value o t aux l) = true) (Ho : o <> OpCopy).
Context (En : op_width o = Some n) (Ew : operand_widths o = [Some n; Some w]).

Lemma binary_heights x y : l = [x; y] -> (height x < k)%nat /\ (height y < k)%nat.
Proof.
  intros ->. pose proof (height_arg o t aux [x; y] x ltac:(by left)). pose proof (height_arg o t aux [x; y] y ltac:(by right; left)). lia.
Qed.

Lemma left_sound : (forall x y z, nonneg n x -> nonneg n (compute o aux [x; y] z)) ->
  sound (Value o t aux l) (isNonNegative_fuel k (arg (Value o t aux l) 0)).
Proof.
  intros Hc. destruct (binary_operands o t aux l n _ _ Hv En Ew) as (x & y & E & [Hx Hi Hwx] & _).
  destruct (binary_heights _ _ E) as [Hhx _]. clear Hk. subst l. apply (sound_same _ x); [by apply IH|].
  rewrite Hwx, width_at, En, eval_at by done. apply Hc.
Qed.

Lemma either_sound : w = n -> (forall x y z, nonneg n x \/ nonneg n y -> nonneg n (compute o aux [x; y] z)) ->
  sound (Value o t aux l) (res_or (isNonNegative_fuel k (arg (Value o t aux l) 0)) (isNonNegative_fuel k (arg (Value o t aux l) 1))).
Proof.
  intros -> Hc. destruct (binary_operands o t aux l n _ _ Hv En Ew) as (x & y & E & [Hx Hi Hwx] & [Hy Hj Hwy]).
  destruct (binary_heights _ _ E) as [Hhx Hhy]. clear Hk. subst l. apply (sound_or _ x y); [by apply IH..| |];
    rewrite ?Hwx, ?Hwy, width_at, En, eval_at by done; intros ?; apply Hc; auto.
Qed.

Lemma both_sound : w = n -> (forall x y z, nonneg n x -> nonneg n y -> nonneg n (compute o aux [x; y] z)) ->
  sound (Value o t aux l) (res_and (isNonNegative_fuel k (arg (Value o t aux l) 0)) (isNonNegative_fuel k (arg (Value o t aux l) 1))).
Proof.
  intros -> Hc. destruct (binary_operands o t aux l n _ _ Hv En Ew) as (x & y & E & [Hx Hi Hwx] & [Hy Hj Hwy]).
  destruct (binary_heights _ _ E) as [Hhx Hhy]. clear Hk. subst l. apply (sound_and _ x y); [by apply IH..|].
  rewrite Hwx, Hwy, width_at, En, eval_at by done. apply Hc.
Qed.

Lemma shift_sound : 1 < n <= 64 -> w = 64 -> (forall x y z, compute o aux [x; y] z = rshu n 64 x y) ->
  sound (Value o t aux l) (let by_ := arg (Value o t aux l) 1 in Ok (op_is (op by_) OpConst64 && (0 <? AuxInt by_))).
Proof.
  intros Hn -> Hc. destruct (binary_operands o t aux l n _ _ Hv En Ew) as (x & y & E & _ & [Hy Hj Hwy]).
  subst l. cbv zeta. cbn [arg Args nth]. eexists. split; [done|]. intros [Hop%bool_decide_eq_true Hpos]%andb_true_iff.
  rewrite width_at, En, eval_at by done. cbn [map]. rewrite Hc.
  rewrite (const64_eval y) by (done || lia). apply nonneg_rshu; [done|].
  destruct y as [? ? ay ?]. apply wt_value in Hy as (Ha & _). apply in_int64_range in Ha. cbn in *. lia.
Qed.
End Binary.

Lemma isNonNegative_step v : (height v <= k)%nat -> wt v = true -> sound v (isNonNegative_at (isNonNegative_fuel k) v).
Proof.
  destruct v as [o t aux l]. intros Hk Hv. destruct o; try apply sound_false; try (by apply count_sound).
  all: try (eapply unary_sound; [done|done|done|reflexivity|reflexivity|]; intros x z Hx; apply nonneg_sext; [lia|done]).
  all: try (eapply zext_sound; cycle 3; [by intros|reflexivity|done|lia]).
  all: try (eapply shift_sound; [done|done|done|reflexivity|reflexivity|lia|done|done]).
  all: try (eapply left_sound; [done|done|done|reflexivity|reflexivity|]; intros x y z Hx; apply nonneg_rshs; [lia|lia|done]).
  all: try (eapply either_sound; [done|done|done|reflexivity|reflexivity|reflexivity|]; intros x y z Hxy; apply nonneg_and; [lia|done]).
  all: try (eapply both_sound; [done|done|done|reflexivity|reflexivity|reflexivity|]; intros x y z Hx Hy; cbn [compute nth];
    auto using nonneg_or, nonneg_xor, nonneg_divs, nonneg_mods with ranges).
  all: eapply const_sound; [reflexivity|done|done|]; try done.
  apply wt_value in Hv as (Ha & _). apply in_int64_range in Ha. apply sgn_small; [lia|exact Ha].
Qed.
End Values.

Section Sound.
Context (other : value -> Z) `{!Others other}.

Lemma isNonNegative_fuel_sound : forall k v, (height v < k)%nat -> wt v = true -> IsInteger (typ v) = true ->
  sound other v (isNonNegative_fuel k v).
Proof.
  induction k as [|k IH]; intros v Hk Hv Hi; [lia|]. cbn [isNonNegative_fuel]. rewrite Hi. cbn [negb].
  by apply isNonNegative_step; [done|done|lia|].
Qed.

(** C18: on every well-typed integer value [isNonNegative] ends without a panic,
    and where it answers yes the number that the value computes, read as a
    signed number of the value's width, is not negative. *)
Theorem isNonNegative_sound v : wt v = true -> IsInteger (typ v) = true ->
  exists b, isNonNegative v = Ok b /\ (b = true -> 0 <= sgn (width_of v) (eval other v)).
Proof. intros Hv Hi. apply (isNonNegative_fuel_sound (S (height v))); [lia|done|done]. Qed.
End Sound.

Lemma isNonNegative_sound_witness :
  let v := Value OpAnd32 Int32 0 [Value (OpOther 1) Int32 0 []; Value OpZeroExt8to32 Int32 0 [Value (OpOther 2) UInt8 0 []]] in
  wt v = true /\ IsInteger (typ v) = true /\
  exists b, isNonNegative v = Ok b /\ (b = true -> 0 <= sgn (width_of v) (eval (fun _ => 0) v)).
Proof.
  split; [reflexivity|]. split; [reflexivity|]. apply (isNonNegative_sound (fun _ => 0)); reflexivity.
Defined.

