(* ===== verification/Divisions.v ===== *)
(** * src/src/cmd/compile/internal/ssa/rewritegeneric.go: divisions and remainders

    The rewrite rules of the integer divisions and remainders, function by
    function as the rule compiler made them: every round of a [for] loop of the
    code is a rule, in its order. *)

From S2P Require Import Prelude Bits Magic Ssa.

#[local] Open Scope Z_scope.
#[local] Open Scope rule_scope.

(** The fields of [Config] that the rules read. *)
Record Config := MkConfig { RegSize : Z; useAvg : bool; useHmul : bool }.

Section Rules.
Context (cfg : Config).

Definition rewriteValuegeneric_OpDiv8 (v : value) : rule :=
  let v_1 := arg v 1 in
  let v_0 := arg v 0 in
  (* (Div8 (Const8 [c]) (Const8 [d])) *)
  (need op_is (op v_0) OpConst8;;
   let c := auxIntToInt8 (AuxInt v_0) in
   need op_is (op v_1) OpConst8;;
   let d := auxIntToInt8 (AuxInt v_1) in
   need negb (d =? 0);;
   Ok (Some (Value OpConst8 (typ v) (int8ToAuxInt (s8 (Z.quot c d))) []))) otherwise
  (* (Div8 n (Const8 [c])) *)
  (let n := v_0 in
   need op_is (op v_1) OpConst8;;
   let c := auxIntToInt8 (AuxInt v_1) in
   needs isNonNegative n;;
   need isPowerOfTwo c;;
   let v0 := Value OpConst64 UInt64 (int64ToAuxInt (log8 c)) [] in
   Ok (Some (Value OpRsh8Ux64 (typ v) 0 [n; v0]))) otherwise
  (* (Div8 <t> n (Const8 [c])) *)
  (let t := typ v in
   let n := v_0 in
   need op_is (op v_1) OpConst8;;
   let c := auxIntToInt8 (AuxInt v_1) in
   need c <? 0;;
   need negb (c =? (- 2 ^ 7));;
   let v1 := Value OpConst8 t (int8ToAuxInt (s8 (- c))) [] in
   let v0 := Value OpDiv8 t 0 [n; v1] in
   Ok (Some (Value OpNeg8 (typ v) 0 [v0]))) otherwise
  (* (Div8 <t> x (Const8 [-1<<7 ])) *)
  (let t := typ v in
   let x := v_0 in
   need op_is (op v_1) OpConst8;;
   need auxIntToInt8 (AuxInt v_1) =? (- 2 ^ 7);;
   let v1 := Value OpNeg8 t 0 [x] in
   let v0 := Value OpAnd8 t 0 [x; v1] in
   let v2 := Value OpConst64 UInt64 (int64ToAuxInt 7) [] in
   Ok (Some (Value OpRsh8Ux64 (typ v) 0 [v0; v2]))) otherwise
  (* (Div8 <t> n (Const8 [c])) *)
  (let t := typ v in
   let n := v_0 in
   need op_is (op v_1) OpConst8;;
   let c := auxIntToInt8 (AuxInt v_1) in
   need isPowerOfTwo c;;
   let v3 := Value OpConst64 UInt64 (int64ToAuxInt 7) [] in
   let v2 := Value OpRsh8x64 t 0 [n; v3] in
   let v4 := Value OpConst64 UInt64 (int64ToAuxInt (s64 (s64 (8 - log8 c)))) [] in
   let v1 := Value OpRsh8Ux64 t 0 [v2; v4] in
   let v0 := Value OpAdd8 t 0 [n; v1] in
   let v5 := Value OpConst64 UInt64 (int64ToAuxInt (s64 (log8 c))) [] in
   Ok (Some (Value OpRsh8x64 (typ v) 0 [v0; v5]))) otherwise
  (* (Div8 <t> x (Const8 [c])) *)
  (let t := typ v in
   let x := v_0 in
   need op_is (op v_1) OpConst8;;
   let c := auxIntToInt8 (AuxInt v_1) in
   need smagicOK8 c;;
   let+ d := smagic8 c in
   let v2 := Value OpConst32 UInt32 (int32ToAuxInt (s32 (sm_m d))) [] in
   let v3 := Value OpSignExt8to32 Int32 0 [x] in
   let v1 := Value OpMul32 UInt32 0 [v2; v3] in
   let v4 := Value OpConst64 UInt64 (int64ToAuxInt (s64 (8 + sm_s d))) [] in
   let v0 := Value OpRsh32x64 t 0 [v1; v4] in
   let v6 := Value OpConst64 UInt64 (int64ToAuxInt 31) [] in
   let v5 := Value OpRsh32x64 t 0 [v3; v6] in
   Ok (Some (Value OpSub8 t 0 [v0; v5]))) otherwise
  Ok None.

Definition rewriteValuegeneric_OpDiv8u (v : value) : rule :=
  let v_1 := arg v 1 in
  let v_0 := arg v 0 in
  (* (Div8u (Const8 [c]) (Const8 [d])) *)
  (need op_is (op v_0) OpConst8;;
   let c := auxIntToInt8 (AuxInt v_0) in
   need op_is (op v_1) OpConst8;;
   let d := auxIntToInt8 (AuxInt v_1) in
   need negb (d =? 0);;
   Ok (Some (Value OpConst8 (typ v) (int8ToAuxInt (s8 (u8 c / u8 d))) []))) otherwise
  (* (Div8u n (Const8 [c])) *)
  (let n := v_0 in
   need op_is (op v_1) OpConst8;;
   let c := auxIntToInt8 (AuxInt v_1) in
   need isPowerOfTwo c;;
   let v0 := Value OpConst64 UInt64 (int64ToAuxInt (log8 c)) [] in
   Ok (Some (Value OpRsh8Ux64 (typ v) 0 [n; v0]))) otherwise
  (* (Div8u x (Const8 [c])) *)
  (let x := v_0 in
   need op_is (op v_1) OpConst8;;
   let c := auxIntToInt8 (AuxInt v_1) in
   need umagicOK8 c;;
   let+ d := umagic8 c in
   let v2 := Value OpConst32 UInt32 (int32ToAuxInt (s32 (u64 ((2 ^ 8) + um_m d)))) [] in
   let v3 := Value OpZeroExt8to32 UInt32 0 [x] in
   let v1 := Value OpMul32 UInt32 0 [v2; v3] in
   let v4 := Value OpConst64 UInt64 (int64ToAuxInt (s64 (8 + um_s d))) [] in
   let v0 := Value OpRsh32Ux64 UInt32 0 [v1; v4] in
   Ok (Some (Value OpTrunc32to8 (typ v) 0 [v0]))) otherwise
  Ok None.

Definition rewriteValuegeneric_OpDiv16 (v : value) : rule :=
  let v_1 := arg v 1 in
  let v_0 := arg v 0 in
  (* (Div16 (Const16 [c]) (Const16 [d])) *)
  (need op_is (op v_0) OpConst16;;
   let c := auxIntToInt16 (AuxInt v_0) in
   need op_is (op v_1) OpConst16;;
   let d := auxIntToInt16 (AuxInt v_1) in
   need negb (d =? 0);;
   Ok (Some (Value OpConst16 (typ v) (int16ToAuxInt (s16 (Z.quot c d))) []))) otherwise
  (* (Div16 n (Const16 [c])) *)
  (let n := v_0 in
   need op_is (op v_1) OpConst16;;
   let c := auxIntToInt16 (AuxInt v_1) in
   needs isNonNegative n;;
   need isPowerOfTwo c;;
   let v0 := Value OpConst64 UInt64 (int64ToAuxInt (log16 c)) [] in
   Ok (Some (Value OpRsh16Ux64 (typ v) 0 [n; v0]))) otherwise
  (* (Div16 <t> n (Const16 [c])) *)
  (let t := typ v in
   let n := v_0 in
   need op_is (op v_1) OpConst16;;
   let c := auxIntToInt16 (AuxInt v_1) in
   need c <? 0;;
   need negb (c =? (- 2 ^ 15));;
   let v1 := Value OpConst16 t (int16ToAuxInt (s16 (- c))) [] in
   let v0 := Value OpDiv16 t 0 [n; v1] in
   Ok (Some (Value OpNeg16 (typ v) 0 [v0]))) otherwise
  (* (Div16 <t> x (Const16 [-1<<15])) *)
  (let t := typ v in
   let x := v_0 in
   need op_is (op v_1) OpConst16;;
   need auxIntToInt16 (AuxInt v_1) =? (- 2 ^ 15);;
   let v1 := Value OpNeg16 t 0 [x] in
   let v0 := Value OpAnd16 t 0 [x; v1] in
   let v2 := Value OpConst64 UInt64 (int64ToAuxInt 15) [] in
   Ok (Some (Value OpRsh16Ux64 (typ v) 0 [v0; v2]))) otherwise
  (* (Div16 <t> n (Const16 [c])) *)
  (let t := typ v in
   let n := v_0 in
   need op_is (op v_1) OpConst16;;
   let c := auxIntToInt16 (AuxInt v_1) in
   need isPowerOfTwo c;;
   let v3 := Value OpConst64 UInt64 (int64ToAuxInt 15) [] in
   let v2 := Value OpRsh16x64 t 0 [n; v3] in
   let v4 := Value OpConst64 UInt64 (int64ToAuxInt (s64 (s64 (16 - log16 c)))) [] in
   let v1 := Value OpRsh16Ux64 t 0 [v2; v4] in
   let v0 := Value OpAdd16 t 0 [n; v1] in
   let v5 := Value OpConst64 UInt64 (int64ToAuxInt (s64 (log16 c))) [] in
   Ok (Some (Value OpRsh16x64 (typ v) 0 [v0; v5]))) otherwise
  (* (Div16 <t> x (Const16 [c])) *)
  (let t := typ v in
   let x := v_0 in
   need op_is (op v_1) OpConst16;;
   let c := auxIntToInt16 (AuxInt v_1) in
   need smagicOK16 c;;
   let+ d := smagic16 c in
   let v2 := Value OpConst32 UInt32 (int32ToAuxInt (s32 (sm_m d))) [] in
   let v3 := Value OpSignExt16to32 Int32 0 [x] in
   let v1 := Value OpMul32 UInt32 0 [v2; v3] in
   let v4 := Value OpConst64 UInt64 (int64ToAuxInt (s64 (16 + sm_s d))) [] in
   let v0 := Value OpRsh32x64 t 0 [v1; v4] in
   let v6 := Value OpConst64 UInt64 (int64ToAuxInt 31) [] in
   let v5 := Value OpRsh32x64 t 0 [v3; v6] in
   Ok (Some (Value OpSub16 t 0 [v0; v5]))) otherwise
  Ok None.

Definition rewriteValuegeneric_OpDiv16u (v : value) : rule :=
  let v_1 := arg v 1 in
  let v_0 := arg v 0 in
  (* (Div16u (Const16 [c]) (Const16 [d])) *)
  (need op_is (op v_0) OpConst16;;
   let c := auxIntToInt16 (AuxInt v_0) in
   need op_is (op v_1) OpConst16;;
   let d := auxIntToInt16 (AuxInt v_1) in
   need negb (d =? 0);;
   Ok (Some (Value OpConst16 (typ v) (int16ToAuxInt (s16 (u16 c / u16 d))) []))) otherwise
  (* (Div16u n (Const16 [c])) *)
  (let n := v_0 in
   need op_is (op v_1) OpConst16;;
   let c := auxIntToInt16 (AuxInt v_1) in
   need isPowerOfTwo c;;
   let v0 := Value OpConst64 UInt64 (int64ToAuxInt (log16 c)) [] in
   Ok (Some (Value OpRsh16Ux64 (typ v) 0 [n; v0]))) otherwise
  (* (Div16u x (Const16 [c])) *)
  (let x := v_0 in
   need op_is (op v_1) OpConst16;;
   let c := auxIntToInt16 (AuxInt v_1) in
   need umagicOK16 c;;
   need RegSize cfg =? 8;;
   let+ d := umagic16 c in
   let v2 := Value OpConst64 UInt64 (int64ToAuxInt (s64 (u64 ((2 ^ 16) + um_m d)))) [] in
   let v3 := Value OpZeroExt16to64 UInt64 0 [x] in
   let v1 := Value OpMul64 UInt64 0 [v2; v3] in
   let v4 := Value OpConst64 UInt64 (int64ToAuxInt (s64 (16 + um_s d))) [] in
   let v0 := Value OpRsh64Ux64 UInt64 0 [v1; v4] in
   Ok (Some (Value OpTrunc64to16 (typ v) 0 [v0]))) otherwise
  (* (Div16u x (Const16 [c])) *)
  (let x := v_0 in
   need op_is (op v_1) OpConst16;;
   let c := auxIntToInt16 (AuxInt v_1) in
   need umagicOK16 c;;
   need RegSize cfg =? 4;;
   with_ (umagic16 c) (fun d =>
   need (Z.land (um_m d) 1) =? 0;;
   let v2 := Value OpConst32 UInt32 (int32ToAuxInt (s32 (u64 ((2 ^ 15) + (um_m d / 2))))) [] in
   let v3 := Value OpZeroExt16to32 UInt32 0 [x] in
   let v1 := Value OpMul32 UInt32 0 [v2; v3] in
   let v4 := Value OpConst64 UInt64 (int64ToAuxInt (s64 ((s64 (16 + um_s d)) - 1))) [] in
   let v0 := Value OpRsh32Ux64 UInt32 0 [v1; v4] in
   Ok (Some (Value OpTrunc32to16 (typ v) 0 [v0])))) otherwise
  (* (Div16u x (Const16 [c])) *)
  (let x := v_0 in
   need op_is (op v_1) OpConst16;;
   let c := auxIntToInt16 (AuxInt v_1) in
   need umagicOK16 c;;
   need RegSize cfg =? 4;;
   need (Z.land c 1) =? 0;;
   let+ d := umagic16 c in
   let v2 := Value OpConst32 UInt32 (int32ToAuxInt (s32 (u64 ((2 ^ 15) + ((u64 (um_m d + 1)) / 2))))) [] in
   let v4 := Value OpZeroExt16to32 UInt32 0 [x] in
   let v5 := Value OpConst64 UInt64 (int64ToAuxInt 1) [] in
   let v3 := Value OpRsh32Ux64 UInt32 0 [v4; v5] in
   let v1 := Value OpMul32 UInt32 0 [v2; v3] in
   let v6 := Value OpConst64 UInt64 (int64ToAuxInt (s64 ((s64 (16 + um_s d)) - 2))) [] in
   let v0 := Value OpRsh32Ux64 UInt32 0 [v1; v6] in
   Ok (Some (Value OpTrunc32to16 (typ v) 0 [v0]))) otherwise
  (* (Div16u x (Const16 [c])) *)
  (let x := v_0 in
   need op_is (op v_1) OpConst16;;
   let c := auxIntToInt16 (AuxInt v_1) in
   need umagicOK16 c;;
   need RegSize cfg =? 4;;
   need useAvg cfg;;
   let+ d := umagic16 c in
   let v3 := Value OpZeroExt16to32 UInt32 0 [x] in
   let v4 := Value OpConst64 UInt64 (int64ToAuxInt 16) [] in
   let v2 := Value OpLsh32x64 UInt32 0 [v3; v4] in
   let v6 := Value OpConst32 UInt32 (int32ToAuxInt (s32 (um_m d))) [] in
   let v5 := Value OpMul32 UInt32 0 [v6; v3] in
   let v1 := Value OpAvg32u UInt32 0 [v2; v5] in
   let v7 := Value OpConst64 UInt64 (int64ToAuxInt (s64 ((s64 (16 + um_s d)) - 1))) [] in
   let v0 := Value OpRsh32Ux64 UInt32 0 [v1; v7] in
   Ok (Some (Value OpTrunc32to16 (typ v) 0 [v0]))) otherwise
  Ok None.

Definition rewriteValuegeneric_OpDiv32 (v : value) : rule :=
  let v_1 := arg v 1 in
  let v_0 := arg v 0 in
  (* (Div32 (Const32 [c]) (Const32 [d])) *)
  (need op_is (op v_0) OpConst32;;
   let c := auxIntToInt32 (AuxInt v_0) in
   need op_is (op v_1) OpConst32;;
   let d := auxIntToInt32 (AuxInt v_1) in
   need negb (d =? 0);;
   Ok (Some (Value OpConst32 (typ v) (int32ToAuxInt (s32 (Z.quot c d))) []))) otherwise
  (* (Div32 n (Const32 [c])) *)
  (let n := v_0 in
   need op_is (op v_1) OpConst32;;
   let c := auxIntToInt32 (AuxInt v_1) in
   needs isNonNegative n;;
   need isPowerOfTwo c;;
   let v0 := Value OpConst64 UInt64 (int64ToAuxInt (log32 c)) [] in
   Ok (Some (Value OpRsh32Ux64 (typ v) 0 [n; v0]))) otherwise
  (* (Div32 <t> n (Const32 [c])) *)
  (let t := typ v in
   let n := v_0 in
   need op_is (op v_1) OpConst32;;
   let c := auxIntToInt32 (AuxInt v_1) in
   need c <? 0;;
   need negb (c =? (- 2 ^ 31));;
   let v1 := Value OpConst32 t (int32ToAuxInt (s32 (- c))) [] in
   let v0 := Value OpDiv32 t 0 [n; v1] in
   Ok (Some (Value OpNeg32 (typ v) 0 [v0]))) otherwise
  (* (Div32 <t> x (Const32 [-1<<31])) *)
  (let t := typ v in
   let x := v_0 in
   need op_is (op v_1) OpConst32;;
   need auxIntToInt32 (AuxInt v_1) =? (- 2 ^ 31);;
   let v1 := Value OpNeg32 t 0 [x] in
   let v0 := Value OpAnd32 t 0 [x; v1] in
   let v2 := Value OpConst64 UInt64 (int64ToAuxInt 31) [] in
   Ok (Some (Value OpRsh32Ux64 (typ v) 0 [v0; v2]))) otherwise
  (* (Div32 <t> n (Const32 [c])) *)
  (let t := typ v in
   let n := v_0 in
   need op_is (op v_1) OpConst32;;
   let c := auxIntToInt32 (AuxInt v_1) in
   need isPowerOfTwo c;;
   let v3 := Value OpConst64 UInt64 (int64ToAuxInt 31) [] in
   let v2 := Value OpRsh32x64 t 0 [n; v3] in
   let v4 := Value OpConst64 UInt64 (int64ToAuxInt (s64 (s64 (32 - log32 c)))) [] in
   let v1 := Value OpRsh32Ux64 t 0 [v2; v4] in
   let v0 := Value OpAdd32 t 0 [n; v1] in
   let v5 := Value OpConst64 UInt64 (int64ToAuxInt (s64 (log32 c))) [] in
   Ok (Some (Value OpRsh32x64 (typ v) 0 [v0; v5]))) otherwise
  (* (Div32 <t> x (Const32 [c])) *)
  (let t := typ v in
   let x := v_0 in
   need op_is (op v_1) OpConst32;;
   let c := auxIntToInt32 (AuxInt v_1) in
   need smagicOK32 c;;
   need RegSize cfg =? 8;;
   let+ d := smagic32 c in
   let v2 := Value OpConst64 UInt64 (int64ToAuxInt (s64 (sm_m d))) [] in
   let v3 := Value OpSignExt32to64 Int64 0 [x] in
   let v1 := Value OpMul64 UInt64 0 [v2; v3] in
   let v4 := Value OpConst64 UInt64 (int64ToAuxInt (s64 (32 + sm_s d))) [] in
   let v0 := Value OpRsh64x64 t 0 [v1; v4] in
   let v6 := Value OpConst64 UInt64 (int64ToAuxInt 63) [] in
   let v5 := Value OpRsh64x64 t 0 [v3; v6] in
   Ok (Some (Value OpSub32 t 0 [v0; v5]))) otherwise
  (* (Div32 <t> x (Const32 [c])) *)
  (let t := typ v in
   let x := v_0 in
   need op_is (op v_1) OpConst32;;
   let c := auxIntToInt32 (AuxInt v_1) in
   need smagicOK32 c;;
   need RegSize cfg =? 4;;
   with_ (smagic32 c) (fun d =>
   need (Z.land (sm_m d) 1) =? 0;;
   need useHmul cfg;;
   let v2 := Value OpConst32 UInt32 (int32ToAuxInt (s32 (sm_m d / 2))) [] in
   let v1 := Value OpHmul32 t 0 [v2; x] in
   let v3 := Value OpConst64 UInt64 (int64ToAuxInt (s64 (sm_s d - 1))) [] in
   let v0 := Value OpRsh32x64 t 0 [v1; v3] in
   let v5 := Value OpConst64 UInt64 (int64ToAuxInt 31) [] in
   let v4 := Value OpRsh32x64 t 0 [x; v5] in
   Ok (Some (Value OpSub32 t 0 [v0; v4])))) otherwise
  (* (Div32 <t> x (Const32 [c])) *)
  (let t := typ v in
   let x := v_0 in
   need op_is (op v_1) OpConst32;;
   let c := auxIntToInt32 (AuxInt v_1) in
   need smagicOK32 c;;
   need RegSize cfg =? 4;;
   with_ (smagic32 c) (fun d =>
   need negb ((Z.land (sm_m d) 1) =? 0);;
   need useHmul cfg;;
   let v3 := Value OpConst32 UInt32 (int32ToAuxInt (s32 (sm_m d))) [] in
   let v2 := Value OpHmul32 t 0 [v3; x] in
   let v1 := Value OpAdd32 t 0 [v2; x] in
   let v4 := Value OpConst64 UInt64 (int64ToAuxInt (sm_s d)) [] in
   let v0 := Value OpRsh32x64 t 0 [v1; v4] in
   let v6 := Value OpConst64 UInt64 (int64ToAuxInt 31) [] in
   let v5 := Value OpRsh32x64 t 0 [x; v6] in
   Ok (Some (Value OpSub32 t 0 [v0; v5])))) otherwise
  Ok None.

Definition rewriteValuegeneric_OpDiv32u (v : value) : rule :=
  let v_1 := arg v 1 in
  let v_0 := arg v 0 in
  (* (Div32u (Const32 [c]) (Const32 [d])) *)
  (need op_is (op v_0) OpConst32;;
   let c := auxIntToInt32 (AuxInt v_0) in
   need op_is (op v_1) OpConst32;;
   let d := auxIntToInt32 (AuxInt v_1) in
   need negb (d =? 0);;
   Ok (Some (Value OpConst32 (typ v) (int32ToAuxInt (s32 (u32 c / u32 d))) []))) otherwise
  (* (Div32u n (Const32 [c])) *)
  (let n := v_0 in
   need op_is (op v_1) OpConst32;;
   let c := auxIntToInt32 (AuxInt v_1) in
   need isPowerOfTwo c;;
   let v0 := Value OpConst64 UInt64 (int64ToAuxInt (log32 c)) [] in
   Ok (Some (Value OpRsh32Ux64 (typ v) 0 [n; v0]))) otherwise
  (* (Div32u x (Const32 [c])) *)
  (let x := v_0 in
   need op_is (op v_1) OpConst32;;
   let c := auxIntToInt32 (AuxInt v_1) in
   need umagicOK32 c;;
   need RegSize cfg =? 4;;
   with_ (umagic32 c) (fun d =>
   need (Z.land (um_m d) 1) =? 0;;
   need useHmul cfg;;
   let v1 := Value OpConst32 UInt32 (int32ToAuxInt (s32 (u64 ((2 ^ 31) + (um_m d / 2))))) [] in
   let v0 := Value OpHmul32u UInt32 0 [v1; x] in
   let v2 := Value OpConst64 UInt64 (int64ToAuxInt (s64 (um_s d - 1))) [] in
   Ok (Some (Value OpRsh32Ux64 UInt32 0 [v0; v2])))) otherwise
  (* (Div32u x (Const32 [c])) *)
  (let x := v_0 in
   need op_is (op v_1) OpConst32;;
   let c := auxIntToInt32 (AuxInt v_1) in
   need umagicOK32 c;;
   need RegSize cfg =? 4;;
   need (Z.land c 1) =? 0;;
   need useHmul cfg;;
   let+ d := umagic32 c in
   let v1 := Value OpConst32 UInt32 (int32ToAuxInt (s32 (u64 ((2 ^ 31) + ((u64 (um_m d + 1)) / 2))))) [] in
   let v3 := Value OpConst64 UInt64 (int64ToAuxInt 1) [] in
   let v2 := Value OpRsh32Ux64 UInt32 0 [x; v3] in
   let v0 := Value OpHmul32u UInt32 0 [v1; v2] in
   let v4 := Value OpConst64 UInt64 (int64ToAuxInt (s64 (um_s d - 2))) [] in
   Ok (Some (Value OpRsh32Ux64 UInt32 0 [v0; v4]))) otherwise
  (* (Div32u x (Const32 [c])) *)
  (let x := v_0 in
   need op_is (op v_1) OpConst32;;
   let c := auxIntToInt32 (AuxInt v_1) in
   need umagicOK32 c;;
   need RegSize cfg =? 4;;
   need useAvg cfg;;
   need useHmul cfg;;
   let+ d := umagic32 c in
   let v2 := Value OpConst32 UInt32 (int32ToAuxInt (s32 (um_m d))) [] in
   let v1 := Value OpHmul32u UInt32 0 [v2; x] in
   let v0 := Value OpAvg32u UInt32 0 [x; v1] in
   let v3 := Value OpConst64 UInt64 (int64ToAuxInt (s64 (um_s d - 1))) [] in
   Ok (Some (Value OpRsh32Ux64 UInt32 0 [v0; v3]))) otherwise
  (* (Div32u x (Const32 [c])) *)
  (let x := v_0 in
   need op_is (op v_1) OpConst32;;
   let c := auxIntToInt32 (AuxInt v_1) in
   need umagicOK32 c;;
   need RegSize cfg =? 8;;
   with_ (umagic32 c) (fun d =>
   need (Z.land (um_m d) 1) =? 0;;
   let v2 := Value OpConst64 UInt64 (int64ToAuxInt (s64 (u64 ((2 ^ 31) + (um_m d / 2))))) [] in
   let v3 := Value OpZeroExt32to64 UInt64 0 [x] in
   let v1 := Value OpMul64 UInt64 0 [v2; v3] in
   let v4 := Value OpConst64 UInt64 (int64ToAuxInt (s64 ((s64 (32 + um_s d)) - 1))) [] in
   let v0 := Value OpRsh64Ux64 UInt64 0 [v1; v4] in
   Ok (Some (Value OpTrunc64to32 (typ v) 0 [v0])))) otherwise
  (* (Div32u x (Const32 [c])) *)
  (let x := v_0 in
   need op_is (op v_1) OpConst32;;
   let c := auxIntToInt32 (AuxInt v_1) in
   need umagicOK32 c;;
   need RegSize cfg =? 8;;
   need (Z.land c 1) =? 0;;
   let+ d := umagic32 c in
   let v2 := Value OpConst64 UInt64 (int64ToAuxInt (s64 (u64 ((2 ^ 31) + ((u64 (um_m d + 1)) / 2))))) [] in
   let v4 := Value OpZeroExt32to64 UInt64 0 [x] in
   let v5 := Value OpConst64 UInt64 (int64ToAuxInt 1) [] in
   let v3 := Value OpRsh64Ux64 UInt64 0 [v4; v5] in
   let v1 := Value OpMul64 UInt64 0 [v2; v3] in
   let v6 := Value OpConst64 UInt64 (int64ToAuxInt (s64 ((s64 (32 + um_s d)) - 2))) [] in
   let v0 := Value OpRsh64Ux64 UInt64 0 [v1; v6] in
   Ok (Some (Value OpTrunc64to32 (typ v) 0 [v0]))) otherwise
  (* (Div32u x (Const32 [c])) *)
  (let x := v_0 in
   need op_is (op v_1) OpConst32;;
   let c := auxIntToInt32 (AuxInt v_1) in
   need umagicOK32 c;;
   need RegSize cfg =? 8;;
   need useAvg cfg;;
   let+ d := umagic32 c in
   let v3 := Value OpZeroExt32to64 UInt64 0 [x] in
   let v4 := Value OpConst64 UInt64 (int64ToAuxInt 32) [] in
   let v2 := Value OpLsh64x64 UInt64 0 [v3; v4] in
   let v6 := Value OpConst64 UInt32 (int64ToAuxInt (s64 (um_m d))) [] in
   let v5 := Value OpMul64 UInt64 0 [v6; v3] in
   let v1 := Value OpAvg64u UInt64 0 [v2; v5] in
   let v7 := Value OpConst64 UInt64 (int64ToAuxInt (s64 ((s64 (32 + um_s d)) - 1))) [] in
   let v0 := Value OpRsh64Ux64 UInt64 0 [v1; v7] in
   Ok (Some (Value OpTrunc64to32 (typ v) 0 [v0]))) otherwise
  Ok None.

Definition rewriteValuegeneric_OpDiv64 (v : value) : rule :=
  let v_1 := arg v 1 in
  let v_0 := arg v 0 in
  (* (Div64 (Const64 [c]) (Const64 [d])) *)
  (need op_is (op v_0) OpConst64;;
   let c := auxIntToInt64 (AuxInt v_0) in
   need op_is (op v_1) OpConst64;;
   let d := auxIntToInt64 (AuxInt v_1) in
   need negb (d =? 0);;
   Ok (Some (Value OpConst64 (typ v) (int64ToAuxInt (s64 (Z.quot c d))) []))) otherwise
  (* (Div64 n (Const64 [c])) *)
  (let n := v_0 in
   need op_is (op v_1) OpConst64;;
   let c := auxIntToInt64 (AuxInt v_1) in
   needs isNonNegative n;;
   need isPowerOfTwo c;;
   let v0 := Value OpConst64 UInt64 (int64ToAuxInt (log64 c)) [] in
   Ok (Some (Value OpRsh64Ux64 (typ v) 0 [n; v0]))) otherwise
  (* (Div64 n (Const64 [-1<<63])) *)
  (let n := v_0 in
   need op_is (op v_1) OpConst64;;
   need auxIntToInt64 (AuxInt v_1) =? (- 2 ^ 63);;
   needs isNonNegative n;;
   Ok (Some (Value OpConst64 (typ v) (int64ToAuxInt 0) []))) otherwise
  (* (Div64 <t> n (Const64 [c])) *)
  (let t := typ v in
   let n := v_0 in
   need op_is (op v_1) OpConst64;;
   let c := auxIntToInt64 (AuxInt v_1) in
   need c <? 0;;
   need negb (c =? (- 2 ^ 63));;
   let v1 := Value OpConst64 t (int64ToAuxInt (s64 (- c))) [] in
   let v0 := Value OpDiv64 t 0 [n; v1] in
   Ok (Some (Value OpNeg64 (typ v) 0 [v0]))) otherwise
  (* (Div64 <t> x (Const64 [-1<<63])) *)
  (let t := typ v in
   let x := v_0 in
   need op_is (op v_1) OpConst64;;
   need auxIntToInt64 (AuxInt v_1) =? (- 2 ^ 63);;
   let v1 := Value OpNeg64 t 0 [x] in
   let v0 := Value OpAnd64 t 0 [x; v1] in
   let v2 := Value OpConst64 UInt64 (int64ToAuxInt 63) [] in
   Ok (Some (Value OpRsh64Ux64 (typ v) 0 [v0; v2]))) otherwise
  (* (Div64 <t> n (Const64 [c])) *)
  (let t := typ v in
   let n := v_0 in
   need op_is (op v_1) OpConst64;;
   let c := auxIntToInt64 (AuxInt v_1) in
   need isPowerOfTwo c;;
   let v3 := Value OpConst64 UInt64 (int64ToAuxInt 63) [] in
   let v2 := Value OpRsh64x64 t 0 [n; v3] in
   let v4 := Value OpConst64 UInt64 (int64ToAuxInt (s64 (s64 (64 - log64 c)))) [] in
   let v1 := Value OpRsh64Ux64 t 0 [v2; v4] in
   let v0 := Value OpAdd64 t 0 [n; v1] in
   let v5 := Value OpConst64 UInt64 (int64ToAuxInt (s64 (log64 c))) [] in
   Ok (Some (Value OpRsh64x64 (typ v) 0 [v0; v5]))) otherwise
  (* (Div64 <t> x (Const64 [c])) *)
  (let t := typ v in
   let x := v_0 in
   need op_is (op v_1) OpConst64;;
   let c := auxIntToInt64 (AuxInt v_1) in
   need smagicOK64 c;;
   with_ (smagic64 c) (fun d =>
   need (Z.land (sm_m d) 1) =? 0;;
   need useHmul cfg;;
   let v2 := Value OpConst64 UInt64 (int64ToAuxInt (s64 (sm_m d / 2))) [] in
   let v1 := Value OpHmul64 t 0 [v2; x] in
   let v3 := Value OpConst64 UInt64 (int64ToAuxInt (s64 (sm_s d - 1))) [] in
   let v0 := Value OpRsh64x64 t 0 [v1; v3] in
   let v5 := Value OpConst64 UInt64 (int64ToAuxInt 63) [] in
   let v4 := Value OpRsh64x64 t 0 [x; v5] in
   Ok (Some (Value OpSub64 t 0 [v0; v4])))) otherwise
  (* (Div64 <t> x (Const64 [c])) *)
  (let t := typ v in
   let x := v_0 in
   need op_is (op v_1) OpConst64;;
   let c := auxIntToInt64 (AuxInt v_1) in
   need smagicOK64 c;;
   with_ (smagic64 c) (fun d =>
   need negb ((Z.land (sm_m d) 1) =? 0);;
   need useHmul cfg;;
   let v3 := Value OpConst64 UInt64 (int64ToAuxInt (s64 (sm_m d))) [] in
   let v2 := Value OpHmul64 t 0 [v3; x] in
   let v1 := Value OpAdd64 t 0 [v2; x] in
   let v4 := Value OpConst64 UInt64 (int64ToAuxInt (sm_s d)) [] in
   let v0 := Value OpRsh64x64 t 0 [v1; v4] in
   let v6 := Value OpConst64 UInt64 (int64ToAuxInt 63) [] in
   let v5 := Value OpRsh64x64 t 0 [x; v6] in
   Ok (Some (Value OpSub64 t 0 [v0; v5])))) otherwise
  Ok None.

Definition rewriteValuegeneric_OpDiv64u (v : value) : rule :=
  let v_1 := arg v 1 in
  let v_0 := arg v 0 in
  (* (Div64u (Const64 [c]) (Const64 [d])) *)
  (need op_is (op v_0) OpConst64;;
   let c := auxIntToInt64 (AuxInt v_0) in
   need op_is (op v_1) OpConst64;;
   let d := auxIntToInt64 (AuxInt v_1) in
   need negb (d =? 0);;
   Ok (Some (Value OpConst64 (typ v) (int64ToAuxInt (s64 (u64 c / u64 d))) []))) otherwise
  (* (Div64u n (Const64 [c])) *)
  (let n := v_0 in
   need op_is (op v_1) OpConst64;;
   let c := auxIntToInt64 (AuxInt v_1) in
   need isPowerOfTwo c;;
   let v0 := Value OpConst64 UInt64 (int64ToAuxInt (log64 c)) [] in
   Ok (Some (Value OpRsh64Ux64 (typ v) 0 [n; v0]))) otherwise
  (* (Div64u n (Const64 [-1<<63])) *)
  (let n := v_0 in
   need op_is (op v_1) OpConst64;;
   need auxIntToInt64 (AuxInt v_1) =? (- 2 ^ 63);;
   let v0 := Value OpConst64 UInt64 (int64ToAuxInt 63) [] in
   Ok (Some (Value OpRsh64Ux64 (typ v) 0 [n; v0]))) otherwise
  (* (Div64u x (Const64 [c])) *)
  (let x := v_0 in
   need op_is (op v_1) OpConst64;;
   let c := auxIntToInt64 (AuxInt v_1) in
   need 0 <? c;;
   need c <=? 0xFFFF;;
   need umagicOK32 (s32 c);;
   need RegSize cfg =? 4;;
   need useHmul cfg;;
   let v7 := Value OpConst64 UInt64 (int64ToAuxInt 32) [] in
   let v6 := Value OpRsh64Ux64 UInt64 0 [x; v7] in
   let v5 := Value OpTrunc64to32 UInt32 0 [v6] in
   let v8 := Value OpConst32 UInt32 (int32ToAuxInt (s32 c)) [] in
   let v4 := Value OpDiv32u UInt32 0 [v5; v8] in
   let v3 := Value OpZeroExt32to64 UInt64 0 [v4] in
   let v2 := Value OpLsh64x64 UInt64 0 [v3; v7] in
   let v11 := Value OpTrunc64to32 UInt32 0 [x] in
   let v10 := Value OpDiv32u UInt32 0 [v11; v8] in
   let v9 := Value OpZeroExt32to64 UInt64 0 [v10] in
   let v1 := Value OpAdd64 UInt64 0 [v2; v9] in
   let v14 := Value OpMod32u UInt32 0 [v5; v8] in
   let v13 := Value OpZeroExt32to64 UInt64 0 [v14] in
   let v15 := Value OpConst64 UInt64 (int64ToAuxInt (s64 (s64 (Z.quot (2 ^ 32) c)))) [] in
   let v12 := Value OpMul64 UInt64 0 [v13; v15] in
   let v0 := Value OpAdd64 UInt64 0 [v1; v12] in
   let v19 := Value OpMod32u UInt32 0 [v11; v8] in
   let v21 := Value OpConst32 UInt32 (int32ToAuxInt (s32 (Z.rem (2 ^ 32) c))) [] in
   let v20 := Value OpMul32 UInt32 0 [v14; v21] in
   let v18 := Value OpAdd32 UInt32 0 [v19; v20] in
   let v17 := Value OpDiv32u UInt32 0 [v18; v8] in
   let v16 := Value OpZeroExt32to64 UInt64 0 [v17] in
   Ok (Some (Value OpAdd64 (typ v) 0 [v0; v16]))) otherwise
  (* (Div64u x (Const64 [c])) *)
  (let x := v_0 in
   need op_is (op v_1) OpConst64;;
   let c := auxIntToInt64 (AuxInt v_1) in
   need umagicOK64 c;;
   need RegSize cfg =? 8;;
   with_ (umagic64 c) (fun d =>
   need (Z.land (um_m d) 1) =? 0;;
   need useHmul cfg;;
   let v1 := Value OpConst64 UInt64 (int64ToAuxInt (s64 (u64 ((2 ^ 63) + (um_m d / 2))))) [] in
   let v0 := Value OpHmul64u UInt64 0 [v1; x] in
   let v2 := Value OpConst64 UInt64 (int64ToAuxInt (s64 (um_s d - 1))) [] in
   Ok (Some (Value OpRsh64Ux64 UInt64 0 [v0; v2])))) otherwise
  (* (Div64u x (Const64 [c])) *)
  (let x := v_0 in
   need op_is (op v_1) OpConst64;;
   let c := auxIntToInt64 (AuxInt v_1) in
   need umagicOK64 c;;
   need RegSize cfg =? 8;;
   need (Z.land c 1) =? 0;;
   need useHmul cfg;;
   let+ d := umagic64 c in
   let v1 := Value OpConst64 UInt64 (int64ToAuxInt (s64 (u64 ((2 ^ 63) + ((u64 (um_m d + 1)) / 2))))) [] in
   let v3 := Value OpConst64 UInt64 (int64ToAuxInt 1) [] in
   let v2 := Value OpRsh64Ux64 UInt64 0 [x; v3] in
   let v0 := Value OpHmul64u UInt64 0 [v1; v2] in
   let v4 := Value OpConst64 UInt64 (int64ToAuxInt (s64 (um_s d - 2))) [] in
   Ok (Some (Value OpRsh64Ux64 UInt64 0 [v0; v4]))) otherwise
  (* (Div64u x (Const64 [c])) *)
  (let x := v_0 in
   need op_is (op v_1) OpConst64;;
   let c := auxIntToInt64 (AuxInt v_1) in
   need umagicOK64 c;;
   need RegSize cfg =? 8;;
   need useAvg cfg;;
   need useHmul cfg;;
   let+ d := umagic64 c in
   let v2 := Value OpConst64 UInt64 (int64ToAuxInt (s64 (um_m d))) [] in
   let v1 := Value OpHmul64u UInt64 0 [v2; x] in
   let v0 := Value OpAvg64u UInt64 0 [x; v1] in
   let v3 := Value OpConst64 UInt64 (int64ToAuxInt (s64 (um_s d - 1))) [] in
   Ok (Some (Value OpRsh64Ux64 UInt64 0 [v0; v3]))) otherwise
  Ok None.

Definition rewriteValuegeneric_OpMod8 (v : value) : rule :=
  let v_1 := arg v 1 in
  let v_0 := arg v 0 in
  (* (Mod8 (Const8 [c]) (Const8 [d])) *)
  (need op_is (op v_0) OpConst8;;
   let c := auxIntToInt8 (AuxInt v_0) in
   need op_is (op v_1) OpConst8;;
   let d := auxIntToInt8 (AuxInt v_1) in
   need negb (d =? 0);;
   Ok (Some (Value OpConst8 (typ v) (int8ToAuxInt (Z.rem c d)) []))) otherwise
  (* (Mod8 <t> n (Const8 [c])) *)
  (let t := typ v in
   let n := v_0 in
   need op_is (op v_1) OpConst8;;
   let c := auxIntToInt8 (AuxInt v_1) in
   needs isNonNegative n;;
   need isPowerOfTwo c;;
   let v0 := Value OpConst8 t (int8ToAuxInt (s8 (c - 1))) [] in
   Ok (Some (Value OpAnd8 (typ v) 0 [n; v0]))) otherwise
  (* (Mod8 <t> n (Const8 [c])) *)
  (let t := typ v in
   let n := v_0 in
   need op_is (op v_1) OpConst8;;
   let c := auxIntToInt8 (AuxInt v_1) in
   need c <? 0;;
   need negb (c =? (- 2 ^ 7));;
   let v0 := Value OpConst8 t (int8ToAuxInt (s8 (- c))) [] in
   Ok (Some (Value OpMod8 t 0 [n; v0]))) otherwise
  (* (Mod8 <t> x (Const8 [c])) *)
  (let t := typ v in
   let x := v_0 in
   need op_is (op v_1) OpConst8;;
   let c := auxIntToInt8 (AuxInt v_1) in
   need negb (op_is (op x) OpConst8);;
   need (0 <? c) || (c =? (- 2 ^ 7));;
   let v2 := Value OpConst8 t (int8ToAuxInt c) [] in
   let v1 := Value OpDiv8 t 0 [x; v2] in
   let v0 := Value OpMul8 t 0 [v1; v2] in
   Ok (Some (Value OpSub8 (typ v) 0 [x; v0]))) otherwise
  Ok None.

Definition rewriteValuegeneric_OpMod8u (v : value) : rule :=
  let v_1 := arg v 1 in
  let v_0 := arg v 0 in
  (* (Mod8u (Const8 [c]) (Const8 [d])) *)
  (need op_is (op v_0) OpConst8;;
   let c := auxIntToInt8 (AuxInt v_0) in
   need op_is (op v_1) OpConst8;;
   let d := auxIntToInt8 (AuxInt v_1) in
   need negb (d =? 0);;
   Ok (Some (Value OpConst8 (typ v) (int8ToAuxInt (s8 (u8 c mod u8 d))) []))) otherwise
  (* (Mod8u <t> n (Const8 [c])) *)
  (let t := typ v in
   let n := v_0 in
   need op_is (op v_1) OpConst8;;
   let c := auxIntToInt8 (AuxInt v_1) in
   need isPowerOfTwo c;;
   let v0 := Value OpConst8 t (int8ToAuxInt (s8 (c - 1))) [] in
   Ok (Some (Value OpAnd8 (typ v) 0 [n; v0]))) otherwise
  (* (Mod8u <t> x (Const8 [c])) *)
  (let t := typ v in
   let x := v_0 in
   need op_is (op v_1) OpConst8;;
   let c := auxIntToInt8 (AuxInt v_1) in
   need negb (op_is (op x) OpConst8);;
   need 0 <? c;;
   need umagicOK8 c;;
   let v2 := Value OpConst8 t (int8ToAuxInt c) [] in
   let v1 := Value OpDiv8u t 0 [x; v2] in
   let v0 := Value OpMul8 t 0 [v1; v2] in
   Ok (Some (Value OpSub8 (typ v) 0 [x; v0]))) otherwise
  Ok None.

Definition rewriteValuegeneric_OpMod16 (v : value) : rule :=
  let v_1 := arg v 1 in
  let v_0 := arg v 0 in
  (* (Mod16 (Const16 [c]) (Const16 [d])) *)
  (need op_is (op v_0) OpConst16;;
   let c := auxIntToInt16 (AuxInt v_0) in
   need op_is (op v_1) OpConst16;;
   let d := auxIntToInt16 (AuxInt v_1) in
   need negb (d =? 0);;
   Ok (Some (Value OpConst16 (typ v) (int16ToAuxInt (Z.rem c d)) []))) otherwise
  (* (Mod16 <t> n (Const16 [c])) *)
  (let t := typ v in
   let n := v_0 in
   need op_is (op v_1) OpConst16;;
   let c := auxIntToInt16 (AuxInt v_1) in
   needs isNonNegative n;;
   need isPowerOfTwo c;;
   let v0 := Value OpConst16 t (int16ToAuxInt (s16 (c - 1))) [] in
   Ok (Some (Value OpAnd16 (typ v) 0 [n; v0]))) otherwise
  (* (Mod16 <t> n (Const16 [c])) *)
  (let t := typ v in
   let n := v_0 in
   need op_is (op v_1) OpConst16;;
   let c := auxIntToInt16 (AuxInt v_1) in
   need c <? 0;;
   need negb (c =? (- 2 ^ 15));;
   let v0 := Value OpConst16 t (int16ToAuxInt (s16 (- c))) [] in
   Ok (Some (Value OpMod16 t 0 [n; v0]))) otherwise
  (* (Mod16 <t> x (Const16 [c])) *)
  (let t := typ v in
   let x := v_0 in
   need op_is (op v_1) OpConst16;;
   let c := auxIntToInt16 (AuxInt v_1) in
   need negb (op_is (op x) OpConst16);;
   need (0 <? c) || (c =? (- 2 ^ 15));;
   let v2 := Value OpConst16 t (int16ToAuxInt c) [] in
   let v1 := Value OpDiv16 t 0 [x; v2] in
   let v0 := Value OpMul16 t 0 [v1; v2] in
   Ok (Some (Value OpSub16 (typ v) 0 [x; v0]))) otherwise
  Ok None.

Definition rewriteValuegeneric_OpMod16u (v : value) : rule :=
  let v_1 := arg v 1 in
  let v_0 := arg v 0 in
  (* (Mod16u (Const16 [c]) (Const16 [d])) *)
  (need op_is (op v_0) OpConst16;;
   let c := auxIntToInt16 (AuxInt v_0) in
   need op_is (op v_1) OpConst16;;
   let d := auxIntToInt16 (AuxInt v_1) in
   need negb (d =? 0);;
   Ok (Some (Value OpConst16 (typ v) (int16ToAuxInt (s16 (u16 c mod u16 d))) []))) otherwise
  (* (Mod16u <t> n (Const16 [c])) *)
  (let t := typ v in
   let n := v_0 in
   need op_is (op v_1) OpConst16;;
   let c := auxIntToInt16 (AuxInt v_1) in
   need isPowerOfTwo c;;
   let v0 := Value OpConst16 t (int16ToAuxInt (s16 (c - 1))) [] in
   Ok (Some (Value OpAnd16 (typ v) 0 [n; v0]))) otherwise
  (* (Mod16u <t> x (Const16 [c])) *)
  (let t := typ v in
   let x := v_0 in
   need op_is (op v_1) OpConst16;;
   let c := auxIntToInt16 (AuxInt v_1) in
   need negb (op_is (op x) OpConst16);;
   need 0 <? c;;
   need umagicOK16 c;;
   let v2 := Value OpConst16 t (int16ToAuxInt c) [] in
   let v1 := Value OpDiv16u t 0 [x; v2] in
   let v0 := Value OpMul16 t 0 [v1; v2] in
   Ok (Some (Value OpSub16 (typ v) 0 [x; v0]))) otherwise
  Ok None.

Definition rewriteValuegeneric_OpMod32 (v : value) : rule :=
  let v_1 := arg v 1 in
  let v_0 := arg v 0 in
  (* (Mod32 (Const32 [c]) (Const32 [d])) *)
  (need op_is (op v_0) OpConst32;;
   let c := auxIntToInt32 (AuxInt v_0) in
   need op_is (op v_1) OpConst32;;
   let d := auxIntToInt32 (AuxInt v_1) in
   need negb (d =? 0);;
   Ok (Some (Value OpConst32 (typ v) (int32ToAuxInt (Z.rem c d)) []))) otherwise
  (* (Mod32 <t> n (Const32 [c])) *)
  (let t := typ v in
   let n := v_0 in
   need op_is (op v_1) OpConst32;;
   let c := auxIntToInt32 (AuxInt v_1) in
   needs isNonNegative n;;
   need isPowerOfTwo c;;
   let v0 := Value OpConst32 t (int32ToAuxInt (s32 (c - 1))) [] in
   Ok (Some (Value OpAnd32 (typ v) 0 [n; v0]))) otherwise
  (* (Mod32 <t> n (Const32 [c])) *)
  (let t := typ v in
   let n := v_0 in
   need op_is (op v_1) OpConst32;;
   let c := auxIntToInt32 (AuxInt v_1) in
   need c <? 0;;
   need negb (c =? (- 2 ^ 31));;
   let v0 := Value OpConst32 t (int32ToAuxInt (s32 (- c))) [] in
   Ok (Some (Value OpMod32 t 0 [n; v0]))) otherwise
  (* (Mod32 <t> x (Const32 [c])) *)
  (let t := typ v in
   let x := v_0 in
   need op_is (op v_1) OpConst32;;
   let c := auxIntToInt32 (AuxInt v_1) in
   need negb (op_is (op x) OpConst32);;
   need (0 <? c) || (c =? (- 2 ^ 31));;
   let v2 := Value OpConst32 t (int32ToAuxInt c) [] in
   let v1 := Value OpDiv32 t 0 [x; v2] in
   let v0 := Value OpMul32 t 0 [v1; v2] in
   Ok (Some (Value OpSub32 (typ v) 0 [x; v0]))) otherwise
  Ok None.

Definition rewriteValuegeneric_OpMod32u (v : value) : rule :=
  let v_1 := arg v 1 in
  let v_0 := arg v 0 in
  (* (Mod32u (Const32 [c]) (Const32 [d])) *)
  (need op_is (op v_0) OpConst32;;
   let c := auxIntToInt32 (AuxInt v_0) in
   need op_is (op v_1) OpConst32;;
   let d := auxIntToInt32 (AuxInt v_1) in
   need negb (d =? 0);;
   Ok (Some (Value OpConst32 (typ v) (int32ToAuxInt (s32 (u32 c mod u32 d))) []))) otherwise
  (* (Mod32u <t> n (Const32 [c])) *)
  (let t := typ v in
   let n := v_0 in
   need op_is (op v_1) OpConst32;;
   let c := auxIntToInt32 (AuxInt v_1) in
   need isPowerOfTwo c;;
   let v0 := Value OpConst32 t (int32ToAuxInt (s32 (c - 1))) [] in
   Ok (Some (Value OpAnd32 (typ v) 0 [n; v0]))) otherwise
  (* (Mod32u <t> x (Const32 [c])) *)
  (let t := typ v in
   let x := v_0 in
   need op_is (op v_1) OpConst32;;
   let c := auxIntToInt32 (AuxInt v_1) in
   need negb (op_is (op x) OpConst32);;
   need 0 <? c;;
   need umagicOK32 c;;
   let v2 := Value OpConst32 t (int32ToAuxInt c) [] in
   let v1 := Value OpDiv32u t 0 [x; v2] in
   let v0 := Value OpMul32 t 0 [v1; v2] in
   Ok (Some (Value OpSub32 (typ v) 0 [x; v0]))) otherwise
  Ok None.

Definition rewriteValuegeneric_OpMod64 (v : value) : rule :=
  let v_1 := arg v 1 in
  let v_0 := arg v 0 in
  (* (Mod64 (Const64 [c]) (Const64 [d])) *)
  (need op_is (op v_0) OpConst64;;
   let c := auxIntToInt64 (AuxInt v_0) in
   need op_is (op v_1) OpConst64;;
   let d := auxIntToInt64 (AuxInt v_1) in
   need negb (d =? 0);;
   Ok (Some (Value OpConst64 (typ v) (int64ToAuxInt (Z.rem c d)) []))) otherwise
  (* (Mod64 <t> n (Const64 [c])) *)
  (let t := typ v in
   let n := v_0 in
   need op_is (op v_1) OpConst64;;
   let c := auxIntToInt64 (AuxInt v_1) in
   needs isNonNegative n;;
   need isPowerOfTwo c;;
   let v0 := Value OpConst64 t (int64ToAuxInt (s64 (c - 1))) [] in
   Ok (Some (Value OpAnd64 (typ v) 0 [n; v0]))) otherwise
  (* (Mod64 n (Const64 [-1<<63])) *)
  (let n := v_0 in
   need op_is (op v_1) OpConst64;;
   need auxIntToInt64 (AuxInt v_1) =? (- 2 ^ 63);;
   needs isNonNegative n;;
   Ok (Some (copyOf n))) otherwise
  (* (Mod64 <t> n (Const64 [c])) *)
  (let t := typ v in
   let n := v_0 in
   need op_is (op v_1) OpConst64;;
   let c := auxIntToInt64 (AuxInt v_1) in
   need c <? 0;;
   need negb (c =? (- 2 ^ 63));;
   let v0 := Value OpConst64 t (int64ToAuxInt (s64 (- c))) [] in
   Ok (Some (Value OpMod64 t 0 [n; v0]))) otherwise
  (* (Mod64 <t> x (Const64 [c])) *)
  (let t := typ v in
   let x := v_0 in
   need op_is (op v_1) OpConst64;;
   let c := auxIntToInt64 (AuxInt v_1) in
   need negb (op_is (op x) OpConst64);;
   need (0 <? c) || (c =? (- 2 ^ 63));;
   let v2 := Value OpConst64 t (int64ToAuxInt c) [] in
   let v1 := Value OpDiv64 t 0 [x; v2] in
   let v0 := Value OpMul64 t 0 [v1; v2] in
   Ok (Some (Value OpSub64 (typ v) 0 [x; v0]))) otherwise
  Ok None.

Definition rewriteValuegeneric_OpMod64u (v : value) : rule :=
  let v_1 := arg v 1 in
  let v_0 := arg v 0 in
  (* (Mod64u (Const64 [c]) (Const64 [d])) *)
  (need op_is (op v_0) OpConst64;;
   let c := auxIntToInt64 (AuxInt v_0) in
   need op_is (op v_1) OpConst64;;
   let d := auxIntToInt64 (AuxInt v_1) in
   need negb (d =? 0);;
   Ok (Some (Value OpConst64 (typ v) (int64ToAuxInt (s64 (u64 c mod u64 d))) []))) otherwise
  (* (Mod64u <t> n (Const64 [c])) *)
  (let t := typ v in
   let n := v_0 in
   need op_is (op v_1) OpConst64;;
   let c := auxIntToInt64 (AuxInt v_1) in
   need isPowerOfTwo c;;
   let v0 := Value OpConst64 t (int64ToAuxInt (s64 (c - 1))) [] in
   Ok (Some (Value OpAnd64 (typ v) 0 [n; v0]))) otherwise
  (* (Mod64u <t> n (Const64 [-1<<63])) *)
  (let t := typ v in
   let n := v_0 in
   need op_is (op v_1) OpConst64;;
   need auxIntToInt64 (AuxInt v_1) =? (- 2 ^ 63);;
   let v0 := Value OpConst64 t (int64ToAuxInt (2 ^ 63 - 1)) [] in
   Ok (Some (Value OpAnd64 (typ v) 0 [n; v0]))) otherwise
  (* (Mod64u <t> x (Const64 [c])) *)
  (let t := typ v in
   let x := v_0 in
   need op_is (op v_1) OpConst64;;
   let c := auxIntToInt64 (AuxInt v_1) in
   need negb (op_is (op x) OpConst64);;
   need 0 <? c;;
   need umagicOK64 c;;
   let v2 := Value OpConst64 t (int64ToAuxInt c) [] in
   let v1 := Value OpDiv64u t 0 [x; v2] in
   let v0 := Value OpMul64 t 0 [v1; v2] in
   Ok (Some (Value OpSub64 (typ v) 0 [x; v0]))) otherwise
  Ok None.

(** The cases of [rewriteValuegeneric]. *)
Definition rewriteValuegeneric (v : value) : rule :=
  match op v with
  | OpDiv8 => rewriteValuegeneric_OpDiv8 v
  | OpDiv8u => rewriteValuegeneric_OpDiv8u v
  | OpDiv16 => rewriteValuegeneric_OpDiv16 v
  | OpDiv16u => rewriteValuegeneric_OpDiv16u v
  | OpDiv32 => rewriteValuegeneric_OpDiv32 v
  | OpDiv32u => rewriteValuegeneric_OpDiv32u v
  | OpDiv64 => rewriteValuegeneric_OpDiv64 v
  | OpDiv64u => rewriteValuegeneric_OpDiv64u v
  | OpMod8 => rewriteValuegeneric_OpMod8 v
  | OpMod8u => rewriteValuegeneric_OpMod8u v
  | OpMod16 => rewriteValuegeneric_OpMod16 v
  | OpMod16u => rewriteValuegeneric_OpMod16u v
  | OpMod32 => rewriteValuegeneric_OpMod32 v
  | OpMod32u => rewriteValuegeneric_OpMod32u v
  | OpMod64 => rewriteValuegeneric_OpMod64 v
  | OpMod64u => rewriteValuegeneric_OpMod64u v
  | _ => Ok None
  end.
End Rules.
