(* ===== verification/DivisionFacts.v ===== *)
(** * The rules for divisions and remainders keep what a value computes

    Rule by rule for the four widths; the arithmetic is in Quotients.v. *)

From S2P Require Import Prelude Bits Magic MagicFacts Ssa Words Quotients SsaFacts Divisions.

#[local] Open Scope Z_scope.

Section Preservation.
Context (other : value -> Z) `{!Others other} (cfg : Config).

(** The new value is well typed, as wide as [v], and computes the same. *)
Definition preserves (v : value) (r : rule) : Prop :=
  match r with
  | Ok None => True
  | Ok (Some v') => eval other v' = eval other v /\ wt v' = true /\ width_of v' = width_of v
  | Panic _ | NoFuel => False
  end.

Lemma preserves_otherwise v a b : preserves v a -> preserves v b -> preserves v (or_else a b).
Proof. by destruct a as [[]| |]. Qed.

Lemma preserves_need v b r : (b = true -> preserves v r) -> preserves v (guard b r).
Proof. destruct b; [by auto|done]. Qed.

Lemma preserves_needs v x r : wt x = true -> IsInteger (typ x) = true ->
  (0 <= sgn (width_of x) (eval other x) -> preserves v r) -> preserves v (guard_res (isNonNegative x) r).
Proof.
  intros Hx Hi Hr. destruct (isNonNegative_fuel_sound other (S (height x)) x ltac:(lia) Hx Hi) as (b & E & Hb).
  unfold isNonNegative. rewrite E. apply preserves_need. intros Eb. by apply Hr, Hb.
Qed.

Lemma preserves_some v v' : eval other v' = eval other v -> wt v' = true -> width_of v' = width_of v -> preserves v (Ok (Some v')).
Proof. done. Qed.

(** A constant operand. *)
Definition const_op (n : Z) : Op :=
  if n =? 8 then OpConst8 else if n =? 16 then OpConst16 else if n =? 32 then OpConst32 else OpConst64.

Lemma const_operand n y : op_is (op y) (const_op n) = true -> n = 8 \/ n = 16 \/ n = 32 -> 
  sgn n (eval other y) = sgn n (AuxInt y).
Proof.
  destruct y as [o t aux l]. intros Ho%bool_decide_eq_true [->|[->| ->]]; cbn in Ho; subst o; apply sgn_wrap.
Qed.

Lemma const64_operand y : wt y = true -> op_is (op y) OpConst64 = true ->
  sgn 64 (eval other y) = auxIntToInt64 (AuxInt y) /\ - 2 ^ 63 <= auxIntToInt64 (AuxInt y) < 2 ^ 63.
Proof.
  destruct y as [o t aux l]. intros (Ha & _)%wt_value Ho%bool_decide_eq_true. cbn in Ho. subst o.
  apply in_int64_range in Ha. split; [|exact Ha]. change (sgn 64 (wrap 64 aux) = aux). rewrite sgn_wrap. apply sgn_small; [lia|exact Ha].
Qed.

Lemma sgn_range_8 x : - 2 ^ 7 <= auxIntToInt8 x < 2 ^ 7.
Proof. apply (sgn_bounds 8). lia. Qed.
Lemma sgn_range_16 x : - 2 ^ 15 <= auxIntToInt16 x < 2 ^ 15.
Proof. apply (sgn_bounds 16). lia. Qed.
Lemma sgn_range_32 x : - 2 ^ 31 <= auxIntToInt32 x < 2 ^ 31.
Proof. apply (sgn_bounds 32). lia. Qed.

Lemma const8_operand y : op_is (op y) OpConst8 = true ->
  sgn 8 (eval other y) = auxIntToInt8 (AuxInt y) /\ - 2 ^ 7 <= auxIntToInt8 (AuxInt y) < 2 ^ 7.
Proof. intros H. split; [apply (const_operand 8); [done|lia]|apply sgn_range_8]. Qed.
Lemma const16_operand y : op_is (op y) OpConst16 = true ->
  sgn 16 (eval other y) = auxIntToInt16 (AuxInt y) /\ - 2 ^ 15 <= auxIntToInt16 (AuxInt y) < 2 ^ 15.
Proof. intros H. split; [apply (const_operand 16); [done|lia]|apply sgn_range_16]. Qed.
Lemma const32_operand y : op_is (op y) OpConst32 = true ->
  sgn 32 (eval other y) = auxIntToInt32 (AuxInt y) /\ - 2 ^ 31 <= auxIntToInt32 (AuxInt y) < 2 ^ 31.
Proof. intros H. split; [apply (const_operand 32); [done|lia]|apply sgn_range_32]. Qed.

Lemma s64_small x : - 2 ^ 63 <= x < 2 ^ 63 -> s64 x = x.
Proof. apply (sgn_small 64). lia. Qed.

Lemma fold_divs n a b c d : sgn n a = c -> sgn n b = d -> wrap n (sgn n (Z.quot c d)) = divs n a b.
Proof. intros <- <-. apply wrap_sgn. Qed.

Lemma fold_divu n a b c d : 0 < n -> sgn n a = c -> sgn n b = d -> wrap n (sgn n (wrap n c / wrap n d)) = divu n a b.
Proof. intros Hn <- <-. rewrite !wrap_sgn. by apply wrap_small, divu_range. Qed.

Lemma fold_mods n a b c d : sgn n a = c -> sgn n b = d -> wrap n (Z.rem c d) = mods n a b.
Proof. by intros <- <-. Qed.

Lemma fold_modu n a b c d : 0 < n -> sgn n a = c -> sgn n b = d -> wrap n (sgn n (wrap n c mod wrap n d)) = modu n a b.
Proof. intros Hn <- <-. rewrite !wrap_sgn. by apply wrap_small, modu_range. Qed.

Lemma wrap_const n y c : 0 < n -> sgn n y = c -> 0 <= c -> wrap n y = c.
Proof. intros Hn <- Hc. by destruct (sgn_nonneg n Hn y Hc) as [-> _]. Qed.

Lemma wrap_pow2 n y c k : 0 < n -> sgn n y = c -> c = 2 ^ k -> wrap n y = 2 ^ k.
Proof. intros Hn Hy ->. apply wrap_const; [done..|]. by apply Z.pow_nonneg. Qed.

Lemma umagic_const n y c : width n -> sgn n y = c -> negb (Z.land c (sgn n (c - 1)) =? 0) = true ->
  exists s m, umagic n c = Ok (UmagicData s m) /\ multiplier n (wrap n y) s m.
Proof.
  intros Hn <- Hok. unfold width in Hn. pose proof (sgn_bounds n ltac:(lia) y). rewrite <- (wrap_sgn n y).
  apply umagic_multiplier, umagicOK_signed; done || lia.
Qed.

Lemma even_const n y c : 0 < n -> sgn n y = c -> Z.land c 1 = 0 -> Z.land (wrap n y) 1 = 0.
Proof.
  intros Hn <- E. rewrite <- (wrap_sgn n y). change 1 with (Z.ones 1) in *. rewrite Z.land_ones in * by lia.
  change 1 with (Z.min 1 1). rewrite <- E. apply (wrap_narrow 1); lia.
Qed.

(** Constant operands. *)
Lemma count_word i j : i = j -> 0 <= j < 2 ^ 63 -> count (wrap 64 (int64ToAuxInt i)) j.
Proof. intros -> Hj. unfold count, int64ToAuxInt. rewrite wrap_wrap by lia. apply wrap_small. lia. Qed.

Lemma count_s64 i j : i = j -> 0 <= j < 2 ^ 63 -> count (wrap 64 (int64ToAuxInt (s64 i))) j.
Proof. intros -> Hj. rewrite s64_small by lia. by apply count_word. Qed.

Lemma word_s32 i j : i = j -> 0 <= j < 2 ^ 32 -> wrap 32 (wrap 32 (int32ToAuxInt (s32 i))) = j.
Proof. intros -> Hj. rewrite wrap_wrap by lia. unfold int32ToAuxInt. rewrite (wrap_sgn 32 j : wrap 32 (s32 j) = _). by apply wrap_small. Qed.

Lemma word_s64 i j : i = j -> 0 <= j < 2 ^ 64 -> wrap 64 (wrap 64 (int64ToAuxInt (s64 i))) = j.
Proof. intros -> Hj. rewrite wrap_wrap by lia. unfold int64ToAuxInt. rewrite (wrap_sgn 64 j : wrap 64 (s64 j) = _). by apply wrap_small. Qed.

Lemma wrap_min_const n y : 0 < n -> sgn n y = - 2 ^ (n - 1) -> wrap n y = 2 ^ (n - 1).
Proof. intros Hn E. by rewrite <- wrap_sgn, E, wrap_opp_half. Qed.

Lemma rem_range n c d : - 2 ^ n <= c < 2 ^ n -> d <> 0 -> - 2 ^ n <= Z.rem c d < 2 ^ n.
Proof.
  intros Hc Hd. rewrite Z.rem_mod by done. pose proof (Z.mod_pos_bound (Z.abs c) (Z.abs d) ltac:(lia)).
  pose proof (Z.mod_le (Z.abs c) (Z.abs d) ltac:(lia) ltac:(lia)). destruct (Z.sgn_spec c) as [[? ->]|[[? ->]|[? ->]]]; lia.
Qed.

(** The mask of a power of 2. *)
Lemma pow2_mask n c : 1 < n -> isPowerOfTwo c = true -> c < 2 ^ (n - 1) ->
  exists k, 0 <= k /\ c = 2 ^ k /\ wrap n (wrap n (sgn n (c - 1))) = 2 ^ k - 1.
Proof.
  intros Hn Hp Hc. destruct (pow2_const (n - 1) c Hp Hc ltac:(lia)) as (k & Hk & E & _ & H0). exists k. split; [lia|]. split; [done|].
  rewrite wrap_wrap, wrap_sgn, <- E by lia. apply wrap_small. pose proof (pow_half n). lia.
Qed.

Lemma mods_sub_const n X Y c : 1 < n <= 64 -> sgn n Y = c -> c <> 0 ->
  sub n X (mul n (divs n X (wrap n c)) (wrap n c)) = mods n X Y.
Proof.
  intros Hn HY Hc. assert (HC : sgn n (wrap n c) = c) by (rewrite sgn_wrap, <- HY; apply sgn_small; [lia|apply sgn_bounds; lia]).
  rewrite (mods_sub n Hn _ c HC) by done. unfold mods. by rewrite HC, HY.
Qed.

Lemma modu_sub_const n X Y c : 0 < n -> sgn n Y = c -> 0 < c ->
  sub n X (mul n (divu n X (wrap n c)) (wrap n c)) = modu n X Y.
Proof.
  intros Hn HY Hc. pose proof (wrap_const n Y c Hn HY ltac:(lia)) as HC. rewrite <- HC, wrap_wrap by done.
  rewrite modu_sub by (rewrite ?wrap_wrap by done; lia). unfold modu. by rewrite wrap_wrap.
Qed.

Lemma split_bounds c : 0 < c -> 0 <= 2 ^ 32 / c <= 2 ^ 32 /\ 0 <= 2 ^ 32 mod c < c.
Proof.
  intros Hc. pose proof (Z.mod_pos_bound (2 ^ 32) c Hc). pose proof (Z.div_pos (2 ^ 32) c ltac:(lia) Hc).
  pose proof (Z.div_le_upper_bound (2 ^ 32) c (2 ^ 32) Hc). nia.
Qed.

Lemma halves m : m - 1 <= 2 * (m / 2) <= m.
Proof. pose proof (Z.div_mod m 2). pose proof (Z.mod_pos_bound m 2). lia. Qed.

(** The negated constant. *)
Lemma sgn_opp n c : 0 < n -> c < 0 -> c <> - 2 ^ (n - 1) -> - 2 ^ (n - 1) <= c -> sgn n (sgn n (- c)) = - c.
Proof. intros. rewrite !(sgn_small n) by (try apply sgn_bounds; lia). done. Qed.

(** ** Automation *)

(** The next condition of a rule. *)
Ltac need_cond :=
  lazymatch goal with
  | |- preserves _ (or_else _ _) => apply preserves_otherwise
  | |- preserves _ (guard (op_is (op ?y) OpConst8) _) =>
      apply preserves_need; let H := fresh in let c := fresh "c" in intros H;
      destruct (const8_operand y H) as [? ?]; clear H; set (c := auxIntToInt8 (AuxInt y)) in *; clearbody c
  | |- preserves _ (guard (op_is (op ?y) OpConst16) _) =>
      apply preserves_need; let H := fresh in let c := fresh "c" in intros H;
      destruct (const16_operand y H) as [? ?]; clear H; set (c := auxIntToInt16 (AuxInt y)) in *; clearbody c
  | |- preserves _ (guard (op_is (op ?y) OpConst32) _) =>
      apply preserves_need; let H := fresh in let c := fresh "c" in intros H;
      destruct (const32_operand y H) as [? ?]; clear H; set (c := auxIntToInt32 (AuxInt y)) in *; clearbody c
  | Hy : wt ?y = true |- preserves _ (guard (op_is (op ?y) OpConst64) _) =>
      apply preserves_need; let H := fresh in let c := fresh "c" in intros H;
      destruct (const64_operand y Hy H) as [? ?]; clear H; set (c := auxIntToInt64 (AuxInt y)) in *; clearbody c
  | |- preserves _ (guard _ _) => apply preserves_need; let H := fresh in intros H; try apply Z.eqb_eq in H
  | Hw : width_of ?x = _ |- preserves _ (guard_res (isNonNegative ?x) _) =>
      apply preserves_needs; [done|done|rewrite Hw; intros ?]
  | |- preserves _ (Ok None) => exact I
  end.

(** The conditions that held, once they are used. *)
Ltac clear_conditions := repeat match goal with H : _ = true |- _ => clear H end.

(** [AuxInt] is an [int64]. *)
Ltac int64 :=
  clear_conditions;
  cbv [int8ToAuxInt int16ToAuxInt int32ToAuxInt int64ToAuxInt];
  lazymatch goal with
  | |- in_int64 (s8 _) = true => apply (in_int64_sgn 8); lia
  | |- in_int64 (s16 _) = true => apply (in_int64_sgn 16); lia
  | |- in_int64 (s32 _) = true => apply (in_int64_sgn 32); lia
  | |- in_int64 (s64 _) = true => apply (in_int64_sgn 64); lia
  | |- _ => first [reflexivity | apply in_int64_range; lia]
  end.

(** The new value is well typed. *)
Ltac typed :=
  cbn [wt forallb shape_ok op_width operand_widths operands_ok operand_ok width_of typ IsInteger];
  unfold operand_ok; cbn [width_of op_width typ IsInteger];
  repeat match goal with
  | H : wt ?x = true |- context [wt ?x] => rewrite H
  | H : IsInteger ?x = true |- context [IsInteger ?x] => rewrite H
  | H : width_of ?x = _ |- context [width_of ?x] => rewrite H
  end;
  repeat lazymatch goal with |- _ && _ = true => apply andb_true_intro; split end;
  first [reflexivity | int64].

Ltac rewritten := apply preserves_some; [cbn [eval compute map nth]|typed|reflexivity].

(** The count of a shift, and the bits of a multiplier. *)
Ltac word_is :=
  lazymatch goal with
  | |- _ = ?k => first [is_evar k; reflexivity | rewrite ?s64_small by lia; rewrite ?word64_small by lia; lia]
  end.
Ltac count := clear_conditions; first [apply count_s64|apply count_word]; [word_is|lia].
Ltac word := clear_conditions; first [apply word_s32|apply word_s64]; [word_is|lia].

(** ** Kinds of rules *)

Ltac log_const :=
  lazymatch goal with
  | H : isPowerOfTwo ?c = true |- context [log8 ?c] => destruct (log8_pow2 c H ltac:(lia)) as (? & ? & ? & ->)
  | H : isPowerOfTwo ?c = true |- context [log16 ?c] => destruct (log16_pow2 c H ltac:(lia)) as (? & ? & ? & ->)
  | H : isPowerOfTwo ?c = true |- context [log32 ?c] => destruct (log32_pow2 c H ltac:(lia)) as (? & ? & ? & ->)
  | H : isPowerOfTwo ?c = true |- context [log64 ?c] => destruct (log64_pow2 c H ltac:(lia)) as (? & ? & ? & ->)
  end.

Ltac by_nonneg_pow2 n := log_const; rewritten; eapply (divs_nonneg_pow2 n); [lia|done..|count|lia].
Ltac by_pow2 n := log_const; rewritten; clear_conditions; eapply (divs_pow2 n); [lia|done..|lia|count|count|count].
Ltac by_neg n := rewritten; eapply (divs_neg n); [lia|done|lia|rewrite sgn_wrap; apply sgn_opp; lia].
Ltac by_min n := rewritten; eapply (divs_min n); [lia|done|lia|count].
Ltac by_unsigned_pow2 n :=
  log_const; rewritten; clear_conditions; eapply (divu_pow2 n); [count|lia|eapply wrap_pow2; [lia|done|done]].

Ltac by_rem n :=
  lazymatch goal with
  | |- context [Z.rem ?c ?d] => pose proof (rem_range (n - 1) c d ltac:(lia) ltac:(lia)); rewritten; by eapply fold_mods
  end.
Ltac by_mask n :=
  lazymatch goal with
  | H : isPowerOfTwo ?c = true |- _ =>
      destruct (pow2_mask n c ltac:(lia) H ltac:(lia)) as (k & Hk & Hc & HM); rewritten; eapply (mods_nonneg_pow2 n); [lia|done..]
  end.
Ltac by_unsigned_mask n :=
  lazymatch goal with
  | H : isPowerOfTwo ?c = true |- _ =>
      destruct (pow2_mask n c ltac:(lia) H ltac:(lia)) as (k & Hk & Hc & HM); rewritten;
      eapply (modu_pow2 n); [done|lia|by eapply wrap_pow2; [lia|done|]|done]
  end.
Ltac by_mods_neg n := rewritten; eapply (mods_neg n); [done|lia|rewrite sgn_wrap; apply sgn_opp; lia].

Ltac by_mods_sub_const n := rewritten; eapply (mods_sub_const n); [lia|done|cbv [int8ToAuxInt int16ToAuxInt int32ToAuxInt int64ToAuxInt]; lia].
Ltac by_modu_sub_const n := rewritten; eapply (modu_sub_const n); [lia|done|cbv [int8ToAuxInt int16ToAuxInt int32ToAuxInt int64ToAuxInt]; lia].

(** The constants of the signed and the unsigned multiplications. *)
Ltac smagic_const n s M HM :=
  unfold smagic8, smagic16, smagic32, smagic64;
  lazymatch goal with
  | |- preserves _ (with_ (smagic _ ?c) _) =>
      destruct (smagic_multiplier n c) as (s & M & -> & HM); [done|done|lia|]; cbn [with_ sm_s sm_m];
      pose proof (sp_s _ _ _ _ HM); pose proof (sp_m _ _ _ _ HM); pose proof (halves M)
  end.
Ltac umagic_const n s m Hm :=
  unfold umagic8, umagic16, umagic32, umagic64;
  lazymatch goal with
  | H : sgn _ (eval other ?y) = ?c |- preserves _ (with_ (umagic _ ?c) _) =>
      destruct (umagic_const n (eval other y) c) as (s & m & -> & Hm); [done|done|done|]; cbn [with_ um_s um_m];
      pose proof (mp_s _ _ _ _ Hm); pose proof (mp_m _ _ _ _ Hm); pose proof (halves m); pose proof (halves (m + 1))
  end.

(** The rule of [Div64u] for divisors of 16 bits. *)
Ltac by_split :=
  rewritten;
  lazymatch goal with
  | H : sgn 64 (eval other ?y) = ?c |- _ =>
      assert (Hc : 0 < c <= 0xFFFF) by lia; pose proof (split_bounds c ltac:(lia));
      rewrite Z.quot_div_nonneg, Z.rem_mod_nonneg by lia; clear_conditions;
      eapply (split_quotient _ _ _ _ _ _ c); [exact Hc|apply wrap_const; [lia|done|lia]|word|word|word|count]
  end.

(** ** Divisions *)

Section Operands.
Context (t : type) (aux : Z) (x y : value) (Ht : IsInteger t = true).

Ltac rule_by_rule f :=
  intros [Hx Hxi Hxw] [Hy Hyi Hyw]; unfold f; cbv zeta; cbn [arg Args nth typ]; repeat need_cond.

Lemma Div8_preserves : operand 8 (Some 8) x -> operand 8 (Some 8) y ->
  preserves (Value OpDiv8 t aux [x; y]) (rewriteValuegeneric_OpDiv8 (Value OpDiv8 t aux [x; y])).
Proof.
  rule_by_rule rewriteValuegeneric_OpDiv8.
  - rewritten. by eapply fold_divs.
  - by_nonneg_pow2 8.
  - by_neg 8.
  - by_min 8.
  - by_pow2 8.
  - smagic_const 8 s M HM. rewritten. clear_conditions. eapply (signed_wide 8); [lia|done|exact HM|lia|word|count|count].
Qed.

Lemma Div8u_preserves : operand 8 (Some 8) x -> operand 8 (Some 8) y ->
  preserves (Value OpDiv8u t aux [x; y]) (rewriteValuegeneric_OpDiv8u (Value OpDiv8u t aux [x; y])).
Proof.
  rule_by_rule rewriteValuegeneric_OpDiv8u.
  - rewritten. eapply fold_divu; [lia|done|done].
  - by_unsigned_pow2 8.
  - umagic_const 8 s m Hm. rewritten. clear_conditions. eapply (wide_multiplier 8); [lia|exact Hm|done|lia|lia|word|count].
Qed.

Lemma Div16_preserves : operand 16 (Some 16) x -> operand 16 (Some 16) y ->
  preserves (Value OpDiv16 t aux [x; y]) (rewriteValuegeneric_OpDiv16 (Value OpDiv16 t aux [x; y])).
Proof.
  rule_by_rule rewriteValuegeneric_OpDiv16.
  - rewritten. by eapply fold_divs.
  - by_nonneg_pow2 16.
  - by_neg 16.
  - by_min 16.
  - by_pow2 16.
  - smagic_const 16 s M HM. rewritten. clear_conditions. eapply (signed_wide 16); [lia|done|exact HM|lia|word|count|count].
Qed.

Lemma Div16u_preserves : operand 16 (Some 16) x -> operand 16 (Some 16) y ->
  preserves (Value OpDiv16u t aux [x; y]) (rewriteValuegeneric_OpDiv16u cfg (Value OpDiv16u t aux [x; y])).
Proof.
  rule_by_rule rewriteValuegeneric_OpDiv16u.
  - rewritten. eapply fold_divu; [lia|done|done].
  - by_unsigned_pow2 16.
  - umagic_const 16 s m Hm. rewritten. clear_conditions. eapply (wide_multiplier 16); [lia|exact Hm|done|lia|lia|word|count].
  - umagic_const 16 s m Hm. repeat need_cond. rewritten. clear_conditions. eapply (wide_half 16); [lia|exact Hm|done|lia|lia|word|count].
  - umagic_const 16 s m Hm. assert (Hev : Z.land (wrap 16 (eval other y)) 1 = 0) by (eapply even_const; [lia|done|done]).
    pose proof (by_rounded_half 16 ltac:(lia) _ s m Hm Hev) as [? _]. rewrite (word64_small (m + 1)) by lia. rewritten. clear_conditions.
    eapply (wide_rounded_half 16); [lia|exact Hm|done|lia|done|word|count|count].
  - umagic_const 16 s m Hm. rewritten. clear_conditions. eapply (wide_average 16); [lia|exact Hm|done|lia|lia|word|count|count].
Qed.

Lemma Div32_preserves : operand 32 (Some 32) x -> operand 32 (Some 32) y ->
  preserves (Value OpDiv32 t aux [x; y]) (rewriteValuegeneric_OpDiv32 cfg (Value OpDiv32 t aux [x; y])).
Proof.
  rule_by_rule rewriteValuegeneric_OpDiv32.
  - rewritten. by eapply fold_divs.
  - by_nonneg_pow2 32.
  - by_neg 32.
  - by_min 32.
  - by_pow2 32.
  - smagic_const 32 s M HM. rewritten. clear_conditions. eapply (signed_wide 32); [lia|done|exact HM|lia|word|count|count].
  - smagic_const 32 s M HM. repeat need_cond. rewritten. clear_conditions.
    eapply (signed_high_half 32); [lia|done|exact HM|lia|word|count|count].
  - smagic_const 32 s M HM. repeat need_cond. rewritten. clear_conditions.
    eapply (signed_high_add 32); [lia|done|exact HM|word|count|count].
Qed.

Lemma Div32u_preserves : operand 32 (Some 32) x -> operand 32 (Some 32) y ->
  preserves (Value OpDiv32u t aux [x; y]) (rewriteValuegeneric_OpDiv32u cfg (Value OpDiv32u t aux [x; y])).
Proof.
  rule_by_rule rewriteValuegeneric_OpDiv32u.
  - rewritten. eapply fold_divu; [lia|done|done].
  - by_unsigned_pow2 32.
  - umagic_const 32 s m Hm. repeat need_cond. rewritten. clear_conditions. eapply (high_half 32); [lia|exact Hm|done|lia|word|count].
  - umagic_const 32 s m Hm. assert (Hev : Z.land (wrap 32 (eval other y)) 1 = 0) by (eapply even_const; [lia|done|done]).
    pose proof (by_rounded_half 32 ltac:(lia) _ s m Hm Hev) as [? _]. rewrite (word64_small (m + 1)) by lia. rewritten. clear_conditions.
    eapply (high_rounded_half 32); [lia|exact Hm|done|done|word|count|count].
  - umagic_const 32 s m Hm. rewritten. clear_conditions. eapply (high_average 32); [lia|exact Hm|done|word|count].
  - umagic_const 32 s m Hm. repeat need_cond. rewritten. clear_conditions. eapply (wide_half 32); [lia|exact Hm|done|lia|lia|word|count].
  - umagic_const 32 s m Hm. assert (Hev : Z.land (wrap 32 (eval other y)) 1 = 0) by (eapply even_const; [lia|done|done]).
    pose proof (by_rounded_half 32 ltac:(lia) _ s m Hm Hev) as [? _]. rewrite (word64_small (m + 1)) by lia. rewritten. clear_conditions.
    eapply (wide_rounded_half 32); [lia|exact Hm|done|lia|done|word|count|count].
  - umagic_const 32 s m Hm. rewritten. clear_conditions. eapply (wide_average 32); [lia|exact Hm|done|lia|lia|word|count|count].
Qed.

Lemma Div64_preserves : operand 64 (Some 64) x -> operand 64 (Some 64) y ->
  preserves (Value OpDiv64 t aux [x; y]) (rewriteValuegeneric_OpDiv64 cfg (Value OpDiv64 t aux [x; y])).
Proof.
  rule_by_rule rewriteValuegeneric_OpDiv64.
  - rewritten. by eapply fold_divs.
  - by_nonneg_pow2 64.
  - rewritten. symmetry. eapply (divs_nonneg_min 64); [lia|done|done|lia].
  - by_neg 64.
  - by_min 64.
  - by_pow2 64.
  - smagic_const 64 s M HM. repeat need_cond. rewritten. clear_conditions.
    eapply (signed_high_half 64); [lia|done|exact HM|lia|word|count|count].
  - smagic_const 64 s M HM. repeat need_cond. rewritten. clear_conditions.
    eapply (signed_high_add 64); [lia|done|exact HM|word|count|count].
Qed.

Lemma Div64u_preserves : operand 64 (Some 64) x -> operand 64 (Some 64) y ->
  preserves (Value OpDiv64u t aux [x; y]) (rewriteValuegeneric_OpDiv64u cfg (Value OpDiv64u t aux [x; y])).
Proof.
  rule_by_rule rewriteValuegeneric_OpDiv64u.
  - rewritten. eapply fold_divu; [lia|done|done].
  - by_unsigned_pow2 64.
  - rewritten. eapply (divu_pow2 64); [count|lia|]. apply wrap_min_const; [lia|]. by subst.
  - by_split.
  - umagic_const 64 s m Hm. repeat need_cond. rewritten. clear_conditions. eapply (high_half 64); [lia|exact Hm|done|lia|word|count].
  - umagic_const 64 s m Hm. assert (Hev : Z.land (wrap 64 (eval other y)) 1 = 0) by (eapply even_const; [lia|done|done]).
    pose proof (by_rounded_half 64 ltac:(lia) _ s m Hm Hev) as [? _]. rewrite (word64_small (m + 1)) by lia. rewritten. clear_conditions.
    eapply (high_rounded_half 64); [lia|exact Hm|done|done|word|count|count].
  - umagic_const 64 s m Hm. rewritten. clear_conditions. eapply (high_average 64); [lia|exact Hm|done|word|count].
Qed.

(** ** Remainders *)

Lemma Mod8_preserves : operand 8 (Some 8) x -> operand 8 (Some 8) y ->
  preserves (Value OpMod8 t aux [x; y]) (rewriteValuegeneric_OpMod8 (Value OpMod8 t aux [x; y])).
Proof.
  rule_by_rule rewriteValuegeneric_OpMod8.
  - by_rem 8.
  - by_mask 8.
  - by_mods_neg 8.
  - by_mods_sub_const 8.
Qed.

Lemma Mod8u_preserves : operand 8 (Some 8) x -> operand 8 (Some 8) y ->
  preserves (Value OpMod8u t aux [x; y]) (rewriteValuegeneric_OpMod8u (Value OpMod8u t aux [x; y])).
Proof.
  rule_by_rule rewriteValuegeneric_OpMod8u.
  - rewritten. eapply fold_modu; [lia|done|done].
  - by_unsigned_mask 8.
  - by_modu_sub_const 8.
Qed.

Lemma Mod16_preserves : operand 16 (Some 16) x -> operand 16 (Some 16) y ->
  preserves (Value OpMod16 t aux [x; y]) (rewriteValuegeneric_OpMod16 (Value OpMod16 t aux [x; y])).
Proof.
  rule_by_rule rewriteValuegeneric_OpMod16.
  - by_rem 16.
  - by_mask 16.
  - by_mods_neg 16.
  - by_mods_sub_const 16.
Qed.

Lemma Mod16u_preserves : operand 16 (Some 16) x -> operand 16 (Some 16) y ->
  preserves (Value OpMod16u t aux [x; y]) (rewriteValuegeneric_OpMod16u (Value OpMod16u t aux [x; y])).
Proof.
  rule_by_rule rewriteValuegeneric_OpMod16u.
  - rewritten. eapply fold_modu; [lia|done|done].
  - by_unsigned_mask 16.
  - by_modu_sub_const 16.
Qed.

Lemma Mod32_preserves : operand 32 (Some 32) x -> operand 32 (Some 32) y ->
  preserves (Value OpMod32 t aux [x; y]) (rewriteValuegeneric_OpMod32 (Value OpMod32 t aux [x; y])).
Proof.
  rule_by_rule rewriteValuegeneric_OpMod32.
  - by_rem 32.
  - by_mask 32.
  - by_mods_neg 32.
  - by_mods_sub_const 32.
Qed.

Lemma Mod32u_preserves : operand 32 (Some 32) x -> operand 32 (Some 32) y ->
  preserves (Value OpMod32u t aux [x; y]) (rewriteValuegeneric_OpMod32u (Value OpMod32u t aux [x; y])).
Proof.
  rule_by_rule rewriteValuegeneric_OpMod32u.
  - rewritten. eapply fold_modu; [lia|done|done].
  - by_unsigned_mask 32.
  - by_modu_sub_const 32.
Qed.

Lemma Mod64_preserves : operand 64 (Some 64) x -> operand 64 (Some 64) y ->
  preserves (Value OpMod64 t aux [x; y]) (rewriteValuegeneric_OpMod64 (Value OpMod64 t aux [x; y])).
Proof.
  rule_by_rule rewriteValuegeneric_OpMod64.
  - by_rem 64.
  - by_mask 64.
  - unfold copyOf. apply preserves_some; [|typed|by cbn]. cbn [eval compute map nth]. symmetry.
    erewrite (mods_nonneg_min 64); [by apply wrap_eval|lia|reflexivity|done|by subst].
  - by_mods_neg 64.
  - by_mods_sub_const 64.
Qed.

Lemma Mod64u_preserves : operand 64 (Some 64) x -> operand 64 (Some 64) y ->
  preserves (Value OpMod64u t aux [x; y]) (rewriteValuegeneric_OpMod64u (Value OpMod64u t aux [x; y])).
Proof.
  rule_by_rule rewriteValuegeneric_OpMod64u.
  - rewritten. eapply fold_modu; [lia|done|done].
  - by_unsigned_mask 64.
  - rewritten. eapply (modu_pow2 64 _ _ _ 63); [lia|lia|apply wrap_min_const; [lia|by subst]|reflexivity].
  - by_modu_sub_const 64.
Qed.
End Operands.

(** ** All of them *)

Lemma binary_preserves o n t aux l f : wt (Value o t aux l) = true -> op_width o = Some n ->
  operand_widths o = [Some n; Some n] ->
  (forall x y, IsInteger t = true -> operand n (Some n) x -> operand n (Some n) y ->
     preserves (Value o t aux [x; y]) (f (Value o t aux [x; y]))) ->
  preserves (Value o t aux l) (f (Value o t aux l)).
Proof.
  intros Hv En Ew Hf. pose proof Hv as (_ & _ & Hs)%wt_value. unfold shape_ok in Hs. rewrite En in Hs.
  apply andb_true_iff in Hs as [Ht _]. destruct (binary_operands o t aux l n _ _ Hv En Ew) as (x & y & -> & Hx & Hy). by apply Hf.
Qed.

Lemma rewriteValuegeneric_preserves v : wt v = true -> preserves v (rewriteValuegeneric cfg v).
Proof.
  destruct v as [o t aux l]. intros Hv. destruct o; try exact I; (eapply binary_preserves; [done|reflexivity|reflexivity|]); intros.
  all: eauto using Div8_preserves, Div8u_preserves, Div16_preserves, Div16u_preserves, Div32_preserves, Div32u_preserves,
    Div64_preserves, Div64u_preserves, Mod8_preserves, Mod8u_preserves, Mod16_preserves, Mod16u_preserves,
    Mod32_preserves, Mod32u_preserves, Mod64_preserves, Mod64u_preserves.
Qed.
End Preservation.

(** C7: a rule for a division or a remainder of a well-typed value gives a
    value that computes the same number, on machines of 32 and of 64 bits and
    with or without instructions for averages and for high halves of products,
    whatever the values of other operations are. *)
Theorem rewriteValuegeneric_computes other `{!Others other} cfg v v' :
  wt v = true -> rewriteValuegeneric cfg v = Ok (Some v') -> eval other v' = eval other v.
Proof. intros Hv E. pose proof (rewriteValuegeneric_preserves other cfg v Hv) as H. rewrite E in H. apply H. Qed.

(** C8: on a well-typed value the rules end without a panic of the compiler,
    and the value that they give, if any, is well typed and as wide. *)
Theorem rewriteValuegeneric_typed cfg v : wt v = true ->
  exists r, rewriteValuegeneric cfg v = Ok r /\ forall v', r = Some v' -> wt v' = true /\ width_of v' = width_of v.
Proof.
  intros Hv. pose proof (rewriteValuegeneric_preserves (fun _ => 0) cfg v Hv) as H.
  destruct (rewriteValuegeneric cfg v) as [r| |]; [|done|done]. exists r. split; [done|]. intros v' ->. apply H.
Qed.

Definition amd64 : Config := MkConfig 8 true true.

(** [x / -7] for an [x] of 32 bits. *)
Definition by_minus_7 : value := Value OpDiv32 Int32 0 [Value (OpOther 1) Int32 0 []; Value OpConst32 Int32 (-7) []].

Lemma rewriteValuegeneric_computes_witness :
  let v' := Value OpNeg32 Int32 0 [Value OpDiv32 Int32 0 [Value (OpOther 1) Int32 0 []; Value OpConst32 Int32 7 []]] in
  wt by_minus_7 = true /\ rewriteValuegeneric amd64 by_minus_7 = Ok (Some v') /\
  eval (fun _ => 0) v' = eval (fun _ => 0) by_minus_7.
Proof.
  cbv zeta. split; [reflexivity|]. split; [reflexivity|].
  apply (rewriteValuegeneric_computes (fun _ => 0) amd64 by_minus_7); reflexivity.
Defined.

Lemma rewriteValuegeneric_typed_witness :
  wt by_minus_7 = true /\
  exists r, rewriteValuegeneric amd64 by_minus_7 = Ok r /\
    forall v', r = Some v' -> wt v' = true /\ width_of v' = width_of by_minus_7.
Proof. split; [reflexivity|]. apply (rewriteValuegeneric_typed amd64 by_minus_7). reflexivity. Defined.
