(* ===== verification/DivisionLiveness.v ===== *)
(** * Divisions by constants are always rewritten

    On a machine of 64 bits with the instructions that the rules ask for, no
    division by a constant other than 0 stays. *)

From S2P Require Import Prelude Bits Magic MagicFacts Ssa Words Quotients SsaFacts Divisions DivisionFacts.

#[local] Open Scope Z_scope.

(** ** Rules that do not match *)

Lemma none_otherwise a b : or_else a b = Ok None -> a = Ok None /\ b = Ok None.
Proof. by destruct a as [[]| |]. Qed.

Lemma none_need b r : guard b r = Ok None -> b = true -> r = Ok None.
Proof. by destruct b. Qed.

(** ** The kinds of constants *)

Lemma signed_kinds n k : 0 < n <= 64 -> - 2 ^ (n - 1) <= k < 2 ^ (n - 1) -> k <> 0 ->
  ((k <? 0) = true /\ negb (k =? - 2 ^ (n - 1)) = true) \/ (k =? - 2 ^ (n - 1)) = true \/
  isPowerOfTwo k = true \/ smagicOK n k = true.
Proof.
  intros Hn Hk H0. unfold isPowerOfTwo, smagicOK. destruct (k <? 0) eqn:E; [destruct (k =? - 2 ^ (n - 1)); auto|].
  pose proof (Z.pow_le_mono_r 2 (n - 1) 63). right. right. replace (s64 (k - 1)) with (k - 1) by (symmetry; apply s64_small; lia).
  replace (0 <? k) with true by lia. cbn [andb]. destruct (Z.land k (k - 1) =? 0); auto.
Qed.

Lemma unsigned_kinds n k : 0 < n <= 64 -> - 2 ^ (n - 1) <= k < 2 ^ (n - 1) -> k <> 0 ->
  (k =? - 2 ^ (n - 1)) = true \/ isPowerOfTwo k = true \/ negb (Z.land k (sgn n (k - 1)) =? 0) = true.
Proof.
  intros Hn Hk H0. unfold isPowerOfTwo. destruct (0 <? k) eqn:E; cbn [andb].
  - right. rewrite (sgn_small n) by lia. destruct (Z.land k (k - 1) =? 0); auto.
  - destruct (k =? - 2 ^ (n - 1)) eqn:E2; [auto|]. right. right. rewrite (sgn_small n) by lia.
    apply negb_true_iff, Z.eqb_neq. assert (Z.land k (k - 1) < 0); [|lia]. apply Z.land_neg. lia.
Qed.

(** The width of a division, and whether it is signed. *)
Definition divisor (o : Op) : option (Z * bool) :=
  match o with
  | OpDiv8 => Some (8, true) | OpDiv8u => Some (8, false)
  | OpDiv16 => Some (16, true) | OpDiv16u => Some (16, false)
  | OpDiv32 => Some (32, true) | OpDiv32u => Some (32, false)
  | OpDiv64 => Some (64, true) | OpDiv64u => Some (64, false)
  | _ => None
  end.

Section Machine.
Context (cfg : Config) (HR : (RegSize cfg =? 8) = true) (HA : useAvg cfg = true) (HH : useHmul cfg = true).
Context (t tc : type) (aux c : Z) (x : value).

Ltac fire :=
  repeat match goal with
  | H : guard _ _ = Ok None |- _ => apply none_need in H; [|first [reflexivity|assumption|apply negb_true_iff; assumption]]
  end; discriminate.

Ltac unsigned n k :=
  intros Hk; destruct (unsigned_kinds n k) as [?|[?|Hok]]; [lia|exact Hk|assumption|first [fire|exfalso; lia]|fire|];
  destruct (umagic_multiplier n k) as (s & m & E & _); [done|apply umagicOK_signed; [done|exact Hk|exact Hok]|];
  unfold umagic8, umagic16, umagic32, umagic64 in *; rewrite E in *; cbn [with_ um_s um_m] in *.

(** Suppose that no rule matches, for the constant [k]. *)
Ltac suppose f n :=
  unfold f; cbv zeta; cbn [arg Args nth typ op AuxInt];
  unfold auxIntToInt8, auxIntToInt16, auxIntToInt32, auxIntToInt64;
  intros Hk0 Hnone; repeat match goal with H : or_else _ _ = Ok None |- _ => apply none_otherwise in H as [? ?] end.

Ltac signed n k :=
  intros Hk; destruct (signed_kinds n k) as [[? ?]|[?|[?|Hok]]]; [lia|exact Hk|assumption|fire|fire|fire|];
  destruct (smagic_multiplier n k) as (s & M & E & _); [done|done|exact Hk|];
  unfold smagic8, smagic16, smagic32, smagic64 in *; rewrite E in *; cbn [with_ sm_s sm_m] in *.

Lemma Div8_rewritten : sgn 8 c <> 0 ->
  rewriteValuegeneric_OpDiv8 (Value OpDiv8 t aux [x; Value OpConst8 tc c []]) <> Ok None.
Proof.
  suppose rewriteValuegeneric_OpDiv8 8. pose proof (sgn_bounds 8 ltac:(lia) c) as Hk. revert Hk. signed 8 (s8 c).
  fire.
Qed.

Lemma Div8u_rewritten : sgn 8 c <> 0 -> sgn 8 c <> - 2 ^ 7 ->
  rewriteValuegeneric_OpDiv8u (Value OpDiv8u t aux [x; Value OpConst8 tc c []]) <> Ok None.
Proof.
  intros H0 Hmin. change (s8 c <> - 2 ^ 7) in Hmin. revert H0. suppose rewriteValuegeneric_OpDiv8u 8. pose proof (sgn_bounds 8 ltac:(lia) c) as Hk. revert Hk. unsigned 8 (s8 c). fire.
Qed.

Lemma Div16_rewritten : sgn 16 c <> 0 ->
  rewriteValuegeneric_OpDiv16 (Value OpDiv16 t aux [x; Value OpConst16 tc c []]) <> Ok None.
Proof.
  suppose rewriteValuegeneric_OpDiv16 16. pose proof (sgn_bounds 16 ltac:(lia) c) as Hk. revert Hk. signed 16 (s16 c).
  fire.
Qed.

Lemma Div16u_rewritten : sgn 16 c <> 0 -> sgn 16 c <> - 2 ^ 15 ->
  rewriteValuegeneric_OpDiv16u cfg (Value OpDiv16u t aux [x; Value OpConst16 tc c []]) <> Ok None.
Proof.
  intros H0 Hmin. change (s16 c <> - 2 ^ 15) in Hmin. revert H0. suppose rewriteValuegeneric_OpDiv16u 16. pose proof (sgn_bounds 16 ltac:(lia) c) as Hk. revert Hk. unsigned 16 (s16 c). fire.
Qed.

Lemma Div32_rewritten : sgn 32 c <> 0 ->
  rewriteValuegeneric_OpDiv32 cfg (Value OpDiv32 t aux [x; Value OpConst32 tc c []]) <> Ok None.
Proof.
  suppose rewriteValuegeneric_OpDiv32 32. pose proof (sgn_bounds 32 ltac:(lia) c) as Hk. revert Hk. signed 32 (s32 c).
  fire.
Qed.

Lemma Div32u_rewritten : sgn 32 c <> 0 -> sgn 32 c <> - 2 ^ 31 ->
  rewriteValuegeneric_OpDiv32u cfg (Value OpDiv32u t aux [x; Value OpConst32 tc c []]) <> Ok None.
Proof.
  intros H0 Hmin. change (s32 c <> - 2 ^ 31) in Hmin. revert H0. suppose rewriteValuegeneric_OpDiv32u 32. pose proof (sgn_bounds 32 ltac:(lia) c) as Hk. revert Hk. unsigned 32 (s32 c). fire.
Qed.

Lemma Div64_rewritten : c <> 0 -> - 2 ^ 63 <= c < 2 ^ 63 ->
  rewriteValuegeneric_OpDiv64 cfg (Value OpDiv64 t aux [x; Value OpConst64 tc c []]) <> Ok None.
Proof.
  intros H0 Hk. revert H0. suppose rewriteValuegeneric_OpDiv64 64. revert Hk. signed 64 (c).
  destruct (Z.land M 1 =? 0) eqn:?; fire.
Qed.

Lemma Div64u_rewritten : c <> 0 -> - 2 ^ 63 <= c < 2 ^ 63 ->
  rewriteValuegeneric_OpDiv64u cfg (Value OpDiv64u t aux [x; Value OpConst64 tc c []]) <> Ok None.
Proof.
  intros H0 Hk. revert H0. suppose rewriteValuegeneric_OpDiv64u 64. revert Hk. unsigned 64 (c). fire.
Qed.

End Machine.

(** C17: on a machine of 64 bits with instructions for averages and high halves
    of products, a well-typed division by a constant that is not 0 matches a
    rule; the unsigned divisions of 8, 16 and 32 bits by the power of 2 that
    has only the top bit are the exception. *)
Theorem division_rewritten cfg o n signed t aux x tc c :
  divisor o = Some (n, signed) -> RegSize cfg = 8 -> useAvg cfg = true -> useHmul cfg = true ->
  wt (Value o t aux [x; Value (const_op n) tc c []]) = true ->
  sgn n c <> 0 -> signed = true \/ n = 64 \/ sgn n c <> - 2 ^ (n - 1) ->
  exists v', rewriteValuegeneric cfg (Value o t aux [x; Value (const_op n) tc c []]) = Ok (Some v').
Proof.
  intros Ho HR%Z.eqb_eq HA HH Hv Hc Htop. pose proof (rewriteValuegeneric_preserves (fun _ => 0) cfg _ Hv) as Hp.
  destruct (rewriteValuegeneric cfg _) as [[v'|]| |] eqn:E; [by exists v'| |done|done].
  exfalso. clear Hp. pose proof Hv as (_ & Hl & _)%wt_value. cbn in Hl. rewrite !andb_true_r in Hl. apply andb_true_iff in Hl as [_ Hc64].
  apply andb_true_iff in Hc64 as [Hc64 _]. apply in_int64_range in Hc64. revert E.
  destruct o; try done; injection Ho as <- <-; cbn [rewriteValuegeneric op const_op Z.eqb Pos.eqb]; intros E.
  all: try rewrite (sgn_small 64) in Hc by (try exact Hc64; lia).
  1: eapply Div8_rewritten; eassumption.
  all: try (destruct Htop as [?|[?|?]]; [done|done|]).
  1: eapply Div8u_rewritten; eassumption.
  1: eapply Div16_rewritten; eassumption.
  1: eapply Div16u_rewritten; eassumption.
  1: eapply Div32_rewritten; eassumption.
  1: eapply Div32u_rewritten; eassumption.
  1: eapply Div64_rewritten; eassumption.
  eapply Div64u_rewritten; eassumption.
Qed.

Lemma division_rewritten_witness :
  let v := Value OpDiv16u UInt16 0 [Value (OpOther 1) UInt16 0 []; Value OpConst16 UInt16 1000 []] in
  divisor OpDiv16u = Some (16, false) /\ RegSize amd64 = 8 /\ useAvg amd64 = true /\ useHmul amd64 = true /\
  wt v = true /\ sgn 16 1000 <> 0 /\ (false = true \/ 16 = 64 \/ sgn 16 1000 <> - 2 ^ (16 - 1)) /\
  exists v', rewriteValuegeneric amd64 v = Ok (Some v').
Proof.
  cbv zeta. do 4 (split; [reflexivity|]). split; [reflexivity|]. split; [discriminate|].
  assert (H : false = true \/ 16 = 64 \/ sgn 16 1000 <> - 2 ^ (16 - 1)) by (right; right; discriminate).
  split; [exact H|].
  apply (division_rewritten amd64 OpDiv16u 16 false); [reflexivity|reflexivity|reflexivity|reflexivity|reflexivity|discriminate|exact H].
Defined.

(** No rule takes an unsigned division of 8 bits by 128. *)
Example Div8u_by_128 : rewriteValuegeneric amd64
  (Value OpDiv8u UInt8 0 [Value (OpOther 1) UInt8 0 []; Value OpConst8 UInt8 (-128) []]) = Ok None.
Proof. vm_compute. reflexivity. Qed.
