(* ===== verification/BitOps.v ===== *)
(** * src/src/math/bits: counting, rotating and reversing bits

    The other functions of bits.go on words of 8, 16, 32 and 64 bits and on
    [uint], by table, by masks and by shifts. *)

From S2P Require Import Prelude Bits.

#[local] Open Scope Z_scope.

Definition ntz8tab : list Z :=
  [8; 0; 1; 0; 2; 0; 1; 0; 3; 0; 1; 0; 2; 0; 1; 0; 4; 0; 1; 0; 2; 0; 1; 0; 3; 0; 1; 0; 2; 0; 1; 0;
   5; 0; 1; 0; 2; 0; 1; 0; 3; 0; 1; 0; 2; 0; 1; 0; 4; 0; 1; 0; 2; 0; 1; 0; 3; 0; 1; 0; 2; 0; 1; 0;
   6; 0; 1; 0; 2; 0; 1; 0; 3; 0; 1; 0; 2; 0; 1; 0; 4; 0; 1; 0; 2; 0; 1; 0; 3; 0; 1; 0; 2; 0; 1; 0;
   5; 0; 1; 0; 2; 0; 1; 0; 3; 0; 1; 0; 2; 0; 1; 0; 4; 0; 1; 0; 2; 0; 1; 0; 3; 0; 1; 0; 2; 0; 1; 0;
   7; 0; 1; 0; 2; 0; 1; 0; 3; 0; 1; 0; 2; 0; 1; 0; 4; 0; 1; 0; 2; 0; 1; 0; 3; 0; 1; 0; 2; 0; 1; 0;
   5; 0; 1; 0; 2; 0; 1; 0; 3; 0; 1; 0; 2; 0; 1; 0; 4; 0; 1; 0; 2; 0; 1; 0; 3; 0; 1; 0; 2; 0; 1; 0;
   6; 0; 1; 0; 2; 0; 1; 0; 3; 0; 1; 0; 2; 0; 1; 0; 4; 0; 1; 0; 2; 0; 1; 0; 3; 0; 1; 0; 2; 0; 1; 0;
   5; 0; 1; 0; 2; 0; 1; 0; 3; 0; 1; 0; 2; 0; 1; 0; 4; 0; 1; 0; 2; 0; 1; 0; 3; 0; 1; 0; 2; 0; 1; 0].

Definition pop8tab : list Z :=
  [0; 1; 1; 2; 1; 2; 2; 3; 1; 2; 2; 3; 2; 3; 3; 4; 1; 2; 2; 3; 2; 3; 3; 4; 2; 3; 3; 4; 3; 4; 4; 5;
   1; 2; 2; 3; 2; 3; 3; 4; 2; 3; 3; 4; 3; 4; 4; 5; 2; 3; 3; 4; 3; 4; 4; 5; 3; 4; 4; 5; 4; 5; 5; 6;
   1; 2; 2; 3; 2; 3; 3; 4; 2; 3; 3; 4; 3; 4; 4; 5; 2; 3; 3; 4; 3; 4; 4; 5; 3; 4; 4; 5; 4; 5; 5; 6;
   2; 3; 3; 4; 3; 4; 4; 5; 3; 4; 4; 5; 4; 5; 5; 6; 3; 4; 4; 5; 4; 5; 5; 6; 4; 5; 5; 6; 5; 6; 6; 7;
   1; 2; 2; 3; 2; 3; 3; 4; 2; 3; 3; 4; 3; 4; 4; 5; 2; 3; 3; 4; 3; 4; 4; 5; 3; 4; 4; 5; 4; 5; 5; 6;
   2; 3; 3; 4; 3; 4; 4; 5; 3; 4; 4; 5; 4; 5; 5; 6; 3; 4; 4; 5; 4; 5; 5; 6; 4; 5; 5; 6; 5; 6; 6; 7;
   2; 3; 3; 4; 3; 4; 4; 5; 3; 4; 4; 5; 4; 5; 5; 6; 3; 4; 4; 5; 4; 5; 5; 6; 4; 5; 5; 6; 5; 6; 6; 7;
   3; 4; 4; 5; 4; 5; 5; 6; 4; 5; 5; 6; 5; 6; 6; 7; 4; 5; 5; 6; 5; 6; 6; 7; 5; 6; 6; 7; 6; 7; 7; 8].

Definition rev8tab : list Z :=
  [0; 128; 64; 192; 32; 160; 96; 224; 16; 144; 80; 208; 48; 176; 112; 240; 8; 136; 72; 200; 40; 168; 104; 232; 24; 152; 88; 216; 56; 184; 120; 248;
   4; 132; 68; 196; 36; 164; 100; 228; 20; 148; 84; 212; 52; 180; 116; 244; 12; 140; 76; 204; 44; 172; 108; 236; 28; 156; 92; 220; 60; 188; 124; 252;
   2; 130; 66; 194; 34; 162; 98; 226; 18; 146; 82; 210; 50; 178; 114; 242; 10; 138; 74; 202; 42; 170; 106; 234; 26; 154; 90; 218; 58; 186; 122; 250;
   6; 134; 70; 198; 38; 166; 102; 230; 22; 150; 86; 214; 54; 182; 118; 246; 14; 142; 78; 206; 46; 174; 110; 238; 30; 158; 94; 222; 62; 190; 126; 254;
   1; 129; 65; 193; 33; 161; 97; 225; 17; 145; 81; 209; 49; 177; 113; 241; 9; 137; 73; 201; 41; 169; 105; 233; 25; 153; 89; 217; 57; 185; 121; 249;
   5; 133; 69; 197; 37; 165; 101; 229; 21; 149; 85; 213; 53; 181; 117; 245; 13; 141; 77; 205; 45; 173; 109; 237; 29; 157; 93; 221; 61; 189; 125; 253;
   3; 131; 67; 195; 35; 163; 99; 227; 19; 147; 83; 211; 51; 179; 115; 243; 11; 139; 75; 203; 43; 171; 107; 235; 27; 155; 91; 219; 59; 187; 123; 251;
   7; 135; 71; 199; 39; 167; 103; 231; 23; 151; 87; 215; 55; 183; 119; 247; 15; 143; 79; 207; 47; 175; 111; 239; 31; 159; 95; 223; 63; 191; 127; 255].

(** ** Trailing zeros *)

Definition TrailingZeros8 (x : Z) : Z := nthZ 0 ntz8tab x.

Definition TrailingZeros16 (x : Z) : Z :=
  if x =? 0 then 16
  else nthZ 0 deBruijn32tab (Z.shiftr (u32 (Z.land x (u16 (- x)) * deBruijn32)) (32 - 5)).

(** ** Bits that are set *)

Definition m0 : Z := 0x5555555555555555.
Definition m1 : Z := 0x3333333333333333.
Definition m2 : Z := 0x0f0f0f0f0f0f0f0f.
Definition m3 : Z := 0x00ff00ff00ff00ff.
Definition m4 : Z := 0x0000ffff0000ffff.

Definition OnesCount8 (x : Z) : Z := nthZ 0 pop8tab x.

Definition OnesCount16 (x : Z) : Z :=
  u8 (nthZ 0 pop8tab (Z.shiftr x 8) + nthZ 0 pop8tab (Z.land x 0xff)).

Definition OnesCount32 (x : Z) : Z :=
  u8 (u8 (u8 (nthZ 0 pop8tab (Z.shiftr x 24) + nthZ 0 pop8tab (Z.land (Z.shiftr x 16) 0xff))
        + nthZ 0 pop8tab (Z.land (Z.shiftr x 8) 0xff)) + nthZ 0 pop8tab (Z.land x 0xff)).

Definition OnesCount64 (x : Z) : Z :=
  let m := Z.shiftl 1 64 - 1 in
  let x := u64 (Z.land (Z.shiftr x 1) (Z.land m0 m) + Z.land x (Z.land m0 m)) in
  let x := u64 (Z.land (Z.shiftr x 2) (Z.land m1 m) + Z.land x (Z.land m1 m)) in
  let x := Z.land (u64 (Z.shiftr x 4 + x)) (Z.land m2 m) in
  let x := u64 (x + Z.shiftr x 8) in
  let x := u64 (x + Z.shiftr x 16) in
  let x := u64 (x + Z.shiftr x 32) in
  Z.land x (Z.shiftl 1 7 - 1).

(** ** Reversed order *)

Definition ReverseBytes16 (x : Z) : Z := Z.lor (Z.shiftr x 8) (u16 (Z.shiftl x 8)).

Definition ReverseBytes32 (x : Z) : Z :=
  let m := Z.shiftl 1 32 - 1 in
  let x := Z.lor (Z.land (Z.shiftr x 8) (Z.land m3 m)) (u32 (Z.shiftl (Z.land x (Z.land m3 m)) 8)) in
  Z.lor (Z.shiftr x 16) (u32 (Z.shiftl x 16)).

Definition ReverseBytes64 (x : Z) : Z :=
  let m := Z.shiftl 1 64 - 1 in
  let x := Z.lor (Z.land (Z.shiftr x 8) (Z.land m3 m)) (u64 (Z.shiftl (Z.land x (Z.land m3 m)) 8)) in
  let x := Z.lor (Z.land (Z.shiftr x 16) (Z.land m4 m)) (u64 (Z.shiftl (Z.land x (Z.land m4 m)) 16)) in
  Z.lor (Z.shiftr x 32) (u64 (Z.shiftl x 32)).

Definition Reverse8 (x : Z) : Z := nthZ 0 rev8tab x.

Definition Reverse16 (x : Z) : Z :=
  Z.lor (nthZ 0 rev8tab (Z.shiftr x 8)) (u16 (Z.shiftl (nthZ 0 rev8tab (Z.land x 0xff)) 8)).

Definition Reverse32 (x : Z) : Z :=
  let m := Z.shiftl 1 32 - 1 in
  let x := Z.lor (Z.land (Z.shiftr x 1) (Z.land m0 m)) (u32 (Z.shiftl (Z.land x (Z.land m0 m)) 1)) in
  let x := Z.lor (Z.land (Z.shiftr x 2) (Z.land m1 m)) (u32 (Z.shiftl (Z.land x (Z.land m1 m)) 2)) in
  let x := Z.lor (Z.land (Z.shiftr x 4) (Z.land m2 m)) (u32 (Z.shiftl (Z.land x (Z.land m2 m)) 4)) in
  ReverseBytes32 x.

Definition Reverse64 (x : Z) : Z :=
  let m := Z.shiftl 1 64 - 1 in
  let x := Z.lor (Z.land (Z.shiftr x 1) (Z.land m0 m)) (u64 (Z.shiftl (Z.land x (Z.land m0 m)) 1)) in
  let x := Z.lor (Z.land (Z.shiftr x 2) (Z.land m1 m)) (u64 (Z.shiftl (Z.land x (Z.land m1 m)) 2)) in
  let x := Z.lor (Z.land (Z.shiftr x 4) (Z.land m2 m)) (u64 (Z.shiftl (Z.land x (Z.land m2 m)) 4)) in
  ReverseBytes64 x.

(** ** The machine's word

    [UintSize] is 32 or 64; it is the width of [uint] and [int]. *)

Section Uint.
Context (UintSize : Z).

Definition uint (k : Z) : Z := k mod 2 ^ UintSize.

Definition RotateLeft8 (x k : Z) : Z :=
  let n := 8 in
  let s := Z.land (uint k) (n - 1) in
  Z.lor (u8 (Z.shiftl x s)) (Z.shiftr x (n - s)).

Definition RotateLeft16 (x k : Z) : Z :=
  let n := 16 in
  let s := Z.land (uint k) (n - 1) in
  Z.lor (u16 (Z.shiftl x s)) (Z.shiftr x (n - s)).

Definition RotateLeft32 (x k : Z) : Z :=
  let n := 32 in
  let s := Z.land (uint k) (n - 1) in
  Z.lor (u32 (Z.shiftl x s)) (Z.shiftr x (n - s)).

Definition RotateLeft64 (x k : Z) : Z :=
  let n := 64 in
  let s := Z.land (uint k) (n - 1) in
  Z.lor (u64 (Z.shiftl x s)) (Z.shiftr x (n - s)).

Definition RotateLeft (x k : Z) : Z :=
  if UintSize =? 32 then RotateLeft32 (u32 x) k else RotateLeft64 x k.
Definition Len (x : Z) : Z := if UintSize =? 32 then Len32 (u32 x) else Len64 x.
Definition LeadingZeros (x : Z) : Z := UintSize - Len x.
Definition TrailingZeros (x : Z) : Z :=
  if UintSize =? 32 then TrailingZeros32 (u32 x) else TrailingZeros64 x.
Definition OnesCount (x : Z) : Z :=
  if UintSize =? 32 then OnesCount32 (u32 x) else OnesCount64 x.
Definition Reverse (x : Z) : Z :=
  if UintSize =? 32 then Reverse32 (u32 x) else Reverse64 x.
Definition ReverseBytes (x : Z) : Z :=
  if UintSize =? 32 then ReverseBytes32 (u32 x) else ReverseBytes64 x.
End Uint.

Module BitOpsExamples.
Example ones_all : OnesCount64 (2 ^ 64 - 1) = 64. Proof. vm_compute. reflexivity. Qed.
Example ones_some : OnesCount32 0xf0a1 = 7. Proof. vm_compute. reflexivity. Qed.
Example rotate_back : RotateLeft64 64 1 (-1) = 2 ^ 63. Proof. vm_compute. reflexivity. Qed.
Example reverse_one : Reverse64 1 = 2 ^ 63. Proof. vm_compute. reflexivity. Qed.
Example bytes_reversed : ReverseBytes32 0x01020304 = 0x04030201. Proof. vm_compute. reflexivity. Qed.
Example zeros_8 : TrailingZeros8 0 = 8. Proof. vm_compute. reflexivity. Qed.
End BitOpsExamples.
