(* ===== verification/BitOpsFacts.v ===== *)
(** * What counting, rotating and reversing bits compute *)

From S2P Require Import Prelude Bits BitOps.

#[local] Open Scope Z_scope.

(** ** Words as their bits *)

Lemma word_bits_eq n x y : 0 <= n -> 0 <= x < 2 ^ n -> 0 <= y < 2 ^ n ->
  (forall i, 0 <= i < n -> Z.testbit x i = Z.testbit y i) -> x = y.
Proof.
  intros Hn Hx Hy Hb. rewrite <- (Z.mod_small x (2 ^ n)), <- (Z.mod_small y (2 ^ n)) by done. apply Z.bits_inj'. intros i Hi.
  destruct (Z.lt_ge_cases i n); [rewrite !Z.mod_pow2_bits_low by lia; apply Hb; lia|by rewrite !Z.mod_pow2_bits_high by lia].
Qed.

Lemma testbit_above n x i : 0 <= x < 2 ^ n -> 0 <= n <= i -> Z.testbit x i = false.
Proof. intros Hx Hi. rewrite <- (Z.mod_small x (2 ^ n)) by done. apply Z.mod_pow2_bits_high. lia. Qed.

Lemma testbit_word n x i : 0 <= i < n -> Z.testbit (x mod 2 ^ n) i = Z.testbit x i.
Proof. intros Hi. apply Z.mod_pow2_bits_low. lia. Qed.

Lemma lor_word n x y : 0 <= n -> 0 <= x < 2 ^ n -> 0 <= y < 2 ^ n -> 0 <= Z.lor x y < 2 ^ n.
Proof.
  intros Hn Hx Hy. assert (E : Z.lor x y mod 2 ^ n = Z.lor x y); [|rewrite <- E; apply Z.mod_pos_bound; lia].
  apply Z.bits_inj'. intros i Hi. destruct (Z.lt_ge_cases i n); [by apply Z.mod_pow2_bits_low|].
  by rewrite Z.mod_pow2_bits_high, Z.lor_spec, !(testbit_above n) by lia.
Qed.

Lemma land_word n x y : 0 <= n -> 0 <= x -> 0 <= y < 2 ^ n -> 0 <= Z.land x y < 2 ^ n.
Proof.
  intros Hn Hx Hy. rewrite <- (Z.mod_small y (2 ^ n)), <- Z.land_ones, Z.land_assoc, Z.land_ones by lia.
  apply Z.mod_pos_bound. lia.
Qed.

Lemma shiftr_word n x s : 0 <= n -> 0 <= s -> 0 <= x < 2 ^ n -> 0 <= Z.shiftr x s < 2 ^ n.
Proof.
  intros Hn Hs Hx. rewrite Z.shiftr_div_pow2 by done. assert (1 <= 2 ^ s) by (pose proof (Z.pow_pos_nonneg 2 s); lia).
  split; [apply Z.div_pos; lia|apply Z.div_lt_upper_bound; nia].
Qed.

(** ** Rotations *)

Definition rotl (n x s : Z) : Z := Z.lor (Z.shiftl x s mod 2 ^ n) (Z.shiftr x (n - s)).

Lemma rotl_word n x s : 0 <= s < n -> 0 <= x < 2 ^ n -> 0 <= rotl n x s < 2 ^ n.
Proof. intros Hs Hx. apply lor_word; [lia|apply Z.mod_pos_bound; lia|apply shiftr_word; lia]. Qed.

Lemma rotl_bits n x s i : 0 <= s < n -> 0 <= x < 2 ^ n -> 0 <= i < n ->
  Z.testbit (rotl n x s) i = Z.testbit x ((i - s) mod n).
Proof.
  intros Hs Hx Hi. unfold rotl. rewrite Z.lor_spec, testbit_word, Z.shiftl_spec, Z.shiftr_spec by lia.
  destruct (Z.lt_ge_cases i s).
  - rewrite Z.testbit_neg_r by lia. cbn [orb]. f_equal. rewrite <- (Z_mod_plus_full (i - s) 1), Z.mod_small; lia.
  - rewrite (testbit_above n x (i + (n - s))) by lia. rewrite orb_false_r. by rewrite Z.mod_small by lia.
Qed.

Lemma rotl_rotl n x s t : 0 <= s < n -> 0 <= t < n -> 0 <= x < 2 ^ n -> rotl n (rotl n x s) t = rotl n x ((s + t) mod n).
Proof.
  intros Hs Ht Hx. pose proof (Z.mod_pos_bound (s + t) n ltac:(lia)). apply (word_bits_eq n); [lia|by apply rotl_word; [|apply rotl_word]|by apply rotl_word|].
  intros i Hi. pose proof (Z.mod_pos_bound (i - t) n ltac:(lia)). rewrite !rotl_bits by (done || by apply rotl_word). f_equal.
  rewrite Zminus_mod_idemp_l, Zminus_mod_idemp_r. f_equal. lia.
Qed.

Lemma rotl_0 n x : 0 < n -> 0 <= x < 2 ^ n -> rotl n x 0 = x.
Proof.
  intros Hn Hx. apply (word_bits_eq n); [lia|apply rotl_word; lia|done|]. intros i Hi.
  rewrite rotl_bits by lia. by rewrite Z.sub_0_r, Z.mod_small by done.
Qed.

Section Rotations.
Context (UintSize : Z) (HU : UintSize = 32 \/ UintSize = 64).

(** The distance of a rotation in a word of [2 ^ j] bits. *)
Lemma distance j k : 0 <= j <= 5 \/ j = 6 -> Z.land (uint UintSize k) (2 ^ j - 1) = k mod 2 ^ j.
Proof.
  intros Hj. replace (2 ^ j - 1) with (Z.ones j) by (rewrite Z.ones_equiv; lia). rewrite Z.land_ones by lia. unfold uint.
  apply Z.bits_inj'. intros i Hi. destruct (Z.lt_ge_cases i j); [|by rewrite !Z.mod_pow2_bits_high by lia].
  rewrite !Z.mod_pow2_bits_low; [done|lia..].
Qed.

Lemma RotateLeft8_rotl x k : RotateLeft8 UintSize x k = rotl 8 x (k mod 8).
Proof. unfold RotateLeft8. cbv zeta. by rewrite (distance 3) by lia. Qed.

Lemma RotateLeft16_rotl x k : RotateLeft16 UintSize x k = rotl 16 x (k mod 16).
Proof. unfold RotateLeft16. cbv zeta. by rewrite (distance 4) by lia. Qed.

Lemma RotateLeft32_rotl x k : RotateLeft32 UintSize x k = rotl 32 x (k mod 32).
Proof. unfold RotateLeft32. cbv zeta. by rewrite (distance 5) by lia. Qed.

Lemma RotateLeft64_rotl x k : RotateLeft64 UintSize x k = rotl 64 x (k mod 64).
Proof. unfold RotateLeft64. cbv zeta. by rewrite (distance 6) by lia. Qed.

Lemma RotateLeft_rotl x k : 0 <= x < 2 ^ UintSize -> RotateLeft UintSize x k = rotl UintSize x (k mod UintSize).
Proof.
  intros Hx. unfold RotateLeft. destruct (UintSize =? 32) eqn:E.
  - assert (E' : UintSize = 32) by lia. rewrite E' in Hx. rewrite RotateLeft32_rotl. unfold u32.
    rewrite Z.mod_small by done. by rewrite E'.
  - assert (E' : UintSize = 64) by lia. rewrite RotateLeft64_rotl. by rewrite E'.
Qed.

End Rotations.

(** Rotating back. *)
Lemma rotl_back n x k : 0 < n -> 0 <= x < 2 ^ n -> rotl n (rotl n x (k mod n)) (- k mod n) = x.
Proof.
  intros Hn Hx. rewrite rotl_rotl by (done || apply Z.mod_pos_bound; lia). rewrite <- Zplus_mod, Z.add_opp_diag_r, Z.mod_0_l by lia.
  by apply rotl_0.
Qed.

(** Rotating a word by [k] and then by [- k], for any [k], gives the word
    back; the bit at [i] comes from [i - k], modulo the width. *)
Theorem RotateLeft_back UintSize x k : UintSize = 32 \/ UintSize = 64 -> 0 <= x < 2 ^ UintSize ->
  RotateLeft UintSize (RotateLeft UintSize x k) (- k) = x /\
  forall i, 0 <= i < UintSize -> Z.testbit (RotateLeft UintSize x k) i = Z.testbit x ((i - k) mod UintSize).
Proof.
  intros HU Hx. pose proof (Z.mod_pos_bound k UintSize ltac:(lia)) as Hk. rewrite (RotateLeft_rotl _ HU x) by done.
  rewrite (RotateLeft_rotl _ HU) by (apply rotl_word; done). split; [apply rotl_back; lia||done|].
  intros i Hi. rewrite rotl_bits by done. by rewrite Zminus_mod_idemp_r.
Qed.

(** ** Reversed order *)

(** Every bit changes places with the one at distance [s]: the code swaps the
    groups of [s] bits of a mask [m] with their neighbours. *)
Definition swap (n m s x : Z) : Z :=
  Z.lor (Z.land (Z.shiftr x s) m) (Z.shiftl (Z.land x m) s mod 2 ^ n).

Definition swap_ok (n m s : Z) : bool :=
  (0 <=? s) && (0 <=? m) && (m <? 2 ^ n) &&
  forallb (fun i => (0 <=? Z.lxor i s) && (Z.lxor i s <? n) &&
      if Z.testbit m i then negb (Z.testbit m (i - s)) && (Z.lxor i s =? i + s)
      else Z.testbit m (i - s) && (Z.lxor i s =? i - s))
    (map Z.of_nat (seq 0 (Z.to_nat n))).

Lemma swap_word n m s x : swap_ok n m s = true -> 0 <= n -> 0 <= x < 2 ^ n -> 0 <= swap n m s x < 2 ^ n.
Proof.
  unfold swap_ok. intros [Hm _]%andb_true_iff Hn Hx. apply lor_word; [done| |apply Z.mod_pos_bound; lia].
  apply land_word; [done| |lia]. apply Z.shiftr_nonneg. lia.
Qed.

Lemma swap_bits n m s x i : swap_ok n m s = true -> 0 <= i < n ->
  0 <= Z.lxor i s < n /\ Z.testbit (swap n m s x) i = Z.testbit x (Z.lxor i s).
Proof.
  unfold swap_ok. intros [Hm Hall]%andb_true_iff Hi. assert (Hs : 0 <= s) by lia. clear Hm.
  pose proof (forallb_below _ _ i Hall ltac:(lia)) as H. clear Hall. cbn beta in H. apply andb_true_iff in H as [Hr H].
  split; [lia|]. clear Hr. unfold swap.
  rewrite Z.lor_spec, Z.land_spec, testbit_word, Z.shiftl_spec, Z.land_spec, Z.shiftr_spec by lia.
  destruct (Z.testbit m i); apply andb_true_iff in H as [Ht E]; apply Z.eqb_eq in E; rewrite E.
  - apply negb_true_iff in Ht. by rewrite Ht, andb_false_r, andb_true_r, orb_false_r.
  - by rewrite Ht, andb_false_r, andb_true_r.
Qed.

(** The halves change places without a mask. *)
Lemma swap_halves n h x : 0 <= h -> n = 2 * h -> 0 <= x < 2 ^ n ->
  Z.lor (Z.shiftr x h) (Z.shiftl x h mod 2 ^ n) = swap n (Z.ones h) h x.
Proof.
  intros Hh -> Hx. unfold swap. rewrite !Z.land_ones by done. f_equal.
  - symmetry. apply Z.mod_small. rewrite Z.shiftr_div_pow2 by done. replace (2 * h) with (h + h) in Hx by lia.
    rewrite Z.pow_add_r in Hx by done. pose proof (Z.pow_pos_nonneg 2 h ltac:(lia) Hh).
    split; [apply Z.div_pos; lia|apply Z.div_lt_upper_bound; lia].
  - apply Z.bits_inj'. intros i Hi. destruct (Z.lt_ge_cases i (2 * h)); [|by rewrite !Z.mod_pow2_bits_high by lia].
    rewrite !testbit_word, !Z.shiftl_spec by lia.
    destruct (Z.lt_ge_cases i h); [by rewrite !Z.testbit_neg_r by lia|by rewrite testbit_word by lia].
Qed.

(** Several exchanges. *)
Definition swaps (n : Z) (l : list (Z * Z)) (x : Z) : Z := fold_left (fun x '(m, s) => swap n m s x) l x.
Definition source_bit (l : list (Z * Z)) (i : Z) : Z := fold_right (fun '(_, s) j => Z.lxor j s) i l.
Definition swaps_ok (n : Z) (l : list (Z * Z)) : bool := forallb (fun '(m, s) => swap_ok n m s) l.

Lemma swaps_word n l : forall x, swaps_ok n l = true -> 0 <= n -> 0 <= x < 2 ^ n -> 0 <= swaps n l x < 2 ^ n.
Proof.
  induction l as [|[m s] l IH]; intros x Hl Hn Hx; [done|]. apply andb_true_iff in Hl as [Hs Hl].
  apply (IH (swap n m s x)); [done|done|by apply swap_word].
Qed.

Lemma swaps_bits n l : forall x i, swaps_ok n l = true -> 0 <= i < n ->
  0 <= source_bit l i < n /\ Z.testbit (swaps n l x) i = Z.testbit x (source_bit l i).
Proof.
  induction l as [|[m s] l IH]; intros x i Hl Hi; [done|]. apply andb_true_iff in Hl as [Hs Hl].
  destruct (IH (swap n m s x) i Hl Hi) as [Hr E]. destruct (swap_bits n m s x _ Hs Hr) as [Hr' E'].
  split; [done|]. unfold swaps. cbn [fold_left]. fold (swaps n l (swap n m s x)). by rewrite E, E'.
Qed.

Lemma swaps_app n l l' x : swaps n (l ++ l') x = swaps n l' (swaps n l x).
Proof. apply fold_left_app. Qed.

(** Where the bits go, for a number of exchanges that is known. *)
Definition source_ok (n : Z) (l : list (Z * Z)) (f : Z -> Z) : bool :=
  swaps_ok n l && forallb (fun i => source_bit l i =? f i) (map Z.of_nat (seq 0 (Z.to_nat n))).

Lemma swaps_source n l f x i : source_ok n l f = true -> 0 <= i < n -> Z.testbit (swaps n l x) i = Z.testbit x (f i).
Proof.
  intros [Hl Hf]%andb_true_iff Hi. destruct (swaps_bits n l x i Hl Hi) as [_ ->]. f_equal.
  apply Z.eqb_eq, (forallb_below _ _ i Hf). lia.
Qed.

Definition bytes32 : list (Z * Z) := [(Z.land m3 (Z.shiftl 1 32 - 1), 8); (Z.ones 16, 16)].
Definition bytes64 : list (Z * Z) := [(Z.land m3 (Z.shiftl 1 64 - 1), 8); (Z.land m4 (Z.shiftl 1 64 - 1), 16); (Z.ones 32, 32)].
Definition nibbles (n : Z) : list (Z * Z) :=
  let m := Z.shiftl 1 n - 1 in [(Z.land m0 m, 1); (Z.land m1 m, 2); (Z.land m2 m, 4)].

Lemma ReverseBytes32_swaps x : 0 <= x < 2 ^ 32 -> ReverseBytes32 x = swaps 32 bytes32 x.
Proof. intros Hx. apply swap_halves; [done..|]. apply (swap_word 32 (Z.land m3 (Z.shiftl 1 32 - 1)) 8); [by vm_compute|done..]. Qed.

Lemma ReverseBytes64_swaps x : 0 <= x < 2 ^ 64 -> ReverseBytes64 x = swaps 64 bytes64 x.
Proof.
  intros Hx. apply swap_halves; [done..|]. apply (swaps_word 64 [(Z.land m3 (Z.shiftl 1 64 - 1), 8); (Z.land m4 (Z.shiftl 1 64 - 1), 16)]);
    [by vm_compute|done..].
Qed.

Lemma Reverse32_swaps x : 0 <= x < 2 ^ 32 -> Reverse32 x = swaps 32 (nibbles 32 ++ bytes32) x.
Proof.
  intros Hx. rewrite swaps_app, <- ReverseBytes32_swaps; [done|].
  by apply swaps_word; [vm_compute| |].
Qed.

Lemma Reverse64_swaps x : 0 <= x < 2 ^ 64 -> Reverse64 x = swaps 64 (nibbles 64 ++ bytes64) x.
Proof.
  intros Hx. rewrite swaps_app, <- ReverseBytes64_swaps; [done|].
  by apply swaps_word; [vm_compute| |].
Qed.

Definition mirrored (n i : Z) : Z := n - 1 - i.
Definition byte_mirrored (n i : Z) : Z := n - 8 - i / 8 * 8 + i mod 8.

Lemma mirror_source : source_ok 32 (nibbles 32 ++ bytes32) (mirrored 32) && source_ok 64 (nibbles 64 ++ bytes64) (mirrored 64) &&
  source_ok 32 bytes32 (byte_mirrored 32) && source_ok 64 bytes64 (byte_mirrored 64) = true.
Proof. vm_compute. reflexivity. Qed.

Lemma Reverse_bits_at UintSize x : UintSize = 32 \/ UintSize = 64 -> 0 <= x < 2 ^ UintSize ->
  0 <= Reverse UintSize x < 2 ^ UintSize /\ forall i, 0 <= i < UintSize -> Z.testbit (Reverse UintSize x) i = Z.testbit x (UintSize - 1 - i).
Proof.
  intros HU Hx. pose proof mirror_source as Hs. rewrite !andb_true_iff in Hs. destruct Hs as [[[H32 H64] _] _].
  unfold Reverse, u32. destruct HU as [-> | ->]; cbn [Z.eqb Pos.eqb].
  - rewrite Z.mod_small, Reverse32_swaps by done. split; [by apply swaps_word; [vm_compute| |]|]. intros i Hi. by apply (swaps_source _ _ _ _ _ H32).
  - rewrite Reverse64_swaps by done. split; [by apply swaps_word; [vm_compute| |]|]. intros i Hi. by apply (swaps_source _ _ _ _ _ H64).
Qed.

Lemma ReverseBytes_bits_at UintSize x : UintSize = 32 \/ UintSize = 64 -> 0 <= x < 2 ^ UintSize ->
  0 <= ReverseBytes UintSize x < 2 ^ UintSize /\
  forall i, 0 <= i < UintSize -> Z.testbit (ReverseBytes UintSize x) i = Z.testbit x (byte_mirrored UintSize i).
Proof.
  intros HU Hx. pose proof mirror_source as Hs. rewrite !andb_true_iff in Hs. destruct Hs as [[_ H32] H64].
  unfold ReverseBytes, u32. destruct HU as [-> | ->]; cbn [Z.eqb Pos.eqb].
  - rewrite Z.mod_small, ReverseBytes32_swaps by done. split; [by apply swaps_word; [vm_compute| |]|]. intros i Hi. by apply (swaps_source _ _ _ _ _ H32).
  - rewrite ReverseBytes64_swaps by done. split; [by apply swaps_word; [vm_compute| |]|]. intros i Hi. by apply (swaps_source _ _ _ _ _ H64).
Qed.

(** [Reverse] reverses the bits of a word and [ReverseBytes] its bytes;
    both undo themselves. *)
Theorem Reverse_involutive UintSize x : UintSize = 32 \/ UintSize = 64 -> 0 <= x < 2 ^ UintSize ->
  (forall i, 0 <= i < UintSize -> Z.testbit (Reverse UintSize x) i = Z.testbit x (UintSize - 1 - i)) /\
  (forall i, 0 <= i < UintSize -> Z.testbit (ReverseBytes UintSize x) i = Z.testbit x (UintSize - 8 - i / 8 * 8 + i mod 8)) /\
  Reverse UintSize (Reverse UintSize x) = x /\ ReverseBytes UintSize (ReverseBytes UintSize x) = x.
Proof.
  intros HU Hx. destruct (Reverse_bits_at UintSize x HU Hx) as [Hr Hb]. destruct (ReverseBytes_bits_at UintSize x HU Hx) as [Hr' Hb'].
  destruct (Reverse_bits_at UintSize _ HU Hr) as [Hr2 Hb2]. destruct (ReverseBytes_bits_at UintSize _ HU Hr') as [Hr2' Hb2'].
  split_and!; [done|done| |]; apply (word_bits_eq UintSize); try done; try lia; intros i Hi.
  - rewrite Hb2, Hb by lia. f_equal. lia.
  - pose proof (Z.div_mod i 8 ltac:(lia)). pose proof (Z.mod_pos_bound i 8 ltac:(lia)).
    assert (E8 : UintSize = UintSize / 8 * 8) by (destruct HU as [-> | ->]; done).
    assert (Hm : byte_mirrored UintSize i = (UintSize / 8 - 1 - i / 8) * 8 + i mod 8) by (unfold byte_mirrored; lia).
    assert (Hd : byte_mirrored UintSize i / 8 = UintSize / 8 - 1 - i / 8) by (rewrite Hm, Z.div_add_l, (Z.div_small (i mod 8)) by lia; lia).
    assert (Hmod : byte_mirrored UintSize i mod 8 = i mod 8) by (rewrite Hm, Z.add_comm, Z_mod_plus_full; by apply Z.mod_small).
    rewrite Hb2', Hb' by (done || lia). f_equal. unfold byte_mirrored at 1. rewrite Hd, Hmod. lia.
Qed.

(** ** Numbers as their bytes *)

Definition val (l : list Z) : Z := fold_right (fun b acc => acc * 2 ^ 8 + b) 0 l.

Lemma testbit_cat k a b i : 0 <= k -> 0 <= b < 2 ^ k -> 0 <= i ->
  Z.testbit (a * 2 ^ k + b) i = if i <? k then Z.testbit b i else Z.testbit a (i - k).
Proof.
  intros Hk Hb Hi. rewrite <- lor_disjoint, Z.lor_spec, Z.shiftl_spec by done. destruct (i <? k) eqn:E.
  - by rewrite Z.testbit_neg_r by lia.
  - rewrite (testbit_above k b) by lia. by rewrite orb_false_r.
Qed.

Lemma land_cat k a b c d : 0 <= k -> 0 <= b < 2 ^ k -> 0 <= d < 2 ^ k ->
  Z.land (a * 2 ^ k + b) (c * 2 ^ k + d) = Z.land a c * 2 ^ k + Z.land b d.
Proof.
  intros Hk Hb Hd. assert (0 <= Z.land b d < 2 ^ k) by (apply land_word; lia). apply Z.bits_inj'. intros i Hi.
  rewrite Z.land_spec, !testbit_cat by done. destruct (i <? k); by rewrite Z.land_spec.
Qed.

Lemma shiftr_cat k s a b : 0 <= s <= k -> 0 <= b < 2 ^ k ->
  Z.shiftr (a * 2 ^ k + b) s = Z.shiftr a s * 2 ^ k + (Z.land a (Z.ones s) * 2 ^ (k - s) + Z.shiftr b s).
Proof.
  intros Hs Hb. rewrite Z.land_ones, !Z.shiftr_div_pow2 by lia. replace (2 ^ k) with (2 ^ (k - s) * 2 ^ s) by (rewrite <- Z.pow_add_r by lia; f_equal; lia).
  rewrite Z.mul_assoc, Z.div_add_l by (pose proof (Z.pow_pos_nonneg 2 s); lia).
  pose proof (Z.div_mod a (2 ^ s) ltac:(pose proof (Z.pow_pos_nonneg 2 s); lia)) as Ha. rewrite Ha at 1. ring.
Qed.

(** The bytes of a number. *)
Fixpoint bytes (n : nat) (x : Z) : list Z :=
  match n with
  | O => []
  | S n => x mod 2 ^ 8 :: bytes n (x / 2 ^ 8)
  end.

Lemma bytes_val n : forall x, 0 <= x < 2 ^ (8 * Z.of_nat n) -> val (bytes n x) = x /\ Forall is_byte (bytes n x) /\ length (bytes n x) = n.
Proof.
  induction n as [|n IH]; intros x Hx; cbn [bytes length val fold_right]; [split_and!; [cbn in *; lia|done|done]|].
  replace (8 * Z.of_nat (S n)) with (8 + 8 * Z.of_nat n) in Hx by lia. rewrite Z.pow_add_r in Hx by lia.
  destruct (IH (x / 2 ^ 8)) as (E & Hb & Hl); [split; [apply Z.div_pos; lia|apply Z.div_lt_upper_bound; lia]|].
  fold (val (bytes n (x / 2 ^ 8))). rewrite E, Hl. pose proof (Z.div_mod x (2 ^ 8) ltac:(lia)). pose proof (Z.mod_pos_bound x (2 ^ 8) ltac:(lia)).
  split_and!; [lia| |done]. constructor; [unfold is_byte; lia|done].
Qed.

(** ** Bits that are set *)

(** The number of the lowest [n] bits that are set. *)
Fixpoint popcount (n : nat) (x : Z) : Z :=
  match n with
  | O => 0
  | S n => Z.b2z (Z.testbit x (Z.of_nat n)) + popcount n x
  end.

Lemma popcount_succ n x : popcount (S n) x = Z.b2z (Z.testbit x (Z.of_nat n)) + popcount n x.
Proof. done. Qed.

Lemma popcount_low n a b : (n <= 8)%nat -> 0 <= b < 2 ^ 8 -> popcount n (a * 2 ^ 8 + b) = popcount n b.
Proof.
  intros Hn Hb. induction n as [|n IH]; [done|]. cbn [popcount]. rewrite testbit_cat, IH by lia.
  by destruct (Z.of_nat n <? 8) eqn:E; [|lia].
Qed.

Lemma popcount_cat n a b : 0 <= b < 2 ^ 8 -> popcount (n + 8) (a * 2 ^ 8 + b) = popcount n a + popcount 8 b.
Proof.
  intros Hb. induction n as [|n IH]; [by rewrite popcount_low|]. rewrite Nat.add_succ_l, !(popcount_succ (n + 8)), (popcount_succ n a), IH, testbit_cat by lia.
  destruct (Z.of_nat (n + 8) <? 8) eqn:E; [lia|]. replace (Z.of_nat (n + 8) - 8) with (Z.of_nat n) by lia. apply Z.add_assoc.
Qed.

Lemma popcount_val l : Forall is_byte l -> popcount (8 * length l) (val l) = fold_right (fun b acc => popcount 8 b + acc) 0 l.
Proof.
  induction 1 as [|b l Hb Hl IH]; [done|]. cbn [length val fold_right]. fold (val l).
  replace (8 * S (length l))%nat with (8 * length l + 8)%nat by lia. rewrite popcount_cat, IH by done. apply Z.add_comm.
Qed.

Lemma pop8tab_popcount b : is_byte b -> nthZ 0 pop8tab b = popcount 8 b.
Proof. apply byte_eq. vm_compute. reflexivity. Qed.

(** The steps of the code on the bytes: a sum of neighbours, in each of the
    fields of a mask, stays inside of its byte. *)
Definition fields (k m x : Z) : Z := Z.land (Z.shiftr x k) m + Z.land x m.

Lemma land_small s m y z : 0 <= s -> 0 <= m < 2 ^ s -> Z.land (y * 2 ^ s + z) m = Z.land z m.
Proof.
  intros Hs Hm. apply Z.bits_inj'. intros i Hi. rewrite !Z.land_spec. destruct (Z.lt_ge_cases i s).
  - f_equal. rewrite <- (testbit_word s (y * 2 ^ s + z)), <- (testbit_word s z) by lia. f_equal. rewrite Z.add_comm. apply Z_mod_plus_full.
  - by rewrite (testbit_above s m), !andb_false_r by lia.
Qed.

Lemma fields_cat k m M a b : 0 <= k <= 8 -> 0 <= m < 2 ^ (8 - k) -> 0 <= b < 2 ^ 8 -> 
  fields k (M * 2 ^ 8 + m) (a * 2 ^ 8 + b) = fields k M a * 2 ^ 8 + fields k m b.
Proof.
  intros Hk Hm Hb. assert (Hm8 : 0 <= m < 2 ^ 8) by (pose proof (Z.pow_le_mono_r 2 (8 - k) 8 ltac:(lia) ltac:(lia)); lia).
  unfold fields. rewrite (shiftr_cat 8 k) by lia. set (lo := _ * 2 ^ (8 - k) + _).
  assert (Hlo : 0 <= lo < 2 ^ 8).
  { unfold lo. rewrite Z.land_ones, Z.shiftr_div_pow2 by lia. pose proof (Z.mod_pos_bound a (2 ^ k) ltac:(pose proof (Z.pow_pos_nonneg 2 k); lia)).
    assert (E : 2 ^ 8 = 2 ^ (8 - k) * 2 ^ k) by (rewrite <- Z.pow_add_r by lia; f_equal; lia).
    assert (0 <= b / 2 ^ k < 2 ^ (8 - k)); [|nia]. split; [apply Z.div_pos; lia|apply Z.div_lt_upper_bound; lia]. }
  rewrite !land_cat by lia. unfold lo. rewrite land_small by lia. ring.
Qed.

(** A mask that is the same in every byte. *)
Definition mask (m : Z) (l : list Z) : Z := val (map (fun _ => m) l).

Lemma fields_val k m l : 0 <= k <= 8 -> 0 <= m < 2 ^ (8 - k) -> Forall is_byte l ->
  fields k (mask m l) (val l) = val (map (fields k m) l).
Proof.
  intros Hk Hm. induction 1 as [|b l Hb Hl IH]; [unfold mask, fields; cbn; by rewrite Z.shiftr_0_l|].
  unfold mask in *. cbn [map val fold_right]. fold (val l). fold (val (map (fun _ => m) l)). fold (val (map (fields k m) l)).
  rewrite fields_cat, IH by done. done.
Qed.

Definition nibbles_small (b : Z) : bool := (Z.land b 15 <=? 4) && (Z.shiftr b 4 <=? 4) && (0 <=? b) && (b <? 256).

Lemma nibble_val l : Forall (fun b => nibbles_small b = true) l -> 0 <= Z.land (val l) 15 <= 4.
Proof.
  destruct 1 as [|b l Hb Hl]; [done|]. cbn [val fold_right]. fold (val l). rewrite land_small by lia. unfold nibbles_small in Hb.
  pose proof (proj2 (Z.land_nonneg b 15) ltac:(right; lia)). lia.
Qed.

Lemma nibble_sums l : Forall (fun b => nibbles_small b = true) l ->
  Z.land (Z.shiftr (val l) 4 + val l) (mask 15 l) = val (map (fun b => Z.land (Z.shiftr b 4 + b) 15) l).
Proof.
  induction 1 as [|b l Hb Hl IH]; [done|]. pose proof (nibble_val l Hl) as Hn. unfold mask in *. cbn [map val fold_right].
  fold (val l). fold (val (map (fun _ => 15) l)). fold (val (map (fun b => Z.land (Z.shiftr b 4 + b) 15) l)). unfold nibbles_small in Hb.
  rewrite (shiftr_cat 8 4) by lia. change (Z.ones 4) with 15. change (8 - 4) with 4.
  assert (0 <= Z.shiftr b 4) by (apply Z.shiftr_nonneg; lia). assert (Hb68 : b <= 4 * 16 + 15).
  { clear -Hb. rewrite Z.shiftr_div_pow2 in Hb by lia. pose proof (Z.div_mod b (2 ^ 4) ltac:(lia)). pose proof (Z.mod_pos_bound b (2 ^ 4) ltac:(lia)). lia. }
  replace (Z.shiftr (val l) 4 * 2 ^ 8 + (Z.land (val l) 15 * 2 ^ 4 + Z.shiftr b 4) + (val l * 2 ^ 8 + b)) with
    ((Z.shiftr (val l) 4 + val l) * 2 ^ 8 + (Z.land (val l) 15 * 2 ^ 4 + (Z.shiftr b 4 + b))) by ring.
  rewrite land_cat by lia. rewrite IH. by rewrite land_small by lia.
Qed.

(** What the first three steps do to a byte. *)
Definition step2 (b : Z) : Z := fields 2 0x33 (fields 1 0x55 b).
Definition step3 (b : Z) : Z := Z.land (Z.shiftr (step2 b) 4 + step2 b) 15.

Lemma step3_popcount b : is_byte b -> step3 b = popcount 8 b.
Proof. apply byte_eq. vm_compute. reflexivity. Qed.

Lemma steps_byte b : is_byte b -> is_byte (fields 1 0x55 b) /\ nibbles_small (step2 b) = true /\ 0 <= popcount 8 b <= 8.
Proof.
  intros Hb. pose proof (byte_forall (fun b => (0 <=? fields 1 0x55 b) && (fields 1 0x55 b <? 256) && nibbles_small (step2 b) &&
    (0 <=? popcount 8 b) && (popcount 8 b <=? 8)) ltac:(vm_compute; reflexivity) b Hb) as H.
  cbn beta in H. unfold is_byte. rewrite !andb_true_iff in H. destruct H as [[[[H1 H2] H3] H4] H5]. split_and!; try done; lia.
Qed.

Lemma val_bound l : Forall is_byte l -> 0 <= val l < 2 ^ (8 * lenZ l).
Proof.
  induction 1 as [|b l Hb Hl IH]; [done|]. cbn [val fold_right]. fold (val l). rewrite lenZ_cons.
  replace (8 * (1 + lenZ l)) with (8 + 8 * lenZ l) by lia. pose proof (lenZ_nonneg l). rewrite Z.pow_add_r by lia. unfold is_byte in Hb. lia.
Qed.

Lemma val_shiftr k : forall l, Forall is_byte l -> Z.shiftr (val l) (8 * Z.of_nat k) = val (drop k l).
Proof.
  induction k as [|k IH]; intros l Hl; [by rewrite Z.mul_0_r, Z.shiftr_0_r, drop_0|].
  destruct Hl as [|b l Hb Hl]; [by rewrite Z.shiftr_0_l|]. cbn [drop]. rewrite <- IH by done. cbn [val fold_right]. fold (val l).
  replace (8 * Z.of_nat (S k)) with (8 + 8 * Z.of_nat k) by lia. rewrite <- Z.shiftr_shiftr by lia. f_equal.
  rewrite Z.shiftr_div_pow2, Z.div_add_l by lia. unfold is_byte in Hb. rewrite Z.div_small by lia. lia.
Qed.

Ltac list_bytes := repeat (apply List.Forall_cons; [unfold is_byte; lia|]); apply List.Forall_nil.

(** The last three steps, on counts of the bytes. *)
Lemma sum_bytes p0 p1 p2 p3 p4 p5 p6 p7 : Forall (fun p => 0 <= p <= 8) [p0; p1; p2; p3; p4; p5; p6; p7] ->
  let x := val [p0; p1; p2; p3; p4; p5; p6; p7] in
  let x := u64 (x + Z.shiftr x 8) in
  let x := u64 (x + Z.shiftr x 16) in
  let x := u64 (x + Z.shiftr x 32) in
  Z.land x (Z.shiftl 1 7 - 1) = p0 + p1 + p2 + p3 + p4 + p5 + p6 + p7.
Proof.
  intros Hp. rewrite !List.Forall_cons_iff in Hp.
  assert (Hu : forall a b c d e f g h, Forall is_byte [a; b; c; d; e; f; g; h] -> u64 (val [a; b; c; d; e; f; g; h]) = val [a; b; c; d; e; f; g; h]).
  { intros * Hb. apply Z.mod_small. by apply (val_bound [a; b; c; d; e; f; g; h]). }
  assert (Hs : forall n a b c d e f g h, Forall is_byte [a; b; c; d; e; f; g; h] ->
    Z.shiftr (val [a; b; c; d; e; f; g; h]) (8 * Z.of_nat n) = val (drop n [a; b; c; d; e; f; g; h])) by (intros; by apply val_shiftr).
  cbv zeta. rewrite !(Hs 1%nat) by list_bytes. cbn [drop].
  replace (val _ + val _) with (val [p0 + p1; p1 + p2; p2 + p3; p3 + p4; p4 + p5; p5 + p6; p6 + p7; p7]) by (cbn [val fold_right]; ring).
  rewrite !Hu, !(Hs 2%nat) by list_bytes. cbn [drop].
  replace (val _ + val _) with (val [p0 + p1 + p2 + p3; p1 + p2 + p3 + p4; p2 + p3 + p4 + p5; p3 + p4 + p5 + p6; p4 + p5 + p6 + p7; p5 + p6 + p7; p6 + p7; p7])
    by (cbn [val fold_right]; ring).
  rewrite !Hu, !(Hs 4%nat) by list_bytes. cbn [drop].
  replace (val _ + val _) with (val [p0 + p1 + p2 + p3 + p4 + p5 + p6 + p7; p1 + p2 + p3 + p4 + p5 + p6 + p7; p2 + p3 + p4 + p5 + p6 + p7;
    p3 + p4 + p5 + p6 + p7; p4 + p5 + p6 + p7; p5 + p6 + p7; p6 + p7; p7]) by (cbn [val fold_right]; ring).
  rewrite Hu by list_bytes. change (Z.shiftl 1 7 - 1) with (Z.ones 7). cbn [val fold_right].
  change (2 ^ 8) with (2 * 2 ^ 7). rewrite Z.mul_assoc, Z.land_ones, Z.add_comm, Z_mod_plus_full by lia. apply Z.mod_small. lia.
Qed.

Lemma popcount_byte b : is_byte b -> 0 <= popcount 8 b <= 8.
Proof. apply steps_byte. Qed.

Lemma mask_repeat m l : mask m l = val (repeat m (length l)).
Proof. unfold mask. f_equal. induction l as [|b l IH]; [done|]. cbn. by rewrite IH. Qed.

(** The first three steps, on the bytes of a word. *)
Lemma three_steps l : Forall is_byte l -> length l = 8%nat ->
  let m := Z.shiftl 1 64 - 1 in
  let x := u64 (Z.land (Z.shiftr (val l) 1) (Z.land m0 m) + Z.land (val l) (Z.land m0 m)) in
  let x := u64 (Z.land (Z.shiftr x 2) (Z.land m1 m) + Z.land x (Z.land m1 m)) in
  Z.land (u64 (Z.shiftr x 4 + x)) (Z.land m2 m) = val (map (popcount 8) l).
Proof.
  intros Hb Hl. cbv zeta.
  assert (Hm : forall m f, val (repeat m 8) = mask m (map f l)) by (intros m f; by rewrite mask_repeat, length_map, Hl).
  assert (Hsmall : forall f, Forall (fun b => is_byte (f b)) l -> u64 (val (map f l)) = val (map f l)).
  { intros f Hf. apply Z.mod_small. pose proof (val_bound (map f l)) as Hv. unfold lenZ in Hv. rewrite length_map, Hl in Hv.
    apply Hv. by apply Forall_map. }
  assert (H1 : Forall (fun b => is_byte (fields 1 0x55 b)) l) by (eapply List.Forall_impl; [|exact Hb]; intros b Hb1; apply steps_byte, Hb1).
  assert (H2 : Forall (fun b => nibbles_small (step2 b) = true) l) by (eapply List.Forall_impl; [|exact Hb]; intros b Hb1; apply steps_byte, Hb1).
  assert (H2b : Forall (fun b => is_byte (step2 b)) l).
  { eapply List.Forall_impl; [|exact H2]. unfold nibbles_small, is_byte. intros b Hn. lia. }
  change (Z.land m0 (Z.shiftl 1 64 - 1)) with (val (repeat 0x55 8)). change (Z.land m1 (Z.shiftl 1 64 - 1)) with (val (repeat 0x33 8)).
  change (Z.land m2 (Z.shiftl 1 64 - 1)) with (val (repeat 15 8)).
  rewrite (Hm 0x55 id), map_id. fold (fields 1 (mask 0x55 l) (val l)). rewrite fields_val, Hsmall by (done || lia).
  rewrite (Hm 0x33 (fields 1 0x55)). fold (fields 2 (mask 0x33 (map (fields 1 0x55) l)) (val (map (fields 1 0x55) l))).
  rewrite fields_val, map_map by (by apply Forall_map || lia). change (fun x => fields 2 51 (fields 1 85 x)) with step2. rewrite Hsmall by done.
  rewrite (Z.land_comm (u64 _)). unfold u64. rewrite land_wrap by (done || by vm_compute). rewrite Z.land_comm, (Hm 15 step2).
  rewrite nibble_sums, map_map by (by apply Forall_map). f_equal. apply map_ext_in. intros b Hin. apply step3_popcount.
  rewrite List.Forall_forall in Hb. by apply Hb.
Qed.

Lemma OnesCount64_popcount x : 0 <= x < 2 ^ 64 -> OnesCount64 x = popcount 64 x.
Proof.
  intros Hx. destruct (bytes_val 8 x Hx) as (E & Hb & Hl). set (l := bytes 8 x) in *. clearbody l.
  pose proof (popcount_val l Hb) as Ep. rewrite Hl, E in Ep. change (8 * 8)%nat with 64%nat in Ep. rewrite Ep. clear Ep.
  pose proof (three_steps l Hb Hl) as E3. rewrite E in E3. cbv zeta in E3. unfold OnesCount64. cbv zeta. rewrite !E3. clear E3 Hx.
  destruct l as [|b0 [|b1 [|b2 [|b3 [|b4 [|b5 [|b6 [|b7 [|b8 l]]]]]]]]]; try discriminate Hl. cbn [map fold_right].
  pose proof (sum_bytes (popcount 8 b0) (popcount 8 b1) (popcount 8 b2) (popcount 8 b3) (popcount 8 b4) (popcount 8 b5) (popcount 8 b6) (popcount 8 b7)) as Hs.
  cbv zeta in Hs. rewrite Hs; [ring|]. rewrite !List.Forall_cons_iff in *. split_and!; try apply popcount_byte; apply Hb || done.
Qed.

(** The counts by table. *)
Lemma low_byte b l : is_byte b -> Z.land (val (b :: l)) 0xff = b.
Proof.
  intros Hb. cbn [val fold_right]. rewrite land_small by lia. change 0xff with (Z.ones 8). rewrite Z.land_ones by lia. by apply Z.mod_small.
Qed.

Lemma OnesCount32_popcount x : 0 <= x < 2 ^ 32 -> OnesCount32 x = popcount 32 x.
Proof.
  intros Hx. destruct (bytes_val 4 x Hx) as (E & Hb & Hl). set (l := bytes 4 x) in *. clearbody l.
  pose proof (popcount_val l Hb) as Ep. rewrite Hl, E in Ep. change (8 * 4)%nat with 32%nat in Ep. rewrite Ep, <- E. clear Ep E Hx.
  destruct l as [|b0 [|b1 [|b2 [|b3 [|b4 l]]]]]; try discriminate Hl. pose proof Hb as H4. rewrite !List.Forall_cons_iff in H4. destruct H4 as (H0 & H1 & H2 & H3 & _).
  unfold OnesCount32. rewrite (val_shiftr 3), (val_shiftr 2), (val_shiftr 1) by done. cbn [drop]. rewrite !low_byte by done.
  replace (val [b3]) with b3 by (cbn [val fold_right]; lia). rewrite !pop8tab_popcount by done. cbn [fold_right].
  pose proof (popcount_byte b0 H0). pose proof (popcount_byte b1 H1). pose proof (popcount_byte b2 H2). pose proof (popcount_byte b3 H3).
  assert (Hu : forall z, 0 <= z < 256 -> u8 z = z) by (intros; by apply Z.mod_small).
  rewrite (Hu (popcount 8 b3 + popcount 8 b2)), (Hu (_ + popcount 8 b1)), Hu by lia. lia.
Qed.

Lemma OnesCount16_popcount x : 0 <= x < 2 ^ 16 -> OnesCount16 x = popcount 16 x.
Proof.
  intros Hx. destruct (bytes_val 2 x Hx) as (E & Hb & Hl). set (l := bytes 2 x) in *. clearbody l.
  pose proof (popcount_val l Hb) as Ep. rewrite Hl, E in Ep. change (8 * 2)%nat with 16%nat in Ep. rewrite Ep, <- E. clear Ep E Hx.
  destruct l as [|b0 [|b1 [|b2 l]]]; try discriminate Hl. pose proof Hb as H4. rewrite !List.Forall_cons_iff in H4. destruct H4 as (H0 & H1 & _).
  unfold OnesCount16. rewrite (val_shiftr 1) by done. cbn [drop]. rewrite !low_byte by done.
  replace (val [b1]) with b1 by (cbn [val fold_right]; lia). rewrite !pop8tab_popcount by done. cbn [fold_right].
  pose proof (popcount_byte b0 H0). pose proof (popcount_byte b1 H1). unfold u8. rewrite Z.mod_small; lia.
Qed.

(** [OnesCount] gives the number of the bits that are set, whether it sums
    the entries of a table or adds the fields of the word in parallel. *)
Theorem OnesCount_popcount UintSize x : UintSize = 32 \/ UintSize = 64 -> 0 <= x < 2 ^ UintSize ->
  OnesCount UintSize x = popcount (Z.to_nat UintSize) x.
Proof.
  intros [-> | ->] Hx; unfold OnesCount; cbn [Z.eqb Pos.eqb].
  - unfold u32. rewrite Z.mod_small by done. by apply OnesCount32_popcount.
  - by apply OnesCount64_popcount.
Qed.

(** ** Words of 8 and 16 bits *)

Lemma Reverse8_bits x i : is_byte x -> 0 <= i < 8 -> 0 <= Reverse8 x < 2 ^ 8 /\ Z.testbit (Reverse8 x) i = Z.testbit x (7 - i).
Proof.
  intros Hx Hi. pose proof (byte_forall (fun x => (0 <=? Reverse8 x) && (Reverse8 x <? 2 ^ 8) &&
    forallb (fun i => eqb (Z.testbit (Reverse8 x) i) (Z.testbit x (7 - i))) (map Z.of_nat (seq 0 8))) ltac:(vm_compute; reflexivity) x Hx) as H.
  cbn beta in H. rewrite !andb_true_iff in H. destruct H as [[H1 H2] H3]. split; [lia|]. apply eqb_prop, (forallb_below _ 8 i H3 Hi).
Qed.

Lemma Reverse16_bits x i : 0 <= x < 2 ^ 16 -> 0 <= i < 16 -> Z.testbit (Reverse16 x) i = Z.testbit x (15 - i).
Proof.
  intros Hx Hi. unfold Reverse16. fold (Reverse8 (Z.shiftr x 8)). fold (Reverse8 (Z.land x 0xff)).
  assert (Hh : is_byte (Z.shiftr x 8)).
  { rewrite Z.shiftr_div_pow2 by lia. split; [apply Z.div_pos; lia|apply Z.div_lt_upper_bound; lia]. }
  assert (Hl : is_byte (Z.land x 0xff)) by (apply (land_word 8 x 255); lia). unfold u16. rewrite Z.lor_spec, testbit_word, Z.shiftl_spec by lia.
  destruct (Z.lt_ge_cases i 8).
  - rewrite (Z.testbit_neg_r _ (i - 8)), orb_false_r by lia. destruct (Reverse8_bits _ i Hh ltac:(lia)) as [_ ->]. rewrite Z.shiftr_spec by lia. f_equal. lia.
  - destruct (Reverse8_bits _ 0 Hh ltac:(lia)) as [Hr _]. rewrite (testbit_above 8 (Reverse8 _) i) by lia. cbn [orb].
    destruct (Reverse8_bits _ (i - 8) Hl ltac:(lia)) as [_ ->]. change 0xff with (Z.ones 8).
    rewrite Z.land_ones, testbit_word by lia. f_equal. lia.
Qed.

Lemma TrailingZeros8_spec x : 0 < x < 2 ^ 8 ->
  0 <= TrailingZeros8 x < 8 /\ exists o, Z.odd o = true /\ x = 2 ^ TrailingZeros8 x * o.
Proof.
  intros Hx. pose proof (byte_forall (fun x => (x =? 0) || (0 <=? TrailingZeros8 x) && (TrailingZeros8 x <? 8) &&
    Z.odd (x / 2 ^ TrailingZeros8 x) && (x =? 2 ^ TrailingZeros8 x * (x / 2 ^ TrailingZeros8 x))) ltac:(vm_compute; reflexivity) x ltac:(unfold is_byte; lia)) as H.
  cbn beta in H. destruct (x =? 0) eqn:E; [lia|]. cbn [orb] in H. rewrite !andb_true_iff in H. destruct H as [[[H1 H2] H3] H4]. split; [lia|].
  exists (x / 2 ^ TrailingZeros8 x). split; [done|by apply Z.eqb_eq].
Qed.

Lemma TrailingZeros16_spec x : 0 < x < 2 ^ 16 ->
  0 <= TrailingZeros16 x < 16 /\ exists o, Z.odd o = true /\ x = 2 ^ TrailingZeros16 x * o.
Proof.
  intros Hx. destruct (odd_part 16 x Hx) as (k & o & Hk & Ho & E). assert (Ek : TrailingZeros16 x = k).
  { unfold TrailingZeros16, u16, u32. destruct (x =? 0) eqn:E0; [lia|]. rewrite land_wrap by lia.
    rewrite E, land_neg by (done || lia). apply deBruijn_ok_at; [by vm_compute|lia]. }
  rewrite Ek. split; [lia|]. by exists o.
Qed.

(** [Len] is the number of binary digits of a word, [LeadingZeros] what is
    missing to the width, and [TrailingZeros] the exponent of 2 in the word, or
    the width for 0. *)
Theorem zeros_spec UintSize x : UintSize = 32 \/ UintSize = 64 -> 0 <= x < 2 ^ UintSize ->
  Len UintSize x = size x /\ LeadingZeros UintSize x = UintSize - size x /\
  if x =? 0 then TrailingZeros UintSize x = UintSize
  else 0 <= TrailingZeros UintSize x < UintSize /\ exists o, Z.odd o = true /\ x = 2 ^ TrailingZeros UintSize x * o.
Proof.
  intros HU Hx. unfold LeadingZeros. assert (El : Len UintSize x = size x).
  { unfold Len, u32. destruct HU as [-> | ->]; cbn [Z.eqb Pos.eqb]; [rewrite Z.mod_small by done; by apply Len32_size|by apply Len64_size]. }
  rewrite El. split_and!; [done..|]. unfold TrailingZeros, u32.
  destruct HU as [-> | ->]; cbn [Z.eqb Pos.eqb]; [rewrite Z.mod_small by done|]; (destruct (x =? 0) eqn:E; [by apply Z.eqb_eq in E as ->|]).
  - apply TrailingZeros32_spec. lia.
  - apply TrailingZeros64_spec. lia.
Qed.

(** ** Witnesses *)

Lemma RotateLeft_back_witness : (32 = 32 \/ 32 = 64) /\ 0 <= 0x80000001 < 2 ^ 32 /\
  (RotateLeft 32 (RotateLeft 32 0x80000001 (-3)) 3 = 0x80000001 /\
   forall i, 0 <= i < 32 -> Z.testbit (RotateLeft 32 0x80000001 (-3)) i = Z.testbit 0x80000001 ((i - -3) mod 32)).
Proof.
  assert (HU : 32 = 32 \/ 32 = 64) by (by left). assert (Hx : 0 <= 0x80000001 < 2 ^ 32) by lia.
  split; [exact HU|]. split; [exact Hx|]. exact (RotateLeft_back 32 0x80000001 (-3) HU Hx).
Defined.

Lemma Reverse_involutive_witness : (64 = 32 \/ 64 = 64) /\ 0 <= 0x123456789abcdef < 2 ^ 64 /\
  ((forall i, 0 <= i < 64 -> Z.testbit (Reverse 64 0x123456789abcdef) i = Z.testbit 0x123456789abcdef (64 - 1 - i)) /\
   (forall i, 0 <= i < 64 -> Z.testbit (ReverseBytes 64 0x123456789abcdef) i = Z.testbit 0x123456789abcdef (64 - 8 - i / 8 * 8 + i mod 8)) /\
   Reverse 64 (Reverse 64 0x123456789abcdef) = 0x123456789abcdef /\ ReverseBytes 64 (ReverseBytes 64 0x123456789abcdef) = 0x123456789abcdef).
Proof.
  assert (HU : 64 = 32 \/ 64 = 64) by (by right). assert (Hx : 0 <= 0x123456789abcdef < 2 ^ 64) by lia.
  split; [exact HU|]. split; [exact Hx|]. exact (Reverse_involutive 64 0x123456789abcdef HU Hx).
Defined.

Lemma OnesCount_popcount_witness : (64 = 32 \/ 64 = 64) /\ 0 <= 2 ^ 64 - 2 < 2 ^ 64 /\ OnesCount 64 (2 ^ 64 - 2) = popcount (Z.to_nat 64) (2 ^ 64 - 2).
Proof.
  assert (HU : 64 = 32 \/ 64 = 64) by (by right). assert (Hx : 0 <= 2 ^ 64 - 2 < 2 ^ 64) by lia.
  split; [exact HU|]. split; [exact Hx|]. exact (OnesCount_popcount 64 (2 ^ 64 - 2) HU Hx).
Defined.
