(* ===== verification/Wide.v ===== *)
(** * src/src/math/bits/bits.go: arithmetic on double words

    Sums and differences with a carry, full products, and divisions of double
    words, for the widths 32, 64 and [UintSize]. *)

From S2P Require Import Prelude Bits.

#[local] Open Scope Z_scope.

(** ** Sums and differences *)

Definition Add32 (x y carry : Z) : Z * Z :=
  let sum64 := u64 (u64 (x + y) + carry) in
  let sum := u32 sum64 in
  let carryOut := u32 (Z.shiftr sum64 32) in
  (sum, carryOut).

Definition Add64 (x y carry : Z) : Z * Z :=
  let sum := u64 (u64 (x + y) + carry) in
  let carryOut := Z.shiftr (Z.lor (Z.land x y) (Z.ldiff (Z.lor x y) sum)) 63 in
  (sum, carryOut).

(** [^x] *)
Definition not32 (x : Z) : Z := u32 (Z.lnot x).
Definition not64 (x : Z) : Z := u64 (Z.lnot x).

Definition Sub32 (x y borrow : Z) : Z * Z :=
  let diff := u32 (u32 (x - y) - borrow) in
  let borrowOut := Z.shiftr (Z.lor (Z.land (not32 x) y) (Z.land (not32 (Z.lxor x y)) diff)) 31 in
  (diff, borrowOut).

Definition Sub64 (x y borrow : Z) : Z * Z :=
  let diff := u64 (u64 (x - y) - borrow) in
  let borrowOut := Z.shiftr (Z.lor (Z.land (not64 x) y) (Z.land (not64 (Z.lxor x y)) diff)) 63 in
  (diff, borrowOut).

(** ** Products *)

Definition Mul32 (x y : Z) : Z * Z :=
  let tmp := u64 (x * y) in
  (u32 (Z.shiftr tmp 32), u32 tmp).

Definition mask32 : Z := Z.shiftl 1 32 - 1.

Definition Mul64 (x y : Z) : Z * Z :=
  let x0 := Z.land x mask32 in
  let x1 := Z.shiftr x 32 in
  let y0 := Z.land y mask32 in
  let y1 := Z.shiftr y 32 in
  let w0 := u64 (x0 * y0) in
  let t := u64 (u64 (x1 * y0) + Z.shiftr w0 32) in
  let w1 := Z.land t mask32 in
  let w2 := Z.shiftr t 32 in
  let w1 := u64 (w1 + u64 (x0 * y1)) in
  let hi := u64 (u64 (u64 (x1 * y1) + w2) + Z.shiftr w1 32) in
  let lo := u64 (x * y) in
  (hi, lo).

(** ** Quotients *)

Definition overflowError : string := "integer overflow".
Definition divideError : string := "integer divide by zero".

Definition Div32 (hi lo y : Z) : res string (Z * Z) :=
  if negb (y =? 0) && (y <=? hi) then Panic overflowError
  else
    let z := Z.lor (u64 (Z.shiftl hi 32)) lo in
    if y =? 0 then Panic divideError
    else Ok (u32 (z / y), u32 (z mod y)).

Definition two32 : Z := Z.shiftl 1 32.

(** The loops that correct a digit of the quotient; it is two too large at
    most. *)
Fixpoint correct (fuel : nat) (yn1 yn0 un q rhat : Z) : res string Z :=
  match fuel with
  | O => NoFuel
  | S fuel =>
      if (two32 <=? q) || (u64 (u64 (two32 * rhat) + un) <? u64 (q * yn0)) then
        let q := u64 (q - 1) in
        let rhat := u64 (rhat + yn1) in
        if two32 <=? rhat then Ok q else correct fuel yn1 yn0 un q rhat
      else Ok q
  end.

Definition Div64 (hi lo y : Z) : res string (Z * Z) :=
  if y =? 0 then Panic divideError
  else if y <=? hi then Panic overflowError
  else if hi =? 0 then Ok (lo / y, lo mod y)
  else
    let s := LeadingZeros64 y in
    let y := u64 (Z.shiftl y s) in
    let yn1 := Z.shiftr y 32 in
    let yn0 := Z.land y mask32 in
    let un32 := Z.lor (u64 (Z.shiftl hi s)) (Z.shiftr lo (64 - s)) in
    let un10 := u64 (Z.shiftl lo s) in
    let un1 := Z.shiftr un10 32 in
    let un0 := Z.land un10 mask32 in
    let q1 := un32 / yn1 in
    let rhat := u64 (un32 - u64 (q1 * yn1)) in
    match correct 3 yn1 yn0 un1 q1 rhat with
    | Ok q1 =>
        let un21 := u64 (u64 (u64 (un32 * two32) + un1) - u64 (q1 * y)) in
        let q0 := un21 / yn1 in
        let rhat := u64 (un21 - u64 (q0 * yn1)) in
        match correct 3 yn1 yn0 un0 q0 rhat with
        | Ok q0 => Ok (u64 (u64 (q1 * two32) + q0), Z.shiftr (u64 (u64 (u64 (un21 * two32) + un0) - u64 (q0 * y))) s)
        | Panic e => Panic e
        | NoFuel => NoFuel
        end
    | Panic e => Panic e
    | NoFuel => NoFuel
    end.

Definition Rem32 (hi lo y : Z) : res string Z :=
  if y =? 0 then Panic divideError else Ok (u32 (Z.lor (u64 (Z.shiftl hi 32)) lo mod y)).

Definition Rem64 (hi lo y : Z) : res string Z :=
  if y =? 0 then Panic divideError
  else
    match Div64 (hi mod y) lo y with
    | Ok (_, rem) => Ok rem
    | Panic e => Panic e
    | NoFuel => NoFuel
    end.

(** ** The machine's word *)

Section Uint.
Context (UintSize : Z).

Definition Add (x y carry : Z) : Z * Z :=
  if UintSize =? 32 then Add32 (u32 x) (u32 y) (u32 carry) else Add64 x y carry.
Definition Sub (x y borrow : Z) : Z * Z :=
  if UintSize =? 32 then Sub32 (u32 x) (u32 y) (u32 borrow) else Sub64 x y borrow.
Definition Mul (x y : Z) : Z * Z :=
  if UintSize =? 32 then Mul32 (u32 x) (u32 y) else Mul64 x y.
Definition Div (hi lo y : Z) : res string (Z * Z) :=
  if UintSize =? 32 then Div32 (u32 hi) (u32 lo) (u32 y) else Div64 hi lo y.
Definition Rem (hi lo y : Z) : res string Z :=
  if UintSize =? 32 then Rem32 (u32 hi) (u32 lo) (u32 y) else Rem64 hi lo y.
End Uint.

Module WideExamples.
Example add_carry : Add64 (2 ^ 64 - 1) 0 1 = (0, 1). Proof. vm_compute. reflexivity. Qed.
Example sub_borrow : Sub64 0 1 1 = (2 ^ 64 - 2, 1). Proof. vm_compute. reflexivity. Qed.
Example mul_top : Mul64 (2 ^ 64 - 1) (2 ^ 64 - 1) = (2 ^ 64 - 2, 1). Proof. vm_compute. reflexivity. Qed.
Example div_two_steps : Div64 (2 ^ 63 - 1) (2 ^ 64 - 1) (2 ^ 63 + 2 ^ 32 - 1) =
  Ok (((2 ^ 63 - 1) * 2 ^ 64 + 2 ^ 64 - 1) / (2 ^ 63 + 2 ^ 32 - 1), ((2 ^ 63 - 1) * 2 ^ 64 + 2 ^ 64 - 1) mod (2 ^ 63 + 2 ^ 32 - 1)).
Proof. vm_compute. reflexivity. Qed.
Example div_overflow : Div64 5 0 5 = Panic overflowError. Proof. vm_compute. reflexivity. Qed.
Example rem_no_overflow : Rem64 5 3 5 = Ok 3. Proof. vm_compute. reflexivity. Qed.
End WideExamples.
