(* ===== verification/WideFacts.v ===== *)
(** * Arithmetic on double words is exact *)

From S2P Require Import Prelude Bits MagicFacts Wide.

#[local] Open Scope Z_scope.

(** ** Words *)

Lemma word32_small x : 0 <= x < 2 ^ 32 -> u32 x = x.
Proof. apply Z.mod_small. Qed.

(** The bit at [n] of a word of [n + 1] bits. *)
Lemma shiftr_top n x : 0 <= n -> 0 <= x < 2 ^ (n + 1) -> Z.shiftr x n = Z.b2z (2 ^ n <=? x).
Proof.
  intros Hn Hx. rewrite Z.shiftr_div_pow2 by done. pose proof (pow_pos n Hn). rewrite Z.pow_add_r in Hx by lia. change (2 ^ 1) with 2 in Hx.
  destruct (2 ^ n <=? x) eqn:E; cbn [Z.b2z].
  - symmetry. apply (Z.div_unique_pos x _ _ (x - 2 ^ n)); lia.
  - apply Z.div_small. lia.
Qed.

Lemma land_mask32 x : 0 <= x -> Z.land x mask32 = x mod 2 ^ 32.
Proof. intros Hx. change mask32 with (Z.ones 32). by rewrite Z.land_ones. Qed.

(** ** Sums *)

Definition bit (c : Z) : Prop := c = 0 \/ c = 1.

(** [Add64] gives the 64 low bits of the sum of two words and a carry, and
    the carry out of it. *)
Theorem Add64_exact x y carry : 0 <= x < 2 ^ 64 -> 0 <= y < 2 ^ 64 -> bit carry ->
  let '(sum, carryOut) := Add64 x y carry in
  0 <= sum < 2 ^ 64 /\ bit carryOut /\ x + y + carry = carryOut * 2 ^ 64 + sum.
Proof.
  intros Hx Hy Hc. unfold Add64, u64. rewrite Zplus_mod_idemp_l. remember (x + y + carry) as S eqn:ES.
  pose proof (Z.mod_pos_bound S (2 ^ 64) ltac:(lia)) as Hs. set (sum := S mod 2 ^ 64) in *.
  rewrite Z.shiftr_lor, Z.shiftr_land, Z.shiftr_ldiff, Z.shiftr_lor, !(shiftr_top 63) by lia.
  assert (HS : S = sum \/ S = 2 ^ 64 + sum).
  { unfold sum. destruct (Z.lt_ge_cases S (2 ^ 64)); [left; rewrite Z.mod_small; unfold bit in Hc; lia|right].
    rewrite <- (Z_mod_plus_full S (-1)), Z.mod_small; unfold bit in Hc; lia. }
  unfold bit in *. split; [done|].
  destruct (2 ^ 63 <=? x) eqn:Ex, (2 ^ 63 <=? y) eqn:Ey, (2 ^ 63 <=? sum) eqn:Es; cbn [Z.b2z];
    match goal with |- context [Z.lor ?a ?b] => let v := eval vm_compute in (Z.lor a b) in change (Z.lor a b) with v end; lia.
Qed.

Theorem Add32_exact x y carry : 0 <= x < 2 ^ 32 -> 0 <= y < 2 ^ 32 -> bit carry ->
  let '(sum, carryOut) := Add32 x y carry in
  0 <= sum < 2 ^ 32 /\ bit carryOut /\ x + y + carry = carryOut * 2 ^ 32 + sum.
Proof.
  intros Hx Hy Hc. unfold Add32, bit in *. rewrite !word64_small by (rewrite ?word64_small by lia; lia). set (S := x + y + carry).
  assert (HS : 0 <= S < 2 ^ 33) by (unfold S; lia). rewrite (shiftr_top 32) by done. unfold u32.
  destruct (2 ^ 32 <=? S) eqn:E; cbn [Z.b2z].
  - rewrite <- (Z_mod_plus_full S (-1)), (Z.mod_small (S + _)) by lia. change (1 mod 2 ^ 32) with 1. lia.
  - rewrite (Z.mod_small S) by lia. change (0 mod 2 ^ 32) with 0. lia.
Qed.

(** ** Differences *)

Lemma not_word n x : 0 <= n -> 0 <= x < 2 ^ n -> Z.lnot x mod 2 ^ n = 2 ^ n - 1 - x.
Proof. intros Hn Hx. unfold Z.lnot. rewrite <- (Z_mod_plus_full (Z.pred (- x)) 1), Z.mod_small; lia. Qed.

Lemma shiftr_lnot a n : 0 <= n -> Z.shiftr (Z.lnot a) n = Z.lnot (Z.shiftr a n).
Proof. intros Hn. apply Z.bits_inj'. intros i Hi. by rewrite Z.shiftr_spec, !Z.lnot_spec, Z.shiftr_spec by lia. Qed.

(** The borrow of a difference of words of [n + 1] bits. *)
Lemma borrow_bits n x y d : 0 <= n -> 0 <= x < 2 ^ (n + 1) -> 0 <= y < 2 ^ (n + 1) -> 0 <= d < 2 ^ (n + 1) ->
  Z.shiftr (Z.lor (Z.land (Z.lnot x mod 2 ^ (n + 1)) y) (Z.land (Z.lnot (Z.lxor x y) mod 2 ^ (n + 1)) d)) n =
  Z.b2z ((negb (2 ^ n <=? x) && (2 ^ n <=? y)) || (eqb (2 ^ n <=? x) (2 ^ n <=? y) && (2 ^ n <=? d))).
Proof.
  intros Hn Hx Hy Hd. assert (Hland : forall a b, 0 <= b < 2 ^ (n + 1) -> Z.land (a mod 2 ^ (n + 1)) b = Z.land a b).
  { intros a b Hb. rewrite Z.land_comm, land_wrap by lia. apply Z.land_comm. }
  rewrite !Hland by done. rewrite Z.shiftr_lor, !Z.shiftr_land, !shiftr_lnot, Z.shiftr_lxor, !(shiftr_top n) by done.
  by destruct (2 ^ n <=? x), (2 ^ n <=? y), (2 ^ n <=? d).
Qed.

Lemma borrow_spec n x y d borrow : 0 <= n -> 0 <= x < 2 ^ (n + 1) -> 0 <= y < 2 ^ (n + 1) -> bit borrow ->
  d = (x - y - borrow) mod 2 ^ (n + 1) ->
  let b := Z.b2z ((negb (2 ^ n <=? x) && (2 ^ n <=? y)) || (eqb (2 ^ n <=? x) (2 ^ n <=? y) && (2 ^ n <=? d))) in
  0 <= d < 2 ^ (n + 1) /\ bit b /\ x - y - borrow = d - b * 2 ^ (n + 1).
Proof.
  intros Hn Hx Hy Hb Ed. pose proof (pow_pos n Hn). assert (E2 : 2 ^ (n + 1) = 2 * 2 ^ n) by (rewrite Z.pow_add_r by lia; lia).
  rewrite E2 in *. set (P := 2 ^ n) in *. clearbody P. unfold bit in *. cbv zeta. remember (x - y - borrow) as D eqn:ED.
  assert (HD : D = d \/ D = d - 2 * P).
  { destruct (Z.lt_ge_cases D 0); [right|left; rewrite Ed, Z.mod_small; lia].
    rewrite Ed, <- (Z_mod_plus_full D 1), Z.mod_small; lia. }
  pose proof (Z.mod_pos_bound D (2 * P) ltac:(lia)).
  destruct (P <=? x) eqn:Ex, (P <=? y) eqn:Ey, (P <=? d) eqn:E3; cbn [negb andb orb eqb Z.b2z]; lia.
Qed.

(** [Sub64] gives the difference of two words and a borrow, and the borrow
    out of it. *)
Theorem Sub64_exact x y borrow : 0 <= x < 2 ^ 64 -> 0 <= y < 2 ^ 64 -> bit borrow ->
  let '(diff, borrowOut) := Sub64 x y borrow in
  0 <= diff < 2 ^ 64 /\ bit borrowOut /\ x - y - borrow = diff - borrowOut * 2 ^ 64.
Proof.
  intros Hx Hy Hb. unfold Sub64, not64, u64. rewrite Zminus_mod_idemp_l.
  pose proof (borrow_spec 63 x y _ borrow ltac:(lia) Hx Hy Hb eq_refl) as Hs. cbv zeta in Hs.
  rewrite <- borrow_bits in Hs by (lia || apply Z.mod_pos_bound; lia). exact Hs.
Qed.

Theorem Sub32_exact x y borrow : 0 <= x < 2 ^ 32 -> 0 <= y < 2 ^ 32 -> bit borrow ->
  let '(diff, borrowOut) := Sub32 x y borrow in
  0 <= diff < 2 ^ 32 /\ bit borrowOut /\ x - y - borrow = diff - borrowOut * 2 ^ 32.
Proof.
  intros Hx Hy Hb. unfold Sub32, not32, u32. rewrite Zminus_mod_idemp_l.
  pose proof (borrow_spec 31 x y _ borrow ltac:(lia) Hx Hy Hb eq_refl) as Hs. cbv zeta in Hs.
  rewrite <- borrow_bits in Hs by (lia || apply Z.mod_pos_bound; lia). exact Hs.
Qed.

(** ** Products *)

Lemma mul_identity b x1 x0 y1 y0 w0h w0l t w2 w1 w1h w1l :
  x0 * y0 = w0h * b + w0l -> t = x1 * y0 + w0h -> t = w2 * b + w1 -> w1 + x0 * y1 = w1h * b + w1l ->
  (x1 * b + x0) * (y1 * b + y0) = (x1 * y1 + w2 + w1h) * (b * b) + (w1l * b + w0l).
Proof.
  intros H0 Ht H2 H1. replace ((x1 * b + x0) * (y1 * b + y0)) with (x1 * y1 * (b * b) + (x1 * y0 + x0 * y1) * b + x0 * y0) by ring.
  rewrite H0. replace (x1 * y0) with (w2 * b + w1 - w0h) by lia. replace (x0 * y1) with (w1h * b + w1l - w1) by lia. ring.
Qed.

Lemma digits b x : 0 < b -> x = x / b * b + x mod b /\ 0 <= x mod b < b.
Proof. intros Hb. pose proof (Z.div_mod x b). pose proof (Z.mod_pos_bound x b Hb). lia. Qed.

Lemma digit_product b x y : 0 <= x < b -> 0 <= y < b -> 0 <= x * y <= (b - 1) * (b - 1).
Proof. nia. Qed.

Lemma high_digit x : 0 <= x < 2 ^ 64 -> 0 <= x / 2 ^ 32 < 2 ^ 32.
Proof. intros Hx. split; [apply Z.div_pos; lia|apply Z.div_lt_upper_bound; lia]. Qed.

(** C22: [Mul64] gives the high and the low half of the product of two words. *)
Theorem Mul64_exact x y : 0 <= x < 2 ^ 64 -> 0 <= y < 2 ^ 64 -> Mul64 x y = ((x * y) / 2 ^ 64, (x * y) mod 2 ^ 64).
Proof.
  intros Hx Hy. unfold Mul64. cbv zeta. rewrite !(land_mask32 x), !(land_mask32 y) by lia. rewrite !Z.shiftr_div_pow2 by lia.
  pose proof (high_digit x Hx) as Hx1. pose proof (high_digit y Hy) as Hy1. destruct (digits (2 ^ 32) x ltac:(lia)) as [Ex Hx0].
  destruct (digits (2 ^ 32) y ltac:(lia)) as [Ey Hy0]. set (x1 := x / 2 ^ 32) in *. set (x0 := x mod 2 ^ 32) in *.
  set (y1 := y / 2 ^ 32) in *. set (y0 := y mod 2 ^ 32) in *.
  pose proof (digit_product _ x0 y0 Hx0 Hy0). pose proof (digit_product _ x1 y0 Hx1 Hy0).
  pose proof (digit_product _ x0 y1 Hx0 Hy1). pose proof (digit_product _ x1 y1 Hx1 Hy1).
  rewrite (word64_small (x0 * y0)), (word64_small (x1 * y0)), (word64_small (x0 * y1)), (word64_small (x1 * y1)) by lia.
  destruct (digits (2 ^ 32) (x0 * y0) ltac:(lia)) as [E0 H0l]. pose proof (high_digit (x0 * y0) ltac:(lia)).
  set (w0h := x0 * y0 / 2 ^ 32) in *. set (t := x1 * y0 + w0h). rewrite (word64_small t) by lia.
  rewrite land_mask32 by lia. destruct (digits (2 ^ 32) t ltac:(lia)) as [Et Htl].
  set (w2 := t / 2 ^ 32) in *. set (w1 := t mod 2 ^ 32) in *. rewrite (word64_small (w1 + _)) by lia.
  destruct (digits (2 ^ 32) (w1 + x0 * y1) ltac:(lia)) as [E1 H1l]. set (w1h := (w1 + x0 * y1) / 2 ^ 32) in *.
  pose proof (mul_identity (2 ^ 32) x1 x0 y1 y0 w0h _ t w2 w1 w1h _ E0 eq_refl Et E1) as E. rewrite <- Ex, <- Ey in E.
  change (2 ^ 32 * 2 ^ 32) with (2 ^ 64) in E. set (r := (w1 + x0 * y1) mod 2 ^ 32 * 2 ^ 32 + _) in E.
  assert (Hr : 0 <= r < 2 ^ 64) by (unfold r; lia).
  assert (Hd : x * y / 2 ^ 64 = x1 * y1 + w2 + w1h) by (symmetry; apply (Z.div_unique_pos _ _ _ r); lia).
  unfold u64 at 1 2. rewrite Zplus_mod_idemp_l, <- Hd, Z.mod_small; [done|].
  split; [apply Z.div_pos; nia|apply Z.div_lt_upper_bound; nia].
Qed.

Theorem Mul32_exact x y : 0 <= x < 2 ^ 32 -> 0 <= y < 2 ^ 32 -> Mul32 x y = ((x * y) / 2 ^ 32, (x * y) mod 2 ^ 32).
Proof.
  intros Hx Hy. unfold Mul32. pose proof (digit_product _ x y Hx Hy). rewrite word64_small, Z.shiftr_div_pow2 by lia.
  pose proof (high_digit (x * y) ltac:(lia)). unfold u32. by rewrite (Z.mod_small (_ / _)) by lia.
Qed.

(** ** Quotients *)

(** One digit, in base [b], of the quotient of [u * b + d] by [y]. *)
Section Digit.
Context (b u d y yn1 yn0 : Z) (Hb : b = 2 ^ 32) (Hy : y = yn1 * b + yn0) (Hn1 : b <= 2 * yn1) (Hn1b : yn1 < b).
Context (Hn0 : 0 <= yn0 < b) (Hu : 0 <= u < y) (Hd : 0 <= d < b).

Lemma quotient_digit : 0 <= (u * b + d) / y < b /\ y * ((u * b + d) / y) <= u * b + d < y * ((u * b + d) / y + 1).
Proof.
  pose proof (Z.div_mod (u * b + d) y ltac:(nia)). pose proof (Z.mod_pos_bound (u * b + d) y ltac:(nia)).
  assert (0 <= (u * b + d) / y < b); [|nia]. split; [apply Z.div_pos; nia|apply Z.div_lt_upper_bound; nia].
Qed.

Lemma correct_digit fuel : forall q rhat, q * yn1 + rhat = u -> (u * b + d) / y <= q <= b + 1 -> 0 <= rhat < b ->
  b <= rhat + Z.of_nat fuel * yn1 -> correct fuel yn1 yn0 d q rhat = Ok ((u * b + d) / y).
Proof.
  destruct quotient_digit as [HQ HQy]. set (Q := (u * b + d) / y) in *.
  induction fuel as [|fuel IH]; intros q rhat Eu Hq Hr Hf; [lia|]. cbn [correct].
  change two32 with (2 ^ 32). rewrite <- Hb. assert (Hqn : 0 <= q * yn0 <= (b + 1) * (b - 1)) by nia.
  rewrite (word64_small (b * rhat)) by nia. rewrite (word64_small (b * rhat + d)) by nia. rewrite (word64_small (q * yn0)) by nia.
  assert (Eqy : q * y = u * b - rhat * b + q * yn0) by (rewrite Hy; nia).
  destruct ((b <=? q) || (b * rhat + d <? q * yn0)) eqn:E.
  - assert (HqQ : Q < q) by nia. rewrite (word64_small (q - 1)), (word64_small (rhat + yn1)) by lia.
    destruct (b <=? rhat + yn1) eqn:Eb; [f_equal; nia|]. replace (Z.of_nat (S fuel) * yn1) with (Z.of_nat fuel * yn1 + yn1) in Hf by (rewrite Nat2Z.inj_succ; ring). apply IH; lia.
  - f_equal. nia.
Qed.

Lemma first_digit : correct 3 yn1 yn0 d (u / yn1) (u64 (u - u64 (u / yn1 * yn1))) = Ok ((u * b + d) / y).
Proof.
  destruct quotient_digit as [HQ HQy]. pose proof (Z.div_mod u yn1 ltac:(lia)) as Eu. pose proof (Z.mod_pos_bound u yn1 ltac:(lia)).
  assert (Hq0 : 0 <= u / yn1 <= b + 1).
  { split; [apply Z.div_pos; lia|]. apply Z.lt_succ_r, Z.div_lt_upper_bound; nia. }
  rewrite (word64_small (_ * _)) by nia. rewrite word64_small by nia. apply correct_digit; [lia| |lia|lia].
  split; [|lia]. apply Z.div_le_lower_bound; [lia|]. nia.
Qed.
End Digit.

Lemma normalized y : 0 < y < 2 ^ 64 ->
  let s := LeadingZeros64 y in 0 <= s < 64 /\ 2 ^ 63 <= y * 2 ^ s < 2 ^ 64.
Proof.
  intros Hy. cbv zeta. unfold LeadingZeros64. rewrite Len64_size by lia. destruct (size_bounds y) as [Hs Hs0]; [lia|].
  assert (Hs64 : size y <= 64).
  { destruct (Z.le_gt_cases (size y) 64) as [|Hgt]; [done|]. pose proof (Z.pow_le_mono_r 2 64 (size y - 1)). lia. }
  split; [lia|]. pose proof (pow_pos (64 - size y) ltac:(lia)).
  replace (2 ^ 63) with (2 ^ (size y - 1) * 2 ^ (64 - size y)) by (rewrite <- Z.pow_add_r by lia; f_equal; lia).
  replace (2 ^ 64) with (2 ^ size y * 2 ^ (64 - size y)) by (rewrite <- Z.pow_add_r by lia; f_equal; lia). nia.
Qed.

(** The dividend, moved to the left. *)
Lemma shifted_dividend hi lo s : 0 <= hi -> 0 <= lo < 2 ^ 64 -> 0 <= s < 64 -> hi * 2 ^ s < 2 ^ 64 ->
  let un32 := Z.lor (u64 (Z.shiftl hi s)) (Z.shiftr lo (64 - s)) in
  let un10 := u64 (Z.shiftl lo s) in
  un32 = hi * 2 ^ s + lo / 2 ^ (64 - s) /\ 0 <= lo / 2 ^ (64 - s) < 2 ^ s /\ 0 <= un10 < 2 ^ 64 /\
  (hi * 2 ^ 64 + lo) * 2 ^ s = un32 * 2 ^ 64 + un10.
Proof.
  intros Hhi Hlo Hs Hh. cbv zeta. pose proof (pow_pos s ltac:(lia)) as Hp. pose proof (pow_pos (64 - s) ltac:(lia)) as Hp'.
  assert (E64 : 2 ^ 64 = 2 ^ (64 - s) * 2 ^ s) by (rewrite <- Z.pow_add_r by lia; f_equal; lia).
  assert (Hb : 0 <= lo / 2 ^ (64 - s) < 2 ^ s) by (split; [apply Z.div_pos; lia|apply Z.div_lt_upper_bound; lia]).
  assert (Eun : Z.lor (u64 (Z.shiftl hi s)) (Z.shiftr lo (64 - s)) = hi * 2 ^ s + lo / 2 ^ (64 - s)).
  { rewrite word64_small by (rewrite Z.shiftl_mul_pow2 by lia; nia). rewrite Z.shiftr_div_pow2 by lia. apply lor_disjoint; lia. }
  rewrite Eun. unfold u64. rewrite Z.shiftl_mul_pow2 by lia. split; [done|]. split; [done|]. split; [apply Z.mod_pos_bound; lia|].
  rewrite E64 at 2 3. rewrite Z.mul_mod_distr_r by lia. pose proof (Z.div_mod lo (2 ^ (64 - s)) ltac:(lia)).
  rewrite E64. nia.
Qed.

(** The remainder after a digit, as words compute it. *)
Lemma digit_rem u d q y : 0 <= u * two32 + d - q * y < 2 ^ 64 ->
  u64 (u64 (u64 (u * two32) + d) - u64 (q * y)) = u * two32 + d - q * y.
Proof. intros Hr. unfold u64. rewrite Zplus_mod_idemp_l, <- Zminus_mod. by apply Z.mod_small. Qed.

Lemma two_digits N y s Y un32 un1 un0 : 0 < y -> Y = y * 2 ^ s -> 0 <= s -> N * 2 ^ s = un32 * 2 ^ 64 + (un1 * 2 ^ 32 + un0) ->
  let q1 := (un32 * 2 ^ 32 + un1) / Y in let r1 := un32 * 2 ^ 32 + un1 - q1 * Y in
  let q0 := (r1 * 2 ^ 32 + un0) / Y in let r0 := r1 * 2 ^ 32 + un0 - q0 * Y in
  q1 * 2 ^ 32 + q0 = N / y /\ Z.shiftr r0 s = N mod y /\ 0 <= r1 < Y /\ 0 <= r0 < Y.
Proof.
  intros Hy HY Hs EN. cbv zeta. pose proof (pow_pos s Hs) as Hp. assert (HY0 : 0 < Y) by nia.
  set (q1 := (un32 * 2 ^ 32 + un1) / Y). set (r1 := un32 * 2 ^ 32 + un1 - q1 * Y).
  set (q0 := (r1 * 2 ^ 32 + un0) / Y). set (r0 := r1 * 2 ^ 32 + un0 - q0 * Y).
  assert (Hr1 : 0 <= r1 < Y).
  { unfold r1. pose proof (Z.div_mod (un32 * 2 ^ 32 + un1) Y ltac:(lia)). pose proof (Z.mod_pos_bound (un32 * 2 ^ 32 + un1) Y HY0).
    fold q1 in H. lia. }
  assert (Hr0 : 0 <= r0 < Y).
  { unfold r0. pose proof (Z.div_mod (r1 * 2 ^ 32 + un0) Y ltac:(lia)). pose proof (Z.mod_pos_bound (r1 * 2 ^ 32 + un0) Y HY0).
    fold q0 in H. lia. }
  assert (EN2 : N * 2 ^ s = (q1 * 2 ^ 32 + q0) * Y + r0) by (unfold r0, r1; rewrite EN; lia).
  assert (Eq : q1 * 2 ^ 32 + q0 = N / y).
  { rewrite <- (Z.div_mul_cancel_r N y (2 ^ s)) by lia. rewrite <- HY. apply (Z.div_unique_pos _ _ _ r0); lia. }
  split; [done|]. split; [|done]. rewrite Z.shiftr_div_pow2, Z.mod_eq, <- Eq by lia.
  replace r0 with ((N - y * (q1 * 2 ^ 32 + q0)) * 2 ^ s) by (rewrite HY in EN2; lia). apply Z.div_mul. lia.
Qed.

Lemma u64_sum a b : 0 <= a + b < 2 ^ 64 -> u64 (u64 a + b) = a + b.
Proof. intros Hab. unfold u64. rewrite Zplus_mod_idemp_l. by apply Z.mod_small. Qed.

Lemma dividend32 hi lo : 0 <= hi < 2 ^ 32 -> 0 <= lo < 2 ^ 32 -> Z.lor (u64 (Z.shiftl hi 32)) lo = hi * 2 ^ 32 + lo.
Proof. intros Hhi Hlo. rewrite word64_small by (rewrite Z.shiftl_mul_pow2; lia). by apply lor_disjoint. Qed.

Lemma Div64_at hi lo y : 0 <= hi < 2 ^ 64 -> 0 <= lo < 2 ^ 64 -> 0 <= y < 2 ^ 64 ->
  Div64 hi lo y =
    if y =? 0 then Panic divideError
    else if y <=? hi then Panic overflowError
    else Ok ((hi * 2 ^ 64 + lo) / y, (hi * 2 ^ 64 + lo) mod y).
Proof.
  intros Hhi Hlo Hy. unfold Div64. destruct (y =? 0) eqn:E0; [done|]. destruct (y <=? hi) eqn:E1; [done|].
  destruct (hi =? 0) eqn:E2; [replace hi with 0 by lia; done|]. cbv zeta.
  destruct (normalized y ltac:(lia)) as [Hs HY]. set (s := LeadingZeros64 y) in *. pose proof (pow_pos s ltac:(lia)) as Hp.
  destruct (shifted_dividend hi lo s ltac:(lia) Hlo Hs ltac:(nia)) as (Eun & Hb & H10 & EN). cbv zeta in Eun, H10, EN.
  set (un32 := Z.lor _ _) in *. set (un10 := u64 (Z.shiftl lo s)) in *.
  rewrite (Z.shiftl_mul_pow2 y) by lia. rewrite (word64_small (y * 2 ^ s)) by lia. set (Y := y * 2 ^ s) in *.
  rewrite !land_mask32, !(Z.shiftr_div_pow2 _ 32) by lia. pose proof (high_digit Y ltac:(lia)). pose proof (high_digit un10 H10).
  destruct (digits (2 ^ 32) Y ltac:(lia)) as [EY HYl]. destruct (digits (2 ^ 32) un10 ltac:(lia)) as [Eu Hul].
  assert (HnY : 2 ^ 32 <= 2 * (Y / 2 ^ 32)) by lia. assert (HuY : 0 <= un32 < Y) by (rewrite Eun; unfold Y; nia).
  rewrite Eu in EN. destruct (two_digits _ y s Y un32 (un10 / 2 ^ 32) (un10 mod 2 ^ 32) ltac:(lia) eq_refl ltac:(lia) EN) as (Eq & Er & Hr1 & Hr0).
  rewrite (first_digit (2 ^ 32) un32 (un10 / 2 ^ 32) Y) by (done || lia).
  rewrite digit_rem by (change two32 with (2 ^ 32); lia). change two32 with (2 ^ 32).
  rewrite (first_digit (2 ^ 32) _ (un10 mod 2 ^ 32) Y) by (done || lia).
  rewrite <- Eq, <- Er. change (2 ^ 32) with two32 in *. rewrite digit_rem by lia. rewrite u64_sum; [done|]. rewrite Eq.
  split; [apply Z.div_pos; lia|apply Z.div_lt_upper_bound; nia].
Qed.

(** C21: [Div64] gives the quotient and the remainder of a double word by a
    word, and panics exactly where the divisor is 0 or the quotient does not
    fit into a word. *)
Theorem Div64_exact hi lo y : 0 <= hi < 2 ^ 64 -> 0 <= lo < 2 ^ 64 -> 0 <= y < 2 ^ 64 ->
  Div64 hi lo y =
    if y =? 0 then Panic divideError
    else if y <=? hi then Panic overflowError
    else Ok ((hi * 2 ^ 64 + lo) / y, (hi * 2 ^ 64 + lo) mod y).
Proof. apply Div64_at. Qed.

Theorem Rem64_exact hi lo y : 0 <= hi < 2 ^ 64 -> 0 <= lo < 2 ^ 64 -> 0 <= y < 2 ^ 64 ->
  Rem64 hi lo y = if y =? 0 then Panic divideError else Ok ((hi * 2 ^ 64 + lo) mod y).
Proof.
  intros Hhi Hlo Hy. unfold Rem64. destruct (y =? 0) eqn:E0; [done|]. pose proof (Z.mod_pos_bound hi y ltac:(lia)).
  rewrite Div64_at by lia. rewrite E0. destruct (y <=? hi mod y) eqn:E1; [lia|]. f_equal.
  rewrite <- Zplus_mod_idemp_l, Zmult_mod_idemp_l, Zplus_mod_idemp_l. done.
Qed.

Theorem Div32_exact hi lo y : 0 <= hi < 2 ^ 32 -> 0 <= lo < 2 ^ 32 -> 0 <= y < 2 ^ 32 ->
  Div32 hi lo y =
    if y =? 0 then Panic divideError
    else if y <=? hi then Panic overflowError
    else Ok ((hi * 2 ^ 32 + lo) / y, (hi * 2 ^ 32 + lo) mod y).
Proof.
  intros Hhi Hlo Hy. unfold Div32. rewrite dividend32 by done. destruct (y =? 0) eqn:E0; [done|]. cbn [negb andb].
  destruct (y <=? hi) eqn:E1; [done|]. set (N := hi * 2 ^ 32 + lo). pose proof (Z.mod_pos_bound N y ltac:(lia)).
  assert (HN : 0 <= N / y < 2 ^ 32) by (split; [apply Z.div_pos; lia|apply Z.div_lt_upper_bound; lia]).
  by rewrite !word32_small by lia.
Qed.

Theorem Rem32_exact hi lo y : 0 <= hi < 2 ^ 32 -> 0 <= lo < 2 ^ 32 -> 0 <= y < 2 ^ 32 ->
  Rem32 hi lo y = if y =? 0 then Panic divideError else Ok ((hi * 2 ^ 32 + lo) mod y).
Proof.
  intros Hhi Hlo Hy. unfold Rem32. rewrite dividend32 by done. destruct (y =? 0) eqn:E0; [done|].
  pose proof (Z.mod_pos_bound (hi * 2 ^ 32 + lo) y ltac:(lia)). by rewrite word32_small by lia.
Qed.



(** ** Witnesses *)

Lemma Add64_exact_witness : 0 <= 2 ^ 64 - 1 < 2 ^ 64 /\ 0 <= 1 < 2 ^ 64 /\ bit 1 /\
  let '(sum, carryOut) := Add64 (2 ^ 64 - 1) 1 1 in
  0 <= sum < 2 ^ 64 /\ bit carryOut /\ 2 ^ 64 - 1 + 1 + 1 = carryOut * 2 ^ 64 + sum.
Proof. split; [lia|]. split; [lia|]. assert (Hb : bit 1) by (by right). split; [exact Hb|]. apply (Add64_exact (2 ^ 64 - 1) 1 1); [lia|lia|exact Hb]. Defined.

Lemma Sub64_exact_witness : 0 <= 0 < 2 ^ 64 /\ 0 <= 2 ^ 63 < 2 ^ 64 /\ bit 1 /\
  let '(diff, borrowOut) := Sub64 0 (2 ^ 63) 1 in
  0 <= diff < 2 ^ 64 /\ bit borrowOut /\ 0 - 2 ^ 63 - 1 = diff - borrowOut * 2 ^ 64.
Proof. split; [lia|]. split; [lia|]. assert (Hb : bit 1) by (by right). split; [exact Hb|]. apply (Sub64_exact 0 (2 ^ 63) 1); [lia|lia|exact Hb]. Defined.

Lemma Mul64_exact_witness : 0 <= 2 ^ 64 - 1 < 2 ^ 64 /\ 0 <= 2 ^ 63 + 5 < 2 ^ 64 /\
  Mul64 (2 ^ 64 - 1) (2 ^ 63 + 5) = ((2 ^ 64 - 1) * (2 ^ 63 + 5) / 2 ^ 64, ((2 ^ 64 - 1) * (2 ^ 63 + 5)) mod 2 ^ 64).
Proof. split; [lia|]. split; [lia|]. apply (Mul64_exact (2 ^ 64 - 1) (2 ^ 63 + 5)); lia. Defined.

Lemma Div64_exact_witness : 0 <= 41 < 2 ^ 64 /\ 0 <= 7 < 2 ^ 64 /\ 0 <= 42 < 2 ^ 64 /\
  Div64 41 7 42 =
    if 42 =? 0 then Panic divideError
    else if 42 <=? 41 then Panic overflowError
    else Ok ((41 * 2 ^ 64 + 7) / 42, (41 * 2 ^ 64 + 7) mod 42).
Proof. split; [lia|]. split; [lia|]. split; [lia|]. apply (Div64_exact 41 7 42); lia. Defined.
