(* ===== verification/Abt.v ===== *)
(** * src/src/cmd/compile/internal/abt: applicative balanced trees

    Maps from 32-bit integers that share their nodes: an operation changes the
    nodes that it made itself, and leaves the others to the maps that hold them.
    Nodes and maps live in a store, as the code has them; a pointer is [None]
    for nil.  The values are the type [D], whose equality is the comparison of
    interfaces ([None] is the nil interface). *)

From S2P Require Import Prelude Format.
From stdpp Require Import gmap.

#[local] Open Scope Z_scope.
#[local] Open Scope go_scope.

Definition LEAF_HEIGHT : Z := 1.
Definition ZERO_HEIGHT : Z := 0.
Definition NOT_KEY32 : Z := - 0x80000000.

(** Heights are of type [int8]: nothing recurs deeper. *)
Definition max_depth : nat := 128.

Definition loc := positive.
Definition ptr := option loc.

(** [p == q] *)
Definition same (p q : ptr) : bool := bool_decide (p = q).

Section Abt.
Context {D : Type} `{EqDecision D}.

Definition data_ := option D.
Definition eq_data (x y : data_) : bool := bool_decide (x = y).

Record node32 := Node32 { left : ptr; right : ptr; data : data_; key : Z; height_ : Z }.
Record T := mkT { root : ptr; size : Z }.

Record heap := Heap { nodes : gmap loc node32; trees : gmap loc T; next : loc }.

(** A panic carries its message; an event is a call of the function that
    [VisitInOrder] is given. *)
Definition M (A : Type) : Type := GM string (Z * data_) heap A.

(** ** The store *)

Definition nil_dereference : string := "invalid memory address or nil pointer dereference".

Definition deref (t : ptr) : M node32 :=
  match t with
  | None => panic nil_dereference
  | Some l =>
      let* m := gets nodes in
      match m !! l with
      | Some n => ret n
      | None => panic nil_dereference
      end
  end.

Definition field {A} (f : node32 -> A) (t : ptr) : M A := let* n := deref t in ret (f n).

Definition update (t : ptr) (f : node32 -> node32) : M unit :=
  let* n := deref t in
  match t with
  | None => ret tt
  | Some l => modify (fun h => Heap (<[l := f n]> (nodes h)) (trees h) (next h))
  end.

Definition new (n : node32) : M ptr :=
  let* l := gets next in
  modify (fun h => Heap (<[l := n]> (nodes h)) (trees h) (Pos.succ (next h)));;;
  ret (Some l).

Definition set_left (p : ptr) (n : node32) : node32 := Node32 p (right n) (data n) (key n) (height_ n).
Definition set_right (p : ptr) (n : node32) : node32 := Node32 (left n) p (data n) (key n) (height_ n).
Definition set_data (d : data_) (n : node32) : node32 := Node32 (left n) (right n) d (key n) (height_ n).
Definition set_key (k : Z) (n : node32) : node32 := Node32 (left n) (right n) (data n) k (height_ n).
Definition set_height (h : Z) (n : node32) : node32 := Node32 (left n) (right n) (data n) (key n) h.

Definition derefT (t : loc) : M T :=
  let* m := gets trees in
  match m !! t with
  | Some x => ret x
  | None => panic nil_dereference
  end.

Definition newT (x : T) : M loc :=
  let* l := gets next in
  modify (fun h => Heap (nodes h) (<[l := x]> (trees h)) (Pos.succ (next h)));;;
  ret l.

Definition storeT (t : loc) (x : T) : M unit :=
  modify (fun h => Heap (nodes h) (<[t := x]> (trees h)) (next h)).

(** ** Nodes *)

Definition makeNode (key : Z) : M ptr := new (Node32 None None None key LEAF_HEIGHT).

Definition nilOrData (n : ptr) : M data_ :=
  match n with
  | None => ret None
  | Some _ => field data n
  end.

Definition nilOrKeyAndData (n : ptr) : M (Z * data_) :=
  match n with
  | None => ret (NOT_KEY32, None)
  | Some _ => field (fun n => (key n, data n)) n
  end.

Definition height (n : ptr) : M Z :=
  match n with
  | None => ret 0
  | Some _ => field height_ n
  end.

Definition isLeaf (t : ptr) : M bool :=
  let* n := deref t in
  ret (same (left n) None && same (right n) None && (height_ n =? LEAF_HEIGHT)).

Definition copy (t : ptr) : M ptr := let* u := deref t in new u.

(** ** Rotations *)

Definition rightToRoot (t : ptr) : M ptr :=
  let* right_ := field right t in
  let* rl := field left right_ in
  update right_ (set_left t);;;
  update t (set_right rl);;;
  let* hrl := height rl in
  let* l := field left t in
  let* hl := height l in
  update t (set_height (s8 (1 + Z.max hrl hl)));;;
  let* ht := height t in
  let* rr := field right right_ in
  let* hrr := height rr in
  update right_ (set_height (s8 (1 + Z.max ht hrr)));;;
  ret right_.

Definition leftToRoot (t : ptr) : M ptr :=
  let* left_ := field left t in
  let* lr := field right left_ in
  update left_ (set_right t);;;
  update t (set_left lr);;;
  let* hlr := height lr in
  let* r := field right t in
  let* hr := height r in
  update t (set_height (s8 (1 + Z.max hlr hr)));;;
  let* ht := height t in
  let* ll := field left left_ in
  let* hll := height ll in
  update left_ (set_height (s8 (1 + Z.max ht hll)));;;
  ret left_.

Definition aRightIsHigh (t newnode : ptr) : M ptr :=
  let* right_ := field right t in
  let* rr := field right right_ in
  let* hrr := height rr in
  let* rl := field left right_ in
  let* hrl := height rl in
  when hrr <? hrl do
    (when negb (same newnode rl) do
       (let* c := copy rl in update right_ (set_left c));;;
     let* r := leftToRoot right_ in
     update t (set_right r));;;
  rightToRoot t.

Definition aLeftIsHigh (t newnode : ptr) : M ptr :=
  let* left_ := field left t in
  let* ll := field left left_ in
  let* hll := height ll in
  let* lr := field right left_ in
  let* hlr := height lr in
  when hll <? hlr do
    (when negb (same newnode lr) do
       (let* c := copy lr in update left_ (set_right c));;;
     let* r := rightToRoot left_ in
     update t (set_left r));;;
  leftToRoot t.

(** ** Search *)

(** Recursions and loops go down the tree, and take [max_depth] as fuel. *)
Fixpoint find_ (fuel : nat) (t : ptr) (x : Z) : M ptr :=
  match fuel, t with
  | _, None => ret None
  | O, _ => out_of_fuel
  | S fuel, _ =>
      let* n := deref t in
      if x <? key n then find_ fuel (left n) x
      else if key n <? x then find_ fuel (right n) x
      else ret t
  end.
Definition find (t : ptr) (x : Z) : M ptr := find_ max_depth t x.

Fixpoint min_ (fuel : nat) (t : ptr) : M ptr :=
  match fuel with
  | O => out_of_fuel
  | S fuel =>
      let* l := field left t in
      match l with
      | None => ret t
      | Some _ => min_ fuel l
      end
  end.
Definition min (t : ptr) : M ptr :=
  match t with
  | None => ret t
  | Some _ => min_ max_depth t
  end.

Fixpoint max_ (fuel : nat) (t : ptr) : M ptr :=
  match fuel with
  | O => out_of_fuel
  | S fuel =>
      let* r := field right t in
      match r with
      | None => ret t
      | Some _ => max_ fuel r
      end
  end.
Definition max (t : ptr) : M ptr :=
  match t with
  | None => ret t
  | Some _ => max_ max_depth t
  end.

Fixpoint glb_ (fuel : nat) (t best : ptr) (x : Z) (allow_eq : bool) : M ptr :=
  match fuel, t with
  | _, None => ret best
  | O, _ => out_of_fuel
  | S fuel, _ =>
      let* n := deref t in
      if x <=? key n then
        if allow_eq && (x =? key n) then ret t
        else glb_ fuel (left n) best x allow_eq
      else glb_ fuel (right n) t x allow_eq
  end.
Definition glb (t : ptr) (x : Z) (allow_eq : bool) : M ptr := glb_ max_depth t None x allow_eq.

Fixpoint lub_ (fuel : nat) (t best : ptr) (x : Z) (allow_eq : bool) : M ptr :=
  match fuel, t with
  | _, None => ret best
  | O, _ => out_of_fuel
  | S fuel, _ =>
      let* n := deref t in
      if key n <=? x then
        if allow_eq && (x =? key n) then ret t
        else lub_ fuel (right n) best x allow_eq
      else lub_ fuel (left n) t x allow_eq
  end.
Definition lub (t : ptr) (x : Z) (allow_eq : bool) : M ptr := lub_ max_depth t None x allow_eq.

Fixpoint visitInOrder (fuel : nat) (t : ptr) : M unit :=
  match fuel with
  | O => out_of_fuel
  | S fuel =>
      let* l := field left t in
      when negb (same l None) do visitInOrder fuel l;;;
      let* n := deref t in
      emit (key n, data n);;;
      let* r := field right t in
      when negb (same r None) do visitInOrder fuel r
  end.

(** ** Insertion *)

(** The results are the new root, the new node and the old node. *)
Fixpoint aInsert (fuel : nat) (t : ptr) (x : Z) : M (ptr * ptr * ptr) :=
  match fuel with
  | O => out_of_fuel
  | S fuel =>
      let* n := deref t in
      if x =? key n then
        let oldnode := t in
        let* newnode := copy t in
        ret (newnode, newnode, oldnode)
      else if x <? key n then
        match left n with
        | None =>
            let* t := copy t in
            let* n := makeNode x in
            update t (set_left n);;;
            update t (set_height 2);;;
            ret (t, n, None)
        | Some _ =>
            let* (new_l, newnode, oldnode) := aInsert fuel (left n) x in
            let* t := copy t in
            update t (set_left new_l);;;
            let* hl := height new_l in
            let* r := field right t in
            let* hr := height r in
            if s8 (1 + hr) <? hl then
              let* newroot := aLeftIsHigh t newnode in
              ret (newroot, newnode, oldnode)
            else
              let* l := field left t in
              let* hl := height l in
              let* hr := height r in
              update t (set_height (s8 (1 + Z.max hl hr)));;;
              ret (t, newnode, oldnode)
        end
      else
        match right n with
        | None =>
            let* t := copy t in
            let* n := makeNode x in
            update t (set_right n);;;
            update t (set_height 2);;;
            ret (t, n, None)
        | Some _ =>
            let* (new_r, newnode, oldnode) := aInsert fuel (right n) x in
            let* t := copy t in
            update t (set_right new_r);;;
            let* hr := height new_r in
            let* l := field left t in
            let* hl := height l in
            if s8 (1 + hl) <? hr then
              let* newroot := aRightIsHigh t newnode in
              ret (newroot, newnode, oldnode)
            else
              let* hl := height l in
              let* r := field right t in
              let* hr := height r in
              update t (set_height (s8 (1 + Z.max hl hr)));;;
              ret (t, newnode, oldnode)
        end
  end.

(** ** Deletion *)

Definition aRebalanceAfterLeftDeletion (t : ptr) (oldLeftHeight : Z) (tleft : ptr) : M ptr :=
  update t (set_left tleft);;;
  let* hl := height tleft in
  let* r := field right t in
  let* hr := height r in
  if (oldLeftHeight =? hl) || (oldLeftHeight =? hr) then ret t
  else if hr <? oldLeftHeight then
    let* h := field height_ t in
    update t (set_height (s8 (h - 1)));;;
    ret t
  else
    let* c := copy r in
    update t (set_right c);;;
    aRightIsHigh t None.

Definition aRebalanceAfterRightDeletion (t : ptr) (oldRightHeight : Z) (tright : ptr) : M ptr :=
  update t (set_right tright);;;
  let* hr := height tright in
  let* l := field left t in
  let* hl := height l in
  if (oldRightHeight =? hr) || (oldRightHeight =? hl) then ret t
  else if hl <? oldRightHeight then
    let* h := field height_ t in
    update t (set_height (s8 (h - 1)));;;
    ret t
  else
    let* c := copy l in
    update t (set_left c);;;
    aLeftIsHigh t None.

(** The results are the deleted node and the new subtree. *)
Fixpoint aDeleteMin (fuel : nat) (t : ptr) : M (ptr * ptr) :=
  match fuel, t with
  | _, None => ret (None, None)
  | O, _ => out_of_fuel
  | S fuel, _ =>
      let* n := deref t in
      match left n with
      | None => ret (t, right n)
      | Some _ =>
          let* oh := height (left n) in
          let* (d, tleft) := aDeleteMin fuel (left n) in
          let* l := field left t in
          if same tleft l then ret (d, t)
          else
            let* c := copy t in
            let* r := aRebalanceAfterLeftDeletion c oh tleft in
            ret (d, r)
      end
  end.

Fixpoint aDeleteMax (fuel : nat) (t : ptr) : M (ptr * ptr) :=
  match fuel, t with
  | _, None => ret (None, None)
  | O, _ => out_of_fuel
  | S fuel, _ =>
      let* n := deref t in
      match right n with
      | None => ret (t, left n)
      | Some _ =>
          let* oh := height (right n) in
          let* (d, tright) := aDeleteMax fuel (right n) in
          let* r := field right t in
          if same tright r then ret (d, t)
          else
            let* c := copy t in
            let* r := aRebalanceAfterRightDeletion c oh tright in
            ret (d, r)
      end
  end.

Fixpoint aDelete (fuel : nat) (t : ptr) (x : Z) : M (ptr * ptr) :=
  match fuel, t with
  | _, None => ret (None, None)
  | O, _ => out_of_fuel
  | S fuel, _ =>
      let* n := deref t in
      if x <? key n then
        let* oh := height (left n) in
        let* (d, tleft) := aDelete fuel (left n) x in
        let* l := field left t in
        if same tleft l then ret (d, t)
        else
          let* c := copy t in
          let* r := aRebalanceAfterLeftDeletion c oh tleft in
          ret (d, r)
      else if key n <? x then
        let* oh := height (right n) in
        let* (d, tright) := aDelete fuel (right n) x in
        let* r := field right t in
        if same tright r then ret (d, t)
        else
          let* c := copy t in
          let* r := aRebalanceAfterRightDeletion c oh tright in
          ret (d, r)
      else
        let* h := height t in
        if h =? LEAF_HEIGHT then ret (t, None)
        else
          let* hl := height (left n) in
          let* hr := height (right n) in
          if hr <? hl then
            let* oh := height (left n) in
            let* (d, tleft) := aDeleteMax fuel (left n) in
            let r := t in
            let* t := copy t in
            let* dn := deref d in
            update t (set_data (data dn));;;
            update t (set_key (key dn));;;
            let* s := aRebalanceAfterLeftDeletion t oh tleft in
            ret (r, s)
          else
            let* oh := height (right n) in
            let* (d, tright) := aDeleteMin fuel (right n) in
            let r := t in
            let* t := copy t in
            let* dn := deref d in
            update t (set_data (data dn));;;
            update t (set_key (key dn));;;
            let* s := aRebalanceAfterRightDeletion t oh tright in
            ret (r, s)
  end.

(** ** Iterators

    The stack of an iterator is a list with its top in front. *)

Definition iterator := list ptr.

Fixpoint leftmost (fuel : nat) (t : ptr) (parents : iterator) : M iterator :=
  match fuel, t with
  | _, None => ret parents
  | O, _ => out_of_fuel
  | S fuel, _ =>
      let* l := field left t in
      leftmost fuel l (t :: parents)
  end.

Definition iterator_ (t : ptr) : M iterator :=
  match t with
  | None => ret []
  | Some _ => leftmost max_depth t []
  end.

Definition done_ (it : iterator) : bool := match it with [] => true | _ => false end.

(** The loop that drops visited parents. *)
Fixpoint discard (y : ptr) (parents : iterator) : M iterator :=
  match parents with
  | [] => ret []
  | p :: rest =>
      let* r := field right p in
      if same y r then discard p rest else ret parents
  end.

Definition next_ (it : iterator) : M (ptr * iterator) :=
  match it with
  | [] => ret (None, it)
  | x :: rest =>
      let* r := field right x in
      match r with
      | Some _ => let* it := leftmost max_depth r it in ret (x, it)
      | None => let* it := discard x rest in ret (x, it)
      end
  end.

Definition Next (it : iterator) : M (Z * data_ * iterator) :=
  let* (x, it) := next_ it in
  match x with
  | None => ret (NOT_KEY32, None, it)
  | Some _ => let* n := deref x in ret (key n, data n, it)
  end.

Definition Done (it : iterator) : bool := done_ it.

(** The loop of [equals] and [equiv]; [eqv] compares the values. *)
Fixpoint equiv_loop (fuel : nat) (eqv : data_ -> data_ -> bool) (it iu : iterator) : M bool :=
  if negb (done_ it) && negb (done_ iu) then
    match fuel with
    | O => out_of_fuel
    | S fuel =>
        let* (nt, it) := next_ it in
        let* (nu, iu) := next_ iu in
        if same nt nu then equiv_loop fuel eqv it iu
        else
          let* n := deref nt in
          let* m := deref nu in
          if negb (key n =? key m) then ret false
          else if negb (eqv (data n) (data m)) then ret false
          else equiv_loop fuel eqv it iu
    end
  else ret (eqb (done_ it) (done_ iu)).

Definition equals (fuel : nat) (t u : ptr) : M bool :=
  if same t u then ret true
  else
    let* it := iterator_ t in
    let* iu := iterator_ u in
    equiv_loop fuel eq_data it iu.

Definition equiv (fuel : nat) (t u : ptr) (eqv : data_ -> data_ -> bool) : M bool :=
  if same t u then ret true
  else
    let* it := iterator_ t in
    let* iu := iterator_ u in
    equiv_loop fuel eqv it iu.

(** ** Maps *)

Definition IsEmpty (t : loc) : M bool := let* x := derefT t in ret (same (root x) None).

Definition IsSingle (t : loc) : M bool :=
  let* x := derefT t in
  if same (root x) None then ret false else isLeaf (root x).

Definition VisitInOrder (t : loc) : M unit :=
  let* x := derefT t in
  if same (root x) None then ret tt else visitInOrder max_depth (root x).

Definition Size (t : loc) : M Z := let* x := derefT t in ret (size x).

Definition Find (t : loc) (x : Z) : M data_ :=
  let* tr := derefT t in
  let* n := find (root tr) x in
  nilOrData n.

Definition Min (t : loc) : M (Z * data_) :=
  let* x := derefT t in let* n := min (root x) in nilOrKeyAndData n.
Definition Max (t : loc) : M (Z * data_) :=
  let* x := derefT t in let* n := max (root x) in nilOrKeyAndData n.
Definition Glb (t : loc) (x : Z) : M (Z * data_) :=
  let* tr := derefT t in let* n := glb (root tr) x false in nilOrKeyAndData n.
Definition GlbEq (t : loc) (x : Z) : M (Z * data_) :=
  let* tr := derefT t in let* n := glb (root tr) x true in nilOrKeyAndData n.
Definition Lub (t : loc) (x : Z) : M (Z * data_) :=
  let* tr := derefT t in let* n := lub (root tr) x false in nilOrKeyAndData n.
Definition LubEq (t : loc) (x : Z) : M (Z * data_) :=
  let* tr := derefT t in let* n := lub (root tr) x true in nilOrKeyAndData n.

Definition sentinel_key : string := "Cannot use sentinel value -0x80000000 as key".

Definition Insert (t : loc) (x : Z) (d : data_) : M data_ :=
  if x =? NOT_KEY32 then panic sentinel_key
  else
    let* tr := derefT t in
    let* (newroot, n, o) :=
      match root tr with
      | None => let* n := makeNode x in ret (n, n, None)
      | Some _ => aInsert max_depth (root tr) x
      end in
    let* (r, size_) :=
      match o with
      | Some _ => let* r := field data o in ret (r, size tr)
      | None => ret (None, size tr + 1)
      end in
    update n (set_data d);;;
    storeT t (mkT newroot size_);;;
    ret r.

Definition Copy (t : loc) : M loc := let* u := derefT t in newT u.

Definition Delete (t : loc) (x : Z) : M data_ :=
  let* tr := derefT t in
  match root tr with
  | None => ret None
  | Some _ =>
      let* (d, s) := aDelete max_depth (root tr) x in
      match d with
      | None => ret None
      | Some _ => storeT t (mkT s (size tr - 1));;; field data d
      end
  end.

Definition DeleteMin (t : loc) : M (Z * data_) :=
  let* tr := derefT t in
  match root tr with
  | None => ret (NOT_KEY32, None)
  | Some _ =>
      let* (d, s) := aDeleteMin max_depth (root tr) in
      match d with
      | None => ret (NOT_KEY32, None)
      | Some _ => storeT t (mkT s (size tr - 1));;; field (fun n => (key n, data n)) d
      end
  end.

Definition DeleteMax (t : loc) : M (Z * data_) :=
  let* tr := derefT t in
  match root tr with
  | None => ret (NOT_KEY32, None)
  | Some _ =>
      let* (d, s) := aDeleteMax max_depth (root tr) in
      match d with
      | None => ret (NOT_KEY32, None)
      | Some _ => storeT t (mkT s (size tr - 1));;; field (fun n => (key n, data n)) d
      end
  end.

Definition Iterator (t : loc) : M iterator := let* x := derefT t in iterator_ (root x).

(** [for it := t.Iterator(); !it.Done(); { k, d := it.Next(); body }] *)
Fixpoint each_ (fuel : nat) (it : iterator) (body : Z -> data_ -> M unit) : M unit :=
  if Done it then ret tt
  else
    match fuel with
    | O => out_of_fuel
    | S fuel =>
        let* (k, d, it) := Next it in
        body k d;;;
        each_ fuel it body
    end.

Definition each (t : loc) (body : Z -> data_ -> M unit) : M unit :=
  let* n := Size t in
  let* it := Iterator t in
  each_ (Z.to_nat n) it body.

(** A function argument that may be nil. *)
Definition merge := option (data_ -> data_ -> data_).

(** [if c := f(d, e); c != d { if c == nil { v.Delete(k) } else { v.Insert(k, c) } }] *)
Definition put (v : loc) (f : data_ -> data_ -> data_) (k : Z) (d e : data_) : M unit :=
  let c := f d e in
  if eq_data c d then ret tt
  else
    match c with
    | None => let* _ := Delete v k in ret tt
    | Some _ => let* _ := Insert v k c in ret tt
    end.

Definition Intersection (t u : loc) (f : merge) : M loc :=
  let* nt := Size t in
  let* nu := Size u in
  if (nt =? 0) || (nu =? 0) then newT (mkT None 0)
  else if nt <=? nu then
    let* v := Copy t in
    each t (fun k d =>
      let* e := Find u k in
      match e with
      | None => let* _ := Delete v k in ret tt
      | Some _ =>
          match f with
          | None => ret tt
          | Some f => put v f k d e
          end
      end);;;
    ret v
  else
    let* v := Copy u in
    each u (fun k e =>
      let* d := Find t k in
      match d with
      | None => let* _ := Delete v k in ret tt
      | Some _ =>
          match f with
          | None => ret tt
          | Some f => put v f k d e
          end
      end);;;
    ret v.

Definition Union (t u : loc) (f : merge) : M loc :=
  let* nt := Size t in
  if nt =? 0 then ret u
  else
    let* nu := Size u in
    if nu =? 0 then ret t
    else if nu <=? nt then
      let* v := Copy t in
      each u (fun k e =>
        let* d := Find t k in
        match d with
        | None => let* _ := Insert v k e in ret tt
        | Some _ =>
            match f with
            | None => ret tt
            | Some f => put v f k d e
            end
        end);;;
      ret v
    else
      let* v := Copy u in
      each t (fun k d =>
        let* e := Find u k in
        match e with
        | None => let* _ := Insert v k d in ret tt
        | Some _ =>
            match f with
            | None => ret tt
            | Some f => put v f k d e
            end
        end);;;
      ret v.

Definition Difference (t u : loc) (f : merge) : M loc :=
  let* nt := Size t in
  if nt =? 0 then newT (mkT None 0)
  else
    let* nu := Size u in
    if nu =? 0 then ret t
    else
      let* v := Copy t in
      each t (fun k d =>
        let* e := Find u k in
        match e with
        | None => ret tt
        | Some _ =>
            match f with
            | None => let* _ := Delete v k in ret tt
            | Some f =>
                let c := f d e in
                match c with
                | None => let* _ := Delete v k in ret tt
                | Some _ =>
                    if eq_data c d then ret tt
                    else let* _ := Insert v k c in ret tt
                end
            end
        end);;;
      ret v.

Definition Equals (t u : loc) : M bool :=
  if bool_decide (t = u) then ret true
  else
    let* nt := Size t in
    let* nu := Size u in
    if negb (nt =? nu) then ret false
    else
      let* x := derefT t in
      let* y := derefT u in
      equals (Z.to_nat nt) (root x) (root y).

Definition Equiv (t u : loc) (eqv : data_ -> data_ -> bool) : M bool :=
  if bool_decide (t = u) then ret true
  else
    let* nt := Size t in
    let* nu := Size u in
    if negb (nt =? nu) then ret false
    else
      let* x := derefT t in
      let* y := derefT u in
      equiv (Z.to_nat nt) (root x) (root y) eqv.

(** [String]; [Fprint] is what fmt prints of a value. *)
Fixpoint string_loop (Fprint : data_ -> string) (fuel : nat) (it : iterator) (first : bool) (b : string) : M string :=
  if Done it then ret b
  else
    match fuel with
    | O => out_of_fuel
    | S fuel =>
        let* (k, v, it) := Next it in
        let b := if first then b else (b ++ "; ")%string in
        let b := (b ++ string_of_bytes (FormatInt k))%string in
        let b := (b ++ ":")%string in
        string_loop Fprint fuel it false (b ++ Fprint v)%string
    end.

Definition String_ (Fprint : data_ -> string) (t : loc) : M string :=
  let* n := Size t in
  let* it := Iterator t in
  string_loop Fprint (Z.to_nat n) it true EmptyString.

End Abt.

Arguments node32 D : clear implicits.
Arguments heap D : clear implicits.
Arguments M D A : clear implicits.

(** A fresh store with a map that holds nothing. *)
Definition empty_heap {D} : heap D := Heap ∅ {[ 1%positive := mkT None 0 ]} 2%positive.

Module AbtExamples.
(** [{1: 10, 2: 20, 3: 30, 4: 40}], with a rotation at the root. *)
Definition four : M Z loc :=
  let* _ := Insert 1%positive 3 (Some 30) in let* _ := Insert 1%positive 2 (Some 20) in let* _ := Insert 1%positive 1 (Some 10) in
  let* _ := Insert 1%positive 4 (Some 40) in ret 1%positive.

Definition result {A} (m : M Z A) : option (A * list (Z * option Z)) :=
  match m empty_heap with Ok (a, _, t) => Some (a, t) | _ => None end.

Example insert_order : result (let* t := four in VisitInOrder t) = Some (tt, [(1, Some 10); (2, Some 20); (3, Some 30); (4, Some 40)]).
Proof. vm_compute. reflexivity. Qed.
Example insert_twice : result (let* t := four in Insert t 2 (Some 0)) = Some (Some 20, []).
Proof. vm_compute. reflexivity. Qed.
Example delete_copy : result (let* t := four in let* u := Copy t in let* _ := Delete u 2 in let* d := Find t 2 in let* e := Find u 2 in ret (d, e)) =
  Some ((Some 20, None), []).
Proof. vm_compute. reflexivity. Qed.
Example string_four : result (let* t := four in String_ (fun _ => "x"%string) t) = Some ("1:x; 2:x; 3:x; 4:x"%string, []).
Proof. vm_compute. reflexivity. Qed.
Example lub_between : result (let* t := four in let* _ := Delete t 2 in Lub t 1) = Some ((3, Some 30), []).
Proof. vm_compute. reflexivity. Qed.
Example sentinel : Insert (D:=Z) 1%positive (- 0x80000000) (Some 0) empty_heap = Panic sentinel_key.
Proof. vm_compute. reflexivity. Qed.

(** The values of [Intersection] are those of its first argument here, ... *)
Definition single : M Z loc := let* t := newT (mkT None 0) in let* _ := Insert t 2 (Some 7) in ret t.
Example intersection_small : result (let* u := four in let* t := single in let* v := Intersection t u (Some (fun d _ => d)) in Find v 2) = Some (Some 7, []).
Proof. vm_compute. reflexivity. Qed.
(** ... but not where the first argument is the larger one. *)
Example intersection_large : result (let* t := four in let* u := single in let* v := Intersection t u (Some (fun d _ => d)) in Find v 2) = Some (Some 7, []).
Proof. vm_compute. reflexivity. Qed.
End AbtExamples.
