(* ===== verification/SortedMaps.v ===== *)
(** * Finite maps as sorted lists

    The contents of a map: pairs of keys and values, in the order of the keys. *)

From S2P Require Import Prelude.
From Stdlib Require Import Sorted.

#[local] Open Scope Z_scope.

Section SortedMaps.
Context {V : Type}.
Implicit Types (l : list (Z * V)) (x k : Z).

Definition keys_of l : list Z := map fst l.
Definition sorted l : Prop := StronglySorted Z.lt (keys_of l).

Fixpoint linsert x (v : V) l : list (Z * V) :=
  match l with
  | [] => [(x, v)]
  | (k, d) :: l' => if x <? k then (x, v) :: l else if k <? x then (k, d) :: linsert x v l' else (x, v) :: l'
  end.

Definition lremove x l : list (Z * V) := List.filter (fun p => negb (fst p =? x)) l.

Fixpoint lfind x l : option V :=
  match l with
  | [] => None
  | (k, d) :: l' => if x =? k then Some d else lfind x l'
  end.

Definition below x l : Prop := Forall (fun p => fst p < x) l.
Definition above x l : Prop := Forall (fun p => x < fst p) l.

(** ** Order *)

Lemma sorted_cons k d l : sorted ((k, d) :: l) <-> above k l /\ sorted l.
Proof.
  unfold sorted, above. cbn [keys_of map]. split.
  - intros H. apply StronglySorted_inv in H as [H1 H2]. split; [|done]. exact (proj1 (List.Forall_map _ _ _) H2).
  - intros [H1 H2]. constructor; [done|]. exact (proj2 (List.Forall_map _ _ _) H1).
Qed.

Lemma above_weaken x y l : x <= y -> above y l -> above x l.
Proof. intros Hxy. apply List.Forall_impl. intros p Hp. lia. Qed.

Lemma below_weaken x y l : x <= y -> below x l -> below y l.
Proof. intros Hxy. apply List.Forall_impl. intros p Hp. lia. Qed.

Lemma sorted_app l1 k d l2 : sorted (l1 ++ (k, d) :: l2) <-> sorted l1 /\ sorted l2 /\ below k l1 /\ above k l2.
Proof.
  induction l1 as [|[k1 d1] l1 IH]; cbn [app].
  - rewrite sorted_cons. split; [|by intros (_ & H1 & _ & H2)]. intros [H1 H2]. split_and!; [apply SSorted_nil|done|apply List.Forall_nil|done].
  - rewrite !sorted_cons, IH. unfold above, below. rewrite Forall_app, !List.Forall_cons_iff. cbn [fst]. split.
    + intros ((H1 & H2 & H3) & H4 & H5 & H6 & H7). split_and!; done.
    + intros ((H1 & H2) & H3 & (H4 & H5) & H6). split_and!; try done. eapply above_weaken; [|exact H6]. lia.
Qed.

(** ** Insertion *)

Lemma linsert_app_l x v l1 k d l2 : x < k -> linsert x v (l1 ++ (k, d) :: l2) = linsert x v l1 ++ (k, d) :: l2.
Proof.
  intros Hx. induction l1 as [|[k1 d1] l1 IH]; cbn [app linsert].
  - by destruct (x <? k) eqn:E; [|lia].
  - destruct (x <? k1); [done|]. destruct (k1 <? x); [|done]. by rewrite IH.
Qed.

Lemma linsert_app_r x v l1 l2 : below x l1 -> linsert x v (l1 ++ l2) = l1 ++ linsert x v l2.
Proof.
  induction 1 as [|[k1 d1] l1 H1 Hl IH]; cbn [app linsert fst] in *; [done|].
  destruct (x <? k1) eqn:E1; [lia|]. destruct (k1 <? x) eqn:E2; [|lia]. by rewrite IH.
Qed.

Lemma linsert_mid x v l1 d l2 : below x l1 -> linsert x v (l1 ++ (x, d) :: l2) = l1 ++ (x, v) :: l2.
Proof. intros Hb. rewrite linsert_app_r by done. cbn [linsert]. by rewrite Z.ltb_irrefl. Qed.

Lemma linsert_bound (P : Z -> Prop) x v l : P x -> Forall (fun p => P (fst p)) l -> Forall (fun p => P (fst p)) (linsert x v l).
Proof.
  intros Hx. induction 1 as [|[k d] l Hk Hl IH]; cbn [linsert fst] in *; [by constructor|].
  destruct (x <? k); [by repeat constructor|]. destruct (k <? x); by constructor.
Qed.

Lemma linsert_sorted x v l : sorted l -> sorted (linsert x v l).
Proof.
  induction l as [|[k d] l IH]; cbn [linsert]; [intros Hs; apply sorted_cons; by split; [apply List.Forall_nil|]|]. intros [Ha Hs]%sorted_cons.
  destruct (x <? k) eqn:E1; [|destruct (k <? x) eqn:E2].
  - apply sorted_cons. split; [|by apply sorted_cons]. constructor; [cbn; lia|]. eapply above_weaken; [|exact Ha]. lia.
  - apply sorted_cons. split; [|by apply IH]. apply (linsert_bound (fun z => k < z)); [lia|done].
  - apply sorted_cons. split; [|done]. eapply above_weaken; [|exact Ha]. lia.
Qed.

Lemma linsert_linsert x v w l : linsert x v (linsert x w l) = linsert x v l.
Proof.
  induction l as [|[k d] l IH]; cbn [linsert]; [by rewrite Z.ltb_irrefl|]. destruct (x <? k) eqn:E1; [|destruct (k <? x) eqn:E2]; cbn [linsert].
  - by rewrite Z.ltb_irrefl.
  - by rewrite E1, E2, IH.
  - by rewrite Z.ltb_irrefl.
Qed.

(** ** Search *)

Lemma lfind_above x l : above x l -> lfind x l = None.
Proof.
  induction 1 as [|[k d] l Hk Hl IH]; cbn [lfind fst] in *; [done|]. destruct (x =? k) eqn:E; [lia|done].
Qed.

Lemma lfind_below x l : below x l -> lfind x l = None.
Proof.
  induction 1 as [|[k d] l Hk Hl IH]; cbn [lfind fst] in *; [done|]. destruct (x =? k) eqn:E; [lia|done].
Qed.

Lemma lfind_app x l1 l2 : lfind x (l1 ++ l2) = match lfind x l1 with Some d => Some d | None => lfind x l2 end.
Proof. induction l1 as [|[k d] l1 IH]; cbn [app lfind]; [done|]. by destruct (x =? k). Qed.

Lemma lfind_mid x l1 k d l2 : below k l1 -> above k l2 ->
  lfind x (l1 ++ (k, d) :: l2) = if x <? k then lfind x l1 else if k <? x then lfind x l2 else Some d.
Proof.
  intros Hb Ha. rewrite lfind_app. cbn [lfind]. destruct (x <? k) eqn:E1; [|destruct (k <? x) eqn:E2].
  - destruct (lfind x l1); [done|]. destruct (x =? k) eqn:E; [lia|]. apply lfind_above. eapply above_weaken; [|exact Ha]. lia.
  - rewrite (lfind_below x l1) by (eapply below_weaken; [|exact Hb]; lia). by destruct (x =? k) eqn:E; [lia|].
  - rewrite (lfind_below x l1) by (eapply below_weaken; [|exact Hb]; lia). by destruct (x =? k) eqn:E; [|lia].
Qed.

Lemma lfind_linsert y x v l : sorted l -> lfind y (linsert x v l) = if y =? x then Some v else lfind y l.
Proof.
  induction l as [|[k d] l IH]; cbn [linsert lfind]; [done|]. intros [Ha Hs]%sorted_cons.
  destruct (x <? k) eqn:E1; [done|]. destruct (k <? x) eqn:E2; cbn [lfind].
  - rewrite IH by done. destruct (y =? k) eqn:E3; [|done]. destruct (y =? x) eqn:E4; [lia|done].
  - assert (x = k) as -> by lia. by destruct (y =? k).
Qed.

Lemma lfind_In x d l : sorted l -> lfind x l = Some d <-> In (x, d) l.
Proof.
  induction l as [|[k e] l IH]; cbn [lfind In]; [done|]. intros [Ha Hs]%sorted_cons. destruct (x =? k) eqn:E.
  - assert (x = k) as -> by lia. split; [intros [= ->]; by left|]. intros [[= ->]|Hi]; [done|].
    exfalso. unfold above in Ha. rewrite List.Forall_forall in Ha. specialize (Ha _ Hi). cbn in Ha. lia.
  - rewrite IH by done. split; [by right|]. intros [[= -> _]|]; [lia|done].
Qed.

(** ** Removal *)

Lemma lremove_app x l1 l2 : lremove x (l1 ++ l2) = lremove x l1 ++ lremove x l2.
Proof. apply List.filter_app. Qed.

Lemma lremove_id x l : lfind x l = None -> lremove x l = l.
Proof.
  induction l as [|[k d] l IH]; cbn [lfind lremove List.filter fst]; [done|]. destruct (x =? k) eqn:E; [done|].
  intros Hl. replace (k =? x) with false by lia. cbn [negb]. f_equal. by apply IH.
Qed.

Lemma lremove_above x l : above x l -> lremove x l = l.
Proof. intros Ha. by apply lremove_id, lfind_above. Qed.

Lemma lremove_below x l : below x l -> lremove x l = l.
Proof. intros Ha. by apply lremove_id, lfind_below. Qed.

Lemma lremove_mid x l1 k d l2 : below k l1 -> above k l2 ->
  lremove x (l1 ++ (k, d) :: l2) = if x <? k then lremove x l1 ++ (k, d) :: l2 else if k <? x then l1 ++ (k, d) :: lremove x l2 else l1 ++ l2.
Proof.
  intros Hb Ha. rewrite lremove_app. cbn [lremove List.filter fst]. destruct (x <? k) eqn:E1; [|destruct (k <? x) eqn:E2].
  - replace (k =? x) with false by lia. cbn [negb]. f_equal. f_equal. apply lremove_above. eapply above_weaken; [|exact Ha]. lia.
  - replace (k =? x) with false by lia. cbn [negb]. f_equal. apply lremove_below. eapply below_weaken; [|exact Hb]. lia.
  - assert (x = k) as -> by lia. rewrite Z.eqb_refl. cbn [negb]. f_equal; [by apply lremove_below|by apply lremove_above].
Qed.

Lemma lremove_bound (P : Z * V -> Prop) x l : Forall P l -> Forall P (lremove x l).
Proof. rewrite !List.Forall_forall. intros H p [Hp _]%filter_In. by apply H. Qed.

Lemma lremove_sorted x l : sorted l -> sorted (lremove x l).
Proof.
  induction l as [|[k d] l IH]; cbn [lremove List.filter fst]; [done|]. intros [Ha Hs]%sorted_cons.
  destruct (negb (k =? x)); [|by apply IH]. apply sorted_cons. split; [by apply lremove_bound|by apply IH].
Qed.

Lemma lfind_lremove y x l : lfind y (lremove x l) = if y =? x then None else lfind y l.
Proof.
  induction l as [|[k d] l IH]; cbn [lremove List.filter lfind fst]; [by destruct (y =? x)|].
  fold (lremove x l). destruct (k =? x) eqn:E1; cbn [negb lfind]; rewrite IH.
  - destruct (y =? x) eqn:E2; [done|]. by destruct (y =? k) eqn:E3; [lia|].
  - destruct (y =? k) eqn:E3; [|done]. by destruct (y =? x) eqn:E2; [lia|].
Qed.

(** ** Lengths *)

Lemma linsert_length x v l : sorted l -> lenZ (linsert x v l) = lenZ l + match lfind x l with Some _ => 0 | None => 1 end.
Proof.
  induction l as [|[k d] l IH]; cbn [linsert lfind]; [done|]. intros [Ha Hs]%sorted_cons.
  destruct (x =? k) eqn:E; [|destruct (x <? k) eqn:E1; [|replace (k <? x) with true by lia]].
  - replace (x <? k) with false by lia. replace (k <? x) with false by lia. rewrite !lenZ_cons. lia.
  - rewrite lfind_above by (eapply above_weaken; [|exact Ha]; lia). rewrite !lenZ_cons. lia.
  - rewrite !lenZ_cons, IH by done. lia.
Qed.

Lemma lremove_length x l : sorted l -> lenZ (lremove x l) = lenZ l - match lfind x l with Some _ => 1 | None => 0 end.
Proof.
  induction l as [|[k d] l IH]; cbn [lfind lremove List.filter fst]; [done|]. intros [Ha Hs]%sorted_cons. fold (lremove x l).
  destruct (x =? k) eqn:E.
  - assert (x = k) as -> by lia. rewrite Z.eqb_refl. cbn [negb]. rewrite lremove_above, lenZ_cons by done. lia.
  - replace (k =? x) with false by lia. cbn [negb]. rewrite !lenZ_cons, IH by done. lia.
Qed.

Lemma lremove_length_found x l d : sorted l -> lfind x l = Some d -> lenZ (lremove x l) = lenZ l - 1.
Proof. intros Hs E. by rewrite lremove_length, E by done. Qed.

(** Sorted lists with the same values are the same. *)
Lemma sorted_ext l1 : forall l2, sorted l1 -> sorted l2 -> (forall x, lfind x l1 = lfind x l2) -> l1 = l2.
Proof.
  induction l1 as [|[k1 d1] l1 IH]; intros [|[k2 d2] l2] H1 H2 Hf; [done| | |].
  - specialize (Hf k2). cbn [lfind] in Hf. by rewrite Z.eqb_refl in Hf.
  - specialize (Hf k1). cbn [lfind] in Hf. by rewrite Z.eqb_refl in Hf.
  - apply sorted_cons in H1 as [Ha1 Hs1]. apply sorted_cons in H2 as [Ha2 Hs2].
    assert (Hk : k1 = k2 /\ d1 = d2).
    { pose proof (Hf k1) as E1. pose proof (Hf k2) as E2. cbn [lfind] in E1, E2. rewrite Z.eqb_refl in E1, E2.
      destruct (k1 =? k2) eqn:E; [split; [lia|congruence]|]. replace (k2 =? k1) with false in E2 by lia.
      destruct (Z.lt_ge_cases k1 k2).
      - rewrite lfind_above in E1 by (eapply above_weaken; [|exact Ha2]; lia). done.
      - rewrite lfind_above in E2 by (eapply above_weaken; [|exact Ha1]; lia). done. }
    destruct Hk as [-> ->]. f_equal. apply IH; [done..|]. intros x. specialize (Hf x). cbn [lfind] in Hf.
    destruct (x =? k2) eqn:E; [|done]. assert (x = k2) as -> by lia. by rewrite !lfind_above.
Qed.
End SortedMaps.
