(* ===== verification/AbtTrees.v ===== *)
(** * Trees of the store

    The tree below a pointer, with the places of its nodes; computations that
    leave the nodes of others as they are. *)

From S2P Require Import Prelude Abt SortedMaps.
From stdpp Require Import gmap.

#[local] Open Scope Z_scope.
#[local] Open Scope go_scope.

Section Trees.
Context {D : Type} `{EqDecision D}.
Implicit Types (h : heap D) (l : loc) (d : option D).
#[local] Abbreviation nodemap := (gmap loc (node32 D)).

(** ** Computations without events *)

Definition does {A} (m : M D A) (Q : A -> heap D -> Prop) (h : heap D) : Prop :=
  twp m (fun a h' t => t = [] /\ Q a h') h.

Lemma does_ret {A} (a : A) (Q : A -> heap D -> Prop) h : Q a h -> does (ret a) Q h.
Proof. done. Qed.

Lemma does_bind {A B} (m : M D A) (k : A -> M D B) Q h :
  does m (fun a h1 => does (k a) Q h1) h -> does (bind m k) Q h.
Proof.
  intros Hm. apply wp_bind. eapply wp_mono; [exact Hm|]. intros a h1 t [-> Hk]. exact Hk.
Qed.

Lemma does_mono {A} (m : M D A) (Q Q' : A -> heap D -> Prop) h :
  does m Q h -> (forall a h', Q a h' -> Q' a h') -> does m Q' h.
Proof. intros Hm HQ. eapply wp_mono; [exact Hm|]. intros a h' t [-> Ha]. by split; [|apply HQ]. Qed.

Lemma does_run {A} (m : M D A) Q h : does m Q h <-> exists a h', m h = Ok (a, h', []) /\ Q a h'.
Proof.
  unfold does, wp. split.
  - destruct (m h) as [[[a h'] t]| |]; [|done..]. intros [-> HQ]. by exists a, h'.
  - intros (a & h' & -> & HQ). done.
Qed.

Definition write h l (n : node32 D) : heap D := Heap (<[l := n]> (nodes h)) (trees h) (next h).
Definition alloc h (n : node32 D) : heap D := Heap (<[next h := n]> (nodes h)) (trees h) (Pos.succ (next h)).

Lemma does_deref l n Q h : nodes h !! l = Some n -> Q n h -> does (deref (Some l)) Q h.
Proof. intros Hl HQ. unfold deref, does. apply wp_bind, wp_gets. rewrite Hl. by apply wp_ret. Qed.

Lemma does_field {A} (f : node32 D -> A) l n Q h : nodes h !! l = Some n -> Q (f n) h -> does (field f (Some l)) Q h.
Proof. intros Hl HQ. apply does_bind. eapply does_deref; [exact Hl|]. by apply does_ret. Qed.

Lemma does_update l f n Q h : nodes h !! l = Some n -> Q tt (write h l (f n)) -> does (update (Some l) f) Q h.
Proof. intros Hl HQ. apply does_bind. by eapply does_deref; [exact Hl|]. Qed.

Lemma does_new n Q h : Q (Some (next h)) (alloc h n) -> does (new n) Q h.
Proof. intros HQ. by apply does_bind. Qed.

Lemma does_copy l n Q h : nodes h !! l = Some n -> Q (Some (next h)) (alloc h n) -> does (copy (Some l)) Q h.
Proof. intros Hl HQ. apply does_bind. eapply does_deref; [exact Hl|]. by apply does_new. Qed.

(** The height at a pointer. *)
Definition height_is (m : nodemap) (p : ptr) (z : Z) : Prop :=
  match p with
  | None => z = 0
  | Some l => exists n, m !! l = Some n /\ height_ n = z
  end.

Lemma does_height p z Q h : height_is (nodes h) p z -> Q z h -> does (height p) Q h.
Proof.
  destruct p as [l|]; cbn [height_is height]; [|intros ->; apply does_ret].
  intros (n & Hl & Hz) HQ. eapply does_field; [exact Hl|]. by rewrite Hz.
Qed.

(** ** Trees *)

Inductive tree :=
| Leaf
| Node (l : loc) (lt : tree) (k : Z) (d : option D) (rt : tree).

Implicit Type t : tree.

Definition place t : ptr := match t with Leaf => None | Node l _ _ _ _ => Some l end.

Fixpoint ht t : Z := match t with Leaf => 0 | Node _ lt _ _ rt => 1 + Z.max (ht lt) (ht rt) end.

Fixpoint elems t : list (Z * option D) :=
  match t with Leaf => [] | Node _ lt k d rt => elems lt ++ (k, d) :: elems rt end.

Fixpoint places t : list loc :=
  match t with Leaf => [] | Node l lt _ _ rt => places lt ++ l :: places rt end.

(** The store holds the tree. *)
Fixpoint stored (m : nodemap) t : Prop :=
  match t with
  | Leaf => True
  | Node l lt k d rt => m !! l = Some (Node32 (place lt) (place rt) d k (ht t)) /\ stored m lt /\ stored m rt
  end.

(** A node of the tree and its key. *)
Fixpoint member (p : loc) (x : Z) t : Prop :=
  match t with
  | Leaf => False
  | Node l lt k _ rt => (p = l /\ x = k) \/ member p x lt \/ member p x rt
  end.

Fixpoint balanced t : Prop :=
  match t with
  | Leaf => True
  | Node _ lt _ _ rt => -1 <= ht lt - ht rt <= 1 /\ balanced lt /\ balanced rt
  end.

Lemma ht_nonneg t : 0 <= ht t.
Proof. induction t; cbn [ht]; lia. Qed.

Lemma ht_pos l lt k d rt : 0 < ht (Node l lt k d rt).
Proof. cbn [ht]. pose proof (ht_nonneg lt). lia. Qed.

Lemma ht_0 t : ht t = 0 -> t = Leaf.
Proof. destruct t as [|l lt k d rt]; [done|]. pose proof (ht_pos l lt k d rt). lia. Qed.

Lemma place_E t : place t = None -> t = Leaf.
Proof. by destruct t. Qed.

Lemma stored_height m t : stored m t -> height_is m (place t) (ht t).
Proof. destruct t as [|l lt k d rt]; [done|]. intros [Hl _]. by exists (Node32 (place lt) (place rt) d k (ht (Node l lt k d rt))). Qed.

Lemma stored_frame m m' t : stored m t -> (forall l, l ∈ places t -> m' !! l = m !! l) -> stored m' t.
Proof.
  induction t as [|l lt IHl k d rt IHr]; [done|]. cbn [stored places]. intros (Hl & Hlt & Hrt) Hm. split_and!.
  - rewrite Hm by set_solver. done.
  - apply IHl; [done|]. intros l' Hl'. apply Hm. set_solver.
  - apply IHr; [done|]. intros l' Hl'. apply Hm. set_solver.
Qed.

(** ** A node has one key: the places of a sorted tree differ *)

Definition key_at (m : nodemap) l : Z := match m !! l with Some n => key n | None => 0 end.

Lemma stored_keys m t : stored m t -> map (key_at m) (places t) = keys_of (elems t).
Proof.
  induction t as [|l lt IHl k d rt IHr]; [done|]. cbn [stored places elems]. intros (Hl & Hlt & Hrt).
  unfold keys_of in *. rewrite !map_app. cbn [map fst]. rewrite IHl, IHr by done. unfold key_at at 1. by rewrite Hl.
Qed.

Lemma sorted_NoDup (xs : list (Z * option D)) : sorted xs -> NoDup (keys_of xs).
Proof.
  induction xs as [|[k d] xs IH]; cbn [keys_of map fst]; [intros _; apply NoDup_nil_2|]. intros [Ha Hs]%sorted_cons.
  apply NoDup_cons_2; [|by apply IH]. intros (p & Hp & Hin)%list_elem_of_fmap. unfold above in Ha. rewrite Forall_forall in Ha.
  specialize (Ha p Hin). lia.
Qed.

Lemma stored_NoDup m t : stored m t -> sorted (elems t) -> NoDup (places t).
Proof. intros Hm Hs. apply (NoDup_fmap_1 (key_at m)). change (fmap ?f) with (map f). rewrite (stored_keys m t Hm). by apply sorted_NoDup. Qed.

(** ** Stores that grow *)

Definition has h t : Prop := stored (nodes h) t /\ Forall (fun l => (l < next h)%positive) (places t).

(** From [h], [h'] came about without a change to a node or a map of [h]. *)
Definition grows h h' : Prop :=
  (next h <= next h')%positive /\ trees h' = trees h /\ forall l, (l < next h)%positive -> nodes h' !! l = nodes h !! l.

#[export] Instance grows_preorder : PreOrder grows.
Proof.
  split; [by intros h|]. intros h1 h2 h3 (H1 & H2 & H3) (H4 & H5 & H6). split_and!; [lia|congruence|].
  intros l Hl. rewrite H6 by lia. by apply H3.
Qed.

Lemma has_grows h h' t : has h t -> grows h h' -> has h' t.
Proof.
  intros [Hs Hp] (Hn & _ & Hm). split.
  - eapply stored_frame; [exact Hs|]. intros l Hl. apply Hm. rewrite Forall_forall in Hp. by apply Hp.
  - eapply List.Forall_impl; [|exact Hp]. cbn. intros l Hl. lia.
Qed.

Lemma grows_write h0 h l n : grows h0 h -> (next h0 <= l)%positive -> grows h0 (write h l n).
Proof.
  intros (H1 & H2 & H3) Hl. split_and!; [done|done|]. intros l' Hl'. cbn [nodes write]. rewrite lookup_insert_ne by lia. by apply H3.
Qed.

Lemma grows_alloc h0 h n : grows h0 h -> grows h0 (alloc h n).
Proof.
  intros (H1 & H2 & H3). split_and!; [cbn; lia|done|]. intros l' Hl'. cbn [nodes alloc]. rewrite lookup_insert_ne by lia. by apply H3.
Qed.

Lemma has_fresh h t l : has h t -> (next h <= l)%positive -> l ∉ places t.
Proof. intros [_ Hp] Hl Hin. rewrite Forall_forall in Hp. specialize (Hp l Hin). cbn in Hp. lia. Qed.

Lemma has_E h : has h Leaf.
Proof. split; [done|by apply List.Forall_nil]. Qed.

Lemma has_N h l lt k d rt : has h (Node l lt k d rt) <->
  nodes h !! l = Some (Node32 (place lt) (place rt) d k (ht (Node l lt k d rt))) /\ (l < next h)%positive /\ has h lt /\ has h rt.
Proof.
  unfold has. cbn [stored places]. rewrite Forall_app, List.Forall_cons_iff. tauto.
Qed.

Lemma has_height h t : has h t -> height_is (nodes h) (place t) (ht t).
Proof. intros [Hs _]. by apply stored_height. Qed.

Lemma has_frame h h' t : has h t -> (next h <= next h')%positive -> (forall l, l ∈ places t -> nodes h' !! l = nodes h !! l) -> has h' t.
Proof.
  intros [Hs Hp] Hn Hm. split; [by eapply stored_frame|]. eapply List.Forall_impl; [|exact Hp]. cbn. intros l Hl. lia.
Qed.
End Trees.

Arguments tree D : clear implicits.
Arguments Leaf {D}.
Arguments Node {D}.
