(* ===== verification/AbtNodes.v ===== *)
(** * Rotations, insertion and deletion in the store *)

From S2P Require Import Prelude Abt SortedMaps AbtTrees.
From stdpp Require Import gmap.

#[local] Open Scope Z_scope.
#[local] Open Scope go_scope.

Lemma s8_small x : -128 <= x < 128 -> s8 x = x.
Proof. intros Hx. unfold s8. rewrite Z.mod_small; lia. Qed.

(** Reading a store after writes. *)
Ltac look :=
  cbn [nodes write alloc trees next set_left set_right set_data set_key set_height left right data key height_];
  repeat first [rewrite lookup_insert_eq | rewrite lookup_insert_ne by (congruence || lia)];
  unfold set_left, set_right, set_data, set_key, set_height; cbn [left right data key height_]; try done.

Section Nodes.
Context {D : Type} `{EqDecision D}.
Implicit Types (h : heap D) (t : tree D) (l : loc) (d : option D).

Lemma height_write h l n t : has h t -> l ∉ places t -> height_is (nodes (write h l n)) (place t) (ht t).
Proof.
  intros Hh Hl. apply stored_height. destruct Hh as [Hs _]. eapply stored_frame; [exact Hs|]. intros x Hx. cbn [nodes write].
  rewrite lookup_insert_ne; [done|]. congruence.
Qed.

Lemma has_write h l n t : has h t -> l ∉ places t -> has (write h l n) t.
Proof. intros Hh Hl. eapply has_frame; [exact Hh|done|]. intros x Hx. cbn [nodes write]. rewrite lookup_insert_ne; [done|]. congruence. Qed.

Lemma has_alloc h n t : has h t -> has (alloc h n) t.
Proof. intros Hh. eapply has_grows; [exact Hh|]. by apply grows_alloc. Qed.

(** ** Rotations

    [t] and its child are nodes that were made after [h0]. *)
Ltac rotation Hg Et El Hsub h1 :=
  apply does_bind; eapply does_field; [exact Et|]; apply does_bind; eapply does_field; [exact El|];
  apply does_bind; eapply does_update; [exact El|]; apply does_bind; eapply does_update; [look|];
  match goal with |- does _ _ (write (write ?h ?l ?n) ?t ?m) => set (h1 := write (write h l n) t m) end;
  match goal with _ := write (write ?h ?l _) ?t _ |- _ =>
    assert (Hsub : forall s, has h s -> t ∉ places s -> l ∉ places s -> has h1 s)
      by (intros s ? ? ?; by apply has_write; [apply has_write|]) end;
  apply does_bind; eapply does_height; [apply has_height, Hsub; tauto|];
  apply does_bind; eapply does_field; [unfold h1; look|]; apply does_bind; cbn [left right];
  eapply does_height; [apply has_height, Hsub; tauto|]; apply does_bind; eapply does_update; [unfold h1; look|];
  cbn [left right data key height_ set_left set_right set_height]; rewrite s8_small by lia;
  apply does_bind; eapply does_height; [eexists; split; [look|]; reflexivity|]; cbn [height_];
  apply does_bind; eapply does_field; [unfold h1; look|]; cbn [left right set_left set_right];
  apply does_bind; eapply does_height; [apply has_height, has_write; [apply Hsub|]; tauto|]; apply does_bind;
  eapply does_update; [unfold h1; look|]; cbn [left right data key height_ set_left set_right set_height];
  rewrite s8_small by lia; apply does_ret;
  split; [done|]; split_and!;
    [repeat apply grows_write; done || lia|done| |intros x ? ?; unfold h1; look];
  rewrite !has_N; split_and!;
    first [cbn; lia | apply has_write; [apply has_write; [apply Hsub|]|]; tauto | look; cbn [place ht]; do 2 f_equal; lia].

Lemma leftToRoot_does h0 h (t l : loc) ll kl dl lr kt dt rt z z' : grows h0 h -> t <> l ->
  (next h0 <= t < next h)%positive -> (next h0 <= l < next h)%positive ->
  nodes h !! t = Some (Node32 (Some l) (place rt) dt kt z) ->
  nodes h !! l = Some (Node32 (place ll) (place lr) dl kl z') ->
  has h ll -> has h lr -> has h rt ->
  t ∉ places ll ++ places lr ++ places rt -> l ∉ places ll ++ places lr ++ places rt ->
  ht ll <= 100 -> ht lr <= 100 -> ht rt <= 100 ->
  does (leftToRoot (Some t)) (fun r h' =>
    r = Some l /\ grows h0 h' /\ next h' = next h /\ has h' (Node l ll kl dl (Node t lr kt dt rt)) /\
    forall x, x <> t -> x <> l -> nodes h' !! x = nodes h !! x) h.
Proof.
  intros Hg Htl Ht Hl Et El Hll Hlr Hrt Hnt Hnl H1 H2 H3. rewrite !not_elem_of_app in Hnt, Hnl.
  pose proof (ht_nonneg ll). pose proof (ht_nonneg lr). pose proof (ht_nonneg rt).
  unfold leftToRoot. rotation Hg Et El Hsub h1.
Qed.

Lemma rightToRoot_does h0 h (t r : loc) lt kt dt rl kr dr rr z z' : grows h0 h -> t <> r ->
  (next h0 <= t < next h)%positive -> (next h0 <= r < next h)%positive ->
  nodes h !! t = Some (Node32 (place lt) (Some r) dt kt z) ->
  nodes h !! r = Some (Node32 (place rl) (place rr) dr kr z') ->
  has h lt -> has h rl -> has h rr ->
  t ∉ places lt ++ places rl ++ places rr -> r ∉ places lt ++ places rl ++ places rr ->
  ht lt <= 100 -> ht rl <= 100 -> ht rr <= 100 ->
  does (rightToRoot (Some t)) (fun p h' =>
    p = Some r /\ grows h0 h' /\ next h' = next h /\ has h' (Node r (Node t lt kt dt rl) kr dr rr) /\
    forall x, x <> t -> x <> r -> nodes h' !! x = nodes h !! x) h.
Proof.
  intros Hg Htl Ht Hl Et El Hll Hlr Hrt Hnt Hnl H1 H2 H3. rewrite !not_elem_of_app in Hnt, Hnl.
  pose proof (ht_nonneg lt). pose proof (ht_nonneg rl). pose proof (ht_nonneg rr).
  unfold rightToRoot. rotation Hg Et El Hsub h1.
Qed.

(** The child [m] of [l] becomes a node of this operation. *)
Lemma unshare_does h0 h (l m : loc) (newnode : ptr) (set_child : ptr -> node32 D -> node32 D) nl nm : grows h0 h -> l <> m ->
  nodes h !! l = Some nl -> nodes h !! m = Some nm -> (l < next h)%positive -> (m < next h)%positive -> (newnode = Some m -> (next h0 <= m)%positive) ->
  does (when negb (same newnode (Some m)) do (let* c := copy (Some m) in update (Some l) (set_child c)))
    (fun _ h1 => exists m', (next h0 <= m' < next h1)%positive /\
       ((m' = m /\ h1 = h) \/
        (m' = next h /\ newnode <> Some m /\ h1 = write (alloc h nm) l (set_child (Some m') nl)))) h.
Proof.
  intros Hg Hlm Hl Hm Hln Hmn Hnew. unfold same. destruct Hg as (Hg & _). case_bool_decide as E; cbn [negb].
  - apply does_ret. exists m. split; [|by left]. specialize (Hnew E). lia.
  - apply does_bind. eapply does_copy; [exact Hm|]. eapply does_update.
    + destruct (decide (l = next h)) as [->|Hn]; [|cbn [nodes alloc]; by rewrite lookup_insert_ne].
      lia.
    + exists (next h). split; [cbn; lia|]. by right.
Qed.
(** ** A child that is too high *)

(** The tree [t'] at [r] was made after [h0]. *)
Definition made h0 h (r : ptr) (t' : tree D) : Prop :=
  r = place t' /\ grows h0 h /\ has h t' /\ balanced t' /\ exists l, r = Some l /\ (next h0 <= l)%positive.

(** The child of [l] on the other side, after [unshare_does]. *)
Lemma unshared h0 h h1 (t l m m' : loc) (newnode : ptr) nt nl nm (set_child : ptr -> node32 D -> node32 D) (a b c e : tree D) :
  grows h0 h -> (next h0 <= l)%positive -> nodes h !! t = Some nt -> nodes h !! l = Some nl -> nodes h !! m = Some nm ->
  (t < next h)%positive -> (l < next h)%positive -> (m < next h)%positive ->
  has h a -> has h b -> has h c -> has h e -> NoDup (t :: l :: m :: places a ++ places b ++ places c ++ places e) ->
  (next h0 <= m' < next h1)%positive ->
  (m' = m /\ h1 = h) \/ (m' = next h /\ newnode <> Some m /\ h1 = write (alloc h nm) l (set_child (Some m') nl)) ->
  grows h0 h1 /\ (next h <= next h1)%positive /\ nodes h1 !! t = Some nt /\ (m' = m /\ nodes h1 !! l = Some nl \/ newnode <> Some m /\ nodes h1 !! l = Some (set_child (Some m') nl)) /\
  nodes h1 !! m' = Some nm /\ (has h1 a /\ has h1 b /\ has h1 c /\ has h1 e) /\ NoDup (t :: l :: m' :: places a ++ places b ++ places c ++ places e).
Proof.
  intros Hg Hl0 Ht Hl Hm Htn Hln Hmn Ha Hb Hc He Hnd Hm' [[-> ->]|(-> & Hnew & ->)]; [split_and!; try done; by left|].
  assert (Hsub : forall s, has h s -> l ∉ places s -> has (write (alloc h nm) l (set_child (Some (next h)) nl)) s)
    by (intros s Hs Hls; apply has_write; [by apply has_alloc|done]).
  assert (Hfresh : forall s, has h s -> next h ∉ places s) by (intros s Hs; by eapply has_fresh).
  rewrite !NoDup_cons, !not_elem_of_cons, !not_elem_of_app in *.
  split; [by apply grows_write; [apply grows_alloc|]|]. split; [cbn; lia|].
  split; [cbn [nodes write alloc]; rewrite !lookup_insert_ne by (tauto || lia); done|].
  split; [right; split; [done|]; cbn [nodes write]; by rewrite lookup_insert_eq|].
  split; [cbn [nodes write alloc]; rewrite lookup_insert_ne by lia; by rewrite lookup_insert_eq|].
  split; [split_and!; apply Hsub; tauto|]. split_and!; try tauto; try lia; by apply Hfresh.
Qed.
(** The first rotation, which makes the outer side the higher one. *)
Lemma left_ready_does h0 h (t l : loc) ll kl dl lr kt dt rt z (newnode : ptr) : grows h0 h ->
  (next h0 <= t < next h)%positive -> (next h0 <= l)%positive -> (forall m, newnode = Some m -> (next h0 <= m)%positive) ->
  nodes h !! t = Some (Node32 (Some l) (place rt) dt kt z) -> has h (Node l ll kl dl lr) -> has h rt ->
  NoDup (t :: places (Node l ll kl dl lr) ++ places rt) ->
  balanced (Node l ll kl dl lr) -> ht (Node l ll kl dl lr) = ht rt + 2 -> ht rt <= 90 ->
  does (when ht ll <? ht lr do
          (when negb (same newnode (place lr)) do
             (let* c := copy (place lr) in update (Some l) (set_right c));;;
           let* r := rightToRoot (Some l) in
           update (Some t) (set_left r)))
    (fun _ h' => exists l' a k d b, grows h0 h' /\ (next h0 <= l')%positive /\ (t < next h')%positive /\
       nodes h' !! t = Some (Node32 (Some l') (place rt) dt kt z) /\ has h' (Node l' a k d b) /\ has h' rt /\
       NoDup (t :: places (Node l' a k d b) ++ places rt) /\ elems (Node l' a k d b) = elems (Node l ll kl dl lr) /\
       (balanced a /\ balanced b /\ ht a = ht rt + 1 /\ ht rt - 1 <= ht b <= ht rt + 1 /\ (ht b = ht rt + 1 <-> ht ll = ht lr)) /\
       forall p x, newnode = Some p -> member p x (Node l ll kl dl lr) -> member p x (Node l' a k d b)) h.
Proof.
  intros Hg Ht Hl0 Hnew Et HL Hrt Hnd (Hb1 & Hb2 & Hb3) Hht Hb. pose proof HL as (El & Hln & Hll & Hlr)%has_N.
  cbn [ht] in Hht. destruct (ht ll <? ht lr) eqn:Elr.
  2: { apply does_ret. exists l, ll, kl, dl, lr. split_and!; try done; lia. }
  destruct lr as [|m ml km dm mr]; [cbn [ht] in Elr; pose proof (ht_nonneg ll); lia|].
  pose proof Hlr as (Em & Hmn & Hml & Hmr)%has_N. cbn [places] in Hnd.
  assert (Hp : t :: (places ll ++ l :: places ml ++ m :: places mr) ++ places rt ≡ₚ t :: l :: m :: places ll ++ places ml ++ places mr ++ places rt) by solve_Permutation.
  rewrite Hp in Hnd. clear Hp. cbn [place]. apply does_bind. eapply does_mono.
  { eapply (unshare_does h0 h l m newnode set_right); [exact Hg| |exact El|exact Em|lia|lia|apply Hnew].
    rewrite !NoDup_cons, !not_elem_of_cons in Hnd. intros ->. tauto. }
  intros _ h1 (m' & Hm' & Hh1).
  destruct (unshared h0 h h1 t l m m' newnode _ _ _ set_right ll ml mr rt Hg Hl0 Et El Em ltac:(lia) Hln Hmn Hll Hml Hmr Hrt Hnd Hm' Hh1)
    as (Hg1 & Hn1 & Et1 & El1 & Em1 & (Hll1 & Hml1 & Hmr1 & Hrt1) & Hnd1).
  assert (El1' : nodes h1 !! l = Some (Node32 (place ll) (Some m') dl kl (ht (Node l ll kl dl (Node m ml km dm mr))))) by (destruct El1 as [[-> E]|[_ E]]; exact E).
  assert (Hm : forall p, newnode = Some p -> p = m -> p = m') by (intros p E ->; destruct El1 as [[-> _]|[E' _]]; [done|by destruct E']).
  clear El1 Hnd Hlr Hll Hml Hmr Hrt. rewrite !NoDup_cons, !not_elem_of_cons, !not_elem_of_app in Hnd1.
  pose proof (ht_nonneg ll). pose proof (ht_nonneg ml). pose proof (ht_nonneg mr). cbn [balanced ht] in *.
  apply does_bind. eapply does_mono.
  { eapply (rightToRoot_does h0 h1 l m' ll kl dl ml km dm mr); try eassumption; try lia; rewrite !not_elem_of_app; tauto. }
  intros p h2 (-> & Hg2 & Hn2 & Hh2 & Hf2). eapply does_update; [rewrite Hf2; [exact Et1|intros ->; tauto|intros ->; tauto]|].
  assert (Hrt2 : has h2 rt) by (eapply has_frame; [exact Hrt1|lia|]; intros x Hx; apply Hf2; intros ->; tauto).
  assert (Hml' : m' <> l) by (intros ->; tauto).
  exists m', (Node l ll kl dl ml), km, dm, mr. split_and!; try tauto; try lia.
  - apply grows_write; [done|lia].
  - cbn [next write]. lia.
  - look.
  - apply has_write; [done|]. cbn [places]. rewrite !elem_of_app, !elem_of_cons, ?elem_of_app. tauto.
  - apply has_write; [done|]. tauto.
  - cbn [places]. assert (Hp : t :: ((places ll ++ l :: places ml) ++ m' :: places mr) ++ places rt ≡ₚ t :: l :: m' :: places ll ++ places ml ++ places mr ++ places rt) by solve_Permutation.
    rewrite Hp, !NoDup_cons, !not_elem_of_cons, !not_elem_of_app. tauto.
  - cbn [elems]. by rewrite <- !app_assoc.
  - cbn [balanced]. split_and!; tauto || lia.
  - cbn [ht]. lia.
  - cbn [member]. intros p x Hp [[-> ->]|[?|[[-> ->]|[?|?]]]]; try tauto. pose proof (Hm m Hp eq_refl). tauto.
Qed.
Lemma aLeftIsHigh_does h0 h (t l : loc) ll kl dl lr kt dt rt z (newnode : ptr) : grows h0 h ->
  (next h0 <= t < next h)%positive -> (next h0 <= l)%positive -> (forall m, newnode = Some m -> (next h0 <= m)%positive) ->
  nodes h !! t = Some (Node32 (Some l) (place rt) dt kt z) -> has h (Node l ll kl dl lr) -> has h rt ->
  NoDup (t :: places (Node l ll kl dl lr) ++ places rt) ->
  balanced (Node l ll kl dl lr) -> balanced rt -> ht (Node l ll kl dl lr) = ht rt + 2 -> ht rt <= 90 ->
  does (aLeftIsHigh (Some t) newnode) (fun r h' => exists t', made h0 h' r t' /\
    elems t' = elems (Node l ll kl dl lr) ++ (kt, dt) :: elems rt /\
    ht t' = (if ht ll =? ht lr then ht rt + 3 else ht rt + 2) /\
    forall p x, newnode = Some p -> member p x (Node l ll kl dl lr) -> member p x t') h.
Proof.
  intros Hg Ht Hl0 Hnew Et HL Hrt Hnd Hbal Hbr Hht Hb. pose proof HL as (El & _ & Hll & Hlr)%has_N.
  unfold aLeftIsHigh. apply does_bind. eapply does_field; [exact Et|]. apply does_bind. eapply does_field; [exact El|]. cbn [left].
  apply does_bind. eapply does_height; [by apply has_height|]. apply does_bind. eapply does_field; [exact El|]. cbn [right].
  apply does_bind. eapply does_height; [by apply has_height|]. apply does_bind. eapply does_mono; [by eapply (left_ready_does h0 h t l)|].
  intros _ h1 (l' & a & k & d & b & Hg1 & Hl' & Ht1 & Et1 & HL1 & Hrt1 & Hnd1 & Hel & (Ha & Hb' & Hha & Hhb & Hiff) & Hmem).
  apply has_N in HL1 as (El1 & Hln1 & Ha1 & Hb1). rewrite NoDup_cons, NoDup_app in Hnd1. cbn [places] in Hnd1.
  rewrite NoDup_app, NoDup_cons, !not_elem_of_app, not_elem_of_cons in Hnd1. destruct Hnd1 as (((Hn1 & Hn2 & Hn3) & Hn4) & (_ & Hn5 & Hn6 & _) & Hn7 & _).
  eapply does_mono.
  { eapply (leftToRoot_does h0 h1 t l' a k d b kt dt rt z); try eassumption; try lia; rewrite !not_elem_of_app; [done|]. split_and!; [|done|].
    - intros Hin. apply (Hn5 l' Hin). by left.
    - apply Hn7. rewrite elem_of_app, elem_of_cons. tauto. }
  intros r h' (-> & Hg' & Hn' & Hh' & _). exists (Node l' a k d (Node t b kt dt rt)). pose proof (ht_nonneg rt). split; [|split; [|split]].
  - split_and!; [reflexivity|done|exact Hh'| |exists l'; done]. cbn [balanced ht]. split_and!; try tauto; lia.
  - rewrite <- Hel. cbn [elems]. by rewrite <- app_assoc.
  - cbn [ht]. destruct (ht ll =? ht lr) eqn:E; lia.
  - intros p x Hp Hin. specialize (Hmem p x Hp Hin). cbn [member] in *. tauto.
Qed.

(** The same on the other side. *)
Lemma right_ready_does h0 h (t r : loc) lt kt dt rl kr dr rr z (newnode : ptr) : grows h0 h ->
  (next h0 <= t < next h)%positive -> (next h0 <= r)%positive -> (forall m, newnode = Some m -> (next h0 <= m)%positive) ->
  nodes h !! t = Some (Node32 (place lt) (Some r) dt kt z) -> has h (Node r rl kr dr rr) -> has h lt ->
  NoDup (t :: places lt ++ places (Node r rl kr dr rr)) ->
  balanced (Node r rl kr dr rr) -> ht (Node r rl kr dr rr) = ht lt + 2 -> ht lt <= 90 ->
  does (when ht rr <? ht rl do
          (when negb (same newnode (place rl)) do
             (let* c := copy (place rl) in update (Some r) (set_left c));;;
           let* p := leftToRoot (Some r) in
           update (Some t) (set_right p)))
    (fun _ h' => exists r' a k d b, grows h0 h' /\ (next h0 <= r')%positive /\ (t < next h')%positive /\
       nodes h' !! t = Some (Node32 (place lt) (Some r') dt kt z) /\ has h' (Node r' a k d b) /\ has h' lt /\
       NoDup (t :: places lt ++ places (Node r' a k d b)) /\ elems (Node r' a k d b) = elems (Node r rl kr dr rr) /\
       (balanced a /\ balanced b /\ ht b = ht lt + 1 /\ ht lt - 1 <= ht a <= ht lt + 1 /\ (ht a = ht lt + 1 <-> ht rl = ht rr)) /\
       forall p x, newnode = Some p -> member p x (Node r rl kr dr rr) -> member p x (Node r' a k d b)) h.
Proof.
  intros Hg Ht Hl0 Hnew Et HL Hlt Hnd (Hb1 & Hb2 & Hb3) Hht Hb. pose proof HL as (El & Hln & Hrl & Hrr)%has_N.
  cbn [ht] in Hht. destruct (ht rr <? ht rl) eqn:Elr.
  2: { apply does_ret. exists r, rl, kr, dr, rr. split_and!; try done; lia. }
  destruct rl as [|m ml km dm mr]; [cbn [ht] in Elr; pose proof (ht_nonneg rr); lia|].
  pose proof Hrl as (Em & Hmn & Hml & Hmr)%has_N. cbn [places] in Hnd.
  assert (Hp : t :: places lt ++ (places ml ++ m :: places mr) ++ r :: places rr ≡ₚ t :: r :: m :: places rr ++ places ml ++ places mr ++ places lt) by solve_Permutation.
  rewrite Hp in Hnd. clear Hp. cbn [place]. apply does_bind. eapply does_mono.
  { eapply (unshare_does h0 h r m newnode set_left); [exact Hg| |exact El|exact Em|lia|lia|apply Hnew].
    rewrite !NoDup_cons, !not_elem_of_cons in Hnd. intros ->. tauto. }
  intros _ h1 (m' & Hm' & Hh1).
  destruct (unshared h0 h h1 t r m m' newnode _ _ _ set_left rr ml mr lt Hg Hl0 Et El Em ltac:(lia) Hln Hmn Hrr Hml Hmr Hlt Hnd Hm' Hh1)
    as (Hg1 & Hn1 & Et1 & El1 & Em1 & (Hrr1 & Hml1 & Hmr1 & Hlt1) & Hnd1).
  assert (El1' : nodes h1 !! r = Some (Node32 (Some m') (place rr) dr kr (ht (Node r (Node m ml km dm mr) kr dr rr)))) by (destruct El1 as [[-> E]|[_ E]]; exact E).
  assert (Hm : forall p, newnode = Some p -> p = m -> p = m') by (intros p E ->; destruct El1 as [[-> _]|[E' _]]; [done|by destruct E']).
  clear El1 Hnd Hrl Hrr Hml Hmr Hlt. rewrite !NoDup_cons, !not_elem_of_cons, !not_elem_of_app in Hnd1.
  pose proof (ht_nonneg rr). pose proof (ht_nonneg ml). pose proof (ht_nonneg mr). cbn [balanced ht] in *.
  apply does_bind. eapply does_mono.
  { eapply (leftToRoot_does h0 h1 r m' ml km dm mr kr dr rr); try eassumption; try lia; rewrite !not_elem_of_app; tauto. }
  intros p h2 (-> & Hg2 & Hn2 & Hh2 & Hf2). eapply does_update; [rewrite Hf2; [exact Et1|intros ->; tauto|intros ->; tauto]|].
  assert (Hlt2 : has h2 lt) by (eapply has_frame; [exact Hlt1|lia|]; intros x Hx; apply Hf2; intros ->; tauto).
  assert (Hml' : m' <> r) by (intros ->; tauto).
  exists m', ml, km, dm, (Node r mr kr dr rr). split_and!; try tauto; try lia.
  - apply grows_write; [done|lia].
  - cbn [next write]. lia.
  - look.
  - apply has_write; [done|]. cbn [places]. rewrite !elem_of_app, !elem_of_cons, ?elem_of_app, ?elem_of_cons. tauto.
  - apply has_write; [done|]. tauto.
  - cbn [places]. assert (Hp : t :: places lt ++ places ml ++ m' :: places mr ++ r :: places rr ≡ₚ t :: r :: m' :: places rr ++ places ml ++ places mr ++ places lt) by solve_Permutation.
    rewrite Hp, !NoDup_cons, !not_elem_of_cons, !not_elem_of_app. tauto.
  - cbn [elems]. by rewrite <- !app_assoc.
  - cbn [balanced]. split_and!; tauto || lia.
  - cbn [ht]. lia.
  - cbn [member]. intros p x Hp [[-> ->]|[[[-> ->]|[?|?]]|?]]; try tauto. pose proof (Hm m Hp eq_refl). tauto.
Qed.

Lemma aRightIsHigh_does h0 h (t r : loc) lt kt dt rl kr dr rr z (newnode : ptr) : grows h0 h ->
  (next h0 <= t < next h)%positive -> (next h0 <= r)%positive -> (forall m, newnode = Some m -> (next h0 <= m)%positive) ->
  nodes h !! t = Some (Node32 (place lt) (Some r) dt kt z) -> has h (Node r rl kr dr rr) -> has h lt ->
  NoDup (t :: places lt ++ places (Node r rl kr dr rr)) ->
  balanced (Node r rl kr dr rr) -> balanced lt -> ht (Node r rl kr dr rr) = ht lt + 2 -> ht lt <= 90 ->
  does (aRightIsHigh (Some t) newnode) (fun p h' => exists t', made h0 h' p t' /\
    elems t' = elems lt ++ (kt, dt) :: elems (Node r rl kr dr rr) /\
    ht t' = (if ht rl =? ht rr then ht lt + 3 else ht lt + 2) /\
    forall p x, newnode = Some p -> member p x (Node r rl kr dr rr) -> member p x t') h.
Proof.
  intros Hg Ht Hl0 Hnew Et HL Hlt Hnd Hbal Hbr Hht Hb. pose proof HL as (El & _ & Hrl & Hrr)%has_N.
  unfold aRightIsHigh. apply does_bind. eapply does_field; [exact Et|]. apply does_bind. eapply does_field; [exact El|]. cbn [right].
  apply does_bind. eapply does_height; [by apply has_height|]. apply does_bind. eapply does_field; [exact El|]. cbn [left].
  apply does_bind. eapply does_height; [by apply has_height|]. apply does_bind. eapply does_mono; [by eapply (right_ready_does h0 h t r)|].
  intros _ h1 (r' & a & k & d & b & Hg1 & Hl' & Ht1 & Et1 & HL1 & Hlt1 & Hnd1 & Hel & (Ha & Hb' & Hha & Hhb & Hiff) & Hmem).
  apply has_N in HL1 as (El1 & Hln1 & Ha1 & Hb1). rewrite NoDup_cons, NoDup_app in Hnd1. cbn [places] in Hnd1.
  rewrite NoDup_app, NoDup_cons, !not_elem_of_app, not_elem_of_cons in Hnd1. destruct Hnd1 as ((Hn1 & Hn2 & Hn3 & Hn4) & _ & Hn5 & _ & Hn6 & Hn7 & _).
  eapply does_mono.
  { eapply (rightToRoot_does h0 h1 t r' lt kt dt a k d b z); try eassumption; try lia; rewrite !not_elem_of_app; [done|]. split_and!; [| |done].
    - intros Hin. apply (Hn5 r' Hin). rewrite elem_of_app, elem_of_cons. tauto.
    - intros Hin. apply (Hn6 r' Hin). by left. }
  intros p h' (-> & Hg' & Hn' & Hh' & _). exists (Node r' (Node t lt kt dt a) k d b). pose proof (ht_nonneg lt). split; [|split; [|split]].
  - split_and!; [reflexivity|done|exact Hh'| |exists r'; done]. cbn [balanced ht]. split_and!; try tauto; lia.
  - rewrite <- Hel. cbn [elems]. by rewrite <- app_assoc.
  - cbn [ht]. destruct (ht rl =? ht rr) eqn:E; lia.
  - intros q x Hp Hin. specialize (Hmem q x Hp Hin). cbn [member] in *. tauto.
Qed.
End Nodes.
