(* ===== verification/AbtInsert.v ===== *)
(** * Insertion into a tree of the store *)

From S2P Require Import Prelude Abt SortedMaps AbtTrees AbtNodes.
From stdpp Require Import gmap.

#[local] Open Scope Z_scope.
#[local] Open Scope go_scope.

(** ** Heights are small

    The keys of a tree are 32-bit integers other than the smallest one. *)

Definition is_key (x : Z) : Prop := - 2 ^ 31 < x < 2 ^ 31.

Section Insert.
Context {D : Type} `{EqDecision D}.
Implicit Types (h : heap D) (l : loc) (d : option D).

Definition keys_ok (xs : list (Z * option D)) : Prop := sorted xs /\ Forall (fun p => is_key (fst p)) xs.

Lemma balanced_size (t : tree D) : balanced t -> 2 ^ ht t <= (lenZ (elems t) + 1) * (lenZ (elems t) + 1).
Proof.
  induction t as [|l lt IHl k d rt IHr]; [done|]. cbn [balanced ht elems]. intros (Hb & Hl & Hr). specialize (IHl Hl). specialize (IHr Hr).
  pose proof (ht_nonneg lt). pose proof (ht_nonneg rt). rewrite lenZ_app, lenZ_cons. pose proof (lenZ_nonneg (elems lt)). pose proof (lenZ_nonneg (elems rt)).
  destruct (Z.eq_dec (Z.max (ht lt) (ht rt)) 0) as [E|Hn]; [rewrite E; nia|]. set (X := 2 ^ (Z.max (ht lt) (ht rt) - 1)).
  assert (HX : 2 ^ (1 + Z.max (ht lt) (ht rt)) = 4 * X) by (unfold X; change 4 with (2 ^ 2); rewrite <- Z.pow_add_r by lia; f_equal; lia).
  assert (X <= 2 ^ ht lt) by (apply Z.pow_le_mono_r; lia). assert (X <= 2 ^ ht rt) by (apply Z.pow_le_mono_r; lia). rewrite HX. nia.
Qed.

Lemma sorted_range lo hi (xs : list (Z * option D)) : sorted xs -> Forall (fun p => lo < fst p < hi) xs -> lo < hi -> lenZ xs <= hi - lo - 1.
Proof.
  revert lo. induction xs as [|[k d] xs IH]; intros lo Hs Hr Hlt; [unfold lenZ; cbn; lia|]. apply sorted_cons in Hs as [Ha Hs].
  apply List.Forall_cons_iff in Hr as [Hk Hr]. cbn [fst] in Hk. rewrite lenZ_cons. enough (lenZ xs <= hi - k - 1) by lia.
  apply IH; [done| |lia]. unfold above in Ha. rewrite List.Forall_forall in *. intros p Hp. specialize (Ha p Hp). specialize (Hr p Hp). lia.
Qed.

(** No height gets near the bound of [int8]. *)
Lemma height_small (t : tree D) : balanced t -> keys_ok (elems t) -> 0 <= ht t <= 64.
Proof.
  intros Hb [Hs Hk]. split; [apply ht_nonneg|]. pose proof (balanced_size t Hb) as Hsz.
  assert (lenZ (elems t) <= 2 ^ 31 - - 2 ^ 31 - 1) by (by apply sorted_range). pose proof (lenZ_nonneg (elems t)).
  destruct (Z.le_gt_cases (ht t) 64) as [|Hgt]; [done|]. exfalso. pose proof (Z.pow_lt_mono_r 2 64 (ht t) ltac:(lia) ltac:(lia) ltac:(lia)). nia.
Qed.

Lemma keys_ok_mid (xs : list (Z * option D)) k d ys :
  keys_ok (xs ++ (k, d) :: ys) <-> keys_ok xs /\ keys_ok ys /\ below k xs /\ above k ys /\ is_key k.
Proof. unfold keys_ok. rewrite sorted_app, Forall_app, List.Forall_cons_iff. cbn [fst]. tauto. Qed.

Lemma keys_ok_insert x d (xs : list (Z * option D)) : is_key x -> keys_ok xs -> keys_ok (linsert x d xs).
Proof. intros Hx [Hs Hk]. split; [by apply linsert_sorted|by apply (linsert_bound is_key)]. Qed.

(** Trees with different keys have different nodes. *)
Lemma places_disjoint (m : gmap loc (node32 D)) (a b : tree D) k d : stored m a -> stored m b -> sorted (elems a ++ (k, d) :: elems b) -> NoDup (places a ++ places b).
Proof.
  intros Ha Hb Hs. apply (NoDup_fmap_1 (key_at m)). change (fmap ?f) with (map f). rewrite map_app, (stored_keys m a Ha), (stored_keys m b Hb).
  apply sorted_NoDup in Hs. unfold keys_of in *. rewrite map_app in Hs. cbn [map fst] in Hs. rewrite NoDup_app, NoDup_cons in *.
  destruct Hs as (H1 & H2 & _ & H3). split_and!; [done| |done]. intros x Hx Hx'. apply (H2 x Hx). by right.
Qed.

(** ** One level of the insertion *)

Definition inserted h (t : tree D) (x : Z) (res : ptr * ptr * ptr) h' : Prop :=
  let '(r, n, o) := res in
  exists t' d0 p, made h h' r t' /\ n = Some p /\ (next h <= p)%positive /\ member p x t' /\
    elems t' = linsert x d0 (elems t) /\ ht t <= ht t' <= ht t + 1 /\
    match lfind x (elems t) with
    | None => o = None /\ d0 = None
    | Some d => d0 = d /\ exists q nd, o = Some q /\ (q < next h)%positive /\ nodes h !! q = Some nd /\ data nd = d
    end.

Lemma grows_lookup h h' l (n : node32 D) : grows h h' -> (l < next h)%positive -> nodes h !! l = Some n -> nodes h' !! l = Some n.
Proof. intros (_ & _ & Hg) Hl E. by rewrite Hg. Qed.

(** A node whose left subtree was replaced. *)
Lemma relink_left_does h h1 (t : loc) lt k d rt (lt' : tree D) (new_l newnode oldnode : ptr) p x :
  has h (Node t lt k d rt) -> balanced (Node t lt k d rt) -> made h h1 new_l lt' ->
  keys_ok (elems lt' ++ (k, d) :: elems rt) -> ht lt <= ht lt' <= ht lt + 1 ->
  newnode = Some p -> (next h <= p)%positive -> member p x lt' ->
  does (let* c := copy (Some t) in
        update c (set_left new_l);;;
        let* hl := height new_l in
        let* r := field right c in
        let* hr := height r in
        if s8 (1 + hr) <? hl then
          let* newroot := aLeftIsHigh c newnode in ret (newroot, newnode, oldnode)
        else
          let* lc := field left c in
          let* hl := height lc in
          let* hr := height r in
          update c (set_height (s8 (1 + Z.max hl hr)));;;
          ret (c, newnode, oldnode))
    (fun '(r, n, o) h' => n = newnode /\ o = oldnode /\ exists t', made h h' r t' /\ member p x t' /\ elems t' = elems lt' ++ (k, d) :: elems rt /\
       ht (Node t lt k d rt) <= ht t' <= ht (Node t lt k d rt) + 1) h1.
Proof.
  intros Ht Hbal (-> & Hg & Hlt' & Hbl' & l' & El' & Hl') Hok Hh Hnew Hp Hmem. pose proof Ht as (Et & Htn & Hlt & Hrt)%has_N.
  pose proof Hok as ([Hs1 Hk1] & [Hs2 Hk2] & _)%keys_ok_mid. destruct Hbal as (Hb1 & Hbl & Hbr).
  pose proof (height_small lt' Hbl' ltac:(by split)). pose proof (height_small rt Hbr ltac:(by split)).
  pose proof (has_grows _ _ _ Hrt Hg) as Hrt1. pose proof (grows_lookup _ _ _ _ Hg Htn Et) as Et1.
  apply does_bind. eapply does_copy; [exact Et1|]. apply does_bind. eapply does_update; [look|].
  set (h2 := write (alloc h1 _) _ _). set (c := next h1) in *.
  assert (Hsub : forall s, has h1 s -> has h2 s) by (intros s Hs; apply has_write; [by apply has_alloc|by eapply has_fresh]).
  assert (Hg2 : grows h h2) by (destruct Hg as (? & ? & ?); apply grows_write; [by apply grows_alloc|done]).
  assert (Hcn : (next h <= c < next h2)%positive) by (destruct Hg as (? & ? & ?); unfold c; cbn; lia).
  apply does_bind. eapply does_height; [apply has_height, Hsub, Hlt'|]. apply does_bind. eapply does_field; [unfold h2; look|]. cbn [right].
  apply does_bind. eapply does_height; [apply has_height, Hsub, Hrt1|]. rewrite s8_small by lia. cbn [ht].
  destruct (1 + ht rt <? ht lt') eqn:E.
  - destruct lt' as [|l0 ll kl dl lr]; [done|]. cbn [place] in El'. injection El' as ->. apply does_bind. eapply does_mono.
    { eapply (aLeftIsHigh_does h h2 c l' ll kl dl lr k d rt _ newnode); try done; try lia.
      - rewrite Hnew. by intros m [= <-].
      - unfold h2. look. 
      - by apply Hsub.
      - by apply Hsub.
      - apply NoDup_cons. split.
        + rewrite not_elem_of_app. split; by eapply has_fresh.
        + destruct Hlt' as [Hst1 _]. destruct Hrt1 as [Hst2 _]. destruct Hok as [Hs _]. by apply (places_disjoint _ (Node l' ll kl dl lr) rt k d Hst1 Hst2 Hs). }
    intros r h' (t' & Hm & Hel & Hht & Hmem'). apply does_ret. split; [done|]. split; [done|]. exists t'. split_and!; [done|by apply Hmem'|done| |]; rewrite Hht; destruct (ht ll =? ht lr); lia.
  - apply does_bind. eapply does_field; [unfold h2; look|]. apply does_bind. cbn [left]. eapply does_height; [apply has_height, Hsub, Hlt'|].
    apply does_bind. eapply does_height; [apply has_height, Hsub, Hrt1|]. apply does_bind. eapply does_update; [unfold h2; look|].
    rewrite s8_small by lia. apply does_ret. split; [done|]. split; [done|]. exists (Node c lt' k d rt). unfold made. split_and!.
    + reflexivity.
    + apply grows_write; [done|lia].
    + apply has_N. split_and!; [unfold h2; look|cbn [next write]; lia| |]; apply has_write; try by apply Hsub. 
      all: by eapply has_fresh.
    + cbn [balanced ht]. split_and!; done || lia.
    + exists c. split; [done|lia].
    + right. by left.
    + done.
    + cbn [ht]. lia.
    + cbn [ht]. lia.
Qed.
(** A node whose right subtree was replaced. *)
Lemma relink_right_does h h1 (t : loc) lt k d rt (rt' : tree D) (new_r newnode oldnode : ptr) p x :
  has h (Node t lt k d rt) -> balanced (Node t lt k d rt) -> made h h1 new_r rt' ->
  keys_ok (elems lt ++ (k, d) :: elems rt') -> ht rt <= ht rt' <= ht rt + 1 ->
  newnode = Some p -> (next h <= p)%positive -> member p x rt' ->
  does (let* c := copy (Some t) in
        update c (set_right new_r);;;
        let* hr := height new_r in
        let* lc := field left c in
        let* hl := height lc in
        if s8 (1 + hl) <? hr then
          let* newroot := aRightIsHigh c newnode in ret (newroot, newnode, oldnode)
        else
          let* hl := height lc in
          let* r := field right c in
          let* hr := height r in
          update c (set_height (s8 (1 + Z.max hl hr)));;;
          ret (c, newnode, oldnode))
    (fun '(r, n, o) h' => n = newnode /\ o = oldnode /\ exists t', made h h' r t' /\ member p x t' /\ elems t' = elems lt ++ (k, d) :: elems rt' /\
       ht (Node t lt k d rt) <= ht t' <= ht (Node t lt k d rt) + 1) h1.
Proof.
  intros Ht Hbal (-> & Hg & Hrt' & Hbr' & r' & Er' & Hr') Hok Hh Hnew Hp Hmem. pose proof Ht as (Et & Htn & Hlt & Hrt)%has_N.
  pose proof Hok as ([Hs1 Hk1] & [Hs2 Hk2] & _)%keys_ok_mid. destruct Hbal as (Hb1 & Hbl & Hbr).
  pose proof (height_small rt' Hbr' ltac:(by split)). pose proof (height_small lt Hbl ltac:(by split)).
  pose proof (has_grows _ _ _ Hlt Hg) as Hlt1. pose proof (grows_lookup _ _ _ _ Hg Htn Et) as Et1.
  apply does_bind. eapply does_copy; [exact Et1|]. apply does_bind. eapply does_update; [look|].
  set (h2 := write (alloc h1 _) _ _). set (c := next h1) in *.
  assert (Hsub : forall s, has h1 s -> has h2 s) by (intros s Hs; apply has_write; [by apply has_alloc|by eapply has_fresh]).
  assert (Hg2 : grows h h2) by (destruct Hg as (? & ? & ?); apply grows_write; [by apply grows_alloc|done]).
  assert (Hcn : (next h <= c < next h2)%positive) by (destruct Hg as (? & ? & ?); unfold c; cbn; lia).
  apply does_bind. eapply does_height; [apply has_height, Hsub, Hrt'|]. apply does_bind. eapply does_field; [unfold h2; look|]. cbn [left].
  apply does_bind. eapply does_height; [apply has_height, Hsub, Hlt1|]. rewrite s8_small by lia. cbn [ht].
  destruct (1 + ht lt <? ht rt') eqn:E.
  - destruct rt' as [|r0 rl kr dr rr]; [done|]. cbn [place] in Er'. injection Er' as ->. apply does_bind. eapply does_mono.
    { eapply (aRightIsHigh_does h h2 c r' lt k d rl kr dr rr _ newnode); try done; try lia.
      - rewrite Hnew. by intros m [= <-].
      - unfold h2. look.
      - by apply Hsub.
      - by apply Hsub.
      - apply NoDup_cons. split.
        + rewrite not_elem_of_app. split; by eapply has_fresh.
        + destruct Hrt' as [Hst1 _]. destruct Hlt1 as [Hst2 _]. destruct Hok as [Hs _]. by apply (places_disjoint _ lt (Node r' rl kr dr rr) k d Hst2 Hst1 Hs). }
    intros r h' (t' & Hm & Hel & Hht & Hmem'). apply does_ret. split; [done|]. split; [done|].
    exists t'. split_and!; [done|by apply Hmem'|done| |]; rewrite Hht; destruct (ht rl =? ht rr); lia.
  - apply does_bind. eapply does_height; [apply has_height, Hsub, Hlt1|]. apply does_bind. eapply does_field; [unfold h2; look|]. cbn [right].
    apply does_bind. eapply does_height; [apply has_height, Hsub, Hrt'|]. apply does_bind. eapply does_update; [unfold h2; look|].
    rewrite s8_small by lia. apply does_ret. split; [done|]. split; [done|]. exists (Node c lt k d rt'). unfold made. split_and!.
    + reflexivity.
    + apply grows_write; [done|lia].
    + apply has_N. split_and!; [unfold h2; look|cbn [next write]; lia| |]; apply has_write; try by apply Hsub.
      all: by eapply has_fresh.
    + cbn [balanced ht]. split_and!; done || lia.
    + exists c. split; [done|lia].
    + right. by right.
    + done.
    + cbn [ht]. lia.
    + cbn [ht]. lia.
Qed.

(** A new leaf below a node with no child on that side. *)
Ltac graft Et Hsub :=
  apply does_bind; eapply does_copy; [exact Et|]; apply does_bind; eapply does_new; apply does_bind;
  eapply does_update; [look|]; apply does_bind; eapply does_update; [look|]; apply does_ret;
  split; [done|]; eexists _, _; split; [|split; [reflexivity|]]; [cbn; lia|];
  unfold made; split_and!;
    [reflexivity
    |repeat apply grows_write; [apply grows_alloc, grows_alloc; reflexivity|cbn; lia..]
    |apply has_N; split_and!;
       first [look; cbn [place ht]; do 2 f_equal; lia | cbn; lia | by apply Hsub | apply has_N; split_and!; first [cbn; lia | apply has_E | look]]
    |cbn [balanced ht]; split_and!; done || lia
    |eexists; split; [reflexivity|cbn; lia]].

Lemma graft_left_does h (t : loc) k d rt x : has h (Node t Leaf k d rt) -> balanced (Node t Leaf k d rt) ->
  does (let* c := copy (Some t) in
        let* n := makeNode x in
        update c (set_left n);;;
        update c (set_height 2);;;
        ret (c, n, None : ptr))
    (fun '(r, n, o) h' => o = None /\ exists l1 l2, (next h <= l2)%positive /\ n = Some l2 /\ made h h' r (Node l1 (Node l2 Leaf x None Leaf) k d rt)) h.
Proof.
  intros (Et & Htn & _ & Hrt)%has_N (Hb & _ & Hbr). cbn [ht] in Hb. pose proof (ht_nonneg rt).
  assert (Hsub : forall n m n' m', has (write (write (alloc (alloc h n) m) (next h) n') (next h) m') rt).
  { intros. assert (Hf : next h ∉ places rt) by (by eapply has_fresh). by apply has_write; [apply has_write; [apply has_alloc, has_alloc|]|]. }
  graft Et Hsub.
Qed.

Lemma graft_right_does h (t : loc) lt k d x : has h (Node t lt k d Leaf) -> balanced (Node t lt k d Leaf) ->
  does (let* c := copy (Some t) in
        let* n := makeNode x in
        update c (set_right n);;;
        update c (set_height 2);;;
        ret (c, n, None : ptr))
    (fun '(r, n, o) h' => o = None /\ exists l1 l2, (next h <= l2)%positive /\ n = Some l2 /\ made h h' r (Node l1 lt k d (Node l2 Leaf x None Leaf))) h.
Proof.
  intros (Et & Htn & Hlt & _)%has_N (Hb & Hbl & _). cbn [ht] in Hb. pose proof (ht_nonneg lt).
  assert (Hsub : forall n m n' m', has (write (write (alloc (alloc h n) m) (next h) n') (next h) m') lt).
  { intros. assert (Hf : next h ∉ places lt) by (by eapply has_fresh). by apply has_write; [apply has_write; [apply has_alloc, has_alloc|]|]. }
  graft Et Hsub.
Qed.
(** ** The whole insertion *)

Lemma lfind_left (t : loc) lt k d rt x : keys_ok (elems (Node t lt k d rt)) -> x < k -> lfind x (elems (Node t lt k d rt)) = lfind x (elems lt).
Proof. intros (_ & _ & Hb & Ha & _)%keys_ok_mid Hx. cbn [elems]. rewrite lfind_mid by done. by replace (x <? k) with true by lia. Qed.

Lemma lfind_right (t : loc) lt k d rt x : keys_ok (elems (Node t lt k d rt)) -> k < x -> lfind x (elems (Node t lt k d rt)) = lfind x (elems rt).
Proof.
  intros (_ & _ & Hb & Ha & _)%keys_ok_mid Hx. cbn [elems]. rewrite lfind_mid by done. replace (x <? k) with false by lia.
  by replace (k <? x) with true by lia.
Qed.

Lemma linsert_left (t : loc) lt k d rt x (d0 : option D) : x < k -> linsert x d0 (elems (Node t lt k d rt)) = linsert x d0 (elems lt) ++ (k, d) :: elems rt.
Proof. intros Hx. by apply linsert_app_l. Qed.

Lemma linsert_right (t : loc) lt k d rt x (d0 : option D) : keys_ok (elems (Node t lt k d rt)) -> k < x ->
  linsert x d0 (elems (Node t lt k d rt)) = elems lt ++ (k, d) :: linsert x d0 (elems rt).
Proof.
  intros (_ & _ & Hb & Ha & _)%keys_ok_mid Hx. cbn [elems]. rewrite linsert_app_r by (eapply below_weaken; [|exact Hb]; lia). cbn [linsert].
  replace (x <? k) with false by lia. by replace (k <? x) with true by lia.
Qed.

Lemma aInsert_does fuel : forall h (t : tree D) x, has h t -> balanced t -> keys_ok (elems t) -> is_key x -> t <> Leaf -> ht t <= Z.of_nat fuel ->
  does (aInsert fuel (place t) x) (fun res h' => inserted h t x res h') h.
Proof.
  induction fuel as [|fuel IH]; intros h [|t lt k d rt] x Ht Hbal Hok Hx Hne Hfuel; try done.
  { pose proof (ht_pos t lt k d rt). lia. }
  pose proof Ht as (Et & Htn & Hlt & Hrt)%has_N. pose proof Hok as (Hokl & Hokr & Hbe & Hab & Hk)%keys_ok_mid. pose proof Hbal as (Hb1 & Hbl & Hbr).
  cbn [ht] in Hfuel. cbn [place aInsert]. apply does_bind. eapply does_deref; [exact Et|]. cbn [key left right]. destruct (x =? k) eqn:E.
  - assert (x = k) as -> by lia. apply does_bind. eapply does_copy; [exact Et|]. apply does_ret.
    exists (Node (next h) lt k d rt), d, (next h). unfold made. cbn [elems]. rewrite linsert_mid by done. rewrite lfind_mid, Z.ltb_irrefl by done. split_and!; try done.
    + by apply grows_alloc.
    + apply has_N. split_and!; [look|cbn; lia|by apply has_alloc|by apply has_alloc].
    + by exists (next h).
    + by left.
    + cbn [ht]. lia.
    + by eexists _, _.
  - destruct (x <? k) eqn:E1.
    + unfold inserted. rewrite lfind_left by (done || lia). destruct lt as [|l ll kl dl lr].
      * eapply does_mono; [by apply graft_left_does|]. intros [[r n] o] h' (-> & l1 & l2 & Hl2 & -> & Hm).
        exists (Node l1 (Node l2 Leaf x None Leaf) k d rt), None, l2. rewrite linsert_left by lia. split_and!; try done; cbn [ht member]; lia.
      * cbn [place]. apply does_bind. eapply does_mono.
        { apply (IH h (Node l ll kl dl lr) x); try done. lia. }
        intros [[new_l newnode] oldnode] h1 (lt' & d0 & p & Hm & -> & Hp & Hmem & Hel & Hh & Hold).
        eapply does_mono; [eapply (relink_left_does h h1 t (Node l ll kl dl lr) k d rt lt'); try done|].
        { apply keys_ok_mid. rewrite Hel. split_and!; try done; [by apply keys_ok_insert|]. apply (linsert_bound (fun z => z < k)); [lia|exact Hbe]. }
        intros [[r n] o] h' (-> & -> & t' & Hm' & Hmem' & Hel' & Hht). exists t', d0, p. rewrite linsert_left, Hel', Hel by lia. split_and!; try done; lia.
    + unfold inserted. rewrite lfind_right by (done || lia). destruct rt as [|r rl kr dr rr].
      * eapply does_mono; [by apply graft_right_does|]. intros [[r n] o] h' (-> & l1 & l2 & Hl2 & -> & Hm).
        exists (Node l1 lt k d (Node l2 Leaf x None Leaf)), None, l2. rewrite linsert_right by (done || lia). split_and!; try done; cbn [ht member]; lia.
      * cbn [place]. apply does_bind. eapply does_mono.
        { apply (IH h (Node r rl kr dr rr) x); try done. lia. }
        intros [[new_r newnode] oldnode] h1 (rt' & d0 & p & Hm & -> & Hp & Hmem & Hel & Hh & Hold).
        eapply does_mono; [eapply (relink_right_does h h1 t lt k d (Node r rl kr dr rr) rt'); try done|].
        { apply keys_ok_mid. rewrite Hel. split_and!; try done; [by apply keys_ok_insert|]. apply (linsert_bound (fun z => k < z)); [lia|exact Hab]. }
        intros [[q n] o] h' (-> & -> & t' & Hm' & Hmem' & Hel' & Hht). exists t', d0, p. rewrite linsert_right, Hel', Hel by (done || lia). split_and!; try done; lia.
Qed.
End Insert.
