(* ===== verification/AbtDelete.v ===== *)
(** * Deletion from a tree of the store *)

From S2P Require Import Prelude Abt SortedMaps AbtTrees AbtNodes AbtInsert.
From stdpp Require Import gmap.

#[local] Open Scope Z_scope.
#[local] Open Scope go_scope.

Section Delete.
Context {D : Type} `{EqDecision D}.
Implicit Types (h : heap D) (d : option D).

(** The pointer determines the tree. *)
Lemma stored_inj (m : gmap loc (node32 D)) (a : tree D) : forall b, stored m a -> stored m b -> place a = place b -> a = b.
Proof.
  induction a as [|l lt IHl k d rt IHr]; intros [|l' lt' k' d' rt'] Ha Hb Hp; try done. cbn [place] in Hp. injection Hp as <-.
  destruct Ha as (E & Hlt & Hrt), Hb as (E' & Hlt' & Hrt'). rewrite E in E'. injection E' as Hpl Hpr -> -> _.
  by rewrite (IHl lt' Hlt Hlt' Hpl), (IHr rt' Hrt Hrt' Hpr).
Qed.

Lemma has_same h (a b : tree D) : has h a -> has h b -> lenZ (elems a) <> lenZ (elems b) -> same (place a) (place b) = false.
Proof. intros [Ha _] [Hb _] Hl. apply bool_decide_eq_false. intros E. by rewrite (stored_inj _ _ _ Ha Hb E) in Hl. Qed.

(** ** Balance after a deletion *)

(** The height fell by one at most. *)
Definition lower (n m : Z) : Prop := m - 1 <= n <= m.

Definition rebuilt h0 h (r : ptr) (xs : list (Z * option D)) (z : Z) : Prop :=
  exists t', r = place t' /\ grows h0 h /\ has h t' /\ balanced t' /\ elems t' = xs /\ lower (ht t') z.

Lemma made_rebuilt h0 h r (t' : tree D) xs z : made h0 h r t' -> elems t' = xs -> lower (ht t') z -> rebuilt h0 h r xs z.
Proof. intros (-> & Hg & Hh & Hb & _) Hel Hz. by exists t'. Qed.

Lemma rebalance_left_does h0 h (c : loc) (lt' rt : tree D) p0 k d oh :
  grows h0 h -> (next h0 <= c < next h)%positive -> nodes h !! c = Some (Node32 p0 (place rt) d k (1 + Z.max oh (ht rt))) ->
  has h lt' -> has h rt -> c ∉ places lt' -> c ∉ places rt -> balanced lt' -> balanced rt -> -1 <= oh - ht rt <= 1 -> lower (ht lt') oh ->
  keys_ok (elems lt' ++ (k, d) :: elems rt) ->
  does (aRebalanceAfterLeftDeletion (Some c) oh (place lt'))
    (fun r h' => rebuilt h0 h' r (elems lt' ++ (k, d) :: elems rt) (1 + Z.max oh (ht rt))) h.
Proof.
  unfold lower. intros Hg Hc Ec Hlt Hrt Hcl Hcr Hbl Hbr Hoh Hlow Hok. pose proof Hok as (Hokl & Hokr & _)%keys_ok_mid.
  pose proof (height_small lt' Hbl Hokl). pose proof (height_small rt Hbr Hokr).
  unfold aRebalanceAfterLeftDeletion. apply does_bind. eapply does_update; [exact Ec|]. set (h1 := write h c _).
  assert (Hg1 : grows h0 h1) by (apply grows_write; [done|lia]).
  assert (Hlt1 : has h1 lt') by by apply has_write. assert (Hrt1 : has h1 rt) by by apply has_write.
  apply does_bind. eapply does_height; [by apply has_height|]. apply does_bind. eapply does_field; [unfold h1; look|]. cbn [right].
  apply does_bind. eapply does_height; [by apply has_height|]. destruct ((oh =? ht lt') || (oh =? ht rt)) eqn:E; [|destruct (ht rt <? oh) eqn:E1].
  - apply does_ret. exists (Node c lt' k d rt). unfold lower. cbn [ht]. split_and!; try done; try lia.
    + apply has_N. split_and!; [unfold h1; look; cbn [ht]; do 2 f_equal; lia|cbn; lia|done|done].
    + cbn [balanced]. split_and!; done || lia.
  - apply does_bind. eapply does_field; [unfold h1; look|]. cbn [height_]. apply does_bind. eapply does_update; [unfold h1; look|].
    rewrite s8_small by lia. apply does_ret. exists (Node c lt' k d rt). unfold lower. cbn [ht]. split_and!; try done; try lia.
    + apply grows_write; [done|lia].
    + apply has_N. split_and!; [unfold h1; look; cbn [ht]; do 2 f_equal; lia|cbn; lia|by apply has_write|by apply has_write].
    + cbn [balanced]. split_and!; done || lia.
  - destruct rt as [|r rl kr dr rr]; [cbn [ht] in *; pose proof (ht_nonneg lt'); lia|]. pose proof Hrt1 as (Er & Hrn & Hrl & Hrr)%has_N.
    apply does_bind. eapply does_copy; [exact Er|]. apply does_bind. eapply does_update; [unfold h1; look; rewrite lookup_insert_ne by (cbn in *; lia); look|].
    set (h2 := write (alloc h1 _) c _). set (c' := next h1). assert (Ec' : c' = next h) by done.
    assert (Hcr' : (c ∉ places rl) /\ (c ∉ places rr) /\ c <> r) by (cbn [places] in Hcr; rewrite not_elem_of_app, not_elem_of_cons in Hcr; tauto).
    assert (Hsub : forall s, has h1 s -> c ∉ places s -> has h2 s) by (intros s Hs Hn; apply has_write; [by apply has_alloc|done]).
    assert (Hf : forall s, has h1 s -> c' ∉ places s) by (intros s Hs; by eapply has_fresh).
    assert (Hn : NoDup (c :: places lt' ++ places (Node c' rl kr dr rr))).
    { destruct Hok as [Hs _]. pose proof (places_disjoint (nodes h1) lt' (Node r rl kr dr rr) k d (proj1 Hlt1) (proj1 Hrt1) Hs) as Hnd.
      cbn [places] in *. assert (Hp : forall z, places lt' ++ places rl ++ z :: places rr ≡ₚ z :: places lt' ++ places rl ++ places rr) by (intros z; solve_Permutation).
      rewrite Hp in *. rewrite !NoDup_cons in *. rewrite not_elem_of_cons, !not_elem_of_app. pose proof (Hf _ Hlt1). pose proof (Hf _ Hrl). pose proof (Hf _ Hrr).
      split_and!; try tauto. lia. }
    assert (Hht : ht (Node c' rl kr dr rr) = ht (Node r rl kr dr rr)) by done.
    eapply does_mono.
    { eapply (aRightIsHigh_does h0 h2 c c' lt' k d rl kr dr rr); try done; try (cbn; lia).
      - apply grows_write; [by apply grows_alloc|lia].
      - unfold h2. look.
      - apply has_N. split_and!; [unfold h2; look; rewrite lookup_insert_ne by lia; look|cbn; lia|apply Hsub; tauto|apply Hsub; tauto].
      - apply Hsub; tauto.
      - rewrite Hht. lia. }
    intros p h' (t' & Hm & Hel & Hz & _). eapply made_rebuilt; [done|done|]. rewrite Hz. unfold lower. destruct (ht rl =? ht rr); lia.
Qed.
Lemma rebalance_right_does h0 h (c : loc) (lt rt' : tree D) p0 k d oh :
  grows h0 h -> (next h0 <= c < next h)%positive -> nodes h !! c = Some (Node32 (place lt) p0 d k (1 + Z.max (ht lt) oh)) ->
  has h lt -> has h rt' -> c ∉ places lt -> c ∉ places rt' -> balanced lt -> balanced rt' -> -1 <= ht lt - oh <= 1 -> lower (ht rt') oh ->
  keys_ok (elems lt ++ (k, d) :: elems rt') ->
  does (aRebalanceAfterRightDeletion (Some c) oh (place rt'))
    (fun r h' => rebuilt h0 h' r (elems lt ++ (k, d) :: elems rt') (1 + Z.max (ht lt) oh)) h.
Proof.
  unfold lower. intros Hg Hc Ec Hlt Hrt Hcl Hcr Hbl Hbr Hoh Hlow Hok. pose proof Hok as (Hokl & Hokr & _)%keys_ok_mid.
  pose proof (height_small lt Hbl Hokl). pose proof (height_small rt' Hbr Hokr).
  unfold aRebalanceAfterRightDeletion. apply does_bind. eapply does_update; [exact Ec|]. set (h1 := write h c _).
  assert (Hg1 : grows h0 h1) by (apply grows_write; [done|lia]).
  assert (Hlt1 : has h1 lt) by by apply has_write. assert (Hrt1 : has h1 rt') by by apply has_write.
  apply does_bind. eapply does_height; [by apply has_height|]. apply does_bind. eapply does_field; [unfold h1; look|]. cbn [left].
  apply does_bind. eapply does_height; [by apply has_height|]. destruct ((oh =? ht rt') || (oh =? ht lt)) eqn:E; [|destruct (ht lt <? oh) eqn:E1].
  - apply does_ret. exists (Node c lt k d rt'). unfold lower. cbn [ht]. split_and!; try done; try lia.
    + apply has_N. split_and!; [unfold h1; look; cbn [ht]; do 2 f_equal; lia|cbn; lia|done|done].
    + cbn [balanced]. split_and!; done || lia.
  - apply does_bind. eapply does_field; [unfold h1; look|]. cbn [height_]. apply does_bind. eapply does_update; [unfold h1; look|].
    rewrite s8_small by lia. apply does_ret. exists (Node c lt k d rt'). unfold lower. cbn [ht]. split_and!; try done; try lia.
    + apply grows_write; [done|lia].
    + apply has_N. split_and!; [unfold h1; look; cbn [ht]; do 2 f_equal; lia|cbn; lia|by apply has_write|by apply has_write].
    + cbn [balanced]. split_and!; done || lia.
  - destruct lt as [|l ll kl dl lr]; [cbn [ht] in *; pose proof (ht_nonneg rt'); lia|]. pose proof Hlt1 as (El & Hln & Hll & Hlr)%has_N.
    apply does_bind. eapply does_copy; [exact El|]. apply does_bind. eapply does_update; [unfold h1; look; rewrite lookup_insert_ne by (cbn in *; lia); look|].
    set (h2 := write (alloc h1 _) c _). set (c' := next h1). assert (Ec' : c' = next h) by done.
    assert (Hcl' : (c ∉ places ll) /\ (c ∉ places lr) /\ c <> l) by (cbn [places] in Hcl; rewrite not_elem_of_app, not_elem_of_cons in Hcl; tauto).
    assert (Hsub : forall s, has h1 s -> c ∉ places s -> has h2 s) by (intros s Hs Hn; apply has_write; [by apply has_alloc|done]).
    assert (Hf : forall s, has h1 s -> c' ∉ places s) by (intros s Hs; by eapply has_fresh).
    assert (Hn : NoDup (c :: places (Node c' ll kl dl lr) ++ places rt')).
    { destruct Hok as [Hs _]. pose proof (places_disjoint (nodes h1) (Node l ll kl dl lr) rt' k d (proj1 Hlt1) (proj1 Hrt1) Hs) as Hnd.
      cbn [places] in *. assert (Hp : forall z, (places ll ++ z :: places lr) ++ places rt' ≡ₚ z :: places ll ++ places lr ++ places rt') by (intros z; solve_Permutation).
      rewrite Hp in *. rewrite !NoDup_cons in *. rewrite not_elem_of_cons, !not_elem_of_app. pose proof (Hf _ Hrt1). pose proof (Hf _ Hll). pose proof (Hf _ Hlr).
      split_and!; try tauto. lia. }
    assert (Hht : ht (Node c' ll kl dl lr) = ht (Node l ll kl dl lr)) by done.
    eapply does_mono.
    { eapply (aLeftIsHigh_does h0 h2 c c' ll kl dl lr k d rt'); try done; try (cbn; lia).
      - apply grows_write; [by apply grows_alloc|lia].
      - unfold h2. look.
      - apply has_N. split_and!; [unfold h2; look; rewrite lookup_insert_ne by lia; look|cbn; lia|apply Hsub; tauto|apply Hsub; tauto].
      - apply Hsub; tauto.
      - rewrite Hht. lia. }
    intros p h' (t' & Hm & Hel & Hz & _). eapply made_rebuilt; [done|done|]. rewrite Hz. unfold lower. destruct (ht ll =? ht lr); lia.
Qed.

(** A copy of a node gets a smaller subtree; [dd] is the deleted node. *)
Lemma shrink_left_does h h1 (t : loc) lt k d rt (lt' : tree D) (dd : ptr) :
  has h (Node t lt k d rt) -> balanced (Node t lt k d rt) -> grows h h1 -> has h1 lt' -> balanced lt' -> lower (ht lt') (ht lt) ->
  lenZ (elems lt') <> lenZ (elems lt) -> keys_ok (elems lt' ++ (k, d) :: elems rt) ->
  does (let* l := field left (Some t) in
        if same (place lt') l then ret (dd, Some t)
        else
          let* c := copy (Some t) in
          let* r := aRebalanceAfterLeftDeletion c (ht lt) (place lt') in
          ret (dd, r))
    (fun '(d', r) h' => d' = dd /\ rebuilt h h' r (elems lt' ++ (k, d) :: elems rt) (ht (Node t lt k d rt))) h1.
Proof.
  intros (Et & Htn & Hlt & Hrt)%has_N (Hb & _ & Hbr) Hg Hlt' Hbl' Hlow Hlen Hok. pose proof (grows_lookup _ _ _ _ Hg Htn Et) as Et1.
  pose proof (has_grows _ _ _ Hrt Hg) as Hrt1. pose proof (has_grows _ _ _ Hlt Hg) as Hlt1.
  apply does_bind. eapply does_field; [exact Et1|]. cbn [left]. rewrite (has_same h1) by done.
  apply does_bind. eapply does_copy; [exact Et1|]. apply does_bind. eapply does_mono.
  { eapply (rebalance_left_does h _ (next h1) lt' rt (place lt) k d (ht lt)); try done; try (by apply has_alloc); try (by eapply has_fresh).
    - by apply grows_alloc.
    - destruct Hg as [? _]. cbn. lia.
    - look. }
  intros r h' Hr. by apply does_ret.
Qed.

Lemma shrink_right_does h h1 (t : loc) lt k d rt (rt' : tree D) (dd : ptr) :
  has h (Node t lt k d rt) -> balanced (Node t lt k d rt) -> grows h h1 -> has h1 rt' -> balanced rt' -> lower (ht rt') (ht rt) ->
  lenZ (elems rt') <> lenZ (elems rt) -> keys_ok (elems lt ++ (k, d) :: elems rt') ->
  does (let* r := field right (Some t) in
        if same (place rt') r then ret (dd, Some t)
        else
          let* c := copy (Some t) in
          let* r := aRebalanceAfterRightDeletion c (ht rt) (place rt') in
          ret (dd, r))
    (fun '(d', r) h' => d' = dd /\ rebuilt h h' r (elems lt ++ (k, d) :: elems rt') (ht (Node t lt k d rt))) h1.
Proof.
  intros (Et & Htn & Hlt & Hrt)%has_N (Hb & Hbl & _) Hg Hrt' Hbr' Hlow Hlen Hok. pose proof (grows_lookup _ _ _ _ Hg Htn Et) as Et1.
  pose proof (has_grows _ _ _ Hrt Hg) as Hrt1. pose proof (has_grows _ _ _ Hlt Hg) as Hlt1.
  apply does_bind. eapply does_field; [exact Et1|]. cbn [right]. rewrite (has_same h1) by done.
  apply does_bind. eapply does_copy; [exact Et1|]. apply does_bind. eapply does_mono.
  { eapply (rebalance_right_does h _ (next h1) lt rt' (place rt) k d (ht rt)); try done; try (by apply has_alloc); try (by eapply has_fresh).
    - by apply grows_alloc.
    - destruct Hg as [? _]. cbn. lia.
    - look. }
  intros r h' Hr. by apply does_ret.
Qed.

(** ** The smallest and the largest node *)

(** The node [q] of [h] holds the pair. *)
Definition node_is h (q : loc) (p : Z * option D) : Prop :=
  (q < next h)%positive /\ exists n, nodes h !! q = Some n /\ key n = fst p /\ data n = snd p.

Lemma has_node h l lt k d rt : has h (Node l lt k d rt) -> node_is h l (k, d).
Proof. intros (E & Hn & _)%has_N. split; [done|]. by eexists. Qed.

Lemma keys_ok_app (xs ys : list (Z * option D)) p : keys_ok (xs ++ p :: ys) -> keys_ok (xs ++ ys).
Proof.
  destruct p as [k d]. destruct ys as [|[k1 d1] ys]; [rewrite app_nil_r; by intros (? & _)%keys_ok_mid|]. rewrite !keys_ok_mid.
  intros (H1 & (H2 & H3)%(keys_ok_mid []) & H4 & H5 & H6). unfold above in H5. apply List.Forall_cons_iff in H5 as [H5 H7]. cbn [fst] in H5.
  split_and!; try tauto. by eapply below_weaken; [|exact H4]; lia.
Qed.

Lemma aDeleteMin_does fuel : forall h (t : tree D), has h t -> balanced t -> keys_ok (elems t) -> t <> Leaf -> ht t <= Z.of_nat fuel ->
  does (aDeleteMin fuel (place t))
    (fun '(dd, r) h' => exists q p xs, elems t = p :: xs /\ dd = Some q /\ node_is h q p /\ rebuilt h h' r xs (ht t)) h.
Proof.
  induction fuel as [|fuel IH]; intros h [|t lt k d rt] Ht Hbal Hok Hne Hfuel; try done.
  { pose proof (ht_pos t lt k d rt). lia. }
  pose proof Ht as (Et & Htn & Hlt & Hrt)%has_N. pose proof Hbal as (Hb1 & Hbl & Hbr). pose proof Hok as (Hokl & Hokr & _)%keys_ok_mid. cbn [ht] in Hfuel.
  cbn [place aDeleteMin]. apply does_bind. eapply does_deref; [exact Et|]. cbn [left right]. destruct lt as [|l ll kl dl lr].
  - apply does_ret. exists t, (k, d), (elems rt). split_and!; try done; [exact (has_node _ _ _ _ _ _ Ht)|]. exists rt. unfold lower. cbn [ht] in *. pose proof (ht_nonneg rt).
    split_and!; try done; lia.
  - cbn [place]. apply does_bind. eapply does_height; [apply (has_height h (Node l ll kl dl lr)), Hlt|]. apply does_bind. eapply does_mono.
    { apply (IH h (Node l ll kl dl lr)); try done; lia. }
    intros [dd r] h1 (q & p & xs & Hel & -> & Hq & lt' & -> & Hg & Hh & Hbl' & Hel' & Hlow). subst xs.
    assert (Hok' : keys_ok (elems lt' ++ (k, d) :: elems rt)) by (revert Hok; cbn [elems] in *; rewrite Hel; cbn [app]; apply (keys_ok_app [])).
    eapply does_mono; [eapply (shrink_left_does h h1 t (Node l ll kl dl lr) k d rt lt'); try done|].
    { rewrite Hel, lenZ_cons. lia. }
    intros [d' r] h' [-> Hr]. exists q, p, (elems lt' ++ (k, d) :: elems rt). split_and!; try done. cbn [elems] in *. by rewrite Hel.
Qed.

Lemma aDeleteMax_does fuel : forall h (t : tree D), has h t -> balanced t -> keys_ok (elems t) -> t <> Leaf -> ht t <= Z.of_nat fuel ->
  does (aDeleteMax fuel (place t))
    (fun '(dd, r) h' => exists q p xs, elems t = xs ++ [p] /\ dd = Some q /\ node_is h q p /\ rebuilt h h' r xs (ht t)) h.
Proof.
  induction fuel as [|fuel IH]; intros h [|t lt k d rt] Ht Hbal Hok Hne Hfuel; try done.
  { pose proof (ht_pos t lt k d rt). lia. }
  pose proof Ht as (Et & Htn & Hlt & Hrt)%has_N. pose proof Hbal as (Hb1 & Hbl & Hbr). pose proof Hok as (Hokl & Hokr & _)%keys_ok_mid. cbn [ht] in Hfuel.
  cbn [place aDeleteMax]. apply does_bind. eapply does_deref; [exact Et|]. cbn [left right]. destruct rt as [|r rl kr dr rr].
  - apply does_ret. exists t, (k, d), (elems lt). split_and!; try done; [exact (has_node _ _ _ _ _ _ Ht)|]. exists lt. unfold lower. cbn [ht] in *. pose proof (ht_nonneg lt).
    split_and!; try done; lia.
  - cbn [place]. apply does_bind. eapply does_height; [apply (has_height h (Node r rl kr dr rr)), Hrt|]. apply does_bind. eapply does_mono.
    { apply (IH h (Node r rl kr dr rr)); try done; lia. }
    intros [dd p1] h1 (q & p & xs & Hel & -> & Hq & rt' & -> & Hg & Hh & Hbr' & Hel' & Hlow). subst xs.
    assert (Eel : elems (Node t lt k d (Node r rl kr dr rr)) = (elems lt ++ (k, d) :: elems rt') ++ [p]).
    { change (elems (Node t lt k d (Node r rl kr dr rr))) with (elems lt ++ (k, d) :: elems (Node r rl kr dr rr)). rewrite Hel. by rewrite <- app_assoc. }
    assert (Hok' : keys_ok (elems lt ++ (k, d) :: elems rt')) by (rewrite Eel in Hok; apply keys_ok_app in Hok; by rewrite app_nil_r in Hok).
    eapply does_mono; [eapply (shrink_right_does h h1 t lt k d (Node r rl kr dr rr) rt'); try done|].
    { rewrite Hel, lenZ_app, lenZ_cons. pose proof (lenZ_nonneg (@nil (Z * option D))). lia. }
    intros [d' r'] h' [-> Hr]. by exists q, p, (elems lt ++ (k, d) :: elems rt').
Qed.
(** ** An inner node

    Its contents are replaced by those of the node [q], from the subtree [lt']
    of which it was deleted. *)
Lemma grows_node h h' q p : grows h h' -> node_is h q p -> exists n, nodes h' !! q = Some n /\ key n = fst p /\ data n = snd p.
Proof. intros Hg (Hq & n & En & Hk & Hd). exists n. split; [by eapply grows_lookup|done]. Qed.

Lemma replace_left_does h h1 (t : loc) lt k d rt (lt' : tree D) q p :
  has h (Node t lt k d rt) -> balanced (Node t lt k d rt) -> grows h h1 -> has h1 lt' -> balanced lt' -> lower (ht lt') (ht lt) ->
  node_is h q p -> keys_ok (elems lt' ++ p :: elems rt) ->
  does (let r := Some t in
        let* c := copy (Some t) in
        let* dn := deref (Some q) in
        update c (set_data (data dn));;;
        update c (set_key (key dn));;;
        let* s := aRebalanceAfterLeftDeletion c (ht lt) (place lt') in
        ret (r, s))
    (fun '(d', r) h' => d' = Some t /\ rebuilt h h' r (elems lt' ++ p :: elems rt) (ht (Node t lt k d rt))) h1.
Proof.
  intros (Et & Htn & Hlt & Hrt)%has_N (Hb & _ & Hbr) Hg Hlt' Hbl' Hlow Hq Hok. pose proof (grows_lookup _ _ _ _ Hg Htn Et) as Et1.
  pose proof (has_grows _ _ _ Hrt Hg) as Hrt1. destruct p as [kd dd]. destruct (grows_node _ _ _ _ Hg Hq) as (n & En & Hkn & Hdn).
  destruct Hq as [Hq _]. assert (Hqn : q <> next h1) by (destruct Hg as [? _]; lia). cbn [fst snd] in *.
  cbv zeta. apply does_bind. eapply does_copy; [exact Et1|]. apply does_bind. eapply does_deref; [look; exact En|].
  apply does_bind. eapply does_update; [look|]. apply does_bind. eapply does_update; [look|]. apply does_bind. eapply does_mono.
  { eapply (rebalance_left_does h _ (next h1) lt' rt (place lt) kd dd (ht lt)); try done;
      try (by apply has_write; [apply has_write; [by apply has_alloc|]|]; eapply has_fresh); try (by eapply has_fresh).
    - apply grows_write; [apply grows_write; [by apply grows_alloc|]|]; destruct Hg as [? _]; lia.
    - destruct Hg as [? _]. cbn. lia.
    - look. by rewrite Hkn, Hdn. }
  intros r h' Hr. by apply does_ret.
Qed.

Lemma replace_right_does h h1 (t : loc) lt k d rt (rt' : tree D) q p :
  has h (Node t lt k d rt) -> balanced (Node t lt k d rt) -> grows h h1 -> has h1 rt' -> balanced rt' -> lower (ht rt') (ht rt) ->
  node_is h q p -> keys_ok (elems lt ++ p :: elems rt') ->
  does (let r := Some t in
        let* c := copy (Some t) in
        let* dn := deref (Some q) in
        update c (set_data (data dn));;;
        update c (set_key (key dn));;;
        let* s := aRebalanceAfterRightDeletion c (ht rt) (place rt') in
        ret (r, s))
    (fun '(d', r) h' => d' = Some t /\ rebuilt h h' r (elems lt ++ p :: elems rt') (ht (Node t lt k d rt))) h1.
Proof.
  intros (Et & Htn & Hlt & Hrt)%has_N (Hb & Hbl & _) Hg Hrt' Hbr' Hlow Hq Hok. pose proof (grows_lookup _ _ _ _ Hg Htn Et) as Et1.
  pose proof (has_grows _ _ _ Hlt Hg) as Hlt1. destruct p as [kd dd]. destruct (grows_node _ _ _ _ Hg Hq) as (n & En & Hkn & Hdn).
  destruct Hq as [Hq _]. assert (Hqn : q <> next h1) by (destruct Hg as [? _]; lia). cbn [fst snd] in *.
  cbv zeta. apply does_bind. eapply does_copy; [exact Et1|]. apply does_bind. eapply does_deref; [look; exact En|].
  apply does_bind. eapply does_update; [look|]. apply does_bind. eapply does_update; [look|]. apply does_bind. eapply does_mono.
  { eapply (rebalance_right_does h _ (next h1) lt rt' (place rt) kd dd (ht rt)); try done;
      try (by apply has_write; [apply has_write; [by apply has_alloc|]|]; eapply has_fresh); try (by eapply has_fresh).
    - apply grows_write; [apply grows_write; [by apply grows_alloc|]|]; destruct Hg as [? _]; lia.
    - destruct Hg as [? _]. cbn. lia.
    - look. by rewrite Hkn, Hdn. }
  intros r h' Hr. by apply does_ret.
Qed.

(** ** The whole deletion *)

Definition deleted h (t : tree D) (x : Z) (res : ptr * ptr) h' : Prop :=
  match lfind x (elems t) with
  | None => res = (None, place t) /\ h' = h
  | Some d => exists q, fst res = Some q /\ node_is h q (x, d) /\ rebuilt h h' (snd res) (lremove x (elems t)) (ht t)
  end.

Lemma keys_ok_remove x (xs : list (Z * option D)) : keys_ok xs -> keys_ok (lremove x xs).
Proof. intros [Hs Hk]. split; [by apply lremove_sorted|by apply lremove_bound]. Qed.

Lemma aDelete_does fuel : forall h (t : tree D) x, has h t -> balanced t -> keys_ok (elems t) -> ht t <= Z.of_nat fuel ->
  does (aDelete fuel (place t) x) (fun res h' => deleted h t x res h') h.
Proof.
  induction fuel as [|fuel IH]; intros h [|t lt k d rt] x Ht Hbal Hok Hfuel; try (by apply does_ret).
  { pose proof (ht_pos t lt k d rt). lia. }
  pose proof Ht as (Et & Htn & Hlt & Hrt)%has_N. pose proof Hok as (Hokl & Hokr & Hbe & Hab & Hk)%keys_ok_mid. pose proof Hbal as (Hb1 & Hbl & Hbr).
  cbn [ht] in Hfuel. pose proof (ht_nonneg lt). pose proof (ht_nonneg rt).
  unfold deleted. cbn [elems] in Hok |- *. rewrite lfind_mid, lremove_mid by done. cbn [place aDelete].
  apply does_bind. eapply does_deref; [exact Et|]. cbn [key left right]. destruct (x <? k) eqn:E1; [|destruct (k <? x) eqn:E2].
  - apply does_bind. eapply does_height; [by apply has_height|]. apply does_bind. eapply does_mono; [apply (IH h lt x); try done; lia|].
    intros [dd r] h1 Hdel. unfold deleted in Hdel. destruct (lfind x (elems lt)) as [d0|] eqn:El; cbn [fst snd] in *.
    + destruct Hdel as (q & -> & Hq & lt' & -> & Hg & Hh & Hbl' & Hel & Hlow). rewrite <- Hel. eapply does_mono.
      { eapply (shrink_left_does h h1 t lt k d rt lt'); try done.
        - rewrite Hel, lremove_length, El by apply Hokl. lia.
        - rewrite Hel. apply keys_ok_mid. split_and!; try done; [by apply keys_ok_remove|by apply lremove_bound]. }
      intros [d' r'] h' [-> Hr]. by exists q.
    + destruct Hdel as [[= -> ->] ->]. apply does_bind. eapply does_field; [exact Et|]. cbn [left]. unfold same.
      rewrite bool_decide_eq_true_2 by done. by apply does_ret.
  - apply does_bind. eapply does_height; [by apply has_height|]. apply does_bind. eapply does_mono; [apply (IH h rt x); try done; lia|].
    intros [dd r] h1 Hdel. unfold deleted in Hdel. destruct (lfind x (elems rt)) as [d0|] eqn:El; cbn [fst snd] in *.
    + destruct Hdel as (q & -> & Hq & rt' & -> & Hg & Hh & Hbr' & Hel & Hlow). rewrite <- Hel. eapply does_mono.
      { eapply (shrink_right_does h h1 t lt k d rt rt'); try done.
        - rewrite Hel, lremove_length, El by apply Hokr. lia.
        - rewrite Hel. apply keys_ok_mid. split_and!; try done; [by apply keys_ok_remove|by apply lremove_bound]. }
      intros [d' r'] h' [-> Hr]. by exists q.
    + destruct Hdel as [[= -> ->] ->]. apply does_bind. eapply does_field; [exact Et|]. cbn [right]. unfold same.
      rewrite bool_decide_eq_true_2 by done. by apply does_ret.
  - assert (x = k) as -> by lia. apply does_bind. eapply does_height; [exact (has_height h (Node t lt k d rt) Ht)|].
    pose proof (has_node _ _ _ _ _ _ Ht) as Hn. cbn [ht]. unfold LEAF_HEIGHT. destruct (1 + Z.max (ht lt) (ht rt) =? 1) eqn:E3.
    { apply does_ret. exists t. split_and!; try done. exists Leaf. rewrite (ht_0 lt), (ht_0 rt) by lia. unfold lower. by split_and!. }
    apply does_bind. eapply does_height; [by apply has_height|]. apply does_bind. eapply does_height; [by apply has_height|].
    destruct (ht rt <? ht lt) eqn:E4.
    + apply does_bind. eapply does_height; [by apply has_height|]. apply does_bind. eapply does_mono.
      { apply (aDeleteMax_does fuel h lt); try done; [intros ->; cbn [ht] in *; lia|lia]. }
      intros [dd p1] h1 (q & p & xs & Hel & -> & Hq & lt' & -> & Hg & Hh & Hbl' & <- & Hlow). rewrite Hel in Hok |- *. rewrite <- app_assoc in Hok |- *.
      cbn [app] in Hok |- *. eapply does_mono; [eapply (replace_left_does h h1 t lt k d rt lt' q p); try done|].
      { replace (elems lt' ++ p :: elems rt) with ((elems lt' ++ [p]) ++ elems rt) by (by rewrite <- app_assoc). apply (keys_ok_app _ _ (k, d)). by rewrite <- app_assoc. }
      intros [d' r'] h' [-> Hr]. by exists t.
    + apply does_bind. eapply does_height; [by apply has_height|]. apply does_bind. eapply does_mono.
      { apply (aDeleteMin_does fuel h rt); try done; [intros ->; cbn [ht] in *; lia|lia]. }
      intros [dd p1] h1 (q & p & xs & Hel & -> & Hq & rt' & -> & Hg & Hh & Hbr' & <- & Hlow). rewrite Hel in Hok |- *.
      eapply does_mono; [eapply (replace_right_does h h1 t lt k d rt rt' q p); try done|].
      { by apply keys_ok_app in Hok. }
      intros [d' r'] h' [-> Hr]. by exists t.
Qed.
End Delete.
