(* ===== verification/AbtFacts.v ===== *)
(** * Maps of the store: insertion, deletion and search *)

From S2P Require Import Prelude SortedMaps.
From stdpp Require Import gmap.
From S2P Require Import Abt AbtTrees AbtNodes AbtInsert AbtDelete.

#[local] Open Scope Z_scope.
#[local] Open Scope go_scope.

Section Maps.
Context {D : Type} `{EqDecision D}.
Implicit Types (h : heap D) (d : option D) (xs : list (Z * option D)).

(** ** The contents of a map *)

(** The map at [t] holds the pairs [xs], in the order of the keys. *)
Definition holds h (t : loc) xs : Prop :=
  exists tr, trees h !! t = Some (mkT (place tr) (lenZ xs)) /\ (t < next h)%positive /\ has h tr /\ balanced tr /\ elems tr = xs /\ keys_ok xs.

(** From [h] to [h'] no node was changed, and no map but [t]. *)
Definition only h h' (t : loc) : Prop :=
  (next h <= next h')%positive /\ (forall l, (l < next h)%positive -> nodes h' !! l = nodes h !! l) /\
  forall u, u <> t -> (u < next h)%positive -> trees h' !! u = trees h !! u.

Lemma only_refl h t : only h h t.
Proof. by split_and!. Qed.

Lemma only_trans h1 h2 h3 t : only h1 h2 t -> only h2 h3 t -> only h1 h3 t.
Proof.
  intros (H1 & H2 & H3) (H4 & H5 & H6). split_and!; [lia| |].
  - intros l Hl. rewrite H5 by lia. by apply H2.
  - intros u Hu Hl. rewrite H6 by (done || lia). by apply H3.
Qed.

Lemma grows_only h h' t : grows h h' -> only h h' t.
Proof. intros (H1 & H2 & H3). split_and!; [done|done|]. intros u _ _. by rewrite H2. Qed.

Lemma has_only h h' t (tr : tree D) : has h tr -> only h h' t -> has h' tr.
Proof.
  intros Hh (Hn & Hm & _). eapply has_frame; [exact Hh|exact Hn|]. intros l Hl. apply Hm. destruct Hh as [_ Hp].
  rewrite Forall_forall in Hp. by apply Hp.
Qed.

Lemma holds_only h h' t u xs : holds h u xs -> only h h' t -> u <> t -> holds h' u xs.
Proof.
  intros (tr & Et & Hn & Hh & Hb & Hel & Hok) Ho Hu. exists tr. destruct Ho as (H1 & H2 & H3). split_and!; try done.
  - by rewrite H3.
  - lia.
  - by eapply has_only.
Qed.

Lemma does_derefT h t x Q : trees h !! t = Some x -> Q x h -> does (derefT t) Q h.
Proof. intros E HQ. unfold derefT. apply does_bind, (does_mono _ (fun m h' => m = trees h /\ h' = h)); [done|]. intros m h' [-> ->]. by rewrite E. Qed.

Lemma does_storeT h t x Q : Q tt (Heap (nodes h) (<[t := x]> (trees h)) (next h)) -> does (storeT t x) Q h.
Proof. done. Qed.

(** A map gets a new tree. *)
Lemma holds_store h h' t (tr : tree D) xs : (t < next h')%positive -> has h' tr -> balanced tr -> elems tr = xs -> keys_ok xs ->
  holds (Heap (nodes h') (<[t := mkT (place tr) (lenZ xs)]> (trees h')) (next h')) t xs.
Proof. intros Ht Hh Hb Hel Hok. exists tr. split_and!; try done. cbn [trees]. by rewrite lookup_insert_eq. Qed.

Lemma only_store h h' t x : grows h h' -> only h (Heap (nodes h') (<[t := x]> (trees h')) (next h')) t.
Proof.
  intros (H1 & H2 & H3). split_and!; [done|done|]. intros u Hu _. cbn [trees]. rewrite lookup_insert_ne by done. by rewrite H2.
Qed.

(** ** The value of a node *)

Fixpoint put_data (p : loc) d (t : tree D) : tree D :=
  match t with
  | Leaf => Leaf
  | Node l lt k d' rt => Node l (put_data p d lt) k (if bool_decide (l = p) then d else d') (put_data p d rt)
  end.

Lemma put_place p d t : place (put_data p d t) = place t.
Proof. by destruct t. Qed.

Lemma put_ht p d t : ht (put_data p d t) = ht t.
Proof. induction t as [|l lt IHl k d' rt IHr]; [done|]. cbn [put_data ht]. by rewrite IHl, IHr. Qed.

Lemma put_balanced p d t : balanced t -> balanced (put_data p d t).
Proof. induction t as [|l lt IHl k d' rt IHr]; [done|]. cbn [put_data balanced]. rewrite !put_ht. intros (H1 & H2 & H3). split_and!; [lia..|by apply IHl|by apply IHr]. Qed.

Lemma put_has h p d n (t : tree D) : has h t -> nodes h !! p = Some n -> has (write h p (set_data d n)) (put_data p d t).
Proof.
  intros Ht Hp. induction t as [|l lt IHl k d' rt IHr]; [done|]. apply has_N in Ht as (El & Hl & Hlt & Hrt). cbn [put_data].
  apply has_N. split_and!; [|done|by apply IHl|by apply IHr]. cbn [nodes write ht]. rewrite !put_place, !put_ht. case_bool_decide as E.
  - subst p. rewrite lookup_insert_eq, Hp in *. by injection El as ->.
  - by rewrite lookup_insert_ne.
Qed.

Lemma member_stored m p x (t : tree D) : stored m t -> member p x t -> exists n, m !! p = Some n /\ key n = x.
Proof.
  induction t as [|l lt IHl k d rt IHr]; [done|]. intros (E & Hlt & Hrt) [[-> ->]|[Hm|Hm]]; [by eexists|by apply IHl|by apply IHr].
Qed.

Lemma put_id p d (t : tree D) : p ∉ places t -> put_data p d t = t.
Proof.
  induction t as [|l lt IHl k d' rt IHr]; [done|]. cbn [places put_data]. rewrite not_elem_of_app, not_elem_of_cons. intros (H1 & H2 & H3).
  by rewrite IHl, IHr, bool_decide_eq_false_2 by congruence.
Qed.

Lemma member_places p x (t : tree D) : member p x t -> p ∈ places t.
Proof.
  induction t as [|l lt IHl k d rt IHr]; [done|]. cbn [member places]. rewrite elem_of_app, elem_of_cons. intros [[-> _]|[Hm|Hm]]; [tauto| |].
  - left. by apply IHl.
  - right. right. by apply IHr.
Qed.

Lemma member_key p x (t : tree D) : member p x t -> In x (keys_of (elems t)).
Proof.
  induction t as [|l lt IHl k d rt IHr]; [done|]. cbn [member elems]. unfold keys_of in *. rewrite map_app, in_app_iff. cbn [map fst In].
  intros [[_ ->]|[Hm|Hm]]; [tauto|left; by apply IHl|right; right; by apply IHr].
Qed.

Lemma below_In k xs x : below k xs -> In x (keys_of xs) -> x < k.
Proof. unfold below, keys_of. rewrite List.Forall_forall, in_map_iff. intros Hb (p & <- & Hp). by apply Hb. Qed.

Lemma above_In k xs x : above k xs -> In x (keys_of xs) -> k < x.
Proof. unfold above, keys_of. rewrite List.Forall_forall, in_map_iff. intros Hb (p & <- & Hp). by apply Hb. Qed.

Lemma put_elems p x d (t : tree D) : NoDup (places t) -> keys_ok (elems t) -> member p x t -> elems (put_data p d t) = linsert x d (elems t).
Proof.
  induction t as [|l lt IHl k d' rt IHr]; [done|]. cbn [places]. rewrite NoDup_app, NoDup_cons. intros (Hn1 & Hn2 & Hn3 & Hn4) Hok Hm.
  pose proof Hok as (Hokl & Hokr & Hb & Ha & _)%keys_ok_mid. cbn [put_data elems].
  assert (Hdis : forall q, q ∈ places lt -> q ∉ l :: places rt) by exact Hn2.
  destruct Hm as [[-> ->]|[Hm|Hm]].
  - rewrite bool_decide_eq_true_2, linsert_mid by done. rewrite !put_id; [done|done|]. intros Hin. apply (Hdis l Hin). by left.
  - pose proof (member_places _ _ _ Hm) as Hp. pose proof (Hdis p Hp) as Hn. rewrite not_elem_of_cons in Hn.
    rewrite bool_decide_eq_false_2, IHl, (put_id p d rt) by (tauto || (intros ->; tauto)). symmetry. apply linsert_app_l. by apply (below_In k (elems lt)); [|apply (member_key p)].
  - pose proof (member_places _ _ _ Hm) as Hp. assert (Hl : l <> p) by (intros ->; done). assert (Hlt : p ∉ places lt) by (intros Hin; apply (Hdis p Hin); by right).
    rewrite bool_decide_eq_false_2, IHr, (put_id p d lt) by done. assert (Hkx : k < x) by (by apply (above_In k (elems rt)); [|apply (member_key p)]).
    symmetry. by apply (linsert_right l lt k d' rt x d Hok).
Qed.
(** ** Insertion and deletion *)

Definition value x xs : option D := match lfind x xs with Some d => d | None => None end.

Lemma tree_depth (tr : tree D) : balanced tr -> keys_ok (elems tr) -> ht tr <= Z.of_nat max_depth.
Proof. intros Hb Hok. pose proof (height_small tr Hb Hok). unfold max_depth. lia. Qed.

Lemma Insert_at h t xs x d : holds h t xs -> is_key x ->
  does (Insert t x d) (fun r h' => r = value x xs /\ holds h' t (linsert x d xs) /\ only h h' t) h.
Proof.
  intros (tr & Et & Htn & Hh & Hb & <- & Hok) Hx. unfold Insert, NOT_KEY32. destruct (x =? - 0x80000000) eqn:E; [unfold is_key in Hx; lia|].
  apply does_bind. eapply does_derefT; [exact Et|]. cbn [root size]. apply does_bind.
  eapply (does_mono _ (fun res h1 => match tr with Leaf => exists p, res = (Some p, Some p, None) /\ grows h h1 /\ (next h <= p)%positive /\
    has h1 (Node p Leaf x None Leaf) | _ => inserted h tr x res h1 end)).
  { destruct tr as [|l lt k d0 rt]; cbn [place].
    - apply does_bind, does_new, does_ret. exists (next h). split_and!; [done|by apply grows_alloc|lia|].
      apply has_N. split_and!; [look|cbn; lia|apply has_E|apply has_E].
    - apply (aInsert_does max_depth h (Node l lt k d0 rt)); try done. by apply tree_depth. }
  intros [[r n] o] h1 Hres.
  assert (Hnew : exists t' d0 p, r = place t' /\ grows h h1 /\ has h1 t' /\ balanced t' /\ n = Some p /\ (next h <= p)%positive /\ member p x t' /\
    elems t' = linsert x d0 (elems tr) /\
    match lfind x (elems tr) with None => o = None | Some d1 => exists q nd, o = Some q /\ nodes h1 !! q = Some nd /\ data nd = d1 end).
  { destruct tr as [|l lt k d1 rt].
    - destruct Hres as (p & [= -> -> ->] & Hg & Hp & Hh1). exists (Node p Leaf x None Leaf), None, p. split_and!; try done. by left.
    - destruct Hres as (t' & d0 & p & (-> & Hg & Hh1 & Hb1 & _) & -> & Hp & Hm & Hel & _ & Hold). exists t', d0, p. split_and!; try done.
      destruct (lfind x _) as [d2|]; [|by destruct Hold]. destruct Hold as (_ & q & nd & -> & Hq & Eq & <-). exists q, nd. split_and!; [done| |done].
      by eapply grows_lookup. }
  clear Hres. destruct Hnew as (t' & d0 & p & -> & Hg & Hh1 & Hb1 & -> & Hp & Hm & Hel & Hold).
  destruct (member_stored _ _ _ _ (proj1 Hh1) Hm) as (np & Enp & _). apply does_bind.
  eapply (does_mono _ (fun '(r, sz) h2 => h2 = h1 /\ r = value x (elems tr) /\ sz = lenZ (linsert x d (elems tr)))).
  { unfold value. rewrite (linsert_length x d) by apply Hok. destruct (lfind x (elems tr)) as [d1|].
    - destruct Hold as (q & nd & -> & Eq & <-). apply does_bind. eapply does_field; [exact Eq|]. apply does_ret. split_and!; [done|done|lia].
    - subst o. by apply does_ret. }
  intros [r sz] h2 (-> & -> & ->). apply does_bind. eapply does_update; [exact Enp|]. apply does_bind, does_storeT, does_ret.
  assert (Hg' : grows h (write h1 p (set_data d np))) by by apply grows_write.
  split; [done|]. split; [|exact (only_store h _ t _ Hg')]. rewrite <- (put_place p d t').
  assert (Hs : keys_ok (elems t')) by (rewrite Hel; by apply keys_ok_insert).
  apply (holds_store h (write h1 p (set_data d np)) t (put_data p d t')); [destruct Hg as [? _]; cbn; lia|by apply put_has|by apply put_balanced| |by apply keys_ok_insert].
  rewrite (put_elems p x) by (done || (eapply stored_NoDup; [apply Hh1|apply Hs])). rewrite Hel. apply linsert_linsert.
Qed.
(** What a deletion stores. *)
Lemma store_rebuilt h h1 t r xs ys z (A : Type) (Q : A -> heap D -> Prop) (k : M D A) : holds h t xs -> rebuilt h h1 r ys z -> keys_ok ys ->
  (forall h', h' = Heap (nodes h1) (<[t := mkT r (lenZ ys)]> (trees h1)) (next h1) -> holds h' t ys -> only h h' t -> does k Q h') ->
  does (storeT t (mkT r (lenZ ys));;; k) Q h1.
Proof.
  intros (tr & _ & Htn & _) (t' & -> & Hg & Hh & Hb & Hel & _) Hok HQ. apply does_bind, does_storeT. eapply HQ; [done| |].
  - apply (holds_store h h1 t t'); try done. destruct Hg as [? _]. lia.
  - by apply only_store.
Qed.

Lemma Delete_at h t xs x : holds h t xs ->
  does (Delete t x) (fun r h' => r = value x xs /\ holds h' t (lremove x xs) /\ only h h' t) h.
Proof.
  intros Hh. pose proof Hh as (tr & Et & Htn & Htr & Hb & <- & Hok). unfold Delete. apply does_bind. eapply does_derefT; [exact Et|]. cbn [root size].
  destruct tr as [|l lt k d rt]; cbn [place]; [by apply does_ret; split_and!|].
  apply does_bind. eapply does_mono; [apply (aDelete_does max_depth h (Node l lt k d rt) x); try done; by apply tree_depth|].
  intros [dd s] h1 Hdel. unfold deleted, value in *. destruct (lfind x _) as [d0|] eqn:El; cbn [fst snd] in *.
  - destruct Hdel as (q & -> & Hq & Hr). rewrite <- (lremove_length_found x _ d0) by (apply Hok || done).
    eapply store_rebuilt; [exact Hh|exact Hr|by apply keys_ok_remove|]. intros h' Eh' Hh' Ho.
    destruct Hr as (_ & _ & Hg & _). destruct (grows_node _ _ _ _ Hg Hq) as (n & En & Hkn & Hdn).
    eapply does_field; [rewrite Eh'; exact En|]. by split_and!.
  - destruct Hdel as [[= -> ->] ->]. apply does_ret. rewrite lremove_id by done. by split_and!.
Qed.

Definition first xs : Z * option D := match xs with [] => (NOT_KEY32, None) | p :: _ => p end.
Definition final xs : Z * option D := match last xs with Some p => p | None => (NOT_KEY32, None) end.

Lemma keys_ok_tail p xs : keys_ok (p :: xs) -> keys_ok xs.
Proof. apply (keys_ok_app []). Qed.

Lemma keys_ok_init p xs : keys_ok (xs ++ [p]) -> keys_ok xs.
Proof. intros Hk%keys_ok_app. by rewrite app_nil_r in Hk. Qed.

Lemma DeleteMin_at h t xs : holds h t xs ->
  does (DeleteMin t) (fun r h' => r = first xs /\ holds h' t (tail xs) /\ only h h' t) h.
Proof.
  intros Hh. pose proof Hh as (tr & Et & Htn & Htr & Hb & <- & Hok). unfold DeleteMin. apply does_bind. eapply does_derefT; [exact Et|]. cbn [root size].
  destruct tr as [|l lt k d rt]; cbn [place]; [by apply does_ret; split_and!|].
  apply does_bind. eapply does_mono; [apply (aDeleteMin_does max_depth h (Node l lt k d rt)); try done; by apply tree_depth|].
  intros [dd s] h1 (q & p & xs & Hel & -> & Hq & Hr). rewrite Hel in *. cbn [tail first]. rewrite lenZ_cons. replace (1 + lenZ xs - 1) with (lenZ xs) by lia.
  eapply store_rebuilt; [exact Hh|exact Hr|by eapply keys_ok_tail|]. intros h' Eh' Hh' Ho.
  destruct Hr as (_ & _ & Hg & _). destruct (grows_node _ _ _ _ Hg Hq) as (n & En & Hkn & Hdn).
  eapply does_field; [rewrite Eh'; exact En|]. rewrite Hkn, Hdn. split; [by destruct p|]. by split.
Qed.

Lemma DeleteMax_at h t xs : holds h t xs ->
  does (DeleteMax t) (fun r h' => r = final xs /\ holds h' t (removelast xs) /\ only h h' t) h.
Proof.
  intros Hh. pose proof Hh as (tr & Et & Htn & Htr & Hb & <- & Hok). unfold DeleteMax. apply does_bind. eapply does_derefT; [exact Et|]. cbn [root size].
  destruct tr as [|l lt k d rt]; cbn [place]; [by apply does_ret; split_and!|].
  apply does_bind. eapply does_mono; [apply (aDeleteMax_does max_depth h (Node l lt k d rt)); try done; by apply tree_depth|].
  intros [dd s] h1 (q & p & xs & Hel & -> & Hq & Hr). rewrite Hel in *. unfold final. rewrite last_snoc, removelast_last, lenZ_app.
  replace (lenZ xs + lenZ [p] - 1) with (lenZ xs) by (rewrite lenZ_cons; unfold lenZ; cbn; lia).
  eapply store_rebuilt; [exact Hh|exact Hr|by eapply keys_ok_init|]. intros h' Eh' Hh' Ho.
  destruct Hr as (_ & _ & Hg & _). destruct (grows_node _ _ _ _ Hg Hq) as (n & En & Hkn & Hdn).
  eapply does_field; [rewrite Eh'; exact En|]. rewrite Hkn, Hdn. split; [by destruct p|]. by split.
Qed.

(** ** Search *)

(** A node, or nil. *)
Definition found h (r : ptr) (o : option (Z * option D)) : Prop :=
  match o with
  | None => r = None
  | Some p => exists q, r = Some q /\ node_is h q p
  end.

Lemma find_does fuel : forall h (t : tree D) x, has h t -> keys_ok (elems t) -> ht t <= Z.of_nat fuel ->
  does (find_ fuel (place t) x) (fun r h' => h' = h /\ found h r (option_map (pair x) (lfind x (elems t)))) h.
Proof.
  induction fuel as [|fuel IH]; intros h [|t lt k d rt] x Ht Hok Hfuel; try (by apply does_ret).
  { pose proof (ht_pos t lt k d rt). lia. }
  pose proof Ht as (Et & Htn & Hlt & Hrt)%has_N. pose proof Hok as (Hokl & Hokr & Hb & Ha & Hk)%keys_ok_mid. cbn [ht] in Hfuel.
  cbn [elems]. rewrite lfind_mid by done. cbn [place find_]. apply does_bind. eapply does_deref; [exact Et|]. cbn [key left right].
  destruct (x <? k) eqn:E1; [|destruct (k <? x) eqn:E2].
  - apply IH; try done. lia.
  - apply IH; try done. lia.
  - assert (x = k) as -> by lia. apply does_ret. split; [done|]. exists t. split; [done|]. exact (has_node _ _ _ _ _ _ Ht).
Qed.

Lemma min_does fuel : forall h (t : tree D), has h t -> t <> Leaf -> ht t <= Z.of_nat fuel ->
  does (min_ fuel (place t)) (fun r h' => h' = h /\ found h r (head (elems t))) h.
Proof.
  induction fuel as [|fuel IH]; intros h [|t lt k d rt] Ht Hne Hfuel; try done.
  { pose proof (ht_pos t lt k d rt). lia. }
  pose proof Ht as (Et & Htn & Hlt & Hrt)%has_N. cbn [ht] in Hfuel. cbn [place min_]. apply does_bind. eapply does_field; [exact Et|]. cbn [left].
  destruct lt as [|l ll kl dl lr].
  - apply does_ret. split; [done|]. exists t. split; [done|]. exact (has_node _ _ _ _ _ _ Ht).
  - eapply does_mono; [apply (IH h (Node l ll kl dl lr)); try done; lia|]. intros r h' [-> Hf]. split; [done|].
    cbn [elems] in *. by destruct (elems ll).
Qed.

Lemma max_does fuel : forall h (t : tree D), has h t -> t <> Leaf -> ht t <= Z.of_nat fuel ->
  does (max_ fuel (place t)) (fun r h' => h' = h /\ found h r (last (elems t))) h.
Proof.
  induction fuel as [|fuel IH]; intros h [|t lt k d rt] Ht Hne Hfuel; try done.
  { pose proof (ht_pos t lt k d rt). lia. }
  pose proof Ht as (Et & Htn & Hlt & Hrt)%has_N. cbn [ht] in Hfuel. cbn [place max_]. apply does_bind. eapply does_field; [exact Et|]. cbn [right].
  destruct rt as [|r rl kr dr rr].
  - apply does_ret. split; [done|]. cbn [elems]. rewrite last_snoc. exists t. split; [done|]. exact (has_node _ _ _ _ _ _ Ht).
  - eapply does_mono; [apply (IH h (Node r rl kr dr rr)); try done; lia|]. intros p h' [-> Hf]. split; [done|].
    cbn [elems] in *. rewrite last_app, last_cons. destruct (last (elems rl ++ (kr, dr) :: elems rr)) eqn:E; [done|].
    apply last_None in E. by destruct (elems rl).
Qed.
(** The last key below [x], and the first one above; [eq] allows [x] itself. *)
Definition under (eq : bool) (x : Z) (p : Z * option D) : bool := (fst p <? x) || (eq && (x =? fst p)).
Definition over (eq : bool) (x : Z) (p : Z * option D) : bool := (x <? fst p) || (eq && (x =? fst p)).

Lemma filter_none (f : Z * option D -> bool) xs : Forall (fun p => f p = false) xs -> List.filter f xs = [].
Proof. induction 1 as [|p xs Hp Hxs IH]; cbn [List.filter]; [done|]. by rewrite Hp. Qed.

Definition or_else {A} (o best : option A) : option A := match o with Some _ => o | None => best end.

Lemma glb_does fuel : forall h (t : tree D) x eq r o, has h t -> keys_ok (elems t) -> ht t <= Z.of_nat fuel -> found h r o ->
  does (glb_ fuel (place t) r x eq) (fun r' h' => h' = h /\ found h r' (or_else (last (List.filter (under eq x) (elems t))) o)) h.
Proof.
  induction fuel as [|fuel IH]; intros h [|t lt k d rt] x eq r o Ht Hok Hfuel Hr; try (by apply does_ret).
  { pose proof (ht_pos t lt k d rt). lia. }
  pose proof Ht as (Et & Htn & Hlt & Hrt)%has_N. pose proof Hok as (Hokl & Hokr & Hb & Ha & Hk)%keys_ok_mid. cbn [ht] in Hfuel.
  assert (Hno : x <= k -> List.filter (under eq x) (elems rt) = []).
  { intros Hx. apply filter_none. eapply List.Forall_impl; [|exact Ha]. unfold under. intros p Hp. cbn beta in *. destruct eq; cbn [andb]; lia. }
  cbn [elems]. rewrite List.filter_app. cbn [List.filter place glb_]. apply does_bind. eapply does_deref; [exact Et|]. cbn [key left right].
  unfold under at 2. cbn [fst]. destruct (x <=? k) eqn:E1.
  - rewrite Hno by lia. replace (k <? x) with false by lia. cbn [orb]. destruct (eq && (x =? k)) eqn:E2.
    + rewrite last_snoc. apply does_ret. split; [done|]. exists t. split; [done|]. exact (has_node _ _ _ _ _ _ Ht).
    + rewrite app_nil_r. apply IH; try done. lia.
  - replace (k <? x) with true by lia. cbn [orb]. eapply does_mono; [eapply (IH h rt x eq _ (Some (k, d))); try done; [lia|exists t; split; [done|exact (has_node _ _ _ _ _ _ Ht)]]|].
    intros r' h' [-> Hf]. split; [done|]. rewrite last_app, last_cons. by destruct (last (List.filter _ (elems rt))).
Qed.

Lemma lub_does fuel : forall h (t : tree D) x eq r o, has h t -> keys_ok (elems t) -> ht t <= Z.of_nat fuel -> found h r o ->
  does (lub_ fuel (place t) r x eq) (fun r' h' => h' = h /\ found h r' (or_else (head (List.filter (over eq x) (elems t))) o)) h.
Proof.
  induction fuel as [|fuel IH]; intros h [|t lt k d rt] x eq r o Ht Hok Hfuel Hr; try (by apply does_ret).
  { pose proof (ht_pos t lt k d rt). lia. }
  pose proof Ht as (Et & Htn & Hlt & Hrt)%has_N. pose proof Hok as (Hokl & Hokr & Hb & Ha & Hk)%keys_ok_mid. cbn [ht] in Hfuel.
  assert (Hno : k <= x -> List.filter (over eq x) (elems lt) = []).
  { intros Hx. apply filter_none. eapply List.Forall_impl; [|exact Hb]. unfold over. intros p Hp. cbn beta in *. destruct eq; cbn [andb]; lia. }
  cbn [elems]. rewrite List.filter_app. cbn [List.filter place lub_]. apply does_bind. eapply does_deref; [exact Et|]. cbn [key left right].
  unfold over at 2. cbn [fst]. destruct (k <=? x) eqn:E1.
  - rewrite Hno by lia. replace (x <? k) with false by lia. cbn [orb app]. destruct (eq && (x =? k)) eqn:E2.
    + apply does_ret. split; [done|]. exists t. split; [done|]. exact (has_node _ _ _ _ _ _ Ht).
    + apply IH; try done. lia.
  - replace (x <? k) with true by lia. cbn [orb]. eapply does_mono; [eapply (IH h lt x eq _ (Some (k, d))); try done; [lia|exists t; split; [done|exact (has_node _ _ _ _ _ _ Ht)]]|].
    intros r' h' [-> Hf]. split; [done|]. by destruct (List.filter _ (elems lt)).
Qed.

Definition pair_of (o : option (Z * option D)) : Z * option D := match o with Some p => p | None => (NOT_KEY32, None) end.

Lemma does_nilOrKeyAndData h r o : found h r o -> does (nilOrKeyAndData r) (fun p h' => h' = h /\ p = pair_of o) h.
Proof.
  destruct o as [[k d]|]; cbn [found]; [|intros ->; by apply does_ret]. intros (q & -> & _ & n & En & Hk & Hd).
  eapply does_field; [exact En|]. cbn [fst snd] in *. by rewrite Hk, Hd.
Qed.

Lemma does_nilOrData h r o : found h r o -> does (nilOrData r) (fun d h' => h' = h /\ d = snd (pair_of o)) h.
Proof.
  destruct o as [[k d]|]; cbn [found]; [|intros ->; by apply does_ret]. intros (q & -> & _ & n & En & Hk & Hd).
  eapply does_field; [exact En|]. by rewrite Hd.
Qed.

(** A search from the root of a map. *)
Lemma search_does {A} h t xs (s : ptr -> M D ptr) (fin : ptr -> M D A) o (a : A) : holds h t xs ->
  (forall tr, has h tr -> balanced tr -> elems tr = xs -> keys_ok xs -> ht tr <= Z.of_nat max_depth -> does (s (place tr)) (fun r h' => h' = h /\ found h r o) h) ->
  (forall r, found h r o -> does (fin r) (fun b h' => h' = h /\ b = a) h) ->
  does (let* x := derefT t in let* n := s (root x) in fin n) (fun b h' => h' = h /\ b = a) h.
Proof.
  intros (tr & Et & Htn & Htr & Hb & Hel & Hok) Hs Hfin. apply does_bind. eapply does_derefT; [exact Et|]. cbn [root]. apply does_bind.
  eapply does_mono; [apply Hs; try done; apply tree_depth; [done|by rewrite Hel]|]. intros r h' [-> Hf]. by apply Hfin.
Qed.

Lemma Find_at h t xs x : holds h t xs -> does (Find t x) (fun d h' => h' = h /\ d = value x xs) h.
Proof.
  intros Hh. apply (search_does h t xs (fun p => find p x) nilOrData (option_map (pair x) (lfind x xs))); [done| |].
  - intros tr Htr Hb <- Hok Hd. by apply find_does.
  - intros r Hf. eapply does_mono; [by apply does_nilOrData|]. intros d h' [-> ->]. split; [done|]. unfold value. by destruct (lfind x xs).
Qed.

Lemma Min_at h t xs : holds h t xs -> does (Min t) (fun p h' => h' = h /\ p = pair_of (head xs)) h.
Proof.
  intros Hh. apply (search_does h t xs min nilOrKeyAndData (head xs)); [done| |].
  - intros [|l lt k d rt] Htr Hb <- Hok Hd; [by apply does_ret|]. by apply (min_does max_depth h (Node l lt k d rt)).
  - intros r Hf. by apply does_nilOrKeyAndData.
Qed.

Lemma Max_at h t xs : holds h t xs -> does (Max t) (fun p h' => h' = h /\ p = pair_of (last xs)) h.
Proof.
  intros Hh. apply (search_does h t xs max nilOrKeyAndData (last xs)); [done| |].
  - intros [|l lt k d rt] Htr Hb <- Hok Hd; [by apply does_ret|]. by apply (max_does max_depth h (Node l lt k d rt)).
  - intros r Hf. by apply does_nilOrKeyAndData.
Qed.

Lemma glb_at h t xs x eq : holds h t xs ->
  does (let* tr := derefT t in let* n := glb (root tr) x eq in nilOrKeyAndData n) (fun p h' => h' = h /\ p = pair_of (last (List.filter (under eq x) xs))) h.
Proof.
  intros Hh. apply (search_does h t xs (fun p => glb p x eq) nilOrKeyAndData (last (List.filter (under eq x) xs))); [done| |].
  - intros tr Htr Hb <- Hok Hd. eapply does_mono; [by apply (glb_does max_depth h tr x eq None None)|]. intros r h' [-> Hf]. split; [done|].
    by destruct (last (List.filter _ _)).
  - intros r Hf. by apply does_nilOrKeyAndData.
Qed.

Lemma lub_at h t xs x eq : holds h t xs ->
  does (let* tr := derefT t in let* n := lub (root tr) x eq in nilOrKeyAndData n) (fun p h' => h' = h /\ p = pair_of (head (List.filter (over eq x) xs))) h.
Proof.
  intros Hh. apply (search_does h t xs (fun p => lub p x eq) nilOrKeyAndData (head (List.filter (over eq x) xs))); [done| |].
  - intros tr Htr Hb <- Hok Hd. eapply does_mono; [by apply (lub_does max_depth h tr x eq None None)|]. intros r h' [-> Hf]. split; [done|].
    by destruct (head (List.filter _ _)).
  - intros r Hf. by apply does_nilOrKeyAndData.
Qed.
(** ** The promises of the operations *)

(** C23: [Insert] adds a key or replaces its value, and returns the value that
    was there; no other map changes, although maps share nodes. *)
Theorem Insert_refines h t xs x d : holds h t xs -> is_key x ->
  does (Insert t x d) (fun r h' => r = value x xs /\ holds h' t (linsert x d xs) /\ forall u ys, u <> t -> holds h u ys -> holds h' u ys) h.
Proof.
  intros Ht Hx. eapply does_mono; [by apply Insert_at|]. intros r h' (Hr & Hh & Ho). split_and!; [done..|].
  intros u ys Hu Hys. by eapply holds_only.
Qed.

(** C24: [Delete], [DeleteMin] and [DeleteMax] remove a key, the smallest and
    the largest one, and return what they removed; no other map changes. *)
Theorem Delete_refines h t xs x : holds h t xs ->
  does (Delete t x) (fun r h' => r = value x xs /\ holds h' t (lremove x xs) /\ forall u ys, u <> t -> holds h u ys -> holds h' u ys) h /\
  does (DeleteMin t) (fun r h' => r = pair_of (head xs) /\ holds h' t (tail xs) /\ forall u ys, u <> t -> holds h u ys -> holds h' u ys) h /\
  does (DeleteMax t) (fun r h' => r = pair_of (last xs) /\ holds h' t (removelast xs) /\ forall u ys, u <> t -> holds h u ys -> holds h' u ys) h.
Proof.
  intros Ht. split_and!.
  - eapply does_mono; [by apply Delete_at|]. intros r h' (Hr & Hh & Ho). split_and!; [done..|]. intros u ys Hu Hys. by eapply holds_only.
  - eapply does_mono; [by apply DeleteMin_at|]. intros r h' (-> & Hh & Ho). split_and!; [by destruct xs|done|]. intros u ys Hu Hys. by eapply holds_only.
  - eapply does_mono; [by apply DeleteMax_at|]. intros r h' (-> & Hh & Ho). split_and!; [done..|]. intros u ys Hu Hys. by eapply holds_only.
Qed.

(** C28: The searches give the value of a key, the smallest and the largest
    pair, and the nearest pairs below and above a key, with or without the key
    itself; nothing changes. *)
Theorem search_spec h t xs x : holds h t xs ->
  does (Find t x) (fun d h' => h' = h /\ d = value x xs) h /\
  does (Min t) (fun p h' => h' = h /\ p = pair_of (head xs)) h /\
  does (Max t) (fun p h' => h' = h /\ p = pair_of (last xs)) h /\
  does (Glb t x) (fun p h' => h' = h /\ p = pair_of (last (List.filter (fun q => fst q <? x) xs))) h /\
  does (GlbEq t x) (fun p h' => h' = h /\ p = pair_of (last (List.filter (fun q => fst q <=? x) xs))) h /\
  does (Lub t x) (fun p h' => h' = h /\ p = pair_of (head (List.filter (fun q => x <? fst q) xs))) h /\
  does (LubEq t x) (fun p h' => h' = h /\ p = pair_of (head (List.filter (fun q => x <=? fst q) xs))) h.
Proof.
  intros Ht. split_and!; [by apply Find_at|by apply Min_at|by apply Max_at| | | |].
  - rewrite (List.filter_ext _ (under false x)); [by apply glb_at|]. intros p. unfold under. by rewrite orb_false_r.
  - rewrite (List.filter_ext _ (under true x)); [by apply glb_at|]. intros p. unfold under. lia.
  - rewrite (List.filter_ext _ (over false x)); [by apply lub_at|]. intros p. unfold over. by rewrite orb_false_r.
  - rewrite (List.filter_ext _ (over true x)); [by apply lub_at|]. intros p. unfold over. lia.
Qed.

(** The height of a map is logarithmic in its size, and far from the bound of
    [int8]. *)
Theorem height_bound h t xs : holds h t xs ->
  does (let* x := derefT t in height (root x)) (fun z h' => h' = h /\ 0 <= z <= 64 /\ 2 ^ z <= (lenZ xs + 1) * (lenZ xs + 1)) h.
Proof.
  intros (tr & Et & _ & Hh & Hb & <- & Hok). apply does_bind. eapply does_derefT; [exact Et|]. cbn [root].
  eapply does_height; [by apply has_height|]. split; [done|]. split; [by apply height_small|by apply balanced_size].
Qed.
End Maps.

(** ** A store with two maps *)

Definition example_heap : heap Z :=
  Heap {[ 2%positive := Node32 (Some 3%positive) (Some 4%positive) (Some 20) 2 2;
          3%positive := Node32 None None (Some 10) 1 1;
          4%positive := Node32 None None (Some 30) 3 1;
          6%positive := Node32 None None (Some 7) 2 1 ]}
       {[ 1%positive := mkT (Some 2%positive) 3; 5%positive := mkT (Some 6%positive) 1 ]} 7%positive.

Lemma example_holds : holds example_heap 1%positive [(1, Some 10); (2, Some 20); (3, Some 30)].
Proof.
  exists (Node 2%positive (Node 3%positive Leaf 1 (Some 10) Leaf) 2 (Some 20) (Node 4%positive Leaf 3 (Some 30) Leaf)).
  split_and!; try done; [|unfold keys_ok, sorted; split; repeat constructor; cbn; lia].
  split; [by vm_compute|]. cbn. repeat constructor.
Qed.

Lemma example_single : holds example_heap 5%positive [(2, Some 7)].
Proof.
  exists (Node 6%positive Leaf 2 (Some 7) Leaf). split_and!; try done; [|unfold keys_ok, sorted; split; repeat constructor; cbn; lia].
  split; [by vm_compute|]. cbn. repeat constructor.
Qed.

Lemma Insert_refines_witness : holds example_heap 1%positive [(1, Some 10); (2, Some 20); (3, Some 30)] /\ is_key 2 /\
  does (Insert 1%positive 2 (Some 0)) (fun r h' => r = value 2 [(1, Some 10); (2, Some 20); (3, Some 30)] /\
    holds h' 1%positive (linsert 2 (Some 0) [(1, Some 10); (2, Some 20); (3, Some 30)]) /\
    forall u ys, u <> 1%positive -> holds example_heap u ys -> holds h' u ys) example_heap.
Proof.
  assert (Hk : is_key 2) by (split; reflexivity). split; [exact example_holds|]. split; [exact Hk|].
  exact (Insert_refines example_heap 1%positive _ 2 (Some 0) example_holds Hk).
Defined.

Lemma Delete_refines_witness : holds example_heap 5%positive [(2, Some 7)] /\
  (does (Delete 5%positive 2) (fun r h' => r = value 2 [(2, Some 7)] /\ holds h' 5%positive (lremove 2 [(2, Some 7)]) /\
     forall u ys, u <> 5%positive -> holds example_heap u ys -> holds h' u ys) example_heap /\
   does (DeleteMin 5%positive) (fun r h' => r = pair_of (head [(2, Some 7)]) /\ holds h' 5%positive (tail [(2, Some 7)]) /\
     forall u ys, u <> 5%positive -> holds example_heap u ys -> holds h' u ys) example_heap /\
   does (DeleteMax 5%positive) (fun r h' => r = pair_of (last [(2, Some 7)]) /\ holds h' 5%positive (removelast [(2, Some 7)]) /\
     forall u ys, u <> 5%positive -> holds example_heap u ys -> holds h' u ys) example_heap).
Proof. split; [exact example_single|]. exact (Delete_refines example_heap 5%positive [(2, Some 7)] 2 example_single). Defined.

Lemma search_spec_witness : holds example_heap 5%positive [(2, Some 7)] /\ exists x : Z,
  does (Find 5%positive x) (fun d h' => h' = example_heap /\ d = value x [(2, Some 7)]) example_heap.
Proof. split; [exact example_single|]. exists 2. exact (proj1 (search_spec example_heap 5%positive [(2, Some 7)] 2 example_single)). Defined.
