(* ===== verification/AbtIter.v ===== *)
(** * Iterators, comparison and visits of the maps of the store *)

From S2P Require Import Prelude SortedMaps.
From stdpp Require Import gmap.
From S2P Require Import Abt AbtTrees AbtNodes AbtInsert AbtDelete AbtFacts.

#[local] Open Scope Z_scope.
#[local] Open Scope go_scope.

Section Iterators.
Context {D : Type} `{EqDecision D}.
Implicit Types (h : heap D) (d : option D) (xs : list (Z * option D)).

(** ** What is left to an iterator

    Below the top of the stack lies a path to the root.  A parent was visited
    exactly if its right child is on the path. *)
Inductive pending h : ptr -> iterator -> list (Z * option D) -> Prop :=
| pend_root c : pending h c [] []
| pend_left p lt k d rt rest xs : has h (Node p lt k d rt) -> keys_ok (elems (Node p lt k d rt)) -> balanced (Node p lt k d rt) -> lt <> Leaf ->
    pending h (Some p) rest xs -> pending h (place lt) (Some p :: rest) ((k, d) :: elems rt ++ xs)
| pend_right p lt k d rt rest xs : has h (Node p lt k d rt) -> rt <> Leaf ->
    pending h (Some p) rest xs -> pending h (place rt) (Some p :: rest) xs.

Inductive left_to h : iterator -> list (Z * option D) -> Prop :=
| left_nothing : left_to h [] []
| left_some p lt k d rt rest xs : has h (Node p lt k d rt) -> keys_ok (elems (Node p lt k d rt)) -> balanced (Node p lt k d rt) ->
    pending h (Some p) rest xs -> left_to h (Some p :: rest) ((k, d) :: elems rt ++ xs).

Lemma pending_only h h' t c it xs : pending h c it xs -> only h h' t -> pending h' c it xs.
Proof.
  intros Hp Ho. induction Hp; [constructor|eapply pend_left; try done; by eapply has_only|eapply pend_right; try done; by eapply has_only].
Qed.

Lemma left_only h h' t it xs : left_to h it xs -> only h h' t -> left_to h' it xs.
Proof.
  intros Hp Ho. destruct Hp; [constructor|]. eapply left_some; try done; [by eapply has_only|by eapply pending_only].
Qed.

Lemma leftmost_does h fuel : forall (t : tree D) it xs, has h t -> keys_ok (elems t) -> balanced t -> t <> Leaf -> ht t <= Z.of_nat fuel -> pending h (place t) it xs ->
  does (leftmost fuel (place t) it) (fun it' h' => h' = h /\ left_to h it' (elems t ++ xs)) h.
Proof.
  induction fuel as [|fuel IH]; intros [|t lt k d rt] it xs Ht Hok Hb Hne Hfuel Hp; try done.
  { pose proof (ht_pos t lt k d rt). lia. }
  pose proof Ht as (Et & Htn & Hlt & Hrt)%has_N. pose proof Hok as (Hokl & Hokr & _)%keys_ok_mid. pose proof Hb as (_ & Hbl & Hbr). cbn [ht] in Hfuel.
  cbn [place leftmost]. apply does_bind. eapply does_field; [exact Et|]. cbn [left]. destruct lt as [|l ll kl dl lr].
  - cbn [elems app place]. destruct fuel; apply does_ret; (split; [done|by eapply left_some]).
  - assert (Hp' : pending h (Some l) (Some t :: it) ((k, d) :: elems rt ++ xs)) by by apply (pend_left h t (Node l ll kl dl lr)).
    change (elems (Node t (Node l ll kl dl lr) k d rt)) with (elems (Node l ll kl dl lr) ++ (k, d) :: elems rt). rewrite <- app_assoc.
    apply (IH (Node l ll kl dl lr)); try done. lia.
Qed.

Lemma discard_does h c it xs : pending h c it xs -> does (discard c it) (fun it' h' => h' = h /\ left_to h it' xs) h.
Proof.
  induction 1 as [c|p lt k d rt rest xs Hh Hok Hb Hne Hp IH|p lt k d rt rest xs Hh Hne Hp IH]; cbn [discard].
  - apply does_ret. split; [done|constructor].
  - pose proof Hh as (Ep & _ & Hlt & Hrt)%has_N. apply does_bind. eapply does_field; [exact Ep|]. cbn [right].
    assert (Hs : same (place lt) (place rt) = false).
    { apply bool_decide_eq_false. intros E. pose proof (stored_inj _ _ _ (proj1 Hlt) (proj1 Hrt) E) as ->.
      apply keys_ok_mid in Hok as (_ & _ & Hb1 & Ha1 & _). destruct rt as [|r rl kr dr rr]; [done|]. unfold below, above in *.
      assert (Hin : In (kr, dr) (elems (Node r rl kr dr rr))) by apply in_elt. rewrite List.Forall_forall in *. specialize (Hb1 _ Hin). specialize (Ha1 _ Hin). lia. }
    rewrite Hs. apply does_ret. split; [done|by eapply left_some].
  - pose proof Hh as (Ep & _)%has_N. apply does_bind. eapply does_field; [exact Ep|]. cbn [right]. unfold same. by rewrite bool_decide_eq_true_2.
Qed.

Lemma next_does h it p xs : left_to h it (p :: xs) ->
  does (next_ it) (fun '(x, it') h' => h' = h /\ (exists q, x = Some q /\ node_is h q p) /\ left_to h it' xs) h.
Proof.
  inversion 1 as [|q lt k d rt rest ys Hh Hok Hb Hp]; subst. pose proof Hh as (Eq & Hq & Hlt & Hrt)%has_N. pose proof (has_node _ _ _ _ _ _ Hh) as Hn.
  cbn [next_]. apply does_bind. eapply does_field; [exact Eq|]. cbn [right]. pose proof Hok as (Hokl & Hokr & _)%keys_ok_mid. pose proof Hb as (_ & _ & Hbr).
  destruct rt as [|r rl kr dr rr]; cbn [place].
  - apply does_bind. eapply does_mono; [by apply discard_does|]. intros it' h' [-> Hl]. apply does_ret. split; [done|]. split; [by exists q|done].
  - apply does_bind. eapply does_mono.
    { apply (leftmost_does h max_depth (Node r rl kr dr rr) (Some q :: rest) ys); try done; [by apply tree_depth|]. by apply (pend_right h q lt k d (Node r rl kr dr rr)). }
    intros it' h' [-> Hl]. apply does_ret. split; [done|]. split; [by exists q|done].
Qed.

Lemma Next_does h it p xs : left_to h it (p :: xs) -> does (Next it) (fun '(x, it') h' => h' = h /\ x = p /\ left_to h it' xs) h.
Proof.
  intros Hl. unfold Next. apply does_bind. eapply does_mono; [by apply next_does|]. intros [x it'] h' (-> & (q & -> & _ & n & En & Hk & Hd) & Hl').
  apply does_bind. eapply does_deref; [exact En|]. apply does_ret. split_and!; try done. destruct p. cbn [fst snd] in *. by rewrite Hk, Hd.
Qed.

Lemma iterator_does h (tr : tree D) : has h tr -> balanced tr -> keys_ok (elems tr) -> does (iterator_ (place tr)) (fun it h' => h' = h /\ left_to h it (elems tr)) h.
Proof.
  intros Hh Hb Hok. destruct tr as [|l lt k d rt]; [apply does_ret; split; [done|constructor]|]. cbn [place iterator_].
  eapply does_mono; [apply (leftmost_does h max_depth (Node l lt k d rt) [] []); try done; [by apply tree_depth|constructor]|].
  intros it h' [-> Hl]. by rewrite app_nil_r in Hl.
Qed.

Lemma left_Done h it xs : left_to h it xs -> done_ it = match xs with [] => true | _ => false end.
Proof. by destruct 1. Qed.

(** ** Loops over a map *)

(** The body changes nothing but the map [v]; [P] holds of the pairs that were
    visited. *)
Lemma each_does (v : loc) (P : list (Z * option D) -> heap D -> Prop) (body : Z -> option D -> M D unit) ps :
  (forall past k d rest h, ps = past ++ (k, d) :: rest -> P past h -> does (body k d) (fun _ h' => P (past ++ [(k, d)]) h' /\ only h h' v) h) ->
  forall fuel xs past it h, ps = past ++ xs -> left_to h it xs -> (length xs <= fuel)%nat -> P past h ->
  does (each_ fuel it body) (fun _ h' => P ps h') h.
Proof.
  intros Hbody fuel. induction fuel as [|fuel IH]; intros [|[k d] xs] past it h -> Hl Hlen HP; cbn [each_]; unfold Done; rewrite (left_Done _ _ _ Hl);
    try (apply does_ret; by rewrite app_nil_r); [cbn in Hlen; lia|].
  apply does_bind. eapply does_mono; [by apply Next_does|]. intros [[k' d'] it'] h' (-> & [= -> ->] & Hl'). apply does_bind.
  eapply does_mono; [by eapply Hbody|]. intros _ h2 [HP2 Ho]. eapply (IH xs (past ++ [(k, d)])); [by rewrite <- app_assoc|by eapply left_only|cbn in Hlen; lia|done].
Qed.

Lemma Size_at h t xs : holds h t xs -> does (Size t) (fun n h' => h' = h /\ n = lenZ xs) h.
Proof. intros (tr & Et & _). unfold Size. apply does_bind. eapply does_derefT; [exact Et|]. by apply does_ret. Qed.

Lemma each_map_does (v t : loc) (P : list (Z * option D) -> heap D -> Prop) (body : Z -> option D -> M D unit) xs h :
  holds h t xs -> P [] h ->
  (forall past k d rest h, xs = past ++ (k, d) :: rest -> P past h -> does (body k d) (fun _ h' => P (past ++ [(k, d)]) h' /\ only h h' v) h) ->
  does (each t body) (fun _ h' => P xs h') h.
Proof.
  intros Ht HP Hbody. unfold each. apply does_bind. eapply does_mono; [by apply Size_at|]. intros n h' [-> ->].
  destruct Ht as (tr & Et & _ & Htr & Hb & Hel & Hok). unfold Iterator. apply does_bind.
  eapply (does_mono _ (fun it h' => h' = h /\ left_to h it xs)).
  { apply does_bind. eapply does_derefT; [exact Et|]. cbn [root]. rewrite <- Hel. apply iterator_does; [done|done|by rewrite Hel]. }
  intros it h' [-> Hl]. apply (each_does v P body xs Hbody _ xs []); [done|done|unfold lenZ; lia|done].
Qed.

(** ** Comparison *)

Fixpoint list_eqv (eqv : option D -> option D -> bool) xs ys : bool :=
  match xs, ys with
  | [], [] => true
  | (k, d) :: xs, (k', d') :: ys => (k =? k') && eqv d d' && list_eqv eqv xs ys
  | _, _ => false
  end.

Lemma list_eqv_refl eqv xs : (forall d, eqv d d = true) -> list_eqv eqv xs xs = true.
Proof. intros He. induction xs as [|[k d] xs IH]; cbn [list_eqv]; [done|]. by rewrite Z.eqb_refl, He, IH. Qed.

Lemma list_eqv_eq xs ys : list_eqv eq_data xs ys = bool_decide (xs = ys).
Proof.
  revert ys. induction xs as [|[k d] xs IH]; intros [|[k' d'] ys]; cbn [list_eqv]; try (symmetry; by apply bool_decide_eq_false).
  - symmetry. by apply bool_decide_eq_true.
  - rewrite IH. unfold eq_data. destruct (k =? k') eqn:E1; cbn [andb].
    + assert (k = k') as -> by lia. case_bool_decide as E2; cbn [andb].
      * subst d'. case_bool_decide as E3; symmetry; [apply bool_decide_eq_true; by subst ys|apply bool_decide_eq_false; by intros [= ->]].
      * symmetry. apply bool_decide_eq_false. by intros [= ->].
    + symmetry. apply bool_decide_eq_false. intros [= -> _ _]. lia.
Qed.

Lemma node_is_fun h q p p' : node_is h q p -> node_is h q p' -> p = p'.
Proof.
  destruct p as [k d], p' as [k' d']. intros (_ & n & En & Hk & Hd) (_ & n' & En' & Hk' & Hd'). rewrite En in En'. injection En' as <-. cbn [fst snd] in *. congruence.
Qed.

Lemma equiv_loop_does eqv h : (forall d, eqv d d = true) -> forall fuel xs ys it iu, left_to h it xs -> left_to h iu ys -> (length xs <= fuel)%nat ->
  does (equiv_loop fuel eqv it iu) (fun b h' => h' = h /\ b = list_eqv eqv xs ys) h.
Proof.
  intros Hrefl. induction fuel as [|fuel IH]; intros xs ys it iu Hx Hy Hlen; cbn [equiv_loop]; rewrite (left_Done _ _ _ Hx), (left_Done _ _ _ Hy);
    destruct xs as [|p xs], ys as [|p' ys]; cbn [negb andb eqb]; try (apply does_ret; by destruct p || destruct p' || idtac); try (cbn in Hlen; lia).
  apply does_bind. eapply does_mono; [by apply next_does|]. intros [nt it'] h' (-> & (q & -> & Hq) & Hx').
  apply does_bind. eapply does_mono; [by apply next_does|]. intros [nu iu'] h' (-> & (q' & -> & Hq') & Hy').
  destruct p as [k d], p' as [k' d']. cbn [list_eqv]. cbn in Hlen. destruct (same (Some q) (Some q')) eqn:E.
  - apply bool_decide_eq_true in E as [= ->]. pose proof (node_is_fun _ _ _ _ Hq Hq') as [= -> ->]. rewrite Z.eqb_refl, Hrefl. apply IH; try done. lia.
  - destruct Hq as (_ & n & En & Hk & Hd), Hq' as (_ & n' & En' & Hk' & Hd'). cbn [fst snd] in *.
    apply does_bind. eapply does_deref; [exact En|]. apply does_bind. eapply does_deref; [exact En'|]. rewrite Hk, Hk', Hd, Hd'.
    destruct (k =? k'); cbn [negb andb]; [|by apply does_ret]. destruct (eqv d d'); cbn [negb andb]; [|by apply does_ret]. apply IH; try done. lia.
Qed.

Lemma Equiv_at h t u xs ys eqv : (forall d, eqv d d = true) -> holds h t xs -> holds h u ys ->
  does (Equiv t u eqv) (fun b h' => h' = h /\ b = list_eqv eqv xs ys) h.
Proof.
  intros Hrefl Ht Hu. unfold Equiv. case_bool_decide as Etu.
  - subst u. apply does_ret. split; [done|]. destruct Ht as (tr & Et & _ & H1 & _ & <- & _), Hu as (tr' & Et' & _ & H2 & _ & <- & _).
    rewrite Et in Et'. injection Et' as Hp _. rewrite (stored_inj _ _ _ (proj1 H1) (proj1 H2) Hp). symmetry. by apply list_eqv_refl.
  - apply does_bind. eapply does_mono; [by apply Size_at|]. intros nt h' [-> ->]. apply does_bind. eapply does_mono; [by apply Size_at|]. intros nu h' [-> ->].
    destruct (lenZ xs =? lenZ ys) eqn:El; cbn [negb].
    2: { apply does_ret. split; [done|]. symmetry. apply Z.eqb_neq in El. unfold lenZ in El. clear -El. revert ys El.
      induction xs as [|[k d] xs IH]; intros [|[k' d'] ys] El; try done. cbn [list_eqv]. rewrite IH; [by rewrite andb_false_r|]. cbn in El. lia. }
    destruct Ht as (tr & Et & _ & H1 & Hb & Hel & Hok), Hu as (tr' & Et' & _ & H2 & Hb' & Hel' & Hok').
    apply does_bind. eapply does_derefT; [exact Et|]. apply does_bind. eapply does_derefT; [exact Et'|]. cbn [root]. unfold equiv.
    destruct (same (place tr) (place tr')) eqn:E.
    + apply bool_decide_eq_true in E. pose proof (stored_inj _ _ _ (proj1 H1) (proj1 H2) E) as <-. apply does_ret. subst. split; [done|]. symmetry. by apply list_eqv_refl.
    + subst xs ys. apply does_bind. eapply does_mono; [by apply iterator_does|]. intros it h' [-> Hx]. apply does_bind.
      eapply does_mono; [by apply iterator_does|]. intros iu h' [-> Hy]. apply equiv_loop_does; try done. unfold lenZ. lia.
Qed.

(** ** Visits *)

Lemma visit_runs fuel : forall h (t : tree D), has h t -> t <> Leaf -> ht t <= Z.of_nat fuel -> visitInOrder fuel (place t) h = Ok (tt, h, elems t).
Proof.
  induction fuel as [|fuel IH]; intros h [|t lt k d rt] Ht Hne Hfuel; try done.
  { pose proof (ht_pos t lt k d rt). lia. }
  pose proof Ht as (Et & Htn & Hlt & Hrt)%has_N. cbn [ht] in Hfuel. cbn [place visitInOrder].
  assert (Hv : forall s : tree D, has h s -> ht s <= Z.of_nat fuel -> (when negb (same (place s) None) do visitInOrder fuel (place s)) h = Ok (tt, h, elems s)).
  { intros s Hs Hd. destruct s as [|l ll kl dl lr]; [done|]. by apply (IH h (Node l ll kl dl lr)). }
  assert (Hf : forall A (f : node32 D -> A), field f (Some t) h = Ok (f (Node32 (place lt) (place rt) d k (ht (Node t lt k d rt))), h, [])).
  { intros A f. unfold field, deref, bind, gets. by rewrite Et. }
  rewrite (bind_Ok _ _ _ _ _ _ (Hf _ _)). cbn [left]. rewrite (bind_Ok _ _ _ _ _ _ (Hv lt Hlt ltac:(lia))).
  assert (Hd : deref (Some t) h = Ok (Node32 (place lt) (place rt) d k (ht (Node t lt k d rt)), h, [])) by (unfold deref, bind, gets; by rewrite Et).
  rewrite (bind_Ok _ _ _ _ _ _ Hd), bind_emit, (bind_Ok _ _ _ _ _ _ (Hf _ _)). cbn [right key data]. 
  destruct rt as [|r rl kr dr rr]; [done|]. change (same (place (Node r rl kr dr rr)) None) with false. cbn [negb].
  by rewrite (IH h (Node r rl kr dr rr)) by (done || lia).
Qed.

Lemma VisitInOrder_at h t xs : holds h t xs -> VisitInOrder t h = Ok (tt, h, xs).
Proof.
  intros (tr & Et & _ & Hh & Hb & <- & Hok). unfold VisitInOrder.
  assert (Hd : derefT t h = Ok (mkT (place tr) (lenZ (elems tr)), h, [])) by (unfold derefT, bind, gets; by rewrite Et).
  rewrite (bind_Ok _ _ _ _ _ _ Hd). cbn [root]. destruct tr as [|l lt k d rt]; [done|]. cbn [place].
  pose proof (visit_runs max_depth h (Node l lt k d rt) Hh ltac:(done) (tree_depth _ Hb Hok)) as E. cbn [place] in E.
  change (same (Some l) None) with false. cbv iota. by rewrite E.
Qed.
(** C27: [Equals] tells whether two maps hold the same pairs, and changes
    nothing; [VisitInOrder] calls its function for the pairs in their order. *)
Theorem Equals_spec h t u xs ys : holds h t xs -> holds h u ys ->
  does (Equals t u) (fun b h' => h' = h /\ b = bool_decide (xs = ys)) h /\ VisitInOrder t h = Ok (tt, h, xs).
Proof.
  intros Ht Hu. split; [|by apply VisitInOrder_at]. rewrite <- list_eqv_eq. apply (Equiv_at h t u xs ys eq_data); [|done|done].
  intros d. by apply bool_decide_eq_true.
Qed.

End Iterators.

Lemma Equals_spec_witness : holds example_heap 1%positive [(1, Some 10); (2, Some 20); (3, Some 30)] /\ holds example_heap 5%positive [(2, Some 7)] /\
  (does (Equals 1%positive 5%positive) (fun b h' => h' = example_heap /\ b = bool_decide ([(1, Some 10); (2, Some 20); (3, Some 30)] = [(2, Some 7)])) example_heap /\
   VisitInOrder 1%positive example_heap = Ok (tt, example_heap, [(1, Some 10); (2, Some 20); (3, Some 30)])).
Proof.
  split; [exact example_holds|]. split; [exact example_single|]. exact (Equals_spec example_heap 1%positive 5%positive _ _ example_holds example_single).
Defined.
