(* ===== verification/AbtMerge.v ===== *)
(** * Copies, unions, intersections and differences of the maps of the store *)

From S2P Require Import Prelude SortedMaps.
From stdpp Require Import gmap.
From S2P Require Import Abt AbtTrees AbtNodes AbtInsert AbtDelete AbtFacts AbtIter.

#[local] Open Scope Z_scope.
#[local] Open Scope go_scope.

Section Merge.
Context {D : Type} `{EqDecision D}.
Implicit Types (h : heap D) (d : option D) (xs ys zs : list (Z * option D)).

Lemma does_newT h x (Q : loc -> heap D -> Prop) : Q (next h) (Heap (nodes h) (<[next h := x]> (trees h)) (Pos.succ (next h))) -> does (newT x) Q h.
Proof. done. Qed.

(** A new map, which holds [ys]; the others are as they were. *)
Definition fresh_map h (v : loc) ys h' : Prop := holds h' v ys /\ forall u zs, holds h u zs -> holds h' u zs /\ u <> v.

Lemma fresh_map_new h (tr : tree D) : has h tr -> balanced tr -> keys_ok (elems tr) ->
  fresh_map h (next h) (elems tr) (Heap (nodes h) (<[next h := mkT (place tr) (lenZ (elems tr))]> (trees h)) (Pos.succ (next h))).
Proof.
  intros Hh Hb Hok. assert (Hsub : forall s : tree D, has h s -> has (Heap (nodes h) (<[next h := mkT (place tr) (lenZ (elems tr))]> (trees h)) (Pos.succ (next h))) s).
  { intros s Hs. eapply has_frame; [exact Hs|cbn; lia|done]. }
  split.
  - exists tr. split_and!; try done; [cbn [trees]; by rewrite lookup_insert_eq|cbn; lia|by apply Hsub].
  - intros u zs (tr' & Et & Hn & Hh' & Hrest). assert (u <> next h) by lia. split; [|done].
    exists tr'. split_and!; try tauto; [cbn [trees]; by rewrite lookup_insert_ne|cbn; lia|by apply Hsub].
Qed.

Lemma Copy_at h t xs : holds h t xs -> does (Copy t) (fun v h' => fresh_map h v xs h') h.
Proof.
  intros (tr & Et & Hn & Hh & Hb & <- & Hok). unfold Copy. apply does_bind. eapply does_derefT; [exact Et|]. apply does_newT.
  by apply fresh_map_new.
Qed.

Lemma empty_at h : does (newT (mkT None 0)) (fun v h' => fresh_map h v [] h') h.
Proof. apply does_newT. apply (fresh_map_new h Leaf); [apply has_E|done|by split; [constructor|]]. Qed.

(** ** A loop that merges into a new map *)

(** What happens to a key of the map [v]: [None] stands for no entry. *)
Definition sets (v : loc) (k : Z) (o : option (option D)) h ys (m : M D unit) : Prop :=
  does m (fun _ h' => exists ys', holds h' v ys' /\ only h h' v /\ forall x, lfind x ys' = if x =? k then o else lfind x ys) h.

Lemma sets_same v k h ys : holds h v ys -> sets v k (lfind k ys) h ys (ret tt).
Proof. intros Hv. apply does_ret. exists ys. split_and!; try done. intros x. destruct (x =? k) eqn:E; [|done]. by assert (x = k) as -> by lia. Qed.

Lemma sets_insert v k d h ys : holds h v ys -> is_key k -> sets v k (Some d) h ys (let* _ := Insert v k d in ret tt).
Proof.
  intros Hv Hk. apply does_bind. eapply does_mono; [by apply Insert_at|]. intros r h' (_ & Hv' & Ho). apply does_ret. exists (linsert k d ys).
  split_and!; try done. intros x. apply lfind_linsert. destruct Hv as (tr & _ & _ & _ & _ & <- & Hok). apply Hok.
Qed.

Lemma sets_delete v k h ys : holds h v ys -> sets v k None h ys (let* _ := Delete v k in ret tt).
Proof.
  intros Hv. apply does_bind. eapply does_mono; [by apply Delete_at|]. intros r h' (_ & Hv' & Ho). apply does_ret. exists (lremove k ys).
  split_and!; try done. intros x. apply lfind_lremove.
Qed.

(** The entry that [put] leaves where [old] was. *)
Definition put_entry (f : option D -> option D -> option D) d e (old : option (option D)) : option (option D) :=
  let c := f d e in if eq_data c d then old else match c with None => None | Some _ => Some c end.

Lemma sets_put v f k d e h ys : holds h v ys -> is_key k -> sets v k (put_entry f d e (lfind k ys)) h ys (put v f k d e).
Proof.
  intros Hv Hk. unfold put_entry, put. cbv zeta. destruct (eq_data (f d e) d); [by apply sets_same|]. destruct (f d e); [by apply sets_insert|by apply sets_delete].
Qed.

Lemma keys_ok_split past k d rest : keys_ok (past ++ (k, d) :: rest) -> lfind k past = None /\ is_key k /\ lfind k (past ++ (k, d) :: rest) = Some d.
Proof.
  intros (_ & _ & Hb & Ha & Hk)%keys_ok_mid. split_and!; [by apply lfind_below|done|]. rewrite lfind_mid, Z.ltb_irrefl by done. done.
Qed.

(** The loop goes over [t] and changes [v]; [g] is what it makes of a pair. *)
Lemma merge_loop h0 (v t : loc) ts vs (g : Z -> option D -> option (option D)) (body : Z -> option D -> M D unit) :
  holds h0 t ts -> holds h0 v vs -> t <> v ->
  (forall k d h ys, only h0 h v -> holds h v ys -> lfind k ts = Some d -> is_key k -> lfind k ys = lfind k vs -> sets v k (g k d) h ys (body k d)) ->
  does (each t body) (fun _ h' => exists ys, holds h' v ys /\ only h0 h' v /\
    forall x, lfind x ys = match lfind x ts with Some d => g x d | None => lfind x vs end) h0.
Proof.
  intros Ht Hv Htv Hbody. assert (Hok : keys_ok ts) by (destruct Ht as (tr & _ & _ & _ & _ & <- & Hok); exact Hok).
  apply (each_map_does v t (fun past h => exists ys, holds h v ys /\ only h0 h v /\
    forall x, lfind x ys = match lfind x past with Some d => g x d | None => lfind x vs end)); [done| |].
  { exists vs. split; [done|]. split; [apply only_refl|done]. }
  intros past k d rest h -> (ys & Hys & Ho & Hl). destruct (keys_ok_split past k d rest Hok) as (Hk1 & Hk2 & Hk3).
  eapply does_mono; [apply (Hbody k d h ys); try done; by rewrite Hl, Hk1|]. intros _ h' (ys' & Hys' & Ho' & Hl'). split; [|done].
  exists ys'. split; [done|]. split; [by eapply only_trans|]. intros x. rewrite Hl', Hl, lfind_app. cbn [lfind].
  destruct (x =? k) eqn:E; [assert (x = k) as -> by lia; by rewrite Hk1|]. by destruct (lfind x past).
Qed.
(** The loop on a copy, with what is left of the other maps. *)
Lemma merge_copy h (c t : loc) cs ts (g : Z -> option D -> option (option D)) (body : loc -> Z -> option D -> M D unit) :
  holds h c cs -> holds h t ts ->
  (forall v h1 k d ys, (forall u us, holds h u us -> holds h1 u us) -> holds h1 v ys -> lfind k ts = Some d -> is_key k -> lfind k ys = lfind k cs ->
     sets v k (g k d) h1 ys (body v k d)) ->
  does (let* v := Copy c in each t (body v);;; ret v) (fun v h' => exists zs, fresh_map h v zs h' /\
    forall x, lfind x zs = match lfind x ts with Some d => g x d | None => lfind x cs end) h.
Proof.
  intros Hc Ht Hbody. apply does_bind. eapply does_mono; [by apply Copy_at|]. intros v h1 [Hv Hold]. apply does_bind.
  destruct (Hold t ts Ht) as [Ht1 Htv]. eapply does_mono.
  { apply (merge_loop h1 v t ts cs g (body v)); try done. intros k d h2 ys Ho Hys Hk Hkey Hk2. apply Hbody; try done.
    intros u us Hu. destruct (Hold u us Hu) as [Hu1 Huv]. by eapply holds_only. }
  intros _ h2 (zs & Hzs & Ho & Hl). apply does_ret. exists zs. split; [|done]. split; [done|].
  intros u us Hu. destruct (Hold u us Hu) as [Hu1 Huv]. split; [by eapply holds_only|done].
Qed.

Lemma lenZ_0 (A : Type) (l : list A) : lenZ l = 0 -> l = [].
Proof. destruct l; [done|]. rewrite lenZ_cons. pose proof (lenZ_nonneg l). lia. Qed.

(** The entry of a key [k] of both maps, where [kept] is the one that is there. *)
Definition both (f : merge) d e (kept : option D) : option (option D) :=
  match f with
  | None => Some kept
  | Some f => put_entry f d e (Some kept)
  end.

Lemma sets_both (f : merge) v k d e kept h ys : holds h v ys -> is_key k -> lfind k ys = Some kept ->
  sets v k (both f d e kept) h ys (match f with None => ret tt | Some f => put v f k d e end).
Proof.
  intros Hv Hk Hl. destruct f as [f|]; cbn [both]; rewrite <- Hl; [by apply sets_put|by apply sets_same].
Qed.

Lemma sets_find v k h ys u us (o : option D -> option (option D)) (m : option D -> M D unit) : holds h u us ->
  sets v k (o (value k us)) h ys (m (value k us)) -> sets v k (o (value k us)) h ys (let* e := Find u k in m e).
Proof. intros Hu Hs. unfold sets. apply does_bind. eapply does_mono; [by apply Find_at|]. intros e h' [-> ->]. exact Hs. Qed.

Definition intersection_entry (f : merge) xs ys k : option (option D) :=
  if lenZ xs <=? lenZ ys then
    match lfind k xs with
    | Some d => match value k ys with None => None | Some _ => both f d (value k ys) d end
    | None => None
    end
  else
    match lfind k ys with
    | Some e => match value k xs with None => None | Some _ => both f (value k xs) e e end
    | None => None
    end.

Lemma Intersection_at h t u xs ys f : holds h t xs -> holds h u ys ->
  does (Intersection t u f) (fun v h' => exists zs, fresh_map h v zs h' /\ forall k, lfind k zs = intersection_entry f xs ys k) h.
Proof.
  intros Ht Hu. unfold Intersection, intersection_entry. apply does_bind. eapply does_mono; [by apply Size_at|]. intros nt h' [-> ->].
  apply does_bind. eapply does_mono; [by apply Size_at|]. intros nu h' [-> ->]. destruct ((lenZ xs =? 0) || (lenZ ys =? 0)) eqn:E0.
  { eapply does_mono; [apply empty_at|]. intros v h' Hv. exists []. split; [done|]. intros k. pose proof (lenZ_nonneg xs). pose proof (lenZ_nonneg ys).
    destruct (lenZ xs <=? lenZ ys) eqn:E1; [rewrite (lenZ_0 _ xs) by lia|rewrite (lenZ_0 _ ys) by lia]; done. }
  destruct (lenZ xs <=? lenZ ys) eqn:E1.
  - eapply does_mono.
    { eapply (merge_copy h t t xs xs (fun k d => match value k ys with None => None | Some _ => both f d (value k ys) d end)); try done.
      intros v h1 k d zs Hold Hv Hk Hkey Hl. eapply (sets_find v k h1 zs u ys (fun e => match e with None => None | Some _ => both f d e d end) (fun e =>
        match e with None => let* _ := Delete v k in ret tt | Some _ => match f with None => ret tt | Some f => put v f k d e end end)); [by apply Hold|].
      cbv beta. destruct (value k ys); [apply sets_both; [done|done|congruence]|by apply sets_delete]. }
    intros v h' (zs & Hv & Hl). exists zs. split; [done|]. intros k. rewrite Hl. by destruct (lfind k xs).
  - eapply does_mono.
    { eapply (merge_copy h u u ys ys (fun k e => match value k xs with None => None | Some _ => both f (value k xs) e e end)); try done.
      intros v h1 k e zs Hold Hv Hk Hkey Hl. eapply (sets_find v k h1 zs t xs (fun d => match d with None => None | Some _ => both f d e e end) (fun d =>
        match d with None => let* _ := Delete v k in ret tt | Some _ => match f with None => ret tt | Some f => put v f k d e end end)); [by apply Hold|].
      cbv beta. destruct (value k xs); [apply sets_both; [done|done|congruence]|by apply sets_delete]. }
    intros v h' (zs & Hv & Hl). exists zs. split; [done|]. intros k. rewrite Hl. by destruct (lfind k ys).
Qed.
(** A map that is one of the old ones, or new. *)
Definition some_map h (v : loc) zs h' : Prop := holds h' v zs /\ forall u us, holds h u us -> holds h' u us.

Lemma fresh_some h v zs h' : fresh_map h v zs h' -> some_map h v zs h'.
Proof. intros [Hv Hold]. split; [done|]. intros u us Hu. by destruct (Hold u us Hu). Qed.

Definition union_entry (f : merge) xs ys k : option (option D) :=
  if lenZ ys <=? lenZ xs then
    match lfind k ys with
    | Some e => match value k xs with None => Some e | Some _ => both f (value k xs) e (value k xs) end
    | None => lfind k xs
    end
  else
    match lfind k xs with
    | Some d => match value k ys with None => Some d | Some _ => both f d (value k ys) (value k ys) end
    | None => lfind k ys
    end.

Lemma value_Some k xs a : value k xs = Some a -> lfind k xs = Some (Some a).
Proof. unfold value. destruct (lfind k xs) as [[b|]|]; congruence. Qed.

Lemma Union_at h t u xs ys f : holds h t xs -> holds h u ys ->
  does (Union t u f) (fun v h' => exists zs, some_map h v zs h' /\ forall k, lfind k zs = union_entry f xs ys k) h.
Proof.
  intros Ht Hu. unfold Union, union_entry. pose proof (lenZ_nonneg xs). pose proof (lenZ_nonneg ys).
  apply does_bind. eapply does_mono; [by apply Size_at|]. intros nt h' [-> ->]. destruct (lenZ xs =? 0) eqn:E0.
  { rewrite (lenZ_0 _ xs) by lia. apply does_ret. exists ys. split; [done|]. intros k. destruct (lenZ ys <=? _); by destruct (lfind k ys). }
  apply does_bind. eapply does_mono; [by apply Size_at|]. intros nu h' [-> ->]. destruct (lenZ ys =? 0) eqn:E1.
  { rewrite (lenZ_0 _ ys) by lia. apply does_ret. exists xs. split; [done|]. intros k. destruct (_ <=? lenZ xs); by destruct (lfind k xs). }
  destruct (lenZ ys <=? lenZ xs) eqn:E2.
  - eapply does_mono.
    { eapply (merge_copy h t u xs ys (fun k e => match value k xs with None => Some e | Some _ => both f (value k xs) e (value k xs) end)); try done.
      intros v h1 k e zs Hold Hv Hk Hkey Hl. eapply (sets_find v k h1 zs t xs (fun d => match d with None => Some e | Some _ => both f d e d end) (fun d =>
        match d with None => let* _ := Insert v k e in ret tt | Some _ => match f with None => ret tt | Some f => put v f k d e end end)); [by apply Hold|].
      cbv beta. destruct (value k xs) eqn:Ev; [apply sets_both; [done|done|]|by apply sets_insert]. rewrite Hl. by apply value_Some. }
    intros v h' (zs & Hv & Hl). exists zs. split; [by apply fresh_some|done].
  - eapply does_mono.
    { eapply (merge_copy h u t ys xs (fun k d => match value k ys with None => Some d | Some _ => both f d (value k ys) (value k ys) end)); try done.
      intros v h1 k d zs Hold Hv Hk Hkey Hl. eapply (sets_find v k h1 zs u ys (fun e => match e with None => Some d | Some _ => both f d e e end) (fun e =>
        match e with None => let* _ := Insert v k d in ret tt | Some _ => match f with None => ret tt | Some f => put v f k d e end end)); [by apply Hold|].
      cbv beta. destruct (value k ys) eqn:Ev; [apply sets_both; [done|done|]|by apply sets_insert]. rewrite Hl. by apply value_Some. }
    intros v h' (zs & Hv & Hl). exists zs. split; [by apply fresh_some|done].
Qed.

Definition difference_entry (f : merge) xs ys k : option (option D) :=
  match lfind k xs with
  | Some d =>
      match value k ys with
      | None => Some d
      | Some _ =>
          match f with
          | None => None
          | Some f => match f d (value k ys) with None => None | Some c => Some (Some c) end
          end
      end
  | None => None
  end.

Lemma Difference_at h t u xs ys f : holds h t xs -> holds h u ys ->
  does (Difference t u f) (fun v h' => exists zs, some_map h v zs h' /\ forall k, lfind k zs = difference_entry f xs ys k) h.
Proof.
  intros Ht Hu. unfold Difference, difference_entry. apply does_bind. eapply does_mono; [by apply Size_at|]. intros nt h' [-> ->].
  destruct (lenZ xs =? 0) eqn:E0.
  { rewrite (lenZ_0 _ xs) by lia. eapply does_mono; [apply empty_at|]. intros v h' Hv. exists []. split; [by apply fresh_some|done]. }
  apply does_bind. eapply does_mono; [by apply Size_at|]. intros nu h' [-> ->]. destruct (lenZ ys =? 0) eqn:E1.
  { rewrite (lenZ_0 _ ys) by lia. apply does_ret. exists xs. split; [done|]. intros k. by destruct (lfind k xs). }
  set (g := fun (e : option D) d => match e with None => Some d | Some _ => match f with None => None | Some f => match f d e with None => None | Some c => Some (Some c) end end end).
  eapply does_mono.
  { eapply (merge_copy h t t xs xs (fun k d => g (value k ys) d)); try done.
    intros v h1 k d zs Hold Hv Hk Hkey Hl. eapply (sets_find v k h1 zs u ys (fun e => g e d) (fun e =>
      match e with None => ret tt | Some _ => match f with None => let* _ := Delete v k in ret tt | Some f =>
        let c := f d e in match c with None => let* _ := Delete v k in ret tt | Some _ => if eq_data c d then ret tt else let* _ := Insert v k c in ret tt end end end)); [by apply Hold|].
    assert (Hd : lfind k zs = Some d) by congruence. unfold g. cbv zeta. destruct (value k ys) as [e|]; [|rewrite <- Hd; by apply sets_same].
    destruct f as [f|]; [|by apply sets_delete]. destruct (f d (Some e)) as [c|]; [|by apply sets_delete]. unfold eq_data. case_bool_decide as E; [|by apply sets_insert].
    rewrite E, <- Hd. by apply sets_same. }
  intros v h' (zs & Hv & Hl). exists zs. split; [by apply fresh_some|]. intros k. rewrite Hl. unfold g. by destruct (lfind k xs).
Qed.
(** C26: [Intersection] makes a new map and leaves every map as it was.  Its
    keys are common to both; the value is that of the smaller map without a
    function, and otherwise what the function gives, but for one case: where
    this is the value of [t], the value of the smaller map stays. *)
Theorem Intersection_spec h t u xs ys f : holds h t xs -> holds h u ys ->
  does (Intersection t u f) (fun v h' => exists zs,
    (holds h' v zs /\ forall w ws, holds h w ws -> holds h' w ws /\ w <> v) /\ forall k, lfind k zs = intersection_entry f xs ys k) h.
Proof. apply Intersection_at. Qed.

(** C25: [Union] gives a map, new or one of its arguments, and leaves every map
    as it was.  A key of one map keeps its value; for a common key the value is
    that of the larger map without a function, and otherwise what the function
    gives, but for one case: where this is the value of [t], the value of the
    larger map stays. *)
Theorem Union_spec h t u xs ys f : holds h t xs -> holds h u ys ->
  does (Union t u f) (fun v h' => exists zs,
    (holds h' v zs /\ forall w ws, holds h w ws -> holds h' w ws) /\ forall k, lfind k zs = union_entry f xs ys k) h.
Proof. apply Union_at. Qed.

(** Without a nil value in the maps the merges mean what they say: a function
    that gives none of its arguments' values back decides the value. *)
Lemma intersection_entry_new f xs ys k (d e c : D) : lfind k xs = Some (Some d) -> lfind k ys = Some (Some e) -> f (Some d) (Some e) = Some c -> c <> d ->
  intersection_entry (Some f) xs ys k = Some (Some c).
Proof.
  intros Hx Hy Hf Hc. unfold intersection_entry, both, put_entry, value, eq_data. rewrite Hx, Hy, Hf.
  rewrite bool_decide_eq_false_2 by congruence. by destruct (_ <=? _).
Qed.
End Merge.

(** The smaller map decides, although the function takes the first value. *)
Theorem Intersection_keeps_smaller : exists xs ys : list (Z * option Z),
  intersection_entry (Some (fun d _ => d)) xs ys 2 = Some (Some 7) /\ lfind 2 xs = Some (Some 20) /\ lfind 2 ys = Some (Some 7).
Proof. exists [(1, Some 10); (2, Some 20)], [(2, Some 7)]. by vm_compute. Qed.

(** ** Witnesses *)

Lemma Intersection_spec_witness : holds example_heap 1%positive [(1, Some 10); (2, Some 20); (3, Some 30)] /\ holds example_heap 5%positive [(2, Some 7)] /\
  does (Intersection 1%positive 5%positive (Some (fun d _ => d))) (fun v h' => exists zs,
    (holds h' v zs /\ forall w ws, holds example_heap w ws -> holds h' w ws /\ w <> v) /\
    forall k, lfind k zs = intersection_entry (Some (fun d _ => d)) [(1, Some 10); (2, Some 20); (3, Some 30)] [(2, Some 7)] k) example_heap.
Proof.
  split; [exact example_holds|]. split; [exact example_single|].
  exact (Intersection_spec example_heap 1%positive 5%positive _ _ (Some (fun d _ => d)) example_holds example_single).
Defined.

Lemma Union_spec_witness : holds example_heap 1%positive [(1, Some 10); (2, Some 20); (3, Some 30)] /\ holds example_heap 5%positive [(2, Some 7)] /\
  does (Union 1%positive 5%positive None) (fun v h' => exists zs,
    (holds h' v zs /\ forall w ws, holds example_heap w ws -> holds h' w ws) /\
    forall k, lfind k zs = union_entry None [(1, Some 10); (2, Some 20); (3, Some 30)] [(2, Some 7)] k) example_heap.
Proof.
  split; [exact example_holds|]. split; [exact example_single|].
  exact (Union_spec example_heap 1%positive 5%positive _ _ None example_holds example_single).
Defined.
