(* ===== verification/Upper.v ===== *)
(** * Upper case letters

    The category Lu of src/src/unicode/tables.go, entry by entry, and [IsUpper]
    of src/src/unicode/letter.go, which the type checker uses for exported names. *)

From S2P Require Import Prelude UnicodeTables Unicode.

#[local] Open Scope Z_scope.

Definition _Lu_R16 : list Range :=
  [R 0x0041 0x005a 1; R 0x00c0 0x00d6 1; R 0x00d8 0x00de 1; R 0x0100 0x0136 2;
   R 0x0139 0x0147 2; R 0x014a 0x0178 2; R 0x0179 0x017d 2; R 0x0181 0x0182 1;
   R 0x0184 0x0186 2; R 0x0187 0x0189 2; R 0x018a 0x018b 1; R 0x018e 0x0191 1;
   R 0x0193 0x0194 1; R 0x0196 0x0198 1; R 0x019c 0x019d 1; R 0x019f 0x01a0 1;
   R 0x01a2 0x01a6 2; R 0x01a7 0x01a9 2; R 0x01ac 0x01ae 2; R 0x01af 0x01b1 2;
   R 0x01b2 0x01b3 1; R 0x01b5 0x01b7 2; R 0x01b8 0x01bc 4; R 0x01c4 0x01cd 3;
   R 0x01cf 0x01db 2; R 0x01de 0x01ee 2; R 0x01f1 0x01f4 3; R 0x01f6 0x01f8 1;
   R 0x01fa 0x0232 2; R 0x023a 0x023b 1; R 0x023d 0x023e 1; R 0x0241 0x0243 2;
   R 0x0244 0x0246 1; R 0x0248 0x024e 2; R 0x0370 0x0372 2; R 0x0376 0x037f 9;
   R 0x0386 0x0388 2; R 0x0389 0x038a 1; R 0x038c 0x038e 2; R 0x038f 0x0391 2;
   R 0x0392 0x03a1 1; R 0x03a3 0x03ab 1; R 0x03cf 0x03d2 3; R 0x03d3 0x03d4 1;
   R 0x03d8 0x03ee 2; R 0x03f4 0x03f7 3; R 0x03f9 0x03fa 1; R 0x03fd 0x042f 1;
   R 0x0460 0x0480 2; R 0x048a 0x04c0 2; R 0x04c1 0x04cd 2; R 0x04d0 0x052e 2;
   R 0x0531 0x0556 1; R 0x10a0 0x10c5 1; R 0x10c7 0x10cd 6; R 0x13a0 0x13f5 1;
   R 0x1c90 0x1cba 1; R 0x1cbd 0x1cbf 1; R 0x1e00 0x1e94 2; R 0x1e9e 0x1efe 2;
   R 0x1f08 0x1f0f 1; R 0x1f18 0x1f1d 1; R 0x1f28 0x1f2f 1; R 0x1f38 0x1f3f 1;
   R 0x1f48 0x1f4d 1; R 0x1f59 0x1f5f 2; R 0x1f68 0x1f6f 1; R 0x1fb8 0x1fbb 1;
   R 0x1fc8 0x1fcb 1; R 0x1fd8 0x1fdb 1; R 0x1fe8 0x1fec 1; R 0x1ff8 0x1ffb 1;
   R 0x2102 0x2107 5; R 0x210b 0x210d 1; R 0x2110 0x2112 1; R 0x2115 0x2119 4;
   R 0x211a 0x211d 1; R 0x2124 0x212a 2; R 0x212b 0x212d 1; R 0x2130 0x2133 1;
   R 0x213e 0x213f 1; R 0x2145 0x2183 62; R 0x2c00 0x2c2f 1; R 0x2c60 0x2c62 2;
   R 0x2c63 0x2c64 1; R 0x2c67 0x2c6d 2; R 0x2c6e 0x2c70 1; R 0x2c72 0x2c75 3;
   R 0x2c7e 0x2c80 1; R 0x2c82 0x2ce2 2; R 0x2ceb 0x2ced 2; R 0x2cf2 0xa640 31054;
   R 0xa642 0xa66c 2; R 0xa680 0xa69a 2; R 0xa722 0xa72e 2; R 0xa732 0xa76e 2;
   R 0xa779 0xa77d 2; R 0xa77e 0xa786 2; R 0xa78b 0xa78d 2; R 0xa790 0xa792 2;
   R 0xa796 0xa7aa 2; R 0xa7ab 0xa7ae 1; R 0xa7b0 0xa7b4 1; R 0xa7b6 0xa7c4 2;
   R 0xa7c5 0xa7c7 1; R 0xa7c9 0xa7d0 7; R 0xa7d6 0xa7d8 2; R 0xa7f5 0xff21 22316;
   R 0xff22 0xff3a 1].

Definition _Lu_R32 : list Range :=
  [R 0x10400 0x10427 1; R 0x104b0 0x104d3 1; R 0x10570 0x1057a 1; R 0x1057c 0x1058a 1;
   R 0x1058c 0x10592 1; R 0x10594 0x10595 1; R 0x10c80 0x10cb2 1; R 0x118a0 0x118bf 1;
   R 0x16e40 0x16e5f 1; R 0x1d400 0x1d419 1; R 0x1d434 0x1d44d 1; R 0x1d468 0x1d481 1;
   R 0x1d49c 0x1d49e 2; R 0x1d49f 0x1d4a5 3; R 0x1d4a6 0x1d4a9 3; R 0x1d4aa 0x1d4ac 1;
   R 0x1d4ae 0x1d4b5 1; R 0x1d4d0 0x1d4e9 1; R 0x1d504 0x1d505 1; R 0x1d507 0x1d50a 1;
   R 0x1d50d 0x1d514 1; R 0x1d516 0x1d51c 1; R 0x1d538 0x1d539 1; R 0x1d53b 0x1d53e 1;
   R 0x1d540 0x1d544 1; R 0x1d546 0x1d54a 4; R 0x1d54b 0x1d550 1; R 0x1d56c 0x1d585 1;
   R 0x1d5a0 0x1d5b9 1; R 0x1d5d4 0x1d5ed 1; R 0x1d608 0x1d621 1; R 0x1d63c 0x1d655 1;
   R 0x1d670 0x1d689 1; R 0x1d6a8 0x1d6c0 1; R 0x1d6e2 0x1d6fa 1; R 0x1d71c 0x1d734 1;
   R 0x1d756 0x1d76e 1; R 0x1d790 0x1d7a8 1; R 0x1d7ca 0x1e900 4406; R 0x1e901 0x1e921 1].

Definition _Lu : RangeTable := MkRangeTable _Lu_R16 _Lu_R32 3.

Definition Upper : RangeTable := _Lu.

Definition IsUpper (r : rune) : bool :=
  if u32 r <=? MaxLatin1 then Z.land (nthZ 0 properties (u8 r)) pLmask =? pLu
  else isExcludingLatin Upper r.

Example upper_agrave : IsUpper 0xC0 = true. Proof. reflexivity. Qed.
Example upper_omega : IsUpper 0x3A9 = true. Proof. vm_compute. reflexivity. Qed.
Example upper_han : IsUpper 0x4E16 = false. Proof. vm_compute. reflexivity. Qed.

Lemma wf_Upper : wf_table Upper = true. Proof. vm_compute. reflexivity. Qed.

(** [IsUpper] is membership in the table of category Lu. *)
Lemma IsUpper_table r : - 2 ^ 31 <= r < 2 ^ 31 -> IsUpper r = in_table Upper r.
Proof.
  apply (latin_split Upper (fun r => Z.land (nthZ 0 properties (u8 r)) pLmask =? pLu));
    [apply wf_Upper|vm_compute; reflexivity].
Qed.
