(* ===== verification/Objects.v ===== *)
(** * src/src/cmd/compile/internal/types2/object.go, objset.go: names of objects

    Packages, names and what identifies an object; the order of methods.  A
    package is its path, no package is [None].  A name is a list of bytes. *)

From Stdlib Require Import Sorting.Sorted.
From S2P Require Import Prelude Utf8 Upper.

#[local] Open Scope Z_scope.

Record object := Object { pkg : option (list byte); name : list byte }.

#[global] Instance object_eq_dec : EqDecision object.
Proof. solve_decision. Defined.

Definition isExported (name : list byte) : bool :=
  let '(ch, _) := DecodeRune name in
  IsUpper ch.

Definition Id (pkg : option (list byte)) (name : list byte) : list byte :=
  if isExported name then name
  else
    let path := bytes_of_string "_" in
    let path := match pkg with Some p => if bool_decide (p = []) then path else p | None => path end in
    path ++ bytes_of_string "." ++ name.

Definition object_Id (obj : object) : list byte := Id (pkg obj) (name obj).

Definition Exported (obj : object) : bool := isExported (name obj).

Definition samePkg (a b : option (list byte)) : bool :=
  match a, b with
  | None, None => true
  | None, _ | _, None => false
  | Some a, Some b => bool_decide (a = b)
  end.

(** [sameId] where case matters ([foldCase] is false). *)
Definition sameId (obj : object) (pkg' : option (list byte)) (name' : list byte) : bool :=
  if negb (bool_decide (name obj = name')) then false
  else if Exported obj then true
  else samePkg (pkg obj) pkg'.

Definition nil_pointer : string := "invalid memory address or nil pointer dereference".

(** [bytealg.CompareString] *)
Fixpoint CompareString (a b : list byte) : Z :=
  match a, b with
  | [], [] => 0
  | [], _ => -1
  | _, [] => 1
  | c1 :: a, c2 :: b => if c1 <? c2 then -1 else if c2 <? c1 then 1 else CompareString a b
  end.

(** [cmp] of objects that are not nil; objects with the same fields count as
    the same pointer, for the other tests give 0 as well. *)
Definition cmp (a b : object) : res string Z :=
  if bool_decide (a = b) then Ok 0
  else
    let ea := isExported (name a) in
    let eb := isExported (name b) in
    if negb (Bool.eqb ea eb) then Ok (if ea then -1 else 1)
    else if negb (bool_decide (name a = name b)) then Ok (CompareString (name a) (name b))
    else if negb ea then
      match pkg a, pkg b with
      | Some p, Some q => Ok (CompareString p q)
      | _, _ => Panic nil_pointer
      end
    else Ok 0.

(** [Func]: a method with its type. *)
Record Func {T : Type} := MkFunc { func_object : object; func_typ : T }.
Arguments Func : clear implicits.
Arguments MkFunc {T}.

Definition func_Id {T} (f : Func T) : list byte := object_Id (func_object f).

(** [objset]: the objects by their ids. *)
Definition objset (T : Type) := list (list byte * Func T).

Fixpoint objset_get {T} (s : objset T) (id : list byte) : option (Func T) :=
  match s with
  | [] => None
  | (i, f) :: s => if bool_decide (i = id) then Some f else objset_get s id
  end.

(** [insert] gives the object that is there with the same id, and the set. *)
Definition insert {T} (s : objset T) (f : Func T) : option (Func T) * objset T :=
  let id := func_Id f in
  match objset_get s id with
  | Some alt => (Some alt, s)
  | None => (None, (id, f) :: s)
  end.

(** [sortMethods]: any sorting compares neighbours of its result, so it meets a
    pair that [cmp] cannot compare if there is one, for only unexported
    objects of one name are such pairs.  Methods of different ids have one
    sorted order. *)
Definition cmp_fails {T} (f g : Func T) : bool :=
  match cmp (func_object f) (func_object g) with Ok _ => false | _ => true end.

Definition cmp_le {T} (f g : Func T) : bool :=
  match cmp (func_object f) (func_object g) with Ok c => c <=? 0 | _ => true end.

Fixpoint insert_sorted {T} (f : Func T) (l : list (Func T)) : list (Func T) :=
  match l with
  | [] => [f]
  | g :: l => if cmp_le f g then f :: g :: l else g :: insert_sorted f l
  end.

Definition sortMethods {T} (list_ : list (Func T)) : res string (list (Func T)) :=
  if existsb (fun f => existsb (cmp_fails f) list_) list_ then Panic nil_pointer
  else Ok (foldr insert_sorted [] list_).

(** ** Properties *)

Lemma CompareString_refl a : CompareString a a = 0.
Proof. induction a as [|c a IH]; cbn; [done|]. by rewrite Z.ltb_irrefl. Qed.

Lemma CompareString_eq a : forall b, CompareString a b = 0 -> a = b.
Proof.
  induction a as [|c a IH]; intros [|d b]; cbn; try done. destruct (c <? d) eqn:E1; [done|]. destruct (d <? c) eqn:E2; [done|].
  intros H. f_equal; [lia|by apply IH].
Qed.

Lemma CompareString_opp a : forall b, CompareString b a = - CompareString a b.
Proof.
  induction a as [|c a IH]; intros [|d b]; cbn; try done. destruct (c <? d) eqn:E1, (d <? c) eqn:E2; try lia. apply IH.
Qed.

Lemma CompareString_trans a : forall b c, CompareString a b <= 0 -> CompareString b c <= 0 -> CompareString a c <= 0.
Proof.
  induction a as [|x a IH]; intros [|y b] [|z c]; cbn; try lia.
  destruct (x <? y) eqn:E1, (y <? x) eqn:E2, (y <? z) eqn:E3, (z <? y) eqn:E4, (x <? z) eqn:E5, (z <? x) eqn:E6; try lia. apply IH.
Qed.

Lemma sortMethods_perm {T} (l r : list (Func T)) : sortMethods l = Ok r -> r ≡ₚ l.
Proof.
  unfold sortMethods. destruct (existsb _ l); [done|]. intros [= <-]. clear.
  assert (I : forall (f : Func T) l, insert_sorted f l ≡ₚ f :: l).
  { intros f l'. induction l' as [|g l' IH]; cbn; [done|]. destruct (cmp_le f g); [done|]. rewrite IH. apply Permutation_swap. }
  induction l as [|f l IH]; cbn; [done|]. by rewrite I, IH.
Qed.

Lemma cmp_opp a b c : cmp a b = Ok c -> cmp b a = Ok (- c).
Proof.
  unfold cmp. destruct (decide (a = b)) as [->|Hn].
  { rewrite bool_decide_eq_true_2 by done. by intros [= <-]. }
  rewrite (bool_decide_eq_false_2 (a = b)), (bool_decide_eq_false_2 (b = a)) by congruence.
  assert (E : bool_decide (name b = name a) = bool_decide (name a = name b)) by (apply bool_decide_ext; split; congruence). rewrite E.
  destruct (isExported (name a)), (isExported (name b)), (bool_decide (name a = name b)), (pkg a), (pkg b); cbn; try done; intros [= <-]; try done.
  all: by rewrite <- CompareString_opp.
Qed.

Lemma cmp_le_total {T} (f g : Func T) : cmp_le f g = false -> cmp_le g f = true.
Proof.
  unfold cmp_le. destruct (cmp (func_object f) (func_object g)) as [c|?|] eqn:E; [|done..].
  rewrite (cmp_opp _ _ _ E). lia.
Qed.

(** The methods come out in their order. *)
Lemma sortMethods_sorted {T} (l r : list (Func T)) : sortMethods l = Ok r -> Sorted (fun f g => cmp_le f g = true) r.
Proof.
  unfold sortMethods. destruct (existsb _ l); [done|]. intros [= <-]. clear.
  assert (I : forall (f : Func T) l, Sorted (fun f g => cmp_le f g = true) l -> Sorted (fun f g => cmp_le f g = true) (insert_sorted f l)).
  { intros f l' H. induction H as [|g l' Hl IH Hg]; cbn; [by repeat constructor|]. destruct (cmp_le f g) eqn:E; [by repeat constructor|].
    constructor; [done|]. apply cmp_le_total in E. destruct l' as [|h l']; cbn; [by constructor|].
    destruct (cmp_le f h); constructor; [done|]. by inversion_clear Hg. }
  induction l as [|f l IH]; cbn; [constructor|by apply I].
Qed.
