(* ===== verification/Terms.v ===== *)
(** * src/src/cmd/compile/internal/types2/typeterm.go: terms of type sets

    The operations on terms, over any types of the class [TypeOps], and the
    class [TypeLaws] of what they rely on.  Types.v makes instances of both. *)

From S2P Require Import Prelude.

#[local] Open Scope Z_scope.

(** What terms and type sets need of the type checker: identity of types,
    underlying types, strict comparability
    ([comparableType(t, false, nil) == nil]), the tests for
    interfaces and valid types, aliases and names. *)
Class TypeOps := {
  type_ : Type;
  Identical : type_ -> type_ -> bool;
  under : type_ -> type_;
  Unalias : type_ -> type_;
  comparable_type : type_ -> bool;
  IsInterface : type_ -> bool;
  isValid : type_ -> bool;
  type_String : type_ -> string }.

Section Terms.
Context {Ops : TypeOps}.

(** [term]; a nil type is [None], and so is a nil pointer to a term. *)
Record term := Term { tilde : bool; typ : option type_ }.

Definition String_ (x : option term) : string :=
  match x with
  | None => "∅"
  | Some x =>
      match typ x with
      | None => "𝓤"
      | Some t => if tilde x then "~" +:+ type_String t else type_String t
      end
  end.

(** [debug] is false, so there is no check of the arguments. *)
Definition disjoint (x y : bool * type_) : bool :=
  let '(xtilde, xtyp) := x in
  let '(ytilde, ytyp) := y in
  let ux := if ytilde : bool then under xtyp else xtyp in
  let uy := if xtilde : bool then under ytyp else ytyp in
  negb (Identical ux uy).

Definition equal (x y : option term) : bool :=
  match x, y with
  | None, None => true
  | None, _ | _, None => false
  | Some x, Some y =>
      match typ x, typ y with
      | None, None => true
      | None, _ | _, None => false
      | Some t, Some u => Bool.eqb (tilde x) (tilde y) && Identical t u
      end
  end.

Definition union (x y : option term) : option term * option term :=
  match x, y with
  | None, None => (None, None)
  | None, _ => (y, None)
  | _, None => (x, None)
  | Some x', Some y' =>
      match typ x', typ y' with
      | None, _ => (x, None)
      | _, None => (y, None)
      | Some t, Some u =>
          if disjoint (tilde x', t) (tilde y', u) then (x, y)
          else if tilde x' || negb (tilde y') then (x, None)
          else (y, None)
      end
  end.

Definition intersect (x y : option term) : option term :=
  match x, y with
  | None, _ | _, None => None
  | Some x', Some y' =>
      match typ x', typ y' with
      | None, _ => y
      | _, None => x
      | Some t, Some u =>
          if disjoint (tilde x', t) (tilde y', u) then None
          else if negb (tilde x') || tilde y' then x
          else y
      end
  end.

Definition includes (x : option term) (t : type_) : bool :=
  match x with
  | None => false
  | Some x =>
      match typ x with
      | None => true
      | Some xtyp =>
          let u := t in
          let u := if tilde x then under u else u in
          Identical xtyp u
      end
  end.

Definition subsetOf (x y : option term) : bool :=
  match x, y with
  | None, _ => true
  | _, None => false
  | Some x', Some y' =>
      match typ y', typ x' with
      | None, _ => true
      | _, None => false
      | Some u, Some t =>
          if disjoint (tilde x', t) (tilde y', u) then false
          else negb (tilde x') || tilde y'
      end
  end.
End Terms.

(** What the operations rely on: identity is an equivalence that underlying
    types and comparability respect, an underlying type is its own one.  [ok]
    leaves out types that are not set up, and arrays of unknown length, which
    are identical to arrays of any length. *)
Class TypeLaws (O : TypeOps) := {
  ok : type_ -> Prop;
  Identical_refl t : ok t -> Identical t t = true;
  Identical_sym t u : ok t -> ok u -> Identical t u = true -> Identical u t = true;
  Identical_trans t u v : ok t -> ok u -> ok v -> Identical t u = true -> Identical u v = true -> Identical t v = true;
  under_ok t : ok t -> ok (under t);
  under_under t : ok t -> Identical (under (under t)) (under t) = true;
  under_Identical t u : ok t -> ok u -> Identical t u = true -> Identical (under t) (under u) = true;
  Unalias_ok t : ok t -> ok (Unalias t);
  Unalias_Identical t : ok t -> Identical (Unalias t) t = true;
  comparable_Identical t u : ok t -> ok u -> Identical t u = true -> comparable_type t = comparable_type u;
  comparable_under t : ok t -> comparable_type (under t) = comparable_type t }.

(** New types can always be declared: a type literal that differs from given
    types, and a defined type with a given underlying type. *)
Class TypeRich (O : TypeOps) (L : TypeLaws O) := {
  fresh_literal (l : list type_) : Forall ok l -> exists t, ok t /\ Identical t (under t) = true /\ Forall (fun u => Identical t u = false) l;
  fresh_name (t : type_) (l : list type_) : ok t -> Identical t (under t) = true -> Forall ok l ->
    exists n, ok n /\ Identical t (under n) = true /\ Forall (fun u => Identical n u = false) l }.
