(* ===== verification/Termlists.v ===== *)
(** * src/src/cmd/compile/internal/types2/termlist.go: unions of terms

    A term list stands for the union of its terms.  A nil element is [None], a
    nil slice is the empty list: no operation tells them apart.  No result
    shares its elements' places with an argument, for [norm] makes a new list
    but for [allTermlist], which nothing writes to. *)

From S2P Require Import Prelude.
From S2P Require Terms.

#[local] Open Scope Z_scope.

Section Termlists.
Context {Ops : Terms.TypeOps}.
Abbreviation term := Terms.term.

Definition termlist := list (option term).

Definition allTermlist : termlist := [Some (Terms.Term false None)].

Definition termSep : string := " | ".

Fixpoint String_loop (i : nat) (xl : termlist) (buf : string) : string :=
  match xl with
  | [] => buf
  | x :: xl =>
      let buf := if (0 <? i)%nat then buf +:+ termSep else buf in
      String_loop (S i) xl (buf +:+ Terms.String_ x)
  end.

Definition String_ (xl : termlist) : string :=
  if lenZ xl =? 0 then "∅" else String_loop 0 xl "".

Fixpoint isEmpty (xl : termlist) : bool :=
  match xl with
  | [] => true
  | x :: xl => if is_some x then false else isEmpty xl
  end.

Fixpoint isAll (xl : termlist) : bool :=
  match xl with
  | [] => false
  | Some x :: xl => if is_some (Terms.typ x) then isAll xl else true
  | None :: xl => isAll xl
  end.

Definition used_at (used : list bool) (i : nat) : bool := default false (used !! i).

(** The loop of [norm] over j, for the n elements from the j-th one on: the
    term that the i-th one has become, with the marks, or [None] where the
    result is [allTermlist].  The union of two terms that are not nil is not
    nil. *)
Fixpoint norm_inner (xl : termlist) (n j : nat) (xi : term) (used : list bool) : option (term * list bool) :=
  match n with
  | O => Some (xi, used)
  | S n =>
      match xl !! j with
      | Some (Some xj) =>
          if used_at used j then norm_inner xl n (S j) xi used
          else
            match Terms.union (Some xi) (Some xj) with
            | (Some u1, None) =>
                if is_some (Terms.typ u1) then norm_inner xl n (S j) u1 (<[j := true]> used)
                else None
            | _ => norm_inner xl n (S j) xi used
            end
      | _ => norm_inner xl n (S j) xi used
      end
  end.

(** The loop over i, for the n elements from the i-th one on. *)
Fixpoint norm_outer (xl : termlist) (n i : nat) (used : list bool) (rl : termlist) : termlist :=
  match n with
  | O => rl
  | S n =>
      match xl !! i with
      | Some (Some xi) =>
          if used_at used i then norm_outer xl n (S i) used rl
          else
            match norm_inner xl (length xl - S i) (S i) xi used with
            | None => allTermlist
            | Some (xi, used) => norm_outer xl n (S i) used (rl ++ [Some xi])
            end
      | _ => norm_outer xl n (S i) used rl
      end
  end.

Definition norm (xl : termlist) : termlist :=
  norm_outer xl (length xl) 0 (replicate (length xl) false) [].

Definition union (xl yl : termlist) : termlist := norm (xl ++ yl).

Definition intersect (xl yl : termlist) : termlist :=
  if isEmpty xl || isEmpty yl then []
  else
    let rl := concat (map (fun x => concat (map (fun y => match Terms.intersect x y with Some r => [Some r] | None => [] end) yl)) xl) in
    norm rl.

Fixpoint includes (xl : termlist) (t : Terms.type_) : bool :=
  match xl with
  | [] => false
  | x :: xl => if Terms.includes x t then true else includes xl t
  end.

Fixpoint supersetOf (xl : termlist) (y : option term) : bool :=
  match xl with
  | [] => false
  | x :: xl => if Terms.subsetOf y x then true else supersetOf xl y
  end.

Fixpoint subsetOf_loop (xl yl : termlist) : bool :=
  match xl with
  | [] => true
  | x :: xl => if negb (supersetOf yl x) then false else subsetOf_loop xl yl
  end.

Definition subsetOf (xl yl : termlist) : bool :=
  if isEmpty yl then isEmpty xl else subsetOf_loop xl yl.

Definition equal (xl yl : termlist) : bool := subsetOf xl yl && subsetOf yl xl.
End Termlists.
