(* ===== verification/TypeSets.v ===== *)
(** * src/src/cmd/compile/internal/types2/typeset.go, union.go: type sets

    The type sets of interfaces, what is asked of them, and how they are
    computed from the methods and the embedded elements of an interface.
    [assert] panics. *)

From S2P Require Import Prelude.
From S2P Require Terms Termlists Objects Tokens Nodes.

#[local] Open Scope Z_scope.
#[local] Open Scope go_scope.

Section TypeSets.
Context {Ops : Terms.TypeOps}.
Abbreviation Func := (Objects.Func Terms.type_).
Abbreviation term := Terms.term.
Abbreviation termlist := Termlists.termlist.

(** [_TypeSet] *)
Record TypeSet := MkTypeSet { methods : list Func; terms : termlist; comparable : bool }.

Definition IsEmpty (s : TypeSet) : bool := Termlists.isEmpty (terms s).

Definition IsMethodSet (s : TypeSet) : bool := negb (comparable s) && Termlists.isAll (terms s).

Definition IsAll (s : TypeSet) : bool := IsMethodSet s && (lenZ (methods s) =? 0).

Definition NumMethods (s : TypeSet) : Z := lenZ (methods s).

Definition hasTerms (s : TypeSet) : bool := negb (Termlists.isEmpty (terms s)) && negb (Termlists.isAll (terms s)).

Definition subsetOf (s1 s2 : TypeSet) : bool := Termlists.subsetOf (terms s1) (terms s2).

Definition assertion : string := "assertion failed".

(** The calls that [typeset] makes: the pairs of types until [yield] answers
    false. *)
Fixpoint typeset_loop (l : termlist) (yield : option Terms.type_ -> option Terms.type_ -> bool) : res string (list (option Terms.type_ * option Terms.type_)) :=
  match l with
  | [] => Ok []
  | None :: _ => Panic Objects.nil_pointer
  | Some t :: l =>
      match Terms.typ t with
      | None => Panic assertion
      | Some ttyp =>
          let u := Terms.Unalias ttyp in
          let u := if negb (Terms.tilde t) then Terms.under u else u in
          if negb (yield (Some ttyp) (Some u)) then Ok [(Some ttyp, Some u)]
          else
            match typeset_loop l yield with
            | Ok calls => Ok ((Some ttyp, Some u) :: calls)
            | r => r
            end
      end
  end.

Definition typeset (s : TypeSet) (yield : option Terms.type_ -> option Terms.type_ -> bool) : res string (list (option Terms.type_ * option Terms.type_)) :=
  if negb (hasTerms s) then Ok [(None, None)]
  else typeset_loop (terms s) yield.

Fixpoint is_loop (l : termlist) (f : option term -> bool) : res string bool :=
  match l with
  | [] => Ok true
  | None :: _ => Panic Objects.nil_pointer
  | Some t :: l =>
      if is_some (Terms.typ t) then
        if negb (f (Some t)) then Ok false else is_loop l f
      else Panic assertion
  end.

Definition is_ (s : TypeSet) (f : option term -> bool) : res string bool :=
  if negb (hasTerms s) then Ok (f None)
  else is_loop (terms s) f.

(** Comparability of the specific types of a set, each on its own
    ([IsComparable(nil)]). *)
Definition IsComparable (s : TypeSet) : res string bool :=
  if Termlists.isAll (terms s) then Ok (comparable s)
  else
    is_ s (fun t =>
      match t with
      | None => false
      | Some t => match Terms.typ t with Some ttyp => Terms.comparable_type ttyp | None => false end
      end).

Definition topTypeSet : TypeSet := MkTypeSet [] Termlists.allTermlist false.

(** The loop that keeps the comparable terms. *)
Fixpoint keep_comparable (l : termlist) : res string termlist :=
  match l with
  | [] => Ok []
  | None :: _ => Panic Objects.nil_pointer
  | Some t :: l =>
      match Terms.typ t with
      | None => Panic assertion
      | Some ttyp =>
          match keep_comparable l with
          | Ok l => Ok (if Terms.comparable_type ttyp then Some t :: l else l)
          | r => r
          end
      end
  end.

Definition intersectTermLists (xterms : termlist) (xcomp : bool) (yterms : termlist) (ycomp : bool) : res string (termlist * bool) :=
  let terms := Termlists.intersect xterms yterms in
  let comp := xcomp || ycomp in
  let checked '(terms, comp) := if negb comp || Termlists.isAll terms then Ok (terms, comp) else Panic assertion in
  if comp && negb (Termlists.isAll terms) then
    match keep_comparable terms with
    | Ok terms => checked (terms, if negb (Termlists.isAll terms) then false else comp)
    | Panic v => Panic v
    | NoFuel => NoFuel
    end
  else checked (terms, comp).

(** ** Computing type sets *)

(** An interface, as [computeInterfaceTypeSet] sees it: with its type set
    computed, not yet set up, or with its methods and embedded elements, of
    which it matters whether the position is known, whether the underlying type
    is an interface (and a constraint of another package), a union or another
    type.  Type parameters are not embedded, and no interface embeds itself,
    which the type checker reports before. *)
Inductive iface : Type :=
| Known (tset : TypeSet)
| Incomplete
| Interface (imethods : list Func) (embeddeds : list element)
with element : Type :=
| EInterface (pos : bool) (imported : bool) (i : iface)
| EUnion (pos : bool) (uterms : list uterm)
| EType (pos : bool) (typ : Terms.type_)
with uterm : Type :=
| UInterface (i : iface)
| UType (tilde : bool) (typ : Terms.type_).

(** The checker, where there is one: the language versions that it allows. *)
Record Checker := MkChecker { allow1_14 : bool; allow1_18 : bool }.

(** What goes to the checker: errors, and the checks of duplicate methods that
    it makes later. *)
Inductive event :=
| EVersion
| EDuplicate (m other : Func)
| ELater (pos : bool) (m other : Func)
| ETooManyTerms.

Definition maxTermCount : Z := 100.

Section Compute.
Context (checks : option Checker).

Definition M (A : Type) : Type := GM string event unit A.

Definition lift {A} (r : res string A) : M A := fun s => match r with Ok a => Ok (a, s, []) | Panic v => Panic v | NoFuel => NoFuel end.

Definition verifyVersionf (c : Checker) : M bool :=
  if negb (allow1_18 c) then emit EVersion;;; ret false else ret true.

(** [pos.IsKnown() && checks != nil && !checks.verifyVersionf(...)] *)
Definition version_error (pos : bool) : M bool :=
  match checks with
  | Some c => if pos then let* b := verifyVersionf c in ret (negb b) else ret false
  | None => ret false
  end.

(** The variables seen and allMethods. *)
Definition collected : Type := Objects.objset Terms.type_ * list Func.

Definition addMethod (st : collected) (pos : bool) (m : Func) (explicit : bool) : M collected :=
  let '(seen, allMethods) := st in
  let '(other, seen) := Objects.insert seen m in
  match other with
  | None => ret (seen, allMethods ++ [m])
  | Some other =>
      if explicit then (when is_some checks do emit (EDuplicate m other));;; ret (seen, allMethods)
      else (when is_some checks do emit (ELater pos m other));;; ret (seen, allMethods)
  end.

Fixpoint addMethods (st : collected) (pos : bool) (ms : list Func) (explicit : bool) : M collected :=
  match ms with
  | [] => ret st
  | m :: ms => let* st := addMethod st pos m explicit in addMethods st pos ms explicit
  end.

(** The loop variables seen, allMethods, allTerms and allComparable. *)
Definition loop_state : Type := collected * termlist * bool.

Definition intersected (st : loop_state) (c : collected) (terms : termlist) (comparable : bool) : M loop_state :=
  let '(_, allTerms, allComparable) := st in
  let* r := lift (intersectTermLists allTerms allComparable terms comparable) in
  let '(allTerms, allComparable) := r in
  ret (c, allTerms, allComparable).

Fixpoint computeInterfaceTypeSet (ityp : iface) : M TypeSet :=
  match ityp with
  | Known tset => ret tset
  | Incomplete => ret topTypeSet
  | Interface imethods embeddeds =>
      let* c := addMethods ([], []) true imethods true in
      let* st :=
        (fix loop (l : list element) (st : loop_state) : M loop_state :=
           match l with
           | [] => ret st
           | e :: l =>
               let* st := computeElement e st in
               loop l st
           end) embeddeds (c, Termlists.allTermlist, false) in
      let '(c, allTerms, allComparable) := st in
      let* allMethods := lift (Objects.sortMethods (snd c)) in
      ret (MkTypeSet allMethods allTerms allComparable)
  end
with computeElement (e : element) (st : loop_state) : M loop_state :=
  let '(c, allTerms, allComparable) := st in
  match e with
  | EInterface pos imported u =>
      let* tset := computeInterfaceTypeSet u in
      let* skip := if imported then version_error pos else ret false in
      if skip : bool then ret st
      else
        let* c := addMethods c pos (methods tset) false in
        intersected st c (terms tset) (comparable tset)
  | EUnion pos uterms =>
      let* skip := version_error pos in
      if skip : bool then ret st
      else
        let* tset :=
          (fix loop (l : list uterm) (allTerms : termlist) : M (option termlist) :=
             match l with
             | [] => ret (Some allTerms)
             | t :: l =>
                 let* terms := computeUnionTerm t in
                 match terms with
                 | None => loop l allTerms
                 | Some terms =>
                     let allTerms := Termlists.union allTerms terms in
                     if maxTermCount <? lenZ allTerms then
                       (when is_some checks do emit ETooManyTerms);;; ret None
                     else loop l allTerms
                 end
             end) uterms [] in
        match tset with
        | None => ret st
        | Some terms => intersected st c terms false
        end
  | EType pos typ =>
      if negb (Terms.isValid (Terms.under typ)) then ret st
      else
        let* skip := version_error pos in
        if skip : bool then ret st
        else intersected st c [Some (Terms.Term false (Some typ))] false
  end
with computeUnionTerm (t : uterm) : M (option termlist) :=
  match t with
  | UInterface ui => let* tset := computeInterfaceTypeSet ui in ret (Some (terms tset))
  | UType tilde typ =>
      let u := Terms.under typ in
      if negb (Terms.isValid u) then ret None
      else if tilde && negb (Terms.Identical typ u) then ret (Some [None])
      else ret (Some [Some (Terms.Term tilde (Some typ))])
  end.
(** What [checks.later] does for two embedded methods with one id. *)
Definition run_later (c : Checker) (pos : bool) (m other : Func) : M unit :=
  when (pos && negb (allow1_14 c)) || negb (Terms.Identical (Objects.func_typ m) (Objects.func_typ other)) do
    emit (EDuplicate m other).
End Compute.

(** ** union.go *)

(** [overlappingTerm]: the index of the first term that is not disjoint from y,
    or -1. *)
Fixpoint overlappingTerm_loop (i : Z) (l : list (bool * Terms.type_)) (y : bool * Terms.type_) : Z :=
  match l with
  | [] => -1
  | x :: l =>
      if Terms.IsInterface (snd x) then overlappingTerm_loop (i + 1) l y
      else if negb (Terms.disjoint x y) then i
      else overlappingTerm_loop (i + 1) l y
  end.

Definition overlappingTerm (l : list (bool * Terms.type_)) (y : bool * Terms.type_) : res string Z :=
  if negb (Terms.IsInterface (snd y)) then Ok (overlappingTerm_loop 0 l y) else Panic assertion.
End TypeSets.

(** [flattenUnion]: the operations of a union and its operands. *)
Fixpoint flattenUnion (list_ : list Nodes.expr) (x : Nodes.expr) : list Nodes.expr * list (option Nodes.expr) :=
  match x with
  | Nodes.Operation _ Tokens.Or X Y =>
      let '(blist, tlist) := flattenUnion list_ X in
      let blist := blist ++ [x] in
      (blist, tlist ++ [Y])
  | _ => ([], [Some x])
  end.
