(* ===== verification/TermFacts.v ===== *)
(** * What terms denote

    A term stands for the types that it [includes]; the operations on terms are
    those on sets. *)

From Stdlib Require Import Morphisms.
From S2P Require Import Prelude Terms.

#[local] Open Scope Z_scope.

Section Facts.
Context {Ops : TypeOps} {L : TypeLaws Ops}.
Implicit Types (t u v : type_) (x y z : option term).

(** Identity of types, as an equivalence on those that are set up. *)
Definition same t u : Prop := Identical t u = true.

Lemma same_refl t : ok t -> same t t.
Proof. apply Identical_refl. Qed.
Lemma same_sym t u : ok t -> ok u -> same t u -> same u t.
Proof. apply Identical_sym. Qed.
Lemma same_trans t u v : ok t -> ok u -> ok v -> same t u -> same u v -> same t v.
Proof. apply Identical_trans. Qed.
Lemma same_under t u : ok t -> ok u -> same t u -> same (under t) (under u).
Proof. apply under_Identical. Qed.
Lemma same_under_under t : ok t -> same (under (under t)) (under t).
Proof. apply under_under. Qed.

Lemma Identical_comm t u : ok t -> ok u -> Identical t u = Identical u t.
Proof. intros Ht Hu. apply eq_true_iff_eq. split; by apply Identical_sym. Qed.

(** Identical types are identical to the same types. *)
Lemma Identical_same t u v : ok t -> ok u -> ok v -> same t u -> Identical t v = Identical u v.
Proof.
  intros Ht Hu Hv E. apply eq_true_iff_eq. split; intros F.
  - apply (same_trans u t v); auto using same_sym.
  - by apply (same_trans t u v).
Qed.

(** A term is well-formed if its type is set up, and after a tilde its own
    underlying type, as the language demands. *)
Definition wf (x : term) : Prop :=
  match typ x with
  | None => True
  | Some t => ok t /\ (tilde x = true -> same t (under t))
  end.
Definition wf_opt x : Prop := match x with Some x => wf x | None => True end.

(** The types of a term with the type t. *)
Definition inside (b : bool) t u : bool := Identical t (if b then under u else u).

Lemma includes_eq b t u : includes (Some (Term b (Some t))) u = inside b t u.
Proof. by destruct b. Qed.

(** Terms that are not disjoint have the same underlying type, and where one
    has no tilde its type is in the other. *)
Lemma not_disjoint b t c u : ok t -> ok u -> (b = true -> same t (under t)) -> (c = true -> same u (under u)) ->
  disjoint (b, t) (c, u) = false ->
  same (under t) (under u) /\ (b = true -> same t (under u)) /\ (c = true -> same u (under t)) /\ (b = false -> c = false -> same t u).
Proof.
  intros Ht Hu Hb Hc H. apply negb_false_iff in H. change (same (if c then under t else t) (if b then under u else u)) in H.
  pose proof (under_ok _ Ht). pose proof (under_ok _ Hu).
  destruct b, c; repeat match goal with K : true = true -> _ |- _ => specialize (K eq_refl) end; split_and!; try done; intros.
  - apply (same_trans t (under t) (under u)); auto.
  - apply (same_trans u (under u) (under t)); auto using same_sym.
  - apply (same_trans (under t) (under (under u)) (under u)); auto using under_ok, same_under, same_under_under.
  - apply (same_trans (under t) (under (under t)) (under u)); auto using under_ok, same_sym, same_under, same_under_under.
  - by apply same_sym.
  - by apply same_under.
Qed.

Lemma under_same_trans t u v : ok t -> ok u -> ok v -> same (under t) (under u) -> same u (under v) -> same (under t) (under v).
Proof.
  intros Ht Hu Hv H K. pose proof (under_ok _ Ht). pose proof (under_ok _ Hu). pose proof (under_ok _ Hv).
  apply (same_trans _ (under u)); auto.
  apply (same_trans _ (under (under v))); auto using under_ok, same_under, same_under_under.
Qed.

(** Inclusion of terms with types, by their tildes. *)
Lemma inside_sub b t c u v : ok t -> ok u -> ok v -> (b = true -> same t (under t)) -> (c = true -> same u (under u)) ->
  disjoint (b, t) (c, u) = false -> negb b || c = true -> inside b t v = true -> inside c u v = true.
Proof.
  intros Ht Hu Hv Hb Hc Hd Hbc Hi. destruct (not_disjoint b t c u Ht Hu Hb Hc Hd) as (H1 & H2 & H3 & H4).
  pose proof (under_ok _ Ht). pose proof (under_ok _ Hu). pose proof (under_ok _ Hv).
  unfold inside in *. destruct b, c; try done.
  - apply (same_trans u (under t) (under v)); auto. apply (same_trans _ t); auto using same_sym.
  - specialize (H3 eq_refl). apply (same_trans u (under t) (under v)); auto. by apply same_under.
  - apply (same_trans u t v); auto. apply same_sym; auto.
Qed.

Lemma disjoint_comm b t c u : ok t -> ok u -> disjoint (b, t) (c, u) = disjoint (c, u) (b, t).
Proof. intros Ht Hu. unfold disjoint. f_equal. apply Identical_comm; destruct b, c; by try apply under_ok. Qed.

(** A type in two terms shows that they are not disjoint. *)
Lemma disjoint_none b t c u v : ok t -> ok u -> ok v -> (b = true -> same t (under t)) -> (c = true -> same u (under u)) ->
  disjoint (b, t) (c, u) = true -> inside b t v = true -> inside c u v = false.
Proof.
  intros Ht Hu Hv Hb Hc Hd Hi. apply not_true_is_false. intros Hj. apply negb_true_iff in Hd. apply not_true_iff_false in Hd. apply Hd.
  pose proof (under_ok _ Ht). pose proof (under_ok _ Hu). pose proof (under_ok _ Hv).
  unfold inside in *. change (same (if c then under t else t) (if b then under u else u)).
  destruct b, c.
  - specialize (Hb eq_refl). specialize (Hc eq_refl). apply (same_trans _ t); auto using same_sym. apply (same_trans _ (under v)); auto.
    apply (same_trans _ u); auto using same_sym.
  - apply (same_trans _ (under v)); auto. apply same_under; auto using same_sym.
  - apply (same_trans _ (under v)); auto using same_sym. by apply same_under.
  - apply (same_trans _ v); auto using same_sym.
Qed.

Ltac cases x y :=
  let bx := fresh "b" in let tx := fresh "t" in let by_ := fresh "c" in let ty := fresh "u" in
  destruct x as [[bx [tx|]]|], y as [[by_ [ty|]]|].

Lemma union_includes x y v : wf_opt x -> wf_opt y -> ok v ->
  includes (fst (union x y)) v || includes (snd (union x y)) v = includes x v || includes y v.
Proof.
  intros Hx Hy Hv. cases x y; cbn [union typ fst snd]; rewrite ?orb_false_r, ?orb_true_r; try done.
  destruct Hx as [Ht Hb], Hy as [Hu Hc]. cbn [tilde typ] in *. destruct (disjoint _ _) eqn:Hd; [done|].
  destruct (b || negb c) eqn:E; cbn [fst snd]; rewrite !includes_eq; cbn [includes]; rewrite orb_false_r.
  - destruct (inside c u v) eqn:I; [|by rewrite orb_false_r]. rewrite orb_true_r.
    apply (inside_sub c u b t); [done..| |by rewrite orb_comm|done]. by rewrite disjoint_comm.
  - destruct (inside b t v) eqn:I; [|done]. apply (inside_sub b t c u); try done. by destruct b, c.
Qed.

Lemma intersect_includes x y v : wf_opt x -> wf_opt y -> ok v -> includes (intersect x y) v = includes x v && includes y v.
Proof.
  intros Hx Hy Hv. cases x y; cbn [intersect typ]; rewrite ?andb_false_r, ?andb_true_r; try done.
  destruct Hx as [Ht Hb], Hy as [Hu Hc]. cbn [tilde typ] in *. destruct (disjoint _ _) eqn:Hd.
  - rewrite !includes_eq. destruct (inside b t v) eqn:I; [|done]. symmetry. by apply (disjoint_none b t c u).
  - destruct (negb b || c) eqn:E; rewrite !includes_eq.
    + destruct (inside b t v) eqn:I; [|done]. symmetry. by apply (inside_sub b t c u).
    + destruct (inside c u v) eqn:I; [|by rewrite andb_false_r]. rewrite andb_true_r. symmetry.
      apply (inside_sub c u b t); try done; [by rewrite disjoint_comm|by destruct b, c].
Qed.

Lemma subsetOf_sound x y v : wf_opt x -> wf_opt y -> ok v -> subsetOf x y = true -> includes x v = true -> includes y v = true.
Proof.
  intros Hx Hy Hv. cases x y; cbn [subsetOf typ]; try done.
  destruct Hx as [Ht Hb], Hy as [Hu Hc]. cbn [tilde typ] in *. destruct (disjoint _ _) eqn:Hd; [done|].
  intros E. rewrite !includes_eq. by apply (inside_sub b t c u).
Qed.

(** The type of a term is in it. *)
Lemma includes_own b t : wf (Term b (Some t)) -> includes (Some (Term b (Some t))) t = true.
Proof. intros [Ht Hb]. rewrite includes_eq. unfold inside. destruct b; [by apply Hb|by apply same_refl]. Qed.

Lemma disjoint_iff b t c u : wf (Term b (Some t)) -> wf (Term c (Some u)) ->
  disjoint (b, t) (c, u) = true <-> forall v, ok v -> includes (Some (Term b (Some t))) v && includes (Some (Term c (Some u))) v = false.
Proof.
  intros Hx Hy. split.
  - intros Hd v Hv. rewrite !includes_eq. destruct Hx as [Ht Hb], Hy as [Hu Hc]. destruct (inside b t v) eqn:I; [|done]. by apply (disjoint_none b t c u).
  - intros H. apply not_false_is_true. intros Hd. pose proof (includes_own _ _ Hx) as Ix. pose proof (includes_own _ _ Hy) as Iy.
    destruct Hx as [Ht Hb], Hy as [Hu Hc]. cbn [typ tilde] in *. rewrite includes_eq in *. destruct (negb b || c) eqn:E.
    + specialize (H t Ht). rewrite !includes_eq, Ix in H. by rewrite (inside_sub b t c u t) in H.
    + specialize (H u Hu). rewrite !includes_eq, Iy, andb_true_r in H. rewrite (inside_sub c u b t u) in H; try done; [by rewrite disjoint_comm|by destruct b, c].
Qed.

Lemma own_subsetOf b t y : wf (Term b (Some t)) -> wf_opt y -> negb b || match y with Some (Term c (Some _)) => c | _ => true end = true ->
  includes y t = true -> subsetOf (Some (Term b (Some t))) y = true.
Proof.
  intros Hx Hy Hb Hi. destruct y as [[c [u|]]|]; cbn [subsetOf typ tilde]; [|done|done].
  destruct (disjoint _ _) eqn:Hd; [|done]. rewrite disjoint_iff in Hd by done.
  specialize (Hd t (proj1 Hx)). by rewrite includes_own, Hi in Hd.
Qed.

(** The types and underlying types of terms. *)
Definition type_of (y : option term) : list type_ :=
  match y with Some (Term _ (Some u)) => [u; under u] | _ => [] end.

Lemma types_of_ok ys : Forall wf_opt ys -> Forall ok (concat (map type_of ys)).
Proof.
  intros H. apply Forall_concat, Forall_fmap. revert H. apply Forall_impl. intros [[c [u|]]|]; cbn; try done.
  intros [Hu _]. repeat constructor; auto using under_ok.
Qed.

Lemma in_types_of (P : type_ -> Prop) ys c u : Forall P (concat (map type_of ys)) -> In (Some (Term c (Some u))) ys -> P u /\ P (under u).
Proof.
  intros H Hin. rewrite Forall_concat, Forall_fmap, Forall_forall in H.
  specialize (H _ Hin). cbn in H. by inversion_clear H as [|?? H1 H2]; inversion_clear H2.
Qed.

(** Every term has a type that is in no term but those that include it whole. *)
Lemma separating `{R : !TypeRich Ops L} (x : term) ys : wf x -> Forall wf_opt ys ->
  exists v, ok v /\ includes (Some x) v = true /\ forall y, In y ys -> includes y v = true -> subsetOf (Some x) y = true.
Proof.
  intros Hx Hys. pose proof (types_of_ok _ Hys) as Hok. destruct x as [b [t|]]; [destruct b|].
  - destruct Hx as [Ht Hb]. specialize (Hb eq_refl). destruct (fresh_name t _ Ht Hb Hok) as (n & Hn & Hu & Hl).
    exists n. split_and!; [done|by rewrite includes_eq|]. intros [[c [u|]]|] Hin Hi; try done.
    destruct (in_types_of _ _ _ _ Hl Hin) as [Hnu _]. pose proof (proj1 (Forall_forall _ _) Hys _ Hin) as [Huo Hc].
    cbn [typ tilde subsetOf] in *. rewrite includes_eq in Hi. destruct c; [|by unfold inside in Hi; rewrite Identical_comm, Hi in Hnu].
    destruct (disjoint _ _) eqn:Hd; [|done]. pose proof (under_ok _ Hn) as Hun.
    assert (K : inside true u n = false) by (by apply (disjoint_none true t true u)). congruence.
  - exists t. split_and!; [exact (proj1 Hx)|by apply includes_own|].
    intros y Hin Hi. apply own_subsetOf; try done. by apply (proj1 (Forall_forall _ _) Hys).
  - destruct (fresh_literal _ Hok) as (n & Hn & Hu & Hl). exists n. split_and!; [done|done|]. intros [[c [u|]]|] Hin Hi; try done.
    destruct (in_types_of _ _ _ _ Hl Hin) as [H1 _]. pose proof (proj1 (Forall_forall _ _) Hys _ Hin) as [Huo _].
    cbn [typ tilde] in *. rewrite includes_eq in Hi. unfold inside in Hi. rewrite Identical_comm in H1 by done.
    destruct c; [|congruence]. pose proof (under_ok _ Hn) as Hun.
    assert (K : same u n) by (apply (same_trans u (under n) n); auto using same_sym). unfold same in K. congruence.
Qed.

Lemma subsetOf_iff `{R : !TypeRich Ops L} x y : wf_opt x -> wf_opt y ->
  subsetOf x y = true <-> forall v, ok v -> includes x v = true -> includes y v = true.
Proof.
  intros Hx Hy. split; [intros H v Hv; by apply subsetOf_sound|]. intros H. destruct x as [x|]; [|done].
  destruct (separating x [y] Hx ltac:(by repeat constructor)) as (v & Hv & Hi & Hs). apply Hs; [by left|]. by apply H.
Qed.

(** ** The claims *)

(** The operations on terms are those on the sets of types that they stand
    for: union, intersection and disjointness; and inclusion, where new types
    can always be declared. *)
Theorem term_operations `{R : !TypeRich Ops L} x y : wf_opt x -> wf_opt y ->
  (forall v, ok v -> includes (fst (union x y)) v || includes (snd (union x y)) v = includes x v || includes y v) /\
  (forall v, ok v -> includes (intersect x y) v = includes x v && includes y v) /\
  (subsetOf x y = true <-> forall v, ok v -> includes x v = true -> includes y v = true).
Proof. intros Hx Hy. split_and!; [intros; by apply union_includes|intros; by apply intersect_includes|by apply subsetOf_iff]. Qed.
End Facts.

(** ** A small universe

    Literals, and defined types with a literal as underlying type: an instance
    of the classes above. *)

Module Sample.
Inductive sample := Lit (n : nat) | Def (id n : nat).

#[global] Instance sample_eq_dec : EqDecision sample.
Proof. solve_decision. Defined.

Definition base (t : sample) : sample := match t with Lit n | Def _ n => Lit n end.
Definition rank (t : sample) : nat := match t with Lit n => n | Def id n => id + n end.

#[global] Instance sample_ops : TypeOps := {
  type_ := sample;
  Identical t u := bool_decide (t = u);
  under := base;
  Unalias t := t;
  comparable_type t := Nat.even (match t with Lit n | Def _ n => n end);
  IsInterface _ := false;
  isValid _ := true;
  type_String _ := "T" }.

#[global] Instance sample_laws : TypeLaws sample_ops.
Proof.
  apply (Build_TypeLaws sample_ops (fun _ => True)); cbn; intros; rewrite ?bool_decide_eq_true in *; try congruence; try done.
  - by destruct t.
  - by subst.
  - by destruct t.
Defined.

Lemma sample_fresh (t : nat -> sample) l : (forall n, (n <= rank (t n))%nat) -> exists n, Forall (fun u => bool_decide (t n = u) = false) l.
Proof.
  intros Ht. exists (S (list_max (map rank l))). apply Forall_forall. intros u Hu. apply bool_decide_eq_false. intros <-.
  pose proof (proj1 (list_max_le (map rank l) _) (Nat.le_refl _)) as H. rewrite Forall_forall in H.
  specialize (H _ (in_map rank _ _ Hu)). specialize (Ht (S (list_max (map rank l)))). lia.
Qed.

#[global] Instance sample_rich : TypeRich sample_ops sample_laws.
Proof.
  split; cbn.
  - intros l _. destruct (sample_fresh Lit l) as [n Hn]; [done|]. exists (Lit n). split_and!; [done|by apply bool_decide_eq_true|done].
  - intros t l _ Ht _. apply bool_decide_eq_true in Ht. destruct t as [m|]; [|done].
    destruct (sample_fresh (fun id => Def id m) l) as [n Hn]; [cbn; lia|]. exists (Def n m).
    split_and!; [done|by apply bool_decide_eq_true|done].
Qed.

Definition int : option (@term sample_ops) := Some (Term false (Some (Lit 1))).
Definition any_int : option (@term sample_ops) := Some (Term true (Some (Lit 1))).
Definition my_int (id : nat) : option (@term sample_ops) := Some (Term false (Some (Def id 1))).
End Sample.

Lemma term_operations_witness : wf_opt Sample.any_int /\ wf_opt (Sample.my_int 2) /\
  (forall v, ok v -> includes (fst (union Sample.any_int (Sample.my_int 2))) v || includes (snd (union Sample.any_int (Sample.my_int 2))) v
    = includes Sample.any_int v || includes (Sample.my_int 2) v) /\
  (forall v, ok v -> includes (intersect Sample.any_int (Sample.my_int 2)) v = includes Sample.any_int v && includes (Sample.my_int 2) v) /\
  (subsetOf Sample.any_int (Sample.my_int 2) = true <-> forall v, ok v -> includes Sample.any_int v = true -> includes (Sample.my_int 2) v = true).
Proof.
  assert (H1 : wf_opt Sample.any_int) by (by split).
  assert (H2 : wf_opt (Sample.my_int 2)) by (by split).
  split; [exact H1|]. split; [exact H2|]. exact (term_operations Sample.any_int (Sample.my_int 2) H1 H2).
Defined.
