(* ===== verification/TermlistFacts.v ===== *)
(** * What term lists denote

    A term list stands for the union of its terms.  Two lists are equivalent
    where they include the same types, and the operations respect this
    equivalence.  [norm] is shown equal to a recursion on the terms that are
    left ([norm_live]); for that, and so for [norm], the properties follow. *)

From Stdlib Require Import Morphisms Setoid Btauto.
From S2P Require Import Prelude.
From S2P Require Terms Termlists.
From S2P Require Import TermFacts.

#[local] Open Scope Z_scope.

Section Facts.
Context {Ops : Terms.TypeOps} {L : Terms.TypeLaws Ops}.
Abbreviation term := Terms.term.
Abbreviation termlist := Termlists.termlist.
Implicit Types (x y : term) (l r : list term) (xl yl : termlist).

Definition wf_list xl : Prop := Forall wf_opt xl.

(** Lists that include the same types. *)
#[global] Instance termlist_equiv : Equiv termlist :=
  fun xl yl => forall v, Terms.ok v -> Termlists.includes xl v = Termlists.includes yl v.

#[global] Instance termlist_equivalence : Equivalence (≡@{termlist}).
Proof.
  split; [by intros xl v|by intros xl yl H v Hv; rewrite H|].
  intros xl yl zl H1 H2 v Hv. by rewrite H1, H2.
Qed.

Lemma includes_app xl yl v : Termlists.includes (xl ++ yl) v = Termlists.includes xl v || Termlists.includes yl v.
Proof. induction xl as [|x xl IH]; cbn; [done|]. rewrite IH. by destruct (Terms.includes x v). Qed.

#[global] Instance app_equiv : Proper ((≡@{termlist}) ==> (≡) ==> (≡)) app.
Proof. intros xl xl' H yl yl' K v Hv. by rewrite !includes_app, H, K. Qed.

Lemma includes_cons xo xl v : Termlists.includes (xo :: xl) v = Terms.includes xo v || Termlists.includes xl v.
Proof. cbn. by destruct (Terms.includes xo v). Qed.

(** ** [norm] as a recursion *)

(** A term takes in the terms of a list that it is not disjoint from. *)
Fixpoint absorb x l : option (term * list term) :=
  match l with
  | [] => Some (x, [])
  | y :: l =>
      match Terms.union (Some x) (Some y) with
      | (Some u1, None) => if is_some (Terms.typ u1) then absorb u1 l else None
      | _ => match absorb x l with Some (x', l') => Some (x', y :: l') | None => None end
      end
  end.

Fixpoint norm_live (n : nat) l : option (list term) :=
  match n, l with
  | _, [] => Some []
  | O, _ => None
  | S n, x :: l =>
      match absorb x l with
      | Some (x', l') => match norm_live n l' with Some r => Some (x' :: r) | None => None end
      | None => None
      end
  end.

(** The terms that are neither nil nor used. *)
Fixpoint live (xl : termlist) (used : list bool) : list term :=
  match xl, used with
  | Some x :: xl, false :: used => x :: live xl used
  | _ :: xl, _ :: used => live xl used
  | _, _ => []
  end.

Definition live_from (xl : termlist) (used : list bool) (j : nat) : list term := live (drop j xl) (drop j used).

Lemma live_step xl used j xo b : xl !! j = Some xo -> used !! j = Some b ->
  live_from xl used j = match xo, b with Some x, false => x :: live_from xl used (S j) | _, _ => live_from xl used (S j) end.
Proof. intros Hx Hb. unfold live_from. rewrite (drop_S _ _ _ Hx), (drop_S _ _ _ Hb). cbn. by destruct xo, b. Qed.

Lemma live_end xl used j : (length xl <= j)%nat -> live_from xl used j = [].
Proof. intros H. unfold live_from. by rewrite drop_ge. Qed.

Lemma live_insert xl used j : live_from xl (<[j := true]> used) (S j) = live_from xl used (S j).
Proof. unfold live_from. by rewrite drop_insert_lt by lia. Qed.

Lemma union_cases x y :
  (exists b t c u, x = Terms.Term b (Some t) /\ y = Terms.Term c (Some u) /\ Terms.disjoint (b, t) (c, u) = true /\ Terms.union (Some x) (Some y) = (Some x, Some y)) \/
  (Terms.union (Some x) (Some y) = (Some x, None) /\ (Terms.typ x <> None -> Terms.tilde x = true \/ Terms.tilde y = false)) \/
  (Terms.union (Some x) (Some y) = (Some y, None) /\ Terms.typ x <> None /\ (Terms.typ y <> None -> Terms.tilde x = false /\ Terms.tilde y = true)).
Proof.
  destruct x as [b [t|]], y as [c [u|]]; cbn [Terms.union Terms.typ Terms.tilde].
  - destruct (Terms.disjoint _ _) eqn:Hd; [left; by eauto 10|]. destruct b, c; cbn; eauto 10.
  - right; right. split_and!; try done.
  - right; left. split; [done|]. done.
  - right; left. split; [done|]. done.
Qed.

(** The element that is looked at stays or is taken in, as [xo] and its mark say. *)
Lemma norm_inner_absorb xl n : forall j xi used, length used = length xl -> (n + j = length xl)%nat ->
  match Termlists.norm_inner xl n j xi used with
  | None => absorb xi (live_from xl used j) = None
  | Some (xi', used') =>
      absorb xi (live_from xl used j) = Some (xi', live_from xl used' j) /\ length used' = length xl /\
      forall k, (k < j)%nat -> used' !! k = used !! k
  end.
Proof.
  induction n as [|n IH]; intros j xi used Hl Hn; cbn [Termlists.norm_inner].
  { by rewrite !live_end by lia. }
  destruct (xl !! j) as [xo|] eqn:Ex; [|apply lookup_ge_None in Ex; lia].
  destruct (used !! j) as [b|] eqn:Eb; [|apply lookup_ge_None in Eb; lia].
  rewrite (live_step _ _ _ _ _ Ex Eb). unfold Termlists.used_at. rewrite Eb. cbn [default from_option id]. unfold id.
  assert (Next : forall x c, let used0 := if c : bool then <[j := true]> used else used in
      match Termlists.norm_inner xl n (S j) x used0 with
      | None => absorb x (live_from xl used (S j)) = None
      | Some (xi', used') => absorb x (live_from xl used (S j)) = Some (xi', live_from xl used' (S j)) /\ length used' = length xl /\
          (forall k, (k < j)%nat -> used' !! k = used !! k) /\ used' !! j = Some (c || b)
      end).
  { intros x c used0. assert (Hl0 : length used0 = length xl) by (destruct c; unfold used0; by rewrite ?length_insert).
    assert (Hs : live_from xl used (S j) = live_from xl used0 (S j)) by (destruct c; unfold used0; by rewrite ?live_insert).
    specialize (IH (S j) x used0 Hl0 ltac:(lia)). rewrite Hs. destruct (Termlists.norm_inner _ _ _ _ _) as [[xi' used']|]; [|done].
    destruct IH as (-> & Hl' & Hk). split_and!; [done..| |].
    - intros k Hkj. rewrite Hk by lia. destruct c; unfold used0; [|done]. apply list_lookup_insert_ne. lia.
    - rewrite Hk by lia. destruct c; unfold used0; [|done]. apply list_lookup_insert_eq. lia. }
  assert (Stay : forall x, match Termlists.norm_inner xl n (S j) x used with
      | None => match absorb x (live_from xl used (S j)) with Some _ => False | None => True end
      | Some (xi', used') => absorb x (live_from xl used (S j)) = Some (xi', live_from xl used' (S j)) /\
          live_from xl used' j = match xo, b with Some y, false => y :: live_from xl used' (S j) | _, _ => live_from xl used' (S j) end /\
          length used' = length xl /\ forall k, (k < j)%nat -> used' !! k = used !! k
      end).
  { intros x. specialize (Next x false). cbn [orb] in Next. destruct (Termlists.norm_inner _ _ _ _ _) as [[xi' used']|]; [|by rewrite Next].
    destruct Next as (-> & Hl' & Hk & Hj). by rewrite (live_step _ _ _ _ _ Ex Hj). }
  destruct xo as [xj|]; [destruct b|].
  - specialize (Stay xi). destruct (Termlists.norm_inner _ _ _ _ _) as [[xi' used']|]; [by destruct Stay as (-> & -> & ?)|by destruct (absorb _ _)].
  - cbn [absorb]. destruct (union_cases xi xj) as [(b & t & c & u & -> & -> & _ & ->)|H]; cbn iota.
    + specialize (Stay (Terms.Term b (Some t))). destruct (Termlists.norm_inner _ _ _ _ _) as [[xi' used']|]; [by destruct Stay as (-> & -> & ?)|by destruct (absorb _ _)].
    + assert (exists u1, Terms.union (Some xi) (Some xj) = (Some u1, None)) as [u1 ->] by (destruct H as [[-> _]|[-> _]]; eauto).
      destruct (is_some (Terms.typ u1)); [|done]. specialize (Next u1 true). cbn [orb] in Next.
      destruct (Termlists.norm_inner _ _ _ _ _) as [[xi' used']|]; [|done].
      destruct Next as (-> & Hl' & Hk & Hj). by rewrite (live_step _ _ _ _ _ Ex Hj).
  - specialize (Stay xi). destruct (Termlists.norm_inner _ _ _ _ _) as [[xi' used']|]; [by destruct Stay as (-> & -> & ?)|by destruct (absorb _ _), b].
Qed.


Lemma absorb_length x l x' l' : absorb x l = Some (x', l') -> (length l' <= length l)%nat.
Proof.
  revert x x' l'. induction l as [|y l IH]; intros x x' l'; cbn [absorb]; [by intros [= <- <-]|].
  destruct (union_cases x y) as [(b & t & c & u & -> & -> & _ & ->)|H]; cbn iota.
  - destruct (absorb _ l) as [[x1 l1]|] eqn:E; [|done]. intros [= <- <-]. cbn. apply IH in E. lia.
  - assert (exists u1, Terms.union (Some x) (Some y) = (Some u1, None)) as [u1 ->] by (destruct H as [[-> _]|[-> _]]; eauto).
    destruct (is_some _); [|done]. intros E. apply IH in E. cbn. lia.
Qed.

Lemma norm_live_more n : forall m l, (length l <= n)%nat -> (length l <= m)%nat -> norm_live n l = norm_live m l.
Proof.
  induction n as [|n IH]; intros m [|x l] Hn Hm; destruct m as [|m]; cbn in *; try done; try lia.
  destruct (absorb x l) as [[x' l']|] eqn:E; [|done]. apply absorb_length in E. by rewrite (IH m) by lia.
Qed.

Lemma live_length xl : forall used, (length (live xl used) <= length xl)%nat.
Proof. induction xl as [|[x|] xl IH]; intros [|[] used]; cbn; try lia; specialize (IH used); lia. Qed.

Lemma norm_outer_live xl n : forall i used rl, length used = length xl -> (n + i = length xl)%nat ->
  Termlists.norm_outer xl n i used rl =
  match norm_live n (live_from xl used i) with Some r => rl ++ map Some r | None => Termlists.allTermlist end.
Proof.
  assert (Len : forall used i, (length (live_from xl used i) <= length xl - i)%nat).
  { intros used i. unfold live_from. rewrite <- length_drop. apply live_length. }
  induction n as [|n IH]; intros i used rl Hl Hn; cbn [Termlists.norm_outer].
  { rewrite live_end by lia. cbn. by rewrite app_nil_r. }
  destruct (xl !! i) as [xo|] eqn:Ex; [|apply lookup_ge_None in Ex; lia].
  destruct (used !! i) as [b|] eqn:Eb; [|apply lookup_ge_None in Eb; lia].
  rewrite (live_step _ _ _ _ _ Ex Eb). unfold Termlists.used_at. rewrite Eb. cbn [default from_option id]. unfold id.
  assert (Go : Termlists.norm_outer xl n (S i) used rl =
    match norm_live (S n) (live_from xl used (S i)) with Some r => rl ++ map Some r | None => Termlists.allTermlist end).
  { rewrite IH by lia. specialize (Len used (S i)). by rewrite (norm_live_more n (S n)) by lia. }
  destruct xo as [xi|]; [destruct b|]; [done| |by destruct b].
  cbn [norm_live]. pose proof (norm_inner_absorb xl (length xl - S i) (S i) xi used Hl ltac:(lia)) as H.
  destruct (Termlists.norm_inner _ _ _ _ _) as [[xi' used']|]; [|by rewrite H]. destruct H as (-> & Hl' & _).
  rewrite IH by lia. destruct (norm_live n _); [|done]. cbn. by rewrite <- app_assoc.
Qed.

(** The terms of a list that are not nil. *)
Fixpoint somes (xl : termlist) : list term :=
  match xl with [] => [] | Some x :: xl => x :: somes xl | None :: xl => somes xl end.

Lemma norm_norm_live xl : Termlists.norm xl =
  match norm_live (length (somes xl)) (somes xl) with Some r => map Some r | None => Termlists.allTermlist end.
Proof.
  unfold Termlists.norm. rewrite norm_outer_live by (rewrite ?length_replicate; lia).
  assert (E : forall xl, live_from xl (replicate (length xl) false) 0 = somes xl) by (clear; induction xl as [|[x|] xl IH]; cbn; by rewrite <- ?IH).
  rewrite E, (norm_live_more _ (length (somes xl))); try done.
  induction xl as [|[x|] xl IH]; cbn; lia.
Qed.

Lemma somes_map l : somes (map Some l) = l.
Proof. induction l; cbn; congruence. Qed.

(** ** What [absorb] does *)

Definition among l v : bool := existsb (fun x => Terms.includes (Some x) v) l.

Lemma among_map l v : Termlists.includes (map Some l) v = among l v.
Proof. induction l as [|x l IH]; [done|]. cbn [map]. by rewrite includes_cons, IH. Qed.

Lemma among_somes xl v : among (somes xl) v = Termlists.includes xl v.
Proof. induction xl as [|[x|] xl IH]; cbn [somes]; rewrite ?includes_cons, <- ?IH; done. Qed.

Lemma somes_wf xl : wf_list xl -> Forall wf (somes xl).
Proof. induction 1 as [|[x|] xl H Hl IH]; cbn; by try constructor. Qed.

Lemma absorb_In x l x' l' : absorb x l = Some (x', l') -> In x' (x :: l) /\ incl l' l.
Proof.
  revert x x' l'. induction l as [|y l IH]; intros x x' l'; cbn [absorb]; [intros [= <- <-]; split; [by left|apply incl_nil_l]|].
  destruct (union_cases x y) as [(b & t & c & u & Ex & Ey & _ & ->)|H]; cbn iota.
  - destruct (absorb _ l) as [[x1 l1]|] eqn:E; [|done]. intros [= <- <-]. destruct (IH _ _ _ E) as [[->|Hi] Hs].
    + split; [by left|]. intros z [->|Hz]; [by left|right; auto].
    + split; [right; by right|]. intros z [->|Hz]; [by left|right; auto].
  - assert (exists u1, Terms.union (Some x) (Some y) = (Some u1, None) /\ (u1 = x \/ u1 = y)) as (u1 & -> & Hu) by (destruct H as [[-> _]|[-> _]]; eauto).
    destruct (is_some _); [|done]. intros E. destruct (IH _ _ _ E) as [Hi Hs]. split; [|by intros z Hz; right; apply Hs].
    destruct Hi as [<-|Hi]; [destruct Hu as [->| ->]; [by left|right; by left]|right; by right].
Qed.

Lemma absorb_includes x l x' l' v : wf x -> Forall wf l -> Terms.ok v -> absorb x l = Some (x', l') ->
  Terms.includes (Some x') v || among l' v = Terms.includes (Some x) v || among l v.
Proof.
  intros Hx Hl Hv. revert x x' l' Hx. induction Hl as [|y l Hy Hl IH]; intros x x' l' Hx; cbn [absorb]; [by intros [= <- <-]|].
  pose proof (union_includes (Some x) (Some y) v Hx Hy Hv) as U. unfold among in *. cbn [existsb].
  destruct (union_cases x y) as [(b & t & c & u & Ex & Ey & _ & ->)|H]; cbn iota.
  - destruct (absorb x l) as [[x1 l1]|] eqn:E; [|done]. intros [= <- <-]. specialize (IH _ _ _ Hx E). cbn [existsb].
    rewrite orb_assoc, (orb_comm (Terms.includes (Some x1) v)), <- orb_assoc, IH. btauto.
  - assert (exists u1, Terms.union (Some x) (Some y) = (Some u1, None) /\ wf u1) as (u1 & EU & Hu) by (destruct H as [[-> _]|[-> _]]; eauto).
    rewrite EU in *. cbn [fst snd] in U. destruct (is_some _); [|done]. intros E. change (Terms.includes None v) with false in U. rewrite orb_false_r in U.
    by rewrite (IH _ _ _ Hu E), orb_assoc, <- U.
Qed.

Lemma absorb_None x l : absorb x l = None -> exists y, In y (x :: l) /\ Terms.typ y = None.
Proof.
  revert x. induction l as [|y l IH]; intros x; cbn [absorb]; [done|].
  destruct (union_cases x y) as [(b & t & c & u & Ex & Ey & _ & ->)|H]; cbn iota.
  - destruct (absorb x l) as [[x1 l1]|] eqn:E; [done|]. intros _. destruct (IH _ E) as (z & [->|Hz] & Hn); exists z; split; cbn; auto.
  - assert (exists u1, Terms.union (Some x) (Some y) = (Some u1, None) /\ (u1 = x \/ u1 = y)) as (u1 & -> & Hu) by (destruct H as [[-> _]|[-> _]]; eauto).
    destruct (Terms.typ u1) eqn:Ht; cbn [is_some].
    + intros E. destruct (IH _ E) as (z & [->|Hz] & Hn); exists z; split; try done; [destruct Hu as [->| ->]|]; cbn; auto.
    + intros _. exists u1. split; [|done]. destruct Hu as [->| ->]; cbn; auto.
Qed.

Lemma among_all l v : (exists y, In y l /\ Terms.typ y = None) -> among l v = true.
Proof. intros (y & Hy & Hn). apply existsb_exists. exists y. split; [done|]. cbn. by rewrite Hn. Qed.

Lemma norm_live_None n l : (length l <= n)%nat -> norm_live n l = None -> exists y, In y l /\ Terms.typ y = None.
Proof.
  revert l. induction n as [|n IH]; intros [|x l] Hn; cbn in *; try done; [lia|].
  destruct (absorb x l) as [[x' l']|] eqn:E; [|intros _; by apply absorb_None].
  destruct (norm_live n l') eqn:E'; [done|]. intros _. pose proof (absorb_length _ _ _ _ E).
  destruct (IH l' ltac:(lia) E') as (y & Hy & Ht). exists y. split; [right|done]. by apply (absorb_In _ _ _ _ E).
Qed.

Lemma norm_live_includes n l r v : Forall wf l -> Terms.ok v -> norm_live n l = Some r -> among r v = among l v.
Proof.
  intros Hl Hv. revert l r Hl. induction n as [|n IH]; intros [|x l] r Hl; cbn [norm_live]; try done; [by intros [= <-]..|].
  inversion_clear Hl as [|?? Hx Hl']. destruct (absorb x l) as [[x' l']|] eqn:E; [|done].
  destruct (norm_live n l') as [r'|] eqn:E'; [|done]. intros [= <-]. unfold among in *. cbn [existsb].
  rewrite (IH l' r'); [by apply absorb_includes| |done]. apply Forall_forall. intros z Hz.
  apply (proj1 (Forall_forall _ _) Hl'). by apply (absorb_In _ _ _ _ E).
Qed.

Lemma norm_includes xl : wf_list xl -> Termlists.norm xl ≡ xl.
Proof.
  intros H v Hv. rewrite norm_norm_live, <- (among_somes xl). pose proof (somes_wf _ H) as Hs.
  destruct (norm_live _ _) as [r|] eqn:E.
  - rewrite among_map. by apply (norm_live_includes _ _ _ _ Hs Hv E).
  - symmetry. apply among_all. by apply norm_live_None in E.
Qed.

(** ** The form of the result *)

Definition disj x y : Prop := forall v, Terms.ok v -> Terms.includes (Some x) v && Terms.includes (Some y) v = false.

(** Disjoint, or a term without a tilde after one with a tilde. *)
Definition apart x y : Prop := disj x y \/ Terms.tilde x = true /\ Terms.tilde y = false.

(** The term of a type becomes a term of its underlying type. *)
Definition grown x x' : Prop :=
  exists t t', x = Terms.Term false (Some t) /\ x' = Terms.Term true (Some t') /\ Terms.includes (Some x') t = true.

Lemma grown_apart x x' y : wf x -> wf x' -> wf y -> Terms.typ y <> None -> grown x x' -> disj x y -> apart x' y.
Proof.
  intros Hx Hx' Hy Hn (t & t' & -> & -> & Hi) Hd. destruct y as [c [u|]]; [|done].
  destruct c; [left|by right]. intros v Hv. rewrite !includes_eq. unfold inside in *.
  destruct (Terms.Identical t' (Terms.under v)) eqn:E1; [|done]. destruct (Terms.Identical u (Terms.under v)) eqn:E2; [|done].
  specialize (Hd t (proj1 Hx)). rewrite includes_own in Hd by done. rewrite includes_eq in Hi, Hd. unfold inside in *. cbn [andb] in Hd.
  destruct Hx as [Ht _], Hx' as [Ht' _], Hy as [Hu _]. pose proof (Terms.under_ok _ Ht). pose proof (Terms.under_ok _ Hv). rewrite <- Hd. symmetry.
  apply (same_trans u (Terms.under v)); auto. apply (same_trans _ t'); auto. by apply same_sym.
Qed.

Lemma union_disjoint b t c u : wf (Terms.Term b (Some t)) -> wf (Terms.Term c (Some u)) ->
  Terms.disjoint (b, t) (c, u) = true -> disj (Terms.Term b (Some t)) (Terms.Term c (Some u)).
Proof. intros Hx Hy. exact (proj1 (disjoint_iff b t c u Hx Hy)). Qed.

Lemma absorb_apart x l x' l' : wf x -> Forall wf l -> absorb x l = Some (x', l') ->
  (x' = x \/ grown x x') /\ Forall (apart x') l'.
Proof.
  intros Hx Hl. revert x x' l' Hx. induction Hl as [|y l Hy Hl IH]; intros x x' l' Hx; cbn [absorb]; [intros [= <- <-]; auto|].
  destruct (union_cases x y) as [(b & t & c & u & -> & -> & Hd & ->)|H]; cbn iota.
  - destruct (absorb _ l) as [[x1 l1]|] eqn:E; [|done]. intros [= <- <-]. destruct (IH _ _ _ Hx E) as [Hg Ha].
    split; [done|]. constructor; [|done]. pose proof (union_disjoint _ _ _ _ Hx Hy Hd) as D. destruct Hg as [->|Hg]; [by left|].
    apply (grown_apart (Terms.Term b (Some t))); try done. destruct (absorb_In _ _ _ _ E) as [[<-|Hi] _]; [done|].
    by apply (proj1 (Forall_forall _ _) Hl).
  - destruct H as [[-> _]|(EU & Hn & Ht)]; [destruct (is_some _); [by apply IH|done]|].
    rewrite EU. destruct (Terms.typ y) as [u|] eqn:Ey; cbn [is_some]; [|done]. intros E.
    destruct (Terms.typ x) as [t|] eqn:Ex; [|done]. destruct (Ht ltac:(done)) as [Tx Ty].
    assert (G : grown x y).
    { destruct x as [bx tx], y as [by_ ty]. cbn in Ex, Ey, Tx, Ty. subst. exists t, u. split_and!; [done..|].
      pose proof (union_includes (Some (Terms.Term false (Some t))) (Some (Terms.Term true (Some u))) t Hx Hy (proj1 Hx)) as U.
      rewrite EU, includes_own in U by done. cbn [fst snd] in U. change (Terms.includes None t) with false in U. by rewrite orb_false_r in U. }
    destruct (IH _ _ _ Hy E) as [[->|(t1 & t2 & -> & _)] Ha]; [by split; [right|]|discriminate Ty].
Qed.

Lemma norm_live_In n l r : norm_live n l = Some r -> incl r l.
Proof.
  revert l r. induction n as [|n IH]; intros [|x l] r; cbn [norm_live]; try done; [intros [= <-]; apply incl_nil_l..|].
  destruct (absorb x l) as [[x' l']|] eqn:E; [|done]. destruct (norm_live n l') as [r'|] eqn:E'; [|done]. intros [= <-].
  destruct (absorb_In _ _ _ _ E) as [Hx Hl]. intros z [<-|Hz]; [done|]. right. apply Hl. by apply (IH _ _ E').
Qed.

Lemma norm_live_apart n l r : Forall wf l -> norm_live n l = Some r -> ForallOrdPairs apart r.
Proof.
  revert l r. induction n as [|n IH]; intros [|x l] r Hl; cbn [norm_live]; try done; [intros [= <-]; constructor..|].
  inversion_clear Hl as [|?? Hx Hl']. destruct (absorb x l) as [[x' l']|] eqn:E; [|done].
  destruct (norm_live n l') as [r'|] eqn:E'; [|done]. intros [= <-].
  destruct (absorb_apart _ _ _ _ Hx Hl' E) as [_ Ha]. destruct (absorb_In _ _ _ _ E) as [_ Hs]. constructor.
  - apply Forall_forall. intros z Hz. apply (proj1 (Forall_forall _ _) Ha). by apply (norm_live_In _ _ _ E').
  - apply (IH l'); [|done]. apply Forall_forall. intros z Hz. apply (proj1 (Forall_forall _ _) Hl'). by apply Hs.
Qed.

(** A list that is already apart loses terms, but no term changes. *)
Lemma absorb_again x l x' l' : wf x -> Forall wf l -> Forall (apart x) l -> absorb x l = Some (x', l') ->
  x' = x /\ Forall (disj x) l' /\ l' `sublist_of` l.
Proof.
  intros Hx Hl Ha. revert x' l'. induction Hl as [|y l Hy Hl IH]; intros x' l'; cbn [absorb]; [intros [= <- <-]; auto|].
  inversion_clear Ha as [|?? Hxy Ha']. specialize (IH Ha').
  destruct (union_cases x y) as [(b & t & c & u & -> & -> & Hd & ->)|H]; cbn iota.
  - destruct (absorb _ l) as [[x1 l1]|] eqn:E; [|done]. intros [= <- <-]. destruct (IH _ _ eq_refl) as (-> & Hf & Hs).
    split_and!; [done| |by apply sublist_skip]. constructor; [by apply union_disjoint|done].
  - destruct H as [[-> _]|(EU & Hn & Ht)].
    { destruct (is_some _); [|done]. intros E. destruct (IH _ _ E) as (-> & Hf & Hs). split_and!; [done..|by apply sublist_cons]. }
    rewrite EU. destruct (Terms.typ y) as [u|] eqn:Ey; cbn [is_some]; [|done]. exfalso.
    destruct (Ht ltac:(done)) as [Tx Ty]. destruct Hxy as [Hd|[Hd _]]; [|congruence].
    destruct x as [bx [t|]], y as [by_ ty]; [|done]. cbn in Ey, Tx, Ty. subst.
    pose proof (union_includes (Some (Terms.Term false (Some t))) (Some (Terms.Term true (Some u))) t Hx Hy (proj1 Hx)) as U.
    rewrite EU, includes_own in U by done. cbn [fst snd] in U. change (Terms.includes None t) with false in U. rewrite orb_false_r in U.
    specialize (Hd t (proj1 Hx)). rewrite includes_own in Hd by done. cbn [andb] in Hd. cbn [orb] in U. congruence.
Qed.

Lemma sublist_all {A} (P : A -> Prop) (l k : list A) : l `sublist_of` k -> Forall P k -> Forall P l.
Proof. induction 1; intros F; inversion_clear F || assumption; auto. Qed.

Lemma ordpairs_sublist {A} (P : A -> A -> Prop) (l k : list A) : l `sublist_of` k -> ForallOrdPairs P k -> ForallOrdPairs P l.
Proof.
  induction 1 as [|x l k Hs IH|x l k Hs IH]; intros H; [done|..]; inversion_clear H; [|by apply IH].
  constructor; [|by apply IH]. by apply (sublist_all _ _ k).
Qed.

Lemma norm_live_again n l r : Forall wf l -> ForallOrdPairs apart l -> norm_live n l = Some r -> ForallOrdPairs disj r.
Proof.
  revert l r. induction n as [|n IH]; intros [|x l] r Hl Ho; cbn [norm_live]; try done; [intros [= <-]; constructor..|].
  inversion_clear Hl as [|?? Hx Hl']. inversion_clear Ho as [|?? Ha Ho']. destruct (absorb x l) as [[x' l']|] eqn:E; [|done].
  destruct (norm_live n l') as [r'|] eqn:E'; [|done]. intros [= <-].
  destruct (absorb_again _ _ _ _ Hx Hl' Ha E) as (-> & Hd & Hs). constructor.
  - apply Forall_forall. intros z Hz. apply (proj1 (Forall_forall _ _) Hd). by apply (norm_live_In _ _ _ E').
  - apply (IH l'); [by apply (sublist_all _ _ l)|by apply (ordpairs_sublist _ _ l)|done].
Qed.


Definition typed x : Prop := Terms.typ x <> None.

Lemma absorb_typed x l x' l' : absorb x l = Some (x', l') -> (typed x \/ l <> [] -> typed x') /\ Forall typed l'.
Proof.
  revert x x' l'. induction l as [|y l IH]; intros x x' l'; cbn [absorb]; [intros [= <- <-]; split; [by intros [?|]|constructor]|].
  destruct (union_cases x y) as [(b & t & c & u & -> & -> & _ & ->)|H]; cbn iota.
  - destruct (absorb _ l) as [[x1 l1]|] eqn:E; [|done]. intros [= <- <-]. destruct (IH _ _ _ E) as [Hx Hl].
    split; [intros _; apply Hx; by left|by constructor].
  - assert (exists u1, Terms.union (Some x) (Some y) = (Some u1, None)) as [u1 ->] by (destruct H as [[-> _]|[-> _]]; eauto).
    destruct (Terms.typ u1) eqn:Et; cbn [is_some]; [|done]. intros E. destruct (IH _ _ _ E) as [Hx Hl].
    split; [|done]. intros _. apply Hx. left. unfold typed. by rewrite Et.
Qed.

Lemma norm_live_typed n l r : norm_live n l = Some r -> Forall typed r \/ length r = 1%nat.
Proof.
  destruct n as [|n], l as [|x l]; cbn [norm_live]; try done; [intros [= <-]; by left..|].
  destruct (absorb x l) as [[x' l']|] eqn:E; [|done]. destruct (norm_live n l') as [r'|] eqn:E'; [|done]. intros [= <-].
  destruct (absorb_typed _ _ _ _ E) as [Hx Hl]. destruct l as [|y l].
  - injection E as <- <-. destruct n; cbn in E'; injection E' as <-; by right.
  - left. constructor; [by apply Hx; right|]. apply Forall_forall. intros z Hz. apply (proj1 (Forall_forall _ _) Hl). by apply (norm_live_In _ _ _ E').
Qed.

Lemma isAll_map l : Termlists.isAll (map Some l) = true -> ~ Forall typed l.
Proof. induction l as [|x l IH]; cbn; [done|]. intros H F. inversion_clear F as [|?? Hx Hl]. unfold typed in Hx. by destruct (Terms.typ x); [apply IH|]. Qed.

(** [norm] is a list of terms that are not nil, none of them all types but alone. *)
Lemma norm_form xl : wf_list xl -> exists r, Termlists.norm xl = map Some r /\ Forall wf r /\ ForallOrdPairs apart r /\
  (Termlists.isAll (Termlists.norm xl) = true -> length r = 1%nat).
Proof.
  intros H. rewrite norm_norm_live. pose proof (somes_wf _ H) as Hs. destruct (norm_live _ _) as [r|] eqn:E.
  - exists r. split_and!; [done| |by apply (norm_live_apart _ _ _ Hs E)|].
    + apply Forall_forall. intros z Hz. apply (proj1 (Forall_forall _ _) Hs). by apply (norm_live_In _ _ _ E).
    + intros Ha. destruct (norm_live_typed _ _ _ E); [by apply isAll_map in Ha|done].
  - exists [Terms.Term false None]. split_and!; [done|by repeat constructor|by repeat constructor|done].
Qed.

Lemma norm_norm_disjoint xl : wf_list xl -> exists r, Termlists.norm (Termlists.norm xl) = map Some r /\ ForallOrdPairs disj r.
Proof.
  intros H. destruct (norm_form xl H) as (r & -> & Hw & Ha & _). rewrite norm_norm_live, somes_map.
  destruct (norm_live _ _) as [r'|] eqn:E.
  - exists r'. split; [done|]. by apply (norm_live_again _ _ _ Hw Ha E).
  - exists [Terms.Term false None]. split; [done|by repeat constructor].
Qed.

Lemma norm_wf xl : wf_list xl -> wf_list (Termlists.norm xl).
Proof. intros H. destruct (norm_form xl H) as (r & -> & Hw & _). apply Forall_map. by apply Forall_impl with (2 := Hw). Qed.

(** ** Union, intersection and inclusion *)

Lemma wf_app xl yl : wf_list xl -> wf_list yl -> wf_list (xl ++ yl).
Proof. intros. by apply Forall_app. Qed.

Lemma union_equiv xl yl : wf_list xl -> wf_list yl -> Termlists.union xl yl ≡ xl ++ yl.
Proof. intros Hx Hy. by apply norm_includes, wf_app. Qed.

Lemma isEmpty_includes xl v : Termlists.isEmpty xl = true -> Termlists.includes xl v = false.
Proof. induction xl as [|[x|] xl IH]; cbn; done. Qed.

Lemma intersect_wf_opt (x y : option term) : wf_opt x -> wf_opt y -> wf_opt (Terms.intersect x y).
Proof.
  destruct x as [[b [t|]]|], y as [[c [u|]]|]; cbn [Terms.intersect Terms.typ]; try done.
  intros Hx Hy. destruct (Terms.disjoint _ _); [done|]. by destruct (_ || _).
Qed.

Definition meets (x : option term) yl : termlist :=
  concat (map (fun y : option term => match Terms.intersect x y with Some r => [Some r] | None => [] end) yl).

Lemma meets_includes (x : option term) yl v : wf_opt x -> wf_list yl -> Terms.ok v ->
  Termlists.includes (meets x yl) v = Terms.includes x v && Termlists.includes yl v.
Proof.
  intros Hx Hyl Hv. induction Hyl as [|y yl Hy Hyl IH]; [by rewrite andb_false_r|].
  unfold meets in *. cbn [map concat]. rewrite includes_app, IH, includes_cons.
  pose proof (intersect_includes x y v Hx Hy Hv) as E. destruct (Terms.intersect x y) as [r|].
  - rewrite includes_cons, E. cbn [Termlists.includes]. btauto.
  - cbn [Termlists.includes]. change (Terms.includes None v) with false in E. rewrite andb_orb_distrib_r, <- E. done.
Qed.

Lemma meets_wf (x : option term) yl : wf_opt x -> wf_list yl -> wf_list (meets x yl).
Proof.
  intros Hx Hyl. unfold meets. induction Hyl as [|y yl Hy Hyl IH]; cbn; [constructor|].
  apply wf_app; [|done]. pose proof (intersect_wf_opt x y Hx Hy). destruct (Terms.intersect x y); by repeat constructor.
Qed.

Lemma all_meets_wf xl yl : wf_list xl -> wf_list yl -> wf_list (concat (map (fun x : option term => meets x yl) xl)).
Proof. intros Hxl Hyl. induction Hxl as [|x xl Hx Hxl IH]; cbn; [constructor|]. apply wf_app; [by apply meets_wf|done]. Qed.

Lemma all_meets xl yl v : wf_list xl -> wf_list yl -> Terms.ok v ->
  Termlists.includes (concat (map (fun x : option term => meets x yl) xl)) v = Termlists.includes xl v && Termlists.includes yl v.
Proof.
  intros Hxl Hyl Hv. induction Hxl as [|x xl Hx Hxl IH]; [done|]. cbn [map concat].
  rewrite includes_app, includes_cons, IH, meets_includes by done. btauto.
Qed.

Lemma intersect_list_includes xl yl v : wf_list xl -> wf_list yl -> Terms.ok v ->
  Termlists.includes (Termlists.intersect xl yl) v = Termlists.includes xl v && Termlists.includes yl v.
Proof.
  intros Hx Hy Hv. unfold Termlists.intersect. destruct (Termlists.isEmpty xl) eqn:Ex; [by rewrite (isEmpty_includes xl)|].
  destruct (Termlists.isEmpty yl) eqn:Ey; cbn [orb]; [by rewrite (isEmpty_includes yl), andb_false_r|].
  rewrite <- (all_meets xl yl v Hx Hy Hv). by apply norm_includes; [apply all_meets_wf|].
Qed.

(** The terms of an intersection are not nil. *)
(** ** Lengths *)

Lemma somes_length xl : (length (somes xl) <= length xl)%nat.
Proof. induction xl as [|[x|] xl IH]; cbn; lia. Qed.

Lemma norm_live_length n : forall l r, norm_live n l = Some r -> (length r <= length l)%nat.
Proof.
  induction n as [|n IH]; intros [|x l] r; cbn [norm_live]; try done; [by intros [= <-]..|].
  destruct (absorb x l) as [[x' l']|] eqn:E; [|done]. destruct (norm_live n l') as [r'|] eqn:E'; [|done]. intros [= <-].
  apply absorb_length in E. apply IH in E'. cbn. lia.
Qed.

(** No operation gives more terms than the terms, or the pairs of terms, that
    it starts with. *)
Lemma norm_length xl : (length (Termlists.norm xl) <= length xl)%nat.
Proof.
  pose proof (somes_length xl) as L1. rewrite norm_norm_live. destruct (norm_live _ _) as [r|] eqn:E.
  - rewrite length_map. apply norm_live_length in E. lia.
  - destruct (somes xl) as [|x l]; [done|]. cbn in *. lia.
Qed.

Lemma union_length xl yl : (length (Termlists.union xl yl) <= length xl + length yl)%nat.
Proof. rewrite <- length_app. apply norm_length. Qed.

Lemma concat_length_le {A} (ll : list (list A)) n : Forall (fun zs => length zs <= n)%nat ll -> (length (concat ll) <= length ll * n)%nat.
Proof. induction 1 as [|zs ll Hz Hl IH]; cbn; [lia|]. rewrite length_app. lia. Qed.

Lemma intersect_length xl yl : (length (Termlists.intersect xl yl) <= length xl * length yl)%nat.
Proof.
  unfold Termlists.intersect. destruct (_ || _); [cbn; lia|]. etrans; [apply norm_length|].
  etrans; [apply (concat_length_le _ (length yl))|by rewrite length_map].
  apply Forall_forall. intros z Hz. apply in_map_iff in Hz as (x & <- & _).
  etrans; [apply (concat_length_le _ 1)|rewrite length_map; lia].
  apply Forall_forall. intros w Hw. apply in_map_iff in Hw as (y & <- & _). destruct (Terms.intersect x y); cbn; lia.
Qed.

(** Disjoint terms stay as they are. *)
Definition disjoint_terms x y : Prop := Terms.union (Some x) (Some y) = (Some x, Some y).

Lemma absorb_disjoint x l : Forall (disjoint_terms x) l -> absorb x l = Some (x, l).
Proof. induction 1 as [|y l Hy Hl IH]; cbn [absorb]; [done|]. by rewrite Hy, IH. Qed.

Lemma norm_disjoint l : ForallOrdPairs disjoint_terms l -> Termlists.norm (map Some l) = map Some l.
Proof.
  intros H. rewrite norm_norm_live, somes_map.
  assert (E : norm_live (length l) l = Some l); [|by rewrite E].
  induction H as [|x l Hx Hl IH]; cbn [length norm_live]; [done|]. by rewrite absorb_disjoint, IH.
Qed.

Lemma intersect_somes xl yl : wf_list xl -> wf_list yl -> exists r, Termlists.intersect xl yl = map Some r /\ Forall wf r.
Proof.
  intros Hx Hy. unfold Termlists.intersect. destruct (_ || _); [by exists []|].
  destruct (norm_form _ (all_meets_wf xl yl Hx Hy)) as (r & E & Hr & _). by exists r.
Qed.

Lemma somes_wf_list r : Forall wf r -> wf_list (map Some r).
Proof. intros H. apply Forall_map. by apply Forall_impl with (2 := H). Qed.

Lemma wf_list_somes r : wf_list (map Some r) -> Forall wf r.
Proof. induction r as [|x r IH]; intros H; inversion_clear H; constructor; auto. Qed.

Lemma supersetOf_iff xl (y : option term) : Termlists.supersetOf xl y = true <-> exists x : option term, In x xl /\ Terms.subsetOf y x = true.
Proof.
  induction xl as [|x xl IH]; cbn [Termlists.supersetOf]; [split; [done|by intros (? & [] & _)]|].
  destruct (Terms.subsetOf y x) eqn:E.
  - split; [intros _; exists x; by split; [left|]|done].
  - rewrite IH. split; intros (z & Hz & Hs); exists z; split; try done; [by right|]. by destruct Hz as [<-|Hz]; [congruence|].
Qed.

Lemma subsetOf_loop_iff xl yl : Termlists.subsetOf_loop xl yl = true <-> forall x : option term, In x xl -> Termlists.supersetOf yl x = true.
Proof.
  induction xl as [|x xl IH]; cbn [Termlists.subsetOf_loop]; [by split|]. destruct (Termlists.supersetOf yl x) eqn:E; cbn [negb].
  - rewrite IH. split; [intros H z [<-|Hz]; auto|intros H z Hz; apply H; by right].
  - split; [done|]. intros H. rewrite <- E. apply H. by left.
Qed.

Lemma includes_iff xl v : Termlists.includes xl v = true <-> exists x : option term, In x xl /\ Terms.includes x v = true.
Proof.
  induction xl as [|x xl IH]; [split; [done|by intros (? & [] & _)]|]. rewrite includes_cons, orb_true_iff, IH. split.
  - intros [H|(z & Hz & H)]; [exists x|exists z]; by split; [cbn; auto|].
  - intros (z & [->|Hz] & H); eauto.
Qed.

Lemma wf_In xl (x : option term) : wf_list xl -> In x xl -> wf_opt x.
Proof. intros H. by apply (proj1 (Forall_forall _ _) H). Qed.

Lemma subsetOf_list_sound xl yl v : wf_list xl -> wf_list yl -> Terms.ok v ->
  Termlists.subsetOf xl yl = true -> Termlists.includes xl v = true -> Termlists.includes yl v = true.
Proof.
  intros Hx Hy Hv. unfold Termlists.subsetOf. destruct (Termlists.isEmpty yl).
  - intros He. by rewrite isEmpty_includes.
  - rewrite subsetOf_loop_iff, !includes_iff. intros H (x & Hin & Hi). destruct (proj1 (supersetOf_iff _ _) (H x Hin)) as (y & Hy' & Hs).
    exists y. split; [done|]. apply (subsetOf_sound x y); [by apply (wf_In xl)|by apply (wf_In yl)|done..].
Qed.

Lemma isEmpty_In xl : Termlists.isEmpty xl = false -> exists x, In (Some x) xl.
Proof. induction xl as [|[x|] xl IH]; cbn; intros H; [done|exists x; by left|]. destruct (IH H) as [x Hx]. exists x. by right. Qed.

Lemma subsetOf_list_iff `{R : !Terms.TypeRich Ops L} xl yl : wf_list xl -> wf_list yl ->
  Termlists.subsetOf xl yl = true <-> forall v, Terms.ok v -> Termlists.includes xl v = true -> Termlists.includes yl v = true.
Proof.
  intros Hx Hy. split; [intros H v Hv; by apply subsetOf_list_sound|]. intros H.
  assert (Sep : forall x, In (Some x) xl -> exists y : option term, In y yl /\ Terms.subsetOf (Some x) y = true).
  { intros x Hin. destruct (separating x yl) as (v & Hv & Hi & Hs); [exact (wf_In _ _ Hx Hin)|done|].
    destruct (proj1 (includes_iff yl v)) as (y & Hy' & Hi'); [apply H; [done|]; apply includes_iff; eauto|].
    exists y. split; [done|]. by apply Hs. }
  unfold Termlists.subsetOf. destruct (Termlists.isEmpty yl) eqn:Ey.
  - apply not_false_is_true. intros He. destruct (isEmpty_In _ He) as [x Hin]. destruct (Sep x Hin) as (y & Hin' & Hs).
    destruct y as [y|]; [|done]. clear - Ey Hin'. induction yl as [|[z|] yl IH]; [done|done|]. destruct Hin'; [done|]. by apply IH.
  - apply subsetOf_loop_iff. intros [x|] Hin; apply supersetOf_iff; [by apply Sep|].
    destruct (isEmpty_In _ Ey) as [y Hin']. by exists (Some y).
Qed.

Lemma equal_list_iff `{R : !Terms.TypeRich Ops L} xl yl : wf_list xl -> wf_list yl -> Termlists.equal xl yl = true <-> xl ≡ yl.
Proof.
  intros Hx Hy. unfold Termlists.equal. rewrite andb_true_iff, !subsetOf_list_iff by done. split.
  - intros [H K] v Hv. apply eq_true_iff_eq. split; auto.
  - intros H. split; intros v Hv; by rewrite (H v Hv).
Qed.

(** ** The claims *)

(** C20: [norm] keeps the set that a list stands for.  Its terms are not nil, and
    the term of all types stands alone; a term overlaps only an earlier one with
    a tilde, and normalizing once more makes all terms disjoint. *)
Theorem norm_spec xl : wf_list xl ->
  Termlists.norm xl ≡ xl /\
  (exists r, Termlists.norm xl = map Some r /\ ForallOrdPairs apart r /\ (Termlists.isAll (Termlists.norm xl) = true -> length r = 1%nat)) /\
  (exists r, Termlists.norm (Termlists.norm xl) = map Some r /\ ForallOrdPairs disj r).
Proof.
  intros H. split_and!; [by apply norm_includes| |by apply norm_norm_disjoint].
  destruct (norm_form xl H) as (r & E & _ & Ha & Hl). by exists r.
Qed.

(** C10: The operations on term lists are those on sets of types: union and
    intersection; inclusion and equality, where new types can always be
    declared. *)
Theorem termlist_operations `{R : !Terms.TypeRich Ops L} xl yl : wf_list xl -> wf_list yl ->
  (forall v, Terms.ok v -> Termlists.includes (Termlists.union xl yl) v = Termlists.includes xl v || Termlists.includes yl v) /\
  (forall v, Terms.ok v -> Termlists.includes (Termlists.intersect xl yl) v = Termlists.includes xl v && Termlists.includes yl v) /\
  (Termlists.subsetOf xl yl = true <-> forall v, Terms.ok v -> Termlists.includes xl v = true -> Termlists.includes yl v = true) /\
  (Termlists.equal xl yl = true <-> xl ≡ yl).
Proof.
  intros Hx Hy. split_and!.
  - intros v Hv. rewrite <- includes_app. by apply union_equiv.
  - intros v Hv. by apply intersect_list_includes.
  - by apply subsetOf_list_iff.
  - by apply equal_list_iff.
Qed.
End Facts.

(** The list MyInt1 | MyInt2 | ~int normalizes to ~int | MyInt2, two terms that
    are not disjoint. *)
Theorem norm_not_normal :
  Termlists.norm [Sample.my_int 1; Sample.my_int 2; Sample.any_int] = [Sample.any_int; Sample.my_int 2] /\
  Terms.intersect Sample.any_int (Sample.my_int 2) = Sample.my_int 2.
Proof. split; vm_compute; reflexivity. Qed.

Lemma norm_spec_witness : wf_list [Sample.my_int 1; Sample.any_int] /\
  (Termlists.norm [Sample.my_int 1; Sample.any_int] ≡ [Sample.my_int 1; Sample.any_int] /\
  (exists r, Termlists.norm [Sample.my_int 1; Sample.any_int] = map Some r /\ ForallOrdPairs apart r /\ (Termlists.isAll (Termlists.norm [Sample.my_int 1; Sample.any_int]) = true -> length r = 1%nat)) /\
  (exists r, Termlists.norm (Termlists.norm [Sample.my_int 1; Sample.any_int]) = map Some r /\ ForallOrdPairs disj r)).
Proof.
  assert (H : wf_list [Sample.my_int 1; Sample.any_int]) by (by repeat constructor).
  split; [exact H|]. exact (norm_spec [Sample.my_int 1; Sample.any_int] H).
Defined.

Lemma termlist_operations_witness : wf_list [Sample.my_int 1] /\ wf_list [Sample.any_int] /\
  (forall v, Terms.ok v -> Termlists.includes (Termlists.union [Sample.my_int 1] [Sample.any_int]) v = Termlists.includes [Sample.my_int 1] v || Termlists.includes [Sample.any_int] v) /\
  (forall v, Terms.ok v -> Termlists.includes (Termlists.intersect [Sample.my_int 1] [Sample.any_int]) v = Termlists.includes [Sample.my_int 1] v && Termlists.includes [Sample.any_int] v) /\
  (Termlists.subsetOf [Sample.my_int 1] [Sample.any_int] = true <-> forall v, Terms.ok v -> Termlists.includes [Sample.my_int 1] v = true -> Termlists.includes [Sample.any_int] v = true) /\
  (Termlists.equal [Sample.my_int 1] [Sample.any_int] = true <-> [Sample.my_int 1] ≡ [Sample.any_int]).
Proof.
  assert (H1 : wf_list [Sample.my_int 1]) by (by repeat constructor).
  assert (H2 : wf_list [Sample.any_int]) by (by repeat constructor).
  split; [exact H1|]. split; [exact H2|]. exact (termlist_operations [Sample.my_int 1] [Sample.any_int] H1 H2).
Defined.
