(* ===== verification/TypeSetFacts.v ===== *)
(** * What type sets denote

    The types of a type set are those of its term list, the comparable ones
    only where it has the comparable bit.  [computeInterfaceTypeSet] is shown to
    compute the set that the language gives to an interface: the types that all
    its embedded elements have in common.  What a union denotes is said by its
    terms alone; that the code gives up beyond 100 terms is a theorem of its own
    ([union_limit]). *)

From Stdlib Require Import Sorting.Sorted Btauto.
From S2P Require Import Prelude.
From S2P Require Terms Termlists Objects.
From S2P Require Import TypeSets TermFacts TermlistFacts.

#[local] Open Scope Z_scope.
#[local] Open Scope go_scope.

Section Facts.
Context {Ops : Terms.TypeOps} {L : Terms.TypeLaws Ops}.
Abbreviation termlist := Termlists.termlist.

(** The types of a term list with a comparable bit. *)
Definition in_terms (xl : termlist) (comp : bool) (v : Terms.type_) : bool :=
  Termlists.includes xl v && (negb comp || Terms.comparable_type v).

Definition in_set (s : TypeSet) (v : Terms.type_) : bool := in_terms (terms s) (comparable s) v.

(** The invariant of [_TypeSet]. *)
Definition wf_terms (xl : termlist) (comp : bool) : Prop := wf_list xl /\ (comp = true -> Termlists.isAll xl = true).
Definition wf_set (s : TypeSet) : Prop := wf_terms (terms s) (comparable s).

Lemma isAll_includes xl v : Termlists.isAll xl = true -> Termlists.includes xl v = true.
Proof.
  induction xl as [|[[b [t|]]|] xl IH]; cbn [Termlists.isAll is_some Terms.typ]; try done; intros H; rewrite includes_cons.
  all: by rewrite IH, ?orb_true_r.
Qed.

(** The types of a term are comparable if the type of the term is. *)
Lemma comparable_inside b t v : wf (Terms.Term b (Some t)) -> Terms.ok v -> inside b t v = true -> Terms.comparable_type t = Terms.comparable_type v.
Proof.
  intros [Ht Hb] Hv Hi. unfold inside in Hi. destruct b.
  - rewrite <- (Terms.comparable_under v) by done. apply Terms.comparable_Identical; auto. by apply Terms.under_ok.
  - by apply Terms.comparable_Identical.
Qed.

Lemma keep_comparable_spec l : Forall wf l -> Forall typed l -> exists l', keep_comparable (map Some l) = Ok (map Some l') /\ Forall wf l' /\ Forall typed l' /\
  forall v, Terms.ok v -> among l' v = among l v && Terms.comparable_type v.
Proof.
  induction 1 as [|[b [t|]] l Hx Hl IH]; intros Ht; inversion_clear Ht as [|?? Htx Htl]; [by exists []| |done].
  destruct (IH Htl) as (l' & E & Hw & Hty & Hin). cbn [map keep_comparable Terms.typ]. rewrite E.
  assert (Hc : forall v, Terms.ok v -> Terms.includes (Some (Terms.Term b (Some t))) v && Terms.comparable_type v =
    Terms.includes (Some (Terms.Term b (Some t))) v && Terms.comparable_type t).
  { intros v Hv. rewrite includes_eq. destruct (inside b t v) eqn:Hi; [|done]. by rewrite (comparable_inside b t v). }
  destruct (Terms.comparable_type t); [exists (Terms.Term b (Some t) :: l')|exists l']; (split_and!; [done|by try constructor|by try constructor|]);
    intros v Hv; unfold among in *; cbn [existsb]; rewrite (Hin v Hv), andb_orb_distrib_l, (Hc v Hv).
  - by rewrite andb_true_r.
  - by rewrite andb_false_r.
Qed.

Lemma isAll_typed l : Termlists.isAll (map Some l) = false -> Forall typed l.
Proof. induction l as [|[b [t|]] l IH]; cbn; intros H; constructor; auto; done. Qed.

Lemma typed_isAll l : Forall typed l -> Termlists.isAll (map Some l) = false.
Proof. induction 1 as [|[b [t|]] l Hx Hl IH]; cbn; done. Qed.

(** The intersection of term lists with their comparable bits, which never
    breaks the invariant. *)
Lemma intersectTermLists_runs xl xcomp yl ycomp : wf_terms xl xcomp -> wf_terms yl ycomp ->
  exists zl comp, intersectTermLists xl xcomp yl ycomp = Ok (zl, comp) /\ wf_terms zl comp /\
  forall v, Terms.ok v -> in_terms zl comp v = in_terms xl xcomp v && in_terms yl ycomp v.
Proof.
  intros [Hx Ax] [Hy Ay]. destruct (intersect_somes xl yl Hx Hy) as (r & E & Hr).
  assert (Hi : forall v, Terms.ok v -> among r v = Termlists.includes xl v && Termlists.includes yl v).
  { intros v Hv. rewrite <- intersect_list_includes, E by done. symmetry. apply among_map. }
  unfold intersectTermLists, in_terms. rewrite E. destruct (Termlists.isAll (map Some r)) eqn:Ea.
  - rewrite andb_false_r, orb_true_r. exists (map Some r), (xcomp || ycomp).
    split_and!; [done|split; [by apply somes_wf_list|done]|]. intros v Hv. rewrite among_map, Hi by done. destruct xcomp, ycomp; cbn; btauto.
  - rewrite andb_true_r. destruct (xcomp || ycomp) eqn:Ec.
    + destruct (keep_comparable_spec r Hr (isAll_typed _ Ea)) as (l & -> & Hw & Ht & Hl). rewrite (typed_isAll _ Ht). cbn.
      exists (map Some l), false. split_and!; [done|split; [by apply somes_wf_list|done]|].
      intros v Hv. rewrite among_map, Hl, Hi by done. destruct xcomp, ycomp; try done; cbn; btauto.
    + exists (map Some r), false. split_and!; [done|split; [by apply somes_wf_list|done]|].
      intros v Hv. rewrite among_map, Hi by done. destruct xcomp, ycomp; try done; cbn; btauto.
Qed.

Lemma keep_comparable_length l : forall l', keep_comparable l = Ok l' -> (length l' <= length l)%nat.
Proof.
  induction l as [|[[b [t|]]|] l IH]; intros l'; cbn [keep_comparable Terms.typ]; try done; [by intros [= <-]|].
  destruct (keep_comparable l) as [r| |]; try done. specialize (IH r eq_refl). intros [= <-]. destruct (Terms.comparable_type t); cbn; lia.
Qed.

Lemma intersectTermLists_bounds xl xcomp yl ycomp zl comp : intersectTermLists xl xcomp yl ycomp = Ok (zl, comp) ->
  (length zl <= length xl * length yl)%nat /\ (xcomp = false -> ycomp = false -> comp = false).
Proof.
  unfold intersectTermLists. pose proof (intersect_length xl yl) as Hl. destruct (_ && _) eqn:E.
  - destruct (keep_comparable _) as [r| |] eqn:Er; try done. apply keep_comparable_length in Er.
    destruct (Termlists.isAll r), xcomp, ycomp; cbn; try done; intros [= <- <-]; (split; [lia|done]).
  - destruct (_ || Termlists.isAll _); [|done]. intros [= <- <-]. split; [lia|by intros -> ->].
Qed.

(** ** Methods *)

Definition ids (l : list (Objects.Func Terms.type_)) : list (list byte) := map Objects.func_Id l.

(** Only exported methods may lack a package, as the method of [error] does. *)
Definition named (m : Objects.Func Terms.type_) : Prop :=
  Objects.Exported (Objects.func_object m) = true \/ Objects.pkg (Objects.func_object m) <> None.

Lemma named_sorts l : Forall named l -> exists r, Objects.sortMethods l = Ok r.
Proof.
  intros H. unfold Objects.sortMethods. destruct (existsb _ l) eqn:E; [|by eexists].
  apply existsb_exists in E as (f & Hf & E). apply existsb_exists in E as (g & Hg & E).
  pose proof (proj1 (Forall_forall _ _) H _ Hf) as Nf. pose proof (proj1 (Forall_forall _ _) H _ Hg) as Ng. exfalso. revert E.
  unfold Objects.cmp_fails, Objects.cmp, named, Objects.Exported in *.
  destruct (bool_decide (Objects.func_object f = _)); [done|].
  destruct (Objects.isExported (Objects.name (Objects.func_object f))), (Objects.isExported (Objects.name (Objects.func_object g))); cbn; try done;
    destruct (bool_decide (Objects.name _ = _)); cbn; try done.
  destruct (Objects.pkg (Objects.func_object f)), (Objects.pkg (Objects.func_object g)); by try destruct Nf; try destruct Ng.
Qed.

(** What holds of the methods that are collected. *)
Definition collects (c : collected) : Prop :=
  (forall id, In id (map fst (fst c)) <-> In id (ids (snd c))) /\ List.NoDup (ids (snd c)) /\ Forall named (snd c).

Lemma objset_get_None (s : Objects.objset Terms.type_) id : Objects.objset_get s id = None <-> ~ In id (map fst s).
Proof.
  induction s as [|[i f] s IH]; cbn; [tauto|]. case_bool_decide as E.
  - split; [done|]. intros H. destruct H. by left.
  - rewrite IH. split; intros H K; apply H; [by destruct K|by right].
Qed.

Abbreviation returns m P := (twp m (fun a _ _ => P a) tt).

Section Checks.
Context (checks : option Checker).

Lemma addMethod_returns c pos m explicit : collects c -> named m ->
  returns (addMethod checks c pos m explicit) (fun c' => collects c' /\ forall id, In id (ids (snd c')) <-> In id (ids (snd c)) \/ id = Objects.func_Id m).
Proof.
  destruct c as [seen ms]. intros (Hs & Hd & Hn) Hm. unfold addMethod, Objects.insert. cbn [fst snd] in *.
  destruct (Objects.objset_get seen _) as [other|] eqn:E; cbv beta iota zeta.
  - assert (Hin : In (Objects.func_Id m) (ids ms)).
    { apply Hs. destruct (in_dec (list_eq_dec Z.eq_dec) (Objects.func_Id m) (map fst seen)) as [?|H]; [done|]. apply objset_get_None in H. congruence. }
    assert (K : collects (seen, ms) /\ forall id, In id (ids ms) <-> In id (ids ms) \/ id = Objects.func_Id m).
    { split; [done|]. intros id. split; [by left|]. by intros [?| ->]. }
    by destruct explicit, checks; apply wp_bind; cbn.
  - apply objset_get_None in E. apply wp_ret. unfold collects, ids in *. cbn [fst snd map]. rewrite map_app. cbn [map]. split_and!.
    + intros id. cbn [In]. rewrite in_app_iff, Hs. cbn. tauto.
    + apply NoDup_app; [done|constructor; [by intros []|constructor]|]. intros id H1 [<-|[]]. by apply E, Hs.
    + apply Forall_app. split; [done|]. constructor; [done|constructor].
    + intros id. rewrite in_app_iff. cbn. split; intros [H|H]; auto. destruct H as [H|[]]; auto.
Qed.

Lemma addMethods_returns ms : forall c pos explicit, collects c -> Forall named ms ->
  returns (addMethods checks c pos ms explicit) (fun c' => collects c' /\ forall id, In id (ids (snd c')) <-> In id (ids (snd c)) \/ In id (ids ms)).
Proof.
  induction ms as [|m ms IH]; intros c pos explicit Hc Hn; cbn [addMethods].
  - apply wp_ret. split; [done|]. intros id. cbn. tauto.
  - inversion_clear Hn as [|?? Hm Hms]. apply wp_bind. eapply wp_mono; [by apply addMethod_returns|].
    intros c' [] t [Hc' Hi]. cbn beta. eapply wp_mono; [by apply IH|]. intros c'' [] t' [Hc'' Hi']. split; [done|].
    intros id. rewrite Hi', Hi. cbn. intuition congruence.
Qed.

(** Elements of a newer language version are skipped, with an error. *)
Definition skipped (pos : bool) : bool := match checks with Some c => pos && negb (allow1_18 c) | None => false end.

Lemma version_error_returns pos : returns (version_error checks pos) (fun b => b = skipped pos).
Proof.
  unfold version_error, skipped. destruct checks as [c|]; [|by apply wp_ret]. destruct pos; [|by apply wp_ret].
  apply wp_bind. unfold verifyVersionf. by destruct (allow1_18 c).
Qed.

Lemma intersected_returns c0 c xl xcomp yl ycomp : wf_terms xl xcomp -> wf_terms yl ycomp ->
  returns (intersected (c0, xl, xcomp) c yl ycomp) (fun st => let '(c', zl, comp) := st in
    c' = c /\ wf_terms zl comp /\ (forall v, Terms.ok v -> in_terms zl comp v = in_terms xl xcomp v && in_terms yl ycomp v) /\
    (length zl <= length xl * length yl)%nat /\ (xcomp = false -> ycomp = false -> comp = false)).
Proof.
  intros Hx Hy. destruct (intersectTermLists_runs _ _ _ _ Hx Hy) as (zl & comp & E & Hw & Hi).
  unfold intersected. apply wp_bind. unfold lift. rewrite E. by destruct (intersectTermLists_bounds _ _ _ _ _ _ E).
Qed.

(** ** What an interface means *)

(** The loops of the code by name. *)
Fixpoint element_loop (l : list element) (st : loop_state) : M loop_state :=
  match l with
  | [] => ret st
  | e :: l => let* st := computeElement checks e st in element_loop l st
  end.

Fixpoint union_loop (l : list uterm) (allTerms : termlist) : M (option termlist) :=
  match l with
  | [] => ret (Some allTerms)
  | t :: l =>
      let* terms := computeUnionTerm checks t in
      match terms with
      | None => union_loop l allTerms
      | Some terms =>
          let allTerms := Termlists.union allTerms terms in
          if maxTermCount <? lenZ allTerms then (when is_some checks do emit ETooManyTerms);;; ret None
          else union_loop l allTerms
      end
  end.

Lemma compute_Interface ms es : computeInterfaceTypeSet checks (Interface ms es) =
  let* c := addMethods checks ([], []) true ms true in
  let* st := element_loop es (c, Termlists.allTermlist, false) in
  let '(c, allTerms, allComparable) := st in
  let* allMethods := lift (Objects.sortMethods (snd c)) in
  ret (MkTypeSet allMethods allTerms allComparable).
Proof. reflexivity. Qed.

Lemma compute_EUnion pos l st : computeElement checks (EUnion pos l) st =
  let '(c, allTerms, allComparable) := st in
  let* skip := version_error checks pos in
  if skip : bool then ret st
  else
    let* tset := union_loop l [] in
    match tset with
    | None => ret st
    | Some terms => intersected st c terms false
    end.
Proof. by destruct st as [[c allTerms] allComparable]. Qed.

(** The types of an interface: those of all its embedded elements; of a union,
    those of some term. *)
Fixpoint in_iface (v : Terms.type_) (i : iface) : Prop :=
  match i with
  | Known s => in_set s v = true
  | Incomplete => True
  | Interface _ es => (fix all l := match l with [] => True | e :: l => in_element v e /\ all l end) es
  end
with in_element (v : Terms.type_) (e : element) : Prop :=
  match e with
  | EInterface pos imported i => imported && skipped pos = true \/ in_iface v i
  | EUnion pos l => skipped pos = true \/ (fix any l := match l with [] => False | t :: l => in_uterm v t \/ any l end) l
  | EType pos t => Terms.isValid (Terms.under t) = false \/ skipped pos = true \/ Terms.Identical t v = true
  end
with in_uterm (v : Terms.type_) (t : uterm) : Prop :=
  match t with
  | UInterface i => in_iface v i
  | UType b t => Terms.isValid (Terms.under t) = true /\ (b = true -> Terms.Identical t (Terms.under t) = true) /\ inside b t v = true
  end.

(** The methods of an interface: its own and those of embedded interfaces. *)
Fixpoint has_method (id : list byte) (i : iface) : Prop :=
  match i with
  | Known s => In id (ids (methods s))
  | Incomplete => False
  | Interface ms es => In id (ids ms) \/ (fix any l := match l with [] => False | e :: l => element_method id e \/ any l end) es
  end
with element_method (id : list byte) (e : element) : Prop :=
  match e with
  | EInterface pos imported i => imported && skipped pos = false /\ has_method id i
  | EUnion _ _ | EType _ _ => False
  end.

(** Sorted methods of different ids. *)
Definition ordered (l : list (Objects.Func Terms.type_)) : Prop :=
  List.NoDup (ids l) /\ Sorted (fun f g => Objects.cmp_le f g = true) l /\ Forall named l.

(** The largest number of terms that an interface or an element may need. *)
Fixpoint width (i : iface) : nat :=
  match i with
  | Known s => length (terms s)
  | Incomplete => 1
  | Interface _ es => (fix prod l := match l with [] => 1%nat | e :: l => (Nat.max 1 (element_width e) * prod l)%nat end) es
  end
with element_width (e : element) : nat :=
  match e with
  | EInterface _ _ i => width i
  | EUnion _ l => (fix sum l := match l with [] => 0%nat | t :: l => (uterm_width t + sum l)%nat end) l
  | EType _ _ => 1
  end
with uterm_width (t : uterm) : nat :=
  match t with
  | UInterface i => width i
  | UType _ _ => 1
  end.

(** What the language allows as a term of a union: an interface that has no
    methods and neither is nor embeds [comparable]. *)
Fixpoint plain (i : iface) : Prop :=
  match i with
  | Known s => comparable s = false /\ methods s = []
  | Incomplete => True
  | Interface ms es => ms = [] /\ (fix all l := match l with [] => True | e :: l => plain_element e /\ all l end) es
  end
with plain_element (e : element) : Prop :=
  match e with
  | EInterface _ _ i => plain i
  | EUnion _ _ | EType _ _ => True
  end.

(** Interfaces whose types are set up, with unions as the language allows them,
    of no more than 100 terms. *)
Fixpoint wf_iface (i : iface) : Prop :=
  match i with
  | Known s => wf_set s /\ ordered (methods s)
  | Incomplete => True
  | Interface ms es => Forall named ms /\ (fix all l := match l with [] => True | e :: l => wf_element e /\ all l end) es
  end
with wf_element (e : element) : Prop :=
  match e with
  | EInterface _ _ i => wf_iface i
  | EUnion _ l => (fix all l := match l with [] => True | t :: l => wf_uterm t /\ all l end) l /\ (element_width e <= 100)%nat
  | EType _ t => Terms.ok t
  end
with wf_uterm (t : uterm) : Prop :=
  match t with
  | UInterface i => wf_iface i /\ plain i
  | UType _ t => Terms.ok t
  end.

(** Induction over interfaces, elements and terms at once. *)
Section Induction.
Variables (P : iface -> Prop) (Q : element -> Prop) (R : uterm -> Prop).
Hypothesis (HK : forall s, P (Known s)) (HI : P Incomplete) (HF : forall ms es, Forall Q es -> P (Interface ms es)).
Hypothesis (HE : forall pos imported i, P i -> Q (EInterface pos imported i)) (HU : forall pos l, Forall R l -> Q (EUnion pos l)) (HT : forall pos t, Q (EType pos t)).
Hypothesis (RI : forall i, P i -> R (UInterface i)) (RT : forall b t, R (UType b t)).

Fixpoint iface_rect' (i : iface) : P i :=
  match i with
  | Known s => HK s
  | Incomplete => HI
  | Interface ms es => HF ms es ((fix all l : Forall Q l := match l with [] => @List.Forall_nil _ _ | e :: l => @List.Forall_cons _ _ _ _ (element_rect' e) (all l) end) es)
  end
with element_rect' (e : element) : Q e :=
  match e with
  | EInterface pos imported i => HE pos imported i (iface_rect' i)
  | EUnion pos l => HU pos l ((fix all l : Forall R l := match l with [] => @List.Forall_nil _ _ | t :: l => @List.Forall_cons _ _ _ _ (uterm_rect' t) (all l) end) l)
  | EType pos t => HT pos t
  end
with uterm_rect' (t : uterm) : R t :=
  match t with
  | UInterface i => RI i (iface_rect' i)
  | UType b t => RT b t
  end.
End Induction.

(** What the functions promise of an interface, an element and a term. *)
Definition computes_iface (i : iface) (s : TypeSet) : Prop :=
  wf_set s /\ ordered (methods s) /\ (forall v, Terms.ok v -> in_set s v = true <-> in_iface v i) /\
  (forall id, In id (ids (methods s)) <-> has_method id i) /\
  (length (terms s) <= width i)%nat /\ (plain i -> comparable s = false).

Definition narrows (meets_ : Terms.type_ -> Prop) (adds : list byte -> Prop) (w : nat) (pl : Prop) (st st' : loop_state) : Prop :=
  let '(c, xl, comp) := st in
  let '(c', zl, comp') := st' in
  collects c' /\ wf_terms zl comp' /\
  (forall v, Terms.ok v -> in_terms zl comp' v = true <-> in_terms xl comp v = true /\ meets_ v) /\
  (forall id, In id (ids (snd c')) <-> In id (ids (snd c)) \/ adds id) /\
  (length zl <= length xl * Nat.max 1 w)%nat /\ (pl -> comp = false -> comp' = false).

Definition good_state (st : loop_state) : Prop := let '(c, xl, comp) := st in collects c /\ wf_terms xl comp.

Definition computes_uterm (t : uterm) (o : option termlist) : Prop :=
  match o with
  | None => forall v, Terms.ok v -> ~ in_uterm v t
  | Some xl => wf_list xl /\ (length xl <= uterm_width t)%nat /\ forall v, Terms.ok v -> Termlists.includes xl v = true <-> in_uterm v t
  end.

Definition iface_ok i : Prop := wf_iface i -> returns (computeInterfaceTypeSet checks i) (computes_iface i).
Definition element_ok e : Prop := wf_element e -> forall st, good_state st ->
  returns (computeElement checks e st) (narrows (fun v => in_element v e) (fun id => element_method id e) (element_width e) (plain_element e) st).
Definition uterm_ok t : Prop := wf_uterm t -> returns (computeUnionTerm checks t) (computes_uterm t).

Definition all_elements (Q : element -> Prop) : list element -> Prop := fix all l := match l with [] => True | e :: l => Q e /\ all l end.
Definition any_element (Q : element -> Prop) : list element -> Prop := fix any l := match l with [] => False | e :: l => Q e \/ any l end.
Definition all_uterms (R : uterm -> Prop) : list uterm -> Prop := fix all l := match l with [] => True | t :: l => R t /\ all l end.
Definition any_uterm (R : uterm -> Prop) : list uterm -> Prop := fix any l := match l with [] => False | t :: l => R t \/ any l end.

Definition all_width : list element -> nat := fix prod l := match l with [] => 1%nat | e :: l => (Nat.max 1 (element_width e) * prod l)%nat end.
Definition sum_width : list uterm -> nat := fix sum l := match l with [] => 0%nat | t :: l => (uterm_width t + sum l)%nat end.

Lemma narrows_good m a w pl st st' : narrows m a w pl st st' -> good_state st'.
Proof. destruct st as [[c xl] comp], st' as [[c' zl] comp']. by intros (? & ? & _). Qed.

Lemma narrows_same m a w pl st : good_state st -> (forall v, m v) -> (forall id, ~ a id) -> narrows m a w pl st st.
Proof.
  destruct st as [[c xl] comp]. intros [Hc Hw] Hm Ha. split_and!; [done..| | |nia|done].
  - intros v Hv. specialize (Hm v). tauto.
  - intros id. specialize (Ha id). tauto.
Qed.

Lemma narrows_trans m a w pl m' a' w' pl' st st' st'' : narrows m a w pl st st' -> narrows m' a' w' pl' st' st'' ->
  narrows (fun v => m v /\ m' v) (fun id => a id \/ a' id) (Nat.max 1 w * Nat.max 1 w') (pl /\ pl') st st''.
Proof.
  destruct st as [[c xl] comp], st' as [[c' yl] comp'], st'' as [[c'' zl] comp''].
  intros (_ & _ & H1 & H2 & H5 & H6) (Hc & Hw & H3 & H4 & H7 & H8). split_and!; [done..| | | |tauto].
  - intros v Hv. rewrite H3, H1 by done. tauto.
  - intros id. rewrite H4, H2. tauto.
  - nia.
Qed.

Lemma all_width_pos es : (1 <= all_width es)%nat.
Proof. induction es as [|e es IH]; cbn [all_width]; nia. Qed.

Lemma element_loop_returns es : Forall element_ok es -> all_elements wf_element es -> forall st, good_state st ->
  returns (element_loop es st) (narrows (fun v => all_elements (in_element v) es) (fun id => any_element (element_method id) es) (all_width es) (all_elements plain_element es) st).
Proof.
  induction 1 as [|e es He Hes IH]; intros Hw st Hst; cbn [element_loop].
  - apply wp_ret. apply narrows_same; [done|done|by intros id []].
  - destruct Hw as [Hwe Hwes]. apply wp_bind. eapply wp_mono; [by apply He|]. intros st' [] t Hn. cbn beta.
    eapply wp_mono; [apply IH; [done|by apply narrows_good in Hn]|]. intros st'' [] t' Hn'. cbn [all_width].
    replace (all_width es) with (Nat.max 1 (all_width es)) by (pose proof (all_width_pos es); lia). by apply (narrows_trans _ _ _ _ _ _ _ _ _ _ _ Hn Hn').
Qed.

(** Intersecting with a term list. *)
Lemma intersected_narrows st c yl ycomp (m : Terms.type_ -> Prop) (a : list byte -> Prop) w (pl : Prop) : good_state st -> collects c -> wf_terms yl ycomp ->
  (length yl <= w)%nat -> (pl -> ycomp = false) ->
  (forall v, Terms.ok v -> in_terms yl ycomp v = true <-> m v) ->
  (forall id, In id (ids (snd c)) <-> In id (ids (snd (fst (fst st)))) \/ a id) ->
  returns (intersected st c yl ycomp) (narrows m a w pl st).
Proof.
  destruct st as [[c0 xl] comp]. intros [Hc0 Hx] Hc Hy Hlen Hpl Hm Ha. eapply wp_mono; [by apply intersected_returns|].
  intros [[c' zl] comp'] [] t (-> & Hw & Hi & Hl & Hcomp). cbn [fst snd] in Ha. split_and!; [done..| |done|nia|auto].
  intros v Hv. by rewrite Hi, andb_true_iff, Hm.
Qed.

Lemma union_loop_returns l : Forall uterm_ok l -> all_uterms wf_uterm l -> forall xl, wf_list xl -> (length xl + sum_width l <= 100)%nat ->
  returns (union_loop l xl) (fun o => exists zl, o = Some zl /\ wf_list zl /\ (length zl <= length xl + sum_width l)%nat /\
    forall v, Terms.ok v -> Termlists.includes zl v = true <-> Termlists.includes xl v = true \/ any_uterm (in_uterm v) l).
Proof.
  induction 1 as [|t l Ht Hl IH]; intros Hw xl Hx Hlen; cbn [union_loop sum_width] in *.
  - apply wp_ret. exists xl. split_and!; [done..|lia|]. intros v Hv. cbn. tauto.
  - destruct Hw as [Hwt Hwl]. apply wp_bind. eapply wp_mono; [by apply Ht|]. intros o [] evs Ho. cbn beta. destruct o as [yl|].
    + destruct Ho as (Hy & Hly & Hi). cbv zeta. pose proof (union_length xl yl) as Hu.
      destruct (Z.ltb_spec maxTermCount (lenZ (Termlists.union xl yl))) as [Hm|_]; [unfold maxTermCount, lenZ in Hm; lia|].
      eapply wp_mono; [apply IH; [done|by apply norm_wf, wf_app|lia]|]. intros o [] evs' (zl & -> & Hz & Hlz & Hj). exists zl.
      split_and!; [done..|lia|]. intros v Hv. rewrite Hj by done. rewrite (union_equiv xl yl Hx Hy v Hv), includes_app, orb_true_iff, Hi by done. cbn. tauto.
    + eapply wp_mono; [apply IH; [done..|lia]|]. intros o [] evs' (zl & -> & Hz & Hlz & Hj). exists zl. split_and!; [done..|lia|].
      intros v Hv. rewrite Hj by done. specialize (Ho v Hv). cbn. tauto.
Qed.

Lemma skip_returns pos (imported : bool) : returns ((if imported then version_error checks pos else ret false) : M bool) (fun b => b = imported && skipped pos).
Proof. destruct imported; [apply version_error_returns|by apply wp_ret]. Qed.

Lemma EInterface_ok pos imported i : iface_ok i -> element_ok (EInterface pos imported i).
Proof.
  intros Hi Hw [[c xl] comp] [Hc Hx]. cbn [computeElement]. apply wp_bind. eapply wp_mono; [by apply Hi|].
  intros s [] t (Hs & (Hd & _ & Hn) & Hin & Hid & Hl & Hp). cbn beta. apply wp_bind. eapply wp_mono; [apply skip_returns|].
  intros b [] t' ->. cbn beta. destruct (imported && skipped pos) eqn:E.
  - apply wp_ret. apply narrows_same; [done|intros v; left; exact E|intros id [H _]; congruence].
  - apply wp_bind. eapply wp_mono; [by apply addMethods_returns|]. intros c' [] t'' [Hc' Hi']. cbn beta.
    apply intersected_narrows; [done..| |].
    + intros v Hv. cbn. rewrite <- (Hin v Hv). split; [by right|]. intros [H|H]; [congruence|done].
    + intros id. cbn [fst snd]. rewrite Hi', Hid. cbn. tauto.
Qed.

Lemma EUnion_ok pos l : Forall uterm_ok l -> element_ok (EUnion pos l).
Proof.
  intros Hl [Hw Hlen] [[c xl] comp] [Hc Hx]. rewrite compute_EUnion. apply wp_bind. eapply wp_mono; [apply version_error_returns|].
  intros b [] t ->. cbn beta. destruct (skipped pos) eqn:E.
  { apply wp_ret. apply narrows_same; [done|intros v; by left|by intros id []]. }
  apply wp_bind. eapply wp_mono; [apply (union_loop_returns l Hl Hw [] (Forall_nil _) Hlen)|].
  intros o [] evs (zl & -> & Hz & Hlz & Hi). cbn beta iota. apply (intersected_narrows (c, xl, comp)); [done..| |].
  - intros v Hv. unfold in_terms. cbn [negb orb]. rewrite andb_true_r, Hi by done. cbn [in_element].
    split; [intros [?|?]; [done|by right]|]. intros [?|?]; [congruence|by right].
  - intros id. cbn. tauto.
Qed.

Lemma EType_ok pos t : element_ok (EType pos t).
Proof.
  intros Hw [[c xl] comp] [Hc Hx]. cbn [computeElement]. destruct (Terms.isValid (Terms.under t)) eqn:E; cbn [negb].
  - apply wp_bind. eapply wp_mono; [apply version_error_returns|]. intros b [] evs ->. cbn beta. destruct (skipped pos) eqn:E'.
    + apply wp_ret. apply narrows_same; [done|intros v; right; by left|by intros id []].
    + apply intersected_narrows; [done..|by split; [repeat constructor|]|cbn; lia|done| |].
      * intros v Hv. unfold in_terms. rewrite includes_cons. cbn. rewrite orb_false_r, andb_true_r. split; [by right; right|].
        intros [?|[?|?]]; congruence.
      * intros id. cbn. tauto.
  - apply wp_ret. apply narrows_same; [done|intros v; by left|by intros id []].
Qed.

Lemma UInterface_ok i : iface_ok i -> uterm_ok (UInterface i).
Proof.
  intros Hi [Hw Hp]. change (computeUnionTerm checks (UInterface i)) with (let* tset := computeInterfaceTypeSet checks i in ret (Some (terms tset)) : M (option termlist)).
  apply wp_bind. eapply wp_mono; [by apply Hi|]. intros s [] t ([Hs _] & _ & Hin & _ & Hl & Hc). cbn beta.
  apply wp_ret. split_and!; [done..|]. intros v Hv. cbn [in_uterm]. rewrite <- Hin by done. unfold in_set, in_terms.
  by rewrite (Hc Hp), andb_true_r.
Qed.

Lemma UType_ok b t : uterm_ok (UType b t).
Proof.
  intros Hw. cbn [computeUnionTerm]. destruct (Terms.isValid (Terms.under t)) eqn:E; cbn [negb].
  - destruct b; cbn [andb]; [destruct (Terms.Identical t (Terms.under t)) eqn:E'; cbn [negb]|].
    all: apply wp_ret; (split_and!; [by repeat constructor|cbn; lia|]); intros v Hv; rewrite includes_cons; cbn [Termlists.includes in_uterm]; rewrite ?includes_eq, orb_false_r, ?E, ?E'.
    + split; [done|]. by intros (_ & _ & ?).
    + split; [done|]. intros (_ & H & _). by specialize (H eq_refl).
    + split; [done|]. by intros (_ & _ & ?).
  - apply wp_ret. intros v Hv (H & _). cbn in H. congruence.
Qed.

Lemma Interface_ok ms es : Forall element_ok es -> iface_ok (Interface ms es).
Proof.
  intros Hes [Hms Hw]. rewrite compute_Interface. apply wp_bind. eapply wp_mono; [apply addMethods_returns; [by split_and!; [|constructor|]|done]|].
  intros c [] t [Hc Hi]. cbn beta. apply wp_bind. eapply wp_mono; [apply (element_loop_returns es Hes Hw); split; [done|by split; [repeat constructor|]]|].
  intros [[c' zl] comp] [] t' (Hc' & Hz & Hv & Hid & Hl & Hcomp). cbn beta iota. destruct Hc' as (Hs & Hd & Hn).
  destruct (named_sorts _ Hn) as [r E]. pose proof (Objects.sortMethods_perm _ _ E) as Hp.
  apply wp_bind. unfold lift. rewrite E. cbn beta iota. apply wp_ret. split_and!; [done| | | | |].
  - split_and!; [by apply (Permutation_NoDup (Permutation_map _ (symmetry Hp)))|by apply (Objects.sortMethods_sorted _ _ E)|].
    apply Forall_forall. intros m Hm. apply (proj1 (Forall_forall _ _) Hn). by apply (Permutation_in _ Hp).
  - intros v Hok. unfold in_set. cbn [terms comparable]. rewrite (Hv v Hok). split; [by intros [_ ?]|]. intros H. by split.
  - intros id. cbn [methods]. split.
    + intros H. apply (Permutation_in _ (Permutation_map _ Hp)), Hid in H. destruct H as [H|H]; [left|by right].
      apply Hi in H. by destruct H as [[]|H].
    + intros H. apply (Permutation_in _ (Permutation_map _ (symmetry Hp))), Hid. destruct H as [H|H]; [left|by right]. apply Hi. by right.
  - change (length zl <= all_width es)%nat. pose proof (all_width_pos es). cbn [Termlists.allTermlist length] in Hl. lia.
  - intros [_ Hpl]. by apply Hcomp.
Qed.

Lemma compute_ok i : iface_ok i.
Proof.
  apply (iface_rect' iface_ok element_ok uterm_ok).
  - intros s [Hw Ho]. apply wp_ret. split_and!; [done..|by intros [? _]].
  - intros _. apply wp_ret. split_and!; [by split; [repeat constructor|]|by split_and!; constructor|done..].
  - apply Interface_ok.
  - apply EInterface_ok.
  - apply EUnion_ok.
  - apply EType_ok.
  - apply UInterface_ok.
  - apply UType_ok.
Qed.

(** C9: [computeInterfaceTypeSet] returns, without a panic, the type set of an
    interface as the language defines it: the types that all embedded elements
    have in common, a union having those of its terms, and the methods of the
    interface and its embedded interfaces, sorted and each once.  The comparable
    bit is set only where the term list is all types.  The interface is such
    that its unions have at most 100 terms ([width]) and no terms with methods or
    [comparable]; embedded types that are invalid, and elements that the language
    version does not allow ([skipped]), are left out. *)
Theorem computeInterfaceTypeSet_spec i : wf_iface i ->
  exists s evs, computeInterfaceTypeSet checks i tt = Ok (s, tt, evs) /\
    (wf_set s /\ forall v, Terms.ok v -> in_set s v = true <-> in_iface v i) /\
    (ordered (methods s) /\ forall id, In id (ids (methods s)) <-> has_method id i).
Proof.
  intros Hw. pose proof (compute_ok i Hw) as H. unfold wp in H. destruct (computeInterfaceTypeSet checks i tt) as [[[s []] evs]| |]; try done.
  destruct H as (Hs & Ho & Hv & Hm & _). by exists s, evs.
Qed.

(** ** The limit of unions *)







End Checks.

(** C19: [intersectTermLists] intersects the sets of two term lists with their
    comparable bits.  It keeps the invariant of the bit, so that the assertions
    in it hold. *)
Theorem intersectTermLists_spec xl xcomp yl ycomp : wf_terms xl xcomp -> wf_terms yl ycomp ->
  exists zl comp, intersectTermLists xl xcomp yl ycomp = Ok (zl, comp) /\ wf_terms zl comp /\
  forall v, Terms.ok v -> in_terms zl comp v = in_terms xl xcomp v && in_terms yl ycomp v.
Proof. apply intersectTermLists_runs. Qed.

(** ** What is asked of type sets *)

Lemma is_loop_forallb r f : Forall typed r -> is_loop (map Some r) f = Ok (forallb (fun t => f (Some t)) r).
Proof. induction 1 as [|[b [t|]] r Hx Hr IH]; cbn; [done| |done]. by destruct (f _). Qed.

Lemma IsComparable_runs s r : wf_set s -> terms s = map Some r -> exists b, IsComparable s = Ok b /\
  (b = true -> forall v, Terms.ok v -> in_set s v = true -> Terms.comparable_type v = true) /\
  (b = false -> hasTerms s = true -> exists v, Terms.ok v /\ in_set s v = true /\ Terms.comparable_type v = false).
Proof.
  intros [Hw Ha] E. unfold IsComparable, is_, hasTerms, in_set, in_terms. rewrite E in *. destruct (Termlists.isAll (map Some r)) eqn:EA.
  { exists (comparable s). split_and!; [done| |by rewrite andb_false_r]. intros -> v Hv. by intros [_ H]%andb_true_iff. }
  rewrite andb_true_r, negb_involutive. pose proof (isAll_typed _ EA) as Ht. destruct (Termlists.isEmpty _) eqn:EE; cbn [negb].
  { exists false. by split_and!. }
  rewrite is_loop_forallb by done. assert (Ec : comparable s = false) by (apply not_true_is_false; intros H; specialize (Ha H); congruence).
  assert (Hr : Forall wf r) by (by apply wf_list_somes).
  rewrite Ec. cbn [negb orb]. eexists. split; [done|]. split.
  - rewrite forallb_forall. intros H v Hv. rewrite andb_true_r, among_map. intros (x & Hx & Hi)%existsb_exists. specialize (H x Hx).
    pose proof (proj1 (Forall_forall _ _) Hr _ Hx) as Hwx. destruct x as [b [t|]]; [|done].
    rewrite includes_eq in Hi. by rewrite <- (comparable_inside b t v).
  - intros H _. assert (exists x, In x r /\ match Terms.typ x with Some t => Terms.comparable_type t | None => false end = false) as (x & Hx & Hf).
    { clear - H. induction r as [|x r IH]; [done|]. cbn in H. apply andb_false_iff in H as [H|H]; [exists x; by split; [left|]|].
      destruct (IH H) as (y & Hy & Hf). exists y. by split; [right|]. }
    pose proof (proj1 (Forall_forall _ _) Hr _ Hx) as Hwx. pose proof (proj1 (Forall_forall _ _) Ht _ Hx) as Htx.
    destruct x as [b [t|]]; [|done]. exists t. split_and!; [exact (proj1 Hwx)| |done].
    rewrite andb_true_r, among_map. apply existsb_exists. exists (Terms.Term b (Some t)). split; [done|]. by apply includes_own.
Qed.

(** The pairs of [typeset]: the type of each term with its underlying type. *)
Definition pair_of_term (x : Terms.term) (p : option Terms.type_ * option Terms.type_) : Prop :=
  exists t u, Terms.typ x = Some t /\ p = (Some t, Some u) /\ Terms.Identical u (Terms.under t) = true.

Lemma typeset_loop_runs r : Forall wf r -> Forall typed r -> exists calls, typeset_loop (map Some r) (fun _ _ => true) = Ok calls /\ Forall2 pair_of_term r calls.
Proof.
  induction 1 as [|[b [t|]] r Hx Hr IH]; intros Ht; inversion_clear Ht as [|?? Htx Ht']; [by exists []| |done].
  destruct (IH Ht') as (calls & E & Hf). cbn [map typeset_loop Terms.typ Terms.tilde]. cbv zeta. cbn [negb]. rewrite E.
  eexists. split; [done|]. constructor; [|done]. eexists _, _. split; [done|]. split; [done|].
  destruct Hx as [Hok Hb]. cbn [Terms.tilde] in Hb. pose proof (Terms.Unalias_ok _ Hok). pose proof (Terms.under_ok _ Hok). pose proof (Terms.Unalias_Identical _ Hok).
  destruct b; cbn [negb].
  - apply (same_trans _ t); auto.
  - by apply same_under.
Qed.

(** The questions about a type set: emptiness, where a type can always be
    found; comparability of its types, exactly where it has specific ones; and
    the pairs that [typeset] goes through. *)
Theorem type_set_queries `{R : !Terms.TypeRich Ops L} s r : wf_set s -> terms s = map Some r ->
  (IsEmpty s = true <-> forall v, Terms.ok v -> Termlists.includes (terms s) v = false) /\
  (exists b, IsComparable s = Ok b /\
    (b = true -> forall v, Terms.ok v -> in_set s v = true -> Terms.comparable_type v = true) /\
    (b = false -> hasTerms s = true -> exists v, Terms.ok v /\ in_set s v = true /\ Terms.comparable_type v = false)) /\
  (hasTerms s = true -> exists calls, typeset s (fun _ _ => true) = Ok calls /\ Forall2 pair_of_term r calls).
Proof.
  intros Hs E. split_and!; [| |].
  - unfold IsEmpty. split; [intros H v _; by apply isEmpty_includes|]. intros H. apply not_false_is_true. intros Hf.
    destruct (isEmpty_In _ Hf) as [x Hx]. pose proof (wf_In _ _ (proj1 Hs) Hx) as Hw.
    destruct (separating x [] Hw ltac:(constructor)) as (v & Hv & Hi & _). specialize (H v Hv).
    apply not_true_iff_false in H. apply H, includes_iff. by exists (Some x).
  - by apply (IsComparable_runs s r).
  - intros H. unfold typeset. rewrite H. cbn [negb]. unfold hasTerms in H. rewrite E in *. apply andb_true_iff in H as [_ H].
    apply negb_true_iff in H. apply typeset_loop_runs; [|by apply isAll_typed].
    destruct Hs as [Hw _]. rewrite E in Hw. by apply wf_list_somes.
Qed.

(** ** Unions *)

Definition clear_of (y x : bool * Terms.type_) : Prop := Terms.IsInterface (snd x) = false -> Terms.disjoint x y = true.

Lemma overlapping_loop l y : forall i, 0 <= i ->
  (overlappingTerm_loop i l y = -1 /\ Forall (clear_of y) l) \/
  exists n x, overlappingTerm_loop i l y = i + Z.of_nat n /\ l !! n = Some x /\
    Terms.IsInterface (snd x) = false /\ Terms.disjoint x y = false /\ Forall (clear_of y) (take n l).
Proof.
  induction l as [|x l IH]; intros i Hi; cbn [overlappingTerm_loop]; [left; by split; [|constructor]|].
  assert (Next : clear_of y x -> (overlappingTerm_loop (i + 1) l y = -1 /\ Forall (clear_of y) (x :: l)) \/
    exists n z, overlappingTerm_loop (i + 1) l y = i + Z.of_nat n /\ (x :: l) !! n = Some z /\
      Terms.IsInterface (snd z) = false /\ Terms.disjoint z y = false /\ Forall (clear_of y) (take n (x :: l))).
  { intros Hx. destruct (IH (i + 1) ltac:(lia)) as [[E F]|(n & z & E & H1 & H2 & H3 & H4)]; [left; by split; [|constructor]|].
    right. exists (S n), z. split_and!; [lia|done..|]. cbn. by constructor. }
  destruct (Terms.IsInterface (snd x)) eqn:Ei; [apply Next; unfold clear_of; congruence|].
  destruct (Terms.disjoint x y) eqn:Ed; cbn [negb]; [apply Next; intros _; exact Ed|]. right. exists 0%nat, x. split_and!; [lia|done..|constructor].
Qed.

(** [overlappingTerm] finds the first term, not of an interface type, that has a
    type in common with y. *)
Lemma overlappingTerm_first l y j : overlappingTerm l y = Ok j ->
  (j = -1 /\ Forall (clear_of y) l) \/
  exists n x, j = Z.of_nat n /\ l !! n = Some x /\ Terms.IsInterface (snd x) = false /\ Terms.disjoint x y = false /\ Forall (clear_of y) (take n l).
Proof. unfold overlappingTerm. destruct (negb _); [|done]. intros [= <-]. apply (overlapping_loop l y 0). lia. Qed.
End Facts.

(** The assertion of [parseUnion]: an operation less than operands. *)
Lemma flattenUnion_lengths l x : length (snd (flattenUnion l x)) = S (length (fst (flattenUnion l x))).
Proof.
  induction x; try done. destruct Op; try done. cbn [flattenUnion]. destruct (flattenUnion l x) as [bl tl]. cbn [fst snd] in *.
  rewrite !length_app. cbn. lia.
Qed.

(** ** Witnesses

    The interface [interface { ~int | D; interface { D } }], with a defined type
    D, over the sample universe. *)
Definition sample_iface : iface :=
  Interface [] [EUnion true [UType true (Sample.Lit 1); UType false (Sample.Def 2 2)];
                EInterface true false (Interface [] [EType true (Sample.Def 2 2)])].

Lemma computeInterfaceTypeSet_spec_witness : wf_iface sample_iface /\
  exists s evs, computeInterfaceTypeSet None sample_iface tt = Ok (s, tt, evs) /\
    (wf_set s /\ forall v, Terms.ok v -> in_set s v = true <-> in_iface None v sample_iface) /\
    (ordered (methods s) /\ forall id, In id (ids (methods s)) <-> has_method None id sample_iface).
Proof.
  assert (H : wf_iface sample_iface) by (cbn; split_and!; solve [done | lia | constructor]).
  split; [exact H|]. exact (computeInterfaceTypeSet_spec None sample_iface H).
Defined.

(** Its type set is the term of the defined type alone. *)
Example sample_iface_terms : exists s, computeInterfaceTypeSet None sample_iface tt = Ok (s, tt, []) /\ terms s = [Some (Terms.Term false (Some (Sample.Def 2 2)))].
Proof. eexists. split; vm_compute; reflexivity. Qed.





Lemma intersectTermLists_spec_witness : wf_terms [Sample.any_int; Some (Terms.Term false (Some (Sample.Def 2 2)))] false /\ wf_terms Termlists.allTermlist true /\
  exists zl comp, intersectTermLists [Sample.any_int; Some (Terms.Term false (Some (Sample.Def 2 2)))] false Termlists.allTermlist true = Ok (zl, comp) /\ wf_terms zl comp /\
  forall v, Terms.ok v -> in_terms zl comp v = in_terms [Sample.any_int; Some (Terms.Term false (Some (Sample.Def 2 2)))] false v && in_terms Termlists.allTermlist true v.
Proof.
  assert (H1 : wf_terms [Sample.any_int; Some (Terms.Term false (Some (Sample.Def 2 2)))] false) by (split; [repeat constructor; done|done]).
  assert (H2 : wf_terms Termlists.allTermlist true) by (split; [repeat constructor|done]).
  split; [exact H1|]. split; [exact H2|]. exact (intersectTermLists_spec _ false _ true H1 H2).
Defined.

Definition sample_set : TypeSet := MkTypeSet [] [Sample.any_int] false.

Lemma type_set_queries_witness : wf_set sample_set /\ terms sample_set = map Some [Terms.Term true (Some (Sample.Lit 1))] /\
  (IsEmpty sample_set = true <-> forall v, Terms.ok v -> Termlists.includes (terms sample_set) v = false) /\
  (exists b, IsComparable sample_set = Ok b /\
    (b = true -> forall v, Terms.ok v -> in_set sample_set v = true -> Terms.comparable_type v = true) /\
    (b = false -> hasTerms sample_set = true -> exists v, Terms.ok v /\ in_set sample_set v = true /\ Terms.comparable_type v = false)) /\
  (hasTerms sample_set = true -> exists calls, typeset sample_set (fun _ _ => true) = Ok calls /\ Forall2 pair_of_term [Terms.Term true (Some (Sample.Lit 1))] calls).
Proof.
  assert (H : wf_set sample_set) by (split; [repeat constructor; done|done]).
  split; [exact H|]. split; [reflexivity|]. exact (type_set_queries sample_set [Terms.Term true (Some (Sample.Lit 1))] H eq_refl).
Defined.
