(* ===== verification/Types.v ===== *)
(** * src/src/cmd/compile/internal/types2: types and their identity

    The types of values outside of generic code, as the type checker represents
    them (basic.go, array.go, slice.go, struct.go, pointer.go, tuple.go,
    signature.go, interface.go, map.go, chan.go, named.go, alias.go), with
    [identical], [comparableType] and their helpers of predicates.go.

    A type is a tree; a defined type is the object of its declaration with its
    type arguments, and what it is declared as is the class [Decls].  Interfaces
    have methods only, for others are no types of values, and their lists of
    methods are those of their type sets.  Type parameters, and with them
    generic functions and constraints, are left out. *)

From S2P Require Import Prelude.
From S2P Require Objects.

#[local] Open Scope Z_scope.

Inductive ChanDir := SendRecv | SendOnly | RecvOnly.

#[global] Instance ChanDir_eq_dec : EqDecision ChanDir.
Proof. solve_decision. Defined.

(** A field of a struct. *)
Record Var {T : Type} := MkVar { var_object : Objects.object; embedded : bool; var_typ : T }.
Arguments Var : clear implicits.
Arguments MkVar {T}.

Inductive type :=
| Basic (kind : Z)
| Array (len : Z) (elem : type)
| Slice (elem : type)
| Struct (fields : list (Var type)) (tags : list (list byte))
| Pointer (base : type)
| Tuple (vars : list type)
| Signature (params results : list type) (variadic : bool)
| Interface (methods : list (Objects.Func type))
| Map (key elem : type)
| Chan (dir : ChanDir) (elem : type)
| Named (obj : Z) (targs : list type)
| Alias (fromRHS : type).

(** The kinds of basic types that the code names. *)
Definition Invalid : Z := 0.
Definition UnsafePointer : Z := 18.
Definition UntypedNil : Z := 25.

Fixpoint Unalias (t : type) : type :=
  match t with
  | Alias rhs => Unalias rhs
  | _ => t
  end.

(** [Typ[Invalid]] is the only basic type of its kind. *)
Definition isValid (t : type) : bool :=
  match Unalias t with
  | Basic k => negb (k =? Invalid)
  | _ => true
  end.

Definition Tag (tags : list (list byte)) (i : nat) : list byte := default [] (tags !! i).

Record comparer := MkComparer { ignoreTags : bool; ignoreInvalids : bool }.

(** A loop over two lists that leaves with false at the first pair that fails. *)
Definition all2 {A B} (P : A -> B -> bool) : list A -> list B -> bool :=
  fix all2 xs ys :=
    match xs, ys with
    | x :: xs, y :: ys => if negb (P x y) then false else all2 xs ys
    | _, _ => true
    end.

(** The test x == y of pointers at the beginning only saves time
    ([identical_refl]).  The stack of pairs of interfaces is left out: it ends
    cycles through the methods of anonymous interfaces, and a tree has none. *)
Fixpoint identical (c : comparer) (x y : type) {struct x} : bool :=
  match x with
  | Alias rhs => identical c rhs y
  | _ =>
  let y := Unalias y in
  if ignoreInvalids c && (negb (isValid x) || negb (isValid y)) then true
  else
    match x, y with
    | Basic k, Basic l => k =? l
    | Array m x, Array n y => ((m <? 0) || (n <? 0) || (m =? n)) && identical c x y
    | Slice x, Slice y => identical c x y
    | Struct fs tags, Struct gs tags' =>
        if lenZ fs =? lenZ gs then
          (fix loop (i : nat) (fs gs : list (Var type)) : bool :=
             match fs, gs with
             | f :: fs, g :: gs =>
                 if negb (Bool.eqb (embedded f) (embedded g)) ||
                    negb (ignoreTags c) && negb (bool_decide (Tag tags i = Tag tags' i)) ||
                    negb (Objects.sameId (var_object f) (Objects.pkg (var_object g)) (Objects.name (var_object g))) ||
                    negb (identical c (var_typ f) (var_typ g))
                 then false
                 else loop (S i) fs gs
             | _, _ => true
             end) O fs gs
        else false
    | Pointer x, Pointer y => identical c x y
    | Tuple xs, Tuple ys => if lenZ xs =? lenZ ys then all2 (identical c) xs ys else false
    | Signature xparams xresults xvariadic, Signature yparams yresults yvariadic =>
        Bool.eqb xvariadic yvariadic &&
        (if lenZ xparams =? lenZ yparams then all2 (identical c) xparams yparams else false) &&
        (if lenZ xresults =? lenZ yresults then all2 (identical c) xresults yresults else false)
    | Interface a, Interface b =>
        if lenZ a =? lenZ b then
          all2 (fun f g =>
            negb (negb (bool_decide (Objects.func_Id f = Objects.func_Id g)) ||
                  negb (identical c (Objects.func_typ f) (Objects.func_typ g)))) a b
        else false
    | Map xk xe, Map yk ye => identical c xk yk && identical c xe ye
    | Chan xd x, Chan yd y => bool_decide (xd = yd) && identical c x y
    | Named xo xargs, Named yo yargs =>
        if negb (lenZ xargs =? lenZ yargs) then false
        else if negb (all2 (identical (MkComparer false false)) xargs yargs) then false
        else xo =? yo
    | _, _ => false
    end
  end.

Definition Identical (x y : type) : bool := identical (MkComparer false false) x y.

Definition IdenticalIgnoreTags (x y : type) : bool := identical (MkComparer true false) x y.

(** ** Equality of types, for the set of types seen *)

Section TypeInd.
Variable P : type -> Prop.
Hypotheses (HBasic : forall k, P (Basic k)) (HArray : forall n e, P e -> P (Array n e)) (HSlice : forall e, P e -> P (Slice e))
  (HStruct : forall fs tags, Forall (fun f => P (var_typ f)) fs -> P (Struct fs tags)) (HPointer : forall e, P e -> P (Pointer e))
  (HTuple : forall l, Forall P l -> P (Tuple l)) (HSignature : forall l r v, Forall P l -> Forall P r -> P (Signature l r v))
  (HInterface : forall l, Forall (fun f => P (Objects.func_typ f)) l -> P (Interface l)) (HMap : forall k e, P k -> P e -> P (Map k e))
  (HChan : forall d e, P e -> P (Chan d e)) (HNamed : forall o l, Forall P l -> P (Named o l)) (HAlias : forall t, P t -> P (Alias t)).

Fixpoint type_ind' (t : type) : P t :=
  let list_ind := fix all (l : list type) : Forall P l :=
    match l with [] => @List.Forall_nil _ _ | t :: l => @List.Forall_cons _ _ _ _ (type_ind' t) (all l) end in
  match t with
  | Basic k => HBasic k
  | Array n e => HArray n e (type_ind' e)
  | Slice e => HSlice e (type_ind' e)
  | Struct fs tags => HStruct fs tags ((fix all (l : list (Var type)) : Forall (fun f => P (var_typ f)) l :=
      match l with [] => @List.Forall_nil _ _ | f :: l => @List.Forall_cons _ (fun f => P (var_typ f)) _ _ (type_ind' (var_typ f)) (all l) end) fs)
  | Pointer e => HPointer e (type_ind' e)
  | Tuple l => HTuple l (list_ind l)
  | Signature l r b => HSignature l r b (list_ind l) (list_ind r)
  | Interface l => HInterface l ((fix all (l : list (Objects.Func type)) : Forall (fun f => P (Objects.func_typ f)) l :=
      match l with [] => @List.Forall_nil _ _ | f :: l => @List.Forall_cons _ (fun f => P (Objects.func_typ f)) _ _ (type_ind' (Objects.func_typ f)) (all l) end) l)
  | Map k e => HMap k e (type_ind' k) (type_ind' e)
  | Chan d e => HChan d e (type_ind' e)
  | Named o l => HNamed o l (list_ind l)
  | Alias t => HAlias t (type_ind' t)
  end.
End TypeInd.

Definition list_eqb {A} (P : A -> A -> bool) : list A -> list A -> bool :=
  fix eqb xs ys :=
    match xs, ys with
    | [], [] => true
    | x :: xs, y :: ys => P x y && eqb xs ys
    | _, _ => false
    end.

Fixpoint type_eqb (x y : type) : bool :=
  match x, y with
  | Basic k, Basic l => k =? l
  | Array m x, Array n y => (m =? n) && type_eqb x y
  | Slice x, Slice y => type_eqb x y
  | Struct fs tags, Struct gs tags' =>
      list_eqb (fun f g => bool_decide (var_object f = var_object g) && Bool.eqb (embedded f) (embedded g) && type_eqb (var_typ f) (var_typ g)) fs gs &&
      bool_decide (tags = tags')
  | Pointer x, Pointer y => type_eqb x y
  | Tuple l, Tuple k => list_eqb type_eqb l k
  | Signature l r b, Signature l' r' b' => list_eqb type_eqb l l' && list_eqb type_eqb r r' && Bool.eqb b b'
  | Interface l, Interface k =>
      list_eqb (fun f g => bool_decide (Objects.func_object f = Objects.func_object g) && type_eqb (Objects.func_typ f) (Objects.func_typ g)) l k
  | Map k e, Map k' e' => type_eqb k k' && type_eqb e e'
  | Chan d e, Chan d' e' => bool_decide (d = d') && type_eqb e e'
  | Named o l, Named o' l' => (o =? o') && list_eqb type_eqb l l'
  | Alias t, Alias u => type_eqb t u
  | _, _ => false
  end.

Lemma list_eqb_eq {A} (P : A -> A -> bool) l : Forall (fun x => forall y, P x y = true <-> x = y) l -> forall k, list_eqb P l k = true <-> l = k.
Proof.
  induction 1 as [|x l Hx Hl IH]; intros [|y k]; cbn; try done. rewrite andb_true_iff, Hx, IH. split; [by intros [-> ->]|by intros [= -> ->]].
Qed.

Lemma type_eqb_eq x : forall y, type_eqb x y = true <-> x = y.
Proof.
  induction x using type_ind'; intros []; cbn [type_eqb]; try done;
    rewrite ?andb_true_iff, ?bool_decide_eq_true, ?Z.eqb_eq, ?Bool.eqb_true_iff, ?list_eqb_eq by done.
  all: try (rewrite IHx || rewrite IHx1, IHx2); try (split; [by intuition subst|by intros [= -> ->] || by intros [= ->] || by intros [= -> -> ->]]).
  - rewrite list_eqb_eq; [split; [by intros [-> ->]|by intros [= -> ->]]|]. revert H. apply Forall_impl. intros [ob b t] Ht [ob' b' t']. cbn in *.
    rewrite !andb_true_iff, bool_decide_eq_true, Bool.eqb_true_iff, Ht. split; [by intros [[-> ->] ->]|by intros [= -> -> ->]].
  - rewrite list_eqb_eq; [split; [by intros ->|by intros [= ->]]|]. revert H. apply Forall_impl. intros [ob t] Ht [ob' t']. cbn in *.
    rewrite andb_true_iff, bool_decide_eq_true, Ht. split; [by intros [-> ->]|by intros [= -> ->]].
Qed.

#[global] Instance type_eq_dec : EqDecision type.
Proof. intros x y. destruct (type_eqb x y) eqn:E; [left; by apply type_eqb_eq|right; intros F; apply type_eqb_eq in F; congruence]. Defined.

(** ** Underlying types and comparability *)

(** The declarations of a program, once they are set up: what a defined type is
    declared as, with its type arguments in place, and the finitely many types
    that the comparison of a type looks into. *)
Class Decls := {
  underlying : Z -> list type -> type;
  parts : type -> list type }.

Section Declared.
Context {D : Decls}.

(** The underlying type of a defined type is not a defined type. *)
Definition under (t : type) : type :=
  match Unalias t with
  | Named obj targs => Unalias (underlying obj targs)
  | t => t
  end.

Definition IsInterface (t : type) : bool :=
  match under t with
  | Interface _ => true
  | _ => false
  end.

Definition hasNil (t : type) : bool :=
  match under t with
  | Basic kind => kind =? UnsafePointer
  | Slice _ | Pointer _ | Signature _ _ _ | Map _ _ | Chan _ _ => true
  | Interface _ => true
  | _ => false
  end.

(** [typeError]: a format with its arguments. *)
Record typeError := MkTypeError { format_ : string; args : list type }.

Definition emptyTypeError : typeError := MkTypeError "" [].

Definition typeErrorf (format : string) (args : list type) : typeError :=
  if bool_decide (format = ""%string) then emptyTypeError else MkTypeError format args.

(** [comparableType]: the error, if any, and the types seen.  The type set of an
    interface is all types, and has no comparable bit. *)
Fixpoint comparableType (fuel : nat) (T : type) (dynamic : bool) (seen : list type) : res string (option typeError * list type) :=
  match fuel with
  | O => NoFuel
  | S fuel =>
      if bool_decide (T ∈ seen) then Ok (None, seen)
      else
        let seen := T :: seen in
        match under T with
        | Basic kind => if kind =? UntypedNil then Ok (Some (typeErrorf "" []), seen) else Ok (None, seen)
        | Pointer _ | Chan _ _ => Ok (None, seen)
        | Struct fields _ =>
            (fix loop (fs : list (Var type)) (seen : list type) : res string (option typeError * list type) :=
               match fs with
               | [] => Ok (None, seen)
               | f :: fs =>
                   match comparableType fuel (var_typ f) dynamic seen with
                   | Ok (Some _, seen) => Ok (Some (typeErrorf "struct containing %s cannot be compared" [var_typ f]), seen)
                   | Ok (None, seen) => loop fs seen
                   | r => r
                   end
               end) fields seen
        | Array _ elem =>
            match comparableType fuel elem dynamic seen with
            | Ok (Some _, seen) => Ok (Some (typeErrorf "%s cannot be compared" [T]), seen)
            | r => r
            end
        | Interface _ =>
            if dynamic then Ok (None, seen)
            else Ok (Some (typeErrorf "incomparable types in type set" []), seen)
        | Slice elem =>
            match comparableType fuel elem dynamic seen with
            | Ok (Some _, seen) => Ok (Some (typeErrorf "slice with non-comparable element type %s" [elem]), seen)
            | r => r
            end
        | _ => Ok (Some (typeErrorf "" []), seen)
        end
  end.

(** Enough fuel, by [comparableType_spec]. *)
Definition comparable_fuel (t : type) : nat := S (length (parts t)).

Definition Comparable (T : type) : bool :=
  match comparableType (comparable_fuel T) T true [] with Ok (None, _) => true | _ => false end.

Definition strictly_comparable (T : type) : bool :=
  match comparableType (comparable_fuel T) T false [] with Ok (None, _) => true | _ => false end.
End Declared.
