(* ===== verification/Identity.v ===== *)
(** * Identity of types

    [identical] is an equivalence, underlying types and comparability respect
    it, and [comparableType] decides whether all types that a type is made of
    can be compared.  Hence types are an instance of what terms need. *)

From stdpp Require Import relations.
From S2P Require Import Prelude.
From S2P Require Objects.
From S2P Require Import Types.
From S2P Require Terms.

#[local] Open Scope Z_scope.

(** ** Aliases *)

Lemma Unalias_Unalias t : Unalias (Unalias t) = Unalias t.
Proof. by induction t. Qed.

Definition plain (t : type) : bool := match t with Alias _ => false | _ => true end.

Lemma plain_Unalias t : plain (Unalias t) = true.
Proof. by induction t. Qed.

Lemma Unalias_plain t : plain t = true -> Unalias t = t.
Proof. by destruct t. Qed.

Lemma isValid_Unalias t : isValid (Unalias t) = isValid t.
Proof. unfold isValid. by rewrite Unalias_Unalias. Qed.

Lemma identical_Unalias_r c x : forall y, identical c x (Unalias y) = identical c x y.
Proof.
  induction x using type_ind'; intros y; cbn [identical]; rewrite ?Unalias_Unalias; try done.
Qed.

Lemma identical_Unalias_l c x y : identical c (Unalias x) y = identical c x y.
Proof. by induction x. Qed.

(** Induction over pairs of types that are not aliases. *)
Lemma identical_plain c (Q : bool -> bool -> Prop) x y : Q (identical c (Unalias x) (Unalias y)) (identical c (Unalias y) (Unalias x)) -> Q (identical c x y) (identical c y x).
Proof. by rewrite !identical_Unalias_l, !identical_Unalias_r. Qed.

(** ** Identity is an equivalence *)

(** The comparers of [Identical] and [IdenticalIgnoreTags]. *)
Definition comparing (b : bool) : comparer := MkComparer b false.

(** One round of the loop over the fields. *)
Definition same_field (b : bool) (tags tags' : list (list byte)) (i : nat) (f g : Var type) : bool :=
  Bool.eqb (embedded f) (embedded g) && (b || bool_decide (Tag tags i = Tag tags' i)) &&
  Objects.sameId (var_object f) (Objects.pkg (var_object g)) (Objects.name (var_object g)) &&
  identical (comparing b) (var_typ f) (var_typ g).

Fixpoint same_fields (b : bool) (tags tags' : list (list byte)) (i : nat) (fs gs : list (Var type)) : bool :=
  match fs, gs with
  | [], [] => true
  | f :: fs, g :: gs => same_field b tags tags' i f g && same_fields b tags tags' (S i) fs gs
  | _, _ => false
  end.

Definition same_method (b : bool) (f g : Objects.Func type) : bool :=
  bool_decide (Objects.func_Id f = Objects.func_Id g) && identical (comparing b) (Objects.func_typ f) (Objects.func_typ g).

Lemma all2_list_eqb {A} (P Q : A -> A -> bool) xs : forall ys, (forall x y, P x y = Q x y) ->
  (if lenZ xs =? lenZ ys then all2 P xs ys else false) = list_eqb Q xs ys.
Proof.
  unfold lenZ. induction xs as [|x xs IH]; intros [|y ys] H; cbn [all2 list_eqb length]; try done.
  rewrite <- IH, H by done. destruct (Q x y); cbn [negb andb]; destruct (Z.of_nat (S (length xs)) =? Z.of_nat (S (length ys))) eqn:E1, (Z.of_nat (length xs) =? Z.of_nat (length ys)) eqn:E2; try done; lia.
Qed.

(** The equations of [identical] on types that are not aliases. *)
Lemma identical_Struct b fs tags gs tags' : identical (comparing b) (Struct fs tags) (Struct gs tags') = same_fields b tags tags' 0 fs gs.
Proof.
  cbn [identical Unalias comparing ignoreInvalids andb]. unfold lenZ. generalize 0%nat as i. revert gs. induction fs as [|f fs IH]; intros [|g gs] i; cbn [length same_fields]; try done.
  rewrite <- IH. unfold same_field. cbn [ignoreTags comparing].
  destruct (Bool.eqb _ _), b, (bool_decide _), (Objects.sameId _ _ _); cbn [negb andb orb]; try (by destruct (Z.of_nat (S (length fs)) =? Z.of_nat (S (length gs)))).
  all: destruct (identical _ (var_typ f) _); cbn [negb andb orb]; destruct (Z.of_nat (S (length fs)) =? Z.of_nat (S (length gs))) eqn:E1, (Z.of_nat (length fs) =? Z.of_nat (length gs)) eqn:E2; try done; lia.
Qed.

Lemma identical_Tuple b l k : identical (comparing b) (Tuple l) (Tuple k) = list_eqb (identical (comparing b)) l k.
Proof. cbn [identical Unalias comparing ignoreInvalids andb]. by apply all2_list_eqb. Qed.

Lemma identical_Signature b l r v l' r' v' : identical (comparing b) (Signature l r v) (Signature l' r' v') =
  Bool.eqb v v' && list_eqb (identical (comparing b)) l l' && list_eqb (identical (comparing b)) r r'.
Proof. cbn [identical Unalias comparing ignoreInvalids andb]. by rewrite !(all2_list_eqb _ (identical (comparing b))). Qed.

Lemma identical_Interface b l k : identical (comparing b) (Interface l) (Interface k) = list_eqb (same_method b) l k.
Proof.
  cbn [identical Unalias comparing ignoreInvalids andb]. apply all2_list_eqb. intros f g. unfold same_method.
  by destruct (bool_decide _), (identical _ _ _).
Qed.

Lemma identical_Named b o l o' l' : identical (comparing b) (Named o l) (Named o' l') = list_eqb Identical l l' && (o =? o').
Proof.
  cbn [identical Unalias comparing ignoreInvalids andb]. rewrite <- (all2_list_eqb Identical Identical) by done.
  unfold Identical. destruct (lenZ l =? lenZ l'); cbn [negb]; [|done]. by destruct (all2 _ _ _).
Qed.

(** To show a property of two types, show it where neither is an alias. *)
Ltac unaliased y :=
  rewrite <- (identical_Unalias_r _ _ y), <- ?(identical_Unalias_l _ y);
  let H := fresh "Hy" in pose proof (plain_Unalias y) as H; destruct (Unalias y); [..|discriminate H]; clear H;
  rewrite ?identical_Struct, ?identical_Tuple, ?identical_Signature, ?identical_Interface, ?identical_Named;
  try reflexivity.

Lemma list_eqb_refl {A} (P : A -> A -> bool) l : Forall (fun x => P x x = true) l -> list_eqb P l l = true.
Proof. induction 1 as [|x l Hx Hl IH]; cbn; [done|]. by rewrite Hx. Qed.

Lemma list_eqb_sym {A} (P : A -> A -> bool) l : Forall (fun x => forall y, P x y = P y x) l -> forall k, list_eqb P l k = list_eqb P k l.
Proof. induction 1 as [|x l Hx Hl IH]; intros [|y k]; cbn; try done. by rewrite Hx, IH. Qed.

Lemma list_eqb_trans {A} (P : A -> A -> bool) (ok : A -> bool) l : Forall (fun x => ok x = true -> forall y z, ok y = true -> ok z = true -> P x y = true -> P y z = true -> P x z = true) l ->
  forallb ok l = true -> forall k m, forallb ok k = true -> forallb ok m = true -> list_eqb P l k = true -> list_eqb P k m = true -> list_eqb P l m = true.
Proof.
  induction 1 as [|x l Hx Hl IH]; intros Ol [|y k] [|z m] Ok Om; cbn in *; try done.
  apply andb_true_iff in Ol as [Ox Ol], Ok as [Oy Ok], Om as [Oz Om]. intros [H1 H2]%andb_true_iff [K1 K2]%andb_true_iff.
  apply andb_true_iff. split; [by apply (Hx Ox y z)|by apply (IH Ol k m)].
Qed.

Lemma sameId_refl f : Objects.sameId f (Objects.pkg f) (Objects.name f) = true.
Proof. unfold Objects.sameId, Objects.samePkg. rewrite bool_decide_eq_true_2 by done. destruct (Objects.Exported f), (Objects.pkg f); cbn; try done. by apply bool_decide_eq_true. Qed.

Lemma samePkg_sym p q : Objects.samePkg p q = Objects.samePkg q p.
Proof. destruct p, q; cbn; try done. by apply bool_decide_ext. Qed.

Lemma sameId_sym f g : Objects.sameId f (Objects.pkg g) (Objects.name g) = Objects.sameId g (Objects.pkg f) (Objects.name f).
Proof.
  unfold Objects.sameId, Objects.Exported. rewrite (bool_decide_ext (Objects.name g = Objects.name f) (Objects.name f = Objects.name g)) by done.
  case_bool_decide as E; cbn [negb]; [|done]. rewrite E. destruct (Objects.isExported _); [done|]. apply samePkg_sym.
Qed.

Lemma sameId_trans f g h : Objects.sameId f (Objects.pkg g) (Objects.name g) = true -> Objects.sameId g (Objects.pkg h) (Objects.name h) = true ->
  Objects.sameId f (Objects.pkg h) (Objects.name h) = true.
Proof.
  unfold Objects.sameId, Objects.Exported, Objects.samePkg. repeat case_bool_decide; cbn [negb]; try done; try congruence.
  rewrite H. destruct (Objects.isExported _); [done|]. destruct (Objects.pkg f), (Objects.pkg g), (Objects.pkg h); try done.
  rewrite !bool_decide_eq_true. congruence.
Qed.


Lemma same_fields_refl b tags fs : Forall (fun f => identical (comparing b) (var_typ f) (var_typ f) = true) fs -> forall i, same_fields b tags tags i fs fs = true.
Proof.
  induction 1 as [|f fs Hf Hfs IH]; intros i; cbn [same_fields]; [done|]. unfold same_field.
  rewrite IH, Hf, sameId_refl, (bool_decide_eq_true_2 (Tag tags i = Tag tags i)), eqb_reflx by done. by destruct b.
Qed.

(** Every type is identical to itself, whatever the comparer: the test of
    pointers changes nothing. *)
Lemma identical_refl x : forall b, identical (comparing b) x x = true.
Proof.
  induction x using type_ind'; intros b; rewrite ?identical_Struct, ?identical_Tuple, ?identical_Signature, ?identical_Interface, ?identical_Named.
  1, 2, 3, 5, 9, 10, 12: cbn [identical Unalias comparing ignoreInvalids andb].
  - apply Z.eqb_refl.
  - by rewrite Z.eqb_refl, orb_true_r, IHx.
  - apply IHx.
  - apply IHx.
  - by rewrite IHx1, IHx2.
  - by rewrite bool_decide_eq_true_2, IHx.
  - rewrite <- identical_Unalias_r. cbn [Unalias]. by rewrite identical_Unalias_r.
  - apply same_fields_refl. revert H. by apply Forall_impl.
  - apply list_eqb_refl. revert H. by apply Forall_impl.
  - rewrite eqb_reflx. rewrite !list_eqb_refl; [done|revert H0; by apply Forall_impl|revert H; by apply Forall_impl].
  - apply list_eqb_refl. revert H. apply Forall_impl. intros f Hf. unfold same_method. by rewrite bool_decide_eq_true_2, Hf.
  - rewrite Z.eqb_refl, andb_true_r. apply list_eqb_refl. revert H. apply Forall_impl. intros t Ht. apply (Ht false).
Qed.

Lemma same_fields_sym b tags tags' fs : Forall (fun f => forall y, identical (comparing b) (var_typ f) y = identical (comparing b) y (var_typ f)) fs ->
  forall gs i, same_fields b tags tags' i fs gs = same_fields b tags' tags i gs fs.
Proof.
  induction 1 as [|f fs Hf Hfs IH]; intros [|g gs] i; cbn [same_fields]; try done. unfold same_field.
  rewrite IH, Hf, sameId_sym, (bool_decide_ext (Tag tags i = Tag tags' i) (Tag tags' i = Tag tags i)) by done.
  by destruct (embedded f), (embedded g).
Qed.

Lemma identical_sym x : forall b y, identical (comparing b) x y = identical (comparing b) y x.
Proof.
  induction x using type_ind'; intros b y; [..|rewrite <- (identical_Unalias_r _ y); cbn [Unalias identical]; by rewrite identical_Unalias_r]; unaliased y.
  all: cbn [identical Unalias comparing ignoreInvalids andb].
  - apply Z.eqb_sym.
  - f_equal; [|apply IHx]. rewrite (orb_comm (_ <? 0)), Z.eqb_sym. done.
  - apply IHx.
  - apply same_fields_sym. revert H. by apply Forall_impl.
  - apply IHx.
  - apply list_eqb_sym. revert H. by apply Forall_impl.
  - rewrite (list_eqb_sym _ l), (list_eqb_sym _ r); [by destruct v, variadic|revert H0; by apply Forall_impl|revert H; by apply Forall_impl].
  - apply list_eqb_sym. revert H. apply Forall_impl. intros f Hf g. unfold same_method. rewrite Hf.
    by rewrite (bool_decide_ext (Objects.func_Id f = Objects.func_Id g) (Objects.func_Id g = Objects.func_Id f)).
  - by rewrite IHx1, IHx2.
  - rewrite IHx. by rewrite (bool_decide_ext (d = dir) (dir = d)).
  - rewrite Z.eqb_sym. f_equal. apply list_eqb_sym. revert H. apply Forall_impl. intros t Ht. apply (Ht false).
Qed.

(** Arrays of known length only, at any depth. *)
Fixpoint sized (t : type) : bool :=
  match t with
  | Basic _ => true
  | Array n e => (0 <=? n) && sized e
  | Slice e | Pointer e | Chan _ e | Alias e => sized e
  | Struct fs _ => forallb (fun f => sized (var_typ f)) fs
  | Tuple l | Named _ l => forallb sized l
  | Signature l r _ => forallb sized l && forallb sized r
  | Interface l => forallb (fun f => sized (Objects.func_typ f)) l
  | Map k e => sized k && sized e
  end.

Lemma sized_Unalias t : sized (Unalias t) = sized t.
Proof. by induction t. Qed.

Definition transitive_at (x : type) : Prop :=
  forall b, sized x = true -> forall y z, sized y = true -> sized z = true ->
  identical (comparing b) x y = true -> identical (comparing b) y z = true -> identical (comparing b) x z = true.

Lemma same_fields_trans b tags tags' tags'' fs : Forall (fun f => transitive_at (var_typ f)) fs -> forallb (fun f => sized (var_typ f)) fs = true ->
  forall gs hs i, forallb (fun f => sized (var_typ f)) gs = true -> forallb (fun f => sized (var_typ f)) hs = true ->
  same_fields b tags tags' i fs gs = true -> same_fields b tags' tags'' i gs hs = true -> same_fields b tags tags'' i fs hs = true.
Proof.
  induction 1 as [|f fs Hf Hfs IH]; intros Of [|g gs] [|h hs] i Og Oh; cbn [same_fields forallb] in *; try done.
  apply andb_true_iff in Of as [Of Ofs], Og as [Og Ogs], Oh as [Oh Ohs]. intros [H1 H2]%andb_true_iff [K1 K2]%andb_true_iff.
  rewrite (IH Ofs gs hs (S i)) by done. rewrite andb_true_r. unfold same_field in *. rewrite !andb_true_iff, !eqb_true_iff in *.
  destruct H1 as [[[E1 T1] I1] M1], K1 as [[[E2 T2] I2] M2]. split_and!.
  - congruence.
  - destruct b; cbn [orb] in *; [done|]. rewrite bool_decide_eq_true in *. congruence.
  - by apply (sameId_trans _ (var_object g)).
  - by apply (Hf b Of (var_typ g)).
Qed.


Lemma trans_list l b : Forall transitive_at l -> forallb sized l = true -> forall k m, forallb sized k = true -> forallb sized m = true ->
  list_eqb (identical (comparing b)) l k = true -> list_eqb (identical (comparing b)) k m = true -> list_eqb (identical (comparing b)) l m = true.
Proof. intros H. apply list_eqb_trans. revert H. apply Forall_impl. intros t Ht. apply (Ht b). Qed.

Lemma trans_methods l b : Forall (fun f => transitive_at (Objects.func_typ f)) l -> forallb (fun f => sized (Objects.func_typ f)) l = true ->
  forall k m, forallb (fun f => sized (Objects.func_typ f)) k = true -> forallb (fun f => sized (Objects.func_typ f)) m = true ->
  list_eqb (same_method b) l k = true -> list_eqb (same_method b) k m = true -> list_eqb (same_method b) l m = true.
Proof.
  intros H. apply list_eqb_trans. revert H. apply Forall_impl. intros f Hf Of g h Og Oh. unfold same_method.
  rewrite !andb_true_iff, !bool_decide_eq_true. intros [E1 H1] [E2 H2]. split; [congruence|]. by apply (Hf b Of (Objects.func_typ g)).
Qed.

Ltac chain H := eapply H; [assumption|..|eassumption|eassumption]; assumption.

Lemma identical_trans x : transitive_at x.
Proof.
  induction x using type_ind'; [..|by intros b Ox y z Oy Oz; cbn [identical]; apply (IHx b)].
  all: intros b Ox y z; rewrite <- (sized_Unalias y), <- (sized_Unalias z), <- (identical_Unalias_r _ _ y), <- (identical_Unalias_r _ _ z), <- (identical_Unalias_l _ y), <- (identical_Unalias_r _ _ z).
  all: pose proof (plain_Unalias y) as Py; pose proof (plain_Unalias z) as Pz; destruct (Unalias y); try discriminate Py; clear Py.
  all: intros Oy Oz Hxy Hyz; try discriminate Hxy; destruct (Unalias z); try discriminate Pz; clear Pz; try discriminate Hyz.
  all: rewrite ?identical_Struct, ?identical_Tuple, ?identical_Signature, ?identical_Interface, ?identical_Named in *.
  all: cbn [identical Unalias comparing ignoreInvalids andb sized] in *; rewrite ?andb_true_iff in *; destruct_and?.
  - lia.
  - split; [lia|chain (IHx b)].
  - chain (IHx b).
  - eapply same_fields_trans; [exact H|assumption|..|exact Hxy|exact Hyz]; assumption.
  - chain (IHx b).
  - eapply trans_list; [exact H|assumption|..|exact Hxy|exact Hyz]; assumption.
  - rewrite !eqb_true_iff in *. split_and!; [congruence|chain (trans_list _ b H)|chain (trans_list _ b H0)].
  - chain (trans_methods _ b H).
  - split; [chain (IHx1 b)|chain (IHx2 b)].
  - rewrite !bool_decide_eq_true in *. split; [congruence|chain (IHx b)].
  - split; [chain (trans_list _ false H)|lia].
Qed.

(** ** Underlying types *)

(** The types that the comparison of a type goes on to. *)
Definition contents {D : Decls} (t : type) : list type :=
  match under t with
  | Struct fs _ => map var_typ fs
  | Array _ e | Slice e => [e]
  | _ => []
  end.

(** What holds of declarations that are set up. *)
Class DeclLaws (D : Decls) := {
  underlying_not_named obj targs o l : Unalias (underlying obj targs) <> Named o l;
  underlying_sized obj targs : forallb sized targs = true -> sized (underlying obj targs) = true;
  underlying_Identical obj targs targs' : list_eqb Identical targs targs' = true -> Identical (underlying obj targs) (underlying obj targs') = true;
  parts_self t : In t (parts t);
  parts_closed t u v : In u (parts t) -> In v (contents u) -> In v (parts t) }.

Section Declared.
Context {D : Decls} {L : DeclLaws D}.

Lemma under_Unalias t : under (Unalias t) = under t.
Proof. unfold under. by rewrite Unalias_Unalias. Qed.

(** An underlying type is neither an alias nor a defined type. *)
Lemma under_literal t : plain (under t) = true /\ forall o l, under t <> Named o l.
Proof.
  unfold under. pose proof (plain_Unalias t) as P. destruct (Unalias t); try done. split; [apply plain_Unalias|]. intros o l. apply underlying_not_named.
Qed.

Lemma under_under t : under (under t) = under t.
Proof. destruct (under_literal t) as [P N]. unfold under at 1. rewrite Unalias_plain by done. destruct (under t); try done. by destruct (N obj targs). Qed.

Lemma under_sized t : sized t = true -> sized (under t) = true.
Proof.
  rewrite <- sized_Unalias. unfold under. destruct (Unalias t); try done. cbn [sized]. intros H. rewrite sized_Unalias. by apply underlying_sized.
Qed.

Lemma under_Identical t u : Identical t u = true -> Identical (under t) (under u) = true.
Proof.
  unfold Identical. rewrite <- (identical_Unalias_l _ t), <- (identical_Unalias_r _ _ u), <- (under_Unalias t), <- (under_Unalias u).
  pose proof (plain_Unalias t) as Pt. pose proof (plain_Unalias u) as Pu. destruct (Unalias t); try discriminate Pt; destruct (Unalias u); try discriminate Pu; intros H; try discriminate H; try exact H.
  change (identical (comparing false) (Named obj targs) (Named obj0 targs0) = true) in H. rewrite identical_Named in H. apply andb_true_iff in H as [H ->%Z.eqb_eq].
  unfold under. cbn [Unalias]. rewrite identical_Unalias_l, identical_Unalias_r. by apply underlying_Identical.
Qed.

(** ** Comparability *)

(** Types that are not comparable whatever they contain. *)
Definition comparable_kind (dynamic : bool) (t : type) : bool :=
  match under t with
  | Basic k => negb (k =? UntypedNil)
  | Pointer _ | Chan _ _ | Struct _ _ | Array _ _ | Slice _ => true
  | Interface _ => dynamic
  | _ => false
  end.

Definition reaches : type -> type -> Prop := rtc (fun t u => In u (contents t)).

(** The types that are not yet seen. *)
Definition unseen (univ seen : list type) : nat := length (List.filter (fun t => negb (bool_decide (t ∈ seen))) univ).

Lemma unseen_mono univ seen seen' : (forall t, t ∈ seen -> t ∈ seen') -> (unseen univ seen' <= unseen univ seen)%nat.
Proof.
  intros H. unfold unseen. induction univ as [|t univ IH]; cbn; [done|].
  destruct (bool_decide (t ∈ seen)) eqn:E; cbn [negb].
  - apply bool_decide_eq_true in E. rewrite bool_decide_eq_true_2 by auto. done.
  - destruct (bool_decide (t ∈ seen')); cbn; lia.
Qed.

Lemma unseen_less univ seen t : In t univ -> t ∉ seen -> (unseen univ (t :: seen) < unseen univ seen)%nat.
Proof.
  intros Hin Hn. unfold unseen. induction univ as [|u univ IH]; [done|]. cbn [List.filter].
  pose proof (unseen_mono univ seen (t :: seen) ltac:(intros; by right)) as Hm. unfold unseen in Hm.
  destruct (decide (u = t)) as [->|Ne].
  - rewrite bool_decide_eq_true_2 by by left. rewrite bool_decide_eq_false_2 by done. cbn. lia.
  - destruct Hin as [?|Hin]; [done|]. specialize (IH Hin). destruct (bool_decide (u ∈ seen)) eqn:E; cbn [negb].
    + apply bool_decide_eq_true in E. rewrite bool_decide_eq_true_2 by by right. done.
    + apply bool_decide_eq_false in E. rewrite bool_decide_eq_false_2 by (by intros [?|?]%elem_of_cons). cbn. lia.
Qed.


(** The types between two sets of seen types can be compared as far as their
    kinds go, and lead to seen types only. *)
Definition visited (dynamic : bool) (seen seen' : list type) : Prop :=
  (forall t, t ∈ seen -> t ∈ seen') /\
  forall t, t ∈ seen' -> t ∉ seen -> comparable_kind dynamic t = true /\ forall u, In u (contents t) -> u ∈ seen'.

Lemma visited_refl dynamic seen : visited dynamic seen seen.
Proof. by split. Qed.

Lemma visited_trans dynamic s1 s2 s3 : visited dynamic s1 s2 -> visited dynamic s2 s3 -> visited dynamic s1 s3.
Proof.
  intros [H1 K1] [H2 K2]. split; [auto|]. intros t Ht Hn. destruct (decide (t ∈ s2)) as [Hs|Hs]; [|by apply K2].
  destruct (K1 t Hs Hn) as [Hc Hu]. auto.
Qed.

Lemma visited_root dynamic t seen seen' : t ∉ seen -> comparable_kind dynamic t = true -> visited dynamic (t :: seen) seen' ->
  (forall u, In u (contents t) -> u ∈ seen') -> t ∈ seen' /\ visited dynamic seen seen'.
Proof.
  intros Hn Hk [H K] Hc. split; [apply H; by left|]. split; [intros u Hu; apply H; by right|].
  intros u Hu Hun. destruct (decide (u = t)) as [->|Ne]; [by split|]. apply K; [done|]. by intros [?|?]%elem_of_cons.
Qed.

(** What a visit of some types gives: all are seen, or one leads to a type that
    cannot be compared. *)
Definition visits (dynamic : bool) (l : list type) (seen : list type) (r : res string (option typeError * list type)) : Prop :=
  exists e seen', r = Ok (e, seen') /\
    match e with
    | None => (forall t, In t l -> t ∈ seen') /\ visited dynamic seen seen'
    | Some _ => exists t u, In t l /\ reaches t u /\ comparable_kind dynamic u = false
    end.

Definition visit_fields (fuel : nat) (dynamic : bool) : list (Var type) -> list type -> res string (option typeError * list type) :=
  fix loop fs seen :=
    match fs with
    | [] => Ok (None, seen)
    | f :: fs =>
        match comparableType fuel (var_typ f) dynamic seen with
        | Ok (Some _, seen) => Ok (Some (typeErrorf "struct containing %s cannot be compared" [var_typ f]), seen)
        | Ok (None, seen) => loop fs seen
        | r => r
        end
    end.

Section Visit.
Context (dynamic : bool) (univ : list type) (Hclosed : forall t u, In t univ -> In u (contents t) -> In u univ).

Definition visits_at (fuel : nat) : Prop :=
  forall t seen, In t univ -> (unseen univ seen < fuel)%nat -> visits dynamic [t] seen (comparableType fuel t dynamic seen).

Lemma visit_fields_visits fuel : visits_at fuel -> forall fs seen, (forall f, In f fs -> In (var_typ f) univ) -> (unseen univ seen < fuel)%nat ->
  visits dynamic (map var_typ fs) seen (visit_fields fuel dynamic fs seen).
Proof.
  intros IH. induction fs as [|f fs IHfs]; intros seen Hin Hf; cbn [visit_fields map].
  { exists None, seen. split; [done|]. split; [by intros t []|apply visited_refl]. }
  destruct (IH (var_typ f) seen (Hin f (or_introl eq_refl)) Hf) as (e & seen1 & -> & He). destruct e as [e|].
  - eexists _, _. split; [done|]. destruct He as (t & u & [<-|[]] & Hr & Hk). exists (var_typ f), u. by split; [left|].
  - destruct He as [Ht Hv]. destruct (IHfs seen1) as (e & seen2 & -> & He); [by intros g Hg; apply Hin; right| |].
    { pose proof (unseen_mono univ seen seen1 (proj1 Hv)). lia. }
    exists e, seen2. split; [done|]. destruct e as [e|].
    + destruct He as (t & u & Hin' & H). exists t, u. by split; [right|].
    + destruct He as [Ht' Hv']. split; [|by apply (visited_trans _ _ seen1)]. intros t [<-|Hin']; [|by apply Ht'].
      apply (proj1 Hv'), Ht. by left.
Qed.

(** A type whose contents have been visited. *)
Lemma visits_whole t seen r r' : t ∉ seen -> comparable_kind dynamic t = true -> visits dynamic (contents t) (t :: seen) r ->
  (forall seen', r = Ok (None, seen') -> r' = Ok (None, seen')) -> (forall e seen', r = Ok (Some e, seen') -> exists e', r' = Ok (Some e', seen')) ->
  visits dynamic [t] seen r'.
Proof.
  intros Hn Hk (e & seen' & E & H) Hnone Hsome. destruct e as [e|].
  - destruct (Hsome _ _ E) as [e' ->]. eexists _, _. split; [done|]. destruct H as (u & v & Hin & Hr & Hc).
    exists t, v. split_and!; [by left| |done]. by apply rtc_l with u.
  - rewrite (Hnone _ E). eexists _, _. split; [done|]. destruct H as [Hc Hv]. destruct (visited_root dynamic t seen seen' Hn Hk Hv Hc) as [Ht Hv'].
    split; [|done]. by intros u [<-|[]].
Qed.

Lemma visits_bad t seen e : comparable_kind dynamic t = false -> visits dynamic [t] seen (Ok (Some e, t :: seen)).
Proof. intros Hk. eexists _, _. split; [done|]. exists t, t. split_and!; [by left|apply rtc_refl|done]. Qed.

Lemma comparableType_visits fuel : visits_at fuel.
Proof.
  induction fuel as [|fuel IH]; intros t seen Hin Hf; [lia|]. cbn [comparableType]. case_bool_decide as Hs.
  { exists None, seen. split; [done|]. split; [by intros u [<-|[]]|apply visited_refl]. }
  pose proof (unseen_less univ seen t Hin Hs) as Hless.
  assert (Hc : contents t = contents t) by done. assert (Hk : comparable_kind dynamic t = comparable_kind dynamic t) by done.
  unfold contents at 2 in Hc. unfold comparable_kind at 2 in Hk. cbv zeta.
  assert (Leaf : contents t = [] -> comparable_kind dynamic t = true -> visits dynamic [t] seen (Ok (None, t :: seen))).
  { intros E K. apply (visits_whole t seen (Ok (None, t :: seen))); [done..| |done|done]. rewrite E. eexists _, _. split; [done|]. split; [by intros u []|apply visited_refl]. }
  assert (One : forall u, contents t = [u] -> visits dynamic (contents t) (t :: seen) (comparableType fuel u dynamic (t :: seen))).
  { intros u E. rewrite E. apply IH; [|lia]. apply (Hclosed t); [done|]. rewrite E. by left. }
  destruct (under t) as [k|n x|x|fs tags|x|l|l r v|l|x y|d x|o l|x]; try (by apply Leaf); try (by apply visits_bad).
  - destruct (k =? UntypedNil); [by apply visits_bad|by apply Leaf].
  - apply (visits_whole t seen _ _ Hs Hk (One x Hc)); [by intros seen' ->|]. intros e seen' ->. by eexists.
  - apply (visits_whole t seen _ _ Hs Hk (One x Hc)); [by intros seen' ->|]. intros e seen' ->. by eexists.
  - change (visits dynamic [t] seen (visit_fields fuel dynamic fs (t :: seen))).
    apply (visits_whole t seen (visit_fields fuel dynamic fs (t :: seen))); [done..| |done|intros e seen' ->; by eexists].
    rewrite Hc. apply visit_fields_visits; [done| |lia]. intros f Hfin. apply (Hclosed t); [done|]. rewrite Hc. by apply in_map.
  - pose proof (visits_bad t seen) as Bad. destruct dynamic; [by apply Leaf|by apply Bad].
Qed.
End Visit.


Lemma unseen_nil univ : unseen univ [] = length univ.
Proof. unfold unseen. induction univ as [|t univ IH]; [done|]. cbn [List.filter]. rewrite bool_decide_eq_false_2 by apply not_elem_of_nil. cbn [negb length]. by rewrite IH. Qed.

Lemma visited_all dynamic seen t u : visited dynamic [] seen -> reaches t u -> t ∈ seen -> u ∈ seen /\ comparable_kind dynamic u = true.
Proof.
  intros [_ H] Hr Ht. induction Hr as [t|t v u Hv Hr IH]; [split; [done|by apply H; [|apply not_elem_of_nil]]|].
  apply IH. apply (H t Ht (not_elem_of_nil _)), Hv.
Qed.

Lemma comparableType_decides fuel t dynamic : (length (parts t) < fuel)%nat ->
  exists e seen, comparableType fuel t dynamic [] = Ok (e, seen) /\ (e = None <-> forall u, reaches t u -> comparable_kind dynamic u = true).
Proof.
  intros Hf. destruct (comparableType_visits dynamic (parts t) (fun u v => parts_closed t u v) fuel t [] (parts_self t) ltac:(by rewrite unseen_nil)) as (e & seen & E & H).
  exists e, seen. split; [done|]. destruct e as [e|].
  - destruct H as (v & u & [<-|[]] & Hr & Hk). split; [done|]. intros K. specialize (K u Hr). congruence.
  - destruct H as [Ht Hv]. split; [|done]. intros _ u Hr. eapply (visited_all dynamic seen t u Hv Hr). apply Ht. by left.
Qed.

Lemma strictly_comparable_iff t : strictly_comparable t = true <-> forall u, reaches t u -> comparable_kind false u = true.
Proof.
  unfold strictly_comparable, comparable_fuel. destruct (comparableType_decides (S (length (parts t))) t false ltac:(lia)) as (e & seen & -> & H).
  rewrite <- H. by destruct e.
Qed.

(** Identical types have identical contents, and compare alike. *)
Lemma same_fields_contents tags tags' fs : forall gs i, same_fields false tags tags' i fs gs = true ->
  forall u, In u (map var_typ fs) -> exists v, In v (map var_typ gs) /\ Identical u v = true.
Proof.
  induction fs as [|f fs IH]; intros [|g gs] i; cbn [same_fields]; try done. intros [H1 H2]%andb_true_iff u [<-|Hu].
  - exists (var_typ g). split; [by left|]. unfold same_field in H1. by apply andb_true_iff in H1 as [_ H1].
  - destruct (IH gs (S i) H2 u Hu) as (v & Hv & E). exists v. by split; [right|].
Qed.

Lemma Identical_contents t u : Identical t u = true ->
  (forall d, comparable_kind d t = comparable_kind d u) /\ forall v, In v (contents t) -> exists w, In w (contents u) /\ Identical v w = true.
Proof.
  intros H%under_Identical. unfold comparable_kind, contents. destruct (under_literal t) as [Pt Nt], (under_literal u) as [Pu Nu].
  destruct (under t), (under u); try discriminate; try (by split; [|intros v []]); try (by destruct (Nt _ _ eq_refl)).
  - apply Z.eqb_eq in H as ->. by split; [|intros v []].
  - split; [done|]. intros v [<-|[]]. eexists. split; [by left|]. cbn in H. by apply andb_true_iff in H as [_ H].
  - split; [done|]. intros v [<-|[]]. eexists. by split; [left|].
  - split; [done|]. change (identical (comparing false) (Struct fields tags) (Struct fields0 tags0) = true) in H.
    rewrite identical_Struct in H. by apply (same_fields_contents tags tags0 fields fields0 0).
Qed.

Lemma Identical_reaches t v : reaches t v -> forall u, Identical t u = true -> exists w, reaches u w /\ Identical v w = true.
Proof.
  induction 1 as [t|t x v Hx Hr IH]; intros u E; [by exists u; split; [apply rtc_refl|]|].
  destruct (proj2 (Identical_contents t u E) x Hx) as (y & Hy & Exy). destruct (IH y Exy) as (w & Hw & Ew). exists w. split; [|done]. by apply rtc_l with y.
Qed.

Lemma Identical_comparable t u : Identical t u = true -> strictly_comparable t = strictly_comparable u.
Proof.
  assert (K : forall t u, Identical t u = true -> strictly_comparable t = true -> strictly_comparable u = true).
  { clear t u. intros t u E. rewrite !strictly_comparable_iff. intros H w Hw. rewrite (identical_sym t false u : Identical t u = Identical u t) in E.
    destruct (Identical_reaches u w Hw t E) as (v & Hv & Ev). rewrite (proj1 (Identical_contents w v Ev)). by apply H. }
  intros E. apply eq_true_iff_eq. split; apply K; [done|]. by rewrite (identical_sym u false t : Identical u t = Identical t u).
Qed.

Lemma contents_under t : contents (under t) = contents t.
Proof. unfold contents. by rewrite under_under. Qed.

Lemma comparable_kind_under d t : comparable_kind d (under t) = comparable_kind d t.
Proof. unfold comparable_kind. by rewrite under_under. Qed.

Lemma under_comparable t : strictly_comparable (under t) = strictly_comparable t.
Proof.
  apply eq_true_iff_eq. rewrite !strictly_comparable_iff. split; intros H u Hu.
  - inversion Hu as [|? x ? Hx Hr]; subst; [rewrite <- comparable_kind_under; apply H, rtc_refl|]. apply H. apply rtc_l with x; [by rewrite contents_under|done].
  - inversion Hu as [|? x ? Hx Hr]; subst; [rewrite comparable_kind_under; apply H, rtc_refl|]. apply H. apply rtc_l with x; [by rewrite contents_under in Hx|done].
Qed.

(** ** Types as an instance of what terms need *)

#[global] Instance type_ops (String_ : type -> string) : Terms.TypeOps := {
  Terms.type_ := type;
  Terms.Identical := Identical;
  Terms.under := under;
  Terms.Unalias := Unalias;
  Terms.comparable_type := strictly_comparable;
  Terms.IsInterface := IsInterface;
  Terms.isValid := isValid;
  Terms.type_String := String_ }.

#[global] Instance type_laws String_ : Terms.TypeLaws (type_ops String_).
Proof.
  apply (Terms.Build_TypeLaws (type_ops String_) (fun t => sized t = true)); cbn.
  - intros t _. apply (identical_refl t false).
  - intros t u _ _ E. by rewrite (identical_sym u false t : Identical u t = Identical t u).
  - intros t u v Ht Hu Hv. by apply (identical_trans t false).
  - apply under_sized.
  - intros t _. rewrite under_under. apply (identical_refl (under t) false).
  - intros t u _ _. apply under_Identical.
  - intros t. by rewrite sized_Unalias.
  - intros t _. unfold Identical. rewrite identical_Unalias_l. apply (identical_refl t false).
  - intros t u _ _. apply Identical_comparable.
  - intros t _. apply under_comparable.
Defined.

(** ** The claims *)

(** C11: [comparableType] returns, and finds no error exactly if a type and all
    types that it is made of, through structs, arrays and slices, are of a
    comparable kind; cycles through defined types end at the types seen.  Slices
    of comparable elements are comparable by the code and its comment, against
    the language specification and the tests of the repository. *)
Theorem comparableType_spec t dynamic fuel : (length (parts t) < fuel)%nat ->
  exists e seen, comparableType fuel t dynamic [] = Ok (e, seen) /\ (e = None <-> forall u, reaches t u -> comparable_kind dynamic u = true).
Proof. apply comparableType_decides. Qed.
End Declared.

(** C12: [Identical] and [IdenticalIgnoreTags] are equivalences on types without
    arrays of unknown length. *)
Theorem identical_equivalence b x y z : sized x = true -> sized y = true -> sized z = true ->
  identical (comparing b) x x = true /\
  identical (comparing b) x y = identical (comparing b) y x /\
  (identical (comparing b) x y = true -> identical (comparing b) y z = true -> identical (comparing b) x z = true).
Proof. intros Hx Hy Hz. split_and!; [apply identical_refl|apply identical_sym|]. by apply identical_trans. Qed.


(** ** A program with a recursive type

    [type List struct { next []List }], and other names for int. *)

Module Program.
Definition int : type := Basic 2.
Definition List_ : type := Named 1 [].
Definition next_field : Var type := MkVar (Objects.Object None (bytes_of_string "next")) false (Slice List_).
Definition declared (obj : Z) : type := if obj =? 1 then Struct [next_field] [] else int.

(** The types that a type is made of, down to names. *)
Fixpoint pieces (t : type) : list type :=
  t :: match t with
       | Array _ e | Slice e | Alias e => pieces e
       | Struct fs _ => concat (map (fun f => pieces (var_typ f)) fs)
       | _ => []
       end.

#[global] Instance decls : Decls := { underlying obj _ := declared obj; parts t := pieces t ++ pieces (declared 1) }.

Lemma pieces_self t : In t (pieces t).
Proof. destruct t; by left. Qed.

Lemma pieces_trans t : forall u w, In u (pieces t) -> In w (pieces u) -> In w (pieces t).
Proof.
  induction t using type_ind'; intros u w; cbn [pieces]; intros [<-|Hu] Hw; try done; right; try (by apply (IHt u w)).
  apply in_concat in Hu as (l & (f & <- & Hf)%in_map_iff & Hu). apply in_concat. exists (pieces (var_typ f)).
  split; [by apply (in_map (fun f => pieces (var_typ f)))|]. by apply (proj1 (Forall_forall _ _) H f Hf u w).
Qed.

Lemma pieces_Unalias t : In (Unalias t) (pieces t).
Proof. induction t using type_ind'; try (by left). by right. Qed.

Lemma contents_pieces t v : In v (contents t) -> In v (pieces t ++ pieces (declared 1)).
Proof.
  rewrite in_app_iff. unfold contents, under. pose proof (pieces_Unalias t) as Hp.
  assert (K : forall s, In v match s with Struct fs _ => map var_typ fs | Array _ e | Slice e => [e] | _ => [] end -> In v (pieces s)).
  { intros s Hv. destruct s; try done; right; try (destruct Hv as [<-|[]]; apply pieces_self).
    apply in_map_iff in Hv as (f & <- & Hf). apply in_concat. exists (pieces (var_typ f)). split; [by apply (in_map (fun f => pieces (var_typ f)))|apply pieces_self]. }
  destruct (Unalias t) as [| | | | | | | | | |o l|] eqn:E; try (intros Hv; left; apply (pieces_trans t _ v Hp); apply K; exact Hv).
  cbn [underlying decls]. unfold declared at 1. destruct (o =? 1); [|done]. intros Hv. right. by apply K.
Qed.

#[global] Instance decl_laws : DeclLaws decls.
Proof.
  split.
  - intros obj targs o l. cbn. unfold declared. by destruct (obj =? 1).
  - intros obj targs _. cbn. unfold declared. by destruct (obj =? 1).
  - intros obj targs targs' _. apply (identical_refl (declared obj) false).
  - intros t. apply in_app_iff. left. apply pieces_self.
  - intros t u v Hu Hv. apply contents_pieces in Hv. apply in_app_iff. apply in_app_iff in Hu as [Hu|Hu]; apply in_app_iff in Hv as [Hv|Hv]; auto.
    + left. by apply (pieces_trans t u).
    + right. by apply (pieces_trans (declared 1) u).
Qed.

(** A list is comparable in this dialect: it contains slices of lists only. *)
Example List_comparable : comparableType 3 List_ false [] = Ok (None, [Slice List_; List_]).
Proof. vm_compute. reflexivity. Qed.

Example map_not_comparable : exists e, comparableType 3 (Slice (Map int int)) true [] = Ok (Some e, [Map int int; Slice (Map int int)]).
Proof. eexists. vm_compute. reflexivity. Qed.
End Program.

Lemma comparableType_spec_witness : (length (parts Program.List_) < 9)%nat /\
  exists e seen, comparableType 9 Program.List_ false [] = Ok (e, seen) /\ (e = None <-> forall u, reaches Program.List_ u -> comparable_kind false u = true).
Proof.
  assert (H : (length (parts Program.List_) < 9)%nat) by (vm_compute; lia).
  split; [exact H|]. exact (comparableType_spec Program.List_ false 9 H).
Defined.

Lemma identical_equivalence_witness : sized (Slice Program.int) = true /\ sized (Alias (Slice Program.int)) = true /\
  (identical (comparing false) (Slice Program.int) (Slice Program.int) = true /\
   identical (comparing false) (Slice Program.int) (Alias (Slice Program.int)) = identical (comparing false) (Alias (Slice Program.int)) (Slice Program.int) /\
   (identical (comparing false) (Slice Program.int) (Alias (Slice Program.int)) = true -> identical (comparing false) (Alias (Slice Program.int)) (Slice Program.int) = true ->
    identical (comparing false) (Slice Program.int) (Slice Program.int) = true)).
Proof.
  split; [reflexivity|]. split; [reflexivity|].
  exact (identical_equivalence false (Slice Program.int) (Alias (Slice Program.int)) (Slice Program.int) eq_refl eq_refl eq_refl).
Defined.
